(* ===== verification/_CoqProject ===== *)
-Q . S2P
Prelude.v
Types.v
Bits.v
SideIndex.v
PriceIndex.v
MatchingBook.v
BookSpec.v
Links.v
BookQueue.v
BookRefinement.v
Effects.v
MatchingEngine.v
EngineRefinement.v
Fills.v
EngineMatching.v
EngineInvariant.v
EngineTotal.v
EngineStart.v
EngineProps.v
EngineTrace.v
ByteIo.v
FrameFormat.v
FileFrames.v
CommandCodec.v
Journal.v
JournalProps.v
StateHash.v
MarketDataCodec.v
Packet.v
OrderEntryCodec.v
Ledger.v
Risk.v
RiskGated.v
Reports.v
OpenOrders.v
ReportProps.v
MessageStream.v
Gateway.v
GatewayProps.v
Oms.v
Positions.v
SpscQueue.v
Pipeline.v
PipelineProps.v
TradingSession.v
SessionViews.v
SessionProps.v
OrderBook.v
Sequence.v
BookViews.v
EventFile.v
BookManager.v
Snapshot.v
SnapshotProps.v
Replay.v
Recovery.v
Publisher.v
FeedMirror.v
FeedEngine.v
FeedProps.v
UdpListener.v
Strategies.v
Ring.v
LobBook.v
LobQueue.v
LobEngine.v
StealQueue.v
WorkerPool.v
SmartPointers.v
Vector.v
ThreadPool.v
FeedGenerator.v
Workload.v
WorkloadProps.v
UiGateway.v
UiGatewayProps.v
Applications.v
ApplicationProps.v
Text.v
Optional.v
