(* ===== verification/Prelude.v ===== *)
(** * Market-data hub and exchange, and smaller programs

    A verification development for [src/mdh], a C++ exchange with its market-data feed,
    a trader that uses it and a gateway for browsers, of [src/LimitOrderBook], a
    stand-alone matching engine, of [src/ChaseLevThreadPool], a work-stealing pool, of
    [src/ThreadPool], a pool with priorities, and of five containers of [src]. File and
    function names in square brackets are relative to [src/mdh] ([include/...] and
    [src/...]) unless they name another project; the sources are read as written, with
    machine integers at their width.

    ** The program

    Clients send order-entry messages over TCP. The gateway turns them into commands,
    which go through a single-producer single-consumer queue to one matching thread.
    That thread checks a command against the ledger, matches it in the engine's order
    books and hands every event to the ledger, to the gateway, which routes private
    reports back to sessions, and to the market-data publisher, which turns the public
    ones into a feed. The feed is written to files or sent in UDP packets; a consumer
    checks its numbering, rebuilds the books from it, and recovers from a gap with a
    snapshot. Commands are journaled, and a journal can be replayed. A trader keeps its
    own view of its orders and positions from the reports it gets. The UI gateway is both:
    a trader for each of some demo accounts, by HTTP requests, and a consumer of the feed,
    whose books it pushes to browsers. The trading server runs the exchange and the UI
    gateway in one process; a demonstration strategy trades on the books it asks the UI
    gateway for. Two generators make work: commands for the engine and events of a feed.

    The stand-alone engine is a book of ordered maps of lists behind a ring of commands,
    with one worker. The work-stealing pool is a global queue of one producer, a Chase-Lev
    deque a worker, and workers that pop, publish and steal; the other pool is a priority
    queue behind a mutex with two condition variables. The containers are a growing array,
    a string, an optional value and two smart pointers.

    ** The files

    Foundations
    - [Prelude]: machine words, vectors, list lemmas, tactics, hint databases.
    - [Types]: [common/types.hpp], [exchange/core/*.hpp]: sides, commands, events.
    - [Effects]: state, output and failure as a monad, and its weakest preconditions
      [wp]. A failure stands for undefined behaviour or an exception.

    The matching engine ([exchange/matching])
    - [Bits], [SideIndex]: the price index of one side of a book: the three-level
      occupancy bitmap, the anchored ladder of levels and the overflow map. [PriceIndex]
      proves it to be a finite map from prices to levels with the best price at hand.
    - [MatchingBook]: the slab of nodes with its free list and the doubly linked queues,
      every operation of [matching_book.cpp]. [BookSpec] is the abstract book, a list of
      orders a side ([ABook]), and the class [BookOps] of what the engine asks of a
      book; [Links], [BookQueue] and [BookRefinement] prove that the slab implements it.
    - [MatchingEngine]: registration, the order directory, the three command handlers,
      matching and snapshots of [matching_engine.cpp], over any [BookOps].
      [EngineRefinement] lifts the refinement of the book to it. [Fills] says what
      matching means on lists, [EngineMatching], [EngineInvariant], [EngineTotal] and
      [EngineStart] prove the loop and the handlers against it.
    - [EngineProps], [EngineTrace]: the properties (C1 to C7), and what is said of events
      and handles beside them.

    Journal ([exchange/persistence])
    - [ByteIo] ([common/byte_io.hpp]), [FrameFormat], [FileFrames]: bytes, framed
      messages and files of frames, shared by the codecs. A file is the list of its
      bytes; whether it opens is an argument of the call.
    - [CommandCodec], [Journal], [JournalProps], [StateHash]: the frames of commands,
      the writer, the reader, the replay and the state fingerprint (C8, C9).

    Feed ([protocol], [net/packet], [book], [replay], [exchange/market_data])
    - [MarketDataCodec], [Packet]: the frames of the feed and its UDP packets.
    - [OrderBook], [Sequence], [BookManager], [EventFile], [Snapshot], [Replay]: the
      consumer's book, the sequence validator, the books by instrument, event files,
      snapshots and the replay with all of its options. [BookViews], [SnapshotProps],
      [Recovery] hold their properties (C16 to C18).
    - [Publisher], [FeedMirror], [FeedEngine], [FeedProps]: the publisher, and that a
      consumer of its feed has the engine's books (C19).
    - [UdpListener]: the dropping queue and the two threads of the listener (C20).

    Money ([exchange/ledger], [exchange/risk])
    - [Ledger], [Risk], [RiskGated]: balances, holds and settlement, the checks, and the
      engine behind them (C10, C12).
    - [Reports], [OpenOrders], [ReportProps]: the orders an account sees in the events
      that name it. The engine's events follow a protocol ([coherent]) under which this
      view is what rests on the books and what the ledger holds (C11).

    Threads and sessions
    - [SpscQueue], [Pipeline], [PipelineProps]: the lock-free queue, the sequencer and
      the matching thread, as interleaved atomic steps (C13 to C15).
    - [OrderEntryCodec], [MessageStream]: order-entry frames and their reassembly from a
      byte stream (C21).
    - [Gateway], [GatewayProps]: sessions, ownership of orders, routing and retention of
      reports, with a reader and a writer thread a connection (C22).

    The trader ([trader])
    - [Oms], [Positions]: the order management, the position tracker, the risk check and
      the gate that puts them together.
    - [TradingSession], [SessionViews], [SessionProps]: a trader at the exchange, with
      what travels between them, under any interleaving (C23).
    - [Strategies]: the strategy runtime, the market maker and the arbitrage strategy
      (Module [StrategyProps]: a quote that waits for an answer that will not come).

    The dashboard and the programs ([ui_gateway], [apps], [exchange/testing])
    - [UiGateway]: the hub of topics with its connections (Module [SseHub]), the sessions,
      the handlers of every route, the turn of the market-data loop, over any JSON library
      (class [JsonLibrary]). [UiGatewayProps]: what it pushes, whom it belongs to, what a
      request may change (C26 to C28).
    - [Applications]: the command lines, the seeding and the event sink of the trading
      server, the UDP sender, the replay program, and the demonstration that polls books.
      [ApplicationProps] puts the parts together: the file that is sent (C29), the exchange
      in a browser (C24), the strategy and the dashboard (C25).
    - [Workload], [WorkloadProps] (modules [SplitMix64], [LiveIndex], [Workload]): the
      generator of commands, its random numbers and its index of live orders (C30, C32).
      [FeedGenerator]: the generator of feed files (C31).

    The other projects
    - [Ring]: buffers of a power of two of slots, shared by the queues that mask indices.
    - [LobBook]: the stand-alone book, the two price-time queues it is, and those its
      README asks for (Module [LobProps]). [LobQueue]: its command ring, every access of
      [push] and [pop] with its memory order, the stores it may read and the data races it
      may be part of, and what one producer and the consumer know of each other.
      [LobEngine]: clients and the worker around it (C33).
    - [StealQueue]: the Chase-Lev deque and the global queue, one shared
      access a step, and what each thread knows of them in the middle of an operation.
      [WorkerPool]: the pool over them (C34).
    - [SmartPointers] (modules [SharedPtr], [UniquePtr]): [shared_pointer.cpp] and
      [unique_pointer.cpp], on a heap where using what was freed is a failure (C39).
    - [Vector] ([vector.cpp]): the growing array, on blocks of raw and live slots, with
      allocations and elements that may throw (C35, C36). [Text] ([string.cpp]): a string,
      on the same heap (C37). [Optional] ([optional.cpp]): elements that live or do not,
      with what they are told (C38).
    - [ThreadPool]: the pool with priorities, its critical sections and its sleeping
      threads (C40).
    In these files the definitions are a module and their properties another one after
    it, named with [Props].

    ** What is proved

    C1 to C7 are about one engine: it never fails and refines an engine whose books are
    price-time queues; what each command does, on every branch; conservation and priority;
    what holds of its books after any session. C8 and C9 rebuild an engine from its
    journal. C10 to C12 are the exchange's money: conservation, reservations, exactness of
    the checks within 64 bits. C13 to C15 are its threads: the queue is a FIFO, commands
    are matched in the order they were accepted, and none is forgotten while the pipeline
    runs. C16 to C20 follow the feed to the consumer's books, from a file or live. C21 to
    C23 follow a client: its bytes, its reports, its view of its orders and money, which
    is right but for immediate orders, whose end nobody reports. C24 to
    C29 are the programs: the books in a browser are the exchange's, a strategy that reads
    them has the levels they show and trades on them, the dashboard shows the feed whatever is asked of it
    meanwhile, its sessions and answers stay within their account, and a file that is sent
    arrives as what it holds. C30 to C32 are the generators: what they make is valid, and
    bounded draws end and are unbiased. C33 says that the stand-alone engine serves a
    price-time book, the README's while no order is filled in part and rests, and exactly
    when its worker races with its client; C34 that the work-stealing pool executes every task exactly once.
    C35 to C39 are the containers: constructors that throw leave no trace, vectors are
    lists, strings texts and optionals optional values whatever throws, shared objects
    live exactly as long as they are shared. C40 is that the pool with priorities loses no
    wake-up and comes to an end with all its tasks done.

    Theorems beside those: [JournalProps.command_frames], [MarketDataCodec.event_frames]
    and [OrderEntryCodec.message_frames] (the three codecs are bijective, errors included),
    [Packet.packet_roundtrip], [EngineProps.fill_or_kill],
    [EngineProps.trades_respect_limits], [EngineProps.directory_sound],
    [StateHash.fingerprint_of_state] (the hashed bytes determine the state),
    [SseHub.stream_converges] (a connection catches up), [UniquePtr.sole_ownership],
    [ThreadPoolProps.takes_highest], and the runs that show where the code does not do
    what it means to, as [RiskEngine.check_overflows], [PipelineProps.stop_loses_a_command],
    [GatewayProps.retained_after_live], [UdpListener.listener_abandons_frames],
    [StrategyProps.pending_quote_stalls], [UiGatewayProps.heard_after_gap],
    [SseHub.topic_starves], [FeedGeneratorProps.too_many_instruments],
    [SessionProps.immediate_order_stays_live], [SessionProps.rehash_is_undefined],
    [LobProps.partial_fill_rests_whole], [LobEngineProps.relaxed_load_races],
    [LobEngineProps.two_clients_race], [VectorProps.push_own_element],
    [VectorProps.reserve_leaks], [VectorProps.fill_overflows],
    [TextProps.failed_assignment_dangles] and [TextProps.last_word_fails].

    Components meet at interfaces. The engine is a function of any instance of [BookOps];
    [ABook] and [MatchingBook] are its two instances, related by [BookRefines], so every
    property is proved on lists and holds of the slab. The three codecs share
    [FrameFormat]. The pipeline takes its processor as a parameter. The views of
    [Reports] are the contract between the exchange and those who only see its events. The
    UI gateway and the demonstration are over any [JsonLibrary]; C25 asks for its laws
    ([JsonLaws]), and has a library that obeys them.

    ** Bounds and fuel

    - The matching loop has one turn of fuel for every slot of the slab, and one more:
      each turn but the last removes a resting order. Readers of buffers and files have
      the length of their input: each turn consumes a header. Both are proved to be
      enough; running out would be a failure, and C1, C8 and
      [Replay.feed_replay_total] exclude it. The book's
      loop of [LobBook] has a turn for every order it can pop, and one more (C33).
      A bounded draw has 2^64 turns: the generator draws every word in as many (C32).
    - A session has at most [MatchingBook.kNil] (2^32 - 1) commands: slab handles are 32
      bits wide. A registry has fewer than [kNoSlot] instruments.
    - Prices are below 2^63 - 2^18. The ladder computes [base_ + band_ticks_ - 1] and
      [price - base_] in signed 64-bit integers without a check, which would overflow
      above. Quantities are any 64-bit ones.
    - Ids of the stand-alone engine are 32 bits wide: at most 2^32 submissions. Indices of
      the work-stealing queues are signed 64-bit: schedules of fewer than 2^61 steps.
    - A string is counted by an [int] in some of its loops: fewer than 2^31 characters. A
      batch of the UDP sender is smaller than 2^16: its count in a packet is 16 bits wide.
    - Vectors hold at most [K] elements, with storage of [2 * K] addressable: capacities
      double. Programs on shared pointers have fewer than 2^64 statements: counts are
      64-bit. A pool of priorities has at least one worker; its own steps are bounded by
      [ThreadPoolProps.work], which counts what each thread and task has left.
    - Signed overflow is modelled as wrap-around where the program relies on amounts
      being small (ledger, risk, positions); the theorems say where they need them to be.

    ** Not modelled

    - Sockets, threads as such, clocks and files beyond their bytes: what a [read] or
      [write] answers, which thread runs next and whether a file opens are inputs of the
      models. Atomics are sequentially consistent steps; the condition variables of
      [src/mdh], which only hasten a step, and [OrderEntryGateway::stop] are left out. So is
      the order in which [std::unordered_multimap] and [std::unordered_map] list their
      entries.
    - The HTTP server of the UI gateway with its routes as patterns, its threads, [start]
      and [stop]; the React UI; what the programs print, their signals and sleeping; the
      random engines and distributions of the standard library, which are parameters of
      the feed generator; timers, benchmarks and the test programs of the other projects.
    - Memory orders weaker than sequential consistency, here and in the other projects,
      except in the ring of the stand-alone engine ([LobQueue]). There, stores go to the
      end of an object's history, and only the loads and stores of the ring order threads.
    - Whether an insertion into a [std::unordered_map] rehashes: a schedule of
      [TradingSession] says so, the other users of [Oms] take it that none does.
    - Futures, exceptions and the callables of the pools' tasks.
    - [any.cpp], [function.cpp], [tuple.cpp]: type erasure and recursive templates, whose
      content is the choice of overloads and virtual calls that the compiler makes. *)

From stdpp Require Export base tactics option list numbers gmap.
From Stdlib Require Export ZArith Lia.

#[global] Open Scope Z_scope.
#[global] Set Default Goal Selector "!".
#[global] Set Warnings "-clear-no-such-hyp".

(** ** Machine integers

    Every fixed-width integer of the program is a [Z]; the wrap-around of its
    C++ type is written out by these functions at the places where the code
    computes. Unsigned arithmetic wraps by the standard; signed overflow,
    which the standard leaves undefined, is modelled as the two's complement
    wrap the supported compilers produce. *)

Definition u8 (z : Z) : Z := z mod 2 ^ 8.
Definition u16 (z : Z) : Z := z mod 2 ^ 16.
Definition u32 (z : Z) : Z := z mod 2 ^ 32.
Definition u64 (z : Z) : Z := z mod 2 ^ 64.
Definition i64 (z : Z) : Z := (z + 2 ^ 63) mod 2 ^ 64 - 2 ^ 63.

Definition in_u8 (z : Z) : Prop := 0 ≤ z < 2 ^ 8.
Definition in_u16 (z : Z) : Prop := 0 ≤ z < 2 ^ 16.
Definition in_u32 (z : Z) : Prop := 0 ≤ z < 2 ^ 32.
Definition in_u64 (z : Z) : Prop := 0 ≤ z < 2 ^ 64.
Definition in_i64 (z : Z) : Prop := - 2 ^ 63 ≤ z < 2 ^ 63.

(** ** Vectors

    [std::vector] as a list indexed by a machine integer. Reading or writing
    out of range is undefined behaviour in the program ([operator[]] does not
    check), and [None] here. *)

Definition vsize {A} (l : list A) : Z := Z.of_nat (length l).

Definition vget {A} (l : list A) (i : Z) : option A :=
  if (0 <=? i) && (i <? vsize l) then l !! Z.to_nat i else None.

Definition vset {A} (l : list A) (i : Z) (x : A) : option (list A) :=
  if (0 <=? i) && (i <? vsize l) then Some (<[Z.to_nat i := x]> l) else None.

(** [vset] where the index is known to be in range. *)
Definition vput {A} (l : list A) (i : Z) (x : A) : list A := <[Z.to_nat i := x]> l.

(** ** Automation *)

Create HintDb mdh.
Create Rewrite HintDb wrap.

(** Open every existential and conjunction of the context. *)
Ltac unpack :=
  repeat match goal with
    | H : ∃ x, _ |- _ => let x' := fresh x in destruct H as [x' H]
    | H : _ ∧ _ |- _ => destruct H
    end.

(** Case analysis on the boolean comparisons of a goal, with the comparison
    left in the context in a form [lia] reads. *)
Ltac case_bool :=
  match goal with
  | |- context [if ?b then _ else _] =>
      let E := fresh "E" in destruct b eqn:E
  | H : context [if ?b then _ else _] |- _ =>
      let E := fresh "E" in destruct b eqn:E
  end.

(** Split the binds of a computation known to return. *)
Ltac bind_some :=
  repeat match goal with
    | H : mbind _ _ = Some _ |- _ =>
        apply bind_Some in H; destruct H as (? & ? & ?)
    end.

(** ** Wrap-around lemmas *)

Lemma u64_small z : in_u64 z → u64 z = z.
Proof. unfold in_u64, u64. intros. by apply Z.mod_small. Qed.

Lemma u32_small z : in_u32 z → u32 z = z.
Proof. unfold in_u32, u32. intros. by apply Z.mod_small. Qed.

Lemma u16_small z : in_u16 z → u16 z = z.
Proof. unfold in_u16, u16. intros. by apply Z.mod_small. Qed.

Lemma u8_small z : in_u8 z → u8 z = z.
Proof. unfold in_u8, u8. intros. by apply Z.mod_small. Qed.

Lemma i64_small z : in_i64 z → i64 z = z.
Proof. unfold in_i64, i64. intros. rewrite Z.mod_small; lia. Qed.

Lemma u64_range z : in_u64 (u64 z).
Proof. apply Z.mod_pos_bound. lia. Qed.

Lemma i64_range z : in_i64 (i64 z).
Proof.
  unfold in_i64, i64. pose proof (Z.mod_pos_bound (z + 2 ^ 63) (2 ^ 64)). lia.
Qed.

(** The signed and the unsigned reading of a word determine each other. *)
Lemma i64_u64 z : i64 (u64 z) = i64 z.
Proof. unfold i64, u64. rewrite Zplus_mod_idemp_l. done. Qed.

Lemma u64_i64 z : u64 (i64 z) = u64 z.
Proof.
  unfold i64, u64. rewrite Zminus_mod_idemp_l. f_equal. lia.
Qed.

Lemma i64_eq_mod a b : i64 a = i64 b ↔ a mod 2 ^ 64 = b mod 2 ^ 64.
Proof.
  split.
  - intros E. fold (u64 a) (u64 b). by rewrite <-(u64_i64 a), E, u64_i64.
  - intros E. by rewrite <-(i64_u64 a), <-(i64_u64 b); unfold u64; rewrite E.
Qed.

Lemma i64_add_idemp_l a b : i64 (i64 a + b) = i64 (a + b).
Proof.
  rewrite i64_eq_mod, Zplus_mod. fold (u64 (i64 a)). rewrite u64_i64.
  unfold u64. by rewrite <-Zplus_mod.
Qed.

Lemma i64_add_idemp_r a b : i64 (a + i64 b) = i64 (a + b).
Proof. rewrite Z.add_comm, i64_add_idemp_l. f_equal; lia. Qed.

Lemma i64_sub_idemp_l a b : i64 (i64 a - b) = i64 (a - b).
Proof. apply i64_add_idemp_l. Qed.

Lemma i64_sub_idemp_r a b : i64 (a - i64 b) = i64 (a - b).
Proof.
  rewrite i64_eq_mod, Zminus_mod. fold (u64 (i64 b)). rewrite u64_i64.
  unfold u64. by rewrite <-Zminus_mod.
Qed.

Lemma u64_add_idemp_l a b : u64 (u64 a + b) = u64 (a + b).
Proof. unfold u64. by rewrite Zplus_mod_idemp_l. Qed.

Lemma u64_add_idemp_r a b : u64 (a + u64 b) = u64 (a + b).
Proof. unfold u64. by rewrite Zplus_mod_idemp_r. Qed.

Lemma u64_sub_idemp_l a b : u64 (u64 a - b) = u64 (a - b).
Proof. unfold u64. by rewrite Zminus_mod_idemp_l. Qed.

#[export] Hint Rewrite @i64_add_idemp_l @i64_add_idemp_r @i64_sub_idemp_l
  @i64_sub_idemp_r @u64_add_idemp_l @u64_add_idemp_r @u64_sub_idemp_l : wrap.

#[export] Hint Resolve u64_range i64_range : mdh.

(** ** Vector lemmas *)

Section vectors.
Context {A : Type}.
Implicit Types (l : list A) (x : A) (i j : Z).

Lemma vget_Some l i x :
  vget l i = Some x ↔ 0 ≤ i ∧ l !! Z.to_nat i = Some x.
Proof.
  unfold vget, vsize. destruct (0 <=? i) eqn:E1; simpl; [|split; [done|lia]].
  destruct (i <? Z.of_nat (length l)) eqn:E2.
  - split; [intros; split; [lia|done]|by intros [_ ?]].
  - split; [done|]. intros [_ Hl%lookup_lt_Some]. lia.
Qed.

Lemma vget_lt l i x : vget l i = Some x → 0 ≤ i < vsize l.
Proof.
  rewrite vget_Some. intros [? H]. apply lookup_lt_Some in H. unfold vsize. lia.
Qed.

Lemma vget_is_Some l i : 0 ≤ i < vsize l → ∃ x, vget l i = Some x.
Proof.
  unfold vsize. intros. destruct (lookup_lt_is_Some_2 l (Z.to_nat i)) as [x Hx]; [lia|].
  exists x. apply vget_Some. split; [lia|done].
Qed.

Lemma vset_Some l i x : 0 ≤ i < vsize l → vset l i x = Some (vput l i x).
Proof.
  intros. unfold vset, vput. by replace ((0 <=? i) && (i <? vsize l)) with true by lia.
Qed.

Lemma vset_get l i x y : vget l i = Some y → vset l i x = Some (vput l i x).
Proof. intros ?%vget_lt. by apply vset_Some. Qed.

Lemma vset_inv l i x l' : vset l i x = Some l' → 0 ≤ i < vsize l ∧ l' = vput l i x.
Proof.
  unfold vset, vput. destruct ((0 <=? i) && (i <? vsize l)) eqn:E; [|done].
  intros [= <-]. split; [lia|done].
Qed.

Lemma vsize_vput l i x : vsize (vput l i x) = vsize l.
Proof. unfold vsize, vput. by rewrite length_insert. Qed.

Lemma vget_vput_eq l i x : 0 ≤ i < vsize l → vget (vput l i x) i = Some x.
Proof.
  unfold vsize. intros. apply vget_Some. split; [lia|].
  apply list_lookup_insert_eq. lia.
Qed.

Lemma vget_vput_ne l i j x : 0 ≤ i → i ≠ j → vget (vput l i x) j = vget l j.
Proof.
  intros. unfold vget. rewrite vsize_vput. case_bool; [|done].
  unfold vput. apply list_lookup_insert_ne. lia.
Qed.

Lemma vget_vput l i j x : 0 ≤ i < vsize l →
  vget (vput l i x) j = if decide (j = i) then Some x else vget l j.
Proof.
  intros. case_decide; [subst; by apply vget_vput_eq|apply vget_vput_ne; lia].
Qed.

Lemma vget_app_l l1 l2 i : i < vsize l1 → vget (l1 ++ l2) i = vget l1 i.
Proof.
  unfold vget, vsize. rewrite length_app. intros.
  destruct (0 <=? i) eqn:?; simpl; [|done].
  rewrite !(proj2 (Z.ltb_lt _ _)) by lia. apply lookup_app_l. lia.
Qed.

Lemma vget_snoc l x : vget (l ++ [x]) (vsize l) = Some x.
Proof.
  apply vget_Some. unfold vsize. split; [lia|].
  rewrite Nat2Z.id, lookup_app_r, Nat.sub_diag; done.
Qed.

Lemma vsize_snoc l x : vsize (l ++ [x]) = vsize l + 1.
Proof. unfold vsize. rewrite length_app. simpl. lia. Qed.

Lemma vsize_nonneg l : 0 ≤ vsize l.
Proof. unfold vsize. lia. Qed.

Lemma vget_replicate n x i : 0 ≤ i < Z.of_nat n → vget (replicate n x) i = Some x.
Proof.
  intros. apply vget_Some. split; [lia|]. apply lookup_replicate. split; [done|lia].
Qed.
End vectors.

#[export] Hint Resolve vget_vput_eq vsize_nonneg : mdh.

(** ** List lemmas *)

Lemma filter_all {A} (P : A → Prop) `{∀ x, Decision (P x)} (l : list A) :
  (∀ x, x ∈ l → P x) → filter P l = l.
Proof.
  induction l as [|x l IH]; [done|]. intros HP.
  rewrite filter_cons_True by (apply HP; by left). f_equal.
  apply IH. intros y Hy. apply HP. by right.
Qed.

Lemma filter_none {A} (P : A → Prop) `{∀ x, Decision (P x)} (l : list A) :
  (∀ x, x ∈ l → ¬ P x) → filter P l = [].
Proof.
  induction l as [|x l IH]; [done|]. intros HP.
  rewrite filter_cons_False by (apply HP; by left).
  apply IH. intros y Hy. apply HP. by right.
Qed.

(** ** Sums over finite maps *)

Section msum.
Context {K V : Type} `{Countable K}.
Implicit Types (f : K → V → Z) (m : gmap K V).

Definition msum f m : Z := map_fold (λ k v n, f k v + n) 0 m.

Lemma msum_empty f : msum f ∅ = 0.
Proof. apply map_fold_empty. Qed.

Lemma msum_delete f m k : msum f (delete k m) = msum f m - from_option (f k) 0 (m !! k).
Proof.
  destruct (m !! k) as [v|] eqn:E; simpl; [|by rewrite delete_id, Z.sub_0_r].
  unfold msum. rewrite (map_fold_delete_L _ _ k v m); [lia| |done]. intros; lia.
Qed.

Lemma msum_insert f m k v : msum f (<[k := v]> m) = msum f m + f k v - from_option (f k) 0 (m !! k).
Proof.
  pose proof (msum_delete f (<[k := v]> m) k) as H1. rewrite lookup_insert_eq in H1.
  rewrite delete_insert_eq in H1. pose proof (msum_delete f m k) as H2. simpl in H1. lia.
Qed.

Lemma msum_ext f g m : (∀ k v, m !! k = Some v → f k v = g k v) → msum f m = msum g m.
Proof.
  unfold msum. induction m as [|k v m Hk IH] using map_ind; [done|]. intros Hfg.
  rewrite !map_fold_insert_L by (intros; lia || done).
  rewrite (Hfg k v) by by rewrite lookup_insert_eq. f_equal. apply IH.
  intros k' v' Hl. apply Hfg. rewrite lookup_insert_ne by congruence. done.
Qed.
End msum.

(** ** Arithmetic modulo [2 ^ 64]

    Two integers are the same machine word when they are congruent; sums,
    differences and products respect that, and wrapping does not change the word,
    so a goal about wrapped arithmetic becomes one about integers by rewriting. *)

Definition eq64 (a b : Z) : Prop := a mod 2 ^ 64 = b mod 2 ^ 64.

Declare Scope word_scope.
Infix "≡₆₄" := eq64 (at level 70) : word_scope.
#[global] Open Scope word_scope.

#[export] Instance eq64_equiv : Equivalence eq64.
Proof. unfold eq64. split; [by intros x|by intros x y ->|by intros x y z -> ->]. Qed.

#[export] Instance eq64_add : Proper (eq64 ==> eq64 ==> eq64) Z.add.
Proof. intros a a' Ha b b' Hb. unfold eq64 in *. by rewrite Zplus_mod, Ha, Hb, <-Zplus_mod. Qed.

#[export] Instance eq64_sub : Proper (eq64 ==> eq64 ==> eq64) Z.sub.
Proof. intros a a' Ha b b' Hb. unfold eq64 in *. by rewrite Zminus_mod, Ha, Hb, <-Zminus_mod. Qed.

#[export] Instance eq64_mul : Proper (eq64 ==> eq64 ==> eq64) Z.mul.
Proof. intros a a' Ha b b' Hb. unfold eq64 in *. by rewrite Zmult_mod, Ha, Hb, <-Zmult_mod. Qed.

#[export] Instance eq64_opp : Proper (eq64 ==> eq64) Z.opp.
Proof. intros a a' Ha. rewrite <-(Z.sub_0_l a), <-(Z.sub_0_l a'). by rewrite Ha. Qed.

Lemma eq64_i64 a : i64 a ≡₆₄ a.
Proof. unfold eq64. fold (u64 (i64 a)). by rewrite u64_i64. Qed.

Lemma eq64_u64 a : u64 a ≡₆₄ a.
Proof. unfold eq64, u64. by rewrite Zmod_mod. Qed.

Lemma i64_eq64 a b : i64 a = i64 b ↔ a ≡₆₄ b.
Proof. apply i64_eq_mod. Qed.

Lemma u64_eq64 a b : u64 a = u64 b ↔ a ≡₆₄ b.
Proof. done. Qed.

Lemma eq64_eq a b : a = b → a ≡₆₄ b.
Proof. by intros ->. Qed.

(** Two values in range that are the same word are equal. *)
Lemma eq64_in_i64 a b : in_i64 a → in_i64 b → a ≡₆₄ b → a = b.
Proof. intros Ha Hb E. apply i64_eq64 in E. by rewrite !i64_small in E. Qed.

Lemma eq64_in_u64 a b : in_u64 a → in_u64 b → a ≡₆₄ b → a = b.
Proof. intros Ha Hb E. apply u64_eq64 in E. by rewrite !u64_small in E. Qed.

(** Erase the wraps of a congruence; the integers are then equal. *)
Ltac word :=
  rewrite ?i64_eq64, ?u64_eq64;
  repeat first [rewrite eq64_i64|rewrite eq64_u64];
  try (apply eq64_eq; (ring || lia)).

(** ** Counters

    The numbers a 64-bit counter hands out from [n] on, and where it then stands. *)

Fixpoint numbers (n : Z) (k : nat) : list Z :=
  match k with O => [] | S k => n :: numbers (u64 (n + 1)) k end.

Fixpoint bumped (n : Z) (k : nat) : Z :=
  match k with O => n | S k => bumped (u64 (n + 1)) k end.

Lemma numbers_app n j k : numbers n (j + k) = numbers n j ++ numbers (bumped n j) k.
Proof. revert n. induction j as [|j IH]; intros n; simpl; [done|]. by rewrite IH. Qed.

Lemma bumped_add n j k : bumped n (j + k) = bumped (bumped n j) k.
Proof. revert n. induction j as [|j IH]; intros n; simpl; [done|]. by rewrite IH. Qed.

Lemma length_numbers n k : length (numbers n k) = k.
Proof. revert n. induction k as [|k IH]; intros n; simpl; [done|]. by rewrite IH. Qed.
