(* ===== verification/Types.v ===== *)
(** * The exchange's vocabulary

    The types shared by every component: [include/common/types.hpp] (sides and
    the integer types), [include/exchange/core/types.hpp] (time in force,
    order types, reject reasons), [include/exchange/core/commands.hpp] and
    [include/exchange/core/events.hpp] (what goes into the matching engine and
    what comes out of it) and [include/exchange/matching/resting_order.hpp].
    Every integer field is a [Z]; [command_ok] and its companions say that the
    fields are values of their C++ types. *)

From S2P Require Import Prelude.

Abbreviation Sequence := Z (only parsing).
Abbreviation Timestamp := Z (only parsing).
Abbreviation OrderId := Z (only parsing).
Abbreviation InstrumentId := Z (only parsing).
Abbreviation Price := Z (only parsing).
Abbreviation Quantity := Z (only parsing).
Abbreviation AccountId := Z (only parsing).
Abbreviation ClientOrderId := Z (only parsing).
Abbreviation ExchangeOrderId := Z (only parsing).
Abbreviation CommandSequence := Z (only parsing).
Abbreviation EventSequence := Z (only parsing).

Inductive Side := Buy | Sell.

#[export] Instance Side_eq_dec : EqDecision Side.
Proof. solve_decision. Defined.

Definition Side_to_Z (s : Side) : Z := match s with Buy => 0 | Sell => 1 end.

(** [incoming.side == Side::Buy ? Side::Sell : Side::Buy] *)
Definition contra (s : Side) : Side := match s with Buy => Sell | Sell => Buy end.

Inductive OrderType := Limit.

#[export] Instance OrderType_eq_dec : EqDecision OrderType.
Proof. solve_decision. Defined.

Definition OrderType_to_Z (t : OrderType) : Z := match t with Limit => 0 end.

Inductive TimeInForce := GTC | IOC | FOK.

#[export] Instance TimeInForce_eq_dec : EqDecision TimeInForce.
Proof. solve_decision. Defined.

Definition TimeInForce_to_Z (t : TimeInForce) : Z :=
  match t with GTC => 0 | IOC => 1 | FOK => 2 end.

Module RejectReason.
Inductive t :=
  | None | InvalidPrice | InvalidQuantity | DuplicateOrderId | UnknownOrderId
  | InvalidInstrument | InsufficientLiquidity | InvalidReplacement | InternalError
  | InsufficientFunds | InsufficientPosition | OrderTooLarge | AccountMismatch.

#[global] Instance eq_dec : EqDecision t.
Proof. solve_decision. Defined.

Definition to_Z (r : t) : Z :=
  match r with
  | None => 0 | InvalidPrice => 1 | InvalidQuantity => 2 | DuplicateOrderId => 3
  | UnknownOrderId => 4 | InvalidInstrument => 5 | InsufficientLiquidity => 6
  | InvalidReplacement => 7 | InternalError => 8 | InsufficientFunds => 9
  | InsufficientPosition => 10 | OrderTooLarge => 11 | AccountMismatch => 12
  end.
End RejectReason.
Abbreviation RejectReason := RejectReason.t.

(** ** Commands *)

Record NewOrderCommand := mkNewOrder {
  no_command_sequence : CommandSequence;
  no_account_id : AccountId;
  no_client_order_id : ClientOrderId;
  no_instrument_id : InstrumentId;
  no_side : Side;
  no_price : Price;
  no_quantity : Quantity;
  no_order_type : OrderType;
  no_time_in_force : TimeInForce;
}.

Record CancelOrderCommand := mkCancelOrder {
  co_command_sequence : CommandSequence;
  co_account_id : AccountId;
  co_client_order_id : ClientOrderId;
  co_instrument_id : InstrumentId;
}.

Record ReplaceOrderCommand := mkReplaceOrder {
  ro_command_sequence : CommandSequence;
  ro_account_id : AccountId;
  ro_original_client_order_id : ClientOrderId;
  ro_new_client_order_id : ClientOrderId;
  ro_instrument_id : InstrumentId;
  ro_new_price : Price;
  ro_new_quantity : Quantity;
}.

Inductive ExchangeCommand :=
  | CmdNew (c : NewOrderCommand)
  | CmdCancel (c : CancelOrderCommand)
  | CmdReplace (c : ReplaceOrderCommand).

(** ** Events *)

Record TradeCounterparty := mkCounterparty {
  cp_account_id : AccountId;
  cp_client_order_id : ClientOrderId;
  cp_exchange_order_id : ExchangeOrderId;
  cp_remaining_quantity : Quantity;
}.

Record OrderAccepted := mkOrderAccepted {
  oa_event_sequence : EventSequence;
  oa_command_sequence : CommandSequence;
  oa_account_id : AccountId;
  oa_client_order_id : ClientOrderId;
  oa_exchange_order_id : ExchangeOrderId;
  oa_instrument_id : InstrumentId;
  oa_side : Side;
  oa_price : Price;
  oa_quantity : Quantity;
  oa_order_type : OrderType;
  oa_time_in_force : TimeInForce;
}.

Record OrderRejected := mkOrderRejected {
  orj_event_sequence : EventSequence;
  orj_command_sequence : CommandSequence;
  orj_account_id : AccountId;
  orj_client_order_id : ClientOrderId;
  orj_instrument_id : InstrumentId;
  orj_reason : RejectReason;
}.

Record OrderCancelled := mkOrderCancelled {
  oc_event_sequence : EventSequence;
  oc_command_sequence : CommandSequence;
  oc_account_id : AccountId;
  oc_client_order_id : ClientOrderId;
  oc_exchange_order_id : ExchangeOrderId;
  oc_instrument_id : InstrumentId;
}.

Record OrderReplaced := mkOrderReplaced {
  orp_event_sequence : EventSequence;
  orp_command_sequence : CommandSequence;
  orp_account_id : AccountId;
  orp_original_client_order_id : ClientOrderId;
  orp_new_client_order_id : ClientOrderId;
  orp_exchange_order_id : ExchangeOrderId;
  orp_instrument_id : InstrumentId;
  orp_new_price : Price;
  orp_new_quantity : Quantity;
}.

Record TradeExecuted := mkTradeExecuted {
  te_event_sequence : EventSequence;
  te_command_sequence : CommandSequence;
  te_instrument_id : InstrumentId;
  te_price : Price;
  te_quantity : Quantity;
  te_aggressor_side : Side;
  te_buyer : TradeCounterparty;
  te_seller : TradeCounterparty;
}.

Record BookOrderAdded := mkBookOrderAdded {
  ba_event_sequence : EventSequence;
  ba_instrument_id : InstrumentId;
  ba_exchange_order_id : ExchangeOrderId;
  ba_side : Side;
  ba_price : Price;
  ba_quantity : Quantity;
}.

Record BookOrderReduced := mkBookOrderReduced {
  br_event_sequence : EventSequence;
  br_instrument_id : InstrumentId;
  br_exchange_order_id : ExchangeOrderId;
  br_side : Side;
  br_price : Price;
  br_new_remaining_quantity : Quantity;
}.

Record BookOrderRemoved := mkBookOrderRemoved {
  bx_event_sequence : EventSequence;
  bx_instrument_id : InstrumentId;
  bx_exchange_order_id : ExchangeOrderId;
  bx_side : Side;
  bx_price : Price;
}.

Inductive ExchangeEvent :=
  | EvAccepted (e : OrderAccepted)
  | EvRejected (e : OrderRejected)
  | EvCancelled (e : OrderCancelled)
  | EvReplaced (e : OrderReplaced)
  | EvTrade (e : TradeExecuted)
  | EvAdded (e : BookOrderAdded)
  | EvReduced (e : BookOrderReduced)
  | EvRemoved (e : BookOrderRemoved).

Definition event_sequence (ev : ExchangeEvent) : EventSequence :=
  match ev with
  | EvAccepted e => oa_event_sequence e
  | EvRejected e => orj_event_sequence e
  | EvCancelled e => oc_event_sequence e
  | EvReplaced e => orp_event_sequence e
  | EvTrade e => te_event_sequence e
  | EvAdded e => ba_event_sequence e
  | EvReduced e => br_event_sequence e
  | EvRemoved e => bx_event_sequence e
  end.

(** ** Resting orders *)

(** What the book stores while an order rests. *)
Record BookOrder := mkBookOrder {
  bo_exchange_order_id : ExchangeOrderId;
  bo_client_order_id : ClientOrderId;
  bo_account_id : AccountId;
  bo_price : Price;
  bo_remaining_quantity : Quantity;
  bo_side : Side;
  bo_time_in_force : TimeInForce;
}.

Definition bo_with_remaining (q : Quantity) (o : BookOrder) : BookOrder :=
  mkBookOrder (bo_exchange_order_id o) (bo_client_order_id o) (bo_account_id o)
    (bo_price o) q (bo_side o) (bo_time_in_force o).

Definition bo_with_client_order_id (c : ClientOrderId) (o : BookOrder) : BookOrder :=
  mkBookOrder (bo_exchange_order_id o) c (bo_account_id o)
    (bo_price o) (bo_remaining_quantity o) (bo_side o) (bo_time_in_force o).

(** The complete form of a resting order. *)
Record ExchangeRestingOrder := mkRestingOrder {
  ero_exchange_order_id : ExchangeOrderId;
  ero_client_order_id : ClientOrderId;
  ero_account_id : AccountId;
  ero_price : Price;
  ero_original_quantity : Quantity;
  ero_remaining_quantity : Quantity;
  ero_order_sequence : Z;
  ero_instrument_id : InstrumentId;
  ero_side : Side;
  ero_time_in_force : TimeInForce;
}.

Definition ero_with_remaining (q : Quantity) (o : ExchangeRestingOrder) : ExchangeRestingOrder :=
  mkRestingOrder (ero_exchange_order_id o) (ero_client_order_id o) (ero_account_id o)
    (ero_price o) (ero_original_quantity o) q (ero_order_sequence o)
    (ero_instrument_id o) (ero_side o) (ero_time_in_force o).

Record InstrumentBookSnapshot := mkBookSnapshot {
  ibs_instrument_id : InstrumentId;
  ibs_bids : list ExchangeRestingOrder;
  ibs_asks : list ExchangeRestingOrder;
}.

(** [EngineStateSnapshot] is its one field, the instruments in ascending order. *)
Abbreviation EngineStateSnapshot := (list InstrumentBookSnapshot) (only parsing).

#[export] Instance BookOrder_eq_dec : EqDecision BookOrder.
Proof. solve_decision. Defined.

#[export] Instance ExchangeRestingOrder_eq_dec : EqDecision ExchangeRestingOrder.
Proof. solve_decision. Defined.

#[export] Instance NewOrderCommand_eq_dec : EqDecision NewOrderCommand.
Proof. solve_decision. Defined.

#[export] Instance CancelOrderCommand_eq_dec : EqDecision CancelOrderCommand.
Proof. solve_decision. Defined.

#[export] Instance ReplaceOrderCommand_eq_dec : EqDecision ReplaceOrderCommand.
Proof. solve_decision. Defined.

#[export] Instance ExchangeCommand_eq_dec : EqDecision ExchangeCommand.
Proof. solve_decision. Defined.

(** ** Commands whose fields are values of their types *)

Definition new_order_typed (c : NewOrderCommand) : Prop :=
  in_u64 (no_command_sequence c) ∧ in_u64 (no_account_id c) ∧
  in_u64 (no_client_order_id c) ∧ in_u32 (no_instrument_id c) ∧
  in_i64 (no_price c) ∧ in_u64 (no_quantity c).

Definition cancel_order_typed (c : CancelOrderCommand) : Prop :=
  in_u64 (co_command_sequence c) ∧ in_u64 (co_account_id c) ∧
  in_u64 (co_client_order_id c) ∧ in_u32 (co_instrument_id c).

Definition replace_order_typed (c : ReplaceOrderCommand) : Prop :=
  in_u64 (ro_command_sequence c) ∧ in_u64 (ro_account_id c) ∧
  in_u64 (ro_original_client_order_id c) ∧ in_u64 (ro_new_client_order_id c) ∧
  in_u32 (ro_instrument_id c) ∧ in_i64 (ro_new_price c) ∧ in_u64 (ro_new_quantity c).

Definition command_typed (c : ExchangeCommand) : Prop :=
  match c with
  | CmdNew c => new_order_typed c
  | CmdCancel c => cancel_order_typed c
  | CmdReplace c => replace_order_typed c
  end.
