(* ===== verification/Bits.v ===== *)
(** * Words of 64 bits

    The helpers of the anonymous namespace of
    [src/exchange/matching/matching_book.cpp] ([highest_bit], [lowest_bit],
    [mask_below], [mask_above]) over the standard library's [countl_zero] and
    [countr_zero], with what each computes in terms of [Z.testbit], and the
    tick-to-word arithmetic of the bitmap. *)

From S2P Require Import Prelude.

Module Bits.

(** [std::countr_zero] and [std::countl_zero] on [uint64_t]. *)
Fixpoint ctz_pos (p : positive) : Z :=
  match p with xO q => 1 + ctz_pos q | _ => 0 end.

Definition countr_zero (w : Z) : Z :=
  match w with Zpos p => ctz_pos p | _ => 64 end.

Definition countl_zero (w : Z) : Z :=
  if w =? 0 then 64 else 63 - Z.log2 w.

Definition highest_bit (w : Z) : Z := u32 (63 - countl_zero w).
Definition lowest_bit (w : Z) : Z := countr_zero w.

Definition mask_below (bit : Z) : Z :=
  if bit =? 0 then 0 else Z.shiftr (2 ^ 64 - 1) (64 - bit).
Definition mask_above (bit : Z) : Z :=
  if 63 <=? bit then 0 else u64 (Z.shiftl (2 ^ 64 - 1) (bit + 1)).


(** ** Facts *)

Lemma highest_bit_log2 w : 0 < w → in_u64 w → highest_bit w = Z.log2 w.
Proof.
  intros Hw [_ Hlt]. unfold highest_bit, countl_zero.
  rewrite (proj2 (Z.eqb_neq w 0)) by lia.
  pose proof (Z.log2_nonneg w). pose proof (proj1 (Z.log2_lt_pow2 w 64 Hw) Hlt).
  rewrite u32_small; unfold in_u32; lia.
Qed.

Lemma highest_bit_spec w :
  0 < w → in_u64 w →
  0 ≤ highest_bit w < 64 ∧ Z.testbit w (highest_bit w) = true ∧
  (∀ k, Z.testbit w k = true → k ≤ highest_bit w).
Proof.
  intros Hw Hr. rewrite highest_bit_log2 by done.
  pose proof (Z.log2_nonneg w). destruct Hr as [_ Hlt].
  pose proof (proj1 (Z.log2_lt_pow2 w 64 Hw) Hlt).
  split; [lia|]. split; [by apply Z.bit_log2|].
  intros k Hk. destruct (Z.le_gt_cases k (Z.log2 w)); [done|].
  rewrite Z.bits_above_log2 in Hk; [done|lia|done].
Qed.

Lemma ctz_pos_spec p :
  0 ≤ ctz_pos p ∧ Z.testbit (Zpos p) (ctz_pos p) = true ∧
  (∀ k, Z.testbit (Zpos p) k = true → ctz_pos p ≤ k).
Proof.
  induction p as [p IH|p (H0 & Hb & Hmin)|]; simpl.
  - split; [lia|]. split; [done|]. intros k Hk. destruct k; done || lia.
  - assert (Hodd : ∀ k, 0 ≤ k → Z.testbit (Zpos p~0) (1 + k) = Z.testbit (Zpos p) k).
    { intros k Hk. rewrite Pos2Z.inj_xO, Z.add_1_l. by apply Z.testbit_even_succ. }
    split; [lia|]. split; [by rewrite Hodd|].
    intros k Hk. destruct (Z.eq_dec k 0) as [->|Hne]; [done|].
    assert (0 ≤ k) by (destruct k; done || lia).
    replace k with (1 + (k - 1)) in Hk |- * by lia.
    rewrite Hodd in Hk by lia. apply Hmin in Hk. lia.
  - split; [lia|]. split; [done|]. intros k Hk. destruct k; done || lia.
Qed.

Lemma lowest_bit_spec w :
  0 < w → in_u64 w →
  0 ≤ lowest_bit w < 64 ∧ Z.testbit w (lowest_bit w) = true ∧
  (∀ k, Z.testbit w k = true → lowest_bit w ≤ k).
Proof.
  intros Hw Hr. destruct w as [|p|p]; [lia| |lia]. unfold lowest_bit, countr_zero.
  destruct (ctz_pos_spec p) as (H0 & Hb & Hmin).
  destruct (highest_bit_spec (Zpos p) Hw Hr) as (Hh & Hhb & _).
  pose proof (Hmin _ Hhb). split; [lia|done].
Qed.

(** A word is non-zero exactly when some bit of it is set. *)
Lemma nonzero_bit w : 0 ≤ w → w ≠ 0 ↔ ∃ k, Z.testbit w k = true.
Proof.
  intros Hw. split.
  - intros Hne. exists (Z.log2 w). apply Z.bit_log2. lia.
  - intros [k Hk] ->. by rewrite Z.bits_0 in Hk.
Qed.

Lemma testbit_range w k : in_u64 w → Z.testbit w k = true → 0 ≤ k < 64.
Proof.
  intros [H0 Hlt] Hk. destruct (Z.le_gt_cases 0 k); [|by rewrite Z.testbit_neg_r in Hk].
  split; [done|]. destruct (Z.lt_ge_cases k 64) as [|Hge]; [done|].
  assert (w ≠ 0) by (intros ->; by rewrite Z.bits_0 in Hk).
  rewrite Z.bits_above_log2 in Hk; [done|lia|].
  apply Z.log2_lt_pow2; [lia|]. apply Z.lt_le_trans with (2 ^ 64); [done|].
  apply Z.pow_le_mono_r; lia.
Qed.

Lemma testbit_ones64 k : Z.testbit (2 ^ 64 - 1) k = (0 <=? k) && (k <? 64).
Proof.
  replace (2 ^ 64 - 1) with (Z.ones 64) by done.
  destruct (Z.testbit_spec' 0 0) as []; [lia|].
  destruct (0 <=? k) eqn:E; simpl; [|apply Z.testbit_neg_r; lia].
  destruct (k <? 64) eqn:E'; [apply Z.ones_spec_low; lia|apply Z.ones_spec_high; lia].
Qed.

Lemma mask_below_bit b k : 0 ≤ b < 64 →
  Z.testbit (mask_below b) k = (0 <=? k) && (k <? b).
Proof.
  intros Hb. unfold mask_below. destruct (Z.eqb_spec b 0) as [->|].
  { rewrite Z.bits_0. destruct (0 <=? k) eqn:?, (k <? 0) eqn:?; done || lia. }
  destruct (Z.le_gt_cases 0 k).
  - rewrite Z.shiftr_spec, testbit_ones64 by lia. lia.
  - rewrite Z.testbit_neg_r by lia. lia.
Qed.

Lemma mask_above_bit b k : 0 ≤ b < 64 →
  Z.testbit (mask_above b) k = (b <? k) && (k <? 64).
Proof.
  intros Hb. unfold mask_above. destruct (63 <=? b) eqn:E.
  { rewrite Z.bits_0. lia. }
  destruct (Z.le_gt_cases 0 k); [|rewrite Z.testbit_neg_r by lia; lia].
  unfold u64. rewrite <-Z.land_ones, Z.land_spec, Z.shiftl_spec, testbit_ones64 by lia.
  destruct (k <? 64) eqn:E'.
  - rewrite Z.ones_spec_low by lia. lia.
  - rewrite Z.ones_spec_high by lia. lia.
Qed.

Lemma land_below_bit w b k : 0 ≤ b < 64 →
  Z.testbit (Z.land w (mask_below b)) k = true ↔ Z.testbit w k = true ∧ k < b.
Proof.
  intros Hb. rewrite Z.land_spec, mask_below_bit, andb_true_iff by done.
  split; [intros []; split; [done|lia]|].
  intros []. split; [done|].
  destruct (Z.le_gt_cases 0 k); [lia|]. by rewrite Z.testbit_neg_r in * by lia.
Qed.

Lemma land_above_bit w b k : in_u64 w → 0 ≤ b < 64 →
  Z.testbit (Z.land w (mask_above b)) k = true ↔ Z.testbit w k = true ∧ b < k.
Proof.
  intros Hw Hb. rewrite Z.land_spec, mask_above_bit, andb_true_iff by done.
  split; [intros []; split; [done|lia]|].
  intros [Hk ?]. split; [done|]. pose proof (testbit_range _ _ Hw Hk). lia.
Qed.

Lemma land_u64 w m : in_u64 w → 0 ≤ m → in_u64 (Z.land w m).
Proof.
  intros [H0 Hlt] Hm. split; [apply Z.land_nonneg; lia|].
  destruct (Z.eq_dec (Z.land w m) 0) as [->|]; [lia|].
  assert (0 ≤ Z.land w m) by (apply Z.land_nonneg; lia).
  apply Z.log2_lt_pow2; [lia|]. eapply Z.le_lt_trans; [apply Z.log2_land; lia|].
  destruct (Z.eq_dec w 0) as [->|]; [by rewrite Z.land_0_l in *|].
  pose proof (proj1 (Z.log2_lt_pow2 w 64 ltac:(lia)) Hlt). lia.
Qed.

Lemma mask_below_nonneg b : 0 ≤ b < 64 → 0 ≤ mask_below b.
Proof.
  intros. unfold mask_below. case_bool; [lia|]. by apply Z.shiftr_nonneg.
Qed.

Lemma mask_above_nonneg b : 0 ≤ mask_above b.
Proof. unfold mask_above. case_bool; [lia|]. apply u64_range. Qed.

(** Setting and clearing one bit. *)
Lemma lor_bit w b k : 0 ≤ b →
  Z.testbit (Z.lor w (Z.shiftl 1 b)) k = true ↔ Z.testbit w k = true ∨ k = b.
Proof.
  intros Hb. rewrite Z.shiftl_1_l, Z.lor_spec, Z.pow2_bits_eqb, orb_true_iff, Z.eqb_eq by done.
  naive_solver.
Qed.

Lemma clear_bit w b k : 0 ≤ b →
  Z.testbit (Z.land w (Z.lnot (Z.shiftl 1 b))) k = true ↔ Z.testbit w k = true ∧ k ≠ b.
Proof.
  intros Hb. destruct (Z.le_gt_cases 0 k).
  - rewrite Z.shiftl_1_l, Z.land_spec, Z.lnot_spec, Z.pow2_bits_eqb, andb_true_iff,
      negb_true_iff, Z.eqb_neq by done. naive_solver.
  - rewrite !Z.testbit_neg_r by done. naive_solver.
Qed.

Lemma lor_bit_u64 w b : in_u64 w → 0 ≤ b < 64 → in_u64 (Z.lor w (Z.shiftl 1 b)).
Proof.
  intros [H0 Hlt] Hb. rewrite Z.shiftl_1_l. split; [apply Z.lor_nonneg; lia|].
  assert (0 < Z.lor w (2 ^ b)).
  { assert (0 ≤ Z.lor w (2 ^ b)) by (apply Z.lor_nonneg; lia).
    enough (Z.lor w (2 ^ b) ≠ 0) by lia. intros [_ E]%Z.lor_eq_0_iff. lia. }
  apply Z.log2_lt_pow2; [done|]. rewrite Z.log2_lor, Z.log2_pow2 by lia.
  destruct (Z.eq_dec w 0) as [->|]; [simpl; lia|].
  pose proof (proj1 (Z.log2_lt_pow2 w 64 ltac:(lia)) Hlt). lia.
Qed.

Lemma clear_bit_u64 w b : in_u64 w → 0 ≤ b → in_u64 (Z.land w (Z.lnot (Z.shiftl 1 b))).
Proof.
  intros Hw Hb. assert (0 ≤ Z.land w (Z.lnot (Z.shiftl 1 b))) as H0.
  { apply Z.land_nonneg. left. apply Hw. }
  split; [done|].
  destruct (Z.eq_dec (Z.land w (Z.lnot (Z.shiftl 1 b))) 0) as [->|]; [lia|].
  apply Z.log2_lt_pow2; [lia|].
  assert (Z.testbit w (Z.log2 (Z.land w (Z.lnot (Z.shiftl 1 b)))) = true) as Hbit.
  { apply (clear_bit w b); [done|]. apply Z.bit_log2. lia. }
  apply (testbit_range _ _ Hw) in Hbit. lia.
Qed.

(** ** Ticks, words and bits *)

Lemma shiftr6 z : Z.shiftr z 6 = z / 64.
Proof. by rewrite Z.shiftr_div_pow2. Qed.

Lemma land63 z : Z.land z 63 = z mod 64.
Proof. change 63 with (Z.ones 6). by rewrite Z.land_ones. Qed.

Lemma lor_shiftl6 a b : 0 ≤ b < 64 → Z.lor (Z.shiftl a 6) b = 64 * a + b.
Proof.
  intros Hb. assert (Z.land (Z.shiftl a 6) b = 0) as Hand.
  { apply Z.bits_inj'. intros n Hn. rewrite Z.land_spec, Z.bits_0, Z.shiftl_spec by lia.
    destruct (Z.lt_ge_cases n 6); [by rewrite Z.testbit_neg_r by lia|].
    destruct (Z.eq_dec b 0) as [->|]; [by rewrite Z.bits_0, andb_false_r|].
    rewrite (Z.bits_above_log2 b), andb_false_r; [done|lia|].
    apply Z.log2_lt_pow2; [lia|].
    apply Z.lt_le_trans with (2 ^ 6); [lia|]. apply Z.pow_le_mono_r; lia. }
  rewrite <-Z.lxor_lor, <-Z.add_nocarry_lxor, Z.shiftl_mul_pow2 by (done || lia). lia.
Qed.

End Bits.
