(* ===== verification/SideIndex.v ===== *)
(** * One side's price index: a tick ladder with a bitmap, and an overflow map

    [MatchingBook::SideIndex] of [include/exchange/matching/matching_book.hpp]
    and [src/exchange/matching/matching_book.cpp]. Prices inside a band around
    the anchor are ticks of a flat array whose occupancy is a three-level
    bitmap; prices outside it live in an ordered map. [None] is undefined
    behaviour: an index out of a vector, a read of an array cell that was never
    written, the first element of an empty map.

    The theorems say that, on prices far enough from the ends of the signed
    64-bit range ([price_safe]), the whole structure is a finite map from prices
    to level slots whose [best_price] and [next_price] walk the keys in price
    priority. The last section shows what happens at the end of that range. *)

From S2P Require Import Prelude.
From S2P Require Import Types.
From S2P Require Import Bits.

Import Bits.

Module SideIndex.

(** ** State *)

(** End-of-chain and empty-level sentinel, [~0U]. *)
Definition kNil : Z := 2 ^ 32 - 1.

Record LevelSlot := mkLevel { head : Z; tail : Z }.

Definition empty_level : LevelSlot := mkLevel kNil kNil.

(** The ladder is allocated uninitialised: a cell is in the map once written. *)
Record t := mk {
  side_ : Side;
  band_ticks_ : Z;
  base_ : Price;
  anchored_ : bool;
  ladder_ : option (gmap Z LevelSlot);
  occupancy_ : list Z;
  mid_summary_ : list Z;
  summary_ : Z;
  overflow_ : gmap Z LevelSlot;
}.

Definition make (side : Side) (band_ticks : Z) : t :=
  mk side band_ticks 0 false None [] [] 0 ∅.

Definition with_bitmap (occ mid : list Z) (sum : Z) (s : t) : t :=
  mk (side_ s) (band_ticks_ s) (base_ s) (anchored_ s) (ladder_ s) occ mid sum (overflow_ s).

Definition with_ladder (l : gmap Z LevelSlot) (s : t) : t :=
  mk (side_ s) (band_ticks_ s) (base_ s) (anchored_ s) (Some l)
    (occupancy_ s) (mid_summary_ s) (summary_ s) (overflow_ s).

Definition with_overflow (m : gmap Z LevelSlot) (s : t) : t :=
  mk (side_ s) (band_ticks_ s) (base_ s) (anchored_ s) (ladder_ s)
    (occupancy_ s) (mid_summary_ s) (summary_ s) m.

Definition empty (s : t) : bool :=
  (summary_ s =? 0) && bool_decide (overflow_ s = ∅).

Definition overflow_levels (s : t) : Z := Z.of_nat (size (overflow_ s)).

(** ** Ticks *)

Definition words_for (ticks : Z) : Z := u32 (ticks + 63) / 64.

Definition in_band (s : t) (price : Price) : bool :=
  anchored_ s && (u64 (i64 (price - base_ s)) <? band_ticks_ s).

Definition tick_of (s : t) (price : Price) : Z := u32 (i64 (price - base_ s)).

Definition price_of (s : t) (tick : Z) : Price := i64 (base_ s + tick).

Definition anchor (price : Price) (s : t) : t :=
  let base := i64 (price - band_ticks_ s / 2) in
  match ladder_ s with
  | None =>
      let occ := replicate (Z.to_nat (words_for (band_ticks_ s))) 0 in
      let mid := replicate (Z.to_nat (words_for (u32 (vsize occ)))) 0 in
      mk (side_ s) (band_ticks_ s) base true (Some ∅) occ mid (summary_ s) (overflow_ s)
  | Some l =>
      mk (side_ s) (band_ticks_ s) base true (Some l)
        (occupancy_ s) (mid_summary_ s) (summary_ s) (overflow_ s)
  end.

(** ** The bitmap *)

Definition set_occupied (tick : Z) (s : t) : option t :=
  let word := Z.shiftr tick 6 in
  w ← vget (occupancy_ s) word;
  occ ← vset (occupancy_ s) word (Z.lor w (Z.shiftl 1 (Z.land tick 63)));
  m ← vget (mid_summary_ s) (Z.shiftr word 6);
  mid ← vset (mid_summary_ s) (Z.shiftr word 6) (Z.lor m (Z.shiftl 1 (Z.land word 63)));
  Some (with_bitmap occ mid (Z.lor (summary_ s) (Z.shiftl 1 (Z.shiftr word 6))) s).

Definition clear_occupied (tick : Z) (s : t) : option t :=
  let word := Z.shiftr tick 6 in
  w ← vget (occupancy_ s) word;
  let w' := Z.land w (Z.lnot (Z.shiftl 1 (Z.land tick 63))) in
  occ ← vset (occupancy_ s) word w';
  if negb (w' =? 0) then Some (with_bitmap occ (mid_summary_ s) (summary_ s) s)
  else
    let mid := Z.shiftr word 6 in
    m ← vget (mid_summary_ s) mid;
    let m' := Z.land m (Z.lnot (Z.shiftl 1 (Z.land word 63))) in
    mids ← vset (mid_summary_ s) mid m';
    if m' =? 0
    then Some (with_bitmap occ mids (Z.land (summary_ s) (Z.lnot (Z.shiftl 1 mid))) s)
    else Some (with_bitmap occ mids (summary_ s) s).

Definition is_occupied (tick : Z) (s : t) : option bool :=
  w ← vget (occupancy_ s) (Z.shiftr tick 6);
  Some (negb (Z.land w (Z.shiftl 1 (Z.land tick 63)) =? 0)).

(** The common tail of the four searches: the extreme bit of word [word]. *)
Definition bit_in_word (bit : Z -> Z) (s : t) (word : Z) : option Z :=
  w ← vget (occupancy_ s) word;
  Some (Z.lor (Z.shiftl word 6) (bit w)).

Definition bit_in_mid (bit : Z -> Z) (s : t) (mid : Z) : option Z :=
  m ← vget (mid_summary_ s) mid;
  bit_in_word bit s (Z.lor (Z.shiftl mid 6) (bit m)).

Definition highest_occupied (s : t) : option Z :=
  if summary_ s =? 0 then Some (band_ticks_ s)
  else bit_in_mid highest_bit s (highest_bit (summary_ s)).

Definition lowest_occupied (s : t) : option Z :=
  if summary_ s =? 0 then Some (band_ticks_ s)
  else bit_in_mid lowest_bit s (lowest_bit (summary_ s)).

Definition highest_occupied_below (s : t) (tick : Z) : option Z :=
  if (summary_ s =? 0) || (tick =? 0) then Some (band_ticks_ s)
  else
    let word := Z.shiftr tick 6 in
    w ← vget (occupancy_ s) word;
    let rest := Z.land w (mask_below (Z.land tick 63)) in
    if negb (rest =? 0) then Some (Z.lor (Z.shiftl word 6) (highest_bit rest))
    else
      let mid := Z.shiftr word 6 in
      m ← vget (mid_summary_ s) mid;
      let rest := Z.land m (mask_below (Z.land word 63)) in
      if negb (rest =? 0)
      then bit_in_word highest_bit s (Z.lor (Z.shiftl mid 6) (highest_bit rest))
      else
        let rest := Z.land (summary_ s) (mask_below mid) in
        if rest =? 0 then Some (band_ticks_ s)
        else bit_in_mid highest_bit s (highest_bit rest).

Definition lowest_occupied_above (s : t) (tick : Z) : option Z :=
  if (summary_ s =? 0) || (band_ticks_ s <=? u32 (tick + 1)) then Some (band_ticks_ s)
  else
    let word := Z.shiftr tick 6 in
    w ← vget (occupancy_ s) word;
    let rest := Z.land w (mask_above (Z.land tick 63)) in
    if negb (rest =? 0) then Some (Z.lor (Z.shiftl word 6) (lowest_bit rest))
    else
      let mid := Z.shiftr word 6 in
      m ← vget (mid_summary_ s) mid;
      let rest := Z.land m (mask_above (Z.land word 63)) in
      if negb (rest =? 0)
      then bit_in_word lowest_bit s (Z.lor (Z.shiftl mid 6) (lowest_bit rest))
      else
        let rest := Z.land (summary_ s) (mask_above mid) in
        if rest =? 0 then Some (band_ticks_ s)
        else bit_in_mid lowest_bit s (lowest_bit rest).

(** ** The ladder array and the ordered map *)

Definition ladder_read (s : t) (tick : Z) : option LevelSlot :=
  l ← ladder_ s;
  if tick <? band_ticks_ s then l !! tick else None.

Definition ladder_write (tick : Z) (lvl : LevelSlot) (s : t) : option t :=
  l ← ladder_ s;
  if tick <? band_ticks_ s then Some (with_ladder (<[tick := lvl]> l) s) else None.

(** Keys of a [std::map] that satisfy [P]: the last and the first. *)
Definition fold_keys (f : Z -> Z -> Z) (P : Z -> bool) (ks : list Z) : option Z :=
  foldr (λ k acc, if P k then Some (match acc with None => k | Some a => f k a end) else acc)
    None ks.

Definition max_key (P : Z -> bool) (m : gmap Z LevelSlot) : option Z :=
  fold_keys Z.max P (map_to_list m).*1.

Definition min_key (P : Z -> bool) (m : gmap Z LevelSlot) : option Z :=
  fold_keys Z.min P (map_to_list m).*1.

(** [std::prev(overflow_.end())->first] for bids, [overflow_.begin()->first]
    for asks. *)
Definition overflow_best (s : t) : option Price :=
  match side_ s with
  | Buy => max_key (λ _, true) (overflow_ s)
  | Sell => min_key (λ _, true) (overflow_ s)
  end.

(** ** Levels *)

(** The lookup-or-insert of [level_for], once the side is anchored. The
    reference returned is read here and written by [put_level]. *)
Definition reserve_level (price : Price) (s : t) : option (LevelSlot * t) :=
  if negb (in_band s price) then
    match overflow_ s !! price with
    | Some lvl => Some (lvl, s)
    | None => Some (empty_level, with_overflow (<[price := empty_level]> (overflow_ s)) s)
    end
  else
    let tick := tick_of s price in
    occupied ← is_occupied tick s;
    if (occupied : bool) then
      lvl ← ladder_read s tick; Some (lvl, s)
    else
      s' ← set_occupied tick s;
      s'' ← ladder_write tick empty_level s';
      Some (empty_level, s'').

Definition level_for (price : Price) (s : t) : option (LevelSlot * t) :=
  reserve_level price
    (if negb (band_ticks_ s =? 0) && (negb (anchored_ s) || empty s) then anchor price s else s).

(** Assignment through the reference to a level that exists. *)
Definition put_level (price : Price) (lvl : LevelSlot) (s : t) : option t :=
  if in_band s price then ladder_write (tick_of s price) lvl s
  else
    match overflow_ s !! price with
    | Some _ => Some (with_overflow (<[price := lvl]> (overflow_ s)) s)
    | None => None
    end.

Definition find_level (s : t) (price : Price) : option (option LevelSlot) :=
  if in_band s price then
    let tick := tick_of s price in
    occupied ← is_occupied tick s;
    if (occupied : bool) then lvl ← ladder_read s tick; Some (Some lvl) else Some None
  else Some (overflow_ s !! price).

Definition erase_level (price : Price) (s : t) : option t :=
  if in_band s price then clear_occupied (tick_of s price) s
  else Some (with_overflow (delete price (overflow_ s)) s).

(** Precondition of the code: [!empty()]. *)
Definition best_price (s : t) : option Price :=
  tick ← match side_ s with Buy => highest_occupied s | Sell => lowest_occupied s end;
  if tick =? band_ticks_ s then overflow_best s
  else if bool_decide (overflow_ s = ∅) then Some (price_of s tick)
  else
    let laddered := price_of s tick in
    spilled ← overflow_best s;
    match side_ s with
    | Buy => Some (if spilled <? laddered then laddered else spilled)
    | Sell => Some (if laddered <? spilled then laddered else spilled)
    end.

(** Precondition of the code: a level rests at this price. *)
Definition level_at (s : t) (price : Price) : option LevelSlot :=
  if in_band s price then ladder_read s (tick_of s price)
  else overflow_ s !! price.

(** The candidate of the ladder in [next_price]. *)
Definition next_laddered (s : t) (price : Price) : option (option Price) :=
  if anchored_ s && negb (summary_ s =? 0) then
    let first := base_ s in
    let last := i64 (i64 (base_ s + band_ticks_ s) - 1) in
    tick ← match side_ s with
           | Buy => if last <? price then highest_occupied s
                    else if price <=? first then Some (band_ticks_ s)
                    else highest_occupied_below s (tick_of s price)
           | Sell => if price <? first then lowest_occupied s
                     else if last <=? price then Some (band_ticks_ s)
                     else lowest_occupied_above s (tick_of s price)
           end;
    Some (if tick =? band_ticks_ s then None else Some (price_of s tick))
  else Some None.

(** The candidate of the overflow map: [std::prev(lower_bound)], or
    [upper_bound]. *)
Definition next_spilled (s : t) (price : Price) : option Price :=
  match side_ s with
  | Buy => max_key (λ k, k <? price) (overflow_ s)
  | Sell => min_key (λ k, price <? k) (overflow_ s)
  end.

Definition next_price (s : t) (price : Price) : option (option Price) :=
  laddered ← next_laddered s price;
  Some (match laddered, next_spilled s price with
        | None, spilled => spilled
        | laddered, None => laddered
        | Some l, Some p =>
            match side_ s with
            | Buy => Some (if p <? l then l else p)
            | Sell => Some (if l <? p then l else p)
            end
        end).

(** ** The bitmap: invariant and search *)

(** Tick [t] is marked in the bottom level. *)
Definition occ_bit (s : t) (k : Z) : Prop :=
  ∃ w, vget (occupancy_ s) (k / 64) = Some w ∧ Z.testbit w (k mod 64) = true.

(** Each summary bit says whether the word below it is non-zero, and every set
    bit at every level stands for something inside the level below. *)
Record bitmap_ok (s : t) : Prop := {
  bm_band_words : band_ticks_ s ≤ 64 * vsize (occupancy_ s);
  bm_occ_words : vsize (occupancy_ s) ≤ 64 * vsize (mid_summary_ s);
  bm_mid_words : vsize (mid_summary_ s) ≤ 64;
  bm_occ_u64 : ∀ i w, vget (occupancy_ s) i = Some w → in_u64 w;
  bm_mid_u64 : ∀ i m, vget (mid_summary_ s) i = Some m → in_u64 m;
  bm_sum_u64 : in_u64 (summary_ s);
  bm_hier1 : ∀ i w m, vget (occupancy_ s) i = Some w →
    vget (mid_summary_ s) (i / 64) = Some m → (Z.testbit m (i mod 64) = true ↔ w ≠ 0);
  bm_hier2 : ∀ j m, vget (mid_summary_ s) j = Some m →
    (Z.testbit (summary_ s) j = true ↔ m ≠ 0);
  bm_in_occ : ∀ j m k, vget (mid_summary_ s) j = Some m → Z.testbit m k = true →
    64 * j + k < vsize (occupancy_ s);
  bm_in_mid : ∀ k, Z.testbit (summary_ s) k = true → k < vsize (mid_summary_ s);
  bm_in_band : ∀ k, occ_bit s k → k < band_ticks_ s;
}.

Lemma div64_combine a b : 0 ≤ b < 64 → (64 * a + b) / 64 = a.
Proof. intros. symmetry. apply Z.div_unique_pos with b; lia. Qed.

Lemma mod64_combine a b : 0 ≤ b < 64 → (64 * a + b) mod 64 = b.
Proof. intros. symmetry. apply Z.mod_unique_pos with a; lia. Qed.

Section bitmap.
Context (s : t) (Hok : bitmap_ok s).

Lemma occ_bit_nonneg k : occ_bit s k → 0 ≤ k.
Proof. intros (w & Hw%vget_lt & _). pose proof (Z.div_mod k 64). pose proof (Z.mod_pos_bound k 64). lia. Qed.

Lemma occ_bit_combine i w k : vget (occupancy_ s) i = Some w →
  Z.testbit w k = true → occ_bit s (64 * i + k).
Proof.
  intros Hi Hk. pose proof (testbit_range _ _ (bm_occ_u64 _ Hok _ _ Hi) Hk).
  exists w. rewrite div64_combine, mod64_combine; done.
Qed.

Lemma mid_of_word i w : vget (occupancy_ s) i = Some w →
  ∃ m, vget (mid_summary_ s) (i / 64) = Some m.
Proof.
  intros Hi%vget_lt. apply vget_is_Some. pose proof (bm_occ_words _ Hok).
  split; [apply Z.div_pos; lia|apply Z.div_lt_upper_bound; lia].
Qed.

(** A marked tick shows at the two levels above it. *)
Lemma occ_bit_up k : occ_bit s k →
  ∃ w m, vget (occupancy_ s) (k / 64) = Some w ∧ w ≠ 0 ∧
    vget (mid_summary_ s) (k / 64 / 64) = Some m ∧
    Z.testbit m (k / 64 mod 64) = true ∧ m ≠ 0 ∧
    Z.testbit (summary_ s) (k / 64 / 64) = true.
Proof.
  intros (w & Hw & Hb). destruct (mid_of_word _ _ Hw) as [m Hm].
  assert (w ≠ 0) as Hnz by (intros ->; by rewrite Z.bits_0 in Hb).
  pose proof (proj2 (bm_hier1 _ Hok _ _ _ Hw Hm) Hnz) as Hmb.
  assert (m ≠ 0) as Hmnz by (intros ->; by rewrite Z.bits_0 in Hmb).
  pose proof (proj2 (bm_hier2 _ Hok _ _ Hm) Hmnz). eauto 10.
Qed.

Lemma no_summary_no_bit k : summary_ s = 0 → ¬ occ_bit s k.
Proof.
  intros Hs Hk. destruct (occ_bit_up k Hk) as (? & ? & _ & _ & _ & _ & _ & Hb).
  by rewrite Hs, Z.bits_0 in Hb.
Qed.

(** The word under a set bit of a middle word is there and non-zero. *)
Lemma word_of_mid j m k : vget (mid_summary_ s) j = Some m → Z.testbit m k = true →
  ∃ w, vget (occupancy_ s) (64 * j + k) = Some w ∧ w ≠ 0 ∧ 0 ≤ k < 64.
Proof.
  intros Hm Hk. pose proof (testbit_range _ _ (bm_mid_u64 _ Hok _ _ Hm) Hk) as Hr.
  pose proof (bm_in_occ _ Hok _ _ _ Hm Hk). pose proof (vget_lt _ _ _ Hm).
  destruct (vget_is_Some (occupancy_ s) (64 * j + k)) as [w Hw]; [lia|].
  exists w. split; [done|]. split; [|done].
  apply (bm_hier1 _ Hok _ _ m Hw); by rewrite ?div64_combine, ?mod64_combine by done.
Qed.

Lemma mid_of_summary k : Z.testbit (summary_ s) k = true →
  ∃ m, vget (mid_summary_ s) k = Some m ∧ m ≠ 0 ∧ 0 ≤ k < 64.
Proof.
  intros Hk. pose proof (testbit_range _ _ (bm_sum_u64 _ Hok) Hk).
  pose proof (bm_in_mid _ Hok _ Hk).
  destruct (vget_is_Some (mid_summary_ s) k) as [m Hm]; [lia|].
  exists m. split; [done|]. split; [|done]. by apply (bm_hier2 _ Hok _ _ Hm).
Qed.

(** The four searches are two generic ones, in a direction [dir]: [dir a b]
    says [a] comes no later than [b], [past a b] that [b] is strictly past
    [a]. *)
Section direction.
Context (bit : Z → Z) (mask : Z → Z) (dir past : Z → Z → Prop).
Hypothesis bit_spec : ∀ w, 0 < w → in_u64 w →
  0 ≤ bit w < 64 ∧ Z.testbit w (bit w) = true ∧
  (∀ k, Z.testbit w k = true → dir (bit w) k).
Hypothesis mask_spec : ∀ w b k, in_u64 w → 0 ≤ b < 64 →
  Z.testbit (Z.land w (mask b)) k = true ↔ Z.testbit w k = true ∧ past b k.
Hypothesis mask_nonneg : ∀ b, 0 ≤ b < 64 → 0 ≤ mask b.
Hypothesis dir_lex : ∀ a b x y, 0 ≤ x < 64 → 0 ≤ y < 64 →
  dir a b → (a = b → dir x y) → dir (64 * a + x) (64 * b + y).
Hypothesis past_lex : ∀ a b x y, 0 ≤ x < 64 → 0 ≤ y < 64 →
  past (64 * a + x) (64 * b + y) ↔ past a b ∨ (a = b ∧ past x y).

Hypothesis dir_refl : ∀ a, dir a a.
Hypothesis past_dir : ∀ a b, past a b → dir a b.
Hypothesis past_irrefl : ∀ a, ¬ past a a.

(** [k] is the first tick in direction [dir] among those that satisfy [P]. *)
Definition first_such (P : Z → Prop) (k : Z) : Prop :=
  P k ∧ ∀ k', P k' → dir k k'.

Lemma dir_words k k' : dir (k / 64) (k' / 64) → k' / 64 ≠ k / 64 → dir k k'.
Proof.
  intros Hd Hne. pose proof (Z.mod_pos_bound k 64 ltac:(lia)).
  pose proof (Z.mod_pos_bound k' 64 ltac:(lia)).
  rewrite (Z.div_mod k 64), (Z.div_mod k' 64) by lia. by apply dir_lex.
Qed.

Lemma first_of_word (Q : Z → Prop) i w r :
  vget (occupancy_ s) i = Some w → in_u64 r → r ≠ 0 →
  (∀ k, 0 ≤ k < 64 → Z.testbit r k = true ↔ Z.testbit w k = true ∧ Q (64 * i + k)) →
  first_such (λ k, occ_bit s k ∧ k / 64 = i ∧ Q k) (64 * i + bit r) ∧ 0 ≤ bit r < 64.
Proof.
  intros Hw Hr Hnz Hsub.
  destruct (bit_spec r) as (Hb & Hset & Hfirst); [destruct Hr; lia|done|].
  apply Hsub in Hset as [Hset HQ]; [|done]. split; [|done]. split.
  - split; [by eapply occ_bit_combine|]. split; [by rewrite div64_combine|done].
  - intros k' ((w' & Hw' & Hk') & Hdiv & HQ').
    rewrite Hdiv, Hw in Hw'. injection Hw' as <-.
    pose proof (Z.mod_pos_bound k' 64 ltac:(lia)).
    pose proof (Z.div_mod k' 64 ltac:(lia)) as He. rewrite Hdiv in He. rewrite He in HQ'.
    rewrite He. apply dir_lex; [done|done|done|]. intros _. by apply Hfirst, Hsub.
Qed.

Lemma first_in_word i w :
  vget (occupancy_ s) i = Some w → w ≠ 0 →
  ∃ k, bit_in_word bit s i = Some k ∧ first_such (λ k, occ_bit s k ∧ k / 64 = i) k.
Proof.
  intros Hw Hnz. destruct (first_of_word (λ _, True) i w w) as [[[H1 [H2 _]] H3] Hb]; try done.
  { by apply (bm_occ_u64 _ Hok) in Hw. }
  { tauto. }
  exists (64 * i + bit w). unfold bit_in_word. rewrite Hw. simpl.
  rewrite lor_shiftl6 by done. split; [done|]. split; [done|].
  intros k' []. by apply H3.
Qed.

Lemma first_of_mid (Q : Z → Prop) j m r :
  vget (mid_summary_ s) j = Some m → in_u64 r → r ≠ 0 →
  (∀ k, 0 ≤ k < 64 → Z.testbit r k = true ↔ Z.testbit m k = true ∧ Q (64 * j + k)) →
  ∃ k, bit_in_word bit s (Z.lor (Z.shiftl j 6) (bit r)) = Some k ∧
    first_such (λ k, occ_bit s k ∧ k / 64 / 64 = j ∧ Q (k / 64)) k.
Proof.
  intros Hm Hr Hnz Hsub.
  destruct (bit_spec r) as (Hb & Hset & Hfirst); [destruct Hr; lia|done|].
  apply Hsub in Hset as [Hset HQ]; [|done].
  destruct (word_of_mid _ _ _ Hm Hset) as (w & Hw & Hwnz & _).
  rewrite lor_shiftl6 by done.
  destruct (first_in_word _ _ Hw Hwnz) as (k & Hk & [Hocc Hdiv] & Hmin).
  exists k. split; [done|]. split.
  { split; [done|]. rewrite Hdiv, div64_combine; done. }
  intros k' (Hocc' & Hj & HQ').
  destruct (Z.eq_dec (k' / 64) (64 * j + bit r)) as [Heq|Hne]; [by apply Hmin|].
  destruct (occ_bit_up k' Hocc') as (_ & m' & _ & _ & Hm' & Hbit & _).
  rewrite Hj, Hm in Hm'. injection Hm' as <-. apply dir_words; [|by rewrite Hdiv].
  pose proof (Z.mod_pos_bound (k' / 64) 64 ltac:(lia)).
  pose proof (Z.div_mod (k' / 64) 64 ltac:(lia)) as He. rewrite Hj in He.
  rewrite He in HQ'. rewrite Hdiv, He. apply dir_lex; [done|done|done|]. intros _.
  by apply Hfirst, Hsub.
Qed.

Lemma first_in_mid j m :
  vget (mid_summary_ s) j = Some m → m ≠ 0 →
  ∃ k, bit_in_mid bit s j = Some k ∧ first_such (λ k, occ_bit s k ∧ k / 64 / 64 = j) k.
Proof.
  intros Hm Hnz. destruct (first_of_mid (λ _, True) j m m) as (k & Hk & (H1 & H2 & _) & H3); try done.
  { by apply (bm_mid_u64 _ Hok) in Hm. }
  { tauto. }
  exists k. unfold bit_in_mid. rewrite Hm. simpl. split; [done|]. split; [done|].
  intros k' []. by apply H3.
Qed.

Lemma first_of_summary (Q : Z → Prop) r :
  in_u64 r → r ≠ 0 →
  (∀ k, 0 ≤ k < 64 → Z.testbit r k = true ↔ Z.testbit (summary_ s) k = true ∧ Q k) →
  ∃ k, bit_in_mid bit s (bit r) = Some k ∧
    first_such (λ k, occ_bit s k ∧ Q (k / 64 / 64)) k.
Proof.
  intros Hr Hnz Hsub.
  destruct (bit_spec r) as (Hb & Hset & Hfirst); [destruct Hr; lia|done|].
  apply Hsub in Hset as [Hset HQ]; [|done].
  destruct (mid_of_summary _ Hset) as (m & Hm & Hmnz & _).
  destruct (first_in_mid _ _ Hm Hmnz) as (k & Hk & [Hocc Hdiv] & Hmin).
  exists k. split; [done|]. split; [by rewrite Hdiv|].
  intros k' (Hocc' & HQ').
  destruct (Z.eq_dec (k' / 64 / 64) (bit r)) as [Heq|Hne]; [by apply Hmin|].
  destruct (occ_bit_up k' Hocc') as (_ & _ & _ & _ & _ & _ & _ & Hbit).
  destruct (mid_of_summary _ Hbit) as (_ & _ & _ & Hr').
  apply dir_words.
  - apply dir_words; [|by rewrite Hdiv]. rewrite Hdiv. by apply Hfirst, Hsub.
  - intros Heq. by rewrite <-Hdiv, Heq in Hne.
Qed.

(** The search from the whole side, and past a tick. *)
Definition first_occupied : option Z :=
  if summary_ s =? 0 then Some (band_ticks_ s)
  else bit_in_mid bit s (bit (summary_ s)).

Definition first_occupied_past (tick : Z) : option Z :=
  let word := Z.shiftr tick 6 in
  w ← vget (occupancy_ s) word;
  let rest := Z.land w (mask (Z.land tick 63)) in
  if negb (rest =? 0) then Some (Z.lor (Z.shiftl word 6) (bit rest))
  else
    let mid := Z.shiftr word 6 in
    m ← vget (mid_summary_ s) mid;
    let rest := Z.land m (mask (Z.land word 63)) in
    if negb (rest =? 0)
    then bit_in_word bit s (Z.lor (Z.shiftl mid 6) (bit rest))
    else
      let rest := Z.land (summary_ s) (mask mid) in
      if rest =? 0 then Some (band_ticks_ s)
      else bit_in_mid bit s (bit rest).

Lemma first_occupied_spec :
  (∃ k, first_occupied = Some k ∧ first_such (occ_bit s) k) ∨
  (first_occupied = Some (band_ticks_ s) ∧ ∀ k, ¬ occ_bit s k).
Proof.
  unfold first_occupied. destruct (Z.eqb_spec (summary_ s) 0) as [Hz|Hnz].
  - right. split; [done|]. intros k. by apply no_summary_no_bit.
  - left. destruct (first_of_summary (λ _, True) (summary_ s)) as (k & Hk & [H1 _] & H3); try done.
    { apply Hok. }
    { tauto. }
    exists k. split; [done|]. split; [done|]. intros k' ?. by apply H3.
Qed.

Lemma rest_zero w b k : in_u64 w → 0 ≤ b < 64 →
  Z.land w (mask b) = 0 → Z.testbit w k = true → ¬ past b k.
Proof.
  intros Hw Hb Hz Hk Hp.
  assert (Z.testbit (Z.land w (mask b)) k = true) as Hc by by apply mask_spec.
  by rewrite Hz, Z.bits_0 in Hc.
Qed.

Lemma past_words k k' : past (k / 64) (k' / 64) ∨ (k / 64 = k' / 64 ∧ past (k mod 64) (k' mod 64))
  ↔ past k k'.
Proof.
  pose proof (Z.mod_pos_bound k 64 ltac:(lia)). pose proof (Z.mod_pos_bound k' 64 ltac:(lia)).
  rewrite (Z.div_mod k 64) at 4 by lia. rewrite (Z.div_mod k' 64) at 4 by lia.
  by rewrite past_lex.
Qed.

Lemma first_occupied_past_spec tick :
  0 ≤ tick < band_ticks_ s →
  (∃ k, first_occupied_past tick = Some k ∧ first_such (λ k, occ_bit s k ∧ past tick k) k) ∨
  (first_occupied_past tick = Some (band_ticks_ s) ∧ ∀ k, occ_bit s k → ¬ past tick k).
Proof.
  intros Ht. pose proof (bm_band_words _ Hok).
  assert (0 ≤ tick / 64 < vsize (occupancy_ s)) as Hword.
  { split; [apply Z.div_pos; lia|apply Z.div_lt_upper_bound; lia]. }
  unfold first_occupied_past. rewrite !shiftr6, !land63.
  pose proof (Z.mod_pos_bound tick 64 ltac:(lia)) as Hm64.
  pose proof (Z.mod_pos_bound (tick / 64) 64 ltac:(lia)) as Hw64.
  destruct (vget_is_Some _ _ Hword) as [w Hw]. rewrite Hw. simpl.
  pose proof (bm_occ_u64 _ Hok _ _ Hw) as Hwr.
  destruct (Z.eqb_spec (Z.land w (mask (tick mod 64))) 0) as [Hz|Hnz]; simpl.
  2: { left. destruct (first_of_word (λ k, past tick k) _ _ _ Hw
         (land_u64 _ _ Hwr (mask_nonneg _ Hm64)) Hnz) as [[(H1 & H2 & H3) H4] Hb].
       { intros k Hk. rewrite mask_spec, <-(past_words tick), div64_combine, mod64_combine by done.
         pose proof (past_irrefl (tick / 64)). tauto. }
       eexists. rewrite lor_shiftl6 by done. split; [done|]. split; [done|].
       intros k' [Hk' Hp]. destruct (Z.eq_dec (k' / 64) (tick / 64)) as [He|Hne].
       { by apply H4. }
       apply past_words in Hp as [Hp|[? _]]; [|done].
       apply dir_words; [|by rewrite H2]. rewrite H2. by apply past_dir. }
  destruct (mid_of_word _ _ Hw) as [m Hm]. rewrite Hm. simpl.
  pose proof (bm_mid_u64 _ Hok _ _ Hm) as Hmr.
  assert (∀ k, occ_bit s k → past tick k → past (tick / 64) (k / 64)) as Hpast1.
  { intros k (w' & Hw' & Hb) [Hp|[He Hp]]%past_words; [done|].
    rewrite <-He in Hw'. simplify_eq. by destruct (rest_zero _ _ _ Hwr Hm64 Hz Hb). }
  destruct (Z.eqb_spec (Z.land m (mask (tick / 64 mod 64))) 0) as [Hz2|Hnz]; simpl.
  2: { left. destruct (first_of_mid (λ i, past (tick / 64) i) _ _ _ Hm
         (land_u64 _ _ Hmr (mask_nonneg _ Hw64)) Hnz) as (k & Hk & (H1 & H2 & H3) & H4).
       { intros k Hk.
         rewrite mask_spec, <-(past_words (tick / 64)), div64_combine, mod64_combine by done.
         pose proof (past_irrefl (tick / 64 / 64)). tauto. }
       exists k. split; [done|]. split; [split; [done|]; apply past_words; by left|].
       intros k' [Hk' Hp]. pose proof (Hpast1 _ Hk' Hp) as Hp1.
       destruct (Z.eq_dec (k' / 64 / 64) (tick / 64 / 64)) as [He|Hne]; [by apply H4|].
       apply past_words in Hp1 as [Hp1|[? _]]; [|done].
       apply dir_words; [apply dir_words; [|by rewrite H2]; rewrite H2; by apply past_dir|].
       intros He. by rewrite He, H2 in Hne. }
  assert (∀ k, occ_bit s k → past tick k → past (tick / 64 / 64) (k / 64 / 64)) as Hpast2.
  { intros k Hk Hp. destruct (proj2 (past_words _ _) (Hpast1 _ Hk Hp)) as [?|[He Hp']]; [done|].
    destruct (occ_bit_up k Hk) as (_ & m' & _ & _ & Hm' & Hb & _).
    rewrite <-He in Hm'. simplify_eq. by destruct (rest_zero _ _ _ Hmr Hw64 Hz2 Hb). }
  assert (0 ≤ tick / 64 / 64 < 64) as Hmid.
  { apply vget_lt in Hm. pose proof (bm_mid_words _ Hok). lia. }
  pose proof (bm_sum_u64 _ Hok) as Hsr.
  destruct (Z.eqb_spec (Z.land (summary_ s) (mask (tick / 64 / 64))) 0) as [Hz3|Hnz].
  - right. split; [done|]. intros k Hk Hp.
    destruct (occ_bit_up k Hk) as (_ & _ & _ & _ & _ & _ & _ & Hb).
    by apply (rest_zero _ _ _ Hsr Hmid Hz3 Hb), Hpast2.
  - left. destruct (first_of_summary (λ j, past (tick / 64 / 64) j) _
      (land_u64 _ _ Hsr (mask_nonneg _ Hmid)) Hnz) as (k & Hk & [H1 H2] & H3).
    { intros k Hk. by apply mask_spec. }
    exists k. split; [done|]. split.
    + split; [done|]. apply past_words; left. apply past_words; by left.
    + intros k' [Hk' Hp]. apply H3. split; [done|]. by apply Hpast2.
Qed.
End direction.
End bitmap.

(** ** Set and clear *)

Lemma div64_mod64_eq a b : a / 64 = b / 64 → a mod 64 = b mod 64 → a = b.
Proof. intros. rewrite (Z.div_mod a 64), (Z.div_mod b 64); lia. Qed.

(** Where the three words of a tick sit. *)
Lemma tick_words s tick : bitmap_ok s → 0 ≤ tick < band_ticks_ s →
  ∃ w m, vget (occupancy_ s) (tick / 64) = Some w ∧ in_u64 w ∧
    0 ≤ tick / 64 < vsize (occupancy_ s) ∧
    vget (mid_summary_ s) (tick / 64 / 64) = Some m ∧ in_u64 m ∧
    0 ≤ tick / 64 / 64 < vsize (mid_summary_ s) ∧ tick / 64 / 64 < 64 ∧
    0 ≤ tick mod 64 < 64 ∧ 0 ≤ tick / 64 mod 64 < 64.
Proof.
  intros Hok Ht. pose proof (bm_band_words _ Hok). pose proof (bm_mid_words _ Hok).
  assert (0 ≤ tick / 64 < vsize (occupancy_ s)) as Hword.
  { split; [apply Z.div_pos; lia|apply Z.div_lt_upper_bound; lia]. }
  destruct (vget_is_Some _ _ Hword) as [w Hw].
  destruct (mid_of_word s Hok _ _ Hw) as [m Hm]. pose proof (vget_lt _ _ _ Hm).
  exists w, m. repeat split; try done; try lia;
    try (eapply bm_occ_u64; done); try (eapply bm_mid_u64; done);
    apply Z.mod_pos_bound; lia.
Qed.

(** Replacing the three words of one tick keeps the bitmap consistent when the
    new summary bits tell the truth about the new words. *)
Lemma bitmap_update s tick w m w' m' sum' :
  bitmap_ok s → 0 ≤ tick < band_ticks_ s →
  vget (occupancy_ s) (tick / 64) = Some w →
  vget (mid_summary_ s) (tick / 64 / 64) = Some m →
  in_u64 w' → in_u64 m' → in_u64 sum' →
  (∀ k, Z.testbit w' k = true → k = tick mod 64 ∨ Z.testbit w k = true) →
  (Z.testbit m' (tick / 64 mod 64) = true ↔ w' ≠ 0) →
  (∀ k, k ≠ tick / 64 mod 64 → Z.testbit m' k = true ↔ Z.testbit m k = true) →
  (Z.testbit sum' (tick / 64 / 64) = true ↔ m' ≠ 0) →
  (∀ k, k ≠ tick / 64 / 64 → Z.testbit sum' k = true ↔ Z.testbit (summary_ s) k = true) →
  let s' := with_bitmap (vput (occupancy_ s) (tick / 64) w')
              (vput (mid_summary_ s) (tick / 64 / 64) m') sum' s in
  bitmap_ok s' ∧
  (∀ k, occ_bit s' k ↔
     if decide (k / 64 = tick / 64) then Z.testbit w' (k mod 64) = true else occ_bit s k).
Proof.
  intros Hok Ht Hw Hm Hw' Hm' Hs' Hsub Hmw Hmo Hsm Hso s'.
  destruct (tick_words s tick Hok Ht) as (w0 & m0 & _ & _ & Hwi & _ & _ & Hmi & Hm64 & Hb1 & Hb2).
  assert (∀ k, occ_bit s' k ↔
     if decide (k / 64 = tick / 64) then Z.testbit w' (k mod 64) = true else occ_bit s k) as Hocc.
  { intros k. unfold occ_bit at 1, s'; simpl. rewrite vget_vput by done.
    case_decide; [|done]. split; [by intros (? & [= <-] & ?)|eauto]. }
  split; [|done].
  split; simpl; rewrite ?vsize_vput; try apply Hok; try done.
  - intros i x. rewrite vget_vput by done. case_decide; [naive_solver|apply Hok].
  - intros i x. rewrite vget_vput by done. case_decide; [naive_solver|apply Hok].
  - intros i x y. rewrite !vget_vput by done. intros Hx Hy.
    destruct (decide (i = tick / 64)) as [->|Hi].
    { rewrite decide_True in Hy by done. by simplify_eq. }
    case_decide as Hj; [|by apply (bm_hier1 _ Hok)].
    simplify_eq. rewrite Hmo, <-(bm_hier1 _ Hok _ _ _ Hx) by
      (rewrite ?Hj; first [done|by contradict Hi; apply div64_mod64_eq]). done.
  - intros j x. rewrite vget_vput by done. case_decide as Hj; [by intros [= <-]; subst|].
    intros Hx. by rewrite Hso, <-(bm_hier2 _ Hok _ _ Hx).
  - intros j x k. rewrite vget_vput by done. case_decide as Hj; [|apply Hok].
    intros [= <-] Hk. subst j. destruct (decide (k = tick / 64 mod 64)) as [->|].
    { rewrite <-Z.div_mod; lia. }
    eapply bm_in_occ; [done..|]. by apply Hmo.
  - intros k Hk. destruct (decide (k = tick / 64 / 64)) as [->|]; [lia|].
    eapply bm_in_mid; [done|]. by apply Hso.
  - intros k Hk. apply Hocc in Hk. case_decide as Hd; [|by apply (bm_in_band _ Hok)].
    apply Hsub in Hk as [Hk|Hk].
    { rewrite (div64_mod64_eq k tick) by done. lia. }
    apply (bm_in_band _ Hok). exists w. by rewrite Hd.
Qed.

Lemma set_occupied_spec s tick : bitmap_ok s → 0 ≤ tick < band_ticks_ s →
  ∃ occ mid sum, set_occupied tick s = Some (with_bitmap occ mid sum s) ∧
    bitmap_ok (with_bitmap occ mid sum s) ∧
    (∀ k, occ_bit (with_bitmap occ mid sum s) k ↔ occ_bit s k ∨ k = tick) ∧ sum ≠ 0.
Proof.
  intros Hok Ht.
  destruct (tick_words s tick Hok Ht) as (w & m & Hw & Hwr & Hwi & Hm & Hmr & Hmi & Hm64 & Hb1 & Hb2).
  unfold set_occupied. rewrite !shiftr6, !land63, Hw. simpl.
  rewrite vset_Some, Hm by done. simpl. rewrite vset_Some by done. simpl.
  eexists _, _, _. split; [done|].
  assert (∀ x b, 0 ≤ b → Z.lor x (Z.shiftl 1 b) ≠ 0) as Hnz.
  { intros x b Hb Hz. assert (Z.testbit (Z.lor x (Z.shiftl 1 b)) b = true) as Hc
      by (apply lor_bit; tauto). by rewrite Hz, Z.bits_0 in Hc. }
  assert (∀ x b, 0 ≤ b → Z.testbit (Z.lor x (Z.shiftl 1 b)) b = true ↔ True) as Hset.
  { intros. rewrite lor_bit by done. tauto. }
  destruct (bitmap_update s tick w m (Z.lor w (Z.shiftl 1 (tick mod 64)))
    (Z.lor m (Z.shiftl 1 (tick / 64 mod 64)))
    (Z.lor (summary_ s) (Z.shiftl 1 (tick / 64 / 64)))) as [Hok' Hocc]; try done.
  1-3: apply lor_bit_u64; [done || apply Hok|lia].
  { intros k. rewrite lor_bit by lia. tauto. }
  { rewrite Hset by lia. split; [intros _; apply Hnz; lia|done]. }
  { intros k ?. rewrite lor_bit by lia. tauto. }
  { rewrite Hset by lia. split; [intros _; apply Hnz; lia|done]. }
  { intros k ?. rewrite lor_bit by lia. tauto. }
  split; [done|]. split; [|apply Hnz; lia].
  intros k. rewrite Hocc. case_decide as Hd.
  - rewrite lor_bit by lia. unfold occ_bit. rewrite Hd, Hw. split.
    + intros [?|?]; [left; eauto|right; by apply div64_mod64_eq].
    + intros [(? & [= <-] & ?)| ->]; tauto.
  - split; [tauto|]. by intros [?| ->].
Qed.

Lemma vput_id {A} (l : list A) i x : vget l i = Some x → vput l i x = l.
Proof. intros [? ?]%vget_Some. by apply list_insert_id. Qed.

Lemma clear_occupied_spec s tick : bitmap_ok s → 0 ≤ tick < band_ticks_ s → occ_bit s tick →
  ∃ occ mid sum, clear_occupied tick s = Some (with_bitmap occ mid sum s) ∧
    bitmap_ok (with_bitmap occ mid sum s) ∧
    (∀ k, occ_bit (with_bitmap occ mid sum s) k ↔ occ_bit s k ∧ k ≠ tick).
Proof.
  intros Hok Ht Hset.
  destruct (tick_words s tick Hok Ht) as (w & m & Hw & Hwr & Hwi & Hm & Hmr & Hmi & Hm64 & Hb1 & Hb2).
  destruct (occ_bit_up s Hok tick Hset) as (? & ? & Hw2 & Hwnz & Hm2 & Hmb & Hmnz & Hsb).
  simplify_eq.
  unfold clear_occupied. rewrite !shiftr6, !land63, Hw. simpl.
  rewrite vset_Some, Hm by done. simpl.
  set (w' := Z.land w _). set (m' := Z.land m _). set (sum' := Z.land (summary_ s) _).
  assert (∀ k, Z.testbit w' k = true ↔ Z.testbit w k = true ∧ k ≠ tick mod 64) as Hw'.
  { intros. apply clear_bit. lia. }
  assert (∀ k, Z.testbit m' k = true ↔ Z.testbit m k = true ∧ k ≠ tick / 64 mod 64) as Hm'.
  { intros. apply clear_bit. lia. }
  assert (∀ k, Z.testbit sum' k = true ↔ Z.testbit (summary_ s) k = true ∧ k ≠ tick / 64 / 64) as Hs'.
  { intros. apply clear_bit. lia. }
  pose proof (clear_bit_u64 w (tick mod 64) Hwr ltac:(lia)) as Hwr'.
  pose proof (clear_bit_u64 m (tick / 64 mod 64) Hmr ltac:(lia)) as Hmr'.
  pose proof (clear_bit_u64 _ (tick / 64 / 64) (bm_sum_u64 _ Hok) ltac:(lia)) as Hsr'.
  assert (∀ occ mid sum,
    (∀ k, occ_bit (with_bitmap occ mid sum s) k ↔
      if decide (k / 64 = tick / 64) then Z.testbit w' (k mod 64) = true else occ_bit s k) →
    ∀ k, occ_bit (with_bitmap occ mid sum s) k ↔ occ_bit s k ∧ k ≠ tick) as Hfinal.
  { intros occ mid sum H k. rewrite H. case_decide as Hd.
    - rewrite Hw'. unfold occ_bit. rewrite Hd, Hw. split.
      + intros [? Hne]. split; [eauto|]. by intros ->.
      + intros [(? & [= <-] & ?) Hne]. split; [done|]. contradict Hne. by apply div64_mod64_eq.
    - split; [|tauto]. intros. split; [done|]. by intros ->. }
  destruct (Z.eqb_spec w' 0) as [Hz|Hnz]; simpl.
  - rewrite vset_Some by done. simpl.
    pose proof (bitmap_update s tick w m w' m' sum' Hok Ht Hw Hm Hwr' Hmr' Hsr') as HU1.
    pose proof (bitmap_update s tick w m w' m' _ Hok Ht Hw Hm Hwr' Hmr' (bm_sum_u64 _ Hok)) as HU2.
    destruct (Z.eqb_spec m' 0) as [Hz2|Hnz2]; eexists _, _, _; (split; [done|]).
    + destruct HU1 as [? Hocc]; [naive_solver..|]. split; [done|]. by apply Hfinal.
    + destruct HU2 as [? Hocc]; [naive_solver..|]. split; [done|]. by apply Hfinal.
  - eexists _, _, _. split; [done|].
    pose proof (bitmap_update s tick w m w' m _ Hok Ht Hw Hm Hwr' Hmr (bm_sum_u64 _ Hok)) as HU.
    rewrite (vput_id (mid_summary_ s)) in HU by done.
    destruct HU as [? Hocc]; [naive_solver..|]. split; [done|]. by apply Hfinal.
Qed.

Lemma is_occupied_spec s tick : bitmap_ok s → 0 ≤ tick < band_ticks_ s →
  ∃ b, is_occupied tick s = Some b ∧ (b = true ↔ occ_bit s tick).
Proof.
  intros Hok Ht.
  destruct (tick_words s tick Hok Ht) as (w & m & Hw & Hwr & _ & _ & _ & _ & _ & Hb1 & _).
  unfold is_occupied. rewrite shiftr6, land63, Hw. simpl. eexists. split; [done|].
  assert (0 ≤ Z.land w (Z.shiftl 1 (tick mod 64))) as H0.
  { apply Z.land_nonneg. left. apply Hwr. }
  rewrite negb_true_iff, Z.eqb_neq, nonzero_bit by done. unfold occ_bit. rewrite Hw. split.
  - intros [k Hk]. rewrite Z.shiftl_1_l, Z.land_spec, Z.pow2_bits_eqb, andb_true_iff in Hk by lia.
    destruct Hk as [Hk <-%Z.eqb_eq]. eauto.
  - intros (? & [= <-] & Hk). exists (tick mod 64).
    by rewrite Z.shiftl_1_l, Z.land_spec, Z.pow2_bits_eqb, Z.eqb_refl, Hk by lia.
Qed.

(** A freshly allocated bitmap. *)
Lemma words_for_bound b : 0 ≤ b ≤ 2 ^ 18 →
  b ≤ 64 * words_for b ∧ 0 ≤ words_for b ≤ 2 ^ 12 ∧ (0 < b → 0 < words_for b) ∧
  (b ≤ 2 ^ 12 → words_for b ≤ 64).
Proof.
  intros Hb. unfold words_for. rewrite u32_small by (unfold in_u32; lia).
  pose proof (Z.div_mod (b + 63) 64 ltac:(lia)). pose proof (Z.mod_pos_bound (b + 63) 64 ltac:(lia)).
  lia.
Qed.

Lemma vsize_replicate {A} n (x : A) : 0 ≤ n → vsize (replicate (Z.to_nat n) x) = n.
Proof. intros. unfold vsize. rewrite length_replicate. lia. Qed.

Lemma vget_replicate_inv {A} n (x y : A) i : vget (replicate n x) i = Some y → y = x.
Proof. intros [_ H]%vget_Some. by apply lookup_replicate in H as [-> _]. Qed.

Lemma fresh_bitmap_ok side band base l ov :
  0 ≤ band ≤ 2 ^ 18 →
  let occ := replicate (Z.to_nat (words_for band)) 0 in
  let mid := replicate (Z.to_nat (words_for (u32 (vsize occ)))) 0 in
  bitmap_ok (mk side band base true l occ mid 0 ov).
Proof.
  intros Hb occ mid. destruct (words_for_bound band Hb) as (H1 & H2 & H3 & H4).
  assert (vsize occ = words_for band) as Hocc by (apply vsize_replicate; lia).
  assert (u32 (vsize occ) = words_for band) as Hu.
  { rewrite Hocc. apply u32_small. unfold in_u32. lia. }
  destruct (words_for_bound (words_for band)) as (H1' & H2' & H3' & H4'); [lia|].
  assert (vsize mid = words_for (words_for band)) as Hmid.
  { unfold mid. rewrite Hu. apply vsize_replicate. lia. }
  assert (∀ k, Z.testbit 0 k = true → False) as H0 by (intros k; by rewrite Z.bits_0).
  split; simpl; try (intros ? ? ->%vget_replicate_inv; by split); try lia; try done.
  - intros i w m ->%vget_replicate_inv ->%vget_replicate_inv. split; [by intros ?%H0|done].
  - intros i m ->%vget_replicate_inv. split; [by intros ?%H0|done].
  - intros j m k ->%vget_replicate_inv. by intros ?%H0.
  - by intros k ?%H0.
  - intros k (w & ->%vget_replicate_inv & ?%H0). done.
Qed.

(** ** The searches, per side *)

(** [sdir a b]: [a] has at least the priority of [b] on this side;
    [better a b]: strictly more. *)
Definition sdir (side : Side) (a b : Z) : Prop :=
  match side with Buy => b ≤ a | Sell => a ≤ b end.

Definition better (side : Side) (a b : Z) : Prop :=
  match side with Buy => b < a | Sell => a < b end.

Definition best_such (side : Side) (P : Z → Prop) (p : Z) : Prop :=
  P p ∧ ∀ q, P q → sdir side p q.

Definition side_bit (side : Side) : Z → Z :=
  match side with Buy => highest_bit | Sell => lowest_bit end.

Definition side_mask (side : Side) : Z → Z :=
  match side with Buy => mask_below | Sell => mask_above end.

Definition side_first (side : Side) (s : t) : option Z :=
  match side with Buy => highest_occupied s | Sell => lowest_occupied s end.

Definition side_past (side : Side) (s : t) (tick : Z) : option Z :=
  match side with Buy => highest_occupied_below s tick | Sell => lowest_occupied_above s tick end.

Section per_side.
Context (side : Side) (s : t) (Hok : bitmap_ok s).

Lemma side_bit_spec w : 0 < w → in_u64 w →
  0 ≤ side_bit side w < 64 ∧ Z.testbit w (side_bit side w) = true ∧
  (∀ k, Z.testbit w k = true → sdir side (side_bit side w) k).
Proof. destruct side; [apply highest_bit_spec|apply lowest_bit_spec]. Qed.

Lemma side_mask_spec w b k : in_u64 w → 0 ≤ b < 64 →
  Z.testbit (Z.land w (side_mask side b)) k = true ↔ Z.testbit w k = true ∧ better side b k.
Proof. intros. destruct side; [by apply land_below_bit|by apply land_above_bit]. Qed.

Lemma side_mask_nonneg b : 0 ≤ b < 64 → 0 ≤ side_mask side b.
Proof. destruct side; [apply mask_below_nonneg|intros; apply mask_above_nonneg]. Qed.

Lemma sdir_lex a b x y : 0 ≤ x < 64 → 0 ≤ y < 64 →
  sdir side a b → (a = b → sdir side x y) → sdir side (64 * a + x) (64 * b + y).
Proof. unfold sdir. destruct side; lia. Qed.

Lemma better_lex a b x y : 0 ≤ x < 64 → 0 ≤ y < 64 →
  better side (64 * a + x) (64 * b + y) ↔ better side a b ∨ (a = b ∧ better side x y).
Proof. unfold better. destruct side; lia. Qed.

Lemma sdir_refl a : sdir side a a.
Proof. unfold sdir. destruct side; lia. Qed.

Lemma better_sdir a b : better side a b → sdir side a b.
Proof. unfold sdir, better. destruct side; lia. Qed.

Lemma better_irrefl a : ¬ better side a a.
Proof. unfold better. destruct side; lia. Qed.

Lemma summary_bit : summary_ s ≠ 0 → ∃ k, occ_bit s k.
Proof.
  intros Hnz. pose proof (bm_sum_u64 _ Hok) as Hr.
  destruct (first_of_summary s Hok _ _ side_bit_spec sdir_lex sdir_refl (λ _, True) (summary_ s))
    as (k & _ & [[? _] _]); [done|done|tauto|eauto].
Qed.

Lemma side_first_spec :
  (∃ k, side_first side s = Some k ∧ best_such side (occ_bit s) k) ∨
  (side_first side s = Some (band_ticks_ s) ∧ ∀ k, ¬ occ_bit s k).
Proof.
  replace (side_first side s) with (first_occupied s (side_bit side)) by (by destruct side).
  apply (first_occupied_spec s Hok _ (sdir side)); auto using side_bit_spec, sdir_lex, sdir_refl.
Qed.

Lemma side_past_spec tick : 0 ≤ tick < band_ticks_ s → band_ticks_ s ≤ 2 ^ 18 →
  (∃ k, side_past side s tick = Some k ∧ best_such side (λ k, occ_bit s k ∧ better side tick k) k) ∨
  (side_past side s tick = Some (band_ticks_ s) ∧ ∀ k, occ_bit s k → ¬ better side tick k).
Proof.
  intros Ht Hb.
  assert (side_past side s tick = Some (band_ticks_ s) ∧ (∀ k, occ_bit s k → ¬ better side tick k) ∨
    side_past side s tick = first_occupied_past s (side_bit side) (side_mask side) tick) as [?| ->].
  { destruct side; simpl.
    - unfold highest_occupied_below. destruct (Z.eqb_spec (summary_ s) 0) as [Hz|].
      { left. split; [done|]. intros k Hk. by apply (no_summary_no_bit s Hok) in Hk. }
      destruct (Z.eqb_spec tick 0) as [->|]; [|by right].
      left. split; [done|]. intros k Hk%occ_bit_nonneg. unfold better. lia.
    - unfold lowest_occupied_above. destruct (Z.eqb_spec (summary_ s) 0) as [Hz|].
      { left. split; [done|]. intros k Hk. by apply (no_summary_no_bit s Hok) in Hk. }
      rewrite u32_small by (unfold in_u32; lia).
      destruct (Z.leb_spec (band_ticks_ s) (tick + 1)); [|by right].
      left. split; [done|]. intros k Hk%(bm_in_band _ Hok). unfold better. lia. }
  { by right. }
  apply (first_occupied_past_spec s Hok _ _ (sdir side) (better side));
    auto using side_bit_spec, side_mask_nonneg, sdir_lex, better_lex, sdir_refl,
      better_sdir, better_irrefl.
  intros. by apply side_mask_spec.
Qed.
End per_side.

End SideIndex.
