(* ===== verification/PriceIndex.v ===== *)
(** * The price index as a finite map

    The refinement half of [SideIndex]: on prices that are [price_safe], the
    ladder, its bitmap and the overflow map together are one finite map from
    prices to level slots ([view]), every operation is the corresponding map
    operation, and [best_price] and [next_price] enumerate the keys in price
    priority. *)

From S2P Require Import Prelude.
From S2P Require Import Types.
From S2P Require Import Bits.
From S2P Require Import SideIndex.

Module PriceIndex.
Import Bits SideIndex.

(** ** The index as a map from prices to levels *)

(** Far enough from both ends of the signed range for the band arithmetic
    ([base_], [base_ + band_ticks_]) not to overflow, for any band up to the
    [64 * 64 * 64] ticks the bitmap can cover. *)
Definition price_safe (p : Price) : Prop := 0 < p < 2 ^ 63 - 2 ^ 18.

Definition view (s : t) (p : Price) : option LevelSlot :=
  if bool_decide (price_safe p) then default None (find_level s p) else None.

Record wf (s : t) : Prop := {
  wf_band : 0 ≤ band_ticks_ s ≤ 2 ^ 18;
  wf_anchored : anchored_ s = true →
    bitmap_ok s ∧ 0 < band_ticks_ s ∧ - 2 ^ 18 ≤ base_ s ∧ base_ s + band_ticks_ s < 2 ^ 63 ∧
    ∃ l, ladder_ s = Some l ∧
      ∀ k, occ_bit s k → price_safe (base_ s + k) ∧ is_Some (l !! k);
  wf_unanchored : anchored_ s = false →
    summary_ s = 0 ∧ ladder_ s = None ∧ (band_ticks_ s ≠ 0 → overflow_ s = ∅);
  wf_overflow : ∀ p l, overflow_ s !! p = Some l → price_safe p ∧ in_band s p = false;
}.

Lemma fold_keys_spec (f : Z → Z → Z) (R : Z → Z → Prop) P ks :
  (∀ x, R x x) → (∀ x y z, R x y → R y z → R x z) →
  (∀ x y, (f x y = x ∨ f x y = y) ∧ R x (f x y) ∧ R y (f x y)) →
  match fold_keys f P ks with
  | Some k => k ∈ ks ∧ P k = true ∧ ∀ k', k' ∈ ks → P k' = true → R k' k
  | None => ∀ k', k' ∈ ks → P k' = false
  end.
Proof.
  intros Hrefl Htrans Hf. induction ks as [|k ks IH]; simpl.
  { by intros k' ?%not_elem_of_nil. }
  destruct (fold_keys f P ks) as [a|] eqn:Ea, (P k) eqn:HP; simpl.
  - destruct IH as (Ha & HPa & Hmax), (Hf k a) as (Hsel & Hk & Hka).
    split; [destruct Hsel as [->| ->]; [by left|by right]|].
    split; [by destruct Hsel as [->| ->]|].
    intros k' [->|Hk']%elem_of_cons HPk'; eauto.
  - destruct IH as (Ha & HPa & Hmax). split; [by right|]. split; [done|].
    intros k' [->|Hk']%elem_of_cons HPk'; [congruence|]. by apply Hmax.
  - split; [by left|]. split; [done|].
    intros k' [->|Hk']%elem_of_cons HPk'; [done|]. apply IH in Hk'. congruence.
  - intros k' [->|Hk']%elem_of_cons; [done|by apply IH].
Qed.

Lemma elem_of_keys (m : gmap Z LevelSlot) k : k ∈ (map_to_list m).*1 ↔ is_Some (m !! k).
Proof.
  rewrite list_elem_of_fmap. split.
  - intros ([k' l] & -> & Hl%elem_of_map_to_list). by eexists.
  - intros [l Hl]. exists (k, l). by rewrite elem_of_map_to_list.
Qed.

(** The extreme key of an ordered map, on either side. *)
Definition side_key (side : Side) : (Z → bool) → gmap Z LevelSlot → option Z :=
  match side with Buy => max_key | Sell => min_key end.

Lemma side_key_spec side P m :
  match side_key side P m with
  | Some k => best_such side (λ k, is_Some (m !! k) ∧ P k = true) k
  | None => ∀ k, is_Some (m !! k) → P k = false
  end.
Proof.
  assert (match side_key side P m with
    | Some k => k ∈ (map_to_list m).*1 ∧ P k = true ∧
        ∀ k', k' ∈ (map_to_list m).*1 → P k' = true → sdir side k k'
    | None => ∀ k', k' ∈ (map_to_list m).*1 → P k' = false
    end) as H.
  { destruct side; simpl; unfold max_key, min_key;
      [apply (fold_keys_spec Z.max (λ a b, a ≤ b))|apply (fold_keys_spec Z.min (λ a b, b ≤ a))]; lia. }
  destruct (side_key side P m) as [k|].
  - destruct H as (Hk & HPk & Hbest). split; [by rewrite <-elem_of_keys|].
    intros q [Hq ?]. apply Hbest; [by apply elem_of_keys|done].
  - intros k Hk. by apply H, elem_of_keys.
Qed.

(** The band test and the tick arithmetic, without the wrap-around. *)
Section ticks.
Context (s : t) (Hwf : wf s) (p : Price) (Hp : price_safe p).

Lemma in_band_spec : in_band s p = true ↔
  anchored_ s = true ∧ base_ s ≤ p < base_ s + band_ticks_ s.
Proof.
  unfold in_band. destruct (anchored_ s) eqn:Ha; simpl; [|naive_solver].
  destruct (wf_anchored _ Hwf Ha) as (_ & Hb & Hl & Hu & _).
  pose proof (wf_band _ Hwf). unfold price_safe in Hp. rewrite u64_i64, Z.ltb_lt.
  destruct (Z.le_gt_cases (base_ s) p).
  - rewrite u64_small by (unfold in_u64; lia). naive_solver lia.
  - unfold u64. rewrite <-(Z.mod_add _ 1), Z.mod_small by lia. naive_solver lia.
Qed.

Lemma tick_of_spec : in_band s p = true →
  tick_of s p = p - base_ s ∧ 0 ≤ p - base_ s < band_ticks_ s.
Proof.
  intros [Ha Hr]%in_band_spec. destruct (wf_anchored _ Hwf Ha) as (_ & Hb & Hl & Hu & _).
  pose proof (wf_band _ Hwf). unfold tick_of.
  rewrite i64_small by (unfold in_i64; lia). rewrite u32_small by (unfold in_u32; lia). lia.
Qed.

Lemma find_level_in_band : in_band s p = true →
  ∃ l, ladder_ s = Some l ∧ bitmap_ok s ∧
    ((occ_bit s (p - base_ s) ∧ ∃ x, l !! (p - base_ s) = Some x ∧ find_level s p = Some (Some x))
     ∨ (¬ occ_bit s (p - base_ s) ∧ find_level s p = Some None)).
Proof.
  intros Hin. pose proof Hin as [Ha _]%in_band_spec.
  destruct (tick_of_spec Hin) as [Ht Hr].
  destruct (wf_anchored _ Hwf Ha) as (Hok & _ & _ & _ & l & Hl & Hocc).
  exists l. split; [done|]. split; [done|]. unfold find_level. rewrite Hin, Ht.
  destruct (is_occupied_spec s (p - base_ s) Hok Hr) as (b & Hb & Hiff). rewrite Hb. simpl.
  destruct b.
  - left. pose proof (proj1 Hiff eq_refl) as Ho. split; [done|].
    destruct (Hocc _ Ho) as [_ [x Hx]]. exists x. split; [done|].
    unfold ladder_read. rewrite Hl. simpl. rewrite (proj2 (Z.ltb_lt _ _)) by lia. by rewrite Hx.
  - right. split; [|done]. intros Ho. by apply Hiff in Ho.
Qed.

Lemma view_in_band : in_band s p = true →
  ∃ l, ladder_ s = Some l ∧ bitmap_ok s ∧
    ((occ_bit s (p - base_ s) ∧ ∃ x, l !! (p - base_ s) = Some x ∧ view s p = Some x)
     ∨ (¬ occ_bit s (p - base_ s) ∧ view s p = None)).
Proof.
  intros Hin. unfold view. rewrite bool_decide_true by done.
  destruct (find_level_in_band Hin) as (l & Hl & Hok & [(? & x & ? & ->)|[? ->]]);
    exists l; (split; [done|]); (split; [done|]); [left; eauto|by right].
Qed.

Lemma view_out_of_band : in_band s p = false → view s p = overflow_ s !! p.
Proof.
  intros Hin. unfold view. rewrite bool_decide_true by done. unfold find_level. by rewrite Hin.
Qed.
End ticks.

Lemma view_safe s p l : view s p = Some l → price_safe p.
Proof. unfold view. by case_bool_decide. Qed.

(** The two places a level can be. *)
Lemma view_Some s : wf s → ∀ p, is_Some (view s p) ↔
  (anchored_ s = true ∧ occ_bit s (p - base_ s)) ∨ is_Some (overflow_ s !! p).
Proof.
  intros Hwf p. split.
  - intros [l Hl]. pose proof (view_safe _ _ _ Hl) as Hp.
    destruct (in_band s p) eqn:Hin.
    + left. pose proof (proj1 (in_band_spec s Hwf p Hp) Hin) as [? _].
      destruct (view_in_band s Hwf p Hp Hin) as (? & _ & _ & [[? _]|[_ ?]]); [done|congruence].
    + right. rewrite <-(view_out_of_band s p Hp Hin), Hl. by eexists.
  - intros [[Ha Ho]|[l Hl]].
    + destruct (wf_anchored _ Hwf Ha) as (Hok & _ & _ & _ & l & Hl & Hocc).
      destruct (Hocc _ Ho) as [Hp _]. replace (base_ s + (p - base_ s)) with p in Hp by lia.
      pose proof (bm_in_band _ Hok _ Ho). pose proof (occ_bit_nonneg s _ Ho).
      assert (in_band s p = true) as Hin by (apply in_band_spec; [done..|split; [done|lia]]).
      destruct (view_in_band s Hwf p Hp Hin) as (? & _ & _ & [(_ & x & _ & ->)|[? _]]); done.
    + destruct (wf_overflow _ Hwf _ _ Hl) as [Hp Hin]. rewrite view_out_of_band by done. by rewrite Hl.
Qed.

(** ** Operations on the map *)

Lemma make_wf side band : 0 ≤ band ≤ 2 ^ 18 → wf (make side band).
Proof.
  intros Hb. by split.
Qed.

Lemma view_make side band p : view (make side band) p = None.
Proof.
  unfold view. case_bool_decide; [|done]. unfold find_level, in_band. simpl.
  by rewrite lookup_empty.
Qed.

Lemma empty_spec s : wf s → empty s = true ↔ ∀ p, view s p = None.
Proof.
  intros Hwf. unfold empty. rewrite andb_true_iff, Z.eqb_eq, bool_decide_eq_true. split.
  - intros [Hs Ho] p. apply eq_None_not_Some. rewrite view_Some by done.
    intros [[Ha Hocc]|Hov]; [|by rewrite Ho, lookup_empty in Hov; destruct Hov].
    destruct (wf_anchored _ Hwf Ha) as (Hok & _). by apply (no_summary_no_bit s Hok _ Hs) in Hocc.
  - intros Hv. assert (∀ p, ¬ is_Some (view s p)) as Hn by (intros p; rewrite Hv; by intros []).
    setoid_rewrite (view_Some s Hwf) in Hn. split.
    + destruct (anchored_ s) eqn:Ha; [|by apply (wf_unanchored _ Hwf)].
      destruct (wf_anchored _ Hwf Ha) as (Hok & _).
      destruct (Z.eq_dec (summary_ s) 0) as [|Hnz]; [done|].
      destruct (summary_bit Buy s Hok Hnz) as [k Hk].
      destruct (Hn (base_ s + k)). left. split; [done|].
      by replace (base_ s + k - base_ s) with k by lia.
    + apply map_empty. intros p. apply eq_None_not_Some. intros Hp. apply (Hn p). by right.
Qed.

(** Anchoring an empty side gives an empty side whose band holds the price. *)
Lemma anchor_spec s price : wf s → price_safe price → band_ticks_ s ≠ 0 → empty s = true →
  wf (anchor price s) ∧ in_band (anchor price s) price = true ∧
  (∀ p, view (anchor price s) p = None) ∧ side_ (anchor price s) = side_ s ∧
  band_ticks_ (anchor price s) = band_ticks_ s.
Proof.
  intros Hwf Hp Hb He. pose proof (wf_band _ Hwf). unfold price_safe in Hp.
  pose proof He as He'. unfold empty in He'.
  apply andb_true_iff in He' as [Hs%Z.eqb_eq Ho%bool_decide_eq_true].
  pose proof (Z.div_mod (band_ticks_ s) 2 ltac:(lia)) as Hdm.
  pose proof (Z.mod_pos_bound (band_ticks_ s) 2 ltac:(lia)).
  assert (i64 (price - band_ticks_ s / 2) = price - band_ticks_ s / 2) as Hbase.
  { apply i64_small. unfold in_i64. lia. }
  assert (anchored_ (anchor price s) = true ∧ base_ (anchor price s) = price - band_ticks_ s / 2 ∧
    band_ticks_ (anchor price s) = band_ticks_ s ∧ side_ (anchor price s) = side_ s ∧
    overflow_ (anchor price s) = ∅ ∧ summary_ (anchor price s) = 0 ∧
    bitmap_ok (anchor price s) ∧ is_Some (ladder_ (anchor price s))) as
    (Ha' & Hbase' & Hband' & Hside' & Hov' & Hsum' & Hok' & [l Hl']).
  { unfold anchor. rewrite Hbase. destruct (ladder_ s) eqn:Hl; simpl.
    - split_and!; try done.
      destruct (anchored_ s) eqn:Ha; [|destruct (wf_unanchored _ Hwf Ha) as (_ & ? & _); congruence].
      destruct (wf_anchored _ Hwf Ha) as (Hok & _). destruct Hok. by split.
    - split_and!; try done. rewrite Hs. by apply fresh_bitmap_ok. }
  assert (∀ k, ¬ occ_bit (anchor price s) k) as Hno.
  { intros k. by apply no_summary_no_bit. }
  assert (wf (anchor price s)) as Hwf'.
  { split.
    - by rewrite Hband'.
    - intros _. rewrite Hbase', Hband'. split; [done|]. split_and!; [lia..|].
      exists l. split; [done|]. by intros k ?%Hno.
    - by rewrite Ha'.
    - intros p x. rewrite Hov'. by rewrite lookup_empty. }
  split; [done|]. split.
  { apply in_band_spec; [done..|]. rewrite Hbase', Hband'. split; [done|]. lia. }
  split; [|done]. apply empty_spec; [done|]. unfold empty. by rewrite Hsum', Hov', bool_decide_true.
Qed.

(** Two states that differ in the ladder and its bitmap only. *)
Definition same_frame (s s' : t) : Prop :=
  side_ s' = side_ s ∧ band_ticks_ s' = band_ticks_ s ∧ base_ s' = base_ s ∧
  anchored_ s' = anchored_ s ∧ overflow_ s' = overflow_ s.

Lemma same_frame_in_band s s' p : same_frame s s' → in_band s' p = in_band s p.
Proof. intros (_ & Hb & Hba & Ha & _). unfold in_band. by rewrite Hb, Hba, Ha. Qed.

(** The view of an in-band price, given the ladder. *)
Lemma view_ladder s l p : wf s → price_safe p → in_band s p = true → ladder_ s = Some l →
  (occ_bit s (p - base_ s) → view s p = l !! (p - base_ s)) ∧
  (¬ occ_bit s (p - base_ s) → view s p = None).
Proof.
  intros Hwf Hp Hin Hl. destruct (view_in_band s Hwf p Hp Hin) as (l2 & Hl2 & _ & Hv).
  rewrite Hl in Hl2. injection Hl2 as <-. destruct Hv as [(? & x & -> & ->)|[? ->]]; by split.
Qed.

(** A change of one tick of the ladder changes the view at one price. *)
Lemma ladder_update s s' l l' p :
  wf s → price_safe p → in_band s p = true → same_frame s s' → bitmap_ok s' →
  ladder_ s = Some l → ladder_ s' = Some l' →
  (∀ k, k ≠ p - base_ s → occ_bit s' k ↔ occ_bit s k) →
  (∀ k, k ≠ p - base_ s → l' !! k = l !! k) →
  (occ_bit s' (p - base_ s) → is_Some (l' !! (p - base_ s))) →
  wf s' ∧ (∀ q, q ≠ p → view s' q = view s q) ∧
  (occ_bit s' (p - base_ s) → view s' p = l' !! (p - base_ s)) ∧
  (¬ occ_bit s' (p - base_ s) → view s' p = None).
Proof.
  intros Hwf Hp Hin Hfr Hok' Hl Hl' Hocc Hlk Hsome.
  pose proof (proj1 (in_band_spec s Hwf p Hp) Hin) as [Ha Hr].
  destruct (wf_anchored _ Hwf Ha) as (Hok & Hb & Hlo & Hhi & l2 & Hl2 & Hsafe).
  rewrite Hl in Hl2. injection Hl2 as <-.
  pose proof Hfr as (Hsd & Hbd & Hbs & Han & Hov).
  assert (wf s') as Hwf'.
  { split.
    - rewrite Hbd. apply Hwf.
    - intros _. rewrite Hbd, Hbs. split_and!; try done. exists l'. split; [done|].
      intros k Hk. destruct (decide (k = p - base_ s)) as [->|Hne].
      + split; [by replace (base_ s + (p - base_ s)) with p by lia|by apply Hsome].
      + rewrite Hlk by done. by apply Hsafe, Hocc.
    - rewrite Han, Ha. done.
    - intros q x. rewrite Hov, (same_frame_in_band s s') by done. apply Hwf. }
  split; [done|].
  assert (in_band s' p = true) as Hin' by by rewrite (same_frame_in_band s s').
  pose proof (view_ladder s' l' p Hwf' Hp Hin' Hl') as Hvp. rewrite Hbs in Hvp.
  split; [|done]. intros q Hq.
  destruct (decide (price_safe q)) as [Hsq|]; [|unfold view; by rewrite !bool_decide_false].
  destruct (in_band s q) eqn:Hinq.
  - assert (in_band s' q = true) as Hinq' by by rewrite (same_frame_in_band s s').
    destruct (view_ladder s' l' q Hwf' Hsq Hinq' Hl') as [Hv1 Hv2].
    destruct (view_ladder s l q Hwf Hsq Hinq Hl) as [Hv3 Hv4].
    rewrite Hbs in Hv1, Hv2. rewrite Hocc in Hv1, Hv2 by lia. rewrite Hlk in Hv1 by lia.
    destruct (tick_of_spec s Hwf q Hsq Hinq) as [_ Hrq].
    destruct (is_occupied_spec s _ Hok Hrq) as ([|] & _ & Hiff).
    + by rewrite Hv1, Hv3 by by apply Hiff.
    + assert (¬ occ_bit s (q - base_ s)) as Hno by (intros Hc; by apply Hiff in Hc).
      by rewrite Hv2, Hv4.
  - assert (in_band s' q = false) as Hinq' by by rewrite (same_frame_in_band s s').
    by rewrite !view_out_of_band, Hov.
Qed.

(** A change of the overflow map at an out-of-band price. *)
Lemma overflow_update s m p :
  wf s → price_safe p → in_band s p = false → (anchored_ s = true ∨ band_ticks_ s = 0) →
  (∀ q, q ≠ p → m !! q = overflow_ s !! q) →
  wf (with_overflow m s) ∧ (∀ q, q ≠ p → view (with_overflow m s) q = view s q) ∧
  view (with_overflow m s) p = m !! p.
Proof.
  intros Hwf Hp Hin Hanch Hm.
  assert (wf (with_overflow m s)) as Hwf'.
  { split; simpl.
    - apply Hwf.
    - intros Ha. destruct (wf_anchored _ Hwf Ha) as ([] & ? & ? & ? & ?). split; [by split|done].
    - intros Ha. destruct (wf_unanchored _ Hwf Ha) as (? & ? & ?). split_and!; try done.
      destruct Hanch; congruence.
    - intros q x Hq. destruct (decide (q = p)) as [->|]; [by split|].
      rewrite Hm in Hq by done. by apply (wf_overflow _ Hwf _ x). }
  split; [done|]. split; [|by apply view_out_of_band].
  intros q Hq. destruct (decide (price_safe q)); [|unfold view; by rewrite !bool_decide_false].
  unfold view. rewrite !bool_decide_true by done. unfold find_level.
  change (in_band (with_overflow m s) q) with (in_band s q). case_bool; [done|]. simpl. by rewrite Hm.
Qed.

(** What the anchoring step of [level_for] leaves. *)
Lemma level_for_anchor s p : wf s → price_safe p →
  let s1 := if negb (band_ticks_ s =? 0) && (negb (anchored_ s) || empty s)
            then anchor p s else s in
  wf s1 ∧ (∀ q, view s1 q = view s q) ∧ side_ s1 = side_ s ∧ band_ticks_ s1 = band_ticks_ s ∧
  (anchored_ s1 = true ∨ band_ticks_ s1 = 0).
Proof.
  intros Hwf Hp. destruct (Z.eqb_spec (band_ticks_ s) 0) as [Hb|Hb]; simpl; [by split_and!; auto|].
  destruct (anchored_ s) eqn:Ha; simpl; [destruct (empty s) eqn:He; [|by split_and!; auto]|].
  - destruct (anchor_spec s p Hwf Hp Hb He) as (? & Hin & Hv & ? & ?).
    split_and!; try done; [|by left; apply in_band_spec in Hin as [? _]].
    intros q. by rewrite Hv, (proj1 (empty_spec s Hwf) He).
  - assert (empty s = true) as He.
    { destruct (wf_unanchored _ Hwf Ha) as (Hs & _ & Ho). unfold empty. by rewrite Hs, Ho, bool_decide_true. }
    destruct (anchor_spec s p Hwf Hp Hb He) as (? & Hin & Hv & ? & ?).
    split_and!; try done; [|by left; apply in_band_spec in Hin as [? _]].
    intros q. by rewrite Hv, (proj1 (empty_spec s Hwf) He).
Qed.

Lemma reserve_level_spec s p : wf s → price_safe p → (anchored_ s = true ∨ band_ticks_ s = 0) →
  ∃ s', reserve_level p s = Some (default empty_level (view s p), s') ∧ wf s' ∧
    side_ s' = side_ s ∧ band_ticks_ s' = band_ticks_ s ∧
    ∀ q, view s' q = if decide (q = p) then Some (default empty_level (view s p)) else view s q.
Proof.
  intros Hwf Hp Hanch. unfold reserve_level.
  destruct (in_band s p) eqn:Hin; simpl.
  - destruct (tick_of_spec s Hwf p Hp Hin) as [Ht Hr]. rewrite Ht.
    destruct (view_in_band s Hwf p Hp Hin) as (l & Hl & Hok & Hcase).
    destruct (is_occupied_spec s _ Hok Hr) as (b & Hb & Hiff). rewrite Hb. simpl.
    destruct Hcase as [(Ho & x & Hx & Hvp)|[Ho Hvp]]; rewrite Hvp; simpl.
    + assert (b = true) as -> by by apply Hiff.
      unfold ladder_read. rewrite Hl. simpl. rewrite (proj2 (Z.ltb_lt _ _)), Hx by lia. simpl.
      exists s. split_and!; try done. intros q. case_decide; [by subst|done].
    + assert (b = false) as -> by (destruct b; [by destruct Ho; apply Hiff|done]).
      destruct (set_occupied_spec s _ Hok Hr) as (occ & mid & sum & Hset & Hok' & Hocc' & _).
      rewrite Hset. simpl. unfold ladder_write. simpl. rewrite Hl. simpl.
      rewrite (proj2 (Z.ltb_lt _ _)) by lia. simpl. eexists. split; [done|].
      set (s' := with_ladder _ _).
      destruct (ladder_update s s' l (<[p - base_ s := empty_level]> l) p) as (Hwf' & Hvo & Hv1 & _); try done.
      { by destruct Hok'; split. }
      { intros k Hk. change (occ_bit s' k) with (occ_bit (with_bitmap occ mid sum s) k).
        rewrite Hocc'. naive_solver. }
      { intros k Hk. by rewrite lookup_insert_ne. }
      { by rewrite lookup_insert_eq. }
      split_and!; try done. intros q. case_decide as Hq; [subst q|by apply Hvo].
      rewrite Hv1, lookup_insert_eq; [done|]. apply Hocc'. by right.
  - rewrite (view_out_of_band s p Hp Hin). destruct (overflow_ s !! p) as [x|] eqn:Hx; simpl.
    + exists s. split_and!; try done. intros q. case_decide; [|done]. subst.
      by rewrite view_out_of_band.
    + eexists. split; [done|].
      destruct (overflow_update s (<[p := empty_level]> (overflow_ s)) p) as (? & Hvo & Hvp); try done.
      { intros q ?. by rewrite lookup_insert_ne. }
      rewrite lookup_insert_eq in Hvp. split_and!; try done.
      intros q. case_decide; [by subst|by apply Hvo].
Qed.

Lemma level_for_spec s p : wf s → price_safe p →
  ∃ s', level_for p s = Some (default empty_level (view s p), s') ∧ wf s' ∧
    side_ s' = side_ s ∧ band_ticks_ s' = band_ticks_ s ∧
    ∀ q, view s' q = if decide (q = p) then Some (default empty_level (view s p)) else view s q.
Proof.
  intros Hwf0 Hp. unfold level_for.
  destruct (level_for_anchor s p Hwf0 Hp) as (Hwf & Hv & Hsd & Hbd & Hanch).
  set (s1 := if _ : bool then anchor p s else s) in *.
  destruct (reserve_level_spec s1 p Hwf Hp Hanch) as (s' & H1 & H2 & H3 & H4 & H5).
  exists s'. rewrite <-Hv, <-Hsd, <-Hbd. split_and!; try done.
  intros q. rewrite H5. case_decide; [done|apply Hv].
Qed.

Lemma put_level_spec s p x l : wf s → view s p = Some x →
  ∃ s', put_level p l s = Some s' ∧ wf s' ∧ side_ s' = side_ s ∧ band_ticks_ s' = band_ticks_ s ∧
    ∀ q, view s' q = if decide (q = p) then Some l else view s q.
Proof.
  intros Hwf Hvp. pose proof (view_safe _ _ _ Hvp) as Hp. unfold put_level.
  destruct (in_band s p) eqn:Hin.
  - destruct (tick_of_spec s Hwf p Hp Hin) as [Ht Hr]. rewrite Ht.
    destruct (view_in_band s Hwf p Hp Hin) as (m & Hm & Hok & [(Ho & y & Hy & _)|[_ ?]]); [|congruence].
    unfold ladder_write. rewrite Hm. simpl. rewrite (proj2 (Z.ltb_lt _ _)) by lia.
    eexists. split; [done|]. set (s' := with_ladder _ _).
    destruct (ladder_update s s' m (<[p - base_ s := l]> m) p) as (Hwf' & Hvo & Hv1 & _); try done.
    { by destruct Hok; split. }
    { intros k Hk. by rewrite lookup_insert_ne. }
    { by rewrite lookup_insert_eq. }
    split_and!; try done. intros q. case_decide as Hq; [subst q|by apply Hvo].
    by rewrite Hv1, lookup_insert_eq.
  - rewrite (view_out_of_band s p Hp Hin) in Hvp. rewrite Hvp.
    eexists. split; [done|].
    destruct (overflow_update s (<[p := l]> (overflow_ s)) p) as (? & Hvo & Hv1); try done.
    { destruct (anchored_ s) eqn:Ha; [by left|]. right.
      destruct (wf_unanchored _ Hwf Ha) as (_ & _ & Hov).
      destruct (Z.eq_dec (band_ticks_ s) 0); [done|]. by rewrite Hov, lookup_empty in Hvp. }
    { intros q ?. by rewrite lookup_insert_ne. }
    rewrite lookup_insert_eq in Hv1. split_and!; try done.
    intros q. case_decide; [by subst|by apply Hvo].
Qed.

Lemma erase_level_spec s p x : wf s → view s p = Some x →
  ∃ s', erase_level p s = Some s' ∧ wf s' ∧ side_ s' = side_ s ∧ band_ticks_ s' = band_ticks_ s ∧
    ∀ q, view s' q = if decide (q = p) then None else view s q.
Proof.
  intros Hwf Hvp. pose proof (view_safe _ _ _ Hvp) as Hp. unfold erase_level.
  destruct (in_band s p) eqn:Hin.
  - destruct (tick_of_spec s Hwf p Hp Hin) as [Ht Hr]. rewrite Ht.
    destruct (view_in_band s Hwf p Hp Hin) as (m & Hm & Hok & [(Ho & y & Hy & _)|[_ ?]]); [|congruence].
    destruct (clear_occupied_spec s _ Hok Hr Ho) as (occ & mid & sum & -> & Hok' & Hocc').
    eexists. split; [done|]. set (s' := with_bitmap _ _ _ _) in *.
    destruct (ladder_update s s' m m p) as (Hwf' & Hvo & _ & Hv1); try done.
    { intros k Hk. rewrite Hocc'. tauto. }
    split_and!; try done. intros q. case_decide as Hq; [subst q|by apply Hvo].
    apply Hv1. by intros [_ ?]%Hocc'.
  - rewrite (view_out_of_band s p Hp Hin) in Hvp.
    eexists. split; [done|].
    destruct (overflow_update s (delete p (overflow_ s)) p) as (? & Hvo & Hv1); try done.
    { destruct (anchored_ s) eqn:Ha; [by left|]. right.
      destruct (wf_unanchored _ Hwf Ha) as (_ & _ & Hov).
      destruct (Z.eq_dec (band_ticks_ s) 0); [done|]. by rewrite Hov, lookup_empty in Hvp. }
    { intros q ?. by rewrite lookup_delete_ne. }
    rewrite lookup_delete_eq in Hv1. split_and!; try done.
    intros q. case_decide; [by subst|by apply Hvo].
Qed.

(** ** Reading levels and walking them *)

Lemma level_at_spec s p x : wf s → view s p = Some x → level_at s p = Some x.
Proof.
  intros Hwf Hvp. pose proof (view_safe _ _ _ Hvp) as Hp. unfold level_at.
  destruct (in_band s p) eqn:Hin; [|by rewrite <-(view_out_of_band s p Hp Hin)].
  destruct (tick_of_spec s Hwf p Hp Hin) as [Ht Hr]. rewrite Ht.
  destruct (view_in_band s Hwf p Hp Hin) as (m & Hm & _ & [(_ & y & Hy & Hv)|[_ ?]]); [|congruence].
  unfold ladder_read. rewrite Hm. simpl. rewrite (proj2 (Z.ltb_lt _ _)) by lia. congruence.
Qed.

Lemma find_level_spec s p : wf s → price_safe p → find_level s p = Some (view s p).
Proof.
  intros Hwf Hp. destruct (in_band s p) eqn:Hin.
  - destruct (find_level_in_band s Hwf p Hp Hin) as (l & _ & _ & [(_ & x & _ & H)|[_ H]]);
      unfold view; rewrite bool_decide_true by done; by rewrite H.
  - unfold view. rewrite bool_decide_true by done. unfold find_level. by rewrite Hin.
Qed.

(** The better of two candidates, on either side. *)
Definition pick (side : Side) (l p : Z) : Z :=
  match side with Buy => if p <? l then l else p | Sell => if l <? p then l else p end.

Lemma pick_spec side l p : (pick side l p = l ∨ pick side l p = p) ∧
  sdir side (pick side l p) l ∧ sdir side (pick side l p) p.
Proof. unfold pick, sdir. destruct side; case_bool; lia. Qed.

Lemma sdir_trans side a b c : sdir side a b → sdir side b c → sdir side a c.
Proof. unfold sdir. destruct side; lia. Qed.

Lemma sdir_antisym side a b : sdir side a b → sdir side b a → a = b.
Proof. unfold sdir. destruct side; lia. Qed.

Lemma best_such_unique side P a b : best_such side P a → best_such side P b → a = b.
Proof. intros [? H1] [? H2]. apply (sdir_antisym side); auto. Qed.

(** The best element of a union is the pick of the two bests. *)
Lemma best_such_pick side P Q R a b : (∀ q, R q ↔ P q ∨ Q q) →
  best_such side P a → best_such side Q b → best_such side R (pick side a b).
Proof.
  intros HR [Ha Hba] [Hb Hbb]. destruct (pick_spec side a b) as (Hs & H1 & H2). split.
  - apply HR. destruct Hs as [->| ->]; auto.
  - intros q [Hq|Hq]%HR; eauto using sdir_trans.
Qed.

Lemma best_such_left side P Q R a : (∀ q, R q ↔ P q ∨ Q q) → (∀ q, ¬ Q q) →
  best_such side P a → best_such side R a.
Proof.
  intros HR HQ [Ha Hb]. split; [apply HR; auto|]. intros q [?|?%HQ]%HR; [auto|done].
Qed.

Lemma best_such_right side P Q R a : (∀ q, R q ↔ P q ∨ Q q) → (∀ q, ¬ P q) →
  best_such side Q a → best_such side R a.
Proof. intros HR. apply best_such_left. intros q. rewrite HR. tauto. Qed.

(** A best tick is a best price. *)
Lemma best_such_shift side base (P : Z → Prop) k :
  best_such side P k → best_such side (λ p, P (p - base)) (base + k).
Proof.
  intros [Hk Hb]. split; [by replace (base + k - base) with k by lia|].
  intros q Hq%Hb. unfold sdir in *. destruct side; lia.
Qed.

Lemma price_of_spec s k : wf s → anchored_ s = true → 0 ≤ k < band_ticks_ s →
  price_of s k = base_ s + k.
Proof.
  intros Hwf Ha Hk. destruct (wf_anchored _ Hwf Ha) as (_ & _ & ? & ? & _).
  unfold price_of. apply i64_small. unfold in_i64. lia.
Qed.

Lemma overflow_best_spec s : match overflow_best s with
  | Some k => best_such (side_ s) (λ k, is_Some (overflow_ s !! k)) k
  | None => ∀ k, ¬ is_Some (overflow_ s !! k)
  end.
Proof.
  pose proof (side_key_spec (side_ s) (λ _, true) (overflow_ s)) as H.
  replace (overflow_best s) with (side_key (side_ s) (λ _, true) (overflow_ s))
    by (unfold overflow_best; by destruct (side_ s)).
  destruct (side_key _ _ _).
  - destruct H as [[? _] H]. split; [done|]. intros q Hq. by apply H.
  - intros k Hk. by apply H in Hk.
Qed.

(** The first marked tick, whether or not the side was ever anchored. *)
Lemma side_first_any s : wf s →
  (∃ k, side_first (side_ s) s = Some k ∧ anchored_ s = true ∧ 0 ≤ k < band_ticks_ s ∧
     best_such (side_ s) (occ_bit s) k) ∨
  (side_first (side_ s) s = Some (band_ticks_ s) ∧ ∀ k, anchored_ s = true → ¬ occ_bit s k).
Proof.
  intros Hwf. destruct (anchored_ s) eqn:Ha.
  - destruct (wf_anchored _ Hwf Ha) as (Hok & _).
    destruct (side_first_spec (side_ s) s Hok) as [(k & H1 & H2)|[H1 H2]]; [left|by right; auto].
    exists k. pose proof (occ_bit_nonneg s k (proj1 H2)).
    pose proof (bm_in_band _ Hok _ (proj1 H2)). auto.
  - right. destruct (wf_unanchored _ Hwf Ha) as (Hs & _). split; [|done].
    unfold side_first, highest_occupied, lowest_occupied. rewrite Hs. by destruct (side_ s).
Qed.

Lemma best_price_spec s p0 x0 : wf s → view s p0 = Some x0 →
  ∃ p, best_price s = Some p ∧ best_such (side_ s) (λ q, is_Some (view s q)) p.
Proof.
  intros Hwf Hv. pose proof (view_Some s Hwf) as Hview. pose proof (overflow_best_spec s) as Hov.
  unfold best_price. fold (side_first (side_ s) s).
  destruct (side_first_any s Hwf) as [(k & -> & Ha & Hk & Hbest)|[-> Hno]]; simpl.
  - apply (best_such_shift _ (base_ s)) in Hbest.
    rewrite (proj2 (Z.eqb_neq _ _)), price_of_spec by (done || lia). case_bool_decide as He.
    + eexists. split; [done|]. eapply (best_such_left _ _ (λ q, is_Some (overflow_ s !! q))); [| |exact Hbest].
      * intros q. by rewrite (Hview q), Ha; naive_solver.
      * intros q. simpl. rewrite He, lookup_empty. by intros [].
    + destruct (overflow_best s) as [sp|] eqn:Hsp; simpl.
      2: { destruct He. apply map_empty. intros q. by apply eq_None_not_Some. }
      exists (pick (side_ s) (base_ s + k) sp). split; [by unfold pick; destruct (side_ s)|].
      eapply best_such_pick; [|exact Hbest|exact Hov].
      intros q. by rewrite (Hview q), Ha; naive_solver.
  - rewrite Z.eqb_refl.
    assert (∀ q, is_Some (view s q) ↔ False ∨ is_Some (overflow_ s !! q)) as Hq.
    { intros q. rewrite Hview. split; [intros [[? ?]|]; [left; by eapply Hno|auto]|tauto]. }
    destruct (overflow_best s) as [sp|] eqn:Hsp.
    + exists sp. split; [done|]. eapply best_such_right; [exact Hq| |exact Hov]. tauto.
    + assert (is_Some (view s p0)) as H0%Hq by (rewrite Hv; by eexists).
      destruct H0 as [[]|H0]. by apply Hov in H0.
Qed.

(** What [next_laddered] promises of its answer. *)
Definition laddered_ok (s : t) (price : Price) (r : option (option Price)) : Prop :=
  match r with
  | Some (Some p) => best_such (side_ s)
      (λ q, (anchored_ s = true ∧ occ_bit s (q - base_ s)) ∧ better (side_ s) price q) p
  | Some None => ∀ q, anchored_ s = true → occ_bit s (q - base_ s) → ¬ better (side_ s) price q
  | None => False
  end.

Definition laddered_of (s : t) (r : option Z) : option (option Price) :=
  tick ← r; Some (if tick =? band_ticks_ s then None else Some (price_of s tick)).

Section next_laddered.
Context (s : t) (Hwf : wf s) (Ha : anchored_ s = true) (price : Price).

Lemma occ_price_range q : occ_bit s (q - base_ s) → base_ s ≤ q < base_ s + band_ticks_ s.
Proof.
  intros Hq. destruct (wf_anchored _ Hwf Ha) as (Hok & _).
  pose proof (occ_bit_nonneg s _ Hq). pose proof (bm_in_band _ Hok _ Hq). lia.
Qed.

Lemma laddered_none : (∀ q, occ_bit s (q - base_ s) → ¬ better (side_ s) price q) →
  laddered_ok s price (laddered_of s (Some (band_ticks_ s))).
Proof. intros Hno. simpl. rewrite Z.eqb_refl. intros q _. apply Hno. Qed.

Lemma laddered_some k (P : Z → Prop) : occ_bit s k → best_such (side_ s) P k →
  (∀ q, P (q - base_ s) ↔ occ_bit s (q - base_ s) ∧ better (side_ s) price q) →
  laddered_ok s price (laddered_of s (Some k)).
Proof.
  intros Hk Hb HP. simpl. assert (base_ s ≤ base_ s + k < base_ s + band_ticks_ s) as Hr.
  { apply occ_price_range. by replace (base_ s + k - base_ s) with k by lia. }
  rewrite (proj2 (Z.eqb_neq _ _)), price_of_spec by (done || lia).
  destruct (best_such_shift _ (base_ s) _ _ Hb) as [H1 H2]. split.
  - apply HP in H1 as [? ?]. done.
  - intros q [[_ ?] ?]. apply H2, HP. done.
Qed.

Lemma laddered_first : (∀ q, occ_bit s (q - base_ s) → better (side_ s) price q) →
  laddered_ok s price (laddered_of s (side_first (side_ s) s)).
Proof.
  intros Hall. destruct (wf_anchored _ Hwf Ha) as (Hok & _).
  destruct (side_first_spec (side_ s) s Hok) as [(k & -> & Hk)|[-> Hno]].
  - eapply laddered_some; [apply Hk|done|]. naive_solver.
  - apply laddered_none. intros q Hq%Hno. done.
Qed.

Lemma laddered_past : price_safe price → in_band s price = true →
  laddered_ok s price (laddered_of s (side_past (side_ s) s (tick_of s price))).
Proof.
  intros Hp Hin. destruct (tick_of_spec s Hwf price Hp Hin) as [-> Hr].
  destruct (wf_anchored _ Hwf Ha) as (Hok & _). pose proof (wf_band _ Hwf).
  assert (∀ q, better (side_ s) (price - base_ s) (q - base_ s) ↔ better (side_ s) price q) as Hsh.
  { intros q. unfold better. destruct (side_ s); lia. }
  destruct (side_past_spec (side_ s) s Hok (price - base_ s)) as [(k & -> & Hk)|[-> Hno]]; [lia..| |].
  - eapply laddered_some; [apply Hk|done|]. intros q. cbn beta. by rewrite Hsh.
  - apply laddered_none. intros q Hq%Hno. by rewrite <-Hsh.
Qed.
End next_laddered.

Lemma next_laddered_spec s price : wf s → price_safe price →
  laddered_ok s price (next_laddered s price).
Proof.
  intros Hwf Hp. unfold next_laddered. destruct (anchored_ s) eqn:Ha; simpl; [|congruence].
  destruct (wf_anchored _ Hwf Ha) as (Hok & Hb & Hlo & Hhi & _). pose proof (wf_band _ Hwf) as Hb'.
  destruct (Z.eqb_spec (summary_ s) 0) as [Hz|Hnz]; simpl.
  { intros q _ Hq. by apply (no_summary_no_bit s Hok) in Hq. }
  unfold price_safe in Hp.
  rewrite (i64_small (base_ s + band_ticks_ s)), i64_small by (unfold in_i64; lia).
  match goal with |- laddered_ok s price (_ ← ?r; _) => change (laddered_ok s price (laddered_of s r)) end.
  assert (base_ s ≤ price < base_ s + band_ticks_ s → in_band s price = true) as Hin.
  { intros ?. by apply in_band_spec. }
  pose proof (laddered_first s Hwf Ha price) as Hfirst.
  pose proof (laddered_past s Hwf Ha price Hp) as Hpast.
  pose proof (laddered_none s price) as Hnone.
  pose proof (occ_price_range s Hwf Ha) as Hrange. unfold better in *.
  destruct (side_ s) eqn:Hside; repeat case_bool; simpl in Hfirst, Hpast;
    first [apply Hfirst|apply Hnone|apply Hpast, Hin]; try lia;
    intros q ?%Hrange; lia.
Qed.

Lemma next_spilled_spec s price : match next_spilled s price with
  | Some k => best_such (side_ s) (λ k, is_Some (overflow_ s !! k) ∧ better (side_ s) price k) k
  | None => ∀ k, is_Some (overflow_ s !! k) → ¬ better (side_ s) price k
  end.
Proof.
  set (P := match side_ s with Buy => λ k, k <? price | Sell => λ k, price <? k end).
  assert (∀ k, P k = true ↔ better (side_ s) price k) as HP.
  { intros k. unfold P, better. destruct (side_ s); lia. }
  pose proof (side_key_spec (side_ s) P (overflow_ s)) as H.
  replace (next_spilled s price) with (side_key (side_ s) P (overflow_ s))
    by (unfold next_spilled, P; by destruct (side_ s)).
  destruct (side_key _ _ _) as [k|].
  - destruct H as [[? Hk] H]. split; [by rewrite <-HP|]. intros q [? ?%HP]. by apply H.
  - intros k Hk ?%HP. apply H in Hk. congruence.
Qed.

Lemma next_price_spec s price : wf s → price_safe price →
  match next_price s price with
  | Some (Some p) => best_such (side_ s) (λ q, is_Some (view s q) ∧ better (side_ s) price q) p
  | Some None => ∀ q, is_Some (view s q) → ¬ better (side_ s) price q
  | None => False
  end.
Proof.
  intros Hwf Hp. unfold next_price. pose proof (next_laddered_spec s price Hwf Hp) as Hl.
  destruct (next_laddered s price) as [l|]; [|done]. simpl.
  pose proof (next_spilled_spec s price) as Hs.
  assert (∀ q, (is_Some (view s q) ∧ better (side_ s) price q) ↔
    ((anchored_ s = true ∧ occ_bit s (q - base_ s)) ∧ better (side_ s) price q) ∨
    (is_Some (overflow_ s !! q) ∧ better (side_ s) price q)) as HR.
  { intros q. rewrite (view_Some s Hwf q). tauto. }
  destruct l as [l|], (next_spilled s price) as [sp|]; simpl in Hl.
  - replace (match side_ s with Buy => _ | Sell => _ end) with (Some (pick (side_ s) l sp))
      by (unfold pick; by destruct (side_ s)).
    eapply best_such_pick; [exact HR|done|done].
  - eapply best_such_left; [exact HR| |done]. intros q [? ?]. by apply (Hs q).
  - eapply best_such_right; [exact HR| |done]. intros q [[? ?] ?]. by apply (Hl q).
  - intros q Hq Hb. destruct (proj1 (HR q) (conj Hq Hb)) as [[[? ?] ?]|[? ?]]; [by apply (Hl q)|by apply (Hs q)].
Qed.

End PriceIndex.
