(* ===== verification/MatchingBook.v ===== *)
(** * The exchange's order book for one instrument

    [MatchingBook] of [include/exchange/matching/matching_book.hpp] and
    [src/exchange/matching/matching_book.cpp]: orders in a slab threaded into
    doubly linked queues by slot number, one queue per price level, the levels
    found through a [SideIndex] per side. Every operation is in the option
    monad: [None] is undefined behaviour (an index out of the slab, a null
    level, an empty side where the code has a precondition) or a walk that ran
    out of fuel. [BookRefinement] proves that neither happens. *)

From S2P Require Import Prelude.
From S2P Require Import Types.
From S2P Require Import SideIndex.

Module MatchingBook.

Definition kMaxBandTicks : Z := 8192.
Definition kMinBandTicks : Z := 1024.
Definition kNil : Z := SideIndex.kNil.

(** [sizeof(SideIndex::LevelSlot)]: two 32-bit indices. *)
Definition level_slot_bytes : Z := 8.

(** [std::bit_floor] *)
Definition bit_floor (z : Z) : Z := if z =? 0 then 0 else 2 ^ Z.log2 z.

Definition band_for (instrument_count byte_budget : Z) : Z :=
  if instrument_count =? 0 then kMaxBandTicks
  else
    let ticks := byte_budget / instrument_count / (2 * level_slot_bytes) in
    if ticks <? kMinBandTicks then 0
    else bit_floor (u32 (Z.min ticks kMaxBandTicks)).

Record SlabOrder := mkSlabOrder { so_order : BookOrder; so_next : Z; so_prev : Z }.

Record t := mk {
  slab_ : list SlabOrder;
  free_head_ : Z;
  bids_ : SideIndex.t;
  asks_ : SideIndex.t;
}.

Definition make (band_ticks : Z) : t :=
  mk [] kNil (SideIndex.make Buy band_ticks) (SideIndex.make Sell band_ticks).

Definition side_of (side : Side) (b : t) : SideIndex.t :=
  match side with Buy => bids_ b | Sell => asks_ b end.

Definition with_side (side : Side) (s : SideIndex.t) (b : t) : t :=
  match side with
  | Buy => mk (slab_ b) (free_head_ b) s (asks_ b)
  | Sell => mk (slab_ b) (free_head_ b) (bids_ b) s
  end.

Definition with_slab (slab : list SlabOrder) (b : t) : t :=
  mk slab (free_head_ b) (bids_ b) (asks_ b).

(** ** The slab *)

(** A field of [slab_[slot]] assigned. *)
Definition update_slot (slot : Z) (f : SlabOrder → SlabOrder) (slab : list SlabOrder) :
    option (list SlabOrder) :=
  e ← vget slab slot; vset slab slot (f e).

Definition set_order (o : BookOrder) (e : SlabOrder) : SlabOrder :=
  mkSlabOrder o (so_next e) (so_prev e).
Definition set_next (next : Z) (e : SlabOrder) : SlabOrder :=
  mkSlabOrder (so_order e) next (so_prev e).
Definition set_prev (prev : Z) (e : SlabOrder) : SlabOrder :=
  mkSlabOrder (so_order e) (so_next e) prev.

Definition acquire_slot (order : BookOrder) (b : t) : option (Z * t) :=
  if negb (free_head_ b =? kNil) then
    let slot := free_head_ b in
    e ← vget (slab_ b) slot;
    slab ← update_slot slot (set_order order) (slab_ b);
    Some (slot, mk slab (so_next e) (bids_ b) (asks_ b))
  else
    let slab := slab_ b ++ [mkSlabOrder order kNil kNil] in
    Some (u32 (vsize slab - 1), with_slab slab b).

Definition release_slot (slot : Z) (b : t) : option t :=
  slab ← update_slot slot (set_next (free_head_ b)) (slab_ b);
  Some (mk slab slot (bids_ b) (asks_ b)).

(** The level is passed and returned: the callers write it back through the
    reference they hold ([SideIndex.put_level]). *)
Definition link_back (level : SideIndex.LevelSlot) (slot : Z) (slab : list SlabOrder) :
    option (SideIndex.LevelSlot * list SlabOrder) :=
  slab ← update_slot slot (set_next kNil) slab;
  slab ← update_slot slot (set_prev (SideIndex.tail level)) slab;
  if SideIndex.tail level =? kNil then Some (SideIndex.mkLevel slot slot, slab)
  else
    slab ← update_slot (SideIndex.tail level) (set_next slot) slab;
    Some (SideIndex.mkLevel (SideIndex.head level) slot, slab).

Definition unlink (level : SideIndex.LevelSlot) (slot : Z) (slab : list SlabOrder) :
    option (SideIndex.LevelSlot * list SlabOrder) :=
  e ← vget slab slot;
  let next := so_next e in
  let prev := so_prev e in
  '(level, slab) ←
    (if prev =? kNil then Some (SideIndex.mkLevel next (SideIndex.tail level), slab)
     else slab ← update_slot prev (set_next next) slab; Some (level, slab));
  if next =? kNil then Some (SideIndex.mkLevel (SideIndex.head level) prev, slab)
  else slab ← update_slot next (set_prev prev) slab; Some (level, slab).

(** ** Operations *)

(** Inserts at the back of the order's price level; the result is the handle. *)
Definition add (order : BookOrder) (b : t) : option (Z * t) :=
  '(slot, b) ← acquire_slot order b;
  '(level, idx) ← SideIndex.level_for (bo_price order) (side_of (bo_side order) b);
  '(level, slab) ← link_back level slot (slab_ b);
  idx ← SideIndex.put_level (bo_price order) level idx;
  Some (slot, with_side (bo_side order) idx (with_slab slab b)).

Definition remove_at (slot : Z) (b : t) : option (BookOrder * t) :=
  e ← vget (slab_ b) slot;
  let removed := so_order e in
  let side := bo_side removed in
  found ← SideIndex.find_level (side_of side b) (bo_price removed);
  level ← found;
  '(level, slab) ← unlink level slot (slab_ b);
  idx ← SideIndex.put_level (bo_price removed) level (side_of side b);
  idx ← (if SideIndex.head level =? kNil
         then SideIndex.erase_level (bo_price removed) idx else Some idx);
  b ← release_slot slot (with_side side idx (with_slab slab b));
  Some (removed, b).

Definition update_order (slot : Z) (f : BookOrder → BookOrder) (b : t) : option t :=
  slab ← update_slot slot (λ e, set_order (f (so_order e)) e) (slab_ b);
  Some (with_slab slab b).

Definition reduce_at (slot : Z) (new_remaining_quantity : Quantity) (b : t) : option t :=
  update_order slot (bo_with_remaining new_remaining_quantity) b.

Definition set_client_order_id_at (slot : Z) (new_client_order_id : ClientOrderId) (b : t) :
    option t :=
  update_order slot (bo_with_client_order_id new_client_order_id) b.

Definition at_ (slot : Z) (b : t) : option BookOrder :=
  e ← vget (slab_ b) slot; Some (so_order e).

Definition best_side_price (side : Side) (b : t) : option (option Price) :=
  if SideIndex.empty (side_of side b) then Some None
  else p ← SideIndex.best_price (side_of side b); Some (Some p).

Definition best_bid_price (b : t) : option (option Price) := best_side_price Buy b.
Definition best_ask_price (b : t) : option (option Price) := best_side_price Sell b.

(** [side.level_at(side.best_price()).head], with the price and the level. *)
Definition front_level (side : SideIndex.t) : option (Price * SideIndex.LevelSlot) :=
  price ← SideIndex.best_price side;
  level ← SideIndex.level_at side price;
  Some (price, level).

(** The pointer returned is read before the next change to the book, so the
    order it points at is the result. *)
Definition front_of_best (book_side : Side) (b : t) : option (option BookOrder) :=
  let side := side_of book_side b in
  if SideIndex.empty side then Some None
  else
    '(_, level) ← front_level side;
    e ← vget (slab_ b) (SideIndex.head level);
    Some (Some (so_order e)).

Definition reduce_front (book_side : Side) (new_remaining_quantity : Quantity) (b : t) : option t :=
  '(_, level) ← front_level (side_of book_side b);
  update_order (SideIndex.head level) (bo_with_remaining new_remaining_quantity) b.

Definition remove_front (book_side : Side) (b : t) : option t :=
  '(price, level) ← front_level (side_of book_side b);
  let head := SideIndex.head level in
  '(level, slab) ← unlink level head (slab_ b);
  idx ← SideIndex.put_level price level (side_of book_side b);
  b ← release_slot head (with_side book_side idx (with_slab slab b));
  if SideIndex.head level =? kNil then
    idx ← SideIndex.erase_level price (side_of book_side b);
    Some (with_side book_side idx b)
  else Some b.

(** ** Walking a side

    The two nested loops of [crossable_quantity] and [all_of]. A slab of [n]
    slots has at most [n] orders in a level and at most [n] levels, so [S n]
    steps are enough for either loop. *)

(** The orders of one level, from slot [slot] on. *)
Fixpoint walk_level (fuel : nat) (slab : list SlabOrder) (slot : Z) : option (list BookOrder) :=
  if slot =? kNil then Some []
  else
    match fuel with
    | O => None
    | S fuel =>
        e ← vget slab slot;
        rest ← walk_level fuel slab (so_next e);
        Some (so_order e :: rest)
    end.

Definition level_orders (slab : list SlabOrder) (side : SideIndex.t) (price : Price) :
    option (list BookOrder) :=
  level ← SideIndex.level_at side price;
  walk_level (S (length slab)) slab (SideIndex.head level).

Fixpoint all_from (fuel : nat) (slab : list SlabOrder) (side : SideIndex.t)
    (level_price : option Price) : option (list BookOrder) :=
  match level_price, fuel with
  | None, _ => Some []
  | Some _, O => None
  | Some p, S fuel =>
      here ← level_orders slab side p;
      next ← SideIndex.next_price side p;
      rest ← all_from fuel slab side next;
      Some (here ++ rest)
  end.

Definition all_of (book_side : Side) (b : t) : option (list BookOrder) :=
  let side := side_of book_side b in
  if SideIndex.empty side then Some []
  else
    p ← SideIndex.best_price side;
    all_from (S (length (slab_ b))) (slab_ b) side (Some p).

Definition all_bids (b : t) : option (list BookOrder) := all_of Buy b.
Definition all_asks (b : t) : option (list BookOrder) := all_of Sell b.

(** The inner loop of [crossable_quantity]: [inr] is its early return. *)
Fixpoint cross_level (fuel : nat) (slab : list SlabOrder) (quantity total : Quantity) (slot : Z) :
    option (Quantity + Quantity) :=
  if slot =? kNil then Some (inl total)
  else
    match fuel with
    | O => None
    | S fuel =>
        e ← vget slab slot;
        let total := u64 (total + bo_remaining_quantity (so_order e)) in
        if quantity <=? total then Some (inr total)
        else cross_level fuel slab quantity total (so_next e)
    end.

Fixpoint cross_from (fuel : nat) (slab : list SlabOrder) (side : SideIndex.t) (book_side : Side)
    (price : Price) (quantity total : Quantity) (level_price : option Price) : option Quantity :=
  match level_price, fuel with
  | None, _ => Some total
  | Some _, O => None
  | Some p, S fuel =>
      if (match book_side with Buy => p <? price | Sell => price <? p end) then Some total
      else
        level ← SideIndex.level_at side p;
        r ← cross_level (S (length slab)) slab quantity total (SideIndex.head level);
        match r with
        | inr total => Some total
        | inl total =>
            next ← SideIndex.next_price side p;
            cross_from fuel slab side book_side price quantity total next
        end
  end.

Definition crossable_quantity (book_side : Side) (price : Price) (quantity : Quantity) (b : t) :
    option Quantity :=
  let side := side_of book_side b in
  if SideIndex.empty side then Some 0
  else
    p ← SideIndex.best_price side;
    cross_from (S (length (slab_ b))) (slab_ b) side book_side price quantity 0 (Some p).

Definition out_of_band_levels (b : t) : Z :=
  SideIndex.overflow_levels (bids_ b) + SideIndex.overflow_levels (asks_ b).

End MatchingBook.
