(* ===== verification/BookSpec.v ===== *)
(** * What an order book promises: price-time priority

    The interface the matching engine uses ([BookOps]) and its specification, a
    book that is just two queues in price-time order ([ABook]). An entry is an
    order and the slot its handle names; slots are recycled last in, first out,
    as the slab does. [BookRefinement] proves that [MatchingBook] implements
    this specification; the engine's own theorems are proved about any book
    that does. *)

From S2P Require Import Prelude.
From S2P Require Import Types.
From S2P Require Import SideIndex.
From S2P Require Import PriceIndex.
From S2P Require Import MatchingBook.

(** ** The interface *)

(** The operations of a book the engine calls; [None] is undefined behaviour. *)
Class BookOps (B : Type) := {
  book_make : Z → B;
  book_add : BookOrder → B → option (Z * B);
  book_remove_at : Z → B → option (BookOrder * B);
  book_reduce_at : Z → Quantity → B → option B;
  book_set_client_order_id_at : Z → ClientOrderId → B → option B;
  book_at : Z → B → option BookOrder;
  book_front : Side → B → option (option BookOrder);
  book_reduce_front : Side → Quantity → B → option B;
  book_remove_front : Side → B → option B;
  book_all_of : Side → B → option (list BookOrder);
  book_crossable : Side → Price → Quantity → B → option Quantity;
  book_fuel : B → nat;
}.

#[export] Instance MatchingBook_ops : BookOps MatchingBook.t := {
  book_make := MatchingBook.make;
  book_add := MatchingBook.add;
  book_remove_at := MatchingBook.remove_at;
  book_reduce_at := MatchingBook.reduce_at;
  book_set_client_order_id_at := MatchingBook.set_client_order_id_at;
  book_at := MatchingBook.at_;
  book_front := MatchingBook.front_of_best;
  book_reduce_front := MatchingBook.reduce_front;
  book_remove_front := MatchingBook.remove_front;
  book_all_of := MatchingBook.all_of;
  book_crossable := MatchingBook.crossable_quantity;
  book_fuel := λ b, length (MatchingBook.slab_ b);
}.

(** ** The specification *)

Module ABook.
Import PriceIndex.

Abbreviation entry := (Z * BookOrder)%type.

Definition entry_price (x : entry) : Price := bo_price x.2.

(** [better] as a test: [a] has strictly more priority than [b]. *)
Definition betterb (side : Side) (a b : Price) : bool :=
  match side with Buy => b <? a | Sell => a <? b end.

Record t := mk {
  bids : list entry;
  asks : list entry;
  free : list Z;
  size : Z;
}.

Definition make : t := mk [] [] [] 0.

Definition queue (side : Side) (b : t) : list entry :=
  match side with Buy => bids b | Sell => asks b end.

Definition with_queue (side : Side) (q : list entry) (b : t) : t :=
  match side with
  | Buy => mk q (asks b) (free b) (size b)
  | Sell => mk (bids b) q (free b) (size b)
  end.

Definition with_free (l : list Z) (b : t) : t := mk (bids b) (asks b) l (size b).

(** Behind every order of the same or a better price. *)
Fixpoint insert_back (side : Side) (x : entry) (q : list entry) : list entry :=
  match q with
  | [] => [x]
  | y :: q' =>
      if betterb side (entry_price x) (entry_price y) then x :: q
      else y :: insert_back side x q'
  end.

Definition next_slot (b : t) : Z := match free b with s :: _ => s | [] => size b end.

Definition take_slot (b : t) : t :=
  match free b with
  | s :: l => with_free l b
  | [] => mk (bids b) (asks b) [] (size b + 1)
  end.

(** A slot is a 32-bit number other than the sentinel, and a price has to be
    away from the ends of the signed range: outside of that the specification
    promises nothing. *)
Definition add (o : BookOrder) (b : t) : option (Z * t) :=
  let side := bo_side o in
  if bool_decide (price_safe (bo_price o)) && (next_slot b <? MatchingBook.kNil) then
    Some (next_slot b,
          with_queue side (insert_back side (next_slot b, o) (queue side b)) (take_slot b))
  else None.

Fixpoint lookup_slot (slot : Z) (q : list entry) : option BookOrder :=
  match q with
  | [] => None
  | x :: q' => if x.1 =? slot then Some x.2 else lookup_slot slot q'
  end.

Definition remove_slot (slot : Z) (q : list entry) : list entry :=
  filter (λ x, x.1 ≠ slot) q.

Definition update_slot (slot : Z) (f : BookOrder → BookOrder) (q : list entry) : list entry :=
  (λ x, if x.1 =? slot then (x.1, f x.2) else x) <$> q.

Definition at_ (slot : Z) (b : t) : option BookOrder := lookup_slot slot (bids b ++ asks b).

Definition remove_at (slot : Z) (b : t) : option (BookOrder * t) :=
  o ← at_ slot b;
  Some (o, with_free (slot :: free b)
             (with_queue (bo_side o) (remove_slot slot (queue (bo_side o) b)) b)).

Definition update_at (slot : Z) (f : BookOrder → BookOrder) (b : t) : option t :=
  o ← at_ slot b;
  Some (with_queue (bo_side o) (update_slot slot f (queue (bo_side o) b)) b).

Definition front (side : Side) (b : t) : option BookOrder := snd <$> head (queue side b).

Definition reduce_front (side : Side) (q : Quantity) (b : t) : option t :=
  match queue side b with
  | [] => None
  | (s, o) :: l => Some (with_queue side ((s, bo_with_remaining q o) :: l) b)
  end.

Definition remove_front (side : Side) (b : t) : option t :=
  match queue side b with
  | [] => None
  | (s, _) :: l => Some (with_free (s :: free b) (with_queue side l b))
  end.

(** The running total of [crossable_quantity], stopping at the first order
    that does not cross or once [quantity] is covered. *)
Fixpoint crossable (side : Side) (price : Price) (quantity total : Quantity) (q : list entry) :
    Quantity :=
  match q with
  | [] => total
  | x :: q' =>
      if betterb side price (entry_price x) then total
      else
        let total := u64 (total + bo_remaining_quantity x.2) in
        if quantity <=? total then total else crossable side price quantity total q'
  end.

End ABook.

#[export] Instance ABook_ops : BookOps ABook.t := {
  book_make := λ _, ABook.make;
  book_add := ABook.add;
  book_remove_at := ABook.remove_at;
  book_reduce_at := λ slot q, ABook.update_at slot (bo_with_remaining q);
  book_set_client_order_id_at := λ slot c, ABook.update_at slot (bo_with_client_order_id c);
  book_at := ABook.at_;
  book_front := λ side b, Some (ABook.front side b);
  book_reduce_front := ABook.reduce_front;
  book_remove_front := ABook.remove_front;
  book_all_of := λ side b, Some (ABook.queue side b).*2;
  book_crossable := λ side price q b, Some (ABook.crossable side price q 0 (ABook.queue side b));
  book_fuel := λ b, length (ABook.queue Buy b ++ ABook.queue Sell b);
}.

(** ** Refinement between books

    [R b a]: wherever the specification [a] returns, the book [b] returns the
    same result and the states stay related. *)
Definition sim_state {B A} (R : B → A → Prop) (x : option B) (y : option A) : Prop :=
  ∀ a, y = Some a → ∃ b, x = Some b ∧ R b a.

Definition sim_result {B A X} (R : B → A → Prop) (x : option (X * B)) (y : option (X * A)) : Prop :=
  ∀ r a, y = Some (r, a) → ∃ b, x = Some (r, b) ∧ R b a.

Definition sim_read {X} (x y : option X) : Prop := ∀ r, y = Some r → x = Some r.

Class BookRefines (B A : Type) `{BookOps B, BookOps A} (R : B → A → Prop) := {
  ref_make band band' : 0 ≤ band ≤ MatchingBook.kMaxBandTicks → R (book_make band) (book_make band');
  ref_add b a o : R b a → sim_result R (book_add o b) (book_add o a);
  ref_remove_at b a s : R b a → sim_result R (book_remove_at s b) (book_remove_at s a);
  ref_reduce_at b a s q : R b a → sim_state R (book_reduce_at s q b) (book_reduce_at s q a);
  ref_set_client b a s c : R b a →
    sim_state R (book_set_client_order_id_at s c b) (book_set_client_order_id_at s c a);
  ref_at b a s : R b a → sim_read (book_at s b) (book_at s a);
  ref_front b a side : R b a → sim_read (book_front side b) (book_front side a);
  ref_reduce_front b a side q : R b a →
    sim_state R (book_reduce_front side q b) (book_reduce_front side q a);
  ref_remove_front b a side : R b a →
    sim_state R (book_remove_front side b) (book_remove_front side a);
  ref_all_of b a side : R b a → sim_read (book_all_of side b) (book_all_of side a);
  ref_crossable b a side p q : R b a →
    sim_read (book_crossable side p q b) (book_crossable side p q a);
  ref_fuel b a : R b a → (book_fuel a ≤ book_fuel b)%nat;
}.
