(* ===== verification/Links.v ===== *)
(** * Doubly linked queues in the slab

    The separation-style lemmas behind [MatchingBook]: [chain] says that a list
    of slots is threaded through [next] and [prev], [free_chain] that a list of
    freed slots is threaded through [next] alone. [link_back], [unlink],
    [acquire_slot] and [release_slot] act on these lists as append, removal,
    pop and push, and leave every other slot's links and every order alone. *)

From S2P Require Import Prelude.
From S2P Require Import Types.
From S2P Require Import SideIndex.
From S2P Require Import MatchingBook.

Module Links.
Import MatchingBook.

Definition links_at (slab : list SlabOrder) (s : Z) : option (Z * Z) :=
  (λ e, (so_prev e, so_next e)) <$> vget slab s.

Definition order_at (slab : list SlabOrder) (s : Z) : option BookOrder :=
  so_order <$> vget slab s.

Definition hd_or (d : Z) (l : list Z) : Z := match l with [] => d | x :: _ => x end.

Fixpoint last_or (d : Z) (l : list Z) : Z :=
  match l with [] => d | x :: l => last_or x l end.

Fixpoint chain (slab : list SlabOrder) (prev : Z) (l : list Z) (next : Z) : Prop :=
  match l with
  | [] => True
  | s :: l' => links_at slab s = Some (prev, hd_or next l') ∧ chain slab s l' next
  end.

Fixpoint free_chain (slab : list SlabOrder) (hd : Z) (l : list Z) : Prop :=
  match l with
  | [] => hd = kNil
  | s :: l' => hd = s ∧ ∃ pv nx, links_at slab s = Some (pv, nx) ∧ free_chain slab nx l'
  end.

(** The level that a queue of slots makes. *)
Definition level_of (l : list Z) : SideIndex.LevelSlot :=
  SideIndex.mkLevel (hd_or kNil l) (last_or kNil l).

(** [slab'] has the links of [slab] except inside [l], and all of its orders. *)
Definition relinked (slab slab' : list SlabOrder) (l : list Z) : Prop :=
  (∀ k, k ∉ l → links_at slab' k = links_at slab k) ∧
  (∀ k, order_at slab' k = order_at slab k) ∧ vsize slab' = vsize slab.

Lemma hd_or_app d l1 l2 : hd_or d (l1 ++ l2) = hd_or (hd_or d l2) l1.
Proof. by destruct l1. Qed.

Lemma last_or_app d l1 l2 : last_or d (l1 ++ l2) = last_or (last_or d l1) l2.
Proof. revert d. induction l1 as [|x l1 IH]; intros d; [done|apply IH]. Qed.

Lemma last_or_in d l : l ≠ [] → last_or d l ∈ l.
Proof.
  revert d. induction l as [|x [|y l] IH]; intros d Hl; [done|by left|].
  right. by apply (IH x).
Qed.

Lemma hd_or_in d l : l ≠ [] → hd_or d l ∈ l.
Proof. destruct l; [done|by left]. Qed.

Lemma chain_app slab prev l1 l2 next :
  chain slab prev (l1 ++ l2) next ↔
  chain slab prev l1 (hd_or next l2) ∧ chain slab (last_or prev l1) l2 next.
Proof.
  revert prev. induction l1 as [|s l1 IH]; intros prev; simpl; [tauto|].
  rewrite hd_or_app, IH. tauto.
Qed.

Lemma chain_frame slab slab' prev l next :
  (∀ k, k ∈ l → links_at slab' k = links_at slab k) →
  chain slab prev l next → chain slab' prev l next.
Proof.
  revert prev. induction l as [|s l IH]; intros prev H; simpl; [done|].
  intros [Hs Hl]. rewrite H by by left. split; [done|]. apply IH; [|done].
  intros k Hk. apply H. by right.
Qed.

Lemma free_chain_frame slab slab' hd l :
  (∀ k, k ∈ l → links_at slab' k = links_at slab k) →
  free_chain slab hd l → free_chain slab' hd l.
Proof.
  revert hd. induction l as [|s l IH]; intros hd H; simpl; [done|].
  intros (-> & pv & nx & Hs & Hl). split; [done|]. exists pv, nx.
  rewrite H by by left. split; [done|]. apply IH; [|done]. intros k Hk. apply H. by right.
Qed.

(** ** One slot written *)

Lemma update_slot_spec slab s e f : vget slab s = Some e →
  ∃ slab', update_slot s f slab = Some slab' ∧ vsize slab' = vsize slab ∧
    ∀ j, vget slab' j = if decide (j = s) then Some (f e) else vget slab j.
Proof.
  intros Hs. pose proof (vget_lt _ _ _ Hs). exists (vput slab s (f e)).
  unfold update_slot. rewrite Hs. simpl. rewrite vset_Some by done.
  split_and!; [done|apply vsize_vput|]. intros j. by apply vget_vput.
Qed.

Lemma links_at_vget slab s pv nx : links_at slab s = Some (pv, nx) →
  ∃ e, vget slab s = Some e ∧ so_prev e = pv ∧ so_next e = nx.
Proof. intros (e & ? & [= -> ->])%fmap_Some. by exists e. Qed.

Lemma write_links slab s pv nx f : links_at slab s = Some (pv, nx) →
  (∀ e, so_order (f e) = so_order e) →
  ∃ slab', update_slot s f slab = Some slab' ∧ vsize slab' = vsize slab ∧
    (∀ k, order_at slab' k = order_at slab k) ∧
    ∃ e, vget slab s = Some e ∧ so_prev e = pv ∧ so_next e = nx ∧
    (∀ k, links_at slab' k = if decide (k = s) then Some (so_prev (f e), so_next (f e))
                             else links_at slab k).
Proof.
  intros (e & He & Hpv & Hnx)%links_at_vget Hf.
  destruct (update_slot_spec slab s e f He) as (slab' & Hu & Hsz & Hget).
  exists slab'. split_and!; try done.
  - intros k. unfold order_at. rewrite Hget. case_decide; [subst|done].
    rewrite He. simpl. by rewrite Hf.
  - exists e. split_and!; try done. intros k. unfold links_at. rewrite Hget. by case_decide.
Qed.

Lemma write_next slab s pv nx n : links_at slab s = Some (pv, nx) →
  ∃ slab', update_slot s (set_next n) slab = Some slab' ∧ vsize slab' = vsize slab ∧
    (∀ k, order_at slab' k = order_at slab k) ∧
    (∀ k, links_at slab' k = if decide (k = s) then Some (pv, n) else links_at slab k).
Proof.
  intros Hs. destruct (write_links slab s pv nx (set_next n) Hs) as (slab' & ? & ? & ? & e & ? & <- & _ & ?);
    [done|eauto].
Qed.

Lemma write_prev slab s pv nx p : links_at slab s = Some (pv, nx) →
  ∃ slab', update_slot s (set_prev p) slab = Some slab' ∧ vsize slab' = vsize slab ∧
    (∀ k, order_at slab' k = order_at slab k) ∧
    (∀ k, links_at slab' k = if decide (k = s) then Some (p, nx) else links_at slab k).
Proof.
  intros Hs. destruct (write_links slab s pv nx (set_prev p) Hs) as (slab' & ? & ? & ? & e & ? & _ & <- & ?);
    [done|eauto].
Qed.

(** ** Appending to a queue *)

(** The last link of a chain can be redirected. *)
Lemma chain_set_last slab prev l t next :
  chain slab prev (l ++ [t]) next → links_at slab t = Some (last_or prev l, next).
Proof. rewrite chain_app. simpl. tauto. Qed.

Lemma snoc_cases (l : list Z) : l = [] ∨ ∃ l0 t, l = l0 ++ [t].
Proof. induction l using rev_ind; eauto. Qed.

Lemma link_back_spec slab l s pv nx :
  chain slab kNil l kNil → links_at slab s = Some (pv, nx) → NoDup (l ++ [s]) → kNil ∉ l →
  ∃ slab', link_back (level_of l) s slab = Some (level_of (l ++ [s]), slab') ∧
    chain slab' kNil (l ++ [s]) kNil ∧ relinked slab slab' (l ++ [s]).
Proof.
  intros Hc Hs Hnd Hnil. unfold link_back. simpl.
  destruct (write_next slab s pv nx kNil Hs) as (sl1 & -> & Hz1 & Ho1 & Hl1). simpl.
  destruct (write_prev sl1 s pv kNil (last_or kNil l)) as (sl2 & -> & Hz2 & Ho2 & Hl2).
  { by rewrite Hl1, decide_True. }
  simpl. assert (∀ k, links_at sl2 k = if decide (k = s) then Some (last_or kNil l, kNil)
    else links_at slab k) as Hl.
  { intros k. rewrite Hl2, Hl1. by case_decide. }
  unfold level_of. rewrite last_or_app. simpl.
  destruct (snoc_cases l) as [->|(l0 & t & ->)].
  - exists sl2. split; [done|]. split; [simpl; by rewrite Hl, decide_True|].
    split_and!; [|congruence|congruence]. intros k Hk. rewrite Hl, decide_False; [done|set_solver].
  - assert (t ≠ kNil ∧ t ≠ s ∧ s ∉ l0 ∧ t ∉ l0) as (Htn & Hts & Hsl & Htl).
    { apply NoDup_app in Hnd as ([_ [Ht _]]%NoDup_app & Hd & _). set_solver. }
    rewrite !last_or_app, hd_or_app in *. simpl in *.
    rewrite (proj2 (Z.eqb_neq _ _) Htn).
    destruct (write_next sl2 t (last_or kNil l0) kNil s) as (sl3 & -> & Hz3 & Ho3 & Hl3).
    { rewrite Hl, decide_False by done. by apply chain_set_last in Hc. }
    simpl. exists sl3. split; [by rewrite !hd_or_app|]. split; [|split_and!].
    + apply chain_app in Hc as [Hc _]. rewrite <-app_assoc. apply chain_app. split.
      * apply (chain_frame slab); [|done]. intros k Hk.
        rewrite Hl3, Hl, !decide_False; [done|set_solver..].
      * simpl. rewrite !Hl3, !Hl, decide_True by done.
        rewrite (decide_False (P := s = t)), decide_True by done. done.
    + intros k Hk. rewrite Hl3, Hl, !decide_False; [done|set_solver..].
    + congruence.
    + congruence.
Qed.

(** ** Taking a slot out of a queue *)

Lemma eqb_nil_last l : kNil ∉ l → (last_or kNil l =? kNil) = bool_decide (l = []).
Proof.
  intros Hn. destruct l as [|x l]; [done|]. rewrite bool_decide_false by done.
  apply Z.eqb_neq. intros E. apply Hn. rewrite <-E. by apply last_or_in.
Qed.

Lemma eqb_nil_hd l : kNil ∉ l → (hd_or kNil l =? kNil) = bool_decide (l = []).
Proof.
  intros Hn. destruct l as [|x l]; [done|]. rewrite bool_decide_false by done.
  apply Z.eqb_neq. intros E. simpl in E. subst. set_solver.
Qed.

(** The first half of [unlink]: the previous slot, or the level's head. *)
Lemma unlink_prev slab l1 s l2 :
  chain slab kNil (l1 ++ s :: l2) kNil → NoDup (l1 ++ s :: l2) → kNil ∉ l1 ++ s :: l2 →
  ∃ slab', (if last_or kNil l1 =? kNil
            then Some (SideIndex.mkLevel (hd_or kNil l2) (last_or kNil (l1 ++ s :: l2)), slab)
            else slab ← update_slot (last_or kNil l1) (set_next (hd_or kNil l2)) slab;
                 Some (level_of (l1 ++ s :: l2), slab)) =
      Some (SideIndex.mkLevel (hd_or kNil (l1 ++ l2)) (last_or kNil (l1 ++ s :: l2)), slab') ∧
    chain slab' kNil l1 (hd_or kNil l2) ∧ relinked slab slab' l1.
Proof.
  intros Hc Hnd Hn. rewrite eqb_nil_last by set_solver.
  destruct (snoc_cases l1) as [->|(l0 & t & ->)].
  - exists slab. by split_and!.
  - rewrite bool_decide_false by (by destruct l0).
    rewrite <-app_assoc in Hc. simpl in Hc. apply chain_app in Hc as [Hc0 [Ht _]]. simpl in *.
    rewrite last_or_app. simpl.
    destruct (write_next slab t _ _ (hd_or kNil l2) Ht) as (sl & -> & Hz & Ho & Hl). simpl.
    exists sl. split; [by rewrite <-!app_assoc; unfold level_of; rewrite !hd_or_app|].
    assert (t ∉ l0) as Htl.
    { apply NoDup_app in Hnd as ([_ [Hd _]]%NoDup_app & _). set_solver. }
    split; [|split_and!; [|done|done]].
    + apply chain_app. split.
      * apply (chain_frame slab); [|done]. intros k Hk. rewrite Hl, decide_False; set_solver.
      * simpl. by rewrite Hl, decide_True.
    + intros k Hk. rewrite Hl, decide_False; set_solver.
Qed.

(** The second half: the next slot, or the level's tail. *)
Lemma unlink_next slab l1 s l2 h :
  chain slab s l2 kNil → NoDup (l1 ++ s :: l2) → kNil ∉ l1 ++ s :: l2 →
  ∃ slab', (if hd_or kNil l2 =? kNil
            then Some (SideIndex.mkLevel h (last_or kNil l1), slab)
            else slab ← update_slot (hd_or kNil l2) (set_prev (last_or kNil l1)) slab;
                 Some (SideIndex.mkLevel h (last_or kNil (l1 ++ s :: l2)), slab)) =
      Some (SideIndex.mkLevel h (last_or kNil (l1 ++ l2)), slab') ∧
    chain slab' (last_or kNil l1) l2 kNil ∧ relinked slab slab' l2.
Proof.
  intros Hc Hnd Hn. rewrite eqb_nil_hd by set_solver. destruct l2 as [|x l2]; simpl.
  - exists slab. rewrite app_nil_r. by split_and!.
  - destruct Hc as [Hx Hc]. destruct (write_prev slab x _ _ (last_or kNil l1) Hx) as (sl & -> & Hz & Ho & Hl).
    simpl. exists sl. split; [by rewrite !last_or_app|].
    assert (x ∉ l2) as Hxl.
    { apply NoDup_app in Hnd as (_ & _ & [_ [? _]%NoDup_cons]%NoDup_cons). done. }
    split; [split; [by rewrite Hl, decide_True|]|split_and!; [|done|done]].
    + apply (chain_frame slab); [|done]. intros k Hk. rewrite Hl, decide_False; set_solver.
    + intros k Hk. rewrite Hl, decide_False; set_solver.
Qed.

Lemma relinked_trans sl1 sl2 sl3 l1 l2 l3 :
  relinked sl1 sl2 l1 → relinked sl2 sl3 l2 → l1 ⊆ l3 → l2 ⊆ l3 → relinked sl1 sl3 l3.
Proof.
  intros (H1 & H2 & H3) (H4 & H5 & H6) Hs1 Hs2. split_and!; [|congruence..].
  intros k Hk. rewrite H4, H1; [done|set_solver..].
Qed.

Lemma unlink_spec slab l1 s l2 :
  chain slab kNil (l1 ++ s :: l2) kNil → NoDup (l1 ++ s :: l2) → kNil ∉ l1 ++ s :: l2 →
  ∃ slab', unlink (level_of (l1 ++ s :: l2)) s slab = Some (level_of (l1 ++ l2), slab') ∧
    chain slab' kNil (l1 ++ l2) kNil ∧ relinked slab slab' (l1 ++ l2).
Proof.
  intros Hc Hnd Hn. unfold unlink.
  pose proof Hc as [_ [Hs Hc2]]%chain_app. simpl in Hs.
  destruct (links_at_vget _ _ _ _ Hs) as (e & He & Hp & Hx). rewrite He. simpl. rewrite Hp, Hx.
  destruct (unlink_prev slab l1 s l2 Hc Hnd Hn) as (sl1 & Hu1 & Hc1 & Hr1).
  simpl in Hu1. rewrite Hu1. simpl. clear Hu1.
  assert (∀ k, k ∈ l2 → k ∉ l1) as Hdis.
  { intros k Hk Hk1. apply NoDup_app in Hnd as (_ & Hd & _). by apply (Hd k Hk1), list_elem_of_further. }
  destruct (unlink_next sl1 l1 s l2 (hd_or kNil (l1 ++ l2))) as (sl2 & Hu2 & Hc3 & Hr2); [|done..|].
  { apply (chain_frame slab); [|done]. intros k Hk. apply Hr1. by apply Hdis. }
  rewrite Hu2. exists sl2. split; [done|]. split.
  - apply chain_app. split; [|done]. apply (chain_frame sl1); [|done].
    intros k Hk. apply Hr2. intros Hk2. by apply (Hdis k).
  - eapply relinked_trans; [exact Hr1|exact Hr2|set_solver..].
Qed.

(** ** The free list *)

Lemma vget_app_same (l1 l2 : list SlabOrder) i : 0 ≤ i < vsize l1 → vget (l1 ++ l2) i = vget l1 i.
Proof. intros [_ ?]. by apply vget_app_l. Qed.

Lemma acquire_reuse b o s l : free_chain (slab_ b) (free_head_ b) (s :: l) → s ≠ kNil →
  ∃ slab, acquire_slot o b = Some (s, mk slab (so_next (default (mkSlabOrder o 0 0) (vget (slab_ b) s))) (bids_ b) (asks_ b)) ∧
    free_chain slab (so_next (default (mkSlabOrder o 0 0) (vget (slab_ b) s))) l ∧
    (∀ k, links_at slab k = links_at (slab_ b) k) ∧
    (∀ k, order_at slab k = if decide (k = s) then Some o else order_at (slab_ b) k) ∧
    vsize slab = vsize (slab_ b).
Proof.
  intros (Hh & pv & nx & Hs & Hl) Hn. unfold acquire_slot.
  rewrite Hh, (proj2 (Z.eqb_neq _ _) Hn). simpl.
  destruct (links_at_vget _ _ _ _ Hs) as (e & He & <- & <-). rewrite He. simpl.
  destruct (update_slot_spec _ s e (set_order o) He) as (sl & -> & Hz & Hg). simpl.
  assert (∀ k, links_at sl k = links_at (slab_ b) k) as Hlk.
  { intros k. unfold links_at. rewrite Hg. case_decide; [subst; by rewrite He|done]. }
  exists sl. split_and!; try done.
  - apply (free_chain_frame (slab_ b)); [|done]. intros; apply Hlk.
  - intros k. unfold order_at. rewrite Hg. by case_decide.
Qed.

Lemma acquire_grow b o : free_head_ b = kNil → vsize (slab_ b) < kNil →
  acquire_slot o b = Some (vsize (slab_ b), with_slab (slab_ b ++ [mkSlabOrder o kNil kNil]) b).
Proof.
  intros Hh Hz. unfold acquire_slot. rewrite Hh, Z.eqb_refl. simpl.
  rewrite vsize_snoc, u32_small; [do 2 f_equal; lia|].
  pose proof (vsize_nonneg (slab_ b)). unfold in_u32, kNil, SideIndex.kNil in *. lia.
Qed.

Lemma release_spec b s l e : free_chain (slab_ b) (free_head_ b) l → vget (slab_ b) s = Some e → s ∉ l →
  ∃ slab, release_slot s b = Some (mk slab s (bids_ b) (asks_ b)) ∧
    free_chain slab s (s :: l) ∧ relinked (slab_ b) slab [s].
Proof.
  intros Hf He Hs. unfold release_slot.
  destruct (update_slot_spec _ s e (set_next (free_head_ b)) He) as (sl & -> & Hz & Hg). simpl.
  assert (∀ k, k ≠ s → links_at sl k = links_at (slab_ b) k) as Hlk.
  { intros k ?. unfold links_at. by rewrite Hg, decide_False. }
  exists sl. split; [done|]. split; [|split_and!; try done].
  - split; [done|]. exists (so_prev e), (free_head_ b). split.
    + unfold links_at. by rewrite Hg, decide_True.
    + apply (free_chain_frame (slab_ b)); [|done]. intros k Hk. apply Hlk. by intros ->.
  - intros k Hk. apply Hlk. set_solver.
  - intros k. unfold order_at. rewrite Hg. case_decide; [subst; by rewrite He|done].
Qed.

End Links.
