(* ===== verification/BookQueue.v ===== *)
(** * Price-time queues

    The list lemmas behind the specification book [ABook]: a queue is sorted by
    price priority, [insert_back] keeps it so and appends to its own price level,
    removal and in-place update act level by level, and the levels of a sorted
    queue are its consecutive runs. *)

From stdpp Require Import sorting.
From S2P Require Import Prelude.
From S2P Require Import Types.
From S2P Require Import SideIndex.
From S2P Require Import PriceIndex.
From S2P Require Import BookSpec.

Module BookQueue.
Import SideIndex PriceIndex ABook.

Lemma betterb_spec side a b : betterb side a b = true ↔ better side a b.
Proof. unfold betterb, better. destruct side; lia. Qed.

Lemma betterb_false side a b : betterb side a b = false ↔ sdir side b a.
Proof. unfold betterb, sdir. destruct side; lia. Qed.

Definition sorted (side : Side) (q : list entry) : Prop :=
  StronglySorted (λ x y, sdir side (entry_price x) (entry_price y)) q.

(** One price level of a queue. *)
Definition at_price (p : Price) (q : list entry) : list entry :=
  filter (λ x, entry_price x = p) q.

Lemma at_price_in p q x : x ∈ at_price p q ↔ entry_price x = p ∧ x ∈ q.
Proof. unfold at_price. by rewrite list_elem_of_filter. Qed.

Lemma at_price_cons p x q :
  at_price p (x :: q) = if decide (entry_price x = p) then x :: at_price p q else at_price p q.
Proof. unfold at_price. by rewrite filter_cons. Qed.

Lemma at_price_none p q : (∀ x, x ∈ q → entry_price x ≠ p) → at_price p q = [].
Proof. apply filter_none. Qed.

Lemma sorted_cons_inv side x q : sorted side (x :: q) →
  sorted side q ∧ ∀ y, y ∈ q → sdir side (entry_price x) (entry_price y).
Proof. intros [? H]%StronglySorted_inv. split; [done|]. by rewrite Forall_forall in H. Qed.

Lemma sorted_cons side x q : sorted side q →
  (∀ y, y ∈ q → sdir side (entry_price x) (entry_price y)) → sorted side (x :: q).
Proof. intros. constructor; [done|]. by apply Forall_forall. Qed.

Lemma sorted_app_inv side q1 q2 : sorted side (q1 ++ q2) →
  sorted side q2 ∧ ∀ x y, x ∈ q1 → y ∈ q2 → sdir side (entry_price x) (entry_price y).
Proof.
  induction q1 as [|x q1 IH]; simpl.
  { intros ?. split; [done|]. by intros x y ?%not_elem_of_nil. }
  intros [[? H]%IH Hx]%sorted_cons_inv. split; [done|].
  intros y z [->|Hy]%elem_of_cons Hz; [|by apply H]. apply Hx, elem_of_app. by right.
Qed.

(** ** Insertion *)

Lemma insert_back_perm side x q : insert_back side x q ≡ₚ x :: q.
Proof.
  induction q as [|y q IH]; simpl; [done|]. case_bool; [done|]. rewrite IH. constructor.
Qed.

Lemma insert_back_in side x q y : y ∈ insert_back side x q ↔ y = x ∨ y ∈ q.
Proof. rewrite insert_back_perm. apply elem_of_cons. Qed.

Lemma insert_back_sorted side x q : sorted side q → sorted side (insert_back side x q).
Proof.
  induction q as [|y q IH]; simpl.
  { intros _. apply sorted_cons; [constructor|]. by intros ? ?%not_elem_of_nil. }
  intros [Hq Hy]%sorted_cons_inv. destruct (betterb _ _ _) eqn:E.
  - apply betterb_spec, better_sdir in E. apply sorted_cons; [by apply sorted_cons|].
    intros z [->|Hz]%elem_of_cons; [done|]. eapply sdir_trans; [done|by apply Hy].
  - apply betterb_false in E. apply sorted_cons; [by apply IH|].
    intros z [->|Hz]%insert_back_in; [done|by apply Hy].
Qed.

Lemma insert_back_at_price side x q p : sorted side q →
  at_price p (insert_back side x q) =
    at_price p q ++ (if decide (entry_price x = p) then [x] else []).
Proof.
  induction q as [|y q IH]; simpl.
  { intros _. rewrite at_price_cons. by case_decide. }
  intros Hs. pose proof Hs as [Hq Hy]%sorted_cons_inv. destruct (betterb _ _ _) eqn:E.
  - rewrite at_price_cons. apply betterb_spec in E. case_decide as Hd; [|by rewrite app_nil_r].
    rewrite (at_price_none p (y :: q)); [done|].
    intros z Hz Hzp. apply (better_irrefl side p).
    assert (sdir side (entry_price y) (entry_price z)) as Hs'
      by (apply elem_of_cons in Hz as [->|Hz]; [apply sdir_refl|by apply Hy]).
    subst p. rewrite Hzp in *. unfold better, sdir in *. destruct side; lia.
  - rewrite !at_price_cons, IH by done. by repeat case_decide.
Qed.

(** ** Removal and update *)

Lemma remove_slot_in s q x : x ∈ remove_slot s q ↔ x.1 ≠ s ∧ x ∈ q.
Proof. unfold remove_slot. by rewrite list_elem_of_filter. Qed.

Lemma remove_slot_cons s x q :
  remove_slot s (x :: q) = if decide (x.1 = s) then remove_slot s q else x :: remove_slot s q.
Proof. unfold remove_slot. rewrite filter_cons. repeat case_decide; naive_solver. Qed.

Lemma remove_slot_notin s q : s ∉ q.*1 → remove_slot s q = q.
Proof.
  intros Hs. apply filter_all. intros x Hx <-. apply Hs, list_elem_of_fmap. by exists x.
Qed.

Lemma remove_slot_sorted side s q : sorted side q → sorted side (remove_slot s q).
Proof.
  induction q as [|x q IH]; [done|]. intros [Hq Hx]%sorted_cons_inv.
  rewrite remove_slot_cons. case_decide; [by apply IH|]. apply sorted_cons; [by apply IH|].
  intros y [_ Hy]%remove_slot_in. by apply Hx.
Qed.

Lemma remove_slot_at_price s q p : at_price p (remove_slot s q) = remove_slot s (at_price p q).
Proof.
  induction q as [|x q IH]; [done|]. rewrite remove_slot_cons, at_price_cons.
  repeat case_decide; rewrite ?at_price_cons, ?remove_slot_cons, ?IH;
    repeat case_decide; done || congruence.
Qed.

Lemma remove_slot_split q1 x q2 : NoDup (q1 ++ x :: q2).*1 →
  remove_slot x.1 (q1 ++ x :: q2) = q1 ++ q2.
Proof.
  rewrite fmap_app, fmap_cons. intros (_ & Hd & [? _]%NoDup_cons)%NoDup_app.
  unfold remove_slot. rewrite filter_app, filter_cons, decide_False by tauto.
  change (remove_slot x.1 q1 ++ remove_slot x.1 q2 = q1 ++ q2).
  rewrite !remove_slot_notin; [done|done|]. intros Hx. apply (Hd _ Hx). by left.
Qed.

Lemma remove_slot_perm s q : NoDup q.*1 → s ∈ q.*1 → s :: (remove_slot s q).*1 ≡ₚ q.*1.
Proof.
  intros Hnd (x & -> & (q1 & q2 & ->)%list_elem_of_split)%list_elem_of_fmap.
  rewrite remove_slot_split by done. rewrite !fmap_app, fmap_cons. solve_Permutation.
Qed.

Lemma update_slot_slots s f q : (update_slot s f q).*1 = q.*1.
Proof.
  unfold update_slot. rewrite <-list_fmap_compose. apply list_fmap_ext.
  intros ? [? ?] _. simpl. by case_bool.
Qed.

Section update.
Context (f : BookOrder → BookOrder) (Hf : ∀ o, bo_price (f o) = bo_price o).

Lemma update_slot_in s q y : y ∈ update_slot s f q →
  ∃ x, x ∈ q ∧ y.1 = x.1 ∧ y.2 = (if x.1 =? s then f x.2 else x.2) ∧ entry_price y = entry_price x.
Proof.
  intros (x & -> & Hx)%list_elem_of_fmap. exists x. split; [done|].
  unfold entry_price. case_bool; simpl; by rewrite ?Hf.
Qed.

Lemma update_slot_sorted side s q : sorted side q → sorted side (update_slot s f q).
Proof.
  induction q as [|x q IH]; [done|]. intros [Hq Hx]%sorted_cons_inv.
  apply sorted_cons; [by apply IH|]. intros y (z & Hz & _ & _ & ->)%update_slot_in.
  unfold entry_price at 1. case_bool; simpl; rewrite ?Hf; by apply Hx.
Qed.

Lemma update_slot_at_price s q p :
  (at_price p (update_slot s f q)).*1 = (at_price p q).*1.
Proof.
  induction q as [|x q IH]; [done|]. unfold update_slot. rewrite fmap_cons, !at_price_cons.
  fold (update_slot s f q).
  assert (entry_price (if x.1 =? s then (x.1, f x.2) else x) = entry_price x) as ->.
  { unfold entry_price. case_bool; simpl; by rewrite ?Hf. }
  case_decide; [|done]. rewrite !fmap_cons, IH. by case_bool.
Qed.
End update.

Lemma lookup_slot_Some s q o : lookup_slot s q = Some o → (s, o) ∈ q.
Proof.
  induction q as [|[s' o'] q IH]; simpl; [done|]. destruct (Z.eqb_spec s' s) as [->|].
  - intros [= ->]. by left.
  - intros ?. right. by apply IH.
Qed.

Lemma lookup_slot_in s q o : NoDup q.*1 → (s, o) ∈ q → lookup_slot s q = Some o.
Proof.
  induction q as [|[s' o'] q IH]; simpl; [by intros _ ?%not_elem_of_nil|].
  intros [Hn Hd]%NoDup_cons [[= <- <-]|Hin]%elem_of_cons; [by rewrite Z.eqb_refl|].
  destruct (Z.eqb_spec s' s) as [->|]; [|by apply IH].
  destruct Hn. apply list_elem_of_fmap. by exists (s, o).
Qed.

(** ** The first level *)

Lemma sorted_first_level side x q : sorted side (x :: q) →
  x :: q = at_price (entry_price x) (x :: q) ++
           filter (λ y, entry_price y ≠ entry_price x) (x :: q).
Proof.
  intros Hs. pose proof (sorted_cons_inv _ _ _ Hs) as [Hq Hx].
  rewrite at_price_cons, decide_True, filter_cons, decide_False by (done || tauto).
  simpl. f_equal. clear Hs. induction q as [|y q IH]; [done|].
  pose proof (sorted_cons_inv _ _ _ Hq) as [Hq' Hy].
  rewrite at_price_cons, filter_cons. destruct (decide (entry_price y = entry_price x)) as [E|E].
  - rewrite decide_False by tauto. simpl. f_equal. apply IH; [done|].
    intros z Hz. apply Hx. by right.
  - rewrite decide_True by done. rewrite at_price_none; simpl.
    + f_equal. symmetry. apply filter_all. intros z Hz Hzx.
      apply E. apply (sdir_antisym side); [|apply Hx; by left]. rewrite <-Hzx. by apply Hy.
    + intros z Hz Hzx. apply E. apply (sdir_antisym side); [|apply Hx; by left].
      rewrite <-Hzx. by apply Hy.
Qed.

(** The head of a sorted queue holds the best price. *)
Lemma sorted_head_best side x q : sorted side (x :: q) →
  best_such side (λ p, ∃ y, y ∈ x :: q ∧ entry_price y = p) (entry_price x).
Proof.
  intros [_ H]%sorted_cons_inv. split; [exists x; split; [by left|done]|].
  intros p (y & [->|Hy]%elem_of_cons & <-); [apply sdir_refl|by apply H].
Qed.

(** The next level starts at the first entry of a worse price. *)
Lemma sorted_next_best side q1 x q2 p : sorted side (q1 ++ x :: q2) →
  (∀ y, y ∈ q1 → sdir side (entry_price y) p) → better side p (entry_price x) →
  best_such side (λ r, (∃ y, y ∈ q1 ++ x :: q2 ∧ entry_price y = r) ∧ better side p r) (entry_price x).
Proof.
  intros Hs H1 Hb. split.
  - split; [|done]. exists x. split; [apply elem_of_app; right; by left|done].
  - intros r [(y & [Hy|[->|Hy]%elem_of_cons]%elem_of_app & <-) Hr].
    + apply H1 in Hy. unfold sdir, better in *. destruct side; lia.
    + apply sdir_refl.
    + apply sorted_app_inv in Hs as [[_ Hx]%sorted_cons_inv _]. by apply Hx.
Qed.

(** ** The two sides of a book *)

Lemma queue_with_queue sd q a : queue sd (with_queue sd q a) = q.
Proof. by destruct sd. Qed.

Lemma queue_with_contra sd q a : queue (contra sd) (with_queue sd q a) = queue (contra sd) a.
Proof. by destruct sd. Qed.

Lemma contra_contra sd : contra (contra sd) = sd.
Proof. by destruct sd. Qed.

Lemma side_cases (sd : Side) (P : Side → Prop) : P sd → P (contra sd) → ∀ s, P s.
Proof. intros ? ? []; by destruct sd. Qed.

End BookQueue.
