(* ===== verification/BookRefinement.v ===== *)
(** * The order book implements its specification

    [MatchingBook] refines [ABook]: wherever the specification book returns,
    the slab, the linked queues, the tick ladder, its bitmap and the overflow map
    return the same result and stay in the representation relation [Rep]. In
    particular no operation ever runs into undefined behaviour, no slot leaks,
    and the width of the ladder's band never shows. *)

From S2P Require Import Prelude.
From S2P Require Import Types.
From S2P Require Import SideIndex.
From S2P Require Import PriceIndex.
From S2P Require Import MatchingBook.
From S2P Require Import BookSpec.
From S2P Require Import Links.
From S2P Require Import BookQueue.

Module BookRefinement.
Import SideIndex PriceIndex MatchingBook Links BookQueue.
Import ABook (queue, with_queue, free, size, bids, asks, entry_price, next_slot, take_slot).

Abbreviation entry := ABook.entry.

(** ** The representation relation *)

Definition slots_at (p : Price) (q : list entry) : list Z := (at_price p q).*1.

Definition level_view (l : list Z) : option LevelSlot :=
  match l with [] => None | _ => Some (level_of l) end.

Record side_rep (slab : list SlabOrder) (idx : SideIndex.t) (side : Side) (q : list entry) : Prop := {
  sr_wf : wf idx;
  sr_side : side_ idx = side;
  sr_sorted : sorted side q;
  sr_view : ∀ p, view idx p = level_view (slots_at p q);
  sr_chain : ∀ p, chain slab kNil (slots_at p q) kNil;
  sr_order : ∀ x, x ∈ q → order_at slab x.1 = Some x.2;
  sr_typed : ∀ x, x ∈ q → bo_side x.2 = side ∧ price_safe (entry_price x);
}.

Record Rep (b : MatchingBook.t) (a : ABook.t) : Prop := {
  rp_side : ∀ sd, side_rep (slab_ b) (side_of sd b) sd (queue sd a);
  rp_free : free_chain (slab_ b) (free_head_ b) (free a);
  rp_size : vsize (slab_ b) = size a;
  rp_bound : size a ≤ kNil;
  rp_slots : (bids a).*1 ++ (asks a).*1 ++ free a ≡ₚ seqZ 0 (size a);
}.

(** The slots of one side, the other side and the free list, apart. *)
Lemma rep_slots b a sd : Rep b a →
  (queue sd a).*1 ++ (queue (contra sd) a).*1 ++ free a ≡ₚ seqZ 0 (size a).
Proof. intros HR. rewrite <-(rp_slots _ _ HR). destruct sd; simpl; solve_Permutation. Qed.

Lemma perm_slots_nodup (l1 l2 l3 : list Z) n : l1 ++ l2 ++ l3 ≡ₚ seqZ 0 n →
  NoDup l1 ∧ NoDup l2 ∧ NoDup l3 ∧ (∀ s, s ∈ l1 → s ∉ l2 ∧ s ∉ l3) ∧ (∀ s, s ∈ l2 → s ∉ l3) ∧
  ∀ s, s ∈ l1 ∨ s ∈ l2 ∨ s ∈ l3 → 0 ≤ s < n.
Proof.
  intros Hp. assert (NoDup (l1 ++ l2 ++ l3)) as Hd by (rewrite Hp; apply NoDup_seqZ).
  apply NoDup_app in Hd as (? & H1 & [? [H2 ?]]%NoDup_app).
  split_and!; try done.
  - intros s Hs. specialize (H1 s Hs). set_solver.
  - intros s Hs. assert (s ∈ l1 ++ l2 ++ l3) as Hi by (rewrite !elem_of_app; tauto).
    rewrite Hp, elem_of_seqZ in Hi. lia.
Qed.

Lemma slots_at_in p q s : s ∈ slots_at p q → s ∈ q.*1.
Proof.
  unfold slots_at. rewrite !list_elem_of_fmap. intros (x & -> & [_ Hx]%at_price_in). by exists x.
Qed.

Lemma slots_at_nodup p q : NoDup q.*1 → NoDup (slots_at p q).
Proof.
  unfold slots_at. induction q as [|x q IH]; [done|]. rewrite fmap_cons, at_price_cons.
  intros [Hx Hd]%NoDup_cons. case_decide; [|by apply IH]. rewrite fmap_cons.
  apply NoDup_cons. split; [|by apply IH]. contradict Hx. by apply slots_at_in in Hx.
Qed.

(** What a side keeps when the slab changes elsewhere. *)
Lemma side_rep_frame slab slab' idx side q :
  (∀ s, s ∈ q.*1 → links_at slab' s = links_at slab s ∧ order_at slab' s = order_at slab s) →
  side_rep slab idx side q → side_rep slab' idx side q.
Proof.
  intros H []. split; try done.
  - intros p. apply (chain_frame slab); [|done]. intros k Hk%slots_at_in. by apply H.
  - intros x Hx. destruct (H x.1) as [_ ->]; [|by auto]. apply list_elem_of_fmap. by exists x.
Qed.

Lemma slots_bound b a sd s : Rep b a → s ∈ (queue sd a).*1 → 0 ≤ s < size a ∧ s ≠ kNil.
Proof.
  intros HR Hs. pose proof (rep_slots b a sd HR) as (_ & _ & _ & _ & _ & Hb)%perm_slots_nodup.
  pose proof (rp_bound _ _ HR). specialize (Hb s (or_introl Hs)). lia.
Qed.

Lemma nil_notin_slots b a sd p : Rep b a → kNil ∉ slots_at p (queue sd a).
Proof. intros HR Hk%slots_at_in. by destruct (slots_bound b a sd kNil HR Hk). Qed.

Lemma queue_nodup b a sd : Rep b a → NoDup (queue sd a).*1.
Proof. intros HR. by pose proof (rep_slots b a sd HR) as (? & _)%perm_slots_nodup. Qed.

(** ** Construction *)

Lemma make_rep band : 0 ≤ band ≤ kMaxBandTicks → Rep (MatchingBook.make band) ABook.make.
Proof.
  intros Hb. unfold kMaxBandTicks in Hb. split; try done.
  intros sd. assert (side_of sd (make band) = SideIndex.make sd band) as -> by by destruct sd.
  replace (queue sd ABook.make) with (@nil entry) by by destruct sd.
  split; try done.
  - apply make_wf. lia.
  - by constructor.
  - intros p. apply view_make.
  - by intros x ?%not_elem_of_nil.
  - by intros x ?%not_elem_of_nil.
Qed.

(** ** Reading *)

Lemma lookup_entry a s o : ABook.at_ s a = Some o → ∃ sd, (s, o) ∈ queue sd a.
Proof.
  intros [H|H]%lookup_slot_Some%elem_of_app; [by exists Buy|by exists Sell].
Qed.

Lemma entry_at b a sd x : Rep b a → x ∈ queue sd a →
  bo_side x.2 = sd ∧ price_safe (entry_price x) ∧
  ∃ e, vget (slab_ b) x.1 = Some e ∧ so_order e = x.2.
Proof.
  intros HR Hx. destruct (sr_typed _ _ _ _ (rp_side _ _ HR sd) x Hx) as [? ?].
  split_and!; try done.
  apply (sr_order _ _ _ _ (rp_side _ _ HR sd)) in Hx. apply fmap_Some in Hx as (e & ? & ?). eauto.
Qed.

Lemma at_entry b a s o : Rep b a → ABook.at_ s a = Some o →
  (s, o) ∈ queue (bo_side o) a ∧ price_safe (bo_price o) ∧
  ∃ e, vget (slab_ b) s = Some e ∧ so_order e = o.
Proof.
  intros HR [sd Hin]%lookup_entry. by destruct (entry_at b a sd _ HR Hin) as (<- & ? & ?).
Qed.

Lemma at_refines b a s : Rep b a → sim_read (MatchingBook.at_ s b) (ABook.at_ s a).
Proof.
  intros HR o Ho. destruct (at_entry b a s o HR Ho) as (_ & _ & e & He & <-).
  unfold at_. by rewrite He.
Qed.

(** The first level of a side is the one its first entry is in. *)
Lemma level_view_cons l : l ≠ [] → level_view l = Some (level_of l).
Proof. by destruct l. Qed.

Lemma slots_at_cons x q : ∃ l, slots_at (entry_price x) (x :: q) = x.1 :: l.
Proof. unfold slots_at. rewrite at_price_cons, decide_True by done. rewrite fmap_cons. eauto. Qed.

Lemma view_keys slab idx side q p : side_rep slab idx side q →
  is_Some (view idx p) ↔ ∃ y, y ∈ q ∧ entry_price y = p.
Proof.
  intros HS. rewrite (sr_view _ _ _ _ HS). unfold slots_at. split.
  - destruct (at_price p q) as [|y l] eqn:E; [by intros []|]. intros _. exists y.
    apply and_comm, at_price_in. rewrite E. by left.
  - intros (y & Hy & Hp). assert (y ∈ at_price p q) as Hin by by apply at_price_in.
    destruct (at_price p q); [by apply not_elem_of_nil in Hin|]. by eexists.
Qed.

Lemma best_such_ext side (P Q : Z → Prop) p : (∀ q, P q ↔ Q q) → best_such side P p → best_such side Q p.
Proof. intros H [? Hb]. split; [by apply H|]. intros q ?%H. by apply Hb. Qed.

Lemma side_empty slab idx side q : side_rep slab idx side q →
  SideIndex.empty idx = bool_decide (q = []).
Proof.
  intros HS. destruct q as [|x q].
  - rewrite bool_decide_true by done. apply (empty_spec _ (sr_wf _ _ _ _ HS)).
    intros p. apply eq_None_not_Some. rewrite (view_keys _ _ _ _ _ HS).
    by intros (y & ?%not_elem_of_nil & _).
  - rewrite bool_decide_false by done. apply not_true_iff_false.
    rewrite (empty_spec _ (sr_wf _ _ _ _ HS)). intros Hv. specialize (Hv (entry_price x)).
    apply eq_None_not_Some in Hv. apply Hv. rewrite (view_keys _ _ _ _ _ HS).
    exists x. split; [by left|done].
Qed.

Lemma side_best slab idx side x q : side_rep slab idx side (x :: q) →
  best_price idx = Some (entry_price x).
Proof.
  intros HS. assert (is_Some (view idx (entry_price x))) as [l Hl].
  { rewrite (view_keys _ _ _ _ _ HS). exists x. split; [by left|done]. }
  destruct (best_price_spec idx _ l (sr_wf _ _ _ _ HS) Hl) as (p & Hp & Hbest).
  rewrite Hp. f_equal. rewrite (sr_side _ _ _ _ HS) in Hbest.
  eapply best_such_unique; [exact Hbest|].
  eapply best_such_ext; [|by apply sorted_head_best, HS].
  intros r. by rewrite (view_keys _ _ _ _ _ HS).
Qed.

Lemma side_level slab idx side q x : side_rep slab idx side q → x ∈ q →
  view idx (entry_price x) = Some (level_of (slots_at (entry_price x) q)) ∧
  level_at idx (entry_price x) = Some (level_of (slots_at (entry_price x) q)) ∧
  find_level idx (entry_price x) = Some (Some (level_of (slots_at (entry_price x) q))).
Proof.
  intros HS Hx. assert (view idx (entry_price x) = Some (level_of (slots_at (entry_price x) q))) as Hv.
  { rewrite (sr_view _ _ _ _ HS). apply level_view_cons. intros E.
    assert (x ∈ at_price (entry_price x) q) as Hin by by apply at_price_in.
    apply fmap_nil_inv in E. rewrite E in Hin. by apply not_elem_of_nil in Hin. }
  split_and!; [done| |].
  - by apply level_at_spec; [apply HS|].
  - rewrite find_level_spec; [by rewrite Hv|apply HS|]. by apply (sr_typed _ _ _ _ HS).
Qed.

Lemma front_level_spec slab idx side x q : side_rep slab idx side (x :: q) →
  front_level idx = Some (entry_price x, level_of (slots_at (entry_price x) (x :: q))).
Proof.
  intros HS. unfold front_level. rewrite (side_best _ _ _ _ _ HS). simpl.
  destruct (side_level _ _ _ _ x HS) as (_ & -> & _); [by left|done].
Qed.

Lemma front_refines b a side : Rep b a →
  sim_read (front_of_best side b) (Some (ABook.front side a)).
Proof.
  intros HR r [= <-]. pose proof (rp_side _ _ HR side) as HS.
  unfold front_of_best, ABook.front. rewrite (side_empty _ _ _ _ HS).
  destruct (queue side a) as [|x q] eqn:Hq; [done|]. rewrite bool_decide_false by done.
  rewrite (front_level_spec _ _ _ _ _ HS). simpl.
  destruct (slots_at_cons x q) as [l ->]. simpl.
  destruct (entry_at b a side x HR) as (_ & _ & e & -> & He); [rewrite Hq; by left|].
  simpl. by rewrite He.
Qed.

(** ** Adding *)

Lemma vget_links slab s : 0 ≤ s < vsize slab → is_Some (links_at slab s).
Proof. intros [e He]%vget_is_Some. unfold links_at. rewrite He. by eexists. Qed.

Lemma acquire_rep b a o : Rep b a → next_slot a < kNil → ∃ slab fh,
  acquire_slot o b = Some (next_slot a, mk slab fh (bids_ b) (asks_ b)) ∧
  (∀ sd, side_rep slab (side_of sd b) sd (queue sd a)) ∧
  free_chain slab fh (free (take_slot a)) ∧ vsize slab = size (take_slot a) ∧
  size (take_slot a) ≤ kNil ∧ order_at slab (next_slot a) = Some o ∧
  next_slot a :: (bids a).*1 ++ (asks a).*1 ++ free (take_slot a) ≡ₚ seqZ 0 (size (take_slot a)).
Proof.
  intros HR Hn. pose proof (rp_slots _ _ HR) as Hp. pose proof (rp_bound _ _ HR) as Hbd.
  pose proof (rp_free _ _ HR) as Hf. pose proof (rp_size _ _ HR) as Hz.
  assert (∀ slab, (∀ s sd, s ∈ (queue sd a).*1 →
    links_at slab s = links_at (slab_ b) s ∧ order_at slab s = order_at (slab_ b) s) →
    ∀ sd, side_rep slab (side_of sd b) sd (queue sd a)) as Hfr.
  { intros slab H sd. apply (side_rep_frame (slab_ b)); [|apply HR]. intros s. apply H. }
  unfold next_slot, take_slot in *. destruct (free a) as [|f l] eqn:Hfree; simpl in *.
  - exists (slab_ b ++ [mkSlabOrder o kNil kNil]), (free_head_ b).
    rewrite acquire_grow by (done || lia). rewrite Hz, vsize_snoc, Hz.
    split_and!; try done; try lia.
    + apply Hfr. intros s sd Hs. destruct (slots_bound b a sd s HR Hs).
      unfold links_at, order_at. rewrite vget_app_same by lia. done.
    + unfold order_at. by rewrite <-Hz, vget_snoc.
    + rewrite app_nil_r in Hp. pose proof (vsize_nonneg (slab_ b)).
      rewrite app_nil_r, (seqZ_app 0 (size a) 1), Hp by lia. simpl.
      rewrite Permutation_cons_append. f_equiv. by rewrite seqZ_cons, seqZ_nil by lia.
  - destruct (acquire_reuse b o f l) as (slab & -> & Hf' & Hlk & Ho & Hz'); [done|lia|].
    eexists slab, _. split; [done|]. split_and!; try done; try lia.
    + apply Hfr. intros s sd Hs. split; [done|]. rewrite Ho, decide_False; [done|].
      intros ->. pose proof (rep_slots b a sd HR) as (_ & _ & _ & H & _)%perm_slots_nodup.
      destruct (H _ Hs) as [_ Hnf]. apply Hnf. rewrite Hfree. by left.
    + by rewrite Ho, decide_True.
    + rewrite <-Hp. solve_Permutation.
Qed.

Lemma level_view_default l : default empty_level (level_view l) = level_of l.
Proof. by destruct l. Qed.

Lemma add_side slab idx sd q s o : side_rep slab idx sd q → bo_side o = sd →
  price_safe (bo_price o) → order_at slab s = Some o → NoDup (s :: q.*1) → kNil ∉ q.*1 →
  ∃ level idx1 slab' idx2, level_for (bo_price o) idx = Some (level, idx1) ∧
    link_back level s slab = Some (level_of (slots_at (bo_price o) q ++ [s]), slab') ∧
    put_level (bo_price o) (level_of (slots_at (bo_price o) q ++ [s])) idx1 = Some idx2 ∧
    side_rep slab' idx2 sd (ABook.insert_back sd (s, o) q) ∧
    relinked slab slab' (slots_at (bo_price o) q ++ [s]).
Proof.
  intros HS Hsd Hp Ho Hnd Hnil. apply NoDup_cons in Hnd as [Hsq Hnd].
  destruct (level_for_spec idx _ (sr_wf _ _ _ _ HS) Hp) as (idx1 & -> & Hwf1 & Hsd1 & _ & Hv1).
  rewrite (sr_view _ _ _ _ HS), level_view_default in *.
  apply fmap_Some in Ho as (e & He & Heo).
  assert (links_at slab s = Some (so_prev e, so_next e)) as Hl by (unfold links_at; by rewrite He).
  destruct (link_back_spec slab (slots_at (bo_price o) q) s _ _ (sr_chain _ _ _ _ HS _) Hl)
    as (slab' & Hlb & Hc' & Hr).
  { apply NoDup_app. split_and!; [by apply slots_at_nodup|by intros k Hk%slots_at_in ->%list_elem_of_singleton|].
    apply NoDup_singleton. }
  { intros ?%slots_at_in. done. }
  destruct (put_level_spec idx1 (bo_price o) (level_of (slots_at (bo_price o) q)) (level_of (slots_at (bo_price o) q ++ [s])) Hwf1)
    as (idx2 & Hput & Hwf2 & Hsd2 & _ & Hv2).
  { by rewrite Hv1, decide_True. }
  exists (level_of (slots_at (bo_price o) q)), idx1, slab', idx2. split_and!; try done.
  assert (∀ p, slots_at p (ABook.insert_back sd (s, o) q) =
    slots_at p q ++ if decide (p = bo_price o) then [s] else []) as Hslots.
  { intros p. unfold slots_at. rewrite insert_back_at_price by apply HS.
    rewrite fmap_app. unfold entry_price. simpl. f_equal.
    destruct (decide (p = bo_price o)) as [->|]; [by rewrite decide_True|by rewrite decide_False]. }
  split.
  - done.
  - by rewrite Hsd2, Hsd1; apply HS.
  - apply insert_back_sorted, HS.
  - intros p. rewrite Hv2, Hslots, Hv1. case_decide as Hd; [subst|].
    + rewrite level_view_cons; [done|]. by destruct (slots_at _ _).
    + rewrite app_nil_r. apply HS.
  - intros p. rewrite Hslots. case_decide as Hd; [by subst|]. rewrite app_nil_r.
    apply (chain_frame slab); [|apply HS]. intros k Hk. apply Hr.
    intros [Hk2| ->%list_elem_of_singleton]%elem_of_app; [|by apply slots_at_in in Hk].
    unfold slots_at in Hk, Hk2. apply list_elem_of_fmap in Hk as (x & -> & [Hxp Hx]%at_price_in).
    apply list_elem_of_fmap in Hk2 as (y & Hxy & [Hyp Hy]%at_price_in).
    assert (x = y) as ->; [|congruence].
    pose proof (sr_order _ _ _ _ HS x Hx). pose proof (sr_order _ _ _ _ HS y Hy).
    destruct x, y; simpl in *; congruence.
  - intros x Hx. destruct Hr as (_ & -> & _). apply insert_back_in in Hx as [->|Hx]; [|by apply HS].
    simpl. unfold order_at. by rewrite He, Heo.
  - intros x Hx. apply insert_back_in in Hx as [->|Hx]; [done|by apply HS].
Qed.

Lemma side_of_with_side sd idx b : side_of sd (with_side sd idx b) = idx.
Proof. by destruct sd. Qed.

Lemma side_of_with_contra sd idx b : side_of (contra sd) (with_side sd idx b) = side_of (contra sd) b.
Proof. by destruct sd. Qed.

(** How a representation is put back together after one side changed. *)
Lemma rep_intro slab fh idx sd b q' fr sz a :
  side_rep slab idx sd q' → side_rep slab (side_of (contra sd) b) (contra sd) (queue (contra sd) a) →
  free_chain slab fh fr → vsize slab = sz → sz ≤ kNil →
  q'.*1 ++ (queue (contra sd) a).*1 ++ fr ≡ₚ seqZ 0 sz →
  Rep (with_side sd idx (mk slab fh (bids_ b) (asks_ b)))
      (with_queue sd q' (ABook.mk (bids a) (asks a) fr sz)).
Proof.
  intros H1 H2 H3 H4 H5 H6. split; [|by destruct sd..|].
  - apply (side_cases sd).
    + rewrite side_of_with_side, queue_with_queue. by destruct sd.
    + rewrite side_of_with_contra, queue_with_contra. by destruct sd.
  - destruct sd; simpl in *; [done|]. rewrite <-H6. solve_Permutation.
Qed.

Lemma add_refines b a o : Rep b a → sim_result Rep (MatchingBook.add o b) (ABook.add o a).
Proof.
  intros HR r a'. unfold ABook.add. case_bool_decide as Hp; simpl; [|done].
  destruct (Z.ltb_spec (next_slot a) kNil) as [Hn|]; [|done]. intros [= <- <-].
  destruct (acquire_rep b a o HR Hn) as (slab & fh & Hacq & HS & Hf & Hz & Hb & Ho & Hperm).
  unfold add. rewrite Hacq. simpl.
  assert (next_slot a :: (queue (bo_side o) a).*1 ++ (queue (contra (bo_side o)) a).*1 ++
    free (take_slot a) ≡ₚ seqZ 0 (size (take_slot a))) as Hperm'.
  { rewrite <-Hperm. destruct (bo_side o); simpl; solve_Permutation. }
  pose proof Hperm' as (Hnd & _ & _ & Hdis & _ & Hbnd)%(perm_slots_nodup (_ :: _)).
  destruct (add_side slab (side_of (bo_side o) b) _ _ _ o (HS _) eq_refl Hp Ho Hnd)
    as (level & idx1 & slab' & idx2 & Hlf & Hlb & Hput & HS' & Hr).
  { intros Hk. specialize (Hbnd kNil). destruct Hbnd; [left; by right|lia]. }
  replace (side_of (bo_side o) (mk slab fh (bids_ b) (asks_ b))) with (side_of (bo_side o) b)
    by by destruct (bo_side o).
  rewrite Hlf. simpl. rewrite Hlb. simpl. rewrite Hput. simpl. eexists. split; [done|].
  assert (∀ k, k ∉ next_slot a :: (queue (bo_side o) a).*1 → links_at slab' k = links_at slab k) as Hout.
  { intros k Hk. apply Hr. intros [Hk2%slots_at_in|Hk2]%elem_of_app; apply Hk; [by right|].
    apply list_elem_of_singleton in Hk2 as ->. by left. }
  replace (with_queue (bo_side o) _ (take_slot a)) with
    (with_queue (bo_side o) (ABook.insert_back (bo_side o) (next_slot a, o) (queue (bo_side o) a))
      (ABook.mk (bids a) (asks a) (free (take_slot a)) (size (take_slot a))))
    by (unfold take_slot; by destruct (free a), (bo_side o)).
  apply rep_intro; try done.
  - apply (side_rep_frame slab); [|apply HS]. intros s Hs. split; [|apply Hr]. apply Hout.
    intros Hs2. by destruct (Hdis s Hs2).
  - apply (free_chain_frame slab); [|done]. intros s Hs. apply Hout. intros Hs2. by destruct (Hdis s Hs2).
  - destruct Hr as (_ & _ & ->). done.
  - rewrite <-Hperm'. by rewrite insert_back_perm.
Qed.

(** ** Removing *)

Lemma level_head_nil l : kNil ∉ l → (SideIndex.head (level_of l) =? kNil) = bool_decide (l = []).
Proof. apply eqb_nil_hd. Qed.

Lemma remove_slot_slots_at s q p : slots_at p (ABook.remove_slot s q) = filter (λ k, k ≠ s) (slots_at p q).
Proof.
  unfold slots_at. rewrite remove_slot_at_price. induction (at_price p q) as [|x l IH]; [done|].
  rewrite remove_slot_cons, fmap_cons, filter_cons, <-IH. repeat case_decide; try done; congruence.
Qed.

Lemma slots_at_other q x p : NoDup q.*1 → x ∈ q → p ≠ entry_price x → x.1 ∉ slots_at p q.
Proof.
  intros Hnd Hx Hp. unfold slots_at. intros (y & E & [Hy Hyq]%at_price_in)%list_elem_of_fmap.
  assert (ABook.lookup_slot x.1 q = Some x.2) as H1 by (apply lookup_slot_in; by destruct x).
  assert (ABook.lookup_slot x.1 q = Some y.2) as H2
    by (rewrite E; apply lookup_slot_in; [done|by destruct y]).
  unfold entry_price in *. congruence.
Qed.

Lemma filter_split (l1 l2 : list Z) s : NoDup (l1 ++ s :: l2) →
  filter (λ k, k ≠ s) (l1 ++ s :: l2) = l1 ++ l2.
Proof.
  intros (_ & Hd & [? _]%NoDup_cons)%NoDup_app. rewrite filter_app, filter_cons, decide_False by tauto.
  f_equal; apply filter_all; [|by intros k Hk ->].
  intros k Hk ->. apply (Hd _ Hk). by left.
Qed.

Lemma remove_index idx p l l' : wf idx → view idx p = Some l → kNil ∉ l' →
  ∃ idx1 idx2, put_level p (level_of l') idx = Some idx1 ∧
    (if SideIndex.head (level_of l') =? kNil then erase_level p idx1 else Some idx1) = Some idx2 ∧
    wf idx2 ∧ side_ idx2 = side_ idx ∧
    ∀ q, view idx2 q = if decide (q = p) then level_view l' else view idx q.
Proof.
  intros Hwf Hv Hn.
  destruct (put_level_spec idx p l (level_of l') Hwf Hv) as (idx1 & H1 & Hwf1 & Hs1 & _ & Hv1).
  exists idx1. rewrite level_head_nil by done. case_bool_decide as Hl.
  - destruct (erase_level_spec idx1 p (level_of l') Hwf1) as (idx2 & H2 & ? & ? & _ & Hv2).
    { by rewrite Hv1, decide_True. }
    exists idx2. split_and!; try done; [congruence|]. intros q. rewrite Hv2, Hv1, Hl. by case_decide.
  - exists idx1. split_and!; try done. intros q. rewrite Hv1. by rewrite level_view_cons.
Qed.

Lemma remove_side slab idx sd q x : side_rep slab idx sd q → x ∈ q → NoDup q.*1 → kNil ∉ q.*1 →
  let p := entry_price x in
  let l' := slots_at p (ABook.remove_slot x.1 q) in
  ∃ slab' idx1 idx2, unlink (level_of (slots_at p q)) x.1 slab = Some (level_of l', slab') ∧
    put_level p (level_of l') idx = Some idx1 ∧
    (if SideIndex.head (level_of l') =? kNil then erase_level p idx1 else Some idx1) = Some idx2 ∧
    side_rep slab' idx2 sd (ABook.remove_slot x.1 q) ∧
    relinked slab slab' (ABook.remove_slot x.1 q).*1.
Proof.
  intros HS Hx Hnd Hnil p l'.
  assert (x.1 ∈ slots_at p q) as (l1 & l2 & Hsplit)%list_elem_of_split.
  { apply list_elem_of_fmap. exists x. split; [done|]. by apply at_price_in. }
  assert (NoDup (l1 ++ x.1 :: l2)) as Hnd' by (rewrite <-Hsplit; by apply slots_at_nodup).
  assert (l' = l1 ++ l2) as Hl' by (unfold l'; rewrite remove_slot_slots_at, Hsplit; by apply filter_split).
  assert (kNil ∉ l1 ++ x.1 :: l2) as Hn by (rewrite <-Hsplit; by intros ?%slots_at_in).
  pose proof (sr_chain _ _ _ _ HS p) as Hc. rewrite Hsplit in Hc.
  destruct (unlink_spec slab l1 x.1 l2 Hc Hnd' Hn) as (slab' & Hu & Hc' & Hr).
  destruct (side_level _ _ _ _ x HS Hx) as (Hv & _ & _).
  destruct (remove_index idx p _ l' (sr_wf _ _ _ _ HS) Hv) as (idx1 & idx2 & Hp1 & Hp2 & Hwf2 & Hs2 & Hv2).
  { rewrite Hl'. set_solver. }
  rewrite <-Hl' in *.
  assert (∀ r, r ≠ p → slots_at r (ABook.remove_slot x.1 q) = slots_at r q) as Hother.
  { intros r Hrp. rewrite remove_slot_slots_at. apply filter_all. intros k Hk ->.
    by apply (slots_at_other q x r). }
  assert (∀ k, k ∈ l' → k ∈ (ABook.remove_slot x.1 q).*1) as Hsub by (intros k; apply slots_at_in).
  rewrite Hsplit. exists slab', idx1, idx2. split; [done|]. split; [done|]. split; [done|]. split.
  - split; try done.
    + by rewrite Hs2; apply HS.
    + apply remove_slot_sorted, HS.
    + intros r. rewrite Hv2. case_decide as Hd; [by subst|]. rewrite Hother by done. apply HS.
    + intros r. destruct (decide (r = p)) as [->|Hd]; [done|]. rewrite Hother by done.
      apply (chain_frame slab); [|apply HS]. intros k Hk. apply Hr. unfold l'. intros Hk2.
      unfold slots_at in Hk, Hk2. rewrite list_elem_of_fmap in Hk, Hk2.
      destruct Hk as (y & -> & [Hyp Hyq]%at_price_in).
      destruct Hk2 as (z & E & [Hzp [_ Hz]%remove_slot_in]%at_price_in).
      apply (slots_at_other q y p Hnd Hyq); [congruence|]. rewrite E.
      apply list_elem_of_fmap. exists z. split; [done|]. by apply at_price_in.
    + intros y [_ Hy]%remove_slot_in. destruct Hr as (_ & -> & _). by apply HS.
    + intros y [_ Hy]%remove_slot_in. by apply HS.
  - split_and!; [|apply Hr..]. intros k Hk. apply Hr. intros Hk2. by apply Hk, Hsub.
Qed.

(** What remains after the unlinked slot is released. *)
Lemma release_rep b a sd x idx slab' : Rep b a → x ∈ queue sd a →
  side_rep slab' idx sd (ABook.remove_slot x.1 (queue sd a)) →
  relinked (slab_ b) slab' (ABook.remove_slot x.1 (queue sd a)).*1 →
  ∃ slab'', (∀ i, release_slot x.1 (with_side sd i (with_slab slab' b)) =
               Some (with_side sd i (mk slab'' x.1 (bids_ b) (asks_ b)))) ∧
    Rep (with_side sd idx (mk slab'' x.1 (bids_ b) (asks_ b)))
      (ABook.with_free (x.1 :: free a) (with_queue sd (ABook.remove_slot x.1 (queue sd a)) a)).
Proof.
  intros HR Hx HS Hr. pose proof (rep_slots b a sd HR) as Hperm.
  pose proof Hperm as (Hnd & _ & _ & Hdis & Hdis2 & Hb)%perm_slots_nodup.
  assert (x.1 ∈ (queue sd a).*1) as Hxs by (apply list_elem_of_fmap; by exists x).
  assert (∀ k, k ∈ (ABook.remove_slot x.1 (queue sd a)).*1 → k ∈ (queue sd a).*1 ∧ k ≠ x.1) as Hsub.
  { intros k (y & -> & [? ?]%remove_slot_in)%list_elem_of_fmap. split; [|done].
    apply list_elem_of_fmap. by exists y. }
  destruct Hr as (Hrl & Hro & Hrz).
  assert (free_chain slab' (free_head_ b) (free a)) as Hf.
  { apply (free_chain_frame (slab_ b)); [|apply HR]. intros k Hk. apply Hrl.
    intros [Hk2 _]%Hsub. by destruct (Hdis k Hk2). }
  destruct (vget_is_Some slab' x.1) as [e He].
  { rewrite Hrz, (rp_size _ _ HR). apply Hb. by left. }
  destruct (release_spec (mk slab' (free_head_ b) (bids_ b) (asks_ b)) x.1 (free a) e Hf He)
    as (slab'' & Hrel & Hf' & Hr2 & Ho2 & Hz2); [by apply (Hdis x.1)|]. simpl in *.
  exists slab''. split.
  { intros i. unfold release_slot in *. destruct sd; simpl in *;
      destruct (update_slot _ _ _); simpl in *; congruence. }
  replace (ABook.with_free _ (with_queue sd _ a)) with
    (with_queue sd (ABook.remove_slot x.1 (queue sd a)) (ABook.mk (bids a) (asks a) (x.1 :: free a) (size a)))
    by by destruct sd.
  apply rep_intro; try done.
  - apply (side_rep_frame slab'); [|done]. intros k [_ Hk]%Hsub. split; [|done]. apply Hr2. set_solver.
  - apply (side_rep_frame (slab_ b)); [|apply HR]. intros k Hk.
    assert (k ∉ (queue sd a).*1) as Hk2 by (intros Hk2; by destruct (Hdis k Hk2)).
    rewrite Hr2, Hrl, Ho2, Hro; [done|intros [? _]%Hsub; done|].
    intros ->%list_elem_of_singleton. done.
  - rewrite Hz2, Hrz. apply HR.
  - apply HR.
  - rewrite <-Hperm, <-(remove_slot_perm x.1 (queue sd a)) by done. solve_Permutation.
Qed.

Lemma remove_at_refines b a s : Rep b a →
  sim_result Rep (MatchingBook.remove_at s b) (ABook.remove_at s a).
Proof.
  intros HR o a'. unfold ABook.remove_at, MatchingBook.remove_at.
  destruct (ABook.at_ s a) as [o'|] eqn:Ho; [|done]. simpl. intros [= <- <-].
  destruct (at_entry b a s o' HR Ho) as (Hin & _ & e & He & Heo). rewrite He. simpl. rewrite Heo.
  set (sd := bo_side o') in *. pose proof (rp_side _ _ HR sd) as HS.
  destruct (side_level _ _ _ _ _ HS Hin) as (_ & _ & Hf). unfold entry_price in Hf. simpl in Hf.
  rewrite Hf. simpl.
  destruct (remove_side _ _ _ _ _ HS Hin) as (slab' & idx1 & idx2 & Hu & Hp & He2 & HS' & Hr).
  { by eapply queue_nodup. }
  { intros Hk. by destruct (slots_bound b a sd kNil HR Hk). }
  unfold entry_price in Hu, Hp, He2. simpl in Hu, Hp, He2.
  rewrite Hu. simpl. rewrite Hp. simpl in *. rewrite He2. simpl.
  destruct (release_rep b a sd _ idx2 slab' HR Hin HS' Hr) as (slab'' & Hrel & HR').
  simpl in Hrel. rewrite Hrel. simpl. eexists. split; [done|]. exact HR'.
Qed.

Lemma remove_head_slot x q : NoDup (x :: q).*1 → ABook.remove_slot x.1 (x :: q) = q.
Proof. intros H. by apply (remove_slot_split []). Qed.

Lemma with_side_twice sd i j b : with_side sd i (with_side sd j b) = with_side sd i b.
Proof. by destruct sd. Qed.

Lemma remove_front_refines b a sd : Rep b a →
  sim_state Rep (MatchingBook.remove_front sd b) (ABook.remove_front sd a).
Proof.
  intros HR a'. unfold ABook.remove_front, MatchingBook.remove_front.
  pose proof (rp_side _ _ HR sd) as HS. pose proof (queue_nodup b a sd HR) as Hnd.
  assert (kNil ∉ (queue sd a).*1) as Hnil.
  { intros Hk. by destruct (slots_bound b a sd kNil HR Hk). }
  destruct (queue sd a) as [|[s o] q] eqn:Hq; [done|]. intros [= <-].
  rewrite (front_level_spec _ _ _ _ _ HS). simpl.
  destruct (slots_at_cons (s, o) q) as [l Hl].
  assert (hd_or kNil (slots_at (entry_price (s, o)) ((s, o) :: q)) = s) as -> by by rewrite Hl.
  assert ((s, o) ∈ (s, o) :: q) as Hin by by left.
  destruct (remove_side _ _ _ _ _ HS Hin Hnd Hnil) as (slab' & idx1 & idx2 & Hu & Hp & He2 & HS' & Hr).
  simpl in Hu. rewrite Hu. simpl. simpl in Hp. rewrite Hp. simpl.
  rewrite <-Hq in HS', Hr, Hin, Hnd.
  destruct (release_rep b a sd _ idx2 slab' HR Hin HS' Hr) as (slab'' & Hrel & HR').
  simpl in Hrel. rewrite Hrel. simpl. rewrite Hq in HR', Hnd. simpl in HR'.
  rewrite (remove_head_slot (s, o)) in HR' by done.
  rewrite side_of_with_side. simpl in He2. destruct (_ =? kNil) eqn:E.
  - rewrite He2. simpl. rewrite with_side_twice. eexists. by split.
  - injection He2 as <-. eexists. by split.
Qed.

(** ** Editing in place *)

Lemma update_order_refines b a s f sd o : Rep b a → (s, o) ∈ queue sd a →
  (∀ o, bo_price (f o) = bo_price o ∧ bo_side (f o) = bo_side o) →
  ∃ b', update_order s f b = Some b' ∧
    Rep b' (with_queue sd (ABook.update_slot s f (queue sd a)) a).
Proof.
  intros HR Hin Hf. assert (∀ o, bo_price (f o) = bo_price o) as Hfp by (intros; apply Hf).
  destruct (entry_at b a sd _ HR Hin) as (_ & _ & e & He & Heo). simpl in He, Heo.
  unfold update_order.
  destruct (update_slot_spec (slab_ b) s e (λ e, set_order (f (so_order e)) e) He) as (slab & -> & Hz & Hg).
  simpl. eexists. split; [done|].
  assert (∀ k, links_at slab k = links_at (slab_ b) k) as Hlk.
  { intros k. unfold links_at. rewrite Hg. case_decide; [subst; by rewrite He|done]. }
  assert (∀ k, order_at slab k = if decide (k = s) then Some (f o) else order_at (slab_ b) k) as Ho.
  { intros k. unfold order_at. rewrite Hg. case_decide; [simpl; congruence|done]. }
  pose proof (rep_slots b a sd HR) as Hperm.
  pose proof Hperm as (Hnd & _ & _ & Hdis & _)%perm_slots_nodup.
  assert (s ∈ (queue sd a).*1) as Hs by (apply list_elem_of_fmap; by exists (s, o)).
  pose proof (rp_side _ _ HR sd) as HS.
  replace (with_slab slab b) with (with_side sd (side_of sd b) (mk slab (free_head_ b) (bids_ b) (asks_ b)))
    by by destruct sd.
  replace (with_queue sd _ a) with (with_queue sd (ABook.update_slot s f (queue sd a))
    (ABook.mk (bids a) (asks a) (free a) (size a))) by by destruct sd.
  apply rep_intro.
  - split.
    + apply HS.
    + apply HS.
    + apply update_slot_sorted, HS. done.
    + intros p. unfold slots_at. rewrite update_slot_at_price by done. apply HS.
    + intros p. unfold slots_at. rewrite update_slot_at_price by done.
      apply (chain_frame (slab_ b)); [intros; apply Hlk|apply HS].
    + intros y ([s' o'] & Hx & Hy1 & Hy2 & _)%update_slot_in; [|done]. simpl in *. rewrite Hy1, Ho, Hy2.
      destruct (Z.eqb_spec s' s) as [->|]; [|rewrite decide_False by done; by apply (sr_order _ _ _ _ HS (s', o'))].
      rewrite decide_True by done. do 2 f_equal.
      apply (lookup_slot_in s _ o Hnd) in Hin. apply (lookup_slot_in s _ o' Hnd) in Hx. congruence.
    + intros y (x & Hx & _ & Hy2 & ->)%update_slot_in; [|done]. split; [|by apply HS].
      rewrite Hy2. case_bool; rewrite ?(proj2 (Hf _)); by apply HS.
  - apply (side_rep_frame (slab_ b)); [|apply HR]. intros k Hk. split; [done|].
    rewrite Ho, decide_False; [done|]. intros ->. by destruct (Hdis s Hs).
  - apply (free_chain_frame (slab_ b)); [|apply HR]. done.
  - rewrite Hz. apply HR.
  - apply HR.
  - by rewrite update_slot_slots.
Qed.

Lemma update_at_refines b a s f : Rep b a →
  (∀ o, bo_price (f o) = bo_price o ∧ bo_side (f o) = bo_side o) →
  sim_state Rep (update_order s f b) (ABook.update_at s f a).
Proof.
  intros HR Hf a'. unfold ABook.update_at. destruct (ABook.at_ s a) as [o|] eqn:Ho; [|done].
  simpl. intros [= <-]. destruct (at_entry b a s o HR Ho) as (Hin & _).
  by apply (update_order_refines _ _ _ _ _ o).
Qed.

Lemma reduce_front_refines b a sd q : Rep b a →
  sim_state Rep (MatchingBook.reduce_front sd q b) (ABook.reduce_front sd q a).
Proof.
  intros HR a'. unfold ABook.reduce_front, MatchingBook.reduce_front.
  pose proof (rp_side _ _ HR sd) as HS. pose proof (queue_nodup b a sd HR) as Hnd.
  destruct (queue sd a) as [|[s o] l] eqn:Hq; [done|]. intros [= <-].
  rewrite (front_level_spec _ _ _ _ _ HS). simpl.
  destruct (slots_at_cons (s, o) l) as [l' Hl].
  assert (hd_or kNil (slots_at (entry_price (s, o)) ((s, o) :: l)) = s) as -> by by rewrite Hl.
  destruct (update_order_refines b a s (bo_with_remaining q) sd o HR) as (b' & Hb' & HR').
  { rewrite Hq. by left. }
  { done. }
  exists b'. split; [done|]. rewrite Hq in HR'. unfold ABook.update_slot in HR'.
  rewrite fmap_cons in HR'. simpl in HR'. rewrite Z.eqb_refl in HR'.
  replace (_ <$> l) with l in HR'; [done|].
  symmetry. rewrite <-(list_fmap_id l) at 2. apply list_fmap_ext. intros i [s' o'] Hx. simpl.
  destruct (Z.eqb_spec s' s) as [->|]; [|done]. apply NoDup_cons in Hnd as [Hn _]. destruct Hn.
  apply list_elem_of_fmap. exists (s, o'). split; [done|]. by eapply list_elem_of_lookup_2.
Qed.

(** ** Walking *)

Lemma chain_walk slab l : ∀ p fuel os, chain slab p l kNil → (length l ≤ fuel)%nat → kNil ∉ l →
  order_at slab <$> l = Some <$> os → walk_level fuel slab (hd_or kNil l) = Some os.
Proof.
  induction l as [|s l IH]; intros p fuel os.
  { intros _ _ _ E. symmetry in E. apply fmap_nil_inv in E as ->. by destruct fuel. }
  intros [Hs Hc] Hl Hn E. destruct os as [|o os]; [done|]. injection E as Ho E.
  destruct fuel as [|fuel]; simpl in *; [lia|]. rewrite (proj2 (Z.eqb_neq _ _)) by set_solver.
  destruct (links_at_vget _ _ _ _ Hs) as (e & He & _ & Hx). rewrite He. simpl. rewrite Hx.
  rewrite (IH s fuel os); [|done|lia|set_solver|done].
  unfold order_at in Ho. rewrite He in Ho. simpl in *. congruence.
Qed.

Lemma order_at_fmap slab idx sd q l : side_rep slab idx sd q → (∀ x, x ∈ l → x ∈ q) →
  order_at slab <$> l.*1 = Some <$> l.*2.
Proof.
  intros HS Hl. rewrite <-!list_fmap_compose. apply list_fmap_ext. intros i x Hx. simpl.
  apply (sr_order _ _ _ _ HS), Hl. by eapply list_elem_of_lookup_2.
Qed.

Lemma queue_length b a sd : Rep b a → (length (queue sd a) ≤ length (slab_ b))%nat.
Proof.
  intros HR. pose proof (Permutation_length (rep_slots b a sd HR)) as Hl.
  pose proof (rp_size _ _ HR) as Hz. unfold vsize in Hz.
  rewrite !length_app, !length_fmap, length_seqZ in Hl. lia.
Qed.

Lemma at_price_length p q : (length (at_price p q) ≤ length q)%nat.
Proof. apply length_filter. Qed.

(** The walk from the first entry of a level: the level is a run of the queue,
    and [next_price] is the price of the entry after it. *)
Section walk.
Context (slab : list SlabOrder) (idx : SideIndex.t) (sd : Side) (q : list entry).
Context (HS : side_rep slab idx sd q) (Hnil : kNil ∉ q.*1).

Definition rest_of (x : entry) (q2 : list entry) : list entry :=
  filter (λ y, entry_price y ≠ entry_price x) (x :: q2).

Lemma next_level q1 x q2 : q = q1 ++ x :: q2 →
  (∀ y, y ∈ q1 → better sd (entry_price y) (entry_price x)) →
  x :: q2 = at_price (entry_price x) q ++ rest_of x q2 ∧
  next_price idx (entry_price x) = Some (entry_price <$> hd_error (rest_of x q2)) ∧
  (∀ y z, y ∈ q1 ++ at_price (entry_price x) q → z ∈ rest_of x q2 →
    better sd (entry_price y) (entry_price z)).
Proof.
  intros Hq H1. pose proof (sr_sorted _ _ _ _ HS) as Hs. rewrite Hq in Hs.
  pose proof (sorted_app_inv _ _ _ Hs) as [Hs2 _].
  assert (at_price (entry_price x) q = at_price (entry_price x) (x :: q2)) as HL.
  { rewrite Hq. unfold at_price at 1. rewrite filter_app. fold (at_price (entry_price x) q1).
    rewrite at_price_none; [done|]. intros y Hy E. apply H1 in Hy. rewrite E in Hy.
    by apply better_irrefl in Hy. }
  assert (x ∈ at_price (entry_price x) q) as HxL.
  { rewrite HL, at_price_cons, decide_True by done. by left. }
  assert (∀ y z, y ∈ q1 ++ at_price (entry_price x) q → z ∈ rest_of x q2 →
    better sd (entry_price y) (entry_price z)) as Hbet.
  { intros y z Hy [Hzx Hz]%list_elem_of_filter.
    assert (sdir sd (entry_price x) (entry_price z)) as Hxz.
    { apply sorted_cons_inv in Hs2 as [_ Hx]. apply elem_of_cons in Hz as [->|Hz]; [done|by apply Hx]. }
    apply elem_of_app in Hy as [Hy|[-> _]%at_price_in].
    - apply H1 in Hy. unfold better, sdir in *. destruct sd; lia.
    - unfold better, sdir in *. destruct sd; lia. }
  pose proof (sorted_first_level _ _ _ Hs2) as Hsplit.
  split; [by rewrite HL|]. split; [|done].
  assert (price_safe (entry_price x)) as Hp.
  { apply (sr_typed _ _ _ _ HS). rewrite Hq. apply elem_of_app. right. by left. }
  pose proof (next_price_spec idx _ (sr_wf _ _ _ _ HS) Hp) as Hnext.
  rewrite (sr_side _ _ _ _ HS) in Hnext.
  assert (q = (q1 ++ at_price (entry_price x) q) ++ rest_of x q2) as Hq'.
  { rewrite <-app_assoc, HL. unfold rest_of. rewrite <-Hsplit. done. }
  set (L := at_price (entry_price x) q) in *.
  assert (∀ y, y ∈ L → entry_price y = entry_price x) as HLp by by intros y [? _]%at_price_in.
  clearbody L.
  destruct (next_price idx (entry_price x)) as [[p|]|]; [| |done].
  - destruct Hnext as [[Hk Hb] Hmin]. destruct (rest_of x q2) as [|z q3] eqn:Hr.
    + rewrite (view_keys _ _ _ _ _ HS) in Hk. destruct Hk as (y & Hy & <-).
      rewrite Hq', app_nil_r in Hy. exfalso.
      apply elem_of_app in Hy as [Hy|E%HLp]; [apply H1 in Hy|rewrite E in Hb];
        unfold better in *; destruct sd; lia.
    + simpl. do 2 f_equal. symmetry. 
      apply (best_such_unique sd (λ r, is_Some (view idx r) ∧ better sd (entry_price x) r)); [|by split].
      rewrite <-Hq, Hq' in Hs. pose proof (sorted_next_best sd _ z q3 (entry_price x) Hs) as Hbest.
      eapply best_such_ext; [|apply Hbest].
      * intros r. cbn beta. rewrite (view_keys _ _ _ _ _ HS), <-Hq'. done.
      * intros y [Hy|E%HLp]%elem_of_app; [by apply better_sdir, H1|rewrite E; apply sdir_refl].
      * apply Hbet; [|by left]. apply elem_of_app. by right.
  - destruct (rest_of x q2) as [|z q3] eqn:Hr; [done|]. exfalso. apply (Hnext (entry_price z)).
    + rewrite (view_keys _ _ _ _ _ HS). exists z. split; [|done]. rewrite Hq'. apply elem_of_app. right. by left.
    + apply Hbet; [|by left]. apply elem_of_app. by right.
Qed.

Lemma level_orders_spec x : x ∈ q → (length q ≤ length slab)%nat →
  level_orders slab idx (entry_price x) = Some (at_price (entry_price x) q).*2.
Proof.
  intros Hx Hl. unfold level_orders.
  destruct (side_level _ _ _ _ x HS Hx) as (_ & -> & _). cbn [mbind option_bind level_of SideIndex.head].
  apply (chain_walk _ _ kNil).
  - apply HS.
  - pose proof (at_price_length (entry_price x) q). unfold slots_at. rewrite length_fmap. lia.
  - by intros ?%slots_at_in.
  - eapply order_at_fmap; [done|]. by intros y [_ ?]%at_price_in.
Qed.

Lemma all_from_spec fuel : ∀ q1 x q2, q = q1 ++ x :: q2 → (length q ≤ length slab)%nat →
  (∀ y, y ∈ q1 → better sd (entry_price y) (entry_price x)) → (length (x :: q2) ≤ fuel)%nat →
  all_from fuel slab idx (Some (entry_price x)) = Some (x :: q2).*2.
Proof.
  induction fuel as [|fuel IH]; intros q1 x q2 Hq Hl H1 Hf; [simpl in Hf; lia|].
  assert (x ∈ q) as Hx by (rewrite Hq; apply elem_of_app; right; by left).
  cbn [all_from]. rewrite (level_orders_spec x Hx Hl).
  destruct (next_level q1 x q2 Hq H1) as (Hsplit & -> & Hbet).
  replace ((x :: q2).*2) with ((at_price (entry_price x) q ++ rest_of x q2).*2) by by rewrite <-Hsplit.
  destruct (rest_of x q2) as [|z q3] eqn:Hr; simpl.
  - destruct fuel; simpl; by rewrite !app_nil_r.
  - rewrite (IH (q1 ++ at_price (entry_price x) q) z q3).
    + simpl. by rewrite fmap_app.
    + by rewrite <-app_assoc, <-Hsplit.
    + done.
    + intros y Hy. apply Hbet; [done|by left].
    + assert (x ∈ at_price (entry_price x) q) as Hne by by apply at_price_in.
      rewrite Hsplit, length_app in Hf. destruct (at_price (entry_price x) q); [by apply not_elem_of_nil in Hne|].
      simpl in *. lia.
Qed.
End walk.

Lemma all_of_refines b a sd : Rep b a →
  sim_read (MatchingBook.all_of sd b) (Some (ABook.queue sd a).*2).
Proof.
  intros HR r [= <-]. unfold all_of. pose proof (rp_side _ _ HR sd) as HS.
  pose proof (queue_length b a sd HR) as Hl.
  rewrite (side_empty _ _ _ _ HS). destruct (queue sd a) as [|x q] eqn:Hq; [done|].
  rewrite bool_decide_false, (side_best _ _ _ _ _ HS) by done. cbn [mbind option_bind].
  apply (all_from_spec _ _ _ _ HS) with (q1 := []); try done.
  - intros Hk. rewrite <-Hq in Hk. by destruct (slots_bound b a sd kNil HR Hk).
  - by intros y ?%not_elem_of_nil.
  - simpl in *. lia.
Qed.

(** ** The fill-or-kill pre-check *)

(** One level's contribution to [crossable_quantity]. *)
Fixpoint cross_list (quantity total : Quantity) (os : list BookOrder) : Quantity + Quantity :=
  match os with
  | [] => inl total
  | o :: os =>
      let total := u64 (total + bo_remaining_quantity o) in
      if quantity <=? total then inr total else cross_list quantity total os
  end.

Lemma cross_level_spec slab quantity l : ∀ p fuel os total, chain slab p l kNil →
  (length l ≤ fuel)%nat → kNil ∉ l → order_at slab <$> l = Some <$> os →
  cross_level fuel slab quantity total (hd_or kNil l) = Some (cross_list quantity total os).
Proof.
  induction l as [|s l IH]; intros p fuel os total.
  { intros _ _ _ E. symmetry in E. apply fmap_nil_inv in E as ->. by destruct fuel. }
  intros [Hs Hc] Hl Hn E. destruct os as [|o os]; [done|]. injection E as Ho E.
  destruct fuel as [|fuel]; simpl in *; [lia|]. rewrite (proj2 (Z.eqb_neq _ _)) by set_solver.
  destruct (links_at_vget _ _ _ _ Hs) as (e & He & _ & Hx). rewrite He. simpl.
  unfold order_at in Ho. rewrite He in Ho. injection Ho as ->. case_bool; [done|]. rewrite Hx.
  apply (IH s); [done|lia|set_solver|done].
Qed.

Lemma crossable_level sd price quantity p l rest : ∀ total, (∀ x, x ∈ l → entry_price x = p) →
  ABook.betterb sd price p = false →
  ABook.crossable sd price quantity total (l ++ rest) =
    match cross_list quantity total l.*2 with
    | inr t => t
    | inl t => ABook.crossable sd price quantity t rest
    end.
Proof.
  induction l as [|x l IH]; intros total Hl Hp; simpl; [done|].
  rewrite Hl, Hp by by left. case_bool; [done|]. apply IH; [|done]. intros y Hy. apply Hl. by right.
Qed.

Section crossing.
Context (slab : list SlabOrder) (idx : SideIndex.t) (sd : Side) (q : list entry).
Context (HS : side_rep slab idx sd q) (Hnil : kNil ∉ q.*1) (Hlen : (length q ≤ length slab)%nat).
Context (price : Price) (quantity : Quantity).

Lemma cross_from_step fuel total x : x ∈ q →
  cross_from (S fuel) slab idx sd price quantity total (Some (entry_price x)) =
    if ABook.betterb sd price (entry_price x) then Some total
    else match cross_list quantity total (at_price (entry_price x) q).*2 with
         | inr t => Some t
         | inl t => next ← next_price idx (entry_price x);
                    cross_from fuel slab idx sd price quantity t next
         end.
Proof.
  intros Hx. cbn [cross_from].
  replace (match sd with Buy => _ | Sell => _ end) with (ABook.betterb sd price (entry_price x))
    by by destruct sd.
  case_bool; [done|]. destruct (side_level _ _ _ _ x HS Hx) as (_ & -> & _).
  cbn [mbind option_bind level_of SideIndex.head].
  rewrite (cross_level_spec slab quantity _ kNil _ (at_price (entry_price x) q).*2 total).
  - done.
  - apply HS.
  - pose proof (at_price_length (entry_price x) q). unfold slots_at. rewrite length_fmap. lia.
  - by intros ?%slots_at_in.
  - eapply order_at_fmap; [done|]. by intros y [_ ?]%at_price_in.
Qed.

Lemma cross_from_spec fuel : ∀ q1 x q2 total, q = q1 ++ x :: q2 →
  (∀ y, y ∈ q1 → better sd (entry_price y) (entry_price x)) → (length (x :: q2) ≤ fuel)%nat →
  cross_from fuel slab idx sd price quantity total (Some (entry_price x)) =
    Some (ABook.crossable sd price quantity total (x :: q2)).
Proof.
  induction fuel as [|fuel IH]; intros q1 x q2 total Hq H1 Hf; [simpl in Hf; lia|].
  assert (x ∈ q) as Hx by (rewrite Hq; apply elem_of_app; right; by left).
  rewrite cross_from_step by done.
  destruct (next_level slab idx sd q HS q1 x q2 Hq H1) as (Hsplit & -> & Hbet).
  destruct (ABook.betterb sd price (entry_price x)) eqn:Hb.
  { simpl. by rewrite Hb. }
  rewrite Hsplit at 1. rewrite (crossable_level _ _ _ (entry_price x)); [|by intros y [? _]%at_price_in|done].
  destruct (cross_list _ _ _) as [t|t]; [|done].
  assert (x ∈ at_price (entry_price x) q) as Hne by by apply at_price_in.
  destruct (rest_of x q2) as [|z q3] eqn:Hr; cbn [mbind option_bind fmap option_fmap option_map list.head].
  - by destruct fuel.
  - apply (IH (q1 ++ at_price (entry_price x) q) z q3).
    + by rewrite <-app_assoc, <-Hsplit.
    + intros y Hy. apply Hbet; [done|by left].
    + rewrite Hsplit, length_app in Hf.
      destruct (at_price (entry_price x) q); [by apply not_elem_of_nil in Hne|]. simpl in *. lia.
Qed.
End crossing.

Lemma crossable_refines b a sd price quantity : Rep b a →
  sim_read (MatchingBook.crossable_quantity sd price quantity b)
    (Some (ABook.crossable sd price quantity 0 (queue sd a))).
Proof.
  intros HR r [= <-]. unfold crossable_quantity. pose proof (rp_side _ _ HR sd) as HS.
  pose proof (queue_length b a sd HR) as Hl.
  rewrite (side_empty _ _ _ _ HS). destruct (queue sd a) as [|x q] eqn:Hq; [done|].
  rewrite bool_decide_false, (side_best _ _ _ _ _ HS) by done. cbn [mbind option_bind].
  apply (cross_from_spec _ _ _ _ HS) with (q1 := []); try done.
  - intros Hk. rewrite <-Hq in Hk. by destruct (slots_bound b a sd kNil HR Hk).
  - by intros y ?%not_elem_of_nil.
  - simpl in *. lia.
Qed.

Lemma fuel_refines b a : Rep b a →
  (length (queue Buy a ++ queue Sell a) ≤ length (slab_ b))%nat.
Proof.
  intros HR. pose proof (Permutation_length (rep_slots b a Buy HR)) as Hl.
  pose proof (rp_size _ _ HR) as Hz. unfold vsize in Hz.
  rewrite !length_app, !length_fmap, length_seqZ in Hl. rewrite length_app. simpl in *. lia.
Qed.

#[export] Instance MatchingBook_refines : BookRefines MatchingBook.t ABook.t Rep.
Proof.
  split; simpl.
  - intros band _ Hb. by apply make_rep.
  - apply add_refines.
  - apply remove_at_refines.
  - intros. by apply update_at_refines.
  - intros. by apply update_at_refines.
  - apply at_refines.
  - apply front_refines.
  - apply reduce_front_refines.
  - apply remove_front_refines.
  - apply all_of_refines.
  - apply crossable_refines.
  - apply fuel_refines.
Qed.

(** What [best_bid_price] and [best_ask_price] answer. *)
Lemma best_side_price_refines b a sd : Rep b a →
  best_side_price sd b = Some (entry_price <$> hd_error (queue sd a)).
Proof.
  intros HR. pose proof (rp_side _ _ HR sd) as HS. unfold best_side_price.
  rewrite (side_empty _ _ _ _ HS). destruct (queue sd a) as [|x q]; [done|].
  rewrite bool_decide_false by done. by rewrite (side_best _ _ _ _ _ HS).
Qed.

End BookRefinement.
