(* ===== verification/Effects.v ===== *)
(** * The effects of the engine's code: state, output, failure

    A computation reads and changes a state [S], appends to an output of [E]s
    (the events it hands to its sink) and may fail ([None]: undefined behaviour
    or a C++ exception). [wp] is its total-correctness weakest precondition and
    [simulates] relates two computations that differ in the state they run on. *)

From S2P Require Import Prelude.

Definition eff (S E A : Type) : Type := S → option (A * S * list E).

Declare Scope eff_scope.
Delimit Scope eff_scope with eff.

Section effects.
Context {S E : Type}.

Definition eret {A} (a : A) : eff S E A := λ s, Some (a, s, []).

Definition ebind {A B} (m : eff S E A) (f : A → eff S E B) : eff S E B := λ s,
  match m s with
  | None => None
  | Some (a, s1, o1) =>
      match f a s1 with
      | None => None
      | Some (b, s2, o2) => Some (b, s2, o1 ++ o2)
      end
  end.

Definition efail {A} : eff S E A := λ _, None.

Definition eget : eff S E S := λ s, Some (s, s, []).

Definition eread {A} (f : S → option A) : eff S E A := λ s,
  match f s with Some a => Some (a, s, []) | None => None end.

Definition emodify (f : S → S) : eff S E unit := λ s, Some (tt, f s, []).

Definition eupdate {A} (f : S → option (A * S)) : eff S E A := λ s,
  match f s with Some (a, s') => Some (a, s', []) | None => None end.

(** The event handed to the sink is computed from the state, which it may
    advance (a counter). *)
Definition eemit (f : S → E * S) : eff S E unit := λ s,
  let '(e, s') := f s in Some (tt, s', [e]).

Lemma ebind_run {A B} (m : eff S E A) (f : A → eff S E B) s a s1 o1 b s2 o2 :
  m s = Some (a, s1, o1) → f a s1 = Some (b, s2, o2) → ebind m f s = Some (b, s2, o1 ++ o2).
Proof. unfold ebind. intros -> ->. done. Qed.

(** ** Weakest preconditions *)

Definition wp {A} (m : eff S E A) (s : S) (Q : A → S → list E → Prop) : Prop :=
  match m s with Some (a, s', o) => Q a s' o | None => False end.

Lemma wp_ret {A} (a : A) s (Q : A → S → list E → Prop) : Q a s [] → wp (eret a) s Q.
Proof. done. Qed.

Lemma wp_bind {A B} (m : eff S E A) (f : A → eff S E B) s Q :
  wp m s (λ a s1 o1, wp (f a) s1 (λ b s2 o2, Q b s2 (o1 ++ o2))) → wp (ebind m f) s Q.
Proof.
  unfold wp, ebind. destruct (m s) as [[[a s1] o1]|]; [|done].
  by destruct (f a s1) as [[[b s2] o2]|].
Qed.

Lemma wp_mono {A} (m : eff S E A) s (P Q : A → S → list E → Prop) :
  (∀ a s' o, P a s' o → Q a s' o) → wp m s P → wp m s Q.
Proof. unfold wp. destruct (m s) as [[[a s1] o1]|]; auto. Qed.

Lemma wp_elim {A} (m : eff S E A) s Q : wp m s Q → ∃ a s' o, m s = Some (a, s', o) ∧ Q a s' o.
Proof. unfold wp. destruct (m s) as [[[a s1] o1]|]; [eauto|done]. Qed.

Lemma wp_intro {A} (m : eff S E A) s a s' o (Q : A → S → list E → Prop) :
  m s = Some (a, s', o) → Q a s' o → wp m s Q.
Proof. unfold wp. by intros ->. Qed.

Lemma wp_get s (Q : S → S → list E → Prop) : Q s s [] → wp eget s Q.
Proof. done. Qed.

Lemma wp_read {A} (f : S → option A) s a (Q : A → S → list E → Prop) :
  f s = Some a → Q a s [] → wp (eread f) s Q.
Proof. unfold wp, eread. by intros ->. Qed.

Lemma wp_modify f s (Q : unit → S → list E → Prop) : Q tt (f s) [] → wp (emodify f) s Q.
Proof. done. Qed.

Lemma wp_update {A} (f : S → option (A * S)) s a s' (Q : A → S → list E → Prop) :
  f s = Some (a, s') → Q a s' [] → wp (eupdate f) s Q.
Proof. unfold wp, eupdate. by intros ->. Qed.

Lemma wp_emit f s (Q : unit → S → list E → Prop) : Q tt (f s).2 [(f s).1] → wp (eemit f) s Q.
Proof. unfold wp, eemit. by destruct (f s). Qed.
End effects.

Notation "x ← m ; k" := (ebind m (λ x, k)) (at level 20, m at level 100, k at level 200) : eff_scope.
Notation "m ;; k" := (ebind m (λ _, k)) (at level 100, k at level 200, right associativity) : eff_scope.

(** ** Simulation *)

Section simulation.
Context {S1 S2 E : Type} (R : S1 → S2 → Prop).

(** Wherever [m2] returns, [m1] returns the same value and output. *)
Definition simulates {A} (m1 : eff S1 E A) (m2 : eff S2 E A) : Prop :=
  ∀ s1 s2, R s1 s2 → ∀ a s2' o, m2 s2 = Some (a, s2', o) →
    ∃ s1', m1 s1 = Some (a, s1', o) ∧ R s1' s2'.

Lemma sim_ret {A} (a : A) : simulates (eret a) (eret a).
Proof. intros s1 s2 HR ? ? ? [= <- <- <-]. by exists s1. Qed.

Lemma sim_fail {A} (m : eff S1 E A) : simulates m efail.
Proof. by intros s1 s2 HR ? ? ?. Qed.

Lemma sim_bind {A B} (m1 : eff S1 E A) m2 (f1 : A → eff S1 E B) f2 :
  simulates m1 m2 → (∀ a, simulates (f1 a) (f2 a)) → simulates (ebind m1 f1) (ebind m2 f2).
Proof.
  intros Hm Hf s1 s2 HR b s2'' o. unfold ebind.
  destruct (m2 s2) as [[[a s2'] o1]|] eqn:E2; [|done].
  destruct (Hm _ _ HR _ _ _ E2) as (s1' & -> & HR').
  destruct (f2 a s2') as [[[b' t2] o2]|] eqn:F2; [|done]. intros [= <- <- <-].
  destruct (Hf _ _ _ HR' _ _ _ F2) as (t1 & -> & HR''). eauto.
Qed.

Lemma sim_if {A} (b : bool) (m1 n1 : eff S1 E A) m2 n2 :
  simulates m1 m2 → simulates n1 n2 → simulates (if b then m1 else n1) (if b then m2 else n2).
Proof. by destruct b. Qed.

Lemma sim_eread {A} (f1 : S1 → option A) (f2 : S2 → option A) :
  (∀ s1 s2 a, R s1 s2 → f2 s2 = Some a → f1 s1 = Some a) → simulates (eread f1) (eread f2).
Proof.
  intros H s1 s2 HR a s2' o. unfold eread. destruct (f2 s2) as [x|] eqn:E2; [|done].
  intros [= <- <- <-]. rewrite (H _ _ _ HR E2). eauto.
Qed.

Lemma sim_emodify f1 f2 : (∀ s1 s2, R s1 s2 → R (f1 s1) (f2 s2)) →
  simulates (emodify f1) (emodify f2).
Proof. intros H s1 s2 HR ? ? ? [= <- <- <-]. eexists. split; [done|]. by apply H. Qed.

Lemma sim_eupdate {A} (f1 : S1 → option (A * S1)) (f2 : S2 → option (A * S2)) :
  (∀ s1 s2 a s2', R s1 s2 → f2 s2 = Some (a, s2') → ∃ s1', f1 s1 = Some (a, s1') ∧ R s1' s2') →
  simulates (eupdate f1) (eupdate f2).
Proof.
  intros H s1 s2 HR a s2' o. unfold eupdate. destruct (f2 s2) as [[x y]|] eqn:E2; [|done].
  intros [= <- <- <-]. destruct (H _ _ _ _ HR E2) as (s1' & -> & ?). eauto.
Qed.

Lemma sim_eemit f1 f2 : (∀ s1 s2, R s1 s2 → (f1 s1).1 = (f2 s2).1 ∧ R (f1 s1).2 (f2 s2).2) →
  simulates (eemit f1) (eemit f2).
Proof.
  intros H s1 s2 HR a s2' o. unfold eemit. destruct (H _ _ HR) as [E1 E2].
  destruct (f1 s1), (f2 s2). simpl in *. intros [= <- <- <-]. subst. eauto.
Qed.
End simulation.
