(* ===== verification/MatchingEngine.v ===== *)
(** * The matching engine

    [MatchingEngine] of [include/exchange/matching/matching_engine.hpp] and
    [src/exchange/matching/matching_engine.cpp], over any order book that has the
    operations of [BookOps]. A handler is a computation of [eff]: its state is
    the engine, its output the events handed to the sink, in order. [None] is
    undefined behaviour, [std::out_of_range] thrown by [orders_.at], or the
    matching loop running out of fuel; [EngineTotal] proves that none of them
    happens. *)

From S2P Require Import Prelude.
From S2P Require Import Types.
From S2P Require Import Effects.
From S2P Require Import MatchingBook.
From S2P Require Import BookSpec.

Module MatchingEngine.

Definition kMaxInstrumentId : Z := 2 ^ 22 - 1.
Definition kLadderByteBudget : Z := 8 * 2 ^ 20.
Definition kNoSlot : Z := 2 ^ 32 - 1.
Definition kDefaultExpectedRestingOrders : Z := 1024.

Record OrderRef := mkOrderRef {
  or_original_quantity : Quantity;
  or_order_sequence : Z;
  or_handle : Z;
  or_instrument_id : InstrumentId;
}.

(** The account and the client order id. *)
Abbreviation LiveKey := (Z * Z)%type.

Section engine.
Context {B : Type} `{BookOps B}.

Record t := mk {
  slot_of_id_ : list Z;
  books_ : list B;
  expected_orders_per_book_ : Z;
  band_ticks_ : Z;
  by_id_ : list (InstrumentId * Z);
  orders_ : gmap LiveKey OrderRef;
  next_exchange_order_id_ : ExchangeOrderId;
  next_event_sequence_ : EventSequence;
  next_priority_ : Z;
}.

Definition with_books (bs : list B) (e : t) : t :=
  mk (slot_of_id_ e) bs (expected_orders_per_book_ e) (band_ticks_ e) (by_id_ e)
    (orders_ e) (next_exchange_order_id_ e) (next_event_sequence_ e) (next_priority_ e).

Definition with_orders (m : gmap LiveKey OrderRef) (e : t) : t :=
  mk (slot_of_id_ e) (books_ e) (expected_orders_per_book_ e) (band_ticks_ e) (by_id_ e)
    m (next_exchange_order_id_ e) (next_event_sequence_ e) (next_priority_ e).

Definition with_counters (oid seq pri : Z) (e : t) : t :=
  mk (slot_of_id_ e) (books_ e) (expected_orders_per_book_ e) (band_ticks_ e) (by_id_ e)
    (orders_ e) oid seq pri.

(** ** Instruments *)

Definition knows_instrument (id : InstrumentId) (e : t) : bool :=
  match vget (slot_of_id_ e) id with
  | Some slot => negb (slot =? kNoSlot)
  | None => false
  end.

Definition instrument_count (e : t) : Z := vsize (books_ e).

(** [std::vector::resize(n, kNoSlot)], here only ever growing. *)
Definition grow_slots (n : Z) (slots : list Z) : list Z :=
  slots ++ replicate (Z.to_nat n - length slots) kNoSlot.

(** [by_id_.insert(std::lower_bound(...), entry)] on the sorted vector. *)
Fixpoint insert_by_id (id slot : Z) (l : list (Z * Z)) : list (Z * Z) :=
  match l with
  | [] => [(id, slot)]
  | (id', slot') :: l' =>
      if id' <? id then (id', slot') :: insert_by_id id slot l' else (id, slot) :: l
  end.

Definition register_instrument (id : InstrumentId) (e : t) : option (bool * t) :=
  if (kMaxInstrumentId <? id) || knows_instrument id e then Some (false, e)
  else
    let slots := if vsize (slot_of_id_ e) <=? id then grow_slots (id + 1) (slot_of_id_ e)
                 else slot_of_id_ e in
    let slot := u32 (vsize (books_ e)) in
    let band := Z.min (band_ticks_ e)
                  (MatchingBook.band_for (vsize (books_ e) + 1) kLadderByteBudget) in
    match vset slots id slot with
    | None => None
    | Some slots =>
        Some (true, mk slots (books_ e ++ [book_make band]) (expected_orders_per_book_ e) band
                (insert_by_id id slot (by_id_ e)) (orders_ e) (next_exchange_order_id_ e)
                (next_event_sequence_ e) (next_priority_ e))
    end.

Definition widest (universe : list InstrumentId) : InstrumentId :=
  foldl (λ w id, if id <=? kMaxInstrumentId then Z.max w id else w) 0 universe.

Definition register_all (universe : list InstrumentId) (e : t) : option t :=
  foldl (λ acc id, e ← acc; '(_, e) ← register_instrument id e; Some e) (Some e) universe.

(** The constructor. *)
Definition make (universe : list InstrumentId) (expected_resting_orders : Z) : option t :=
  let n := vsize universe in
  let e := mk [] [] 0 MatchingBook.kMaxBandTicks [] ∅ 1 1 1 in
  let e := match universe with
           | [] => e
           | _ => mk (replicate (Z.to_nat (widest universe + 1)) kNoSlot) []
                    (expected_resting_orders / n) (MatchingBook.band_for n kLadderByteBudget)
                    [] ∅ 1 1 1
           end in
  register_all universe e.

(** ** State access *)

Abbreviation M := (eff t ExchangeEvent).

Definition lookup_order (key : LiveKey) : M (option OrderRef) :=
  eread (λ e, Some (orders_ e !! key)).

Definition insert_or_assign (key : LiveKey) (ref : OrderRef) : M unit :=
  emodify (λ e, with_orders (<[key := ref]> (orders_ e)) e).

Definition erase_order (key : LiveKey) : M unit :=
  emodify (λ e, with_orders (delete key (orders_ e)) e).

(** [books_[slot_of_id_[instrument_id]]] *)
Definition book_for (id : InstrumentId) (e : t) : option B :=
  slot ← vget (slot_of_id_ e) id; vget (books_ e) slot.

Definition set_book (id : InstrumentId) (b : B) (e : t) : option t :=
  slot ← vget (slot_of_id_ e) id; bs ← vset (books_ e) slot b; Some (with_books bs e).

Definition on_book {A} (id : InstrumentId) (f : B → option A) : M A :=
  eread (λ e, b ← book_for id e; f b).

Definition change_book {A} (id : InstrumentId) (f : B → option (A * B)) : M A :=
  eupdate (λ e, b ← book_for id e; '(a, b) ← f b; e ← set_book id b e; Some (a, e)).

(** A book operation that returns nothing. *)
Definition change_book_ (id : InstrumentId) (f : B → option B) : M unit :=
  change_book id (λ b, b ← f b; Some (tt, b)).

(** [sink(Event{.event_sequence = next_event_sequence_++, ...})] *)
Definition sink (ev : EventSequence → ExchangeEvent) : M unit :=
  eemit (λ e, (ev (next_event_sequence_ e),
               with_counters (next_exchange_order_id_ e)
                 (u64 (next_event_sequence_ e + 1)) (next_priority_ e) e)).

(** [next_exchange_order_id_++] *)
Definition take_exchange_order_id : M ExchangeOrderId :=
  eupdate (λ e, Some (next_exchange_order_id_ e,
                      with_counters (u64 (next_exchange_order_id_ e + 1))
                        (next_event_sequence_ e) (next_priority_ e) e)).

(** [next_priority_++] *)
Definition take_priority : M Z :=
  eupdate (λ e, Some (next_priority_ e,
                      with_counters (next_exchange_order_id_ e) (next_event_sequence_ e)
                        (u64 (next_priority_ e + 1)) e)).

(** ** Rejections *)

Definition reject_new_order (command : NewOrderCommand) (reason : RejectReason) : M unit :=
  sink (λ n, EvRejected (mkOrderRejected n (no_command_sequence command)
    (no_account_id command) (no_client_order_id command) (no_instrument_id command) reason)).

Definition reject_replace_order (command : ReplaceOrderCommand) (reason : RejectReason) : M unit :=
  sink (λ n, EvRejected (mkOrderRejected n (ro_command_sequence command)
    (ro_account_id command) (ro_original_client_order_id command) (ro_instrument_id command) reason)).

Definition reject_cancel (command : CancelOrderCommand) (reason : RejectReason) : M unit :=
  sink (λ n, EvRejected (mkOrderRejected n (co_command_sequence command)
    (co_account_id command) (co_client_order_id command) (co_instrument_id command) reason)).

(** ** Matching *)

Definition crosses (side : Side) (price contra_price : Price) : bool :=
  match side with Buy => contra_price <=? price | Sell => price <=? contra_price end.

(** One iteration of the loop of [match_and_rest], with the contra order it
    read: the trade, and the resting order's removal or reduction. The result
    is [incoming] with its remaining quantity. *)
Definition match_step (incoming : ExchangeRestingOrder) (command_sequence : CommandSequence)
    (contra_order : BookOrder) : M ExchangeRestingOrder := (
  let contra_side := contra (ero_side incoming) in
  let id := ero_instrument_id incoming in
  let trade_qty := Z.min (ero_remaining_quantity incoming) (bo_remaining_quantity contra_order) in
  let incoming := ero_with_remaining (u64 (ero_remaining_quantity incoming - trade_qty)) incoming in
  let contra_remaining_after := u64 (bo_remaining_quantity contra_order - trade_qty) in
  let aggressor_cp := mkCounterparty (ero_account_id incoming) (ero_client_order_id incoming)
    (ero_exchange_order_id incoming) (ero_remaining_quantity incoming) in
  let resting_cp := mkCounterparty (bo_account_id contra_order) (bo_client_order_id contra_order)
    (bo_exchange_order_id contra_order) contra_remaining_after in
  sink (λ n, EvTrade (mkTradeExecuted n command_sequence id (bo_price contra_order) trade_qty
    (ero_side incoming)
    (match ero_side incoming with Buy => aggressor_cp | Sell => resting_cp end)
    (match ero_side incoming with Buy => resting_cp | Sell => aggressor_cp end))) ;;
  (if contra_remaining_after =? 0 then
     change_book_ id (book_remove_front contra_side) ;;
     erase_order (bo_account_id contra_order, bo_client_order_id contra_order) ;;
     sink (λ n, EvRemoved (mkBookOrderRemoved n id (bo_exchange_order_id contra_order)
       (bo_side contra_order) (bo_price contra_order)))
   else
     change_book_ id (book_reduce_front contra_side contra_remaining_after) ;;
     sink (λ n, EvReduced (mkBookOrderReduced n id (bo_exchange_order_id contra_order)
       (bo_side contra_order) (bo_price contra_order) contra_remaining_after))) ;;
  eret incoming)%eff.

Fixpoint match_loop (fuel : nat) (incoming : ExchangeRestingOrder)
    (command_sequence : CommandSequence) : M ExchangeRestingOrder := (
  if negb (0 <? ero_remaining_quantity incoming) then eret incoming
  else
    front ← on_book (ero_instrument_id incoming) (book_front (contra (ero_side incoming)));
    match front with
    | None => eret incoming
    | Some contra_order =>
        if negb (crosses (ero_side incoming) (ero_price incoming) (bo_price contra_order))
        then eret incoming
        else
          match fuel with
          | O => efail
          | S fuel =>
              incoming ← match_step incoming command_sequence contra_order;
              match_loop fuel incoming command_sequence
          end
    end)%eff.

(** Every iteration but the last removes an order from the book, so there are
    at most as many iterations as orders, plus one. *)
Definition match_and_rest (incoming : ExchangeRestingOrder) (command_sequence : CommandSequence) :
    M ExchangeRestingOrder := (
  fuel ← on_book (ero_instrument_id incoming) (λ b, Some (S (book_fuel b)));
  match_loop fuel incoming command_sequence)%eff.

Definition rest_remainder_if_applicable (order : ExchangeRestingOrder) : M unit := (
  if negb (bool_decide (ero_time_in_force order = GTC)) || (ero_remaining_quantity order =? 0)
  then eret tt
  else
    handle ← change_book (ero_instrument_id order)
      (book_add (mkBookOrder (ero_exchange_order_id order) (ero_client_order_id order)
        (ero_account_id order) (ero_price order) (ero_remaining_quantity order)
        (ero_side order) (ero_time_in_force order)));
    insert_or_assign (ero_account_id order, ero_client_order_id order)
      (mkOrderRef (ero_original_quantity order) (ero_order_sequence order) handle
        (ero_instrument_id order)) ;;
    sink (λ n, EvAdded (mkBookOrderAdded n (ero_instrument_id order) (ero_exchange_order_id order)
      (ero_side order) (ero_price order) (ero_remaining_quantity order))))%eff.

(** ** Handlers *)

(** The part of [process_new_order] after its checks. *)
Definition accept_new_order (cmd : NewOrderCommand) : M unit := (
  exchange_order_id ← take_exchange_order_id;
  priority ← take_priority;
  let order := mkRestingOrder exchange_order_id (no_client_order_id cmd) (no_account_id cmd)
    (no_price cmd) (no_quantity cmd) (no_quantity cmd) priority (no_instrument_id cmd)
    (no_side cmd) (no_time_in_force cmd) in
  sink (λ n, EvAccepted (mkOrderAccepted n (no_command_sequence cmd) (no_account_id cmd)
    (no_client_order_id cmd) exchange_order_id (no_instrument_id cmd) (no_side cmd)
    (no_price cmd) (no_quantity cmd) (no_order_type cmd) (no_time_in_force cmd))) ;;
  order ← match_and_rest order (no_command_sequence cmd);
  rest_remainder_if_applicable order)%eff.

Definition process_new_order (cmd : NewOrderCommand) : M unit := (
  e ← eget;
  if negb (knows_instrument (no_instrument_id cmd) e) then
    reject_new_order cmd RejectReason.InvalidInstrument
  else if no_price cmd <=? 0 then reject_new_order cmd RejectReason.InvalidPrice
  else if no_quantity cmd =? 0 then reject_new_order cmd RejectReason.InvalidQuantity
  else
    live ← lookup_order (no_account_id cmd, no_client_order_id cmd);
    if bool_decide (is_Some live) then reject_new_order cmd RejectReason.DuplicateOrderId
    else if bool_decide (no_time_in_force cmd = FOK) then
      available ← on_book (no_instrument_id cmd)
        (book_crossable (contra (no_side cmd)) (no_price cmd) (no_quantity cmd));
      if available <? no_quantity cmd
      then reject_new_order cmd RejectReason.InsufficientLiquidity
      else accept_new_order cmd
    else accept_new_order cmd)%eff.

Definition process_cancel (cmd : CancelOrderCommand) : M unit := (
  e ← eget;
  if negb (knows_instrument (co_instrument_id cmd) e) then
    reject_cancel cmd RejectReason.InvalidInstrument
  else
    live ← lookup_order (co_account_id cmd, co_client_order_id cmd);
    match live with
    | None => reject_cancel cmd RejectReason.UnknownOrderId
    | Some ref =>
        if negb (or_instrument_id ref =? co_instrument_id cmd)
        then reject_cancel cmd RejectReason.UnknownOrderId
        else
          erase_order (co_account_id cmd, co_client_order_id cmd) ;;
          removed ← change_book (co_instrument_id cmd) (book_remove_at (or_handle ref));
          sink (λ n, EvCancelled (mkOrderCancelled n (co_command_sequence cmd)
            (co_account_id cmd) (co_client_order_id cmd) (bo_exchange_order_id removed)
            (co_instrument_id cmd))) ;;
          sink (λ n, EvRemoved (mkBookOrderRemoved n (co_instrument_id cmd)
            (bo_exchange_order_id removed) (bo_side removed) (bo_price removed)))
    end)%eff.

(** The priority-preserving path of [process_replace]. *)
Definition replace_in_place (cmd : ReplaceOrderCommand) (ref : OrderRef) (resting : BookOrder) :
    M unit := (
  change_book_ (ro_instrument_id cmd) (book_reduce_at (or_handle ref) (ro_new_quantity cmd)) ;;
  change_book_ (ro_instrument_id cmd)
    (book_set_client_order_id_at (or_handle ref) (ro_new_client_order_id cmd)) ;;
  erase_order (ro_account_id cmd, ro_original_client_order_id cmd) ;;
  insert_or_assign (ro_account_id cmd, ro_new_client_order_id cmd) ref ;;
  sink (λ n, EvReplaced (mkOrderReplaced n (ro_command_sequence cmd) (ro_account_id cmd)
    (ro_original_client_order_id cmd) (ro_new_client_order_id cmd)
    (bo_exchange_order_id resting) (ro_instrument_id cmd) (ro_new_price cmd)
    (ro_new_quantity cmd))) ;;
  sink (λ n, EvReduced (mkBookOrderReduced n (ro_instrument_id cmd)
    (bo_exchange_order_id resting) (bo_side resting) (bo_price resting) (ro_new_quantity cmd))))%eff.

(** The priority-losing path: cancel plus new. *)
Definition replace_as_new (cmd : ReplaceOrderCommand) (ref : OrderRef) (resting : BookOrder) :
    M unit := (
  change_book (ro_instrument_id cmd) (book_remove_at (or_handle ref)) ;;
  erase_order (ro_account_id cmd, ro_original_client_order_id cmd) ;;
  new_exchange_order_id ← take_exchange_order_id;
  sink (λ n, EvReplaced (mkOrderReplaced n (ro_command_sequence cmd) (ro_account_id cmd)
    (ro_original_client_order_id cmd) (ro_new_client_order_id cmd)
    new_exchange_order_id (ro_instrument_id cmd) (ro_new_price cmd) (ro_new_quantity cmd))) ;;
  sink (λ n, EvRemoved (mkBookOrderRemoved n (ro_instrument_id cmd)
    (bo_exchange_order_id resting) (bo_side resting) (bo_price resting))) ;;
  priority ← take_priority;
  let new_order := mkRestingOrder new_exchange_order_id (ro_new_client_order_id cmd)
    (ro_account_id cmd) (ro_new_price cmd) (ro_new_quantity cmd) (ro_new_quantity cmd) priority
    (ro_instrument_id cmd) (bo_side resting) (bo_time_in_force resting) in
  new_order ← match_and_rest new_order (ro_command_sequence cmd);
  rest_remainder_if_applicable new_order)%eff.

Definition process_replace (cmd : ReplaceOrderCommand) : M unit := (
  e ← eget;
  if negb (knows_instrument (ro_instrument_id cmd) e) then
    reject_replace_order cmd RejectReason.InvalidInstrument
  else if (ro_new_price cmd <=? 0) || (ro_new_quantity cmd =? 0) then
    reject_replace_order cmd RejectReason.InvalidReplacement
  else
    live ← lookup_order (ro_account_id cmd, ro_original_client_order_id cmd);
    match live with
    | None => reject_replace_order cmd RejectReason.UnknownOrderId
    | Some ref =>
        if negb (or_instrument_id ref =? ro_instrument_id cmd)
        then reject_replace_order cmd RejectReason.UnknownOrderId
        else
          resting ← on_book (ro_instrument_id cmd) (book_at (or_handle ref));
          if (ro_new_price cmd =? bo_price resting)
             && (ro_new_quantity cmd <=? bo_remaining_quantity resting)
          then replace_in_place cmd ref resting
          else replace_as_new cmd ref resting
    end)%eff.

Definition process (command : ExchangeCommand) : M unit :=
  match command with
  | CmdNew cmd => process_new_order cmd
  | CmdCancel cmd => process_cancel cmd
  | CmdReplace cmd => process_replace cmd
  end.

(** A whole run: the commands in order, every event of each. *)
Fixpoint run (commands : list ExchangeCommand) : M unit := (
  match commands with
  | [] => eret tt
  | c :: commands => process c ;; run commands
  end)%eff.

(** ** Snapshots *)

(** [None]: [orders_.at] throws. *)
Definition compose (order : BookOrder) (instrument_id : InstrumentId) (e : t) :
    option ExchangeRestingOrder :=
  ref ← orders_ e !! (bo_account_id order, bo_client_order_id order);
  Some (mkRestingOrder (bo_exchange_order_id order) (bo_client_order_id order)
    (bo_account_id order) (bo_price order) (or_original_quantity ref)
    (bo_remaining_quantity order) (or_order_sequence ref) instrument_id
    (bo_side order) (bo_time_in_force order)).

Definition compose_side (side : Side) (instrument_id : InstrumentId) (book : B) (e : t) :
    option (list ExchangeRestingOrder) :=
  orders ← book_all_of side book;
  mapM (λ order, compose order instrument_id e) orders.

Definition snapshot_book (entry : InstrumentId * Z) (e : t) :
    option (list InstrumentBookSnapshot) :=
  book ← vget (books_ e) entry.2;
  bids ← compose_side Buy entry.1 book e;
  asks ← compose_side Sell entry.1 book e;
  match bids, asks with
  | [], [] => Some []
  | _, _ => Some [mkBookSnapshot entry.1 bids asks]
  end.

Definition snapshot (e : t) : option EngineStateSnapshot :=
  books ← mapM (λ entry, snapshot_book entry e) (by_id_ e); Some (concat books).

End engine.
Arguments t : clear implicits.

(** [MatchingEngine::out_of_band_levels], of an engine over the real book. *)
Definition out_of_band_levels (e : t MatchingBook.t) : Z :=
  foldl (λ total b, total + MatchingBook.out_of_band_levels b) 0 (books_ e).

(** The engine as it is built: over [MatchingBook]. *)
Abbreviation engine := (t MatchingBook.t) (only parsing).

End MatchingEngine.
