(* ===== verification/EngineRefinement.v ===== *)
(** * Refinement lifts from books to the engine

    An engine over a book that refines another ([BookRefines]) simulates the
    engine over that other book: same events, same snapshots, related states. *)

From S2P Require Import Prelude.
From S2P Require Import Types.
From S2P Require Import Effects.
From S2P Require Import MatchingBook.
From S2P Require Import BookSpec.
From S2P Require Import MatchingEngine.

Module EngineRefinement.
Import MatchingEngine.

Lemma bit_floor_bound z n : 0 ≤ z ≤ 2 ^ n → 0 ≤ n → 0 ≤ MatchingBook.bit_floor z ≤ 2 ^ n.
Proof.
  intros Hz Hn. unfold MatchingBook.bit_floor. destruct (Z.eqb_spec z 0); [lia|].
  pose proof (Z.log2_spec z ltac:(lia)). pose proof (Z.pow_nonneg 2 (Z.log2 z)). lia.
Qed.

Lemma band_for_bound n budget : 0 ≤ n → 0 ≤ budget →
  0 ≤ MatchingBook.band_for n budget ≤ MatchingBook.kMaxBandTicks.
Proof.
  intros Hn Hb. unfold MatchingBook.band_for.
  destruct (Z.eqb_spec n 0); [unfold MatchingBook.kMaxBandTicks; lia|].
  set (ticks := budget / n / _). assert (0 ≤ ticks).
  { apply Z.div_pos; [apply Z.div_pos; lia|]. unfold MatchingBook.level_slot_bytes. lia. }
  case_bool; [unfold MatchingBook.kMaxBandTicks; lia|].
  rewrite u32_small by (unfold in_u32, MatchingBook.kMaxBandTicks; lia).
  apply (bit_floor_bound _ 13); unfold MatchingBook.kMaxBandTicks; lia.
Qed.

(** Growing the id table for [id] registers nothing. *)
Lemma grown_slots id slots : 0 ≤ id →
  let slots' := if vsize slots <=? id then grow_slots (id + 1) slots else slots in
  id < vsize slots' ∧ ∀ id' s, s ≠ kNoSlot → vget slots' id' = Some s ↔ vget slots id' = Some s.
Proof.
  intros Hid. cbv zeta. destruct (Z.leb_spec (vsize slots) id) as [Hle|Hle]; [|done].
  unfold grow_slots. assert (length slots ≤ Z.to_nat id)%nat as Hl by (unfold vsize in Hle; lia).
  split; [unfold vsize; rewrite length_app, length_replicate; lia|].
  intros id' s Hs. split.
  - intros [H0 [Hv|[_ Hv]]%lookup_app_Some]%vget_Some; [by apply vget_Some|].
    by apply lookup_replicate in Hv as [-> _].
  - intros Hv. rewrite vget_app_l; [done|]. apply vget_lt in Hv; lia.
Qed.

(** The slots after [id] took the slot [slot]. *)
Lemma registered_slots id slot slots : 0 ≤ id → slot ≠ kNoSlot →
  ∃ slots', vset (if vsize slots <=? id then grow_slots (id + 1) slots else slots) id slot = Some slots' ∧
    ∀ id' s, s ≠ kNoSlot → vget slots' id' = Some s ↔
      (id' = id ∧ s = slot) ∨ (id' ≠ id ∧ vget slots id' = Some s).
Proof.
  intros Hid Hslot. destruct (grown_slots id slots Hid) as [Hlt Hold].
  rewrite vset_Some by lia. eexists. split; [done|].
  intros id' s Hs. rewrite vget_vput by lia. case_decide; [naive_solver|].
  rewrite Hold by done. tauto.
Qed.

Lemma knows_slot {B} id (e : t B) : knows_instrument id e = true ↔
  ∃ s, vget (slot_of_id_ e) id = Some s ∧ s ≠ kNoSlot.
Proof.
  unfold knows_instrument. destruct (vget (slot_of_id_ e) id) as [slot|].
  - rewrite negb_true_iff, Z.eqb_neq. split; [eauto|]. by intros (s & [= <-] & ?).
  - split; [done|]. by intros (s & ? & _).
Qed.

Section refinement.
Context {B A : Type} `{HB : BookOps B, HA : BookOps A} (R : B → A → Prop).
Context `{!BookRefines B A R}.

(** The two engines may have sized their id tables differently and may give their
    books different bands: neither is observable. *)
Record ER (e : t B) (f : t A) : Prop := {
  er_slots : ∀ id s, s ≠ kNoSlot →
    vget (slot_of_id_ e) id = Some s ↔ vget (slot_of_id_ f) id = Some s;
  er_books : Forall2 R (books_ e) (books_ f);
  er_small : vsize (books_ f) ≤ kNoSlot;
  er_band_range : 0 ≤ band_ticks_ e ≤ MatchingBook.kMaxBandTicks;
  er_by_id : by_id_ e = by_id_ f;
  er_orders : orders_ e = orders_ f;
  er_oid : next_exchange_order_id_ e = next_exchange_order_id_ f;
  er_seq : next_event_sequence_ e = next_event_sequence_ f;
  er_pri : next_priority_ e = next_priority_ f;
}.

Abbreviation sim := (simulates ER).

Lemma Forall2_vget (l : list B) (k : list A) i a : Forall2 R l k → vget k i = Some a →
  ∃ b, vget l i = Some b ∧ R b a.
Proof.
  intros HF [Hi Ha]%vget_Some. destruct (Forall2_lookup_r _ _ _ _ _ HF Ha) as (b & Hb & ?).
  exists b. split; [|done]. by apply vget_Some.
Qed.

Lemma Forall2_vput (l : list B) (k : list A) i b a :
  Forall2 R l k → R b a → Forall2 R (vput l i b) (vput k i a).
Proof. intros. by apply Forall2_insert. Qed.

Lemma Forall2_vsize (l : list B) (k : list A) : Forall2 R l k → vsize l = vsize k.
Proof. intros H%Forall2_length. unfold vsize. by rewrite H. Qed.

(** A slot that holds a book is not the sentinel. *)
Lemma er_slot e f id s : ER e f → vget (slot_of_id_ f) id = Some s →
  0 ≤ s < vsize (books_ f) → vget (slot_of_id_ e) id = Some s.
Proof.
  intros HE Hs Hlt. apply (er_slots _ _ HE); [|done]. pose proof (er_small _ _ HE). lia.
Qed.

Lemma er_book_for e f id a : ER e f → book_for id f = Some a →
  ∃ b, book_for id e = Some b ∧ R b a.
Proof.
  intros HE. unfold book_for. destruct (vget (slot_of_id_ f) id) as [slot|] eqn:Hs; simpl; [|done].
  intros Ha. rewrite (er_slot _ _ _ _ HE Hs (vget_lt _ _ _ Ha)). simpl.
  eapply Forall2_vget; [apply HE|done].
Qed.

Lemma er_knows e f id : ER e f → knows_instrument id e = knows_instrument id f.
Proof.
  intros HE. apply eq_true_iff_eq. rewrite !knows_slot.
  split; intros (s & Hv & Hs); exists s; (split; [|done]); by apply (er_slots _ _ HE).
Qed.

Lemma er_set_book e f id b a f' : ER e f → R b a → set_book id a f = Some f' →
  ∃ e', set_book id b e = Some e' ∧ ER e' f'.
Proof.
  intros HE HR. unfold set_book.
  destruct (vget (slot_of_id_ f) id) as [slot|] eqn:Hv; simpl; [|done].
  intros (bs & [Hs ->]%vset_inv & [= <-])%bind_Some. rewrite (er_slot _ _ _ _ HE Hv Hs). simpl.
  pose proof (er_books _ _ HE) as HF. rewrite vset_Some by (by rewrite (Forall2_vsize _ _ HF)).
  simpl. eexists. split; [done|]. destruct HE. split; try done; [by apply Forall2_vput|].
  simpl. by rewrite vsize_vput.
Qed.

Lemma sim_on_book {X} id (g : B → option X) (h : A → option X) :
  (∀ b a, R b a → sim_read (g b) (h a)) → sim (on_book id g) (on_book id h).
Proof.
  intros H. apply sim_eread. intros e f x HE.
  destruct (book_for id f) as [a|] eqn:Ha; [|done]. simpl. intros Hx.
  destruct (er_book_for _ _ _ _ HE Ha) as (b & -> & HR). simpl. by apply (H b a HR).
Qed.

Lemma sim_change_book {X} id (g : B → option (X * B)) (h : A → option (X * A)) :
  (∀ b a, R b a → sim_result R (g b) (h a)) → sim (change_book id g) (change_book id h).
Proof.
  intros H. apply sim_eupdate. intros e f x f' HE.
  destruct (book_for id f) as [a|] eqn:Ha; [|done]. simpl.
  destruct (h a) as [[y a']|] eqn:Hh; [|done]. simpl.
  intros (f2 & Hs & [= <- <-])%bind_Some.
  destruct (er_book_for _ _ _ _ HE Ha) as (b & -> & HR). simpl.
  destruct (H b a HR _ _ Hh) as (b' & -> & HR'). simpl.
  destruct (er_set_book _ _ _ _ _ _ HE HR' Hs) as (e' & -> & ?). simpl. eauto.
Qed.

Lemma sim_change_book_ id (g : B → option B) (h : A → option A) :
  (∀ b a, R b a → sim_state R (g b) (h a)) → sim (change_book_ id g) (change_book_ id h).
Proof.
  intros H. apply sim_change_book. intros b a HR x a'.
  destruct (h a) as [a2|] eqn:Ha; [|done]. simpl. intros [= <- <-].
  destruct (H b a HR _ Ha) as (b' & -> & ?). simpl. eauto.
Qed.

Lemma sim_sink ev : sim (sink ev) (sink ev).
Proof. apply sim_eemit. intros e f []. simpl. split; [congruence|]. split; simpl; done || congruence. Qed.

Lemma sim_take_id : sim take_exchange_order_id take_exchange_order_id.
Proof.
  apply sim_eupdate. intros e f x f' [] [= <- <-]. eexists. split; [by f_equal; f_equal|].
  split; simpl; done || congruence.
Qed.

Lemma sim_take_priority : sim take_priority take_priority.
Proof.
  apply sim_eupdate. intros e f x f' [] [= <- <-]. eexists. split; [by f_equal; f_equal|].
  split; simpl; done || congruence.
Qed.

Lemma sim_lookup key : sim (lookup_order key) (lookup_order key).
Proof. apply sim_eread. intros e f x [] [= <-]. congruence. Qed.

Lemma sim_insert key ref : sim (insert_or_assign key ref) (insert_or_assign key ref).
Proof. apply sim_emodify. intros e f []. split; simpl; done || congruence. Qed.

Lemma sim_erase key : sim (erase_order key) (erase_order key).
Proof. apply sim_emodify. intros e f []. split; simpl; done || congruence. Qed.

(** [eget] is used only to ask [knows_instrument]. *)
Lemma sim_knows id (m1 n1 : eff (t B) ExchangeEvent unit) m2 n2 : sim m1 m2 → sim n1 n2 →
  sim (ebind eget (λ e, if negb (knows_instrument id e) then m1 else n1))
      (ebind eget (λ e, if negb (knows_instrument id e) then m2 else n2)).
Proof.
  intros Hm Hn e f HE. unfold ebind, eget. rewrite (er_knows _ _ _ HE).
  intros a f' o. destruct (negb _).
  - specialize (Hm e f HE). destruct (m2 f) as [[[u s] o']|]; [|done]. intros [= <- <- <-].
    destruct (Hm _ _ _ eq_refl) as (e' & -> & ?). eauto.
  - specialize (Hn e f HE). destruct (n2 f) as [[[u s] o']|]; [|done]. intros [= <- <- <-].
    destruct (Hn _ _ _ eq_refl) as (e' & -> & ?). eauto.
Qed.

Hint Resolve sim_ret sim_fail sim_sink sim_take_id sim_take_priority sim_lookup sim_insert sim_erase
  sim_on_book sim_change_book sim_change_book_ ref_add ref_remove_at ref_reduce_at ref_set_client
  ref_at ref_front ref_reduce_front ref_remove_front ref_crossable : core.

(** One constructor of the code at a time. *)
Ltac sim_step :=
  first
    [ solve [eauto] | apply sim_knows | apply sim_bind; [|intros ?]
    | match goal with |- simulates _ (if ?b then _ else _) _ => destruct b end
    | match goal with |- simulates _ (match ?x with _ => _ end) _ => destruct x end ].

Lemma sim_match_step incoming cs c : sim (match_step incoming cs c) (match_step incoming cs c).
Proof. unfold match_step. repeat sim_step. Qed.

Lemma sim_match_loop n m incoming cs : (n ≤ m)%nat →
  sim (match_loop m incoming cs) (match_loop n incoming cs).
Proof.
  revert m incoming. induction n as [|n IH]; intros [|m] incoming Hm; try lia; simpl;
    repeat sim_step; first [apply sim_match_step|apply IH; lia].
Qed.

Lemma sim_match_and_rest incoming cs : sim (match_and_rest incoming cs) (match_and_rest incoming cs).
Proof.
  intros e f HE x f' o. unfold match_and_rest, on_book, ebind, eread.
  destruct (book_for _ f) as [a|] eqn:Ha; [|done]. cbn [mbind option_bind].
  destruct (er_book_for _ _ _ _ HE Ha) as (b & -> & HR). cbn [mbind option_bind].
  assert (book_fuel a ≤ book_fuel b)%nat as Hf by by apply (ref_fuel (R := R)).
  destruct (match_loop (S (book_fuel a)) incoming cs f) as [[[y f2] o2]|] eqn:E; [|done].
  intros [= <- <- <-].
  destruct (sim_match_loop (S (book_fuel a)) (S (book_fuel b)) incoming cs (le_n_S _ _ Hf) e f HE _ _ _ E)
    as (e' & -> & ?). eauto.
Qed.

Lemma sim_rest order : sim (rest_remainder_if_applicable order) (rest_remainder_if_applicable order).
Proof. unfold rest_remainder_if_applicable. repeat sim_step. Qed.

Hint Resolve sim_match_and_rest sim_rest : core.

Lemma sim_accept cmd : sim (accept_new_order cmd) (accept_new_order cmd).
Proof. unfold accept_new_order. repeat sim_step. Qed.

Lemma sim_replace_in_place cmd ref o : sim (replace_in_place cmd ref o) (replace_in_place cmd ref o).
Proof. unfold replace_in_place. repeat sim_step. Qed.

Lemma sim_replace_as_new cmd ref o : sim (replace_as_new cmd ref o) (replace_as_new cmd ref o).
Proof. unfold replace_as_new. repeat sim_step. Qed.

Hint Resolve sim_accept sim_replace_in_place sim_replace_as_new : core.

Lemma sim_process c : sim (process c) (process c).
Proof.
  destruct c; simpl; [unfold process_new_order|unfold process_cancel|unfold process_replace];
    unfold reject_new_order, reject_cancel, reject_replace_order; repeat sim_step.
Qed.

Lemma sim_run cs : sim (run cs) (run cs).
Proof. induction cs as [|c cs IH]; simpl; [apply sim_ret|apply sim_bind; [apply sim_process|done]]. Qed.

(** ** Construction and snapshots *)

Lemma er_register e f id r f' : ER e f → 0 ≤ id → vsize (books_ f) < kNoSlot →
  register_instrument id f = Some (r, f') →
  ∃ e', register_instrument id e = Some (r, e') ∧ ER e' f' ∧ vsize (books_ f') ≤ vsize (books_ f) + 1.
Proof.
  intros HE Hid Hsz. unfold register_instrument. rewrite (er_knows _ _ _ HE).
  case_bool; [intros [= <- <-]; exists e; split; [done|split; [done|lia]]|].
  rewrite (Forall2_vsize _ _ (er_books _ _ HE)).
  pose proof (vsize_nonneg (books_ f)) as H0.
  rewrite u32_small by (unfold in_u32, kNoSlot in *; lia).
  destruct (registered_slots id (vsize (books_ f)) (slot_of_id_ e)) as (se & -> & He); [lia..|].
  destruct (registered_slots id (vsize (books_ f)) (slot_of_id_ f)) as (sf & -> & Hf); [lia..|].
  intros [= <- <-]. eexists. split; [done|]. simpl books_. rewrite vsize_snoc. split; [|lia].
  pose proof (band_for_bound (vsize (books_ f) + 1) kLadderByteBudget) as Hb.
  pose proof (er_band_range _ _ HE). unfold kLadderByteBudget in Hb at 1.
  destruct HE. split; simpl; try congruence; [..|rewrite vsize_snoc; lia|lia].
  - intros id' s Hs. rewrite He, Hf by done. naive_solver.
  - apply Forall2_app; [done|]. constructor; [|done]. apply ref_make. lia.
Qed.

Lemma er_register_all universe : ∀ e f f', ER e f → Forall in_u32 universe →
  vsize (books_ f) + vsize universe ≤ kNoSlot → register_all universe f = Some f' →
  ∃ e', register_all universe e = Some e' ∧ ER e' f'.
Proof.
  assert (∀ us, foldl (λ acc id, e ← acc; '(_, e) ← register_instrument id e; Some e)
    (None : option (t A)) us = None) as Hnone by (induction us; done).
  unfold register_all. induction universe as [|id us IH]; intros e f f' HE Hus Hsz; simpl.
  { intros [= <-]. eauto. }
  apply Forall_cons in Hus as [Hid Hus]. unfold vsize in Hsz. simpl in Hsz.
  destruct (register_instrument id f) as [[r f2]|] eqn:Hf; simpl; [|by rewrite Hnone].
  assert (vsize (books_ f) < kNoSlot) as Hf0 by (unfold vsize; lia).
  destruct (er_register _ _ _ _ _ HE (proj1 Hid) Hf0 Hf) as (e2 & -> & HE2 & Hz).
  simpl. apply IH; [done|done|]. unfold vsize in *. lia.
Qed.

(** The engine before its first registration; [slots] and [band] are what the
    constructor precomputes from the universe. *)
Definition blank {X} slots n band : t X := mk slots [] n band [] ∅ 1 1 1.

Lemma er_blank slots slots' n n' band band' :
  Forall (λ s, s = kNoSlot) slots → Forall (λ s, s = kNoSlot) slots' →
  0 ≤ band ≤ MatchingBook.kMaxBandTicks → ER (blank slots n band) (blank slots' n' band').
Proof.
  intros Hs Hs' Hb. split; simpl; try done.
  intros id s Hne. split; intros [_ Hv]%vget_Some; exfalso; apply Hne.
  - exact (Forall_lookup_1 _ _ _ _ Hs Hv).
  - exact (Forall_lookup_1 _ _ _ _ Hs' Hv).
Qed.

Lemma er_make universe n f : Forall in_u32 universe → vsize universe < kNoSlot →
  make universe n = Some f → ∃ e, make universe n = Some e ∧ ER e f.
Proof.
  intros Hu Hz. unfold make. pose proof (band_for_bound (vsize universe) kLadderByteBudget) as Hb.
  unfold kLadderByteBudget in Hb at 1. pose proof (vsize_nonneg universe).
  apply er_register_all; [|done|destruct universe; simpl; unfold vsize in *; simpl in *; lia].
  destruct universe; apply er_blank; try done; [by apply Forall_replicate..|]. apply Hb; lia.
Qed.

Lemma er_compose e f o id : ER e f → compose o id e = compose o id f.
Proof. intros HE. unfold compose. by rewrite (er_orders _ _ HE). Qed.

Lemma er_compose_side e f sd id b a r : ER e f → R b a →
  compose_side sd id a f = Some r → compose_side sd id b e = Some r.
Proof.
  intros HE HR. unfold compose_side. destruct (book_all_of sd a) as [os|] eqn:Ha; [|done].
  rewrite (ref_all_of _ _ _ HR _ Ha). simpl. intros <-. apply mapM_ext.
  intros. by rewrite (er_compose e f).
Qed.

Lemma er_snapshot e f r : ER e f → snapshot f = Some r → snapshot e = Some r.
Proof.
  intros HE. unfold snapshot. rewrite (er_by_id _ _ HE).
  destruct (mapM (λ entry, snapshot_book entry f) (by_id_ f)) as [l|] eqn:Hl; [|done].
  intros [= <-]. cut (mapM (λ entry, snapshot_book entry e) (by_id_ f) = Some l); [by intros ->|].
  apply mapM_Some in Hl. apply mapM_Some. eapply Forall2_impl; [exact Hl|].
  intros [id slot] x. unfold snapshot_book. simpl.
  destruct (vget (books_ f) slot) as [a|] eqn:Ha; [|done]. simpl.
  destruct (Forall2_vget _ _ _ _ (er_books _ _ HE) Ha) as (b & -> & HR). simpl.
  destruct (compose_side Buy id a f) as [bids|] eqn:Hb; [|done]. simpl.
  destruct (compose_side Sell id a f) as [asks|] eqn:Hs; [|done]. simpl.
  rewrite (er_compose_side _ _ _ _ _ _ _ HE HR Hb). simpl.
  by rewrite (er_compose_side _ _ _ _ _ _ _ HE HR Hs).
Qed.
End refinement.

End EngineRefinement.
