(* ===== verification/Fills.v ===== *)
(** * What matching means: filling an order from a queue

    The specification of the matching loop, on the contra side's queue alone: an
    incoming order takes from the front of the queue, order by order, while it
    has quantity left and its price crosses. The lemmas say what that does:
    nothing is created or lost, every trade is at a crossing price, only the
    last order touched can survive, and what is left does not cross. *)

From stdpp Require Import sorting.
From S2P Require Import Prelude.
From S2P Require Import Types.
From S2P Require Import SideIndex.
From S2P Require Import PriceIndex.
From S2P Require Import BookSpec.
From S2P Require Import BookQueue.
From S2P Require Import MatchingEngine.

Module Fills.
Import SideIndex PriceIndex ABook BookQueue.
Import MatchingEngine(crosses).

(** One trade: the resting entry as it was, and the quantity it gave. *)
Record fill := mkFill { fl_entry : entry; fl_quantity : Quantity }.

Definition fl_order (x : fill) : BookOrder := x.(fl_entry).2.

(** What the resting order keeps. *)
Definition fl_after (x : fill) : Quantity := bo_remaining_quantity (fl_order x) - fl_quantity x.

Record outcome := mkOutcome {
  oc_fills : list fill;
  oc_remaining : Quantity;
  oc_queue : list entry;
}.

(** [side] and [price] are those of the incoming order. *)
Fixpoint fill_queue (side : Side) (price : Price) (rem : Quantity) (q : list entry) : outcome :=
  match q with
  | [] => mkOutcome [] rem []
  | (s, o) :: q' =>
      if (rem <=? 0) || negb (crosses side price (bo_price o)) then mkOutcome [] rem q
      else
        let qty := Z.min rem (bo_remaining_quantity o) in
        let x := mkFill (s, o) qty in
        if fl_after x =? 0 then
          let r := fill_queue side price (rem - qty) q' in
          mkOutcome (x :: oc_fills r) (oc_remaining r) (oc_queue r)
        else mkOutcome [x] (rem - qty) ((s, bo_with_remaining (fl_after x) o) :: q')
  end.

Definition filled (fs : list fill) : Quantity := foldr (λ x n, fl_quantity x + n) 0 fs.

(** Quantities of resting orders: positive and of their type. *)
Definition live_quantities (q : list entry) : Prop :=
  ∀ x, x ∈ q → 0 < bo_remaining_quantity x.2 < 2 ^ 64.

Definition resting (q : list entry) : Quantity :=
  foldr (λ x n, bo_remaining_quantity x.2 + n) 0 q.

Lemma live_cons x q : live_quantities (x :: q) → 0 < bo_remaining_quantity x.2 < 2 ^ 64 ∧ live_quantities q.
Proof. intros H. split; [apply H; by left|]. intros y Hy. apply H. by right. Qed.

Section fills.
Context (side : Side) (price : Price).

(** Nothing is created or lost: neither the incoming order's quantity nor the
    quantity resting on the book. *)
Lemma fill_conserves q : ∀ rem,
  filled (oc_fills (fill_queue side price rem q)) + oc_remaining (fill_queue side price rem q) = rem ∧
  filled (oc_fills (fill_queue side price rem q)) + resting (oc_queue (fill_queue side price rem q)) =
    resting q.
Proof.
  induction q as [|[s o] q IH]; intros rem; simpl; [lia|].
  case_bool; simpl; [lia|]. unfold fl_after, fl_order. simpl. case_bool; simpl; [|lia].
  destruct (IH (rem - Z.min rem (bo_remaining_quantity o))). lia.
Qed.

Lemma fill_remaining_range q rem : 0 ≤ rem → live_quantities q →
  0 ≤ oc_remaining (fill_queue side price rem q) ≤ rem.
Proof.
  revert rem. induction q as [|[s o] q IH]; intros rem Hr Hq; simpl; [lia|].
  apply live_cons in Hq as [Ho Hq]. simpl in Ho. case_bool; simpl; [lia|].
  case_bool; simpl; [|lia].
  specialize (IH (rem - Z.min rem (bo_remaining_quantity o)) ltac:(lia) Hq). lia.
Qed.

(** Every fill takes a positive quantity, no more than the order had, at a
    price that crosses the incoming order's limit. *)
Lemma fill_sound q rem x : 0 ≤ rem → live_quantities q →
  x ∈ oc_fills (fill_queue side price rem q) →
  fl_entry x ∈ q ∧ 0 < fl_quantity x ≤ rem ∧ 0 ≤ fl_after x ∧
  crosses side price (bo_price (fl_order x)) = true.
Proof.
  revert rem. induction q as [|[s o] q IH]; intros rem Hr Hq; simpl; [by intros ?%not_elem_of_nil|].
  apply live_cons in Hq as [Ho Hq]. simpl in Ho.
  destruct ((rem <=? 0) || _) eqn:E; simpl; [by intros ?%not_elem_of_nil|].
  apply orb_false_iff in E as [E1 E2%negb_false_iff].
  unfold fl_after, fl_order. simpl. case_bool; simpl.
  - intros [->|Hx]%elem_of_cons; simpl; [split_and!; try done; try lia; by left|].
    destruct (IH (rem - Z.min rem (bo_remaining_quantity o)) ltac:(lia) Hq Hx) as (? & ? & ? & ?).
    split_and!; try done; try lia. by right.
  - intros ->%list_elem_of_singleton. simpl. split_and!; try done; try lia. by left.
Qed.

(** The fills are the front of the queue in order; all but possibly the last
    are consumed whole. *)
Lemma fill_prefix q : ∀ rem,
  ∃ gone rest, fl_entry <$> oc_fills (fill_queue side price rem q) = gone ++ rest ∧
    gone ++ rest `prefix_of` q ∧
    ((rest = [] ∧ q = gone ++ oc_queue (fill_queue side price rem q)) ∨
     ∃ s o k q', rest = [(s, o)] ∧ q = gone ++ (s, o) :: q' ∧
       oc_queue (fill_queue side price rem q) = (s, bo_with_remaining k o) :: q').
Proof.
  induction q as [|[s o] q IH]; intros rem; simpl.
  { exists [], []. split_and!; [done|done|by left]. }
  case_bool; simpl; [exists [], []; split_and!; [done|apply prefix_nil|by left]|].
  case_bool; cbn [oc_fills oc_queue]; rewrite fmap_cons.
  - destruct (IH (rem - Z.min rem (bo_remaining_quantity o))) as (gone & rest & -> & Hp & Hc).
    exists ((s, o) :: gone), rest. split_and!; [done|by apply prefix_cons|].
    destruct Hc as [[-> Hq]|(s' & o' & k & q' & -> & Hq & Hr)].
    + left. split; [done|]. simpl. by rewrite <-Hq.
    + right. exists s', o', k, q'. split_and!; [done| |done]. simpl. by rewrite <-Hq.
  - exists [], [(s, o)]. split_and!; [done|by apply prefix_cons, prefix_nil|].
    right. by eexists s, o, _, q.
Qed.

(** What is left does not cross, unless the incoming order is spent. *)
Lemma fill_exhausts q rem : sorted (contra side) q → 0 ≤ rem → live_quantities q →
  oc_remaining (fill_queue side price rem q) = 0 ∨
  ∀ x, x ∈ oc_queue (fill_queue side price rem q) → crosses side price (entry_price x) = false.
Proof.
  revert rem. induction q as [|[s o] q IH]; intros rem Hs Hr Hq; simpl.
  { right. by intros x ?%not_elem_of_nil. }
  apply live_cons in Hq as [Ho Hq]. simpl in Ho. pose proof Hs as [Hs' Hx]%sorted_cons_inv.
  destruct (Z.leb_spec rem 0); simpl; [left; lia|].
  destruct (crosses side price (bo_price o)) eqn:Hc; simpl.
  - unfold fl_after, fl_order. simpl. case_bool; simpl; [apply IH; [done|lia|done]|left; lia].
  - right. intros x [->|Hin]%elem_of_cons; [done|]. specialize (Hx x Hin).
    unfold crosses, sdir, entry_price in *. destruct side; simpl in *; lia.
Qed.

(** The quantity that crosses: the orders up to the first that does not. *)
Fixpoint crossing (q : list entry) : Quantity :=
  match q with
  | [] => 0
  | (_, o) :: q' =>
      if crosses side price (bo_price o) then bo_remaining_quantity o + crossing q' else 0
  end.

Lemma crossing_range q : live_quantities q → 0 ≤ crossing q ≤ resting q.
Proof.
  induction q as [|[s o] q IH]; simpl; [lia|]. intros [Ho Hq]%live_cons.
  specialize (IH Hq). simpl in Ho. case_bool; lia.
Qed.

Lemma fill_remaining_crossing q : ∀ rem, 0 ≤ rem → live_quantities q →
  oc_remaining (fill_queue side price rem q) = Z.max 0 (rem - crossing q).
Proof.
  induction q as [|[s o] q IH]; intros rem Hr Hq; simpl; [lia|].
  apply live_cons in Hq as [Ho Hq]. simpl in Ho. pose proof (crossing_range q Hq).
  destruct (Z.leb_spec rem 0); simpl; [case_bool; lia|].
  destruct (crosses side price (bo_price o)); simpl; [|lia].
  unfold fl_after, fl_order. simpl. case_bool; simpl; [|lia]. rewrite IH by (done || lia). lia.
Qed.

Lemma betterb_crosses x : betterb (contra side) price (entry_price x) = negb (crosses side price (bo_price x.2)).
Proof. unfold betterb, crosses, entry_price. destruct side; simpl; lia. Qed.

(** The pre-check never promises more than the queue holds, even when its
    64-bit total wraps around. *)
Lemma crossable_sound quantity q : ∀ total, 0 ≤ total → live_quantities q →
  crossable (contra side) price quantity total q ≤ total + crossing q.
Proof.
  induction q as [|[s o] q IH]; intros total Ht Hq; simpl; [lia|].
  apply live_cons in Hq as [Ho Hq]. simpl in Ho. pose proof (crossing_range q Hq).
  rewrite betterb_crosses. simpl. destruct (crosses side price (bo_price o)); simpl; [|lia].
  assert (0 ≤ u64 (total + bo_remaining_quantity o) ≤ total + bo_remaining_quantity o) as Hu.
  { unfold u64. split; [apply Z.mod_pos_bound; lia|apply Z.mod_le; lia]. }
  case_bool; [lia|]. specialize (IH (u64 (total + bo_remaining_quantity o)) ltac:(lia) Hq). lia.
Qed.

(** Without wrap-around it finds everything there is. *)
Lemma crossable_complete quantity q : ∀ total, 0 ≤ total → live_quantities q →
  total + resting q < 2 ^ 64 → total < quantity → quantity ≤ total + crossing q →
  quantity ≤ crossable (contra side) price quantity total q.
Proof.
  induction q as [|[s o] q IH]; intros total Ht Hq Hw Hlt Hle; simpl in *; [lia|].
  apply live_cons in Hq as [Ho Hq]. simpl in Ho. pose proof (crossing_range q Hq).
  rewrite betterb_crosses. simpl. destruct (crosses side price (bo_price o)); simpl; [|lia].
  rewrite u64_small by (unfold in_u64; lia). case_bool; [lia|]. apply IH; done || lia.
Qed.
End fills.
End Fills.
