(* ===== verification/EngineMatching.v ===== *)
(** * The matching loop fills orders from the queue

    The engine's loop ([match_and_rest]), run over the specification book,
    computes [Fills.fill_queue]: these lemmas give its result, its events and the
    state it leaves in closed form. *)

From S2P Require Import Prelude.
From S2P Require Import Types.
From S2P Require Import Effects.
From S2P Require Import PriceIndex.
From S2P Require Import BookSpec.
From S2P Require Import BookQueue.
From S2P Require Import MatchingEngine.
From S2P Require Import Fills.

Module EngineMatching.
Import MatchingEngine Fills.
Import ABook (entry, queue, with_queue, with_free, free, bids, asks, size).

Abbreviation book := ABook.t.
Abbreviation eng := (t ABook.t).

(** Replacing an instrument's book, where it is known to have one. *)
Definition with_book (id : InstrumentId) (b : book) (e : eng) : eng :=
  with_books (match vget (slot_of_id_ e) id with
              | Some slot => vput (books_ e) slot b
              | None => books_ e
              end) e.

Lemma set_book_with id b b0 e : book_for id e = Some b0 → set_book id b e = Some (with_book id b e).
Proof.
  unfold book_for, set_book, with_book. destruct (vget (slot_of_id_ e) id) as [slot|]; simpl; [|done].
  intros Hb. by rewrite (vset_get _ _ _ _ Hb).
Qed.

Lemma book_for_with id b b0 e : book_for id e = Some b0 → book_for id (with_book id b e) = Some b.
Proof.
  unfold book_for, with_book. simpl. destruct (vget (slot_of_id_ e) id) as [slot|]; simpl; [|done].
  intros Hb%vget_lt. by apply vget_vput_eq.
Qed.

Lemma with_book_twice id b b' e : with_book id b (with_book id b' e) = with_book id b e.
Proof.
  unfold with_book. simpl. destruct (vget (slot_of_id_ e) id); [|done].
  unfold with_books. simpl. f_equal. unfold vput. by rewrite list_insert_insert_eq.
Qed.

Lemma with_book_id id b e : book_for id e = Some b → with_book id b e = e.
Proof.
  unfold book_for, with_book. destruct (vget (slot_of_id_ e) id) as [slot|]; simpl; [|done].
  intros [_ Hb]%vget_Some. unfold vput. rewrite list_insert_id by done. by destruct e.
Qed.

(** ** The events and the state after a list of fills *)

Definition next_seq (n : EventSequence) : EventSequence := u64 (n + 1).

(** Trade [x] of [incoming], which has [rem] left after it. *)
Definition trade_event (incoming : ExchangeRestingOrder) (cs : CommandSequence) (n : EventSequence)
    (rem : Quantity) (x : fill) : ExchangeEvent :=
  let o := fl_order x in
  let aggressor := mkCounterparty (ero_account_id incoming) (ero_client_order_id incoming)
    (ero_exchange_order_id incoming) rem in
  let rest := mkCounterparty (bo_account_id o) (bo_client_order_id o)
    (bo_exchange_order_id o) (fl_after x) in
  EvTrade (mkTradeExecuted n cs (ero_instrument_id incoming) (bo_price o) (fl_quantity x)
    (ero_side incoming)
    (match ero_side incoming with Buy => aggressor | Sell => rest end)
    (match ero_side incoming with Buy => rest | Sell => aggressor end)).

(** What happened to the resting order. *)
Definition resting_event (id : InstrumentId) (n : EventSequence) (x : fill) : ExchangeEvent :=
  let o := fl_order x in
  if fl_after x =? 0
  then EvRemoved (mkBookOrderRemoved n id (bo_exchange_order_id o) (bo_side o) (bo_price o))
  else EvReduced (mkBookOrderReduced n id (bo_exchange_order_id o) (bo_side o) (bo_price o) (fl_after x)).

Fixpoint fill_events (incoming : ExchangeRestingOrder) (cs : CommandSequence) (n : EventSequence)
    (rem : Quantity) (fs : list fill) : list ExchangeEvent :=
  match fs with
  | [] => []
  | x :: fs =>
      trade_event incoming cs n (rem - fl_quantity x) x ::
      resting_event (ero_instrument_id incoming) (next_seq n) x ::
      fill_events incoming cs (next_seq (next_seq n)) (rem - fl_quantity x) fs
  end.

Fixpoint seq_after (n : EventSequence) (fs : list fill) : EventSequence :=
  match fs with [] => n | _ :: fs => seq_after (next_seq (next_seq n)) fs end.

Definition fill_key (x : fill) : LiveKey := (bo_account_id (fl_order x), bo_client_order_id (fl_order x)).

Fixpoint orders_after (m : gmap LiveKey OrderRef) (fs : list fill) : gmap LiveKey OrderRef :=
  match fs with
  | [] => m
  | x :: fs => orders_after (if fl_after x =? 0 then delete (fill_key x) m else m) fs
  end.

Fixpoint free_after (l : list Z) (fs : list fill) : list Z :=
  match fs with
  | [] => l
  | x :: fs => free_after (if fl_after x =? 0 then (fl_entry x).1 :: l else l) fs
  end.

Definition book_after (sd : Side) (b : book) (r : outcome) : book :=
  with_free (free_after (free b) (oc_fills r)) (with_queue sd (oc_queue r) b).

Definition engine_after (id : InstrumentId) (sd : Side) (b : book) (e : eng) (r : outcome) : eng :=
  with_counters (next_exchange_order_id_ e) (seq_after (next_event_sequence_ e) (oc_fills r))
    (next_priority_ e)
    (with_orders (orders_after (orders_ e) (oc_fills r)) (with_book id (book_after sd b r) e)).

(** The outcome for an incoming order over a book. *)
Definition outcome_of (incoming : ExchangeRestingOrder) (b : book) : outcome :=
  fill_queue (ero_side incoming) (ero_price incoming) (ero_remaining_quantity incoming)
    (queue (contra (ero_side incoming)) b).

Lemma engine_after_nothing id sd b e rem : book_for id e = Some b →
  engine_after id sd b e (mkOutcome [] rem (queue sd b)) = e.
Proof.
  intros Hb. unfold engine_after, book_after. simpl.
  replace (with_free (free b) (with_queue sd (queue sd b) b)) with b by by destruct sd, b.
  rewrite with_book_id by done. by destruct e.
Qed.

(** ** One book operation, evaluated *)

Lemma on_book_run {A} id (f : book → option A) b x e : book_for id e = Some b → f b = Some x →
  on_book id f e = Some (x, e, []).
Proof. intros Hb Hf. unfold on_book, eread. rewrite Hb. simpl. by rewrite Hf. Qed.

Lemma change_book_run {A} id (f : book → option (A * book)) b x b' e :
  book_for id e = Some b → f b = Some (x, b') → change_book id f e = Some (x, with_book id b' e, []).
Proof.
  intros Hb Hf. unfold change_book, eupdate. rewrite Hb. simpl. rewrite Hf. simpl.
  by rewrite (set_book_with _ _ _ _ Hb).
Qed.

Lemma change_book__run id (f : book → option book) b b' e :
  book_for id e = Some b → f b = Some b' → change_book_ id f e = Some (tt, with_book id b' e, []).
Proof. intros Hb Hf. apply (change_book_run _ _ _ _ _ _ Hb). by rewrite Hf. Qed.

(** The whole fill step: the trade, and the resting order gone or reduced. *)
Lemma match_step_run incoming cs s o q b e :
  book_for (ero_instrument_id incoming) e = Some b →
  queue (contra (ero_side incoming)) b = (s, o) :: q →
  0 < bo_remaining_quantity o < 2 ^ 64 → 0 < ero_remaining_quantity incoming < 2 ^ 64 →
  let x := mkFill (s, o) (Z.min (ero_remaining_quantity incoming) (bo_remaining_quantity o)) in
  let rem := ero_remaining_quantity incoming - fl_quantity x in
  let q' := if fl_after x =? 0 then q else (s, bo_with_remaining (fl_after x) o) :: q in
  match_step incoming cs o e =
    Some (ero_with_remaining rem incoming,
          engine_after (ero_instrument_id incoming) (contra (ero_side incoming)) b e (mkOutcome [x] rem q'),
          [trade_event incoming cs (next_event_sequence_ e) rem x;
           resting_event (ero_instrument_id incoming) (next_seq (next_event_sequence_ e)) x]).
Proof.
  intros Hb Hq Ho Hi x rem q'. unfold match_step.
  assert (u64 (ero_remaining_quantity incoming -
    Z.min (ero_remaining_quantity incoming) (bo_remaining_quantity o)) = rem) as ->.
  { unfold rem, x. cbn [fl_quantity]. apply u64_small. unfold in_u64. lia. }
  assert (u64 (bo_remaining_quantity o -
    Z.min (ero_remaining_quantity incoming) (bo_remaining_quantity o)) = fl_after x) as ->.
  { unfold fl_after, fl_order, x. cbn [fl_quantity fl_entry snd]. apply u64_small. unfold in_u64. lia. }
  unfold ebind, sink, eemit, eret, erase_order, emodify. cbn [ero_with_remaining ero_instrument_id].
  set (id := ero_instrument_id incoming) in *. set (sd := contra (ero_side incoming)) in *.
  unfold engine_after, book_after, resting_event. subst q'. cbn [oc_fills oc_queue free_after orders_after seq_after].
  destruct (fl_after x =? 0).
  - rewrite (change_book__run id (book_remove_front sd) b (with_free (s :: free b) (with_queue sd q b))).
    + done.
    + done.
    + simpl. unfold ABook.remove_front. by rewrite Hq.
  - rewrite (change_book__run id (book_reduce_front sd (fl_after x)) b
      (with_queue sd ((s, bo_with_remaining (fl_after x) o) :: q) b)).
    + replace (with_free (free b) _) with (with_queue sd ((s, bo_with_remaining (fl_after x) o) :: q) b)
        by by destruct sd, b.
      done.
    + done.
    + simpl. unfold ABook.reduce_front. by rewrite Hq.
Qed.

Lemma engine_after_cons id sd b e x q' rem r : book_for id e = Some b →
  let b1 := book_after sd b (mkOutcome [x] rem q') in
  engine_after id sd b1 (engine_after id sd b e (mkOutcome [x] rem q')) r =
  engine_after id sd b e (mkOutcome (x :: oc_fills r) (oc_remaining r) (oc_queue r)).
Proof.
  intros Hb b1. set (r2 := mkOutcome (x :: oc_fills r) (oc_remaining r) (oc_queue r)).
  assert (book_after sd b1 r = book_after sd b r2) as Hb2 by (unfold b1, book_after; by destruct sd).
  transitivity (with_counters (next_exchange_order_id_ e) (seq_after (next_event_sequence_ e) (oc_fills r2))
    (next_priority_ e) (with_orders (orders_after (orders_ e) (oc_fills r2))
      (with_book id (book_after sd b1 r) (with_book id b1 e)))).
  - done.
  - by rewrite with_book_twice, Hb2.
Qed.

Lemma book_for_engine_after id sd b e r : book_for id e = Some b →
  book_for id (engine_after id sd b e r) = Some (book_after sd b r).
Proof. intros Hb. apply (book_for_with id (book_after sd b r) b e Hb). Qed.

Lemma queue_book_after sd b r : queue sd (book_after sd b r) = oc_queue r.
Proof. by destruct sd. Qed.

Lemma ero_with_remaining_twice q r o : ero_with_remaining q (ero_with_remaining r o) = ero_with_remaining q o.
Proof. done. Qed.

Lemma ero_with_remaining_id o : ero_with_remaining (ero_remaining_quantity o) o = o.
Proof. by destruct o. Qed.

Lemma fill_events_remaining incoming k cs fs : ∀ n rem,
  fill_events (ero_with_remaining k incoming) cs n rem fs = fill_events incoming cs n rem fs.
Proof. induction fs as [|x fs IH]; intros n rem; simpl; [done|]. by rewrite IH. Qed.

(** The loop stops where the specification does. *)
Lemma outcome_stop incoming b :
  (ero_remaining_quantity incoming ≤ 0 ∨ queue (contra (ero_side incoming)) b = [] ∨
   ∃ s o q, queue (contra (ero_side incoming)) b = (s, o) :: q ∧
     crosses (ero_side incoming) (ero_price incoming) (bo_price o) = false) →
  outcome_of incoming b =
    mkOutcome [] (ero_remaining_quantity incoming) (queue (contra (ero_side incoming)) b).
Proof.
  unfold outcome_of. intros [Hr|[->|(s & o & q & -> & Hc)]]; [|done|].
  - destruct (queue _ _) as [|[s o] q]; simpl; [done|]. by rewrite (proj2 (Z.leb_le _ _)).
  - simpl. rewrite Hc. by rewrite orb_true_r.
Qed.

Definition loop_result (incoming : ExchangeRestingOrder) (cs : CommandSequence) (b : book) (e : eng) :=
  let r := outcome_of incoming b in
  (ero_with_remaining (oc_remaining r) incoming,
   engine_after (ero_instrument_id incoming) (contra (ero_side incoming)) b e r,
   fill_events incoming cs (next_event_sequence_ e) (ero_remaining_quantity incoming) (oc_fills r)).

Lemma loop_result_stop incoming cs b e : book_for (ero_instrument_id incoming) e = Some b →
  outcome_of incoming b =
    mkOutcome [] (ero_remaining_quantity incoming) (queue (contra (ero_side incoming)) b) →
  loop_result incoming cs b e = (incoming, e, []).
Proof.
  intros Hb Ho. unfold loop_result. rewrite Ho. simpl.
  by rewrite ero_with_remaining_id, (engine_after_nothing _ _ _ _ _ Hb).
Qed.

(** One trade and then the rest. *)
Lemma outcome_step incoming b s o q :
  queue (contra (ero_side incoming)) b = (s, o) :: q → 0 < ero_remaining_quantity incoming →
  crosses (ero_side incoming) (ero_price incoming) (bo_price o) = true →
  0 < bo_remaining_quantity o →
  let x := mkFill (s, o) (Z.min (ero_remaining_quantity incoming) (bo_remaining_quantity o)) in
  let rem := ero_remaining_quantity incoming - fl_quantity x in
  let q' := if fl_after x =? 0 then q else (s, bo_with_remaining (fl_after x) o) :: q in
  let r := fill_queue (ero_side incoming) (ero_price incoming) rem q' in
  outcome_of incoming b = mkOutcome (x :: oc_fills r) (oc_remaining r) (oc_queue r).
Proof.
  intros Hq Hr Hc Ho x rem q' r. unfold outcome_of. rewrite Hq. cbn [fill_queue].
  rewrite (proj2 (Z.leb_gt _ _)), Hc by done. cbn [negb orb]. fold x.
  unfold r, q'. destruct (Z.eqb_spec (fl_after x) 0) as [E|E]; [done|].
  assert (rem = 0) as Hrem.
  { unfold rem, fl_after, fl_order, x in *. simpl in *. lia. }
  unfold rem in Hrem. simpl in Hrem. simpl. unfold rem. simpl. rewrite Hrem. done.
Qed.

Lemma match_loop_eq fuel incoming cs : match_loop (B := book) fuel incoming cs = (
  if negb (0 <? ero_remaining_quantity incoming) then eret incoming
  else
    front ← on_book (ero_instrument_id incoming) (book_front (contra (ero_side incoming)));
    match front with
    | None => eret incoming
    | Some contra_order =>
        if negb (crosses (ero_side incoming) (ero_price incoming) (bo_price contra_order))
        then eret incoming
        else
          match fuel with
          | O => efail
          | S fuel =>
              incoming ← match_step incoming cs contra_order;
              match_loop fuel incoming cs
          end
    end)%eff.
Proof. by destruct fuel. Qed.

Lemma match_loop_run cs fuel : ∀ incoming b e,
  book_for (ero_instrument_id incoming) e = Some b →
  live_quantities (queue (contra (ero_side incoming)) b) →
  0 ≤ ero_remaining_quantity incoming < 2 ^ 64 →
  (ero_remaining_quantity incoming = 0 ∨ (length (queue (contra (ero_side incoming)) b) ≤ fuel)%nat) →
  match_loop fuel incoming cs e = Some (loop_result incoming cs b e).
Proof.
  induction fuel as [|fuel IH]; intros incoming b e Hb Hq Hr Hf; rewrite match_loop_eq.
  { rewrite (loop_result_stop _ _ _ _ Hb).
    2: { apply outcome_stop. destruct Hf as [->|Hf]; [left; lia|]. destruct (queue _ b); simpl in *; auto; lia. }
    destruct (Z.ltb_spec 0 (ero_remaining_quantity incoming)); cbn [negb]; [|done].
    destruct (queue _ b) eqn:Eq; [|simpl in Hf; lia]. unfold ebind. rewrite (on_book_run _ _ b None); [done|done|].
    simpl. unfold ABook.front. by rewrite Eq. }
  destruct (Z.ltb_spec 0 (ero_remaining_quantity incoming)) as [Hpos|]; cbn [negb].
  2: { rewrite (loop_result_stop _ _ _ _ Hb); [done|]. apply outcome_stop. auto. }
  destruct (queue (contra (ero_side incoming)) b) as [|[s o] q] eqn:Eq.
  { rewrite (loop_result_stop _ _ _ _ Hb) by (apply outcome_stop; auto).
    unfold ebind. rewrite (on_book_run _ _ b None); [done|done|]. simpl. unfold ABook.front. by rewrite Eq. }
  unfold ebind at 1. rewrite (on_book_run _ _ b (Some o)); [|done|simpl; unfold ABook.front; by rewrite Eq].
  destruct (crosses _ _ _) eqn:Hc; cbn [negb].
  2: { rewrite (loop_result_stop _ _ _ _ Hb); [done|]. apply outcome_stop. right. right. by exists s, o, q. }
  pose proof (live_cons _ _ Hq) as [Ho Hq']. simpl in Ho.
  unfold ebind. rewrite (match_step_run _ _ s o q b) by (done || lia).
  set (x := mkFill _ _). set (rem := _ - fl_quantity x). set (q' := if _ : bool then q else _).
  assert (0 ≤ rem < 2 ^ 64) as Hrem by (unfold rem, x; simpl; lia).
  set (b1 := book_after (contra (ero_side incoming)) b (mkOutcome [x] rem q')).
  rewrite (IH _ b1).
  - unfold loop_result.
    replace (outcome_of (ero_with_remaining rem incoming) b1) with
      (fill_queue (ero_side incoming) (ero_price incoming) rem q')
      by (unfold outcome_of, b1; by rewrite queue_book_after).
    rewrite (outcome_step incoming b s o q) by (done || lia). fold x rem q'.
    cbn [ero_with_remaining ero_instrument_id ero_side oc_fills oc_remaining oc_queue].
    unfold b1. rewrite (engine_after_cons _ _ _ _ _ _ _ _ Hb).
    rewrite ero_with_remaining_twice, fill_events_remaining. done.
  - apply (book_for_engine_after _ _ _ _ _ Hb).
  - cbn [ero_with_remaining ero_side]. unfold b1. rewrite queue_book_after. simpl. unfold q'.
    destruct (Z.eqb_spec (fl_after x) 0) as [|Hne]; [done|]. intros y [->|Hy]%elem_of_cons; [|by apply Hq'].
    simpl. unfold fl_after, fl_order, x in *. simpl in *. lia.
  - done.
  - cbn [ero_with_remaining ero_side]. unfold b1. rewrite queue_book_after. simpl. unfold q'.
    simpl in Hf.
    destruct (Z.eqb_spec (fl_after x) 0) as [|Hne]; simpl; [right; lia|left].
    unfold rem, fl_after, fl_order, x in *. simpl in *. lia.
Qed.

Lemma match_and_rest_run cs incoming b e :
  book_for (ero_instrument_id incoming) e = Some b →
  live_quantities (queue (contra (ero_side incoming)) b) →
  0 ≤ ero_remaining_quantity incoming < 2 ^ 64 →
  match_and_rest incoming cs e = Some (loop_result incoming cs b e).
Proof.
  intros Hb Hq Hr. unfold match_and_rest, ebind.
  rewrite (on_book_run _ _ b (S (book_fuel b))) by done.
  rewrite (match_loop_run _ _ _ b) by (try done; right; simpl; rewrite length_app; destruct (ero_side incoming); simpl; lia).
  done.
Qed.

End EngineMatching.
