(* ===== verification/EngineInvariant.v ===== *)
(** * The engine's invariant

    [inv]: every book is a pair of price-time queues of live orders that do not
    cross, every registered instrument has its own book, and every directory
    entry locates a resting order that answers to its key. The lemmas say that
    each of the engine's state changes preserves it. *)

From S2P Require Import Prelude.
From S2P Require Import Types.
From S2P Require Import Effects.
From S2P Require Import SideIndex.
From S2P Require Import PriceIndex.
From S2P Require Import MatchingBook.
From S2P Require Import BookSpec.
From S2P Require Import BookQueue.
From S2P Require Import MatchingEngine.
From S2P Require Import Fills.
From S2P Require Import EngineMatching.

Module EngineInvariant.
Import PriceIndex BookQueue MatchingEngine Fills EngineMatching.
Import ABook (entry, entry_price, queue, with_queue, with_free, free, bids, asks, size,
  next_slot, take_slot, insert_back, remove_slot).

(** ** Books *)

Record book_ok (n : Z) (b : book) : Prop := {
  bk_slots : (bids b).*1 ++ (asks b).*1 ++ free b ≡ₚ seqZ 0 (size b);
  bk_size : 0 ≤ size b ≤ n;
  bk_sorted : ∀ sd, sorted sd (queue sd b);
  bk_entry : ∀ sd x, x ∈ queue sd b → bo_side x.2 = sd ∧ price_safe (entry_price x) ∧
    0 < bo_remaining_quantity x.2 < 2 ^ 64 ∧ bo_time_in_force x.2 = GTC;
  bk_uncrossed : ∀ x y, x ∈ bids b → y ∈ asks b → entry_price x < entry_price y;
}.

(** The fields a queue's entries are judged by. *)
Definition entry_ok (sd : Side) (x : entry) : Prop :=
  bo_side x.2 = sd ∧ price_safe (entry_price x) ∧
  0 < bo_remaining_quantity x.2 < 2 ^ 64 ∧ bo_time_in_force x.2 = GTC.

Lemma book_slots n b sd : book_ok n b →
  (queue sd b).*1 ++ (queue (contra sd) b).*1 ++ free b ≡ₚ seqZ 0 (size b).
Proof. intros Hb. rewrite <-(bk_slots _ _ Hb). destruct sd; simpl; solve_Permutation. Qed.

Lemma book_live n b sd : book_ok n b → live_quantities (queue sd b).
Proof. intros Hb x Hx. by apply (bk_entry _ _ Hb sd). Qed.

Lemma book_apart n b sd x y : book_ok n b → x ∈ queue sd b → y ∈ queue (contra sd) b →
  crosses sd (entry_price x) (entry_price y) = false.
Proof.
  intros Hb Hx Hy. unfold crosses. destruct sd; simpl in *.
  - pose proof (bk_uncrossed _ _ Hb x y Hx Hy). lia.
  - pose proof (bk_uncrossed _ _ Hb y x Hy Hx). lia.
Qed.

Lemma uncrossed_sides (sd : Side) (P : entry → Prop) b q' :
  (∀ x y, x ∈ q' → y ∈ queue (contra sd) b → crosses sd (entry_price x) (entry_price y) = false) →
  ∀ x y, x ∈ bids (with_queue sd q' b) → y ∈ asks (with_queue sd q' b) → entry_price x < entry_price y.
Proof.
  intros H x y. destruct sd; simpl; intros Hx Hy.
  - specialize (H x y Hx Hy). unfold crosses in H. lia.
  - specialize (H y x Hy Hx). unfold crosses in H. lia.
Qed.

(** How a book that changed on one side is still a book. *)
Lemma book_ok_intro n b sd q' fr sz :
  q'.*1 ++ (queue (contra sd) b).*1 ++ fr ≡ₚ seqZ 0 sz → 0 ≤ sz ≤ n → sorted sd q' →
  (∀ x, x ∈ q' → entry_ok sd x) →
  (∀ x y, x ∈ q' → y ∈ queue (contra sd) b → crosses sd (entry_price x) (entry_price y) = false) →
  (∀ m, book_ok m b → book_ok n (with_queue sd q' (ABook.mk (bids b) (asks b) fr sz))).
Proof.
  intros H1 H2 H3 H4 H5 m Hb. split.
  - destruct sd; simpl in *; [done|]. rewrite <-H1. solve_Permutation.
  - by destruct sd.
  - intros s. destruct sd, s; simpl in *; try done; [apply (bk_sorted _ _ Hb Sell)|apply (bk_sorted _ _ Hb Buy)].
  - intros s x Hx. destruct sd, s; simpl in *; try (by apply H4);
      [by apply (bk_entry _ _ Hb Sell)|by apply (bk_entry _ _ Hb Buy)].
  - apply (uncrossed_sides sd (λ _, True)). by destruct sd.
Qed.

Lemma book_ok_mono n m b : book_ok n b → n ≤ m → book_ok m b.
Proof. intros [] ?. split; try done. lia. Qed.

Lemma book_ok_make n : 0 ≤ n → book_ok n ABook.make.
Proof.
  intros. split; try done.
  - intros []; constructor.
  - by intros [] x ?%not_elem_of_nil.
  - by intros x y ?%not_elem_of_nil.
Qed.

(** ** Fills *)

Lemma fill_slots side price q : ∀ rem l,
  (oc_queue (fill_queue side price rem q)).*1 ++ free_after l (oc_fills (fill_queue side price rem q)) ≡ₚ
  q.*1 ++ l.
Proof.
  induction q as [|[s o] q IH]; intros rem l; simpl; [done|].
  destruct ((rem <=? 0) || _); simpl; [done|].
  destruct (fl_after _ =? 0) eqn:Ea; cbn [oc_fills oc_queue free_after]; rewrite Ea.
  - rewrite IH. simpl. solve_Permutation.
  - done.
Qed.

(** An entry left in the queue was there before, with the same identity. *)
Lemma fill_left side price q : ∀ rem y, 0 ≤ rem → live_quantities q →
  y ∈ oc_queue (fill_queue side price rem q) →
  ∃ x, x ∈ q ∧ y.1 = x.1 ∧
    (y.2 = x.2 ∨ ∃ k, 0 < k ≤ bo_remaining_quantity x.2 ∧ y.2 = bo_with_remaining k x.2).
Proof.
  induction q as [|[s o] q IH]; intros rem y Hr Hq; simpl; [by intros ?%not_elem_of_nil|].
  apply live_cons in Hq as [Ho Hq]. simpl in Ho.
  destruct ((rem <=? 0) || _); simpl; [intros Hy; exists y; split_and!; auto|].
  unfold fl_after, fl_order. simpl. destruct (Z.eqb_spec (bo_remaining_quantity o - Z.min rem (bo_remaining_quantity o)) 0);
    cbn [oc_queue].
  - intros Hy. destruct (IH (rem - Z.min rem (bo_remaining_quantity o)) y ltac:(lia) Hq Hy) as (x & Hx & ?). exists x. split; [by right|done].
  - intros [->|Hy]%elem_of_cons.
    + exists (s, o). split_and!; [by left|done|]. right. eexists. split; [|done]. simpl. lia.
    + exists y. split_and!; [by right|done|by left].
Qed.

(** An entry of the queue is left, or one of the fills took it whole. *)
Lemma fill_tracks side price q : ∀ rem x, x ∈ q →
  (∃ o, (x.1, o) ∈ oc_queue (fill_queue side price rem q) ∧
     (o = x.2 ∨ ∃ k, o = bo_with_remaining k x.2)) ∨
  ∃ f, f ∈ oc_fills (fill_queue side price rem q) ∧ fl_entry f = x ∧ fl_after f = 0.
Proof.
  induction q as [|[s o] q IH]; intros rem x; simpl; [by intros ?%not_elem_of_nil|].
  intros Hx. destruct ((rem <=? 0) || _); simpl.
  { left. exists x.2. split; [by destruct x|by left]. }
  destruct (Z.eqb_spec (fl_after (mkFill (s, o) (Z.min rem (bo_remaining_quantity o)))) 0) as [Ea|Ea];
    cbn [oc_queue oc_fills]; apply elem_of_cons in Hx as [->|Hx].
  - right. eexists. split; [by left|]. done.
  - destruct (IH (rem - Z.min rem (bo_remaining_quantity o)) x Hx) as [?|(f & Hf & ?)]; [by left|].
    right. exists f. split; [by right|done].
  - left. eexists. split; [by left|]. right. by eexists.
  - left. exists x.2. split; [right; by destruct x|by left].
Qed.

Lemma fill_sorted side sd price q rem : sorted sd q → sorted sd (oc_queue (fill_queue side price rem q)).
Proof.
  intros Hs. destruct (fill_prefix side price q rem) as (gone & rest & _ & _ & [[_ E]|(s & o & k & q' & _ & E & ->)]);
    rewrite E in Hs; apply sorted_app_inv in Hs as [Hs _]; [done|].
  apply sorted_cons_inv in Hs as [? H]. by apply sorted_cons.
Qed.

Lemma fill_book_ok n b sd price rem : book_ok n b → 0 ≤ rem →
  book_ok n (book_after (contra sd) b (fill_queue sd price rem (queue (contra sd) b))).
Proof.
  intros Hb Hr. set (r := fill_queue _ _ _ _).
  replace (book_after (contra sd) b r) with (with_queue (contra sd) (oc_queue r)
    (ABook.mk (bids b) (asks b) (free_after (free b) (oc_fills r)) (size b))) by by destruct sd.
  assert (∀ y, y ∈ oc_queue r → ∃ x, x ∈ queue (contra sd) b ∧ entry_price y = entry_price x ∧
    bo_side y.2 = bo_side x.2 ∧ bo_time_in_force y.2 = bo_time_in_force x.2 ∧
    0 < bo_remaining_quantity y.2 < 2 ^ 64) as Hleft.
  { intros y Hy. destruct (fill_left _ _ _ _ _ Hr (book_live _ _ _ Hb) Hy) as (x & Hx & _ & Hc).
    exists x. split; [done|]. destruct (bk_entry _ _ Hb _ x Hx) as (_ & _ & Hq & _).
    unfold entry_price. destruct Hc as [->|(k & Hk & ->)]; [done|]. simpl. split_and!; try done; lia. }
  eapply (book_ok_intro n b (contra sd)); [..|exact Hb].
  - rewrite <-(book_slots _ _ (contra sd) Hb).
    pose proof (fill_slots sd price (queue (contra sd) b) rem (free b)) as Hp. fold r in Hp.
    transitivity ((queue (contra (contra sd)) b).*1 ++ ((oc_queue r).*1 ++ free_after (free b) (oc_fills r)));
      [solve_Permutation|]. rewrite Hp. solve_Permutation.
  - apply Hb.
  - apply fill_sorted, Hb.
  - intros y (x & Hx & Hp & Hs & Ht & Hq)%Hleft. destruct (bk_entry _ _ Hb _ x Hx) as (? & ? & _ & ?).
    unfold entry_ok. rewrite Hs, Ht, Hp. done.
  - intros y z (x & Hx & -> & _)%Hleft Hz. by apply (book_apart n b).
Qed.

(** ** Adding, removing, editing *)

Lemma add_book_ok n b o h b' : book_ok n b → ABook.add o b = Some (h, b') →
  0 < bo_remaining_quantity o < 2 ^ 64 → bo_time_in_force o = GTC →
  (∀ y, y ∈ queue (contra (bo_side o)) b → crosses (bo_side o) (bo_price o) (entry_price y) = false) →
  book_ok (n + 1) b' ∧ (h, o) ∈ queue (bo_side o) b' ∧ (∀ sd x, x ∈ queue sd b → x ∈ queue sd b').
Proof.
  intros Hb Ha Hq Ht Hc. unfold ABook.add in Ha. case_bool_decide as Hp; simpl in Ha; [|done].
  destruct (_ <? _); [|done]. injection Ha as <- <-. set (sd := bo_side o) in *.
  set (q' := insert_back sd (next_slot b, o) (queue sd b)).
  split; [|split].
  - replace (with_queue sd q' (take_slot b)) with (with_queue sd q'
      (ABook.mk (bids b) (asks b) (free (take_slot b)) (size (take_slot b))))
      by (unfold take_slot; by destruct (free b), sd).
    eapply (book_ok_intro _ b sd); [..|exact Hb].
    + unfold q'. rewrite insert_back_perm. pose proof (book_slots _ _ sd Hb) as Hs.
      pose proof (bk_size _ _ Hb). unfold next_slot, take_slot. destruct (free b) as [|f l]; simpl in *.
      * rewrite (seqZ_app 0 (size b) 1), <-Hs by lia. rewrite seqZ_cons, seqZ_nil by lia.
        rewrite Z.add_0_l, !app_nil_r. solve_Permutation.
      * rewrite <-Hs. solve_Permutation.
    + pose proof (bk_size _ _ Hb). unfold take_slot. destruct (free b); simpl; lia.
    + apply insert_back_sorted, Hb.
    + intros x [->|Hx]%insert_back_in; [done|by apply (bk_entry _ _ Hb)].
    + intros x y [->|Hx]%insert_back_in Hy; [by apply Hc|by apply (book_apart n b)].
  - rewrite queue_with_queue. apply insert_back_in. by left.
  - intros s x Hx. revert x Hx. apply (side_cases sd (λ s, ∀ x, x ∈ queue s b → x ∈ queue s _)).
    + intros x Hx. rewrite queue_with_queue. apply insert_back_in. by right.
    + intros x Hx. rewrite queue_with_contra. unfold take_slot. destruct (free b); by destruct sd.
Qed.

Lemma at_queue b h o : ABook.at_ h b = Some o → ∃ sd, (h, o) ∈ queue sd b.
Proof. intros [H|H]%lookup_slot_Some%elem_of_app; [by exists Buy|by exists Sell]. Qed.

Lemma queue_at n b sd h o : book_ok n b → (h, o) ∈ queue sd b → ABook.at_ h b = Some o.
Proof.
  intros Hb Hin. unfold ABook.at_. apply lookup_slot_in.
  - assert (NoDup ((bids b).*1 ++ (asks b).*1 ++ free b)) as Hd by (rewrite (bk_slots _ _ Hb); apply NoDup_seqZ).
    rewrite app_assoc, <-fmap_app in Hd. by apply NoDup_app in Hd as [? _].
  - apply elem_of_app. destruct sd; auto.
Qed.

Lemma queue_at_side n b sd h o : book_ok n b → (h, o) ∈ queue sd b →
  ABook.at_ h b = Some o ∧ bo_side o = sd.
Proof. intros Hb Hin. split; [by eapply queue_at|]. by apply (bk_entry _ _ Hb sd (h, o)). Qed.

(** A slot holds one order. *)
Lemma slot_unique n b sd sd' h o o' : book_ok n b → (h, o) ∈ queue sd b → (h, o') ∈ queue sd' b →
  sd = sd' ∧ o = o'.
Proof.
  intros Hb [H1 <-]%(queue_at_side n) [H2 <-]%(queue_at_side n); [|done|done].
  rewrite H1 in H2. by injection H2 as ->.
Qed.

Lemma book_queue_nodup n b sd : book_ok n b → NoDup (queue sd b).*1.
Proof.
  intros Hb. assert (NoDup ((queue sd b).*1 ++ (queue (contra sd) b).*1 ++ free b)) as Hd
    by (rewrite (book_slots _ _ sd Hb); apply NoDup_seqZ).
  by apply NoDup_app in Hd as [? _].
Qed.

Lemma remove_book_ok n b h o b' : book_ok n b → ABook.remove_at h b = Some (o, b') →
  book_ok n b' ∧ (h, o) ∈ queue (bo_side o) b ∧
  ∀ sd x, x ∈ queue sd b' ↔ x ∈ queue sd b ∧ x.1 ≠ h.
Proof.
  intros Hb. unfold ABook.remove_at. destruct (ABook.at_ h b) as [o'|] eqn:Ho; [|done].
  simpl. intros [= -> <-]. apply at_queue in Ho as [sd Hin].
  pose proof (queue_at_side _ _ _ _ _ Hb Hin) as [_ <-]. set (sd := bo_side o) in *.
  assert (h ∈ (queue sd b).*1) as Hh by (apply list_elem_of_fmap; by exists (h, o)).
  split; [|split; [done|]].
  - replace (with_free _ _) with (with_queue sd (remove_slot h (queue sd b))
      (ABook.mk (bids b) (asks b) (h :: free b) (size b))) by by destruct sd.
    eapply (book_ok_intro _ b sd); [..|exact Hb].
    + rewrite <-(book_slots _ _ sd Hb), <-(remove_slot_perm h (queue sd b)); [solve_Permutation| |done].
      by eapply book_queue_nodup.
    + apply Hb.
    + apply remove_slot_sorted, Hb.
    + intros x [_ Hx]%remove_slot_in. by apply (bk_entry _ _ Hb).
    + intros x y [_ Hx]%remove_slot_in Hy. by apply (book_apart n b).
  - intros s. apply (side_cases sd (λ s, ∀ x, x ∈ queue s _ ↔ x ∈ queue s b ∧ x.1 ≠ h)); intros x.
    + replace (queue sd (with_free _ _)) with (remove_slot h (queue sd b)) by by destruct sd.
      rewrite remove_slot_in. tauto.
    + replace (queue (contra sd) (with_free _ _)) with (queue (contra sd) b) by by destruct sd.
      split; [|tauto]. intros Hx. split; [done|]. intros Heq. destruct x as [h' o2]. simpl in Heq. subst h'.
      destruct (slot_unique _ _ _ _ _ _ _ Hb Hin Hx) as [E _]. by destruct sd.
Qed.

Lemma update_book_ok n b h f b' : book_ok n b → ABook.update_at h f b = Some b' →
  (∀ o, bo_price (f o) = bo_price o ∧ bo_side (f o) = bo_side o ∧
        bo_time_in_force (f o) = bo_time_in_force o) →
  (∀ o, ABook.at_ h b = Some o → 0 < bo_remaining_quantity (f o) < 2 ^ 64) →
  book_ok n b' ∧ (∀ sd, (queue sd b').*1 = (queue sd b).*1) ∧
  ∃ o, ABook.at_ h b = Some o ∧
    ∀ sd, queue sd b' = (λ x, if x.1 =? h then (x.1, f x.2) else x) <$> queue sd b.
Proof.
  intros Hb. unfold ABook.update_at. destruct (ABook.at_ h b) as [o|] eqn:Ho; [|done].
  simpl. intros [= <-] Hf Hq. pose proof (at_queue _ _ _ Ho) as [sd Hin].
  pose proof (queue_at_side _ _ _ _ _ Hb Hin) as [_ <-]. set (sd := bo_side o) in *.
  set (q' := ABook.update_slot h f (queue sd b)).
  assert (∀ s, queue s (with_queue sd q' b) =
    (λ x, if x.1 =? h then (x.1, f x.2) else x) <$> queue s b) as Hqs.
  { apply (side_cases sd); [by rewrite queue_with_queue|]. rewrite queue_with_contra.
    rewrite <-(list_fmap_id (queue (contra sd) b)) at 1. apply list_fmap_ext. intros i x Hx. simpl.
    destruct (Z.eqb_spec x.1 h) as [E|]; [|done]. apply list_elem_of_lookup_2 in Hx. destruct x as [h' o'].
    simpl in E. subst h'. destruct (slot_unique _ _ _ _ _ _ _ Hb Hin Hx) as [E _]. by destruct sd. }
  split; [|split; [|by exists o]].
  - replace (with_queue sd q' b) with (with_queue sd q' (ABook.mk (bids b) (asks b) (free b) (size b)))
      by by destruct b.
    assert (∀ y, y ∈ q' → ∃ x, x ∈ queue sd b ∧ entry_price y = entry_price x ∧ entry_ok sd y) as Hy.
    { intros y (x & Hx & E1 & E2 & E3)%update_slot_in; [|by intros; apply Hf].
      exists x. split; [done|]. split; [done|]. destruct (bk_entry _ _ Hb sd x Hx) as (? & ? & ? & ?).
      unfold entry_ok. rewrite E2, E3. destruct (Z.eqb_spec x.1 h) as [E|]; [|done].
      destruct (Hf x.2) as (_ & -> & ->). split; [done|]. split; [done|]. split; [|done].
      apply Hq.
      destruct x as [h' o']. simpl in *. rewrite E in Hx.
      by destruct (slot_unique _ _ _ _ _ _ _ Hb Hin Hx) as [_ ->]. }
    eapply (book_ok_intro _ b sd); [..|exact Hb].
    + unfold q'. rewrite update_slot_slots. by apply (book_slots n).
    + apply Hb.
    + apply update_slot_sorted, Hb. intros; apply Hf.
    + intros y (x & _ & _ & ?)%Hy. done.
    + intros y z (x & Hx & -> & _)%Hy Hz. by apply (book_apart n b).
  - intros s. rewrite Hqs, <-list_fmap_compose. apply list_fmap_ext. intros i x _. simpl. by case_bool.
Qed.

End EngineInvariant.
