(* ===== verification/EngineTotal.v ===== *)
(** * The handlers of the engine, evaluated

    For each handler, its result, its events and the state it leaves, in closed
    form over the specification book, and the invariant of the state it leaves.
    Together: a command whose price is in range always returns ([process_total]),
    so the engine never runs into undefined behaviour. *)

From S2P Require Import Prelude.
From S2P Require Import Types.
From S2P Require Import Effects.
From S2P Require Import SideIndex.
From S2P Require Import PriceIndex.
From S2P Require Import MatchingBook.
From S2P Require Import BookSpec.
From S2P Require Import BookQueue.
From S2P Require Import MatchingEngine.
From S2P Require Import Fills.
From S2P Require Import EngineMatching.
From S2P Require Import EngineInvariant.

Module EngineTotal.
Import PriceIndex BookQueue MatchingEngine Fills EngineMatching EngineInvariant.
Import ABook (entry, entry_price, queue, with_queue, with_free, free, bids, asks, size,
  next_slot, take_slot, insert_back).

(** ** The invariant of the engine *)

Definition order_key (o : BookOrder) : LiveKey := (bo_account_id o, bo_client_order_id o).

(** Entry [ref] of the directory locates an order that answers to [k]. *)
Definition locates (e : eng) (k : LiveKey) (ref : OrderRef) : Prop :=
  knows_instrument (or_instrument_id ref) e = true ∧
  ∃ b sd o, book_for (or_instrument_id ref) e = Some b ∧
    (or_handle ref, o) ∈ queue sd b ∧ order_key o = k.

(** [n] bounds the slots any book has allocated. *)
Record inv (n : Z) (e : eng) : Prop := {
  iv_books : ∀ slot b, vget (books_ e) slot = Some b → book_ok n b;
  iv_known : ∀ id, knows_instrument id e = true → ∃ b, book_for id e = Some b;
  iv_apart : ∀ id id' s, knows_instrument id e = true → knows_instrument id' e = true →
    vget (slot_of_id_ e) id = Some s → vget (slot_of_id_ e) id' = Some s → id = id';
  iv_dir : ∀ k ref, orders_ e !! k = Some ref → locates e k ref;
}.

Lemma known_book n e id : inv n e → knows_instrument id e = true →
  ∃ b, book_for id e = Some b ∧ book_ok n b.
Proof.
  intros HI Hk. destruct (iv_known _ _ HI id Hk) as [b Hb]. exists b. split; [done|].
  unfold book_for in Hb. apply bind_Some in Hb as (slot & _ & Hb). by apply (iv_books _ _ HI slot).
Qed.

Lemma book_for_other n e id id' b : inv n e → knows_instrument id e = true →
  knows_instrument id' e = true → id' ≠ id → book_for id' (with_book id b e) = book_for id' e.
Proof.
  intros HI Hk Hk' Hne. unfold book_for, with_book. simpl.
  destruct (vget (slot_of_id_ e) id) as [s|] eqn:Hs; [|done].
  destruct (vget (slot_of_id_ e) id') as [s'|] eqn:Hs'; simpl; [|done].
  assert (0 ≤ s) as Hs0.
  { destruct (iv_known _ _ HI id Hk) as [b0 Hb]. unfold book_for in Hb. rewrite Hs in Hb. simpl in Hb.
    by apply vget_lt in Hb as [? _]. }
  apply vget_vput_ne; [done|]. intros ->. by apply Hne, (iv_apart _ _ HI _ _ s').
Qed.

(** How the engine's invariant is put back together after a command changed
    one book, the directory and the counters. *)
Lemma inv_change n m e id b b' orders' oid seq pri : inv n e → n ≤ m →
  knows_instrument id e = true → book_for id e = Some b → book_ok m b' →
  (∀ k ref, orders' !! k = Some ref →
     (orders_ e !! k = Some ref ∧ (or_instrument_id ref = id → ∀ sd o, (or_handle ref, o) ∈ queue sd b →
        order_key o = k → ∃ sd' o', (or_handle ref, o') ∈ queue sd' b' ∧ order_key o' = k)) ∨
     (or_instrument_id ref = id ∧ ∃ sd o, (or_handle ref, o) ∈ queue sd b' ∧ order_key o = k)) →
  inv m (with_counters oid seq pri (with_orders orders' (with_book id b' e))).
Proof.
  intros HI Hnm Hk Hb Hb' Hdir. pose proof (book_for_with id b' b e Hb) as Hbf.
  split.
  - intros slot c. simpl. unfold book_for in Hb. destruct (vget (slot_of_id_ e) id) as [s|]; [|done].
    simpl in Hb. rewrite vget_vput by (by eapply vget_lt). case_decide; [by intros [= <-]|].
    intros Hc. eapply book_ok_mono; [by apply (iv_books _ _ HI slot)|done].
  - intros id' Hk'. destruct (decide (id' = id)) as [->|Hne]; [by exists b'|].
    destruct (iv_known _ _ HI id' Hk') as [c Hc]. exists c.
    change (book_for id' (with_book id b' e) = Some c). by rewrite (book_for_other n).
  - apply (iv_apart _ _ HI).
  - intros k ref [[Ho Hmove]|[Hid (sd & o & Hin & Hkey)]]%Hdir.
    + destruct (iv_dir _ _ HI k ref Ho) as (Hk' & c & sd & o & Hc & Hin & Hkey). split; [done|].
      destruct (decide (or_instrument_id ref = id)) as [E|Hne].
      * rewrite E in *. rewrite Hb in Hc. injection Hc as <-.
        destruct (Hmove eq_refl sd o Hin Hkey) as (sd' & o' & ? & ?). by exists b', sd', o'.
      * exists c, sd, o. split; [|done].
        change (book_for (or_instrument_id ref) (with_book id b' e) = Some c).
        by rewrite (book_for_other n).
    + split; [by rewrite Hid|]. exists b', sd, o. by rewrite Hid.
Qed.

Lemma inv_counters n m e oid seq pri : inv n e → n ≤ m → inv m (with_counters oid seq pri e).
Proof.
  intros [] ?. split; try done. intros. eapply book_ok_mono; [by eapply iv_books0|done].
Qed.

(** ** Matching keeps the invariant *)

Lemma orders_after_lookup fs : ∀ m k ref, orders_after m fs !! k = Some ref →
  m !! k = Some ref ∧ ∀ x, x ∈ fs → fl_after x = 0 → fill_key x ≠ k.
Proof.
  induction fs as [|x fs IH]; intros m k ref; simpl.
  { intros ?. split; [done|]. by intros y ?%not_elem_of_nil. }
  intros [Hm Hfs]%IH. destruct (Z.eqb_spec (fl_after x) 0) as [E|E].
  - apply lookup_delete_Some in Hm as [Hne Hm]. split; [done|].
    intros y [->|Hy]%elem_of_cons ?; [done|by apply Hfs].
  - split; [done|]. intros y [->|Hy]%elem_of_cons ?; [done|by apply Hfs].
Qed.

Lemma queue_book_after_contra sd b r : queue (contra sd) (book_after sd b r) = queue (contra sd) b.
Proof. by destruct sd. Qed.

Lemma match_inv n e b incoming : inv n e → knows_instrument (ero_instrument_id incoming) e = true →
  book_for (ero_instrument_id incoming) e = Some b → 0 ≤ ero_remaining_quantity incoming →
  inv n (engine_after (ero_instrument_id incoming) (contra (ero_side incoming)) b e (outcome_of incoming b)).
Proof.
  intros HI Hk Hb Hr. set (id := ero_instrument_id incoming) in *. set (sd := contra (ero_side incoming)).
  assert (book_ok n b) as Hok.
  { unfold book_for in Hb. apply bind_Some in Hb as (slot & _ & Hs). by apply (iv_books _ _ HI slot). }
  apply (inv_change n n e id b); try done; [by apply fill_book_ok|].
  intros k ref [Ho Hkeep]%orders_after_lookup. left. split; [done|]. intros _ sd' o Hin Hkey.
  exists sd'. revert Hin. apply (side_cases sd (λ sd', _ ∈ queue sd' b → ∃ o', _ ∈ queue sd' _ ∧ _)).
  - intros Hin. rewrite queue_book_after.
    destruct (fill_tracks (ero_side incoming) (ero_price incoming) (queue sd b)
      (ero_remaining_quantity incoming) _ Hin) as [(o' & Hin' & Ho')|(f & Hf & Hfe & Ha)].
    + exists o'. split; [done|]. destruct Ho' as [->|[q ->]]; done.
    + destruct (Hkeep f Hf Ha). unfold fill_key, fl_order. by rewrite Hfe.
  - intros Hin. exists o. rewrite queue_book_after_contra. done.
Qed.

(** ** Resting *)

Definition book_order (o : ExchangeRestingOrder) : BookOrder :=
  mkBookOrder (ero_exchange_order_id o) (ero_client_order_id o) (ero_account_id o)
    (ero_price o) (ero_remaining_quantity o) (ero_side o) (ero_time_in_force o).

Definition rests (o : ExchangeRestingOrder) : bool :=
  bool_decide (ero_time_in_force o = GTC) && negb (ero_remaining_quantity o =? 0).

(** The book with the order behind its price level. *)
Definition rest_book (o : ExchangeRestingOrder) (b : book) : book :=
  with_queue (ero_side o)
    (insert_back (ero_side o) (next_slot b, book_order o) (queue (ero_side o) b)) (take_slot b).

Definition rest_ref (o : ExchangeRestingOrder) (b : book) : OrderRef :=
  mkOrderRef (ero_original_quantity o) (ero_order_sequence o) (next_slot b) (ero_instrument_id o).

Definition rest_state (o : ExchangeRestingOrder) (b : book) (e : eng) : eng :=
  if rests o then
    with_counters (next_exchange_order_id_ e) (next_seq (next_event_sequence_ e)) (next_priority_ e)
      (with_orders (<[(ero_account_id o, ero_client_order_id o) := rest_ref o b]> (orders_ e))
        (with_book (ero_instrument_id o) (rest_book o b) e))
  else e.

Definition rest_events (o : ExchangeRestingOrder) (n : EventSequence) : list ExchangeEvent :=
  if rests o then
    [EvAdded (mkBookOrderAdded n (ero_instrument_id o) (ero_exchange_order_id o)
      (ero_side o) (ero_price o) (ero_remaining_quantity o))]
  else [].

Lemma rest_run o b e : book_for (ero_instrument_id o) e = Some b → price_safe (ero_price o) →
  next_slot b < MatchingBook.kNil →
  rest_remainder_if_applicable o e = Some (tt, rest_state o b e, rest_events o (next_event_sequence_ e)).
Proof.
  intros Hb Hp Hn. unfold rest_remainder_if_applicable, rest_state, rest_events, rests.
  destruct (bool_decide _), (_ =? 0); simpl; try done.
  unfold ebind, insert_or_assign, emodify, sink, eemit.
  rewrite (change_book_run _ _ b (next_slot b) (rest_book o b)); [done|done|].
  simpl. unfold ABook.add. cbn [bo_price bo_side].
  rewrite bool_decide_true by done. rewrite (proj2 (Z.ltb_lt _ _)) by done. done.
Qed.

Lemma next_slot_bound n b : book_ok n b → next_slot b ≤ n.
Proof.
  intros Hb. pose proof (bk_size _ _ Hb). unfold next_slot. destruct (free b) as [|f l] eqn:Hf; [lia|].
  assert (f ∈ (bids b).*1 ++ (asks b).*1 ++ free b) as Hin
    by (rewrite Hf, !elem_of_app; right; right; by left).
  rewrite (bk_slots _ _ Hb), elem_of_seqZ in Hin. lia.
Qed.

Lemma rest_book_ok n o b : book_ok n b → price_safe (ero_price o) → next_slot b < MatchingBook.kNil →
  0 < ero_remaining_quantity o < 2 ^ 64 → ero_time_in_force o = GTC →
  (∀ y, y ∈ queue (contra (ero_side o)) b → crosses (ero_side o) (ero_price o) (entry_price y) = false) →
  book_ok (n + 1) (rest_book o b) ∧ (next_slot b, book_order o) ∈ queue (ero_side o) (rest_book o b) ∧
  ∀ sd x, x ∈ queue sd b → x ∈ queue sd (rest_book o b).
Proof.
  intros Hb Hp Hn Hq Ht Hc.
  apply (add_book_ok n b (book_order o) (next_slot b)); try done.
  unfold ABook.add. cbn [bo_price bo_side book_order].
  rewrite bool_decide_true by done. by rewrite (proj2 (Z.ltb_lt _ _)).
Qed.

Lemma rest_inv n e o b : inv n e → knows_instrument (ero_instrument_id o) e = true →
  book_for (ero_instrument_id o) e = Some b → price_safe (ero_price o) → n < MatchingBook.kNil →
  0 ≤ ero_remaining_quantity o < 2 ^ 64 →
  (ero_remaining_quantity o = 0 ∨
   ∀ y, y ∈ queue (contra (ero_side o)) b → crosses (ero_side o) (ero_price o) (entry_price y) = false) →
  inv (n + 1) (rest_state o b e).
Proof.
  intros HI Hk Hb Hp Hn Hq Hc. unfold rest_state, rests.
  destruct (bool_decide_reflect (ero_time_in_force o = GTC)) as [Ht|]; simpl.
  2: { pose proof (inv_counters n (n + 1) e (next_exchange_order_id_ e) (next_event_sequence_ e) (next_priority_ e) HI ltac:(lia)).
       by destruct e. }
  destruct (Z.eqb_spec (ero_remaining_quantity o) 0) as [|Hnz]; simpl.
  { pose proof (inv_counters n (n + 1) e (next_exchange_order_id_ e) (next_event_sequence_ e) (next_priority_ e) HI ltac:(lia)).
    by destruct e. }
  destruct Hc as [|Hc]; [done|]. destruct (known_book _ _ _ HI Hk) as (b' & Hb' & Hok).
  rewrite Hb in Hb'. injection Hb' as <-. pose proof (next_slot_bound _ _ Hok).
  destruct (rest_book_ok n o b Hok Hp ltac:(lia) ltac:(lia) Ht Hc) as (Hok' & Hin & Hmono).
  apply (inv_change n (n + 1) e _ b); try done; [lia|]. intros k ref Hl.
  destruct (decide ((ero_account_id o, ero_client_order_id o) = k)) as [E|E].
  - rewrite lookup_insert in Hl. rewrite decide_True in Hl by done. injection Hl as <-.
    right. split; [done|]. exists (ero_side o), (book_order o). split; [done|]. by rewrite <-E.
  - rewrite lookup_insert_ne in Hl by done. left. split; [done|]. intros _ sd x Hx Hkey.
    exists sd, x. split; [by apply Hmono|done].
Qed.

(** ** An order submitted: matched, then rested *)

(** The incoming order after matching. *)
Definition matched (o : ExchangeRestingOrder) (b : book) : ExchangeRestingOrder :=
  ero_with_remaining (oc_remaining (outcome_of o b)) o.

Definition book_matched (o : ExchangeRestingOrder) (b : book) : book :=
  book_after (contra (ero_side o)) b (outcome_of o b).

Definition submit_state (o : ExchangeRestingOrder) (b : book) (e : eng) : eng :=
  rest_state (matched o b) (book_matched o b)
    (engine_after (ero_instrument_id o) (contra (ero_side o)) b e (outcome_of o b)).

Definition submit_events (o : ExchangeRestingOrder) (cs : CommandSequence) (b : book)
    (n : EventSequence) : list ExchangeEvent :=
  fill_events o cs n (ero_remaining_quantity o) (oc_fills (outcome_of o b)) ++
  rest_events (matched o b) (seq_after n (oc_fills (outcome_of o b))).

Definition submit (o : ExchangeRestingOrder) (cs : CommandSequence) : eff eng ExchangeEvent unit :=
  (o ← match_and_rest o cs; rest_remainder_if_applicable o)%eff.

Section submit.
Context (n : Z) (o : ExchangeRestingOrder) (b : book) (e : eng).
Context (HI : inv n e) (Hk : knows_instrument (ero_instrument_id o) e = true).
Context (Hb : book_for (ero_instrument_id o) e = Some b) (Hp : price_safe (ero_price o)).
Context (Hn : n < MatchingBook.kNil) (Hq : 0 < ero_remaining_quantity o < 2 ^ 64).

Lemma submit_book : book_ok n b.
Proof. destruct (known_book _ _ _ HI Hk) as (b' & Hb' & ?). congruence. Qed.

Lemma submit_matched_range : 0 ≤ ero_remaining_quantity (matched o b) ≤ ero_remaining_quantity o.
Proof. apply fill_remaining_range; [lia|]. by apply (book_live n), submit_book. Qed.

Lemma submit_matched_ok : book_ok n (book_matched o b).
Proof. apply fill_book_ok; [apply submit_book|lia]. Qed.

Lemma submit_run cs :
  submit o cs e = Some (tt, submit_state o b e, submit_events o cs b (next_event_sequence_ e)).
Proof.
  unfold submit, ebind. rewrite (match_and_rest_run cs o b e Hb); [|by apply (book_live n), submit_book|lia].
  cbn [loop_result]. pose proof (book_for_engine_after _ (contra (ero_side o)) _ _ (outcome_of o b) Hb) as Hb1.
  rewrite (rest_run (matched o b) (book_matched o b)); [done|exact Hb1|done|].
  pose proof (next_slot_bound _ _ submit_matched_ok). lia.
Qed.

(** After matching, what is left of the order does not cross what is left of
    the book. *)
Lemma submit_uncrossed : ero_remaining_quantity (matched o b) = 0 ∨
  ∀ y, y ∈ queue (contra (ero_side o)) (book_matched o b) →
    crosses (ero_side o) (ero_price o) (entry_price y) = false.
Proof.
  unfold matched, book_matched. rewrite queue_book_after. apply fill_exhausts;
    [apply (bk_sorted _ _ submit_book)|lia|by apply (book_live n), submit_book].
Qed.

Lemma submit_inv : inv (n + 1) (submit_state o b e).
Proof.
  apply rest_inv; try done.
  - apply match_inv; try done. lia.
  - by apply book_for_engine_after.
  - pose proof submit_matched_range. lia.
  - apply submit_uncrossed.
Qed.
End submit.

(** ** New orders *)

Lemma crossable_run id sd p q b (e : eng) : book_for id e = Some b →
  on_book id (book_crossable sd p q) e = Some (ABook.crossable sd p q 0 (queue sd b), e, []).
Proof. intros Hb. by apply (on_book_run _ _ b). Qed.

Lemma book_at_run id h b o (e : eng) : book_for id e = Some b → ABook.at_ h b = Some o →
  on_book id (book_at h) e = Some (o, e, []).
Proof. intros Hb Ho. by apply (on_book_run _ _ b). Qed.

Lemma lookup_order_run k (e : eng) : lookup_order k e = Some (orders_ e !! k, e, []).
Proof. done. Qed.


Definition new_order (cmd : NewOrderCommand) (e : eng) : ExchangeRestingOrder :=
  mkRestingOrder (next_exchange_order_id_ e) (no_client_order_id cmd) (no_account_id cmd)
    (no_price cmd) (no_quantity cmd) (no_quantity cmd) (next_priority_ e) (no_instrument_id cmd)
    (no_side cmd) (no_time_in_force cmd).

Definition accepted_event (cmd : NewOrderCommand) (e : eng) : ExchangeEvent :=
  EvAccepted (mkOrderAccepted (next_event_sequence_ e) (no_command_sequence cmd) (no_account_id cmd)
    (no_client_order_id cmd) (next_exchange_order_id_ e) (no_instrument_id cmd) (no_side cmd)
    (no_price cmd) (no_quantity cmd) (no_order_type cmd) (no_time_in_force cmd)).

(** The counters once the order is announced. *)
Definition announced (e : eng) : eng :=
  with_counters (u64 (next_exchange_order_id_ e + 1)) (next_seq (next_event_sequence_ e))
    (u64 (next_priority_ e + 1)) e.

(** The first check a new order fails, in the order of the code. *)
Definition new_order_reason (cmd : NewOrderCommand) (e : eng) : option RejectReason :=
  if negb (knows_instrument (no_instrument_id cmd) e) then Some RejectReason.InvalidInstrument
  else if no_price cmd <=? 0 then Some RejectReason.InvalidPrice
  else if no_quantity cmd =? 0 then Some RejectReason.InvalidQuantity
  else if bool_decide (is_Some (orders_ e !! (no_account_id cmd, no_client_order_id cmd)))
  then Some RejectReason.DuplicateOrderId
  else
    match book_for (no_instrument_id cmd) e with
    | Some b =>
        if bool_decide (no_time_in_force cmd = FOK) &&
           (ABook.crossable (contra (no_side cmd)) (no_price cmd) (no_quantity cmd) 0
              (queue (contra (no_side cmd)) b) <? no_quantity cmd)
        then Some RejectReason.InsufficientLiquidity else None
    | None => None
    end.

Definition new_rejected_event (cmd : NewOrderCommand) (reason : RejectReason) (n : EventSequence) :=
  EvRejected (mkOrderRejected n (no_command_sequence cmd) (no_account_id cmd)
    (no_client_order_id cmd) (no_instrument_id cmd) reason).

(** A rejection advances the event counter and nothing else. *)
Definition after_rejection (e : eng) : eng :=
  with_counters (next_exchange_order_id_ e) (next_seq (next_event_sequence_ e)) (next_priority_ e) e.

Lemma process_new_order_rejected cmd e reason : new_order_reason cmd e = Some reason →
  (knows_instrument (no_instrument_id cmd) e = true → is_Some (book_for (no_instrument_id cmd) e)) →
  process_new_order cmd e =
    Some (tt, after_rejection e, [new_rejected_event cmd reason (next_event_sequence_ e)]).
Proof.
  intros Hr Hkb. unfold new_order_reason in Hr. unfold process_new_order, ebind, eget.
  destruct (knows_instrument _ e); cbn [negb] in *; [|by injection Hr as <-].
  destruct (_ <=? _); [by injection Hr as <-|]. destruct (_ =? 0); [by injection Hr as <-|].
  rewrite lookup_order_run. destruct (bool_decide (is_Some _)); [by injection Hr as <-|].
  destruct (Hkb eq_refl) as [b Hb]. rewrite Hb in Hr.
  destruct (bool_decide (no_time_in_force cmd = FOK)); cbn [andb] in Hr; [|done].
  rewrite (crossable_run _ _ _ _ _ _ Hb). destruct (_ <? _); [by injection Hr as <-|done].
Qed.

Lemma process_new_order_accepted cmd n e b : inv n e → new_order_reason cmd e = None →
  book_for (no_instrument_id cmd) e = Some b → price_safe (no_price cmd) → n < MatchingBook.kNil →
  0 ≤ no_quantity cmd < 2 ^ 64 →
  process_new_order cmd e =
    Some (tt, submit_state (new_order cmd e) b (announced e),
          accepted_event cmd e ::
          submit_events (new_order cmd e) (no_command_sequence cmd) b (next_seq (next_event_sequence_ e))) ∧
  inv (n + 1) (submit_state (new_order cmd e) b (announced e)).
Proof.
  intros HI Hr Hb Hp Hn Hq. unfold new_order_reason in Hr. rewrite Hb in Hr.
  destruct (knows_instrument (no_instrument_id cmd) e) eqn:Hk; simpl in Hr; [|done].
  destruct (Z.leb_spec (no_price cmd) 0); [done|]. destruct (Z.eqb_spec (no_quantity cmd) 0); [done|].
  case_bool_decide as Hd; [done|].
  assert (inv n (announced e)) as HI' by by apply (inv_counters n n).
  pose proof (submit_run n (new_order cmd e) b (announced e) HI' Hk Hb Hp Hn ltac:(simpl; lia)
    (no_command_sequence cmd)) as Hrun.
  assert (accept_new_order cmd e = Some (tt, submit_state (new_order cmd e) b (announced e),
    accepted_event cmd e :: submit_events (new_order cmd e) (no_command_sequence cmd) b
      (next_seq (next_event_sequence_ e)))) as Hacc.
  { unfold accept_new_order. eapply (ebind_run _ _ _ _ _ []); [reflexivity|].
    eapply (ebind_run _ _ _ _ _ []); [reflexivity|].
    eapply (ebind_run _ _ _ _ _ [_]); [reflexivity|]. exact Hrun. }
  split; [|apply (submit_inv n); try done; simpl; lia].
  unfold process_new_order, ebind at 1, eget. rewrite Hk. cbn [negb].
  rewrite (proj2 (Z.leb_gt _ _)), (proj2 (Z.eqb_neq _ _)) by done.
  unfold ebind. rewrite lookup_order_run, bool_decide_false by done.
  case_bool_decide; simpl in Hr; [|by rewrite Hacc].
  rewrite (crossable_run _ _ _ _ _ _ Hb).
  destruct (_ <? _); [done|]. by rewrite Hacc.
Qed.

(** ** Cancels *)

Definition cancel_reason (cmd : CancelOrderCommand) (e : eng) : option RejectReason :=
  if negb (knows_instrument (co_instrument_id cmd) e) then Some RejectReason.InvalidInstrument
  else
    match orders_ e !! (co_account_id cmd, co_client_order_id cmd) with
    | None => Some RejectReason.UnknownOrderId
    | Some ref =>
        if or_instrument_id ref =? co_instrument_id cmd then None
        else Some RejectReason.UnknownOrderId
    end.

Lemma process_cancel_rejected cmd e reason : cancel_reason cmd e = Some reason →
  process_cancel cmd e =
    Some (tt, after_rejection e,
          [EvRejected (mkOrderRejected (next_event_sequence_ e) (co_command_sequence cmd)
             (co_account_id cmd) (co_client_order_id cmd) (co_instrument_id cmd) reason)]).
Proof.
  unfold cancel_reason, process_cancel, ebind, eget. intros Hr.
  destruct (knows_instrument _ e); cbn [negb] in *; [|by injection Hr as <-].
  rewrite lookup_order_run. destruct (orders_ e !! _) as [ref|]; [|by injection Hr as <-].
  destruct (_ =? _); cbn [negb]; [done|by injection Hr as <-].
Qed.

(** The entry of the directory, resolved: the book, and the order in it. *)
Lemma located n e k ref : inv n e → orders_ e !! k = Some ref →
  knows_instrument (or_instrument_id ref) e = true ∧
  ∃ b o, book_for (or_instrument_id ref) e = Some b ∧ book_ok n b ∧
    ABook.at_ (or_handle ref) b = Some o ∧ order_key o = k.
Proof.
  intros HI Hk. destruct (iv_dir _ _ HI k ref Hk) as (Hkn & b & sd & o & Hb & Hin & Ho).
  split; [done|]. exists b, o. destruct (known_book _ _ _ HI Hkn) as (b' & Hb' & Hok).
  rewrite Hb in Hb'. injection Hb' as <-. split_and!; try done. by eapply queue_at.
Qed.

(** The order removed from its book, and its entry from the directory. *)
Definition removed_state (id : InstrumentId) (k : LiveKey) (h : Z) (o : BookOrder) (b : book) (e : eng) : eng :=
  with_orders (delete k (orders_ e))
    (with_book id (with_free (h :: free b)
      (with_queue (bo_side o) (ABook.remove_slot h (queue (bo_side o) b)) b)) e).

Lemma remove_at_run h b o : ABook.at_ h b = Some o →
  ABook.remove_at h b = Some (o, with_free (h :: free b)
    (with_queue (bo_side o) (ABook.remove_slot h (queue (bo_side o) b)) b)).
Proof. intros Ho. unfold ABook.remove_at. by rewrite Ho. Qed.

Lemma removed_inv n e k ref b o : inv n e → orders_ e !! k = Some ref →
  book_for (or_instrument_id ref) e = Some b → ABook.at_ (or_handle ref) b = Some o →
  inv n (removed_state (or_instrument_id ref) k (or_handle ref) o b e).
Proof.
  intros HI Hk Hb Ho. destruct (located _ _ _ _ HI Hk) as (Hkn & b' & o' & Hb' & Hok & Ho' & Hkey).
  simplify_eq. pose proof (remove_at_run _ _ _ Ho) as Hrem.
  destruct (remove_book_ok _ _ _ _ _ Hok Hrem) as (Hok2 & Hin & Hmem).
  set (b2 := with_free _ _) in *. set (k := order_key o) in *.
  change (removed_state _ _ _ _ _ _) with (with_counters (next_exchange_order_id_ e)
    (next_event_sequence_ e) (next_priority_ e) (with_orders (delete k (orders_ e))
      (with_book (or_instrument_id ref) b2 e))).
  apply (inv_change n n e (or_instrument_id ref) b); try done.
  intros k' ref' [Hne Hl]%lookup_delete_Some. left. split; [done|]. intros Hid sd x Hx Hkx.
  exists sd, x. split; [|done]. apply Hmem. split; [done|]. simpl. intros Hh. apply Hne.
  rewrite Hh in Hx. destruct (slot_unique _ _ _ _ _ _ _ Hok Hx Hin) as [_ ->]. done.
Qed.

Definition cancelled_state (cmd : CancelOrderCommand) (ref : OrderRef) (o : BookOrder) (b : book) (e : eng) : eng :=
  with_counters (next_exchange_order_id_ e) (next_seq (next_seq (next_event_sequence_ e))) (next_priority_ e)
    (removed_state (co_instrument_id cmd) (co_account_id cmd, co_client_order_id cmd) (or_handle ref) o b e).

Lemma process_cancel_accepted cmd n e : inv n e → cancel_reason cmd e = None →
  ∃ ref b o, orders_ e !! (co_account_id cmd, co_client_order_id cmd) = Some ref ∧
    book_for (co_instrument_id cmd) e = Some b ∧ ABook.at_ (or_handle ref) b = Some o ∧
    order_key o = (co_account_id cmd, co_client_order_id cmd) ∧
    process_cancel cmd e = Some (tt, cancelled_state cmd ref o b e,
      [EvCancelled (mkOrderCancelled (next_event_sequence_ e) (co_command_sequence cmd)
         (co_account_id cmd) (co_client_order_id cmd) (bo_exchange_order_id o) (co_instrument_id cmd));
       EvRemoved (mkBookOrderRemoved (next_seq (next_event_sequence_ e)) (co_instrument_id cmd)
         (bo_exchange_order_id o) (bo_side o) (bo_price o))]) ∧
    inv n (cancelled_state cmd ref o b e).
Proof.
  intros HI Hr. unfold cancel_reason in Hr.
  destruct (knows_instrument _ e) eqn:Hkn; cbn [negb] in Hr; [|done].
  destruct (orders_ e !! _) as [ref|] eqn:Hk; [|done].
  destruct (Z.eqb_spec (or_instrument_id ref) (co_instrument_id cmd)) as [Hid|]; [|done].
  destruct (located _ _ _ _ HI Hk) as (_ & b & o & Hb & Hok & Ho & Hkey).
  pose proof (removed_inv _ _ _ _ _ _ HI Hk Hb Ho) as HI'. rewrite Hid in *.
  exists ref, b, o. split_and!; try done; [|by apply (inv_counters n n)].
  unfold process_cancel. eapply (ebind_run _ _ _ _ _ []); [reflexivity|]. rewrite Hkn. cbn [negb].
  eapply (ebind_run _ _ _ _ _ []); [reflexivity|]. rewrite Hk, Hid, Z.eqb_refl. cbn [negb].
  eapply (ebind_run _ _ _ _ _ []); [reflexivity|].
  eapply (ebind_run _ _ _ _ _ []).
  { apply (change_book_run _ _ b o); [exact Hb|]. by apply remove_at_run. }
  eapply (ebind_run _ _ _ _ _ [_]); reflexivity.
Qed.

(** ** Replaces *)

Definition replace_reason (cmd : ReplaceOrderCommand) (e : eng) : option RejectReason :=
  if negb (knows_instrument (ro_instrument_id cmd) e) then Some RejectReason.InvalidInstrument
  else if (ro_new_price cmd <=? 0) || (ro_new_quantity cmd =? 0) then Some RejectReason.InvalidReplacement
  else
    match orders_ e !! (ro_account_id cmd, ro_original_client_order_id cmd) with
    | None => Some RejectReason.UnknownOrderId
    | Some ref =>
        if or_instrument_id ref =? ro_instrument_id cmd then None
        else Some RejectReason.UnknownOrderId
    end.

Lemma process_replace_rejected cmd e reason : replace_reason cmd e = Some reason →
  process_replace cmd e =
    Some (tt, after_rejection e,
          [EvRejected (mkOrderRejected (next_event_sequence_ e) (ro_command_sequence cmd)
             (ro_account_id cmd) (ro_original_client_order_id cmd) (ro_instrument_id cmd) reason)]).
Proof.
  unfold replace_reason, process_replace, ebind, eget. intros Hr.
  destruct (knows_instrument _ e); cbn [negb] in *; [|by injection Hr as <-].
  destruct (_ || _); [by injection Hr as <-|].
  rewrite lookup_order_run. destruct (orders_ e !! _) as [ref|]; [|by injection Hr as <-].
  destruct (_ =? _); cbn [negb]; [done|by injection Hr as <-].
Qed.

Definition preserves_priority (cmd : ReplaceOrderCommand) (o : BookOrder) : bool :=
  (ro_new_price cmd =? bo_price o) && (ro_new_quantity cmd <=? bo_remaining_quantity o).

Definition old_key (cmd : ReplaceOrderCommand) : LiveKey :=
  (ro_account_id cmd, ro_original_client_order_id cmd).

Definition new_key (cmd : ReplaceOrderCommand) : LiveKey :=
  (ro_account_id cmd, ro_new_client_order_id cmd).

(** Both in-place edits of a replace at once. *)
Definition replace_fields (cmd : ReplaceOrderCommand) (o : BookOrder) : BookOrder :=
  bo_with_client_order_id (ro_new_client_order_id cmd) (bo_with_remaining (ro_new_quantity cmd) o).

(** The book with order [h] edited where it stands. *)
Definition edited_book (h : Z) (f : BookOrder → BookOrder) (sd : Side) (b : book) : book :=
  with_queue sd (ABook.update_slot h f (queue sd b)) b.

Definition replaced_in_place (cmd : ReplaceOrderCommand) (ref : OrderRef) (o : BookOrder) (b : book) (e : eng) : eng :=
  with_counters (next_exchange_order_id_ e) (next_seq (next_seq (next_event_sequence_ e))) (next_priority_ e)
    (with_orders (<[new_key cmd := ref]> (delete (old_key cmd) (orders_ e)))
      (with_book (ro_instrument_id cmd) (edited_book (or_handle ref) (replace_fields cmd) (bo_side o) b) e)).

(** The order that re-enters matching on the priority-losing path. *)
Definition replacement (cmd : ReplaceOrderCommand) (o : BookOrder) (e : eng) : ExchangeRestingOrder :=
  mkRestingOrder (next_exchange_order_id_ e) (ro_new_client_order_id cmd) (ro_account_id cmd)
    (ro_new_price cmd) (ro_new_quantity cmd) (ro_new_quantity cmd) (next_priority_ e)
    (ro_instrument_id cmd) (bo_side o) (bo_time_in_force o).

Definition replaced_events (cmd : ReplaceOrderCommand) (oid : ExchangeOrderId) (n : EventSequence) (last : EventSequence → ExchangeEvent) :=
  [EvReplaced (mkOrderReplaced n (ro_command_sequence cmd) (ro_account_id cmd)
     (ro_original_client_order_id cmd) (ro_new_client_order_id cmd) oid (ro_instrument_id cmd)
     (ro_new_price cmd) (ro_new_quantity cmd)); last (next_seq n)].

Lemma update_slot_compose h f g q :
  ABook.update_slot h g (ABook.update_slot h f q) = ABook.update_slot h (λ o, g (f o)) q.
Proof.
  unfold ABook.update_slot. rewrite <-list_fmap_compose. apply list_fmap_ext. intros i [h' o] _. simpl.
  destruct (h' =? h) eqn:E; simpl; by rewrite E.
Qed.

Lemma update_at_run h f b o : ABook.at_ h b = Some o →
  ABook.update_at h f b = Some (edited_book h f (bo_side o) b).
Proof. intros Ho. unfold ABook.update_at. by rewrite Ho. Qed.

(** An edit that keeps price, side and time in force keeps the book. *)
Lemma edited_ok n b h o f : book_ok n b → ABook.at_ h b = Some o →
  (∀ o, bo_price (f o) = bo_price o ∧ bo_side (f o) = bo_side o ∧ bo_time_in_force (f o) = bo_time_in_force o) →
  0 < bo_remaining_quantity (f o) < 2 ^ 64 →
  book_ok n (edited_book h f (bo_side o) b) ∧
  ABook.at_ h (edited_book h f (bo_side o) b) = Some (f o) ∧
  ∀ sd x, x ∈ queue sd b → (x.1, if x.1 =? h then f x.2 else x.2) ∈ queue sd (edited_book h f (bo_side o) b).
Proof.
  intros Hok Ho Hf Hq. pose proof (update_at_run h f b o Ho) as Hu.
  destruct (update_book_ok _ _ _ _ _ Hok Hu Hf) as (Hok' & _ & o' & Ho' & Hqs).
  { intros ? [= <-]%(eq_trans (eq_sym Ho)). done. }
  split; [done|]. assert (∀ sd x, x ∈ queue sd b →
    (x.1, if x.1 =? h then f x.2 else x.2) ∈ queue sd (edited_book h f (bo_side o) b)) as Hin.
  { intros sd x Hx. rewrite Hqs. apply list_elem_of_fmap. exists x. split; [|done].
    by destruct x as [? ?]; simpl; case_bool. }
  split; [|done]. apply at_queue in Ho as [sd Hx]. apply Hin in Hx. simpl in Hx. rewrite Z.eqb_refl in Hx.
  by eapply queue_at.
Qed.

Lemma edited_twice h f g sd b :
  edited_book h g sd (edited_book h f sd b) = edited_book h (λ o, g (f o)) sd b.
Proof. unfold edited_book. rewrite queue_with_queue, update_slot_compose. by destruct sd. Qed.

Lemma replaced_in_place_inv n e cmd ref b o : inv n e → orders_ e !! old_key cmd = Some ref →
  or_instrument_id ref = ro_instrument_id cmd →
  book_for (ro_instrument_id cmd) e = Some b → ABook.at_ (or_handle ref) b = Some o →
  0 < ro_new_quantity cmd < 2 ^ 64 →
  inv n (replaced_in_place cmd ref o b e).
Proof.
  intros HI Hk Hid Hb Ho Hq. destruct (located _ _ _ _ HI Hk) as (Hkn & b' & o' & Hb' & Hok & Ho' & Hkey).
  rewrite Hid in *. simplify_eq.
  destruct (edited_ok n b (or_handle ref) o (replace_fields cmd) Hok Ho) as (Hok' & Ho2 & Hin); [done|done|].
  apply (inv_change n n e (ro_instrument_id cmd) b); try done. intros k ref' Hl.
  assert (order_key (replace_fields cmd o) = new_key cmd) as Hnk.
  { unfold order_key in *. simpl. unfold old_key, new_key in *. congruence. }
  destruct (decide (new_key cmd = k)) as [E|E].
  - rewrite lookup_insert, decide_True in Hl by done. injection Hl as <-. right. split; [done|].
    apply at_queue in Ho2 as [sd Hs]. exists sd, (replace_fields cmd o). split; [done|congruence].
  - rewrite lookup_insert_ne in Hl by done. apply lookup_delete_Some in Hl as [Hne Hl].
    left. split; [done|]. intros Hi sd x Hx Hkx. eexists sd, _. split; [by apply (Hin sd _ Hx)|].
    simpl. destruct (Z.eqb_spec (or_handle ref') (or_handle ref)) as [Hh|]; [|done].
    rewrite Hh in Hx. destruct Hne. apply (queue_at n) in Hx; [|done]. rewrite Ho in Hx. congruence.
Qed.

Lemma replace_in_place_run cmd ref b o e n : book_for (ro_instrument_id cmd) e = Some b →
  ABook.at_ (or_handle ref) b = Some o → book_ok n b →
  0 < ro_new_quantity cmd < 2 ^ 64 →
  replace_in_place cmd ref o e = Some (tt, replaced_in_place cmd ref o b e,
    replaced_events cmd (bo_exchange_order_id o) (next_event_sequence_ e)
      (λ n, EvReduced (mkBookOrderReduced n (ro_instrument_id cmd) (bo_exchange_order_id o)
        (bo_side o) (bo_price o) (ro_new_quantity cmd)))).
Proof.
  intros Hb Ho Hok' Hq.
  set (id := ro_instrument_id cmd) in *.
  set (f := bo_with_remaining (ro_new_quantity cmd)). set (g := bo_with_client_order_id (ro_new_client_order_id cmd)).
  destruct (edited_ok n b (or_handle ref) o f Hok' Ho) as (_ & Ho1 & _); [done|done|].
  set (b1 := edited_book (or_handle ref) f (bo_side o) b) in *.
  assert (edited_book (or_handle ref) g (bo_side o) b1 =
    edited_book (or_handle ref) (replace_fields cmd) (bo_side o) b) as E by apply (edited_twice _ f g).
  unfold replace_in_place. eapply (ebind_run _ _ _ _ _ []).
  { apply (change_book__run _ _ b b1); [exact Hb|]. by apply update_at_run. }
  eapply (ebind_run _ _ _ _ _ []).
  { apply (change_book__run _ _ b1 (edited_book (or_handle ref) (replace_fields cmd) (bo_side o) b)).
    - by eapply book_for_with.
    - rewrite <-E. by apply (update_at_run _ g b1 (f o)). }
  rewrite with_book_twice.
  eapply (ebind_run _ _ _ _ _ []); [reflexivity|].
  eapply (ebind_run _ _ _ _ _ []); [reflexivity|].
  eapply (ebind_run _ _ _ _ _ [_]); reflexivity.
Qed.

(** The state the priority-losing path hands to matching: the old order gone,
    the counters advanced past its two announcements. *)
Definition replaced_out (cmd : ReplaceOrderCommand) (ref : OrderRef) (o : BookOrder) (b : book) (e : eng) : eng :=
  with_counters (u64 (next_exchange_order_id_ e + 1)) (next_seq (next_seq (next_event_sequence_ e)))
    (u64 (next_priority_ e + 1))
    (removed_state (ro_instrument_id cmd) (old_key cmd) (or_handle ref) o b e).

Definition removed_book (h : Z) (o : BookOrder) (b : book) : book :=
  with_free (h :: free b) (with_queue (bo_side o) (ABook.remove_slot h (queue (bo_side o) b)) b).

Lemma replace_as_new_run cmd ref b o e n : inv n e → orders_ e !! old_key cmd = Some ref →
  or_instrument_id ref = ro_instrument_id cmd →
  book_for (ro_instrument_id cmd) e = Some b → ABook.at_ (or_handle ref) b = Some o →
  price_safe (ro_new_price cmd) → n < MatchingBook.kNil → 0 < ro_new_quantity cmd < 2 ^ 64 →
  let e1 := replaced_out cmd ref o b e in
  let b1 := removed_book (or_handle ref) o b in
  replace_as_new cmd ref o e =
    Some (tt, submit_state (replacement cmd o e) b1 e1,
          replaced_events cmd (next_exchange_order_id_ e) (next_event_sequence_ e)
            (λ n, EvRemoved (mkBookOrderRemoved n (ro_instrument_id cmd) (bo_exchange_order_id o)
               (bo_side o) (bo_price o))) ++
          submit_events (replacement cmd o e) (ro_command_sequence cmd) b1
            (next_seq (next_seq (next_event_sequence_ e)))) ∧
  inv (n + 1) (submit_state (replacement cmd o e) b1 e1).
Proof.
  intros HI Hk Hid Hb Ho Hp Hn Hq e1 b1.
  assert (knows_instrument (ro_instrument_id cmd) e = true) as Hkn.
  { rewrite <-Hid. by apply (located _ _ _ _ HI Hk). }
  assert (inv n e1) as HI1.
  { apply (inv_counters n n); [|lia]. rewrite <-Hid in *. by apply removed_inv. }
  assert (book_for (ro_instrument_id cmd) e1 = Some b1) as Hb1 by (apply (book_for_with _ b1 b e Hb)).
  split; [|by apply (submit_inv n)].
  unfold replace_as_new. eapply (ebind_run _ _ _ _ _ []).
  { apply (change_book_run _ _ b o); [exact Hb|]. by apply remove_at_run. }
  eapply (ebind_run _ _ _ _ _ []); [reflexivity|]. eapply (ebind_run _ _ _ _ _ []); [reflexivity|].
  eapply (ebind_run _ _ _ _ _ [_]); [reflexivity|]. eapply (ebind_run _ _ _ _ _ [_]); [reflexivity|].
  eapply (ebind_run _ _ _ _ _ []); [reflexivity|].
  apply (submit_run n (replacement cmd o e) b1 e1 HI1 Hkn Hb1 Hp Hn Hq).
Qed.

Lemma process_replace_accepted cmd n e : inv n e → replace_reason cmd e = None →
  price_safe (ro_new_price cmd) → n < MatchingBook.kNil → 0 ≤ ro_new_quantity cmd < 2 ^ 64 →
  ∃ ref b o, orders_ e !! old_key cmd = Some ref ∧ or_instrument_id ref = ro_instrument_id cmd ∧
    book_for (ro_instrument_id cmd) e = Some b ∧ book_ok n b ∧ ABook.at_ (or_handle ref) b = Some o ∧
    order_key o = old_key cmd ∧ 0 < ro_new_quantity cmd ∧
    process_replace cmd e =
      if preserves_priority cmd o then replace_in_place cmd ref o e else replace_as_new cmd ref o e.
Proof.
  intros HI Hr Hp Hn Hq. unfold replace_reason in Hr.
  destruct (knows_instrument _ e) eqn:Hkn; cbn [negb] in Hr; [|done].
  destruct (Z.leb_spec (ro_new_price cmd) 0); [done|].
  destruct (Z.eqb_spec (ro_new_quantity cmd) 0); [done|]. cbn [orb] in Hr.
  destruct (orders_ e !! _) as [ref|] eqn:Hk; [|done].
  destruct (Z.eqb_spec (or_instrument_id ref) (ro_instrument_id cmd)) as [Hid|]; [|done].
  destruct (located _ _ _ _ HI Hk) as (_ & b & o & Hb & Hok & Ho & Hkey). rewrite Hid in *.
  exists ref, b, o. split_and!; try done; [lia|].
  unfold process_replace, ebind, eget. rewrite Hkn. cbn [negb].
  rewrite (proj2 (Z.leb_gt _ _)), (proj2 (Z.eqb_neq _ _)) by done. cbn [orb].
  rewrite lookup_order_run, Hk, Hid, Z.eqb_refl. cbn [negb].
  rewrite (book_at_run _ _ _ _ _ Hb Ho). unfold preserves_priority.
  destruct (_ && _); [destruct (replace_in_place cmd ref o e) as [[[[] ?] ?]|]|
    destruct (replace_as_new cmd ref o e) as [[[[] ?] ?]|]]; done.
Qed.

(** ** Every command returns *)

(** The commands the theorems are about: quantities of their type, prices far
    enough from the top of the signed 64-bit range. *)
Definition command_ok (c : ExchangeCommand) : Prop :=
  match c with
  | CmdNew c => no_price c < 2 ^ 63 - 2 ^ 18 ∧ 0 ≤ no_quantity c < 2 ^ 64
  | CmdCancel _ => True
  | CmdReplace c => ro_new_price c < 2 ^ 63 - 2 ^ 18 ∧ 0 ≤ ro_new_quantity c < 2 ^ 64
  end.

#[export] Instance command_ok_dec c : Decision (command_ok c).
Proof. destruct c; simpl; apply _. Defined.

Lemma inv_mono n m e : inv n e → n ≤ m → inv m e.
Proof. intros [] ?. split; try done. intros. eapply book_ok_mono; [by eapply iv_books0|done]. Qed.

Lemma rejection_inv n e : inv n e → inv (n + 1) (after_rejection e).
Proof. intros. apply (inv_counters n); [done|lia]. Qed.

Lemma process_total n e c : inv n e → n < MatchingBook.kNil → command_ok c →
  wp (process c) e (λ _ e' _, inv (n + 1) e').
Proof.
  intros HI Hn Hc. destruct c as [cmd|cmd|cmd]; simpl in *.
  - destruct (new_order_reason cmd e) as [reason|] eqn:Hr.
    { eapply wp_intro; [apply (process_new_order_rejected _ _ _ Hr)|by apply rejection_inv].
      intros Hk. destruct (known_book _ _ _ HI Hk) as (b & ? & _). eauto. }
    pose proof Hr as Hr'. unfold new_order_reason in Hr'.
    destruct (knows_instrument _ e) eqn:Hk; cbn [negb] in Hr'; [|done].
    destruct (Z.leb_spec (no_price cmd) 0); [done|]. clear Hr'.
    destruct (known_book _ _ _ HI Hk) as (b & Hb & _).
    destruct (process_new_order_accepted cmd n e b HI Hr Hb) as [Hrun HI']; [unfold price_safe; lia|lia|lia|].
    by eapply wp_intro.
  - destruct (cancel_reason cmd e) as [reason|] eqn:Hr.
    { eapply wp_intro; [apply (process_cancel_rejected _ _ _ Hr)|by apply rejection_inv]. }
    destruct (process_cancel_accepted cmd n e HI Hr) as (ref & b & o & _ & _ & _ & _ & Hrun & HI').
    eapply wp_intro; [exact Hrun|]. eapply inv_mono; [done|lia].
  - destruct (replace_reason cmd e) as [reason|] eqn:Hr.
    { eapply wp_intro; [apply (process_replace_rejected _ _ _ Hr)|by apply rejection_inv]. }
    pose proof Hr as Hr'. unfold replace_reason in Hr'.
    destruct (knows_instrument _ e) eqn:Hk; cbn [negb] in Hr'; [|done].
    destruct (Z.leb_spec (ro_new_price cmd) 0); [done|]. clear Hr'.
    assert (price_safe (ro_new_price cmd)) as Hp by (unfold price_safe; lia).
    destruct (process_replace_accepted cmd n e HI Hr Hp Hn ltac:(lia))
      as (ref & b & o & Hl & Hid & Hb & Hok & Ho & _ & Hpos & Hrun).
    unfold wp. rewrite Hrun. destruct (preserves_priority cmd o).
    + rewrite (replace_in_place_run cmd ref b o e n) by (done || lia).
      eapply inv_mono; [apply (replaced_in_place_inv n); try done; lia|lia].
    + destruct (replace_as_new_run cmd ref b o e n) as [-> ?]; try done. lia.
Qed.

Lemma run_total cs : ∀ n e, inv n e → n + Z.of_nat (length cs) ≤ MatchingBook.kNil →
  Forall command_ok cs → wp (run cs) e (λ _ e' _, inv (n + Z.of_nat (length cs)) e').
Proof.
  induction cs as [|c cs IH]; intros n e HI Hn Hok; simpl.
  { apply wp_ret. by rewrite Z.add_0_r. }
  apply Forall_cons in Hok as [Hc Hcs]. simpl in Hn. apply wp_bind.
  eapply wp_mono; [|by apply (process_total n); try done; lia]. intros ? e' out HI'.
  eapply wp_mono; [|by apply (IH (n + 1)); try done; lia]. intros ? e'' out' HI''.
  by replace (n + Z.of_nat (S (length cs))) with (n + 1 + Z.of_nat (length cs)) by lia.
Qed.

End EngineTotal.
