(* ===== verification/EngineStart.v ===== *)
(** * Construction of the engine

    The instrument registry ([register_instrument] and the constructor): the id
    table, the dense book vector and the sorted list agree, registration never
    fails, and a new engine satisfies the invariant. *)

From stdpp Require Import sorting.
From S2P Require Import Prelude.
From S2P Require Import Types.
From S2P Require Import Effects.
From S2P Require Import MatchingBook.
From S2P Require Import BookSpec.
From S2P Require Import MatchingEngine.
From S2P Require Import EngineRefinement.
From S2P Require Import EngineMatching.
From S2P Require Import EngineInvariant.
From S2P Require Import EngineTotal.

Module EngineStart.
Import MatchingEngine EngineRefinement EngineMatching EngineInvariant EngineTotal.

(** [id] is registered with book [slot]. *)
Definition registered (e : eng) (id slot : Z) : Prop :=
  vget (slot_of_id_ e) id = Some slot ∧ slot ≠ kNoSlot.

Record registry_ok (e : eng) : Prop := {
  rg_range : ∀ id slot, registered e id slot → 0 ≤ slot < vsize (books_ e);
  rg_apart : ∀ id id' slot, registered e id slot → registered e id' slot → id = id';
  rg_by_id : ∀ id slot, (id, slot) ∈ by_id_ e ↔ registered e id slot;
  rg_sorted : StronglySorted Z.lt (by_id_ e).*1;
}.

Lemma knows_registered e id : knows_instrument id e = true ↔ ∃ slot, registered e id slot.
Proof. apply knows_slot. Qed.

Lemma insert_by_id_in id slot l x : x ∈ insert_by_id id slot l ↔ x = (id, slot) ∨ x ∈ l.
Proof.
  induction l as [|[id' slot'] l IH]; simpl.
  { rewrite list_elem_of_singleton. split; [by left|]. by intros [?|?%not_elem_of_nil]. }
  case_bool; rewrite !elem_of_cons, ?IH; tauto.
Qed.

Lemma insert_by_id_sorted id slot l : id ∉ l.*1 → StronglySorted Z.lt l.*1 →
  StronglySorted Z.lt (insert_by_id id slot l).*1.
Proof.
  induction l as [|[id' slot'] l IH]; simpl; [by repeat constructor|].
  rewrite not_elem_of_cons. intros [Hne Hn] [Hs Hl]%StronglySorted_inv. simpl in Hne.
  destruct (Z.ltb_spec id' id).
  - constructor; [by apply IH|]. apply Forall_forall. rewrite Forall_forall in Hl.
    intros k ([k' s'] & -> & Hk)%list_elem_of_fmap. simpl.
    apply insert_by_id_in in Hk as [[= -> ->]|Hk]; [done|].
    apply Hl. apply list_elem_of_fmap. by exists (k', s').
  - constructor; [by constructor|]. constructor; [simpl; lia|].
    eapply Forall_impl; [exact Hl|]. intros k Hk. simpl in *. lia.
Qed.

(** The engine after [id] was registered: [id] has the next book, everything else
    is as before. *)
Record registers (e : eng) (id : Z) (e' : eng) : Prop := {
  rs_slots : ∀ id' s, registered e' id' s ↔ (id' = id ∧ s = vsize (books_ e)) ∨ registered e id' s;
  rs_new : ∀ s, ¬ registered e id s;
  rs_books : books_ e' = books_ e ++ [ABook.make];
  rs_by_id : by_id_ e' = insert_by_id id (vsize (books_ e)) (by_id_ e);
  rs_orders : orders_ e' = orders_ e;
}.

Lemma register_step e id : 0 ≤ id → vsize (books_ e) < kNoSlot →
  ((kMaxInstrumentId < id ∨ knows_instrument id e = true) ∧ register_instrument id e = Some (false, e)) ∨
  (id ≤ kMaxInstrumentId ∧ knows_instrument id e = false ∧
   ∃ e', register_instrument id e = Some (true, e') ∧ registers e id e').
Proof.
  intros Hid Hsz. unfold register_instrument.
  destruct (Z.ltb_spec kMaxInstrumentId id) as [Hbig|Hbig]; cbn [orb]; [by left; eauto|].
  destruct (knows_instrument id e) eqn:Hk; [by left; eauto|]. right. split; [lia|]. split; [done|].
  pose proof (vsize_nonneg (books_ e)). rewrite u32_small by (unfold in_u32, kNoSlot in *; lia).
  destruct (registered_slots id (vsize (books_ e)) (slot_of_id_ e)) as (slots' & -> & Hs'); [lia..|].
  assert (∀ s, ¬ registered e id s) as Hnew.
  { intros s Hs. rewrite (proj2 (knows_registered e id)) in Hk; [done|by exists s]. }
  eexists. split; [done|]. split; [|done..].
  intros id' s. split.
  - intros [Hv Hs]. apply Hs' in Hv as [?|[_ ?]]; [by left|by right|done].
  - intros [[-> ->]|[Hv Hs]]; (split; [|lia || done]); apply Hs'; [lia|by left|done|].
    right. split; [|done]. intros ->. by apply (Hnew s).
Qed.

Section registers.
Context (e : eng) (id : Z) (e' : eng) (HR : registers e id e').

Lemma registers_books s b : vget (books_ e) s = Some b → vget (books_ e') s = Some b.
Proof.
  rewrite (rs_books _ _ _ HR). intros Hb. rewrite vget_app_l; [done|].
  apply vget_lt in Hb. lia.
Qed.

Lemma registers_size : vsize (books_ e') = vsize (books_ e) + 1.
Proof. rewrite (rs_books _ _ _ HR). apply vsize_snoc. Qed.

Lemma registers_knows id' : knows_instrument id' e' = true ↔ knows_instrument id' e = true ∨ id' = id.
Proof.
  rewrite !knows_registered. setoid_rewrite (rs_slots _ _ _ HR). naive_solver.
Qed.

Lemma registers_book_for id' b : knows_instrument id' e = true → book_for id' e = Some b →
  book_for id' e' = Some b.
Proof.
  intros [s Hr]%knows_registered Hb. unfold book_for in *.
  destruct (proj2 (rs_slots _ _ _ HR id' s) (or_intror Hr)) as [-> _]. destruct Hr as [Hv _].
  rewrite Hv in Hb. simpl in *. by apply registers_books.
Qed.

Lemma registers_registry : registry_ok e → registry_ok e'.
Proof.
  intros HG. pose proof (vsize_nonneg (books_ e)). split.
  - intros id' s [[_ Es]|Hr%(rg_range _ HG)]%(rs_slots _ _ _ HR); rewrite registers_size; lia.
  - intros id1 id2 s [[E1 Es]|H1]%(rs_slots _ _ _ HR) [[E2 Es']|H2]%(rs_slots _ _ _ HR).
    + congruence.
    + apply (rg_range _ HG) in H2. lia.
    + apply (rg_range _ HG) in H1. lia.
    + by apply (rg_apart _ HG _ _ s).
  - intros id' s. rewrite (rs_slots _ _ _ HR), <-(rg_by_id _ HG), (rs_by_id _ _ _ HR).
    rewrite insert_by_id_in. naive_solver.
  - rewrite (rs_by_id _ _ _ HR). apply insert_by_id_sorted; [|apply HG].
    intros ([id' s] & -> & Hr%(rg_by_id _ HG))%list_elem_of_fmap. by apply (rs_new _ _ _ HR s).
Qed.

Lemma registers_inv n : 0 ≤ n → registry_ok e' → inv n e → inv n e'.
Proof.
  intros Hn HG' HI. split.
  - intros s b Hb. rewrite (rs_books _ _ _ HR) in Hb.
    destruct (Z.lt_ge_cases s (vsize (books_ e))).
    + rewrite vget_app_l in Hb by done. by apply (iv_books _ _ HI s).
    + pose proof (vget_lt _ _ _ Hb) as Hlt. rewrite vsize_snoc in Hlt.
      assert (s = vsize (books_ e)) as -> by lia. rewrite vget_snoc in Hb.
      injection Hb as <-. by apply (book_ok_make).
  - intros id' [s Hr]%knows_registered. destruct (rg_range _ HG' _ _ Hr) as [H0 H1].
    destruct (vget_is_Some (books_ e') s) as [b Hb]; [lia|]. exists b. unfold book_for.
    destruct Hr as [-> _]. done.
  - intros id1 id2 s [s1 H1]%knows_registered [s2 H2]%knows_registered Hv1 Hv2.
    pose proof H1 as [E1 _]. pose proof H2 as [E2 _]. rewrite Hv1 in E1. rewrite Hv2 in E2.
    injection E1 as <-. injection E2 as <-. by apply (rg_apart _ HG' _ _ s).
  - intros k ref. rewrite (rs_orders _ _ _ HR). intros Hl.
    destruct (iv_dir _ _ HI k ref Hl) as (Hkn & b & sd & o & Hb & ?).
    split; [apply registers_knows; by left|]. exists b, sd, o. split; [by apply registers_book_for|done].
Qed.
End registers.

Lemma registration n e id : 0 ≤ n → registry_ok e → inv n e → 0 ≤ id → vsize (books_ e) < kNoSlot →
  ∃ r e', register_instrument id e = Some (r, e') ∧ registry_ok e' ∧ inv n e' ∧
    vsize (books_ e') ≤ vsize (books_ e) + 1 ∧
    (r = true ↔ id ≤ kMaxInstrumentId ∧ knows_instrument id e = false) ∧
    (∀ id', knows_instrument id' e' = true ↔ knows_instrument id' e = true ∨ (r = true ∧ id' = id)).
Proof.
  intros Hn HG HI Hid Hsz.
  destruct (register_step e id Hid Hsz) as [[Hno ->]|(Hle & Hk & e' & -> & HR)].
  - exists false, e. split; [done|]. split; [done|]. split; [done|]. split; [lia|].
    split; [|naive_solver]. split; [done|]. intros [? Hf]. destruct Hno; [lia|congruence].
  - exists true, e'. pose proof (registers_registry _ _ _ HR HG) as HG'.
    split; [done|]. split; [done|]. split; [by apply (registers_inv _ _ _ HR n)|].
    rewrite (registers_size _ _ _ HR). split; [lia|]. split; [done|].
    intros id'. rewrite (registers_knows _ _ _ HR). naive_solver.
Qed.

Lemma register_all_total us : ∀ e, registry_ok e → inv 0 e → Forall in_u32 us →
  vsize (books_ e) + vsize us < kNoSlot →
  ∃ e', register_all us e = Some e' ∧ registry_ok e' ∧ inv 0 e' ∧
    ∀ id, knows_instrument id e' = true ↔
      knows_instrument id e = true ∨ (id ∈ us ∧ id ≤ kMaxInstrumentId).
Proof.
  induction us as [|id us IH]; intros e HG HI Hus Hsz.
  { exists e. split_and!; try done. intros id. split; [by left|]. by intros [?|[?%not_elem_of_nil _]]. }
  apply Forall_cons in Hus as [Hid Hus]. unfold vsize in Hsz. simpl in Hsz.
  destruct (registration 0 e id (Z.le_refl 0) HG HI) as (r & e1 & Hr & HG1 & HI1 & Hz & Hrt & Hk1);
    [apply Hid|unfold vsize; lia|].
  destruct (IH e1 HG1 HI1 Hus) as (e2 & He2 & HG2 & HI2 & Hk2); [unfold vsize in *; lia|].
  exists e2. split_and!; try done.
  - unfold register_all in *. simpl. rewrite Hr. exact He2.
  - intros id'. rewrite Hk2, Hk1, elem_of_cons. destruct (decide (id' = id)) as [->|]; [|naive_solver].
    destruct (knows_instrument id e); [naive_solver|]. naive_solver lia.
Qed.

(** The engine before its first registration. *)
Lemma blank_ok slots n band : Forall (λ s, s = kNoSlot) slots →
  let e : eng := mk slots [] n band [] ∅ 1 1 1 in
  registry_ok e ∧ inv 0 e ∧ ∀ id, knows_instrument id e = false.
Proof.
  intros Hs e. assert (∀ id slot, ¬ registered e id slot) as Hno.
  { intros id slot [[_ Hv]%vget_Some Hne]. rewrite Forall_forall in Hs.
    by apply list_elem_of_lookup_2, Hs in Hv. }
  assert (∀ id, knows_instrument id e = false) as Hk.
  { intros id. apply not_true_iff_false. intros [s Hr]%knows_registered. by apply (Hno id s). }
  split; [|split; [|done]].
  - split.
    + by intros id slot ?%Hno.
    + by intros id id' slot ?%Hno.
    + intros id slot. split; [by intros ?%not_elem_of_nil|by intros ?%Hno].
    + constructor.
  - split.
    + by intros slot b [_ ?]%vget_Some.
    + intros id. by rewrite Hk.
    + intros id id' s. by rewrite Hk.
    + intros k ref. simpl. by rewrite lookup_empty.
Qed.

(** The constructor never fails; the engine it makes trades exactly the
    instruments of the universe that are in range. *)
Lemma make_total universe n : Forall in_u32 universe → vsize universe < kNoSlot →
  ∃ e : eng, make universe n = Some e ∧ registry_ok e ∧ inv 0 e ∧
    ∀ id, knows_instrument id e = true ↔ id ∈ universe ∧ id ≤ kMaxInstrumentId.
Proof.
  intros Hu Hsz. unfold make. set (e0 := match universe with [] => _ | _ => _ end).
  assert (registry_ok e0 ∧ inv 0 e0 ∧ (∀ id, knows_instrument id e0 = false) ∧ vsize (books_ e0) = 0)
    as (HG & HI & Hk & Hz).
  { unfold e0. destruct universe.
    - destruct (blank_ok [] 0 MatchingBook.kMaxBandTicks) as (? & ? & ?); [done|by split_and!].
    - edestruct (blank_ok (replicate (Z.to_nat (widest (z :: universe) + 1)) kNoSlot)) as (? & ? & ?);
        [|by split_and!]. by apply Forall_replicate. }
  clearbody e0. destruct (register_all_total universe e0 HG HI Hu) as (e & He & HGe & HIe & Hke); [lia|].
  exists e. split_and!; try done. intros id. rewrite Hke, Hk. naive_solver.
Qed.

(** ** No command touches the registry *)

Definition same_registry (e e' : eng) : Prop :=
  slot_of_id_ e' = slot_of_id_ e ∧ by_id_ e' = by_id_ e ∧ vsize (books_ e') = vsize (books_ e).

Definition keeps {A} (m : eff eng ExchangeEvent A) : Prop :=
  ∀ e a e' o, m e = Some (a, e', o) → same_registry e e'.

Lemma keeps_bind {A C} (m : eff eng ExchangeEvent A) (k : A → eff eng ExchangeEvent C) :
  keeps m → (∀ a, keeps (k a)) → keeps (ebind m k).
Proof.
  intros Hm Hk e c e' o. unfold ebind. destruct (m e) as [[[a e1] o1]|] eqn:E1; [|done].
  destruct (k a e1) as [[[c' e2] o2]|] eqn:E2; [|done]. intros [= <- <- <-].
  destruct (Hm _ _ _ _ E1) as (? & ? & ?), (Hk _ _ _ _ _ E2) as (? & ? & ?).
  unfold same_registry. by split_and!; etrans.
Qed.

Lemma keeps_ret {A} (a : A) : keeps (eret a).
Proof. by intros e ? e' o [= <- <- <-]. Qed.

Lemma keeps_get : keeps eget.
Proof. by intros e ? e' o [= <- <- <-]. Qed.

Lemma keeps_fail {A} : keeps (efail : eff eng ExchangeEvent A).
Proof. done. Qed.

Lemma keeps_on_book {A} id (f : ABook.t → option A) : keeps (on_book id f).
Proof. intros e ? e' o. unfold on_book, eread. case_match; [|done]. by intros [= <- <- <-]. Qed.

Lemma keeps_change_book {A} id (f : ABook.t → option (A * ABook.t)) : keeps (change_book id f).
Proof.
  intros e a e' o. unfold change_book, eupdate. destruct (mbind _ _) as [[x e1]|] eqn:E; [|done].
  intros [= <- <- <-]. apply bind_Some in E as (b & _ & E). apply bind_Some in E as ([y b'] & _ & E).
  apply bind_Some in E as (e2 & Hs & [= <- <-]). unfold set_book in Hs.
  apply bind_Some in Hs as (s & _ & Hs). apply bind_Some in Hs as (bs & [_ ->]%vset_inv & [= <-]).
  split_and!; [done..|]. apply vsize_vput.
Qed.

Lemma keeps_change_book_ id (f : ABook.t → option ABook.t) : keeps (change_book_ id f).
Proof. apply keeps_change_book. Qed.

Lemma keeps_sink ev : keeps (sink ev).
Proof. by intros e ? e' o [= <- <- <-]. Qed.

Lemma keeps_take_id : keeps take_exchange_order_id.
Proof. by intros e ? e' o [= <- <- <-]. Qed.

Lemma keeps_take_priority : keeps take_priority.
Proof. by intros e ? e' o [= <- <- <-]. Qed.

Lemma keeps_lookup key : keeps (lookup_order key).
Proof. by intros e ? e' o [= <- <- <-]. Qed.

Lemma keeps_insert key ref : keeps (insert_or_assign key ref).
Proof. by intros e ? e' o [= <- <- <-]. Qed.

Lemma keeps_erase key : keeps (erase_order key).
Proof. by intros e ? e' o [= <- <- <-]. Qed.

Create HintDb keeps.
Hint Resolve keeps_ret keeps_get keeps_fail keeps_on_book keeps_change_book keeps_change_book_
  keeps_sink keeps_take_id keeps_take_priority keeps_lookup keeps_insert keeps_erase : keeps.

Ltac keeps_step :=
  first
    [ solve [eauto with keeps] | apply keeps_bind; [|intros ?]
    | match goal with |- keeps (if ?b then _ else _) => destruct b end
    | match goal with |- keeps (match ?x with _ => _ end) => destruct x end ].

Lemma keeps_match_step incoming cs c : keeps (match_step incoming cs c).
Proof. unfold match_step. repeat keeps_step. Qed.

Hint Resolve keeps_match_step : keeps.

Lemma keeps_match_loop n cs : ∀ incoming, keeps (match_loop n incoming cs).
Proof. induction n as [|n IH]; intros incoming; simpl; repeat keeps_step. Qed.

Lemma keeps_match_and_rest incoming cs : keeps (match_and_rest incoming cs).
Proof. unfold match_and_rest. repeat keeps_step. intros ?. apply keeps_match_loop. Qed.

Lemma keeps_rest order : keeps (rest_remainder_if_applicable order).
Proof. unfold rest_remainder_if_applicable. repeat keeps_step. Qed.

Hint Resolve keeps_match_loop keeps_match_and_rest keeps_rest : keeps.

Lemma process_keeps c : keeps (process c).
Proof.
  destruct c; simpl; [unfold process_new_order|unfold process_cancel|unfold process_replace];
    unfold accept_new_order, replace_in_place, replace_as_new, reject_new_order, reject_cancel,
      reject_replace_order; repeat keeps_step.
Qed.

Lemma registry_ok_same e e' : same_registry e e' → registry_ok e → registry_ok e'.
Proof.
  intros (Es & Ei & Ez) [H1 H2 H3 H4].
  assert (∀ id slot, registered e' id slot ↔ registered e id slot) as Hr.
  { intros. unfold registered. by rewrite Es. }
  split.
  - intros id slot. rewrite Hr, Ez. apply H1.
  - intros id id' slot. rewrite !Hr. apply H2.
  - intros id slot. rewrite Hr, Ei. apply H3.
  - by rewrite Ei.
Qed.

End EngineStart.
