(* ===== verification/EngineProps.v ===== *)
(** * Properties of the matching engine

    The theorems a reader of the engine wants, about the engine as it is built
    (over [MatchingBook]): it never fails, each handler does what its
    specification says, quantities are conserved, trades respect limits and
    price-time priority, books never cross, time in force is honoured, events are
    numbered without gaps, rejections change nothing. *)

From stdpp Require Import sorting.
From S2P Require Import Prelude.
From S2P Require Import Types.
From S2P Require Import Effects.
From S2P Require Import SideIndex.
From S2P Require Import PriceIndex.
From S2P Require Import MatchingBook.
From S2P Require Import BookSpec.
From S2P Require Import BookQueue.
From S2P Require Import BookRefinement.
From S2P Require Import MatchingEngine.
From S2P Require Import EngineRefinement.
From S2P Require Import Fills.
From S2P Require Import EngineMatching.
From S2P Require Import EngineInvariant.
From S2P Require Import EngineTotal.
From S2P Require Import EngineStart.

Module EngineProps.
Import PriceIndex BookQueue BookRefinement MatchingEngine EngineRefinement Fills EngineMatching
  EngineInvariant EngineTotal EngineStart.
Import ABook (entry, entry_price, queue, with_queue, with_free, free, bids, asks, size,
  next_slot, take_slot, insert_back).

Abbreviation real := (t MatchingBook.t).

(** Engine [e] is in the state that specification engine [f] describes, no book
    having allocated more than [n] slots. *)
Definition represents (n : Z) (e : real) (f : eng) : Prop := ER Rep e f ∧ inv n f.

(** A specified step, taken by the engine. *)
Lemma represents_step m e f c f' evs : ER Rep e f → inv m f' →
  process c f = Some (tt, f', evs) →
  ∃ e', process c e = Some (tt, e', evs) ∧ represents m e' f'.
Proof.
  intros HE HI Hf. destruct (sim_process Rep c e f HE _ _ _ Hf) as (e' & He & HE').
  exists e'. split; [done|]. by split.
Qed.

(** What the traded quantities of a list of events add up to, and the added. *)
Definition traded (evs : list ExchangeEvent) : Quantity :=
  foldr (λ ev n, match ev with EvTrade t => te_quantity t + n | _ => n end) 0 evs.

Definition added (evs : list ExchangeEvent) : Quantity :=
  foldr (λ ev n, match ev with EvAdded a => ba_quantity a + n | _ => n end) 0 evs.

Lemma traded_app l1 l2 : traded (l1 ++ l2) = traded l1 + traded l2.
Proof. induction l1 as [|[] l1 IH]; simpl; lia. Qed.

Lemma added_app l1 l2 : added (l1 ++ l2) = added l1 + added l2.
Proof. induction l1 as [|[] l1 IH]; simpl; lia. Qed.

Lemma fill_events_sums o cs fs : ∀ n rem,
  traded (fill_events o cs n rem fs) = filled fs ∧ added (fill_events o cs n rem fs) = 0.
Proof.
  induction fs as [|x fs IH]; intros n rem; [done|].
  destruct (IH (next_seq (next_seq n)) (rem - fl_quantity x)) as [H1 H2].
  cbn [fill_events]. unfold resting_event, trade_event.
  destruct (fl_after x =? 0); cbn [traded added foldr te_quantity filled]; fold (filled fs);
    unfold traded, added in *; lia.
Qed.

Lemma rest_events_sums o n : traded (rest_events o n) = 0 ∧
  added (rest_events o n) = if rests o then ero_remaining_quantity o else 0.
Proof. unfold rest_events. destruct (rests o); simpl; lia. Qed.

Lemma submit_sums o cs b n :
  traded (submit_events o cs b n) = filled (oc_fills (outcome_of o b)) ∧
  added (submit_events o cs b n) =
    if rests (matched o b) then ero_remaining_quantity (matched o b) else 0.
Proof.
  unfold submit_events. rewrite traded_app, added_app.
  destruct (fill_events_sums o cs (oc_fills (outcome_of o b)) n (ero_remaining_quantity o)) as [-> ->].
  destruct (rest_events_sums (matched o b) (seq_after n (oc_fills (outcome_of o b)))) as [-> ->]. lia.
Qed.

(** ** The engine never fails *)

(** Conditions on a session: the universe's ids are 32-bit and fewer than the
    sentinel, the commands are in range and fewer than a book has slots. *)
Definition session_ok (universe : list InstrumentId) (cs : list ExchangeCommand) : Prop :=
  Forall in_u32 universe ∧ vsize universe < kNoSlot ∧
  Forall command_ok cs ∧ vsize cs ≤ MatchingBook.kNil.

Lemma session_runs universe n cs : session_ok universe cs →
  ∃ (e0 e : real) (f0 f : eng) evs,
    make universe n = Some e0 ∧ run cs e0 = Some (tt, e, evs) ∧
    make universe n = Some f0 ∧ run cs f0 = Some (tt, f, evs) ∧ ER Rep e f ∧ inv (vsize cs) f.
Proof.
  intros (Hu & Hsz & Hok & Hn).
  destruct (make_total universe n Hu Hsz) as (f0 & Hf0 & _ & HI & _).
  destruct (er_make Rep universe n f0 Hu Hsz Hf0) as (e0 & He0 & HE).
  destruct (wp_elim _ _ _ (run_total cs 0 f0 HI Hn Hok)) as ([] & f & evs & Hf & HI').
  destruct (sim_run Rep cs e0 f0 HE _ _ _ Hf) as (e & He & HE').
  exists e0, e, f0, f, evs. by split_and!.
Qed.

(** C1: from construction, through any sequence of commands, the engine returns:
    no undefined behaviour, no exception, the matching loop terminates. Its events
    are those of the specification engine, whose books are plain price-time
    queues, and its state stays in the invariant. *)
Theorem engine_never_fails universe n cs : session_ok universe cs →
  ∃ (e0 e : real) (f0 f : eng) evs,
    make universe n = Some e0 ∧ run cs e0 = Some (tt, e, evs) ∧
    make universe n = Some f0 ∧ run cs f0 = Some (tt, f, evs) ∧
    represents (vsize cs) e f.
Proof.
  intros Hok. destruct (session_runs universe n cs Hok) as (e0 & e & f0 & f & evs & ? & ? & ? & ? & ?).
  exists e0, e, f0, f, evs. by split_and!.
Qed.

Definition sample_order (acc cid : Z) (side : Side) (price qty : Z) (tif : TimeInForce) : NewOrderCommand :=
  mkNewOrder 0 acc cid 7 side price qty Limit tif.

Definition sample_session : list ExchangeCommand :=
  [CmdNew (sample_order 1 1 Sell 100 5 GTC); CmdNew (sample_order 1 2 Sell 101 4 GTC);
   CmdNew (sample_order 1 3 Sell 20000 2 GTC); CmdNew (sample_order 2 1 Buy 101 7 GTC);
   CmdCancel (mkCancelOrder 0 1 2 7); CmdReplace (mkReplaceOrder 0 1 3 4 7 99 3)].

Lemma sample_session_ok : session_ok [7; 9] sample_session.
Proof.
  split_and!; [repeat constructor; by vm_compute|by vm_compute| |by vm_compute].
  by apply (bool_decide_unpack _).
Qed.

Lemma engine_never_fails_witness : session_ok [7; 9] sample_session ∧
  ∃ e0 e f0 f evs, make (B := MatchingBook.t) [7; 9] 0 = Some e0 ∧ run sample_session e0 = Some (tt, e, evs) ∧
    make (B := ABook.t) [7; 9] 0 = Some f0 ∧ run sample_session f0 = Some (tt, f, evs) ∧ represents 6 e f.
Proof. split; [apply sample_session_ok|]. apply (engine_never_fails [7; 9] 0 sample_session sample_session_ok). Defined.

(** A session to apply the theorems below to, on both engines. *)
Section sample.
Context {B : Type} `{BookOps B}.

Definition blank : t B := mk [] [] 0 0 [] ∅ 0 0 0.

Definition sample_state (cs : list ExchangeCommand) : t B :=
  match make [7; 9] 0 with
  | Some e => match run cs e with Some (_, e', _) => e' | None => blank end
  | None => blank
  end.
End sample.

Lemma sample_represents cs : session_ok [7; 9] cs →
  represents (vsize cs) (sample_state cs) (sample_state cs).
Proof.
  intros Hok. unfold sample_state.
  destruct (session_runs [7; 9] 0 cs Hok) as (e0 & e & f0 & f & evs & -> & He & -> & Hf & HE & HI).
  rewrite He, Hf. by split.
Qed.

(** Two asks at 100 and one at 101 resting. *)
Definition sample_asks : list ExchangeCommand :=
  [CmdNew (sample_order 1 1 Sell 100 5 GTC); CmdNew (sample_order 1 2 Sell 101 4 GTC);
   CmdNew (sample_order 3 1 Sell 100 6 GTC)].

Lemma sample_asks_represents : represents 3 (sample_state sample_asks) (sample_state sample_asks).
Proof.
  apply (sample_represents sample_asks). split_and!; [repeat constructor; by vm_compute|by vm_compute| |by vm_compute].
  by apply (bool_decide_unpack _).
Qed.

(** ** What each handler does *)

(** The outcome of a new order, as the specification engine [f] sees it. *)
Definition new_order_outcome (cmd : NewOrderCommand) (n : Z) (e : real) (f : eng) : Prop :=
  match new_order_reason cmd f with
  | Some reason => ∃ e', process (CmdNew cmd) e =
      Some (tt, e', [new_rejected_event cmd reason (next_event_sequence_ f)]) ∧
      represents n e' (after_rejection f)
  | None => ∃ b e', book_for (no_instrument_id cmd) f = Some b ∧
      process (CmdNew cmd) e = Some (tt, e', accepted_event cmd f ::
        submit_events (new_order cmd f) (no_command_sequence cmd) b (next_seq (next_event_sequence_ f))) ∧
      represents (n + 1) e' (submit_state (new_order cmd f) b (announced f))
  end.

(** Everything known of an accepted order. *)
Lemma new_order_accepts n e f cmd : represents n e f → n < MatchingBook.kNil →
  command_ok (CmdNew cmd) → new_order_reason cmd f = None →
  ∃ b e', book_for (no_instrument_id cmd) f = Some b ∧ book_ok n b ∧
    knows_instrument (no_instrument_id cmd) f = true ∧
    price_safe (no_price cmd) ∧ 0 < no_quantity cmd < 2 ^ 64 ∧
    process (CmdNew cmd) e = Some (tt, e', accepted_event cmd f ::
      submit_events (new_order cmd f) (no_command_sequence cmd) b (next_seq (next_event_sequence_ f))) ∧
    represents (n + 1) e' (submit_state (new_order cmd f) b (announced f)).
Proof.
  intros [HE HI] Hn [Hp Hq] Hr. pose proof Hr as Hr'. unfold new_order_reason in Hr'.
  destruct (knows_instrument _ f) eqn:Hk; cbn [negb] in Hr'; [|done].
  destruct (Z.leb_spec (no_price cmd) 0); [done|]. destruct (Z.eqb_spec (no_quantity cmd) 0); [done|].
  clear Hr'. destruct (known_book _ _ _ HI Hk) as (b & Hb & Hok).
  assert (price_safe (no_price cmd)) as Hps by (unfold price_safe; lia).
  destruct (process_new_order_accepted cmd n f b HI Hr Hb Hps Hn Hq) as [Hrun HI'].
  destruct (represents_step _ e f (CmdNew cmd) _ _ HE HI' Hrun) as (e' & He & HR').
  exists b, e'. split_and!; try done; try lia.
Qed.

(** C2: a new order. It is rejected for the first check it fails, in the order of
    the code, with nothing else changed; otherwise it is accepted, matched
    against the contra queue in price-time order ([fill_queue]) and, if good till
    cancelled, rests behind its price level with what it has left. *)
Theorem new_order_spec n e f cmd : represents n e f → n < MatchingBook.kNil →
  command_ok (CmdNew cmd) → new_order_outcome cmd n e f.
Proof.
  intros HR Hn Hc. unfold new_order_outcome. destruct (new_order_reason cmd f) as [reason|] eqn:Hr.
  - destruct HR as [HE HI]. apply (represents_step n e f (CmdNew cmd)); [done|by apply (inv_counters n n)|].
    apply process_new_order_rejected; [done|]. intros Hk.
    destruct (known_book _ _ _ HI Hk) as (b & ? & _). eauto.
  - destruct (new_order_accepts n e f cmd HR Hn Hc Hr) as (b & e' & ? & _ & _ & _ & _ & ? & ?). eauto.
Qed.

Lemma new_order_spec_witness :
  new_order_outcome (sample_order 2 1 Buy 101 12 GTC) 3 (sample_state sample_asks) (sample_state sample_asks) ∧
  new_order_reason (sample_order 2 1 Buy 101 12 GTC) (sample_state sample_asks) = None.
Proof.
  split; [|by vm_compute]. apply (new_order_spec 3); [apply sample_asks_represents|by vm_compute|].
  by apply (bool_decide_unpack _).
Defined.

(** The outcome of a cancel. *)
Definition cancel_outcome (cmd : CancelOrderCommand) (n : Z) (e : real) (f : eng) : Prop :=
  match cancel_reason cmd f with
  | Some reason => ∃ e', process (CmdCancel cmd) e = Some (tt, e',
        [EvRejected (mkOrderRejected (next_event_sequence_ f) (co_command_sequence cmd)
           (co_account_id cmd) (co_client_order_id cmd) (co_instrument_id cmd) reason)]) ∧
      represents n e' (after_rejection f)
  | None => ∃ ref b o e', orders_ f !! (co_account_id cmd, co_client_order_id cmd) = Some ref ∧
      book_for (co_instrument_id cmd) f = Some b ∧ ABook.at_ (or_handle ref) b = Some o ∧
      order_key o = (co_account_id cmd, co_client_order_id cmd) ∧
      process (CmdCancel cmd) e = Some (tt, e',
        [EvCancelled (mkOrderCancelled (next_event_sequence_ f) (co_command_sequence cmd)
           (co_account_id cmd) (co_client_order_id cmd) (bo_exchange_order_id o) (co_instrument_id cmd));
         EvRemoved (mkBookOrderRemoved (next_seq (next_event_sequence_ f)) (co_instrument_id cmd)
           (bo_exchange_order_id o) (bo_side o) (bo_price o))]) ∧
      represents n e' (cancelled_state cmd ref o b f)
  end.

(** C3: a cancel. It is rejected for the first check it fails, with nothing else
    changed; otherwise exactly the order the directory names leaves its queue,
    every other entry keeping its place, and its directory entry goes with it. *)
Theorem cancel_spec n e f cmd : represents n e f → cancel_outcome cmd n e f.
Proof.
  intros [HE HI]. unfold cancel_outcome. destruct (cancel_reason cmd f) as [reason|] eqn:Hr.
  - apply (represents_step n e f (CmdCancel cmd)); [done|by apply (inv_counters n n)|].
    by apply process_cancel_rejected.
  - destruct (process_cancel_accepted cmd n f HI Hr) as (ref & b & o & Hl & Hb & Ho & Hk & Hrun & HI').
    destruct (represents_step n e f (CmdCancel cmd) _ _ HE HI' Hrun) as (e' & ? & ?).
    exists ref, b, o, e'. by split_and!.
Qed.

Lemma cancel_spec_witness :
  cancel_outcome (mkCancelOrder 9 1 1 7) 3 (sample_state sample_asks) (sample_state sample_asks) ∧
  cancel_reason (mkCancelOrder 9 1 1 7) (sample_state sample_asks) = None.
Proof. split; [|by vm_compute]. apply (cancel_spec 3), sample_asks_represents. Defined.

(** The outcome of a replace. *)
Definition replace_outcome (cmd : ReplaceOrderCommand) (n : Z) (e : real) (f : eng) : Prop :=
  match replace_reason cmd f with
  | Some reason => ∃ e', process (CmdReplace cmd) e = Some (tt, e',
        [EvRejected (mkOrderRejected (next_event_sequence_ f) (ro_command_sequence cmd)
           (ro_account_id cmd) (ro_original_client_order_id cmd) (ro_instrument_id cmd) reason)]) ∧
      represents n e' (after_rejection f)
  | None => ∃ ref b o e' evs, orders_ f !! old_key cmd = Some ref ∧
      book_for (ro_instrument_id cmd) f = Some b ∧ ABook.at_ (or_handle ref) b = Some o ∧
      process (CmdReplace cmd) e = Some (tt, e', evs) ∧
      if preserves_priority cmd o then
        evs = replaced_events cmd (bo_exchange_order_id o) (next_event_sequence_ f)
          (λ n, EvReduced (mkBookOrderReduced n (ro_instrument_id cmd) (bo_exchange_order_id o)
             (bo_side o) (bo_price o) (ro_new_quantity cmd))) ∧
        represents (n + 1) e' (replaced_in_place cmd ref o b f)
      else
        evs = replaced_events cmd (next_exchange_order_id_ f) (next_event_sequence_ f)
          (λ n, EvRemoved (mkBookOrderRemoved n (ro_instrument_id cmd) (bo_exchange_order_id o)
             (bo_side o) (bo_price o))) ++
          submit_events (replacement cmd o f) (ro_command_sequence cmd)
            (removed_book (or_handle ref) o b) (next_seq (next_seq (next_event_sequence_ f))) ∧
        represents (n + 1) e' (submit_state (replacement cmd o f)
          (removed_book (or_handle ref) o b) (replaced_out cmd ref o b f))
  end.

(** C4: a replace. It is rejected for the first check it fails, with nothing else
    changed. At the same price and no larger quantity the order keeps its place
    in its queue and its exchange id and answers to the new client id; otherwise
    it leaves the book and re-enters matching as a new order, behind its level. *)
Theorem replace_spec n e f cmd : represents n e f → n < MatchingBook.kNil →
  command_ok (CmdReplace cmd) → replace_outcome cmd n e f.
Proof.
  intros [HE HI] Hn [Hp Hq]. unfold replace_outcome. destruct (replace_reason cmd f) as [reason|] eqn:Hr.
  { apply (represents_step n e f (CmdReplace cmd)); [done|by apply (inv_counters n n)|].
    by apply process_replace_rejected. }
  pose proof Hr as Hr'. unfold replace_reason in Hr'.
  destruct (knows_instrument _ f); cbn [negb] in Hr'; [|done].
  destruct (Z.leb_spec (ro_new_price cmd) 0); [done|]. clear Hr'.
  assert (price_safe (ro_new_price cmd)) as Hps by (unfold price_safe; lia).
  destruct (process_replace_accepted cmd n f HI Hr Hps Hn Hq)
    as (ref & b & o & Hl & Hid & Hb & Hok & Ho & _ & Hpos & Hrun).
  destruct (preserves_priority cmd o) eqn:Hpp.
  - rewrite (replace_in_place_run cmd ref b o f n) in Hrun by (done || lia).
    assert (inv (n + 1) (replaced_in_place cmd ref o b f)) as HI'.
    { eapply inv_mono; [by apply (replaced_in_place_inv n); try done; lia|lia]. }
    destruct (represents_step _ e f (CmdReplace cmd) _ _ HE HI' Hrun) as (e' & ? & ?).
    eexists ref, b, o, e', _. rewrite Hpp. by split_and!.
  - destruct (replace_as_new_run cmd ref b o f n HI Hl Hid Hb Ho Hps Hn ltac:(lia)) as [Hrun' HI'].
    rewrite Hrun' in Hrun.
    destruct (represents_step _ e f (CmdReplace cmd) _ _ HE HI' Hrun) as (e' & ? & ?).
    eexists ref, b, o, e', _. rewrite Hpp. by split_and!.
Qed.

(** The first ask moved down to 99: priority lost, nothing crosses. *)
Definition sample_reprice : ReplaceOrderCommand := mkReplaceOrder 9 1 1 8 7 99 5.

Lemma replace_spec_witness :
  replace_outcome sample_reprice 3 (sample_state sample_asks) (sample_state sample_asks) ∧
  replace_reason sample_reprice (sample_state sample_asks) = None.
Proof.
  split; [|by vm_compute]. apply (replace_spec 3); [apply sample_asks_represents|by vm_compute|].
  by apply (bool_decide_unpack _).
Defined.

(** ** Trades *)

(** C5: no quantity appears or disappears. An accepted order's quantity is what it
    traded, plus what it rests if it is good till cancelled (an immediate order
    rests nothing); the contra side of the book loses exactly what was traded. *)
Theorem quantities_conserved n e f cmd : represents n e f → n < MatchingBook.kNil →
  command_ok (CmdNew cmd) → new_order_reason cmd f = None →
  ∃ b e' f' evs b', book_for (no_instrument_id cmd) f = Some b ∧
    process (CmdNew cmd) e = Some (tt, e', evs) ∧ represents (n + 1) e' f' ∧
    book_for (no_instrument_id cmd) f' = Some b' ∧
    0 ≤ traded evs ≤ no_quantity cmd ∧
    (no_time_in_force cmd = GTC → traded evs + added evs = no_quantity cmd) ∧
    (no_time_in_force cmd ≠ GTC → added evs = 0) ∧
    resting (queue (contra (no_side cmd)) b) =
      traded evs + resting (queue (contra (no_side cmd)) b').
Proof.
  intros HR Hn Hc Hr.
  destruct (new_order_accepts n e f cmd HR Hn Hc Hr) as (b & e' & Hb & Hok & Hk & Hp & Hq & Hrun & HR').
  set (o := new_order cmd f) in *. set (r := outcome_of o b).
  assert (ero_side o = no_side cmd ∧ ero_price o = no_price cmd ∧ ero_remaining_quantity o = no_quantity cmd)
    as (Hs & Hpr & Hrem) by done.
  destruct (submit_sums o (no_command_sequence cmd) b (next_seq (next_event_sequence_ f))) as [Ht Ha].
  pose proof (fill_conserves (no_side cmd) (no_price cmd) (queue (contra (no_side cmd)) b) (no_quantity cmd)) as [C1 C2].
  pose proof (fill_remaining_range (no_side cmd) (no_price cmd) (queue (contra (no_side cmd)) b) (no_quantity cmd)
    ltac:(lia) (book_live _ _ _ Hok)) as C3.
  change (fill_queue _ _ _ _) with r in C1, C2, C3.
  set (b' := if rests (matched o b) then rest_book (matched o b) (book_matched o b) else book_matched o b).
  exists b, e', (submit_state o b (announced f)), (accepted_event cmd f :: submit_events o (no_command_sequence cmd) b (next_seq (next_event_sequence_ f))), b'.
  assert (traded (accepted_event cmd f :: submit_events o (no_command_sequence cmd) b (next_seq (next_event_sequence_ f))) = filled (oc_fills r)) as -> by exact Ht.
  change (added (accepted_event cmd f :: ?l)) with (added l). rewrite Ha.
  assert (rests (matched o b) = bool_decide (no_time_in_force cmd = GTC) && negb (oc_remaining r =? 0)) as Hrests by done.
  change (ero_remaining_quantity (matched o b)) with (oc_remaining r).
  split_and!; try done.
  - pose proof (book_for_engine_after _ (contra (ero_side o)) b (announced f) r Hb) as Hb1.
    unfold submit_state, rest_state, b'. destruct (rests (matched o b)); [|exact Hb1].
    by apply (book_for_with _ (rest_book (matched o b) (book_matched o b)) (book_matched o b)).
  - lia.
  - lia.
  - intros Ht'. rewrite Hrests, bool_decide_true by done. destruct (Z.eqb_spec (oc_remaining r) 0); simpl; lia.
  - intros Ht'. by rewrite Hrests, bool_decide_false.
  - rewrite <-C2. f_equal. f_equal. unfold b'.
    assert (queue (contra (no_side cmd)) (book_matched o b) = oc_queue r) as Hq' by apply queue_book_after.
    destruct (rests (matched o b)); [|by rewrite Hq'].
    unfold rest_book, take_slot. change (ero_side (matched o b)) with (no_side cmd).
    rewrite queue_with_contra. rewrite <-Hq'. destruct (free (book_matched o b)); by destruct (no_side cmd).
Qed.

Lemma quantities_conserved_witness :
  ∃ b e' f' evs b', book_for 7 (sample_state sample_asks) = Some b ∧
    process (CmdNew (sample_order 2 1 Buy 100 8 GTC)) (sample_state (B := MatchingBook.t) sample_asks) =
      Some (tt, e', evs) ∧ represents 4 e' f' ∧ book_for 7 f' = Some b' ∧
    0 ≤ traded evs ≤ 8 ∧ (GTC = GTC → traded evs + added evs = 8) ∧ (GTC ≠ GTC → added evs = 0) ∧
    resting (queue Sell b) = traded evs + resting (queue Sell b').
Proof.
  apply (quantities_conserved 3 _ _ (sample_order 2 1 Buy 100 8 GTC) sample_asks_represents);
    [by vm_compute|by apply (bool_decide_unpack _)|by vm_compute].
Defined.

Lemma submit_trade_in o cs b n t : EvTrade t ∈ submit_events o cs b n →
  ∃ x k rem, x ∈ oc_fills (outcome_of o b) ∧ EvTrade t = trade_event o cs k rem x.
Proof.
  unfold submit_events. rewrite elem_of_app. intros [Ht|Ht].
  - revert Ht. generalize (ero_remaining_quantity o) as rem, n as m.
    induction (oc_fills (outcome_of o b)) as [|x fs IH]; intros rem m; simpl; [by intros ?%not_elem_of_nil|].
    intros [Ht|[Ht|Ht]%elem_of_cons]%elem_of_cons.
    + exists x, m, (rem - fl_quantity x). split; [by left|done].
    + unfold resting_event in Ht. by case_bool.
    + destruct (IH _ _ Ht) as (y & k & rem' & ? & ?). exists y, k, rem'. split; [by right|done].
  - unfold rest_events in Ht. destruct (rests _); [by apply list_elem_of_singleton in Ht|by apply not_elem_of_nil in Ht].
Qed.

(** The counterparty of a trade that is not the aggressor. *)
Definition resting_party (t : TradeExecuted) : TradeCounterparty :=
  match te_aggressor_side t with Buy => te_seller t | Sell => te_buyer t end.

Definition aggressor_party (t : TradeExecuted) : TradeCounterparty :=
  match te_aggressor_side t with Buy => te_buyer t | Sell => te_seller t end.

(** Every trade is for a positive quantity, between the new order and an order
    that was resting on the other side, at that resting order's price, which is
    no worse for the new order than its limit. *)
Theorem trades_respect_limits n e f cmd : represents n e f → n < MatchingBook.kNil →
  command_ok (CmdNew cmd) →
  ∃ e' evs, process (CmdNew cmd) e = Some (tt, e', evs) ∧
    ∀ t, EvTrade t ∈ evs →
      crosses (no_side cmd) (no_price cmd) (te_price t) = true ∧ 0 < te_quantity t ∧
      te_aggressor_side t = no_side cmd ∧
      cp_account_id (aggressor_party t) = no_account_id cmd ∧
      cp_client_order_id (aggressor_party t) = no_client_order_id cmd ∧
      ∃ b x, book_for (no_instrument_id cmd) f = Some b ∧ x ∈ queue (contra (no_side cmd)) b ∧
        te_price t = bo_price x.2 ∧
        resting_party t = mkCounterparty (bo_account_id x.2) (bo_client_order_id x.2)
          (bo_exchange_order_id x.2) (bo_remaining_quantity x.2 - te_quantity t).
Proof.
  intros HR Hn Hc. destruct (new_order_reason cmd f) as [reason|] eqn:Hr.
  { destruct HR as [HE HI].
    destruct (represents_step n e f (CmdNew cmd) (after_rejection f)
      [new_rejected_event cmd reason (next_event_sequence_ f)] HE) as (e' & He & _).
    - by apply (inv_counters n n).
    - apply process_new_order_rejected; [done|]. intros Hk.
      destruct (known_book _ _ _ HI Hk) as (b & ? & _). eauto.
    - exists e'. eexists. split; [exact He|]. by intros t ?%list_elem_of_singleton. }
  destruct (new_order_accepts n e f cmd HR Hn Hc Hr) as (b & e' & Hb & Hok & _ & _ & Hq & Hrun & _).
  exists e'. eexists. split; [exact Hrun|]. intros t Ht. apply elem_of_cons in Ht as [Ht|Ht]; [done|].
  apply submit_trade_in in Ht as (x & k & rem & Hx & [= ->]).
  destruct (fill_sound (no_side cmd) (no_price cmd) (queue (contra (no_side cmd)) b) (no_quantity cmd) x)
    as (Hin & Hpos & _ & Hcr); [lia|by eapply book_live|exact Hx|].
  unfold resting_party, aggressor_party. simpl. split_and!; try done; try lia; try (by destruct (no_side cmd)).
  exists b, (fl_entry x). split_and!; try done. by destruct (no_side cmd).
Qed.

Lemma trades_respect_limits_witness :
  represents 3 (sample_state sample_asks) (sample_state sample_asks) ∧
  ∃ e' evs, process (CmdNew (sample_order 2 1 Buy 100 8 IOC)) (sample_state (B := MatchingBook.t) sample_asks) =
    Some (tt, e', evs) ∧ ∀ t, EvTrade t ∈ evs → te_price t ≤ 100.
Proof.
  split; [apply sample_asks_represents|].
  destruct (trades_respect_limits 3 _ _ (sample_order 2 1 Buy 100 8 IOC) sample_asks_represents) as (e' & evs & H & Ht);
    [by vm_compute|by apply (bool_decide_unpack _)|].
  exists e', evs. split; [exact H|]. intros t Hin. destruct (Ht t Hin) as [Hc _]. by apply Z.leb_le in Hc.
Defined.

(** The orders a book reports for one side, and their exchange ids. *)
Lemma real_book n e f id : represents n e f → knows_instrument id f = true →
  ∃ B b, book_for id e = Some B ∧ book_for id f = Some b ∧ Rep B b ∧ book_ok n b ∧
    ∀ sd, MatchingBook.all_of sd B = Some (queue sd b).*2.
Proof.
  intros [HE HI] Hk. destruct (known_book _ _ _ HI Hk) as (b & Hb & Hok).
  destruct (er_book_for _ _ _ _ _ HE Hb) as (B & HB & HRep).
  exists B, b. split_and!; try done. intros sd. by apply (all_of_refines B b sd HRep).
Qed.

(** The resting parties of the trades of a list of events, in order. *)
Definition trade_makers (evs : list ExchangeEvent) : list ExchangeOrderId :=
  omap (λ ev, match ev with
              | EvTrade t => Some (cp_exchange_order_id (resting_party t))
              | _ => None
              end) evs.

Lemma trade_makers_app l1 l2 : trade_makers (l1 ++ l2) = trade_makers l1 ++ trade_makers l2.
Proof. apply omap_app. Qed.

Lemma fill_events_makers o cs fs : ∀ n rem,
  trade_makers (fill_events o cs n rem fs) = bo_exchange_order_id ∘ snd ∘ fl_entry <$> fs.
Proof.
  induction fs as [|x fs IH]; intros n rem; [done|]. cbn [fill_events]. rewrite fmap_cons, <-(IH (next_seq (next_seq n)) (rem - fl_quantity x)).
  unfold trade_makers, trade_event, resting_event, resting_party. cbn [omap list_omap te_aggressor_side].
  destruct (ero_side o), (fl_after x =? 0); done.
Qed.

Lemma submit_makers o cs b n :
  trade_makers (submit_events o cs b n) =
    bo_exchange_order_id ∘ snd ∘ fl_entry <$> oc_fills (outcome_of o b).
Proof.
  unfold submit_events. rewrite trade_makers_app, fill_events_makers. unfold rest_events.
  destruct (rests _); by rewrite app_nil_r.
Qed.

Lemma submit_contra_queue o b :
  queue (contra (ero_side o))
    (if rests (matched o b) then rest_book (matched o b) (book_matched o b) else book_matched o b) =
  oc_queue (outcome_of o b).
Proof.
  transitivity (queue (contra (ero_side o)) (book_matched o b)); [|apply queue_book_after].
  destruct (rests _); [|done]. unfold rest_book, take_slot.
  change (ero_side (matched o b)) with (ero_side o). rewrite queue_with_contra.
  destruct (free _); by destruct (ero_side o).
Qed.

(** C6: price-time priority, on the orders the book itself reports. The trades
    consume the contra side from its best order on, in the reported order (best
    price first, then arrival); the orders left are the rest of that list, the
    first of them possibly reduced in place. *)
Theorem price_time_priority n e f cmd : represents n e f → n < MatchingBook.kNil →
  command_ok (CmdNew cmd) → new_order_reason cmd f = None →
  ∃ B os e' evs B' os', book_for (no_instrument_id cmd) e = Some B ∧
    MatchingBook.all_of (contra (no_side cmd)) B = Some os ∧
    process (CmdNew cmd) e = Some (tt, e', evs) ∧
    book_for (no_instrument_id cmd) e' = Some B' ∧
    MatchingBook.all_of (contra (no_side cmd)) B' = Some os' ∧
    ∃ gone, trade_makers evs `prefix_of` (bo_exchange_order_id <$> os) ∧
      ((trade_makers evs = bo_exchange_order_id <$> gone ∧ os = gone ++ os') ∨
       ∃ o k rest, trade_makers evs = bo_exchange_order_id <$> gone ++ [o] ∧
         os = gone ++ o :: rest ∧ os' = bo_with_remaining k o :: rest).
Proof.
  intros HR Hn Hc Hr.
  destruct (new_order_accepts n e f cmd HR Hn Hc Hr) as (b & e' & Hb & Hok & Hk & Hp & Hq & Hrun & HR').
  destruct (real_book n e f _ HR Hk) as (B & b2 & HB & Hb2 & _ & _ & Hos).
  rewrite Hb in Hb2. injection Hb2 as <-.
  set (o := new_order cmd f) in *. set (f' := submit_state o b (announced f)) in *.
  assert (knows_instrument (no_instrument_id cmd) f' = true) as Hk'.
  { unfold f', submit_state, rest_state. by destruct (rests _). }
  destruct (real_book _ e' f' _ HR' Hk') as (B' & b' & HB' & Hb' & _ & _ & Hos').
  assert (queue (contra (no_side cmd)) b' = oc_queue (outcome_of o b)) as Hq'.
  { pose proof (book_for_engine_after _ (contra (ero_side o)) b (announced f) (outcome_of o b) Hb) as Hb1.
    rewrite <-(submit_contra_queue o b). f_equal.
    assert (book_for (no_instrument_id cmd) f' = Some (if rests (matched o b)
      then rest_book (matched o b) (book_matched o b) else book_matched o b)) as Hb3; [|congruence].
    unfold f', submit_state, rest_state. destruct (rests (matched o b)); [|exact Hb1].
    by apply (book_for_with _ (rest_book (matched o b) (book_matched o b)) (book_matched o b)). }
  eexists B, _, e', _, B', _. do 5 (split; [done|]). rewrite Hq'.
  change (trade_makers (accepted_event cmd f :: ?l)) with (trade_makers l). rewrite submit_makers.
  destruct (fill_prefix (no_side cmd) (no_price cmd) (queue (contra (no_side cmd)) b) (no_quantity cmd))
    as (gone & rest & Hg & Hpre & Hcase).
  change (fill_queue _ _ _ _) with (outcome_of o b) in Hg, Hcase.
  exists gone.*2. rewrite !list_fmap_compose, Hg, <-!list_fmap_compose. split.
  - destruct Hpre as [k ->]. exists (bo_exchange_order_id ∘ snd <$> k). by rewrite <-fmap_app.
  - destruct Hcase as [[-> Hsplit]|(s & x & k & q' & -> & Hsplit & ->)].
    + left. rewrite app_nil_r. split; [done|]. by rewrite Hsplit at 1; rewrite fmap_app.
    + right. exists x, k, q'.*2. split_and!.
      * by rewrite fmap_app, fmap_app, <-list_fmap_compose.
      * by rewrite Hsplit, fmap_app.
      * done.
Qed.

Lemma price_time_priority_witness :
  new_order_reason (sample_order 2 1 Buy 101 12 GTC) (sample_state sample_asks) = None ∧
  ∃ B os e' evs B' os', book_for 7 (sample_state (B := MatchingBook.t) sample_asks) = Some B ∧
    MatchingBook.all_of Sell B = Some os ∧
    process (CmdNew (sample_order 2 1 Buy 101 12 GTC)) (sample_state sample_asks) = Some (tt, e', evs) ∧
    book_for 7 e' = Some B' ∧ MatchingBook.all_of Sell B' = Some os' ∧
    ∃ gone, trade_makers evs `prefix_of` (bo_exchange_order_id <$> os) ∧
      ((trade_makers evs = bo_exchange_order_id <$> gone ∧ os = gone ++ os') ∨
       ∃ o k rest, trade_makers evs = bo_exchange_order_id <$> gone ++ [o] ∧
         os = gone ++ o :: rest ∧ os' = bo_with_remaining k o :: rest).
Proof.
  split; [by vm_compute|].
  apply (price_time_priority 3 _ _ (sample_order 2 1 Buy 101 12 GTC) sample_asks_represents);
    [by vm_compute|by apply (bool_decide_unpack _)|by vm_compute].
Defined.

(** ** Time in force *)

(** Fill or kill is all or nothing. An accepted one trades its whole quantity
    and rests nothing, whatever rests on the book (the pre-check's 64-bit total
    cannot be fooled by wrapping around); one rejected for want of liquidity was
    rightly so, as long as the contra side's total fits in 64 bits. *)
Theorem fill_or_kill n e f cmd : represents n e f → n < MatchingBook.kNil →
  command_ok (CmdNew cmd) → no_time_in_force cmd = FOK →
  (new_order_reason cmd f = None → ∃ e' evs, process (CmdNew cmd) e = Some (tt, e', evs) ∧
     traded evs = no_quantity cmd ∧ added evs = 0) ∧
  (∀ b, new_order_reason cmd f = Some RejectReason.InsufficientLiquidity →
     book_for (no_instrument_id cmd) f = Some b → resting (queue (contra (no_side cmd)) b) < 2 ^ 64 →
     crossing (no_side cmd) (no_price cmd) (queue (contra (no_side cmd)) b) < no_quantity cmd).
Proof.
  intros HR Hn Hc Hfok. split.
  - intros Hr. destruct (new_order_accepts n e f cmd HR Hn Hc Hr) as (b & e' & Hb & Hok & _ & _ & Hq & Hrun & _).
    exists e'. eexists. split; [exact Hrun|].
    destruct (submit_sums (new_order cmd f) (no_command_sequence cmd) b (next_seq (next_event_sequence_ f))) as [Ht Ha].
    set (l := submit_events _ _ _ _) in *.
    change (traded l = no_quantity cmd ∧ added l = 0). rewrite Ht, Ha.
    pose proof (book_live _ _ (contra (no_side cmd)) Hok) as Hlive.
    pose proof (fill_remaining_crossing (no_side cmd) (no_price cmd) _ (no_quantity cmd) ltac:(lia) Hlive) as Hrem.
    pose proof (crossable_sound (no_side cmd) (no_price cmd) (no_quantity cmd) _ 0 ltac:(lia) Hlive) as Hs.
    pose proof (fill_conserves (no_side cmd) (no_price cmd) (queue (contra (no_side cmd)) b) (no_quantity cmd)) as [C1 _].
    change (fill_queue _ _ _ _) with (outcome_of (new_order cmd f) b) in Hrem, C1.
    unfold new_order_reason in Hr. destruct (negb _); [done|]. destruct (_ <=? _); [done|].
    destruct (_ =? 0); [done|]. case_bool_decide; [done|].
    rewrite Hb, (bool_decide_true (_ = FOK)) in Hr by done. cbn [andb] in Hr.
    destruct (Z.ltb_spec (ABook.crossable (contra (no_side cmd)) (no_price cmd) (no_quantity cmd) 0
      (queue (contra (no_side cmd)) b)) (no_quantity cmd)); [done|].
    split; [lia|]. unfold rests. change (ero_time_in_force _) with (no_time_in_force cmd).
    by rewrite Hfok, bool_decide_false.
  - intros b Hr Hb Hfit. destruct (Z.lt_ge_cases
      (crossing (no_side cmd) (no_price cmd) (queue (contra (no_side cmd)) b)) (no_quantity cmd)) as [|Hge]; [done|].
    unfold new_order_reason in Hr. destruct (knows_instrument _ f) eqn:Hk; cbn [negb] in Hr; [|done].
    destruct (_ <=? _); [done|]. destruct (Z.eqb_spec (no_quantity cmd) 0); [done|].
    case_bool_decide; [done|]. rewrite Hb, bool_decide_true in Hr by done. cbn [andb] in Hr.
    destruct HR as [_ HI]. destruct (known_book _ _ _ HI Hk) as (b2 & Hb2 & Hok).
    rewrite Hb in Hb2. injection Hb2 as <-. destruct Hc as [_ Hq].
    pose proof (crossable_complete (no_side cmd) (no_price cmd) (no_quantity cmd) _ 0 ltac:(lia)
      (book_live _ _ (contra (no_side cmd)) Hok) ltac:(lia) ltac:(lia) ltac:(lia)).
    destruct (Z.ltb_spec (ABook.crossable (contra (no_side cmd)) (no_price cmd) (no_quantity cmd) 0
      (queue (contra (no_side cmd)) b)) (no_quantity cmd)); [lia|done].
Qed.

Lemma fill_or_kill_witness :
  new_order_reason (sample_order 2 1 Buy 101 15 FOK) (sample_state sample_asks) = None ∧
  ∃ e' evs, process (CmdNew (sample_order 2 1 Buy 101 15 FOK)) (sample_state (B := MatchingBook.t) sample_asks) =
    Some (tt, e', evs) ∧ traded evs = 15 ∧ added evs = 0.
Proof.
  assert (new_order_reason (sample_order 2 1 Buy 101 15 FOK) (sample_state sample_asks) = None) as Hr by by vm_compute.
  split; [done|].
  refine (proj1 (fill_or_kill 3 _ _ (sample_order 2 1 Buy 101 15 FOK) sample_asks_represents _ _ _) Hr);
    [by vm_compute|by apply (bool_decide_unpack _)|done].
Defined.

(** Only good-till-cancelled orders rest: it is so of every entry of every book. *)
Lemma resting_gtc n b sd x : book_ok n b → x ∈ queue sd b → bo_time_in_force x.2 = GTC.
Proof. intros Hok Hx. by apply (bk_entry _ _ Hok sd x). Qed.

(** ** Books *)

(** C7: no book is ever crossed or locked, and every order a book reports is live,
    on its side, and good till cancelled: immediate orders never rest. *)
Theorem book_sound n e f id : represents n e f → knows_instrument id e = true →
  ∃ B bs os bid ask, book_for id e = Some B ∧
    MatchingBook.all_of Buy B = Some bs ∧ MatchingBook.all_of Sell B = Some os ∧
    MatchingBook.best_bid_price B = Some bid ∧ MatchingBook.best_ask_price B = Some ask ∧
    (∀ p q, bid = Some p → ask = Some q → p < q) ∧
    (∀ o, o ∈ bs → bo_side o = Buy ∧ 0 < bo_remaining_quantity o ∧ bo_time_in_force o = GTC) ∧
    (∀ o, o ∈ os → bo_side o = Sell ∧ 0 < bo_remaining_quantity o ∧ bo_time_in_force o = GTC).
Proof.
  intros HR Hk. assert (knows_instrument id f = true) as Hkf.
  { destruct HR as [HE _]. by rewrite <-(er_knows _ _ _ _ HE). }
  destruct (real_book n e f id HR Hkf) as (B & b & HB & _ & HRep & Hok & Hall).
  eexists B, _, _, _, _. split; [done|]. do 2 (split; [done|]).
  split; [exact (best_side_price_refines B b Buy HRep)|].
  split; [exact (best_side_price_refines B b Sell HRep)|].
  assert (∀ sd o, o ∈ (queue sd b).*2 → bo_side o = sd ∧ 0 < bo_remaining_quantity o ∧ bo_time_in_force o = GTC) as Hent.
  { intros sd o (x & -> & Hx)%list_elem_of_fmap. destruct (bk_entry _ _ Hok sd x Hx) as (? & _ & [? _] & ?). done. }
  split; [|split; intros o; apply Hent].
  intros p q Hp Hq. destruct (queue Buy b) as [|x xs] eqn:Ex; [done|]. destruct (queue Sell b) as [|y ys] eqn:Ey; [done|].
  injection Hp as <-. injection Hq as <-. apply (bk_uncrossed _ _ Hok).
  - change (bids b) with (queue Buy b). rewrite Ex. by left.
  - change (asks b) with (queue Sell b). rewrite Ey. by left.
Qed.

Lemma book_sound_witness : represents 3 (sample_state sample_asks) (sample_state sample_asks) ∧
  ∃ B bs os bid ask, book_for 7 (sample_state (B := MatchingBook.t) sample_asks) = Some B ∧
    MatchingBook.all_of Buy B = Some bs ∧ MatchingBook.all_of Sell B = Some os ∧
    MatchingBook.best_bid_price B = Some bid ∧ MatchingBook.best_ask_price B = Some ask ∧
    (∀ p q, bid = Some p → ask = Some q → p < q) ∧
    (∀ o, o ∈ bs → bo_side o = Buy ∧ 0 < bo_remaining_quantity o ∧ bo_time_in_force o = GTC) ∧
    (∀ o, o ∈ os → bo_side o = Sell ∧ 0 < bo_remaining_quantity o ∧ bo_time_in_force o = GTC).
Proof.
  split; [apply sample_asks_represents|].
  apply (book_sound 3 _ _ 7 sample_asks_represents). by vm_compute.
Defined.

(** ** The directory *)

(** The directory never lies. The handle of every live entry names, in the
    book of the entry's instrument, an order that answers to the entry's key; so
    no operation through a handle ever reaches another order's slot. *)
Theorem directory_sound n e f k ref : represents n e f → orders_ e !! k = Some ref →
  ∃ B o, book_for (or_instrument_id ref) e = Some B ∧
    MatchingBook.at_ (or_handle ref) B = Some o ∧ order_key o = k.
Proof.
  intros [HE HI] Hl. rewrite (er_orders _ _ _ HE) in Hl.
  destruct (located _ _ _ _ HI Hl) as (Hk & b & o & Hb & Hok & Ho & Hkey).
  destruct (er_book_for _ _ _ _ _ HE Hb) as (B & HB & HRep).
  exists B, o. split_and!; try done. by apply (at_refines B b _ HRep).
Qed.

Lemma directory_sound_witness :
  ∃ ref, orders_ (sample_state (B := MatchingBook.t) sample_asks) !! (1, 2) = Some ref ∧
  ∃ B o, book_for (or_instrument_id ref) (sample_state (B := MatchingBook.t) sample_asks) = Some B ∧
    MatchingBook.at_ (or_handle ref) B = Some o ∧ order_key o = (1, 2).
Proof.
  exists (mkOrderRef 4 2 1 7).
  assert (orders_ (sample_state (B := MatchingBook.t) sample_asks) !! (1, 2) = Some (mkOrderRef 4 2 1 7)) as H
    by by vm_compute.
  split; [exact H|]. exact (directory_sound 3 _ _ (1, 2) _ sample_asks_represents H).
Defined.

End EngineProps.
