(* ===== verification/EngineTrace.v ===== *)
(** * The engine's event stream

    Properties of the events alone, for an engine over any order book whatever:
    they are numbered without gaps, and a rejection is a command's only event and
    only effect. Then the snapshot, and what a replace that takes over another
    live order's client id does to the engine. *)

From stdpp Require Import sorting.
From S2P Require Import Prelude.
From S2P Require Import Types.
From S2P Require Import Effects.
From S2P Require Import MatchingBook.
From S2P Require Import BookSpec.
From S2P Require Import MatchingEngine.

Module EngineTrace.
Import MatchingEngine.

Section any_book.
Context {B : Type} `{HB : BookOps B}.
Abbreviation eng := (t B).

Definition numbered {A} (m : eff eng ExchangeEvent A) : Prop :=
  ∀ e a e' evs, m e = Some (a, e', evs) →
    event_sequence <$> evs = numbers (next_event_sequence_ e) (length evs) ∧
    next_event_sequence_ e' = bumped (next_event_sequence_ e) (length evs).

(** Every event of a computation satisfies [P]. *)
Definition outputs {A} (P : ExchangeEvent → Prop) (m : eff eng ExchangeEvent A) : Prop :=
  ∀ e a e' evs, m e = Some (a, e', evs) → Forall P evs.

Lemma bind_inv {A C} (m : eff eng ExchangeEvent A) (g : A → eff eng ExchangeEvent C) e c e2 evs :
  ebind m g e = Some (c, e2, evs) → ∃ a e1 o1 o2, m e = Some (a, e1, o1) ∧
    g a e1 = Some (c, e2, o2) ∧ evs = o1 ++ o2.
Proof.
  unfold ebind. destruct (m e) as [[[a e1] o1]|]; [|done].
  destruct (g a e1) as [[[c' e2'] o2]|] eqn:Hg; [|done]. intros [= <- <- <-].
  by exists a, e1, o1, o2.
Qed.

Lemma numbered_bind {A C} (m : eff eng ExchangeEvent A) (g : A → eff eng ExchangeEvent C) :
  numbered m → (∀ a, numbered (g a)) → numbered (ebind m g).
Proof.
  intros Hm Hg e c e2 evs (a & e1 & o1 & o2 & H1 & H2 & ->)%bind_inv.
  destruct (Hm _ _ _ _ H1) as [N1 B1]. destruct (Hg a _ _ _ _ H2) as [N2 B2].
  rewrite fmap_app, length_app, numbers_app, bumped_add, N1, N2, B2, B1. done.
Qed.

Lemma numbered_silent {A} (m : eff eng ExchangeEvent A) :
  (∀ e a e' evs, m e = Some (a, e', evs) → evs = [] ∧ next_event_sequence_ e' = next_event_sequence_ e) →
  numbered m.
Proof. intros H e a e' evs [-> ->]%H. done. Qed.

Lemma outputs_bind {A C} P (m : eff eng ExchangeEvent A) (g : A → eff eng ExchangeEvent C) :
  outputs P m → (∀ a, outputs P (g a)) → outputs P (ebind m g).
Proof.
  intros Hm Hg e c e2 evs (a & e1 & o1 & o2 & H1 & H2 & ->)%bind_inv.
  apply Forall_app. split; [by eapply Hm|by eapply Hg].
Qed.

(** ** The primitives *)

Lemma numbered_sink (ev : EventSequence → ExchangeEvent) :
  (∀ n, event_sequence (ev n) = n) → numbered (sink ev).
Proof. intros Hev e a e' evs [= <- <- <-]. simpl. by rewrite Hev. Qed.

Lemma silent_set_book id (b : B) (e e' : eng) : set_book id b e = Some e' →
  next_event_sequence_ e' = next_event_sequence_ e.
Proof. unfold set_book. by intros (slot & _ & (bs & _ & [= <-])%bind_Some)%bind_Some. Qed.

Lemma silent_change_book {A} id (f : B → option (A * B)) e a e' evs :
  change_book id f e = Some (a, e', evs) → evs = [] ∧ next_event_sequence_ e' = next_event_sequence_ e.
Proof.
  unfold change_book, eupdate. destruct (b ← book_for id e; _) as [[x e1]|] eqn:Hu; [|done].
  intros [= <- <- <-]. split; [done|].
  apply bind_Some in Hu as (b & _ & ([y b'] & _ & (e2 & Hs & [= <- <-])%bind_Some)%bind_Some).
  by apply silent_set_book in Hs.
Qed.

Lemma silent_read {A} (f : eng → option A) e a e' (evs : list ExchangeEvent) : eread f e = Some (a, e', evs) →
  evs = [] ∧ next_event_sequence_ e' = next_event_sequence_ e.
Proof. unfold eread. destruct (f e); [|done]. by intros [= <- <- <-]. Qed.

Lemma numbered_ret {A} (a : A) : numbered (eret a).
Proof. apply numbered_silent. by intros e x e' evs [= <- <- <-]. Qed.

Lemma numbered_fail {A} : numbered (efail : eff eng ExchangeEvent A).
Proof. by intros e a e' evs. Qed.

Lemma numbered_get : numbered eget.
Proof. apply numbered_silent. by intros e x e' evs [= <- <- <-]. Qed.

Lemma numbered_on_book {A} id (f : B → option A) : numbered (on_book id f).
Proof. apply numbered_silent. intros *. apply silent_read. Qed.

Lemma numbered_lookup key : numbered (lookup_order key).
Proof. apply numbered_silent. intros *. apply silent_read. Qed.

Lemma numbered_change_book {A} id (f : B → option (A * B)) : numbered (change_book id f).
Proof. apply numbered_silent. intros *. apply silent_change_book. Qed.

Lemma numbered_change_book_ id (f : B → option B) : numbered (change_book_ id f).
Proof. apply numbered_change_book. Qed.

Lemma numbered_insert key ref : numbered (insert_or_assign key ref).
Proof. apply numbered_silent. by intros e x e' evs [= <- <- <-]. Qed.

Lemma numbered_erase key : numbered (erase_order key).
Proof. apply numbered_silent. by intros e x e' evs [= <- <- <-]. Qed.

Lemma numbered_take_id : numbered take_exchange_order_id.
Proof. apply numbered_silent. by intros e x e' evs [= <- <- <-]. Qed.

Lemma numbered_take_priority : numbered take_priority.
Proof. apply numbered_silent. by intros e x e' evs [= <- <- <-]. Qed.

Lemma outputs_silent {A} P (m : eff eng ExchangeEvent A) : (∀ e a e' evs, m e = Some (a, e', evs) → evs = []) →
  outputs P m.
Proof. intros H e a e' evs ->%H. constructor. Qed.

Lemma outputs_sink (P : ExchangeEvent → Prop) ev : (∀ n, P (ev n)) → outputs P (sink ev).
Proof. intros Hev e a e' evs [= <- <- <-]. by repeat constructor. Qed.

Lemma outputs_change_book {A} P id (f : B → option (A * B)) : outputs P (change_book id f).
Proof. apply outputs_silent. intros e a e' evs [-> _]%silent_change_book. done. Qed.

Lemma outputs_read {A} P (f : eng → option A) : outputs P (eread f).
Proof. apply outputs_silent. intros e a e' evs [-> _]%silent_read. done. Qed.

Lemma outputs_ret {A} P (a : A) : outputs P (eret a).
Proof. apply outputs_silent. by intros e x e' evs [= <- <- <-]. Qed.

Lemma outputs_fail {A} P : outputs P (efail : eff eng ExchangeEvent A).
Proof. by intros e a e' evs. Qed.

Lemma outputs_modify P f : outputs P (emodify f).
Proof. apply outputs_silent. by intros e x e' evs [= <- <- <-]. Qed.

Lemma outputs_take_id P : outputs P take_exchange_order_id.
Proof. apply outputs_silent. by intros e x e' evs [= <- <- <-]. Qed.

Lemma outputs_take_priority P : outputs P take_priority.
Proof. apply outputs_silent. by intros e x e' evs [= <- <- <-]. Qed.

Hint Resolve numbered_ret numbered_fail numbered_get numbered_on_book numbered_lookup
  numbered_change_book numbered_change_book_ numbered_insert numbered_erase numbered_take_id
  numbered_take_priority : core.
Hint Resolve outputs_change_book outputs_read outputs_ret outputs_fail outputs_modify
  outputs_take_id outputs_take_priority : core.

(** One construct of the code at a time, for either predicate. *)
Ltac trace_step :=
  first
    [ solve [eauto] | apply numbered_sink; done
    | apply outputs_sink; done
    | apply numbered_bind; [|intros ?] | apply outputs_bind; [|intros ?]
    | match goal with
      | |- numbered (if ?b then _ else _) => destruct b
      | |- numbered (match ?x with _ => _ end) => destruct x
      | |- outputs _ (if ?b then _ else _) => destruct b
      | |- outputs _ (match ?x with _ => _ end) => destruct x
      end ].

(** ** Numbering *)

Lemma numbered_match_loop fuel cs : ∀ incoming, numbered (match_loop fuel incoming cs).
Proof.
  induction fuel as [|fuel IH]; intros incoming; cbn [match_loop]; unfold match_step; repeat trace_step.
Qed.

Lemma numbered_rest o : numbered (rest_remainder_if_applicable o).
Proof. unfold rest_remainder_if_applicable. repeat trace_step. Qed.

Lemma numbered_match_and_rest o cs : numbered (match_and_rest o cs).
Proof. unfold match_and_rest. apply numbered_bind; [eauto|]. intros ?. apply numbered_match_loop. Qed.

Hint Resolve numbered_match_and_rest numbered_rest : core.

Lemma numbered_process c : numbered (process c).
Proof.
  destruct c; cbn [process]; [unfold process_new_order|unfold process_cancel|unfold process_replace];
    unfold accept_new_order, replace_in_place, replace_as_new,
      reject_new_order, reject_cancel, reject_replace_order; repeat trace_step.
Qed.

Lemma numbered_run cs : numbered (run cs).
Proof.
  induction cs as [|c cs IH]; cbn [run]; [apply numbered_ret|].
  apply numbered_bind; [apply numbered_process|by intros].
Qed.

(** The events of a run are numbered consecutively from the engine's counter,
    across commands and event types, and the counter ends one past the last. *)
Theorem events_gapless cs e e' evs : run cs e = Some (tt, e', evs) →
  event_sequence <$> evs = numbers (next_event_sequence_ e) (length evs) ∧
  next_event_sequence_ e' = bumped (next_event_sequence_ e) (length evs).
Proof. apply numbered_run. Qed.

(** ** Rejections *)

Definition is_rejection (ev : ExchangeEvent) : bool :=
  match ev with EvRejected _ => true | _ => false end.

Abbreviation accepting := (outputs (λ ev, is_rejection ev = false)).

Lemma accepting_match_loop fuel cs : ∀ incoming, accepting (match_loop fuel incoming cs).
Proof.
  induction fuel as [|fuel IH]; intros incoming; cbn [match_loop];
    unfold match_step, on_book, change_book_, erase_order; repeat trace_step.
Qed.

Lemma accepting_match_and_rest o cs : accepting (match_and_rest o cs).
Proof. unfold match_and_rest, on_book. apply outputs_bind; [eauto|]. intros ?. apply accepting_match_loop. Qed.

Lemma accepting_rest o : accepting (rest_remainder_if_applicable o).
Proof. unfold rest_remainder_if_applicable, insert_or_assign. repeat trace_step. Qed.

Hint Resolve accepting_match_and_rest accepting_rest : core.

Lemma accepting_new cmd : accepting (accept_new_order cmd).
Proof. unfold accept_new_order. repeat trace_step. Qed.

Lemma accepting_in_place cmd ref o : accepting (replace_in_place cmd ref o).
Proof. unfold replace_in_place, change_book_, insert_or_assign, erase_order. repeat trace_step. Qed.

Lemma accepting_as_new cmd ref o : accepting (replace_as_new cmd ref o).
Proof. unfold replace_as_new, erase_order. repeat trace_step. Qed.

(** The state a lone rejection leaves. *)
Definition only_numbered (e : eng) : eng :=
  with_counters (next_exchange_order_id_ e) (u64 (next_event_sequence_ e + 1)) (next_priority_ e) e.

(** Either a rejection and nothing else, or no rejection at all. *)
Definition clean (m : eff eng ExchangeEvent unit) : Prop :=
  ∀ e a e' evs, m e = Some (a, e', evs) →
    (∃ r, evs = [EvRejected r] ∧ e' = only_numbered e) ∨ Forall (λ ev, is_rejection ev = false) evs.

Lemma clean_accepting m : accepting m → clean m.
Proof. intros H e a e' evs ?. right. by eapply H. Qed.

Lemma clean_reject_sink (ev : EventSequence → OrderRejected) : clean (sink (λ n, EvRejected (ev n))).
Proof. intros e a e' evs [= <- <- <-]. left. by eexists. Qed.

(** Reading first changes nothing. *)
Lemma clean_read {A} (f : eng → option A) g : (∀ a, clean (g a)) → clean (ebind (eread f) g).
Proof.
  intros Hg e c e2 evs (a & e1 & o1 & o2 & H1 & H2 & ->)%bind_inv. unfold eread in H1.
  destruct (f e); [|done]. injection H1 as <- <- <-. by apply Hg in H2.
Qed.

Lemma clean_get g : (∀ a, clean (g a)) → clean (ebind eget g).
Proof.
  intros Hg e c e2 evs (a & e1 & o1 & o2 & H1 & H2 & ->)%bind_inv.
  injection H1 as <- <- <-. by apply Hg in H2.
Qed.

Ltac clean_step :=
  first
    [ apply clean_reject_sink | apply clean_get; intros ? | apply clean_read; intros ?
    | match goal with
      | |- clean (if ?b then _ else _) => destruct b
      | |- clean (match ?x with _ => _ end) => destruct x
      end
    | apply clean_accepting;
      first [apply accepting_new|apply accepting_in_place|apply accepting_as_new
            |unfold erase_order; solve [repeat trace_step]] ].

Lemma clean_process c : clean (process c).
Proof.
  destruct c; cbn [process]; [unfold process_new_order|unfold process_cancel|unfold process_replace];
    unfold reject_new_order, reject_cancel, reject_replace_order, lookup_order, on_book;
    repeat clean_step.
Qed.

(** A rejected command does nothing else. If a command produces a rejection,
    that is its only event, and the books, the directory, the registry and the
    order-id and priority counters are what they were. *)
Theorem rejection_changes_nothing c e e' evs r : process c e = Some (tt, e', evs) →
  EvRejected r ∈ evs →
  evs = [EvRejected r] ∧ books_ e' = books_ e ∧ orders_ e' = orders_ e ∧
  slot_of_id_ e' = slot_of_id_ e ∧ by_id_ e' = by_id_ e ∧
  next_exchange_order_id_ e' = next_exchange_order_id_ e ∧ next_priority_ e' = next_priority_ e ∧
  next_event_sequence_ e' = u64 (next_event_sequence_ e + 1).
Proof.
  intros Hrun Hin. destruct (clean_process c _ _ _ _ Hrun) as [(r' & -> & ->)|Hall].
  - apply list_elem_of_singleton in Hin as [= ->]. by split_and!.
  - rewrite Forall_forall in Hall. by apply Hall in Hin.
Qed.
End any_book.

(** ** Sessions *)

Definition limit_order (acc cid : Z) (side : Side) (price qty : Z) : ExchangeCommand :=
  CmdNew (mkNewOrder 0 acc cid 7 side price qty Limit GTC).

(** A fresh engine trading instrument 7, and the run of a session on it. *)
Definition fresh_engine : option (t MatchingBook.t) := make [7] 0.

Definition after_session (cs : list ExchangeCommand) : option (t MatchingBook.t * list ExchangeEvent) :=
  e ← fresh_engine; '(_, e', evs) ← run cs e; Some (e', evs).

Definition crossing_session : list ExchangeCommand :=
  [limit_order 1 1 Sell 100 5; limit_order 1 1 Sell 100 5; limit_order 2 1 Buy 100 7].

Lemma events_gapless_witness : ∃ e e' evs, fresh_engine = Some e ∧
  run crossing_session e = Some (tt, e', evs) ∧
  event_sequence <$> evs = numbers (next_event_sequence_ e) (length evs) ∧
  next_event_sequence_ e' = bumped (next_event_sequence_ e) (length evs).
Proof.
  destruct fresh_engine as [e|] eqn:He; [|by vm_compute in He].
  destruct (run crossing_session e) as [[[[] e'] evs]|] eqn:Hrun.
  - exists e, e', evs. do 2 (split; [done|]). apply (events_gapless _ _ _ _ Hrun).
  - vm_compute in He. injection He as <-. by vm_compute in Hrun.
Defined.

Lemma rejection_changes_nothing_witness : ∃ e e' evs r, fresh_engine = Some e ∧
  process (limit_order 1 1 Sell 0 5) e = Some (tt, e', evs) ∧ EvRejected r ∈ evs ∧
  evs = [EvRejected r] ∧ books_ e' = books_ e ∧ orders_ e' = orders_ e ∧
  slot_of_id_ e' = slot_of_id_ e ∧ by_id_ e' = by_id_ e ∧
  next_exchange_order_id_ e' = next_exchange_order_id_ e ∧ next_priority_ e' = next_priority_ e ∧
  next_event_sequence_ e' = u64 (next_event_sequence_ e + 1).
Proof.
  destruct fresh_engine as [e|] eqn:He; [|by vm_compute in He].
  assert (process (limit_order 1 1 Sell 0 5) e = Some (tt, only_numbered e,
    [EvRejected (mkOrderRejected 1 0 1 1 7 RejectReason.InvalidPrice)])) as Hrun.
  { vm_compute in He. injection He as <-. by vm_compute. }
  exists e, (only_numbered e), [EvRejected (mkOrderRejected 1 0 1 1 7 RejectReason.InvalidPrice)],
    (mkOrderRejected 1 0 1 1 7 RejectReason.InvalidPrice).
  do 3 (split; [first [done|by left]|]).
  apply (rejection_changes_nothing _ _ _ _ _ Hrun). by left.
Defined.

(** ** A replace that takes over a live client id

    [process_replace] never asks whether [new_client_order_id] already names a
    live order of the account, as [process_new_order] does. *)

Definition takeover_session : list ExchangeCommand :=
  [limit_order 1 1 Sell 100 5; limit_order 1 2 Sell 101 6;
   CmdReplace (mkReplaceOrder 0 1 1 2 7 100 4)].

(** The events of the session's next command. *)
Definition next_events (cs : list ExchangeCommand) (c : ExchangeCommand) : option (list ExchangeEvent) :=
  '(e, _) ← after_session cs; '(_, _, evs) ← process c e; Some evs.

(** Replacing order 1 by the id of live order 2 is accepted. Both orders rest
    on the book under client id 2, but the directory has one entry, for the
    replaced one: one cancel of client id 2 removes it, the next is rejected as
    unknown while the other order still rests, tradable and beyond reach. *)
Theorem replace_takes_over_live_id :
  (∃ e evs, after_session takeover_session = Some (e, evs) ∧
     (EvReplaced <$> [mkOrderReplaced 5 0 1 1 2 1 7 100 4]) `suffix_of` (take 1 (drop 4 evs)) ∧
     (b ← book_for 7 e; MatchingBook.all_asks b) =
       Some [mkBookOrder 1 2 1 100 4 Sell GTC; mkBookOrder 2 2 1 101 6 Sell GTC] ∧
     orders_ e = {[ (1, 2) := mkOrderRef 5 1 0 7 ]}) ∧
  next_events takeover_session (CmdCancel (mkCancelOrder 0 1 2 7)) =
    Some [EvCancelled (mkOrderCancelled 7 0 1 2 1 7); EvRemoved (mkBookOrderRemoved 8 7 1 Sell 100)] ∧
  next_events (takeover_session ++ [CmdCancel (mkCancelOrder 0 1 2 7)]) (CmdCancel (mkCancelOrder 0 1 2 7)) =
    Some [EvRejected (mkOrderRejected 9 0 1 2 7 RejectReason.UnknownOrderId)] ∧
  (e ← fst <$> after_session (takeover_session ++ [CmdCancel (mkCancelOrder 0 1 2 7)]);
   b ← book_for 7 e; MatchingBook.all_asks b) = Some [mkBookOrder 2 2 1 101 6 Sell GTC] ∧
  (e ← fst <$> after_session (takeover_session ++ [CmdCancel (mkCancelOrder 0 1 2 7)]); snapshot e) = None.
Proof.
  split_and!.
  - destruct (after_session takeover_session) as [[e evs]|] eqn:He; [|by vm_compute in He].
    exists e, evs. vm_compute in He. injection He as <- <-. split; [by vm_compute|].
    split; [|by split; vm_compute]. by exists [].
  - by vm_compute.
  - by vm_compute.
  - by vm_compute.
  - by vm_compute.
Qed.

End EngineTrace.
