(* ===== verification/ByteIo.v ===== *)
(** * Big-endian byte encoding ([include/common/byte_io.hpp])

    The writers append to a buffer, a list of bytes; [ByteReader] is the
    bounds-checked reader. [FieldCodec] is what a writer and a reader of one
    field promise to the frame codecs built from them: writing appends, reading
    gives back what was written, and what is read is what a write would have
    produced. *)

From S2P Require Import Prelude Types.

Module ByteIo.

(** ** Writers *)

Definition put_u8 (buf : list Z) (v : Z) : list Z := buf ++ [u8 v].

Definition put_u16 (buf : list Z) (v : Z) : list Z :=
  (buf ++ [Z.land (Z.shiftr v 8) 255]) ++ [Z.land v 255].

(** [for (int shift = 8 * (n - 1); shift >= 0; shift -= 8)
      buf.push_back(std::byte((v >> shift) & 0xFF));] *)
Fixpoint put_shifts (n : nat) (buf : list Z) (v : Z) : list Z :=
  match n with
  | O => buf
  | S n => put_shifts n (buf ++ [Z.land (Z.shiftr v (8 * Z.of_nat n)) 255]) v
  end.

Definition put_u32 (buf : list Z) (v : Z) : list Z := put_shifts 4 buf v.
Definition put_u64 (buf : list Z) (v : Z) : list Z := put_shifts 8 buf v.
Definition put_i64 (buf : list Z) (v : Z) : list Z := put_u64 buf (u64 v).

(** [io::put_u8(out, static_cast<std::uint8_t>(side))] and its companions. *)
Definition put_side (buf : list Z) (s : Side) : list Z := put_u8 buf (Side_to_Z s).
Definition put_order_type (buf : list Z) (t : OrderType) : list Z := put_u8 buf (OrderType_to_Z t).
Definition put_time_in_force (buf : list Z) (t : TimeInForce) : list Z :=
  put_u8 buf (TimeInForce_to_Z t).
Definition put_reject_reason (buf : list Z) (r : RejectReason) : list Z :=
  put_u8 buf (RejectReason.to_Z r).

(** ** The reader *)

Record ByteReader := mkReader { data_ : list Z; pos_ : Z }.

Definition reader (d : list Z) : ByteReader := mkReader d 0.

Definition remaining (r : ByteReader) : Z := vsize (data_ r) - pos_ r.

(** [for (i < n) v = wrap((v << 8) | data_[pos_ + i])]; [None] would be a read
    out of bounds. *)
Fixpoint gather (wrap : Z → Z) (n : nat) (d : list Z) (pos v : Z) : option Z :=
  match n with
  | O => Some v
  | S n => b ← vget d pos; gather wrap n d (pos + 1) (wrap (Z.lor (Z.shiftl v 8) b))
  end.

Definition get_bytes (wrap : Z → Z) (n : nat) (r : ByteReader) : option (Z * ByteReader) :=
  if remaining r <? Z.of_nat n then None
  else v ← gather wrap n (data_ r) (pos_ r) 0;
       Some (v, mkReader (data_ r) (pos_ r + Z.of_nat n)).

Definition get_u8 (r : ByteReader) : option (Z * ByteReader) :=
  if remaining r <? 1 then None
  else v ← vget (data_ r) (pos_ r); Some (v, mkReader (data_ r) (pos_ r + 1)).

Definition get_u16 : ByteReader → option (Z * ByteReader) := get_bytes u16 2.
Definition get_u32 : ByteReader → option (Z * ByteReader) := get_bytes u32 4.
Definition get_u64 : ByteReader → option (Z * ByteReader) := get_bytes u64 8.

Definition get_i64 (r : ByteReader) : option (Z * ByteReader) :=
  '(v, r) ← get_u64 r; Some (i64 v, r).

(** ** Enumerators

    [is_valid_side] and its companions accept exactly the enumerators' values;
    a raw byte they accept is [static_cast] to the enumeration. The two steps
    are one function here: [None] is a value that is not an enumerator. *)

Definition side_of (raw : Z) : option Side :=
  if raw =? 0 then Some Buy else if raw =? 1 then Some Sell else None.

Definition order_type_of (raw : Z) : option OrderType :=
  if raw =? 0 then Some Limit else None.

Definition time_in_force_of (raw : Z) : option TimeInForce :=
  if raw =? 0 then Some GTC else if raw =? 1 then Some IOC
  else if raw =? 2 then Some FOK else None.

Definition reject_reason_of (raw : Z) : option RejectReason :=
  match raw with
  | 0 => Some RejectReason.None
  | 1 => Some RejectReason.InvalidPrice
  | 2 => Some RejectReason.InvalidQuantity
  | 3 => Some RejectReason.DuplicateOrderId
  | 4 => Some RejectReason.UnknownOrderId
  | 5 => Some RejectReason.InvalidInstrument
  | 6 => Some RejectReason.InsufficientLiquidity
  | 7 => Some RejectReason.InvalidReplacement
  | 8 => Some RejectReason.InternalError
  | 9 => Some RejectReason.InsufficientFunds
  | 10 => Some RejectReason.InsufficientPosition
  | 11 => Some RejectReason.OrderTooLarge
  | 12 => Some RejectReason.AccountMismatch
  | _ => None
  end.

(** ** Bytes and numbers *)

(** The bytes a reader has still to read. *)
Definition unread (r : ByteReader) : list Z := drop (Z.to_nat (pos_ r)) (data_ r).

Definition reader_ok (r : ByteReader) : Prop := 0 ≤ pos_ r ≤ vsize (data_ r).

Definition be_val (bs : list Z) : Z := foldl (λ v b, v * 256 + b) 0 bs.

Lemma land_byte v : Z.land v 255 = v mod 256.
Proof. exact (Z.land_ones v 8 ltac:(lia)). Qed.

Lemma byte_in_u8 v : in_u8 (Z.land v 255).
Proof. rewrite land_byte. unfold in_u8. pose proof (Z.mod_pos_bound v 256). lia. Qed.

Lemma shift_or v b : in_u8 b → Z.lor (Z.shiftl v 8) b = v * 256 + b.
Proof.
  unfold in_u8. intros. enough (Z.land (Z.shiftl v 8) b = 0) as E0.
  { by rewrite <-Z.add_nocarry_lor, Z.shiftl_mul_pow2 by done. }
  apply Z.bits_inj'. intros n ?. rewrite Z.land_spec, Z.bits_0, Z.shiftl_spec by lia.
  destruct (decide (n < 8)); [by rewrite Z.testbit_neg_r by lia|].
  rewrite (Z.bits_above_log2 b), andb_false_r; [done|lia|].
  destruct (decide (b = 0)); [subst; simpl; lia|].
  apply Z.log2_lt_pow2; [lia|]. apply Z.lt_le_trans with (2 ^ 8); [lia|].
  apply Z.pow_le_mono_r; lia.
Qed.

Lemma put_shifts_app n buf v : put_shifts n buf v = buf ++ put_shifts n [] v.
Proof.
  revert buf. induction n as [|n IH]; intros buf; simpl; [by rewrite app_nil_r|].
  rewrite IH, (IH [_]). by rewrite <-app_assoc.
Qed.

Lemma length_put_shifts n v : length (put_shifts n [] v) = n.
Proof.
  induction n as [|n IH]; simpl; [done|].
  rewrite put_shifts_app, length_app, IH. done.
Qed.

Lemma put_shifts_u8 n v : Forall in_u8 (put_shifts n [] v).
Proof.
  induction n as [|n IH]; simpl; [done|]. rewrite put_shifts_app.
  apply Forall_app. split; [|done]. by apply Forall_singleton, byte_in_u8.
Qed.

Lemma foldl_be (bs : list Z) v :
  foldl (λ v b, v * 256 + b) v bs = v * 256 ^ Z.of_nat (length bs) + be_val bs.
Proof.
  unfold be_val. revert v. induction bs as [|b bs IH]; intros v; cbn [foldl length]; [lia|].
  rewrite (IH (v * 256 + b)), (IH (0 * 256 + b)). rewrite Nat2Z.inj_succ, Z.pow_succ_r by lia. ring.
Qed.

Lemma be_val_cons b bs : be_val (b :: bs) = b * 256 ^ Z.of_nat (length bs) + be_val bs.
Proof. unfold be_val at 1. cbn [foldl]. rewrite foldl_be. lia. Qed.

Lemma be_val_range bs : Forall in_u8 bs → 0 ≤ be_val bs < 256 ^ Z.of_nat (length bs).
Proof.
  induction 1 as [|b bs Hb _ IH]; [done|]. rewrite be_val_cons. cbn [length].
  rewrite Nat2Z.inj_succ, Z.pow_succ_r by lia. unfold in_u8 in Hb. nia.
Qed.

(** The bytes written for [v] read as [v], modulo the field's width. *)
Lemma be_val_put n v : be_val (put_shifts n [] v) = v mod 256 ^ Z.of_nat n.
Proof.
  induction n as [|n IH]; simpl; [by rewrite Z.mod_1_r|].
  rewrite put_shifts_app. cbn [app]. rewrite be_val_cons, length_put_shifts, IH.
  rewrite land_byte, Z.shiftr_div_pow2 by lia.
  replace (2 ^ (8 * Z.of_nat n)) with (256 ^ Z.of_nat n) by (by rewrite Z.pow_mul_r by lia).
  rewrite Nat2Z.inj_succ, Z.pow_succ_r by lia.
  rewrite (Z.mul_comm 256), Z.rem_mul_r by (try apply Z.pow_nonzero; lia). lia.
Qed.

Lemma be_val_inj bs cs : Forall in_u8 bs → Forall in_u8 cs → length bs = length cs →
  be_val bs = be_val cs → bs = cs.
Proof.
  intros Hbs. revert cs. induction Hbs as [|b bs Hb Hbs IH]; intros cs Hcs Hl E.
  { by destruct cs. }
  destruct Hcs as [|c cs Hc Hcs]; [done|]. simpl in Hl. rewrite !be_val_cons in E.
  pose proof (be_val_range bs Hbs). pose proof (be_val_range cs Hcs).
  assert (length cs = length bs) as El by lia. rewrite El in *. unfold in_u8 in Hb, Hc.
  set (P := 256 ^ Z.of_nat (length bs)) in *.
  assert (b = c) as ->.
  { destruct (Z.lt_trichotomy b c) as [?|[?|?]]; [|done|]; nia. }
  f_equal. apply IH; [done|lia|lia].
Qed.

Lemma gather_spec wrap N n d pos v :
  (∀ z, 0 ≤ z < 256 ^ Z.of_nat N → wrap z = z) →
  ∀ k, (k + n ≤ N)%nat → 0 ≤ v < 256 ^ Z.of_nat k → 0 ≤ pos →
  Forall in_u8 (take n (drop (Z.to_nat pos) d)) → (n ≤ length (drop (Z.to_nat pos) d))%nat →
  gather wrap n d pos v =
    Some (v * 256 ^ Z.of_nat n + be_val (take n (drop (Z.to_nat pos) d))).
Proof.
  intros Hw. revert pos v. induction n as [|n IH]; intros pos v k Hk Hv Hp Hb Hl.
  { simpl. unfold be_val. simpl. f_equal. lia. }
  destruct (drop (Z.to_nat pos) d) as [|b bs] eqn:Ed; [simpl in Hl; lia|].
  simpl. assert (vget d pos = Some b) as ->.
  { apply vget_Some. split; [done|]. rewrite <-(Nat.add_0_r (Z.to_nat pos)).
    by rewrite <-lookup_drop, Ed. }
  assert (drop (Z.to_nat (pos + 1)) d = bs) as Ed'.
  { replace (Z.to_nat (pos + 1)) with (Z.to_nat pos + 1)%nat by lia.
    by rewrite <-drop_drop, Ed. }
  inversion Hb as [|? ? Hb1 Hb2]; subst. simpl. rewrite shift_or by done.
  assert (256 ^ Z.of_nat (S k) ≤ 256 ^ Z.of_nat N) by (apply Z.pow_le_mono_r; lia).
  assert (0 ≤ v * 256 + b < 256 ^ Z.of_nat (S k)) as Hv'.
  { rewrite Nat2Z.inj_succ, Z.pow_succ_r by lia. unfold in_u8 in Hb1. nia. }
  rewrite Hw by lia. rewrite (IH _ _ (S k)); rewrite ?Ed'; [|lia|done|lia|done|simpl in Hl; lia].
  rewrite be_val_cons, length_take_le by (simpl in Hl; lia).
  f_equal. rewrite Nat2Z.inj_succ, Z.pow_succ_r by lia. ring.
Qed.

Lemma put_shifts_be_val n bs : length bs = n → Forall in_u8 bs →
  put_shifts n [] (be_val bs) = bs.
Proof.
  intros Hl Hbs. apply be_val_inj; [apply put_shifts_u8|done|by rewrite length_put_shifts|].
  rewrite be_val_put, Z.mod_small; [done|]. rewrite <-Hl. by apply be_val_range.
Qed.

(** ** What the writer and the reader of a field promise *)

Class FieldCodec {A : Type} (put : list Z → A → list Z)
    (get : ByteReader → option (A * ByteReader)) (legal : A → Prop) (width : nat) := {
  put_app buf a : put buf a = buf ++ put [] a;
  length_put a : length (put [] a) = width;
  put_bytes_ok a : Forall in_u8 (put [] a);
  (** reading what was written gives it back, and moves past it *)
  get_put r a rest : reader_ok r → legal a → unread r = put [] a ++ rest →
    ∃ r', get r = Some (a, r') ∧ reader_ok r' ∧ unread r' = rest;
  (** what is read is legal and the bytes passed are what writing it produces *)
  put_get r a r' : reader_ok r → Forall in_u8 (unread r) → get r = Some (a, r') →
    legal a ∧ unread r = put [] a ++ unread r' ∧ reader_ok r';
  (** a read fails only where the bytes run out *)
  get_total r : reader_ok r → get r = None ↔ (length (unread r) < width)%nat;
}.

Lemma length_unread r : reader_ok r → Z.of_nat (length (unread r)) = remaining r.
Proof. unfold reader_ok, unread, remaining, vsize. rewrite length_drop. lia. Qed.

Lemma unread_advance r n : reader_ok r → (n ≤ length (unread r))%nat →
  unread (mkReader (data_ r) (pos_ r + Z.of_nat n)) = drop n (unread r) ∧
  reader_ok (mkReader (data_ r) (pos_ r + Z.of_nat n)).
Proof.
  unfold reader_ok, unread, vsize. intros Hr. rewrite length_drop. simpl. intros Hn.
  rewrite drop_drop. split; [f_equal; lia|lia].
Qed.

Section fixed_width.
Variables (wrap : Z → Z) (n : nat).
Definition in_width (v : Z) : Prop := 0 ≤ v < 256 ^ Z.of_nat n.

Hypothesis wrap_small : ∀ z, in_width z → wrap z = z.

Lemma get_bytes_spec r : reader_ok r → Forall in_u8 (take n (unread r)) →
  (n ≤ length (unread r))%nat →
  get_bytes wrap n r = Some (be_val (take n (unread r)),
    mkReader (data_ r) (pos_ r + Z.of_nat n)).
Proof.
  intros Hr Hb Hn. unfold get_bytes. pose proof (length_unread r Hr).
  rewrite (proj2 (Z.ltb_ge _ _)) by lia. unfold unread in *.
  rewrite (gather_spec wrap n n _ _ 0 wrap_small 0);
    [done|lia|done|unfold reader_ok in Hr; lia|done|done].
Qed.

Lemma get_bytes_none r : reader_ok r →
  get_bytes wrap n r = None ↔ (length (unread r) < n)%nat.
Proof.
  intros Hr. pose proof (length_unread r Hr) as Hl. unfold get_bytes.
  destruct (remaining r <? Z.of_nat n) eqn:E; [split; [lia|done]|].
  split; [|lia]. intros H. exfalso. revert H.
  enough (∃ v, gather wrap n (data_ r) (pos_ r) 0 = Some v) as [v ->] by done.
  assert (∀ m p v, 0 ≤ p → p + Z.of_nat m ≤ vsize (data_ r) →
    ∃ v', gather wrap m (data_ r) p v = Some v') as Hg.
  { induction m as [|m IH]; intros p v Hp Hm; simpl; [eauto|].
    destruct (vget_is_Some (data_ r) p) as [b ->]; [lia|]. simpl. apply IH; lia. }
  apply Hg; unfold reader_ok, remaining in *; lia.
Qed.

Lemma fixed_width_codec : FieldCodec (put_shifts n) (get_bytes wrap n) in_width n.
Proof.
  split.
  - apply put_shifts_app.
  - apply length_put_shifts.
  - apply put_shifts_u8.
  - intros r a rest Hr Ha Hu.
    assert (n ≤ length (unread r))%nat as Hn.
    { rewrite Hu, length_app, length_put_shifts. lia. }
    destruct (unread_advance r n Hr Hn) as [Eu Hr'].
    assert (take n (unread r) = put_shifts n [] a) as Et.
    { rewrite Hu. apply take_app_length'. by rewrite length_put_shifts. }
    rewrite get_bytes_spec, Et, be_val_put, Z.mod_small by (done || by rewrite ?Et; apply put_shifts_u8).
    eexists. split; [done|]. split; [done|]. rewrite Eu, Hu.
    apply drop_app_length'. by rewrite length_put_shifts.
  - intros r a r' Hr Hb Hg. destruct (decide (n ≤ length (unread r))%nat) as [Hn|Hn].
    2: { rewrite (proj2 (get_bytes_none r Hr)) in Hg; [done|lia]. }
    rewrite get_bytes_spec in Hg by (done || by apply Forall_take). injection Hg as <- <-.
    destruct (unread_advance r n Hr Hn) as [Eu Hr']. rewrite Eu.
    assert (length (take n (unread r)) = n) as Hl by (rewrite length_take_le; lia).
    pose proof (be_val_range (take n (unread r)) (Forall_take _ n _ Hb)) as Hv.
    rewrite Hl in Hv. split; [done|]. split; [|done].
    rewrite put_shifts_be_val by (done || by apply Forall_take). by rewrite take_drop.
  - apply get_bytes_none.
Qed.
End fixed_width.

#[export] Instance put_u32_codec : FieldCodec put_u32 get_u32 in_u32 4.
Proof. exact (fixed_width_codec u32 4 u32_small). Qed.

#[export] Instance put_u64_codec : FieldCodec put_u64 get_u64 in_u64 8.
Proof. exact (fixed_width_codec u64 8 u64_small). Qed.

#[export] Instance put_u16_codec : FieldCodec put_u16 get_u16 in_u16 2.
Proof. exact (fixed_width_codec u16 2 u16_small). Qed.

Section transport.
Context {A : Type} (put : list Z → A → list Z) (get : ByteReader → option (A * ByteReader)).
Context (legal : A → Prop) (width : nat) `{!FieldCodec put get legal width}.

(** A codec's functions replaced by equal ones. *)
Lemma codec_ext put' get' :
  (∀ buf a, put' buf a = put buf a) → (∀ r, get' r = get r) →
  FieldCodec put' get' legal width.
Proof.
  intros Ep Eg. split; intros *; rewrite ?Ep, ?Eg.
  - apply put_app.
  - apply length_put.
  - apply put_bytes_ok.
  - apply get_put.
  - apply put_get.
  - apply get_total.
Qed.

(** A codec for values represented by those of another. *)
Lemma codec_map {B} (f : B → A) (g : A → B) (legal' : B → Prop) :
  (∀ b, legal' b → legal (f b) ∧ g (f b) = b) → (∀ a, legal a → legal' (g a) ∧ f (g a) = a) →
  FieldCodec (λ buf b, put buf (f b)) (λ r, '(a, r) ← get r; Some (g a, r)) legal' width.
Proof.
  intros Hf Hg. split.
  - intros. apply put_app.
  - intros. apply length_put.
  - intros. apply put_bytes_ok.
  - intros r b rest Hr [Hl Eb]%Hf Hu.
    destruct (get_put r (f b) rest Hr Hl Hu) as (r' & -> & ? & ?).
    exists r'. simpl. by rewrite Eb.
  - intros r b r' Hr Hb. destruct (get r) as [[a r1]|] eqn:E; [|done].
    intros [= <- <-]. destruct (put_get r a r1 Hr Hb E) as (Hl & Eu & Hr').
    destruct (Hg a Hl) as [? ->]. done.
  - intros r Hr. rewrite <-get_total by done. by destruct (get r) as [[??]|].
Qed.
End transport.

#[export] Instance put_u8_codec : FieldCodec put_u8 get_u8 in_u8 1.
Proof.
  apply (codec_ext _ _ _ _ (FieldCodec0 := fixed_width_codec (λ z, z) 1 (λ _ _, eq_refl))).
  - intros buf v. simpl. by rewrite land_byte.
  - intros r. unfold get_u8, get_bytes. change (Z.of_nat 1) with 1.
    destruct (remaining r <? 1); [done|]. simpl. by destruct (vget _ _).
Qed.

#[export] Instance put_i64_codec : FieldCodec put_i64 get_i64 in_i64 8.
Proof.
  apply (codec_map put_u64 get_u64 in_u64 8 u64 i64).
  - intros z Hz. rewrite i64_u64. split; [apply u64_range|by apply i64_small].
  - intros z Hz. rewrite u64_i64. split; [apply i64_range|by apply u64_small].
Qed.

(** ** Enumerators *)

Lemma side_of_to s : side_of (Side_to_Z s) = Some s.
Proof. by destruct s. Qed.

Lemma order_type_of_to t : order_type_of (OrderType_to_Z t) = Some t.
Proof. by destruct t. Qed.

Lemma time_in_force_of_to t : time_in_force_of (TimeInForce_to_Z t) = Some t.
Proof. by destruct t. Qed.

Lemma reject_reason_of_to r : reject_reason_of (RejectReason.to_Z r) = Some r.
Proof. by destruct r. Qed.

Lemma side_of_inv raw s : side_of raw = Some s → raw = Side_to_Z s.
Proof. unfold side_of. repeat case_bool; intros [=]; subst; simpl; lia. Qed.

Lemma order_type_of_inv raw t : order_type_of raw = Some t → raw = OrderType_to_Z t.
Proof. unfold order_type_of. destruct t, (raw =? 0) eqn:E; [simpl; lia|done]. Qed.

Lemma time_in_force_of_inv raw t : time_in_force_of raw = Some t → raw = TimeInForce_to_Z t.
Proof. unfold time_in_force_of. repeat case_bool; intros [=]; subst; simpl; lia. Qed.

Lemma reject_reason_of_inv raw r : reject_reason_of raw = Some r → raw = RejectReason.to_Z r.
Proof. unfold reject_reason_of. repeat case_match; intros [=]; by subst. Qed.

Lemma side_in_u8 s : in_u8 (Side_to_Z s).
Proof. by destruct s. Qed.

Lemma order_type_in_u8 t : in_u8 (OrderType_to_Z t).
Proof. by destruct t. Qed.

Lemma time_in_force_in_u8 t : in_u8 (TimeInForce_to_Z t).
Proof. by destruct t. Qed.

Lemma reject_reason_in_u8 r : in_u8 (RejectReason.to_Z r).
Proof. by destruct r. Qed.

(** ** Frames as sequences of fields *)

(** Left to right: [put] on a non-empty buffer appends. *)
Ltac append_fields :=
  repeat match goal with
    | |- context [put_u8 ?b ?v] =>
        lazymatch b with [] => fail | _ => rewrite (put_app (put := put_u8) b v) end
    | |- context [put_u16 ?b ?v] =>
        lazymatch b with [] => fail | _ => rewrite (put_app (put := put_u16) b v) end
    | |- context [put_u32 ?b ?v] =>
        lazymatch b with [] => fail | _ => rewrite (put_app (put := put_u32) b v) end
    | |- context [put_u64 ?b ?v] =>
        lazymatch b with [] => fail | _ => rewrite (put_app (put := put_u64) b v) end
    | |- context [put_i64 ?b ?v] =>
        lazymatch b with [] => fail | _ => rewrite (put_app (put := put_i64) b v) end
    end; rewrite <-?app_assoc.

Create HintDb legal.
#[export] Hint Resolve side_in_u8 order_type_in_u8 time_in_force_in_u8 reject_reason_in_u8 : legal.
#[export] Hint Extern 1 (in_u8 _) => (unfold in_u8; lia) : legal.
#[export] Hint Extern 1 (in_u16 _) => (unfold in_u16; lia) : legal.
#[export] Hint Extern 1 (in_u64 _) => (unfold in_u64; lia) : legal.

Lemma read_back {A} put get legal width `{!@FieldCodec A put get legal width} r a rest :
  reader_ok r → unread r = put [] a ++ rest → legal a →
  ∃ r', get r = Some (a, r') ∧ reader_ok r' ∧ unread r' = rest.
Proof. intros. by apply (get_put r). Qed.

Lemma reader_start d : reader_ok (reader d) ∧ unread (reader d) = d.
Proof. split; [|done]. unfold reader_ok. simpl. pose proof (vsize_nonneg d). lia. Qed.

(** What the writers write is bytes. *)
Ltac fields_ok :=
  lazymatch goal with
  | |- Forall in_u8 (_ ++ _) => apply Forall_app_2; fields_ok
  | |- Forall in_u8 [] => apply List.Forall_nil
  | |- Forall in_u8 (put_u8 [] _) => apply (put_bytes_ok (put := put_u8))
  | |- Forall in_u8 (put_u16 [] _) => apply (put_bytes_ok (put := put_u16))
  | |- Forall in_u8 (put_u32 [] _) => apply (put_bytes_ok (put := put_u32))
  | |- Forall in_u8 (put_u64 [] _) => apply (put_bytes_ok (put := put_u64))
  | |- Forall in_u8 (put_i64 [] _) => apply (put_bytes_ok (put := put_i64))
  end.

(** Start reading a list of bytes. *)
Ltac start_reading payload :=
  let Hr := fresh "Hr" in let Hu := fresh "Hu" in
  destruct (reader_start payload) as [Hr Hu]; revert Hr Hu;
  generalize (reader payload); intros ? Hr Hu.

(** A field's bytes are a prefix code. *)
Lemma field_inj {A} put get legal width `{!@FieldCodec A put get legal width} a b l k :
  legal a → legal b → put [] a ++ l = put [] b ++ k → a = b ∧ l = k.
Proof.
  intros Ha Hb E. destruct (reader_start (put [] a ++ l)) as [Hr Hu].
  destruct (get_put _ a l Hr Ha Hu) as (r1 & E1 & _ & Hu1). rewrite E in Hu at 2.
  destruct (get_put _ b k Hr Hb Hu) as (r2 & E2 & _ & Hu2). rewrite E1 in E2.
  injection E2 as <- <-. split; [done|congruence].
Qed.

(** Read back, one after the other, the fields a reader is known to face. *)
Ltac read_field :=
  match goal with
  | Hr : reader_ok ?r, Hu : unread ?r = ?put [] ?a ++ ?rest |- context [?get ?r] =>
      let r' := fresh "r" in let Hr' := fresh "Hr" in let Hu' := fresh "Hu" in
      assert (∃ r', get r = Some (a, r') ∧ reader_ok r' ∧ unread r' = rest)
        as (r' & -> & Hr' & Hu')
        by (refine (read_back put get _ _ r a rest Hr Hu _); solve [eauto with legal]);
      clear Hr Hu; rename Hr' into Hr; rename Hu' into Hu; cbn [mbind option_bind]
  end.

Ltac read_fields := repeat read_field.

(** From a successful run of readers, the bytes it passed. *)
Ltac unread_field :=
  match goal with
  | Hr : reader_ok ?r, Hb : Forall in_u8 (unread ?r), H : mbind _ (?get ?r) = Some _ |- _ =>
      let a := fresh "a" in let r' := fresh "r" in let Hg := fresh "Hg" in
      let Hl := fresh "Hl" in let Hu := fresh "Hu" in let Hr' := fresh "Hr" in
      apply bind_Some in H; destruct H as ([a r'] & Hg & H);
      destruct (put_get r a r' Hr Hb Hg) as (Hl & Hu & Hr'); clear Hg;
      rewrite Hu in Hb; apply Forall_app in Hb; destruct Hb as [_ Hb]
  end.

Ltac unread_fields := repeat unread_field.

Ltac last_reader l :=
  lazymatch l with
  | _ ++ ?l => last_reader l
  | unread ?r => r
  end.

(** The fields passed, as one list, and then where their lengths leave nothing
    unread. *)
Ltac gather_fields :=
  repeat match goal with
    | H : unread _ = ?l |- _ =>
        let m := last_reader l in
        match goal with
        | H' : unread m = _ |- _ => rewrite H' in H; clear H'
        end
    end.

Ltac exhaust_fields :=
  lazymatch goal with
  | Hl : vsize (unread ?b) = _, Hu : unread ?b = ?l |- _ =>
      let r := last_reader l in
      let E := fresh "E" in
      assert (unread r = []) as E by
        (apply length_zero_iff_nil; rewrite Hu in Hl; unfold vsize in Hl;
         rewrite !length_app, !length_put in Hl; simpl in Hl; lia);
      rewrite E in Hu; clear E
  end.

(** The fields passed, put together: what the reader faced is those fields, and
    nothing is left where the lengths agree. *)
Lemma nothing_left (l bs rest : list Z) : l = bs ++ rest → length l = length bs → l = bs.
Proof.
  intros -> H. rewrite length_app in H. destruct rest; [by rewrite app_nil_r|simpl in H; lia].
Qed.

End ByteIo.
