(* ===== verification/FrameFormat.v ===== *)
(** * Framed messages

    The journal, the market-data feed and the order-entry protocol frame their
    messages alike: a fixed-size header that carries the type and the payload's size,
    then the payload. [decode_frame] is the decoder's skeleton; a [HeaderCodec] and a
    [PayloadCodec] make it a bijective code, proved here once. *)

From S2P Require Import Prelude ByteIo.

Module FrameFormat.
Import ByteIo.

Section frames.
Context {H E R : Type} (header_size : nat) (decode_header : list Z → H + E).
Context (size expected_size : H → Z) (bad_size truncated : E) (fail : E → R).
Context (decode_payload : H → ByteReader → R).

Definition decode_frame (data : list Z) : R :=
  match decode_header data with
  | inr e => fail e
  | inl header =>
      if negb (size header =? expected_size header) then fail bad_size
      else if vsize data <? Z.of_nat header_size + size header then fail truncated
      else decode_payload header (reader (take (Z.to_nat (size header)) (drop header_size data)))
  end.

(** A header's bytes are read back, and only they are read as a header. *)
Class HeaderCodec (header_bytes : H → list Z) (header_typed : H → Prop) := {
  header_length h : length (header_bytes h) = header_size;
  header_size_pos h : header_typed h → 0 ≤ size h;
  header_written h rest : header_typed h → decode_header (header_bytes h ++ rest) = inl h;
  header_read data h : Forall in_u8 data → decode_header data = inl h →
    header_typed h ∧ ∃ rest, data = header_bytes h ++ rest;
}.

Context {header_bytes : H → list Z} {header_typed : H → Prop}.
Context {HC : HeaderCodec header_bytes header_typed}.

(** A frame whose header is well-formed and whose size is its type's is decoded by
    its type's payload decoder. *)
Lemma frame_written h payload rest : header_typed h → size h = expected_size h →
  vsize payload = size h →
  decode_frame (header_bytes h ++ payload ++ rest) = decode_payload h (reader payload).
Proof.
  intros Hh Hs Hl. unfold decode_frame. rewrite header_written by done.
  rewrite (proj2 (Z.eqb_eq _ _) Hs). cbn [negb]. unfold vsize in *.
  rewrite !length_app, header_length, (proj2 (Z.ltb_ge _ _)) by lia.
  rewrite drop_app_length' by (by rewrite header_length).
  by rewrite take_app_length' by lia.
Qed.

(** What is not an error is such a frame. *)
Lemma frame_read data : Forall in_u8 data →
  (∃ e, decode_frame data = fail e) ∨
  ∃ h payload rest, header_typed h ∧ size h = expected_size h ∧ vsize payload = size h ∧
    data = header_bytes h ++ payload ++ rest.
Proof.
  intros Hb. unfold decode_frame. destruct (decode_header data) as [h|e] eqn:Eh; [|eauto].
  destruct (header_read _ _ Hb Eh) as (Hh & rest & ->).
  destruct (Z.eqb_spec (size h) (expected_size h)) as [Hp|]; [|eauto].
  cbn [negb]. unfold vsize at 1. rewrite length_app, header_length.
  destruct (Z.ltb_spec (Z.of_nat (header_size + length rest)) (Z.of_nat header_size + size h)); [eauto|].
  right. exists h, (take (Z.to_nat (size h)) rest), (drop (Z.to_nat (size h)) rest).
  pose proof (header_size_pos h Hh). unfold vsize. rewrite length_take_le, take_drop by lia.
  split; [done|]. split; [done|]. split; [lia|done].
Qed.

(** The payload of each message is read back by the decoder its header selects, and
    only it is. *)
Class PayloadCodec {M : Type} (answer : M → R) (typed : M → Prop) (header_of : M → H)
    (payload_of : M → list Z) := {
  answer_no_error m e : answer m ≠ fail e;
  payload_header m : typed m → header_typed (header_of m) ∧ size (header_of m) = expected_size (header_of m);
  payload_length m : vsize (payload_of m) = size (header_of m);
  payload_written m : typed m → decode_payload (header_of m) (reader (payload_of m)) = answer m;
  payload_read h payload m : header_typed h → Forall in_u8 payload → size h = expected_size h →
    vsize payload = size h → decode_payload h (reader payload) = answer m →
    typed m ∧ h = header_of m ∧ payload = payload_of m;
}.

Context {M : Type} {answer : M → R} {typed : M → Prop} {header_of : M → H} {payload_of : M → list Z}.
Context {PC : PayloadCodec answer typed header_of payload_of}.

Definition frame_of (m : M) : list Z := header_bytes (header_of m) ++ payload_of m.

Lemma frame_decodes m rest : typed m → decode_frame (frame_of m ++ rest) = answer m.
Proof.
  intros Hm. destruct (payload_header m Hm). unfold frame_of. rewrite <-app_assoc.
  rewrite frame_written by (done || apply payload_length). by apply payload_written.
Qed.

Lemma frame_encodes data m : Forall in_u8 data → decode_frame data = answer m →
  typed m ∧ ∃ rest, data = frame_of m ++ rest.
Proof.
  intros Hb Hd. destruct (frame_read data Hb) as [[e He]|(h & payload & rest & Hh & Hp & Hl & ->)].
  { rewrite He in Hd. by destruct (answer_no_error m e). }
  rewrite frame_written in Hd by done. apply Forall_app in Hb as [_ [Hb _]%Forall_app].
  destruct (payload_read _ _ _ Hh Hb Hp Hl Hd) as (Hm & -> & ->).
  split; [done|]. exists rest. unfold frame_of. by rewrite <-app_assoc.
Qed.

End frames.

End FrameFormat.
