(* ===== verification/FileFrames.v ===== *)
(** * Files of frames

    The journal and the event file are read alike: a header, then the payload whose
    size it states. A file is its bytes; a reader is the bytes it has still to read.
    Reading is a function of what is left, and every frame shortens it: the length of
    a file bounds the number of its frames. *)

From S2P Require Import Prelude ByteIo FrameFormat.

Module FileFrames.
Import ByteIo FrameFormat.

(** [file_.read(...)]: up to [n] bytes; a short read leaves nothing behind. *)
Definition read (n : nat) (file : list Z) : list Z * list Z := (take n file, drop n file).

Lemma read_app n bytes rest : length bytes = n → read n (bytes ++ rest) = (bytes, rest).
Proof. intros <-. unfold read. by rewrite take_app_length, drop_app_length. Qed.

(** ** The frames of a file *)

Section reader.
Context {F : Type} (next : list Z → option F * list Z).

Class FrameReader :=
  next_shrinks file frame file' : next file = (Some frame, file') → (length file' < length file)%nat.

Fixpoint frames_of (fuel : nat) (file : list Z) : list F :=
  match fuel with
  | O => []
  | S fuel =>
      match next file with
      | (None, _) => []
      | (Some frame, file) => frame :: frames_of fuel file
      end
  end.

Definition frames (file : list Z) : list F := frames_of (length file) file.

Context {FR : FrameReader}.

Lemma frames_of_enough n m file : (length file ≤ n)%nat → (length file ≤ m)%nat →
  frames_of n file = frames_of m file.
Proof.
  revert m file. induction n as [|n IH]; intros [|m] file Hn Hm; simpl; try done.
  - destruct (next file) as [[f|] file'] eqn:E; [|done]. apply next_shrinks in E. lia.
  - destruct (next file) as [[f|] file'] eqn:E; [|done]. apply next_shrinks in E. lia.
  - destruct (next file) as [[f|] file'] eqn:E; [|done]. apply next_shrinks in E.
    f_equal. apply IH; lia.
Qed.

Lemma frames_next file frame file' : next file = (Some frame, file') →
  frames file = frame :: frames file'.
Proof.
  intros Hn. pose proof (next_shrinks _ _ _ Hn). unfold frames at 1.
  destruct (length file) as [|n] eqn:El; [lia|]. simpl. rewrite Hn. f_equal.
  apply frames_of_enough; lia.
Qed.

Lemma frames_end file file' : next file = (None, file') → frames file = [].
Proof. intros Hn. unfold frames. destruct (length file); [done|]. simpl. by rewrite Hn. Qed.

(** What is written so that [next] reads it back is the frames. *)
Lemma frames_written {A} (bytes : A → list Z) (frame : A → F) (typed : A → Prop)
    (Hnext : ∀ x rest, typed x → next (bytes x ++ rest) = (Some (frame x), rest)) xs :
  Forall typed xs → ∀ file, frames (concat (map bytes xs) ++ file) = map frame xs ++ frames file.
Proof.
  induction 1 as [|x xs Hx _ IH]; intros file; [done|]. cbn [map concat]. rewrite <-app_assoc.
  rewrite (frames_next _ _ _ (Hnext x _ Hx)). cbn [app]. by rewrite IH.
Qed.
End reader.

(** ** Reading one frame *)

Section frame.
Context {H E F : Type} (header_size : nat) (decode_header : list Z → H + E) (size : H → Z).
Context (truncated_header truncated_payload : E) (fail : E → F) (decode : list Z → F).

Definition read_frame (file : list Z) : option F * list Z :=
  let '(header_buf, file) := read header_size file in
  if vsize header_buf =? 0 then (None, file)
  else if vsize header_buf <? Z.of_nat header_size then (Some (fail truncated_header), file)
  else match decode_header header_buf with
       | inr e => (Some (fail e), file)
       | inl header =>
           let '(payload, file) := read (Z.to_nat (size header)) file in
           if vsize payload <? size header then (Some (fail truncated_payload), file)
           else (Some (decode (header_buf ++ payload)), file)
       end.

Lemma read_frame_shrinks : (0 < header_size)%nat → FrameReader read_frame.
Proof.
  intros Hs file frame file'. unfold read_frame, read. case_bool; [done|]. apply Z.eqb_neq in E0.
  assert (0 < length file)%nat as Hf.
  { destruct file; [by rewrite take_nil in E0|simpl; lia]. }
  assert (∀ n, length (drop n (drop header_size file)) < length file)%nat as Hd.
  { intros n. rewrite !length_drop. lia. }
  case_bool; [intros [= <- <-]; rewrite <-(drop_0 (drop _ _)); apply Hd|].
  destruct (decode_header _); [|intros [= <- <-]; rewrite <-(drop_0 (drop _ _)); apply Hd].
  case_bool; intros [= <- <-]; apply Hd.
Qed.

Context {header_bytes : H → list Z} {header_typed : H → Prop}.
Context {HC : HeaderCodec header_size decode_header size header_bytes header_typed}.

Lemma read_frame_written header payload rest : (0 < header_size)%nat → header_typed header →
  vsize payload = size header →
  read_frame (header_bytes header ++ payload ++ rest) =
    (Some (decode (header_bytes header ++ payload)), rest).
Proof.
  intros H0 Hh Hp. unfold read_frame. pose proof (header_length _ _ _ header) as Hl.
  rewrite read_app by done. unfold vsize at 1 2. rewrite Hl.
  rewrite (proj2 (Z.eqb_neq _ _)), Z.ltb_irrefl by lia.
  rewrite <-(app_nil_r (header_bytes header)) at 1. rewrite (header_written _ _ _ _ _ Hh).
  rewrite read_app by (unfold vsize in Hp; lia). by rewrite Hp, Z.ltb_irrefl.
Qed.
End frame.

End FileFrames.
