(* ===== verification/CommandCodec.v ===== *)
(** * The command journal's frames ([exchange/persistence])

    [command_encoder.cpp], [command_decoder.cpp] and [command_messages.hpp]:
    a 12-byte header and a fixed payload per message type. *)

From S2P Require Import Prelude Types ByteIo FrameFormat.

Module CommandCodec.
Import ByteIo FrameFormat.

Definition HEADER_SIZE : nat := 12.

Inductive CommandMessageType := NewOrder | CancelOrder | ReplaceOrder | RegisterInstrument.

Definition type_to_Z (t : CommandMessageType) : Z :=
  match t with NewOrder => 1 | CancelOrder => 2 | ReplaceOrder => 3 | RegisterInstrument => 4 end.

Definition type_of (raw : Z) : option CommandMessageType :=
  if raw =? 1 then Some NewOrder else if raw =? 2 then Some CancelOrder
  else if raw =? 3 then Some ReplaceOrder else if raw =? 4 then Some RegisterInstrument
  else None.

Record CommandHeader := mkHeader {
  ch_type : CommandMessageType;
  ch_payload_size : Z;
  ch_command_sequence : CommandSequence;
}.

Definition payload_size_for (t : CommandMessageType) : Z :=
  match t with
  | NewOrder => 8 + 8 + 4 + 1 + 8 + 8 + 1 + 1
  | CancelOrder => 8 + 8 + 4
  | ReplaceOrder => 8 + 8 + 8 + 4 + 8 + 8
  | RegisterInstrument => 4
  end.

Inductive CommandDecodeError :=
  | TruncatedHeader | TruncatedPayload | InvalidReserved | InvalidMessageType
  | InvalidMessageSize | InvalidSide | InvalidOrderType | InvalidTimeInForce.

(** [std::variant<ExchangeCommand, RegisterInstrumentRecord, CommandDecodeError>] *)
Inductive DecodedFrame :=
  | FrameCommand (c : ExchangeCommand)
  | FrameRegister (instrument_id : InstrumentId)
  | FrameError (e : CommandDecodeError).

(** ** Encoder *)

Definition put_header (out : list Z) (t : CommandMessageType) (command_sequence : CommandSequence)
    (payload_size : Z) : list Z :=
  let out := put_u8 out (type_to_Z t) in
  let out := put_u8 out 0 in
  let out := put_u16 out payload_size in
  put_u64 out command_sequence.

Definition encode_command (command : ExchangeCommand) (out : list Z) : list Z :=
  match command with
  | CmdNew cmd =>
      let out := put_header out NewOrder (no_command_sequence cmd)
                   (u16 (payload_size_for NewOrder)) in
      let out := put_u64 out (no_account_id cmd) in
      let out := put_u64 out (no_client_order_id cmd) in
      let out := put_u32 out (no_instrument_id cmd) in
      let out := put_side out (no_side cmd) in
      let out := put_i64 out (no_price cmd) in
      let out := put_u64 out (no_quantity cmd) in
      let out := put_order_type out (no_order_type cmd) in
      put_time_in_force out (no_time_in_force cmd)
  | CmdCancel cmd =>
      let out := put_header out CancelOrder (co_command_sequence cmd)
                   (u16 (payload_size_for CancelOrder)) in
      let out := put_u64 out (co_account_id cmd) in
      let out := put_u64 out (co_client_order_id cmd) in
      put_u32 out (co_instrument_id cmd)
  | CmdReplace cmd =>
      let out := put_header out ReplaceOrder (ro_command_sequence cmd)
                   (u16 (payload_size_for ReplaceOrder)) in
      let out := put_u64 out (ro_account_id cmd) in
      let out := put_u64 out (ro_original_client_order_id cmd) in
      let out := put_u64 out (ro_new_client_order_id cmd) in
      let out := put_u32 out (ro_instrument_id cmd) in
      let out := put_i64 out (ro_new_price cmd) in
      put_u64 out (ro_new_quantity cmd)
  end.

Definition encode_register_instrument (instrument_id : InstrumentId) (out : list Z) : list Z :=
  let out := put_header out RegisterInstrument 0 (u16 (payload_size_for RegisterInstrument)) in
  put_u32 out instrument_id.

(** ** Decoder

    The readers' results are tested together after the last one
    ([if (!account_id || ...) return TruncatedPayload]); a reader that fails
    does not move, so the first failure decides the outcome. *)

Definition decode_command_header (data : list Z) : CommandHeader + CommandDecodeError :=
  if vsize data <? Z.of_nat HEADER_SIZE then inr TruncatedHeader
  else
    match
      (let r := reader (take HEADER_SIZE data) in
       '(type_raw, r) ← get_u8 r; '(reserved, r) ← get_u8 r;
       '(payload_size, r) ← get_u16 r; '(command_sequence, r) ← get_u64 r;
       Some (type_raw, reserved, payload_size, command_sequence))
    with
    | None => inr TruncatedHeader
    | Some (type_raw, reserved, payload_size, command_sequence) =>
        if negb (reserved =? 0) then inr InvalidReserved
        else match type_of type_raw with
             | None => inr InvalidMessageType
             | Some t => inl (mkHeader t payload_size command_sequence)
             end
    end.

Definition decode_new_order (seq : CommandSequence) (r : ByteReader) : DecodedFrame :=
  match
    ('(account_id, r) ← get_u64 r; '(client_order_id, r) ← get_u64 r;
     '(instrument_id, r) ← get_u32 r; '(side_raw, r) ← get_u8 r;
     '(price, r) ← get_i64 r; '(quantity, r) ← get_u64 r;
     '(order_type_raw, r) ← get_u8 r; '(tif_raw, r) ← get_u8 r;
     Some (account_id, client_order_id, instrument_id, side_raw, price, quantity,
           order_type_raw, tif_raw))
  with
  | None => FrameError TruncatedPayload
  | Some (account_id, client_order_id, instrument_id, side_raw, price, quantity,
          order_type_raw, tif_raw) =>
      match side_of side_raw with
      | None => FrameError InvalidSide
      | Some side =>
          match order_type_of order_type_raw with
          | None => FrameError InvalidOrderType
          | Some order_type =>
              match time_in_force_of tif_raw with
              | None => FrameError InvalidTimeInForce
              | Some tif =>
                  FrameCommand (CmdNew (mkNewOrder seq account_id client_order_id instrument_id
                    side price quantity order_type tif))
              end
          end
      end
  end.

Definition decode_cancel_order (seq : CommandSequence) (r : ByteReader) : DecodedFrame :=
  match
    ('(account_id, r) ← get_u64 r; '(client_order_id, r) ← get_u64 r;
     '(instrument_id, r) ← get_u32 r; Some (account_id, client_order_id, instrument_id))
  with
  | None => FrameError TruncatedPayload
  | Some (account_id, client_order_id, instrument_id) =>
      FrameCommand (CmdCancel (mkCancelOrder seq account_id client_order_id instrument_id))
  end.

Definition decode_replace_order (seq : CommandSequence) (r : ByteReader) : DecodedFrame :=
  match
    ('(account_id, r) ← get_u64 r; '(original_client_order_id, r) ← get_u64 r;
     '(new_client_order_id, r) ← get_u64 r; '(instrument_id, r) ← get_u32 r;
     '(new_price, r) ← get_i64 r; '(new_quantity, r) ← get_u64 r;
     Some (account_id, original_client_order_id, new_client_order_id, instrument_id,
           new_price, new_quantity))
  with
  | None => FrameError TruncatedPayload
  | Some (account_id, original_client_order_id, new_client_order_id, instrument_id,
          new_price, new_quantity) =>
      FrameCommand (CmdReplace (mkReplaceOrder seq account_id original_client_order_id
        new_client_order_id instrument_id new_price new_quantity))
  end.

Definition decode_register_instrument (r : ByteReader) : DecodedFrame :=
  match get_u32 r with
  | None => FrameError TruncatedPayload
  | Some (instrument_id, _) => FrameRegister instrument_id
  end.

(** [switch (header.type)] *)
Definition decode_payload (header : CommandHeader) (r : ByteReader) : DecodedFrame :=
  match ch_type header with
  | NewOrder => decode_new_order (ch_command_sequence header) r
  | CancelOrder => decode_cancel_order (ch_command_sequence header) r
  | ReplaceOrder => decode_replace_order (ch_command_sequence header) r
  | RegisterInstrument => decode_register_instrument r
  end.

Definition decode_journal_frame (data : list Z) : DecodedFrame :=
  match decode_command_header data with
  | inr e => FrameError e
  | inl header =>
      if negb (ch_payload_size header =? payload_size_for (ch_type header))
      then FrameError InvalidMessageSize
      else if vsize data <? Z.of_nat HEADER_SIZE + ch_payload_size header
      then FrameError TruncatedPayload
      else decode_payload header
             (reader (take (Z.to_nat (ch_payload_size header)) (drop HEADER_SIZE data)))
  end.

(** ** Lemmas *)

Definition header_typed (h : CommandHeader) : Prop :=
  in_u16 (ch_payload_size h) ∧ in_u64 (ch_command_sequence h).

Definition header_bytes (h : CommandHeader) : list Z :=
  put_header [] (ch_type h) (ch_command_sequence h) (ch_payload_size h).

Lemma command_type_of_to t : type_of (type_to_Z t) = Some t.
Proof. by destruct t. Qed.

Lemma command_type_of_inv raw t : type_of raw = Some t → raw = type_to_Z t.
Proof. unfold type_of. repeat case_bool; intros [=]; subst; simpl; lia. Qed.

Lemma command_type_in_u8 t : in_u8 (type_to_Z t).
Proof. by destruct t. Qed.

#[local] Hint Resolve command_type_in_u8 : legal.

Lemma command_put_header_app out t seq size :
  put_header out t seq size = out ++ put_header [] t seq size.
Proof. unfold put_header. append_fields. done. Qed.

Lemma command_length_header h : length (header_bytes h) = HEADER_SIZE.
Proof.
  unfold header_bytes, put_header. append_fields. by rewrite !length_app, !length_put.
Qed.

Lemma command_payload_size_small t : u16 (payload_size_for t) = payload_size_for t.
Proof. by destruct t. Qed.

Lemma command_decode_header_bytes h rest : header_typed h →
  decode_command_header (header_bytes h ++ rest) = inl h.
Proof.
  intros [Hp Hs]. unfold decode_command_header, vsize.
  rewrite length_app, command_length_header, (proj2 (Z.ltb_ge _ _)) by lia.
  rewrite take_app_length' by (by rewrite command_length_header).
  destruct (reader_start (header_bytes h)) as [Hr Hu].
  revert Hr Hu. generalize (reader (header_bytes h)) as r. intros r Hr Hu.
  unfold header_bytes, put_header in Hu. revert Hu. append_fields. intros Hu.
  rewrite <-(app_nil_r (put_u64 [] _)) in Hu. read_fields. simpl.
  rewrite command_type_of_to. by destruct h.
Qed.

Lemma command_decode_header_inv data h : Forall in_u8 data → decode_command_header data = inl h →
  header_typed h ∧ ∃ rest, data = header_bytes h ++ rest.
Proof.
  intros Hb. unfold decode_command_header. case_bool; [done|]. rename E into Hlen.
  destruct (reader_start (take HEADER_SIZE data)) as [Hr Hu]. revert Hr Hu.
  apply (Forall_take _ HEADER_SIZE) in Hb as Hb'. revert Hb'.
  assert (length (take HEADER_SIZE data) = HEADER_SIZE) as Hl.
  { rewrite length_take_le; [done|]. unfold vsize in *. lia. }
  generalize (reader (take HEADER_SIZE data)) as r. intros r Hb' Hr Hu. cbv zeta.
  destruct (mbind _ (get_u8 r)) as [[[[t res] size] seq]|] eqn:E; [|done].
  rewrite <-Hu in Hb'. unread_fields. injection E as <- <- <- <-.
  case_bool; [done|]. destruct (type_of a) as [ty|] eqn:Et; [|done]. intros [= <-].
  split; [done|]. exists (drop HEADER_SIZE data). apply command_type_of_inv in Et. subst.
  rewrite <-(take_drop HEADER_SIZE data) at 1. f_equal.
  apply (nothing_left _ _ (unread r3)); [|by rewrite Hl, command_length_header].
  unfold header_bytes, put_header. append_fields. simpl ch_type. simpl ch_payload_size.
  simpl ch_command_sequence. rewrite <-Hu, Hu0, Hu1, Hu2, Hu3.
  replace a0 with 0 by lia. done.
Qed.

Lemma decode_journal_frame_frame data : decode_journal_frame data =
  decode_frame HEADER_SIZE decode_command_header ch_payload_size (λ h, payload_size_for (ch_type h))
    InvalidMessageSize TruncatedPayload FrameError decode_payload data.
Proof. done. Qed.

#[export] Instance command_header_codec :
  HeaderCodec HEADER_SIZE decode_command_header ch_payload_size header_bytes header_typed.
Proof.
  split; [exact command_length_header|by intros h [[??] _]|intros; by apply command_decode_header_bytes|].
  apply command_decode_header_inv.
Qed.

(** ** The payloads *)

Definition new_order_bytes (c : NewOrderCommand) : list Z :=
  put_u64 [] (no_account_id c) ++ put_u64 [] (no_client_order_id c) ++
  put_u32 [] (no_instrument_id c) ++ put_u8 [] (Side_to_Z (no_side c)) ++
  put_i64 [] (no_price c) ++ put_u64 [] (no_quantity c) ++
  put_u8 [] (OrderType_to_Z (no_order_type c)) ++
  put_u8 [] (TimeInForce_to_Z (no_time_in_force c)) ++ [].

Definition cancel_order_bytes (c : CancelOrderCommand) : list Z :=
  put_u64 [] (co_account_id c) ++ put_u64 [] (co_client_order_id c) ++
  put_u32 [] (co_instrument_id c) ++ [].

Definition replace_order_bytes (c : ReplaceOrderCommand) : list Z :=
  put_u64 [] (ro_account_id c) ++ put_u64 [] (ro_original_client_order_id c) ++
  put_u64 [] (ro_new_client_order_id c) ++ put_u32 [] (ro_instrument_id c) ++
  put_i64 [] (ro_new_price c) ++ put_u64 [] (ro_new_quantity c) ++ [].

Definition command_header (c : ExchangeCommand) : CommandHeader :=
  match c with
  | CmdNew c => mkHeader NewOrder (payload_size_for NewOrder) (no_command_sequence c)
  | CmdCancel c => mkHeader CancelOrder (payload_size_for CancelOrder) (co_command_sequence c)
  | CmdReplace c => mkHeader ReplaceOrder (payload_size_for ReplaceOrder) (ro_command_sequence c)
  end.

Definition command_bytes (c : ExchangeCommand) : list Z :=
  match c with
  | CmdNew c => new_order_bytes c
  | CmdCancel c => cancel_order_bytes c
  | CmdReplace c => replace_order_bytes c
  end.

Lemma encode_command_bytes c out :
  encode_command c out = out ++ header_bytes (command_header c) ++ command_bytes c.
Proof.
  destruct c; cbn -[payload_size_for app put_u8 put_u16 put_u32 put_u64 put_i64 put_header];
    unfold put_side, put_order_type, put_time_in_force, new_order_bytes,
      cancel_order_bytes, replace_order_bytes; append_fields;
    rewrite command_put_header_app, command_payload_size_small, <-!app_assoc, ?app_nil_r; done.
Qed.

Lemma command_length_payload c :
  vsize (command_bytes c) = ch_payload_size (command_header c).
Proof.
  unfold vsize. destruct c; cbn [command_bytes];
    unfold new_order_bytes, cancel_order_bytes, replace_order_bytes;
    by rewrite !length_app, !length_put.
Qed.

Lemma command_decode_payload_bytes c : command_typed c →
  decode_payload (command_header c) (reader (command_bytes c)) = FrameCommand c.
Proof.
  start_reading (command_bytes c).
  destruct c as [c|c|c]; cbn [command_bytes] in Hu; intros Hc; hnf in Hc; unpack.
  - unfold new_order_bytes in Hu. cbn -[get_u8 get_u32 get_u64 get_i64].
    unfold decode_new_order. read_fields.
    rewrite side_of_to, order_type_of_to, time_in_force_of_to. by destruct c.
  - unfold cancel_order_bytes in Hu. cbn -[get_u8 get_u32 get_u64 get_i64].
    unfold decode_cancel_order. read_fields. by destruct c.
  - unfold replace_order_bytes in Hu. cbn -[get_u8 get_u32 get_u64 get_i64].
    unfold decode_replace_order. read_fields. by destruct c.
Qed.

Lemma command_decode_payload_inv h payload c : header_typed h → Forall in_u8 payload →
  ch_payload_size h = payload_size_for (ch_type h) → vsize payload = ch_payload_size h →
  decode_payload h (reader payload) = FrameCommand c →
  command_typed c ∧ h = command_header c ∧ payload = command_bytes c.
Proof.
  intros [_ Hs] Hb Hp Hl. assert (vsize payload = payload_size_for (ch_type h)) as Hl' by lia.
  rewrite <-(proj2 (reader_start payload)) in Hb. revert Hb. start_reading payload. intros Hb.
  destruct h as [ty size seq]. simpl in *. unfold decode_payload. simpl.
  destruct ty.
  - unfold decode_new_order. destruct (mbind _ (get_u64 _)) as [x|] eqn:E; [|done].
    unread_fields. injection E as <-.
    destruct (side_of _) as [sd|] eqn:E1; [|done]. destruct (order_type_of _) as [ot|] eqn:E2; [|done].
    destruct (time_in_force_of _) as [tf|] eqn:E3; [|done]. intros [= <-].
    apply side_of_inv in E1. apply order_type_of_inv in E2. apply time_in_force_of_inv in E3. subst.
    split; [done|]. split; [done|]. gather_fields. by exhaust_fields.
  - unfold decode_cancel_order. destruct (mbind _ (get_u64 _)) as [x|] eqn:E; [|done].
    unread_fields. injection E as <-. intros [= <-]. subst.
    split; [done|]. split; [done|]. gather_fields. by exhaust_fields.
  - unfold decode_replace_order. destruct (mbind _ (get_u64 _)) as [x|] eqn:E; [|done].
    unread_fields. injection E as <-. intros [= <-]. subst.
    split; [done|]. split; [done|]. gather_fields. by exhaust_fields.
  - unfold decode_register_instrument. by destruct (get_u32 _) as [[??]|].
Qed.

Lemma command_header_ok c : command_typed c → header_typed (command_header c) ∧
  ch_payload_size (command_header c) = payload_size_for (ch_type (command_header c)).
Proof.
  destruct c; intros Hc; hnf in Hc; unpack;
    (split; [split; [by split|done]|done]).
Qed.

#[export] Instance command_payload_codec :
  PayloadCodec ch_payload_size (λ h, payload_size_for (ch_type h)) FrameError decode_payload
    (header_typed := header_typed) FrameCommand command_typed command_header command_bytes.
Proof.
  split; [done|apply command_header_ok|apply command_length_payload
         |apply command_decode_payload_bytes|].
  apply command_decode_payload_inv.
Qed.

Lemma encode_command_frame c : encode_command c [] = frame_of (header_bytes := header_bytes)
  (header_of := command_header) (payload_of := command_bytes) c.
Proof. apply encode_command_bytes. Qed.

Lemma command_encode_decode c rest : command_typed c →
  decode_journal_frame (encode_command c [] ++ rest) = FrameCommand c.
Proof.
  intros Hc. rewrite encode_command_frame, decode_journal_frame_frame.
  by apply (frame_decodes _ _ _ _ _ _ _ _ (PC := command_payload_codec)).
Qed.

Lemma command_decode_encode data c : Forall in_u8 data → decode_journal_frame data = FrameCommand c →
  command_typed c ∧ ∃ rest, data = encode_command c [] ++ rest.
Proof. rewrite encode_command_frame, decode_journal_frame_frame. apply (frame_encodes _ _ _ _ _ _ _ _ (PC := command_payload_codec)). Qed.

Definition register_header : CommandHeader :=
  mkHeader RegisterInstrument (payload_size_for RegisterInstrument) 0.

Lemma encode_register_bytes id out :
  encode_register_instrument id out = out ++ header_bytes register_header ++ put_u32 [] id.
Proof.
  unfold encode_register_instrument. append_fields.
  by rewrite command_put_header_app, command_payload_size_small, <-!app_assoc.
Qed.

Lemma encode_decode_register id rest : in_u32 id →
  decode_journal_frame (encode_register_instrument id [] ++ rest) = FrameRegister id.
Proof.
  intros Hi. rewrite encode_register_bytes, app_nil_l, <-app_assoc, decode_journal_frame_frame.
  rewrite (frame_written _ _ _ _ _ _ _ _ (HC := command_header_codec)) by done.
  unfold decode_payload. simpl ch_type. cbv iota. unfold decode_register_instrument.
  start_reading (put_u32 [] id). rewrite <-(app_nil_r (put_u32 [] id)) in Hu. read_fields. done.
Qed.

End CommandCodec.
