(* ===== verification/Journal.v ===== *)
(** * The command journal and its replay ([exchange/persistence])

    [command_journal_writer.cpp], [command_journal_reader.cpp] and
    [command_replay.cpp]. A file is its bytes; a reader is the bytes it has still
    to read. Replay rebuilds an engine from a journal alone. *)

From S2P Require Import Prelude.
From S2P Require Import Types.
From S2P Require Import Effects.
From S2P Require Import MatchingBook.
From S2P Require Import BookSpec.
From S2P Require Import MatchingEngine.
From S2P Require Import ByteIo.
From S2P Require Import FrameFormat FileFrames.
From S2P Require Import CommandCodec.

Module Journal.
Import ByteIo FileFrames CommandCodec.

(** ** Writer *)

(** The constructor: one frame per instrument, before any command. *)
Definition writer_open (instruments : list InstrumentId) : list Z :=
  [] ++ foldl (λ buffer id, encode_register_instrument id buffer) [] instruments.

Definition write (file : list Z) (command : ExchangeCommand) : list Z :=
  file ++ encode_command command [].

(** What a session leaves on disk. *)
Definition journal (instruments : list InstrumentId) (commands : list ExchangeCommand) : list Z :=
  foldl write (writer_open instruments) commands.

(** ** Reader *)

Definition next (file : list Z) : option DecodedFrame * list Z :=
  let '(header_buf, file) := read HEADER_SIZE file in
  if vsize header_buf =? 0 then (None, file)
  else if vsize header_buf <? Z.of_nat HEADER_SIZE then (Some (FrameError TruncatedHeader), file)
  else match decode_command_header header_buf with
       | inr e => (Some (FrameError e), file)
       | inl header =>
           let '(payload, file) := read (Z.to_nat (ch_payload_size header)) file in
           if vsize payload <? ch_payload_size header
           then (Some (FrameError TruncatedPayload), file)
           else (Some (decode_journal_frame (header_buf ++ payload)), file)
       end.

(** ** Replay *)

(** [stop_reason] is a message; this is what it is made from. *)
Inductive StopReason := NoReason | CouldNotOpen | DecodeErrorReason (e : CommandDecodeError).

Section replay.
Context {B : Type} `{BookOps B}.

Record CommandReplayOutcome := mkOutcome {
  engine : MatchingEngine.t B;
  events : list ExchangeEvent;
  commands_processed : Z;
  instruments_registered : Z;
  stopped_early : bool;
  stop_reason : StopReason;
}.

Definition on_error (stop : bool) (e : CommandDecodeError) (o : CommandReplayOutcome) :
    CommandReplayOutcome :=
  mkOutcome (engine o) (events o) (commands_processed o) (instruments_registered o)
    (if stop then true else stopped_early o) (DecodeErrorReason e).

Definition on_register (r : bool) (e : MatchingEngine.t B) (o : CommandReplayOutcome) :
    CommandReplayOutcome :=
  mkOutcome e (events o) (commands_processed o)
    (if r then u64 (instruments_registered o + 1) else instruments_registered o)
    (stopped_early o) (stop_reason o).

Definition on_command (e : MatchingEngine.t B) (evs : list ExchangeEvent)
    (o : CommandReplayOutcome) : CommandReplayOutcome :=
  mkOutcome e (events o ++ evs) (u64 (commands_processed o + 1)) (instruments_registered o)
    (stopped_early o) (stop_reason o).

(** [while (true)]; [None]: out of fuel, or the engine fails. *)
Fixpoint replay_loop (fuel : nat) (stop_on_decode_error : bool) (file : list Z)
    (o : CommandReplayOutcome) : option CommandReplayOutcome :=
  match fuel with
  | O => None
  | S fuel =>
      match next file with
      | (None, _) => Some o
      | (Some (FrameError e), file) =>
          if stop_on_decode_error then Some (on_error true e o)
          else replay_loop fuel stop_on_decode_error file (on_error false e o)
      | (Some (FrameRegister id), file) =>
          '(r, e) ← MatchingEngine.register_instrument id (engine o);
          replay_loop fuel stop_on_decode_error file (on_register r e o)
      | (Some (FrameCommand c), file) =>
          '(_, e, evs) ← MatchingEngine.process c (engine o);
          replay_loop fuel stop_on_decode_error file (on_command e evs o)
      end
  end.

(** [None] for the path: the file could not be opened. *)
Definition run_command_replay (journal : option (list Z)) (stop_on_decode_error : bool) :
    option CommandReplayOutcome :=
  e ← MatchingEngine.make [] MatchingEngine.kDefaultExpectedRestingOrders;
  match journal with
  | None => Some (mkOutcome e [] 0 0 true CouldNotOpen)
  | Some file =>
      replay_loop (S (length file)) stop_on_decode_error file (mkOutcome e [] 0 0 false NoReason)
  end.

(** ** The frames of a file

    The reading loop, apart from what is done with each frame. *)

Definition frame_step (frame : DecodedFrame) (o : CommandReplayOutcome) :
    option CommandReplayOutcome :=
  match frame with
  | FrameError e => Some (on_error false e o)
  | FrameRegister id =>
      '(r, e) ← MatchingEngine.register_instrument id (engine o); Some (on_register r e o)
  | FrameCommand c =>
      '(_, e, evs) ← MatchingEngine.process c (engine o); Some (on_command e evs o)
  end.

Fixpoint replay_frames (stop : bool) (frames : list DecodedFrame) (o : CommandReplayOutcome) :
    option CommandReplayOutcome :=
  match frames with
  | [] => Some o
  | FrameError e :: frames =>
      if stop then Some (on_error true e o) else replay_frames stop frames (on_error false e o)
  | frame :: frames => o ← frame_step frame o; replay_frames stop frames o
  end.
End replay.

#[global] Arguments CommandReplayOutcome B : clear implicits.

Abbreviation frames := (FileFrames.frames next).

Lemma next_read_frame file : next file =
  read_frame HEADER_SIZE decode_command_header ch_payload_size TruncatedHeader TruncatedPayload
    FrameError decode_journal_frame file.
Proof. done. Qed.

#[export] Instance journal_reader : FrameReader next.
Proof. apply read_frame_shrinks. unfold HEADER_SIZE. lia. Qed.

(** The loop terminates, having gone through the frames of the file. *)
Lemma replay_loop_frames `{BookOps B} fuel stop : ∀ file (o : CommandReplayOutcome B),
  (length file < fuel)%nat → replay_loop fuel stop file o = replay_frames stop (frames file) o.
Proof.
  induction fuel as [|fuel IH]; intros file o Hf; [lia|]. simpl.
  destruct (next file) as [[frame|] file'] eqn:E.
  - pose proof (next_shrinks _ _ _ _ E). rewrite (frames_next _ _ _ _ E).
    destruct frame; simpl.
    + destruct (MatchingEngine.process _ _) as [[[? ?] ?]|]; simpl; [apply IH; lia|done].
    + destruct (MatchingEngine.register_instrument _ _) as [[? ?]|]; simpl; [apply IH; lia|done].
    + destruct stop; [done|]. apply IH. lia.
  - by rewrite (frames_end _ _ _ E).
Qed.

(** ** What the writer wrote, the reader reads *)

Lemma next_command c rest : command_typed c →
  next (encode_command c [] ++ rest) = (Some (FrameCommand c), rest).
Proof.
  intros Hc. destruct (command_header_ok c Hc). rewrite encode_command_bytes, app_nil_l, <-app_assoc.
  rewrite next_read_frame, (read_frame_written _ _ _ _ _ _ _ (HC := command_header_codec)) by (done || apply command_length_payload || (unfold HEADER_SIZE; lia)).
  do 2 f_equal.
  pose proof (command_encode_decode c [] Hc) as E.
  by rewrite encode_command_bytes, app_nil_l, app_nil_r in E.
Qed.

Lemma next_register id rest : in_u32 id →
  next (encode_register_instrument id [] ++ rest) = (Some (FrameRegister id), rest).
Proof.
  intros Hi. rewrite encode_register_bytes, app_nil_l, <-app_assoc.
  rewrite next_read_frame, (read_frame_written _ _ _ _ _ _ _ (HC := command_header_codec)) by (done || (unfold HEADER_SIZE; lia)). do 2 f_equal.
  pose proof (encode_decode_register id [] Hi) as E.
  by rewrite encode_register_bytes, app_nil_l, app_nil_r in E.
Qed.

Lemma journal_bytes ids cs : journal ids cs =
  concat (map (λ id, encode_register_instrument id []) ids) ++
  concat (map (λ c, encode_command c []) cs) ++ [].
Proof.
  rewrite app_nil_r. unfold journal, writer_open. rewrite app_nil_l.
  assert (∀ file, foldl (λ buffer id, encode_register_instrument id buffer) file ids =
    file ++ concat (map (λ id, encode_register_instrument id []) ids)) as ->.
  { induction ids as [|id ids IH]; intros file; cbn [foldl map concat]; [by rewrite app_nil_r|].
    rewrite IH, (encode_register_bytes id file), (encode_register_bytes id []).
    by rewrite app_nil_l, <-!app_assoc. }
  rewrite app_nil_l. generalize (concat (map (λ id, encode_register_instrument id []) ids)).
  induction cs as [|c cs IH]; intros file; cbn [foldl map concat]; [by rewrite app_nil_r|].
  rewrite IH. unfold write. by rewrite <-!app_assoc.
Qed.

Lemma journal_frames ids cs : Forall in_u32 ids → Forall command_typed cs →
  frames (journal ids cs) = map FrameRegister ids ++ map FrameCommand cs.
Proof.
  intros Hi Hc. rewrite journal_bytes.
  rewrite (frames_written next _ FrameRegister in_u32 next_register ids Hi).
  rewrite (frames_written next _ FrameCommand command_typed next_command cs Hc). by rewrite app_nil_r.
Qed.

(** ** Replaying a journal *)

Section replaying.
Context {B : Type} `{BookOps B}.
Implicit Types o : CommandReplayOutcome B.

Lemma run_command_replay_frames file stop e :
  MatchingEngine.make [] MatchingEngine.kDefaultExpectedRestingOrders = Some e →
  run_command_replay (Some file) stop =
    replay_frames stop (frames file) (mkOutcome e [] 0 0 false NoReason).
Proof. unfold run_command_replay. intros ->. cbn [mbind option_bind]. apply replay_loop_frames. lia. Qed.

Lemma replay_frames_step stop frame frs o : (∀ e, frame ≠ FrameError e) →
  replay_frames stop (frame :: frs) o = (o ← frame_step frame o; replay_frames stop frs o).
Proof. destruct frame as [| |e]; [done..|]. intros He. by destruct (He e). Qed.

Lemma replay_registrations ids : ∀ stop frs o e',
  MatchingEngine.register_all ids (engine o) = Some e' →
  ∃ n, replay_frames stop (map FrameRegister ids ++ frs) o =
    replay_frames stop frs (mkOutcome e' (events o) (commands_processed o) n
      (stopped_early o) (stop_reason o)).
Proof.
  assert (∀ us, foldl (λ acc id, e ← acc; '(_, e) ← MatchingEngine.register_instrument id e; Some e)
    (None : option (MatchingEngine.t B)) us = None) as Hnone by (induction us; done).
  unfold MatchingEngine.register_all. induction ids as [|id ids IH]; intros stop frs o e'; simpl.
  { intros [= <-]. exists (instruments_registered o). by destruct o. }
  destruct (MatchingEngine.register_instrument id (engine o)) as [[r e1]|]; simpl; [|by rewrite Hnone].
  intros He. by destruct (IH stop frs (on_register r e1 o) e' He) as [n ->]; exists n.
Qed.

Lemma replay_commands cs : ∀ stop o e' evs, in_u64 (commands_processed o) →
  MatchingEngine.run cs (engine o) = Some (tt, e', evs) →
  replay_frames stop (map FrameCommand cs) o =
    Some (mkOutcome e' (events o ++ evs) (u64 (commands_processed o + vsize cs))
      (instruments_registered o) (stopped_early o) (stop_reason o)).
Proof.
  induction cs as [|c cs IH]; intros stop o e' evs Hn; simpl.
  { intros [= <- <-]. rewrite app_nil_r, Z.add_0_r, u64_small by done. by destruct o. }
  unfold ebind. destruct (MatchingEngine.process c (engine o)) as [[[[] e1] o1]|]; [|done]. simpl.
  destruct (MatchingEngine.run cs e1) as [[[[] e2] o2]|] eqn:E2; [|done]. intros [= <- <-].
  rewrite (IH stop (on_command e1 o1 o) e2 o2 (u64_range _) E2). simpl.
  rewrite <-app_assoc. do 2 f_equal. rewrite u64_add_idemp_l. f_equal.
  unfold vsize. simpl. lia.
Qed.
End replaying.

End Journal.
