(* ===== verification/JournalProps.v ===== *)
(** * Properties of the command journal

    The journal's frames decode to exactly what was encoded; reading any file
    terminates; a journal replays into an engine in the state of the one whose
    commands it holds, with the same events. *)

From S2P Require Import Prelude.
From S2P Require Import Types.
From S2P Require Import Effects.
From S2P Require Import SideIndex.
From S2P Require Import MatchingBook.
From S2P Require Import BookSpec.
From S2P Require Import BookRefinement.
From S2P Require Import MatchingEngine.
From S2P Require Import EngineRefinement.
From S2P Require Import EngineMatching.
From S2P Require Import EngineInvariant.
From S2P Require Import EngineTotal.
From S2P Require Import EngineStart.
From S2P Require Import ByteIo.
From S2P Require Import CommandCodec.
From S2P Require Import Journal.
From S2P Require Import EngineProps.

Module JournalProps.
Import BookRefinement EngineRefinement EngineMatching EngineTotal EngineStart CommandCodec Journal EngineProps.

Abbreviation make := MatchingEngine.make.
Abbreviation run := MatchingEngine.run.

(** The journal's command frames are a bijective code. A byte string decodes to
    command [c] exactly when it starts with what the encoder writes for [c], a
    command whose fields fit their types. *)
Theorem command_frames data c : Forall in_u8 data →
  decode_journal_frame data = FrameCommand c ↔
  command_typed c ∧ ∃ rest, data = encode_command c [] ++ rest.
Proof.
  intros Hb. split; [by apply command_decode_encode|].
  intros (Hc & rest & ->). by apply command_encode_decode.
Qed.

Definition sample_cancel : ExchangeCommand := CmdCancel (mkCancelOrder 258 1 (2 ^ 64 - 1) 7).

Definition sample_bytes : list Z := encode_command sample_cancel [].

Lemma command_frames_witness :
  Forall in_u8 sample_bytes ∧
  (decode_journal_frame sample_bytes = FrameCommand sample_cancel ↔
   command_typed sample_cancel ∧ ∃ rest, sample_bytes = encode_command sample_cancel [] ++ rest).
Proof.
  assert (Forall in_u8 sample_bytes) as Hb.
  { unfold in_u8. by apply (bool_decide_unpack _). }
  split; [exact Hb|]. apply (command_frames sample_bytes sample_cancel Hb).
Defined.

(** ** Replay over books that refine *)

Definition same_outcome (o : CommandReplayOutcome MatchingBook.t)
    (p : CommandReplayOutcome ABook.t) : Prop :=
  ER Rep (engine o) (engine p) ∧ events o = events p ∧
  commands_processed o = commands_processed p ∧
  instruments_registered o = instruments_registered p ∧
  stopped_early o = stopped_early p ∧ stop_reason o = stop_reason p.

Definition is_error (frame : DecodedFrame) : bool :=
  match frame with FrameError _ => true | _ => false end.

(** What replaying [n] more frames needs of the engine. *)
Definition replayable (m n : Z) (f : eng) : Prop :=
  registry_ok f ∧ inv m f ∧ vsize (MatchingEngine.books_ f) ≤ m ∧ m + n ≤ MatchingBook.kNil ∧ 0 ≤ m.

Definition frame_in_range (frame : DecodedFrame) : Prop :=
  match frame with
  | FrameCommand c => command_ok c
  | FrameRegister id => in_u32 id
  | FrameError _ => True
  end.

Lemma frame_step_total frame m n (f : eng) (p : CommandReplayOutcome ABook.t) :
  frame_in_range frame → engine p = f → replayable m (n + 1) f → 0 ≤ n →
  ∃ p', frame_step frame p = Some p' ∧ replayable (m + 1) n (engine p').
Proof.
  intros Hf <- (HG & HI & Hz & Hm & H0) Hn. destruct frame as [c|id|e]; simpl in *.
  - destruct (wp_elim _ _ _ (process_total m _ c HI ltac:(lia) Hf)) as ([] & f' & evs & Hp & HI').
    rewrite Hp. simpl. eexists. split; [done|]. simpl.
    pose proof (process_keeps c _ _ _ _ Hp) as Hk. pose proof Hk as (_ & _ & Hz').
    split; [by eapply registry_ok_same; [exact Hk|]|]. split; [done|]. rewrite Hz'. split; lia.
  - destruct (registration m (engine p) id H0 HG HI (proj1 Hf)) as (r & f' & -> & HG' & HI' & Hz' & _).
    { unfold MatchingBook.kNil, SideIndex.SideIndex.kNil, MatchingEngine.kNoSlot in *. lia. }
    simpl. eexists. split; [done|]. simpl. split; [done|]. split; [|lia].
    eapply inv_mono; [done|lia].
  - eexists. split; [done|]. simpl. split; [done|]. split; [|lia]. eapply inv_mono; [done|lia].
Qed.

Lemma frame_step_sim frame m n o (p p' : CommandReplayOutcome ABook.t) :
  same_outcome o p → frame_in_range frame → replayable m (n + 1) (engine p) → 0 ≤ n →
  frame_step frame p = Some p' → ∃ o', frame_step frame o = Some o' ∧ same_outcome o' p'.
Proof.
  intros (HE & E1 & E2 & E3 & E4 & E5) Hf (HG & HI & Hz & Hm & H0) Hn.
  destruct frame as [c|id|e]; simpl in *.
  - destruct (MatchingEngine.process c (engine p)) as [[[[] f'] evs]|] eqn:Hp; [|done].
    intros [= <-]. destruct (sim_process Rep c _ _ HE _ _ _ Hp) as (e' & -> & HE').
    simpl. eexists. split; [done|]. split; [done|]. simpl. by rewrite E1, E2.
  - destruct (MatchingEngine.register_instrument id (engine p)) as [[r f']|] eqn:Hr; [|done].
    assert (vsize (MatchingEngine.books_ (engine p)) < MatchingEngine.kNoSlot) as Hlt.
    { unfold MatchingBook.kNil, SideIndex.SideIndex.kNil, MatchingEngine.kNoSlot in *. lia. }
    intros [= <-]. destruct (er_register Rep _ _ _ _ _ HE (proj1 Hf) Hlt Hr) as (e' & -> & HE' & _).
    simpl. eexists. split; [done|]. split; [done|]. simpl. by rewrite E3.
  - intros [= <-]. eexists. split; [done|]. split; [done|]. by simpl.
Qed.

Lemma frame_step_stopped frame (o o1 : CommandReplayOutcome MatchingBook.t) :
  frame_step frame o = Some o1 → stopped_early o1 = stopped_early o.
Proof.
  destruct frame; simpl; [| |by intros [= <-]].
  - destruct (MatchingEngine.process _ _) as [[[??]?]|]; [|done]. by intros [= <-].
  - destruct (MatchingEngine.register_instrument _ _) as [[??]|]; [|done]. by intros [= <-].
Qed.

Lemma replay_frames_cons stop frame frs (o o1 : CommandReplayOutcome MatchingBook.t) :
  stop && is_error frame = false → frame_step frame o = Some o1 →
  replay_frames stop (frame :: frs) o = replay_frames stop frs o1.
Proof.
  destruct frame as [c|id|e]; simpl; intros Hs Ho.
  - by rewrite Ho.
  - by rewrite Ho.
  - rewrite andb_true_r in Hs. subst. by injection Ho as <-.
Qed.

Lemma replay_frames_total stop frs : ∀ m o (p : CommandReplayOutcome ABook.t),
  same_outcome o p → Forall frame_in_range frs → replayable m (vsize frs) (engine p) →
  ∃ o' p', replay_frames stop frs o = Some o' ∧ same_outcome o' p' ∧
    inv (m + vsize frs) (engine p') ∧
    stopped_early o' = stopped_early o || (stop && existsb is_error frs).
Proof.
  induction frs as [|frame frs IH]; intros m o p Hs Hf Hr.
  { exists o, p. simpl. rewrite andb_false_r, orb_false_r. split; [done|]. split; [done|].
    split; [|done]. change (vsize []) with 0. rewrite Z.add_0_r. apply Hr. }
  apply Forall_cons in Hf as [Hf Hfs].
  assert (vsize (frame :: frs) = vsize frs + 1) as Ez by (unfold vsize; simpl; lia).
  rewrite Ez in *. pose proof (vsize_nonneg frs) as Hn.
  destruct (frame_step_total frame m (vsize frs) (engine p) p) as (p1 & Hp1 & Hr1); [done..|].
  destruct (frame_step_sim _ _ _ _ _ _ Hs Hf Hr Hn Hp1) as (o1 & Ho1 & Hs1).
  destruct (stop && is_error frame) eqn:Estop.
  - destruct stop, frame as [| |e]; try done. exists (on_error true e o), (on_error true e p).
    split; [done|]. split; [destruct Hs as (? & ? & ? & ? & ? & ?); by split|].
    split; [|simpl; by rewrite orb_true_r]. eapply inv_mono; [apply Hr|lia].
  - destruct (IH _ _ _ Hs1 Hfs Hr1) as (o' & p' & Ho' & Hs' & HI' & He'). exists o', p'.
    pose proof (frame_step_stopped _ _ _ Ho1) as E1.
    split; [|split; [done|split]].
    + rewrite <-Ho'. by apply replay_frames_cons.
    + by replace (m + (vsize frs + 1)) with (m + 1 + vsize frs) by lia.
    + rewrite He', E1. simpl. destruct stop, (is_error frame); done.
Qed.

(** C8: replaying any file whose readable frames are in range returns: the reading
    loop terminates, the engine never fails, and the replay stops early exactly when
    it was asked to and a frame does not decode. *)
Theorem replay_total file stop : Forall frame_in_range (frames file) →
  vsize (frames file) ≤ MatchingBook.kNil →
  ∃ (o : CommandReplayOutcome MatchingBook.t) f,
    run_command_replay (Some file) stop = Some o ∧
    represents (vsize (frames file)) (engine o) f ∧
    stopped_early o = stop && existsb is_error (frames file).
Proof.
  intros Hf Hz. destruct (make_total [] MatchingEngine.kDefaultExpectedRestingOrders)
    as (f0 & Hf0 & HG & HI & _); [done|done|].
  destruct (er_make Rep [] _ _ (List.Forall_nil _) eq_refl Hf0) as (e0 & He0 & HE).
  rewrite (run_command_replay_frames _ _ _ He0).
  destruct (replay_frames_total stop (frames file) 0 (mkOutcome e0 [] 0 0 false NoReason)
    (mkOutcome f0 [] 0 0 false NoReason)) as (o & p & -> & Hs & HI' & He).
  - by split.
  - done.
  - split; [done|]. split; [done|]. by injection Hf0 as <-.
  - exists o, (engine p). split; [done|]. split; [|done]. by split; [apply Hs|].
Qed.

(** Registering a universe one by one, as a replay does, and constructing an engine
    for it agree. *)
Lemma replay_start universe n (f0 : eng) : Forall in_u32 universe →
  vsize universe < MatchingEngine.kNoSlot → make universe n = Some f0 →
  ∃ b0 b : real, make [] MatchingEngine.kDefaultExpectedRestingOrders = Some b0 ∧
    MatchingEngine.register_all universe b0 = Some b ∧ ER Rep b f0.
Proof.
  intros Hu Hz Hf0. pose (b0 := EngineRefinement.blank [] 0 MatchingBook.kMaxBandTicks : real). exists b0.
  assert (∃ b, MatchingEngine.register_all universe b0 = Some b ∧ ER Rep b f0) as (b & ? & ?);
    [|by exists b].
  pose proof (vsize_nonneg universe).
  eapply (er_register_all Rep); [|done| |exact Hf0].
  - destruct universe; apply er_blank; try done. by apply Forall_replicate.
  - destruct universe; unfold vsize in *; simpl in *; lia.
Qed.

(** C9: a journal is enough to rebuild the engine. Replaying what a session wrote
    gives that session's events, one by one, and an engine in the same state, with
    the same snapshot, although its books may use other band widths. *)
Theorem replay_reproduces universe n cs stop :
  session_ok universe cs → Forall command_typed cs →
  ∃ (e0 e : real) (f : eng) evs (o : CommandReplayOutcome MatchingBook.t),
    make universe n = Some e0 ∧ run cs e0 = Some (tt, e, evs) ∧
    run_command_replay (Some (journal universe cs)) stop = Some o ∧
    events o = evs ∧ commands_processed o = vsize cs ∧ stopped_early o = false ∧
    represents (vsize cs) e f ∧ represents (vsize cs) (engine o) f ∧
    ∀ s, MatchingEngine.snapshot f = Some s →
      MatchingEngine.snapshot e = Some s ∧ MatchingEngine.snapshot (engine o) = Some s.
Proof.
  intros Hok Htyped. destruct (session_runs universe n cs Hok)
    as (e0 & e & f0 & f & evs & He0 & He & Hf0 & Hf & HE & HI).
  destruct Hok as (Hu & Hsz & _ & Hcs).
  destruct (replay_start universe n f0 Hu Hsz Hf0) as (b0 & b & Hb0 & Hb & HEb).
  destruct (sim_run Rep cs b f0 HEb _ _ _ Hf) as (b' & Hb' & HEb').
  set (o0 := mkOutcome b0 [] 0 0 false NoReason).
  destruct (replay_registrations universe stop (map FrameCommand cs) o0 b Hb) as [k Hk].
  exists e0, e, f, evs.
  eexists. split; [done|]. split; [done|]. split.
  { rewrite (run_command_replay_frames _ _ _ Hb0), journal_frames by done. fold o0. rewrite Hk.
    by apply replay_commands. }
  simpl. split; [done|]. split; [apply u64_small|].
  { unfold MatchingBook.kNil, SideIndex.SideIndex.kNil, in_u64, vsize in *. simpl. lia. }
  split; [done|]. split; [by split|]. split; [by split|].
  intros s Hs. split; [exact (er_snapshot Rep e f s HE Hs)|exact (er_snapshot Rep b' f s HEb' Hs)].
Qed.

Definition sample_cs : list ExchangeCommand :=
  [CmdNew (sample_order 1 11 Buy 100 5 GTC); CmdNew (sample_order 2 21 Sell 100 3 IOC);
   CmdCancel (mkCancelOrder 2 1 11 7)].

Lemma sample_journal_ok : session_ok [7; 9] sample_cs ∧ Forall command_typed sample_cs.
Proof.
  split; [split; [|split; [|split]]|].
  - unfold in_u32. by apply (bool_decide_unpack _).
  - done.
  - by apply (bool_decide_unpack _).
  - done.
  - unfold sample_cs. repeat (apply Forall_cons; split); [..|by apply Forall_nil];
      hnf; unfold in_u64, in_u32, in_i64; cbn; lia.
Qed.

Lemma replay_reproduces_witness :
  ∃ (e0 e : real) (f : eng) evs (o : CommandReplayOutcome MatchingBook.t),
    make [7; 9] 16 = Some e0 ∧ run sample_cs e0 = Some (tt, e, evs) ∧
    run_command_replay (Some (journal [7; 9] sample_cs)) true = Some o ∧
    events o = evs ∧ commands_processed o = vsize sample_cs ∧ stopped_early o = false ∧
    represents (vsize sample_cs) e f ∧ represents (vsize sample_cs) (engine o) f ∧
    ∀ s, MatchingEngine.snapshot f = Some s →
      MatchingEngine.snapshot e = Some s ∧ MatchingEngine.snapshot (engine o) = Some s.
Proof. apply (replay_reproduces [7; 9] 16 sample_cs true); apply sample_journal_ok. Defined.

(** A damaged file: the last byte of a journal is missing. *)
Definition truncated_journal : list Z := removelast (journal [7] sample_cs).

Lemma truncated_journal_ok : Forall frame_in_range (frames truncated_journal) ∧
  vsize (frames truncated_journal) ≤ MatchingBook.kNil.
Proof.
  assert (frames truncated_journal = [FrameRegister 7; FrameCommand (nth 0 sample_cs sample_cancel);
    FrameCommand (nth 1 sample_cs sample_cancel); FrameError TruncatedPayload]) as -> by by vm_compute.
  split; [|done]. repeat (apply Forall_cons; split); [..|by apply Forall_nil];
    cbn; unfold in_u32; lia || done.
Qed.

Lemma replay_total_witness :
  ∃ (o : CommandReplayOutcome MatchingBook.t) f,
    run_command_replay (Some truncated_journal) true = Some o ∧
    represents (vsize (frames truncated_journal)) (engine o) f ∧
    stopped_early o = true && existsb is_error (frames truncated_journal).
Proof. apply (replay_total truncated_journal true); apply truncated_journal_ok. Defined.

End JournalProps.
