(* ===== verification/StateHash.v ===== *)
(** * The state fingerprint ([exchange/persistence/state_hash.cpp])

    A snapshot is serialized and hashed with FNV-1a. The serialization is
    injective, so two different states have the same fingerprint only where FNV-1a
    itself collides. *)

From S2P Require Import Prelude Types ByteIo.

Module StateHash.
Import ByteIo.

Definition put_order (buf : list Z) (order : ExchangeRestingOrder) : list Z :=
  let buf := put_u64 buf (ero_exchange_order_id order) in
  let buf := put_u64 buf (ero_client_order_id order) in
  let buf := put_u64 buf (ero_account_id order) in
  let buf := put_u32 buf (ero_instrument_id order) in
  let buf := put_u8 buf (Side_to_Z (ero_side order)) in
  let buf := put_i64 buf (ero_price order) in
  let buf := put_u64 buf (ero_original_quantity order) in
  let buf := put_u64 buf (ero_remaining_quantity order) in
  let buf := put_u8 buf (TimeInForce_to_Z (ero_time_in_force order)) in
  put_u64 buf (ero_order_sequence order).

Definition kFnvOffsetBasis : Z := 14695981039346656037.
Definition kFnvPrime : Z := 1099511628211.

Definition fnv1a (bytes : list Z) : Z :=
  foldl (λ hash b, u64 (Z.lxor hash b * kFnvPrime)) kFnvOffsetBasis bytes.

Definition put_instrument (buf : list Z) (i : InstrumentBookSnapshot) : list Z :=
  let buf := put_u32 buf (ibs_instrument_id i) in
  let buf := put_u64 buf (vsize (ibs_bids i)) in
  let buf := foldl put_order buf (ibs_bids i) in
  let buf := put_u64 buf (vsize (ibs_asks i)) in
  foldl put_order buf (ibs_asks i).

(** The buffer [hash_state_snapshot] builds. *)
Definition snapshot_bytes (snapshot : EngineStateSnapshot) : list Z :=
  foldl put_instrument (put_u64 [] (vsize snapshot)) snapshot.

Definition hash_state_snapshot (snapshot : EngineStateSnapshot) : Z :=
  fnv1a (snapshot_bytes snapshot).

(** ** Fields that fit their types *)

Definition order_typed (o : ExchangeRestingOrder) : Prop :=
  in_u64 (ero_exchange_order_id o) ∧ in_u64 (ero_client_order_id o) ∧
  in_u64 (ero_account_id o) ∧ in_u32 (ero_instrument_id o) ∧ in_i64 (ero_price o) ∧
  in_u64 (ero_original_quantity o) ∧ in_u64 (ero_remaining_quantity o) ∧
  in_u64 (ero_order_sequence o).

Definition book_typed (i : InstrumentBookSnapshot) : Prop :=
  in_u32 (ibs_instrument_id i) ∧ in_u64 (vsize (ibs_bids i)) ∧ in_u64 (vsize (ibs_asks i)) ∧
  Forall order_typed (ibs_bids i) ∧ Forall order_typed (ibs_asks i).

Definition snapshot_typed (s : EngineStateSnapshot) : Prop :=
  in_u64 (vsize s) ∧ Forall book_typed s.

(** ** A serialization in which nothing is lost *)

(** [put] appends, and what it appends determines the value and where it ends. *)
Class PrefixCode {A} (put : list Z → A → list Z) (legal : A → Prop) := {
  code_app buf a : put buf a = buf ++ put [] a;
  code_inj a b l k : legal a → legal b → put [] a ++ l = put [] b ++ k → a = b ∧ l = k;
}.

#[export] Instance field_prefix {A} put get legal width
  `{!@FieldCodec A put get legal width} : PrefixCode put legal.
Proof. split; [intros; apply put_app|intros; by eapply (field_inj put get)]. Qed.

Lemma put_all_app {A} put legal `{!@PrefixCode A put legal} l : ∀ buf,
  foldl put buf l = buf ++ foldl put [] l.
Proof.
  induction l as [|a l IH]; intros buf; simpl; [by rewrite app_nil_r|].
  rewrite IH, (IH (put [] a)), (code_app (put := put) buf a). by rewrite app_assoc.
Qed.

(** Sequences of the same length. *)
Lemma put_all_inj {A} put legal `{!@PrefixCode A put legal} xs : ∀ ys l k,
  Forall legal xs → Forall legal ys → length xs = length ys →
  foldl put [] xs ++ l = foldl put [] ys ++ k → xs = ys ∧ l = k.
Proof.
  induction xs as [|x xs IH]; intros [|y ys] l k Hx Hy Hl; try done.
  apply Forall_cons in Hx as [Hx Hxs]. apply Forall_cons in Hy as [Hy Hys]. simpl.
  rewrite (put_all_app _ _ _ (put [] x)), (put_all_app _ _ _ (put [] y)), <-!app_assoc.
  intros [-> E]%code_inj; [|done..]. apply IH in E as [-> ->]; [done|done..|by injection Hl].
Qed.

(** Take one field off both sides. *)
Ltac same_field E :=
  lazymatch type of E with
  | ?put [] _ ++ _ = ?put [] _ ++ _ =>
      let H := fresh "H" in
      eapply (code_inj (put := put)) in E as [H E]; [|eassumption || (eauto with legal)..]
  end.

#[export] Instance put_order_prefix : PrefixCode put_order order_typed.
Proof.
  split.
  - intros buf o. unfold put_order. append_fields. done.
  - intros a b l k Ha Hb. unfold put_order. append_fields. intros E. unfold order_typed in *.
    destruct Ha as (?&?&?&?&?&?&?&?), Hb as (?&?&?&?&?&?&?&?). repeat same_field E.
    split; [|done]. destruct a as [? ? ? ? ? ? ? ? [] []], b as [? ? ? ? ? ? ? ? [] []];
      simpl in *; congruence || lia.
Qed.

#[export] Instance put_instrument_prefix : PrefixCode put_instrument book_typed.
Proof.
  split.
  - intros buf i. unfold put_instrument.
    rewrite (put_all_app put_order _ (ibs_asks i)), (put_all_app put_order _ (ibs_bids i)).
    rewrite (put_all_app put_order _ (ibs_asks i) (put_u64 (foldl _ _ _) _)).
    rewrite (put_all_app put_order _ (ibs_bids i) (put_u64 (put_u32 [] _) _)).
    append_fields. done.
  - intros [ia ba aa] [ib bb ab] l k (?&?&?&?&?) (?&?&?&?&?). simpl in *. unfold put_instrument. simpl.
    rewrite (put_all_app put_order _ aa), (put_all_app put_order _ ba).
    rewrite (put_all_app put_order _ ab), (put_all_app put_order _ bb). append_fields.
    intros E. do 2 same_field E.
    apply (put_all_inj put_order order_typed) in E as [-> E]; [|done..|unfold vsize in *; lia].
    same_field E. apply (put_all_inj put_order order_typed) in E as [-> ->];
      [|done..|unfold vsize in *; lia]. by subst.
Qed.

(** The fingerprint is of the whole state. The bytes that are hashed determine
    the snapshot, so snapshots that differ have equal fingerprints only where two
    different byte strings collide under FNV-1a. *)
Theorem fingerprint_of_state s s' : snapshot_typed s → snapshot_typed s' →
  hash_state_snapshot s = fnv1a (snapshot_bytes s) ∧
  (snapshot_bytes s = snapshot_bytes s' ↔ s = s').
Proof.
  intros [Hn Hs] [Hn' Hs']. split; [done|]. split; [|by intros ->]. unfold snapshot_bytes.
  rewrite (put_all_app put_instrument book_typed s), (put_all_app put_instrument book_typed s').
  intros E. same_field E.
  rewrite <-(app_nil_r (foldl put_instrument [] s)), <-(app_nil_r (foldl put_instrument [] s')) in E.
  apply (put_all_inj put_instrument book_typed) in E as [-> _]; [done..|unfold vsize in *; lia].
Qed.

Definition sample_state : EngineStateSnapshot :=
  [mkBookSnapshot 7 [mkRestingOrder 1 11 1 100 5 3 1 7 Buy GTC] []].

Definition sample_state' : EngineStateSnapshot :=
  [mkBookSnapshot 7 [] [mkRestingOrder 1 11 1 100 5 3 1 7 Sell GTC]].

Lemma sample_typed : snapshot_typed sample_state ∧ snapshot_typed sample_state'.
Proof.
  unfold snapshot_typed, sample_state, sample_state', book_typed, order_typed, in_u64, in_u32, in_i64.
  split; (split; [done|]); by apply (bool_decide_unpack _).
Qed.

Lemma fingerprint_of_state_witness :
  hash_state_snapshot sample_state = fnv1a (snapshot_bytes sample_state) ∧
  (snapshot_bytes sample_state = snapshot_bytes sample_state' ↔ sample_state = sample_state').
Proof. apply (fingerprint_of_state sample_state sample_state'); apply sample_typed. Defined.

End StateHash.
