(* ===== verification/MarketDataCodec.v ===== *)
(** * The market-data wire format ([protocol/])

    [messages.hpp], [encoder.cpp] and [decoder.cpp]: a 20-byte header and a fixed
    payload per message type. Replay files and UDP packets carry these frames. *)

From S2P Require Import Prelude Types ByteIo FrameFormat.

Module MarketDataCodec.
Import ByteIo FrameFormat.

Definition HEADER_SIZE : nat := 20.

Inductive MessageType := TAddOrder | TCancelOrder | TModifyOrder | TTrade | TClearBook.

Definition type_to_Z (t : MessageType) : Z :=
  match t with
  | TAddOrder => 1 | TCancelOrder => 2 | TModifyOrder => 3 | TTrade => 4 | TClearBook => 5
  end.

Definition type_of (raw : Z) : option MessageType :=
  if raw =? 1 then Some TAddOrder else if raw =? 2 then Some TCancelOrder
  else if raw =? 3 then Some TModifyOrder else if raw =? 4 then Some TTrade
  else if raw =? 5 then Some TClearBook else None.

Record Header := mkHeader {
  h_type : MessageType;
  h_payload_size : Z;
  h_sequence_number : Sequence;
  h_timestamp_ns : Timestamp;
}.

Record AddOrder := mkAddOrder {
  ao_sequence_number : Sequence;
  ao_timestamp_ns : Timestamp;
  ao_order_id : OrderId;
  ao_instrument_id : InstrumentId;
  ao_price : Price;
  ao_quantity : Quantity;
  ao_side : Side;
}.

Record CancelOrder := mkCancelOrder {
  xo_sequence_number : Sequence;
  xo_timestamp_ns : Timestamp;
  xo_order_id : OrderId;
  xo_instrument_id : InstrumentId;
}.

Record ModifyOrder := mkModifyOrder {
  mo_sequence_number : Sequence;
  mo_timestamp_ns : Timestamp;
  mo_order_id : OrderId;
  mo_instrument_id : InstrumentId;
  mo_new_price : Price;
  mo_new_quantity : Quantity;
}.

Record Trade := mkTrade {
  tr_sequence_number : Sequence;
  tr_timestamp_ns : Timestamp;
  tr_instrument_id : InstrumentId;
  tr_price : Price;
  tr_quantity : Quantity;
  tr_aggressor_side : Side;
}.

Record ClearBook := mkClearBook {
  cb_sequence_number : Sequence;
  cb_timestamp_ns : Timestamp;
  cb_instrument_id : InstrumentId;
}.

Inductive Event :=
  | MAdd (m : AddOrder)
  | MCancel (m : CancelOrder)
  | MModify (m : ModifyOrder)
  | MTrade (m : Trade)
  | MClear (m : ClearBook).

Definition payload_size_for (t : MessageType) : Z :=
  match t with
  | TAddOrder => 8 + 4 + 8 + 8 + 1
  | TCancelOrder => 8 + 4
  | TModifyOrder => 8 + 4 + 8 + 8
  | TTrade => 4 + 8 + 8 + 1
  | TClearBook => 4
  end.

Inductive DecodeError :=
  | TruncatedHeader | TruncatedPayload | InvalidReserved | InvalidMessageType
  | InvalidMessageSize | InvalidSide.

(** ** Encoder *)

Definition put_header (out : list Z) (t : MessageType) (seq : Sequence) (ts : Timestamp)
    (payload_size : Z) : list Z :=
  let out := put_u8 out (type_to_Z t) in
  let out := put_u8 out 0 in
  let out := put_u16 out payload_size in
  let out := put_u64 out seq in
  put_u64 out ts.

Definition encode_event (event : Event) (out : list Z) : list Z :=
  match event with
  | MAdd msg =>
      let out := put_header out TAddOrder (ao_sequence_number msg) (ao_timestamp_ns msg)
                   (u16 (payload_size_for TAddOrder)) in
      let out := put_u64 out (ao_order_id msg) in
      let out := put_u32 out (ao_instrument_id msg) in
      let out := put_i64 out (ao_price msg) in
      let out := put_u64 out (ao_quantity msg) in
      put_side out (ao_side msg)
  | MCancel msg =>
      let out := put_header out TCancelOrder (xo_sequence_number msg) (xo_timestamp_ns msg)
                   (u16 (payload_size_for TCancelOrder)) in
      let out := put_u64 out (xo_order_id msg) in
      put_u32 out (xo_instrument_id msg)
  | MModify msg =>
      let out := put_header out TModifyOrder (mo_sequence_number msg) (mo_timestamp_ns msg)
                   (u16 (payload_size_for TModifyOrder)) in
      let out := put_u64 out (mo_order_id msg) in
      let out := put_u32 out (mo_instrument_id msg) in
      let out := put_i64 out (mo_new_price msg) in
      put_u64 out (mo_new_quantity msg)
  | MTrade msg =>
      let out := put_header out TTrade (tr_sequence_number msg) (tr_timestamp_ns msg)
                   (u16 (payload_size_for TTrade)) in
      let out := put_u32 out (tr_instrument_id msg) in
      let out := put_i64 out (tr_price msg) in
      let out := put_u64 out (tr_quantity msg) in
      put_side out (tr_aggressor_side msg)
  | MClear msg =>
      let out := put_header out TClearBook (cb_sequence_number msg) (cb_timestamp_ns msg)
                   (u16 (payload_size_for TClearBook)) in
      put_u32 out (cb_instrument_id msg)
  end.

(** ** Decoder *)

Definition decode_header (data : list Z) : Header + DecodeError :=
  if vsize data <? Z.of_nat HEADER_SIZE then inr TruncatedHeader
  else
    match
      (let r := reader (take HEADER_SIZE data) in
       '(type_raw, r) ← get_u8 r; '(reserved, r) ← get_u8 r;
       '(payload_size, r) ← get_u16 r; '(seq, r) ← get_u64 r; '(ts, r) ← get_u64 r;
       Some (type_raw, reserved, payload_size, seq, ts))
    with
    | None => inr TruncatedHeader
    | Some (type_raw, reserved, payload_size, seq, ts) =>
        if negb (reserved =? 0) then inr InvalidReserved
        else match type_of type_raw with
             | None => inr InvalidMessageType
             | Some t => inl (mkHeader t payload_size seq ts)
             end
    end.

Definition decode_add (seq : Sequence) (ts : Timestamp) (r : ByteReader) : Event + DecodeError :=
  match
    ('(order_id, r) ← get_u64 r; '(instrument_id, r) ← get_u32 r; '(price, r) ← get_i64 r;
     '(quantity, r) ← get_u64 r; '(side_raw, r) ← get_u8 r;
     Some (order_id, instrument_id, price, quantity, side_raw))
  with
  | None => inr TruncatedPayload
  | Some (order_id, instrument_id, price, quantity, side_raw) =>
      match side_of side_raw with
      | None => inr InvalidSide
      | Some side => inl (MAdd (mkAddOrder seq ts order_id instrument_id price quantity side))
      end
  end.

Definition decode_cancel (seq : Sequence) (ts : Timestamp) (r : ByteReader) : Event + DecodeError :=
  match
    ('(order_id, r) ← get_u64 r; '(instrument_id, r) ← get_u32 r; Some (order_id, instrument_id))
  with
  | None => inr TruncatedPayload
  | Some (order_id, instrument_id) => inl (MCancel (mkCancelOrder seq ts order_id instrument_id))
  end.

Definition decode_modify (seq : Sequence) (ts : Timestamp) (r : ByteReader) : Event + DecodeError :=
  match
    ('(order_id, r) ← get_u64 r; '(instrument_id, r) ← get_u32 r; '(new_price, r) ← get_i64 r;
     '(new_quantity, r) ← get_u64 r; Some (order_id, instrument_id, new_price, new_quantity))
  with
  | None => inr TruncatedPayload
  | Some (order_id, instrument_id, new_price, new_quantity) =>
      inl (MModify (mkModifyOrder seq ts order_id instrument_id new_price new_quantity))
  end.

Definition decode_trade (seq : Sequence) (ts : Timestamp) (r : ByteReader) : Event + DecodeError :=
  match
    ('(instrument_id, r) ← get_u32 r; '(price, r) ← get_i64 r; '(quantity, r) ← get_u64 r;
     '(side_raw, r) ← get_u8 r; Some (instrument_id, price, quantity, side_raw))
  with
  | None => inr TruncatedPayload
  | Some (instrument_id, price, quantity, side_raw) =>
      match side_of side_raw with
      | None => inr InvalidSide
      | Some side => inl (MTrade (mkTrade seq ts instrument_id price quantity side))
      end
  end.

Definition decode_clear (seq : Sequence) (ts : Timestamp) (r : ByteReader) : Event + DecodeError :=
  match get_u32 r with
  | None => inr TruncatedPayload
  | Some (instrument_id, _) => inl (MClear (mkClearBook seq ts instrument_id))
  end.

(** [switch (header.type)] *)
Definition decode_payload (header : Header) (r : ByteReader) : Event + DecodeError :=
  match h_type header with
  | TAddOrder => decode_add (h_sequence_number header) (h_timestamp_ns header) r
  | TCancelOrder => decode_cancel (h_sequence_number header) (h_timestamp_ns header) r
  | TModifyOrder => decode_modify (h_sequence_number header) (h_timestamp_ns header) r
  | TTrade => decode_trade (h_sequence_number header) (h_timestamp_ns header) r
  | TClearBook => decode_clear (h_sequence_number header) (h_timestamp_ns header) r
  end.

Definition decode_event (data : list Z) : Event + DecodeError :=
  match decode_header data with
  | inr e => inr e
  | inl header =>
      if negb (h_payload_size header =? payload_size_for (h_type header))
      then inr InvalidMessageSize
      else if vsize data <? Z.of_nat HEADER_SIZE + h_payload_size header
      then inr TruncatedPayload
      else decode_payload header
             (reader (take (Z.to_nat (h_payload_size header)) (drop HEADER_SIZE data)))
  end.

(** ** Lemmas *)

Definition header_typed (h : Header) : Prop :=
  in_u16 (h_payload_size h) ∧ in_u64 (h_sequence_number h) ∧ in_u64 (h_timestamp_ns h).

Definition header_bytes (h : Header) : list Z :=
  put_header [] (h_type h) (h_sequence_number h) (h_timestamp_ns h) (h_payload_size h).

Lemma event_type_of_to t : type_of (type_to_Z t) = Some t.
Proof. by destruct t. Qed.

Lemma event_type_of_inv raw t : type_of raw = Some t → raw = type_to_Z t.
Proof. unfold type_of. repeat case_bool; intros [=]; subst; simpl; lia. Qed.

Lemma event_type_in_u8 t : in_u8 (type_to_Z t).
Proof. by destruct t. Qed.

#[local] Hint Resolve event_type_in_u8 : legal.

Lemma event_put_header_app out t seq ts size :
  put_header out t seq ts size = out ++ put_header [] t seq ts size.
Proof. unfold put_header. append_fields. done. Qed.

Lemma event_length_header h : length (header_bytes h) = HEADER_SIZE.
Proof.
  unfold header_bytes, put_header. append_fields. by rewrite !length_app, !length_put.
Qed.

Lemma event_payload_size_small t : u16 (payload_size_for t) = payload_size_for t.
Proof. by destruct t. Qed.

Lemma event_decode_header_bytes h rest : header_typed h → decode_header (header_bytes h ++ rest) = inl h.
Proof.
  intros (Hp & Hs & Ht). unfold decode_header, vsize.
  rewrite length_app, event_length_header, (proj2 (Z.ltb_ge _ _)) by lia.
  rewrite take_app_length' by (by rewrite event_length_header).
  start_reading (header_bytes h). unfold header_bytes, put_header in Hu. revert Hu. append_fields.
  intros Hu. rewrite <-(app_nil_r (put_u64 [] (h_timestamp_ns h))) in Hu. read_fields. simpl.
  rewrite event_type_of_to. by destruct h.
Qed.

Lemma event_decode_header_inv data h : Forall in_u8 data → decode_header data = inl h →
  header_typed h ∧ ∃ rest, data = header_bytes h ++ rest.
Proof.
  intros Hb. unfold decode_header. destruct (Z.ltb_spec (vsize data) (Z.of_nat HEADER_SIZE)); [done|].
  apply (Forall_take _ HEADER_SIZE) in Hb as Hb'. revert Hb'.
  assert (length (take HEADER_SIZE data) = HEADER_SIZE) as Hl.
  { rewrite length_take_le; [done|]. unfold vsize in *. lia. }
  start_reading (take HEADER_SIZE data). intros Hb'. cbv zeta.
  destruct (mbind _ (get_u8 _)) as [[[[[t res] size] seq] ts]|] eqn:E; [|done].
  rewrite <-Hu in Hb'. unread_fields. injection E as <- <- <- <- <-.
  destruct (Z.eqb_spec a0 0); [|done]. cbn [negb].
  destruct (type_of a) as [ty|] eqn:Et; [|done]. intros [= <-].
  split; [done|]. exists (drop HEADER_SIZE data). apply event_type_of_inv in Et. subst.
  rewrite <-(take_drop HEADER_SIZE data) at 1. f_equal. rewrite <-Hu in *. clear Hu. gather_fields.
  eapply nothing_left; [|by rewrite Hl, event_length_header].
  unfold header_bytes, put_header. append_fields. exact Hu0.
Qed.

Lemma decode_event_frame data : decode_event data =
  decode_frame HEADER_SIZE decode_header h_payload_size (λ h, payload_size_for (h_type h))
    InvalidMessageSize TruncatedPayload inr decode_payload data.
Proof. done. Qed.

#[export] Instance event_header_codec :
  HeaderCodec HEADER_SIZE decode_header h_payload_size header_bytes header_typed.
Proof.
  split; [exact event_length_header|by intros h [[??] _]|intros; by apply event_decode_header_bytes|].
  apply event_decode_header_inv.
Qed.

(** ** The payloads *)

Definition event_typed (ev : Event) : Prop :=
  match ev with
  | MAdd m => in_u64 (ao_sequence_number m) ∧ in_u64 (ao_timestamp_ns m) ∧ in_u64 (ao_order_id m) ∧
      in_u32 (ao_instrument_id m) ∧ in_i64 (ao_price m) ∧ in_u64 (ao_quantity m)
  | MCancel m => in_u64 (xo_sequence_number m) ∧ in_u64 (xo_timestamp_ns m) ∧
      in_u64 (xo_order_id m) ∧ in_u32 (xo_instrument_id m)
  | MModify m => in_u64 (mo_sequence_number m) ∧ in_u64 (mo_timestamp_ns m) ∧
      in_u64 (mo_order_id m) ∧ in_u32 (mo_instrument_id m) ∧ in_i64 (mo_new_price m) ∧
      in_u64 (mo_new_quantity m)
  | MTrade m => in_u64 (tr_sequence_number m) ∧ in_u64 (tr_timestamp_ns m) ∧
      in_u32 (tr_instrument_id m) ∧ in_i64 (tr_price m) ∧ in_u64 (tr_quantity m)
  | MClear m => in_u64 (cb_sequence_number m) ∧ in_u64 (cb_timestamp_ns m) ∧
      in_u32 (cb_instrument_id m)
  end.

Definition event_header (ev : Event) : Header :=
  match ev with
  | MAdd m => mkHeader TAddOrder (payload_size_for TAddOrder) (ao_sequence_number m) (ao_timestamp_ns m)
  | MCancel m => mkHeader TCancelOrder (payload_size_for TCancelOrder) (xo_sequence_number m) (xo_timestamp_ns m)
  | MModify m => mkHeader TModifyOrder (payload_size_for TModifyOrder) (mo_sequence_number m) (mo_timestamp_ns m)
  | MTrade m => mkHeader TTrade (payload_size_for TTrade) (tr_sequence_number m) (tr_timestamp_ns m)
  | MClear m => mkHeader TClearBook (payload_size_for TClearBook) (cb_sequence_number m) (cb_timestamp_ns m)
  end.

Definition event_bytes (ev : Event) : list Z :=
  match ev with
  | MAdd m => put_u64 [] (ao_order_id m) ++ put_u32 [] (ao_instrument_id m) ++
      put_i64 [] (ao_price m) ++ put_u64 [] (ao_quantity m) ++ put_u8 [] (Side_to_Z (ao_side m)) ++ []
  | MCancel m => put_u64 [] (xo_order_id m) ++ put_u32 [] (xo_instrument_id m) ++ []
  | MModify m => put_u64 [] (mo_order_id m) ++ put_u32 [] (mo_instrument_id m) ++
      put_i64 [] (mo_new_price m) ++ put_u64 [] (mo_new_quantity m) ++ []
  | MTrade m => put_u32 [] (tr_instrument_id m) ++ put_i64 [] (tr_price m) ++
      put_u64 [] (tr_quantity m) ++ put_u8 [] (Side_to_Z (tr_aggressor_side m)) ++ []
  | MClear m => put_u32 [] (cb_instrument_id m) ++ []
  end.

Lemma encode_event_bytes ev out :
  encode_event ev out = out ++ header_bytes (event_header ev) ++ event_bytes ev.
Proof.
  destruct ev; cbn -[payload_size_for app put_u8 put_u16 put_u32 put_u64 put_i64 put_header];
    unfold put_side; append_fields;
    rewrite event_put_header_app, event_payload_size_small, <-!app_assoc, ?app_nil_r; done.
Qed.

Lemma event_length_payload ev : vsize (event_bytes ev) = h_payload_size (event_header ev).
Proof. unfold vsize. destruct ev; cbn [event_bytes]; by rewrite !length_app, !length_put. Qed.

Lemma event_header_ok ev : event_typed ev → header_typed (event_header ev) ∧
  h_payload_size (event_header ev) = payload_size_for (h_type (event_header ev)).
Proof.
  destruct ev; intros Hc; hnf in Hc; unpack; (split; [split; [by split|done]|done]).
Qed.

Lemma event_decode_payload_bytes ev : event_typed ev →
  decode_payload (event_header ev) (reader (event_bytes ev)) = inl ev.
Proof.
  start_reading (event_bytes ev).
  destruct ev as [m|m|m|m|m]; cbn [event_bytes] in Hu; intros Hc; hnf in Hc; unpack;
    cbn -[get_u8 get_u32 get_u64 get_i64].
  - unfold decode_add. read_fields. rewrite side_of_to. by destruct m.
  - unfold decode_cancel. read_fields. by destruct m.
  - unfold decode_modify. read_fields. by destruct m.
  - unfold decode_trade. read_fields. rewrite side_of_to. by destruct m.
  - unfold decode_clear. read_fields. by destruct m.
Qed.

(** The end of each case of [event_decode_payload_inv]: the fields read are all of the
    payload. *)
Ltac payload_done := subst; split; [done|]; split; [done|]; gather_fields; by exhaust_fields.

Lemma event_decode_payload_inv h payload ev : header_typed h → Forall in_u8 payload →
  h_payload_size h = payload_size_for (h_type h) → vsize payload = h_payload_size h →
  decode_payload h (reader payload) = inl ev →
  event_typed ev ∧ h = event_header ev ∧ payload = event_bytes ev.
Proof.
  intros (_ & Hs & Ht) Hb Hp Hl. assert (vsize payload = payload_size_for (h_type h)) as Hl' by lia.
  rewrite <-(proj2 (reader_start payload)) in Hb. revert Hb. start_reading payload. intros Hb.
  destruct h as [ty size seq ts]. simpl in *. unfold decode_payload. simpl. destruct ty.
  - unfold decode_add. destruct (mbind _ (get_u64 _)) as [x|] eqn:E; [|done].
    unread_fields. injection E as <-. destruct (side_of _) as [sd|] eqn:E1; [|done].
    intros [= <-]. apply side_of_inv in E1. payload_done.
  - unfold decode_cancel. destruct (mbind _ (get_u64 _)) as [x|] eqn:E; [|done].
    unread_fields. injection E as <-. intros [= <-]. payload_done.
  - unfold decode_modify. destruct (mbind _ (get_u64 _)) as [x|] eqn:E; [|done].
    unread_fields. injection E as <-. intros [= <-]. payload_done.
  - unfold decode_trade. destruct (mbind _ (get_u32 _)) as [x|] eqn:E; [|done].
    unread_fields. injection E as <-. destruct (side_of _) as [sd|] eqn:E1; [|done].
    intros [= <-]. apply side_of_inv in E1. payload_done.
  - unfold decode_clear. destruct (get_u32 _) as [[a r']|] eqn:E; [|done]. intros [= <-].
    destruct (put_get _ _ _ Hr Hb E) as (? & ? & ?). payload_done.
Qed.

#[export] Instance event_payload_codec :
  PayloadCodec h_payload_size (λ h, payload_size_for (h_type h)) inr decode_payload
    (header_typed := header_typed) inl event_typed event_header event_bytes.
Proof.
  split; [done|apply event_header_ok|apply event_length_payload|apply event_decode_payload_bytes|].
  apply event_decode_payload_inv.
Qed.

Lemma encode_event_frame ev : encode_event ev [] = frame_of (header_bytes := header_bytes)
  (header_of := event_header) (payload_of := event_bytes) ev.
Proof. apply encode_event_bytes. Qed.

Lemma event_encode_decode ev rest : event_typed ev → decode_event (encode_event ev [] ++ rest) = inl ev.
Proof. intros Hev. rewrite encode_event_frame, decode_event_frame. by apply (frame_decodes _ _ _ _ _ _ _ _ (PC := event_payload_codec)). Qed.

Lemma event_decode_encode data ev : Forall in_u8 data → decode_event data = inl ev →
  event_typed ev ∧ ∃ rest, data = encode_event ev [] ++ rest.
Proof. rewrite encode_event_frame, decode_event_frame. apply (frame_encodes _ _ _ _ _ _ _ _ (PC := event_payload_codec)). Qed.

(** Every encoded event is bytes, and not longer than the longest frame. *)
Lemma encoded_bytes_ok ev : Forall in_u8 (encode_event ev []).
Proof.
  rewrite encode_event_bytes, app_nil_l. unfold header_bytes, put_header. append_fields.
  destruct ev; cbn [event_bytes]; fields_ok.
Qed.

Lemma length_encoded ev : 20 < vsize (encode_event ev []) ≤ 49.
Proof.
  rewrite encode_event_bytes, app_nil_l. unfold vsize. rewrite length_app, event_length_header.
  pose proof (event_length_payload ev) as Hl. unfold vsize, HEADER_SIZE in *. destruct ev; simpl in *; lia.
Qed.

Lemma encode_event_app ev out : encode_event ev out = out ++ encode_event ev [].
Proof. by rewrite !(encode_event_bytes ev). Qed.

(** A header decides the message's kind, whatever follows it. *)
Lemma decode_header_more data rest h : decode_header data = inl h → decode_header (data ++ rest) = inl h.
Proof.
  unfold decode_header, vsize. rewrite length_app.
  destruct (Z.ltb_spec (Z.of_nat (length data)) (Z.of_nat HEADER_SIZE)); [done|].
  rewrite (proj2 (Z.ltb_ge _ _)) by lia. by rewrite take_app_le by lia.
Qed.

Lemma add_frame_decodes data rest h ev : decode_header data = inl h → h_type h = TAddOrder →
  decode_event (data ++ rest) = inl ev → ∃ add, ev = MAdd add.
Proof.
  intros Hh Ht. unfold decode_event. rewrite (decode_header_more _ _ _ Hh).
  case_bool; [done|]. case_bool; [done|]. unfold decode_payload. rewrite Ht. unfold decode_add.
  destruct (mbind _ _) as [[[[[? ?] ?] ?] ?]|]; [|done]. destruct (side_of _); intros [= <-]. eauto.
Qed.

(** ** Several events *)

Definition encode_all (events : list Event) : list Z := concat (map (λ ev, encode_event ev []) events).

Lemma encode_events_fold events out :
  foldl (λ payload event, encode_event event payload) out events = out ++ encode_all events.
Proof.
  revert out. induction events as [|ev events IH]; intros out; [by rewrite app_nil_r|].
  cbn [foldl]. rewrite IH, encode_event_app, <-app_assoc. done.
Qed.

Lemma length_encode_all events :
  20 * vsize events ≤ vsize (encode_all events) ≤ 49 * vsize events.
Proof.
  induction events as [|ev events IH]; [done|]. pose proof (length_encoded ev) as Hl.
  unfold encode_all, vsize in *. cbn [map concat]. rewrite length_app. simpl length. lia.
Qed.

(** Market-data frames are a bijective code: bytes decode to an event exactly
    when they start with what the encoder writes for it. *)
Theorem event_frames data ev : Forall in_u8 data →
  decode_event data = inl ev ↔ event_typed ev ∧ ∃ rest, data = encode_event ev [] ++ rest.
Proof.
  intros Hb. split; [by apply event_decode_encode|].
  intros (Hc & rest & ->). by apply event_encode_decode.
Qed.

Definition sample_trade : Event := MTrade (mkTrade 3 99 7 (-5) 12 Sell).

Lemma event_frames_witness :
  Forall in_u8 (encode_event sample_trade []) ∧
  (decode_event (encode_event sample_trade []) = inl sample_trade ↔ event_typed sample_trade ∧
    ∃ rest, encode_event sample_trade [] = encode_event sample_trade [] ++ rest).
Proof.
  split; [apply encoded_bytes_ok|].
  exact (event_frames (encode_event sample_trade []) sample_trade (encoded_bytes_ok _)).
Defined.

End MarketDataCodec.
