(* ===== verification/Packet.v ===== *)
(** * UDP packets ([net/packet.hpp], [net/packet.cpp])

    A packet is a 20-byte header and a batch of market-data frames. *)

From S2P Require Import Prelude Types ByteIo MarketDataCodec.

Module Packet.
Import ByteIo MarketDataCodec.

Definition PACKET_MAGIC : Z := 1296320561.
Definition PACKET_VERSION : Z := 1.
Definition PACKET_HEADER_SIZE : nat := 20.

Record PacketHeader := mkPacketHeader {
  ph_magic : Z;
  ph_version : Z;
  ph_frame_count : Z;
  ph_packet_sequence : Z;
  ph_payload_length : Z;
}.

Inductive PacketError :=
  | PTruncatedHeader | InvalidMagic | InvalidVersion | ZeroFrameCount
  | PayloadLengthMismatch | InnerFrameHeaderInvalid | FrameCountMismatch.

Record UnpackedPacket := mkUnpacked {
  up_header : PacketHeader;
  up_frames : list (Event + DecodeError);
}.

(** The header fields, in the order they are put. *)
Definition put_packet_header (out : list Z) (h : PacketHeader) : list Z :=
  let out := put_u32 out (ph_magic h) in
  let out := put_u16 out (ph_version h) in
  let out := put_u16 out (ph_frame_count h) in
  let out := put_u64 out (ph_packet_sequence h) in
  put_u32 out (ph_payload_length h).

Definition pack_frames (packet_sequence : Z) (events : list Event) : list Z :=
  let payload := foldl (λ payload event, encode_event event payload) [] events in
  let out := put_packet_header [] (mkPacketHeader PACKET_MAGIC PACKET_VERSION
    (u16 (vsize events)) packet_sequence (u32 (vsize payload))) in
  out ++ payload.

(** [for (i < frame_count)]: [rest] is [remaining.subspan(offset)]. *)
Fixpoint unpack_loop (frame_count : nat) (rest : list Z) (frames : list (Event + DecodeError)) :
    (list (Event + DecodeError) * list Z) + PacketError :=
  match frame_count with
  | O => inl (frames, rest)
  | S frame_count =>
      match decode_header rest with
      | inr _ => inr InnerFrameHeaderInvalid
      | inl header =>
          let frame_len := Z.of_nat HEADER_SIZE + h_payload_size header in
          if vsize rest <? frame_len then inr InnerFrameHeaderInvalid
          else unpack_loop frame_count (drop (Z.to_nat frame_len) rest)
                 (frames ++ [decode_event (take (Z.to_nat frame_len) rest)])
      end
  end.

Definition unpack_frames (datagram : list Z) : UnpackedPacket + PacketError :=
  if vsize datagram <? Z.of_nat PACKET_HEADER_SIZE then inr PTruncatedHeader
  else
    match
      (let r := reader (take PACKET_HEADER_SIZE datagram) in
       '(magic, r) ← get_u32 r; '(version, r) ← get_u16 r; '(frame_count, r) ← get_u16 r;
       '(packet_sequence, r) ← get_u64 r; '(payload_length, r) ← get_u32 r;
       Some (mkPacketHeader magic version frame_count packet_sequence payload_length))
    with
    | None => inr PTruncatedHeader
    | Some h =>
        if negb (ph_magic h =? PACKET_MAGIC) then inr InvalidMagic
        else if negb (ph_version h =? PACKET_VERSION) then inr InvalidVersion
        else if ph_frame_count h =? 0 then inr ZeroFrameCount
        else
          let remaining := drop PACKET_HEADER_SIZE datagram in
          if negb (vsize remaining =? ph_payload_length h) then inr PayloadLengthMismatch
          else match unpack_loop (Z.to_nat (ph_frame_count h)) remaining [] with
               | inr e => inr e
               | inl (frames, []) => inl (mkUnpacked h frames)
               | inl (_, _) => inr FrameCountMismatch
               end
    end.

(** ** Lemmas *)

Lemma length_packet_header h : length (put_packet_header [] h) = PACKET_HEADER_SIZE.
Proof. unfold put_packet_header. append_fields. by rewrite !length_app, !length_put. Qed.

Definition packet_typed (h : PacketHeader) : Prop :=
  in_u32 (ph_magic h) ∧ in_u16 (ph_version h) ∧ in_u16 (ph_frame_count h) ∧
  in_u64 (ph_packet_sequence h) ∧ in_u32 (ph_payload_length h).

(** What a received packet means, once its header is read. *)
Definition unpack_body (h : PacketHeader) (remaining : list Z) : UnpackedPacket + PacketError :=
  if negb (ph_magic h =? PACKET_MAGIC) then inr InvalidMagic
  else if negb (ph_version h =? PACKET_VERSION) then inr InvalidVersion
  else if ph_frame_count h =? 0 then inr ZeroFrameCount
  else if negb (vsize remaining =? ph_payload_length h) then inr PayloadLengthMismatch
  else match unpack_loop (Z.to_nat (ph_frame_count h)) remaining [] with
       | inr e => inr e
       | inl (frames, []) => inl (mkUnpacked h frames)
       | inl (_, _) => inr FrameCountMismatch
       end.

Lemma unpack_header h payload : packet_typed h →
  unpack_frames (put_packet_header [] h ++ payload) = unpack_body h payload.
Proof.
  intros (?&?&?&?&?). unfold unpack_frames, vsize at 1.
  rewrite length_app, length_packet_header, (proj2 (Z.ltb_ge _ _)) by lia.
  rewrite take_app_length', drop_app_length' by (by rewrite length_packet_header).
  start_reading (put_packet_header [] h). unfold put_packet_header in Hu. revert Hu. append_fields.
  intros Hu. rewrite <-(app_nil_r (put_u32 [] (ph_payload_length h))) in Hu. cbv zeta.
  read_fields. by destruct h.
Qed.

(** The loop takes one encoded frame off the front. *)
Lemma unpack_step n ev rest frames : event_typed ev →
  unpack_loop (S n) (encode_event ev [] ++ rest) frames = unpack_loop n rest (frames ++ [inl ev]).
Proof.
  intros Hev. destruct (event_header_ok ev Hev) as [Hh Hs]. pose proof (event_length_payload ev) as Hp.
  assert (length (encode_event ev []) =
    Z.to_nat (Z.of_nat HEADER_SIZE + h_payload_size (event_header ev))) as Hl.
  { rewrite encode_event_bytes, app_nil_l, length_app, event_length_header. unfold vsize in Hp. lia. }
  cbn [unpack_loop]. rewrite encode_event_bytes at 1. rewrite app_nil_l, <-app_assoc.
  rewrite event_decode_header_bytes by done. cbv zeta.
  unfold vsize at 1. rewrite length_app, Hl, (proj2 (Z.ltb_ge _ _)).
  2: { unfold vsize in Hp. lia. }
  rewrite drop_app_length', take_app_length' by done. do 3 f_equal.
  rewrite <-(app_nil_r (encode_event ev [])). by apply event_encode_decode.
Qed.

Lemma unpack_all events : ∀ n rest frames, Forall event_typed events →
  unpack_loop (length events + n) (encode_all events ++ rest) frames =
    unpack_loop n rest (frames ++ map inl events).
Proof.
  induction events as [|ev events IH]; intros n rest frames Hev; [by rewrite app_nil_r|].
  apply Forall_cons in Hev as [Hev Hevs]. unfold encode_all. cbn [length map concat Nat.add].
  rewrite <-app_assoc, unpack_step by done. fold (encode_all events). rewrite IH by done.
  by rewrite <-app_assoc.
Qed.

Definition packed_header (packet_sequence : Z) (events : list Event) : PacketHeader :=
  mkPacketHeader PACKET_MAGIC PACKET_VERSION (u16 (vsize events)) packet_sequence
    (u32 (vsize (encode_all events))).

(** What a receiver makes of a sent packet, for every batch size. A batch of 1 to
    65535 events arrives whole and in order; an empty batch, and a batch whose size
    does not fit the 16-bit count, is refused as a packet, never misread. *)
Theorem packet_roundtrip packet_sequence events :
  in_u64 packet_sequence → Forall event_typed events → 49 * vsize events < 2 ^ 32 →
  unpack_frames (pack_frames packet_sequence events) =
    if u16 (vsize events) =? 0 then inr ZeroFrameCount
    else if vsize events <? 2 ^ 16
    then inl (mkUnpacked (packed_header packet_sequence events) (map inl events))
    else inr FrameCountMismatch.
Proof.
  intros Hseq Hev Hsz. pose proof (length_encode_all events) as Hl.
  pose proof (vsize_nonneg events) as Hn.
  assert (u32 (vsize (encode_all events)) = vsize (encode_all events)) as Eu
    by (apply u32_small; unfold in_u32; lia).
  unfold pack_frames. rewrite encode_events_fold, app_nil_l. rewrite unpack_header.
  2: { unfold packet_typed. simpl. rewrite Eu. unfold PACKET_MAGIC, PACKET_VERSION, in_u16, in_u32, u16.
       pose proof (Z.mod_pos_bound (vsize events) (2 ^ 16)). split_and!; done || lia. }
  unfold unpack_body. simpl ph_magic. simpl ph_version. simpl ph_frame_count. rewrite !Z.eqb_refl.
  cbn [negb]. destruct (Z.eqb_spec (u16 (vsize events)) 0) as [|Hnz]; [done|].
  simpl ph_payload_length. rewrite Eu, Z.eqb_refl. cbn [negb].
  unfold u16 in *. pose proof (Z.mod_pos_bound (vsize events) (2 ^ 16)).
  set (k := Z.to_nat (vsize events mod 2 ^ 16)).
  rewrite <-(take_drop k events) at 1. unfold encode_all at 1. rewrite map_app, concat_app.
  fold (encode_all (take k events)) (encode_all (drop k events)).
  assert (length (take k events) = k) as Ek.
  { rewrite length_take_le; [done|]. unfold k, vsize in *.
    pose proof (Z.mod_le (Z.of_nat (length events)) (2 ^ 16) ltac:(lia) ltac:(lia)). lia. }
  replace (unpack_loop k) with (unpack_loop (length (take k events) + 0)) by (f_equal; lia).
  rewrite unpack_all by (by apply Forall_take). cbn [unpack_loop].
  destruct (Z.ltb_spec (vsize events) (2 ^ 16)) as [Hlt|Hge].
  - assert (k = length events) as E. { unfold k. rewrite Z.mod_small by lia. unfold vsize. lia. }
    rewrite E, drop_all, firstn_all. simpl. unfold packed_header, u16. by rewrite Eu.
  - pose proof (length_encode_all (drop k events)) as Hd.
    assert (0 < vsize (drop k events)) as Hp.
    { unfold vsize in *. rewrite length_drop. unfold k. lia. }
    destruct (encode_all (drop k events)) as [|b bs]; [|done].
    change (vsize []) with 0 in Hd. lia.
Qed.

Definition sample_batch : list Event :=
  [MAdd (mkAddOrder 1 10 100 7 250 5 Buy); MClear (mkClearBook 2 11 7)].

Lemma sample_batch_typed : in_u64 77 ∧ Forall event_typed sample_batch ∧ 49 * vsize sample_batch < 2 ^ 32.
Proof.
  split; [by split|]. split; [|done]. unfold sample_batch.
  repeat (apply Forall_cons; split); [..|by apply Forall_nil];
    hnf; unfold in_u64, in_u32, in_i64; cbn; lia.
Qed.

Lemma packet_roundtrip_witness :
  unpack_frames (pack_frames 77 sample_batch) =
    inl (mkUnpacked (packed_header 77 sample_batch) (map inl sample_batch)).
Proof.
  destruct sample_batch_typed as (? & ? & ?). exact (packet_roundtrip 77 sample_batch ltac:(done) ltac:(done) ltac:(done)).
Defined.

End Packet.
