(* ===== verification/OrderEntryCodec.v ===== *)
(** * The order-entry wire format ([protocol/order_entry])

    [messages.hpp], [encoder.cpp] and [decoder.cpp]: the two-way TCP stream between a
    client and the gateway, a 3-byte header and a fixed payload per message type. *)

From S2P Require Import Prelude Types ByteIo FrameFormat.

Module OrderEntryCodec.
Import ByteIo FrameFormat.

Definition HEADER_SIZE : nat := 3.

Inductive MessageType :=
  | TNewOrder | TCancelOrder | TReplaceOrder | TAccepted
  | TRejected | TCancelled | TReplaced | TTradeReport.

Definition type_to_Z (t : MessageType) : Z :=
  match t with
  | TNewOrder => 1 | TCancelOrder => 2 | TReplaceOrder => 3 | TAccepted => 10
  | TRejected => 11 | TCancelled => 12 | TReplaced => 13 | TTradeReport => 14
  end.

(** [is_known_type] and the cast that follows it. *)
Definition type_of (raw : Z) : option MessageType :=
  match raw with
  | 1 => Some TNewOrder
  | 2 => Some TCancelOrder
  | 3 => Some TReplaceOrder
  | 10 => Some TAccepted
  | 11 => Some TRejected
  | 12 => Some TCancelled
  | 13 => Some TReplaced
  | 14 => Some TTradeReport
  | _ => None
  end.

Record Header := mkHeader { h_type : MessageType; h_payload_size : Z }.

Record NewOrder := mkNewOrder {
  nw_account_id : AccountId;
  nw_client_order_id : ClientOrderId;
  nw_instrument_id : InstrumentId;
  nw_side : Side;
  nw_price : Price;
  nw_quantity : Quantity;
  nw_order_type : OrderType;
  nw_time_in_force : TimeInForce;
}.

Record CancelOrder := mkCancelOrder {
  cn_account_id : AccountId;
  cn_client_order_id : ClientOrderId;
  cn_instrument_id : InstrumentId;
}.

Record ReplaceOrder := mkReplaceOrder {
  rp_account_id : AccountId;
  rp_original_client_order_id : ClientOrderId;
  rp_new_client_order_id : ClientOrderId;
  rp_instrument_id : InstrumentId;
  rp_new_price : Price;
  rp_new_quantity : Quantity;
}.

Record Accepted := mkAccepted {
  ac_account_id : AccountId;
  ac_client_order_id : ClientOrderId;
  ac_exchange_order_id : ExchangeOrderId;
  ac_instrument_id : InstrumentId;
  ac_side : Side;
  ac_price : Price;
  ac_quantity : Quantity;
  ac_order_type : OrderType;
  ac_time_in_force : TimeInForce;
}.

Record Rejected := mkRejected {
  rj_account_id : AccountId;
  rj_client_order_id : ClientOrderId;
  rj_instrument_id : InstrumentId;
  rj_reason : RejectReason;
}.

Record Cancelled := mkCancelled {
  cc_account_id : AccountId;
  cc_client_order_id : ClientOrderId;
  cc_exchange_order_id : ExchangeOrderId;
  cc_instrument_id : InstrumentId;
}.

Record Replaced := mkReplaced {
  rd_account_id : AccountId;
  rd_original_client_order_id : ClientOrderId;
  rd_new_client_order_id : ClientOrderId;
  rd_exchange_order_id : ExchangeOrderId;
  rd_instrument_id : InstrumentId;
  rd_new_price : Price;
  rd_new_quantity : Quantity;
}.

Record TradeReport := mkTradeReport {
  tp_account_id : AccountId;
  tp_client_order_id : ClientOrderId;
  tp_exchange_order_id : ExchangeOrderId;
  tp_instrument_id : InstrumentId;
  tp_price : Price;
  tp_quantity : Quantity;
  tp_remaining_quantity : Quantity;
}.

Inductive Message :=
  | MsgNewOrder (m : NewOrder)
  | MsgCancelOrder (m : CancelOrder)
  | MsgReplaceOrder (m : ReplaceOrder)
  | MsgAccepted (m : Accepted)
  | MsgRejected (m : Rejected)
  | MsgCancelled (m : Cancelled)
  | MsgReplaced (m : Replaced)
  | MsgTradeReport (m : TradeReport).

Definition payload_size_for (t : MessageType) : Z :=
  match t with
  | TNewOrder => 8 + 8 + 4 + 1 + 8 + 8 + 1 + 1
  | TCancelOrder => 8 + 8 + 4
  | TReplaceOrder => 8 + 8 + 8 + 4 + 8 + 8
  | TAccepted => 8 + 8 + 8 + 4 + 1 + 8 + 8 + 1 + 1
  | TRejected => 8 + 8 + 4 + 1
  | TCancelled => 8 + 8 + 8 + 4
  | TReplaced => 8 + 8 + 8 + 8 + 4 + 8 + 8
  | TTradeReport => 8 + 8 + 8 + 4 + 8 + 8 + 8
  end.

Inductive DecodeError :=
  | TruncatedHeader | TruncatedPayload | InvalidMessageType | InvalidMessageSize
  | InvalidSide | InvalidOrderType | InvalidTimeInForce | InvalidRejectReason.

(** ** Encoder *)

Definition put_header (out : list Z) (t : MessageType) (payload_size : Z) : list Z :=
  let out := put_u8 out (type_to_Z t) in
  put_u16 out payload_size.

Definition encode_message (message : Message) (out : list Z) : list Z :=
  match message with
  | MsgNewOrder msg =>
      let out := put_header out TNewOrder (u16 (payload_size_for TNewOrder)) in
      let out := put_u64 out (nw_account_id msg) in
      let out := put_u64 out (nw_client_order_id msg) in
      let out := put_u32 out (nw_instrument_id msg) in
      let out := put_side out (nw_side msg) in
      let out := put_i64 out (nw_price msg) in
      let out := put_u64 out (nw_quantity msg) in
      let out := put_order_type out (nw_order_type msg) in
      put_time_in_force out (nw_time_in_force msg)
  | MsgCancelOrder msg =>
      let out := put_header out TCancelOrder (u16 (payload_size_for TCancelOrder)) in
      let out := put_u64 out (cn_account_id msg) in
      let out := put_u64 out (cn_client_order_id msg) in
      put_u32 out (cn_instrument_id msg)
  | MsgReplaceOrder msg =>
      let out := put_header out TReplaceOrder (u16 (payload_size_for TReplaceOrder)) in
      let out := put_u64 out (rp_account_id msg) in
      let out := put_u64 out (rp_original_client_order_id msg) in
      let out := put_u64 out (rp_new_client_order_id msg) in
      let out := put_u32 out (rp_instrument_id msg) in
      let out := put_i64 out (rp_new_price msg) in
      put_u64 out (rp_new_quantity msg)
  | MsgAccepted msg =>
      let out := put_header out TAccepted (u16 (payload_size_for TAccepted)) in
      let out := put_u64 out (ac_account_id msg) in
      let out := put_u64 out (ac_client_order_id msg) in
      let out := put_u64 out (ac_exchange_order_id msg) in
      let out := put_u32 out (ac_instrument_id msg) in
      let out := put_side out (ac_side msg) in
      let out := put_i64 out (ac_price msg) in
      let out := put_u64 out (ac_quantity msg) in
      let out := put_order_type out (ac_order_type msg) in
      put_time_in_force out (ac_time_in_force msg)
  | MsgRejected msg =>
      let out := put_header out TRejected (u16 (payload_size_for TRejected)) in
      let out := put_u64 out (rj_account_id msg) in
      let out := put_u64 out (rj_client_order_id msg) in
      let out := put_u32 out (rj_instrument_id msg) in
      put_reject_reason out (rj_reason msg)
  | MsgCancelled msg =>
      let out := put_header out TCancelled (u16 (payload_size_for TCancelled)) in
      let out := put_u64 out (cc_account_id msg) in
      let out := put_u64 out (cc_client_order_id msg) in
      let out := put_u64 out (cc_exchange_order_id msg) in
      put_u32 out (cc_instrument_id msg)
  | MsgReplaced msg =>
      let out := put_header out TReplaced (u16 (payload_size_for TReplaced)) in
      let out := put_u64 out (rd_account_id msg) in
      let out := put_u64 out (rd_original_client_order_id msg) in
      let out := put_u64 out (rd_new_client_order_id msg) in
      let out := put_u64 out (rd_exchange_order_id msg) in
      let out := put_u32 out (rd_instrument_id msg) in
      let out := put_i64 out (rd_new_price msg) in
      put_u64 out (rd_new_quantity msg)
  | MsgTradeReport msg =>
      let out := put_header out TTradeReport (u16 (payload_size_for TTradeReport)) in
      let out := put_u64 out (tp_account_id msg) in
      let out := put_u64 out (tp_client_order_id msg) in
      let out := put_u64 out (tp_exchange_order_id msg) in
      let out := put_u32 out (tp_instrument_id msg) in
      let out := put_i64 out (tp_price msg) in
      let out := put_u64 out (tp_quantity msg) in
      put_u64 out (tp_remaining_quantity msg)
  end.

(** ** Decoder *)

Definition decode_header (data : list Z) : Header + DecodeError :=
  if vsize data <? Z.of_nat HEADER_SIZE then inr TruncatedHeader
  else
    match
      (let r := reader (take HEADER_SIZE data) in
       '(type_raw, r) ← get_u8 r; '(payload_size, r) ← get_u16 r; Some (type_raw, payload_size))
    with
    | None => inr TruncatedHeader
    | Some (type_raw, payload_size) =>
        match type_of type_raw with
        | None => inr InvalidMessageType
        | Some t => inl (mkHeader t payload_size)
        end
    end.

Definition decode_NewOrder (r : ByteReader) : Message + DecodeError :=
  match
    ('(account_id, r) ← get_u64 r; '(client_order_id, r) ← get_u64 r;
     '(instrument_id, r) ← get_u32 r; '(side_raw, r) ← get_u8 r; '(price, r) ← get_i64 r;
     '(quantity, r) ← get_u64 r; '(order_type_raw, r) ← get_u8 r;
     '(time_in_force_raw, r) ← get_u8 r;
     Some (account_id, client_order_id, instrument_id, side_raw, price, quantity,
     order_type_raw, time_in_force_raw))
  with
  | None => inr TruncatedPayload
  | Some (account_id, client_order_id, instrument_id, side_raw, price, quantity,
  order_type_raw, time_in_force_raw) =>
      match side_of side_raw with
      | None => inr InvalidSide
      | Some side =>
          match order_type_of order_type_raw with
          | None => inr InvalidOrderType
          | Some order_type =>
              match time_in_force_of time_in_force_raw with
              | None => inr InvalidTimeInForce
              | Some time_in_force =>
                  inl (MsgNewOrder (mkNewOrder account_id client_order_id instrument_id side
                  price quantity order_type time_in_force))
              end
          end
      end
  end.

Definition decode_CancelOrder (r : ByteReader) : Message + DecodeError :=
  match
    ('(account_id, r) ← get_u64 r; '(client_order_id, r) ← get_u64 r;
     '(instrument_id, r) ← get_u32 r;
     Some (account_id, client_order_id, instrument_id))
  with
  | None => inr TruncatedPayload
  | Some (account_id, client_order_id, instrument_id) =>
      inl (MsgCancelOrder (mkCancelOrder account_id client_order_id instrument_id))
  end.

Definition decode_ReplaceOrder (r : ByteReader) : Message + DecodeError :=
  match
    ('(account_id, r) ← get_u64 r; '(original_client_order_id, r) ← get_u64 r;
     '(new_client_order_id, r) ← get_u64 r; '(instrument_id, r) ← get_u32 r;
     '(new_price, r) ← get_i64 r; '(new_quantity, r) ← get_u64 r;
     Some (account_id, original_client_order_id, new_client_order_id, instrument_id, new_price,
     new_quantity))
  with
  | None => inr TruncatedPayload
  | Some (account_id, original_client_order_id, new_client_order_id, instrument_id, new_price,
  new_quantity) =>
      inl (MsgReplaceOrder (mkReplaceOrder account_id original_client_order_id
      new_client_order_id instrument_id new_price new_quantity))
  end.

Definition decode_Accepted (r : ByteReader) : Message + DecodeError :=
  match
    ('(account_id, r) ← get_u64 r; '(client_order_id, r) ← get_u64 r;
     '(exchange_order_id, r) ← get_u64 r; '(instrument_id, r) ← get_u32 r;
     '(side_raw, r) ← get_u8 r; '(price, r) ← get_i64 r; '(quantity, r) ← get_u64 r;
     '(order_type_raw, r) ← get_u8 r; '(time_in_force_raw, r) ← get_u8 r;
     Some (account_id, client_order_id, exchange_order_id, instrument_id, side_raw, price,
     quantity, order_type_raw, time_in_force_raw))
  with
  | None => inr TruncatedPayload
  | Some (account_id, client_order_id, exchange_order_id, instrument_id, side_raw, price,
  quantity, order_type_raw, time_in_force_raw) =>
      match side_of side_raw with
      | None => inr InvalidSide
      | Some side =>
          match order_type_of order_type_raw with
          | None => inr InvalidOrderType
          | Some order_type =>
              match time_in_force_of time_in_force_raw with
              | None => inr InvalidTimeInForce
              | Some time_in_force =>
                  inl (MsgAccepted (mkAccepted account_id client_order_id exchange_order_id
                  instrument_id side price quantity order_type time_in_force))
              end
          end
      end
  end.

Definition decode_Rejected (r : ByteReader) : Message + DecodeError :=
  match
    ('(account_id, r) ← get_u64 r; '(client_order_id, r) ← get_u64 r;
     '(instrument_id, r) ← get_u32 r; '(reason_raw, r) ← get_u8 r;
     Some (account_id, client_order_id, instrument_id, reason_raw))
  with
  | None => inr TruncatedPayload
  | Some (account_id, client_order_id, instrument_id, reason_raw) =>
      match reject_reason_of reason_raw with
      | None => inr InvalidRejectReason
      | Some reason =>
          inl (MsgRejected (mkRejected account_id client_order_id instrument_id reason))
      end
  end.

Definition decode_Cancelled (r : ByteReader) : Message + DecodeError :=
  match
    ('(account_id, r) ← get_u64 r; '(client_order_id, r) ← get_u64 r;
     '(exchange_order_id, r) ← get_u64 r; '(instrument_id, r) ← get_u32 r;
     Some (account_id, client_order_id, exchange_order_id, instrument_id))
  with
  | None => inr TruncatedPayload
  | Some (account_id, client_order_id, exchange_order_id, instrument_id) =>
      inl (MsgCancelled (mkCancelled account_id client_order_id exchange_order_id
      instrument_id))
  end.

Definition decode_Replaced (r : ByteReader) : Message + DecodeError :=
  match
    ('(account_id, r) ← get_u64 r; '(original_client_order_id, r) ← get_u64 r;
     '(new_client_order_id, r) ← get_u64 r; '(exchange_order_id, r) ← get_u64 r;
     '(instrument_id, r) ← get_u32 r; '(new_price, r) ← get_i64 r;
     '(new_quantity, r) ← get_u64 r;
     Some (account_id, original_client_order_id, new_client_order_id, exchange_order_id,
     instrument_id, new_price, new_quantity))
  with
  | None => inr TruncatedPayload
  | Some (account_id, original_client_order_id, new_client_order_id, exchange_order_id,
  instrument_id, new_price, new_quantity) =>
      inl (MsgReplaced (mkReplaced account_id original_client_order_id new_client_order_id
      exchange_order_id instrument_id new_price new_quantity))
  end.

Definition decode_TradeReport (r : ByteReader) : Message + DecodeError :=
  match
    ('(account_id, r) ← get_u64 r; '(client_order_id, r) ← get_u64 r;
     '(exchange_order_id, r) ← get_u64 r; '(instrument_id, r) ← get_u32 r;
     '(price, r) ← get_i64 r; '(quantity, r) ← get_u64 r; '(remaining_quantity, r) ← get_u64 r;
     Some (account_id, client_order_id, exchange_order_id, instrument_id, price, quantity,
     remaining_quantity))
  with
  | None => inr TruncatedPayload
  | Some (account_id, client_order_id, exchange_order_id, instrument_id, price, quantity,
  remaining_quantity) =>
      inl (MsgTradeReport (mkTradeReport account_id client_order_id exchange_order_id
      instrument_id price quantity remaining_quantity))
  end.

(** [switch (header.type)] *)
Definition decode_payload (header : Header) (r : ByteReader) : Message + DecodeError :=
  match h_type header with
  | TNewOrder => decode_NewOrder r
  | TCancelOrder => decode_CancelOrder r
  | TReplaceOrder => decode_ReplaceOrder r
  | TAccepted => decode_Accepted r
  | TRejected => decode_Rejected r
  | TCancelled => decode_Cancelled r
  | TReplaced => decode_Replaced r
  | TTradeReport => decode_TradeReport r
  end.

Definition decode_message (data : list Z) : Message + DecodeError :=
  match decode_header data with
  | inr e => inr e
  | inl header =>
      if negb (h_payload_size header =? payload_size_for (h_type header))
      then inr InvalidMessageSize
      else if vsize data <? Z.of_nat HEADER_SIZE + h_payload_size header
      then inr TruncatedPayload
      else decode_payload header
             (reader (take (Z.to_nat (h_payload_size header)) (drop HEADER_SIZE data)))
  end.

(** ** Lemmas *)

Definition header_typed (h : Header) : Prop := in_u16 (h_payload_size h).

Definition header_bytes (h : Header) : list Z := put_header [] (h_type h) (h_payload_size h).

Lemma message_type_of_to t : type_of (type_to_Z t) = Some t.
Proof. by destruct t. Qed.

Lemma message_type_of_inv raw t : type_of raw = Some t → raw = type_to_Z t.
Proof. unfold type_of. repeat case_match; intros [=]; by subst. Qed.

Lemma message_type_in_u8 t : in_u8 (type_to_Z t).
Proof. by destruct t. Qed.

#[local] Hint Resolve message_type_in_u8 : legal.

Lemma message_put_header_app out t size : put_header out t size = out ++ put_header [] t size.
Proof. unfold put_header. append_fields. done. Qed.

Lemma message_length_header h : length (header_bytes h) = HEADER_SIZE.
Proof.
  unfold header_bytes, put_header. append_fields. by rewrite !length_app, !length_put.
Qed.

Lemma message_payload_size_small t : u16 (payload_size_for t) = payload_size_for t.
Proof. by destruct t. Qed.

Lemma message_decode_header_bytes h rest : header_typed h → decode_header (header_bytes h ++ rest) = inl h.
Proof.
  intros Hp. hnf in Hp. unfold decode_header, vsize.
  rewrite length_app, message_length_header, (proj2 (Z.ltb_ge _ _)) by lia.
  rewrite take_app_length' by (by rewrite message_length_header).
  start_reading (header_bytes h). unfold header_bytes, put_header in Hu. revert Hu. append_fields.
  intros Hu. rewrite <-(app_nil_r (put_u16 [] _)) in Hu. read_fields. simpl.
  rewrite message_type_of_to. by destruct h.
Qed.

Lemma message_decode_header_inv data h : Forall in_u8 data → decode_header data = inl h →
  header_typed h ∧ ∃ rest, data = header_bytes h ++ rest.
Proof.
  intros Hb. unfold decode_header. destruct (Z.ltb_spec (vsize data) (Z.of_nat HEADER_SIZE)); [done|].
  apply (Forall_take _ HEADER_SIZE) in Hb as Hb'. revert Hb'.
  assert (length (take HEADER_SIZE data) = HEADER_SIZE) as Hl.
  { rewrite length_take_le; [done|]. unfold vsize in *. lia. }
  start_reading (take HEADER_SIZE data). intros Hb'. cbv zeta.
  destruct (mbind _ (get_u8 _)) as [[t size]|] eqn:E; [|done].
  rewrite <-Hu in Hb'. unread_fields. injection E as <- <-.
  destruct (type_of a) as [ty|] eqn:Et; [|done]. intros [= <-].
  split; [done|]. exists (drop HEADER_SIZE data). apply message_type_of_inv in Et. subst.
  rewrite <-(take_drop HEADER_SIZE data) at 1. f_equal. rewrite <-Hu in *. clear Hu. gather_fields.
  eapply nothing_left; [|by rewrite Hl, message_length_header].
  unfold header_bytes, put_header. append_fields. exact Hu0.
Qed.

Lemma decode_message_frame data : decode_message data =
  decode_frame HEADER_SIZE decode_header h_payload_size (λ h, payload_size_for (h_type h))
    InvalidMessageSize TruncatedPayload inr decode_payload data.
Proof. done. Qed.

#[export] Instance message_header_codec :
  HeaderCodec HEADER_SIZE decode_header h_payload_size header_bytes header_typed.
Proof.
  split; [exact message_length_header|by intros h [??]|intros; by apply message_decode_header_bytes|].
  apply message_decode_header_inv.
Qed.

(** ** The payloads *)

Definition message_typed (msg : Message) : Prop :=
  match msg with
  | MsgNewOrder m =>
      in_u64 (nw_account_id m) ∧ in_u64 (nw_client_order_id m) ∧ in_u32 (nw_instrument_id m) ∧
      in_i64 (nw_price m) ∧ in_u64 (nw_quantity m)
  | MsgCancelOrder m =>
      in_u64 (cn_account_id m) ∧ in_u64 (cn_client_order_id m) ∧ in_u32 (cn_instrument_id m)
  | MsgReplaceOrder m =>
      in_u64 (rp_account_id m) ∧ in_u64 (rp_original_client_order_id m) ∧
      in_u64 (rp_new_client_order_id m) ∧ in_u32 (rp_instrument_id m) ∧
      in_i64 (rp_new_price m) ∧ in_u64 (rp_new_quantity m)
  | MsgAccepted m =>
      in_u64 (ac_account_id m) ∧ in_u64 (ac_client_order_id m) ∧
      in_u64 (ac_exchange_order_id m) ∧ in_u32 (ac_instrument_id m) ∧ in_i64 (ac_price m) ∧
      in_u64 (ac_quantity m)
  | MsgRejected m =>
      in_u64 (rj_account_id m) ∧ in_u64 (rj_client_order_id m) ∧ in_u32 (rj_instrument_id m)
  | MsgCancelled m =>
      in_u64 (cc_account_id m) ∧ in_u64 (cc_client_order_id m) ∧
      in_u64 (cc_exchange_order_id m) ∧ in_u32 (cc_instrument_id m)
  | MsgReplaced m =>
      in_u64 (rd_account_id m) ∧ in_u64 (rd_original_client_order_id m) ∧
      in_u64 (rd_new_client_order_id m) ∧ in_u64 (rd_exchange_order_id m) ∧
      in_u32 (rd_instrument_id m) ∧ in_i64 (rd_new_price m) ∧ in_u64 (rd_new_quantity m)
  | MsgTradeReport m =>
      in_u64 (tp_account_id m) ∧ in_u64 (tp_client_order_id m) ∧
      in_u64 (tp_exchange_order_id m) ∧ in_u32 (tp_instrument_id m) ∧ in_i64 (tp_price m) ∧
      in_u64 (tp_quantity m) ∧ in_u64 (tp_remaining_quantity m)
  end.

Definition message_header (msg : Message) : Header :=
  let t := match msg with
           | MsgNewOrder _ => TNewOrder
           | MsgCancelOrder _ => TCancelOrder
           | MsgReplaceOrder _ => TReplaceOrder
           | MsgAccepted _ => TAccepted
           | MsgRejected _ => TRejected
           | MsgCancelled _ => TCancelled
           | MsgReplaced _ => TReplaced
           | MsgTradeReport _ => TTradeReport
           end in
  mkHeader t (payload_size_for t).

Definition message_bytes (msg : Message) : list Z :=
  match msg with
  | MsgNewOrder m =>
      put_u64 [] (nw_account_id m) ++ put_u64 [] (nw_client_order_id m) ++
      put_u32 [] (nw_instrument_id m) ++ put_u8 [] (Side_to_Z (nw_side m)) ++
      put_i64 [] (nw_price m) ++ put_u64 [] (nw_quantity m) ++
      put_u8 [] (OrderType_to_Z (nw_order_type m)) ++
      put_u8 [] (TimeInForce_to_Z (nw_time_in_force m)) ++ []
  | MsgCancelOrder m =>
      put_u64 [] (cn_account_id m) ++ put_u64 [] (cn_client_order_id m) ++
      put_u32 [] (cn_instrument_id m) ++ []
  | MsgReplaceOrder m =>
      put_u64 [] (rp_account_id m) ++ put_u64 [] (rp_original_client_order_id m) ++
      put_u64 [] (rp_new_client_order_id m) ++ put_u32 [] (rp_instrument_id m) ++
      put_i64 [] (rp_new_price m) ++ put_u64 [] (rp_new_quantity m) ++ []
  | MsgAccepted m =>
      put_u64 [] (ac_account_id m) ++ put_u64 [] (ac_client_order_id m) ++
      put_u64 [] (ac_exchange_order_id m) ++ put_u32 [] (ac_instrument_id m) ++
      put_u8 [] (Side_to_Z (ac_side m)) ++ put_i64 [] (ac_price m) ++
      put_u64 [] (ac_quantity m) ++ put_u8 [] (OrderType_to_Z (ac_order_type m)) ++
      put_u8 [] (TimeInForce_to_Z (ac_time_in_force m)) ++ []
  | MsgRejected m =>
      put_u64 [] (rj_account_id m) ++ put_u64 [] (rj_client_order_id m) ++
      put_u32 [] (rj_instrument_id m) ++ put_u8 [] (RejectReason.to_Z (rj_reason m)) ++ []
  | MsgCancelled m =>
      put_u64 [] (cc_account_id m) ++ put_u64 [] (cc_client_order_id m) ++
      put_u64 [] (cc_exchange_order_id m) ++ put_u32 [] (cc_instrument_id m) ++ []
  | MsgReplaced m =>
      put_u64 [] (rd_account_id m) ++ put_u64 [] (rd_original_client_order_id m) ++
      put_u64 [] (rd_new_client_order_id m) ++ put_u64 [] (rd_exchange_order_id m) ++
      put_u32 [] (rd_instrument_id m) ++ put_i64 [] (rd_new_price m) ++
      put_u64 [] (rd_new_quantity m) ++ []
  | MsgTradeReport m =>
      put_u64 [] (tp_account_id m) ++ put_u64 [] (tp_client_order_id m) ++
      put_u64 [] (tp_exchange_order_id m) ++ put_u32 [] (tp_instrument_id m) ++
      put_i64 [] (tp_price m) ++ put_u64 [] (tp_quantity m) ++
      put_u64 [] (tp_remaining_quantity m) ++ []
  end.

Lemma encode_message_bytes msg out :
  encode_message msg out = out ++ header_bytes (message_header msg) ++ message_bytes msg.
Proof.
  destruct msg; cbn -[payload_size_for app put_u8 put_u16 put_u32 put_u64 put_i64 put_header];
    unfold put_side, put_order_type, put_time_in_force, put_reject_reason; append_fields;
    rewrite message_put_header_app, message_payload_size_small, <-!app_assoc, ?app_nil_r; done.
Qed.

Lemma message_length_payload msg : vsize (message_bytes msg) = h_payload_size (message_header msg).
Proof. unfold vsize. destruct msg; cbn [message_bytes]; by rewrite !length_app, !length_put. Qed.

Lemma message_header_ok msg : header_typed (message_header msg) ∧
  h_payload_size (message_header msg) = payload_size_for (h_type (message_header msg)).
Proof. by destruct msg. Qed.

Lemma message_decode_payload_bytes msg : message_typed msg →
  decode_payload (message_header msg) (reader (message_bytes msg)) = inl msg.
Proof.
  start_reading (message_bytes msg).
  destruct msg as [m|m|m|m|m|m|m|m]; cbn [message_bytes] in Hu; intros Hc; hnf in Hc; unpack;
    cbn -[get_u8 get_u32 get_u64 get_i64];
    [ unfold decode_NewOrder
    | unfold decode_CancelOrder
    | unfold decode_ReplaceOrder
    | unfold decode_Accepted
    | unfold decode_Rejected
    | unfold decode_Cancelled
    | unfold decode_Replaced
    | unfold decode_TradeReport ];
    read_fields; rewrite ?side_of_to, ?order_type_of_to, ?time_in_force_of_to, ?reject_reason_of_to;
    by destruct m.
Qed.

(** One payload decoder, read backwards: its fields are all of the payload. *)
Ltac unread_payload :=
  lazymatch goal with
  | |- (match ?m with Some _ => _ | None => _ end = _) → _ =>
      let x := fresh "x" in let E := fresh "E" in
      destruct m as [x|] eqn:E; [|done]; unread_fields; injection E as <-
  end;
  repeat lazymatch goal with
  | |- (match ?m with Some _ => _ | None => _ end = _) → _ =>
      let x := fresh "x" in let E := fresh "E" in
      destruct m as [x|] eqn:E; [|done];
      first [apply side_of_inv in E|apply order_type_of_inv in E
            |apply time_in_force_of_inv in E|apply reject_reason_of_inv in E]
  end;
  intros [= <-]; subst; split; [done|]; split; [done|]; gather_fields; by exhaust_fields.

Lemma message_decode_payload_inv h payload msg : Forall in_u8 payload →
  h_payload_size h = payload_size_for (h_type h) → vsize payload = h_payload_size h →
  decode_payload h (reader payload) = inl msg →
  message_typed msg ∧ h = message_header msg ∧ payload = message_bytes msg.
Proof.
  intros Hb Hp Hl. assert (vsize payload = payload_size_for (h_type h)) as Hl' by lia.
  rewrite <-(proj2 (reader_start payload)) in Hb. revert Hb. start_reading payload. intros Hb.
  destruct h as [ty size]. simpl in *. unfold decode_payload. simpl. destruct ty;
    [ unfold decode_NewOrder
    | unfold decode_CancelOrder
    | unfold decode_ReplaceOrder
    | unfold decode_Accepted
    | unfold decode_Rejected
    | unfold decode_Cancelled
    | unfold decode_Replaced
    | unfold decode_TradeReport ];
    unread_payload.
Qed.

#[export] Instance message_payload_codec :
  PayloadCodec h_payload_size (λ h, payload_size_for (h_type h)) inr decode_payload
    (header_typed := header_typed) inl message_typed message_header message_bytes.
Proof.
  split; [done|by intros; apply message_header_ok|apply message_length_payload
         |apply message_decode_payload_bytes|].
  intros h p m _. apply message_decode_payload_inv.
Qed.

Lemma encode_message_frame msg : encode_message msg [] = frame_of (header_bytes := header_bytes)
  (header_of := message_header) (payload_of := message_bytes) msg.
Proof. apply encode_message_bytes. Qed.

(** Order-entry messages are a bijective code: bytes decode to a message exactly
    when they start with what the encoder writes for it. *)
Theorem message_frames data msg : Forall in_u8 data →
  decode_message data = inl msg ↔ message_typed msg ∧ ∃ rest, data = encode_message msg [] ++ rest.
Proof.
  intros Hb. rewrite encode_message_frame, decode_message_frame. split; [by apply (frame_encodes _ _ _ _ _ _ _ _ (PC := message_payload_codec))|].
  intros (Hm & rest & ->). by apply (frame_decodes _ _ _ _ _ _ _ _ (PC := message_payload_codec)).
Qed.

Definition sample_report : Message := MsgTradeReport (mkTradeReport 1 2 3 7 250 5 0).

Lemma message_frames_witness :
  Forall in_u8 (encode_message sample_report []) ∧
  (decode_message (encode_message sample_report []) = inl sample_report ↔ message_typed sample_report ∧
    ∃ rest, encode_message sample_report [] = encode_message sample_report [] ++ rest).
Proof.
  assert (Forall in_u8 (encode_message sample_report [])) as Hb.
  { unfold in_u8. by apply (bool_decide_unpack _). }
  split; [exact Hb|]. exact (message_frames (encode_message sample_report []) sample_report Hb).
Defined.

End OrderEntryCodec.
