(* ===== verification/Ledger.v ===== *)
(** * The ledger ([exchange/ledger])

    Per-account cash and positions, kept up to date from the engine's events
    ([ledger.hpp], [ledger.cpp]). Cash is a signed 64-bit integer, quantities
    unsigned ones; both wrap here as they do there. *)

From S2P Require Import Prelude Types.

Module Ledger.

Abbreviation Balance := Z (only parsing).

Record AccountBalances := mkBalances {
  cash_total : Balance;
  cash_reserved : Balance;
  position_total : gmap InstrumentId Quantity;
  position_reserved : gmap InstrumentId Quantity;
}.

Definition no_balances : AccountBalances := mkBalances 0 0 ∅ ∅.

(** [Hold], and [HoldView], its public copy. *)
Record Hold := mkHold {
  hd_instrument_id : InstrumentId;
  hd_side : Side;
  hd_limit_price : Price;
  hd_remaining : Quantity;
}.

Abbreviation HoldKey := (AccountId * ClientOrderId)%type.

Record t := mk {
  accounts_ : gmap AccountId AccountBalances;
  holds_ : gmap HoldKey Hold;
}.

Definition empty : t := mk ∅ ∅.

(** [accounts_[account_id]] and [find]: an account never seen is all zero. *)
Definition balances (account_id : AccountId) (l : t) : AccountBalances :=
  default no_balances (accounts_ l !! account_id).

(** Change the account [accounts_[account_id]] refers to, which [operator[]]
    creates where it is missing. *)
Definition update_account (account_id : AccountId) (f : AccountBalances → AccountBalances) (l : t) : t :=
  mk (<[account_id := f (balances account_id l)]> (accounts_ l)) (holds_ l).

(** [positions[instrument_id] += amount], and [-=]. *)
Definition position_add (i : InstrumentId) (amount : Quantity) (m : gmap InstrumentId Quantity) :
    gmap InstrumentId Quantity :=
  <[i := u64 (default 0 (m !! i) + amount)]> m.

Definition position_sub (i : InstrumentId) (amount : Quantity) (m : gmap InstrumentId Quantity) :
    gmap InstrumentId Quantity :=
  <[i := u64 (default 0 (m !! i) - amount)]> m.

(** [static_cast<Balance>(quantity) * price] *)
Definition notional (quantity : Quantity) (price : Price) : Balance := i64 (i64 quantity * price).

Definition add_cash (amount : Balance) (b : AccountBalances) : AccountBalances :=
  mkBalances (i64 (cash_total b + amount)) (cash_reserved b) (position_total b) (position_reserved b).

Definition reserve_cash (amount : Balance) (b : AccountBalances) : AccountBalances :=
  mkBalances (cash_total b) (i64 (cash_reserved b + amount)) (position_total b) (position_reserved b).

Definition on_total (f : gmap InstrumentId Quantity → gmap InstrumentId Quantity)
    (b : AccountBalances) : AccountBalances :=
  mkBalances (cash_total b) (cash_reserved b) (f (position_total b)) (position_reserved b).

Definition on_reserved (f : gmap InstrumentId Quantity → gmap InstrumentId Quantity)
    (b : AccountBalances) : AccountBalances :=
  mkBalances (cash_total b) (cash_reserved b) (position_total b) (f (position_reserved b)).

(** ** Operations *)

Definition deposit_cash (account_id : AccountId) (amount : Balance) (l : t) : t :=
  update_account account_id (add_cash amount) l.

Definition deposit_position (account_id : AccountId) (instrument_id : InstrumentId)
    (amount : Quantity) (l : t) : t :=
  update_account account_id (on_total (position_add instrument_id amount)) l.

Definition available_cash (account_id : AccountId) (l : t) : Balance :=
  match accounts_ l !! account_id with
  | None => 0
  | Some b => i64 (cash_total b - cash_reserved b)
  end.

Definition available_position (account_id : AccountId) (instrument_id : InstrumentId) (l : t) :
    Quantity :=
  match accounts_ l !! account_id with
  | None => 0
  | Some b => u64 (default 0 (position_total b !! instrument_id) -
                   default 0 (position_reserved b !! instrument_id))
  end.

Definition find_hold (account_id : AccountId) (client_order_id : ClientOrderId) (l : t) : option Hold :=
  holds_ l !! (account_id, client_order_id).

Definition with_holds (holds : gmap HoldKey Hold) (l : t) : t := mk (accounts_ l) holds.

Definition open_hold (account_id : AccountId) (client_order_id : ClientOrderId)
    (instrument_id : InstrumentId) (side : Side) (limit_price : Price) (quantity : Quantity) (l : t) : t :=
  if quantity =? 0 then l
  else
    let l := update_account account_id
      (match side with
       | Buy => reserve_cash (notional quantity limit_price)
       | Sell => on_reserved (position_add instrument_id quantity)
       end) l in
    with_holds (<[(account_id, client_order_id) :=
      mkHold instrument_id side limit_price quantity]> (holds_ l)) l.

Definition release_hold_fully (account_id : AccountId) (hold : Hold) (l : t) : t :=
  if hd_remaining hold =? 0 then l
  else update_account account_id
    (match hd_side hold with
     | Buy => reserve_cash (- notional (hd_remaining hold) (hd_limit_price hold))
     | Sell => on_reserved (position_sub (hd_instrument_id hold) (hd_remaining hold))
     end) l.

(** The reservation of the filled slice, and the hold that is left. *)
Definition settle_hold (leg : TradeCounterparty) (side : Side) (instrument_id : InstrumentId)
    (trade_quantity : Quantity) (l : t) : t :=
  let key := (cp_account_id leg, cp_client_order_id leg) in
  match holds_ l !! key with
  | None => l
  | Some hold =>
      let l := update_account (cp_account_id leg)
        (match side with
         | Buy => reserve_cash (- notional trade_quantity (hd_limit_price hold))
         | Sell => on_reserved (position_sub instrument_id trade_quantity)
         end) l in
      with_holds
        (if cp_remaining_quantity leg =? 0 then delete key (holds_ l)
         else <[key := mkHold (hd_instrument_id hold) (hd_side hold) (hd_limit_price hold)
                         (cp_remaining_quantity leg)]> (holds_ l)) l
  end.

(** The movement of cash and units. *)
Definition settle_totals (account_id : AccountId) (side : Side) (instrument_id : InstrumentId)
    (trade_price : Price) (trade_quantity : Quantity) (l : t) : t :=
  update_account account_id
    (match side with
     | Buy => λ b, on_total (position_add instrument_id trade_quantity)
                     (add_cash (- notional trade_quantity trade_price) b)
     | Sell => λ b, on_total (position_sub instrument_id trade_quantity)
                      (add_cash (notional trade_quantity trade_price) b)
     end) l.

Definition settle_leg (leg : TradeCounterparty) (side : Side) (instrument_id : InstrumentId)
    (trade_price : Price) (trade_quantity : Quantity) (l : t) : t :=
  let l := settle_hold leg side instrument_id trade_quantity l in
  settle_totals (cp_account_id leg) side instrument_id trade_price trade_quantity l.

Definition on_order_accepted (event : OrderAccepted) (l : t) : t :=
  if negb (bool_decide (oa_time_in_force event = GTC)) then l
  else open_hold (oa_account_id event) (oa_client_order_id event) (oa_instrument_id event)
         (oa_side event) (oa_price event) (oa_quantity event) l.

Definition on_order_replaced (event : OrderReplaced) (l : t) : t :=
  let key := (orp_account_id event, orp_original_client_order_id event) in
  match holds_ l !! key with
  | None => l
  | Some old_hold =>
      let l := release_hold_fully (orp_account_id event) old_hold l in
      let l := with_holds (delete key (holds_ l)) l in
      open_hold (orp_account_id event) (orp_new_client_order_id event) (orp_instrument_id event)
        (hd_side old_hold) (orp_new_price event) (orp_new_quantity event) l
  end.

Definition on_order_cancelled (event : OrderCancelled) (l : t) : t :=
  let key := (oc_account_id event, oc_client_order_id event) in
  match holds_ l !! key with
  | None => l
  | Some hold =>
      let l := release_hold_fully (oc_account_id event) hold l in
      with_holds (delete key (holds_ l)) l
  end.

Definition on_trade_executed (event : TradeExecuted) (l : t) : t :=
  let l := settle_leg (te_buyer event) Buy (te_instrument_id event) (te_price event)
             (te_quantity event) l in
  settle_leg (te_seller event) Sell (te_instrument_id event) (te_price event) (te_quantity event) l.

Definition apply (event : ExchangeEvent) (l : t) : t :=
  match event with
  | EvAccepted ev => on_order_accepted ev l
  | EvReplaced ev => on_order_replaced ev l
  | EvCancelled ev => on_order_cancelled ev l
  | EvTrade ev => on_trade_executed ev l
  | EvRejected _ | EvAdded _ | EvReduced _ | EvRemoved _ => l
  end.

(** A whole stream. *)
Definition apply_all (events : list ExchangeEvent) (l : t) : t :=
  foldl (λ l event, apply event l) l events.

(** ** Sums over accounts *)

(** [u64] and [i64] of a sum determine each other; congruence modulo [2 ^ 64] is
    stated with [i64]. *)
Definition total_cash (l : t) : Z := msum (λ _ b, cash_total b) (accounts_ l).

Definition total_position (i : InstrumentId) (l : t) : Z :=
  msum (λ _ b, default 0 (position_total b !! i)) (accounts_ l).

Lemma balances_update a a' f l :
  balances a (update_account a' f l) = if decide (a = a') then f (balances a l) else balances a l.
Proof.
  unfold balances at 1, update_account. simpl. case_decide; [subst; by rewrite lookup_insert_eq|].
  by rewrite lookup_insert_ne.
Qed.

Lemma msum_update (g : AccountBalances → Z) a f l : g no_balances = 0 →
  msum (λ _ b, g b) (accounts_ (update_account a f l)) =
    msum (λ _ b, g b) (accounts_ l) + (g (f (balances a l)) - g (balances a l)).
Proof.
  intros H0. unfold update_account. simpl. rewrite msum_insert. unfold balances.
  destruct (accounts_ l !! a); simpl; lia.
Qed.

Lemma reserve_keeps_totals (g : AccountBalances → Z) a side n f l : g no_balances = 0 →
  (∀ b n m, g (mkBalances (cash_total b) n (position_total b) m) = g b) →
  msum (λ _ b, g b) (accounts_ (update_account a
    (match side with Buy => reserve_cash n | Sell => on_reserved f end) l)) =
  msum (λ _ b, g b) (accounts_ l).
Proof.
  intros H0 Hg. rewrite msum_update by done.
  destruct side; simpl; unfold reserve_cash, on_reserved; rewrite Hg; lia.
Qed.

(** What each leg of a trade moves, of cash and of the units of each instrument. *)
Lemma settle_leg_totals leg side i p q l (g : AccountBalances → Z) : g no_balances = 0 →
  (∀ b n m, g (mkBalances (cash_total b) n (position_total b) m) = g b) →
  msum (λ _ b, g b) (accounts_ (settle_leg leg side i p q l)) =
    let b := balances (cp_account_id leg) (settle_hold leg side i q l) in
    msum (λ _ b, g b) (accounts_ l) +
    (g (match side with
        | Buy => on_total (position_add i q) (add_cash (- notional q p) b)
        | Sell => on_total (position_sub i q) (add_cash (notional q p) b)
        end) - g b).
Proof.
  intros H0 Hg. unfold settle_leg, settle_totals. rewrite msum_update by done.
  assert (msum (λ _ b, g b) (accounts_ (settle_hold leg side i q l)) = msum (λ _ b, g b) (accounts_ l)) as ->.
  { unfold settle_hold. destruct (holds_ l !! _); [|done]. by apply reserve_keeps_totals. }
  by destruct side.
Qed.

Lemma settle_cash leg side i p q l :
  total_cash (settle_leg leg side i p q l) ≡₆₄
    total_cash l + match side with Buy => - (q * p) | Sell => q * p end.
Proof.
  unfold total_cash. rewrite settle_leg_totals by done. simpl.
  set (b := balances _ _). clearbody b. set (T := msum _ _). clearbody T.
  destruct side; simpl; unfold notional; word.
Qed.

Lemma settle_units leg side i j p q l :
  total_position j (settle_leg leg side i p q l) ≡₆₄
    total_position j l +
    if decide (i = j) then match side with Buy => q | Sell => - q end else 0.
Proof.
  unfold total_position. rewrite (settle_leg_totals _ _ _ _ _ _ (λ b, default 0 (position_total b !! j)))
    by done. simpl.
  set (b := balances _ _). clearbody b. set (T := msum _ _). clearbody T.
  unfold position_add, position_sub. case_decide as E; [subst|].
  - destruct side; simpl; rewrite lookup_insert_eq; simpl; word.
  - destruct side; simpl; rewrite lookup_insert_ne by done; simpl; word.
Qed.

(** The operations that reserve and release leave every total alone. *)
Lemma open_hold_totals (g : AccountBalances → Z) a c i side p q l : g no_balances = 0 →
  (∀ b n m, g (mkBalances (cash_total b) n (position_total b) m) = g b) →
  msum (λ _ b, g b) (accounts_ (open_hold a c i side p q l)) = msum (λ _ b, g b) (accounts_ l).
Proof. intros. unfold open_hold. case_bool; [done|]. by apply reserve_keeps_totals. Qed.

Lemma release_hold_totals (g : AccountBalances → Z) a h l : g no_balances = 0 →
  (∀ b n m, g (mkBalances (cash_total b) n (position_total b) m) = g b) →
  msum (λ _ b, g b) (accounts_ (release_hold_fully a h l)) = msum (λ _ b, g b) (accounts_ l).
Proof. intros. unfold release_hold_fully. case_bool; [done|]. by apply reserve_keeps_totals. Qed.

Lemma apply_other_totals (g : AccountBalances → Z) ev l : g no_balances = 0 →
  (∀ b n m, g (mkBalances (cash_total b) n (position_total b) m) = g b) →
  (∀ t, ev ≠ EvTrade t) →
  msum (λ _ b, g b) (accounts_ (apply ev l)) = msum (λ _ b, g b) (accounts_ l).
Proof.
  intros H0 Hg Hev. destruct ev as [e| |e|e|e| | |]; simpl; try done.
  - unfold on_order_accepted. case_bool; [done|]. by apply open_hold_totals.
  - unfold on_order_cancelled. destruct (holds_ l !! _); [|done]. by apply release_hold_totals.
  - unfold on_order_replaced. destruct (holds_ l !! _); [|done].
    rewrite open_hold_totals by done. by apply release_hold_totals.
  - by destruct (Hev e).
Qed.

Lemma apply_conserves ev l :
  total_cash (apply ev l) ≡₆₄ total_cash l ∧
  ∀ i, total_position i (apply ev l) ≡₆₄ total_position i l.
Proof.
  destruct ev as [e|e|e|e|e|e|e|e]; try (split; intros; apply eq64_eq;
    by apply (apply_other_totals (λ b, cash_total b)) || by apply (apply_other_totals (λ b, default 0 (position_total b !! _)))).
  simpl. unfold on_trade_executed. split.
  - rewrite !settle_cash. apply eq64_eq. lia.
  - intros i. rewrite !settle_units. apply eq64_eq. case_decide; lia.
Qed.

Lemma apply_all_conserves events l :
  total_cash (apply_all events l) ≡₆₄ total_cash l ∧
  ∀ i, total_position i (apply_all events l) ≡₆₄ total_position i l.
Proof.
  revert l. induction events as [|ev events IH]; intros l; [done|]. simpl.
  destruct (IH (apply ev l)) as [Hc Hp]. destruct (apply_conserves ev l) as [Hc' Hp'].
  split; [by rewrite Hc|]. intros i. by rewrite Hp.
Qed.

(** C10: a stream of events moves cash and units between accounts and never makes or
    destroys any: the sums over all accounts are, as 64-bit words, what they were. *)
Theorem ledger_conserves events l :
  total_cash (apply_all events l) ≡₆₄ total_cash l ∧
  ∀ i, total_position i (apply_all events l) ≡₆₄ total_position i l.
Proof. apply apply_all_conserves. Qed.

(** ** Reservations and holds *)

(** What hold [h] of key [k] locks of account [a]'s cash, and of its units of [i]. *)
Definition locked_cash (a : AccountId) (k : HoldKey) (h : Hold) : Z :=
  if bool_decide (k.1 = a ∧ hd_side h = Buy) then hd_remaining h * hd_limit_price h else 0.

Definition locked_units (a : AccountId) (i : InstrumentId) (k : HoldKey) (h : Hold) : Z :=
  if bool_decide (k.1 = a ∧ hd_side h = Sell ∧ hd_instrument_id h = i) then hd_remaining h else 0.

(** Every account's reservations are the sum of its open holds. *)
Definition reserved_ok (l : t) : Prop := ∀ a,
  cash_reserved (balances a l) ≡₆₄ msum (locked_cash a) (holds_ l) ∧
  ∀ i, default 0 (position_reserved (balances a l) !! i) ≡₆₄ msum (locked_units a i) (holds_ l).

(** An event that the holds can account for: an order is accepted, or renamed,
    under an id without a hold, and a trade takes from a hold what it says it
    leaves. *)
Definition leg_fits (leg : TradeCounterparty) (side : Side) (i : InstrumentId) (q : Quantity) (l : t) : Prop :=
  ∀ h, holds_ l !! (cp_account_id leg, cp_client_order_id leg) = Some h →
    hd_side h = side ∧ hd_instrument_id h = i ∧ hd_remaining h = q + cp_remaining_quantity leg.

Definition fits (ev : ExchangeEvent) (l : t) : Prop :=
  match ev with
  | EvAccepted e => holds_ l !! (oa_account_id e, oa_client_order_id e) = None
  | EvReplaced e =>
      orp_new_client_order_id e = orp_original_client_order_id e ∨
      holds_ l !! (orp_account_id e, orp_new_client_order_id e) = None
  | EvTrade e =>
      leg_fits (te_buyer e) Buy (te_instrument_id e) (te_quantity e) l ∧
      leg_fits (te_seller e) Sell (te_instrument_id e) (te_quantity e)
        (settle_leg (te_buyer e) Buy (te_instrument_id e) (te_price e) (te_quantity e) l)
  | _ => True
  end.

Fixpoint fits_all (events : list ExchangeEvent) (l : t) : Prop :=
  match events with
  | [] => True
  | ev :: events => fits ev l ∧ fits_all events (apply ev l)
  end.

(** One account's reservation moves by what the holds move by. *)
Lemma reserved_ok_change a f holds l : reserved_ok l →
  (∀ a', a' ≠ a → msum (locked_cash a') holds = msum (locked_cash a') (holds_ l) ∧
     ∀ i, msum (locked_units a' i) holds = msum (locked_units a' i) (holds_ l)) →
  cash_reserved (f (balances a l)) - cash_reserved (balances a l) ≡₆₄
    msum (locked_cash a) holds - msum (locked_cash a) (holds_ l) →
  (∀ i, default 0 (position_reserved (f (balances a l)) !! i) -
        default 0 (position_reserved (balances a l) !! i) ≡₆₄
    msum (locked_units a i) holds - msum (locked_units a i) (holds_ l)) →
  reserved_ok (with_holds holds (update_account a f l)).
Proof.
  intros HR Hother Hc Hu a'. unfold with_holds. simpl.
  change (balances a' {| accounts_ := _; holds_ := holds |}) with (balances a' (update_account a f l)).
  rewrite balances_update. case_decide as E; [subst a'|].
  - destruct (HR a) as [HRc HRu]. split.
    + transitivity (cash_reserved (balances a l) +
        (cash_reserved (f (balances a l)) - cash_reserved (balances a l))); [apply eq64_eq; lia|].
      rewrite Hc, HRc. apply eq64_eq. lia.
    + intros i. transitivity (default 0 (position_reserved (balances a l) !! i) +
        (default 0 (position_reserved (f (balances a l)) !! i) -
         default 0 (position_reserved (balances a l) !! i))); [apply eq64_eq; lia|].
      rewrite Hu, HRu. apply eq64_eq. lia.
  - destruct (Hother a' ltac:(congruence)) as [-> Hu']. destruct (HR a') as [? ?].
    split; [done|]. intros i. by rewrite Hu'.
Qed.

Definition put_hold (k : HoldKey) (oh : option Hold) (m : gmap HoldKey Hold) : gmap HoldKey Hold :=
  match oh with Some h => <[k := h]> m | None => delete k m end.

Lemma msum_put (f : HoldKey → Hold → Z) k oh m :
  msum f (put_hold k oh m) = msum f m + from_option (f k) 0 oh - from_option (f k) 0 (m !! k).
Proof. destruct oh; simpl; [apply msum_insert|]. rewrite msum_delete. lia. Qed.

Lemma locked_other a a' c oh i : a' ≠ a →
  from_option (locked_cash a' (a, c)) 0 oh = 0 ∧ from_option (locked_units a' i (a, c)) 0 oh = 0.
Proof.
  intros Hne. unfold locked_cash, locked_units. destruct oh; simpl; [|done].
  rewrite !bool_decide_eq_false_2; [done|naive_solver..].
Qed.

(** Hold [(a, c)] becomes [oh] while account [a] changes by [f]. *)
Lemma reserved_ok_put a c oh f l : reserved_ok l →
  (let b := balances a l in
   let was := holds_ l !! (a, c) in
   cash_reserved (f b) - cash_reserved b ≡₆₄
     from_option (locked_cash a (a, c)) 0 oh - from_option (locked_cash a (a, c)) 0 was ∧
   ∀ i, default 0 (position_reserved (f b) !! i) - default 0 (position_reserved b !! i) ≡₆₄
     from_option (locked_units a i (a, c)) 0 oh - from_option (locked_units a i (a, c)) 0 was) →
  reserved_ok (with_holds (put_hold (a, c) oh (holds_ l)) (update_account a f l)).
Proof.
  intros HR [Hc Hu]. apply reserved_ok_change; [done|..].
  - intros a' Hne. split; [|intros i]; rewrite msum_put;
      [rewrite !(proj1 (locked_other a a' c _ 0 Hne)); lia|].
    rewrite !(proj2 (locked_other a a' c _ i Hne)). lia.
  - rewrite Hc, msum_put. apply eq64_eq. lia.
  - intros i. rewrite Hu, msum_put. apply eq64_eq. lia.
Qed.

Lemma reserved_ok_ext l l' : (∀ a, balances a l' = balances a l) → holds_ l' = holds_ l →
  reserved_ok l → reserved_ok l'.
Proof. intros Hb Hh HR a. rewrite Hb, Hh. apply HR. Qed.

(** Only the totals move. *)
Lemma reserved_ok_totals a f l : reserved_ok l →
  (∀ b, cash_reserved (f b) = cash_reserved b ∧ position_reserved (f b) = position_reserved b) →
  reserved_ok (update_account a f l).
Proof.
  intros HR Hf a'. rewrite balances_update. case_decide as E; [subst a'|apply HR].
  destruct (Hf (balances a l)) as [-> ->]. apply HR.
Qed.

(** What reserving and releasing does to each amount. *)
Lemma default_position_add i j q m :
  default 0 (position_add i q m !! j) ≡₆₄ default 0 (m !! j) + if decide (i = j) then q else 0.
Proof.
  unfold position_add. case_decide; [subst; rewrite lookup_insert_eq|rewrite lookup_insert_ne by done];
    simpl; word.
Qed.

Lemma default_position_sub i j q m :
  default 0 (position_sub i q m !! j) ≡₆₄ default 0 (m !! j) - if decide (i = j) then q else 0.
Proof.
  unfold position_sub. case_decide; [subst; rewrite lookup_insert_eq|rewrite lookup_insert_ne by done];
    simpl; word.
Qed.

Lemma locked_cash_own a c h :
  locked_cash a (a, c) h = match hd_side h with Buy => hd_remaining h * hd_limit_price h | Sell => 0 end.
Proof.
  unfold locked_cash. destruct (hd_side h); [rewrite bool_decide_eq_true_2|rewrite bool_decide_eq_false_2];
    naive_solver.
Qed.

Lemma locked_units_own a c h i :
  locked_units a i (a, c) h = match hd_side h with
                              | Buy => 0
                              | Sell => if decide (hd_instrument_id h = i) then hd_remaining h else 0
                              end.
Proof.
  unfold locked_units. destruct (hd_side h); [by rewrite bool_decide_eq_false_2 by naive_solver|].
  case_decide; [rewrite bool_decide_eq_true_2|rewrite bool_decide_eq_false_2]; naive_solver.
Qed.

(** Reserve, or release, [q] of side [side] at limit [p]; [sign] is 1 or -1. *)
Lemma reserve_amounts side i p q (b : AccountBalances) :
  let f := match side with
           | Buy => reserve_cash (notional q p)
           | Sell => on_reserved (position_add i q)
           end in
  cash_reserved (f b) - cash_reserved b ≡₆₄ match side with Buy => q * p | Sell => 0 end ∧
  ∀ j, default 0 (position_reserved (f b) !! j) - default 0 (position_reserved b !! j) ≡₆₄
    match side with Buy => 0 | Sell => if decide (i = j) then q else 0 end.
Proof.
  destruct side; simpl; (split; [|intros j]); unfold notional; [word..|].
  rewrite default_position_add. apply eq64_eq. lia.
Qed.

Lemma release_amounts side i p q (b : AccountBalances) :
  let f := match side with
           | Buy => reserve_cash (- notional q p)
           | Sell => on_reserved (position_sub i q)
           end in
  cash_reserved (f b) - cash_reserved b ≡₆₄ match side with Buy => - (q * p) | Sell => 0 end ∧
  ∀ j, default 0 (position_reserved (f b) !! j) - default 0 (position_reserved b !! j) ≡₆₄
    match side with Buy => 0 | Sell => - if decide (i = j) then q else 0 end.
Proof.
  destruct side; simpl; (split; [|intros j]); unfold notional; [word..|].
  rewrite default_position_sub. apply eq64_eq. lia.
Qed.

(** ** Each operation keeps the reservations right *)

Lemma open_hold_ok a c i side p q l : reserved_ok l → holds_ l !! (a, c) = None →
  reserved_ok (open_hold a c i side p q l).
Proof.
  intros HR Hk. unfold open_hold. case_bool; [done|].
  refine (reserved_ok_put a c (Some (mkHold i side p q)) _ l HR _). rewrite Hk. cbv zeta.
  destruct (reserve_amounts side i p q (balances a l)) as [Hc Hu]. cbn [from_option].
  split; [rewrite Hc, locked_cash_own|intros j; rewrite Hu, locked_units_own];
    destruct side; simpl; apply eq64_eq; lia.
Qed.

Lemma release_ok a c h l : reserved_ok l → holds_ l !! (a, c) = Some h →
  reserved_ok (with_holds (delete (a, c) (holds_ (release_hold_fully a h l))) (release_hold_fully a h l)).
Proof.
  intros HR Hk. unfold release_hold_fully. destruct (Z.eqb_spec (hd_remaining h) 0) as [E|_].
  - eapply reserved_ok_ext; [| |apply (reserved_ok_put a c None (λ b, b) l HR)]; [|done|].
    + intros a'. unfold with_holds at 1. change (balances a' _) with (balances a' l) at 1.
      unfold with_holds. change (balances a' (mk ?x ?y)) with (balances a' (update_account a (λ b, b) l)).
      rewrite balances_update. by case_decide; subst.
    + rewrite Hk. cbn [from_option]. rewrite locked_cash_own.
      split; [|intros j; rewrite locked_units_own]; destruct (hd_side h); simpl;
        try case_decide; apply eq64_eq; rewrite ?E; lia.
  - refine (reserved_ok_put a c None _ l HR _). rewrite Hk. cbv zeta.
    destruct (release_amounts (hd_side h) (hd_instrument_id h) (hd_limit_price h) (hd_remaining h)
      (balances a l)) as [Hc Hu]. cbn [from_option].
    split; [rewrite Hc, locked_cash_own|intros j; rewrite Hu, locked_units_own];
      destruct (hd_side h); simpl; apply eq64_eq; lia.
Qed.

Lemma settle_leg_ok leg side i p q l : reserved_ok l → leg_fits leg side i q l →
  reserved_ok (settle_leg leg side i p q l).
Proof.
  intros HR Hf. unfold settle_leg, settle_totals. apply reserved_ok_totals; [|by destruct side].
  unfold settle_hold. destruct (holds_ l !! _) as [h|] eqn:Hk; [|done].
  destruct (Hf h Hk) as (Hs & Hi & Hq). set (h' := mkHold _ _ _ _).
  replace (if cp_remaining_quantity leg =? 0 then _ else _)
    with (put_hold (cp_account_id leg, cp_client_order_id leg)
            (if cp_remaining_quantity leg =? 0 then None else Some h') (holds_ l)) by by case_bool.
  refine (reserved_ok_put _ _ _ _ l HR _). rewrite Hk. cbv zeta.
  destruct (release_amounts side i (hd_limit_price h) q (balances (cp_account_id leg) l)) as [Hc Hu].
  cbn [from_option]. rewrite locked_cash_own. setoid_rewrite locked_units_own.
  split; [rewrite Hc|intros j; rewrite Hu];
    destruct (Z.eqb_spec (cp_remaining_quantity leg) 0) as [E|E]; cbn [from_option];
    rewrite ?locked_cash_own, ?locked_units_own; unfold h'; simpl; rewrite Hs, Hq, ?Hi; try rewrite E;
    destruct side; try case_decide; apply eq64_eq; lia.
Qed.

Lemma apply_ok ev l : reserved_ok l → fits ev l → reserved_ok (apply ev l).
Proof.
  intros HR Hf. destruct ev as [e|e|e|e|e|e|e|e]; simpl in *; try done.
  - unfold on_order_accepted. case_bool; [done|]. by apply open_hold_ok.
  - unfold on_order_cancelled. destruct (holds_ l !! _) as [h|] eqn:Hk; [|done].
    exact (release_ok _ _ _ _ HR Hk).
  - unfold on_order_replaced. 
    destruct (holds_ l !! (orp_account_id e, orp_original_client_order_id e)) as [h|] eqn:Hk; [|exact HR].
    apply open_hold_ok; [exact (release_ok _ _ _ _ HR Hk)|]. simpl.
    assert (holds_ (release_hold_fully (orp_account_id e) h l) = holds_ l) as ->
      by (unfold release_hold_fully; by case_bool).
    destruct Hf as [->|Hf]; [apply lookup_delete_eq|]. rewrite lookup_delete. by case_decide.
  - destruct Hf as [Hb Hs]. unfold on_trade_executed. by repeat apply settle_leg_ok.
Qed.

(** An account's reservations are exactly its open holds. Through any stream of
    events the holds can account for, the cash an account has reserved is the sum of
    quantity times limit price of its buy holds, and its reserved units the sum of its
    sell holds: nothing is reserved twice, nothing stays reserved. *)
Theorem reservations_are_holds events l : reserved_ok l → fits_all events l →
  reserved_ok (apply_all events l).
Proof.
  revert l. induction events as [|ev events IH]; intros l HR Hf; [done|].
  destruct Hf as [Hev Hf]. simpl. apply IH; [by apply apply_ok|done].
Qed.

Definition sample_events : list ExchangeEvent :=
  [EvAccepted (mkOrderAccepted 1 1 1 11 101 7 Buy 250 5 Limit GTC);
   EvAccepted (mkOrderAccepted 2 2 2 21 102 7 Sell 240 9 Limit GTC);
   EvTrade (mkTradeExecuted 3 2 7 250 5 Sell (mkCounterparty 1 11 101 0) (mkCounterparty 2 21 102 4));
   EvReplaced (mkOrderReplaced 4 3 2 21 22 102 7 240 3);
   EvCancelled (mkOrderCancelled 5 4 2 22 102 7)].

Lemma empty_ok : reserved_ok empty.
Proof. intros a. split; [done|]. by intros i. Qed.

Lemma reservations_are_holds_witness :
  reserved_ok empty ∧ fits_all sample_events empty ∧ reserved_ok (apply_all sample_events empty).
Proof.
  assert (fits_all sample_events empty) as Hf.
  { split; [done|]. split; [done|]. split; [|split; [by right|by split]].
    split; intros h Hh; vm_compute in Hh; injection Hh as <-; done. }
  split; [exact empty_ok|]. split; [exact Hf|].
  exact (reservations_are_holds sample_events empty empty_ok Hf).
Defined.

End Ledger.
