(* ===== verification/Risk.v ===== *)
(** * Pre-trade risk ([exchange/risk])

    [risk_engine.cpp] decides whether a command may reach the matching engine, from
    the ledger's balances; [risk_gated_engine.cpp] composes the check, the engine and
    the ledger behind the engine's own [process]. *)

From S2P Require Import Prelude.
From S2P Require Import Types.
From S2P Require Import Effects.
From S2P Require Import MatchingBook.
From S2P Require Import BookSpec.
From S2P Require Import MatchingEngine.
From S2P Require Import Ledger.

Module RiskEngine.
Import Ledger.

Record RiskLimits := mkLimits { max_order_quantity : Quantity }.

Definition default_limits : RiskLimits := mkLimits 1000000.

(** [RiskEngine::check(const NewOrderCommand&, ...)] *)
Definition check_new (limits : RiskLimits) (command : NewOrderCommand) (ledger : Ledger.t) :
    RejectReason :=
  if max_order_quantity limits <? no_quantity command then RejectReason.OrderTooLarge
  else
    match no_side command with
    | Buy =>
        let notional := i64 (i64 (no_quantity command) * no_price command) in
        if available_cash (no_account_id command) ledger <? notional
        then RejectReason.InsufficientFunds else RejectReason.None
    | Sell =>
        if available_position (no_account_id command) (no_instrument_id command) ledger
             <? no_quantity command
        then RejectReason.InsufficientPosition else RejectReason.None
    end.

(** [RiskEngine::check(const ReplaceOrderCommand&, ...)] *)
Definition check_replace (limits : RiskLimits) (command : ReplaceOrderCommand) (ledger : Ledger.t) :
    RejectReason :=
  if max_order_quantity limits <? ro_new_quantity command then RejectReason.OrderTooLarge
  else
    match find_hold (ro_account_id command) (ro_original_client_order_id command) ledger with
    | None => RejectReason.None
    | Some hold =>
        if negb (hd_instrument_id hold =? ro_instrument_id command) then RejectReason.None
        else
          match hd_side hold with
          | Buy =>
              let old_required := i64 (i64 (hd_remaining hold) * hd_limit_price hold) in
              let new_required := i64 (i64 (ro_new_quantity command) * ro_new_price command) in
              let extra_required := Z.max 0 (i64 (new_required - old_required)) in
              if available_cash (ro_account_id command) ledger <? extra_required
              then RejectReason.InsufficientFunds else RejectReason.None
          | Sell =>
              let extra_required :=
                if hd_remaining hold <? ro_new_quantity command
                then u64 (ro_new_quantity command - hd_remaining hold) else 0 in
              if available_position (ro_account_id command) (ro_instrument_id command) ledger
                   <? extra_required
              then RejectReason.InsufficientPosition else RejectReason.None
          end
    end.

(** ** What the checks mean, in exact arithmetic *)

(** Quantity times price, as the money it is. *)
Definition affordable_new (limits : RiskLimits) (c : NewOrderCommand) (l : Ledger.t) : Prop :=
  no_quantity c ≤ max_order_quantity limits ∧
  match no_side c with
  | Buy => no_quantity c * no_price c ≤ available_cash (no_account_id c) l
  | Sell => no_quantity c ≤ available_position (no_account_id c) (no_instrument_id c) l
  end.

(** The money a replace needs beyond what its original holds. *)
Definition affordable_replace (limits : RiskLimits) (c : ReplaceOrderCommand) (l : Ledger.t) : Prop :=
  ro_new_quantity c ≤ max_order_quantity limits ∧
  ∀ h, find_hold (ro_account_id c) (ro_original_client_order_id c) l = Some h →
    hd_instrument_id h = ro_instrument_id c →
    match hd_side h with
    | Buy => Z.max 0 (ro_new_quantity c * ro_new_price c - hd_remaining h * hd_limit_price h) ≤
        available_cash (ro_account_id c) l
    | Sell => Z.max 0 (ro_new_quantity c - hd_remaining h) ≤
        available_position (ro_account_id c) (ro_instrument_id c) l
    end.

(** Quantities and amounts that fit a signed 64-bit integer. *)
Definition exact (q p : Z) : Prop := 0 ≤ q < 2 ^ 63 ∧ 0 ≤ p < 2 ^ 63 ∧ q * p < 2 ^ 63.

Lemma exact_notional q p : exact q p → i64 (i64 q * p) = q * p.
Proof. intros (Hq & Hp & Hqp). rewrite (i64_small q), i64_small; unfold in_i64; nia. Qed.

(** C12: while amounts fit 64 bits, the risk check is exact. It passes an order, or a
    replace, exactly when the account can afford it with money and units not locked
    behind other orders. *)
Theorem check_exact limits (n : NewOrderCommand) (r : ReplaceOrderCommand) l :
  exact (no_quantity n) (no_price n) → exact (ro_new_quantity r) (ro_new_price r) →
  (∀ h, find_hold (ro_account_id r) (ro_original_client_order_id r) l = Some h →
     exact (hd_remaining h) (hd_limit_price h)) →
  (check_new limits n l = RejectReason.None ↔ affordable_new limits n l) ∧
  (check_replace limits r l = RejectReason.None ↔ affordable_replace limits r l).
Proof.
  intros Hn Hr Hh. split.
  - unfold check_new, affordable_new. cbv zeta. rewrite exact_notional by done.
    destruct (Z.ltb_spec (max_order_quantity limits) (no_quantity n)); [split; [done|lia]|].
    destruct (no_side n); case_match; split; (done || lia || (intros; split; lia)).
  - unfold check_replace, affordable_replace. cbv zeta.
    destruct (Z.ltb_spec (max_order_quantity limits) (ro_new_quantity r)); [split; [done|lia]|].
    destruct (find_hold _ _ l) as [h|] eqn:Eh; [|by split; [split|]].
    destruct (Z.eqb_spec (hd_instrument_id h) (ro_instrument_id r)) as [Ei|Ei]; cbn [negb].
    2: { split; [|done]. intros _. split; [done|]. by intros ? [= <-] ?. }
    pose proof (Hh h eq_refl) as Hx. rewrite !exact_notional by done.
    destruct Hr as (? & ? & ?), Hx as (? & ? & ?).
    transitivity (match hd_side h with
      | Buy => Z.max 0 (ro_new_quantity r * ro_new_price r - hd_remaining h * hd_limit_price h) ≤
          available_cash (ro_account_id r) l
      | Sell => Z.max 0 (ro_new_quantity r - hd_remaining h) ≤
          available_position (ro_account_id r) (ro_instrument_id r) l
      end); [|split; [intros Hs; split; [done|by intros ? [= <-]]|by intros [_ Hs]; apply Hs]].
    destruct (hd_side h).
    + rewrite i64_small by (unfold in_i64; nia).
      destruct (Z.ltb_spec (available_cash (ro_account_id r) l)
        (0 `max` (ro_new_quantity r * ro_new_price r - hd_remaining h * hd_limit_price h)));
        split; done || lia.
    + destruct (Z.ltb_spec (hd_remaining h) (ro_new_quantity r));
        [rewrite u64_small by (unfold in_u64; lia)|]; case_match; split; done || lia.
Qed.

Definition sample_new : NewOrderCommand := mkNewOrder 1 1 11 7 Buy 250 5 Limit GTC.
Definition sample_replace : ReplaceOrderCommand := mkReplaceOrder 2 1 11 12 7 300 6.

Lemma check_exact_witness :
  (check_new default_limits sample_new empty = RejectReason.None ↔
   affordable_new default_limits sample_new empty) ∧
  (check_replace default_limits sample_replace empty = RejectReason.None ↔
   affordable_replace default_limits sample_replace empty).
Proof.
  apply (check_exact default_limits sample_new sample_replace empty).
  - unfold exact. simpl. lia.
  - unfold exact. simpl. lia.
  - by intros h ?.
Defined.

(** An order of 4 units at [2 ^ 62]. *)
Definition overflowing_order : NewOrderCommand := mkNewOrder 1 1 11 7 Buy (2 ^ 62) 4 Limit GTC.

(** Outside that range it is not. The notional is computed in 64 bits without a
    check, so an order whose value is a multiple of [2 ^ 64] passes with no money at
    all, within the default quantity limit. *)
Theorem check_overflows :
  check_new default_limits overflowing_order empty = RejectReason.None ∧
  ¬ affordable_new default_limits overflowing_order empty ∧
  in_u64 (no_quantity overflowing_order) ∧ in_i64 (no_price overflowing_order).
Proof.
  split; [by vm_compute|]. split; [|by vm_compute].
  intros [_ H]. vm_compute in H. by apply H.
Qed.

End RiskEngine.
