(* ===== verification/RiskGated.v ===== *)
(** * The risk-gated engine ([exchange/risk/risk_gated_engine.cpp])

    Check, match, settle: the risk check before the engine, the ledger fed with every
    event the engine emits. The ledger is not read while the engine processes a
    command, so feeding it the events one by one or together is the same. *)

From S2P Require Import Prelude.
From S2P Require Import Types.
From S2P Require Import Effects.
From S2P Require Import MatchingBook.
From S2P Require Import BookSpec.
From S2P Require Import BookRefinement.
From S2P Require Import MatchingEngine.
From S2P Require Import EngineRefinement.
From S2P Require Import EngineMatching.
From S2P Require Import EngineInvariant.
From S2P Require Import EngineTotal.
From S2P Require Import EngineStart.
From S2P Require Import EngineProps.
From S2P Require Import Ledger.
From S2P Require Import Risk.

Module RiskGatedEngine.
Import RiskEngine BookRefinement EngineRefinement EngineMatching EngineTotal EngineStart EngineProps.

Section gated.
Context {B : Type} `{BookOps B}.

Record t := mk {
  engine_ : MatchingEngine.t B;
  ledger_ : Ledger.t;
  risk_ : RiskLimits;
}.

Definition with_engine (e : MatchingEngine.t B) (g : t) : t := mk e (ledger_ g) (risk_ g).

(** [engine_.reject_new_order(..., sink)]: past the ledger. *)
Definition reject (m : eff (MatchingEngine.t B) ExchangeEvent unit) (g : t) : option (t * list ExchangeEvent) :=
  '(_, e, evs) ← m (engine_ g); Some (with_engine e g, evs).

(** [engine_.process(command, ...)], each event through the ledger. *)
Definition forward (command : ExchangeCommand) (g : t) : option (t * list ExchangeEvent) :=
  '(_, e, evs) ← MatchingEngine.process command (engine_ g);
  Some (mk e (Ledger.apply_all evs (ledger_ g)) (risk_ g), evs).

Definition process (command : ExchangeCommand) (g : t) : option (t * list ExchangeEvent) :=
  match command with
  | CmdNew new_order =>
      if negb (MatchingEngine.knows_instrument (no_instrument_id new_order) (engine_ g))
      then reject (MatchingEngine.reject_new_order new_order RejectReason.InvalidInstrument) g
      else
        let reason := check_new (risk_ g) new_order (ledger_ g) in
        if negb (bool_decide (reason = RejectReason.None))
        then reject (MatchingEngine.reject_new_order new_order reason) g
        else forward command g
  | CmdReplace replace =>
      if negb (MatchingEngine.knows_instrument (ro_instrument_id replace) (engine_ g))
      then reject (MatchingEngine.reject_replace_order replace RejectReason.InvalidInstrument) g
      else
        let reason := check_replace (risk_ g) replace (ledger_ g) in
        if negb (bool_decide (reason = RejectReason.None))
        then reject (MatchingEngine.reject_replace_order replace reason) g
        else forward command g
  | CmdCancel _ => forward command g
  end.

Fixpoint run (commands : list ExchangeCommand) (g : t) : option (t * list ExchangeEvent) :=
  match commands with
  | [] => Some (g, [])
  | c :: commands =>
      '(g, evs) ← process c g; '(g, evs') ← run commands g; Some (g, evs ++ evs')
  end.
End gated.

#[global] Arguments t : clear implicits.

(** What the gate answers, before the engine is asked: a reason to refuse, or nothing. *)
Definition refusal {B} (command : ExchangeCommand) (g : t B) : option RejectReason :=
  let gate (id : InstrumentId) (reason : RejectReason) :=
    if negb (MatchingEngine.knows_instrument id (engine_ g)) then Some RejectReason.InvalidInstrument
    else if bool_decide (reason = RejectReason.None) then None else Some reason in
  match command with
  | CmdNew c => gate (no_instrument_id c) (check_new (risk_ g) c (ledger_ g))
  | CmdReplace c => gate (ro_instrument_id c) (check_replace (risk_ g) c (ledger_ g))
  | CmdCancel _ => None
  end.

(** The one event of a refused command. *)
Definition refusal_event (command : ExchangeCommand) (n : EventSequence) (reason : RejectReason) :
    ExchangeEvent :=
  match command with
  | CmdNew c => EvRejected (mkOrderRejected n (no_command_sequence c) (no_account_id c)
      (no_client_order_id c) (no_instrument_id c) reason)
  | CmdReplace c => EvRejected (mkOrderRejected n (ro_command_sequence c) (ro_account_id c)
      (ro_original_client_order_id c) (ro_instrument_id c) reason)
  | CmdCancel c => EvRejected (mkOrderRejected n (co_command_sequence c) (co_account_id c)
      (co_client_order_id c) (co_instrument_id c) reason)
  end.

Definition count_event {B} (e : MatchingEngine.t B) : MatchingEngine.t B :=
  MatchingEngine.with_counters (MatchingEngine.next_exchange_order_id_ e)
    (u64 (MatchingEngine.next_event_sequence_ e + 1)) (MatchingEngine.next_priority_ e) e.

Lemma process_cases {B} `{BookOps B} command (g : t B) :
  process command g =
    match refusal command g with
    | Some reason =>
        Some (with_engine (count_event (engine_ g)) g,
              [refusal_event command (MatchingEngine.next_event_sequence_ (engine_ g)) reason])
    | None => forward command g
    end.
Proof.
  destruct command as [c|c|c]; unfold process, refusal; [| done |];
    (destruct (negb _); [done|]; case_bool_decide; done).
Qed.

(** ** Sessions *)

Definition gate_ok (m : Z) (g : t MatchingBook.t) : Prop :=
  ∃ f, represents m (engine_ g) f.

Lemma represents_count m e f : represents m e f → represents m (count_event e) (count_event f).
Proof.
  intros [HE HI]. split; [|by eapply inv_counters].
  destruct HE. split; simpl; done || congruence.
Qed.

Definition gated_outcome (command : ExchangeCommand) (m : Z) (g : t MatchingBook.t) : Prop :=
  ∃ g' evs, process command g = Some (g', evs) ∧ gate_ok (m + 1) g' ∧
    match refusal command g with
    | Some reason =>
        evs = [refusal_event command (MatchingEngine.next_event_sequence_ (engine_ g)) reason] ∧
        g' = with_engine (count_event (engine_ g)) g
    | None =>
        ∃ e, MatchingEngine.process command (engine_ g) = Some (tt, e, evs) ∧
          g' = mk e (Ledger.apply_all evs (ledger_ g)) (risk_ g)
    end.

Lemma process_gate command m g : gate_ok m g → m < MatchingBook.kNil → command_ok command →
  gated_outcome command m g.
Proof.
  intros [f HR] Hm Hc. unfold gated_outcome. rewrite process_cases.
  destruct (refusal command g) as [reason|].
  - eexists _, _. split; [done|]. split; [|done]. exists (count_event f). simpl.
    destruct (represents_count _ _ _ HR) as [HE HI]. split; [done|]. eapply inv_mono; [done|lia].
  - destruct HR as [HE HI].
    destruct (wp_elim _ _ _ (process_total m f command HI Hm Hc)) as ([] & f' & evs & Hf & HI').
    destruct (represents_step (m + 1) _ _ _ _ _ HE HI' Hf) as (e' & He & HR').
    unfold forward. rewrite He. simpl. eexists _, _. split; [done|]. split; [by exists f'|].
    by exists e'.
Qed.

(** What the gate does with a command, always: a refused command has one event,
    which carries the reason, and changes neither books nor ledger; any other is the
    engine's, and the ledger has seen every one of its events before the client
    does. *)
Theorem gated_command command m g :
  gate_ok m g → m < MatchingBook.kNil → command_ok command → gated_outcome command m g.
Proof. apply process_gate. Qed.

Lemma run_gate cs : ∀ m g, gate_ok m g → m + vsize cs ≤ MatchingBook.kNil → Forall command_ok cs →
  ∃ g' evs, run cs g = Some (g', evs) ∧ gate_ok (m + vsize cs) g' ∧
    Ledger.total_cash (ledger_ g') ≡₆₄ Ledger.total_cash (ledger_ g) ∧
    ∀ i, Ledger.total_position i (ledger_ g') ≡₆₄ Ledger.total_position i (ledger_ g).
Proof.
  induction cs as [|c cs IH]; intros m g Hg Hm Hok.
  { exists g, []. split; [done|]. split; [|done]. change (vsize []) with 0. by rewrite Z.add_0_r. }
  apply Forall_cons in Hok as [Hc Hcs]. unfold vsize in *. simpl length in *.
  destruct (process_gate c m g Hg) as (g1 & evs1 & Hp & Hg1 & Hcase); [lia|done|].
  destruct (IH (m + 1) g1 Hg1) as (g' & evs' & Hr & Hg' & Hc' & Hp'); [lia|done|].
  exists g', (evs1 ++ evs'). simpl. rewrite Hp. simpl. rewrite Hr. simpl. split; [done|].
  split; [by replace (m + Z.of_nat (S (length cs))) with (m + 1 + Z.of_nat (length cs)) by lia|].
  assert (Ledger.total_cash (ledger_ g1) ≡₆₄ Ledger.total_cash (ledger_ g) ∧
    ∀ i, Ledger.total_position i (ledger_ g1) ≡₆₄ Ledger.total_position i (ledger_ g)) as [H1 H2].
  { destruct (refusal c g); [by destruct Hcase as [_ ->]|]. destruct Hcase as (e & _ & ->).
    apply Ledger.apply_all_conserves. }
  split; [by rewrite Hc'|]. intros i. by rewrite Hp'.
Qed.

Definition start (e : real) (l : Ledger.t) (limits : RiskLimits) : t MatchingBook.t := mk e l limits.

(** An exchange with risk never fails and never makes money. From construction,
    whatever balances accounts were given, any session of commands runs to its end,
    and the sums of all cash and of all units of each instrument are what they
    were. *)
Theorem gated_session universe n limits l cs : session_ok universe cs →
  ∃ (e : real) g evs, MatchingEngine.make universe n = Some e ∧
    run cs (start e l limits) = Some (g, evs) ∧ gate_ok (vsize cs) g ∧
    Ledger.total_cash (ledger_ g) ≡₆₄ Ledger.total_cash l ∧
    ∀ i, Ledger.total_position i (ledger_ g) ≡₆₄ Ledger.total_position i l.
Proof.
  intros (Hu & Hsz & Hok & Hn). destruct (make_total universe n Hu Hsz) as (f0 & Hf0 & _ & HI & _).
  destruct (er_make Rep universe n f0 Hu Hsz Hf0) as (e0 & He0 & HE).
  destruct (run_gate cs 0 (start e0 l limits)) as (g & evs & Hr & Hg & Hc & Hp); [|done..|].
  { by exists f0. }
  by exists e0, g, evs.
Qed.

Definition sample_ledger : Ledger.t :=
  Ledger.deposit_position 2 7 50 (Ledger.deposit_cash 1 10000 Ledger.empty).

Definition sample_cs : list ExchangeCommand :=
  [CmdNew (sample_order 1 11 Buy 100 5 GTC); CmdNew (sample_order 2 21 Sell 90 8 GTC);
   CmdNew (sample_order 3 31 Buy 95 1 IOC); CmdReplace (mkReplaceOrder 3 2 21 22 7 80 2);
   CmdCancel (mkCancelOrder 4 2 22 7)].

Lemma sample_cs_ok : session_ok [7] sample_cs.
Proof.
  split; [|split; [|split]].
  - unfold in_u32. by apply (bool_decide_unpack _).
  - done.
  - by apply (bool_decide_unpack _).
  - done.
Qed.

Lemma gated_session_witness :
  ∃ (e : real) g evs, MatchingEngine.make [7] 16 = Some e ∧
    run sample_cs (start e sample_ledger default_limits) = Some (g, evs) ∧ gate_ok (vsize sample_cs) g ∧
    Ledger.total_cash (ledger_ g) ≡₆₄ Ledger.total_cash sample_ledger ∧
    ∀ i, Ledger.total_position i (ledger_ g) ≡₆₄ Ledger.total_position i sample_ledger.
Proof. apply (gated_session [7] 16 default_limits sample_ledger sample_cs sample_cs_ok). Defined.

(** A sell of 8 by an account that has 5, refused by the gate. *)
Definition sample_gate : t MatchingBook.t :=
  start (sample_state sample_asks) (Ledger.deposit_position 2 7 5 Ledger.empty) default_limits.

Definition sample_oversell : ExchangeCommand := CmdNew (sample_order 2 21 Sell 90 8 GTC).

Lemma gated_command_witness :
  refusal sample_oversell sample_gate = Some RejectReason.InsufficientPosition ∧
  gated_outcome sample_oversell 3 sample_gate.
Proof.
  split; [by vm_compute|]. apply (gated_command sample_oversell 3 sample_gate).
  - exists (sample_state sample_asks). exact sample_asks_represents.
  - done.
  - by apply (bool_decide_unpack _).
Defined.

End RiskGatedEngine.
