(* ===== verification/Reports.v ===== *)
(** * What the private events say is open

    An account sees its orders through the events that name it. [track] is the view
    they build, order by order; [coherent] is the protocol they keep: an order is
    accepted or renamed under a free id, a trade takes from a known order what it says
    it leaves. [OpenOrders] proves that the engine's events keep it, [TradingSession]
    that the trader's order management follows it, and here that the ledger's holds do.

    Everything is relative to a set of accounts: the ones whose commands never reuse
    the id of a live order. *)

From S2P Require Import Prelude Types Ledger.

Module Reports.

Abbreviation LiveKey := (Z * Z)%type.

(** An order as the events describe it. *)
Record open_order := mkOpen {
  op_exchange_order_id : ExchangeOrderId;
  op_instrument_id : InstrumentId;
  op_side : Side;
  op_price : Price;
  op_remaining : Quantity;
  op_time_in_force : TimeInForce;
}.

Abbreviation view := (gmap LiveKey open_order).

Definition with_left (q : Quantity) (w : open_order) : open_order :=
  mkOpen (op_exchange_order_id w) (op_instrument_id w) (op_side w) (op_price w) q (op_time_in_force w).

(** A fill that leaves [q]. *)
Definition touch (q : Quantity) (ow : option open_order) : option open_order :=
  if q =? 0 then None else with_left q <$> ow.

Definition leg_key (leg : TradeCounterparty) : LiveKey := (cp_account_id leg, cp_client_order_id leg).

Definition take (leg : TradeCounterparty) (v : view) : view :=
  partial_alter (touch (cp_remaining_quantity leg)) (leg_key leg) v.

Definition accepted_key (e : OrderAccepted) : LiveKey := (oa_account_id e, oa_client_order_id e).
Definition original_key (e : OrderReplaced) : LiveKey := (orp_account_id e, orp_original_client_order_id e).
Definition renamed_key (e : OrderReplaced) : LiveKey := (orp_account_id e, orp_new_client_order_id e).

Definition accepted_order (e : OrderAccepted) : open_order :=
  mkOpen (oa_exchange_order_id e) (oa_instrument_id e) (oa_side e) (oa_price e) (oa_quantity e)
    (oa_time_in_force e).

Definition renamed_order (e : OrderReplaced) (w : open_order) : open_order :=
  mkOpen (orp_exchange_order_id e) (orp_instrument_id e) (op_side w) (orp_new_price e)
    (orp_new_quantity e) (op_time_in_force w).

Definition track (ev : ExchangeEvent) (v : view) : view :=
  match ev with
  | EvAccepted e => <[accepted_key e := accepted_order e]> v
  | EvCancelled e => delete (oc_account_id e, oc_client_order_id e) v
  | EvReplaced e =>
      match v !! original_key e with
      | Some w => <[renamed_key e := renamed_order e w]> (delete (original_key e) v)
      | None => v
      end
  | EvTrade e => take (te_seller e) (take (te_buyer e) v)
  | EvRejected _ | EvAdded _ | EvReduced _ | EvRemoved _ => v
  end.

Fixpoint track_all (evs : list ExchangeEvent) (v : view) : view :=
  match evs with [] => v | ev :: evs => track_all evs (track ev v) end.

Lemma track_all_app evs evs' v : track_all (evs ++ evs') v = track_all evs' (track_all evs v).
Proof. revert v. induction evs as [|ev evs IH]; intros v; [done|]. apply IH. Qed.

(** ** Lookups *)

Lemma take_lookup leg v k :
  take leg v !! k = if decide (leg_key leg = k) then touch (cp_remaining_quantity leg) (v !! k) else v !! k.
Proof.
  unfold take. case_decide as E; [subst; by rewrite lookup_partial_alter_eq|].
  by rewrite lookup_partial_alter_ne.
Qed.

Lemma take_other leg v k : leg_key leg ≠ k → take leg v !! k = v !! k.
Proof. intros E. by rewrite take_lookup, decide_False. Qed.

(** ** The protocol *)

Section coherent.
Context (P : AccountId → Prop).

(** The order of a leg is open, on that side of that instrument, and had what it
    traded more than what it has left. *)
Definition leg_ok (leg : TradeCounterparty) (side : Side) (i : InstrumentId) (q : Quantity) (v : view) : Prop :=
  P (cp_account_id leg) →
  ∃ w, v !! leg_key leg = Some w ∧ op_side w = side ∧ op_instrument_id w = i ∧
    op_exchange_order_id w = cp_exchange_order_id leg ∧
    op_remaining w = q + cp_remaining_quantity leg.

(** No good-till-cancelled order under this key: what immediate orders leave behind in
    the view is no obstacle. *)
Definition vacant (k : LiveKey) (v : view) : Prop :=
  ∀ w, v !! k = Some w → op_time_in_force w ≠ GTC.

Definition coherent (ev : ExchangeEvent) (v : view) : Prop :=
  match ev with
  | EvAccepted e => P (oa_account_id e) → vacant (accepted_key e) v ∧ oa_quantity e ≠ 0
  | EvCancelled e => P (oc_account_id e) →
      ∃ w, v !! (oc_account_id e, oc_client_order_id e) = Some w ∧ op_time_in_force w = GTC
  | EvReplaced e => P (orp_account_id e) →
      (∃ w, v !! original_key e = Some w ∧ op_time_in_force w = GTC ∧
         op_instrument_id w = orp_instrument_id e) ∧
      (renamed_key e = original_key e ∨ vacant (renamed_key e) v) ∧ orp_new_quantity e ≠ 0
  | EvTrade e =>
      leg_ok (te_buyer e) Buy (te_instrument_id e) (te_quantity e) v ∧
      leg_ok (te_seller e) Sell (te_instrument_id e) (te_quantity e) (take (te_buyer e) v)
  | EvRejected _ | EvAdded _ | EvReduced _ | EvRemoved _ => True
  end.

Fixpoint coherent_all (evs : list ExchangeEvent) (v : view) : Prop :=
  match evs with [] => True | ev :: evs => coherent ev v ∧ coherent_all evs (track ev v) end.

Lemma coherent_all_app evs evs' v :
  coherent_all (evs ++ evs') v ↔ coherent_all evs v ∧ coherent_all evs' (track_all evs v).
Proof. revert v. induction evs as [|ev evs IH]; intros v; simpl; [tauto|]. rewrite IH. tauto. Qed.
End coherent.

(** ** What a command may be answered with *)

(** The private events of command [c]: its acceptance or rejection, with the fields it
    came with. Trades may name any order. *)
Definition answers (c : ExchangeCommand) (ev : ExchangeEvent) : Prop :=
  match c, ev with
  | CmdNew c, EvAccepted e =>
      accepted_key e = (no_account_id c, no_client_order_id c) ∧ oa_instrument_id e = no_instrument_id c ∧
      oa_side e = no_side c ∧ oa_price e = no_price c ∧ oa_quantity e = no_quantity c ∧
      oa_time_in_force e = no_time_in_force c
  | CmdCancel c, EvCancelled e =>
      (oc_account_id e, oc_client_order_id e) = (co_account_id c, co_client_order_id c)
  | CmdReplace c, EvReplaced e =>
      original_key e = (ro_account_id c, ro_original_client_order_id c) ∧
      renamed_key e = (ro_account_id c, ro_new_client_order_id c) ∧
      orp_instrument_id e = ro_instrument_id c ∧ orp_new_price e = ro_new_price c ∧
      orp_new_quantity e = ro_new_quantity c
  | CmdNew c, EvRejected e =>
      (orj_account_id e, orj_client_order_id e) = (no_account_id c, no_client_order_id c)
  | CmdCancel c, EvRejected e =>
      (orj_account_id e, orj_client_order_id e) = (co_account_id c, co_client_order_id c)
  | CmdReplace c, EvRejected e =>
      (orj_account_id e, orj_client_order_id e) = (ro_account_id c, ro_original_client_order_id c)
  | _, (EvAccepted _ | EvCancelled _ | EvReplaced _) => False
  | _, (EvTrade _ | EvAdded _ | EvReduced _ | EvRemoved _) => True
  end.

(** The id a command introduces. *)
Definition introduced (c : ExchangeCommand) : option LiveKey :=
  match c with
  | CmdNew c => Some (no_account_id c, no_client_order_id c)
  | CmdCancel _ => None
  | CmdReplace c =>
      if ro_new_client_order_id c =? ro_original_client_order_id c then None
      else Some (ro_account_id c, ro_new_client_order_id c)
  end.

Lemma track_keys (v : view) c ev k : answers c ev → is_Some (track ev v !! k) →
  is_Some (v !! k) ∨ introduced c = Some k.
Proof.
  intros Ha Hk. destruct ev as [e|e|e|e|e|e|e|e]; try by left.
  - destruct c as [c|c|c]; try done. destruct Ha as [E _]. simpl in Hk. rewrite lookup_insert in Hk.
    case_decide as Ek; [right|by left]. simpl. by rewrite <-Ek, E.
  - left. simpl in Hk. destruct Hk as [w [_ Hw]%lookup_delete_Some]. eauto.
  - destruct c as [c|c|c]; try done. destruct Ha as (Eo & En & _). simpl in Hk.
    destruct (v !! original_key e) as [w|] eqn:Ew; [|by left]. rewrite lookup_insert in Hk.
    case_decide as Ek.
    + simpl. destruct (Z.eqb_spec (ro_new_client_order_id c) (ro_original_client_order_id c)) as [Eq|];
        [left|right; by rewrite <-Ek, En]. exists w. by rewrite <-Ew, <-Ek, En, Eo, Eq.
    + left. destruct Hk as [w' [_ Hw]%lookup_delete_Some]. eauto.
  - left. simpl in Hk. rewrite !take_lookup in Hk. unfold touch in Hk.
    repeat case_decide; repeat case_bool; destruct (v !! k); simpl in Hk; try done; by destruct Hk.
Qed.

Lemma track_all_keys (k : LiveKey) c evs : ∀ v, Forall (answers c) evs → is_Some (track_all evs v !! k) →
  is_Some (v !! k) ∨ introduced c = Some k.
Proof.
  induction evs as [|ev evs IH]; intros v Ha Hk; [by left|]. apply Forall_cons in Ha as [Ha Has].
  destruct (IH _ Has Hk) as [H|H]; [|by right]. by eapply track_keys.
Qed.

(** ** The ledger's holds are the view's good-till-cancelled orders *)

Definition hold_of (w : open_order) : option Ledger.Hold :=
  if decide (op_time_in_force w = GTC)
  then Some (Ledger.mkHold (op_instrument_id w) (op_side w) (op_price w) (op_remaining w)) else None.

Definition everyone (_ : AccountId) : Prop := True.

Definition holds_follow (v : view) (l : Ledger.t) : Prop :=
  ∀ k, Ledger.holds_ l !! k = v !! k ≫= hold_of.

Lemma hold_none (k : LiveKey) (v : view) : vacant k v → v !! k ≫= hold_of = None.
Proof.
  intros H. destruct (v !! k) as [w|] eqn:E; [|done]. simpl. unfold hold_of.
  rewrite decide_False; [done|by apply H].
Qed.

Lemma hold_gtc w : op_time_in_force w = GTC →
  hold_of w = Some (Ledger.mkHold (op_instrument_id w) (op_side w) (op_price w) (op_remaining w)).
Proof. intros Ht. unfold hold_of. by rewrite decide_True. Qed.

Lemma open_hold_lookup a c i sd p q l k : q ≠ 0 →
  Ledger.holds_ (Ledger.open_hold a c i sd p q l) !! k =
    if decide ((a, c) = k) then Some (Ledger.mkHold i sd p q) else Ledger.holds_ l !! k.
Proof.
  intros Hq. unfold Ledger.open_hold. rewrite (proj2 (Z.eqb_neq _ _)) by done. simpl. apply lookup_insert.
Qed.

Lemma release_holds a h l : Ledger.holds_ (Ledger.release_hold_fully a h l) = Ledger.holds_ l.
Proof. unfold Ledger.release_hold_fully. by case_bool. Qed.

Lemma settle_leg_lookup leg sd i p q l k :
  Ledger.holds_ (Ledger.settle_leg leg sd i p q l) !! k =
    if decide (leg_key leg = k) then
      if cp_remaining_quantity leg =? 0 then None
      else (λ h, Ledger.mkHold (Ledger.hd_instrument_id h) (Ledger.hd_side h) (Ledger.hd_limit_price h)
                   (cp_remaining_quantity leg)) <$> Ledger.holds_ l !! k
    else Ledger.holds_ l !! k.
Proof.
  unfold Ledger.settle_leg, Ledger.settle_totals, Ledger.settle_hold, Ledger.update_account. simpl.
  fold (leg_key leg). destruct (Ledger.holds_ l !! leg_key leg) as [h|] eqn:Eh; simpl.
  - case_bool; [by rewrite lookup_delete|]. rewrite lookup_insert. case_decide as Ek; [|done].
    subst. by rewrite Eh.
  - case_decide as Ek; [subst|done]. rewrite Eh. by case_bool.
Qed.

Lemma leg_follows v l leg sd i p q : holds_follow v l → leg_ok everyone leg sd i q v →
  holds_follow (take leg v) (Ledger.settle_leg leg sd i p q l) ∧ Ledger.leg_fits leg sd i q l.
Proof.
  intros Hl Hleg. destruct (Hleg I) as (w & Hw & Hs & Hi & _ & Hq). split.
  - intros k. rewrite settle_leg_lookup, take_lookup. case_decide as E; [subst k|apply Hl].
    rewrite (Hl (leg_key leg)), Hw. unfold touch. case_bool; [done|]. simpl. unfold hold_of. simpl.
    by case_decide.
  - intros h Hh. change (_, _) with (leg_key leg) in Hh. rewrite Hl, Hw in Hh. simpl in Hh.
    unfold hold_of in Hh. case_decide; [|done]. by injection Hh as <-.
Qed.

(** The ledger follows a coherent event, which its holds can account for. *)
Lemma ledger_follows ev v l : holds_follow v l → coherent everyone ev v →
  holds_follow (track ev v) (Ledger.apply ev l) ∧ Ledger.fits ev l.
Proof.
  intros Hl Hev. destruct ev as [e|e|e|e|e|e|e|e]; simpl in *; try done.
  - destruct (Hev I) as [Hv Hq]. pose proof (Hl (accepted_key e)) as Hk. rewrite (hold_none _ _ Hv) in Hk.
    split; [|exact Hk]. intros k. unfold Ledger.on_order_accepted.
    destruct (bool_decide_reflect (oa_time_in_force e = GTC)) as [Ht|Ht]; cbn [negb].
    + rewrite open_hold_lookup, lookup_insert by done. fold (accepted_key e). case_decide; [|apply Hl].
      simpl. by rewrite hold_gtc.
    + rewrite lookup_insert. case_decide as E; [subst k|apply Hl]. rewrite Hk. simpl. unfold hold_of.
      by rewrite decide_False.
  - destruct (Hev I) as (w & Hw & Ht). split; [|done]. unfold Ledger.on_order_cancelled.
    rewrite Hl, Hw. simpl. rewrite hold_gtc by done. intros k. simpl. rewrite release_holds, !lookup_delete.
    case_decide; [done|apply Hl].
  - destruct (Hev I) as ((w & Hw & Ht & _) & Hnew & Hq). rewrite Hw. split.
    + unfold Ledger.on_order_replaced. fold (original_key e). rewrite Hl, Hw. simpl.
      rewrite hold_gtc by done. intros k. rewrite open_hold_lookup by done. fold (renamed_key e).
      simpl. rewrite release_holds, lookup_insert, !lookup_delete.
      case_decide; [simpl; by rewrite hold_gtc|]. case_decide; [done|apply Hl].
    + unfold renamed_key, original_key in Hnew. destruct Hnew as [E|Hv]; [left; congruence|right].
      fold (renamed_key e). rewrite Hl. by apply hold_none.
  - destruct Hev as [Hb Hs]. unfold Ledger.on_trade_executed.
    destruct (leg_follows v l _ _ _ (te_price e) _ Hl Hb) as [Hl1 Hf1].
    destruct (leg_follows _ _ _ _ _ (te_price e) _ Hl1 Hs) as [Hl2 Hf2]. done.
Qed.

Lemma ledger_follows_all evs : ∀ v l, holds_follow v l → coherent_all everyone evs v →
  holds_follow (track_all evs v) (Ledger.apply_all evs l) ∧ Ledger.fits_all evs l.
Proof.
  induction evs as [|ev evs IH]; intros v l Hl Hc; [done|]. destruct Hc as [Hev Hc].
  destruct (ledger_follows ev v l Hl Hev) as [Hl1 Hf]. destruct (IH _ _ Hl1 Hc) as [Hl2 Hf2]. done.
Qed.

End Reports.
