(* ===== verification/OpenOrders.v ===== *)
(** * The engine's open orders are what its events say

    [mirrors]: the orders resting in the books, for the accounts in question, are the
    good-till-cancelled orders of the view, one directory entry each. Every command
    whose replacement id is free keeps it, and its events are coherent. *)

From S2P Require Import Prelude Types Effects SideIndex PriceIndex MatchingBook BookSpec BookQueue.
From S2P Require Import MatchingEngine Fills EngineMatching EngineInvariant EngineTotal Reports.

Module OpenOrders.
Import PriceIndex BookQueue MatchingEngine Fills EngineMatching EngineInvariant EngineTotal Reports.
Import ABook (entry, queue, with_queue, with_free, free, bids, asks, next_slot, insert_back).

(** A resting order as the events describe it. *)
Definition resting_view (id : InstrumentId) (o : BookOrder) : open_order :=
  mkOpen (bo_exchange_order_id o) id (bo_side o) (bo_price o) (bo_remaining_quantity o)
    (bo_time_in_force o).

Definition incoming_view (o : ExchangeRestingOrder) : open_order :=
  mkOpen (ero_exchange_order_id o) (ero_instrument_id o) (ero_side o) (ero_price o)
    (ero_remaining_quantity o) (ero_time_in_force o).

Definition incoming_key (o : ExchangeRestingOrder) : LiveKey := (ero_account_id o, ero_client_order_id o).

Section accounts.
Context (P : AccountId → Prop).

Definition ours (x : entry) : Prop := P (bo_account_id x.2).

(** Entry [x] of instrument [id]'s book is the order the view and the directory have
    under its key. *)
Definition mirrored (id : InstrumentId) (v : view) (m : gmap LiveKey OrderRef) (x : entry) : Prop :=
  v !! order_key x.2 = Some (resting_view id x.2) ∧
  ∃ ref, m !! order_key x.2 = Some ref ∧ or_instrument_id ref = id ∧ or_handle ref = x.1.

Record mirrors (e : eng) (v : view) : Prop := {
  mr_entry : ∀ id b sd x, knows_instrument id e = true → book_for id e = Some b →
    x ∈ queue sd b → ours x → mirrored id v (orders_ e) x;
  mr_dir : ∀ k w, P k.1 → v !! k = Some w → op_time_in_force w = GTC → is_Some (orders_ e !! k);
}.

Lemma mirrors_vacant e v (k : LiveKey) : mirrors e v → P k.1 → orders_ e !! k = None → vacant k v.
Proof. intros HM Hk Ho w Hw Ht. destruct (mr_dir _ _ HM k w Hk Hw Ht) as [? E]. by rewrite Ho in E. Qed.

(** A directory entry is mirrored. *)
Lemma mirrors_located n e v k ref b o : inv n e → mirrors e v → P k.1 → orders_ e !! k = Some ref →
  book_for (or_instrument_id ref) e = Some b → ABook.at_ (or_handle ref) b = Some o → order_key o = k →
  v !! k = Some (resting_view (or_instrument_id ref) o).
Proof.
  intros HI HM Hk Hr Hb Ho <-. destruct (at_queue _ _ _ Ho) as [sd Hin].
  destruct (located _ _ _ _ HI Hr) as (Hkn & _).
  by destruct (mr_entry _ _ HM _ _ _ _ Hkn Hb Hin Hk) as [Hv _].
Qed.

(** Entries of one side that answer to the same key are the same. *)
Definition apart (q : list entry) : Prop :=
  ∀ x y, x ∈ q → y ∈ q → ours x → order_key x.2 = order_key y.2 → x = y.

Lemma mirrored_same_slot id v m x y : mirrored id v m x → mirrored id v m y →
  order_key x.2 = order_key y.2 → x.1 = y.1.
Proof.
  intros (_ & r & Hr & _ & <-) (_ & r' & Hr' & _ & <-) E. rewrite E in Hr. rewrite Hr in Hr'.
  by injection Hr' as ->.
Qed.

Lemma ours_key x y : ours x → order_key x.2 = order_key y.2 → ours y.
Proof. unfold ours, order_key. intros Hx [= E _]. by rewrite <-E. Qed.

Lemma mirrors_apart n e v id b : inv n e → mirrors e v → knows_instrument id e = true →
  book_for id e = Some b → ∀ sd sd' x y, x ∈ queue sd b → y ∈ queue sd' b → ours x →
  order_key x.2 = order_key y.2 → x = y.
Proof.
  intros HI HM Hk Hb sd sd' x y Hx Hy Hox E.
  destruct (known_book _ _ _ HI Hk) as (b' & Hb' & Hok). rewrite Hb in Hb'. injection Hb' as <-.
  pose proof (mr_entry _ _ HM _ _ _ _ Hk Hb Hx Hox) as Mx.
  pose proof (mr_entry _ _ HM _ _ _ _ Hk Hb Hy (ours_key _ _ Hox E)) as My.
  pose proof (mirrored_same_slot _ _ _ _ _ Mx My E) as Es. destruct x as [s o], y as [s' o']. simpl in Es.
  subst s'. by destruct (slot_unique _ _ _ _ _ _ _ Hok Hx Hy) as [_ ->].
Qed.

(** ** A state that differs in one book *)

Lemma mirrors_change n e v v' id b b' orders' oid seq pri : inv n e → mirrors e v →
  knows_instrument id e = true → book_for id e = Some b →
  (∀ sd x, x ∈ queue sd b' → ours x → mirrored id v' orders' x) →
  (∀ k ref, P k.1 → orders_ e !! k = Some ref → or_instrument_id ref ≠ id →
     v' !! k = v !! k ∧ orders' !! k = Some ref) →
  (∀ k w, P k.1 → v' !! k = Some w → op_time_in_force w = GTC → is_Some (orders' !! k)) →
  mirrors (with_counters oid seq pri (with_orders orders' (with_book id b' e))) v'.
Proof.
  intros HI HM Hk Hb Hin Hother Hdir. split; [|exact Hdir].
  intros id' c sd x Hk' Hc Hx Hox. destruct (decide (id' = id)) as [->|Hne].
  - assert (c = b') as ->; [|by eapply Hin].
    pose proof (book_for_with id b' b e Hb) as Hbf. change (book_for id (with_book id b' e) = Some c) in Hc.
    rewrite Hbf in Hc. by injection Hc as ->.
  - change (book_for id' (with_book id b' e) = Some c) in Hc.
    rewrite (book_for_other n) in Hc by done.
    destruct (mr_entry _ _ HM _ _ _ _ Hk' Hc Hx Hox) as (Hv & ref & Hr & Hi & Hh).
    destruct (Hother (order_key x.2) ref Hox Hr) as [Ev Er]; [by rewrite Hi|].
    split; [by rewrite Ev|]. by exists ref.
Qed.

Lemma mirrors_counters e v oid seq pri : mirrors e v → mirrors (with_counters oid seq pri e) v.
Proof. by intros []. Qed.

(** ** Fills *)

Section fills.
Context (o : ExchangeRestingOrder) (cs : CommandSequence).

Abbreviation id := (ero_instrument_id o).
Abbreviation kin := (incoming_key o).

Definition agreed_incoming (rem : Quantity) (v : view) : Prop :=
  P kin.1 → v !! kin = if rem =? 0 then None else Some (with_left rem (incoming_view o)).

Lemma takes_lookup l1 l2 v k : (leg_key l1 = k → leg_key l2 ≠ k) →
  let r := if decide (leg_key l1 = k) then touch (cp_remaining_quantity l1) (v !! k)
           else if decide (leg_key l2 = k) then touch (cp_remaining_quantity l2) (v !! k) else v !! k in
  take l2 (take l1 v) !! k = r ∧ take l1 (take l2 v) !! k = r.
Proof. intros Hk. cbv zeta. rewrite !take_lookup. repeat case_decide; tauto. Qed.

Lemma trade_lookup n rem x v k : (kin = k → fill_key x ≠ k) →
  track (trade_event o cs n rem x) v !! k =
    if decide (kin = k) then touch rem (v !! k)
    else if decide (fill_key x = k) then touch (fl_after x) (v !! k) else v !! k.
Proof.
  intros Hk. set (agg := mkCounterparty (ero_account_id o) (ero_client_order_id o) (ero_exchange_order_id o) rem).
  set (rest := mkCounterparty (bo_account_id (fl_order x)) (bo_client_order_id (fl_order x))
    (bo_exchange_order_id (fl_order x)) (fl_after x)).
  destruct (takes_lookup agg rest v k Hk) as [H1 H2]. unfold trade_event. cbn [track].
  destruct (ero_side o); [exact H1|exact H2].
Qed.

Lemma legs_coherent (v : view) leg1 leg2 sd sd' i q : leg_ok P leg1 sd i q v → leg_ok P leg2 sd' i q v →
  (P (cp_account_id leg2) → leg_key leg1 ≠ leg_key leg2) → leg_ok P leg2 sd' i q (take leg1 v).
Proof. intros _ H2 Hne HP. rewrite take_other by by apply Hne. by apply H2. Qed.

Lemma trade_coherent (v : view) n rem x : 0 ≤ fl_after x →
  bo_side (fl_order x) = contra (ero_side o) →
  (ours (fl_entry x) → v !! fill_key x = Some (resting_view id (fl_order x))) →
  (P kin.1 → v !! kin = Some (with_left rem (incoming_view o)) ∧ fill_key x ≠ kin) →
  coherent P (trade_event o cs n (rem - fl_quantity x) x) v.
Proof.
  intros Ha Hs Hx Hin. unfold trade_event. set (rest := mkCounterparty _ _ (bo_exchange_order_id _) _).
  set (agg := mkCounterparty _ _ _ (rem - _)).
  assert (leg_ok P agg (ero_side o) id (fl_quantity x) v) as H1.
  { intros HP. destruct (Hin HP) as [Hv _]. exists (with_left rem (incoming_view o)).
    split; [exact Hv|]. split; [done|]. split; [done|]. split; [done|]. simpl. lia. }
  assert (leg_ok P rest (contra (ero_side o)) id (fl_quantity x) v) as H2.
  { intros HP. exists (resting_view id (fl_order x)). split; [by apply Hx|]. split; [done|].
    split; [done|]. split; [done|]. simpl. unfold fl_after. lia. }
  assert (P kin.1 → leg_key rest ≠ leg_key agg) as Hne by (intros HP; apply (Hin HP)).
  assert (P (cp_account_id rest) → leg_key agg ≠ leg_key rest) as Hne'.
  { intros HP E. apply Hne; [|done]. change (P (leg_key agg).1). by rewrite E. }
  cbn [coherent te_buyer te_seller te_instrument_id te_quantity].
  destruct (ero_side o); (split; [done|]).
  - by apply (legs_coherent v agg rest Buy Sell).
  - by apply (legs_coherent v rest agg Buy Sell).
Qed.

Lemma one_fill (v : view) n rem x : 0 ≤ fl_after x → bo_side (fl_order x) = contra (ero_side o) →
  (ours (fl_entry x) → v !! fill_key x = Some (resting_view id (fl_order x))) →
  (P kin.1 → v !! kin = Some (with_left rem (incoming_view o)) ∧ fill_key x ≠ kin) →
  let ev := trade_event o cs n (rem - fl_quantity x) x in
  coherent P ev v ∧ agreed_incoming (rem - fl_quantity x) (track ev v) ∧
  (ours (fl_entry x) → track ev v !! fill_key x = touch (fl_after x) (Some (resting_view id (fl_order x)))) ∧
  ∀ k, P k.1 → k ≠ kin → fill_key x ≠ k → track ev v !! k = v !! k.
Proof.
  intros Ha Hs Hx Hin ev. split; [by apply trade_coherent|]. unfold ev.
  split; [|split].
  - intros HP. destruct (Hin HP) as [Hv Hne]. rewrite trade_lookup by done.
    rewrite decide_True, Hv by done. unfold touch. by case_bool.
  - intros Ho. destruct (decide (kin = fill_key x)) as [E|E].
    { destruct Hin as [_ Hne]; [by rewrite E|]. by destruct Hne. }
    rewrite trade_lookup by done. by rewrite decide_False, decide_True, Hx.
  - intros k HP Hk Hx'. rewrite trade_lookup by done. by rewrite !decide_False.
Qed.

Lemma fills_view q : ∀ n rem (v : view), 0 ≤ rem → live_quantities q → NoDup q → apart q →
  (∀ x, x ∈ q → bo_side x.2 = contra (ero_side o)) →
  (∀ x, x ∈ q → ours x → v !! order_key x.2 = Some (resting_view id x.2)) →
  (∀ x, x ∈ q → ours x → order_key x.2 ≠ kin) → agreed_incoming rem v →
  let r := fill_queue (ero_side o) (ero_price o) rem q in
  let v' := track_all (fill_events o cs n rem (oc_fills r)) v in
  coherent_all P (fill_events o cs n rem (oc_fills r)) v ∧ agreed_incoming (oc_remaining r) v' ∧
  (∀ y, y ∈ oc_queue r → ours y → v' !! order_key y.2 = Some (resting_view id y.2)) ∧
  (∀ k, P k.1 → k ≠ kin → (∀ x, x ∈ q → order_key x.2 ≠ k) → v' !! k = v !! k) ∧
  (∀ f, f ∈ oc_fills r → fl_after f = 0 → ours (fl_entry f) → v' !! fill_key f = None).
Proof.
  induction q as [|[s b] q IH]; intros n rem v Hr Hq Hd Ha Hs Hv Hk Hin; simpl.
  { split; [done|]. split; [done|]. split; [by intros y ?%not_elem_of_nil|]. split; [done|].
    by intros f ?%not_elem_of_nil. }
  destruct ((rem <=? 0) || _) eqn:Estop; simpl.
  { split; [done|]. split; [done|]. split; [done|]. split; [done|]. by intros f ?%not_elem_of_nil. }
  apply orb_false_iff in Estop as [Hpos%Z.leb_gt _].
  apply live_cons in Hq as [Hb Hq]. simpl in Hb. apply NoDup_cons in Hd as [Hsb Hd].
  set (x := mkFill (s, b) (Z.min rem (bo_remaining_quantity b))).
  assert (∀ y, y ∈ q → ours y → fill_key x ≠ order_key y.2) as Hhead.
  { intros y Hy Hoy E. apply Hsb. rewrite <-(Ha y (s, b)); [done|by right|by left|done|done]. }
  destruct (one_fill v n rem x) as (Hc & Hin1 & Hx1 & Hother); simpl.
  { unfold fl_after, fl_order, x. simpl. lia. }
  { apply (Hs (s, b)). by left. }
  { apply (Hv (s, b)). by left. }
  { intros HP. split; [by rewrite (Hin HP), (proj2 (Z.eqb_neq _ _)) by lia|]. intros E.
    apply (Hk (s, b)); [by left| |exact E]. unfold ours. change (P (fill_key x).1). by rewrite E. }
  set (v1 := track _ v) in *.
  assert (∀ y, y ∈ q → ours y → v1 !! order_key y.2 = Some (resting_view id y.2)) as Hv1.
  { intros y Hy Hoy. rewrite Hother; [apply Hv; [by right|done]|done| |by apply Hhead].
    apply Hk; [by right|done]. }
  destruct (Z.eqb_spec (fl_after x) 0) as [E|E]; cbn [oc_fills oc_remaining oc_queue fill_events track_all].
  - destruct (IH (next_seq (next_seq n)) (rem - fl_quantity x) v1) as (Hc' & Hin' & Hl' & Ho' & Hg');
      try done; [simpl; lia|by intros y z Hy Hz; apply Ha; right|by intros y Hy; apply Hs; right
      |by intros y Hy; apply Hk; right|].
    unfold resting_event. rewrite E. cbn [Z.eqb track].
    split; [split; [done|split; [done|exact Hc']]|]. split; [exact Hin'|]. split; [exact Hl'|]. split.
    + intros k HP Hne Hkq. rewrite Ho'; [|done..|by intros y Hy; apply Hkq; right].
      apply Hother; [done..|]. apply (Hkq (s, b)). by left.
    + intros f [->|Hf]%elem_of_cons Hz Hof; [|by apply Hg'].
      rewrite Ho'; [etrans; [by apply Hx1|by rewrite E]|done|apply (Hk (s, b)); [by left|done]|].
      intros y Hy Ey. apply (Hhead y Hy); [|done]. by eapply (ours_key (s, b)).
  - unfold resting_event. rewrite (proj2 (Z.eqb_neq _ _)) by done. cbn [track].
    split; [done|]. split; [exact Hin1|]. split; [|split].
    + intros y [->|Hy]%elem_of_cons Hoy; [|by apply Hv1]. refine (eq_trans (Hx1 Hoy) _).
      unfold touch. by rewrite (proj2 (Z.eqb_neq _ _)).
    + intros k HP Hne Hkq. apply Hother; [done..|]. apply (Hkq (s, b)). by left.
    + intros f ->%list_elem_of_singleton ?. done.
Qed.
End fills.

(** ** Matching and resting *)

Lemma orders_after_other fs : ∀ m k, (∀ f, f ∈ fs → fl_after f = 0 → fill_key f ≠ k) →
  orders_after m fs !! k = m !! k.
Proof.
  induction fs as [|f fs IH]; intros m k H; [done|]. simpl. rewrite IH by (intros; apply H; [by right|done]).
  destruct (Z.eqb_spec (fl_after f) 0); [|done]. rewrite lookup_delete_ne; [done|]. apply H; [by left|done].
Qed.

Section submit.
Context (n : Z) (o : ExchangeRestingOrder) (cs : CommandSequence) (b : book) (e : eng) (v : view).

Abbreviation id := (ero_instrument_id o).
Abbreviation kin := (incoming_key o).
Abbreviation sdc := (contra (ero_side o)).

Context (HI : inv n e) (Hk : knows_instrument id e = true) (Hb : book_for id e = Some b).
Context (Hq : 0 < ero_remaining_quantity o < 2 ^ 64) (Hp : price_safe (ero_price o)).
Context (Hn : n < MatchingBook.kNil).
Context (HM : mirrors e (delete kin v)) (Hfree : P kin.1 → orders_ e !! kin = None).
Context (Hin : agreed_incoming o (ero_remaining_quantity o) v).

Lemma queued_view sd x : x ∈ queue sd b → ours x →
  order_key x.2 ≠ kin ∧ v !! order_key x.2 = Some (resting_view id x.2) ∧
  ∃ ref, orders_ e !! order_key x.2 = Some ref ∧ or_instrument_id ref = id ∧ or_handle ref = x.1.
Proof.
  intros Hx Ho. destruct (mr_entry _ _ HM _ _ _ _ Hk Hb Hx Ho) as (Hv & Hr).
  rewrite lookup_delete_Some in Hv. destruct Hv as [Hne Hv]. split; [congruence|done].
Qed.

Lemma queue_apart sd : apart (queue sd b).
Proof. intros x y Hx Hy. by apply (mirrors_apart n e _ id b HI HM Hk Hb sd sd). Qed.

Definition fill_view (k : Z) : view :=
  track_all (fill_events o cs k (ero_remaining_quantity o) (oc_fills (outcome_of o b))) v.

Lemma matched_view k : let r := outcome_of o b in let v' := fill_view k in
  coherent_all P (fill_events o cs k (ero_remaining_quantity o) (oc_fills r)) v ∧
  agreed_incoming o (oc_remaining r) v' ∧
  (∀ y, y ∈ oc_queue r → ours y → v' !! order_key y.2 = Some (resting_view id y.2)) ∧
  (∀ k, P k.1 → k ≠ kin → (∀ x, x ∈ queue sdc b → order_key x.2 ≠ k) → v' !! k = v !! k) ∧
  (∀ f, f ∈ oc_fills r → fl_after f = 0 → ours (fl_entry f) → v' !! fill_key f = None).
Proof.
  pose proof (submit_book n o b e HI Hk Hb) as Hok. apply fills_view; try done; [lia|by apply (book_live n)|..].
  - eapply NoDup_fmap_1. by apply (book_queue_nodup n b sdc).
  - apply queue_apart.
  - intros x Hx. by apply (bk_entry _ _ Hok sdc).
  - intros x Hx Ho. by apply (queued_view sdc).
  - intros x Hx Ho. by apply (queued_view sdc).
Qed.

(** What is gone from the view is gone from the directory, and nothing else is. *)
Lemma matched_dir j k w : P k.1 → k ≠ kin → fill_view j !! k = Some w →
  orders_after (orders_ e) (oc_fills (outcome_of o b)) !! k = orders_ e !! k.
Proof.
  intros HP Hne Hw. apply orders_after_other. intros f Hf Ha E. subst k.
  destruct (matched_view j) as (_ & _ & _ & _ & Hg). rewrite (Hg f Hf Ha) in Hw; done.
Qed.

(** The keys of the contra queue are in the directory under this instrument. *)
Lemma foreign_key (k : LiveKey) ref : P k.1 → orders_ e !! k = Some ref → or_instrument_id ref ≠ id →
  ∀ x, x ∈ queue sdc b → order_key x.2 ≠ k.
Proof.
  intros HP Hr Hne x Hx <-. destruct (queued_view sdc x Hx HP) as (_ & _ & ref' & Hr' & Hi & _).
  rewrite Hr in Hr'. by injection Hr' as <-.
Qed.

Lemma matched_entries j sd x : x ∈ queue sd (book_after sdc b (outcome_of o b)) → ours x →
  order_key x.2 ≠ kin ∧ fill_view j !! order_key x.2 = Some (resting_view id x.2) ∧
  ∃ ref, orders_ e !! order_key x.2 = Some ref ∧ or_instrument_id ref = id ∧ or_handle ref = x.1.
Proof.
  destruct (matched_view j) as (_ & _ & Hleft & Hother & _). pose proof (submit_book n o b e HI Hk Hb) as Hok.
  revert x. apply (side_cases sdc (λ sd, ∀ x, x ∈ queue sd _ → ours x → _)); intros x Hx Ho.
  - rewrite queue_book_after in Hx. assert (0 ≤ ero_remaining_quantity o) as H0 by lia.
    destruct (fill_left _ _ _ _ x H0 (book_live _ _ sdc Hok) Hx) as (x0 & Hx0 & Es & Ec).
    assert (order_key x0.2 = order_key x.2) as Ek by (destruct Ec as [->|(q & _ & ->)]; done).
    destruct (queued_view sdc x0 Hx0) as (Hne & _ & Hr); [by eapply (ours_key x)|].
    rewrite Ek in Hne, Hr. rewrite Es. split; [done|]. split; [by apply Hleft|done].
  - rewrite queue_book_after_contra in Hx. destruct (queued_view _ x Hx Ho) as (Hne & Hv & Hr).
    split; [done|]. split; [|done]. rewrite Hother; [done..|].
    intros y Hy E. assert (x = y) as <- by (by eapply (mirrors_apart n e _ id b)).
    pose proof (bk_entry _ _ Hok _ x Hx) as [E1 _]. pose proof (bk_entry _ _ Hok _ x Hy) as [E2 _].
    rewrite E1 in E2. by destruct (ero_side o).
Qed.

Lemma matched_mirrors j :
  mirrors (engine_after id sdc b e (outcome_of o b)) (delete kin (fill_view j)).
Proof.
  destruct (matched_view j) as (_ & _ & _ & Hother & _).
  apply (mirrors_change n e (delete kin v) _ id b); try done.
  - intros sd x Hxq Ho. destruct (matched_entries j sd x Hxq Ho) as (Hne & Hv & ref & Hr & Hri & Hrh).
    split; [rewrite lookup_delete_ne by congruence; done|]. exists ref.
    by rewrite (matched_dir j (order_key x.2) _ Ho Hne Hv).
  - intros k ref HP Hr Hne. pose proof (foreign_key k ref HP Hr Hne) as Hf.
    assert (k ≠ kin) as Hkin by (intros ->; by rewrite (Hfree HP) in Hr).
    rewrite !lookup_delete_ne by congruence. split; [by apply Hother|].
    rewrite orders_after_other; [done|]. intros f Hff _ E. apply (Hf (fl_entry f)); [|done].
    pose proof (submit_book n o b e HI Hk Hb) as Hok.
    by eapply (fill_sound (ero_side o) (ero_price o)); [|by apply (book_live n)|exact Hff]; lia.
  - intros k w HP [Hne Hw]%lookup_delete_Some Ht. rewrite (matched_dir j k w HP) by congruence.
    destruct (decide (k ∈ (λ x, order_key x.2) <$> queue sdc b)) as [Hin'|Hno].
    + apply list_elem_of_fmap in Hin' as (x & -> & Hx).
      destruct (queued_view sdc x Hx HP) as (_ & _ & ref & -> & _). eauto.
    + rewrite Hother in Hw; [|done|congruence|].
      * apply (mr_dir _ _ HM k w HP); [by rewrite lookup_delete_ne|done].
      * intros x Hx <-. apply Hno, list_elem_of_fmap. by exists x.
Qed.
End submit.

(** An order the books do not know has no bearing on them. *)
Lemma mirrors_extend e (k : LiveKey) v : mirrors e (delete k v) → (P k.1 → vacant k v) → mirrors e v.
Proof.
  intros [He Hd] Hv. split.
  - intros id b sd x Hk Hb Hx Ho. destruct (He id b sd x Hk Hb Hx Ho) as [[_ E]%lookup_delete_Some Hr].
    by split.
  - intros k' w HP Hw Ht. destruct (decide (k' = k)) as [->|Hne]; [by destruct (Hv HP w Hw)|].
    apply (Hd k' w); [done|by rewrite lookup_delete_ne|done].
Qed.

Lemma mirrors_delete e (k : LiveKey) v : mirrors e v → (P k.1 → orders_ e !! k = None) → mirrors e (delete k v).
Proof.
  intros [He Hd] Hk. split.
  - intros id b sd x Hkn Hb Hx Ho. destruct (He id b sd x Hkn Hb Hx Ho) as [E (ref & Hr & ?)].
    split; [|by exists ref]. rewrite lookup_delete_ne; [done|]. intros ->. by rewrite Hk in Hr.
  - intros k' w HP [_ Hw]%lookup_delete_Some. by apply Hd.
Qed.

Lemma rest_book_queue o b sd x : x ∈ queue sd (rest_book o b) →
  x ∈ queue sd b ∨ (sd = ero_side o ∧ x = (next_slot b, book_order o)).
Proof.
  unfold rest_book. revert x. apply (side_cases (ero_side o) (λ sd, ∀ x, x ∈ queue sd _ →
    x ∈ queue sd b ∨ (sd = ero_side o ∧ x = (next_slot b, book_order o)))); intros x.
  - rewrite queue_with_queue, insert_back_in. intros [->|Hx]; [by right|by left].
  - rewrite queue_with_contra. intros Hx. left.
    unfold ABook.take_slot in Hx. destruct (free b); by destruct (ero_side o).
Qed.

Lemma rest_mirrors n o b e v : inv n e → knows_instrument (ero_instrument_id o) e = true →
  book_for (ero_instrument_id o) e = Some b → mirrors e (delete (incoming_key o) v) →
  (P (incoming_key o).1 → orders_ e !! incoming_key o = None) →
  (P (incoming_key o).1 → v !! incoming_key o =
     if ero_remaining_quantity o =? 0 then None else Some (incoming_view o)) →
  mirrors (rest_state o b e) v.
Proof.
  intros HI Hk Hb HM Hfree Hin. unfold rest_state, rests.
  destruct (bool_decide_reflect (ero_time_in_force o = GTC)) as [Ht|Ht]; cbn [andb].
  2: { apply (mirrors_extend _ (incoming_key o)); [done|]. intros HP w. rewrite (Hin HP).
       case_bool; [done|]. by intros [= <-]. }
  destruct (Z.eqb_spec (ero_remaining_quantity o) 0) as [Hz|Hz]; cbn [negb].
  { apply (mirrors_extend _ (incoming_key o)); [done|]. intros HP w. by rewrite (Hin HP). }
  apply (mirrors_change n e (delete (incoming_key o) v) _ (ero_instrument_id o) b); try done;
    fold (incoming_key o).
  - intros sd x [Hx|[-> ->]]%rest_book_queue Ho.
    + destruct (mr_entry _ _ HM _ _ _ _ Hk Hb Hx Ho) as [[Hne Hv]%lookup_delete_Some Hr].
      split; [done|]. by rewrite lookup_insert_ne.
    + change (order_key (next_slot b, book_order o).2) with (incoming_key o).
      split; [change (order_key _) with (incoming_key o); rewrite Hin by exact Ho; done|].
      exists (rest_ref o b). change (order_key _) with (incoming_key o). by rewrite lookup_insert_eq.
  - intros k ref HP Hr _. assert (incoming_key o ≠ k) as Hne.
    { intros <-. by rewrite (Hfree HP) in Hr. }
    by rewrite lookup_delete_ne, lookup_insert_ne.
  - intros k w HP Hw Htw. rewrite lookup_insert. case_decide as Ek; [eauto|].
    apply (mr_dir _ _ HM k w HP); [by rewrite lookup_delete_ne|done].
Qed.

(** ** An order submitted *)

Lemma submit_mirrors n o cs b e v j : inv n e → knows_instrument (ero_instrument_id o) e = true →
  book_for (ero_instrument_id o) e = Some b → 0 < ero_remaining_quantity o < 2 ^ 64 →
  mirrors e (delete (incoming_key o) v) → (P (incoming_key o).1 → orders_ e !! incoming_key o = None) →
  (P (incoming_key o).1 → v !! incoming_key o = Some (incoming_view o)) →
  coherent_all P (submit_events o cs b j) v ∧
  mirrors (submit_state o b e) (track_all (submit_events o cs b j) v).
Proof.
  intros HI Hk Hb Hq HM Hfree Hin.
  assert (agreed_incoming o (ero_remaining_quantity o) v) as Hin'.
  { intros HP. rewrite (Hin HP), (proj2 (Z.eqb_neq _ _)) by lia. by destruct o. }
  destruct (matched_view n o cs b e v HI Hk Hb Hq HM Hin' j) as (Hc & Hleft & _).
  pose proof (matched_mirrors n o cs b e v HI Hk Hb Hq HM Hfree Hin' j) as HM1.
  unfold submit_events, submit_state. rewrite coherent_all_app, track_all_app.
  fold (fill_view o cs b v j) in *. set (v1 := fill_view o cs b v j) in *.
  assert (∀ v, coherent_all P (rest_events (matched o b) (seq_after j (oc_fills (outcome_of o b)))) v ∧
    track_all (rest_events (matched o b) (seq_after j (oc_fills (outcome_of o b)))) v = v) as Hrest.
  { intros v2. unfold rest_events. by destruct (rests _). }
  destruct (Hrest v1) as [Hc2 ->]. split; [done|].
  apply (rest_mirrors n (matched o b) (book_matched o b)).
  - apply match_inv; try done. lia.
  - done.
  - by apply book_for_engine_after.
  - exact HM1.
  - intros HP. apply eq_None_not_Some. intros [ref Hr].
    destruct (orders_after_lookup _ _ _ _ Hr) as [Hr' _]. change (incoming_key _) with (incoming_key o) in Hr'.
    by rewrite (Hfree HP) in Hr'.
  - exact Hleft.
Qed.

Lemma mirrors_ext e v v' : (∀ k : LiveKey, P k.1 → v !! k = v' !! k) → mirrors e v → mirrors e v'.
Proof.
  intros Hv [He Hd]. split.
  - intros id b sd x Hk Hb Hx Ho. destruct (He id b sd x Hk Hb Hx Ho) as [E Hr]. split; [|done].
    by rewrite <-Hv.
  - intros k w HP Hw. apply (Hd k w HP). by rewrite Hv.
Qed.

(** ** An order removed, an order edited *)

Section located.
Context (n : Z) (e : eng) (v : view) (k : LiveKey) (ref : OrderRef) (b : book) (o : BookOrder).

Abbreviation id := (or_instrument_id ref).

Context (HI : inv n e) (HM : mirrors e v) (Hr : orders_ e !! k = Some ref).
Context (Hb : book_for id e = Some b) (Ho : ABook.at_ (or_handle ref) b = Some o) (Hkey : order_key o = k).

Lemma located_known : knows_instrument id e = true ∧ book_ok n b.
Proof. destruct (located _ _ _ _ HI Hr) as (Hk & b' & ? & Hb' & Hok & _). split; [done|]. congruence. Qed.

Lemma located_view : P k.1 → v !! k = Some (resting_view id o) ∧ bo_time_in_force o = GTC.
Proof.
  intros HP. split; [by eapply mirrors_located|]. destruct (at_queue _ _ _ Ho) as [sd Hin].
  by apply (bk_entry _ _ (proj2 located_known) sd (or_handle ref, o)).
Qed.

(** Every other entry answers to another key. *)
Lemma other_key sd x : x ∈ queue sd b → ours x → x.1 ≠ or_handle ref → order_key x.2 ≠ k.
Proof.
  intros Hx Hox Hne E. destruct (mr_entry _ _ HM _ _ _ _ (proj1 located_known) Hb Hx Hox)
    as (_ & ref' & Hr' & _ & Hh). rewrite E, Hr in Hr'. injection Hr' as <-. done.
Qed.

Lemma removed_mirrors : mirrors (removed_state id k (or_handle ref) o b e) (delete k v).
Proof.
  destruct located_known as [Hk Hok].
  destruct (remove_book_ok _ _ _ _ _ Hok (remove_at_run _ _ _ Ho)) as (_ & _ & Hmem).
  set (b2 := with_free _ _) in *.
  change (removed_state _ _ _ _ _ _) with (with_counters (next_exchange_order_id_ e)
    (next_event_sequence_ e) (next_priority_ e) (with_orders (delete k (orders_ e)) (with_book id b2 e))).
  apply (mirrors_change n e v _ id b); try done.
  - intros sd x [Hx Hne]%Hmem Hox. pose proof (other_key sd x Hx Hox Hne) as Hkx.
    destruct (mr_entry _ _ HM _ _ _ _ Hk Hb Hx Hox) as (Hv & ref' & Hr' & ?).
    split; [by rewrite lookup_delete_ne|]. exists ref'. by rewrite lookup_delete_ne.
  - intros k' ref' HP Hr' Hne. assert (k ≠ k') as Hkk by (intros <-; congruence).
    by rewrite !lookup_delete_ne.
  - intros k' w HP [Hne Hw]%lookup_delete_Some Ht. rewrite lookup_delete_ne by done.
    by apply (mr_dir _ _ HM k' w).
Qed.

(** The edit of a replace that keeps its place. *)
Lemma edited_mirrors (k' : LiveKey) f w : (k' = k ∨ (P k.1 → orders_ e !! k' = None)) → k'.1 = k.1 →
  (∀ o, bo_price (f o) = bo_price o ∧ bo_side (f o) = bo_side o ∧ bo_time_in_force (f o) = bo_time_in_force o) →
  0 < bo_remaining_quantity (f o) < 2 ^ 64 → order_key (f o) = k' → w = resting_view id (f o) →
  mirrors (with_orders (<[k' := ref]> (delete k (orders_ e)))
    (with_book id (edited_book (or_handle ref) f (bo_side o) b) e)) (<[k' := w]> (delete k v)).
Proof.
  intros Hfree Hacc Hf Hq Hk' ->. destruct located_known as [Hk Hok].
  destruct (update_book_ok _ _ _ _ _ Hok (update_at_run _ f _ _ Ho) Hf) as (_ & _ & _ & _ & Hqs).
  { intros ? [= <-]%(eq_trans (eq_sym Ho)). done. }
  change (with_orders ?m ?x) with (with_counters (next_exchange_order_id_ e) (next_event_sequence_ e)
    (next_priority_ e) (with_orders m x)).
  apply (mirrors_change n e v _ id b); try done.
  - intros sd x Hx Hox. rewrite Hqs in Hx. apply list_elem_of_fmap in Hx as (y & -> & Hy).
    destruct (Z.eqb_spec y.1 (or_handle ref)) as [Es|Es].
    + destruct y as [h y]. simpl in Es. subst h. apply (queue_at n) in Hy; [|done].
      rewrite Ho in Hy. injection Hy as <-. unfold mirrored. simpl. rewrite Hk', !lookup_insert_eq.
      split; [done|]. by exists ref.
    + pose proof (other_key sd y Hy Hox Es) as Hky.
      destruct (mr_entry _ _ HM _ _ _ _ Hk Hb Hy Hox) as (Hv & ref' & Hr' & ?).
      assert (k' ≠ order_key y.2) as Hky'.
      { destruct Hfree as [->|Hfree]; [congruence|]. intros E. rewrite <-E, Hfree in Hr'; [done|].
        rewrite <-Hacc, E. exact Hox. }
      split; [by rewrite lookup_insert_ne, lookup_delete_ne|]. exists ref'.
      by rewrite lookup_insert_ne, lookup_delete_ne.
  - intros k2 ref2 HP Hr2 Hne. assert (k ≠ k2) as Hk2 by (intros <-; congruence).
    assert (k' ≠ k2) as Hk2'.
    { destruct Hfree as [->|Hfree]; [done|]. intros <-. rewrite Hfree in Hr2; [done|]. by rewrite <-Hacc. }
    by rewrite !lookup_insert_ne, !lookup_delete_ne.
  - intros k2 w HP Hw Ht. rewrite lookup_insert. case_decide; [eauto|].
    rewrite lookup_insert_ne in Hw by done. apply lookup_delete_Some in Hw as [Hne Hw].
    rewrite lookup_delete_ne by done. by apply (mr_dir _ _ HM k2 w).
Qed.
End located.

(** ** One command *)

(** A replacement does not take over the id of another live order of its account. *)
Definition replacement_free (c : ExchangeCommand) (e : eng) : Prop :=
  match c with
  | CmdReplace cmd => new_key cmd = old_key cmd ∨ (P (ro_account_id cmd) → orders_ e !! new_key cmd = None)
  | _ => True
  end.

Definition reported (v : view) (e : eng) (evs : list ExchangeEvent) : Prop :=
  coherent_all P evs v ∧ mirrors e (track_all evs v).

Lemma rejection_reported e v r : mirrors e v → reported v (after_rejection e) [EvRejected r].
Proof. intros HM. split; [by split|]. by apply mirrors_counters. Qed.

Lemma new_order_reported n e v cmd : inv n e → mirrors e v → n < MatchingBook.kNil → command_ok (CmdNew cmd) →
  wp (process_new_order cmd) e (λ _ e' evs, inv (n + 1) e' ∧ reported v e' evs).
Proof.
  intros HI HM Hn Hc. simpl in Hc. destruct (new_order_reason cmd e) as [reason|] eqn:Hr.
  { eapply wp_intro; [apply (process_new_order_rejected _ _ _ Hr)|].
    - intros Hk. destruct (known_book _ _ _ HI Hk) as (b & ? & _). eauto.
    - split; [by apply rejection_inv|by apply rejection_reported]. }
  pose proof Hr as Hr'. unfold new_order_reason in Hr'.
  destruct (knows_instrument _ e) eqn:Hk; cbn [negb] in Hr'; [|done].
  destruct (Z.leb_spec (no_price cmd) 0); [done|]. destruct (Z.eqb_spec (no_quantity cmd) 0); [done|].
  case_bool_decide as Hlive; [done|]. clear Hr'. apply eq_None_not_Some in Hlive.
  destruct (known_book _ _ _ HI Hk) as (b & Hb & Hok).
  assert (price_safe (no_price cmd)) as Hp by (unfold price_safe; lia).
  destruct (process_new_order_accepted cmd n e b HI Hr Hb Hp) as [Hrun HI']; [lia..|].
  eapply wp_intro; [exact Hrun|]. split; [exact HI'|]. unfold reported. cbn [coherent_all track_all].
  set (k := incoming_key (new_order cmd e)). set (v1 := track (accepted_event cmd e) v).
  destruct (submit_mirrors n (new_order cmd e) (no_command_sequence cmd) b (announced e) v1
    (next_seq (next_event_sequence_ e))) as [Hc2 HM2]; try done.
  - by apply (inv_counters n n).
  - simpl. lia.
  - fold k. apply mirrors_counters, (mirrors_ext _ (delete k v)); [|by apply mirrors_delete].
    intros k' _. unfold v1. simpl. fold k. rewrite !lookup_delete. case_decide; [done|].
    by rewrite lookup_insert_ne.
  - intros _. unfold v1. simpl. by rewrite lookup_insert_eq.
  - split; [|exact HM2]. split; [|exact Hc2]. intros HP. split; [|done]. by apply (mirrors_vacant e).
Qed.

Lemma cancel_reported n e v cmd : inv n e → mirrors e v →
  wp (process_cancel cmd) e (λ _ e' evs, inv (n + 1) e' ∧ reported v e' evs).
Proof.
  intros HI HM. destruct (cancel_reason cmd e) as [reason|] eqn:Hr.
  { eapply wp_intro; [apply (process_cancel_rejected _ _ _ Hr)|].
    split; [by apply rejection_inv|by apply rejection_reported]. }
  destruct (process_cancel_accepted cmd n e HI Hr) as (ref & b & o & Hl & Hb & Ho & Hkey & Hrun & HI').
  eapply wp_intro; [exact Hrun|]. split; [eapply inv_mono; [done|lia]|].
  unfold cancel_reason in Hr. destruct (knows_instrument _ e) eqn:Hk; [|done].
  cbn [negb] in Hr. rewrite Hl in Hr.
  destruct (Z.eqb_spec (or_instrument_id ref) (co_instrument_id cmd)) as [Hid|]; [|done].
  rewrite <-Hid in Hb. split.
  - split; [|by split]. intros HP. exists (resting_view (or_instrument_id ref) o).
    by apply (located_view n e v _ ref b o HI HM Hl Hb Ho Hkey).
  - apply mirrors_counters. unfold cancelled_state. rewrite <-Hid.
    apply (removed_mirrors n e v _ ref b o HI HM Hl Hb Ho).
Qed.

(** What a rename makes of the view, seen by an account in question. *)
Lemma renamed_lookup (v : view) (e : OrderReplaced) w (k : LiveKey) :
  (P (orp_account_id e) → v !! original_key e = Some w) → P k.1 →
  track (EvReplaced e) v !! k = <[renamed_key e := renamed_order e w]> (delete (original_key e) v) !! k.
Proof.
  intros Hw HP. simpl. destruct (decide (k.1 = orp_account_id e)) as [E|E].
  - by rewrite Hw by by rewrite <-E.
  - assert (original_key e ≠ k ∧ renamed_key e ≠ k) as [H1 H2] by (split; intros <-; by apply E).
    rewrite lookup_insert_ne, lookup_delete_ne by done.
    destruct (v !! original_key e); [by rewrite lookup_insert_ne, lookup_delete_ne|done].
Qed.

Section replace.
Context (n : Z) (e : eng) (v : view) (cmd : ReplaceOrderCommand) (ref : OrderRef) (b : book) (o : BookOrder).

Abbreviation id := (or_instrument_id ref).

Context (HI : inv n e) (HM : mirrors e v) (Hr : orders_ e !! old_key cmd = Some ref).
Context (Hid : id = ro_instrument_id cmd).
Context (Hb : book_for id e = Some b) (Ho : ABook.at_ (or_handle ref) b = Some o).
Context (Hkey : order_key o = old_key cmd).
Context (Hfree : replacement_free (CmdReplace cmd) e) (Hq : 0 < ro_new_quantity cmd < 2 ^ 64).

Definition rename (oid : ExchangeOrderId) (k : EventSequence) : OrderReplaced :=
  mkOrderReplaced k (ro_command_sequence cmd) (ro_account_id cmd) (ro_original_client_order_id cmd)
    (ro_new_client_order_id cmd) oid (ro_instrument_id cmd) (ro_new_price cmd) (ro_new_quantity cmd).

Definition renamed (oid : ExchangeOrderId) : open_order :=
  mkOpen oid (ro_instrument_id cmd) (bo_side o) (ro_new_price cmd) (ro_new_quantity cmd) (bo_time_in_force o).

Lemma rename_coherent oid k : coherent P (EvReplaced (rename oid k)) v.
Proof.
  intros HP. destruct (located_view n e v _ ref b o HI HM Hr Hb Ho Hkey HP) as [Hv Ht].
  split; [by exists (resting_view id o)|]. split; [|simpl; lia].
  destruct Hfree as [E|Hno]; [by left|]. right. apply (mirrors_vacant e); [done|done|]. by apply Hno.
Qed.

Lemma rename_track oid k (k' : LiveKey) : P k'.1 →
  track (EvReplaced (rename oid k)) v !! k' = <[new_key cmd := renamed oid]> (delete (old_key cmd) v) !! k'.
Proof.
  intros HP. apply (renamed_lookup v (rename oid k) (resting_view id o)); [|done].
  intros HP'. by apply (located_view n e v _ ref b o HI HM Hr Hb Ho Hkey HP').
Qed.

Lemma in_place_reported evs k : preserves_priority cmd o = true →
  evs = replaced_events cmd (bo_exchange_order_id o) k
    (λ n, EvReduced (mkBookOrderReduced n (ro_instrument_id cmd) (bo_exchange_order_id o)
      (bo_side o) (bo_price o) (ro_new_quantity cmd))) →
  reported v (replaced_in_place cmd ref o b e) evs.
Proof.
  intros [Ep _]%andb_true_iff ->. split; [split; [apply rename_coherent|by split]|].
  apply mirrors_counters. rewrite <-Hid. eapply mirrors_ext; [intros k' HP; symmetry; by apply rename_track|].
  apply (edited_mirrors n e v (old_key cmd) ref b o HI HM Hr Hb Ho); try done.
  - unfold order_key, old_key, new_key in *. simpl. congruence.
  - unfold renamed, resting_view. simpl. apply Z.eqb_eq in Ep. by rewrite Ep, Hid.
Qed.

Lemma replaced_out_free : P (incoming_key (replacement cmd o e)).1 →
  orders_ (replaced_out cmd ref o b e) !! incoming_key (replacement cmd o e) = None.
Proof.
  intros HP. change (incoming_key _) with (new_key cmd) in *. simpl. rewrite lookup_delete. case_decide; [done|].
  destruct Hfree as [E|Hno]; [congruence|]. by apply Hno.
Qed.

(** The state between the order's removal and its return. *)
Lemma replaced_out_mirrors oid k : mirrors (replaced_out cmd ref o b e)
  (delete (incoming_key (replacement cmd o e)) (track (EvReplaced (rename oid k)) v)).
Proof.
  apply mirrors_counters. change (incoming_key _) with (new_key cmd). rewrite <-Hid.
  apply (mirrors_ext _ (delete (new_key cmd) (delete (old_key cmd) v))).
  - intros k' HP. rewrite lookup_delete. case_decide; [subst; by rewrite lookup_delete_eq|].
    rewrite (lookup_delete_ne (track _ _)) by done. rewrite rename_track by done.
    by rewrite lookup_insert_ne.
  - apply mirrors_delete; [by apply (removed_mirrors n e v _ ref b o HI HM Hr Hb Ho)|].
    intros HP. simpl. rewrite lookup_delete. case_decide; [done|]. destruct Hfree as [E|Hno]; [congruence|].
    by apply Hno.
Qed.

Lemma as_new_reported k : n < MatchingBook.kNil →
  let b1 := removed_book (or_handle ref) o b in
  reported v (submit_state (replacement cmd o e) b1 (replaced_out cmd ref o b e))
    (replaced_events cmd (next_exchange_order_id_ e) k
       (λ n, EvRemoved (mkBookOrderRemoved n (ro_instrument_id cmd) (bo_exchange_order_id o)
          (bo_side o) (bo_price o))) ++
     submit_events (replacement cmd o e) (ro_command_sequence cmd) b1 (next_seq (next_seq k))).
Proof.
  intros Hn b1. unfold reported. rewrite coherent_all_app, track_all_app. unfold replaced_events.
  cbn [coherent_all track_all].
  change (EvReplaced _) with (EvReplaced (rename (next_exchange_order_id_ e) k)). set (ev := EvReplaced _).
  change (track (EvRemoved _) ?x) with x. set (v1 := track ev v).
  destruct (submit_mirrors n (replacement cmd o e) (ro_command_sequence cmd) b1 (replaced_out cmd ref o b e)
    v1 (next_seq (next_seq k))) as [Hc HM2].
  - apply (inv_counters n n); [|lia]. rewrite <-Hid. by apply removed_inv.
  - change (knows_instrument (ro_instrument_id cmd) e = true). rewrite <-Hid. by apply (located _ _ _ _ HI Hr).
  - pose proof Hb as Hb2. rewrite Hid in Hb2. apply (book_for_with _ b1 b e Hb2).
  - done.
  - apply replaced_out_mirrors.
  - apply replaced_out_free.
  - intros HP. change (incoming_key _) with (new_key cmd) in *. unfold v1, ev. rewrite rename_track by done.
    by rewrite lookup_insert_eq.
  - split; [|exact HM2]. split; [|exact Hc]. split; [apply rename_coherent|by split].
Qed.
End replace.

Lemma replace_reported n e v cmd : inv n e → mirrors e v → n < MatchingBook.kNil →
  command_ok (CmdReplace cmd) → replacement_free (CmdReplace cmd) e →
  wp (process_replace cmd) e (λ _ e' evs, inv (n + 1) e' ∧ reported v e' evs).
Proof.
  intros HI HM Hn Hc Hfree. simpl in Hc. destruct (replace_reason cmd e) as [reason|] eqn:Hr.
  { eapply wp_intro; [apply (process_replace_rejected _ _ _ Hr)|].
    split; [by apply rejection_inv|by apply rejection_reported]. }
  pose proof Hr as Hr'. unfold replace_reason in Hr'.
  destruct (knows_instrument _ e) eqn:Hk; cbn [negb] in Hr'; [|done].
  destruct (Z.leb_spec (ro_new_price cmd) 0); [done|]. clear Hr'.
  assert (price_safe (ro_new_price cmd)) as Hp by (unfold price_safe; lia).
  destruct (process_replace_accepted cmd n e HI Hr Hp Hn ltac:(lia))
    as (ref & b & o & Hl & Hid & Hb & Hok & Ho & Hkey & Hpos & Hrun).
  assert (book_for (or_instrument_id ref) e = Some b) as Hb' by by rewrite Hid.
  unfold wp. rewrite Hrun. destruct (preserves_priority cmd o) eqn:Epp.
  - rewrite (replace_in_place_run cmd ref b o e n) by (done || lia). split.
    { eapply inv_mono; [apply (replaced_in_place_inv n); try done; lia|lia]. }
    by apply (in_place_reported n e v cmd ref b o HI HM Hl Hid Hb' Ho Hkey Hfree ltac:(lia) _ (next_event_sequence_ e)).
  - destruct (replace_as_new_run cmd ref b o e n) as [-> ?]; try done; [lia|]. split; [done|].
    by apply (as_new_reported n e v cmd ref b o HI HM Hl Hid Hb' Ho Hkey Hfree ltac:(lia)).
Qed.

Lemma process_reported n e v c : inv n e → mirrors e v → n < MatchingBook.kNil → command_ok c →
  replacement_free c e → wp (process c) e (λ _ e' evs, inv (n + 1) e' ∧ reported v e' evs).
Proof.
  intros HI HM Hn Hc Hf.
  destruct c; [by apply new_order_reported|by apply cancel_reported|by apply replace_reported].
Qed.

End accounts.
End OpenOrders.
