(* ===== verification/ReportProps.v ===== *)
(** * What a command is answered with, and the exchange's reports

    Every event of a command answers it ([process_answers]); one command of the
    risk-gated exchange keeps the view of its events, the books and the ledger's holds
    together ([exchange_step]). *)

From S2P Require Import Prelude Types Effects MatchingBook BookSpec BookQueue BookRefinement.
From S2P Require Import MatchingEngine EngineRefinement EngineMatching EngineInvariant EngineTotal EngineStart EngineProps.
From S2P Require Import Ledger Risk RiskGated Reports OpenOrders.

Module ReportProps.
Import BookRefinement MatchingEngine EngineRefinement EngineMatching EngineInvariant EngineTotal EngineStart EngineProps.
Import RiskEngine RiskGatedEngine Reports OpenOrders.

Abbreviation gated := (RiskGatedEngine.t MatchingBook.t).

(** ** The events of a computation *)

Section emits.
Context {B : Type} `{HB : BookOps B} (Q : ExchangeEvent → Prop).

Definition emits {A} (m : eff (MatchingEngine.t B) ExchangeEvent A) : Prop :=
  ∀ e a e' o, m e = Some (a, e', o) → Forall Q o.

Lemma emits_bind {A C} (m : eff (MatchingEngine.t B) ExchangeEvent A) (k : A → eff (MatchingEngine.t B) ExchangeEvent C) :
  emits m → (∀ a, emits (k a)) → emits (ebind m k).
Proof.
  intros Hm Hk e c e' o. unfold ebind. destruct (m e) as [[[a e1] o1]|] eqn:E1; [|done].
  destruct (k a e1) as [[[c' e2] o2]|] eqn:E2; [|done]. intros [= <- <- <-].
  apply Forall_app. split; [by eapply Hm|by eapply Hk].
Qed.

Lemma emits_ret {A} (a : A) : emits (eret a).
Proof. by intros e ? e' o [= <- <- <-]. Qed.

Lemma emits_get : emits eget.
Proof. by intros e ? e' o [= <- <- <-]. Qed.

Lemma emits_fail {A} : emits (efail : eff (MatchingEngine.t B) ExchangeEvent A).
Proof. done. Qed.

Lemma emits_read {A} (f : MatchingEngine.t B → option A) : emits (eread f).
Proof. intros e a e' o. unfold eread. destruct (f e); [|done]. by intros [= <- <- <-]. Qed.

Lemma emits_modify f : emits (emodify f).
Proof. by intros e ? e' o [= <- <- <-]. Qed.

Lemma emits_update {A} (f : MatchingEngine.t B → option (A * MatchingEngine.t B)) : emits (eupdate f).
Proof. intros e a e' o. unfold eupdate. destruct (f e) as [[]|]; [|done]. by intros [= <- <- <-]. Qed.

Lemma emits_sink ev : (∀ n, Q (ev n)) → emits (sink ev).
Proof. intros H e ? e' o [= <- <- <-]. by constructor. Qed.
End emits.

Create HintDb emits.
#[export] Hint Resolve emits_ret emits_get emits_fail emits_read emits_modify emits_update : emits.
#[export] Hint Unfold on_book change_book change_book_ lookup_order insert_or_assign erase_order
  take_exchange_order_id take_priority : emits.

Ltac emits_step :=
  first
    [ solve [eauto with emits] | apply emits_bind; [|intros ?] | apply emits_sink; intros ?
    | match goal with |- emits _ (if ?b then _ else _) => destruct b end
    | match goal with |- emits _ (match ?x with _ => _ end) => destruct x end ].

Section answers.
Context {B : Type} `{HB : BookOps B}.

Lemma emits_match_loop c cs n : ∀ incoming, emits (B := B) (answers c) (match_loop n incoming cs).
Proof.
  assert (∀ incoming o, emits (B := B) (answers c) (match_step incoming cs o)) as Hstep.
  { intros incoming o. unfold match_step. repeat emits_step; by destruct c. }
  induction n as [|n IH]; intros incoming; simpl; repeat emits_step; done.
Qed.

Lemma emits_match_and_rest c cs incoming : emits (B := B) (answers c) (match_and_rest incoming cs).
Proof. unfold match_and_rest. repeat emits_step. intros ?. apply emits_match_loop. Qed.

Lemma emits_rest c o : emits (B := B) (answers c) (rest_remainder_if_applicable o).
Proof. unfold rest_remainder_if_applicable. repeat emits_step; by destruct c. Qed.

Hint Resolve emits_match_and_rest emits_rest : emits.

(** Every event of a command answers it. *)
Lemma process_answers c : emits (B := B) (answers c) (MatchingEngine.process c).
Proof.
  destruct c; simpl; [unfold process_new_order|unfold process_cancel|unfold process_replace];
    unfold accept_new_order, replace_in_place, replace_as_new, reject_new_order, reject_cancel,
      reject_replace_order; repeat emits_step; done.
Qed.
End answers.

(** ** One command of the exchange *)

(** The view [v] is that of the gated exchange [g]: what rests in its books, and what
    its ledger holds, for the accounts in question. [f] is the specification of its
    engine. *)
Record exchange_view (P : AccountId → Prop) (n : Z) (g : gated) (f : eng) (v : view) : Prop := {
  ev_represents : represents n (engine_ g) f;
  ev_mirrors : mirrors P f v;
}.

(** A refused command and an accepted one alike: coherent events that answer it, and the
    view after them. *)
Lemma exchange_step P n g f v c : exchange_view P n g f v → n < MatchingBook.kNil → command_ok c →
  replacement_free P c f →
  ∃ g' f' evs, process c g = Some (g', evs) ∧ Forall (answers c) evs ∧ coherent_all P evs v ∧
    exchange_view P (n + 1) g' f' (track_all evs v) ∧
    ledger_ g' = Ledger.apply_all evs (ledger_ g).
Proof.
  intros [[HE HI] HM] Hn Hc Hf. rewrite process_cases. destruct (refusal c g) as [reason|] eqn:Href.
  - eexists _, (count_event f), _. split; [done|]. split; [|split; [|split]].
    + constructor; [|constructor]. by destruct c.
    + split; [|done]. by destruct c.
    + split.
      * destruct (represents_count _ _ _ (conj HE HI)) as [HE' HI']. split; [done|]. eapply inv_mono; [done|lia].
      * replace (track_all _ v) with v by by destruct c. by apply mirrors_counters.
    + by destruct c.
  - destruct (wp_elim _ _ _ (process_reported P n f v c HI HM Hn Hc Hf)) as ([] & f' & evs & Hr & HI' & Hrep).
    destruct (represents_step (n + 1) _ _ _ _ _ HE HI' Hr) as (e' & He & HR').
    unfold forward. rewrite He. simpl. eexists _, f', evs. split; [done|].
    split; [by apply (process_answers c (engine_ g) tt e' evs)|]. by destruct Hrep.
Qed.

(** ** A session *)

(** No command reuses an id. *)
Definition ids_once (cs : list ExchangeCommand) : Prop := NoDup (omap introduced cs).

(** The hold an order rests with: looked up in the directory, read off its book. *)
Definition resting_hold (e : real) (k : LiveKey) : option Ledger.Hold :=
  ref ← orders_ e !! k; b ← book_for (or_instrument_id ref) e; o ← MatchingBook.at_ (or_handle ref) b;
  Some (Ledger.mkHold (or_instrument_id ref) (bo_side o) (bo_price o) (bo_remaining_quantity o)).

Lemma resting_hold_view n e f v k : represents n e f → mirrors everyone f v →
  resting_hold e k = v !! k ≫= hold_of.
Proof.
  intros [HE HI] HM. unfold resting_hold. rewrite (er_orders _ _ _ HE).
  destruct (orders_ f !! k) as [ref|] eqn:Hr; cbn [mbind option_bind].
  - destruct (located _ _ _ _ HI Hr) as (_ & b & o & Hb & _ & Ho & Hkey).
    destruct (er_book_for _ _ _ _ _ HE Hb) as (b' & -> & HR). cbn [mbind option_bind].
    pose proof (ref_at (B := MatchingBook.t) (A := ABook.t) (R := Rep) b' b (or_handle ref) HR o Ho) as Ho'.
    simpl in Ho'. rewrite Ho'. cbn [mbind option_bind].
    destruct (located_view everyone n f v k ref b o HI HM Hr Hb Ho Hkey I) as [-> Ht].
    cbn [mbind option_bind]. by rewrite hold_gtc.
  - symmetry. apply hold_none. by apply (mirrors_vacant everyone f).
Qed.

(** A live order is in the view. *)
Lemma live_view P n g f v (k : LiveKey) : exchange_view P n g f v → P k.1 → is_Some (orders_ f !! k) →
  is_Some (v !! k).
Proof.
  intros [[_ HI] HM] HP [ref Hr]. destruct (located _ _ _ _ HI Hr) as (_ & b & o & Hb & _ & Ho & Hkey).
  destruct (located_view P n f v k ref b o HI HM Hr Hb Ho Hkey HP) as [-> _]. eauto.
Qed.

Lemma unused_free P n g f v c (used : list LiveKey) : exchange_view P n g f v →
  (∀ k, is_Some (v !! k) → k ∈ used) → (∀ k, introduced c = Some k → k ∉ used) → replacement_free P c f.
Proof.
  intros HX Hv Hc. destruct c as [c|c|c]; try done. simpl in *. unfold new_key, old_key.
  destruct (Z.eqb_spec (ro_new_client_order_id c) (ro_original_client_order_id c)) as [E|E];
    [left; by rewrite E|].
  right. intros HP. apply eq_None_not_Some. intros Hs. apply (Hc _ eq_refl), Hv. by eapply live_view.
Qed.

Lemma run_view cs : ∀ n g f v used, exchange_view everyone n g f v → holds_follow v (ledger_ g) →
  (∀ k, is_Some (v !! k) → k ∈ used) → NoDup (used ++ omap introduced cs) →
  n + vsize cs ≤ MatchingBook.kNil → Forall command_ok cs → Ledger.reserved_ok (ledger_ g) →
  ∃ g' f' evs, run cs g = Some (g', evs) ∧ exchange_view everyone (n + vsize cs) g' f' (track_all evs v) ∧
    holds_follow (track_all evs v) (ledger_ g') ∧ Ledger.reserved_ok (ledger_ g').
Proof.
  induction cs as [|c cs IH]; intros n g f v used HX Hl Hv Hu Hn Hok HR.
  { exists g, f, []. change (vsize []) with 0. rewrite Z.add_0_r. done. }
  apply Forall_cons in Hok as [Hc Hcs]. unfold vsize in *. simpl length in *.
  assert (∀ k, introduced c = Some k → k ∉ used) as Hnew.
  { intros k Hk Hin. simpl in Hu. rewrite Hk in Hu. apply NoDup_app in Hu as (_ & Hd & _).
    apply (Hd k Hin). by left. }
  destruct (exchange_step everyone n g f v c HX) as (g1 & f1 & evs1 & Hp & Ha & Hco & HX1 & El);
    [lia|done|by eapply unused_free|].
  destruct (ledger_follows_all evs1 v (ledger_ g) Hl Hco) as [Hl1 Hfits]. rewrite <-El in Hl1.
  destruct (IH (n + 1) g1 f1 (track_all evs1 v) (used ++ option_list (introduced c)) HX1 Hl1)
    as (g' & f' & evs' & Hr & HX' & Hl' & HR').
  - intros k Hk. apply elem_of_app. destruct (track_all_keys k c evs1 v Ha Hk) as [H| ->];
      [left; by apply Hv|right; simpl; by left].
  - rewrite <-app_assoc. simpl in Hu. by destruct (introduced c).
  - lia.
  - done.
  - rewrite El. by apply Ledger.reservations_are_holds.
  - exists g', f', (evs1 ++ evs'). simpl. rewrite Hp. simpl. rewrite Hr. simpl. split; [done|].
    rewrite track_all_app. split; [|done].
    by replace (n + Z.of_nat (S (length cs))) with (n + 1 + Z.of_nat (length cs)) by lia.
Qed.

(** Before the first command. *)
Lemma mirrors_start P f : inv 0 f → mirrors P f ∅.
Proof.
  intros HI. split; [|by intros k w _ ?%lookup_empty_Some].
  intros id b sd x Hk Hb Hx _. exfalso. destruct (known_book _ _ _ HI Hk) as (b' & Hb' & Hok).
  rewrite Hb in Hb'. injection Hb' as <-. pose proof (bk_size _ _ Hok).
  pose proof (book_slots _ _ sd Hok) as Hs. replace (ABook.size b) with 0 in Hs by lia.
  apply Permutation_nil_r, app_eq_nil in Hs as [Hs _]. apply (list_elem_of_fmap_2 fst) in Hx.
  rewrite Hs in Hx. by apply not_elem_of_nil in Hx.
Qed.

Lemma exchange_start P universe n l limits : Forall in_u32 universe → vsize universe < kNoSlot →
  ∃ (e : real) f, make universe n = Some e ∧ exchange_view P 0 (start e l limits) f ∅.
Proof.
  intros Hu Hsz. destruct (make_total universe n Hu Hsz) as (f0 & Hf0 & _ & HI & _).
  destruct (er_make Rep universe n f0 Hu Hsz Hf0) as (e0 & He0 & HE).
  exists e0, f0. split; [done|]. split; [done|]. by apply mirrors_start.
Qed.

(** C11: what the ledger has locked is what rests on the books. From construction, with
    whatever deposits, through any session whose commands do not reuse an id: every
    account's reserved cash and units are the sums of its holds, and its holds are
    exactly its resting orders, with their instrument, side, limit and remaining
    quantity. Nothing stays locked behind an order that is gone, and no resting order
    is uncovered. *)
Theorem holds_are_resting_orders universe n limits l cs : session_ok universe cs → ids_once cs →
  Ledger.holds_ l = ∅ → Ledger.reserved_ok l →
  ∃ (e : real) g evs, make universe n = Some e ∧ run cs (start e l limits) = Some (g, evs) ∧
    Ledger.reserved_ok (ledger_ g) ∧
    ∀ a c, Ledger.find_hold a c (ledger_ g) = resting_hold (engine_ g) (a, c).
Proof.
  intros (Hu & Hsz & Hok & Hn) Honce Hl HR.
  destruct (exchange_start everyone universe n l limits Hu Hsz) as (e & f & He & HX).
  destruct (run_view cs 0 (start e l limits) f ∅ []) as (g & f' & evs & Hr & [HRp HM] & Hl' & HR'); try done.
  - intros k. unfold start. simpl. by rewrite Hl, !lookup_empty.
  - intros k [w Hw]. by rewrite lookup_empty in Hw.
  - exists e, g, evs. split; [done|]. split; [done|]. split; [done|]. intros a c.
    rewrite (resting_hold_view _ _ _ _ (a, c) HRp HM). apply Hl'.
Qed.

Lemma sample_ledger_ok : Ledger.reserved_ok sample_ledger.
Proof.
  unfold sample_ledger, Ledger.deposit_position, Ledger.deposit_cash.
  repeat (apply Ledger.reserved_ok_totals; [|done]). apply Ledger.empty_ok.
Qed.

Lemma holds_are_resting_orders_witness :
  ids_once sample_cs ∧
  ∃ (e : real) g evs, make [7] 16 = Some e ∧
    run sample_cs (start e sample_ledger default_limits) = Some (g, evs) ∧
    Ledger.reserved_ok (ledger_ g) ∧
    ∀ a c, Ledger.find_hold a c (ledger_ g) = resting_hold (engine_ g) (a, c).
Proof.
  assert (ids_once sample_cs) as Hids by by apply (bool_decide_unpack _).
  split; [exact Hids|].
  exact (holds_are_resting_orders [7] 16 default_limits sample_ledger sample_cs sample_cs_ok Hids eq_refl
    sample_ledger_ok).
Defined.

End ReportProps.
