(* ===== verification/MessageStream.v ===== *)
(** * Messages over a byte stream

    The two ends of an order-entry connection: [OrderEntryClient] of
    [src/trader/oms/order_entry_client.cpp] and the connection loops of
    [src/exchange/gateway/order_entry_gateway.cpp]. A reader keeps the bytes it has not
    yet decoded and takes whole frames off their front; a writer hands a message's
    bytes to a socket that may take fewer than it is given. *)

From S2P Require Import Prelude Types ByteIo FrameFormat OrderEntryCodec.

Module MessageStream.
Import ByteIo FrameFormat OrderEntryCodec.

(** ** Reading *)

(** One turn of the inner loop of [reader_loop] and [connection_reader_loop]: the frame
    at the front of the buffer, decoded, and the buffer without it; [None] where the
    loop breaks. *)
Definition next_frame (read_buffer : list Z) : option ((Message + DecodeError) * list Z) :=
  match decode_header read_buffer with
  | inr _ => None
  | inl header =>
      let frame_size := Z.of_nat HEADER_SIZE + h_payload_size header in
      if vsize read_buffer <? frame_size then None
      else Some (decode_message (take (Z.to_nat frame_size) read_buffer),
                 drop (Z.to_nat frame_size) read_buffer)
  end.

(** What the sink is handed of a frame: nothing if it does not decode. *)
Definition delivered (frame : Message + DecodeError) : list Message :=
  match frame with inl message => [message] | inr _ => [] end.

(** The inner loop. Every turn takes a header off the buffer, so its length is fuel
    enough. *)
Fixpoint drain_fuel (fuel : nat) (read_buffer : list Z) : list Message * list Z :=
  match fuel with
  | O => ([], read_buffer)
  | S fuel =>
      match next_frame read_buffer with
      | None => ([], read_buffer)
      | Some (frame, read_buffer) =>
          let '(messages, read_buffer) := drain_fuel fuel read_buffer in
          (delivered frame ++ messages, read_buffer)
      end
  end.

Definition drain (read_buffer : list Z) : list Message * list Z :=
  drain_fuel (length read_buffer) read_buffer.

(** The outer loop, over what each [read] returned. *)
Fixpoint feed (chunks : list (list Z)) (read_buffer : list Z) : list Message * list Z :=
  match chunks with
  | [] => ([], read_buffer)
  | chunk :: chunks =>
      let '(messages, read_buffer) := drain (read_buffer ++ chunk) in
      let '(messages', read_buffer) := feed chunks read_buffer in
      (messages ++ messages', read_buffer)
  end.

(** ** Writing *)

(** [while (written < buf.size()) ...], with what each [write] answered: an error, or
    how many bytes it took. The result says whether the whole buffer went out, and what
    did; a socket takes no more than it is given. *)
Fixpoint write_all (answers : list (option nat)) (buf : list Z) : bool * list Z :=
  match buf with
  | [] => (true, [])
  | _ =>
      match answers with
      | Some (S n) :: answers =>
          let '(ok, out) := write_all answers (drop (S n) buf) in (ok, take (S n) buf ++ out)
      | _ => (false, [])
      end
  end.

Definition send (answers : list (option nat)) (message : Message) : bool * list Z :=
  write_all answers (encode_message message []).

(** ** Lemmas *)

Lemma write_all_prefix answers : ∀ buf, (write_all answers buf).2 `prefix_of` buf.
Proof.
  induction answers as [|[[|n]|] answers IH]; intros [|x buf]; try by apply prefix_nil.
  cbn [write_all]. specialize (IH (drop (S n) (x :: buf))). destruct (write_all answers _) as [ok out].
  destruct IH as [k Hk]. exists k. cbn [snd] in *. by rewrite <-app_assoc, <-Hk, take_drop.
Qed.

(** A send that succeeds has written the message, one that fails a proper part of it. *)
Lemma write_all_exact answers : ∀ buf,
  (write_all answers buf).1 = bool_decide ((write_all answers buf).2 = buf).
Proof.
  induction answers as [|[[|n]|] answers IH]; intros [|x buf]; try done.
  cbn [write_all]. specialize (IH (drop (S n) (x :: buf))).
  destruct (write_all answers (drop (S n) (x :: buf))) as [ok out]. cbn [fst snd] in *. subst ok.
  apply bool_decide_ext. rewrite <-(take_drop (S n) (x :: buf)) at 3. split; [by intros ->|].
  by intros ?%app_inv_head.
Qed.

Lemma decode_header_app b c : (HEADER_SIZE ≤ length b)%nat → decode_header (b ++ c) = decode_header b.
Proof.
  intros Hl. unfold decode_header, vsize. rewrite length_app.
  rewrite !(proj2 (Z.ltb_ge _ _)) by lia. by rewrite take_app_le by lia.
Qed.

Lemma decode_header_length b h : decode_header b = inl h → (HEADER_SIZE ≤ length b)%nat.
Proof. unfold decode_header, vsize. destruct (Z.ltb_spec (Z.of_nat (length b)) (Z.of_nat HEADER_SIZE)); [done|lia]. Qed.

(** A frame at the front stays one whatever follows. *)
Lemma next_frame_app b c frame rest : next_frame b = Some (frame, rest) →
  next_frame (b ++ c) = Some (frame, rest ++ c).
Proof.
  unfold next_frame. destruct (decode_header b) as [h|] eqn:Eh; [|done].
  rewrite (decode_header_app b c), Eh by by eapply decode_header_length. cbv zeta.
  destruct (Z.ltb_spec (vsize b) (Z.of_nat HEADER_SIZE + h_payload_size h)); [done|].
  intros [= <- <-]. unfold vsize in *. rewrite length_app, (proj2 (Z.ltb_ge _ _)) by lia.
  rewrite take_app_le, drop_app_le by lia. done.
Qed.

Lemma next_frame_shrinks b frame rest : Forall in_u8 b → next_frame b = Some (frame, rest) →
  (length rest < length b)%nat ∧ Forall in_u8 rest.
Proof.
  intros Hb. unfold next_frame. destruct (decode_header b) as [h|] eqn:Eh; [|done]. cbv zeta.
  destruct (message_decode_header_inv _ _ Hb Eh) as [[Hh _] _].
  destruct (Z.ltb_spec (vsize b) (Z.of_nat HEADER_SIZE + h_payload_size h)); [done|].
  intros [= <- <-]. unfold vsize in *. rewrite length_drop. split; [|by apply Forall_drop].
  pose proof (decode_header_length _ _ Eh). unfold HEADER_SIZE in *. lia.
Qed.

Lemma drain_fuel_enough n : ∀ m b, Forall in_u8 b → (length b ≤ n)%nat → (length b ≤ m)%nat →
  drain_fuel n b = drain_fuel m b.
Proof.
  assert (∀ b frame rest, Forall in_u8 b → length b = 0%nat → next_frame b = Some (frame, rest) → False) as Hnil.
  { intros b frame rest Hb Hl Hn. apply next_frame_shrinks in Hn as [? _]; [lia|done]. }
  induction n as [|n IH]; intros [|m] b Hb Hn Hm; cbn [drain_fuel]; [done|..].
  - destruct (next_frame b) as [[f rest]|] eqn:E; [|done]. exfalso. eapply (Hnil b); [done|lia|done].
  - destruct (next_frame b) as [[f rest]|] eqn:E; [|done]. exfalso. eapply (Hnil b); [done|lia|done].
  - destruct (next_frame b) as [[f rest]|] eqn:E; [|done].
    apply next_frame_shrinks in E as [? ?]; [|done]. by rewrite (IH m) by (done || lia).
Qed.

Lemma drain_next b frame rest : Forall in_u8 b → next_frame b = Some (frame, rest) →
  drain b = (delivered frame ++ (drain rest).1, (drain rest).2).
Proof.
  intros Hb Hn. destruct (next_frame_shrinks _ _ _ Hb Hn) as [Hl Hr]. unfold drain at 1.
  destruct (length b) as [|n] eqn:El; [lia|]. cbn [drain_fuel]. rewrite Hn.
  rewrite (drain_fuel_enough n (length rest)) by (done || lia). unfold drain. by destruct (drain_fuel _ rest).
Qed.

Lemma drain_end b : next_frame b = None → drain b = ([], b).
Proof. intros Hn. unfold drain. destruct (length b); [done|]. cbn [drain_fuel]. by rewrite Hn. Qed.

Lemma drain_waits b : Forall in_u8 b → next_frame (drain b).2 = None ∧ Forall in_u8 (drain b).2.
Proof.
  remember (length b) as n eqn:En. revert b En. induction n as [n IH] using lt_wf_ind. intros b -> Hb.
  destruct (next_frame b) as [[f rest]|] eqn:E; [|by rewrite (drain_end b E)].
  rewrite (drain_next b f rest Hb E). destruct (next_frame_shrinks _ _ _ Hb E) as [Hl Hr].
  by apply (IH (length rest)).
Qed.

(** Draining what has come so far, and then the rest, is draining all of it. *)
Lemma drain_app b c : Forall in_u8 b → Forall in_u8 c →
  drain (b ++ c) = ((drain b).1 ++ (drain ((drain b).2 ++ c)).1, (drain ((drain b).2 ++ c)).2).
Proof.
  remember (length b) as n eqn:En. revert b En. induction n as [n IH] using lt_wf_ind. intros b -> Hb Hc.
  destruct (next_frame b) as [[f rest]|] eqn:E.
  2: { rewrite (drain_end b E). simpl. by destruct (drain (b ++ c)). }
  destruct (next_frame_shrinks _ _ _ Hb E) as [Hl Hr].
  rewrite (drain_next (b ++ c) f (rest ++ c)); [|by apply Forall_app|by apply next_frame_app].
  rewrite (drain_next b f rest Hb E), (IH (length rest) Hl rest) by done. cbn [fst snd].
  by rewrite app_assoc.
Qed.

Lemma feed_drains chunks : ∀ b, Forall in_u8 b → Forall in_u8 (concat chunks) → next_frame b = None →
  feed chunks b = drain (b ++ concat chunks).
Proof.
  induction chunks as [|c chunks IH]; intros b Hb Hc Hn; cbn [feed concat].
  { by rewrite app_nil_r, drain_end. }
  apply Forall_app in Hc as [Hc Hcs]. assert (Forall in_u8 (b ++ c)) as Hbc by by apply Forall_app.
  destruct (drain_waits (b ++ c) Hbc) as [Hw Hwb]. rewrite app_assoc, (drain_app (b ++ c)) by done.
  destruct (drain (b ++ c)) as [ms b'] eqn:E. cbn [fst snd] in *. rewrite IH by done.
  by destruct (drain (b' ++ _)).
Qed.

(** ** What a peer sends *)

(** A message, or a frame whose header is well-formed and whose payload is not. *)
Inductive item :=
  | Sent (message : Message)
  | Garbled (header : Header) (payload : list Z).

Definition item_ok (i : item) : Prop :=
  match i with
  | Sent message => message_typed message
  | Garbled header payload =>
      header_typed header ∧ vsize payload = h_payload_size header ∧ Forall in_u8 payload ∧
      ∃ e, decode_message (header_bytes header ++ payload) = inr e
  end.

Definition item_bytes (i : item) : list Z :=
  match i with
  | Sent message => encode_message message []
  | Garbled header payload => header_bytes header ++ payload
  end.

Definition item_message (i : item) : option Message :=
  match i with Sent message => Some message | Garbled _ _ => None end.

Lemma message_bytes_u8 msg : Forall in_u8 (message_bytes msg).
Proof.
  assert (∀ a b : list Z, Forall in_u8 a → Forall in_u8 b → Forall in_u8 (a ++ b)) as Happ
    by (intros; by apply Forall_app).
  destruct msg; cbn [message_bytes]; repeat (apply Happ; [apply put_bytes_ok|]); apply Forall_nil_2.
Qed.

Lemma header_bytes_u8 h : Forall in_u8 (header_bytes h).
Proof.
  unfold header_bytes, put_header. append_fields. apply Forall_app. split; apply put_bytes_ok.
Qed.

Lemma item_bytes_u8 i : item_ok i → Forall in_u8 (item_bytes i).
Proof.
  destruct i as [m|h payload]; intros Hi; cbn [item_bytes].
  - rewrite encode_message_bytes. apply Forall_app. split; [done|].
    apply Forall_app. split; [apply header_bytes_u8|apply message_bytes_u8].
  - destruct Hi as (_ & _ & Hp & _). apply Forall_app. split; [apply header_bytes_u8|done].
Qed.

Lemma whole_frame h payload rest : header_typed h → vsize payload = h_payload_size h →
  next_frame ((header_bytes h ++ payload) ++ rest) =
    Some (decode_message (header_bytes h ++ payload), rest).
Proof.
  intros Hh Hp. unfold next_frame. rewrite <-app_assoc, message_decode_header_bytes by done. cbv zeta.
  assert (Z.to_nat (Z.of_nat HEADER_SIZE + h_payload_size h) = length (header_bytes h ++ payload)) as El.
  { rewrite length_app, message_length_header. unfold vsize in Hp. lia. }
  unfold vsize in *. rewrite app_assoc, El, take_app_length, drop_app_length, length_app.
  by rewrite (proj2 (Z.ltb_ge _ _)) by lia.
Qed.

Lemma item_frame i rest : item_ok i →
  ∃ frame, next_frame (item_bytes i ++ rest) = Some (frame, rest) ∧
    delivered frame = option_list (item_message i).
Proof.
  destruct i as [m|h payload]; intros Hi; cbn [item_bytes item_message].
  - destruct (message_header_ok m) as [Hh _]. rewrite encode_message_bytes. cbn [app].
    exists (inl m). split; [|done]. rewrite (whole_frame (message_header m)) by (done || apply message_length_payload).
    do 2 f_equal. rewrite <-(app_nil_r (_ ++ _)). change (header_bytes _ ++ message_bytes m) with
      ([] ++ header_bytes (message_header m) ++ message_bytes m). rewrite <-encode_message_bytes.
    rewrite encode_message_frame, decode_message_frame.
    by apply (frame_decodes _ _ _ _ _ _ _ _ (PC := message_payload_codec)).
  - destruct Hi as (Hh & Hp & _ & e & He). exists (decode_message (header_bytes h ++ payload)).
    split; [by apply whole_frame|]. by rewrite He.
Qed.

Lemma items_u8 items rest : Forall item_ok items → Forall in_u8 rest →
  Forall in_u8 (concat (item_bytes <$> items) ++ rest).
Proof.
  intros Hi Hr. apply Forall_app. split; [|done]. apply Forall_concat, Forall_fmap.
  apply (Forall_impl _ _ _ Hi). intros; by apply item_bytes_u8.
Qed.

Lemma drain_items items rest : Forall item_ok items → Forall in_u8 rest →
  drain (concat (item_bytes <$> items) ++ rest) = (omap item_message items ++ (drain rest).1, (drain rest).2).
Proof.
  intros Hi Hr. induction Hi as [|i items Hi His IH]; [change (drain rest = ([] ++ (drain rest).1, (drain rest).2)); by destruct (drain rest)|].
  pose proof (items_u8 (i :: items) rest (Forall_cons_2 _ _ _ Hi His) Hr) as Hb.
  rewrite fmap_cons in *. cbn [concat] in *. rewrite <-app_assoc in *.
  destruct (item_frame i (concat (item_bytes <$> items) ++ rest) Hi) as (frame & Hn & Hd).
  rewrite (drain_next _ _ _ Hb Hn), IH, Hd.
  cbn [fst snd omap list_omap]. by destruct (item_message i).
Qed.

(** C21: however a connection's bytes are cut into reads, its messages arrive whole and in
    order. What is delivered and what stays in the buffer depend on the bytes alone.
    Of what a peer sends, each message is delivered once it is complete, a frame whose
    payload is malformed is dropped without touching its neighbours, and only an
    incomplete frame stays in the buffer. *)
Theorem stream_reassembly chunks items rest : Forall item_ok items → Forall in_u8 rest →
  next_frame rest = None → concat chunks = concat (item_bytes <$> items) ++ rest →
  feed chunks [] = drain (concat chunks) ∧ feed chunks [] = (omap item_message items, rest).
Proof.
  intros Hi Hr Hn Hc. assert (Forall in_u8 (concat chunks)) as Hb.
  { rewrite Hc. by apply items_u8. }
  rewrite (feed_drains chunks []) by done. split; [done|]. cbn [app].
  rewrite Hc, (drain_items items rest Hi Hr), (drain_end rest Hn). by rewrite app_nil_r.
Qed.

Definition sample_items : list item :=
  [Sent sample_report; Garbled (mkHeader TRejected 21) (replicate 20 0 ++ [99]);
   Sent (MsgCancelOrder (mkCancelOrder 1 2 7))].

Definition sample_bytes : list Z := concat (item_bytes <$> sample_items) ++ [1; 0].

(** Cut in the middle of a header and in the middle of a payload. *)
Definition sample_chunks : list (list Z) :=
  [take 2 sample_bytes; take 70 (drop 2 sample_bytes); drop 72 sample_bytes].

Lemma stream_reassembly_witness :
  Forall item_ok sample_items ∧ feed sample_chunks [] = (omap item_message sample_items, [1; 0]) ∧
  omap item_message sample_items = [sample_report; MsgCancelOrder (mkCancelOrder 1 2 7)].
Proof.
  assert (Forall item_ok sample_items) as Hi.
  { constructor; [|constructor; [|constructor; [|constructor]]].
    - simpl. unfold in_u64, in_u32, in_i64. lia.
    - split; [done|]. split; [done|]. split; [unfold in_u8; by apply (bool_decide_unpack _)|].
      by exists InvalidRejectReason.
    - simpl. unfold in_u64, in_u32. lia. }
  assert (Forall in_u8 [1; 0]) as Hr by (unfold in_u8; by apply (bool_decide_unpack _)).
  split; [exact Hi|]. split; [|done].
  exact (proj2 (stream_reassembly sample_chunks sample_items [1; 0] Hi Hr eq_refl eq_refl)).
Defined.

(** A byte that is no message type, where a header should be, ends the conversation:
    nothing is delivered any more, and every byte that comes is kept. *)
Lemma malformed_type_stalls chunks b : Forall in_u8 b → Forall in_u8 (concat chunks) →
  decode_header b = inr InvalidMessageType → feed chunks b = ([], b ++ concat chunks).
Proof.
  intros Hb Hc He. assert (∀ c, next_frame (b ++ c) = None) as Hn.
  { intros c. unfold next_frame. rewrite decode_header_app, He; [done|].
    revert He. unfold decode_header, vsize.
    destruct (Z.ltb_spec (Z.of_nat (length b)) (Z.of_nat HEADER_SIZE)); [done|lia]. }
  rewrite feed_drains; [|done..|rewrite <-(app_nil_r b); apply Hn]. by apply drain_end.
Qed.

End MessageStream.
