(* ===== verification/Gateway.v ===== *)
(** * The order-entry gateway

    [OrderEntryGateway] of [include/exchange/gateway/order_entry_gateway.hpp] and
    [src/exchange/gateway/order_entry_gateway.cpp]: which account a session trades for,
    and which session a private report goes to. Every connection has a reader and a
    writer thread, the matching thread routes; a [step] is one critical section, or one
    access to a connection's own queues, of one of them. Sockets are what the steps are
    given: the bytes a read returned, whether a write went through. Each [SpscQueue] is
    the bounded FIFO that [SpscQueue] proves it to be, of the capacity it rounded its
    option to. Waking a thread, which only hastens its next step, and [stop], which ends
    every loop, are not modelled. *)

From S2P Require Import Prelude Types Ledger OrderEntryCodec MessageStream.

Module OrderEntryGateway.
Import OrderEntryCodec MessageStream.

Abbreviation OrderKey := (Z * Z)%type.

(** ** Between the wire and the exchange *)

Definition message_account (message : Message) : AccountId :=
  match message with
  | MsgNewOrder m => nw_account_id m
  | MsgCancelOrder m => cn_account_id m
  | MsgReplaceOrder m => rp_account_id m
  | MsgAccepted m => ac_account_id m
  | MsgRejected m => rj_account_id m
  | MsgCancelled m => cc_account_id m
  | MsgReplaced m => rd_account_id m
  | MsgTradeReport m => tp_account_id m
  end.

Definition to_command (message : Message) : option ExchangeCommand :=
  match message with
  | MsgNewOrder msg =>
      Some (CmdNew (Types.mkNewOrder 0 (nw_account_id msg) (nw_client_order_id msg) (nw_instrument_id msg)
        (nw_side msg) (nw_price msg) (nw_quantity msg) (nw_order_type msg) (nw_time_in_force msg)))
  | MsgCancelOrder msg =>
      Some (CmdCancel (Types.mkCancelOrder 0 (cn_account_id msg) (cn_client_order_id msg)
        (cn_instrument_id msg)))
  | MsgReplaceOrder msg =>
      Some (CmdReplace (Types.mkReplaceOrder 0 (rp_account_id msg) (rp_original_client_order_id msg)
        (rp_new_client_order_id msg) (rp_instrument_id msg) (rp_new_price msg) (rp_new_quantity msg)))
  | _ => None
  end.

Definition trade_report (leg : TradeCounterparty) (ev : TradeExecuted) : OrderKey * Message :=
  ((cp_account_id leg, cp_client_order_id leg),
   MsgTradeReport (mkTradeReport (cp_account_id leg) (cp_client_order_id leg) (cp_exchange_order_id leg)
     (te_instrument_id ev) (te_price ev) (te_quantity ev) (cp_remaining_quantity leg))).

Definition to_execution_reports (event : ExchangeEvent) : list (OrderKey * Message) :=
  match event with
  | EvAccepted ev =>
      [((oa_account_id ev, oa_client_order_id ev),
        MsgAccepted (mkAccepted (oa_account_id ev) (oa_client_order_id ev) (oa_exchange_order_id ev)
          (oa_instrument_id ev) (oa_side ev) (oa_price ev) (oa_quantity ev) (oa_order_type ev)
          (oa_time_in_force ev)))]
  | EvRejected ev =>
      [((orj_account_id ev, orj_client_order_id ev),
        MsgRejected (mkRejected (orj_account_id ev) (orj_client_order_id ev) (orj_instrument_id ev)
          (orj_reason ev)))]
  | EvCancelled ev =>
      [((oc_account_id ev, oc_client_order_id ev),
        MsgCancelled (mkCancelled (oc_account_id ev) (oc_client_order_id ev) (oc_exchange_order_id ev)
          (oc_instrument_id ev)))]
  | EvReplaced ev =>
      [((orp_account_id ev, orp_original_client_order_id ev),
        MsgReplaced (mkReplaced (orp_account_id ev) (orp_original_client_order_id ev)
          (orp_new_client_order_id ev) (orp_exchange_order_id ev) (orp_instrument_id ev)
          (orp_new_price ev) (orp_new_quantity ev)))]
  | EvTrade ev => [trade_report (te_buyer ev) ev; trade_report (te_seller ev) ev]
  | EvAdded _ | EvReduced _ | EvRemoved _ => []
  end.

Definition command_account (command : ExchangeCommand) : AccountId :=
  match command with
  | CmdNew c => no_account_id c
  | CmdCancel c => co_account_id c
  | CmdReplace c => ro_account_id c
  end.

(** The answer to a request for an account that is not the session's. *)
Definition mismatch (command : ExchangeCommand) : Message :=
  match command with
  | CmdNew c => MsgRejected (mkRejected (no_account_id c) (no_client_order_id c) (no_instrument_id c)
      RejectReason.AccountMismatch)
  | CmdCancel c => MsgRejected (mkRejected (co_account_id c) (co_client_order_id c) (co_instrument_id c)
      RejectReason.AccountMismatch)
  | CmdReplace c => MsgRejected (mkRejected (ro_account_id c) (ro_original_client_order_id c)
      (ro_instrument_id c) RejectReason.AccountMismatch)
  end.

(** ** State *)

(** Where a connection's reader thread is: blocked in [read], at the top of the inner
    loop, before [claim_order_ownership], before [submit_command], between storing
    [closed] and [unbind_session], or done. *)
Inductive ReaderState :=
  | Reading
  | Draining
  | Claiming (message : Message) (command : ExchangeCommand)
  | Submitting (command : ExchangeCommand)
  | Unbinding
  | ReaderDone.

(** Which of its three queues a message was taken from. *)
Inductive Origin := Retained | Own | Live.

#[export] Instance Origin_eq_dec : EqDecision Origin.
Proof. solve_decision. Defined.

(** Where its writer thread is: at the top of its loop, past an empty backlog, past an
    empty [session_outbound], writing, or done. *)
Inductive WriterState :=
  | WriterTop
  | WriterSession
  | WriterOutbound
  | Writing (origin : Origin) (message : Message)
  | WriterDone.

(** [written_] is no field of the program's: the messages its socket took, in order. *)
Record Connection := mkConnection {
  read_buffer_ : list Z;
  outbound_ : list Message;
  session_outbound_ : list Message;
  replay_backlog_ : list Message;
  account_id_ : option AccountId;
  closed_ : bool;
  reader_ : ReaderState;
  writer_ : WriterState;
  written_ : list (Origin * Message);
}.

(** A connection is named by its index in [connections_]. [submitted_] is what
    [submit_command] was called with. *)
Record t := mk {
  outbound_capacity_ : nat;
  pending_report_capacity_ : nat;
  connections_ : list Connection;
  account_sessions_ : gmap AccountId (list nat);
  order_owner_ : gmap OrderKey nat;
  pending_reports_ : gmap AccountId (list Message);
  submitted_ : list (nat * ExchangeCommand);
}.

Definition make (outbound_capacity pending_report_capacity : nat) : t :=
  mk outbound_capacity pending_report_capacity [] ∅ ∅ ∅ [].

Definition with_connections (l : list Connection) (g : t) : t :=
  mk (outbound_capacity_ g) (pending_report_capacity_ g) l (account_sessions_ g) (order_owner_ g)
    (pending_reports_ g) (submitted_ g).

Definition with_sessions (m : gmap AccountId (list nat)) (g : t) : t :=
  mk (outbound_capacity_ g) (pending_report_capacity_ g) (connections_ g) m (order_owner_ g)
    (pending_reports_ g) (submitted_ g).

Definition with_owner (m : gmap OrderKey nat) (g : t) : t :=
  mk (outbound_capacity_ g) (pending_report_capacity_ g) (connections_ g) (account_sessions_ g) m
    (pending_reports_ g) (submitted_ g).

Definition with_pending (m : gmap AccountId (list Message)) (g : t) : t :=
  mk (outbound_capacity_ g) (pending_report_capacity_ g) (connections_ g) (account_sessions_ g)
    (order_owner_ g) m (submitted_ g).

Definition set_connection (s : nat) (f : Connection → Connection) (g : t) : t :=
  with_connections (alter f s (connections_ g)) g.

Definition with_reader (r : ReaderState) (c : Connection) : Connection :=
  mkConnection (read_buffer_ c) (outbound_ c) (session_outbound_ c) (replay_backlog_ c) (account_id_ c)
    (closed_ c) r (writer_ c) (written_ c).

Definition with_buffer (b : list Z) (c : Connection) : Connection :=
  mkConnection b (outbound_ c) (session_outbound_ c) (replay_backlog_ c) (account_id_ c)
    (closed_ c) (reader_ c) (writer_ c) (written_ c).

Definition with_queues (out own backlog : list Message) (c : Connection) : Connection :=
  mkConnection (read_buffer_ c) out own backlog (account_id_ c) (closed_ c) (reader_ c) (writer_ c)
    (written_ c).

Definition with_account (a : AccountId) (c : Connection) : Connection :=
  mkConnection (read_buffer_ c) (outbound_ c) (session_outbound_ c) (replay_backlog_ c) (Some a)
    (closed_ c) (reader_ c) (writer_ c) (written_ c).

Definition with_writer (w : WriterState) (c : Connection) : Connection :=
  mkConnection (read_buffer_ c) (outbound_ c) (session_outbound_ c) (replay_backlog_ c) (account_id_ c)
    (closed_ c) (reader_ c) w (written_ c).

Definition close (c : Connection) : Connection :=
  mkConnection (read_buffer_ c) (outbound_ c) (session_outbound_ c) (replay_backlog_ c) (account_id_ c)
    true (reader_ c) (writer_ c) (written_ c).

Definition wrote (entry : Origin * Message) (c : Connection) : Connection :=
  mkConnection (read_buffer_ c) (outbound_ c) (session_outbound_ c) (replay_backlog_ c) (account_id_ c)
    (closed_ c) (reader_ c) (writer_ c) (written_ c ++ [entry]).

(** [try_push] on a queue of capacity [n]: a full one drops. *)
Definition try_push (n : nat) (message : Message) (q : list Message) : list Message :=
  if (length q <? n)%nat then q ++ [message] else q.

(** ** Sessions *)

Definition bind_session (s : nat) (account_id : AccountId) (g : t) : t :=
  let g := with_sessions (<[account_id := default [] (account_sessions_ g !! account_id) ++ [s]]>
    (account_sessions_ g)) g in
  let g := match pending_reports_ g !! account_id with
           | Some pending =>
               with_pending (delete account_id (pending_reports_ g))
                 (set_connection s (λ c, with_queues (outbound_ c) (session_outbound_ c) pending c) g)
           | None => g
           end in
  set_connection s (with_account account_id) g.

Definition unbind_session (s : nat) (g : t) : t :=
  match connections_ g !! s ≫= account_id_ with
  | None => g
  | Some account_id =>
      let g := match account_sessions_ g !! account_id with
               | None => g
               | Some bound =>
                   match filter (λ s', s' ≠ s) bound with
                   | [] => with_sessions (delete account_id (account_sessions_ g)) g
                   | bound => with_sessions (<[account_id := bound]> (account_sessions_ g)) g
                   end
               end in
      with_owner (filter (λ entry, entry.2 ≠ s) (order_owner_ g)) g
  end.

Definition reject_account_mismatch (s : nat) (command : ExchangeCommand) (g : t) : t :=
  set_connection s (λ c, with_queues (outbound_ c)
    (try_push (outbound_capacity_ g) (mismatch command) (session_outbound_ c)) (replay_backlog_ c) c) g.

(** [try_emplace] *)
Definition claim (key : OrderKey) (s : nat) (g : t) : t :=
  match order_owner_ g !! key with
  | Some _ => g
  | None => with_owner (<[key := s]> (order_owner_ g)) g
  end.

Definition claim_order_ownership (s : nat) (account_id : AccountId) (message : Message) (g : t) : t :=
  match message with
  | MsgNewOrder m => claim (account_id, nw_client_order_id m) s g
  | MsgCancelOrder m => claim (account_id, cn_client_order_id m) s g
  | MsgReplaceOrder m => claim (account_id, rp_original_client_order_id m) s g
  | _ => g
  end.

(** ** Routing *)

Definition deliver (s : nat) (message : Message) (g : t) : t :=
  set_connection s (λ c, with_queues (try_push (outbound_capacity_ g) message (outbound_ c))
    (session_outbound_ c) (replay_backlog_ c) c) g.

Definition is_open (g : t) (s : nat) : bool :=
  match connections_ g !! s with Some c => negb (closed_ c) | None => false end.

(** Keeping a report for whoever binds next: the oldest goes when there are too many. *)
Definition retain (account_id : AccountId) (message : Message) (g : t) : t :=
  if (pending_report_capacity_ g =? 0)%nat then g
  else
    let pending := default [] (pending_reports_ g !! account_id) in
    let pending := if (pending_report_capacity_ g <=? length pending)%nat then tail pending else pending in
    with_pending (<[account_id := pending ++ [message]]> (pending_reports_ g)) g.

(** The session that submitted the order, or else the account's oldest, if open. *)
Definition resolve (key : OrderKey) (g : t) : option nat :=
  head (filter (λ s, is_open g s = true)
    (option_list (order_owner_ g !! key) ++ default [] (account_sessions_ g !! key.1))).

Definition route_report (report : OrderKey * Message) (g : t) : t :=
  match resolve report.1 g with
  | Some s => deliver s report.2 g
  | None => retain report.1.1 report.2 g
  end.

Definition forget (key : OrderKey) (g : t) : t := with_owner (delete key (order_owner_ g)) g.

Definition forget_filled (leg : TradeCounterparty) (g : t) : t :=
  if cp_remaining_quantity leg =? 0 then forget (cp_account_id leg, cp_client_order_id leg) g else g.

Definition update_order_ownership (event : ExchangeEvent) (ledger : Ledger.t) (g : t) : t :=
  match event with
  | EvRejected ev =>
      match Ledger.find_hold (orj_account_id ev) (orj_client_order_id ev) ledger with
      | Some _ => g
      | None => forget (orj_account_id ev, orj_client_order_id ev) g
      end
  | EvCancelled ev => forget (oc_account_id ev, oc_client_order_id ev) g
  | EvReplaced ev =>
      let original := (orp_account_id ev, orp_original_client_order_id ev) in
      match order_owner_ g !! original with
      | Some s => forget original (with_owner
          (<[(orp_account_id ev, orp_new_client_order_id ev) := s]> (order_owner_ g)) g)
      | None => g
      end
  | EvTrade ev => forget_filled (te_seller ev) (forget_filled (te_buyer ev) g)
  | EvAccepted _ | EvAdded _ | EvReduced _ | EvRemoved _ => g
  end.

Definition route_event (event : ExchangeEvent) (ledger : Ledger.t) (g : t) : t :=
  match to_execution_reports event with
  | [] => g
  | reports => update_order_ownership event ledger (foldl (λ g report, route_report report g) g reports)
  end.

(** ** The threads *)

Inductive action :=
  | Accept
  | Receive (s : nat) (chunk : list Z)
  | EndOfStream (s : nat)
  | Read (s : nat)
  | Write (s : nat) (ok : bool)
  | Route (event : ExchangeEvent) (ledger : Ledger.t).

(** [accept_loop]: a new connection and its two threads. *)
Definition accept_connection (g : t) : t :=
  with_connections (connections_ g ++ [mkConnection [] [] [] [] None false Reading WriterTop []]) g.

(** A frame in [connection_reader_loop]. *)
Definition handle_frame (s : nat) (c : Connection) (frame : Message + DecodeError) (g : t) : t :=
  match frame with
  | inr _ => g
  | inl message =>
      match to_command message with
      | None => g
      | Some command =>
          let claiming := set_connection s (with_reader (Claiming message command)) in
          match account_id_ c with
          | None => claiming (bind_session s (message_account message) g)
          | Some a =>
              if a =? message_account message then claiming g
              else reject_account_mismatch s command g
          end
      end
  end.

(** The next access of connection [s]'s reader thread, other than a [read]. *)
Definition read_step (s : nat) (c : Connection) (g : t) : option t :=
  match reader_ c with
  | Reading | ReaderDone => None
  | Draining =>
      match next_frame (read_buffer_ c) with
      | None => Some (set_connection s (with_reader Reading) g)
      | Some (frame, rest) => Some (handle_frame s c frame (set_connection s (with_buffer rest) g))
      end
  | Claiming message command =>
      Some (set_connection s (with_reader (Submitting command))
        (claim_order_ownership s (message_account message) message g))
  | Submitting command =>
      Some (set_connection s (with_reader Draining)
        (mk (outbound_capacity_ g) (pending_report_capacity_ g) (connections_ g) (account_sessions_ g)
           (order_owner_ g) (pending_reports_ g) (submitted_ g ++ [(s, command)])))
  | Unbinding => Some (set_connection s (with_reader ReaderDone) (unbind_session s g))
  end.

(** Taking a message off one of the queues to write it. *)
Definition take_backlog (c : Connection) : Connection :=
  match replay_backlog_ c with
  | m :: l => with_writer (Writing Retained m) (with_queues (outbound_ c) (session_outbound_ c) l c)
  | [] => with_writer WriterSession c
  end.

Definition take_session_outbound (c : Connection) : Connection :=
  match session_outbound_ c with
  | m :: l => with_writer (Writing Own m) (with_queues (outbound_ c) l (replay_backlog_ c) c)
  | [] => with_writer WriterOutbound c
  end.

Definition take_outbound (c : Connection) : Connection :=
  match outbound_ c with
  | m :: l => with_writer (Writing Live m) (with_queues l (session_outbound_ c) (replay_backlog_ c) c)
  | [] => with_writer WriterTop c
  end.

(** The next access of its writer thread; [ok] says whether a write goes through. *)
Definition write_step (ok : bool) (c : Connection) : option Connection :=
  match writer_ c with
  | WriterTop => Some (if closed_ c then with_writer WriterDone c else take_backlog c)
  | WriterSession => Some (take_session_outbound c)
  | WriterOutbound => Some (take_outbound c)
  | Writing origin message =>
      Some (if ok then with_writer WriterTop (wrote (origin, message) c) else with_writer WriterDone c)
  | WriterDone => None
  end.

Definition step (a : action) (g : t) : option t :=
  match a with
  | Accept => Some (accept_connection g)
  | Receive s chunk =>
      c ← connections_ g !! s;
      match reader_ c with
      | Reading => Some (set_connection s (λ c, with_reader Draining (with_buffer (read_buffer_ c ++ chunk) c)) g)
      | _ => None
      end
  | EndOfStream s =>
      c ← connections_ g !! s;
      match reader_ c with
      | Reading => Some (set_connection s (λ c, with_reader Unbinding (close c)) g)
      | _ => None
      end
  | Read s => c ← connections_ g !! s; read_step s c g
  | Write s ok => c ← connections_ g !! s; c' ← write_step ok c; Some (set_connection s (λ _, c') g)
  | Route event ledger => Some (route_event event ledger g)
  end.

Fixpoint exec (actions : list action) (g : t) : option t :=
  match actions with [] => Some g | a :: actions => g ← step a g; exec actions g end.

End OrderEntryGateway.
