(* ===== verification/GatewayProps.v ===== *)
(** * Private reports stay private

    The invariant of the gateway's routing, under any interleaving of its threads: a
    session is handed only reports of the account it is bound to, each at most once. *)

From S2P Require Import Prelude Types Ledger OrderEntryCodec MessageStream Gateway.

Module GatewayProps.
Import OrderEntryCodec OrderEntryGateway.

(** The private reports of account [a], in the order they were made. *)
Definition reports_to (a : AccountId) (hist : list (OrderKey * Message)) : list Message :=
  snd <$> filter (λ r, r.1.1 = a) hist.

Definition reported (actions : list action) : list (OrderKey * Message) :=
  concat ((λ a, match a with Route event _ => to_execution_reports event | _ => [] end) <$> actions).

Definition in_flight (c : Connection) : list (Origin * Message) :=
  match writer_ c with Writing origin message => [(origin, message)] | _ => [] end.

(** What a connection was given of each kind: written, being written, or queued. *)
Definition taken (o : Origin) (l : list (Origin * Message)) : list Message := snd <$> filter (λ e, e.1 = o) l.

Definition retained (c : Connection) : list Message := taken Retained (written_ c ++ in_flight c) ++ replay_backlog_ c.
Definition own (c : Connection) : list Message := taken Own (written_ c ++ in_flight c) ++ session_outbound_ c.
Definition live (c : Connection) : list Message := taken Live (written_ c ++ in_flight c) ++ outbound_ c.

Definition private (c : Connection) : list Message := retained c ++ live c.

Record conn_ok (n m : nat) (sub : list (nat * ExchangeCommand)) (hist : list (OrderKey * Message))
    (s : nat) (c : Connection) : Prop := {
  co_private : match account_id_ c with
               | None => private c = []
               | Some a => private c `sublist_of` reports_to a hist
               end;
  co_own : ∀ x, x ∈ own c → ∃ a cmd, account_id_ c = Some a ∧ x = mismatch cmd ∧ a ≠ command_account cmd;
  co_bounds : (length (outbound_ c) ≤ n ∧ length (session_outbound_ c) ≤ n ∧ length (replay_backlog_ c) ≤ m)%nat;
  co_reader : match reader_ c with
              | Claiming message cmd => to_command message = Some cmd ∧
                  account_id_ c = Some (message_account message)
              | Submitting cmd => account_id_ c = Some (command_account cmd)
              | _ => True
              end;
  co_submitted : ∀ cmd, (s, cmd) ∈ sub → account_id_ c = Some (command_account cmd);
}.

Definition bound_to (g : t) (s : nat) (a : AccountId) : Prop :=
  ∃ c, connections_ g !! s = Some c ∧ account_id_ c = Some a.

Record inv (n m : nat) (hist : list (OrderKey * Message)) (g : t) : Prop := {
  gi_capacity : outbound_capacity_ g = n ∧ pending_report_capacity_ g = m;
  gi_conn : ∀ s c, connections_ g !! s = Some c → conn_ok n m (submitted_ g) hist s c;
  gi_submitted : ∀ s cmd, (s, cmd) ∈ submitted_ g → (s < length (connections_ g))%nat;
  gi_sessions : ∀ a l s, account_sessions_ g !! a = Some l → s ∈ l → bound_to g s a;
  gi_owner : ∀ k s, order_owner_ g !! k = Some s → bound_to g s k.1;
  gi_pending : ∀ a l, pending_reports_ g !! a = Some l →
    l `sublist_of` reports_to a hist ∧ (length l ≤ m)%nat;
}.

(** ** Lemmas *)

Lemma taken_app o l l' : taken o (l ++ l') = taken o l ++ taken o l'.
Proof. unfold taken. by rewrite filter_app, fmap_app. Qed.

Lemma reports_to_app a h h' : reports_to a (h ++ h') = reports_to a h ++ reports_to a h'.
Proof. unfold reports_to. by rewrite filter_app, fmap_app. Qed.

Lemma reports_to_own k m : reports_to k.1 [(k, m)] = [m].
Proof. unfold reports_to. by rewrite filter_cons_True. Qed.

Lemma to_command_account m cmd : to_command m = Some cmd → command_account cmd = message_account m.
Proof. destruct m; try done; by intros [= <-]. Qed.

Lemma try_push_cases n m q : (try_push n m q = q ++ [m] ∧ (length q < n)%nat) ∨ try_push n m q = q.
Proof. unfold try_push. destruct (Nat.ltb_spec (length q) n); [by left|by right]. Qed.

Lemma try_push_length n m q : (length q ≤ n)%nat → (length (try_push n m q) ≤ n)%nat.
Proof. destruct (try_push_cases n m q) as [[-> ?]| ->]; [rewrite length_app; simpl; lia|done]. Qed.

Lemma bound_unique g s a b : bound_to g s a → bound_to g s b → a = b.
Proof. intros (c & Hc & Ha) (c' & Hc' & Hb). congruence. Qed.

(** A connection that changes and stays bound as it was. *)
Lemma bound_set g s f s' a : (∀ c, connections_ g !! s = Some c → ∀ a, account_id_ c = Some a →
    account_id_ (f c) = Some a) → bound_to g s' a → bound_to (set_connection s f g) s' a.
Proof.
  intros Hf (c & Hc & Ha). destruct (decide (s' = s)) as [->|Hne].
  - exists (f c). split; [|by apply Hf]. simpl. by rewrite list_lookup_alter_eq, Hc.
  - exists c. split; [|done]. simpl. by rewrite list_lookup_alter_ne.
Qed.

(** A longer history changes nothing. *)
Lemma sublist_reports a l h h' : l `sublist_of` reports_to a h → l `sublist_of` reports_to a (h ++ h').
Proof. intros H. rewrite reports_to_app. by apply sublist_inserts_r. Qed.

Lemma inv_history n m hist hist' g : inv n m hist g → inv n m (hist ++ hist') g.
Proof.
  intros [Hcap Hconn Hsub Hses Hown Hpen]. split; try done.
  - intros s c Hc. destruct (Hconn s c Hc) as [H1 ? ? ? ?]. split; try done.
    destruct (account_id_ c); [by apply sublist_reports|done].
  - intros a l Hl. destruct (Hpen a l Hl). split; [by apply sublist_reports|done].
Qed.

Lemma inv_set n m hist hist' g s f : inv n m hist g →
  (∀ c, connections_ g !! s = Some c → ∀ a, account_id_ c = Some a → account_id_ (f c) = Some a) →
  (∀ c, connections_ g !! s = Some c → conn_ok n m (submitted_ g) (hist ++ hist') s (f c)) →
  inv n m (hist ++ hist') (set_connection s f g).
Proof.
  intros HI Ha Hf. apply (inv_history _ _ _ hist') in HI as [Hcap Hconn Hsub Hses Hown Hpen].
  split; simpl; try done.
  - intros s' c. destruct (decide (s' = s)) as [->|Hne].
    + rewrite list_lookup_alter_eq. intros (c0 & Hc & ->)%fmap_Some. by apply Hf.
    + rewrite list_lookup_alter_ne by done. by apply Hconn.
  - intros s' cmd Hin. rewrite length_alter. by eapply Hsub.
  - intros a l s' Hl Hs. apply bound_set; [done|]. by eapply Hses.
  - intros k s' Hk. apply bound_set; [done|]. by apply Hown.
Qed.

(** The same, with no new report. *)
Lemma inv_set_quiet n m hist g s f : inv n m hist g →
  (∀ c, connections_ g !! s = Some c → ∀ a, account_id_ c = Some a → account_id_ (f c) = Some a) →
  (∀ c, connections_ g !! s = Some c → conn_ok n m (submitted_ g) hist s c → conn_ok n m (submitted_ g) hist s (f c)) →
  inv n m hist (set_connection s f g).
Proof.
  intros HI Ha Hf. rewrite <-(app_nil_r hist). apply inv_set; [done|done|]. intros c Hc.
  rewrite app_nil_r. apply Hf; [done|]. by apply (gi_conn _ _ _ _ HI).
Qed.

(** ** Routing *)

Lemma resolve_bound n m hist g key s : inv n m hist g → resolve key g = Some s → bound_to g s key.1.
Proof.
  intros HI Hr. unfold resolve in Hr. apply head_Some_elem_of, list_elem_of_filter in Hr as [_ Hin].
  apply elem_of_app in Hin as [Hin|Hin].
  - destruct (order_owner_ g !! key) eqn:Eo; [|by apply not_elem_of_nil in Hin].
    apply list_elem_of_singleton in Hin as ->. by eapply gi_owner.
  - destruct (account_sessions_ g !! key.1) eqn:Es; [|by apply not_elem_of_nil in Hin].
    by eapply gi_sessions.
Qed.

Lemma deliver_inv n m hist g key message s : inv n m hist g → bound_to g s key.1 →
  inv n m (hist ++ [(key, message)]) (deliver s message g).
Proof.
  intros HI (c0 & Hc0 & Ha0). pose proof (gi_capacity _ _ _ _ HI) as [Hn _].
  apply inv_set; [done|by intros c Hc a|]. intros c Hc. rewrite Hc0 in Hc. injection Hc as <-.
  destruct (gi_conn _ _ _ _ HI s c0 Hc0) as [Hp Ho (Hb1 & Hb2 & Hb3) Hr Hs].
  split; try done.
  - simpl. rewrite Ha0 in *. rewrite reports_to_app, reports_to_own, Hn. unfold private, live in *.
    change (retained (with_queues _ _ _ c0)) with (retained c0). simpl.
    change (in_flight (with_queues _ _ _ c0)) with (in_flight c0).
    destruct (try_push_cases n message (outbound_ c0)) as [[-> _]| ->].
    + rewrite !app_assoc. apply sublist_app; [by rewrite <-app_assoc|done].
    + by apply sublist_inserts_r.
  - simpl. rewrite Hn. split; [by apply try_push_length|done].
Qed.

Lemma retain_inv n m hist g key message : inv n m hist g →
  inv n m (hist ++ [(key, message)]) (retain key.1 message g).
Proof.
  intros HI. pose proof (gi_capacity _ _ _ _ HI) as [_ Hm].
  assert (inv n m (hist ++ [(key, message)]) g) as HI' by by apply inv_history.
  unfold retain. rewrite Hm. destruct (Nat.eqb_spec m 0) as [|Hm0]; [done|].
  set (old := default [] (pending_reports_ g !! key.1)).
  assert (old `sublist_of` reports_to key.1 hist ∧ (length old ≤ m)%nat) as [Hold Hl].
  { unfold old. destruct (pending_reports_ g !! key.1) eqn:E; [by eapply gi_pending|].
    split; [apply sublist_nil_l|simpl; lia]. }
  destruct HI' as [Hcap Hconn Hsub Hses Hown Hpen]. split; try done.
  intros a l. simpl. rewrite lookup_insert. case_decide as E; [|by apply Hpen]. intros [= <-]. subst a.
  rewrite reports_to_app, reports_to_own. destruct (Nat.leb_spec m (length old)).
  - destruct old as [|x old]; [simpl in *; lia|]. split.
    + apply sublist_app; [|done]. etrans; [|exact Hold]. by apply sublist_cons.
    + rewrite length_app. simpl in *. lia.
  - split; [by apply sublist_app|]. rewrite length_app. simpl. lia.
Qed.

Lemma route_report_inv n m hist g r : inv n m hist g → inv n m (hist ++ [r]) (route_report r g).
Proof.
  intros HI. unfold route_report. destruct r as [key message]. cbn [fst snd].
  destruct (resolve key g) as [s|] eqn:Er; [|by apply retain_inv].
  apply deliver_inv; [done|]. by eapply resolve_bound.
Qed.

Lemma route_reports_inv n m rs : ∀ hist g, inv n m hist g →
  inv n m (hist ++ rs) (foldl (λ g r, route_report r g) g rs).
Proof.
  induction rs as [|r rs IH]; intros hist g HI; [by rewrite app_nil_r|].
  simpl. change (r :: rs) with ([r] ++ rs). rewrite app_assoc. by apply IH, route_report_inv.
Qed.

(** ** Ownership *)

Lemma inv_owner n m hist g owner : inv n m hist g →
  (∀ k s, owner !! k = Some s → bound_to g s k.1) → inv n m hist (with_owner owner g).
Proof. by intros [] ?. Qed.

Lemma forget_inv n m hist g key : inv n m hist g → inv n m hist (forget key g).
Proof.
  intros HI. apply inv_owner; [done|]. intros k s [_ Hk]%lookup_delete_Some. by eapply gi_owner.
Qed.

Lemma forget_filled_inv n m hist g leg : inv n m hist g → inv n m hist (forget_filled leg g).
Proof. intros HI. unfold forget_filled. case_bool; [by apply forget_inv|done]. Qed.

Lemma update_order_ownership_inv n m hist g event ledger : inv n m hist g →
  inv n m hist (update_order_ownership event ledger g).
Proof.
  intros HI. destruct event as [e|e|e|e|e|e|e|e]; try done; simpl.
  - case_match; [done|by apply forget_inv].
  - by apply forget_inv.
  - destruct (order_owner_ g !! _) as [s|] eqn:Eo; [|done]. apply forget_inv, inv_owner; [done|].
    intros k s'. rewrite lookup_insert. case_decide as E; [intros [= <-]; subst k|by apply (gi_owner _ _ _ _ HI)].
    by apply (gi_owner _ _ _ _ HI _ _ Eo).
  - by do 2 apply forget_filled_inv.
Qed.

Lemma route_event_inv n m hist g event ledger : inv n m hist g →
  inv n m (hist ++ to_execution_reports event) (route_event event ledger g).
Proof.
  intros HI. unfold route_event. pose proof (route_reports_inv n m (to_execution_reports event) hist g HI) as H.
  destruct (to_execution_reports event); [by rewrite app_nil_r|]. by apply update_order_ownership_inv.
Qed.

(** ** Readers *)

(** Only the reader moves on, to where it may be. *)
Lemma reader_inv n m hist g s f : inv n m hist g →
  (∀ c, private (f c) = private c ∧ own (f c) = own c ∧ account_id_ (f c) = account_id_ c ∧
    outbound_ (f c) = outbound_ c ∧ session_outbound_ (f c) = session_outbound_ c ∧
    replay_backlog_ (f c) = replay_backlog_ c) →
  (∀ c, connections_ g !! s = Some c → conn_ok n m (submitted_ g) hist s c →
    match reader_ (f c) with
    | Claiming message cmd => to_command message = Some cmd ∧ account_id_ c = Some (message_account message)
    | Submitting cmd => account_id_ c = Some (command_account cmd)
    | _ => True
    end) →
  inv n m hist (set_connection s f g).
Proof.
  intros HI Hf Hr. apply inv_set_quiet; [done|intros c _ a; by destruct (Hf c) as (_ & _ & -> & _)|].
  intros c Hc Hok. destruct (Hf c) as (E1 & E2 & E3 & E4 & E5 & E6). pose proof (Hr c Hc Hok) as Hrc.
  destruct Hok as [H1 H2 H3 H4 H5]. split; rewrite ?E1, ?E2, ?E3, ?E4, ?E5, ?E6; done.
Qed.

Lemma claim_inv n m hist g key s : inv n m hist g → bound_to g s key.1 → inv n m hist (claim key s g).
Proof.
  intros HI Hb. unfold claim. destruct (order_owner_ g !! key); [done|]. apply inv_owner; [done|].
  intros k s'. rewrite lookup_insert. case_decide; [intros [= <-]; by subst k|by apply (gi_owner _ _ _ _ HI)].
Qed.

Lemma claim_order_ownership_inv n m hist g s a message : inv n m hist g → bound_to g s a →
  inv n m hist (claim_order_ownership s a message g) ∧
  connections_ (claim_order_ownership s a message g) = connections_ g.
Proof.
  intros HI Hb. assert (∀ key, connections_ (claim key s g) = connections_ g) as Hc.
  { intros key. unfold claim. by destruct (order_owner_ g !! key). }
  destruct message; simpl; try done; (split; [by apply claim_inv|apply Hc]).
Qed.

(** The session's account is set and the account's backlog is its. *)
Definition bind_connection (a : AccountId) (pending : option (list Message)) (c : Connection) : Connection :=
  with_account a (match pending with
                  | Some pending => with_queues (outbound_ c) (session_outbound_ c) pending c
                  | None => c
                  end).

Lemma bind_session_eq s a g : bind_session s a g =
  mk (outbound_capacity_ g) (pending_report_capacity_ g)
    (alter (bind_connection a (pending_reports_ g !! a)) s (connections_ g))
    (<[a := default [] (account_sessions_ g !! a) ++ [s]]> (account_sessions_ g)) (order_owner_ g)
    (match pending_reports_ g !! a with
     | Some _ => delete a (pending_reports_ g)
     | None => pending_reports_ g
     end) (submitted_ g).
Proof.
  unfold bind_session, set_connection, with_connections, with_sessions, with_pending. simpl.
  destruct (pending_reports_ g !! a); simpl; [|done]. by rewrite list_alter_alter_eq.
Qed.

Lemma bind_conn_ok n m sub hist s c a pending : conn_ok n m sub hist s c → account_id_ c = None →
  match reader_ c with Claiming _ _ | Submitting _ => False | _ => True end →
  (∀ l, pending = Some l → l `sublist_of` reports_to a hist ∧ (length l ≤ m)%nat) →
  conn_ok n m sub hist s (bind_connection a pending c).
Proof.
  intros [H1 H2 (H3 & H3' & H3'') _ H5] Hnone Hr Hpen. rewrite Hnone in *.
  apply app_eq_nil in H1 as [Hret Hlive]. pose proof Hret as [Ht _]%app_eq_nil.
  assert (∀ c', account_id_ c' = None → ∀ x, x ∈ own c → False) as Hown.
  { intros _ _ x (? & ? & ? & _)%H2. done. }
  unfold bind_connection. destruct pending as [l|]; split; simpl; try done.
  - destruct (Hpen l eq_refl) as [Hl _]. unfold private, retained, live. simpl.
    change (in_flight (with_account _ _)) with (in_flight c). rewrite Ht.
    change (taken Live (written_ c ++ in_flight c) ++ outbound_ c) with (live c). rewrite Hlive.
    by rewrite app_nil_r.
  - intros x Hx. destruct (Hown c Hnone x Hx).
  - split; [done|]. split; [done|]. by apply Hpen.
  - by destruct (reader_ c).
  - by intros cmd ?%H5.
  - change (private (with_account a c)) with (private c). unfold private. rewrite Hret, Hlive. apply sublist_nil_l.
  - intros x Hx. destruct (Hown c Hnone x Hx).
  - by destruct (reader_ c).
  - by intros cmd ?%H5.
Qed.

Lemma bind_session_inv n m hist g s c a : inv n m hist g → connections_ g !! s = Some c →
  account_id_ c = None → match reader_ c with Claiming _ _ | Submitting _ => False | _ => True end →
  inv n m hist (bind_session s a g) ∧ bound_to (bind_session s a g) s a.
Proof.
  intros HI Hc Hnone Hr. rewrite bind_session_eq. set (f := bind_connection a (pending_reports_ g !! a)).
  assert (∀ s' b, bound_to g s' b → bound_to (set_connection s f g) s' b) as Hkeep.
  { intros s' b. apply bound_set. intros c' Hc' b'. congruence. }
  assert (bound_to (set_connection s f g) s a) as Hnew.
  { exists (f c). simpl. rewrite list_lookup_alter_eq, Hc. split; [done|]. unfold f, bind_connection.
    by destruct (pending_reports_ g !! a). }
  split; [|exact Hnew]. destruct HI as [Hcap Hconn Hsub Hses Hown Hpen]. split; simpl; try done.
  - intros s' c'. destruct (decide (s' = s)) as [->|Hne].
    + rewrite list_lookup_alter_eq, Hc. intros [= <-]. apply bind_conn_ok; [by apply Hconn|done|done|].
      intros l. by apply Hpen.
    + rewrite list_lookup_alter_ne by done. by apply Hconn.
  - intros s' cmd Hin. rewrite length_alter. by eapply Hsub.
  - intros b l s'. rewrite lookup_insert. case_decide as E.
    + intros [= <-] [Hin|Hin]%elem_of_app; subst b.
      * apply Hkeep. destruct (account_sessions_ g !! a) eqn:Ea; [by eapply Hses|by apply not_elem_of_nil in Hin].
      * by apply list_elem_of_singleton in Hin as ->.
    + intros Hl Hs. by eapply Hkeep, Hses.
  - intros k s' Hk. by apply Hkeep, Hown.
  - intros b l. destruct (pending_reports_ g !! a); [|by apply Hpen]. intros [_ Hl]%lookup_delete_Some.
    by apply Hpen.
Qed.

Lemma unbind_session_inv n m hist g s : inv n m hist g →
  inv n m hist (unbind_session s g) ∧ connections_ (unbind_session s g) = connections_ g.
Proof.
  intros HI. unfold unbind_session. destruct (connections_ g !! s ≫= account_id_) as [a|]; [|done].
  set (g1 := match account_sessions_ g !! a with None => g | Some bound => _ end).
  assert (inv n m hist g1 ∧ connections_ g1 = connections_ g ∧ order_owner_ g1 = order_owner_ g) as (HI1 & Ec & Eo).
  { unfold g1. destruct (account_sessions_ g !! a) as [bound|] eqn:Ea; [|done].
    assert (∀ l, (∀ s', s' ∈ l → s' ∈ bound) → inv n m hist (with_sessions (<[a := l]> (account_sessions_ g)) g)) as Hset.
    { intros l Hl. destruct HI as [Hcap Hconn Hsub Hses Hown Hpen]. split; try done. intros b l' s'. simpl.
      rewrite lookup_insert. case_decide; [intros [= <-] Hin; subst b|by apply Hses].
      by eapply Hses, Hl. }
    destruct (filter _ bound) as [|x l] eqn:Ef; (split; [|done]).
    - destruct HI as [Hcap Hconn Hsub Hses Hown Hpen]. split; try done. intros b l s'. simpl.
      intros [_ Hl]%lookup_delete_Some. by apply Hses.
    - apply Hset. intros s'. rewrite <-Ef. by intros [_ ?]%list_elem_of_filter. }
  split; [|exact Ec]. apply inv_owner; [exact HI1|]. intros k s' [Hk _]%map_lookup_filter_Some.
  rewrite Eo in Hk. destruct (gi_owner _ _ _ _ HI k s' Hk) as (c & Hc & ?). exists c. by rewrite Ec.
Qed.

Lemma submit_inv_gateway n m hist g s cmd : inv n m hist g → bound_to g s (command_account cmd) →
  inv n m hist (mk (outbound_capacity_ g) (pending_report_capacity_ g) (connections_ g) (account_sessions_ g)
    (order_owner_ g) (pending_reports_ g) (submitted_ g ++ [(s, cmd)])).
Proof.
  intros [Hcap Hconn Hsub Hses Hown Hpen] (c & Hc & Ha). split; simpl; try done.
  - intros s' c' Hc'. destruct (Hconn s' c' Hc') as [H1 H2 H3 H4 H5]. split; try done.
    intros cmd' [Hin|Hin]%elem_of_app; [by apply H5|]. apply list_elem_of_singleton in Hin as [= -> ->].
    congruence.
  - intros s' cmd' [Hin|Hin]%elem_of_app; [by eapply Hsub|]. apply list_elem_of_singleton in Hin as [= -> ->].
    by apply lookup_lt_Some in Hc.
Qed.

(** A frame of a session that is bound. *)
Lemma bound_frame_inv n m hist g s c a message command : inv n m hist g → connections_ g !! s = Some c →
  account_id_ c = Some a → to_command message = Some command →
  inv n m hist (if a =? message_account message then set_connection s (with_reader (Claiming message command)) g
                else reject_account_mismatch s command g).
Proof.
  intros HI Hc Ha Hcmd. destruct (Z.eqb_spec a (message_account message)) as [->|Hne].
  - apply reader_inv; [done|done|]. intros c' Hc' _. simpl. rewrite Hc in Hc'. by injection Hc' as <-.
  - pose proof (gi_capacity _ _ _ _ HI) as [Hn _]. apply inv_set_quiet; [done|done|].
    intros c' Hc' [H1 H2 (H3 & H3' & H3'') H4 H5]. rewrite Hc in Hc'. injection Hc' as <-. split; try done.
    + simpl. intros x Hx. assert (x ∈ own c ∨ x = mismatch command) as [Hin| ->].
      { unfold own in *. simpl in Hx. change (in_flight (with_queues _ _ _ c)) with (in_flight c) in Hx.
        rewrite Hn in Hx. destruct (try_push_cases n (mismatch command) (session_outbound_ c)) as [[E _]|E];
          rewrite E in Hx; [|by left].
        rewrite app_assoc in Hx. apply elem_of_app in Hx as [Hx|Hx%list_elem_of_singleton]; [by left|by right]. }
      * by apply H2.
      * exists a, command. split; [done|]. split; [done|]. by rewrite (to_command_account _ _ Hcmd).
    + simpl. rewrite Hn. split; [done|]. split; [by apply try_push_length|done].
Qed.

Lemma handle_frame_inv n m hist g s c frame : inv n m hist g → connections_ g !! s = Some c →
  reader_ c = Draining → inv n m hist (handle_frame s c frame g).
Proof.
  intros HI Hc Hr. unfold handle_frame. destruct frame as [message|]; [|done].
  destruct (to_command message) as [command|] eqn:Hcmd; [|done].
  destruct (account_id_ c) as [a|] eqn:Ha; [by apply (bound_frame_inv n m hist g s c)|].
  destruct (bind_session_inv n m hist g s c (message_account message) HI Hc Ha) as [HI' Hb]; [by rewrite Hr|].
  apply reader_inv; [done|done|]. intros c' Hc' _. simpl. split; [done|].
  destruct Hb as (c2 & Hc2 & Ha2). rewrite Hc' in Hc2. by injection Hc2 as <-.
Qed.

Lemma read_step_inv n m hist g s c g' : inv n m hist g → connections_ g !! s = Some c →
  read_step s c g = Some g' → inv n m hist g'.
Proof.
  intros HI Hc. pose proof (gi_conn _ _ _ _ HI s c Hc) as Hok. pose proof (co_reader _ _ _ _ _ _ Hok) as Hrd.
  unfold read_step. destruct (reader_ c) as [| |message command|command| |] eqn:Hr; try done.
  - destruct (MessageStream.next_frame (read_buffer_ c)) as [[frame rest]|].
    2: { intros [= <-]. by apply reader_inv. }
    intros [= <-]. set (c1 := with_buffer rest c).
    replace (handle_frame s c frame) with (handle_frame s c1 frame) by done.
    apply handle_frame_inv; [|simpl; by rewrite list_lookup_alter_eq, Hc|done].
    apply reader_inv; [done|done|]. intros c' Hc' _. rewrite Hc in Hc'. injection Hc' as <-. simpl. by rewrite Hr.
  - intros [= <-]. destruct Hrd as [Hcmd Ha].
    destruct (claim_order_ownership_inv n m hist g s (message_account message) message HI) as [HI' Ec].
    { by exists c. }
    apply reader_inv; [done|done|]. intros c' Hc' _. rewrite Ec, Hc in Hc'. injection Hc' as <-. simpl.
    by rewrite (to_command_account _ _ Hcmd).
  - intros [= <-]. apply reader_inv; [|done|done]. apply submit_inv_gateway; [done|]. by exists c.
  - intros [= <-]. apply reader_inv; [by apply unbind_session_inv|done|done].
Qed.

(** ** Writers *)

Lemma taken_last o l o' m : taken o (l ++ [(o', m)]) = taken o l ++ if decide (o' = o) then [m] else [].
Proof. rewrite taken_app. f_equal. unfold taken. by case_decide; [rewrite filter_cons_True|rewrite filter_cons_False]. Qed.

(** A writer hands on, or loses, what its connection was given. *)
Lemma write_step_keeps ok c c' : write_step ok c = Some c' →
  private c' `sublist_of` private c ∧ own c' `sublist_of` own c ∧ account_id_ c' = account_id_ c ∧
  reader_ c' = reader_ c ∧
  (length (outbound_ c') ≤ length (outbound_ c) ∧ length (session_outbound_ c') ≤ length (session_outbound_ c) ∧
   length (replay_backlog_ c') ≤ length (replay_backlog_ c))%nat.
Proof.
  assert (∀ o l m, taken o l `sublist_of` taken o (l ++ [m])) as Hlost.
  { intros o l m. rewrite taken_app. by apply sublist_inserts_r. }
  assert (∀ o l m (q : list Message), taken o l ++ q `sublist_of` taken o (l ++ [m]) ++ q) as Hlost'.
  { intros o l m q. by apply sublist_app. }
  unfold write_step, private, retained, live, own, in_flight.
  destruct (writer_ c) as [| | |o m|] eqn:Hw; [..|done]; intros [= <-].
  1: destruct (closed_ c); [|unfold take_backlog; destruct (replay_backlog_ c) eqn:E].
  4: unfold take_session_outbound; destruct (session_outbound_ c) eqn:E.
  6: unfold take_outbound; destruct (outbound_ c) eqn:E.
  8: destruct ok; simpl; rewrite ?app_nil_r;
    (split; [|split; [|split; [done|split; [done|lia]]]]); try apply sublist_app; done || apply Hlost'.
  all: simpl; rewrite ?E, ?app_nil_r, ?taken_last; simpl; rewrite <-?app_assoc, ?app_nil_r; simpl;
    (split; [|split; [|split; [done|split; [done|lia]]]]); done.
Qed.

Lemma write_step_inv n m hist g s c ok c' : inv n m hist g → connections_ g !! s = Some c →
  write_step ok c = Some c' → inv n m hist (set_connection s (λ _, c') g).
Proof.
  intros HI Hc Hw. destruct (write_step_keeps _ _ _ Hw) as (Hp & Ho & Ha & Hr & Hl).
  apply inv_set_quiet; [done|..]; intros c0 Hc0; rewrite Hc in Hc0; injection Hc0 as <-; [intros a; by rewrite Ha|].
  intros [H1 H2 H3 H4 H5]. split; rewrite ?Ha, ?Hr; try done.
  - destruct (account_id_ c); [by etrans|]. rewrite H1 in Hp. by apply sublist_nil_r in Hp.
  - intros x Hx. apply H2. by eapply elem_of_sublist.
  - lia.
Qed.

(** ** Any interleaving *)

Lemma accept_inv n m hist g : inv n m hist g → inv n m hist (accept_connection g).
Proof.
  intros [Hcap Hconn Hsub Hses Hown Hpen].
  assert (∀ s a, bound_to g s a → bound_to (accept_connection g) s a) as Hb.
  { intros s a (c & Hc & Ha). exists c. split; [|done]. simpl. by apply lookup_app_l_Some. }
  split; simpl; try done.
  - intros s c [Hc|[Hlen Hc]]%lookup_app_Some; [by apply Hconn|]. apply list_lookup_singleton_Some in Hc as [Hs <-].
    split; simpl; try done; [by intros x ?%not_elem_of_nil|lia|]. intros cmd Hin. apply Hsub in Hin. lia.
  - intros s cmd Hin. rewrite length_app. apply Hsub in Hin. lia.
  - intros a l s Hl Hs. by eapply Hb, Hses.
  - intros k s Hk. by apply Hb, Hown.
Qed.

Lemma step_inv n m hist g a g' : inv n m hist g → step a g = Some g' →
  inv n m (hist ++ match a with Route event _ => to_execution_reports event | _ => [] end) g'.
Proof.
  intros HI. destruct a as [|s chunk|s|s|s ok|event ledger]; cbn [step]; rewrite ?app_nil_r.
  - intros [= <-]. by apply accept_inv.
  - intros (c & Hc & Hg)%bind_Some. destruct (reader_ c); try done. injection Hg as <-. by apply reader_inv.
  - intros (c & Hc & Hg)%bind_Some. destruct (reader_ c); try done. injection Hg as <-. by apply reader_inv.
  - intros (c & Hc & Hg)%bind_Some. by eapply read_step_inv.
  - intros (c & Hc & (c' & Hw & [= <-])%bind_Some)%bind_Some. by eapply write_step_inv.
  - intros [= <-]. by apply route_event_inv.
Qed.

Lemma exec_inv_gateway n m actions : ∀ hist g g', inv n m hist g → exec actions g = Some g' →
  inv n m (hist ++ reported actions) g'.
Proof.
  induction actions as [|a actions IH]; intros hist g g' HI; cbn [exec].
  - intros [= <-]. by rewrite app_nil_r.
  - intros (g1 & Hs & Hg)%bind_Some. unfold reported. rewrite fmap_cons. cbn [concat]. rewrite app_assoc.
    eapply IH; [|done]. by eapply step_inv.
Qed.

Lemma inv_make_gateway n m : inv n m [] (make n m).
Proof. split; try done. by intros s cmd ?%not_elem_of_nil. Qed.

Lemma exec_ok n m actions g : exec actions (make n m) = Some g → inv n m (reported actions) g.
Proof. intros Hx. by apply (exec_inv_gateway n m actions [] (make n m) g (inv_make_gateway n m)). Qed.

Lemma report_account event k x : (k, x) ∈ to_execution_reports event → message_account x = k.1.
Proof.
  intros Hin. destruct event; simpl in Hin;
    repeat (apply elem_of_cons in Hin as [Hin|Hin]; [by injection Hin as -> ->|]);
    by apply not_elem_of_nil in Hin.
Qed.

Lemma reported_account a actions x : x ∈ reports_to a (reported actions) → message_account x = a.
Proof.
  intros ([k y] & -> & [Hk Hin]%list_elem_of_filter)%list_elem_of_fmap. simpl in *. subst a.
  unfold reported in Hin. apply list_elem_of_In, in_concat in Hin as (l & Hl & Hin).
  apply list_elem_of_In, list_elem_of_fmap in Hl as (act & -> & _). apply list_elem_of_In in Hin.
  destruct act; try (by apply not_elem_of_nil in Hin). by eapply report_account.
Qed.

Lemma written_taken c : (∀ o, taken o (written_ c) = []) → written_ c = [].
Proof.
  intros H. destruct (written_ c) as [|[o m] l]; [done|]. specialize (H o). unfold taken in H.
  by rewrite filter_cons_True in H.
Qed.

(** C22: private reports stay private. Whatever the clients send and however the gateway's
    threads interleave, a session that has not named an account has been written
    nothing; one bound to an account has been written, besides refusals of its own
    requests for other accounts, only reports of that account, each at most once, those
    retained for it in the order they were made and so those routed to it; every
    command it submitted is for that account; and no queue outgrows its capacity. *)
Theorem private_reports n m actions g s c :
  exec actions (make n m) = Some g → connections_ g !! s = Some c →
  match account_id_ c with
  | None => written_ c = []
  | Some a =>
      taken Retained (written_ c) ++ taken Live (written_ c) `sublist_of` reports_to a (reported actions) ∧
      ∀ x, x ∈ taken Retained (written_ c) ++ taken Live (written_ c) → message_account x = a
  end ∧
  (∀ x, x ∈ taken Own (written_ c) →
     ∃ a cmd, account_id_ c = Some a ∧ x = mismatch cmd ∧ a ≠ command_account cmd) ∧
  (∀ cmd, (s, cmd) ∈ submitted_ g → account_id_ c = Some (command_account cmd)) ∧
  (length (outbound_ c) ≤ n ∧ length (session_outbound_ c) ≤ n ∧ length (replay_backlog_ c) ≤ m)%nat.
Proof.
  intros Hx Hc. destruct (gi_conn _ _ _ _ (exec_ok n m actions g Hx) s c Hc) as [Hp Ho Hb _ Hs].
  assert (taken Retained (written_ c) ++ taken Live (written_ c) `sublist_of` private c) as Hsub.
  { unfold private, retained, live. rewrite !taken_app, <-!app_assoc. apply sublist_app; [done|].
    do 2 apply sublist_inserts_l. by apply sublist_inserts_r. }
  assert (∀ x, x ∈ taken Own (written_ c) → x ∈ own c) as Hown.
  { intros x Hx'. unfold own. rewrite taken_app, <-app_assoc. apply elem_of_app. by left. }
  split; [|split; [by intros x Hin%Hown; apply Ho|done]].
  destruct (account_id_ c) as [a|].
  - assert (taken Retained (written_ c) ++ taken Live (written_ c) `sublist_of` reports_to a (reported actions)) as H
      by by etrans.
    split; [done|]. intros x Hin. apply (reported_account a actions). by eapply elem_of_sublist.
  - rewrite Hp in Hsub. apply sublist_nil_r, app_eq_nil in Hsub as [H1 H2].
    apply written_taken. intros []; [done| |done].
    destruct (taken Own (written_ c)) as [|x l]; [done|].
    destruct (Ho x) as (? & ? & ? & _); [apply Hown; by left|done].
Qed.

(** ** Schedules *)

Definition sample_new (a c : Z) : Message := MsgNewOrder (mkNewOrder a c 7 Buy 100 5 Limit GTC).

Definition sample_accepted (a c : Z) : ExchangeEvent :=
  EvAccepted (mkOrderAccepted 1 1 a c (10 + c) 7 Buy 100 5 Limit GTC).

Definition sample_fill : ExchangeEvent :=
  EvTrade (mkTradeExecuted 3 2 7 100 5 Sell (mkCounterparty 1 11 21 0) (mkCounterparty 2 12 22 0)).

(** Session 0 binds to account 1, asks for account 2 and is refused; session 1 binds to
    account 2; the trade between them is reported to both. *)
Definition sample_run : list action :=
  [Accept; Accept; Route (sample_accepted 1 9) Ledger.empty;
   Receive 0 (encode_message (sample_new 1 11) [] ++ encode_message (sample_new 2 13) []);
   Read 0; Read 0; Read 0; Read 0; Read 0;
   Receive 1 (encode_message (sample_new 2 12) []); Read 1; Read 1; Read 1;
   Route sample_fill Ledger.empty] ++
  replicate 2 (Write 0 true) ++ [Write 0 true; Write 0 true; Write 0 true] ++
  [Write 0 true; Write 0 true; Write 0 true; Write 0 true] ++ replicate 5 (Write 1 true).

Definition sample_end : t := default (make 4 4) (exec sample_run (make 4 4)).

Definition sample_connection (s : nat) : Connection :=
  default (mkConnection [] [] [] [] None false Reading WriterTop []) (connections_ sample_end !! s).

Lemma private_reports_witness :
  account_id_ (sample_connection 0) = Some 1 ∧ length (written_ (sample_connection 0)) = 3%nat ∧
  length (submitted_ sample_end) = 2%nat ∧
  taken Retained (written_ (sample_connection 0)) ++ taken Live (written_ (sample_connection 0))
    `sublist_of` reports_to 1 (reported sample_run).
Proof.
  split; [by vm_compute|]. split; [by vm_compute|]. split; [by vm_compute|].
  assert (exec sample_run (make 4 4) = Some sample_end) as Hx by by vm_compute.
  assert (connections_ sample_end !! 0%nat = Some (sample_connection 0)) as Hc by by vm_compute.
  pose proof (private_reports 4 4 sample_run sample_end 0 (sample_connection 0) Hx Hc) as [H _].
  assert (account_id_ (sample_connection 0) = Some 1) as Ha by by vm_compute. rewrite Ha in H. exact (proj1 H).
Defined.

(** ** A retained report after a live one *)

(** The writer finds the backlog of a new session empty and goes on to the other queues;
    then the session binds, which hands it the retained report, and another report is
    routed to it: the writer sends the second first. *)
Definition late_cancelled : ExchangeEvent := EvCancelled (mkOrderCancelled 2 2 1 9 19 7).

Definition overtaken_run : list action :=
  [Route (sample_accepted 1 9) Ledger.empty; Accept; Write 0 true;
   Receive 0 (encode_message (sample_new 1 11) []); Read 0; Route late_cancelled Ledger.empty] ++
  replicate 5 (Write 0 true).

Lemma retained_after_live : ∃ first second,
  reported overtaken_run = [((1, 9), first); ((1, 9), second)] ∧
  written_ <$> (exec overtaken_run (make 4 4) ≫= λ g, connections_ g !! 0%nat) =
    Some [(Live, second); (Retained, first)].
Proof. do 2 eexists. split; vm_compute; reflexivity. Qed.

End GatewayProps.
