(* ===== verification/Oms.v ===== *)
(** * The trader's order management ([trader/oms])

    [ClientOrder] of [client_order.hpp] and [OrderManagementSystem] of
    [order_management_system.hpp] and [.cpp]. A method holds the mutex for one critical
    section, sends outside it, and takes the mutex again when the send failed: each
    section is a definition, and so is the method run on its own. What the sinks are
    handed is an output. *)

From S2P Require Import Prelude Types OrderEntryCodec.

Module ClientOrderState.
Inductive t := PendingNew | Live | PartiallyFilled | Filled | Rejected | Cancelled | Replaced.

#[global] Instance eq_dec : EqDecision t.
Proof. solve_decision. Defined.
End ClientOrderState.
Abbreviation ClientOrderState := ClientOrderState.t.

Module PendingAction.
Inductive t := None | Cancel | Replace.

#[global] Instance eq_dec : EqDecision t.
Proof. solve_decision. Defined.
End PendingAction.
Abbreviation PendingAction := PendingAction.t.

Module OrderManagementSystem.
Import OrderEntryCodec.

Record ClientOrder := mkClientOrder {
  cl_account_id : AccountId;
  cl_client_order_id : ClientOrderId;
  cl_exchange_order_id : option ExchangeOrderId;
  cl_instrument_id : InstrumentId;
  cl_side : Side;
  cl_price : Price;
  cl_quantity : Quantity;
  cl_remaining_quantity : Quantity;
  cl_order_type : OrderType;
  cl_time_in_force : TimeInForce;
  cl_state : ClientOrderState;
  cl_pending_action : PendingAction;
  cl_last_reject_reason : RejectReason;
}.

Record Fill := mkFill {
  fl_account_id : AccountId;
  fl_client_order_id : ClientOrderId;
  fl_instrument_id : InstrumentId;
  fl_side : Side;
  fl_price : Price;
  fl_quantity : Quantity;
}.

(** What the sinks are called with. *)
Inductive Update := Notify (updated_order : ClientOrder) | Filled (fill : Fill).

Record t := mk {
  account_id_ : AccountId;
  next_client_order_id_ : ClientOrderId;
  orders_ : gmap ClientOrderId ClientOrder;
}.

Definition make (account_id : AccountId) : t := mk account_id 1 ∅.

Definition with_orders (m : gmap ClientOrderId ClientOrder) (o : t) : t :=
  mk (account_id_ o) (next_client_order_id_ o) m.

(** Changes of an order the critical sections make. *)
Definition set_state (s : ClientOrderState) (c : ClientOrder) : ClientOrder :=
  mkClientOrder (cl_account_id c) (cl_client_order_id c) (cl_exchange_order_id c) (cl_instrument_id c)
    (cl_side c) (cl_price c) (cl_quantity c) (cl_remaining_quantity c) (cl_order_type c)
    (cl_time_in_force c) s (cl_pending_action c) (cl_last_reject_reason c).

Definition set_pending_action (a : PendingAction) (c : ClientOrder) : ClientOrder :=
  mkClientOrder (cl_account_id c) (cl_client_order_id c) (cl_exchange_order_id c) (cl_instrument_id c)
    (cl_side c) (cl_price c) (cl_quantity c) (cl_remaining_quantity c) (cl_order_type c)
    (cl_time_in_force c) (cl_state c) a (cl_last_reject_reason c).

Definition set_last_reject_reason (r : RejectReason) (c : ClientOrder) : ClientOrder :=
  mkClientOrder (cl_account_id c) (cl_client_order_id c) (cl_exchange_order_id c) (cl_instrument_id c)
    (cl_side c) (cl_price c) (cl_quantity c) (cl_remaining_quantity c) (cl_order_type c)
    (cl_time_in_force c) (cl_state c) (cl_pending_action c) r.

Definition set_exchange_order_id (x : ExchangeOrderId) (c : ClientOrder) : ClientOrder :=
  mkClientOrder (cl_account_id c) (cl_client_order_id c) (Some x) (cl_instrument_id c)
    (cl_side c) (cl_price c) (cl_quantity c) (cl_remaining_quantity c) (cl_order_type c)
    (cl_time_in_force c) (cl_state c) (cl_pending_action c) (cl_last_reject_reason c).

Definition set_terms (price : Price) (quantity remaining : Quantity) (c : ClientOrder) : ClientOrder :=
  mkClientOrder (cl_account_id c) (cl_client_order_id c) (cl_exchange_order_id c) (cl_instrument_id c)
    (cl_side c) price quantity remaining (cl_order_type c)
    (cl_time_in_force c) (cl_state c) (cl_pending_action c) (cl_last_reject_reason c).

Definition is_live (state : ClientOrderState) : bool :=
  bool_decide (state = ClientOrderState.Live) || bool_decide (state = ClientOrderState.PartiallyFilled).

(** [orders_.emplace]: a key that is there keeps its value. *)
Definition emplace (id : ClientOrderId) (c : ClientOrder) (m : gmap ClientOrderId ClientOrder) :
    gmap ClientOrderId ClientOrder :=
  match m !! id with Some _ => m | None => <[id := c]> m end.

Definition order (client_order_id : ClientOrderId) (o : t) : option ClientOrder := orders_ o !! client_order_id.

(** ** Requests *)

Definition new_client_order (account_id : AccountId) (id : ClientOrderId) (instrument_id : InstrumentId)
    (side : Side) (price : Price) (quantity : Quantity) (order_type : OrderType)
    (time_in_force : TimeInForce) : ClientOrder :=
  mkClientOrder account_id id None instrument_id side price quantity quantity order_type time_in_force
    ClientOrderState.PendingNew PendingAction.None RejectReason.None.

(** The first critical section of [submit_new_order], and the message to send. *)
Definition begin_submit (instrument_id : InstrumentId) (side : Side) (price : Price) (quantity : Quantity)
    (order_type : OrderType) (time_in_force : TimeInForce) (o : t) : ClientOrderId * Message * t :=
  let id := next_client_order_id_ o in
  let c := new_client_order (account_id_ o) id instrument_id side price quantity order_type time_in_force in
  (id, MsgNewOrder (mkNewOrder (account_id_ o) id instrument_id side price quantity order_type time_in_force),
   mk (account_id_ o) (u64 (id + 1)) (emplace id c (orders_ o))).

(** Of [cancel_order]: [None] where it returns [false]. *)
Definition begin_cancel (client_order_id : ClientOrderId) (o : t) : option (Message * t) :=
  c ← orders_ o !! client_order_id;
  if negb (is_live (cl_state c)) || negb (bool_decide (cl_pending_action c = PendingAction.None)) then None
  else Some (MsgCancelOrder (mkCancelOrder (account_id_ o) client_order_id (cl_instrument_id c)),
             with_orders (<[client_order_id := set_pending_action PendingAction.Cancel c]> (orders_ o)) o).

(** Of [replace_order], where [emplace] does not rehash. *)
Definition begin_replace (client_order_id : ClientOrderId) (new_price : Price) (new_quantity : Quantity)
    (o : t) : option (ClientOrderId * Message * t) :=
  c ← orders_ o !! client_order_id;
  if negb (is_live (cl_state c)) || negb (bool_decide (cl_pending_action c = PendingAction.None)) then None
  else
    let orders := <[client_order_id := set_pending_action PendingAction.Replace c]> (orders_ o) in
    let new_id := next_client_order_id_ o in
    let replacement := new_client_order (account_id_ o) new_id (cl_instrument_id c) (cl_side c) new_price
      new_quantity (cl_order_type c) (cl_time_in_force c) in
    Some (new_id,
          MsgReplaceOrder (mkReplaceOrder (account_id_ o) client_order_id new_id (cl_instrument_id c)
            new_price new_quantity),
          mk (account_id_ o) (u64 (new_id + 1)) (emplace new_id replacement orders)).

(** The message is built with [it->second.instrument_id], after [orders_.emplace]: an
    insertion that rehashes invalidates [it], and the read is not defined. Whether it
    does is the hash table's. *)
Definition replacement_defined (rehashes : bool) : bool := negb rehashes.

(** ** When a send fails *)

Definition failed (c : ClientOrder) : ClientOrder :=
  set_last_reject_reason RejectReason.InternalError (set_pending_action PendingAction.None
    (set_state ClientOrderState.Rejected c)).

Definition notify (c : option ClientOrder) : list Update :=
  match c with Some c => [Notify c] | None => [] end.

Definition mark_send_failed (client_order_id : ClientOrderId) (o : t) : t * list Update :=
  let orders := alter failed client_order_id (orders_ o) in
  (with_orders orders o, notify (orders !! client_order_id)).

Definition clear_pending_action (client_order_id : ClientOrderId) (o : t) : t :=
  with_orders (alter (set_pending_action PendingAction.None) client_order_id (orders_ o)) o.

(** The replacement never went out. *)
Definition forget_replacement (client_order_id new_id : ClientOrderId) (o : t) : t :=
  clear_pending_action client_order_id (with_orders (delete new_id (orders_ o)) o).

(** What the method that built [message] does when its send fails. *)
Definition send_failed (message : Message) (o : t) : t * list Update :=
  match message with
  | MsgNewOrder m => mark_send_failed (nw_client_order_id m) o
  | MsgCancelOrder m => (clear_pending_action (cn_client_order_id m) o, [])
  | MsgReplaceOrder m =>
      (forget_replacement (rp_original_client_order_id m) (rp_new_client_order_id m) o, [])
  | _ => (o, [])
  end.

(** ** The methods, on their own: [ok] is what [sender_] answers *)

Definition submit_new_order (ok : bool) (instrument_id : InstrumentId) (side : Side) (price : Price)
    (quantity : Quantity) (order_type : OrderType) (time_in_force : TimeInForce) (o : t) :
    ClientOrderId * t * list Update :=
  let '(id, message, o) := begin_submit instrument_id side price quantity order_type time_in_force o in
  if ok then (id, o, []) else let '(o, updates) := mark_send_failed id o in (id, o, updates).

Definition cancel_order (ok : bool) (client_order_id : ClientOrderId) (o : t) : bool * t :=
  match begin_cancel client_order_id o with
  | None => (false, o)
  | Some (message, o) => if ok then (true, o) else (false, clear_pending_action client_order_id o)
  end.

Definition replace_order (ok : bool) (client_order_id : ClientOrderId) (new_price : Price)
    (new_quantity : Quantity) (o : t) : option ClientOrderId * t :=
  match begin_replace client_order_id new_price new_quantity o with
  | None => (None, o)
  | Some (new_id, message, o) =>
      if ok then (Some new_id, o) else (None, forget_replacement client_order_id new_id o)
  end.

(** ** Responses *)

Definition accepted (event : Accepted) (c : ClientOrder) : ClientOrder :=
  set_terms (cl_price c) (ac_quantity event) (ac_quantity event)
    (set_state ClientOrderState.Live (set_exchange_order_id (ac_exchange_order_id event) c)).

Definition rejected (event : Rejected) (c : ClientOrder) : ClientOrder :=
  let c := if bool_decide (cl_state c = ClientOrderState.PendingNew)
           then set_state ClientOrderState.Rejected c else c in
  set_last_reject_reason (rj_reason event) (set_pending_action PendingAction.None c).

Definition cancelled (c : ClientOrder) : ClientOrder :=
  set_pending_action PendingAction.None (set_state ClientOrderState.Cancelled c).

Definition superseded (c : ClientOrder) : ClientOrder :=
  set_pending_action PendingAction.None (set_state ClientOrderState.Replaced c).

Definition replacement (event : Replaced) (c : ClientOrder) : ClientOrder :=
  set_terms (rd_new_price event) (rd_new_quantity event) (rd_new_quantity event)
    (set_exchange_order_id (rd_exchange_order_id event) (set_state ClientOrderState.Live c)).

Definition traded (event : TradeReport) (c : ClientOrder) : ClientOrder :=
  set_state (if tp_remaining_quantity event =? 0 then ClientOrderState.Filled
             else ClientOrderState.PartiallyFilled)
    (set_terms (cl_price c) (cl_quantity c) (tp_remaining_quantity event) c).

(** An id that is not known is ignored. *)
Definition on_order (f : ClientOrder → ClientOrder) (id : ClientOrderId) (o : t) : t * list Update :=
  let orders := alter f id (orders_ o) in (with_orders orders o, notify (orders !! id)).

Definition on_accepted (event : Accepted) : t → t * list Update :=
  on_order (accepted event) (ac_client_order_id event).

Definition on_rejected (event : Rejected) : t → t * list Update :=
  on_order (rejected event) (rj_client_order_id event).

Definition on_cancelled (event : Cancelled) : t → t * list Update :=
  on_order cancelled (cc_client_order_id event).

(** The copy of the original is taken before the replacement is looked up. *)
Definition on_replaced (event : Replaced) (o : t) : t * list Update :=
  let '(o, updates) := on_order superseded (rd_original_client_order_id event) o in
  let '(o, updates') := on_order (replacement event) (rd_new_client_order_id event) o in
  (o, updates ++ updates').

Definition fill_of (event : TradeReport) (account_id : AccountId) (c : ClientOrder) : Fill :=
  mkFill account_id (tp_client_order_id event) (tp_instrument_id event) (cl_side c) (tp_price event)
    (tp_quantity event).

Definition on_trade_report (event : TradeReport) (o : t) : t * list Update :=
  let '(o, updates) := on_order (traded event) (tp_client_order_id event) o in
  (o, updates ++
      match orders_ o !! tp_client_order_id event with
      | Some c => [Filled (fill_of event (account_id_ o) c)]
      | None => []
      end).

Definition handle_message (message : Message) (o : t) : t * list Update :=
  match message with
  | MsgAccepted event => on_accepted event o
  | MsgRejected event => on_rejected event o
  | MsgCancelled event => on_cancelled event o
  | MsgReplaced event => on_replaced event o
  | MsgTradeReport event => on_trade_report event o
  | MsgNewOrder _ | MsgCancelOrder _ | MsgReplaceOrder _ => (o, [])
  end.

End OrderManagementSystem.
