(* ===== verification/Positions.v ===== *)
(** * The trader's positions and risk ([trader/positions], [trader/risk])

    [PositionTracker]: cash and holdings, settled from the order management's fills.
    [TraderRiskEngine]: the check of an order against them. [TraderRiskGatedOms]: both
    around the order management. Cash is a signed 64-bit integer and quantities are
    unsigned ones, as in the exchange's ledger. *)

From S2P Require Import Prelude Types OrderEntryCodec Oms.

Module PositionTracker.
Import OrderManagementSystem.

Abbreviation Balance := Z (only parsing).

Record AccountPosition := mkPosition {
  cash_ : Balance;
  holdings : gmap InstrumentId Quantity;
}.

Definition no_position : AccountPosition := mkPosition 0 ∅.

Record t := mk { accounts_ : gmap AccountId AccountPosition }.

Definition empty : t := mk ∅.

Definition account (account_id : AccountId) (p : t) : AccountPosition :=
  default no_position (accounts_ p !! account_id).

Definition cash (account_id : AccountId) (p : t) : Balance :=
  match accounts_ p !! account_id with None => 0 | Some a => cash_ a end.

Definition position (account_id : AccountId) (instrument_id : InstrumentId) (p : t) : Quantity :=
  match accounts_ p !! account_id with
  | None => 0
  | Some a => match holdings a !! instrument_id with None => 0 | Some q => q end
  end.

(** [accounts_[account_id]], changed. *)
Definition update (account_id : AccountId) (f : AccountPosition → AccountPosition) (p : t) : t :=
  mk (<[account_id := f (account account_id p)]> (accounts_ p)).

Definition add_cash (amount : Balance) (a : AccountPosition) : AccountPosition :=
  mkPosition (i64 (cash_ a + amount)) (holdings a).

(** [holdings[instrument_id] += amount] *)
Definition add_holding (instrument_id : InstrumentId) (amount : Quantity) (a : AccountPosition) :
    AccountPosition :=
  mkPosition (cash_ a) (<[instrument_id := u64 (default 0 (holdings a !! instrument_id) + amount)]> (holdings a)).

Definition deposit_cash (account_id : AccountId) (amount : Balance) : t → t :=
  update account_id (add_cash amount).

Definition deposit_position (account_id : AccountId) (instrument_id : InstrumentId) (amount : Quantity) : t → t :=
  update account_id (add_holding instrument_id amount).

(** [static_cast<Balance>(quantity) * price] *)
Definition notional (quantity : Quantity) (price : Price) : Balance := i64 (i64 quantity * price).

Definition apply (fill : Fill) (p : t) : t :=
  let n := notional (fl_quantity fill) (fl_price fill) in
  update (fl_account_id fill)
    (match fl_side fill with
     | Buy => λ a, add_holding (fl_instrument_id fill) (fl_quantity fill) (add_cash (- n) a)
     | Sell => λ a, add_holding (fl_instrument_id fill) (- fl_quantity fill) (add_cash n a)
     end) p.

Definition apply_all (fills : list Fill) (p : t) : t := foldl (λ p fill, apply fill p) p fills.

End PositionTracker.

Module TraderRiskEngine.

Record TraderRiskLimits := mkLimits { max_order_quantity : Quantity }.

Definition default_limits : TraderRiskLimits := mkLimits 1000000.

Definition check (limits : TraderRiskLimits) (account_id : AccountId) (instrument_id : InstrumentId)
    (side : Side) (price : Price) (quantity : Quantity) (positions : PositionTracker.t) : RejectReason :=
  if max_order_quantity limits <? quantity then RejectReason.OrderTooLarge
  else
    match side with
    | Buy =>
        if PositionTracker.cash account_id positions <? PositionTracker.notional quantity price
        then RejectReason.InsufficientFunds else RejectReason.None
    | Sell =>
        if PositionTracker.position account_id instrument_id positions <? quantity
        then RejectReason.InsufficientPosition else RejectReason.None
    end.

End TraderRiskEngine.

Module TraderRiskGatedOms.
Import OrderEntryCodec OrderManagementSystem TraderRiskEngine.

Record t := mk {
  account_id_ : AccountId;
  risk_ : TraderRiskLimits;
  positions_ : PositionTracker.t;
  oms_ : OrderManagementSystem.t;
}.

Definition make (account_id : AccountId) (limits : TraderRiskLimits) : t :=
  mk account_id limits PositionTracker.empty (OrderManagementSystem.make account_id).

Definition with_oms (o : OrderManagementSystem.t) (g : t) : t :=
  mk (account_id_ g) (risk_ g) (positions_ g) o.

Definition with_positions (p : PositionTracker.t) (g : t) : t :=
  mk (account_id_ g) (risk_ g) p (oms_ g).

Definition cash (g : t) : Z := PositionTracker.cash (account_id_ g) (positions_ g).

Definition position (instrument_id : InstrumentId) (g : t) : Quantity :=
  PositionTracker.position (account_id_ g) instrument_id (positions_ g).

Definition deposit_cash (amount : Z) (g : t) : t :=
  with_positions (PositionTracker.deposit_cash (account_id_ g) amount (positions_ g)) g.

Definition deposit_position (instrument_id : InstrumentId) (amount : Quantity) (g : t) : t :=
  with_positions (PositionTracker.deposit_position (account_id_ g) instrument_id amount (positions_ g)) g.

(** The parameters of [submit_new_order]. *)
Record Intent := mkIntent {
  in_instrument_id : InstrumentId;
  in_side : Side;
  in_price : Price;
  in_quantity : Quantity;
  in_order_type : OrderType;
  in_time_in_force : TimeInForce;
}.

(** [submit_new_order], up to where it calls [oms_]. *)
Definition local_check (i : Intent) (g : t) : RejectReason :=
  check (risk_ g) (account_id_ g) (in_instrument_id i) (in_side i) (in_price i) (in_quantity i) (positions_ g).

Definition begin_submit (i : Intent) (g : t) : ClientOrderId * Message * t :=
  let '(id, message, o) := OrderManagementSystem.begin_submit (in_instrument_id i) (in_side i) (in_price i)
    (in_quantity i) (in_order_type i) (in_time_in_force i) (oms_ g) in
  (id, message, with_oms o g).

(** The whole method; [ok] is what the sender answers. *)
Definition submit_new_order (ok : bool) (i : Intent) (g : t) :
    (ClientOrderId + RejectReason) * t * list Update :=
  let reason := local_check i g in
  if negb (bool_decide (reason = RejectReason.None)) then (inr reason, g, [])
  else
    let '(id, o, updates) := OrderManagementSystem.submit_new_order ok (in_instrument_id i) (in_side i)
      (in_price i) (in_quantity i) (in_order_type i) (in_time_in_force i) (oms_ g) in
    (inl id, with_oms o g, updates).

Definition begin_cancel (client_order_id : ClientOrderId) (g : t) : option (Message * t) :=
  '(message, o) ← OrderManagementSystem.begin_cancel client_order_id (oms_ g); Some (message, with_oms o g).

Definition begin_replace (client_order_id : ClientOrderId) (new_price : Price) (new_quantity : Quantity)
    (g : t) : option (ClientOrderId * Message * t) :=
  '(new_id, message, o) ← OrderManagementSystem.begin_replace client_order_id new_price new_quantity (oms_ g);
  Some (new_id, message, with_oms o g).

Definition cancel_order (ok : bool) (client_order_id : ClientOrderId) (g : t) : bool * t :=
  let '(sent, o) := OrderManagementSystem.cancel_order ok client_order_id (oms_ g) in (sent, with_oms o g).

Definition replace_order (ok : bool) (client_order_id : ClientOrderId) (new_price : Price)
    (new_quantity : Quantity) (g : t) : option ClientOrderId * t :=
  let '(new_id, o) := OrderManagementSystem.replace_order ok client_order_id new_price new_quantity (oms_ g) in
  (new_id, with_oms o g).

Definition send_failed (message : Message) (g : t) : t :=
  with_oms (OrderManagementSystem.send_failed message (oms_ g)).1 g.

(** The order management's part of [handle_message]; the fills it yields go to
    [positions_]'s sink. *)
Definition handle_message (message : Message) (g : t) : t * list Update :=
  let '(o, updates) := OrderManagementSystem.handle_message message (oms_ g) in (with_oms o g, updates).

Definition fills (updates : list Update) : list Fill :=
  omap (λ u, match u with Filled fill => Some fill | Notify _ => None end) updates.

Definition settle (fill : Fill) (g : t) : t := with_positions (PositionTracker.apply fill (positions_ g)) g.

End TraderRiskGatedOms.
