(* ===== verification/SpscQueue.v ===== *)
(** * The single-producer single-consumer queue ([common/spsc_queue.hpp])

    Every atomic load and store is a step of its own, so a schedule interleaves the
    producer and the consumer at will (sequentially consistent: each index has one
    writer, and a release store publishes what the other thread's acquire load then
    sees). [None] is undefined behaviour: constructing over a live element, or
    reading a slot that holds none. The queue refines a bounded FIFO, whose
    operations take effect at one step of each call. *)

From S2P Require Import Prelude.

Module SpscQueue.

(** [while (p < n) p <<= 1;], from 1; a [std::size_t] has 64 bits. *)
Fixpoint next_power_of_two_from (fuel : nat) (p n : Z) : option Z :=
  if negb (p <? n) then Some p
  else match fuel with
       | O => None
       | S fuel => next_power_of_two_from fuel (u64 (Z.shiftl p 1)) n
       end.

Definition next_power_of_two (n : Z) : option Z := next_power_of_two_from 64 1 n.

Section queue.
Context {T : Type}.

(** Where each thread is inside its call, with the locals it has read. *)
Inductive producer_pc :=
  | PIdle
  | PStart (value : T)
  | PGotHead (value : T) (head : Z)
  | PRoom (value : T) (head tail : Z)
  | PBuilt (value : T) (head tail : Z)
  | PMarked (value : T) (head : Z).

Inductive consumer_pc :=
  | CIdle
  | CStart
  | CGotTail (tail : Z)
  | CAvail (tail : Z)
  | CTaken (value : T) (tail : Z).

Record t := mk {
  capacity_ : Z;
  mask_ : Z;
  storage_ : gmap Z T;
  high_water_mark_ : Z;
  head_ : Z;
  tail_ : Z;
  producer : producer_pc;
  consumer : consumer_pc;
}.

Definition make (capacity : Z) : option t :=
  c ← next_power_of_two capacity; Some (mk c (u64 (c - 1)) ∅ 0 0 0 PIdle CIdle).

Definition set_producer (p : producer_pc) (s : t) : t :=
  mk (capacity_ s) (mask_ s) (storage_ s) (high_water_mark_ s) (head_ s) (tail_ s) p (consumer s).
Definition set_consumer (c : consumer_pc) (s : t) : t :=
  mk (capacity_ s) (mask_ s) (storage_ s) (high_water_mark_ s) (head_ s) (tail_ s) (producer s) c.
Definition set_storage (m : gmap Z T) (s : t) : t :=
  mk (capacity_ s) (mask_ s) m (high_water_mark_ s) (head_ s) (tail_ s) (producer s) (consumer s).
Definition set_high_water_mark (n : Z) (s : t) : t :=
  mk (capacity_ s) (mask_ s) (storage_ s) n (head_ s) (tail_ s) (producer s) (consumer s).
Definition set_head (n : Z) (s : t) : t :=
  mk (capacity_ s) (mask_ s) (storage_ s) (high_water_mark_ s) n (tail_ s) (producer s) (consumer s).
Definition set_tail (n : Z) (s : t) : t :=
  mk (capacity_ s) (mask_ s) (storage_ s) (high_water_mark_ s) (head_ s) n (producer s) (consumer s).

(** What a call returned. *)
Inductive outcome := Pushed (v : T) | PushFull (v : T) | Popped (v : T) | PopEmpty.

(** One atomic step of [try_push]. *)
Definition producer_step (s : t) : option (t * list outcome) :=
  match producer s with
  | PIdle => Some (s, [])
  | PStart v => Some (set_producer (PGotHead v (head_ s)) s, [])
  | PGotHead v head =>
      let tail := tail_ s in
      if capacity_ s <=? u64 (head - tail) then Some (set_producer PIdle s, [PushFull v])
      else Some (set_producer (PRoom v head tail) s, [])
  | PRoom v head tail =>
      match storage_ s !! Z.land head (mask_ s) with
      | Some _ => None
      | None =>
          Some (set_producer (PBuilt v head tail)
                  (set_storage (<[Z.land head (mask_ s) := v]> (storage_ s)) s), [])
      end
  | PBuilt v head tail =>
      let new_occupancy := u64 (head + 1 - tail) in
      Some (set_producer (PMarked v head)
              (if high_water_mark_ s <? new_occupancy then set_high_water_mark new_occupancy s else s), [])
  | PMarked v head => Some (set_producer PIdle (set_head (u64 (head + 1)) s), [Pushed v])
  end.

(** One atomic step of [try_pop]. *)
Definition consumer_step (s : t) : option (t * list outcome) :=
  match consumer s with
  | CIdle => Some (s, [])
  | CStart => Some (set_consumer (CGotTail (tail_ s)) s, [])
  | CGotTail tail =>
      let head := head_ s in
      if tail =? head then Some (set_consumer CIdle s, [PopEmpty])
      else Some (set_consumer (CAvail tail) s, [])
  | CAvail tail =>
      match storage_ s !! Z.land tail (mask_ s) with
      | None => None
      | Some v =>
          Some (set_consumer (CTaken v tail)
                  (set_storage (delete (Z.land tail (mask_ s)) (storage_ s)) s), [])
      end
  | CTaken v tail => Some (set_consumer CIdle (set_tail (u64 (tail + 1)) s), [Popped v])
  end.

(** A call begins, where its thread is not already inside one. *)
Definition begin_push (v : T) (s : t) : t :=
  match producer s with PIdle => set_producer (PStart v) s | _ => s end.
Definition begin_pop (s : t) : t :=
  match consumer s with CIdle => set_consumer CStart s | _ => s end.

Inductive action := BeginPush (v : T) | BeginPop | StepProducer | StepConsumer.

Definition act (a : action) (s : t) : option (t * list outcome) :=
  match a with
  | BeginPush v => Some (begin_push v s, [])
  | BeginPop => Some (begin_pop s, [])
  | StepProducer => producer_step s
  | StepConsumer => consumer_step s
  end.

Fixpoint exec (schedule : list action) (s : t) : option (t * list outcome) :=
  match schedule with
  | [] => Some (s, [])
  | a :: schedule =>
      '(s, o) ← act a s; '(s, o') ← exec schedule s; Some (s, o ++ o')
  end.

(** [size()] *)
Definition size (s : t) : Z := u64 (head_ s - tail_ s).

(** ** The bounded FIFO it implements *)

Definition fifo_step (cap : Z) (o : outcome) (q : list T) : option (list T) :=
  match o with
  | Pushed v => if vsize q <? cap then Some (q ++ [v]) else None
  | PushFull _ => if vsize q =? cap then Some q else None
  | Popped _ => match q with [] => None | _ :: q => Some q end
  | PopEmpty => match q with [] => Some [] | _ => None end
  end.

(** [o] is what the FIFO answers. *)
Definition fifo_ok (cap : Z) (o : outcome) (q q' : list T) : Prop :=
  fifo_step cap o q = Some q' ∧ ∀ v, o = Popped v → head q = Some v.

Inductive fifo_run (cap : Z) : list T → list outcome → list T → Prop :=
  | fifo_nil q : fifo_run cap q [] q
  | fifo_cons q o q' os q'' :
      fifo_ok cap o q q' → fifo_run cap q' os q'' → fifo_run cap q (o :: os) q''.
End queue.

Arguments t : clear implicits.
Arguments outcome : clear implicits.
Arguments action : clear implicits.
Arguments producer_pc : clear implicits.
Arguments consumer_pc : clear implicits.

(** ** Powers of two *)

Lemma next_power_of_two_from_spec fuel : ∀ k n, 0 ≤ k → (Z.to_nat k + fuel = 64)%nat → n ≤ 2 ^ 63 →
  k ≤ 63 → ∃ m, next_power_of_two_from fuel (2 ^ k) n = Some (2 ^ m) ∧ k ≤ m ≤ 63 ∧ n ≤ 2 ^ m ∧
    (m = k ∨ 2 ^ (m - 1) < n).
Proof.
  induction fuel as [|fuel IH]; intros k n Hk Hf Hn Hk'; simpl.
  - lia.
  - destruct (Z.ltb_spec (2 ^ k) n) as [Hlt|Hge]; cbn [negb].
    + assert (k < 63) as Hk3.
      { destruct (Z.eq_dec k 63) as [->|]; [lia|lia]. }
      rewrite Z.shiftl_mul_pow2, Z.pow_1_r by lia.
      assert (2 ^ (k + 1) = 2 ^ k * 2) as E by (rewrite Z.pow_add_r; lia).
      pose proof (Z.pow_le_mono_r 2 (k + 1) 63 ltac:(lia) ltac:(lia)) as Hle.
      pose proof (Z.pow_pos_nonneg 2 k ltac:(lia) Hk).
      rewrite u64_small by (unfold in_u64; lia). rewrite <-E.
      destruct (IH (k + 1) n) as (m & -> & Hm & Hnm & Hmin); [lia..|]. exists m. split; [done|].
      split; [lia|]. split; [done|]. right. destruct Hmin as [->|?]; [|done].
      by replace (k + 1 - 1) with k by lia.
    + exists k. split; [done|]. split; [lia|]. split; [done|]. by left.
Qed.

(** The capacity is the least power of two that is large enough. *)
Lemma next_power_of_two_spec n : n ≤ 2 ^ 63 →
  ∃ m, next_power_of_two n = Some (2 ^ m) ∧ 0 ≤ m ≤ 63 ∧ n ≤ 2 ^ m ∧ (m = 0 ∨ 2 ^ (m - 1) < n).
Proof. intros Hn. by apply (next_power_of_two_from_spec 64 0 n). Qed.

(** ** The ring *)

Section ring.
Context {T : Type} (m : Z) (m_range : 0 ≤ m ≤ 63).

Let cap : Z := 2 ^ m.

Lemma cap_pos : 0 < cap.
Proof. apply Z.pow_pos_nonneg; lia. Qed.

Lemma cap_divides : (cap | 2 ^ 64).
Proof.
  exists (2 ^ (64 - m)). unfold cap. rewrite <-Z.pow_add_r by lia. f_equal. lia.
Qed.

(** An index masked is the count it stands for, modulo the capacity. *)
Lemma slot_of n : Z.land (u64 n) (u64 (cap - 1)) = n mod cap.
Proof.
  pose proof cap_pos. pose proof (Z.pow_le_mono_r 2 m 63 ltac:(lia) ltac:(lia)) as Hm. fold cap in Hm.
  rewrite (u64_small (cap - 1)) by (unfold in_u64; lia).
  replace (cap - 1) with (Z.ones m) by (rewrite Z.ones_equiv; unfold cap; lia).
  rewrite Z.land_ones by lia. fold cap. unfold u64. symmetry.
  apply Znumtheory.Zmod_div_mod; [apply cap_pos|lia|apply cap_divides].
Qed.

Lemma slots_apart i j : 0 ≤ j - i < cap → i mod cap = j mod cap → i = j.
Proof.
  intros Hij E. pose proof cap_pos as Hc. clearbody cap.
  assert (cap ≠ 0) as Hz by lia. pose proof (Z.div_mod i cap Hz) as Hi.
  pose proof (Z.div_mod j cap Hz) as Hj. rewrite E in Hi.
  assert (j - i = cap * (j / cap - i / cap)) as Hd by lia.
  assert (j / cap - i / cap = 0) as Hq by nia. rewrite Hq in Hd. lia.
Qed.

(** The elements [vals] live in the slots from count [a] on, and nothing else does. *)
Definition stored (a : Z) (vals : list T) (st : gmap Z T) : Prop :=
  vsize vals ≤ cap ∧
  ∀ s v, st !! s = Some v ↔ ∃ i : nat, vals !! i = Some v ∧ s = (a + Z.of_nat i) mod cap.

Lemma stored_push a vals st v : stored a vals st → vsize vals < cap →
  st !! ((a + vsize vals) mod cap) = None ∧
  stored a (vals ++ [v]) (<[(a + vsize vals) mod cap := v]> st).
Proof.
  intros [Hle Hst] Hlt. assert (st !! ((a + vsize vals) mod cap) = None) as Hnone.
  { destruct (st !! _) as [w|] eqn:E; [|done]. apply Hst in E as (i & Hi & E).
    apply lookup_lt_Some in Hi. unfold vsize in *. exfalso.
    symmetry in E. apply slots_apart in E; lia. }
  split; [done|]. split; [rewrite vsize_snoc; lia|]. intros s w. rewrite lookup_insert_Some.
  rewrite Hst. setoid_rewrite lookup_snoc_Some. unfold vsize. split.
  - intros [[<- <-]|[Hne (i & Hi & ->)]].
    + exists (length vals). split; [by right|done].
    + exists i. split; [left; split; [by eapply lookup_lt_Some|done]|done].
  - intros (i & [[Hi Hl]|[-> ->]] & ->); [|by left].
    right. split; [|eauto]. intros E. symmetry in E. apply slots_apart in E; unfold vsize in *; lia.
Qed.

Lemma stored_pop a v vals st : stored a (v :: vals) st →
  st !! (a mod cap) = Some v ∧ stored (a + 1) vals (delete (a mod cap) st).
Proof.
  intros [Hle Hst]. split.
  { apply Hst. exists 0%nat. split; [done|]. f_equal. lia. }
  split; [unfold vsize in *; simpl in *; lia|]. intros s w. rewrite lookup_delete_Some, Hst. split.
  - intros [Hne ([|i] & Hi & ->)].
    + destruct Hne. f_equal. lia.
    + exists i. split; [done|]. f_equal. lia.
  - intros (i & Hi & ->). split.
    + intros E. apply slots_apart in E; [lia|]. apply lookup_lt_Some in Hi.
      unfold vsize in *. simpl in *. lia.
    + exists (S i). split; [done|]. f_equal. lia.
Qed.
(** ** The invariant

    [np] elements were pushed and [nc] popped; [q] is what lies between. *)

Definition extra (p : producer_pc T) : list T :=
  match p with PBuilt v _ _ | PMarked v _ => [v] | _ => [] end.

Definition taken (c : consumer_pc T) : Z := match c with CTaken _ _ => 1 | _ => 0 end.

Definition producer_ok (p : producer_pc T) (hwm np nc : Z) : Prop :=
  match p with
  | PIdle | PStart _ => np - nc ≤ hwm
  | PGotHead _ h => h = u64 np ∧ np - nc ≤ hwm
  | PRoom _ h t | PBuilt _ h t =>
      h = u64 np ∧ np - nc ≤ hwm ∧ ∃ nt, t = u64 nt ∧ nt ≤ nc ∧ np - nt < cap
  | PMarked _ h => h = u64 np ∧ np - nc < cap ∧ np + 1 - nc ≤ hwm
  end.

Definition consumer_ok (c : consumer_pc T) (nc : Z) (q : list T) : Prop :=
  match c with
  | CIdle | CStart => True
  | CGotTail t => t = u64 nc
  | CAvail t => t = u64 nc ∧ q ≠ []
  | CTaken v t => t = u64 nc ∧ head q = Some v
  end.

Record inv (s : t T) (q : list T) (np nc : Z) : Prop := {
  iv_capacity : capacity_ s = cap;
  iv_mask : mask_ s = u64 (cap - 1);
  iv_head : head_ s = u64 np;
  iv_tail : tail_ s = u64 nc;
  iv_count : 0 ≤ nc ∧ np = nc + vsize q ∧ vsize q ≤ cap;
  iv_hwm : 0 ≤ high_water_mark_ s ≤ cap;
  iv_producer : producer_ok (producer s) (high_water_mark_ s) np nc;
  iv_consumer : consumer_ok (consumer s) nc q;
  iv_stored : stored (nc + taken (consumer s))
    (drop (Z.to_nat (taken (consumer s))) q ++ extra (producer s)) (storage_ s);
}.

(** The word difference of two counts that are close is their difference. *)
Lemma u64_diff a b : 0 ≤ a - b < 2 ^ 64 → u64 (u64 a - u64 b) = a - b.
Proof. intros H. rewrite <-(u64_small (a - b)) by done. word. Qed.

Lemma cap_le : cap ≤ 2 ^ 63.
Proof. apply Z.pow_le_mono_r; lia. Qed.

(** A step keeps the invariant and answers what the FIFO answers. *)
Definition good (s : t T) (q : list T) (r : option (t T * list (outcome T))) : Prop :=
  ∃ s' os q' np nc, r = Some (s', os) ∧ fifo_run cap q os q' ∧ inv s' q' np nc.

Lemma good_silent s q np nc s' : inv s' q np nc → good s q (Some (s', [])).
Proof. intros. exists s', [], q, np, nc. split; [done|]. split; [constructor|done]. Qed.

Lemma good_answer s q o q' np nc s' : fifo_ok cap o q q' → inv s' q' np nc →
  good s q (Some (s', [o])).
Proof.
  intros. exists s', [o], q', np, nc. split; [done|]. split; [|done].
  econstructor; [done|constructor].
Qed.

(** The invariant after one thread moved on without touching the shared state. *)
Lemma inv_set_producer p s q np nc : inv s q np nc → extra p = extra (producer s) →
  producer_ok p (high_water_mark_ s) np nc → inv (set_producer p s) q np nc.
Proof. intros [] He Hp. split; try done. simpl. by rewrite He. Qed.

Lemma inv_set_consumer c s q np nc : inv s q np nc → taken c = taken (consumer s) →
  consumer_ok c nc q → inv (set_consumer c s) q np nc.
Proof. intros [] He Hc. split; try done. simpl. by rewrite He. Qed.

Lemma producer_good s q np nc : inv s q np nc → good s q (producer_step s).
Proof.
  intros HI. pose proof cap_pos as Hc0. pose proof cap_le as Hc1. pose proof (vsize_nonneg q) as Hq0.
  pose proof (iv_producer _ _ _ _ HI) as Hp. pose proof (iv_count _ _ _ _ HI) as (Hnc & Hnp & Hq).
  unfold producer_step. destruct (producer s) as [|v|v h|v h t|v h t|v h] eqn:E; simpl in Hp.
  - by eapply good_silent.
  - eapply good_silent, inv_set_producer; [done|by rewrite E|]. split; [apply HI|done].
  - destruct Hp as [-> Hw]. rewrite (iv_tail _ _ _ _ HI), (iv_capacity _ _ _ _ HI), u64_diff by lia.
    destruct (Z.leb_spec cap (np - nc)) as [Hfull|Hroom].
    + eapply good_answer; [|apply inv_set_producer; [exact HI|by rewrite E|done]].
      split; [|done]. simpl. by replace (vsize q =? cap) with true by lia.
    + eapply good_silent, inv_set_producer; [done|by rewrite E|]. split; [done|].
      split; [done|]. exists nc. split; [done|lia].
  - destruct Hp as (-> & Hw & nt & -> & Hnt & Hroom).
    rewrite (iv_mask _ _ _ _ HI), slot_of. pose proof (iv_stored _ _ _ _ HI) as Hst.
    rewrite E in Hst. simpl in Hst. rewrite app_nil_r in Hst.
    set (vals := drop _ q) in *. set (a := nc + taken (consumer s)) in *.
    assert (a + vsize vals = np ∧ vsize vals < cap) as [Ea Hv].
    { unfold a, vals, vsize in *. rewrite length_drop. pose proof (iv_consumer _ _ _ _ HI) as Hcs.
      destruct (consumer s); simpl in *; try lia. destruct q; [by destruct Hcs|simpl in *; lia]. }
    destruct (stored_push a vals _ v Hst Hv) as [Hnone Hst']. rewrite Ea in *. rewrite Hnone.
    eapply good_silent. destruct HI. split; try done. simpl. split; [done|]. split; [done|]. by exists nt.
  - destruct Hp as (-> & Hw & nt & -> & Hnt & Hroom).
    assert (u64 (u64 np + 1 - u64 nt) = np + 1 - nt) as ->.
    { rewrite <-(u64_small (np + 1 - nt)) by (unfold in_u64; lia). word. }
    eapply good_silent. destruct HI.
    destruct (Z.ltb_spec (high_water_mark_ s) (np + 1 - nt)); split; try done; simpl; try lia;
      try (rewrite E in *; done); (split; [done|lia]).
  - destruct Hp as (-> & Hroom & Hw). rewrite (u64_add_idemp_l np 1).
    eapply (good_answer _ _ _ (q ++ [v]) (np + 1) nc).
    { split; [|done]. simpl. by replace (vsize q <? cap) with true by lia. }
    destruct HI. rewrite E in *. split; try done; simpl in *.
    + rewrite vsize_snoc. lia.
    + unfold consumer_ok in *. destruct (consumer s); try done.
      * split; [by destruct iv_consumer0|]. by destruct q.
      * destruct iv_consumer0 as [? Hh]. split; [done|]. by destruct q.
    + rewrite app_nil_r. rewrite drop_app_le; [done|].
      destruct (consumer s); simpl in *; try lia. destruct q; [by destruct iv_consumer0|simpl; lia].
Qed.

(** What the producer relies on only improves when an element is popped. *)
Lemma producer_ok_popped p hwm np nc : producer_ok p hwm np nc → producer_ok p hwm np (nc + 1).
Proof.
  destruct p; simpl; try lia; intros (? & ? & nt & ? & ? & ?);
    (split; [done|]; split; [lia|]; exists nt; split; [done|lia]).
Qed.

Lemma consumer_good s q np nc : inv s q np nc → good s q (consumer_step s).
Proof.
  intros HI. pose proof cap_pos as Hc0. pose proof cap_le as Hc1. pose proof (vsize_nonneg q) as Hq0.
  pose proof (iv_consumer _ _ _ _ HI) as Hc. pose proof (iv_count _ _ _ _ HI) as (Hnc & Hnp & Hq).
  unfold consumer_step. destruct (consumer s) as [| |t|t|v t] eqn:E; simpl in Hc.
  - by eapply good_silent.
  - eapply good_silent, inv_set_consumer; [done|by rewrite E|]. apply HI.
  - subst t. rewrite (iv_head _ _ _ _ HI).
    destruct (Z.eqb_spec (u64 nc) (u64 np)) as [Eq|Hne].
    + assert (np - nc = 0) as Hz.
      { rewrite <-(u64_diff np nc) by lia. rewrite Eq, Z.sub_diag. done. }
      destruct q as [|x q]; [|unfold vsize in *; simpl in *; lia].
      eapply good_answer; [by split|]. apply inv_set_consumer; [exact HI|by rewrite E|done].
    + eapply good_silent, inv_set_consumer; [done|by rewrite E|]. split; [done|].
      intros ->. apply Hne. unfold vsize in Hnp. simpl in Hnp. f_equal. lia.
  - destruct Hc as [-> Hne]. destruct q as [|v q]; [done|].
    rewrite (iv_mask _ _ _ _ HI), slot_of. pose proof (iv_stored _ _ _ _ HI) as Hst.
    rewrite E in Hst. simpl in Hst. rewrite Z.add_0_r in Hst.
    destruct (stored_pop _ _ _ _ Hst) as [-> Hst']. eapply good_silent.
    destruct HI. by split.
  - destruct Hc as [-> Hh]. destruct q as [|w q]; [done|]. injection Hh as ->.
    rewrite (u64_add_idemp_l nc 1).
    eapply (good_answer _ _ _ q np (nc + 1)).
    { split; [done|]. by intros ? [= <-]. }
    pose proof (iv_stored _ _ _ _ HI) as Hst. destruct HI. rewrite E in *. simpl in *.
    assert (vsize (v :: q) = vsize q + 1) as Ev by (unfold vsize; simpl; lia).
    split; try done; simpl in *.
    + lia.
    + by apply producer_ok_popped.
    + by rewrite Z.add_0_r.
Qed.

Lemma act_good a s q np nc : inv s q np nc → good s q (act a s).
Proof.
  intros HI. destruct a as [v| | |]; simpl.
  - eapply good_silent. unfold begin_push. destruct (producer s) eqn:E; [|exact HI..].
    apply inv_set_producer; [exact HI|by rewrite E|]. pose proof (iv_producer _ _ _ _ HI) as Hp.
    by rewrite E in Hp.
  - eapply good_silent. unfold begin_pop. destruct (consumer s) eqn:E; [|exact HI..].
    apply inv_set_consumer; [exact HI|by rewrite E|done].
  - by eapply producer_good.
  - by eapply consumer_good.
Qed.

Lemma fifo_run_app (q : list T) os q' os' q'' : fifo_run cap q os q' → fifo_run cap q' os' q'' →
  fifo_run cap q (os ++ os') q''.
Proof. induction 1; [done|]. intros. simpl. econstructor; [done|auto]. Qed.

Lemma exec_good schedule : ∀ s q np nc, inv s q np nc → good s q (exec schedule s).
Proof.
  induction schedule as [|a schedule IH]; intros s q np nc HI; [by eapply good_silent|].
  simpl. destruct (act_good a s q np nc HI) as (s1 & os1 & q1 & np1 & nc1 & -> & H1 & HI1). simpl.
  destruct (IH s1 q1 np1 nc1 HI1) as (s2 & os2 & q2 & np2 & nc2 & -> & H2 & HI2). simpl.
  exists s2, (os1 ++ os2), q2, np2, nc2. split; [done|]. split; [by eapply fifo_run_app|done].
Qed.

Lemma inv_make : inv (mk cap (u64 (cap - 1)) ∅ 0 0 0 PIdle CIdle) [] 0 0.
Proof.
  pose proof cap_pos. split; simpl; try done; try lia.
  - unfold vsize. simpl. lia.
  - split; [unfold vsize; simpl; lia|]. intros s v. rewrite lookup_empty.
    split; [done|]. by intros (i & ? & _).
Qed.
End ring.

(** What a run of the queue looks like from outside. *)
Definition pushed {T} (os : list (outcome T)) : list T :=
  omap (λ o, match o with Pushed v => Some v | _ => None end) os.
Definition popped {T} (os : list (outcome T)) : list T :=
  omap (λ o, match o with Popped v => Some v | _ => None end) os.

Lemma fifo_run_contents {T} cap (q : list T) os q' : fifo_run cap q os q' →
  q ++ pushed os = popped os ++ q' ∧ (vsize q ≤ cap → vsize q' ≤ cap).
Proof.
  induction 1 as [q|q o q1 os q' [Hs Hpop] _ [IH1 IH2]]; [by rewrite app_nil_r|].
  destruct o as [v|v|v|]; cbn [fifo_step] in Hs; unfold pushed, popped in *; csimpl.
  - case_match eqn:E; [|done]. injection Hs as <-. rewrite <-app_assoc in IH1. split; [done|].
    intros _. apply IH2. rewrite vsize_snoc. lia.
  - case_match; [|done]. injection Hs as <-. done.
  - destruct q as [|w q]; [done|]. injection Hs as <-. specialize (Hpop v eq_refl). injection Hpop as ->.
    simpl. split; [by f_equal|]. intros H. apply IH2. unfold vsize in *. simpl in *. lia.
  - destruct q; [|done]. injection Hs as <-. done.
Qed.

(** ** Claim *)

Lemma producer_ok_hwm {T} m (p : producer_pc T) hwm np nc :
  producer_ok m p hwm np nc → np - nc ≤ hwm.
Proof. destruct p; simpl; intuition lia. Qed.

Lemma make_spec {T} n : 0 ≤ n ≤ 2 ^ 63 → ∃ m, 0 ≤ m ≤ 63 ∧ n ≤ 2 ^ m ∧ (m = 0 ∨ 2 ^ (m - 1) < n) ∧
  @make T n = Some (mk (2 ^ m) (u64 (2 ^ m - 1)) ∅ 0 0 0 PIdle CIdle).
Proof.
  intros Hn. destruct (next_power_of_two_spec n) as (m & E & Hm & Hle & Hmin); [lia|].
  exists m. unfold make. by rewrite E.
Qed.

(** C13: whatever the interleaving of the producer's and the consumer's atomic steps,
    the queue never constructs over a live element nor reads an empty slot, and it
    answers as a FIFO of the rounded-up capacity does: a push is refused only when
    the queue is full, a pop finds nothing only when it is empty, what comes out is
    what went in, in order, and once. The occupancy never exceeds the high-water
    mark, nor the mark the capacity; the capacity is the least power of two that is
    large enough. *)
Theorem queue_is_fifo {T} n (schedule : list (action T)) : 0 ≤ n ≤ 2 ^ 63 →
  ∃ s s' os q, make n = Some s ∧ exec schedule s = Some (s', os) ∧
    fifo_run (capacity_ s) [] os q ∧ pushed os = popped os ++ q ∧
    vsize q ≤ high_water_mark_ s' ≤ capacity_ s ∧ capacity_ s' = capacity_ s ∧ n ≤ capacity_ s ∧
    (capacity_ s = 1 ∨ capacity_ s < 2 * n) ∧
    (producer s' = PIdle → consumer s' = CIdle → size s' = vsize q).
Proof.
  intros Hn. destruct (@make_spec T n Hn) as (m & Hm & Hle & Hmin & Hmake).
  pose proof (cap_le m Hm) as Hc. pose proof (cap_pos m Hm) as Hc0.
  destruct (exec_good m Hm schedule _ _ _ _ (inv_make m Hm)) as (s' & os & q & np & nc & He & Hf & HI).
  eexists _, s', os, q. split; [done|]. split; [done|]. simpl. split; [done|].
  destruct (fifo_run_contents _ _ _ _ Hf) as [Hpq _]. split; [done|].
  pose proof (iv_count _ _ _ _ _ HI) as (Hnc & Hnp & Hq). pose proof (vsize_nonneg q).
  pose proof (producer_ok_hwm _ _ _ _ _ (iv_producer _ _ _ _ _ HI)).
  pose proof (iv_hwm _ _ _ _ _ HI). split; [lia|]. split; [by apply HI|]. split; [done|]. split.
  - destruct Hmin as [->|Hmin]; [by left|]. right.
    destruct (Z.eq_dec m 0) as [->|]; [simpl in *; lia|].
    replace m with ((m - 1) + 1) at 1 by lia. rewrite Z.pow_add_r by lia. lia.
  - intros _ _. unfold size. rewrite (iv_head _ _ _ _ _ HI), (iv_tail _ _ _ _ _ HI), u64_diff; lia.
Qed.

(** Capacity 3 is rounded to 4; the consumer reads between the producer's steps. *)
Definition queue_demo : list (action Z) :=
  [BeginPush 7; StepProducer; StepProducer; BeginPop; StepConsumer; StepProducer; StepConsumer;
   StepProducer; StepProducer; BeginPop; StepConsumer; StepConsumer; StepConsumer; StepConsumer].

Lemma queue_is_fifo_witness :
  0 ≤ 3 ≤ 2 ^ 63 ∧
  (exec queue_demo <$> make 3) = Some (Some (mk 4 3 ∅ 1 1 1 PIdle CIdle, [PopEmpty; Pushed 7; Popped 7])) ∧
  ∃ s s' os q, make 3 = Some s ∧ exec queue_demo s = Some (s', os) ∧
    fifo_run (capacity_ s) [] os q ∧ pushed os = popped os ++ q ∧
    vsize q ≤ high_water_mark_ s' ≤ capacity_ s ∧ capacity_ s' = capacity_ s ∧ 3 ≤ capacity_ s ∧
    (capacity_ s = 1 ∨ capacity_ s < 2 * 3) ∧
    (producer s' = PIdle → consumer s' = CIdle → size s' = vsize q).
Proof. split; [lia|]. split; [by vm_compute|]. apply (queue_is_fifo 3 queue_demo). lia. Defined.

End SpscQueue.
