(* ===== verification/Pipeline.v ===== *)
(** * The sequencer and the matching thread ([exchange/sequencing])

    [MatchingPipeline] is the SPSC queue with a sequencer on the producer's side and
    a loop on the consumer's. Its steps are the queue's atomic steps, so a schedule
    interleaves submissions, the matching thread and [stop()] at will. The processor
    the matching thread runs (a [std::function]) is a parameter. *)

From S2P Require Import Prelude Types Effects SpscQueue.

Module MatchingPipeline.
Import SpscQueue.

(** ** The sequencer *)

(** [std::visit([assigned](auto& cmd) { cmd.command_sequence = assigned; }, command)] *)
Definition with_sequence (n : CommandSequence) (command : ExchangeCommand) : ExchangeCommand :=
  match command with
  | CmdNew c => CmdNew (mkNewOrder n (no_account_id c) (no_client_order_id c) (no_instrument_id c)
      (no_side c) (no_price c) (no_quantity c) (no_order_type c) (no_time_in_force c))
  | CmdCancel c => CmdCancel (mkCancelOrder n (co_account_id c) (co_client_order_id c)
      (co_instrument_id c))
  | CmdReplace c => CmdReplace (mkReplaceOrder n (ro_account_id c) (ro_original_client_order_id c)
      (ro_new_client_order_id c) (ro_instrument_id c) (ro_new_price c) (ro_new_quantity c))
  end.

Definition command_sequence (command : ExchangeCommand) : CommandSequence :=
  match command with
  | CmdNew c => no_command_sequence c
  | CmdCancel c => co_command_sequence c
  | CmdReplace c => ro_command_sequence c
  end.

(** [CommandSequencer::sequence]: the command, and the counter after it. *)
Definition sequence (command : ExchangeCommand) (next_sequence_ : CommandSequence) :
    ExchangeCommand * CommandSequence :=
  (with_sequence next_sequence_ command, u64 (next_sequence_ + 1)).

Section pipeline.
Context {St : Type} (processor : ExchangeCommand → eff St ExchangeEvent unit).

(** Where the matching thread is in its loop. *)
Inductive matching_pc := MTop | MPopping | MStopCheck | MExited.

Record t := mk {
  queue_ : SpscQueue.t ExchangeCommand;
  next_sequence_ : CommandSequence;
  engine_ : St;
  commands_processed_ : Z;
  commands_rejected_ : Z;
  stop_requested : bool;
  matching : matching_pc;
}.

Definition make (queue_capacity : Z) (engine : St) : option t :=
  q ← SpscQueue.make queue_capacity; Some (mk q 1 engine 0 0 false MTop).

Definition with_queue (q : SpscQueue.t ExchangeCommand) (s : t) : t :=
  mk q (next_sequence_ s) (engine_ s) (commands_processed_ s) (commands_rejected_ s)
    (stop_requested s) (matching s).
Definition with_matching (p : matching_pc) (s : t) : t :=
  mk (queue_ s) (next_sequence_ s) (engine_ s) (commands_processed_ s) (commands_rejected_ s)
    (stop_requested s) p.
Definition count_rejected (s : t) : t :=
  mk (queue_ s) (next_sequence_ s) (engine_ s) (commands_processed_ s)
    (u64 (commands_rejected_ s + 1)) (stop_requested s) (matching s).

(** What can be seen from outside: [submit] answering true, answering false before
    and after giving the command a number, the processor's output, and the matching
    thread leaving its loop. *)
Inductive observation :=
  | Accepted (c : ExchangeCommand)
  | Refused (c : ExchangeCommand)
  | Dropped (c : ExchangeCommand)
  | Processed (c : ExchangeCommand) (evs : list ExchangeEvent)
  | Exited.

Inductive action := Submit (c : ExchangeCommand) | ProducerStep | MatchingStep | RequestStop.

(** [submit]: the check, and, where there is room, the number and the call of
    [try_push], whose own steps follow. The head it reads is the producer's own. *)
Definition submit (command : ExchangeCommand) (s : t) : t * list observation :=
  match producer (queue_ s) with
  | PIdle =>
      if capacity_ (queue_ s) <=? size (queue_ s) then (count_rejected s, [Refused command])
      else
        let '(sequenced, next) := sequence command (next_sequence_ s) in
        (mk (begin_push sequenced (queue_ s)) next (engine_ s) (commands_processed_ s)
           (commands_rejected_ s) (stop_requested s) (matching s), [])
  | _ => (s, [])
  end.

(** What [submit] makes of [try_push]'s answer. *)
Definition pushed_answer (os : list (outcome ExchangeCommand)) (s : t) : t * list observation :=
  match os with
  | [Pushed c] => (s, [Accepted c])
  | [PushFull c] => (count_rejected s, [Dropped c])
  | _ => (s, [])
  end.

(** The matching thread, from the pop's answer to its next atomic access. *)
Definition popped_answer (os : list (outcome ExchangeCommand)) (s : t) :
    option (t * list observation) :=
  match os with
  | [Popped c] =>
      '(_, engine, evs) ← processor c (engine_ s);
      Some (mk (queue_ s) (next_sequence_ s) engine (u64 (commands_processed_ s + 1))
              (commands_rejected_ s) (stop_requested s) MTop, [Processed c evs])
  | [PopEmpty] => Some (with_matching MStopCheck s, [])
  | _ => Some (s, [])
  end.

Definition matching_step (s : t) : option (t * list observation) :=
  match matching s with
  | MTop => Some (with_matching MPopping (with_queue (begin_pop (queue_ s)) s), [])
  | MPopping =>
      '(q, os) ← consumer_step (queue_ s); popped_answer os (with_queue q s)
  | MStopCheck =>
      if stop_requested s then Some (with_matching MExited s, [Exited])
      else Some (with_matching MTop s, [])
  | MExited => Some (s, [])
  end.

Definition request_stop (s : t) : t :=
  mk (queue_ s) (next_sequence_ s) (engine_ s) (commands_processed_ s) (commands_rejected_ s)
    true (matching s).

Definition act (a : action) (s : t) : option (t * list observation) :=
  match a with
  | Submit c => Some (submit c s)
  | ProducerStep => '(q, os) ← producer_step (queue_ s); Some (pushed_answer os (with_queue q s))
  | MatchingStep => matching_step s
  | RequestStop => Some (request_stop s, [])
  end.

Fixpoint exec (schedule : list action) (s : t) : option (t * list observation) :=
  match schedule with
  | [] => Some (s, [])
  | a :: schedule => '(s, o) ← act a s; '(s, o') ← exec schedule s; Some (s, o ++ o')
  end.

(** The processor over a sequence of commands. *)
Fixpoint process_all (cs : list ExchangeCommand) : eff St ExchangeEvent unit :=
  match cs with
  | [] => eret tt
  | c :: cs => ebind (processor c) (λ _, process_all cs)
  end.

End pipeline.

(** ** What an observer sees *)

Definition accepted (os : list observation) : list ExchangeCommand :=
  omap (λ o, match o with Accepted c => Some c | _ => None end) os.
Definition processed (os : list observation) : list ExchangeCommand :=
  omap (λ o, match o with Processed c _ => Some c | _ => None end) os.
Definition events (os : list observation) : list ExchangeEvent :=
  concat (omap (λ o, match o with Processed _ evs => Some evs | _ => None end) os).
Definition dropped (os : list observation) : list ExchangeCommand :=
  omap (λ o, match o with Dropped c => Some c | _ => None end) os.
Definition submits (schedule : list action) : list ExchangeCommand :=
  omap (λ a, match a with Submit c => Some c | _ => None end) schedule.

(** ** The shapes of the queue's steps *)

(** The value a push in progress carries. *)
Definition in_flight (p : producer_pc ExchangeCommand) : list ExchangeCommand :=
  match p with
  | PIdle => []
  | PStart v | PGotHead v _ | PRoom v _ _ | PBuilt v _ _ | PMarked v _ => [v]
  end.

(** A push that has not yet looked for room. *)
Definition undecided (p : producer_pc ExchangeCommand) : bool :=
  match p with PStart _ | PGotHead _ _ => true | _ => false end.

(** The matching thread is inside [try_pop] exactly where its loop says so. *)
Definition phase_ok (p : matching_pc) (c : consumer_pc ExchangeCommand) : Prop :=
  match p with MPopping => c ≠ CIdle | _ => c = CIdle end.

Lemma producer_shape (q q' : SpscQueue.t ExchangeCommand) os : producer_step q = Some (q', os) →
  consumer q' = consumer q ∧ (
  (os = [] ∧ in_flight (producer q') = in_flight (producer q) ∧
     (undecided (producer q') = true → undecided (producer q) = true)) ∨
  (∃ v, os = [Pushed v] ∧ in_flight (producer q) = [v] ∧ producer q' = PIdle) ∨
  (∃ v, os = [PushFull v] ∧ undecided (producer q) = true)).
Proof.
  unfold producer_step. destruct (producer q) eqn:E; intros H; try case_match; simplify_eq/=;
    (split; [done || by case_match|]); rewrite ?E; eauto 10.
Qed.

Lemma consumer_shape (q q' : SpscQueue.t ExchangeCommand) os : consumer_step q = Some (q', os) →
  producer q' = producer q ∧
  (os = [] ∧ (consumer q ≠ CIdle → consumer q' ≠ CIdle) ∨
   consumer q' = CIdle ∧ (os = [PopEmpty] ∨ ∃ v, os = [Popped v])).
Proof. unfold consumer_step. intros H. repeat case_match; simplify_eq/=; eauto 10. Qed.

(** How many of its steps the matching thread is from the next pop's answer, where
    the queue is not empty. *)
Definition consumer_distance (c : consumer_pc ExchangeCommand) : Z :=
  match c with CIdle => 0 | CStart => 4 | CGotTail _ => 3 | CAvail _ => 2 | CTaken _ _ => 1 end.

Definition distance (p : matching_pc) (c : consumer_pc ExchangeCommand) : Z :=
  match p with MTop => 5 | MPopping => consumer_distance c | MStopCheck => 6 | MExited => 0 end.

Lemma consumer_closer (q q' : SpscQueue.t ExchangeCommand) : consumer_step q = Some (q', []) →
  consumer q ≠ CIdle → consumer_distance (consumer q') < consumer_distance (consumer q).
Proof. unfold consumer_step. intros H Hc. repeat case_match; simplify_eq/=; lia. Qed.

Lemma consumer_busy c : c ≠ CIdle → 0 < consumer_distance c.
Proof. by destruct c. Qed.

Lemma begin_pop_producer (q : SpscQueue.t ExchangeCommand) : producer (begin_pop q) = producer q.
Proof. unfold begin_pop. by destruct (consumer q). Qed.

Lemma fifo_run_silent {T} cap (q q' : list T) : fifo_run cap q [] q' → q' = q.
Proof. by inversion 1. Qed.

Lemma fifo_run_one {T} cap (q q' : list T) o : fifo_run cap q [o] q' → fifo_ok cap o q q'.
Proof. inversion 1; subst. by match goal with H : fifo_run _ _ [] _ |- _ => apply fifo_run_silent in H as -> end. Qed.

Lemma fifo_popped {T} cap (v : T) q q' : fifo_ok cap (Popped v) q q' → q = v :: q'.
Proof. intros [Hs Hh]. specialize (Hh v eq_refl). destruct q; simplify_eq/=. done. Qed.

Lemma fifo_pushed {T} cap (v : T) q q' : fifo_ok cap (Pushed v) q q' → q' = q ++ [v].
Proof. intros [Hs _]. simpl in Hs. case_match; by simplify_eq. Qed.

Lemma fifo_empty {T} cap (q q' : list T) : fifo_ok cap PopEmpty q q' → q = [] ∧ q' = [].
Proof. intros [Hs _]. destruct q; by simplify_eq/=. Qed.

Lemma process_all_snoc {St} (processor : ExchangeCommand → eff St ExchangeEvent unit) cs c :
  ∀ st0 s evs r, process_all processor cs st0 = Some (tt, s, evs) →
  process_all processor (cs ++ [c]) st0 = Some r →
  ∃ s' evs', processor c s = Some (tt, s', evs') ∧ r = (tt, s', evs ++ evs').
Proof.
  induction cs as [|d cs IH]; intros x s evs r; cbn [process_all app].
  - intros [= <- <-]. unfold ebind, eret. destruct (processor c x) as [[[[] s'] evs']|]; [|done].
    intros [= <-]. exists s', evs'. by rewrite app_nil_r.
  - unfold ebind. destruct (processor d x) as [[[? x'] o]|]; [|done].
    destruct (process_all processor cs x') as [[[[] s1] o1]|] eqn:E; [|done]. intros [= <- <-].
    destruct (process_all processor (cs ++ [c]) x') as [[[[] s2] o2]|] eqn:E'; [|done]. intros [= <-].
    destruct (IH x' _ o1 _ E E') as (s' & evs' & ? & [= -> ->]). exists s', evs'.
    split; [done|]. by rewrite app_assoc.
Qed.

(** ** The invariant *)

Section proofs.
Context {St : Type} (processor : ExchangeCommand → eff St ExchangeEvent unit).
Context (m : Z) (m_range : 0 ≤ m ≤ 63) (st0 : St).
Context (legal : ExchangeCommand → Prop) (legal_numbered : ∀ n c, legal c → legal (with_sequence n c)).

(** The commands that have a number: those in the queue or past it, and the one a
    push carries. *)
Definition admitted (s : t (St := St)) (os : list observation) : list ExchangeCommand :=
  accepted os ++ in_flight (producer (queue_ s)).

Record inv (s : t) (os : list observation) (subs q : list ExchangeCommand) : Prop := {
  iv_queue : ∃ np nc, SpscQueue.inv m (queue_ s) q np nc;
  iv_room : undecided (producer (queue_ s)) = true → vsize q < 2 ^ m;
  iv_accepted : accepted os = processed os ++ q;
  iv_dropped : dropped os = [];
  iv_numbers : command_sequence <$> admitted s os = numbers 1 (length (admitted s os));
  iv_next : next_sequence_ s = bumped 1 (length (admitted s os));
  iv_run : process_all processor (processed os) st0 = Some (tt, engine_ s, events os);
  iv_legal : Forall legal (admitted s os);
  iv_submitted : (with_sequence 0 <$> admitted s os) `sublist_of` (with_sequence 0 <$> subs);
  iv_phase : phase_ok (matching s) (consumer (queue_ s));
  iv_processed : commands_processed_ s = u64 (vsize (processed os));
}.

Lemma inv_silent s s' os subs q : inv s os subs q →
  (∃ np nc, SpscQueue.inv m (queue_ s') q np nc) →
  in_flight (producer (queue_ s')) = in_flight (producer (queue_ s)) →
  (undecided (producer (queue_ s')) = true → undecided (producer (queue_ s)) = true) →
  next_sequence_ s' = next_sequence_ s → engine_ s' = engine_ s →
  commands_processed_ s' = commands_processed_ s →
  phase_ok (matching s') (consumer (queue_ s')) → inv s' (os ++ []) subs q.
Proof.
  intros [] Hq Hf Hu En Ee Ec Hph. rewrite app_nil_r.
  split; unfold admitted in *; rewrite ?Hf, ?En, ?Ee, ?Ec; auto.
Qed.

Lemma inv_subs s os subs q c : inv s os subs q → inv s os (subs ++ [c]) q.
Proof.
  intros []. split; try done. rewrite fmap_app. by apply sublist_inserts_r.
Qed.

Lemma pipeline_submit_inv s os subs q c : inv s os subs q → legal c →
  inv (submit c s).1 (os ++ (submit c s).2) (subs ++ [c]) q.
Proof.
  intros HI Hc. unfold submit.
  destruct (producer (queue_ s)) eqn:Hp; cbn [fst snd];
    [|rewrite app_nil_r; by apply inv_subs..].
  destruct (iv_queue _ _ _ _ HI) as (np & nc & HQ).
  pose proof (SpscQueue.iv_count _ _ _ _ _ HQ) as (Hnc & Hnp & Hqs).
  pose proof (cap_le m m_range) as Hcap. pose proof (vsize_nonneg q) as Hq0.
  assert (size (queue_ s) = vsize q) as Hsz.
  { unfold size. rewrite (SpscQueue.iv_head _ _ _ _ _ HQ), (SpscQueue.iv_tail _ _ _ _ _ HQ).
    rewrite u64_diff; lia. }
  rewrite Hsz, (SpscQueue.iv_capacity _ _ _ _ _ HQ).
  destruct (Z.leb_spec (2 ^ m) (vsize q)) as [Hfull|Hroom]; cbn [fst snd sequence].
  - apply inv_subs. destruct HI. split; unfold admitted in *; simpl;
      unfold accepted, processed, dropped, events in *; rewrite ?omap_app; cbn [omap list_omap];
      rewrite ?app_nil_r; auto.
  - rewrite app_nil_r. unfold begin_push. rewrite Hp.
    destruct HI. unfold admitted in *. rewrite Hp in *. cbn [in_flight] in *. rewrite app_nil_r in *.
    split; unfold admitted; cbn; try done.
    + exists np, nc. apply inv_set_producer; [done|by rewrite Hp|].
      pose proof (SpscQueue.iv_producer _ _ _ _ _ HQ) as Hok. by rewrite Hp in Hok.
    + rewrite fmap_app, length_app, numbers_app, iv_numbers0. f_equal. simpl.
      rewrite iv_next0. f_equal. by destruct c.
    + rewrite length_app, bumped_add, iv_next0. done.
    + apply Forall_app. split; [done|]. constructor; [by apply legal_numbered|done].
    + rewrite !fmap_app. apply sublist_app; [done|]. simpl. by destruct c.
Qed.

Lemma producer_inv s os subs q : inv s os subs q →
  ∃ s' o q', act processor ProducerStep s = Some (s', o) ∧ inv s' (os ++ o) subs q'.
Proof.
  intros HI. destruct (iv_queue _ _ _ _ HI) as (np & nc & HQ).
  destruct (producer_good m m_range _ _ _ _ HQ) as (sq & qo & q' & np' & nc' & Hstep & Hf & HQ').
  simpl. rewrite Hstep. simpl.
  destruct (producer_shape _ _ _ Hstep) as [Hcs [(-> & Hfl & Hu)|[(v & -> & Hfl & Hp)|(v & -> & Hu)]]]; simpl.
  - apply fifo_run_silent in Hf as ->. eexists _, _, q. split; [done|].
    eapply inv_silent; [exact HI|by eauto|done..|]. cbn. rewrite Hcs. apply HI.
  - apply fifo_run_one, fifo_pushed in Hf as ->. eexists _, _, (q ++ [v]). split; [done|].
    destruct HI. unfold admitted in *. rewrite Hfl in *.
    split; unfold admitted; cbn; rewrite ?Hp; cbn [in_flight undecided];
      unfold accepted, processed, dropped, events in *; rewrite ?omap_app; cbn [omap list_omap];
      rewrite ?app_nil_r; try done.
    + by eauto.
    + by rewrite iv_accepted0, app_assoc.
    + by rewrite Hcs.
  - apply fifo_run_one in Hf as [Hs _]. exfalso. simpl in Hs. case_match; [|done].
    pose proof (iv_room _ _ _ _ HI Hu). lia.
Qed.

Context (N : Z).
Context (safe : ∀ cs, Forall legal cs → vsize cs ≤ N → is_Some (process_all processor cs st0)).

(** The matching thread can process the command it popped. *)
Lemma popped_runs s os subs v q : inv s os subs (v :: q) → vsize subs ≤ N →
  ∃ st' evs, processor v (engine_ s) = Some (tt, st', evs) ∧
    process_all processor (processed os ++ [v]) st0 = Some (tt, st', events os ++ evs).
Proof.
  intros HI HN. destruct HI. unfold admitted in *. rewrite iv_accepted0 in *.
  assert (Forall legal (processed os ++ [v])) as Hl.
  { rewrite <-!app_assoc, Forall_app in iv_legal0. destruct iv_legal0 as [H1 H2].
    simpl in H2. apply Forall_cons in H2 as [H2 _]. apply Forall_app. split; [done|by constructor]. }
  assert (vsize (processed os ++ [v]) ≤ N) as Hlen.
  { apply sublist_length in iv_submitted0. rewrite !length_fmap, !length_app in iv_submitted0.
    unfold vsize in *. rewrite length_app. simpl in *. lia. }
  destruct (safe _ Hl Hlen) as [r Hr].
  destruct (process_all_snoc _ _ _ _ _ _ _ iv_run0 Hr) as (st' & evs & Hp & ->). eauto.
Qed.

(** After the pop's answer the command is processed. *)
Lemma popped_inv s os subs v q sq np nc st' evs : inv s os subs (v :: q) →
  SpscQueue.inv m sq q np nc → producer sq = producer (queue_ s) → consumer sq = CIdle →
  process_all processor (processed os ++ [v]) st0 = Some (tt, st', events os ++ evs) →
  inv (mk sq (next_sequence_ s) st' (u64 (commands_processed_ s + 1)) (commands_rejected_ s)
         (stop_requested s) MTop) (os ++ [Processed v evs]) subs q.
Proof.
  intros [] HQ Hp Hc Hrun. unfold admitted in *.
  split; unfold admitted; cbn; rewrite ?Hp;
    unfold accepted, processed, dropped, events in *; rewrite ?omap_app, ?concat_app;
    cbn [omap list_omap concat]; rewrite ?app_nil_r; try done.
  - by eauto.
  - intros Hu. specialize (iv_room0 Hu). unfold vsize in *. simpl in *. lia.
  - by rewrite iv_accepted0, <-app_assoc.
  - rewrite vsize_snoc, iv_processed0. word.
Qed.

(** The matching thread is still looping. *)
Definition looping (s : t (St := St)) : Prop := matching s ≠ MExited ∧ stop_requested s = false.

(** The steps the matching thread needs, at most, to empty the queue. *)
Definition steps_left (s : t (St := St)) (q : list ExchangeCommand) : Z :=
  5 * vsize q + distance (matching s) (consumer (queue_ s)).

(** A step of the matching thread from [s] to [s'] left [q'] of [q]. *)
Definition progress (s s' : t) (q q' : list ExchangeCommand) : Prop :=
  looping s → looping s' ∧ (q = [] → q' = []) ∧ (q ≠ [] → steps_left s' q' < steps_left s q).

Lemma matching_inv s os subs q : inv s os subs q → vsize subs ≤ N →
  ∃ s' o q', matching_step processor s = Some (s', o) ∧ inv s' (os ++ o) subs q' ∧ progress s s' q q'.
Proof.
  intros HI HN. unfold matching_step. destruct (iv_queue _ _ _ _ HI) as (np & nc & HQ).
  pose proof (iv_phase _ _ _ _ HI) as Hph. unfold progress, looping, steps_left.
  destruct (matching s) eqn:Em; cbn [phase_ok] in Hph.
  - eexists _, _, q. split; [done|]. split.
    + eapply inv_silent;
        [exact HI| |by cbn; rewrite ?begin_pop_producer..|cbn; unfold begin_pop; by rewrite Hph].
      exists np, nc. cbn. unfold begin_pop. rewrite Hph.
      apply inv_set_consumer; [exact HQ|by rewrite Hph|done].
    + cbn. unfold begin_pop. rewrite Hph. simpl. intros [_ ?]. split_and!; [done..|]. lia.
  - destruct (consumer_good m m_range _ _ _ _ HQ) as (sq & qo & q' & np' & nc' & Hstep & Hf & HQ').
    rewrite Hstep. simpl. destruct (consumer_shape _ _ _ Hstep) as [Hp [[-> Hc]|[Hc [->|[v ->]]]]]; simpl.
    + apply fifo_run_silent in Hf as ->. eexists _, _, q. split; [done|]. split.
      * eapply inv_silent; [exact HI|by eauto|by cbn; rewrite ?Hp..|cbn; rewrite Em; by apply Hc].
      * cbn. rewrite Em. pose proof (consumer_closer _ _ Hstep Hph). intros [_ ?]. split_and!; [done..|].
        simpl. lia.
    + apply fifo_run_one, fifo_empty in Hf as [-> ->]. eexists _, _, []. split; [done|]. split.
      * eapply inv_silent; [exact HI|by eauto|by cbn; rewrite ?Hp..].
      * cbn. intros [_ ?]. by split_and!.
    + apply fifo_run_one, fifo_popped in Hf as ->.
      destruct (popped_runs _ _ _ _ _ HI HN) as (st' & evs & -> & Hrun). simpl.
      eexists _, _, q'. split; [done|]. split; [by eapply popped_inv|].
      cbn. pose proof (consumer_busy _ Hph). intros [_ ?]. split_and!; [done..|].
      unfold vsize. simpl. lia.
  - destruct (stop_requested s) eqn:Es; (eexists _, _, q; split; [done|]; split).
    + destruct HI. split; unfold admitted in *; cbn;
        unfold accepted, processed, dropped, events in *; rewrite ?omap_app, ?concat_app;
        cbn [omap list_omap concat]; rewrite ?app_nil_r; auto.
    + by intros [_ ?].
    + eapply inv_silent; [exact HI|by eauto|done..].
    + cbn. intros [_ ?]. split_and!; [done..|]. lia.
  - eexists _, _, q. split; [done|]. split.
    + eapply inv_silent; [exact HI|by eauto|done..|by rewrite Em].
    + by intros [? _].
Qed.

Lemma act_inv a s os subs q : inv s os subs q → Forall legal (submits [a]) →
  vsize (subs ++ submits [a]) ≤ N →
  ∃ s' o q', act processor a s = Some (s', o) ∧ inv s' (os ++ o) (subs ++ submits [a]) q'.
Proof.
  intros HI Hl HN. destruct a as [c| | |]; cbn [submits omap list_omap] in *; rewrite ?app_nil_r in *.
  - apply Forall_cons in Hl as [Hc _]. exists (submit c s).1, (submit c s).2, q.
    split; [simpl; by destruct (submit c s)|by apply pipeline_submit_inv].
  - by apply (producer_inv _ _ _ q).
  - destruct (matching_inv _ _ _ _ HI HN) as (s' & o & q' & ? & ? & _). eauto.
  - eexists _, _, q. split; [done|]. eapply inv_silent; [exact HI|by apply HI|done..|]. apply HI.
Qed.

Lemma exec_inv schedule : ∀ s os subs q, inv s os subs q → Forall legal (submits schedule) →
  vsize (subs ++ submits schedule) ≤ N →
  ∃ s' o q', exec processor schedule s = Some (s', o) ∧
    inv s' (os ++ o) (subs ++ submits schedule) q'.
Proof.
  induction schedule as [|a schedule IH]; intros s os subs q HI Hl HN.
  { exists s, [], q. cbn. by rewrite !app_nil_r. }
  change (a :: schedule) with ([a] ++ schedule) in Hl, HN |- *.
  unfold submits in *. rewrite omap_app in *. fold (submits [a]) (submits schedule) in *.
  apply Forall_app in Hl as [Ha Hl]. rewrite app_assoc in HN |- *.
  destruct (act_inv a _ _ _ _ HI Ha) as (s1 & o1 & q1 & E1 & HI1).
  { pose proof (vsize_nonneg (submits schedule)). unfold vsize in *. rewrite !length_app in *. lia. }
  destruct (IH _ _ _ _ HI1 Hl HN) as (s2 & o2 & q2 & E2 & HI2).
  exists s2, (o1 ++ o2), q2. cbn [app exec]. rewrite E1. simpl. rewrite E2. simpl.
  split; [done|]. by rewrite app_assoc.
Qed.

(** Left alone, the matching thread empties the queue. *)
Lemma drain_inv k : ∀ s os subs q, inv s os subs q → vsize subs ≤ N → looping s →
  (q ≠ [] → steps_left s q ≤ Z.of_nat k) →
  ∃ s' o, exec processor (replicate k MatchingStep) s = Some (s', o) ∧ inv s' (os ++ o) subs [].
Proof.
  induction k as [|k IH]; intros s os subs q HI HN Hrun Hk.
  - exists s, []. split; [done|]. rewrite app_nil_r. destruct q as [|c q]; [done|].
    assert (0 ≤ distance (matching s) (consumer (queue_ s))) by (destruct (matching s), (consumer (queue_ s)); done).
    specialize (Hk ltac:(done)). unfold steps_left, vsize in Hk. simpl in Hk. lia.
  - destruct (matching_inv _ _ _ _ HI HN) as (s1 & o1 & q1 & E1 & HI1 & Hp).
    destruct (Hp Hrun) as (Hrun1 & Hnil & Hless).
    destruct (IH s1 (os ++ o1) subs q1 HI1 HN Hrun1) as (s2 & o2 & E2 & HI2).
    { intros Hne. assert (q ≠ []) as Hq by (intros ->; by apply Hne, Hnil).
      specialize (Hk Hq). specialize (Hless Hq). lia. }
    exists s2, (o1 ++ o2). simpl. rewrite E1. simpl. rewrite E2. simpl.
    split; [done|]. by rewrite app_assoc.
Qed.

Lemma pipeline_inv_make q : SpscQueue.inv m q [] 0 0 → producer q = PIdle → consumer q = CIdle →
  inv (mk q 1 st0 0 0 false MTop) [] [] [].
Proof.
  intros HQ Hp Hc. split; unfold admitted; cbn; rewrite ?Hp, ?Hc; try done. by exists 0, 0.
Qed.

End proofs.

End MatchingPipeline.
