(* ===== verification/PipelineProps.v ===== *)
(** * The pipeline in front of the engine

    [MatchingPipeline] with its default processor, [MatchingEngine::process]: what is
    accepted is numbered, matched in that order, and, until someone asks it to stop,
    matched eventually. *)

From S2P Require Import Prelude Types Effects BookSpec MatchingEngine EngineTotal EngineProps.
From S2P Require Import SpscQueue Pipeline.

Module PipelineProps.
Import EngineTotal.EngineTotal EngineProps.EngineProps MatchingPipeline.

Abbreviation engine := (MatchingEngine.t MatchingBook.MatchingBook.t).

Lemma process_all_run cs : ∀ e : engine, process_all MatchingEngine.process cs e = MatchingEngine.run cs e.
Proof. induction cs as [|c cs IH]; intros e; [done|]. cbn [process_all MatchingEngine.run]. unfold ebind.
  destruct (MatchingEngine.process c e) as [[[[] e'] evs]|]; [|done]. by rewrite IH. Qed.

(** ** The generic theorem, from construction *)

Section constructed.
Context {St : Type} (processor : ExchangeCommand → eff St ExchangeEvent unit) (st0 : St).
Context (legal : ExchangeCommand → Prop) (legal_numbered : ∀ n c, legal c → legal (with_sequence n c)).

Lemma constructed_inv capacity schedule : 0 ≤ capacity ≤ 2 ^ 63 →
  (∀ cs, Forall legal cs → vsize cs ≤ vsize (submits schedule) → is_Some (process_all processor cs st0)) →
  Forall legal (submits schedule) →
  ∃ m s0 s os q, 0 ≤ m ≤ 63 ∧ make capacity st0 = Some s0 ∧ exec processor schedule s0 = Some (s, os) ∧
    looping s0 ∧ inv processor m st0 legal s os (submits schedule) q.
Proof.
  intros Hc Hsafe Hl.
  destruct (@SpscQueue.make_spec ExchangeCommand capacity Hc) as (m & Hm & _ & _ & Hmake).
  unfold make. rewrite Hmake. cbn [mbind option_bind].
  destruct (exec_inv processor m Hm st0 legal legal_numbered _ Hsafe schedule _ _ _ _
    (pipeline_inv_make processor m st0 legal _ (SpscQueue.inv_make m Hm) eq_refl eq_refl) Hl)
    as (s & os & q & E & HI); [done|].
  by eexists m, _, s, os, q.
Qed.
End constructed.

(** The matching thread leaves its loop only when asked to. *)
Lemma act_looping {St} (processor : ExchangeCommand → eff St ExchangeEvent unit) a s s' o :
  RequestStop ≠ a → looping s → act processor a s = Some (s', o) → looping s'.
Proof.
  intros Ha [Hx Hr] E. unfold looping. destruct a as [c| | |]; [..|done]; cbn [act] in E.
  - unfold submit, sequence in E. repeat case_match; by simplify_eq/=.
  - destruct (SpscQueue.producer_step _) as [[q os]|]; [|done]. simplify_eq/=.
    unfold pushed_answer in *. repeat case_match; by simplify_eq/=.
  - unfold matching_step in E. rewrite Hr in E. destruct (matching s) eqn:Em; simplify_eq/=; try done.
    destruct (SpscQueue.consumer_step _) as [[q os]|]; [|done]. simplify_eq/=. unfold popped_answer in E.
    repeat case_match; simplify_eq/=; try (by rewrite Em); try done.
    destruct (processor _ _) as [[[[] e] evs]|]; by simplify_eq/=.
Qed.

(** Stopping is only ever asked for. *)
Lemma looping_kept {St} (processor : ExchangeCommand → eff St ExchangeEvent unit) schedule :
  RequestStop ∉ schedule → ∀ s s' os, looping s → exec processor schedule s = Some (s', os) → looping s'.
Proof.
  induction schedule as [|a schedule IH]; intros Hno s s' os Hs; cbn [exec]; [by intros [= <- _]|].
  apply not_elem_of_cons in Hno as [Ha Hno].
  destruct (act processor a s) as [[s1 o1]|] eqn:E1; [|done]. simpl.
  destruct (exec processor schedule s1) as [[s2 o2]|] eqn:E2; [|done]. intros [= <- _].
  apply (IH Hno s1 _ o2); [|done]. destruct Hs as [Hx Hr].
  by apply (act_looping processor a s s1 o1).
Qed.

(** ** The engine behind the pipeline *)

Lemma numbered_ok n c : command_ok c → command_ok (with_sequence n c).
Proof. by destruct c. Qed.

Lemma session_pipeline universe n capacity schedule :
  session_ok universe (submits schedule) → 0 ≤ capacity ≤ 2 ^ 63 →
  ∃ (e0 : engine) m s0 s os q, MatchingEngine.make universe n = Some e0 ∧ 0 ≤ m ≤ 63 ∧
    make capacity e0 = Some s0 ∧ looping s0 ∧ exec MatchingEngine.process schedule s0 = Some (s, os) ∧
    inv MatchingEngine.process m e0 command_ok s os (submits schedule) q.
Proof.
  intros (Hu & Hsz & Hok & Hlen) Hc.
  destruct (session_runs universe n []) as (e0 & _ & _ & _ & _ & He0 & _).
  { by split_and!. }
  destruct (constructed_inv MatchingEngine.process e0 command_ok numbered_ok capacity schedule Hc)
    as (m & s0 & s & os & q & Hm & Hmk & E & Hs0 & HI); [|done|by exists e0, m, s0, s, os, q].
  intros cs Hcs Hle. rewrite process_all_run.
  destruct (session_runs universe n cs) as (e0' & e & _ & _ & evs & He0' & Hr & _).
  { split_and!; try done. lia. }
  rewrite He0 in He0'. injection He0' as <-. by exists (tt, e, evs).
Qed.

Lemma accepted_numbers {St} (processor : ExchangeCommand → eff St ExchangeEvent unit) m st0 legal s os subs q :
  inv processor m st0 legal s os subs q →
  command_sequence <$> accepted os = numbers 1 (length (accepted os)).
Proof.
  intros HI. pose proof (iv_numbers _ _ _ _ _ _ _ _ HI) as E. unfold admitted in E.
  rewrite fmap_app, length_app, numbers_app in E.
  apply app_inj_1 in E as [E _]; [done|]. by rewrite length_fmap, length_numbers.
Qed.

Lemma accepted_submitted {St} (processor : ExchangeCommand → eff St ExchangeEvent unit) m st0 legal s os subs q :
  inv processor m st0 legal s os subs q →
  (with_sequence 0 <$> accepted os) `sublist_of` (with_sequence 0 <$> subs).
Proof.
  intros HI. etrans; [|apply (iv_submitted _ _ _ _ _ _ _ _ HI)]. unfold admitted.
  rewrite fmap_app. by apply sublist_inserts_r.
Qed.

(** C14: the order of matching is the order of acceptance. Under any interleaving of
    submissions, the matching thread and a stop, nothing is undefined; the accepted
    commands are submitted ones, in order, numbered 1, 2, 3, ... without a gap (a
    refused one takes no number, and none is refused after taking one); the engine has
    processed a prefix of them, in that order, and its state and events are those of
    a single-threaded run of that prefix. *)
Theorem matches_in_order universe n capacity schedule :
  session_ok universe (submits schedule) → 0 ≤ capacity ≤ 2 ^ 63 →
  ∃ (e0 : engine) s0 s os queued, MatchingEngine.make universe n = Some e0 ∧ make capacity e0 = Some s0 ∧
    exec MatchingEngine.process schedule s0 = Some (s, os) ∧
    accepted os = processed os ++ queued ∧
    command_sequence <$> accepted os = numbers 1 (length (accepted os)) ∧
    (with_sequence 0 <$> accepted os) `sublist_of` (with_sequence 0 <$> submits schedule) ∧
    dropped os = [] ∧ commands_processed_ s = u64 (vsize (processed os)) ∧
    MatchingEngine.run (processed os) e0 = Some (tt, engine_ s, events os).
Proof.
  intros Hok Hc. destruct (session_pipeline universe n capacity schedule Hok Hc)
    as (e0 & m & s0 & s & os & q & He0 & Hm & Hs0 & _ & E & HI).
  exists e0, s0, s, os, q. rewrite <-process_all_run.
  split_and!; try done; [by apply HI|by eapply accepted_numbers|by eapply accepted_submitted|apply HI..].
Qed.

(** Two orders, the second submitted while the first is being matched, and a third
    refused by the queue of one. *)
Definition sample_schedule : list action :=
  [Submit (CmdNew (sample_order 1 1 Sell 100 5 GTC))] ++ replicate 5 ProducerStep ++
  [Submit (CmdNew (sample_order 2 1 Buy 100 3 GTC))] ++ replicate 5 MatchingStep ++
  [Submit (CmdNew (sample_order 2 2 Buy 100 2 GTC))] ++ replicate 5 ProducerStep.

Lemma sample_schedule_ok : session_ok [7; 9] (submits sample_schedule).
Proof.
  split_and!; [repeat constructor; by vm_compute|by vm_compute| |by vm_compute].
  by apply (bool_decide_unpack _).
Qed.

Lemma matches_in_order_witness : session_ok [7; 9] (submits sample_schedule) ∧ 0 ≤ 1 ≤ 2 ^ 63 ∧
  ∃ (e0 : engine) s0 s os queued, MatchingEngine.make [7; 9] 0 = Some e0 ∧
    make 1 e0 = Some s0 ∧
    exec MatchingEngine.process sample_schedule s0 = Some (s, os) ∧
    accepted os = processed os ++ queued ∧
    command_sequence <$> accepted os = numbers 1 (length (accepted os)) ∧
    (with_sequence 0 <$> accepted os) `sublist_of` (with_sequence 0 <$> submits sample_schedule) ∧
    dropped os = [] ∧ commands_processed_ s = u64 (vsize (processed os)) ∧
    MatchingEngine.run (processed os) e0 = Some (tt, engine_ s, events os).
Proof.
  split; [apply sample_schedule_ok|]. split; [lia|].
  apply (matches_in_order [7; 9] 0 1 sample_schedule); [apply sample_schedule_ok|lia].
Defined.

(** C15: nothing accepted is forgotten while the pipeline runs. After any schedule in
    which nobody asked it to stop, the matching thread alone empties the queue: within
    five steps per queued command and six more, every accepted command is processed. *)
Theorem accepted_are_processed universe n capacity schedule (k : nat) :
  session_ok universe (submits schedule) → 0 ≤ capacity ≤ 2 ^ 63 → RequestStop ∉ schedule →
  5 * vsize (submits schedule) + 6 ≤ Z.of_nat k →
  ∃ (e0 : engine) s0 s os s' os', MatchingEngine.make universe n = Some e0 ∧ make capacity e0 = Some s0 ∧
    exec MatchingEngine.process schedule s0 = Some (s, os) ∧
    exec MatchingEngine.process (replicate k MatchingStep) s = Some (s', os') ∧
    processed (os ++ os') = accepted (os ++ os').
Proof.
  intros Hok Hc Hno Hk. pose proof Hok as (Hu & Hsz & Hcs & Hlen).
  destruct (session_pipeline universe n capacity schedule Hok Hc)
    as (e0 & m & s0 & s & os & q & He0 & Hm & Hs0 & Hl & E & HI).
  assert (∀ cs, Forall command_ok cs → vsize cs ≤ vsize (submits schedule) →
    is_Some (process_all MatchingEngine.process cs e0)) as Hsafe.
  { intros cs Hc' Hle. rewrite process_all_run.
    destruct (session_runs universe n cs) as (e0' & e & _ & _ & evs & He0' & Hr & _).
    { split_and!; try done. lia. }
    rewrite He0 in He0'. injection He0' as <-. by exists (tt, e, evs). }
  destruct (drain_inv MatchingEngine.process m Hm e0 command_ok _ Hsafe k _ _ _ _ HI)
    as (s' & os' & E' & HI'); [done|by eapply looping_kept| |].
  { intros _. pose proof (sublist_length _ _ (iv_submitted _ _ _ _ _ _ _ _ HI)) as Hq.
    pose proof (iv_accepted _ _ _ _ _ _ _ _ HI) as Ha.
    unfold steps_left, admitted, vsize in *. rewrite Ha, !length_fmap, !length_app in Hq.
    assert (distance (matching s) (SpscQueue.consumer (queue_ s)) ≤ 6)
      by (destruct (matching s), (SpscQueue.consumer (queue_ s)); simpl; lia).
    lia. }
  exists e0, s0, s, os, s', os'. split_and!; try done.
  by rewrite (iv_accepted _ _ _ _ _ _ _ _ HI'), app_nil_r.
Qed.

Lemma accepted_are_processed_witness :
  session_ok [7; 9] (submits sample_schedule) ∧ 0 ≤ 1 ≤ 2 ^ 63 ∧ RequestStop ∉ sample_schedule ∧
  5 * vsize (submits sample_schedule) + 6 ≤ Z.of_nat 30 ∧
  ∃ (e0 : engine) s0 s os s' os', MatchingEngine.make [7; 9] 0 = Some e0 ∧
    make 1 e0 = Some s0 ∧
    exec MatchingEngine.process sample_schedule s0 = Some (s, os) ∧
    exec MatchingEngine.process (replicate 30 MatchingStep) s = Some (s', os') ∧
    processed (os ++ os') = accepted (os ++ os').
Proof.
  assert (RequestStop ∉ sample_schedule) as Hno.
  { unfold sample_schedule. cbn. repeat (apply not_elem_of_cons; split; [done|]). apply not_elem_of_nil. }
  split; [apply sample_schedule_ok|]. split; [lia|]. split; [done|]. split; [by vm_compute|].
  apply (accepted_are_processed [7; 9] 0 1 sample_schedule 30); [apply sample_schedule_ok|lia|done|].
  by vm_compute.
Defined.

(** The matching thread finds the queue empty; before it looks at the stop flag, a
    command is submitted, accepted, and the stop requested. *)
Definition shutdown_race (c : ExchangeCommand) : list action :=
  replicate 3 MatchingStep ++ [Submit c] ++ replicate 5 ProducerStep ++ [RequestStop; MatchingStep].

Lemma exited_stays {St} (processor : ExchangeCommand → eff St ExchangeEvent unit) k s :
  matching s = MExited → exec processor (replicate k MatchingStep) s = Some (s, []).
Proof.
  intros Hs. induction k as [|k IH]; [done|]. cbn [replicate exec act]. unfold matching_step.
  rewrite Hs. cbn [mbind option_bind]. by rewrite IH.
Qed.

(** Stopping can lose a command. Whatever the processor and the command, there is
    a schedule in which [submit] answers true, [stop] is asked for after that, and
    the matching thread exits without ever processing the command. *)
Theorem stop_loses_a_command {St} (processor : ExchangeCommand → eff St ExchangeEvent unit) st0 c :
  ∃ s0 s os, make 1 st0 = Some s0 ∧ exec processor (shutdown_race c) s0 = Some (s, os) ∧
    os = [Accepted (with_sequence 1 c); Exited] ∧ matching s = MExited ∧
    SpscQueue.size (queue_ s) = 1 ∧
    ∀ k, exec processor (replicate k MatchingStep) s = Some (s, []).
Proof.
  eexists _, (mk (SpscQueue.mk 1 0 {[0 := with_sequence 1 c]} 1 1 0 SpscQueue.PIdle SpscQueue.CIdle)
    2 st0 0 0 true MExited), [Accepted (with_sequence 1 c); Exited].
  split; [done|]. split; [reflexivity|]. split; [done|]. split; [done|]. split; [done|].
  intros k. by apply exited_stays.
Qed.

End PipelineProps.
