(* ===== verification/TradingSession.v ===== *)
(** * A trader at the exchange

    One account's order management and risk ([TraderRiskGatedOms]), the risk-gated
    exchange, and what travels between them: messages registered but not yet sent,
    messages sent but not yet matched, reports not yet handled. A [step] is one critical
    section of the trader, one command matched, or one report handled, so a schedule
    interleaves the strategy's threads, the reader thread and the exchange at will;
    other accounts' commands come in between. Requests may fail to be sent, and may be
    lost: [connection_reader_loop] ignores what [submit_command] answers. Reports all
    arrive, in order. *)

From S2P Require Import Prelude Types MatchingBook BookSpec BookRefinement MatchingEngine Ledger RiskGated Pipeline OrderEntryCodec Gateway Oms Positions Reports.

Module TradingSession.
Import BookRefinement OrderEntryCodec OrderEntryGateway OrderManagementSystem TraderRiskGatedOms Reports.

Abbreviation gated := (RiskGatedEngine.t MatchingBook.t).

Record t := mk {
  exchange : gated;
  next_sequence_ : CommandSequence;
  trader : TraderRiskGatedOms.t;
  cleared : list Intent;          (* past the risk check, not yet in the order management *)
  outbox : list Message;          (* registered, not yet sent *)
  up : list Message;              (* sent, not yet matched *)
  down : list Message;            (* reported, not yet handled *)
  unsettled : list Fill;          (* handled, not yet in the position tracker *)
}.

Definition start (g : gated) (r : TraderRiskGatedOms.t) : t := mk g 0 r [] [] [] [] [].

Definition with_trader (r : TraderRiskGatedOms.t) (w : t) : t :=
  mk (exchange w) (next_sequence_ w) r (cleared w) (outbox w) (up w) (down w) (unsettled w).

Definition with_cleared (l : list Intent) (w : t) : t :=
  mk (exchange w) (next_sequence_ w) (trader w) l (outbox w) (up w) (down w) (unsettled w).

Definition with_requests (outbox up : list Message) (w : t) : t :=
  mk (exchange w) (next_sequence_ w) (trader w) (cleared w) outbox up (down w) (unsettled w).

Definition with_reports (down : list Message) (unsettled : list Fill) (w : t) : t :=
  mk (exchange w) (next_sequence_ w) (trader w) (cleared w) (outbox w) (up w) down unsettled.

(** A critical section of the trader that built a message. *)
Definition posted (message : Message) (r : TraderRiskGatedOms.t) (w : t) : t :=
  with_requests (outbox w ++ [message]) (up w) (with_trader r w).

(** The private reports of account [a] among what the exchange emits. *)
Definition reports (a : AccountId) (evs : list ExchangeEvent) : list Message :=
  snd <$> filter (λ r, r.1.1 = a) (evs ≫= to_execution_reports).

Definition account (w : t) : AccountId := TraderRiskGatedOms.account_id_ (trader w).

(** [pipeline_.submit], and the matching thread. *)
Definition submit (c : ExchangeCommand) (w : t) : option t :=
  let '(c, next) := MatchingPipeline.sequence c (next_sequence_ w) in
  '(g, evs) ← RiskGatedEngine.process c (exchange w);
  Some (mk g next (trader w) (cleared w) (outbox w) (up w) (down w ++ reports (account w) evs) (unsettled w)).

Inductive action :=
  | CheckRisk (i : Intent)
  | Register (k : nat)
  | CancelOrder (client_order_id : ClientOrderId)
  | ReplaceOrder (client_order_id : ClientOrderId) (new_price : Price) (new_quantity : Quantity) (rehashes : bool)
  | Transmit (k : nat) (ok : bool)
  | Lose
  | Match
  | MatchOther (c : ExchangeCommand)
  | Handle
  | Settle.

(** An action that cannot be taken changes nothing; [None] is a failure of the engine, or
    behaviour that is not defined. *)
Definition step (a : action) (w : t) : option t :=
  match a with
  | CheckRisk i =>
      Some (if bool_decide (local_check i (trader w) = RejectReason.None)
            then with_cleared (cleared w ++ [i]) w else w)
  | Register k =>
      Some match cleared w !! k with
           | None => w
           | Some i =>
               let '(_, message, r) := TraderRiskGatedOms.begin_submit i (trader w) in
               posted message r (with_cleared (delete k (cleared w)) w)
           end
  | CancelOrder id =>
      Some match TraderRiskGatedOms.begin_cancel id (trader w) with
           | None => w
           | Some (message, r) => posted message r w
           end
  | ReplaceOrder id price quantity rehashes =>
      match TraderRiskGatedOms.begin_replace id price quantity (trader w) with
      | None => Some w
      | Some (_, message, r) => if replacement_defined rehashes then Some (posted message r w) else None
      end
  | Transmit k ok =>
      Some match outbox w !! k with
           | None => w
           | Some message =>
               if ok then with_requests (delete k (outbox w)) (up w ++ [message]) w
               else with_requests (delete k (outbox w)) (up w)
                      (with_trader (TraderRiskGatedOms.send_failed message (trader w)) w)
           end
  | Lose => Some (with_requests (outbox w) (tail (up w)) w)
  | Match =>
      match up w with
      | [] => Some w
      | message :: up =>
          let w := with_requests (outbox w) up w in
          match to_command message with None => Some w | Some c => submit c w end
      end
  | MatchOther c => submit c w
  | Handle =>
      Some match unsettled w, down w with
           | [], message :: down =>
               let '(r, updates) := TraderRiskGatedOms.handle_message message (trader w) in
               with_reports down (fills updates) (with_trader r w)
           | _, _ => w
           end
  | Settle =>
      Some match unsettled w with
           | [] => w
           | fill :: unsettled => with_reports (down w) unsettled (with_trader (settle fill (trader w)) w)
           end
  end.

Fixpoint exec (actions : list action) (w : t) : option t :=
  match actions with [] => Some w | a :: actions => w ← step a w; exec actions w end.

(** ** Both views of an order *)

(** At the exchange: looked up in the directory, read off its book. *)
Definition resting_order (e : MatchingEngine.t MatchingBook.t) (k : LiveKey) : option open_order :=
  ref ← MatchingEngine.orders_ e !! k;
  b ← MatchingEngine.book_for (MatchingEngine.or_instrument_id ref) e;
  o ← MatchingBook.at_ (MatchingEngine.or_handle ref) b;
  Some (mkOpen (bo_exchange_order_id o) (MatchingEngine.or_instrument_id ref) (bo_side o) (bo_price o)
    (bo_remaining_quantity o) (bo_time_in_force o)).

(** To the trader: live, with the id the exchange gave it. *)
Definition shown (c : ClientOrder) : option open_order :=
  if is_live (cl_state c) then
    x ← cl_exchange_order_id c;
    Some (mkOpen x (cl_instrument_id c) (cl_side c) (cl_price c) (cl_remaining_quantity c)
      (cl_time_in_force c))
  else None.

(** The orders that can rest. *)
Definition good_till_cancelled (w : open_order) : option open_order :=
  if decide (op_time_in_force w = GTC) then Some w else None.

(** The order the trader believes to be working: whatever its time in force, if it is
    live ([client_order.hpp], line 20). *)
Definition working (id : ClientOrderId) (r : TraderRiskGatedOms.t) : option open_order :=
  c ← orders_ (oms_ r) !! id; shown c.

(** One report, all the way. *)
Definition hear (r : TraderRiskGatedOms.t) (message : Message) : TraderRiskGatedOms.t :=
  let '(r, updates) := TraderRiskGatedOms.handle_message message r in
  foldl (λ r fill, settle fill r) r (fills updates).

(** The trader once what is on its way to it has arrived; with nothing on its way, the
    trader. *)
Definition caught_up (w : t) : TraderRiskGatedOms.t :=
  foldl hear (foldl (λ r fill, settle fill r) (trader w) (unsettled w)) (down w).

End TradingSession.
