(* ===== verification/SessionViews.v ===== *)
(** * Reports, order by order

    A report changes each order of the order management on its own ([evolve]), so what
    the trader sees after reports is a function of what it saw before, order by order.
    The reports of a command's events lead the trader's orders along the view those
    events build, and its positions along the ledger's totals. *)

From S2P Require Import Prelude Types Ledger OrderEntryCodec Gateway Oms Positions Reports TradingSession.

Module SessionViews.
Import OrderEntryCodec OrderEntryGateway OrderManagementSystem TraderRiskGatedOms Reports TradingSession.

Abbreviation client_orders := (ClientOrderId → option ClientOrder).

(** ** One report, one order *)

Definition evolve (m : Message) (id : ClientOrderId) (c : ClientOrder) : ClientOrder :=
  match m with
  | MsgAccepted e => if ac_client_order_id e =? id then accepted e c else c
  | MsgRejected e => if rj_client_order_id e =? id then rejected e c else c
  | MsgCancelled e => if cc_client_order_id e =? id then cancelled c else c
  | MsgReplaced e =>
      let c := if rd_original_client_order_id e =? id then superseded c else c in
      if rd_new_client_order_id e =? id then replacement e c else c
  | MsgTradeReport e => if tp_client_order_id e =? id then traded e c else c
  | MsgNewOrder _ | MsgCancelOrder _ | MsgReplaceOrder _ => c
  end.

Definition evolve_all (ms : list Message) (id : ClientOrderId) (c : ClientOrder) : ClientOrder :=
  foldl (λ c m, evolve m id c) c ms.

(** The orders after reports [ms]. *)
Definition after (ms : list Message) (E : client_orders) : client_orders := λ id, evolve_all ms id <$> E id.

Definition mentions (m : Message) : list ClientOrderId :=
  match m with
  | MsgAccepted e => [ac_client_order_id e]
  | MsgRejected e => [rj_client_order_id e]
  | MsgCancelled e => [cc_client_order_id e]
  | MsgReplaced e => [rd_original_client_order_id e; rd_new_client_order_id e]
  | MsgTradeReport e => [tp_client_order_id e]
  | MsgNewOrder _ | MsgCancelOrder _ | MsgReplaceOrder _ => []
  end.

Definition fill_in (a : AccountId) (E : client_orders) (m : Message) : list Fill :=
  match m with
  | MsgTradeReport e =>
      match E (tp_client_order_id e) with Some c => [fill_of e a c] | None => [] end
  | _ => []
  end.

Definition fills_in (a : AccountId) (E : client_orders) (ms : list Message) : list Fill :=
  ms ≫= fill_in a E.

(** What no report changes. *)
Definition statics (c : ClientOrder) : InstrumentId * Side * TimeInForce :=
  (cl_instrument_id c, cl_side c, cl_time_in_force c).

(** What [shown] reads. *)
Definition core (c : ClientOrder) :=
  (cl_state c, cl_exchange_order_id c, cl_price c, cl_remaining_quantity c, statics c).

Lemma evolve_statics m id c : statics (evolve m id c) = statics c.
Proof.
  destruct m as [e|e|e|e|e|e|e|e]; simpl; try case_bool; try done.
  - unfold rejected. by case_bool.
  - by case_bool.
  - by case_bool.
Qed.

Lemma evolve_all_statics ms id : ∀ c, statics (evolve_all ms id c) = statics c.
Proof. induction ms as [|m ms IH]; intros c; [done|]. simpl. by rewrite IH, evolve_statics. Qed.

Lemma evolve_core m id c c' : core c = core c' → core (evolve m id c) = core (evolve m id c').
Proof.
  destruct c, c'. intros [= -> -> -> -> -> -> ->].
  destruct m as [e|e|e|e|e|e|e|e]; simpl; try case_bool; try done.
  - unfold rejected. simpl. by case_bool.
  - by case_bool.
  - by case_bool.
Qed.

Lemma evolve_all_core ms id : ∀ c c', core c = core c' → core (evolve_all ms id c) = core (evolve_all ms id c').
Proof. induction ms as [|m ms IH]; intros c c' H; [done|]. by apply IH, evolve_core. Qed.

Lemma shown_core c c' : core c = core c' → shown c = shown c'.
Proof. destruct c, c'. by intros [= -> -> -> -> -> -> ->]. Qed.

Lemma evolve_unmentioned m id c : id ∉ mentions m → evolve m id c = c.
Proof.
  intros H. destruct m as [e|e|e|e|e|e|e|e]; simpl in *; try done;
    rewrite ?not_elem_of_cons in H; rewrite ?(proj2 (Z.eqb_neq _ id)) by naive_solver; done.
Qed.

Lemma evolve_all_unmentioned ms id : ∀ c, id ∉ ms ≫= mentions → evolve_all ms id c = c.
Proof.
  induction ms as [|m ms IH]; intros c H; [done|]. cbn in H. rewrite not_elem_of_app in H.
  destruct H as [Hm Hms]. simpl. by rewrite evolve_unmentioned, IH.
Qed.

Lemma evolve_price m id c : (∀ e, m ≠ MsgReplaced e) → cl_price (evolve m id c) = cl_price c.
Proof.
  intros H. destruct m as [e|e|e|e|e|e|e|e]; try by destruct (H e).
  all: simpl; try case_bool; try done. unfold rejected. by case_bool.
Qed.

(** ** [handle_message], order by order *)

Lemma on_order_lookup f i o id :
  orders_ (on_order f i o).1 !! id = (if i =? id then f else λ c, c) <$> orders_ o !! id.
Proof.
  unfold on_order. simpl. destruct (Z.eqb_spec i id) as [->|].
  - apply lookup_alter_eq.
  - rewrite lookup_alter_ne by done. by rewrite option_fmap_id.
Qed.

Lemma handle_lookup m o id :
  orders_ (OrderManagementSystem.handle_message m o).1 !! id = evolve m id <$> orders_ o !! id.
Proof.
  destruct m as [e|e|e|e|e|e|e|e]; cbn [OrderManagementSystem.handle_message];
    try by rewrite option_fmap_id.
  4: change (on_replaced e o).1 with (on_order (replacement e) (rd_new_client_order_id e)
       (on_order superseded (rd_original_client_order_id e) o).1).1.
  5: change (on_trade_report e o).1 with (on_order (traded e) (tp_client_order_id e) o).1.
  all: unfold on_accepted, on_rejected, on_cancelled; rewrite !on_order_lookup;
    destruct (orders_ o !! id); simpl; [|done]; f_equal; by repeat case_bool.
Qed.

Lemma notify_fills c : fills (notify c) = [].
Proof. by destruct c. Qed.

Lemma handle_fields m o :
  OrderManagementSystem.account_id_ (OrderManagementSystem.handle_message m o).1 =
    OrderManagementSystem.account_id_ o ∧
  next_client_order_id_ (OrderManagementSystem.handle_message m o).1 = next_client_order_id_ o.
Proof. by destruct m. Qed.

Lemma fills_app us us' : fills (us ++ us') = fills us ++ fills us'.
Proof. apply omap_app. Qed.

Lemma handle_fills m o : fills (OrderManagementSystem.handle_message m o).2 =
  fill_in (OrderManagementSystem.account_id_ o) (λ id, orders_ o !! id) m.
Proof.
  destruct m as [e|e|e|e|e|e|e|e]; simpl; try done; try apply notify_fills.
  - by rewrite fills_app, !notify_fills.
  - rewrite fills_app, notify_fills. simpl. rewrite lookup_alter_eq.
    by destruct (orders_ o !! tp_client_order_id e).
Qed.

(** Only the side of an order goes into its fills. *)
Lemma fills_in_sides a E E' ms :
  (∀ id, id ∈ ms ≫= mentions → cl_side <$> E id = cl_side <$> E' id) → fills_in a E ms = fills_in a E' ms.
Proof.
  intros H. induction ms as [|m ms IH]; [done|]. cbn. f_equal.
  - destruct m as [e|e|e|e|e|e|e|e]; try done. simpl.
    assert (cl_side <$> E (tp_client_order_id e) = cl_side <$> E' (tp_client_order_id e)) as Hs.
    { apply H. cbn. by left. }
    destruct (E _), (E' _); try done. unfold fill_of. simpl in Hs. injection Hs as Hs. by rewrite Hs.
  - apply IH. intros id Hid. apply H. cbn. apply elem_of_app. by right.
Qed.

Lemma after_side ms E id : cl_side <$> after ms E id = cl_side <$> E id.
Proof.
  unfold after. destruct (E id) as [c|]; [|done]. simpl. f_equal.
  pose proof (evolve_all_statics ms id c) as H. by injection H.
Qed.

Lemma fills_in_after a ms' E ms : fills_in a (after ms' E) ms = fills_in a E ms.
Proof. apply fills_in_sides. intros id _. apply after_side. Qed.

Lemma fills_in_app a E ms ms' : fills_in a E (ms ++ ms') = fills_in a E ms ++ fills_in a E ms'.
Proof. apply bind_app. Qed.

Lemma after_app ms ms' E id : after (ms ++ ms') E id = after ms' (after ms E) id.
Proof. unfold after, evolve_all. destruct (E id); simpl; [|done]. by rewrite foldl_app. Qed.

(** ** The ledger's totals *)

Definition totals (a : AccountId) (l : Ledger.t) : Z * gmap InstrumentId Quantity :=
  (Ledger.cash_total (Ledger.balances a l), Ledger.position_total (Ledger.balances a l)).

Lemma totals_update a a' f l :
  (∀ b, Ledger.cash_total (f b) = Ledger.cash_total b ∧ Ledger.position_total (f b) = Ledger.position_total b) →
  totals a (Ledger.update_account a' f l) = totals a l.
Proof.
  intros H. unfold totals. rewrite Ledger.balances_update. case_decide; [|done].
  by destruct (H (Ledger.balances a l)) as [-> ->].
Qed.

Lemma totals_open_hold a a' c i sd p q l : totals a (Ledger.open_hold a' c i sd p q l) = totals a l.
Proof. unfold Ledger.open_hold. case_bool; [done|]. apply totals_update. by destruct sd. Qed.

Lemma totals_release a a' h l : totals a (Ledger.release_hold_fully a' h l) = totals a l.
Proof. unfold Ledger.release_hold_fully. case_bool; [done|]. apply totals_update. by destruct (Ledger.hd_side h). Qed.

Lemma totals_settle_hold a leg sd i q l : totals a (Ledger.settle_hold leg sd i q l) = totals a l.
Proof.
  unfold Ledger.settle_hold. destruct (Ledger.holds_ l !! _); [|done]. apply totals_update. by destruct sd.
Qed.

(** What the trader's tracker says of account [a] is what the ledger says. *)
Definition same_totals (a : AccountId) (l : Ledger.t) (p : PositionTracker.t) : Prop :=
  PositionTracker.cash a p = (totals a l).1 ∧
  ∀ i, PositionTracker.position a i p = default 0 ((totals a l).2 !! i).

Lemma same_totals_ledger a l l' p : totals a l' = totals a l → same_totals a l p → same_totals a l' p.
Proof. unfold same_totals. by intros ->. Qed.

Lemma account_update a f p :
  PositionTracker.account a (PositionTracker.update a f p) = f (PositionTracker.account a p).
Proof. unfold PositionTracker.account at 1, PositionTracker.update. simpl. by rewrite lookup_insert_eq. Qed.

Lemma cash_account a p : PositionTracker.cash a p = PositionTracker.cash_ (PositionTracker.account a p).
Proof. unfold PositionTracker.cash, PositionTracker.account. by destruct (PositionTracker.accounts_ p !! a). Qed.

Lemma position_account a i p :
  PositionTracker.position a i p = default 0 (PositionTracker.holdings (PositionTracker.account a p) !! i).
Proof.
  unfold PositionTracker.position, PositionTracker.account. destruct (PositionTracker.accounts_ p !! a); simpl.
  - by destruct (_ !! i).
  - by rewrite lookup_empty.
Qed.

(** A fill moves what the leg of its trade moves. *)
Lemma fill_settles a sd i price q l p fill : same_totals a l p →
  fl_account_id fill = a → fl_side fill = sd → fl_instrument_id fill = i → fl_price fill = price →
  fl_quantity fill = q →
  same_totals a (Ledger.settle_totals a sd i price q l) (PositionTracker.apply fill p).
Proof.
  intros [Hc Hp] Ha Hs Hi Hpr Hq. unfold PositionTracker.apply. rewrite Ha, Hs, Hi, Hpr, Hq.
  rewrite cash_account in Hc. setoid_rewrite position_account in Hp.
  unfold same_totals, Ledger.settle_totals, totals in *. rewrite Ledger.balances_update, decide_True by done.
  rewrite cash_account, account_update.
  destruct sd; cbn -[i64 u64] in *; (split; [by rewrite Hc|]); intros j; rewrite position_account, account_update;
    cbn -[i64 u64]; unfold Ledger.position_add, Ledger.position_sub; rewrite !lookup_insert; case_decide as E;
    try apply Hp; simpl; by rewrite Hp.
Qed.

(** ** One event *)

Section account.
Context (A : AccountId).

Definition mine (a : AccountId) : Prop := a = A.

(** What the trader sees of its orders [E] is the view. *)
Definition follows (v : view) (E : client_orders) : Prop := ∀ id, E id ≫= shown = v !! (A, id).

(** The orders a request of the account is about, as its order management has them. *)
Definition ready (c : ExchangeCommand) (E : client_orders) : Prop :=
  match c with
  | CmdNew c => no_account_id c = A → ∃ o, E (no_client_order_id c) = Some o ∧
      statics o = (no_instrument_id c, no_side c, no_time_in_force c) ∧ cl_price o = no_price c
  | CmdCancel _ => True
  | CmdReplace c => ro_account_id c = A → ∃ o o', E (ro_original_client_order_id c) = Some o ∧
      E (ro_new_client_order_id c) = Some o' ∧ statics o = statics o'
  end.

Definition to_me (k : LiveKey) (m : Message) : list Message := if decide (k.1 = A) then [m] else [].

Lemma reports_cons ev evs : reports A (ev :: evs) = reports A [ev] ++ reports A evs.
Proof. unfold reports. cbn. by rewrite app_nil_r, filter_app, fmap_app. Qed.

Lemma reports_one ev k m : to_execution_reports ev = [(k, m)] → reports A [ev] = to_me k m.
Proof.
  intros E. unfold reports, to_me. change ([ev] ≫= to_execution_reports) with (to_execution_reports ev ++ []).
  rewrite E, app_nil_r, filter_cons, filter_nil. simpl. by case_decide.
Qed.

Lemma reports_trade e : reports A [EvTrade e] =
  to_me (trade_report (te_buyer e) e).1 (trade_report (te_buyer e) e).2 ++
  to_me (trade_report (te_seller e) e).1 (trade_report (te_seller e) e).2.
Proof.
  unfold reports, to_me. change ([EvTrade e] ≫= to_execution_reports) with
    [trade_report (te_buyer e) e; trade_report (te_seller e) e].
  rewrite !filter_cons, filter_nil. simpl. by repeat case_decide.
Qed.

Lemma shown_inv c w : shown c = Some w → is_live (cl_state c) = true ∧
  w = mkOpen (op_exchange_order_id w) (cl_instrument_id c) (cl_side c) (cl_price c) (cl_remaining_quantity c)
        (cl_time_in_force c) ∧ cl_exchange_order_id c = Some (op_exchange_order_id w).
Proof.
  unfold shown. destruct (is_live (cl_state c)); [|done]. destruct (cl_exchange_order_id c); [|done].
  by intros [= <-].
Qed.

Lemma follows_shown v E id w : follows v E → v !! (A, id) = Some w → ∃ c, E id = Some c ∧ shown c = Some w.
Proof. intros HF Hw. rewrite <-HF in Hw. destruct (E id) as [c|]; [by exists c|done]. Qed.

(** A report about order [x] changes what is seen of [x] only. *)
Lemma follows_at v v' E m x : follows v E →
  (∀ id c, id ≠ x → evolve m id c = c) → (∀ id, id ≠ x → v' !! (A, id) = v !! (A, id)) →
  (evolve m x <$> E x) ≫= shown = v' !! (A, x) → follows v' (after [m] E).
Proof.
  intros HF Hm Hv Hx id. unfold after, evolve_all. simpl. destruct (decide (id = x)) as [->|Hne]; [exact Hx|].
  rewrite (Hv id Hne), <-(HF id). destruct (E id) as [c|]; simpl; [|done]. by rewrite (Hm id c Hne).
Qed.

Lemma follows_elsewhere v v' E : follows v E → (∀ id, v' !! (A, id) = v !! (A, id)) →
  follows v' (after [] E).
Proof. intros HF Hv id. unfold after. simpl. rewrite Hv, <-HF. by destruct (E id). Qed.

Lemma shown_traded e c w : shown c = Some w →
  shown (traded e c) = touch (tp_remaining_quantity e) (Some w).
Proof.
  intros (Hl & Hw & Hx)%shown_inv. unfold traded, touch, shown. simpl.
  destruct (Z.eqb_spec (tp_remaining_quantity e) 0); [done|]. simpl. rewrite Hx. simpl. by rewrite Hw.
Qed.

Lemma evolve_other m x id c : mentions m = [x] → id ≠ x → evolve m id c = c.
Proof. intros Hm H. apply evolve_unmentioned. rewrite Hm. by intros ?%list_elem_of_singleton. Qed.

Lemma leg_shown leg e sd q v E : follows v E → leg_ok mine leg sd (te_instrument_id e) q v →
  follows (take leg v) (after (to_me (trade_report leg e).1 (trade_report leg e).2) E).
Proof.
  intros HF Hleg. unfold to_me. cbn. case_decide as Ea.
  - destruct (Hleg Ea) as (w & Hw & _). destruct leg as [a c x r]; cbn in *. subst a.
    unfold leg_key in *. cbn in *. apply (follows_at v _ _ _ c).
    + done.
    + intros id o Hne. by apply (evolve_other _ c).
    + intros id Hne. apply lookup_partial_alter_ne. congruence.
    + destruct (follows_shown v E c w HF Hw) as (o & -> & Ho). rewrite lookup_partial_alter_eq, Hw.
      simpl. rewrite Z.eqb_refl. by apply shown_traded.
  - apply (follows_elsewhere v); [done|]. intros id. apply (take_other leg v). unfold leg_key. congruence.
Qed.

Lemma leg_money leg e sd q v E l p : follows v E → leg_ok mine leg sd (te_instrument_id e) q v →
  q = te_quantity e → same_totals A l p →
  same_totals A (Ledger.settle_leg leg sd (te_instrument_id e) (te_price e) q l)
    (PositionTracker.apply_all
       (fills_in A E (to_me (trade_report leg e).1 (trade_report leg e).2)) p).
Proof.
  intros HF Hleg -> HT. unfold Ledger.settle_leg, to_me. cbn. case_decide as Ea.
  - destruct (Hleg Ea) as (w & Hw & Hs & _). destruct leg as [a c x r]; cbn in *. subst a.
    destruct (follows_shown v E c w HF Hw) as (o & Eo & (_ & Ho & _)%shown_inv).
    unfold fills_in. cbn. rewrite Eo. cbn. apply fill_settles; try done.
    + eapply same_totals_ledger; [apply totals_settle_hold|done].
    + cbn. rewrite <-Hs. by rewrite Ho.
  - eapply same_totals_ledger; [|exact HT]. unfold Ledger.settle_totals, totals at 1.
    rewrite !Ledger.balances_update, decide_False by (intros ?; by apply Ea). apply totals_settle_hold.
Qed.

(** ** The reports of an event, by kind *)

Lemma reports_accepted e : reports A [EvAccepted e] =
  to_me (accepted_key e) (MsgAccepted (mkAccepted (oa_account_id e) (oa_client_order_id e)
    (oa_exchange_order_id e) (oa_instrument_id e) (oa_side e) (oa_price e) (oa_quantity e) (oa_order_type e)
    (oa_time_in_force e))).
Proof. by apply reports_one. Qed.

Lemma reports_rejected e : reports A [EvRejected e] =
  to_me (orj_account_id e, orj_client_order_id e)
    (MsgRejected (mkRejected (orj_account_id e) (orj_client_order_id e) (orj_instrument_id e) (orj_reason e))).
Proof. by apply reports_one. Qed.

Lemma reports_cancelled e : reports A [EvCancelled e] =
  to_me (oc_account_id e, oc_client_order_id e)
    (MsgCancelled (mkCancelled (oc_account_id e) (oc_client_order_id e) (oc_exchange_order_id e)
       (oc_instrument_id e))).
Proof. by apply reports_one. Qed.

Lemma reports_replaced e : reports A [EvReplaced e] =
  to_me (original_key e) (MsgReplaced (mkReplaced (orp_account_id e) (orp_original_client_order_id e)
    (orp_new_client_order_id e) (orp_exchange_order_id e) (orp_instrument_id e) (orp_new_price e)
    (orp_new_quantity e))).
Proof. by apply reports_one. Qed.

Lemma follows_accepted c e v E : follows v E → answers c (EvAccepted e) → ready c E →
  follows (track (EvAccepted e) v) (after (reports A [EvAccepted e]) E).
Proof.
  intros HF Ha Hr. rewrite reports_accepted. unfold to_me. case_decide as Ea; cbn in Ea.
  - apply (follows_at v _ _ _ (oa_client_order_id e)); [done| | |].
    + intros id o. by apply evolve_other.
    + intros id Hne. apply lookup_insert_ne. unfold accepted_key. congruence.
    + destruct c as [c|c|c]; try done. destruct Ha as ([= Ha Hc] & Hi & Hs & Hp & Hq & Ht).
      rewrite Ea in Ha. destruct (Hr (eq_sym Ha)) as (o & Ho & [= Ei Es Et] & Ep). rewrite <-Hc in Ho.
      rewrite Ho. simpl. rewrite Z.eqb_refl. unfold accepted_key. rewrite Ea, lookup_insert_eq.
      unfold shown. simpl. unfold accepted_order. by rewrite Ei, Es, Et, Ep, Hi, Hs, Hp, Ht.
  - apply (follows_elsewhere v); [done|]. intros id. apply lookup_insert_ne. unfold accepted_key. congruence.
Qed.

Lemma follows_rejected e v E : follows v E →
  follows (track (EvRejected e) v) (after (reports A [EvRejected e]) E).
Proof.
  intros HF. rewrite reports_rejected. unfold to_me. case_decide as Ea; cbn in Ea.
  - apply (follows_at v _ _ _ (orj_client_order_id e)); [done| |done|].
    + intros id o. by apply evolve_other.
    + cbn [track]. rewrite <-HF. destruct (E (orj_client_order_id e)) as [o|]; [|done]. simpl. rewrite Z.eqb_refl.
      unfold rejected. destruct (bool_decide_reflect (cl_state o = ClientOrderState.PendingNew)) as [Hs|]; [|done].
      unfold shown. simpl. by rewrite Hs.
  - by apply (follows_elsewhere v).
Qed.

Lemma follows_cancelled e v E : follows v E →
  follows (track (EvCancelled e) v) (after (reports A [EvCancelled e]) E).
Proof.
  intros HF. rewrite reports_cancelled. unfold to_me. case_decide as Ea; cbn in Ea.
  - apply (follows_at v _ _ _ (oc_client_order_id e)); [done| | |].
    + intros id o. by apply evolve_other.
    + intros id Hne. apply lookup_delete_ne. congruence.
    + cbn [track]. rewrite Ea, lookup_delete_eq. destruct (E _) as [o|]; [|done]. simpl. by rewrite Z.eqb_refl.
  - apply (follows_elsewhere v); [done|]. intros id. apply lookup_delete_ne. congruence.
Qed.

Lemma track_replaced_other e v id : orp_account_id e ≠ A →
  track (EvReplaced e) v !! (A, id) = v !! (A, id).
Proof.
  intros Ha. simpl. destruct (v !! original_key e); [|done]. unfold renamed_key, original_key.
  rewrite lookup_insert_ne, lookup_delete_ne by congruence. done.
Qed.

Lemma shown_replacement e c w : statics c = (orp_instrument_id e, op_side w, op_time_in_force w) →
  shown (replacement (mkReplaced (orp_account_id e) (orp_original_client_order_id e)
    (orp_new_client_order_id e) (orp_exchange_order_id e) (orp_instrument_id e) (orp_new_price e)
    (orp_new_quantity e)) c) = Some (renamed_order e w).
Proof. intros [= Ei Es Et]. unfold shown, renamed_order. simpl. by rewrite Ei, Es, Et. Qed.

Lemma follows_replaced c e v E : follows v E → coherent mine (EvReplaced e) v →
  answers c (EvReplaced e) → ready c E →
  follows (track (EvReplaced e) v) (after (reports A [EvReplaced e]) E).
Proof.
  intros HF Hco Ha Hr. rewrite reports_replaced. unfold to_me. case_decide as Ea; cbn in Ea.
  2: { apply (follows_elsewhere v); [done|]. intros id. by apply track_replaced_other. }
  destruct (Hco Ea) as ((w & Hw & _ & Hi) & _ & _). destruct c as [c|c|c]; try done.
  destruct Ha as ([= Ha Ho] & [= _ Hn] & _). rewrite Ea in Ha.
  destruct (Hr (eq_sym Ha)) as (o & o' & Eo & Eo' & Hst). rewrite <-Ho in Eo. rewrite <-Hn in Eo'.
  cbn [track]. rewrite Hw. unfold original_key, renamed_key in *. rewrite Ea in *.
  destruct (follows_shown v E _ w HF Hw) as (o1 & Eo1 & (_ & Hsh & _)%shown_inv).
  rewrite Eo in Eo1. injection Eo1 as <-.
  intros id. unfold after, evolve_all. simpl. destruct (Z.eqb_spec (orp_new_client_order_id e) id) as [<-|Hne].
  - rewrite lookup_insert_eq, Eo'. cbn [fmap option_fmap option_map mbind option_bind]. rewrite <-Ea.
    apply shown_replacement. transitivity (statics o'); [by case_bool|]. rewrite <-Hst, <-Hi, Hsh. done.
  - rewrite lookup_insert_ne by congruence. destruct (Z.eqb_spec (orp_original_client_order_id e) id) as [<-|Hno].
    + by rewrite lookup_delete_eq, Eo.
    + rewrite lookup_delete_ne by congruence. rewrite <-HF. by destruct (E id).
Qed.

Lemma follows_trade e v E : follows v E → coherent mine (EvTrade e) v →
  follows (track (EvTrade e) v) (after (reports A [EvTrade e]) E).
Proof.
  intros HF [Hb Hs]. rewrite reports_trade. intros id. rewrite after_app. revert id.
  eapply leg_shown; [|exact Hs]. by eapply leg_shown.
Qed.

Lemma event_follows c ev v E : follows v E → coherent mine ev v → answers c ev → ready c E →
  follows (track ev v) (after (reports A [ev]) E).
Proof.
  intros HF Hco Ha Hr. destruct ev as [e|e|e|e|e|e|e|e].
  - by apply (follows_accepted c).
  - by apply follows_rejected.
  - by apply follows_cancelled.
  - by apply (follows_replaced c).
  - by apply follows_trade.
  - by apply (follows_elsewhere v).
  - by apply (follows_elsewhere v).
  - by apply (follows_elsewhere v).
Qed.

Lemma event_money c ev v E l p : follows v E → coherent mine ev v → answers c ev → same_totals A l p →
  same_totals A (Ledger.apply ev l) (PositionTracker.apply_all (fills_in A E (reports A [ev])) p).
Proof.
  intros HF Hco Ha HT. destruct ev as [e|e|e|e|e|e|e|e]; try exact HT.
  - rewrite reports_accepted. eapply same_totals_ledger.
    + simpl. unfold Ledger.on_order_accepted. case_bool; [done|]. apply totals_open_hold.
    + unfold to_me. by case_decide.
  - rewrite reports_rejected. unfold to_me. by case_decide.
  - rewrite reports_cancelled. eapply same_totals_ledger.
    + simpl. unfold Ledger.on_order_cancelled. destruct (_ !! _); [|done]. apply totals_release.
    + unfold to_me. by case_decide.
  - rewrite reports_replaced. eapply same_totals_ledger.
    + simpl. unfold Ledger.on_order_replaced. destruct (_ !! _); [|done]. rewrite totals_open_hold. apply totals_release.
    + unfold to_me. by case_decide.
  - destruct Hco as [Hb Hs]. rewrite reports_trade. unfold fills_in. rewrite bind_app.
    unfold PositionTracker.apply_all. rewrite foldl_app. simpl. unfold Ledger.on_trade_executed.
    pose proof (leg_shown _ _ _ _ _ _ HF Hb) as HF'.
    pose proof (leg_money _ _ _ _ _ _ _ _ HF Hb eq_refl HT) as HT'.
    pose proof (leg_money _ _ _ _ _ _ _ _ HF' Hs eq_refl HT') as HT2.
    by rewrite fills_in_after in HT2.
Qed.

(** ** The events of a command *)

Definition command_ids (c : ExchangeCommand) : list ClientOrderId :=
  match c with
  | CmdNew c => [no_client_order_id c]
  | CmdCancel c => [co_client_order_id c]
  | CmdReplace c => [ro_original_client_order_id c; ro_new_client_order_id c]
  end.

Definition named (c : ExchangeCommand) (id : ClientOrderId) : Prop :=
  command_account c = A ∧ id ∈ command_ids c.

Lemma follows_ext v E E' : (∀ id, E id = E' id) → follows v E → follows v E'.
Proof. intros HE HF id. by rewrite <-HE. Qed.

Lemma after_price ms E id : Forall (λ m, ∀ e, m ≠ MsgReplaced e) ms → cl_price <$> after ms E id = cl_price <$> E id.
Proof.
  intros H. unfold after. destruct (E id) as [c|]; [|done]. simpl. f_equal. revert c.
  induction H as [|m ms Hm _ IH]; intros c; [done|]. simpl. by rewrite IH, evolve_price.
Qed.

Lemma after_statics ms E id : statics <$> after ms E id = statics <$> E id.
Proof. unfold after. destruct (E id); [|done]. simpl. by rewrite evolve_all_statics. Qed.

Lemma to_me_forall k m (Q : Message → Prop) : Q m → Forall Q (to_me k m).
Proof. intros H. unfold to_me. case_decide; by repeat constructor. Qed.

Lemma new_not_replaced c ev : answers (CmdNew c) ev → Forall (λ m, ∀ e, m ≠ MsgReplaced e) (reports A [ev]).
Proof.
  intros Ha. destruct ev as [e|e|e|e|e|e|e|e]; try done.
  - rewrite reports_accepted. by apply to_me_forall.
  - rewrite reports_rejected. by apply to_me_forall.
  - rewrite reports_trade. apply Forall_app. split; by apply to_me_forall.
Qed.

Lemma ready_after c ev E : answers c ev → ready c E → ready c (after (reports A [ev]) E).
Proof.
  intros Ha Hr. destruct c as [c|c|c]; [|done|]; intros HA.
  - destruct (Hr HA) as (o & Ho & Hs & Hp). pose proof (after_statics (reports A [ev]) E (no_client_order_id c)) as Hs'.
    pose proof (after_price _ E (no_client_order_id c) (new_not_replaced _ _ Ha)) as Hp'. rewrite Ho in Hs', Hp'.
    apply fmap_Some in Hs' as (o' & Ho' & Es). rewrite Ho' in Hp' |- *. exists o'. simpl in Hp'. split; [done|].
    injection Hp' as Hp'. by rewrite <-Es, Hp'.
  - destruct (Hr HA) as (o & o' & Ho & Ho' & Hs). pose proof (after_statics (reports A [ev]) E) as Hst.
    pose proof (Hst (ro_original_client_order_id c)) as H1. pose proof (Hst (ro_new_client_order_id c)) as H2.
    rewrite Ho in H1. rewrite Ho' in H2. apply fmap_Some in H1 as (x & -> & E1). apply fmap_Some in H2 as (y & -> & E2).
    exists x, y. split; [done|]. split; [done|]. by rewrite <-E1, <-E2.
Qed.

Lemma elem_of_to_me k m id : id ∈ to_me k m ≫= mentions → k.1 = A ∧ id ∈ mentions m.
Proof.
  unfold to_me. case_decide; [|by intros ?%not_elem_of_nil]. cbn. rewrite app_nil_r. done.
Qed.

Lemma event_mentions c ev v id : coherent mine ev v → answers c ev → id ∈ reports A [ev] ≫= mentions →
  is_Some (v !! (A, id)) ∨ named c id.
Proof.
  intros Hco Ha Hid. destruct ev as [e|e|e|e|e|e|e|e]; try (by apply not_elem_of_nil in Hid).
  - rewrite reports_accepted in Hid. apply elem_of_to_me in Hid as [Hk ->%list_elem_of_singleton]. right.
    destruct c as [c|c|c]; try done. destruct Ha as [[= Ha ->] _]. cbn in Hk. split; [by rewrite Ha in Hk|by left].
  - rewrite reports_rejected in Hid. apply elem_of_to_me in Hid as [Hk ->%list_elem_of_singleton]. right.
    destruct c; injection Ha as Ha ->; cbn in Hk; (split; [by rewrite Ha in Hk|by left]).
  - rewrite reports_cancelled in Hid. apply elem_of_to_me in Hid as [Hk ->%list_elem_of_singleton]. right.
    destruct c as [c|c|c]; try done. injection Ha as Ha ->. cbn in Hk. split; [by rewrite Ha in Hk|by left].
  - rewrite reports_replaced in Hid. apply elem_of_to_me in Hid as [Hk Hid]. right.
    destruct c as [c|c|c]; try done. destruct Ha as ([= Ha Ho] & [= _ Hn] & _). cbn in Hk, Hid.
    rewrite Ho, Hn in Hid. split; [by rewrite Ha in Hk|done].
  - rewrite reports_trade, bind_app, elem_of_app in Hid. destruct Hco as [Hb Hs].
    destruct Hid as [[Hk Hid]%elem_of_to_me|[Hk Hid]%elem_of_to_me]; apply list_elem_of_singleton in Hid as ->; left;
      cbn in Hk |- *; unfold leg_ok, leg_key in *.
    + destruct (Hb Hk) as (w & Hw & _). rewrite Hk in Hw. eauto.
    + destruct (Hs Hk) as (w & Hw & _). rewrite Hk, take_lookup in Hw. unfold touch in Hw.
      case_decide; [case_bool; [done|]|by eauto]. by apply fmap_Some in Hw as (x & -> & _).
Qed.

Lemma introduced_named c id : introduced c = Some (A, id) → named c id.
Proof.
  destruct c as [c|c|c]; simpl; [|done|].
  - intros [= HA <-]. split; [done|by left].
  - case_bool; [done|]. intros [= HA <-]. split; [done|by right; left].
Qed.

Lemma after_nil E id : after [] E id = E id.
Proof. unfold after. by destruct (E id). Qed.

(** All of a command's reports: they lead the trader's orders to the view of its events
    and the trader's positions to the ledger's totals, and name no order but those of
    the view and of the command. *)
Lemma command_reported c evs : ∀ v E l p, follows v E → coherent_all mine evs v → Forall (answers c) evs →
  ready c E → same_totals A l p →
  follows (track_all evs v) (after (reports A evs) E) ∧
  same_totals A (Ledger.apply_all evs l) (PositionTracker.apply_all (fills_in A E (reports A evs)) p) ∧
  ∀ id, id ∈ reports A evs ≫= mentions → is_Some (v !! (A, id)) ∨ named c id.
Proof.
  induction evs as [|ev evs IH]; intros v E l p HF Hco Ha Hr HT.
  { split; [|split; [exact HT|by intros id ?%not_elem_of_nil]].
    eapply follows_ext; [|exact HF]. intros id. by rewrite after_nil. }
  apply Forall_cons in Ha as [Ha Has]. destruct Hco as [Hco Hcos].
  pose proof (event_follows c ev v E HF Hco Ha Hr) as HF1.
  pose proof (event_money c ev v E l p HF Hco Ha HT) as HT1.
  destruct (IH _ _ _ _ HF1 Hcos Has (ready_after c ev E Ha Hr) HT1) as (HF2 & HT2 & Hm).
  rewrite reports_cons. split; [|split].
  - eapply follows_ext; [|exact HF2]. intros id. by rewrite after_app.
  - rewrite fills_in_after in HT2. rewrite fills_in_app. unfold PositionTracker.apply_all in *.
    by rewrite foldl_app.
  - intros id. rewrite bind_app, elem_of_app. intros [Hid|Hid]; [by eapply event_mentions|].
    destruct (Hm id Hid) as [Hv|Hn]; [|by right].
    destruct (track_keys v c ev (A, id) Ha Hv) as [?|Hi]; [by left|right; by apply introduced_named].
Qed.
End account.

End SessionViews.
