(* ===== verification/SessionProps.v ===== *)
(** * The trader's view is the exchange's

    The invariant of a trading session, under any interleaving of the trader's threads
    with the exchange: what is on its way to the trader leads its orders and its
    positions to what the exchange has. *)

From S2P Require Import Prelude Types SideIndex MatchingBook BookSpec BookQueue BookRefinement MatchingEngine EngineRefinement.
From S2P Require Import EngineMatching EngineInvariant EngineTotal EngineStart EngineProps.
From S2P Require Import Ledger Risk RiskGated Pipeline OrderEntryCodec Gateway Reports OpenOrders ReportProps.
From S2P Require Import Oms Positions TradingSession SessionViews.

Module SessionProps.
Import BookRefinement EngineRefinement EngineMatching EngineInvariant EngineTotal EngineStart EngineProps.
Import OrderEntryCodec OrderEntryGateway OrderManagementSystem TraderRiskGatedOms.
Import Reports OpenOrders ReportProps TradingSession SessionViews.

Abbreviation eng := EngineMatching.eng.

Definition price_ok (price : Price) (quantity : Quantity) : Prop :=
  price < 2 ^ 63 - 2 ^ 18 ∧ 0 ≤ quantity < 2 ^ 64.

Definition intent_ok (i : Intent) : Prop := price_ok (in_price i) (in_quantity i).

(** ** Requests *)

(** The order a request introduces, and the one it is about. *)
Definition intro (m : Message) : list ClientOrderId :=
  match m with
  | MsgNewOrder m => [nw_client_order_id m]
  | MsgReplaceOrder m => [rp_new_client_order_id m]
  | _ => []
  end.

Definition refs (m : Message) : list ClientOrderId :=
  match m with
  | MsgCancelOrder m => [cn_client_order_id m]
  | MsgReplaceOrder m => [rp_original_client_order_id m]
  | _ => []
  end.

Definition ord (r : TraderRiskGatedOms.t) : client_orders := λ id, orders_ (oms_ r) !! id.

Definition pending (w : t) : list Message := outbox w ++ up w.

(** The trader's orders once what is on its way has arrived. *)
Definition seen (w : t) : client_orders := after (down w) (ord (trader w)).

Definition next_id (w : t) : ClientOrderId := next_client_order_id_ (oms_ (trader w)).

Section account.
Context (A : AccountId).

(** Orders [dead] wait for an answer that will not come: pending, with nothing on its way
    that is about them. *)
Context (dead : list ClientOrderId).

Definition request (E : client_orders) (m : Message) : Prop :=
  ∃ c, to_command m = Some c ∧ command_account c = A ∧ command_ok c ∧ ready A c E.

Definition settled (w : t) : PositionTracker.t :=
  PositionTracker.apply_all (unsettled w ++ fills_in A (ord (trader w)) (down w)) (positions_ (trader w)).

Definition is_dead (w : t) (v : view) (id : ClientOrderId) : Prop :=
  v !! (A, id) = None ∧ id ∉ down w ≫= mentions ∧ (∀ m, m ∈ pending w → id ∉ refs m ++ intro m) ∧
  ∃ c, ord (trader w) id = Some c ∧ cl_state c = ClientOrderState.PendingNew.

Record inv (k : Z) (w : t) (f : eng) (v : view) : Prop := {
  in_account : TraderRiskGatedOms.account_id_ (trader w) = A ∧
    OrderManagementSystem.account_id_ (oms_ (trader w)) = A;
  in_exchange : exchange_view (mine A) k (exchange w) f v;
  in_shown : follows A v (seen w);
  in_pending : ∀ m, m ∈ pending w → request (seen w) m;
  in_fresh : ∀ m id, m ∈ pending w → id ∈ intro m → v !! (A, id) = None ∧ id ∉ down w ≫= mentions ∧
    ∀ c, ord (trader w) id = Some c → is_live (cl_state c) = false;
  in_refs : ∀ m m' id, m ∈ pending w → m' ∈ pending w → id ∈ refs m → id ∉ intro m';
  in_nodup : NoDup (pending w ≫= intro);
  in_keys : ∀ id, is_Some (ord (trader w) id) → id < next_id w;
  in_mentions : ∀ id, id ∈ down w ≫= mentions → id < next_id w;
  in_ids : ∀ m id, m ∈ pending w → id ∈ refs m ++ intro m → id < next_id w;
  in_next : 1 ≤ next_id w ≤ k + 1;
  in_cleared : Forall intent_ok (cleared w);
  in_money : same_totals A (RiskGatedEngine.ledger_ (exchange w)) (settled w);
  in_dead : ∀ id, id ∈ dead → is_dead w v id;
}.

(** ** Lemmas *)

Lemma exchange_mono k k' g f v : exchange_view (mine A) k g f v → k ≤ k' → exchange_view (mine A) k' g f v.
Proof. intros [[HE HI] HM] Hk. split; [split; [done|by eapply inv_mono]|done]. Qed.

Lemma request_ids m c id : to_command m = Some c → id ∈ command_ids c ↔ id ∈ refs m ++ intro m.
Proof. destruct m; try done; by intros [= <-]. Qed.

Lemma introduced_intro m c id : to_command m = Some c → introduced c = Some (A, id) → id ∈ intro m.
Proof.
  destruct m; try done; intros [= <-]; simpl; [intros [= _ <-]; by left|done|].
  case_bool; [done|]. intros [= _ <-]. by left.
Qed.

(** [ready] looks at the orders of the command, up to what is shown of them. *)
Lemma ready_core c E E' : (∀ id, id ∈ command_ids c → core <$> E id = core <$> E' id) →
  ready A c E → ready A c E'.
Proof.
  intros HE Hr. destruct c as [c|c|c]; [|done|]; intros HA.
  - destruct (Hr HA) as (o & Ho & Hs & Hp). specialize (HE (no_client_order_id c)). rewrite Ho in HE.
    destruct (E' _) as [o'|]; [|by discriminate HE; left]. exists o'. split; [done|].
    assert (core o = core o') as Hc by (assert (Some (core o) = Some (core o')) as Hx by (apply HE; by left); congruence).
    unfold core in Hc. split; congruence.
  - destruct (Hr HA) as (o1 & o2 & H1 & H2 & Hs).
    pose proof (HE (ro_original_client_order_id c)) as HE1. pose proof (HE (ro_new_client_order_id c)) as HE2.
    rewrite H1 in HE1. rewrite H2 in HE2.
    assert (Some (core o1) = core <$> E' (ro_original_client_order_id c)) as C1 by (apply HE1; by left).
    assert (Some (core o2) = core <$> E' (ro_new_client_order_id c)) as C2 by (apply HE2; by right; left).
    symmetry in C1, C2. apply fmap_Some in C1 as (x & -> & C1). apply fmap_Some in C2 as (y & -> & C2).
    exists x, y. unfold core in *. split; [done|]. split; [done|]. congruence.
Qed.

Lemma after_core ms E E' id : core <$> E id = core <$> E' id → core <$> after ms E id = core <$> after ms E' id.
Proof.
  unfold after. destruct (E id), (E' id); simpl; try done. intros H%(inj Some). f_equal. by apply evolve_all_core.
Qed.

Lemma shown_core_option (x y : option ClientOrder) : core <$> x = core <$> y → x ≫= shown = y ≫= shown.
Proof. destruct x, y; simpl; try done. intros H%(inj Some). by apply shown_core. Qed.

Lemma after_unmentioned ms E id : id ∉ ms ≫= mentions → after ms E id = E id.
Proof. intros H. unfold after. destruct (E id); simpl; [|done]. by rewrite evolve_all_unmentioned. Qed.

Lemma ready_reports c ms E : ready A c E → (∀ n, c = CmdNew n → no_client_order_id n ∉ ms ≫= mentions) →
  ready A c (after ms E).
Proof.
  intros Hr Hn. destruct c as [c|c|c]; [|done|]; intros HA.
  - destruct (Hr HA) as (o & Ho & H). exists o. by rewrite after_unmentioned by by apply Hn.
  - destruct (Hr HA) as (o & o' & Ho & Ho' & Hs). exists (evolve_all ms (ro_original_client_order_id c) o),
      (evolve_all ms (ro_new_client_order_id c) o'). unfold after. rewrite Ho, Ho'.
    by rewrite !evolve_all_statics.
Qed.

(** ** A critical section of the trader *)

(** What order management may do to the orders: nothing that shows, or anything to an
    order that no request, no report and no book knows, and that is not shown. *)
Definition edited (w w' : t) (v : view) (id : ClientOrderId) : Prop :=
  core <$> ord (trader w') id = core <$> ord (trader w) id ∨
  (id ∉ down w ≫= mentions ∧ v !! (A, id) = None ∧ (∀ m, m ∈ pending w' → id ∉ refs m ++ intro m) ∧
   ord (trader w') id ≫= shown = None ∧ id < next_id w' ∧ id ∉ dead).

Record edits (w w' : t) (v : view) : Prop := {
  ed_exchange : exchange w' = exchange w;
  ed_down : down w' = down w;
  ed_unsettled : unsettled w' = unsettled w;
  ed_positions : positions_ (trader w') = positions_ (trader w);
  ed_account : TraderRiskGatedOms.account_id_ (trader w') = TraderRiskGatedOms.account_id_ (trader w) ∧
    OrderManagementSystem.account_id_ (oms_ (trader w')) = OrderManagementSystem.account_id_ (oms_ (trader w));
  ed_pending : pending w' ⊆+ pending w;
  ed_cleared : Forall intent_ok (cleared w');
  ed_orders : ∀ id, edited w w' v id;
}.

Lemma edited_core w w' v m id : edited w w' v id → m ∈ pending w' → id ∈ refs m ++ intro m →
  core <$> ord (trader w') id = core <$> ord (trader w) id.
Proof. intros [?|(_ & _ & Hm & _)] Hin Hid; [done|]. by destruct (Hm m Hin). Qed.

Lemma edited_mentioned w w' v id : edited w w' v id → id ∈ down w ≫= mentions →
  core <$> ord (trader w') id = core <$> ord (trader w) id.
Proof. by intros [?|(Hm & _)] ?. Qed.

Lemma core_side (x y : option ClientOrder) : core <$> x = core <$> y → cl_side <$> x = cl_side <$> y.
Proof. destruct x, y; simpl; try done. unfold core, statics. intros [=]. congruence. Qed.

Lemma inv_edit k w f v k' w' : inv k w f v → edits w w' v → k ≤ k' → next_id w ≤ next_id w' ≤ k' + 1 →
  inv k' w' f v.
Proof.
  intros HI [He Hd Hu Hpos Hacc Hpen Hcl Hord] Hk Hnext.
  pose proof (λ m Hm, elem_of_submseteq _ _ m Hm Hpen) as Hin.
  split.
  - destruct Hacc as [-> ->]. apply (in_account _ _ _ _ HI).
  - rewrite He. eapply exchange_mono; [by eapply in_exchange|done].
  - intros id. unfold seen. rewrite Hd. destruct (Hord id) as [Hc|(Hm & Hv & _ & Hs & _)].
    + rewrite (shown_core_option _ _ (after_core _ _ _ _ Hc)). apply (in_shown _ _ _ _ HI).
    + by rewrite after_unmentioned, Hv.
  - intros m Hm. destruct (in_pending _ _ _ _ HI m (Hin m Hm)) as (c & Hc & Ha & Hok & Hr).
    exists c. split; [done|]. split; [done|]. split; [done|]. eapply ready_core; [|exact Hr].
    intros id Hid. unfold seen. rewrite Hd. symmetry. apply after_core.
    eapply edited_core; [by apply Hord|done|by apply (request_ids m c)].
  - intros m id Hm Hid. rewrite Hd. destruct (in_fresh _ _ _ _ HI m id (Hin m Hm) Hid) as (Hv & Hmn & Hl).
    split; [done|]. split; [done|]. intros c Hc.
    pose proof (edited_core _ _ _ m id (Hord id) Hm) as Hco. rewrite Hc in Hco.
    destruct (ord (trader w) id) as [c0|] eqn:E0.
    + assert (core c = core c0) as Hcc by (apply (inj Some), Hco, elem_of_app; by right).
      assert (cl_state c = cl_state c0) as -> by (unfold core in Hcc; congruence). by apply Hl.
    + discriminate Hco. apply elem_of_app. by right.
  - intros m m' id Hm Hm'. apply (in_refs _ _ _ _ HI); by apply Hin.
  - destruct (submseteq_Permutation _ _ Hpen) as [rest Hrest]. pose proof (in_nodup _ _ _ _ HI) as Hnd.
    rewrite Hrest, bind_app in Hnd. by apply NoDup_app in Hnd as [? _].
  - intros id Hs. destruct (Hord id) as [Hc|(_ & _ & _ & _ & ? & _)]; [|done].
    assert (is_Some (ord (trader w) id)) as Hs' by by rewrite <-(fmap_is_Some core), <-Hc, fmap_is_Some.
    pose proof (in_keys _ _ _ _ HI id Hs'). lia.
  - intros id Hid. rewrite Hd in Hid. pose proof (in_mentions _ _ _ _ HI id Hid). lia.
  - intros m id Hm Hid. pose proof (in_ids _ _ _ _ HI m id (Hin m Hm) Hid). lia.
  - pose proof (in_next _ _ _ _ HI). lia.
  - done.
  - rewrite He. unfold settled. rewrite Hu, Hd, Hpos.
    rewrite (fills_in_sides A (ord (trader w')) (ord (trader w))); [by apply (in_money _ _ _ _ HI)|].
    intros id Hid. apply core_side. by eapply edited_mentioned.
  - intros id Hid. destruct (in_dead _ _ _ _ HI id Hid) as (Hv & Hm & Hp & c & Hc & Hs).
    destruct (Hord id) as [Hco|(_ & _ & _ & _ & _ & ?)]; [|done]. unfold is_dead. rewrite Hd.
    split; [done|]. split; [done|]. split; [by intros m Hm'; apply Hp, Hin|].
    rewrite Hc in Hco. apply fmap_Some in Hco as (c' & Hc' & E). exists c'. split; [done|].
    unfold core in E. congruence.
Qed.

(** A request put in the outbox. *)
Lemma inv_post k w f v m : inv k w f v → request (seen w) m →
  (∀ id, id ∈ intro m → v !! (A, id) = None ∧ id ∉ down w ≫= mentions ∧
     (∀ c, ord (trader w) id = Some c → is_live (cl_state c) = false) ∧ id ∉ refs m ∧
     ∀ m', m' ∈ pending w → id ∉ refs m' ++ intro m') →
  (∀ id m', id ∈ refs m → m' ∈ pending w → id ∉ intro m') →
  (∀ id, id ∈ refs m ++ intro m → id < next_id w ∧ id ∉ dead) →
  inv k (with_requests (outbox w ++ [m]) (up w) w) f v.
Proof.
  intros HI Hreq Hin Href Hids.
  assert (pending (with_requests (outbox w ++ [m]) (up w) w) ≡ₚ m :: pending w) as Hp.
  { unfold pending. simpl. rewrite <-app_assoc. simpl. by rewrite Permutation_middle. }
  assert (∀ x, x ∈ pending (with_requests (outbox w ++ [m]) (up w) w) ↔ x = m ∨ x ∈ pending w) as Hel.
  { intros x. rewrite Hp. apply elem_of_cons. }
  split; try apply HI.
  - intros x [->|Hx]%Hel; [done|]. by apply (in_pending _ _ _ _ HI).
  - intros x id [->|Hx]%Hel Hid; [by destruct (Hin id Hid) as (? & ? & ? & _)|]. by apply (in_fresh _ _ _ _ HI x).
  - intros x y id [->|Hx]%Hel [->|Hy]%Hel Hid Hid'.
    + by destruct (Hin id Hid') as (_ & _ & _ & ? & _).
    + by apply (Href id y).
    + destruct (Hin id Hid') as (_ & _ & _ & _ & H). apply (H x Hx), elem_of_app. by left.
    + by apply (in_refs _ _ _ _ HI x y id).
  - rewrite Hp. cbn. apply NoDup_app. split; [destruct m; simpl; try apply NoDup_nil_2; apply NoDup_singleton|].
    split; [|by apply (in_nodup _ _ _ _ HI)]. intros id Hid (y & Hidy & Hy)%list_elem_of_bind.
    destruct (Hin id Hid) as (_ & _ & _ & _ & H). apply (H y Hy), elem_of_app. by right.
  - intros x id [->|Hx]%Hel Hid; [by apply Hids|]. by apply (in_ids _ _ _ _ HI x).
  - intros id Hid. destruct (in_dead _ _ _ _ HI id Hid) as (Hv & Hm & Hp' & Hc).
    split; [done|]. split; [done|]. split; [|done]. intros x [->|Hx]%Hel; [|by apply Hp'].
    intros Hx. by destruct (Hids id Hx).
Qed.

(** ** A command matched *)

Lemma with_sequence_same n c :
  command_account (MatchingPipeline.with_sequence n c) = command_account c ∧
  command_ids (MatchingPipeline.with_sequence n c) = command_ids c ∧
  introduced (MatchingPipeline.with_sequence n c) = introduced c ∧
  (command_ok c → command_ok (MatchingPipeline.with_sequence n c)) ∧
  ∀ E, ready A c E → ready A (MatchingPipeline.with_sequence n c) E.
Proof. by destruct c. Qed.

Lemma free_replacement k g f v c : exchange_view (mine A) k g f v →
  (∀ id, introduced c = Some (A, id) → v !! (A, id) = None) → replacement_free (mine A) c f.
Proof.
  intros HX Hv. destruct c as [c|c|c]; try done. simpl in *. unfold new_key, old_key.
  destruct (Z.eqb_spec (ro_new_client_order_id c) (ro_original_client_order_id c)) as [E|E]; [left; by rewrite E|].
  right. unfold mine. intros HA. apply eq_None_not_Some. intros Hs.
  destruct (live_view (mine A) k g f v (ro_account_id c, ro_new_client_order_id c) HX HA Hs) as [w Hw]. rewrite HA in Hw, Hv.
  by rewrite (Hv _ eq_refl) in Hw.
Qed.

Lemma key_known k w f v id : inv k w f v → is_Some (v !! (A, id)) → id < next_id w.
Proof.
  intros HI [x Hx]. apply (in_keys _ _ _ _ HI). rewrite <-(in_shown _ _ _ _ HI) in Hx. unfold seen, after in Hx.
  by destruct (ord (trader w) id).
Qed.

Lemma inv_submit k w f v c : inv k w f v → k < MatchingBook.kNil → command_ok c → ready A c (seen w) →
  (∀ id, introduced c = Some (A, id) → v !! (A, id) = None) →
  (∀ id, named A c id → id < next_id w ∧ id ∉ dead ∧ ∀ m, m ∈ pending w → id ∉ intro m) →
  ∃ w' f' v', submit c w = Some w' ∧ inv (k + 1) w' f' v'.
Proof.
  intros HI Hk Hok Hr Hnew Hnamed. unfold submit, MatchingPipeline.sequence.
  destruct (with_sequence_same (next_sequence_ w) c) as (Eacc & Eids & Eint & Hok' & Hr').
  set (cmd := MatchingPipeline.with_sequence (next_sequence_ w) c) in *.
  rewrite <-Eint in Hnew. assert (∀ id, named A cmd id → named A c id) as Hn by (unfold named; by rewrite Eacc, Eids).
  destruct (exchange_step (mine A) k (exchange w) f v cmd (in_exchange _ _ _ _ HI) Hk (Hok' Hok))
    as (g' & f' & evs & -> & Ha & Hco & HX & El).
  { eapply free_replacement; [by eapply in_exchange|done]. }
  destruct (command_reported A cmd evs v (seen w) _ _ (in_shown _ _ _ _ HI) Hco Ha (Hr' _ Hr) (in_money _ _ _ _ HI))
    as (HF & HT & Hm).
  assert (account w = A) as Eaw by apply (in_account _ _ _ _ HI).
  cbn [mbind option_bind]. rewrite Eaw. eexists _, f', (track_all evs v). split; [done|].
  set (R := reports A evs) in *.
  assert (∀ m id, m ∈ pending w → id ∈ intro m → id ∉ R ≫= mentions) as Hquiet.
  { intros m id Hin Hid Hmn. destruct (in_fresh _ _ _ _ HI m id Hin Hid) as [Hv _].
    destruct (Hm id Hmn) as [[x Hx]|Hna]; [by rewrite Hv in Hx|]. by apply (proj2 (proj2 (Hnamed id (Hn id Hna))) m). }
  assert (∀ id, id ∈ (down w ++ R) ≫= mentions ↔ id ∈ down w ≫= mentions ∨ id ∈ R ≫= mentions) as Hdown.
  { intros id. by rewrite bind_app, elem_of_app. }
  split; try apply HI.
  - done.
  - eapply follows_ext; [|exact HF]. intros id. symmetry. apply after_app.
  - intros m Hin. destruct (in_pending _ _ _ _ HI m Hin) as (cm & Hcm & Hacm & Hokm & Hrm).
    exists cm. split; [done|]. split; [done|]. split; [done|].
    assert (ready A cm (after R (seen w))) as Hrm'.
    { apply ready_reports; [done|]. intros n ->. apply (Hquiet m); [done|]. destruct m; try done.
      injection Hcm as <-. by left. }
    eapply ready_core; [|exact Hrm']. intros id _. f_equal. symmetry. apply after_app.
  - intros m id Hin Hid. destruct (in_fresh _ _ _ _ HI m id Hin Hid) as (Hv & Hmn & Hl). split.
    + apply eq_None_not_Some. intros Hs.
      destruct (track_all_keys (A, id) cmd evs v Ha Hs) as [[x Hx]|Hi]; [by rewrite Hv in Hx|].
      by apply (proj2 (proj2 (Hnamed id (Hn id (introduced_named A cmd id Hi)))) m).
    + split; [|done]. rewrite Hdown. intros [?|?]; [done|]. by eapply Hquiet.
  - intros id [Hid|Hid]%Hdown; [by apply (in_mentions _ _ _ _ HI)|].
    destruct (Hm id Hid) as [Hv|Hna]; [by apply (key_known _ _ _ _ _ HI Hv)|].
    by apply (Hnamed id (Hn id Hna)).
  - pose proof (in_next _ _ _ _ HI). change (1 ≤ next_id w ≤ k + 1 + 1). lia.
  - cbn [exchange]. rewrite El. change (settled _) with (PositionTracker.apply_all
      (unsettled w ++ fills_in A (ord (trader w)) (down w ++ R)) (positions_ (trader w))).
    rewrite fills_in_app, app_assoc. unfold seen in HT. rewrite fills_in_after in HT. unfold settled in HT.
    unfold PositionTracker.apply_all in *. by rewrite foldl_app.
  - intros id Hid. destruct (in_dead _ _ _ _ HI id Hid) as (Hv & Hmn & Hp & Hc). split.
    + apply eq_None_not_Some. intros Hs.
      destruct (track_all_keys (A, id) cmd evs v Ha Hs) as [[x Hx]|Hi]; [by rewrite Hv in Hx|].
      by apply (proj1 (proj2 (Hnamed id (Hn id (introduced_named A cmd id Hi))))).
    + split; [|done]. rewrite Hdown. intros [?|HR]; [done|].
      destruct (Hm id HR) as [[x Hx]|Hna]; [by rewrite Hv in Hx|].
      by apply (proj1 (proj2 (Hnamed id (Hn id Hna)))).
Qed.

(** ** Registering *)

Lemma next_fresh k w f v : inv k w f v → let n := next_id w in
  ord (trader w) n = None ∧ v !! (A, n) = None ∧ n ∉ down w ≫= mentions ∧
  (∀ m, m ∈ pending w → n ∉ refs m ++ intro m) ∧ n ∉ dead.
Proof.
  intros HI n. split_and!.
  - apply eq_None_not_Some. intros Hs. pose proof (in_keys _ _ _ _ HI n Hs). unfold n in *. lia.
  - apply eq_None_not_Some. intros Hs. pose proof (key_known _ _ _ _ n HI Hs). unfold n in *. lia.
  - intros Hm. pose proof (in_mentions _ _ _ _ HI n Hm). unfold n in *. lia.
  - intros m Hm Hid. pose proof (in_ids _ _ _ _ HI m n Hm Hid). unfold n in *. lia.
  - intros Hd. destruct (in_dead _ _ _ _ HI n Hd) as (_ & _ & _ & c & Hc & _).
    pose proof (in_keys _ _ _ _ HI n (mk_is_Some _ _ Hc)). unfold n in *. lia.
Qed.

Lemma core_refl (x y : option ClientOrder) : x = y → core <$> x = core <$> y.
Proof. by intros ->. Qed.

(** The next id, taken by an order that is not shown. *)
Lemma inv_next k w f v r l : inv k w f v → k < MatchingBook.kNil → Forall intent_ok l →
  positions_ r = positions_ (trader w) →
  TraderRiskGatedOms.account_id_ r = TraderRiskGatedOms.account_id_ (trader w) →
  OrderManagementSystem.account_id_ (oms_ r) = OrderManagementSystem.account_id_ (oms_ (trader w)) →
  next_client_order_id_ (oms_ r) = u64 (next_id w + 1) →
  (∀ id, id ≠ next_id w → core <$> ord r id = core <$> ord (trader w) id) →
  ord r (next_id w) ≫= shown = None →
  inv (k + 1) (with_trader r (with_cleared l w)) f v ∧
  next_id (with_trader r (with_cleared l w)) = next_id w + 1.
Proof.
  intros HI Hk Hl Hpos Hacc Hacc' Hnext Hord Hn. pose proof (in_next _ _ _ _ HI) as Hb.
  assert (next_client_order_id_ (oms_ r) = next_id w + 1) as Hnext'.
  { rewrite Hnext. apply u64_small. unfold in_u64, MatchingBook.kNil, SideIndex.kNil in *. lia. }
  split; [|exact Hnext']. apply (inv_edit k w); [done| |lia|unfold next_id at 2 3; simpl; lia].
  split; try done. intros id. unfold edited. simpl.
  destruct (decide (id = next_id w)) as [->|Hne]; [right|left; by apply Hord].
  destruct (next_fresh _ _ _ _ HI) as (_ & Hv & Hm & Hp & Hd).
  refine (conj Hm (conj Hv (conj Hp (conj Hn (conj _ Hd))))).
  change (next_id w < next_client_order_id_ (oms_ r)). lia.
Qed.

Lemma inv_register k w f v i l : inv k w f v → k < MatchingBook.kNil → intent_ok i → Forall intent_ok l →
  let '(_, m, r) := begin_submit i (trader w) in inv (k + 1) (posted m r (with_cleared l w)) f v.
Proof.
  intros HI Hk Hi Hl. destruct (begin_submit i (trader w)) as [[id m] r] eqn:Er.
  unfold begin_submit, OrderManagementSystem.begin_submit in Er.
  destruct (in_account _ _ _ _ HI) as [Ha Ha']. rewrite Ha' in Er.
  destruct (next_fresh _ _ _ _ HI) as (Hno & Hv & Hm & Hp & Hd). unfold emplace in Er.
  unfold ord, next_id in Hno. rewrite Hno in Er. injection Er as Eid Em Er.
  set (n := next_client_order_id_ (oms_ (trader w))) in *.
  set (c := new_client_order A n (in_instrument_id i) (in_side i) (in_price i) (in_quantity i)
    (in_order_type i) (in_time_in_force i)) in *.
  assert (∀ j, ord r j = if decide (n = j) then Some c else ord (trader w) j) as Hr.
  { intros j. rewrite <-Er. apply lookup_insert. }
  destruct (inv_next k w f v r l HI Hk Hl) as [HI1 Hn1]; try by rewrite <-Er.
  { intros j Hj. rewrite Hr, decide_False; [done|]. intros <-. by apply Hj. }
  { by rewrite Hr, decide_True by done. }
  apply (inv_post (k + 1) (with_trader r (with_cleared l w)) f v m); [done|..].
  - exists (CmdNew (Types.mkNewOrder 0 A n (in_instrument_id i) (in_side i) (in_price i) (in_quantity i)
      (in_order_type i) (in_time_in_force i))).
    rewrite <-Em. split; [done|]. split; [done|]. split; [exact Hi|]. intros _. exists c.
    split; [|done]. unfold seen. simpl. rewrite after_unmentioned by done. by rewrite Hr, decide_True.
  - intros j Hj. rewrite <-Em in Hj. apply list_elem_of_singleton in Hj as ->. simpl. split; [done|]. split; [done|].
    split; [|split; [by rewrite <-Em; apply not_elem_of_nil|done]]. intros c'. rewrite Hr, decide_True by done.
    by intros [= <-].
  - intros j m' Hj. rewrite <-Em in Hj. by apply not_elem_of_nil in Hj.
  - intros j Hj. rewrite <-Em in Hj. apply list_elem_of_singleton in Hj as ->. rewrite Hn1.
    split; [change (n < n + 1); lia|exact Hd].
Qed.

(** The orders change, but not what is shown of them. *)
Lemma inv_core k w f v r : inv k w f v → positions_ r = positions_ (trader w) →
  TraderRiskGatedOms.account_id_ r = TraderRiskGatedOms.account_id_ (trader w) →
  OrderManagementSystem.account_id_ (oms_ r) = OrderManagementSystem.account_id_ (oms_ (trader w)) →
  next_client_order_id_ (oms_ r) = next_id w → (∀ id, core <$> ord r id = core <$> ord (trader w) id) →
  inv (k + 1) (with_trader r w) f v.
Proof.
  intros HI Hpos Ha Ha' Hn Hord. pose proof (in_next _ _ _ _ HI).
  apply (inv_edit k w); [done| |lia|change (next_id w ≤ next_client_order_id_ (oms_ r) ≤ k + 1 + 1); lia].
  split; try done; [apply HI|]. intros id. left. apply Hord.
Qed.

Lemma inv_mono_session k w f v : inv k w f v → inv (k + 1) w f v.
Proof.
  intros HI. pose proof (in_next _ _ _ _ HI). apply (inv_edit k w); [done| |lia|lia].
  split; try done; [apply HI|]. intros id. by left.
Qed.

(** A live order is not introduced by a request on its way. *)
Lemma live_not_pending k w f v id c : inv k w f v → ord (trader w) id = Some c → is_live (cl_state c) = true →
  (id < next_id w ∧ id ∉ dead) ∧ ∀ m, m ∈ pending w → id ∉ intro m.
Proof.
  intros HI Hc Hl. split; [split; [by apply (in_keys _ _ _ _ HI); exists c|]|].
  { intros Hd. destruct (in_dead _ _ _ _ HI id Hd) as (_ & _ & _ & c' & Hc' & Hs).
    rewrite Hc in Hc'. injection Hc' as <-. by rewrite Hs in Hl. }
  intros m Hm Hid.
  destruct (in_fresh _ _ _ _ HI m id Hm Hid) as (_ & _ & H). by rewrite (H c Hc) in Hl.
Qed.

Lemma core_update o id c c' : orders_ o !! id = Some c → core c' = core c →
  ∀ j, core <$> (<[id := c']> (orders_ o) !! j) = core <$> (orders_ o !! j).
Proof.
  intros Hc Hcc j. rewrite lookup_insert. case_decide as E; [subst j|done]. rewrite Hc. simpl. by rewrite Hcc.
Qed.

Lemma inv_cancel k w f v id : inv k w f v →
  match begin_cancel id (trader w) with
  | None => True
  | Some (m, r) => inv (k + 1) (posted m r w) f v
  end.
Proof.
  intros HI. unfold begin_cancel, OrderManagementSystem.begin_cancel.
  destruct (in_account _ _ _ _ HI) as [Ha Ha']. rewrite Ha'.
  destruct (orders_ (oms_ (trader w)) !! id) as [c|] eqn:Ec; cbn [mbind option_bind]; [|done].
  destruct (is_live (cl_state c)) eqn:El; cbn [negb orb]; [|done]. case_bool; [done|]. cbn [mbind option_bind].
  destruct (live_not_pending _ _ _ _ id c HI Ec El) as [Hlt Hnot].
  match goal with |- inv _ (posted ?m0 ?r0 _) _ _ => set (m := m0); set (r := r0) end.
  assert (inv (k + 1) (with_trader r w) f v) as HI1.
  { apply inv_core; try done. by apply (core_update (oms_ (trader w)) id c). }
  apply (inv_post (k + 1) (with_trader r w) f v m); [done|..].
  - by exists (CmdCancel (Types.mkCancelOrder 0 A id (cl_instrument_id c))).
  - by intros j ?%not_elem_of_nil.
  - intros j m' ->%list_elem_of_singleton. apply Hnot.
  - by intros j ->%list_elem_of_singleton.
Qed.

(** The replacement of [c], by its order management. *)
Lemma inv_replace k w f v id price quantity : inv k w f v → k < MatchingBook.kNil → price_ok price quantity →
  match begin_replace id price quantity (trader w) with
  | None => True
  | Some (_, m, r) => inv (k + 1) (posted m r w) f v
  end.
Proof.
  intros HI Hk Hpq. unfold begin_replace, OrderManagementSystem.begin_replace.
  destruct (in_account _ _ _ _ HI) as [Ha Ha']. rewrite Ha'.
  destruct (orders_ (oms_ (trader w)) !! id) as [c|] eqn:Ec; cbn [mbind option_bind]; [|done].
  destruct (is_live (cl_state c)) eqn:El; cbn [negb orb]; [|done]. case_bool; [done|]. cbn [mbind option_bind].
  destruct (live_not_pending _ _ _ _ id c HI Ec El) as [Hlt Hnot].
  destruct (next_fresh _ _ _ _ HI) as (Hno & Hv & Hm & Hp & Hd). unfold ord, next_id in Hno.
  set (n := next_client_order_id_ (oms_ (trader w))) in *. assert (id ≠ n) as Hne by (intros ->; by rewrite Hno in Ec).
  unfold emplace. rewrite lookup_insert_ne by done. rewrite Hno.
  match goal with |- inv _ (posted ?m0 ?r0 _) _ _ => set (m := m0); set (r := r0) end.
  set (c' := new_client_order A n (cl_instrument_id c) (cl_side c) price quantity (cl_order_type c)
    (cl_time_in_force c)) in *.
  assert (ord r n = Some c') as Hrn by apply lookup_insert_eq.
  assert (∀ j, j ≠ n → core <$> ord r j = core <$> ord (trader w) j) as Hrj.
  { intros j Hj. unfold ord, r. cbn. rewrite lookup_insert_ne by done. by apply (core_update (oms_ (trader w)) id c). }
  destruct (inv_next k w f v r (cleared w) HI Hk) as [HI1 Hn1]; try done;
    [apply HI|change (ord r n ≫= shown = None); by rewrite Hrn|].
  apply (inv_post (k + 1) (with_trader r (with_cleared (cleared w) w)) f v m); [done|..].
  - exists (CmdReplace (Types.mkReplaceOrder 0 A id n (cl_instrument_id c) price quantity)).
    split; [done|]. split; [done|]. split; [done|]. intros _.
    assert (core <$> ord r id = core <$> Some c) as Hc1 by by rewrite (Hrj id Hne), <-Ec.
    apply fmap_Some in Hc1 as (c1 & Hc1 & Hcc). unfold seen. simpl.
    exists (evolve_all (down w) id c1), c'. split; [unfold after; by rewrite Hc1|].
    split; [by rewrite after_unmentioned|]. rewrite evolve_all_statics. unfold core in Hcc. unfold statics in *. simpl.
    congruence.
  - intros j ->%list_elem_of_singleton. simpl. split; [done|]. split; [done|].
    split; [intros c0 Hc0; change (ord r n = Some c0) in Hc0; rewrite Hrn in Hc0; by injection Hc0 as <-|]. split; [by intros ?%list_elem_of_singleton|done].
  - intros j m' ->%list_elem_of_singleton. apply Hnot.
  - intros j Hj. rewrite Hn1. apply elem_of_cons in Hj as [->|Hj%list_elem_of_singleton];
      [destruct Hlt; split; [change (id < next_id w + 1); lia|done]|].
    subst j. split; [change (n < n + 1); lia|exact Hd].
Qed.

(** ** Sending *)

Lemma inv_requests k w f v o u : inv k w f v → o ++ u ⊆+ pending w → inv k (with_requests o u w) f v.
Proof.
  intros HI Hp. pose proof (in_next _ _ _ _ HI).
  apply (inv_edit k w); [done| |lia|change (next_id w ≤ next_id w ≤ k + 1); lia].
  split; try done; [apply HI|]. intros id. by left.
Qed.

Lemma transmit_pending o u k (m : Message) : o !! k = Some m → delete k o ++ u ++ [m] ⊆+ o ++ u.
Proof.
  intros Hk. apply Permutation_submseteq. rewrite app_assoc, (Permutation_app_comm _ [m]).
  symmetry. apply (Permutation_app_tail u (delete_Permutation o k m Hk)).
Qed.

Lemma failing_pending o u k (m : Message) : o !! k = Some m → m :: delete k o ++ u ≡ₚ o ++ u.
Proof. intros Hk. symmetry. apply (Permutation_app_tail u (delete_Permutation o k m Hk)). Qed.

Lemma core_alter f (o : gmap ClientOrderId ClientOrder) x :
  (∀ c, core (f c) = core c) → ∀ j, core <$> (alter f x o !! j) = core <$> (o !! j).
Proof.
  intros Hf j. destruct (decide (x = j)) as [->|Hne]; [|by rewrite lookup_alter_ne].
  rewrite lookup_alter_eq. destruct (o !! j); simpl; [by rewrite Hf|done].
Qed.

(** A failed send changes what is shown of no order; the order its request introduces
    was not shown, and is not afterwards. *)
Lemma send_failed_ord m r j : j ∉ intro m → core <$> ord (send_failed m r) j = core <$> ord r j.
Proof.
  intros Hj. unfold ord, send_failed, OrderManagementSystem.send_failed. destruct m as [m|m|m|m|m|m|m|m]; try done; simpl.
  - rewrite lookup_alter_ne; [done|]. intros <-. apply Hj. by left.
  - by apply core_alter.
  - rewrite core_alter by done. rewrite lookup_delete_ne; [done|]. intros <-. apply Hj. by left.
Qed.

Lemma send_failed_intro m r j : j ∈ intro m → (∀ x, x ∈ refs m → x ≠ j) →
  ord (send_failed m r) j ≫= shown = None ∧ (is_Some (ord (send_failed m r) j) → is_Some (ord r j)).
Proof.
  intros Hj Hr. unfold ord, send_failed, OrderManagementSystem.send_failed. destruct m as [m|m|m|m|m|m|m|m]; simpl in Hj;
    try (by apply not_elem_of_nil in Hj); apply list_elem_of_singleton in Hj as ->; simpl.
  - rewrite lookup_alter_eq. by destruct (orders_ (oms_ r) !! _).
  - rewrite lookup_alter_ne, lookup_delete_eq by (apply Hr; by left). split; [done|by intros []].
Qed.

Lemma inv_failed k w f v i m : inv k w f v → outbox w !! i = Some m →
  inv (k + 1) (with_requests (delete i (outbox w)) (up w) (with_trader (send_failed m (trader w)) w)) f v.
Proof.
  intros HI Hi. pose proof (in_next _ _ _ _ HI) as Hb.
  pose proof (failing_pending (outbox w) (up w) i m Hi) as Hperm.
  assert (m ∈ pending w) as Hm by (unfold pending; rewrite <-Hperm; by left).
  assert (next_client_order_id_ (oms_ (send_failed m (trader w))) = next_id w) as Hn by by destruct m.
  set (w' := with_requests (delete i (outbox w)) (up w) (with_trader (send_failed m (trader w)) w)).
  assert (next_id w' = next_id w) as Hnext by exact Hn.
  apply (inv_edit k w); [done| |lia|rewrite Hnext; lia].
  assert (delete i (outbox w) ++ up w ⊆+ pending w) as Hsub.
  { unfold pending. rewrite <-Hperm. by apply submseteq_cons. }
  split; try done; [by destruct m|apply HI|]. intros j. unfold edited. simpl.
  destruct (decide (j ∈ intro m)) as [Hj|Hj]; [right|left; by apply send_failed_ord].
  destruct (in_fresh _ _ _ _ HI m j Hm Hj) as (Hv & Hd & _).
  assert (j < next_id w) as Hlt by (apply (in_ids _ _ _ _ HI m j Hm), elem_of_app; by right).
  destruct (send_failed_intro m (trader w) j Hj) as [Hs _].
  { intros x Hx ->. by apply (in_refs _ _ _ _ HI m m j). }
  split; [done|]. split; [done|]. split; [|split; [done|split; [by rewrite Hnext|]]].
  2: { intros Hdd. destruct (in_dead _ _ _ _ HI j Hdd) as (_ & _ & Hp & _). apply (Hp m Hm), elem_of_app. by right. }
  intros m' Hm' [Hr|Hr]%elem_of_app.
  - apply (in_refs _ _ _ _ HI m' m j); [|done..]. by eapply elem_of_submseteq.
  - pose proof (in_nodup _ _ _ _ HI) as Hnd. unfold pending in Hnd. rewrite <-Hperm in Hnd. cbn in Hnd.
    apply NoDup_app in Hnd as (_ & Hnd & _). apply (Hnd j Hj), list_elem_of_bind. by exists m'.
Qed.

(** ** Reports *)

Lemma inv_handle k w f v m ds : inv k w f v → unsettled w = [] → down w = m :: ds →
  let '(r, updates) := handle_message m (trader w) in
  inv (k + 1) (with_reports ds (fills updates) (with_trader r w)) f v.
Proof.
  intros HI Hu Hd. unfold handle_message.
  destruct (OrderManagementSystem.handle_message m (oms_ (trader w))) as [o us] eqn:Eh.
  pose proof (handle_lookup m (oms_ (trader w))) as Hlook. pose proof (handle_fields m (oms_ (trader w))) as [Ha' Hn].
  pose proof (handle_fills m (oms_ (trader w))) as Hf. rewrite Eh in *. simpl in *.
  destruct (in_account _ _ _ _ HI) as [Ha Hao]. rewrite Hao in Hf, Ha'.
  set (w' := with_reports ds (fills us) (with_trader (with_oms o (trader w)) w)).
  assert (∀ id, ord (trader w') id = evolve m id <$> ord (trader w) id) as Hord by exact Hlook.
  assert (∀ id, seen w' id = seen w id) as Hseen.
  { intros id. unfold seen. rewrite Hd. unfold after. rewrite Hord. simpl. by destruct (ord (trader w) id). }
  assert (next_id w' = next_id w) as Hnext by exact Hn.
  assert (∀ id, id ∉ down w ≫= mentions → id ∉ mentions m ∧ id ∉ ds ≫= mentions) as Hm.
  { intros id. rewrite Hd. cbn. by rewrite not_elem_of_app. }
  assert (∀ id, is_Some (ord (trader w') id) → is_Some (ord (trader w) id)) as Hsome.
  { intros id. rewrite Hord. by rewrite fmap_is_Some. }
  pose proof (in_next _ _ _ _ HI). split; try apply HI.
  - done.
  - eapply exchange_mono; [apply HI|lia].
  - eapply follows_ext; [|by apply (in_shown _ _ _ _ HI)]. done.
  - intros x Hx. destruct (in_pending _ _ _ _ HI x Hx) as (c & Hc & Hac & Hok & Hr).
    exists c. split; [done|]. split; [done|]. split; [done|]. eapply ready_core; [|exact Hr].
    intros id _. by rewrite Hseen.
  - intros x id Hx Hid. destruct (in_fresh _ _ _ _ HI x id Hx Hid) as (Hv & [Hm1 Hm2]%Hm & Hl).
    split; [done|]. split; [done|]. intros c. rewrite Hord. destruct (ord (trader w) id) as [c0|]; [|done].
    simpl. rewrite evolve_unmentioned by done. intros [= <-]. by apply Hl.
  - intros id Hs. rewrite Hnext. by apply (in_keys _ _ _ _ HI), Hsome.
  - intros id Hid. rewrite Hnext. apply (in_mentions _ _ _ _ HI). rewrite Hd. cbn. apply elem_of_app. by right.
  - intros x id Hx Hid. rewrite Hnext. by apply (in_ids _ _ _ _ HI x).
  - rewrite Hnext. lia.
  - pose proof (in_money _ _ _ _ HI) as HT. unfold settled in *. rewrite Hu, Hd in HT. simpl in HT.
    cbn [exchange w' with_reports with_trader]. simpl. rewrite Hf.
    rewrite (fills_in_sides A _ (ord (trader w))); [exact HT|].
    intros id _. change (cl_side <$> ord (trader w') id = cl_side <$> ord (trader w) id). rewrite Hord.
    by apply (after_side [m] (ord (trader w))).
  - intros id Hid. destruct (in_dead _ _ _ _ HI id Hid) as (Hv & [Hm1 Hm2]%Hm & Hp & c & Hc & Hs).
    split; [done|]. split; [done|]. split; [done|]. exists c. rewrite Hord, Hc. simpl.
    by rewrite evolve_unmentioned.
Qed.

(** ** A step *)

Definition action_ok (a : action) : Prop :=
  match a with
  | CheckRisk i => intent_ok i
  | ReplaceOrder _ price quantity rehashes => price_ok price quantity ∧ rehashes = false
  | MatchOther c => command_account c ≠ A ∧ command_ok c
  | _ => True
  end.

Lemma inv_cleared k w f v l : inv k w f v → Forall intent_ok l → inv k (with_cleared l w) f v.
Proof.
  intros HI Hl. pose proof (in_next _ _ _ _ HI).
  apply (inv_edit k w); [done| |lia|change (next_id w ≤ next_id w ≤ k + 1); lia].
  split; try done. intros id. by left.
Qed.

Lemma inv_settle k w f v x xs : inv k w f v → unsettled w = x :: xs →
  inv k (with_reports (down w) xs (with_trader (settle x (trader w)) w)) f v.
Proof.
  intros HI Hu. split; try apply HI.
  pose proof (in_money _ _ _ _ HI) as HT. unfold settled in *. by rewrite Hu in HT.
Qed.

Lemma inv_match k w f v m u : inv k w f v → k < MatchingBook.kNil → up w = m :: u →
  ∃ w' f' v' c, to_command m = Some c ∧ submit c (with_requests (outbox w) u w) = Some w' ∧ inv (k + 1) w' f' v'.
Proof.
  intros HI Hk Hu.
  assert (pending w ≡ₚ m :: outbox w ++ u) as Hperm.
  { unfold pending. by rewrite Hu, <-Permutation_middle. }
  assert (m ∈ pending w) as Hm by (rewrite Hperm; by left).
  assert (inv k (with_requests (outbox w) u w) f v) as HI1.
  { apply inv_requests; [done|]. rewrite Hperm. by apply submseteq_cons. }
  destruct (in_pending _ _ _ _ HI m Hm) as (c & Hc & Ha & Hok & Hr).
  destruct (inv_submit k _ f v c HI1 Hk Hok Hr) as (w' & f' & v' & Hs & HI').
  - intros id Hid. by apply (in_fresh _ _ _ _ HI m id Hm), (introduced_intro m c).
  - intros id [_ Hid]. apply (request_ids m c id Hc) in Hid. split; [by apply (in_ids _ _ _ _ HI m id Hm)|].
    split; [intros Hd; destruct (in_dead _ _ _ _ HI id Hd) as (_ & _ & Hp & _); by apply (Hp m Hm)|].
    intros m' Hm'. assert (m' ∈ pending w) as Hm1 by (rewrite Hperm; by right).
    apply elem_of_app in Hid as [Hid|Hid]; [by apply (in_refs _ _ _ _ HI m m' id)|].
    intros Hid'. pose proof (in_nodup _ _ _ _ HI) as Hnd. rewrite Hperm in Hnd. cbn in Hnd.
    apply NoDup_app in Hnd as (_ & Hnd & _). apply (Hnd id Hid), list_elem_of_bind. by exists m'.
  - by exists w', f', v', c.
Qed.

Lemma inv_other k w f v c : inv k w f v → k < MatchingBook.kNil → command_account c ≠ A → command_ok c →
  ∃ w' f' v', submit c w = Some w' ∧ inv (k + 1) w' f' v'.
Proof.
  intros HI Hk Ha Hok. apply (inv_submit k w f v c); try done.
  - by destruct c; simpl in *.
  - intros id Hid. by destruct (introduced_named A c id Hid).
  - by intros id [? _].
Qed.

Lemma session_step a k w f v : inv k w f v → k < MatchingBook.kNil → action_ok a →
  ∃ w' f' v', step a w = Some w' ∧ inv (k + 1) w' f' v'.
Proof.
  intros HI Hk Hok. pose proof (inv_mono_session _ _ _ _ HI) as HI1.
  destruct a as [i|i|id|id price quantity rehashes|i ok| | |c| | ]; cbn [step].
  - eexists _, f, v. split; [done|]. case_bool; [|done]. apply inv_cleared; [done|].
    apply Forall_app. split; [apply HI|by constructor].
  - destruct (cleared w !! i) as [x|] eqn:Ex; [|by exists w, f, v].
    assert (intent_ok x) as Hx by (eapply Forall_lookup_1; [apply HI|done]).
    pose proof (inv_register k w f v x (delete i (cleared w)) HI Hk Hx) as H.
    destruct (begin_submit x (trader w)) as [[? m] r]. eexists _, f, v. split; [done|]. apply H.
    apply Forall_delete, HI.
  - pose proof (inv_cancel k w f v id HI) as H. destruct (begin_cancel id (trader w)) as [[m r]|];
      [by eexists _, f, v|by exists w, f, v].
  - destruct Hok as [Hok ->]. pose proof (inv_replace k w f v id price quantity HI Hk Hok) as H.
    destruct (begin_replace id price quantity (trader w)) as [[[? m] r]|]; [by eexists _, f, v|by exists w, f, v].
  - destruct (outbox w !! i) as [m|] eqn:Em; [|by exists w, f, v]. eexists _, f, v. split; [done|]. destruct ok.
    + apply inv_requests; [done|]. by apply transmit_pending.
    + by apply inv_failed.
  - eexists _, f, v. split; [done|]. apply inv_requests; [done|]. apply submseteq_app; [done|].
    destruct (up w); [done|by apply submseteq_cons].
  - destruct (up w) as [|m u] eqn:Eu; [by exists w, f, v|].
    destruct (inv_match k w f v m u HI Hk Eu) as (w' & f' & v' & c & -> & Hs & HI'). by exists w', f', v'.
  - destruct Hok. by apply (inv_other k w f v).
  - destruct (unsettled w) as [|x xs] eqn:Eu; [|by exists w, f, v].
    destruct (down w) as [|m ds] eqn:Ed; [by exists w, f, v|].
    pose proof (inv_handle k w f v m ds HI Eu Ed) as H. destruct (handle_message m (trader w)) as [r us].
    by eexists _, f, v.
  - destruct (unsettled w) as [|x xs] eqn:Eu; [by exists w, f, v|]. eexists _, f, v. split; [done|].
    by apply inv_settle.
Qed.

Lemma session_exec actions : ∀ k w f v, inv k w f v → Forall action_ok actions →
  k + vsize actions ≤ MatchingBook.kNil →
  ∃ w' f' v', exec actions w = Some w' ∧ inv (k + vsize actions) w' f' v'.
Proof.
  unfold vsize. induction actions as [|a actions IH]; intros k w f v HI Hok Hk.
  { exists w, f, v. rewrite Z.add_0_r. done. }
  simpl length in *. apply Forall_cons in Hok as [Ha Hok].
  destruct (session_step a k w f v HI) as (w1 & f1 & v1 & Hs & HI1); [lia|done|].
  destruct (IH (k + 1) w1 f1 v1 HI1 Hok) as (w' & f' & v' & Hx & HI'); [lia|].
  exists w', f', v'. simpl. rewrite Hs. split; [exact Hx|].
  by replace (k + Z.of_nat (S (length actions))) with (k + 1 + Z.of_nat (length actions)) by lia.
Qed.

(** ** Caught up *)

Lemma settle_all fs : ∀ r, foldl (λ r fill, settle fill r) r fs =
  with_positions (PositionTracker.apply_all fs (positions_ r)) r.
Proof. induction fs as [|x fs IH]; intros r; [by destruct r|]. simpl. by rewrite IH. Qed.

Lemma hear_spec r m : OrderManagementSystem.account_id_ (oms_ r) = A →
  (∀ id, ord (hear r m) id = evolve m id <$> ord r id) ∧
  positions_ (hear r m) = PositionTracker.apply_all (fill_in A (ord r) m) (positions_ r) ∧
  TraderRiskGatedOms.account_id_ (hear r m) = TraderRiskGatedOms.account_id_ r ∧
  OrderManagementSystem.account_id_ (oms_ (hear r m)) = A.
Proof.
  intros Ha. unfold hear, handle_message.
  pose proof (handle_lookup m (oms_ r)) as Hl. pose proof (handle_fields m (oms_ r)) as [Ha' _].
  pose proof (handle_fills m (oms_ r)) as Hf. rewrite Ha in Ha', Hf.
  destruct (OrderManagementSystem.handle_message m (oms_ r)) as [o us]. cbn [fst snd] in *.
  rewrite settle_all, Hf. by split_and!.
Qed.

Lemma hear_all ms : ∀ r, OrderManagementSystem.account_id_ (oms_ r) = A →
  (∀ id, ord (foldl hear r ms) id = after ms (ord r) id) ∧
  positions_ (foldl hear r ms) = PositionTracker.apply_all (fills_in A (ord r) ms) (positions_ r) ∧
  TraderRiskGatedOms.account_id_ (foldl hear r ms) = TraderRiskGatedOms.account_id_ r.
Proof.
  induction ms as [|m ms IH]; intros r Ha.
  { split; [|done]. intros id. by rewrite after_nil. }
  destruct (hear_spec r m Ha) as (Ho & Hp & Hi & Ha'). destruct (IH _ Ha') as (Ho' & Hp' & Hi'). simpl.
  split; [|split; [|by rewrite Hi', Hi]].
  - intros id. rewrite Ho'. unfold after. rewrite Ho. by destruct (ord r id).
  - rewrite Hp', Hp. unfold PositionTracker.apply_all. rewrite <-foldl_app. f_equal.
    change (fills_in A (ord r) (m :: ms)) with (fill_in A (ord r) m ++ fills_in A (ord r) ms). f_equal.
    apply fills_in_sides. intros id _. rewrite Ho. apply (after_side [m] (ord r)).
Qed.

Lemma caught_up_spec w : OrderManagementSystem.account_id_ (oms_ (trader w)) = A →
  (∀ id, ord (caught_up w) id = seen w id) ∧ positions_ (caught_up w) = settled w ∧
  TraderRiskGatedOms.account_id_ (caught_up w) = TraderRiskGatedOms.account_id_ (trader w).
Proof.
  intros Ha. unfold caught_up. rewrite settle_all.
  destruct (hear_all (down w) (with_positions (PositionTracker.apply_all (unsettled w) (positions_ (trader w)))
    (trader w)) Ha) as (Ho & Hp & Hi). split; [exact Ho|]. split; [|exact Hi].
  rewrite Hp. unfold settled, PositionTracker.apply_all. by rewrite foldl_app.
Qed.

(** An order the books have is the one the view has, good till cancelled. *)
Lemma resting_order_view n e f v id : represents n e f → mirrors (mine A) f v →
  resting_order e (A, id) = v !! (A, id) ≫= good_till_cancelled.
Proof.
  intros [HE HI] HM. unfold resting_order. rewrite (er_orders _ _ _ HE).
  destruct (MatchingEngine.orders_ f !! (A, id)) as [ref|] eqn:Hr; cbn [mbind option_bind].
  - destruct (located _ _ _ _ HI Hr) as (_ & b & o & Hb & _ & Ho & Hkey).
    destruct (er_book_for _ _ _ _ _ HE Hb) as (b' & -> & HR). cbn [mbind option_bind].
    pose proof (ref_at (B := MatchingBook.t) (A := ABook.t) (R := Rep) b' b (MatchingEngine.or_handle ref) HR o Ho) as Ho'.
    simpl in Ho'. rewrite Ho'. cbn [mbind option_bind].
    destruct (located_view (mine A) n f v (A, id) ref b o HI HM Hr Hb Ho Hkey eq_refl) as [-> Ht].
    cbn [mbind option_bind]. unfold good_till_cancelled. by rewrite decide_True.
  - destruct (v !! (A, id)) as [x|] eqn:Ev; [|done]. cbn. unfold good_till_cancelled. rewrite decide_False; [done|].
    by apply (mirrors_vacant (mine A) f v (A, id) HM eq_refl Hr x).
Qed.

End account.

Lemma session_start A (e : real) f l limits tl p : exchange_view (mine A) 0 (RiskGatedEngine.start e l limits) f ∅ →
  same_totals A l p →
  inv A [] 0 (start (RiskGatedEngine.start e l limits)
    (TraderRiskGatedOms.mk A tl p (OrderManagementSystem.make A))) f ∅.
Proof.
  intros HX HT. split; simpl; try done.
  - by intros m ?%not_elem_of_nil.
  - by intros m id ?%not_elem_of_nil.
  - by intros m m' id ?%not_elem_of_nil.
  - apply NoDup_nil_2.
  - intros id [c Hc]. unfold ord in Hc. simpl in Hc. by rewrite lookup_empty in Hc.
  - by intros id ?%not_elem_of_nil.
  - by intros m id ?%not_elem_of_nil.
  - by intros id ?%not_elem_of_nil.
Qed.

(** C23: the trader's picture of the market is the exchange's. Whatever one account's
    strategy, its reader thread and the other accounts do, in any interleaving, with
    requests that fail to be sent or are lost, and no insertion of a replacement that
    rehashes the table of orders (order_management_system.cpp:104 reads through an
    iterator from before it): the exchange takes every command, and once the reports on
    their way have been handled, what rests of the account in the exchange's books is what
    its order management believes to be working and is good till cancelled, with the same
    exchange id, instrument, side, price and remaining quantity. So all that rests is
    believed to work; an immediate order believed to work does not rest, although
    client_order.hpp:20 calls it still working: nothing reports that its rest is gone. The
    account's cash and holdings are the ledger's. *)
Theorem trader_sees_exchange universe n limits l A tl p actions :
  Forall in_u32 universe → vsize universe < MatchingEngine.kNoSlot → same_totals A l p →
  Forall (action_ok A) actions → vsize actions ≤ MatchingBook.kNil →
  ∃ (e : real) w, MatchingEngine.make universe n = Some e ∧
    exec actions (start (RiskGatedEngine.start e l limits)
      (TraderRiskGatedOms.mk A tl p (OrderManagementSystem.make A))) = Some w ∧
    (∀ id, resting_order (RiskGatedEngine.engine_ (exchange w)) (A, id) =
       working id (caught_up w) ≫= good_till_cancelled) ∧
    cash (caught_up w) = Ledger.cash_total (Ledger.balances A (RiskGatedEngine.ledger_ (exchange w))) ∧
    ∀ i, position i (caught_up w) =
      default 0 (Ledger.position_total (Ledger.balances A (RiskGatedEngine.ledger_ (exchange w))) !! i).
Proof.
  intros Hu Hsz HT Hok Hn. destruct (exchange_start (mine A) universe n l limits Hu Hsz) as (e & f & He & HX).
  destruct (session_exec A [] actions 0 _ f ∅ (session_start A e f l limits tl p HX HT) Hok Hn)
    as (w & f' & v' & Hx & HI).
  destruct (in_account _ _ _ _ _ _ HI) as [Ha Ha']. destruct (caught_up_spec A w Ha') as (Hord & Hpos & Hacc).
  pose proof (in_money _ _ _ _ _ _ HI) as [Hc Hp]. rewrite <-Hpos in Hc, Hp. rewrite Ha in Hacc.
  exists e, w. split; [done|]. split; [exact Hx|].
  split; [|unfold cash, position; rewrite Hacc; by split]. intros id.
  destruct (in_exchange _ _ _ _ _ _ HI) as [HR HM]. rewrite (resting_order_view A _ _ _ _ id HR HM).
  rewrite <-(in_shown _ _ _ _ _ _ HI id). unfold working. change (orders_ _ !! id) with (ord (caught_up w) id).
  by rewrite Hord.
Qed.

(** A bid is accepted, partly filled by another account, and replaced; a second order's
    send fails, and a cancel is lost; an immediate bid finds part of its quantity. *)
Definition sample_actions : list action :=
  [CheckRisk (mkIntent 7 Buy 100 10 Limit GTC); Register 0; Transmit 0 true; Match;
   MatchOther (CmdNew (Types.mkNewOrder 0 2 1 7 Sell 100 4 Limit GTC)); Handle; ReplaceOrder 1 101 20 false;
   Transmit 0 true; Match; Handle; Settle; CheckRisk (mkIntent 7 Buy 100 10 Limit IOC); Register 0;
   Transmit 0 false; Handle; CancelOrder 2; Transmit 0 true; Lose;
   MatchOther (CmdNew (Types.mkNewOrder 0 2 2 7 Sell 102 4 Limit GTC));
   CheckRisk (mkIntent 7 Buy 102 30 Limit IOC); Register 0; Transmit 0 true; Match; Handle].

Definition sample_funds : Ledger.t :=
  Ledger.deposit_position 2 7 50 (Ledger.deposit_cash 1 10000 Ledger.empty).

Definition sample_positions : PositionTracker.t := PositionTracker.deposit_cash 1 10000 PositionTracker.empty.

Definition sample_trader : TraderRiskGatedOms.t :=
  TraderRiskGatedOms.mk 1 TraderRiskEngine.default_limits sample_positions (OrderManagementSystem.make 1).

Definition sample_outcome : option (option open_order * option open_order * Z) :=
  e ← MatchingEngine.make (B := MatchingBook.t) [7] 16;
  w ← exec sample_actions (start (RiskGatedEngine.start e sample_funds RiskEngine.default_limits) sample_trader);
  Some (working 2 (caught_up w), working 4 (caught_up w), cash (caught_up w)).

Lemma trader_sees_exchange_witness :
  sample_outcome = Some (Some (mkOpen 3 7 Buy 101 20 GTC), Some (mkOpen 5 7 Buy 102 26 IOC), 9192) ∧
  same_totals 1 sample_funds sample_positions ∧ Forall (action_ok 1) sample_actions ∧
  ∃ (e : real) w, MatchingEngine.make [7] 16 = Some e ∧
    exec sample_actions (start (RiskGatedEngine.start e sample_funds RiskEngine.default_limits) sample_trader) = Some w ∧
    (∀ id, resting_order (RiskGatedEngine.engine_ (exchange w)) (1, id) =
       working id (caught_up w) ≫= good_till_cancelled) ∧
    cash (caught_up w) = Ledger.cash_total (Ledger.balances 1 (RiskGatedEngine.ledger_ (exchange w))) ∧
    ∀ i, position i (caught_up w) =
      default 0 (Ledger.position_total (Ledger.balances 1 (RiskGatedEngine.ledger_ (exchange w))) !! i).
Proof.
  split; [vm_compute; reflexivity|].
  assert (same_totals 1 sample_funds sample_positions) as HT by (split; [reflexivity|intros i; reflexivity]).
  assert (Forall (action_ok 1) sample_actions) as Hok by (repeat constructor; simpl; done).
  split; [exact HT|]. split; [exact Hok|].
  apply (trader_sees_exchange [7] 16 RiskEngine.default_limits sample_funds 1 TraderRiskEngine.default_limits
    sample_positions sample_actions); [by repeat constructor|done|exact HT|exact Hok|done].
Defined.

(** ** What the order management is not told *)

(** Nothing reports that the rest of an immediate order is gone: to the order
    management it works on. *)
Definition immediate_actions : list action :=
  [MatchOther (CmdNew (Types.mkNewOrder 0 2 1 7 Sell 100 4 Limit GTC));
   CheckRisk (mkIntent 7 Buy 100 10 Limit IOC); Register 0; Transmit 0 true; Match; Handle; Handle; Settle].

(** Nothing reports that the replacement of a rejected replace will never be. *)
Definition refused_replace_actions : list action :=
  [CheckRisk (mkIntent 7 Buy 100 10 Limit GTC); Register 0; Transmit 0 true; Match; Handle;
   ReplaceOrder 1 0 10 false; Transmit 0 true; Match; Handle].

(** With nothing on its way: the state of order [id], and whether it rests. *)
Definition left_of (actions : list action) (id : ClientOrderId) : option (option ClientOrderState * bool) :=
  e ← MatchingEngine.make (B := MatchingBook.t) [7] 16;
  w ← exec actions (start (RiskGatedEngine.start e sample_funds RiskEngine.default_limits) sample_trader);
  if bool_decide (outbox w ++ up w ++ down w = []) then
    Some (cl_state <$> order id (oms_ (trader w)),
          bool_decide (is_Some (resting_order (RiskGatedEngine.engine_ (exchange w)) (1, id))))
  else None.

Lemma immediate_order_stays_live :
  left_of immediate_actions 1 = Some (Some ClientOrderState.PartiallyFilled, false).
Proof. vm_compute. reflexivity. Qed.

(** A replace whose insertion rehashes is not defined. *)
Definition rehashing_actions : list action :=
  [CheckRisk (mkIntent 7 Buy 100 10 Limit GTC); Register 0; Transmit 0 true; Match; Handle; ReplaceOrder 1 101 20 true].

Lemma rehash_is_undefined : left_of rehashing_actions 1 = None ∧
  left_of (removelast rehashing_actions) 1 = Some (Some ClientOrderState.Live, true).
Proof. split; vm_compute; reflexivity. Qed.

Lemma refused_replacement_stays_pending :
  left_of refused_replace_actions 2 = Some (Some ClientOrderState.PendingNew, false).
Proof. vm_compute. reflexivity. Qed.

End SessionProps.
