(* ===== verification/OrderBook.v ===== *)
(** * The feed's order book ([book/order_book.hpp], [book/price_level.hpp])

    What a market-data consumer rebuilds: two [std::map]s from price to a level, each a
    [std::list] of orders with its aggregate quantity, and an index from order id to
    the order's place. A list iterator is the identity of the node it points to, and a
    dereference of an iterator that points nowhere is [None]. *)

From stdpp Require Import sorting.
From S2P Require Import Prelude Types.

Module OrderBook.

Abbreviation OrderId := Z (only parsing).

(** ** Levels *)

Record RestingOrder := mkResting { rs_id : OrderId; rs_quantity : Quantity }.

(** [std::list<RestingOrder>::iterator] *)
Abbreviation Iterator := Z (only parsing).

Record PriceLevel := mkLevel {
  price_ : Price;
  orders_ : list (Iterator * RestingOrder);
  aggregate_qty_ : Quantity;
}.

Definition new_level (price : Price) : PriceLevel := mkLevel price [] 0.

Definition level_add (it : Iterator) (id : OrderId) (qty : Quantity) (l : PriceLevel) : PriceLevel :=
  mkLevel (price_ l) (orders_ l ++ [(it, mkResting id qty)]) (u64 (aggregate_qty_ l + qty)).

Definition level_remove (it : Iterator) (l : PriceLevel) : option PriceLevel :=
  match filter (λ x, x.1 = it) (orders_ l) with
  | [] => None
  | x :: _ => Some (mkLevel (price_ l) (filter (λ x, x.1 ≠ it) (orders_ l))
                     (u64 (aggregate_qty_ l - rs_quantity x.2)))
  end.

Definition level_empty (l : PriceLevel) : bool := bool_decide (orders_ l = []).
Definition order_count (l : PriceLevel) : Z := vsize (orders_ l).

(** ** The book *)

Inductive BookError := UnknownOrderId | DuplicateOrderId | InvalidPrice | InvalidQuantity.

Record OrderLocation := mkLocation { loc_side : Side; loc_price : Price; loc_it : Iterator }.

(** [next_node_] is the allocator's: the identity of the next list node. *)
Record t := mk {
  bids_ : gmap Price PriceLevel;
  asks_ : gmap Price PriceLevel;
  order_index_ : gmap OrderId OrderLocation;
  next_node_ : Iterator;
}.

Definition empty : t := mk ∅ ∅ ∅ 0.

Definition levels_of (side : Side) (b : t) : gmap Price PriceLevel :=
  match side with Buy => bids_ b | Sell => asks_ b end.

Definition with_levels (side : Side) (m : gmap Price PriceLevel) (b : t) : t :=
  match side with
  | Buy => mk m (asks_ b) (order_index_ b) (next_node_ b)
  | Sell => mk (bids_ b) m (order_index_ b) (next_node_ b)
  end.

Definition with_index (m : gmap OrderId OrderLocation) (b : t) : t :=
  mk (bids_ b) (asks_ b) m (next_node_ b).

(** [try_emplace], [PriceLevel::add], and the index entry. *)
Definition insert_at (side : Side) (id : OrderId) (price : Price) (qty : Quantity) (b : t) : t :=
  let level := default (new_level price) (levels_of side b !! price) in
  let it := next_node_ b in
  let b := with_levels side (<[price := level_add it id qty level]> (levels_of side b)) b in
  mk (bids_ b) (asks_ b) (<[id := mkLocation side price it]> (order_index_ b)) (it + 1).

Definition erase_at (loc : OrderLocation) (b : t) : option t :=
  level ← levels_of (loc_side loc) b !! loc_price loc;
  level ← level_remove (loc_it loc) level;
  Some (with_levels (loc_side loc)
          (if level_empty level then delete (loc_price loc) (levels_of (loc_side loc) b)
           else <[loc_price loc := level]> (levels_of (loc_side loc) b)) b).

Definition add_order (id : OrderId) (price : Price) (qty : Quantity) (side : Side) (b : t) :
    option BookError * t :=
  if price <=? 0 then (Some InvalidPrice, b)
  else if qty =? 0 then (Some InvalidQuantity, b)
  else match order_index_ b !! id with
       | Some _ => (Some DuplicateOrderId, b)
       | None => (None, insert_at side id price qty b)
       end.

Definition cancel_order (id : OrderId) (b : t) : option (option BookError * t) :=
  match order_index_ b !! id with
  | None => Some (Some UnknownOrderId, b)
  | Some loc => b ← erase_at loc b; Some (None, with_index (delete id (order_index_ b)) b)
  end.

Definition modify_order (id : OrderId) (new_price : Price) (new_qty : Quantity) (b : t) :
    option (option BookError * t) :=
  if new_price <=? 0 then Some (Some InvalidPrice, b)
  else if new_qty =? 0 then Some (Some InvalidQuantity, b)
  else match order_index_ b !! id with
       | None => Some (Some UnknownOrderId, b)
       | Some loc =>
           b ← erase_at loc b;
           Some (None, insert_at (loc_side loc) id new_price new_qty
                         (with_index (delete id (order_index_ b)) b))
       end.

Definition clear (b : t) : t := mk ∅ ∅ ∅ (next_node_ b).

(** ** Views *)

Record PriceLevelView := mkView { lv_price : Price; lv_aggregate : Quantity; lv_count : Z }.
Record OrderView := mkOrderView { ov_id : OrderId; ov_price : Price; ov_quantity : Quantity }.

(** [std::greater<Price>] for bids, [std::less<Price>] for asks. *)
Definition before (side : Side) (x y : Price * PriceLevel) : Prop :=
  match side with Buy => y.1 ≤ x.1 | Sell => x.1 ≤ y.1 end.

#[export] Instance before_dec side : RelDecision (before side).
Proof. destruct side; intros ??; unfold before; apply _. Defined.

(** A [std::map]'s elements from [begin()] on. *)
Definition in_order (side : Side) (b : t) : list (Price * PriceLevel) :=
  merge_sort (before side) (map_to_list (levels_of side b)).

Definition view_of (x : Price * PriceLevel) : PriceLevelView :=
  mkView x.1 (aggregate_qty_ x.2) (order_count x.2).

Definition best (side : Side) (b : t) : option PriceLevelView := view_of <$> head (in_order side b).
Definition best_bid : t → option PriceLevelView := best Buy.
Definition best_ask : t → option PriceLevelView := best Sell.

Definition top (side : Side) (n : nat) (b : t) : list PriceLevelView :=
  view_of <$> take n (in_order side b).
Definition top_bids : nat → t → list PriceLevelView := top Buy.
Definition top_asks : nat → t → list PriceLevelView := top Sell.

Definition orders_at (x : Price * PriceLevel) : list OrderView :=
  (λ y, mkOrderView (rs_id y.2) x.1 (rs_quantity y.2)) <$> orders_ x.2.

Definition all_orders (side : Side) (b : t) : list OrderView :=
  concat (orders_at <$> in_order side b).
Definition all_bids : t → list OrderView := all_orders Buy.
Definition all_asks : t → list OrderView := all_orders Sell.

Definition has_order (id : OrderId) (b : t) : bool := bool_decide (is_Some (order_index_ b !! id)).

(** ** What the book stands for

    The orders in order of arrival. *)

Record order := mkOrder { od_id : OrderId; od_side : Side; od_price : Price; od_quantity : Quantity }.

Abbreviation node := (Iterator * order)%type.

Definition rests_at (side : Side) (p : Price) (o : order) : Prop := od_side o = side ∧ od_price o = p.

#[export] Instance rests_at_dec side p o : Decision (rests_at side p o).
Proof. unfold rests_at. apply _. Defined.

Definition total (os : list order) : Z := foldr (λ o n, od_quantity o + n) 0 os.

Definition resting (x : node) : Iterator * RestingOrder :=
  (x.1, mkResting (od_id x.2) (od_quantity x.2)).

Definition filled_level (p : Price) (ns : list node) : PriceLevel :=
  mkLevel p (resting <$> ns) (u64 (total ns.*2)).

(** The level that holds [ns], if there is one. *)
Definition level_of (p : Price) (ns : list node) : option PriceLevel :=
  match ns with [] => None | _ => Some (filled_level p ns) end.

Definition at_level (side : Side) (p : Price) (ns : list node) : list node :=
  filter (λ x, rests_at side p x.2) ns.

Definition location (x : node) : OrderLocation := mkLocation (od_side x.2) (od_price x.2) x.1.

Record Rep (b : t) (ns : list node) : Prop := {
  rp_ids : NoDup ((λ x, od_id x.2) <$> ns);
  rp_nodes : NoDup ns.*1;
  rp_fresh : Forall (λ x, x.1 < next_node_ b) ns;
  rp_levels : ∀ side p, levels_of side b !! p = level_of p (at_level side p ns);
  rp_index : ∀ id, order_index_ b !! id = location <$> head (filter (λ x, od_id x.2 = id) ns);
}.

(** The operations on arrivals. *)
Definition known (id : OrderId) (os : list order) : bool :=
  existsb (λ o, od_id o =? id) os.

Definition without (id : OrderId) (os : list order) : list order :=
  filter (λ o, od_id o ≠ id) os.

Inductive op :=
  | Add (id : OrderId) (price : Price) (qty : Quantity) (side : Side)
  | Cancel (id : OrderId)
  | Modify (id : OrderId) (new_price : Price) (new_qty : Quantity)
  | Clear.

Definition spec_op (o : op) (os : list order) : option BookError * list order :=
  match o with
  | Add id p q sd =>
      if p <=? 0 then (Some InvalidPrice, os)
      else if q =? 0 then (Some InvalidQuantity, os)
      else if known id os then (Some DuplicateOrderId, os)
      else (None, os ++ [mkOrder id sd p q])
  | Cancel id => if known id os then (None, without id os) else (Some UnknownOrderId, os)
  | Modify id p q =>
      if p <=? 0 then (Some InvalidPrice, os)
      else if q =? 0 then (Some InvalidQuantity, os)
      else match filter (λ o, od_id o = id) os with
           | [] => (Some UnknownOrderId, os)
           | o :: _ => (None, without id os ++ [mkOrder id (od_side o) p q])
           end
  | Clear => (None, [])
  end.

Definition apply_op (o : op) (b : t) : option (option BookError * t) :=
  match o with
  | Add id p q sd => Some (add_order id p q sd b)
  | Cancel id => cancel_order id b
  | Modify id p q => modify_order id p q b
  | Clear => Some (None, clear b)
  end.

(** A stream of operations, and what each answered. *)
Fixpoint apply_ops (ops : list op) (b : t) : option (list (option BookError) * t) :=
  match ops with
  | [] => Some ([], b)
  | o :: ops => '(r, b) ← apply_op o b; '(rs, b) ← apply_ops ops b; Some (r :: rs, b)
  end.

Fixpoint spec_ops (ops : list op) (os : list order) : list (option BookError) * list order :=
  match ops with
  | [] => ([], os)
  | o :: ops => let '(r, os) := spec_op o os in let '(rs, os) := spec_ops ops os in (r :: rs, os)
  end.

(** ** Lemmas on arrivals *)

Lemma filter_keep {A} (P : A → Prop) `{∀ x, Decision (P x)} (l : list A) : (∀ x, x ∈ l → P x) → filter P l = l.
Proof.
  induction l as [|x l IH]; intros Hl; [done|]. rewrite filter_cons_True by (apply Hl; by left).
  f_equal. apply IH. intros. apply Hl. by right.
Qed.

Lemma filter_drop {A} (P : A → Prop) `{∀ x, Decision (P x)} (l : list A) : (∀ x, x ∈ l → ¬ P x) → filter P l = [].
Proof.
  induction l as [|x l IH]; intros Hl; [done|]. rewrite filter_cons_False by (apply Hl; by left).
  apply IH. intros. apply Hl. by right.
Qed.

Lemma total_app l k : total (l ++ k) = total l + total k.
Proof. induction l as [|x l IH]; simpl; [done|]. lia. Qed.

Lemma total_cons o l : total (o :: l) = od_quantity o + total l.
Proof. done. Qed.

(** Where a key is unique, one element has it. *)
Lemma key_unique {A K} (f : A → K) (l1 l2 : list A) x y :
  NoDup (f <$> l1 ++ x :: l2) → y ∈ l1 ++ l2 → f y ≠ f x.
Proof.
  rewrite fmap_app, fmap_cons, <-Permutation_middle, <-fmap_app. intros [Hno _]%NoDup_cons Hy E.
  apply Hno. rewrite <-E. by apply list_elem_of_fmap_2.
Qed.

Section split.
Context {A K : Type} `{EqDecision K} (f : A → K) (l1 l2 : list A) (x : A).
Context (Hu : ∀ y, y ∈ l1 ++ l2 → f y ≠ f x).

Lemma filter_key : filter (λ y, f y = f x) (l1 ++ x :: l2) = [x].
Proof.
  rewrite filter_app, filter_cons_True by done.
  rewrite !(filter_drop _); [done|..]; intros y Hy; apply Hu; set_solver.
Qed.

Lemma filter_not_key : filter (λ y, f y ≠ f x) (l1 ++ x :: l2) = l1 ++ l2.
Proof.
  rewrite filter_app, filter_cons_False by naive_solver.
  rewrite !(filter_keep _); [done|..]; intros y Hy; apply Hu; set_solver.
Qed.
End split.

Lemma at_level_app side p ns ms : at_level side p (ns ++ ms) = at_level side p ns ++ at_level side p ms.
Proof. apply filter_app. Qed.

Lemma level_of_default p ns : default (new_level p) (level_of p ns) = filled_level p ns.
Proof. by destruct ns. Qed.

Lemma level_of_snoc p ns x : level_of p (ns ++ [x]) =
  Some (level_add x.1 (od_id x.2) (od_quantity x.2) (default (new_level p) (level_of p ns))).
Proof.
  rewrite level_of_default. unfold level_of.
  destruct (ns ++ [x]) as [|y l] eqn:E; [by destruct ns|]. rewrite <-E.
  unfold filled_level, level_add. rewrite !fmap_app, total_app. do 2 f_equal.
  cbn [aggregate_qty_]. unfold total at 2. cbn. word.
Qed.

(** ** Insertion *)

Lemma levels_of_insert sd sd' m b :
  levels_of sd' (with_levels sd m b) = if decide (sd' = sd) then m else levels_of sd' b.
Proof. by destruct sd, sd'. Qed.

Lemma known_spec id (ns : list node) :
  known id ns.*2 = bool_decide (is_Some (head (filter (λ x, od_id x.2 = id) ns))).
Proof.
  induction ns as [|x ns IH]; [done|]. rewrite fmap_cons. cbn [known existsb].
  rewrite filter_cons. destruct (Z.eqb_spec (od_id x.2) id) as [E|E].
  - rewrite decide_True by done. cbn [orb head]. symmetry. apply bool_decide_true. by eexists.
  - rewrite decide_False by done. exact IH.
Qed.

Lemma insert_rep b ns side id p q : Rep b ns → known id ns.*2 = false →
  Rep (insert_at side id p q b) (ns ++ [(next_node_ b, mkOrder id side p q)]).
Proof.
  intros [] Hk. set (x := (next_node_ b, mkOrder id side p q)).
  rewrite known_spec in Hk. apply bool_decide_eq_false in Hk.
  assert (∀ y, y ∈ ns → od_id y.2 ≠ id) as Hid.
  { intros y Hy E. apply Hk. destruct (filter _ ns) as [|z l] eqn:Ef; [|by eexists].
    assert (y ∈ filter (λ x, od_id x.2 = id) ns) as Hin by by apply list_elem_of_filter.
    rewrite Ef in Hin. by apply not_elem_of_nil in Hin. }
  split; unfold insert_at; cbn -[levels_of].
  - rewrite fmap_app. apply NoDup_app. split; [done|]. split; [|apply NoDup_singleton].
    intros k [y [-> Hy]]%list_elem_of_fmap Hk'. apply list_elem_of_singleton in Hk'. by apply (Hid y).
  - rewrite fmap_app. apply NoDup_app. split; [done|]. split; [|apply NoDup_singleton].
    intros k [y [-> Hy]]%list_elem_of_fmap Hk'. apply list_elem_of_singleton in Hk'.
    rewrite Forall_forall in rp_fresh0. specialize (rp_fresh0 y Hy). simpl in Hk'. lia.
  - apply Forall_app. split; [|constructor; simpl; [lia|done]].
    eapply Forall_impl; [done|]. simpl. intros; lia.
  - intros sd' p'. rewrite at_level_app.
    assert (levels_of sd' (insert_at side id p q b) =
      if decide (sd' = side) then <[p := level_add (next_node_ b) id q
        (default (new_level p) (levels_of side b !! p))]> (levels_of side b) else levels_of sd' b) as E
      by by destruct side, sd'.
    unfold insert_at in E. cbn -[levels_of] in E. rewrite E. clear E.
    unfold at_level at 2. rewrite filter_cons, filter_nil.
    destruct (decide (sd' = side)) as [->|Hs].
    + rewrite lookup_insert. destruct (decide (p = p')) as [->|Hp].
      * rewrite decide_True by done. by rewrite level_of_snoc, rp_levels0.
      * rewrite decide_False by (by intros [_ ?]). by rewrite app_nil_r.
    + rewrite decide_False by (by intros [? _]). by rewrite app_nil_r.
  - intros id'. rewrite lookup_insert, filter_app, filter_cons, filter_nil. simpl.
    destruct (decide (id = id')) as [->|Hne].
    + rewrite (filter_drop _ ns) by exact Hid. done.
    + rewrite app_nil_r. destruct side; apply rp_index0.
Qed.

(** ** Removal *)

Lemma level_remove_filled p l1 x l2 : (∀ y, y ∈ l1 ++ l2 → y.1 ≠ x.1) →
  level_remove x.1 (filled_level p (l1 ++ x :: l2)) = Some (filled_level p (l1 ++ l2)).
Proof.
  intros Hu. unfold level_remove, filled_level. cbn [orders_ price_ aggregate_qty_].
  assert (∀ y, y ∈ (resting <$> l1) ++ (resting <$> l2) → y.1 ≠ (resting x).1) as Hu'.
  { intros y. rewrite <-fmap_app. intros [z [-> Hz]]%list_elem_of_fmap. by apply Hu. }
  rewrite !fmap_app, fmap_cons. change x.1 with (resting x).1.
  rewrite (filter_key fst _ _ _ Hu'), (filter_not_key fst _ _ _ Hu'). do 2 f_equal.
  rewrite fmap_cons, !total_app, total_cons. cbn [resting snd rs_quantity]. word.
Qed.

Lemma filter_head_in (ns : list node) id x :
  head (filter (λ x, od_id x.2 = id) ns) = Some x → x ∈ ns ∧ od_id x.2 = id.
Proof.
  destruct (filter _ ns) as [|y l] eqn:E; [done|]. intros [= ->].
  assert (x ∈ filter (λ x, od_id x.2 = id) ns) as Hx by (rewrite E; by left).
  apply list_elem_of_filter in Hx. tauto.
Qed.

(** The arrivals without [x]. *)
Definition arrivals_without (x : node) (ns : list node) : list node :=
  filter (λ y, od_id y.2 ≠ od_id x.2) ns.

Lemma erase_rep b ns x : Rep b ns → x ∈ ns →
  ∃ b', erase_at (location x) b = Some b' ∧ next_node_ b' = next_node_ b ∧
    order_index_ b' = order_index_ b ∧
    Rep (with_index (delete (od_id x.2) (order_index_ b)) b') (arrivals_without x ns).
Proof.
  intros [] (l1 & l2 & ->)%list_elem_of_split.
  pose proof (λ y, key_unique (λ x, od_id x.2) l1 l2 x y rp_ids0) as Hid.
  pose proof (λ y, key_unique fst l1 l2 x y rp_nodes0) as Hnode.
  assert (arrivals_without x (l1 ++ x :: l2) = l1 ++ l2) as Hrest
    by apply (filter_not_key (λ y, od_id y.2) _ _ _ Hid).
  set (sd := od_side x.2). set (p := od_price x.2).
  assert (at_level sd p (l1 ++ x :: l2) = at_level sd p l1 ++ x :: at_level sd p l2) as Hat.
  { rewrite at_level_app. unfold at_level at 2. by rewrite filter_cons_True. }
  assert (levels_of sd b !! p = Some (filled_level p (at_level sd p l1 ++ x :: at_level sd p l2))) as Hl.
  { rewrite rp_levels0, Hat. by destruct (at_level sd p l1). }
  unfold erase_at. cbn [location loc_side loc_price loc_it]. fold sd p. rewrite Hl. cbn [mbind option_bind].
  rewrite level_remove_filled.
  2: { intros y Hy. apply Hnode. unfold at_level in Hy. rewrite <-filter_app in Hy.
       by apply list_elem_of_filter in Hy as [_ Hy]. }
  rewrite <-at_level_app. eexists. split; [done|]. cbn [mbind option_bind].
  assert (l1 ++ l2 `sublist_of` l1 ++ x :: l2) as Hsub by (apply sublist_app; [done|by constructor]).
  split; [by destruct sd|]. split; [by destruct sd|]. rewrite Hrest. split.
  - eapply sublist_NoDup; [exact rp_ids0|]. by apply fmap_sublist.
  - eapply sublist_NoDup; [exact rp_nodes0|]. by apply fmap_sublist.
  - rewrite Forall_app, Forall_cons in rp_fresh0. apply Forall_app. destruct sd; naive_solver.
  - intros sd' p'.
    assert (levels_of sd' (with_index (delete (od_id x.2) (order_index_ b)) (with_levels sd
      (if level_empty (filled_level p (at_level sd p (l1 ++ l2))) then delete p (levels_of sd b)
       else <[p := filled_level p (at_level sd p (l1 ++ l2))]> (levels_of sd b)) b)) =
      if decide (sd' = sd) then partial_alter (λ _, level_of p (at_level sd p (l1 ++ l2))) p (levels_of sd b)
      else levels_of sd' b) as ->.
    { unfold level_empty. destruct (at_level sd p (l1 ++ l2)); by destruct sd, sd'. }
    destruct (decide (sd' = sd)) as [->|Hs].
    + destruct (decide (p' = p)) as [->|Hp]; [by rewrite lookup_partial_alter_eq|].
      rewrite lookup_partial_alter_ne by done. rewrite rp_levels0, !at_level_app. f_equal. f_equal.
      unfold at_level. rewrite filter_cons_False; [done|]. by intros [_ ?].
    + rewrite rp_levels0, !at_level_app. f_equal. f_equal.
      unfold at_level. rewrite filter_cons_False; [done|]. by intros [? _].
  - intros id. assert (∀ b', order_index_ (with_index (delete (od_id x.2) (order_index_ b)) b') =
      delete (od_id x.2) (order_index_ b)) as -> by done.
    rewrite lookup_delete. destruct (decide (od_id x.2 = id)) as [<-|Hne].
    + by rewrite (filter_drop _ (l1 ++ l2)) by exact Hid.
    + rewrite rp_index0, !filter_app, filter_cons_False by done. done.
Qed.

(** ** Each operation *)

Lemma filter_snd (P : order → Prop) `{∀ o, Decision (P o)} (ns : list node) :
  filter P ns.*2 = (filter (λ x, P x.2) ns).*2.
Proof.
  induction ns as [|x ns IH]; [done|]. rewrite fmap_cons, !filter_cons.
  destruct (decide (P x.2)); [|done]. by rewrite fmap_cons, IH.
Qed.

(** An id is looked up as the arrivals have it. *)
Lemma index_cases b ns id : Rep b ns →
  (order_index_ b !! id = None ∧ known id ns.*2 = false ∧ filter (λ o, od_id o = id) ns.*2 = []) ∨
  ∃ x, order_index_ b !! id = Some (location x) ∧ x ∈ ns ∧ od_id x.2 = id ∧
    known id ns.*2 = true ∧ ∃ l, filter (λ o, od_id o = id) ns.*2 = x.2 :: l.
Proof.
  intros HR. rewrite (rp_index _ _ HR), known_spec, filter_snd.
  destruct (filter (λ x, od_id x.2 = id) ns) as [|x l] eqn:E; [by left|]. right. exists x.
  destruct (filter_head_in ns id x) as [Hx Hid]; [by rewrite E|].
  split_and!; try done. by exists l.*2.
Qed.

Lemma without_snd id x (ns : list node) : od_id x.2 = id →
  (arrivals_without x ns).*2 = without id ns.*2.
Proof. intros <-. unfold arrivals_without, without. by rewrite filter_snd. Qed.

Lemma known_without id os : known id (without id os) = false.
Proof.
  unfold without. induction os as [|o os IH]; [done|]. rewrite filter_cons.
  destruct (decide (od_id o ≠ id)) as [Hne|]; [|done]. cbn [known existsb]. 
  apply orb_false_iff. split; [lia|exact IH].
Qed.

Lemma clear_rep b ns : Rep b ns → Rep (clear b) [].
Proof. intros []. split; try done; [constructor|constructor|]. by intros []. Qed.

(** What an operation answers and leaves is what it does to the arrivals. *)
Lemma op_refines o b ns : Rep b ns → ∃ b' ns', apply_op o b = Some ((spec_op o ns.*2).1, b') ∧
  Rep b' ns' ∧ ns'.*2 = (spec_op o ns.*2).2.
Proof.
  intros HR. destruct o as [id p q sd|id|id p q|]; cbn [apply_op spec_op].
  - unfold add_order. case_match; [by exists b, ns|]. case_match; [by exists b, ns|].
    destruct (index_cases b ns id HR) as [(-> & Hk & _)|(x & -> & _ & _ & Hk & _)]; rewrite Hk;
      [|by exists b, ns].
    eexists _, _. split; [done|]. split; [by apply insert_rep|]. by rewrite fmap_app.
  - unfold cancel_order.
    destruct (index_cases b ns id HR) as [(-> & Hk & _)|(x & -> & Hx & Hid & Hk & _)]; rewrite Hk;
      [by exists b, ns|].
    destruct (erase_rep b ns x HR Hx) as (b' & -> & _ & Hi & HR'). cbn [mbind option_bind].
    eexists _, _. split; [done|]. rewrite Hi, <-Hid. split; [done|]. by apply without_snd.
  - unfold modify_order. case_match; [by exists b, ns|]. case_match; [by exists b, ns|].
    destruct (index_cases b ns id HR) as [(-> & _ & ->)|(x & -> & Hx & Hid & _ & l & ->)];
      [by exists b, ns|].
    destruct (erase_rep b ns x HR Hx) as (b' & -> & _ & Hi & HR'). cbn [mbind option_bind].
    rewrite Hi. eexists _, _. split; [done|]. rewrite Hid in HR'. split.
    + apply insert_rep; [exact HR'|]. rewrite (without_snd id) by done. apply known_without.
    + rewrite fmap_app, (without_snd id) by done. done.
  - eexists _, _. split; [done|]. split; [by eapply clear_rep|done].
Qed.

Lemma ops_refine ops : ∀ b ns, Rep b ns → ∃ b' ns',
  apply_ops ops b = Some ((spec_ops ops ns.*2).1, b') ∧ Rep b' ns' ∧ ns'.*2 = (spec_ops ops ns.*2).2.
Proof.
  induction ops as [|o ops IH]; intros b ns HR; [by exists b, ns|]. cbn [apply_ops spec_ops].
  destruct (op_refines o b ns HR) as (b1 & ns1 & -> & HR1 & E1). cbn [mbind option_bind].
  destruct (IH b1 ns1 HR1) as (b2 & ns2 & -> & HR2 & E2). cbn [mbind option_bind].
  destruct (spec_op o ns.*2) as [r os]. simpl in *. subst os.
  destruct (spec_ops ops ns1.*2) as [rs os']. simpl in *. by exists b2, ns2.
Qed.

Lemma rep_empty : Rep empty [].
Proof. split; try done; [constructor|constructor|]. by intros []. Qed.

(** ** The views *)

#[local] Instance before_total side : Total (before side).
Proof. intros x y. destruct side; unfold before; lia. Qed.
#[local] Instance before_trans side : Transitive (before side).
Proof. intros x y z. destruct side; unfold before; lia. Qed.

(** Strictly better prices first. *)
Definition ahead (side : Side) (p p' : Price) : Prop :=
  match side with Buy => p' < p | Sell => p < p' end.

Lemma in_order_perm side b : in_order side b ≡ₚ map_to_list (levels_of side b).
Proof. apply merge_sort_Permutation. Qed.

Lemma in_order_elem side b p l : (p, l) ∈ in_order side b ↔ levels_of side b !! p = Some l.
Proof. by rewrite in_order_perm, elem_of_map_to_list. Qed.

Lemma in_order_sorted side b : StronglySorted (ahead side) (in_order side b).*1.
Proof.
  assert (NoDup (in_order side b).*1) as Hnd.
  { rewrite in_order_perm. apply NoDup_fst_map_to_list. }
  assert (StronglySorted (before side) (in_order side b)) as Hs
    by apply (StronglySorted_merge_sort (before side)).
  revert Hnd Hs. generalize (in_order side b) as l. induction l as [|x l IH]; intros Hnd Hs; [constructor|].
  apply NoDup_cons in Hnd as [Hx Hnd]. apply StronglySorted_inv in Hs as [Hs Hf].
  rewrite fmap_cons. constructor; [by apply IH|]. apply Forall_forall.
  intros p [y [-> Hy]]%list_elem_of_fmap. rewrite Forall_forall in Hf. specialize (Hf y Hy).
  assert (x.1 ≠ y.1) by (intros E; apply Hx; rewrite E; by apply list_elem_of_fmap_2).
  unfold before, ahead in *. destruct side; lia.
Qed.

(** A level and its orders, from the arrivals. *)
Definition level_view (side : Side) (os : list order) (p : Price) : PriceLevelView :=
  let at_p := filter (rests_at side p) os in mkView p (u64 (total at_p)) (vsize at_p).

Definition order_views (side : Side) (os : list order) (p : Price) : list OrderView :=
  (λ o, mkOrderView (od_id o) p (od_quantity o)) <$> filter (rests_at side p) os.

Lemma level_in_order b ns side p l : Rep b ns → (p, l) ∈ in_order side b →
  l = filled_level p (at_level side p ns).
Proof.
  intros HR Hin%in_order_elem. rewrite (rp_levels _ _ HR) in Hin. unfold level_of in Hin.
  by destruct (at_level side p ns); [|injection Hin as <-].
Qed.

Lemma prices_in_order b ns side p : Rep b ns →
  p ∈ (in_order side b).*1 ↔ ∃ o, o ∈ ns.*2 ∧ rests_at side p o.
Proof.
  intros HR. split.
  - intros [[p' l] [-> Hin]]%list_elem_of_fmap. apply in_order_elem in Hin. simpl in *.
    rewrite (rp_levels _ _ HR) in Hin. destruct (at_level side p' ns) as [|x k] eqn:E; [done|].
    assert (x ∈ at_level side p' ns) as [Hr Hx]%list_elem_of_filter by (rewrite E; by left).
    exists x.2. split; [by apply list_elem_of_fmap_2|done].
  - intros (o & [x [-> Hx]]%list_elem_of_fmap & Hr).
    assert (x ∈ at_level side p ns) as Hin by by apply list_elem_of_filter.
    apply list_elem_of_fmap. exists (p, filled_level p (at_level side p ns)). split; [done|].
    apply in_order_elem. rewrite (rp_levels _ _ HR). by destruct (at_level side p ns); [apply not_elem_of_nil in Hin|].
Qed.

Lemma views_in_order b ns side : Rep b ns →
  view_of <$> in_order side b = level_view side ns.*2 <$> (in_order side b).*1.
Proof.
  intros HR. rewrite <-list_fmap_compose. apply list_fmap_ext. intros i [p l] Hin%list_elem_of_lookup_2.
  apply (level_in_order _ _ _ _ _ HR) in Hin as ->. unfold view_of, level_view, order_count, vsize. simpl.
  rewrite filter_snd, !length_fmap. done.
Qed.

Lemma orders_in_order b ns side : Rep b ns →
  orders_at <$> in_order side b = order_views side ns.*2 <$> (in_order side b).*1.
Proof.
  intros HR. rewrite <-list_fmap_compose. apply list_fmap_ext. intros i [p l] Hin%list_elem_of_lookup_2.
  apply (level_in_order _ _ _ _ _ HR) in Hin as ->. unfold orders_at, order_views. simpl.
  rewrite filter_snd, <-!list_fmap_compose. done.
Qed.

Lemma has_order_known b ns id : Rep b ns → has_order id b = known id ns.*2.
Proof.
  intros HR. unfold has_order.
  by destruct (index_cases b ns id HR) as [(-> & -> & _)|(x & -> & _ & _ & -> & _)].
Qed.

(** What the book's accessors show of a list of arrivals. *)
Definition shows (b : t) (os : list order) : Prop :=
  (∀ id, has_order id b = known id os) ∧
  ∀ side, ∃ ps, StronglySorted (ahead side) ps ∧
    (∀ p, p ∈ ps ↔ ∃ o, o ∈ os ∧ rests_at side p o) ∧
    best side b = head (level_view side os <$> ps) ∧
    (∀ n, top side n b = take n (level_view side os <$> ps)) ∧
    all_orders side b = concat (order_views side os <$> ps).

Lemma rep_shows b ns : Rep b ns → shows b ns.*2.
Proof.
  intros HR. split; [intros id; by apply has_order_known|]. intros side. exists (in_order side b).*1.
  split; [apply in_order_sorted|]. split; [intros p; by apply prices_in_order|].
  unfold best, top, all_orders.
  rewrite (orders_in_order b ns side HR), <-(views_in_order b ns side HR). split; [|split; [|done]].
  - by destruct (in_order side b).
  - intros n. by rewrite fmap_take.
Qed.

(** C16: the feed's book is its orders in order of arrival. From the empty book, through
    any operations, nothing dangles; each answers by the first of its checks that
    fails, with nothing changed; a modify moves the order behind every other. The
    accessors show, best price first, each price that has an order, with the 64-bit
    sum of its quantities and their number, and its orders in order of arrival. *)
Theorem feed_book_is_arrivals ops :
  ∃ b, apply_ops ops empty = Some ((spec_ops ops []).1, b) ∧ shows b (spec_ops ops []).2.
Proof.
  destruct (ops_refine ops empty [] rep_empty) as (b & ns & E & HR & Hns).
  exists b. split; [exact E|]. change (spec_ops ops []) with (spec_ops ops ([] : list node).*2).
  rewrite <-Hns. by apply rep_shows.
Qed.

End OrderBook.
