(* ===== verification/Sequence.v ===== *)
(** * Sequence numbers ([common/sequence_validator.hpp], [net/packet_sequence_tracker.hpp])

    The classifier of received sequence numbers, and the statistics of packets kept
    with it. The main theorem accounts for every number between the first and the
    highest seen. *)

From S2P Require Import Prelude Types.

Module SequenceValidator.

Abbreviation Sequence := Z (only parsing).

Inductive SequenceOutcome := InOrder | Duplicate | OutOfOrder | Missing.

#[export] Instance SequenceOutcome_eq_dec : EqDecision SequenceOutcome.
Proof. solve_decision. Defined.

Record SequenceCheck := mkCheck {
  sc_outcome : SequenceOutcome;
  sc_observed : Sequence;
  sc_expected : Sequence;
}.

(** The member [last_seen_] is the whole state. *)
Abbreviation t := (option Sequence) (only parsing).

Definition check (seq : Sequence) (last_seen_ : t) : SequenceCheck * t :=
  match last_seen_ with
  | None => (mkCheck InOrder seq 0, Some seq)
  | Some last =>
      if seq =? u64 (last + 1) then (mkCheck InOrder seq 0, Some seq)
      else if seq =? last then (mkCheck Duplicate seq 0, Some last)
      else if seq <? last then (mkCheck OutOfOrder seq 0, Some last)
      else (mkCheck Missing seq (u64 (last + 1)), Some seq)
  end.

Definition reset (seq : Sequence) (_ : t) : t := Some seq.

(** ** Packets *)

Record PacketSequenceStats := mkStats {
  packets_seen : Z;
  in_order : Z;
  duplicate : Z;
  out_of_order : Z;
  missing_events : Z;
}.

Definition no_packets : PacketSequenceStats := mkStats 0 0 0 0 0.

(** [PacketSequenceTracker::observe]: the statistics are 64-bit counters. *)
Definition observe (packet_sequence : Sequence) (validator_ : t) (stats_ : PacketSequenceStats) :
    SequenceCheck * t * PacketSequenceStats :=
  let '(c, validator_) := check packet_sequence validator_ in
  let seen := u64 (packets_seen stats_ + 1) in
  (c, validator_,
   match sc_outcome c with
   | InOrder => mkStats seen (u64 (in_order stats_ + 1)) (duplicate stats_) (out_of_order stats_)
                  (missing_events stats_)
   | Duplicate => mkStats seen (in_order stats_) (u64 (duplicate stats_ + 1)) (out_of_order stats_)
                    (missing_events stats_)
   | OutOfOrder => mkStats seen (in_order stats_) (duplicate stats_) (u64 (out_of_order stats_ + 1))
                     (missing_events stats_)
   | Missing => mkStats seen (in_order stats_) (duplicate stats_) (out_of_order stats_)
                  (u64 (missing_events stats_ + 1))
   end).

(** A stream of numbers, observed. *)
Fixpoint observe_all (seqs : list Sequence) (v : t) (s : PacketSequenceStats) :
    list SequenceCheck * t * PacketSequenceStats :=
  match seqs with
  | [] => ([], v, s)
  | n :: seqs =>
      let '(c, v, s) := observe n v s in
      let '(cs, v, s) := observe_all seqs v s in (c :: cs, v, s)
  end.

(** ** Accounting *)

(** The numbers that were taken, and the ranges reported missing. *)
Definition taken (cs : list SequenceCheck) : list Sequence :=
  omap (λ c, match sc_outcome c with InOrder | Missing => Some (sc_observed c) | _ => None end) cs.

Definition skipped (cs : list SequenceCheck) : list Sequence :=
  concat ((λ c, match sc_outcome c with
                | Missing => seqZ (sc_expected c) (sc_observed c - sc_expected c)
                | _ => []
                end) <$> cs).

Definition count (o : SequenceOutcome) (cs : list SequenceCheck) : Z :=
  vsize (filter (λ c, sc_outcome c = o) cs).

(** A number that leaves room for its successor. *)
Definition counted (n : Sequence) : Prop := 0 ≤ n < 2 ^ 64 - 1.

Lemma check_seen n last : counted n → counted last →
  let '(c, v) := check n (Some last) in
  ∃ last', v = Some last' ∧ last ≤ last' ∧ counted last' ∧
    taken [c] ++ skipped [c] ≡ₚ seqZ (last + 1) (last' - last).
Proof.
  intros Hn Hl. unfold check. rewrite u64_small by (unfold in_u64, counted in *; lia).
  unfold counted, taken, skipped in *.
  destruct (Z.eqb_spec n (last + 1)) as [->|H1].
  { exists (last + 1). replace (last + 1 - last) with 1 by lia. repeat split; lia || done. }
  destruct (Z.eqb_spec n last) as [->|H2].
  { exists last. rewrite Z.sub_diag. repeat split; lia || done. }
  destruct (Z.ltb_spec n last) as [H3|H3].
  { exists last. rewrite Z.sub_diag. repeat split; lia || done. }
  exists n. split; [done|]. split; [lia|]. split; [lia|]. cbn. rewrite app_nil_r.
  replace (n - last) with ((n - (last + 1)) + 1) by lia.
  rewrite (seqZ_app (last + 1) (n - (last + 1)) 1) by lia.
  replace (last + 1 + (n - (last + 1))) with n by lia.
  assert (seqZ n 1 = [n]) as -> by (unfold seqZ; cbn; f_equal; lia). apply (Permutation_app_comm [n]).
Qed.

Lemma taken_cons c cs : taken (c :: cs) = taken [c] ++ taken cs.
Proof. unfold taken. apply (omap_app _ [c] cs). Qed.

Lemma skipped_cons c cs : skipped (c :: cs) = skipped [c] ++ skipped cs.
Proof. unfold skipped. by rewrite fmap_cons; cbn; rewrite app_nil_r. Qed.

Lemma observe_all_seen seqs : ∀ last s, Forall counted seqs → counted last →
  let '(cs, v, _) := observe_all seqs (Some last) s in
  ∃ last', v = Some last' ∧ last ≤ last' ∧
    taken cs ++ skipped cs ≡ₚ seqZ (last + 1) (last' - last).
Proof.
  induction seqs as [|n seqs IH]; intros last s Hs Hl; cbn [observe_all].
  { exists last. rewrite Z.sub_diag. repeat split; lia || done. }
  apply Forall_cons in Hs as [Hn Hs]. unfold observe. pose proof (check_seen n last Hn Hl) as Hc.
  destruct (check n (Some last)) as [c v]. destruct Hc as (l1 & -> & Hle1 & Hl1 & E1).
  set (s' := match sc_outcome c with InOrder => _ | _ => _ end).
  specialize (IH l1 s' Hs Hl1). destruct (observe_all seqs (Some l1) s') as [[cs v] s''].
  destruct IH as (l2 & -> & Hle2 & E2). exists l2. split; [done|]. split; [lia|].
  rewrite taken_cons, skipped_cons. replace (l2 - last) with ((l1 - last) + (l2 - l1)) by lia.
  rewrite seqZ_app by lia. replace (last + 1 + (l1 - last)) with (l1 + 1) by lia.
  rewrite <-E1, <-E2. solve_Permutation.
Qed.

(** The counters count. *)
Definition stats_after (cs : list SequenceCheck) (s : PacketSequenceStats) : PacketSequenceStats :=
  mkStats (u64 (packets_seen s + vsize cs)) (u64 (in_order s + count InOrder cs))
    (u64 (duplicate s + count Duplicate cs)) (u64 (out_of_order s + count OutOfOrder cs))
    (u64 (missing_events s + count Missing cs)).

Lemma count_cons o c cs : count o (c :: cs) = (if decide (sc_outcome c = o) then 1 else 0) + count o cs.
Proof. unfold count. rewrite filter_cons. case_decide; [|done]. unfold vsize. cbn [length]. lia. Qed.

Definition stats_ok (s : PacketSequenceStats) : Prop :=
  in_u64 (packets_seen s) ∧ in_u64 (in_order s) ∧ in_u64 (duplicate s) ∧ in_u64 (out_of_order s) ∧
  in_u64 (missing_events s).

Lemma stats_after_ok cs s : stats_ok (stats_after cs s).
Proof. split_and!; apply u64_range. Qed.

Lemma stats_after_nil s : stats_ok s → stats_after [] s = s.
Proof.
  intros (? & ? & ? & ? & ?). destruct s as [a b c d e]. unfold stats_after, count, vsize. simpl in *.
  by rewrite !Z.add_0_r, !u64_small.
Qed.

Lemma stats_after_cons c cs s : stats_after cs (stats_after [c] s) = stats_after (c :: cs) s.
Proof.
  assert (vsize (c :: cs) = 1 + vsize cs) as Hv by (unfold vsize; simpl; lia).
  assert (∀ o, count o [] = 0) as H0 by done.
  unfold stats_after. rewrite !(count_cons _ c), !H0, Hv.
  cbn [packets_seen in_order duplicate out_of_order missing_events].
  change (vsize [c]) with 1. f_equal; word.
Qed.

Lemma observe_stats n v s : stats_ok s →
  (observe n v s).2 = stats_after [(observe n v s).1.1] s.
Proof.
  intros Hs. unfold observe. destruct (check n v) as [c v']. cbn [fst snd].
  unfold stats_ok in Hs. destruct s as [a b d e f]. simpl in Hs. destruct Hs as (? & ? & ? & ? & ?).
  unfold stats_after. rewrite !(count_cons _ c). unfold count. cbn -[u64].
  destruct (sc_outcome c); cbn -[u64]; rewrite ?Z.add_0_r; f_equal; by rewrite u64_small.
Qed.

Lemma observe_all_stats seqs : ∀ v s, stats_ok s →
  length (observe_all seqs v s).1.1 = length seqs ∧
  (observe_all seqs v s).2 = stats_after (observe_all seqs v s).1.1 s.
Proof.
  induction seqs as [|n seqs IH]; intros v s Hs; cbn [observe_all]; [by rewrite stats_after_nil|].
  pose proof (observe_stats n v s Hs) as E1. destruct (observe n v s) as [[c v'] s']. cbn [fst snd] in E1.
  destruct (IH v' s') as [El E2]; [subst s'; apply stats_after_ok|].
  destruct (observe_all seqs v' s') as [[cs v''] s'']. cbn [fst snd] in *.
  split; [simpl; by f_equal|]. by rewrite E2, E1, stats_after_cons.
Qed.

(** Every number is accounted for. Whatever numbers arrive, in whatever order, the
    numbers from the first to the highest seen are, each exactly once, either taken
    or in one reported gap; what is classified as a duplicate or out of order is
    neither. The packet statistics count each outcome and all of them. *)
Theorem numbers_accounted_for n seqs : Forall counted (n :: seqs) →
  ∃ cs last, observe_all (n :: seqs) None no_packets = (cs, Some last, stats_after cs no_packets) ∧
    length cs = S (length seqs) ∧ n ≤ last ∧
    taken cs ++ skipped cs ≡ₚ seqZ n (last - n + 1).
Proof.
  intros [Hn Hs]%Forall_cons.
  destruct (observe_all_stats (n :: seqs) None no_packets) as [Hl Hst]; [by split_and!|].
  cbn [observe_all observe check sc_outcome] in *.
  set (s' := mkStats _ _ _ _ _) in *. pose proof (observe_all_seen seqs n s' Hs Hn) as H.
  destruct (observe_all seqs (Some n) s') as [[cs v] s'']. cbn [fst snd] in *.
  destruct H as (last & -> & Hle & E). exists (mkCheck InOrder n 0 :: cs), last.
  rewrite <-Hst. split; [done|]. split; [done|]. split; [lia|].
  rewrite taken_cons, skipped_cons. replace (last - n + 1) with (1 + (last - n)) by lia.
  rewrite seqZ_app by lia. rewrite <-E.
  assert (seqZ n 1 = [n]) as -> by (unfold seqZ; cbn; f_equal; lia). done.
Qed.

Lemma numbers_accounted_for_witness :
  Forall counted [5; 6; 6; 9; 7] ∧
  ∃ cs last, observe_all [5; 6; 6; 9; 7] None no_packets = (cs, Some last, stats_after cs no_packets) ∧
    length cs = 5%nat ∧ 5 ≤ last ∧ taken cs ++ skipped cs ≡ₚ seqZ 5 (last - 5 + 1).
Proof.
  assert (Forall counted [5; 6; 6; 9; 7]) as H by (unfold counted; repeat constructor; lia).
  split; [exact H|]. apply (numbers_accounted_for 5 [6; 6; 9; 7] H).
Defined.

End SequenceValidator.
