(* ===== verification/BookViews.v ===== *)
(** * What the feed's book shows determines its orders

    Two books that stand for the same orders at every price show the same; and the
    orders a book lists, added to an empty book in the order listed, are the same at
    every price. *)

From stdpp Require Import sorting.
From S2P Require Import Prelude Types OrderBook.

Module BookViews.
Import OrderBook.

(** ** Lists with the same classes *)

Section classes.
Context {A K : Type} `{EqDecision K} (f : A → K).

Lemma classes_split (k : list A) x l :
  filter (λ y, f y = f x) k = x :: l → ∃ k1 k2, k = k1 ++ x :: k2 ∧
    (∀ y, y ∈ k1 → f y ≠ f x) ∧ filter (λ y, f y = f x) k2 = l.
Proof.
  induction k as [|y k IH]; [done|]. rewrite filter_cons. case_decide as Hy.
  - intros [= -> El]. exists [], k. split; [done|]. split; [|done]. by intros y ?%not_elem_of_nil.
  - intros (k1 & k2 & -> & Hk1 & El)%IH. exists (y :: k1), k2. split; [done|]. split; [|done].
    intros z [->|Hz]%elem_of_cons; [done|by apply Hk1].
Qed.

(** Lists whose elements of each class are the same, in the same order, are
    permutations of each other. *)
Lemma classes_permutation (l : list A) : ∀ k,
  (∀ c, filter (λ x, f x = c) l = filter (λ x, f x = c) k) → l ≡ₚ k.
Proof.
  induction l as [|x l IH]; intros k Hk.
  { destruct k as [|y k]; [done|]. specialize (Hk (f y)). by rewrite filter_cons_True in Hk. }
  pose proof (Hk (f x)) as Hx. rewrite filter_cons_True in Hx by done. symmetry in Hx.
  destruct (classes_split _ _ _ Hx) as (k1 & k2 & -> & Hk1 & El).
  rewrite <-Permutation_middle. constructor. apply IH. intros c. specialize (Hk c).
  rewrite filter_app, !filter_cons in Hk. rewrite filter_app. case_decide as Hc; [|done].
  subst c. rewrite (filter_drop _ k1 Hk1) in Hk |- *. cbn [app] in *. by injection Hk.
Qed.
End classes.

(** ** The same views *)

Definition same_views (b b' : t) : Prop :=
  (∀ id, has_order id b = has_order id b') ∧
  ∀ side, best side b = best side b' ∧ (∀ n, top side n b = top side n b') ∧
    all_orders side b = all_orders side b'.

(** Orders at each price, in order of arrival. *)
Definition same_queues (os os' : list order) : Prop :=
  ∀ side p, filter (rests_at side p) os = filter (rests_at side p) os'.

Lemma same_queues_perm os os' : same_queues os os' → os ≡ₚ os'.
Proof.
  intros Hq. apply (classes_permutation (λ o, (od_side o, od_price o))). intros [sd p].
  specialize (Hq sd p). unfold rests_at in Hq.
  rewrite !(list_filter_iff (λ o, (od_side o, od_price o) = (sd, p))
    (λ o, od_side o = sd ∧ od_price o = p)); [done|..]; intros o; (split; [by intros [= <- <-]|by intros [<- <-]]).
Qed.

#[export] Instance ahead_antisymm side : AntiSymm (=) (ahead side).
Proof. intros x y. unfold ahead. destruct side; lia. Qed.

Lemma ahead_nodup side ps : StronglySorted (ahead side) ps → NoDup ps.
Proof.
  induction 1 as [|p ps _ IH Hf]; constructor; [|done]. intros Hp.
  rewrite Forall_forall in Hf. specialize (Hf p Hp). unfold ahead in Hf. destruct side; lia.
Qed.

Lemma shows_same b os b' os' : shows b os → shows b' os' → same_queues os os' → same_views b b'.
Proof.
  intros [Hi Hs] [Hi' Hs'] Hq. pose proof (same_queues_perm _ _ Hq) as Hp.
  assert (∀ o, o ∈ os ↔ o ∈ os') as Hin by (intros o; by rewrite Hp). split.
  - intros id. rewrite Hi, Hi'. unfold known. apply eq_true_iff_eq. rewrite !existsb_exists.
    setoid_rewrite <-list_elem_of_In. by setoid_rewrite Hin.
  - intros side. destruct (Hs side) as (ps & Ss & Hps & -> & Ht & ->).
    destruct (Hs' side) as (ps' & Ss' & Hps' & -> & Ht' & ->).
    assert (ps = ps') as <-.
    { apply (StronglySorted_unique (ahead side)); [done..|].
      apply NoDup_Permutation; [by eapply ahead_nodup..|]. intros p. rewrite Hps, Hps'.
      by setoid_rewrite Hin. }
    assert (∀ p, level_view side os p = level_view side os' p) as Hl.
    { intros p. unfold level_view. by rewrite (Hq side p). }
    assert (level_view side os <$> ps = level_view side os' <$> ps) as E
      by (apply list_fmap_ext; intros; apply Hl).
    split; [by rewrite E|]. split; [intros n; by rewrite Ht, Ht', E|]. f_equal.
    apply list_fmap_ext. intros. unfold order_views. by rewrite (Hq side).
Qed.

(** ** Listing *)

Definition listed_side (side : Side) (b : t) : list order :=
  (λ v, mkOrder (ov_id v) side (ov_price v) (ov_quantity v)) <$> all_orders side b.

(** Bids best first, then asks best first. *)
Definition listed (b : t) : list order := listed_side Buy b ++ listed_side Sell b.

Lemma rests_at_filter side side' p p' (os : list order) :
  filter (rests_at side p) (filter (rests_at side' p') os) =
    if decide (side = side' ∧ p = p') then filter (rests_at side p) os else [].
Proof.
  case_decide as Hd.
  - destruct Hd as [-> ->]. apply filter_keep. by intros o [? _]%list_elem_of_filter.
  - apply filter_drop. intros o [[<- <-] _]%list_elem_of_filter [<- <-]. by apply Hd.
Qed.

Lemma filter_queues side p side' (os : list order) ps : NoDup ps →
  filter (rests_at side p) (concat ((λ p', filter (rests_at side' p') os) <$> ps)) =
    if decide (side = side' ∧ p ∈ ps) then filter (rests_at side p) os else [].
Proof.
  induction 1 as [|p' ps Hno _ IH]; [by rewrite decide_False by set_solver|].
  rewrite fmap_cons. cbn [concat]. rewrite filter_app, rests_at_filter, IH.
  destruct (decide (side = side')) as [->|Hs]; [|by repeat case_decide; naive_solver].
  destruct (decide (p = p')) as [->|].
  - rewrite decide_True, decide_False, decide_True by set_solver. apply app_nil_r.
  - rewrite decide_False by naive_solver. cbn [app].
    repeat case_decide; set_solver.
Qed.

Lemma listed_side_queues b os side : shows b os → ∃ ps, NoDup ps ∧
  (∀ p, p ∈ ps ↔ ∃ o, o ∈ os ∧ rests_at side p o) ∧
  listed_side side b = concat ((λ p, filter (rests_at side p) os) <$> ps).
Proof.
  intros [_ Hs]. destruct (Hs side) as (ps & Ss & Hps & _ & _ & E). exists ps.
  split; [by eapply ahead_nodup|]. split; [done|]. unfold listed_side. rewrite E. clear.
  induction ps as [|p ps IH]; [done|]. rewrite !fmap_cons. cbn [concat]. rewrite fmap_app, IH. f_equal.
  unfold order_views. rewrite <-list_fmap_compose. rewrite <-(list_fmap_id (filter _ os)) at 2.
  apply list_fmap_ext. intros i o Ho%list_elem_of_lookup_2%list_elem_of_filter. simpl.
  destruct Ho as [[<- <-] _]. by destruct o.
Qed.

Lemma listed_queues b os : shows b os → same_queues (listed b) os.
Proof.
  intros Hb sd p. unfold listed. rewrite filter_app.
  destruct (listed_side_queues _ _ Buy Hb) as (bs & Nb & Hbs & ->).
  destruct (listed_side_queues _ _ Sell Hb) as (ss & Ns & Hss & ->).
  rewrite !filter_queues by done.
  assert (∀ ps : list Price, (∀ p, p ∈ ps ↔ ∃ o, o ∈ os ∧ rests_at sd p o) →
    (if decide (sd = sd ∧ p ∈ ps) then filter (rests_at sd p) os else []) = filter (rests_at sd p) os) as Hall.
  { intros ps Hps. case_decide as Hd; [done|]. symmetry. apply filter_drop. intros o Ho Hr.
    apply Hd. split; [done|]. apply Hps. eauto. }
  destruct sd.
  - rewrite Hall by done. rewrite (decide_False (P := Buy = Sell ∧ _)) by naive_solver. apply app_nil_r.
  - rewrite (decide_False (P := Sell = Buy ∧ _)) by naive_solver. by apply Hall.
Qed.

End BookViews.
