(* ===== verification/EventFile.v ===== *)
(** * Event files ([replay/event_file_writer.cpp], [replay/event_file_reader.cpp])

    A file of market-data frames, one after the other, with nothing around them. *)

From S2P Require Import Prelude ByteIo FrameFormat FileFrames MarketDataCodec.

Module EventFile.
Import FileFrames MarketDataCodec.

(** [EventFileWriter::write], on a file opened empty. *)
Definition write (file : list Z) (event : Event) : list Z := file ++ encode_event event [].

Definition written (events : list Event) : list Z := foldl write [] events.

(** [EventFileReader::next] *)
Definition next (file : list Z) : option (Event + DecodeError) * list Z :=
  let '(frame_buf, file) := read HEADER_SIZE file in
  if vsize frame_buf =? 0 then (None, file)
  else if vsize frame_buf <? Z.of_nat HEADER_SIZE then (Some (inr TruncatedHeader), file)
  else match decode_header frame_buf with
       | inr e => (Some (inr e), file)
       | inl header =>
           let '(payload, file) := read (Z.to_nat (h_payload_size header)) file in
           if vsize payload <? h_payload_size header then (Some (inr TruncatedPayload), file)
           else (Some (decode_event (frame_buf ++ payload)), file)
       end.

Abbreviation frames := (FileFrames.frames next).

Lemma event_read_frame file : next file =
  read_frame HEADER_SIZE decode_header h_payload_size TruncatedHeader TruncatedPayload inr
    decode_event file.
Proof. done. Qed.

#[global] Instance event_reader : FrameReader next.
Proof. apply read_frame_shrinks. unfold HEADER_SIZE. lia. Qed.

Lemma next_event event rest : event_typed event →
  next (encode_event event [] ++ rest) = (Some (inl event), rest).
Proof.
  intros He. destruct (event_header_ok event He). rewrite encode_event_bytes, app_nil_l, <-app_assoc.
  rewrite event_read_frame, (read_frame_written _ _ _ _ _ _ _ (HC := event_header_codec))
    by (done || apply event_length_payload || (unfold HEADER_SIZE; lia)).
  do 2 f_equal. pose proof (event_encode_decode event [] He) as E.
  by rewrite encode_event_bytes, app_nil_l, app_nil_r in E.
Qed.

Lemma written_bytes events : written events = encode_all events.
Proof.
  assert (∀ file, foldl write file events = file ++ encode_all events) as E.
  { unfold encode_all. induction events as [|e events IH]; intros file; cbn [foldl map concat]; [by rewrite app_nil_r|].
    rewrite IH. unfold write. by rewrite <-app_assoc. }
  apply E.
Qed.

(** What was written is read back, and then whatever follows. *)
Lemma frames_events events file : Forall event_typed events →
  frames (written events ++ file) = map inl events ++ frames file.
Proof.
  intros He. rewrite written_bytes.
  exact (frames_written next (λ e, encode_event e []) inl event_typed next_event events He file).
Qed.

End EventFile.
