(* ===== verification/BookManager.v ===== *)
(** * The feed's books and the events that change them ([book/book_manager.hpp],
      [replay/replay_engine.cpp])

    One order book per instrument, created when an event first names it, and the trade
    statistics. [apply_event] dispatches a market-data message. *)

From stdpp Require Import sorting.
From S2P Require Import Prelude Types MarketDataCodec OrderBook.

Module BookManager.
Import MarketDataCodec.

Record InstrumentStats := mkTradeStats {
  trade_count : Z;
  traded_quantity : Quantity;
  last_trade_price : Price;
}.

Record t := mk {
  books_ : gmap InstrumentId OrderBook.t;
  stats_ : gmap InstrumentId InstrumentStats;
}.

Definition empty : t := mk ∅ ∅.

(** [books_[id]] creates the book. *)
Definition book_for (id : InstrumentId) (m : t) : OrderBook.t :=
  default OrderBook.empty (books_ m !! id).

Definition set_book (id : InstrumentId) (b : OrderBook.t) (m : t) : t :=
  mk (<[id := b]> (books_ m)) (stats_ m).

Definition find_book (id : InstrumentId) (m : t) : option OrderBook.t := books_ m !! id.

Definition record_trade (id : InstrumentId) (price : Price) (qty : Quantity) (m : t) : t :=
  let s := default (mkTradeStats 0 0 0) (stats_ m !! id) in
  mk (books_ m) (<[id := mkTradeStats (u64 (trade_count s + 1)) (u64 (traded_quantity s + qty)) price]>
                   (stats_ m)).

Definition trade_stats (id : InstrumentId) (m : t) : option InstrumentStats := stats_ m !! id.

(** A [std::set] of the ids, as a vector. *)
Definition instruments (m : t) : list InstrumentId :=
  merge_sort Z.le (elements (dom (books_ m) ∪ dom (stats_ m))).

(** ** Events *)

Record ReplayStats := mkReplayStats {
  messages_processed : Z;
  decode_failures : Z;
  sequence_failures : Z;
  recoveries : Z;
  adds : Z;
  cancels : Z;
  modifies : Z;
  trades : Z;
  clears : Z;
  book_errors : Z;
}.

Definition no_stats : ReplayStats := mkReplayStats 0 0 0 0 0 0 0 0 0 0.

(** [stats.adds += 1], ...: one counter of the event's kind, and [book_errors] where
    the book answered an error. *)
Definition count_event (event : Event) (err : option OrderBook.BookError) (s : ReplayStats) : ReplayStats :=
  let bump (b : bool) (n : Z) := if b then u64 (n + 1) else n in
  mkReplayStats (messages_processed s) (decode_failures s) (sequence_failures s) (recoveries s)
    (bump (match event with MAdd _ => true | _ => false end) (adds s))
    (bump (match event with MCancel _ => true | _ => false end) (cancels s))
    (bump (match event with MModify _ => true | _ => false end) (modifies s))
    (bump (match event with MTrade _ => true | _ => false end) (trades s))
    (bump (match event with MClear _ => true | _ => false end) (clears s))
    (bump (match err with Some _ => true | None => false end) (book_errors s)).

(** [books.book_for(msg.instrument_id)], then the operation on that book. *)
Definition on_book (id : InstrumentId) (f : OrderBook.t → option (option OrderBook.BookError * OrderBook.t))
    (m : t) : option (option OrderBook.BookError * t) :=
  '(err, b) ← f (book_for id m); Some (err, set_book id b m).

Definition apply_event (event : Event) (books : t) (stats : ReplayStats) : option (t * ReplayStats) :=
  '(err, books) ←
    match event with
    | MAdd m => on_book (ao_instrument_id m)
        (λ b, Some (OrderBook.add_order (ao_order_id m) (ao_price m) (ao_quantity m) (ao_side m) b)) books
    | MCancel m => on_book (xo_instrument_id m) (OrderBook.cancel_order (xo_order_id m)) books
    | MModify m => on_book (mo_instrument_id m)
        (OrderBook.modify_order (mo_order_id m) (mo_new_price m) (mo_new_quantity m)) books
    | MTrade m => Some (None, record_trade (tr_instrument_id m) (tr_price m) (tr_quantity m) books)
    | MClear m => on_book (cb_instrument_id m) (λ b, Some (None, OrderBook.clear b)) books
    end;
  Some (books, count_event event err stats).

Fixpoint apply_events (events : list Event) (books : t) (stats : ReplayStats) :
    option (t * ReplayStats) :=
  match events with
  | [] => Some (books, stats)
  | event :: events => '(books, stats) ← apply_event event books stats; apply_events events books stats
  end.

(** ** What the books stand for: arrivals per instrument *)

Abbreviation arrivals := (gmap InstrumentId (list OrderBook.order)).

Definition stands_for (b : OrderBook.t) (os : list OrderBook.order) : Prop :=
  ∃ ns, OrderBook.Rep b ns ∧ ns.*2 = os.

Definition Rep (m : t) (a : arrivals) : Prop :=
  ∀ id, option_Forall2 stands_for (books_ m !! id) (a !! id).

Definition arrivals_of (id : InstrumentId) (a : arrivals) : list OrderBook.order :=
  default [] (a !! id).

(** The operation a message asks of a book, if it concerns a book. *)
Definition op_of (event : Event) : option (InstrumentId * OrderBook.op) :=
  match event with
  | MAdd m => Some (ao_instrument_id m, OrderBook.Add (ao_order_id m) (ao_price m) (ao_quantity m) (ao_side m))
  | MCancel m => Some (xo_instrument_id m, OrderBook.Cancel (xo_order_id m))
  | MModify m => Some (mo_instrument_id m, OrderBook.Modify (mo_order_id m) (mo_new_price m) (mo_new_quantity m))
  | MTrade _ => None
  | MClear m => Some (cb_instrument_id m, OrderBook.Clear)
  end.

Definition spec_event (event : Event) (a : arrivals) : option OrderBook.BookError * arrivals :=
  match op_of event with
  | None => (None, a)
  | Some (id, o) => let '(err, os) := OrderBook.spec_op o (arrivals_of id a) in (err, <[id := os]> a)
  end.

Fixpoint spec_events (events : list Event) (a : arrivals) : arrivals :=
  match events with [] => a | ev :: events => spec_events events (spec_event ev a).2 end.

Lemma rep_book m a id : Rep m a → stands_for (book_for id m) (arrivals_of id a).
Proof.
  intros HR. specialize (HR id). unfold book_for, arrivals_of.
  inversion HR as [b os H Hb Ha|Hb Ha]; rewrite <-?Hb, <-?Ha; simpl; [done|].
  exists []. split; [apply OrderBook.rep_empty|done].
Qed.

Lemma rep_set m a id b os : Rep m a → stands_for b os → Rep (set_book id b m) (<[id := os]> a).
Proof.
  intros HR Hb id'. unfold set_book. simpl. rewrite !lookup_insert.
  destruct (decide (id = id')); [by constructor|apply HR].
Qed.

Lemma on_book_refines m a id o : Rep m a →
  ∃ b', on_book id (OrderBook.apply_op o) m = Some ((OrderBook.spec_op o (arrivals_of id a)).1, set_book id b' m) ∧
    Rep (set_book id b' m) (<[id := (OrderBook.spec_op o (arrivals_of id a)).2]> a).
Proof.
  intros HR. destruct (rep_book m a id HR) as (ns & Hb & Hns).
  destruct (OrderBook.op_refines o _ _ Hb) as (b' & ns' & E & HR' & Hns').
  exists b'. unfold on_book. rewrite E, Hns. split; [done|]. apply rep_set; [done|].
  exists ns'. split; [done|]. by rewrite Hns', Hns.
Qed.

(** A message is applied as the arrivals say, and never fails. *)
Lemma apply_event_refines event m a : Rep m a → ∃ m',
  (∀ s, apply_event event m s = Some (m', count_event event (spec_event event a).1 s)) ∧
  Rep m' (spec_event event a).2.
Proof.
  intros HR. unfold apply_event, spec_event.
  assert (∀ id o, op_of event = Some (id, o) → ∃ m',
    on_book id (OrderBook.apply_op o) m = Some ((OrderBook.spec_op o (arrivals_of id a)).1, m') ∧
    Rep m' (<[id := (OrderBook.spec_op o (arrivals_of id a)).2]> a)) as Hop.
  { intros id o _. destruct (on_book_refines m a id o HR) as (b' & E & HR'). by exists (set_book id b' m). }
  destruct event as [e|e|e|e|e]; cbn [op_of] in Hop |- *;
    try (destruct (Hop _ _ eq_refl) as (m' & E & HR'); exists m';
         match type of E with ?applied = _ =>
           match goal with |- context [on_book ?id ?f ?m] => change (on_book id f m) with applied end
         end;
         rewrite E; cbn [mbind option_bind]; destruct (OrderBook.spec_op _ _); by split).
  eexists. split; [done|]. exact HR.
Qed.

Lemma apply_events_refines events : ∀ m a s, Rep m a → ∃ m' s',
  apply_events events m s = Some (m', s') ∧ Rep m' (spec_events events a).
Proof.
  induction events as [|ev events IH]; intros m a s HR; [by exists m, s|].
  destruct (apply_event_refines ev m a HR) as (m1 & E & HR1).
  cbn [apply_events spec_events]. rewrite E. cbn [mbind option_bind]. by apply IH.
Qed.

Lemma books_rep_empty : Rep empty ∅.
Proof. intros id. rewrite !lookup_empty. constructor. Qed.

End BookManager.
