(* ===== verification/Snapshot.v ===== *)
(** * Snapshots of the feed's books ([replay/snapshot.cpp])

    A snapshot is a header and one [AddOrder] frame per resting order. A file is its
    bytes; a path that cannot be opened is [None]. *)

From stdpp Require Import sorting.
From S2P Require Import Prelude Types ByteIo FrameFormat FileFrames MarketDataCodec EventFile OrderBook BookManager.

Module Snapshot.
Import ByteIo MarketDataCodec BookManager.

Definition SNAPSHOT_MAGIC : Z := 1296320562.
Definition SNAPSHOT_VERSION : Z := 1.
Definition SNAPSHOT_HEADER_SIZE : nat := 24.

(** ** Writing *)

Definition entry_of (id : InstrumentId) (side : Side) (sequence_number : Sequence)
    (o : OrderBook.OrderView) : Event :=
  MAdd (mkAddOrder sequence_number 0 (OrderBook.ov_id o) id (OrderBook.ov_price o)
    (OrderBook.ov_quantity o) side).

Definition append_side (book : OrderBook.t) (id : InstrumentId) (side : Side)
    (sequence_number : Sequence) (acc : Z * list Z) : Z * list Z :=
  foldl (λ acc o, (u64 (acc.1 + 1), encode_event (entry_of id side sequence_number o) acc.2))
    acc (OrderBook.all_orders side book).

(** The entries' count and bytes. *)
Definition entries (sequence_number : Sequence) (books : t) : Z * list Z :=
  foldl (λ acc id,
    match find_book id books with
    | None => acc
    | Some book => append_side book id Sell sequence_number (append_side book id Buy sequence_number acc)
    end) (0, []) (instruments books).

Definition put_snapshot_header (header : list Z) (sequence_number : Sequence) (entry_count : Z) : list Z :=
  let header := put_u32 header SNAPSHOT_MAGIC in
  let header := put_u16 header SNAPSHOT_VERSION in
  let header := put_u16 header 0 in
  let header := put_u64 header sequence_number in
  put_u64 header entry_count.

(** The file [write_snapshot] writes, where it can open it. *)
Definition write_snapshot (sequence_number : Sequence) (books : t) : list Z :=
  let '(entry_count, bytes) := entries sequence_number books in
  put_snapshot_header [] sequence_number entry_count ++ bytes.

(** ** Reading *)

(** [Threw] is the exception of a [std::get] for another alternative. *)
Inductive load_result := Loaded (sequence_number : Sequence) (books : t) | NotLoaded | Threw.

(** One entry: the frame at the front of the file, added to its book. *)
Definition load_entry (file : list Z) (books : t) : load_result + (list Z * t) :=
  let '(head, file) := FileFrames.read HEADER_SIZE file in
  if vsize head <? Z.of_nat HEADER_SIZE then inl NotLoaded
  else match decode_header head with
  | inr _ => inl NotLoaded
  | inl header =>
      match h_type header with
      | TAddOrder =>
          let '(payload, file) := FileFrames.read (Z.to_nat (h_payload_size header)) file in
          if vsize payload <? h_payload_size header then inl NotLoaded
          else match decode_event (head ++ payload) with
          | inr _ => inl NotLoaded
          | inl (MAdd add) =>
              let '(err, book) := OrderBook.add_order (ao_order_id add) (ao_price add)
                (ao_quantity add) (ao_side add) (book_for (ao_instrument_id add) books) in
              match err with
              | Some _ => inl NotLoaded
              | None => inr (file, set_book (ao_instrument_id add) book books)
              end
          | inl _ => inl Threw
          end
      | _ => inl NotLoaded
      end
  end.

(** [for (i = 0; i < entry_count; ++i)]; [None] is running out of fuel. *)
Fixpoint load_entries (fuel : nat) (entry_count : Z) (sequence_number : Sequence) (file : list Z)
    (books : t) : option load_result :=
  if entry_count =? 0 then Some (Loaded sequence_number books)
  else match fuel with
       | O => None
       | S fuel =>
           match load_entry file books with
           | inl r => Some r
           | inr (file, books) => load_entries fuel (entry_count - 1) sequence_number file books
           end
       end.

(** Every entry takes bytes from the file, so its length is fuel enough. *)
Definition read_snapshot (path : option (list Z)) : option load_result :=
  match path with
  | None => Some NotLoaded
  | Some file =>
      let '(header_buf, file) := FileFrames.read SNAPSHOT_HEADER_SIZE file in
      if vsize header_buf <? Z.of_nat SNAPSHOT_HEADER_SIZE then Some NotLoaded
      else match
        (let r := reader header_buf in
         '(magic, r) ← get_u32 r; '(version, r) ← get_u16 r; '(reserved, r) ← get_u16 r;
         '(sequence_number, r) ← get_u64 r; '(entry_count, r) ← get_u64 r;
         Some (magic, version, reserved, sequence_number, entry_count))
      with
      | None => Some NotLoaded
      | Some (magic, version, reserved, sequence_number, entry_count) =>
          if negb (magic =? SNAPSHOT_MAGIC) || negb (version =? SNAPSHOT_VERSION) || negb (reserved =? 0)
          then Some NotLoaded
          else load_entries (S (length file)) entry_count sequence_number file empty
      end
  end.

End Snapshot.
