(* ===== verification/SnapshotProps.v ===== *)
(** * A snapshot restores the books

    What [write_snapshot] writes of books that events built, [read_snapshot] reads back
    as books that show the same. *)

From stdpp Require Import sorting.
From S2P Require Import Prelude Types ByteIo FrameFormat FileFrames MarketDataCodec OrderBook BookViews.
From S2P Require Import BookManager Snapshot.

Module SnapshotProps.
Import ByteIo MarketDataCodec BookManager BookViews Snapshot.

(** ** Arrivals that a snapshot can hold *)

Definition order_ok (o : OrderBook.order) : Prop :=
  in_u64 (OrderBook.od_id o) ∧ in_i64 (OrderBook.od_price o) ∧ 0 < OrderBook.od_price o ∧
  in_u64 (OrderBook.od_quantity o) ∧ OrderBook.od_quantity o ≠ 0.

Definition orders_ok (os : list OrderBook.order) : Prop :=
  Forall order_ok os ∧ NoDup (OrderBook.od_id <$> os).

Definition arrivals_ok (a : arrivals) : Prop :=
  ∀ id os, a !! id = Some os → in_u32 id ∧ orders_ok os.

Definition op_ok (o : OrderBook.op) : Prop :=
  match o with
  | OrderBook.Add id p q _ | OrderBook.Modify id p q => in_u64 id ∧ in_i64 p ∧ in_u64 q
  | _ => True
  end.

Lemma known_in id os : OrderBook.known id os = true ↔ id ∈ OrderBook.od_id <$> os.
Proof.
  unfold OrderBook.known. rewrite existsb_exists, list_elem_of_fmap.
  setoid_rewrite <-list_elem_of_In. split.
  - intros (o & Ho & E%Z.eqb_eq). by exists o.
  - intros (o & -> & Ho). exists o. by rewrite Z.eqb_refl.
Qed.

Lemma orders_ok_snoc os o : orders_ok os → order_ok o → OrderBook.known (OrderBook.od_id o) os = false →
  orders_ok (os ++ [o]).
Proof.
  intros [Hf Hn] Ho Hk. split; [by apply Forall_app; split; [|constructor]|].
  rewrite fmap_app, Permutation_app_comm. constructor; [|done].
  rewrite <-known_in, Hk. done.
Qed.

Lemma orders_ok_without id os : orders_ok os → orders_ok (OrderBook.without id os).
Proof.
  intros [Hf Hn]. unfold OrderBook.without. split.
  - apply Forall_forall. intros o [_ Ho]%list_elem_of_filter. by eapply Forall_forall in Hf.
  - eapply sublist_NoDup; [exact Hn|]. apply fmap_sublist, sublist_filter.
Qed.

Lemma without_unknown id os : OrderBook.known id (OrderBook.without id os) = false.
Proof.
  apply not_true_is_false. rewrite known_in. intros (o & -> & [Ho _]%list_elem_of_filter)%list_elem_of_fmap.
  by apply Ho.
Qed.

Lemma spec_op_ok o os : op_ok o → orders_ok os → orders_ok (OrderBook.spec_op o os).2.
Proof.
  intros Ho Hos. destruct o as [id p q sd|id|id p q|]; cbn [OrderBook.spec_op].
  - case_bool; [done|]. case_bool; [done|]. destruct (OrderBook.known id os) eqn:Hk; [done|].
    apply orders_ok_snoc; [done| |done]. cbn in Ho. split_and!; simpl; unpack; done || lia.
  - destruct (OrderBook.known id os); [by apply orders_ok_without|done].
  - case_bool; [done|]. case_bool; [done|]. destruct (filter _ os) as [|x l]; [done|].
    apply orders_ok_snoc; [by apply orders_ok_without| |apply without_unknown].
    cbn in Ho. split_and!; simpl; unpack; done || lia.
  - split; constructor.
Qed.

Lemma arrivals_of_ok a id : arrivals_ok a → orders_ok (arrivals_of id a).
Proof.
  intros Ha. unfold arrivals_of. destruct (a !! id) as [os|] eqn:E; [by apply (Ha id)|].
  split; constructor.
Qed.

Lemma event_op_ok ev id o : event_typed ev → op_of ev = Some (id, o) → in_u32 id ∧ op_ok o.
Proof. destruct ev; intros Hev [= <- <-]; hnf in Hev; unpack; (split; [done|by cbn]). Qed.

Lemma spec_event_ok ev a : event_typed ev → arrivals_ok a → arrivals_ok (spec_event ev a).2.
Proof.
  intros Hev Ha. unfold spec_event. destruct (op_of ev) as [[id o]|] eqn:E; [|done].
  destruct (event_op_ok _ _ _ Hev E) as [Hid Ho].
  pose proof (spec_op_ok o _ Ho (arrivals_of_ok a id Ha)) as Hos.
  destruct (OrderBook.spec_op o _) as [err os]. intros id' os'. cbn [snd]. rewrite lookup_insert.
  case_decide as Hd; [intros [= <-]; by subst|apply Ha].
Qed.

Lemma spec_events_ok events : ∀ a, Forall event_typed events → arrivals_ok a →
  arrivals_ok (spec_events events a).
Proof.
  induction events as [|ev events IH]; intros a He Ha; [done|].
  apply Forall_cons in He as [Hev He]. apply IH; [done|]. by apply spec_event_ok.
Qed.

(** ** What is written *)

Definition entry (id : InstrumentId) (seq : Sequence) (o : OrderBook.order) : Event :=
  MAdd (mkAddOrder seq 0 (OrderBook.od_id o) id (OrderBook.od_price o) (OrderBook.od_quantity o)
    (OrderBook.od_side o)).

Definition book_entries (seq : Sequence) (m : t) (id : InstrumentId) : list Event :=
  match find_book id m with None => [] | Some b => entry id seq <$> listed b end.

Definition snapshot_entries (seq : Sequence) (m : t) : list Event :=
  concat (book_entries seq m <$> instruments m).

Lemma append_side_spec b id sd seq n bytes :
  append_side b id sd seq (u64 n, bytes) =
    (u64 (n + vsize (listed_side sd b)), bytes ++ encode_all (entry id seq <$> listed_side sd b)).
Proof.
  unfold append_side, listed_side. generalize (OrderBook.all_orders sd b) as l. intros l. revert n bytes.
  induction l as [|v l IH]; intros n bytes.
  { unfold vsize, encode_all. cbn. by rewrite Z.add_0_r, app_nil_r. }
  rewrite fmap_cons. cbn [foldl fst snd]. rewrite u64_add_idemp_l, IH. f_equal.
  - f_equal. unfold vsize. cbn [length]. lia.
  - rewrite encode_event_app, fmap_cons. unfold encode_all. cbn [map concat]. by rewrite <-app_assoc.
Qed.

Lemma encode_all_app evs evs' : encode_all (evs ++ evs') = encode_all evs ++ encode_all evs'.
Proof. unfold encode_all. by rewrite map_app, concat_app. Qed.

Lemma vsize_app {A} (l k : list A) : vsize (l ++ k) = vsize l + vsize k.
Proof. unfold vsize. rewrite length_app. lia. Qed.

Lemma entries_spec seq m :
  entries seq m = (u64 (vsize (snapshot_entries seq m)), encode_all (snapshot_entries seq m)).
Proof.
  unfold entries, snapshot_entries. generalize (instruments m) as ids. intros ids.
  change (0, []) with (u64 (vsize (@nil Event)), encode_all []).
  change (concat _) with ([] ++ concat (book_entries seq m <$> ids)). generalize (@nil Event) as evs.
  induction ids as [|id ids IH]; intros evs; [by rewrite app_nil_r|].
  rewrite fmap_cons. cbn [foldl concat].
  assert (book_entries seq m id = match find_book id m with None => [] | Some b => entry id seq <$> listed b end)
    as -> by done.
  destruct (find_book id m) as [b|]; [|apply IH].
  rewrite !append_side_spec, app_assoc, <-IH. f_equal. unfold listed.
  rewrite fmap_app, !app_assoc, !encode_all_app, !vsize_app. unfold vsize.
  by rewrite !length_fmap.
Qed.

(** ** What is read *)

(** An entry's order is added as the arrivals say. *)
Lemma load_add add m a : Rep m a →
  ∃ b, OrderBook.add_order (ao_order_id add) (ao_price add) (ao_quantity add) (ao_side add)
      (book_for (ao_instrument_id add) m) = ((spec_event (MAdd add) a).1, b) ∧
    Rep (set_book (ao_instrument_id add) b m) (spec_event (MAdd add) a).2.
Proof.
  intros HR. destruct (on_book_refines m a (ao_instrument_id add) (OrderBook.Add (ao_order_id add)
    (ao_price add) (ao_quantity add) (ao_side add)) HR) as (b & E & HR').
  unfold on_book in E. cbn [OrderBook.apply_op mbind option_bind] in E.
  destruct (OrderBook.add_order _ _ _ _ _) as [err b'] eqn:Ea. unfold spec_event. cbn [op_of].
  destruct (OrderBook.spec_op _ _) as [err' os]. cbn [fst snd] in *.
  injection E as -> Eb%(f_equal (lookup (ao_instrument_id add))).
  rewrite !lookup_insert, !decide_True in Eb by done. injection Eb as ->. eauto.
Qed.

(** Whatever the file holds, an entry shortens it, and is an order of an [AddOrder]. *)
Lemma load_entry_safe file m a : Rep m a →
  match load_entry file m with
  | inl r => r = NotLoaded
  | inr (file', m') => (length file' < length file)%nat ∧ ∃ a', Rep m' a'
  end.
Proof.
  intros HR. unfold load_entry, FileFrames.read. case_bool; [done|]. apply Z.ltb_ge in E.
  destruct (decode_header _) as [h|] eqn:Eh; [|done]. destruct (h_type h) eqn:Et; try done.
  case_bool; [done|]. destruct (decode_event _) as [ev|] eqn:Ed; [|done].
  destruct (add_frame_decodes _ _ h ev Eh Et Ed) as [add ->].
  destruct (load_add add m a HR) as (b & -> & HR'). destruct (spec_event _ a).1; [done|].
  split; [|eauto]. unfold vsize in E. rewrite length_take in E. rewrite !length_drop.
  unfold HEADER_SIZE in *. lia.
Qed.

Lemma load_entries_safe seq fuel : ∀ n file m a, (length file < fuel)%nat → Rep m a →
  ∃ r, load_entries fuel n seq file m = Some r ∧
    match r with Loaded s m' => s = seq ∧ ∃ a', Rep m' a' | NotLoaded => True | Threw => False end.
Proof.
  induction fuel as [|fuel IH]; intros n file m a Hf HR; [lia|]. cbn [load_entries].
  destruct (n =? 0); [exists (Loaded seq m); by eauto|].
  pose proof (load_entry_safe file m a HR) as H.
  destruct (load_entry file m) as [r|[file' m']]; [subst r; by eexists|].
  destruct H as [Hl [a' HR']]. apply (IH _ _ _ a'); [lia|done].
Qed.

(** Any file is read: the fuel is enough, and nothing is thrown. *)
Lemma read_snapshot_safe path : ∃ r, read_snapshot path = Some r ∧
  match r with Loaded _ m => ∃ a, Rep m a | NotLoaded => True | Threw => False end.
Proof.
  unfold read_snapshot, FileFrames.read. destruct path as [file|]; [|by eexists].
  case_bool; [by eexists|]. destruct (mbind _ _) as [[[[[? ?] ?] seq] n]|]; [|by eexists].
  case_bool; [by eexists|].
  destruct (load_entries_safe seq (S (length (drop SNAPSHOT_HEADER_SIZE file))) n
    (drop SNAPSHOT_HEADER_SIZE file) empty ∅) as (r & -> & Hr); [lia|apply books_rep_empty|].
  exists r. split; [done|]. destruct r; [by destruct Hr|done|done].
Qed.

Lemma length_snapshot_header seq n : length (put_snapshot_header [] seq n) = SNAPSHOT_HEADER_SIZE.
Proof. unfold put_snapshot_header. append_fields. by rewrite !length_app, !length_put. Qed.

(** A header that was written is read back. *)
Lemma read_written_header seq m : in_u64 seq → in_u64 (vsize (snapshot_entries seq m)) →
  read_snapshot (Some (write_snapshot seq m)) =
    load_entries (S (length (encode_all (snapshot_entries seq m)))) (vsize (snapshot_entries seq m)) seq
      (encode_all (snapshot_entries seq m)) empty.
Proof.
  intros Hs Hn. unfold write_snapshot, read_snapshot. rewrite entries_spec, (u64_small _ Hn).
  set (n := vsize _) in *. rewrite FileFrames.read_app by apply length_snapshot_header.
  unfold vsize at 1. rewrite length_snapshot_header, Z.ltb_irrefl.
  start_reading (put_snapshot_header [] seq n). unfold put_snapshot_header in Hu. revert Hu. append_fields.
  intros Hu. rewrite <-(app_nil_r (put_u64 [] n)) in Hu. cbv zeta.
  assert (in_u32 SNAPSHOT_MAGIC) by done. assert (in_u16 SNAPSHOT_VERSION) by done.
  assert (in_u16 0) by done. read_fields. done.
Qed.

(** Entries that are all accepted are loaded. *)
Fixpoint accepted (events : list Event) (a : arrivals) : Prop :=
  match events with
  | [] => True
  | ev :: events => (∃ add, ev = MAdd add) ∧ (spec_event ev a).1 = None ∧ accepted events (spec_event ev a).2
  end.

Lemma load_entry_written add rest m a : Rep m a → event_typed (MAdd add) →
  (spec_event (MAdd add) a).1 = None →
  ∃ m', load_entry (encode_event (MAdd add) [] ++ rest) m = inr (rest, m') ∧
    Rep m' (spec_event (MAdd add) a).2.
Proof.
  intros HR He Ha. destruct (event_header_ok _ He) as [Hh _]. destruct (load_add add m a HR) as (b & Eb & HR').
  exists (set_book (ao_instrument_id add) b m). split; [|done]. unfold load_entry.
  pose proof (event_encode_decode (MAdd add) [] He) as Ed. rewrite app_nil_r in Ed.
  rewrite encode_event_bytes, app_nil_l in *. rewrite <-app_assoc.
  rewrite FileFrames.read_app by apply event_length_header. unfold vsize at 1.
  rewrite event_length_header, Z.ltb_irrefl. rewrite <-(app_nil_r (header_bytes _)) at 1.
  rewrite event_decode_header_bytes by done. cbn [event_header h_type].
  pose proof (event_length_payload (MAdd add)) as Hl.
  rewrite FileFrames.read_app by (unfold vsize in Hl; cbn [event_header] in Hl; lia).
  cbn [event_header] in Hl, Ed. rewrite Hl, Z.ltb_irrefl, Ed, Eb, Ha. done.
Qed.

Lemma load_entries_written seq evs : ∀ fuel m a, (length evs ≤ fuel)%nat → Rep m a →
  Forall event_typed evs → accepted evs a →
  ∃ m', load_entries fuel (vsize evs) seq (encode_all evs) m = Some (Loaded seq m') ∧
    Rep m' (spec_events evs a).
Proof.
  induction evs as [|ev evs IH]; intros fuel m a Hf HR He Ha; [exists m; by destruct fuel|].
  destruct fuel as [|fuel]; [simpl in Hf; lia|]. apply Forall_cons in He as [Hev He].
  destruct Ha as ([add ->] & Hn & Ha). unfold encode_all. cbn [load_entries map concat].
  rewrite (proj2 (Z.eqb_neq _ _)) by (unfold vsize; simpl; lia).
  destruct (load_entry_written add (encode_all evs) m a HR Hev Hn) as (m1 & E & HR1).
  unfold encode_all in E. rewrite E. cbn [spec_events].
  replace (vsize (MAdd add :: evs) - 1) with (vsize evs) by (unfold vsize; simpl; lia).
  apply IH; [simpl in Hf; lia|done..].
Qed.

(** ** The entries of a snapshot *)

Lemma spec_events_app xs ys a : spec_events (xs ++ ys) a = spec_events ys (spec_events xs a).
Proof. revert a. induction xs as [|x xs IH]; intros a; [done|apply IH]. Qed.

Lemma accepted_app xs ys a : accepted xs a → accepted ys (spec_events xs a) → accepted (xs ++ ys) a.
Proof.
  revert a. induction xs as [|x xs IH]; intros a Hx Hy; [done|].
  destruct Hx as (Hm & Hn & Hx). split; [done|]. split; [done|]. by apply IH.
Qed.

Lemma arrivals_of_insert id id' os a :
  arrivals_of id' (<[id := os]> a) = if decide (id = id') then os else arrivals_of id' a.
Proof. unfold arrivals_of. rewrite lookup_insert. by case_decide. Qed.

Lemma entry_accepted id seq o a : order_ok o →
  OrderBook.known (OrderBook.od_id o) (arrivals_of id a) = false →
  spec_event (entry id seq o) a = (None, <[id := arrivals_of id a ++ [o]]> a).
Proof.
  intros (_ & _ & Hp & _ & Hq) Hk. unfold spec_event, entry. cbn.
  rewrite (proj2 (Z.leb_gt _ _)), (proj2 (Z.eqb_neq _ _)), Hk by lia. by destruct o.
Qed.

Lemma spec_adds id seq l : ∀ a, Forall order_ok l →
  NoDup (OrderBook.od_id <$> arrivals_of id a ++ l) →
  accepted (entry id seq <$> l) a ∧
  ∀ id', arrivals_of id' (spec_events (entry id seq <$> l) a) =
    if decide (id = id') then arrivals_of id a ++ l else arrivals_of id' a.
Proof.
  induction l as [|o l IH]; intros a Hl Hn.
  { split; [done|]. intros id'. rewrite app_nil_r. by case_decide; subst. }
  apply Forall_cons in Hl as [Ho Hl]. rewrite cons_middle, app_assoc in Hn.
  assert (OrderBook.known (OrderBook.od_id o) (arrivals_of id a) = false) as Hk.
  { apply not_true_is_false. rewrite known_in. intros Hin. rewrite !fmap_app in Hn.
    apply NoDup_app in Hn as [Hn _]. apply NoDup_app in Hn as (_ & Hn & _).
    apply (Hn _ Hin). simpl. by left. }
  rewrite fmap_cons. cbn [accepted spec_events]. rewrite (entry_accepted id seq o a Ho Hk). cbn [fst snd].
  destruct (IH (<[id := arrivals_of id a ++ [o]]> a) Hl) as [Ha Hs].
  { by rewrite arrivals_of_insert, decide_True. }
  split; [split; [by eexists|done]|]. intros id'. rewrite Hs, !arrivals_of_insert.
  rewrite (decide_True (P := id = id)) by done. case_decide; [by rewrite <-app_assoc|done].
Qed.

Definition listed_of (m : t) (id : InstrumentId) : list OrderBook.order :=
  match find_book id m with None => [] | Some b => listed b end.

Lemma book_entries_listed seq m id : book_entries seq m id = entry id seq <$> listed_of m id.
Proof. unfold book_entries, listed_of. by destruct (find_book id m). Qed.

Lemma stands_for_shows b os : stands_for b os → OrderBook.shows b os.
Proof. intros (ns & HR & <-). by apply OrderBook.rep_shows. Qed.

Lemma listed_of_queues m a id : Rep m a → same_queues (listed_of m id) (arrivals_of id a).
Proof.
  intros HR. specialize (HR id). unfold listed_of, find_book, arrivals_of.
  inversion HR as [b os Hb Eb Ea|]; [|done]. apply listed_queues. by apply stands_for_shows.
Qed.

Lemma listed_of_ok m a id : Rep m a → arrivals_ok a → orders_ok (listed_of m id).
Proof.
  intros HR Ha. pose proof (same_queues_perm _ _ (listed_of_queues m a id HR)) as Hp.
  destruct (arrivals_of_ok a id Ha) as [Hf Hn]. split; by rewrite Hp.
Qed.

Lemma snapshot_accepted seq m a ids : Rep m a → arrivals_ok a → NoDup ids → ∀ a0,
  (∀ id, id ∈ ids → arrivals_of id a0 = []) →
  accepted (concat (book_entries seq m <$> ids)) a0 ∧
  ∀ id, arrivals_of id (spec_events (concat (book_entries seq m <$> ids)) a0) =
    if decide (id ∈ ids) then listed_of m id else arrivals_of id a0.
Proof.
  intros HR Ha. induction 1 as [|id ids Hno _ IH]; intros a0 H0.
  { split; [done|]. intros id. by rewrite decide_False by set_solver. }
  rewrite fmap_cons, book_entries_listed. cbn [concat].
  destruct (listed_of_ok m a id HR Ha) as [Hf Hn].
  destruct (spec_adds id seq (listed_of m id) a0 Hf) as [Ha1 Hs1]; [by rewrite H0 by set_solver|].
  destruct (IH (spec_events (entry id seq <$> listed_of m id) a0)) as [Ha2 Hs2].
  { intros id' Hid'. rewrite Hs1, decide_False by (intros ->; done). apply H0. set_solver. }
  split; [by apply accepted_app|]. intros id'. rewrite spec_events_app, Hs2, Hs1.
  destruct (decide (id = id')) as [->|Hne].
  - rewrite decide_False by done. rewrite decide_True by set_solver. by rewrite H0 by set_solver.
  - repeat case_decide; set_solver.
Qed.

Lemma instruments_nodup m : NoDup (instruments m).
Proof. unfold instruments. rewrite merge_sort_Permutation. apply NoDup_elements. Qed.

Lemma instruments_listed m id : id ∉ instruments m → listed_of m id = [].
Proof.
  intros Hno. unfold listed_of, find_book. destruct (books_ m !! id) as [b|] eqn:E; [|done].
  destruct Hno. unfold instruments. rewrite merge_sort_Permutation, elem_of_elements.
  apply elem_of_union_l. by apply elem_of_dom_2 in E.
Qed.

Lemma snapshot_typed seq m a : Rep m a → arrivals_ok a → in_u64 seq →
  Forall event_typed (snapshot_entries seq m).
Proof.
  intros HR Ha Hs. unfold snapshot_entries. apply Forall_concat, Forall_fmap, Forall_forall.
  intros id _. simpl. rewrite book_entries_listed. apply Forall_fmap.
  destruct (listed_of_ok m a id HR Ha) as [Hf _].
  specialize (HR id). unfold listed_of, find_book in *. inversion HR as [b os Hb Eb Ea|]; [|constructor].
  destruct (Ha id os) as [Hid _]; [done|]. rewrite <-Eb in Hf. apply (Forall_impl _ _ _ Hf).
  intros o (? & ? & ? & ? & ?). split_and!; done.
Qed.

(** A snapshot is read back as books that stand for the same orders at every price. *)
Lemma snapshot_arrivals events seq m stats : Forall event_typed events → in_u64 seq →
  apply_events events empty no_stats = Some (m, stats) →
  vsize (snapshot_entries seq m) < 2 ^ 64 →
  ∃ m' a', read_snapshot (Some (write_snapshot seq m)) = Some (Loaded seq m') ∧ Rep m' a' ∧
    ∀ id, same_queues (arrivals_of id a') (arrivals_of id (spec_events events ∅)).
Proof.
  intros He Hs E Hc. destruct (apply_events_refines events empty ∅ no_stats books_rep_empty) as (m1 & s1 & E1 & HR).
  rewrite E in E1. injection E1 as <- <-.
  pose proof (spec_events_ok events ∅ He (λ id os Hn, ltac:(by rewrite lookup_empty in Hn))) as Ha.
  set (a := spec_events events ∅) in *.
  destruct (snapshot_accepted seq m a (instruments m) HR Ha (instruments_nodup m) ∅) as [Hacc Harr]; [done|].
  destruct (load_entries_written seq (snapshot_entries seq m)
    (S (length (encode_all (snapshot_entries seq m)))) empty ∅) as (m' & El & HR').
  { pose proof (length_encode_all (snapshot_entries seq m)) as Hl. unfold vsize in Hl. lia. }
  { apply books_rep_empty. }
  { by eapply snapshot_typed. }
  { exact Hacc. }
  eexists m', _. split; [|split; [exact HR'|]].
  - rewrite read_written_header by (done || (split; [apply vsize_nonneg|done])). exact El.
  - intros id sd p. unfold snapshot_entries. rewrite Harr.
    rewrite <-(listed_of_queues m a id HR sd p). case_decide as Hd; [done|]. by rewrite instruments_listed.
Qed.

Lemma rep_same_views m a m' a' id : Rep m a → Rep m' a' →
  same_queues (arrivals_of id a) (arrivals_of id a') → same_views (book_for id m) (book_for id m').
Proof. intros HR HR'. apply shows_same; by apply stands_for_shows, rep_book. Qed.

(** C17: a snapshot restores the books. Of any books that events built, what
    [write_snapshot] writes is read back, with the sequence number it was tagged with,
    as books that show the same: for every instrument, the same orders are known, and
    on each side the same levels and the same orders are shown in the same order. The
    only bound is the 64-bit entry count of the header. *)
Theorem snapshot_restores events seq m stats : Forall event_typed events → in_u64 seq →
  apply_events events empty no_stats = Some (m, stats) →
  vsize (snapshot_entries seq m) < 2 ^ 64 →
  ∃ m', read_snapshot (Some (write_snapshot seq m)) = Some (Loaded seq m') ∧
    ∀ id, same_views (book_for id m) (book_for id m').
Proof.
  intros He Hs E Hc. destruct (snapshot_arrivals events seq m stats He Hs E Hc) as (m' & a' & El & HR' & Hq).
  destruct (apply_events_refines events empty ∅ no_stats books_rep_empty) as (m1 & s1 & E1 & HR).
  rewrite E in E1. injection E1 as <- <-. exists m'. split; [done|]. intros id.
  apply (rep_same_views _ _ _ _ _ HR HR'). intros sd p. by rewrite Hq.
Qed.

Definition sample_feed : list Event :=
  [MAdd (mkAddOrder 1 10 11 7 100 5 Buy); MAdd (mkAddOrder 2 10 12 7 100 6 Buy);
   MAdd (mkAddOrder 3 10 13 7 103 8 Sell); MAdd (mkAddOrder 4 10 11 9 50 1 Sell);
   MModify (mkModifyOrder 5 10 11 7 100 4); MTrade (mkTrade 6 10 8 77 2 Buy)].

Definition sample_applied : t * ReplayStats :=
  default (empty, no_stats) (apply_events sample_feed empty no_stats).

Lemma snapshot_restores_witness :
  Forall event_typed sample_feed ∧ in_u64 6 ∧
  apply_events sample_feed empty no_stats = Some (sample_applied.1, sample_applied.2) ∧
  vsize (snapshot_entries 6 sample_applied.1) < 2 ^ 64 ∧
  ∃ m', read_snapshot (Some (write_snapshot 6 sample_applied.1)) = Some (Loaded 6 m') ∧
    ∀ id, same_views (book_for id sample_applied.1) (book_for id m').
Proof.
  assert (Forall event_typed sample_feed) as H1 by
    (repeat first [apply List.Forall_nil | apply List.Forall_cons; [by split_and!|]]).
  assert (in_u64 6) as H2 by done.
  assert (apply_events sample_feed empty no_stats = Some (sample_applied.1, sample_applied.2)) as H3
    by (vm_compute; reflexivity).
  assert (vsize (snapshot_entries 6 sample_applied.1) < 2 ^ 64) as H4 by (vm_compute; reflexivity).
  split; [exact H1|]. split; [exact H2|]. split; [exact H3|]. split; [exact H4|].
  exact (snapshot_restores sample_feed 6 sample_applied.1 sample_applied.2 H1 H2 H3 H4).
Defined.

End SnapshotProps.
