(* ===== verification/Replay.v ===== *)
(** * Replaying a feed ([replay/replay_engine.cpp])

    [apply_frame_result] is what a consumer does with a frame, from a file or from the
    network: classify its sequence number, stop or recover, and apply it to the books.
    [run_replay] does it with the frames of a file. *)

From S2P Require Import Prelude Types ByteIo FrameFormat FileFrames MarketDataCodec EventFile OrderBook BookManager.
From S2P Require Import Sequence Snapshot SnapshotProps.

Module Replay.
Import MarketDataCodec BookManager SequenceValidator.

(** [recovery_snapshot_path]: the file found there, every time it is loaded. *)
Record ReplayOptions := mkOptions {
  stop_on_sequence_error : bool;
  stop_on_decode_error : bool;
  recovery_snapshot : option (option (list Z));
}.

Definition default_options : ReplayOptions := mkOptions true true None.

(** [stop_reason] is a message; this is what it is made from. *)
Inductive StopReason :=
  | NoReason
  | FailedToOpen
  | DecodeErrorReason (e : DecodeError)
  | SequenceReason (c : SequenceCheck)
  | RecoveryFailed.

(** [duration_ns] is not modelled. *)
Record ReplayOutcome := mkReplayOutcome {
  stats : ReplayStats;
  books : BookManager.t;
  stopped_early : bool;
  stop_reason : StopReason;
  last_sequence_number : option Z;
}.

Definition sequence_of (event : Event) : Z :=
  match event with
  | MAdd m => ao_sequence_number m
  | MCancel m => xo_sequence_number m
  | MModify m => mo_sequence_number m
  | MTrade m => tr_sequence_number m
  | MClear m => cb_sequence_number m
  end.

(** ** Counters *)

Definition count_decode_failure (s : ReplayStats) : ReplayStats :=
  mkReplayStats (messages_processed s) (u64 (decode_failures s + 1)) (sequence_failures s) (recoveries s)
    (adds s) (cancels s) (modifies s) (trades s) (clears s) (book_errors s).

Definition count_sequence_failure (s : ReplayStats) : ReplayStats :=
  mkReplayStats (messages_processed s) (decode_failures s) (u64 (sequence_failures s + 1)) (recoveries s)
    (adds s) (cancels s) (modifies s) (trades s) (clears s) (book_errors s).

Definition count_recovery (s : ReplayStats) : ReplayStats :=
  mkReplayStats (messages_processed s) (decode_failures s) (sequence_failures s) (u64 (recoveries s + 1))
    (adds s) (cancels s) (modifies s) (trades s) (clears s) (book_errors s).

Definition count_message (s : ReplayStats) : ReplayStats :=
  mkReplayStats (u64 (messages_processed s + 1)) (decode_failures s) (sequence_failures s) (recoveries s)
    (adds s) (cancels s) (modifies s) (trades s) (clears s) (book_errors s).

Definition with_stats (f : ReplayStats → ReplayStats) (o : ReplayOutcome) : ReplayOutcome :=
  mkReplayOutcome (f (stats o)) (books o) (stopped_early o) (stop_reason o) (last_sequence_number o).

Definition with_books (b : BookManager.t) (o : ReplayOutcome) : ReplayOutcome :=
  mkReplayOutcome (stats o) b (stopped_early o) (stop_reason o) (last_sequence_number o).

Definition stop (reason : StopReason) (o : ReplayOutcome) : ReplayOutcome :=
  mkReplayOutcome (stats o) (books o) true reason (last_sequence_number o).

(** ** One frame *)

(** The end of [apply_frame_result]: the event is applied. *)
Definition apply_to (event : Event) (validator : option Z) (o : ReplayOutcome) :
    option (bool * option Z * ReplayOutcome) :=
  '(b, s) ← apply_event event (books o) (count_message (stats o));
  Some (false, validator,
    mkReplayOutcome s b (stopped_early o) (stop_reason o) (Some (sequence_of event))).

(** Whether to stop, the validator and the outcome; [None] is an exception, or memory
    misused. *)
Definition apply_frame_result (frame : Event + DecodeError) (validator : option Z)
    (options : ReplayOptions) (o : ReplayOutcome) : option (bool * option Z * ReplayOutcome) :=
  match frame with
  | inr e =>
      let o := with_stats count_decode_failure o in
      if stop_on_decode_error options then Some (true, validator, stop (DecodeErrorReason e) o)
      else Some (false, validator, o)
  | inl event =>
      let '(c, validator) := check (sequence_of event) validator in
      if bool_decide (sc_outcome c = InOrder) then apply_to event validator o
      else
        let o := with_stats count_sequence_failure o in
        match sc_outcome c, recovery_snapshot options with
        | Missing, Some path =>
            match Snapshot.read_snapshot path with
            | Some (Snapshot.Loaded _ b) =>
                apply_to event (reset (sequence_of event) validator)
                  (with_stats count_recovery (with_books b o))
            | Some Snapshot.NotLoaded => Some (true, validator, stop RecoveryFailed o)
            | _ => None
            end
        | _, _ =>
            if stop_on_sequence_error options then Some (true, validator, stop (SequenceReason c) o)
            else apply_to event validator o
        end
  end.

(** ** A file *)

(** [while (true)]; [None] is also running out of fuel. *)
Fixpoint replay_loop (fuel : nat) (options : ReplayOptions) (file : list Z) (validator : option Z)
    (o : ReplayOutcome) : option ReplayOutcome :=
  match fuel with
  | O => None
  | S fuel =>
      match EventFile.next file with
      | (None, _) => Some o
      | (Some frame, file) =>
          '(stopped, validator, o) ← apply_frame_result frame validator options o;
          if (stopped : bool) then Some o else replay_loop fuel options file validator o
      end
  end.

Definition no_outcome : ReplayOutcome := mkReplayOutcome no_stats empty false NoReason None.

(** [None] for the path: the file could not be opened. *)
Definition run_replay (input_path : option (list Z)) (options : ReplayOptions) : option ReplayOutcome :=
  match input_path with
  | None => Some (stop FailedToOpen no_outcome)
  | Some file => replay_loop (S (length file)) options file None no_outcome
  end.

(** ** The loop is over the frames *)

Fixpoint replay_frames (options : ReplayOptions) (frames : list (Event + DecodeError))
    (validator : option Z) (o : ReplayOutcome) : option ReplayOutcome :=
  match frames with
  | [] => Some o
  | frame :: frames =>
      '(stopped, validator, o) ← apply_frame_result frame validator options o;
      if (stopped : bool) then Some o else replay_frames options frames validator o
  end.

Lemma feed_loop_frames fuel options : ∀ file v o, (length file < fuel)%nat →
  replay_loop fuel options file v o = replay_frames options (EventFile.frames file) v o.
Proof.
  induction fuel as [|fuel IH]; intros file v o Hf; [lia|]. cbn [replay_loop].
  destruct (EventFile.next file) as [[frame|] file'] eqn:E.
  - pose proof (FileFrames.next_shrinks _ _ _ _ E). rewrite (FileFrames.frames_next _ _ _ _ E).
    cbn [replay_frames]. destruct (apply_frame_result _ _ _ _) as [[[[] v'] o']|]; [done| |done].
    apply IH. lia.
  - by rewrite (FileFrames.frames_end _ _ _ E).
Qed.

Lemma run_replay_frames file options :
  run_replay (Some file) options = replay_frames options (EventFile.frames file) None no_outcome.
Proof. apply feed_loop_frames. lia. Qed.

(** ** What one frame does to books that stand for arrivals *)

Lemma apply_to_refines event v o a : Rep (books o) a → ∃ m,
  apply_to event v o = Some (false, v, mkReplayOutcome
    (count_event event (spec_event event a).1 (count_message (stats o))) m (stopped_early o) (stop_reason o)
    (Some (sequence_of event))) ∧ Rep m (spec_event event a).2.
Proof.
  intros HR. destruct (apply_event_refines event (books o) a HR) as (m & E & HR').
  exists m. unfold apply_to. by rewrite E.
Qed.

Lemma apply_frame_safe frame v options o a : Rep (books o) a → ∃ stopped v' o' a',
  apply_frame_result frame v options o = Some (stopped, v', o') ∧ Rep (books o') a'.
Proof.
  intros HR. unfold apply_frame_result. destruct frame as [event|e].
  2: { destruct (stop_on_decode_error options); by eexists _, _, _, a. }
  destruct (check _ _) as [c v1]. case_bool_decide.
  { destruct (apply_to_refines event v1 o a HR) as (m & -> & HR'). by eexists _, _, _, _. }
  assert (∃ stopped v' o' a', (if stop_on_sequence_error options
      then Some (true, v1, stop (SequenceReason c) (with_stats count_sequence_failure o))
      else apply_to event v1 (with_stats count_sequence_failure o)) = Some (stopped, v', o') ∧
    Rep (books o') a') as Hother.
  { destruct (stop_on_sequence_error options); [by eexists _, _, _, a|].
    destruct (apply_to_refines event v1 (with_stats count_sequence_failure o) a HR) as (m & -> & HR').
    by eexists _, _, _, _. }
  destruct (sc_outcome c); try exact Hother. destruct (recovery_snapshot options) as [path|]; [|exact Hother].
  destruct (SnapshotProps.read_snapshot_safe path) as (r & -> & Hr).
  destruct r as [s b| |]; [|by eexists _, _, _, a|done]. destruct Hr as [a' Ha'].
  destruct (apply_to_refines event (reset (sequence_of event) v1)
    (with_stats count_recovery (with_books b (with_stats count_sequence_failure o))) a' Ha') as (m & -> & HR').
  by eexists _, _, _, _.
Qed.

(** Replay is total. Whatever the bytes of the input file, whatever the options
    and whatever the recovery file holds, [run_replay] returns: the length of the file
    is fuel enough, no snapshot load throws, and no operation on a book misuses an
    iterator; the books it returns stand for orders in order of arrival. *)
Theorem feed_replay_total input options :
  ∃ o a, run_replay input options = Some o ∧ Rep (books o) a.
Proof.
  destruct input as [file|]; [|exists (stop FailedToOpen no_outcome), ∅; split; [done|apply books_rep_empty]].
  rewrite run_replay_frames. generalize (EventFile.frames file) as fs. intros fs.
  assert (Rep (books no_outcome) ∅) as HR by apply books_rep_empty. revert HR.
  generalize no_outcome (∅ : arrivals) (@None Z). induction fs as [|f fs IH]; intros o a v HR; [eauto|].
  destruct (apply_frame_safe f v options o a HR) as (stopped & v' & o' & a' & E & HR').
  cbn [replay_frames]. rewrite E. cbn [mbind option_bind]. destruct stopped; [eauto|by eapply IH].
Qed.

(** ** The default policy *)

(** A number the validator takes in order. *)
Definition follows (last : option Z) (seq : Z) : bool :=
  match last with None => true | Some n => seq =? u64 (n + 1) end.

(** The events before the first frame that does not decode or is out of order. *)
Fixpoint in_order_prefix (last : option Z) (frames : list (Event + DecodeError)) : list Event :=
  match frames with
  | inl event :: frames =>
      if follows last (sequence_of event)
      then event :: in_order_prefix (Some (sequence_of event)) frames else []
  | _ => []
  end.

Lemma check_follows seq v :
  if follows v seq then check seq v = (mkCheck InOrder seq 0, Some seq)
  else sc_outcome (check seq v).1 ≠ InOrder.
Proof.
  unfold follows, check. destruct v as [n|]; [|done]. destruct (seq =? u64 (n + 1)); [done|].
  destruct (seq =? n); [done|]. by destruct (seq <? n).
Qed.

(** The counters of [apply_event]. *)
Definition counts (s : ReplayStats) : Z * Z * Z * Z * Z * Z :=
  (adds s, cancels s, modifies s, trades s, clears s, book_errors s).

Lemma counts_event event err s s' : counts s = counts s' →
  counts (count_event event err s) = counts (count_event event err s').
Proof. unfold counts. intros [= E1 E2 E3 E4 E5 E6]. simpl. by rewrite E1, E2, E3, E4, E5, E6. Qed.

(** A bad frame ends it. *)
Lemma default_stops frame v o :
  match frame with inl event => follows v (sequence_of event) = false | inr _ => True end →
  ∃ v' o', apply_frame_result frame v default_options o = Some (true, v', o') ∧
    books o' = books o ∧ counts (stats o') = counts (stats o) ∧
    messages_processed (stats o') = messages_processed (stats o) ∧
    last_sequence_number o' = last_sequence_number o ∧ stopped_early o' = true.
Proof.
  intros Hf. destruct frame as [event|e]; [|by eexists _, _].
  pose proof (check_follows (sequence_of event) v) as Hc. rewrite Hf in Hc. cbn [apply_frame_result].
  destruct (check (sequence_of event) v) as [c v1]. cbn [fst] in Hc. rewrite bool_decide_false by done.
  destruct (sc_outcome c); [done|by eexists _, _..].
Qed.

Lemma in_order_applied options event v o a : Rep (books o) a → follows v (sequence_of event) = true →
  ∃ m, apply_frame_result (inl event) v options o = Some (false, Some (sequence_of event),
      mkReplayOutcome (count_event event (spec_event event a).1 (count_message (stats o))) m
        (stopped_early o) (stop_reason o) (Some (sequence_of event))) ∧
    (∀ s, apply_event event (books o) s = Some (m, count_event event (spec_event event a).1 s)) ∧
    Rep m (spec_event event a).2.
Proof.
  intros HR Hf. destruct (apply_event_refines event (books o) a HR) as (m & E & HR').
  pose proof (check_follows (sequence_of event) v) as Hc. rewrite Hf in Hc.
  exists m. cbn [apply_frame_result]. rewrite Hc. cbn [sc_outcome]. rewrite bool_decide_true by done.
  unfold apply_to. by rewrite E.
Qed.

Lemma default_replay fs : ∀ v o a s, Rep (books o) a → counts s = counts (stats o) →
  in_u64 (messages_processed (stats o)) →
  ∃ o' s', replay_frames default_options fs v o = Some o' ∧
    apply_events (in_order_prefix v fs) (books o) s = Some (books o', s') ∧
    counts s' = counts (stats o') ∧
    messages_processed (stats o') = u64 (messages_processed (stats o) + vsize (in_order_prefix v fs)) ∧
    last_sequence_number o' = foldl (λ _ event, Some (sequence_of event)) (last_sequence_number o)
      (in_order_prefix v fs) ∧
    stopped_early o' = stopped_early o || bool_decide (length (in_order_prefix v fs) < length fs)%nat.
Proof.
  induction fs as [|f fs IH]; intros v o a s HR Hs Hm.
  { exists o, s. split_and!; try done; [unfold vsize; by rewrite Z.add_0_r, u64_small|by rewrite orb_false_r]. }
  cbn [replay_frames]. destruct (match f with inl ev => follows v (sequence_of ev) | inr _ => false end) eqn:Ef.
  - destruct f as [ev|]; [|done]. cbn [in_order_prefix]. rewrite Ef.
    destruct (in_order_applied default_options ev v o a HR Ef) as (m & -> & Ha & HR'). cbn [mbind option_bind apply_events].
    rewrite Ha. cbn [mbind option_bind]. set (o1 := mkReplayOutcome _ m _ _ _).
    destruct (IH (Some (sequence_of ev)) o1 _ (count_event ev (spec_event ev a).1 s) HR') as
      (o' & s' & E & Ea & Ec & Em & El & Est); [by apply counts_event|apply u64_range|].
    exists o', s'. split; [exact E|]. split; [exact Ea|]. split; [done|]. split; [|split; [exact El|]].
    + rewrite Em. cbn. unfold vsize. cbn [length]. word.
    + rewrite Est. cbn [length]. f_equal. apply bool_decide_ext. lia.
  - destruct (default_stops f v o) as (v' & o' & -> & Hb & Hc & Hm' & Hl & Hst); [by destruct f|].
    exists o', s. assert (in_order_prefix v (f :: fs) = []) as ->.
    { destruct f; cbn [in_order_prefix]; by rewrite ?Ef. }
    cbn [mbind option_bind apply_events foldl length]. rewrite Hb, Hc, Hm', Hl, Hst.
    split_and!; try done; [unfold vsize; by rewrite Z.add_0_r, u64_small|].
    symmetry. apply orb_true_iff. right. apply bool_decide_true. lia.
Qed.

(** By default a replay is of the longest good prefix. The events applied, in
    order and to empty books, are those before the first frame that does not decode
    or whose number does not follow the one before; the counters count exactly them,
    the last number recorded is that of the last of them, and the replay says it
    stopped early exactly when frames were left. *)
Theorem default_replay_prefix file :
  let fs := EventFile.frames file in
  let events := in_order_prefix None fs in
  ∃ o s, run_replay (Some file) default_options = Some o ∧
    apply_events events empty no_stats = Some (books o, s) ∧ counts (stats o) = counts s ∧
    messages_processed (stats o) = u64 (vsize events) ∧
    last_sequence_number o = last (sequence_of <$> events) ∧
    stopped_early o = bool_decide (length events < length fs)%nat.
Proof.
  cbv zeta. rewrite run_replay_frames.
  destruct (default_replay (EventFile.frames file) None no_outcome ∅ no_stats) as
    (o & s & E & Ea & Ec & Em & El & Est); [apply books_rep_empty|done|done|].
  exists o, s. split; [done|]. split; [done|]. split; [done|]. split; [done|]. split; [|done].
  rewrite El. generalize (in_order_prefix None (EventFile.frames file)) as evs.
  induction evs as [|e evs IH] using rev_ind; [done|].
  by rewrite foldl_app, fmap_app, last_app.
Qed.

End Replay.
