(* ===== verification/Recovery.v ===== *)
(** * Recovering from a gap ([replay/replay_engine.cpp], [replay/snapshot.cpp])

    Books whose orders are the same at every price stay so under the same events. So a
    replay that loses events and loads a snapshot that has them ends where a replay
    that lost nothing ends. *)

From S2P Require Import Prelude Types ByteIo FrameFormat FileFrames MarketDataCodec EventFile OrderBook BookViews BookManager.
From S2P Require Import Sequence Snapshot SnapshotProps Replay.

Module Recovery.
Import MarketDataCodec BookManager BookViews SnapshotProps Replay.

(** ** The same orders at every price *)

#[export] Instance same_queues_equivalence : Equivalence same_queues.
Proof.
  split; [done|by intros os os' H sd p; rewrite H|]. intros os os' os'' H H' sd p. by rewrite H, H'.
Qed.

Lemma known_same id os os' : same_queues os os' → OrderBook.known id os = OrderBook.known id os'.
Proof. intros Hq. apply eq_true_iff_eq. rewrite !known_in. by rewrite (same_queues_perm _ _ Hq). Qed.

(** The operations respect it. *)
#[export] Instance without_proper id : Proper (same_queues ==> same_queues) (OrderBook.without id).
Proof.
  intros os os' Hq sd p. unfold OrderBook.without. rewrite !list_filter_filter.
  rewrite !(list_filter_iff (λ o, OrderBook.rests_at sd p o ∧ OrderBook.od_id o ≠ id)
    (λ o, OrderBook.od_id o ≠ id ∧ OrderBook.rests_at sd p o)) by tauto.
  by rewrite <-!list_filter_filter, Hq.
Qed.

#[export] Instance app_proper : Proper (same_queues ==> same_queues ==> same_queues) app.
Proof. intros os os' Hq l l' Hl sd p. by rewrite !filter_app, Hq, Hl. Qed.

(** The order with an id is one, where ids are unique. *)
Lemma id_filter_short id os : NoDup (OrderBook.od_id <$> os) →
  (length (filter (λ o, OrderBook.od_id o = id) os) ≤ 1)%nat.
Proof.
  intros Hn. assert (NoDup (OrderBook.od_id <$> filter (λ o, OrderBook.od_id o = id) os)) as Hf.
  { eapply sublist_NoDup; [exact Hn|]. apply fmap_sublist, sublist_filter. }
  assert (∀ o, o ∈ filter (λ o, OrderBook.od_id o = id) os → OrderBook.od_id o = id) as Hid
    by by intros o [? _]%list_elem_of_filter.
  destruct (filter _ os) as [|x [|y l]]; [simpl; lia..|].
  rewrite !fmap_cons in Hf. apply NoDup_cons in Hf as [Hno _]. destruct Hno.
  rewrite (Hid x), (Hid y) by set_solver. by left.
Qed.

Lemma id_filter_same id os os' : NoDup (OrderBook.od_id <$> os) → same_queues os os' →
  filter (λ o, OrderBook.od_id o = id) os = filter (λ o, OrderBook.od_id o = id) os'.
Proof.
  intros Hn Hq. pose proof (id_filter_short id os Hn) as Hl.
  pose proof (filter_Permutation (λ o, OrderBook.od_id o = id) _ _ (same_queues_perm _ _ Hq)) as Hp.
  destruct (filter _ os) as [|x [|y l]]; [by apply Permutation_nil_l in Hp| |simpl in Hl; lia].
  by apply Permutation_singleton_l in Hp.
Qed.

Lemma spec_op_same o os os' : orders_ok os → same_queues os os' →
  (OrderBook.spec_op o os).1 = (OrderBook.spec_op o os').1 ∧
  same_queues (OrderBook.spec_op o os).2 (OrderBook.spec_op o os').2.
Proof.
  intros [_ Hn] Hq. destruct o as [id p q sd|id|id p q|]; cbn [OrderBook.spec_op].
  - case_bool; [done|]. case_bool; [done|]. rewrite (known_same id _ _ Hq).
    destruct (OrderBook.known id os'); [done|]. split; [done|]. cbn [snd]. by rewrite Hq.
  - rewrite (known_same id _ _ Hq). destruct (OrderBook.known id os'); [|done].
    split; [done|]. cbn [snd]. by rewrite Hq.
  - case_bool; [done|]. case_bool; [done|]. rewrite (id_filter_same id _ _ Hn Hq).
    destruct (filter _ os'); [done|]. split; [done|]. cbn [snd]. by rewrite Hq.
  - done.
Qed.

Definition same_arrivals (a a' : arrivals) : Prop :=
  ∀ id, same_queues (arrivals_of id a) (arrivals_of id a').

Lemma spec_event_same ev a a' : arrivals_ok a → same_arrivals a a' →
  same_arrivals (spec_event ev a).2 (spec_event ev a').2.
Proof.
  intros Ha Hs. unfold spec_event. destruct (op_of ev) as [[id o]|]; [|done].
  destruct (spec_op_same o _ _ (arrivals_of_ok a id Ha) (Hs id)) as [_ Hq].
  destruct (OrderBook.spec_op o _) as [? os], (OrderBook.spec_op o _) as [? os']. cbn [snd] in *.
  intros id'. rewrite !arrivals_of_insert. case_decide; [done|apply Hs].
Qed.

Lemma spec_events_same evs : ∀ a a', Forall event_typed evs → arrivals_ok a → same_arrivals a a' →
  same_arrivals (spec_events evs a) (spec_events evs a').
Proof.
  induction evs as [|ev evs IH]; intros a a' He Ha Hs; [done|]. apply Forall_cons in He as [Hev He].
  cbn [spec_events]. apply IH; [done|by apply spec_event_ok|by apply spec_event_same].
Qed.

(** ** A stretch of frames in order *)

Fixpoint consecutive (last : option Z) (events : list Event) : bool :=
  match events with
  | [] => true
  | event :: events =>
      follows last (sequence_of event) && consecutive (Some (sequence_of event)) events
  end.

Definition number_after (last : option Z) (events : list Event) : option Z :=
  foldl (λ _ event, Some (sequence_of event)) last events.

(** No book refuses an event. *)
Fixpoint unrefused (events : list Event) (a : arrivals) : Prop :=
  match events with
  | [] => True
  | event :: events => (spec_event event a).1 = None ∧ unrefused events (spec_event event a).2
  end.

(** Whatever the options, it is applied. *)
Lemma replay_in_order options evs : ∀ fs v o a, Rep (books o) a → consecutive v evs = true →
  ∃ o', replay_frames options (map inl evs ++ fs) v o = replay_frames options fs (number_after v evs) o' ∧
    Rep (books o') (spec_events evs a) ∧ recoveries (stats o') = recoveries (stats o) ∧
    stopped_early o' = stopped_early o ∧
    last_sequence_number o' = number_after (last_sequence_number o) evs ∧
    (unrefused evs a → book_errors (stats o') = book_errors (stats o)).
Proof.
  induction evs as [|ev evs IH]; intros fs v o a HR Hc; [by exists o|].
  cbn [consecutive] in Hc. apply andb_true_iff in Hc as [Hf Hc].
  destruct (in_order_applied options ev v o a HR Hf) as (m & E & _ & HR').
  cbn [map app replay_frames]. rewrite E. cbn [mbind option_bind].
  destruct (IH fs _ (mkReplayOutcome (count_event ev (spec_event ev a).1 (count_message (stats o))) m
    (stopped_early o) (stop_reason o) (Some (sequence_of ev))) _ HR' Hc) as (o' & E' & HR'' & Hr & Hs & Hl & He).
  exists o'. do 5 (split; [done|]). intros [H1 H2]. rewrite (He H2). cbn. by rewrite H1.
Qed.

(** A gap, where a snapshot loads. *)
Lemma recover ev n o m a path seq stop_seq stop_dec : Rep m a →
  Snapshot.read_snapshot path = Some (Snapshot.Loaded seq m) → in_u64 n → n + 1 < sequence_of ev →
  ∃ m', apply_frame_result (inl ev) (Some n) (mkOptions stop_seq stop_dec (Some path)) o =
      Some (false, Some (sequence_of ev), mkReplayOutcome
        (count_event ev (spec_event ev a).1 (count_message (count_recovery (count_sequence_failure (stats o)))))
        m' (stopped_early o) (stop_reason o) (Some (sequence_of ev))) ∧
    Rep m' (spec_event ev a).2.
Proof.
  intros HR El Hn Hgap. unfold in_u64 in Hn.
  destruct (apply_to_refines ev (Some (sequence_of ev))
    (with_stats count_recovery (with_books m (with_stats count_sequence_failure o))) a HR) as (m' & E & HR').
  exists m'. split; [|exact HR']. cbn [apply_frame_result].
  assert (SequenceValidator.check (sequence_of ev) (Some n) = (SequenceValidator.mkCheck SequenceValidator.Missing
    (sequence_of ev) (u64 (n + 1)), Some (sequence_of ev))) as ->.
  { unfold SequenceValidator.check. pose proof (u64_range (n + 1)) as Hu. unfold in_u64 in Hu.
    assert (u64 (n + 1) ≤ n + 1) by (unfold u64; apply Z.mod_le; lia).
    rewrite (proj2 (Z.eqb_neq _ _)), (proj2 (Z.eqb_neq _ _)), (proj2 (Z.ltb_ge _ _)) by lia. done. }
  cbn [SequenceValidator.sc_outcome]. rewrite bool_decide_false by done.
  cbn [recovery_snapshot]. rewrite El. exact E.
Qed.

(** C18: recovery from a gap loses nothing the snapshot has. A consumer reads [feed],
    misses the events [lost], and reads on from [ev], whose number shows the gap. If
    the file it recovers from is a snapshot of the books after [feed] and [lost], it
    recovers once, does not stop, and ends with books that show what the books of the
    whole stream show, for every instrument. *)
Theorem recovery_is_exact feed lost ev rest n q m_gap s_gap m_all s_all :
  Forall event_typed (feed ++ lost ++ ev :: rest) → consecutive None feed = true →
  number_after None feed = Some n → n + 1 < sequence_of ev →
  consecutive (Some (sequence_of ev)) rest = true → in_u64 q →
  apply_events (feed ++ lost) empty no_stats = Some (m_gap, s_gap) →
  vsize (snapshot_entries q m_gap) < 2 ^ 64 →
  apply_events (feed ++ lost ++ ev :: rest) empty no_stats = Some (m_all, s_all) →
  ∃ o, run_replay (Some (EventFile.written (feed ++ ev :: rest)))
         (mkOptions true true (Some (Some (Snapshot.write_snapshot q m_gap)))) = Some o ∧
    recoveries (stats o) = 1 ∧ stopped_early o = false ∧
    last_sequence_number o = number_after None (ev :: rest) ∧
    ∀ id, same_views (book_for id m_all) (book_for id (books o)).
Proof.
  intros Ht Hcf Hn Hgap Hcr Hq Egap Hcount Eall.
  assert (Forall event_typed (feed ++ ev :: rest) ∧ Forall event_typed (feed ++ lost) ∧
    Forall event_typed (ev :: rest)) as (Htf & Htl & Htr).
  { rewrite !Forall_app in Ht |- *. naive_solver. }
  rewrite run_replay_frames. rewrite <-(app_nil_r (EventFile.written _)).
  rewrite (EventFile.frames_events _ [] Htf), map_app, <-app_assoc. cbn [map app].
  set (options := mkOptions true true _).
  destruct (replay_in_order options feed (inl ev :: map inl rest ++ EventFile.frames []) None no_outcome ∅
    books_rep_empty Hcf) as (o1 & -> & HR1 & Hr1 & Hs1 & _ & _). rewrite Hn.
  destruct (snapshot_arrivals _ q _ _ Htl Hq Egap Hcount) as (m' & a' & El & HR' & Hq').
  cbn [replay_frames].
  destruct (recover ev n o1 m' a' _ q true true HR' El) as (m1 & E1 & HR2); [|done|].
  { destruct feed as [|e0 feed0] using rev_ind; [done|]. unfold number_after in Hn.
    rewrite foldl_app in Hn. injection Hn as <-. apply Forall_app in Htl as [[_ He]%Forall_app _].
    apply Forall_inv in He. destruct e0; hnf in He; cbn; unpack; done. }
  change (mkOptions true true _) with options in E1. rewrite E1. cbn [mbind option_bind].
  set (o2 := mkReplayOutcome _ m1 _ _ _).
  destruct (replay_in_order options rest (EventFile.frames []) (Some (sequence_of ev)) o2 _ HR2 Hcr)
    as (o3 & -> & HR3 & Hr3 & Hs3 & Hl3 & _).
  exists o3. split; [done|]. split; [rewrite Hr3; cbn; by rewrite Hr1|]. split; [rewrite Hs3; cbn; by rewrite Hs1|].
  split; [rewrite Hl3; done|]. intros id.
  destruct (apply_events_refines (feed ++ lost ++ ev :: rest) empty ∅ no_stats books_rep_empty) as (mx & sx & Ex & HRx).
  rewrite Eall in Ex. injection Ex as <- <-. apply (rep_same_views _ _ _ _ _ HRx HR3).
  rewrite app_assoc, spec_events_app.
  apply (spec_events_same (ev :: rest) _ a' Htr); [|intros id'; by symmetry].
  apply (spec_events_ok _ _ Htl). intros id' os' Hno. by rewrite lookup_empty in Hno.
Qed.

Definition seen : list Event := [MAdd (mkAddOrder 1 10 11 7 100 5 Buy)].
Definition missed : list Event :=
  [MAdd (mkAddOrder 2 10 12 7 100 6 Buy); MAdd (mkAddOrder 3 10 13 7 103 8 Sell)].
Definition reveals : Event := MCancel (mkCancelOrder 4 10 11 7).
Definition remaining : list Event := [MModify (mkModifyOrder 5 10 12 7 101 4)].

Definition books_after (events : list Event) : t * ReplayStats :=
  default (empty, no_stats) (apply_events events empty no_stats).

Lemma books_after_spec events :
  apply_events events empty no_stats = Some ((books_after events).1, (books_after events).2).
Proof.
  destruct (apply_events_refines events empty ∅ no_stats books_rep_empty) as (m & s & E & _).
  unfold books_after. by rewrite E.
Qed.

Lemma sample_stream_typed : Forall event_typed (seen ++ missed ++ reveals :: remaining).
Proof.
  unfold seen, missed, remaining, reveals. cbn [app].
  repeat first [apply List.Forall_nil | apply List.Forall_cons; [by split_and!|]].
Qed.

Lemma recovery_is_exact_witness :
  let gap := books_after (seen ++ missed) in
  let all := books_after (seen ++ missed ++ reveals :: remaining) in
  apply_events (seen ++ missed) empty no_stats = Some (gap.1, gap.2) ∧
  apply_events (seen ++ missed ++ reveals :: remaining) empty no_stats = Some (all.1, all.2) ∧
  ∃ o, run_replay (Some (EventFile.written (seen ++ reveals :: remaining)))
         (mkOptions true true (Some (Some (Snapshot.write_snapshot 3 gap.1)))) = Some o ∧
    recoveries (stats o) = 1 ∧ stopped_early o = false ∧
    last_sequence_number o = number_after None (reveals :: remaining) ∧
    ∀ id, same_views (book_for id all.1) (book_for id (books o)).
Proof.
  intros gap all.
  pose proof (books_after_spec (seen ++ missed)) as E1. fold gap in E1.
  pose proof (books_after_spec (seen ++ missed ++ reveals :: remaining)) as E2. fold all in E2.
  split; [exact E1|]. split; [exact E2|].
  assert (vsize (snapshot_entries 3 gap.1) < 2 ^ 64) as Hc by (vm_compute; reflexivity).
  assert (consecutive None seen = true) as C1 by reflexivity.
  assert (number_after None seen = Some 1) as C2 by reflexivity.
  assert (1 + 1 < sequence_of reveals) as C3 by reflexivity.
  assert (consecutive (Some (sequence_of reveals)) remaining = true) as C4 by reflexivity.
  assert (in_u64 3) as C5 by (split; reflexivity || discriminate).
  exact (recovery_is_exact seen missed reveals remaining 1 3 gap.1 gap.2 all.1 all.2
    sample_stream_typed C1 C2 C3 C4 C5 E1 Hc E2).
Defined.

End Recovery.
