(* ===== verification/Publisher.v ===== *)
(** * The market-data publisher ([exchange/market_data/market_data_publisher.cpp])

    The public events of the matching engine, as market-data messages with numbers of
    their own. [options_.clock()] is a parameter: its reading when message [n] is made. *)

From S2P Require Import Prelude Types MarketDataCodec OrderBook BookManager.

Module MarketDataPublisher.
Import MarketDataCodec.

(** The member [next_sequence_] is the whole state. *)
Record t := mk { next_sequence_ : Sequence }.

Definition make : t := mk 1.

(** [next_sequence_++] *)
Definition next_sequence_number (p : t) : Sequence * t :=
  (next_sequence_ p, mk (u64 (next_sequence_ p + 1))).

Section publisher.
Context (clock : Sequence → Timestamp).

Definition publish_book_order_added (event : BookOrderAdded) (p : t) : list Event * t :=
  let '(n, p) := next_sequence_number p in
  ([MAdd (mkAddOrder n (clock n) (ba_exchange_order_id event) (ba_instrument_id event) (ba_price event)
     (ba_quantity event) (ba_side event))], p).

Definition publish_book_order_reduced (event : BookOrderReduced) (p : t) : list Event * t :=
  let '(n, p) := next_sequence_number p in
  ([MModify (mkModifyOrder n (clock n) (br_exchange_order_id event) (br_instrument_id event) (br_price event)
     (br_new_remaining_quantity event))], p).

Definition publish_book_order_removed (event : BookOrderRemoved) (p : t) : list Event * t :=
  let '(n, p) := next_sequence_number p in
  ([MCancel (mkCancelOrder n (clock n) (bx_exchange_order_id event) (bx_instrument_id event))], p).

Definition publish_trade_executed (event : TradeExecuted) (p : t) : list Event * t :=
  let '(n, p) := next_sequence_number p in
  ([MTrade (mkTrade n (clock n) (te_instrument_id event) (te_price event) (te_quantity event)
     (te_aggressor_side event))], p).

(** What [publish] hands to the sink. *)
Definition publish (event : ExchangeEvent) (p : t) : list Event * t :=
  match event with
  | EvAdded e => publish_book_order_added e p
  | EvReduced e => publish_book_order_reduced e p
  | EvRemoved e => publish_book_order_removed e p
  | EvTrade e => publish_trade_executed e p
  | _ => ([], p)
  end.

(** The feed of a list of events: the publisher as an event sink. *)
Fixpoint feed (events : list ExchangeEvent) (p : t) : list Event * t :=
  match events with
  | [] => ([], p)
  | event :: events =>
      let '(out, p) := publish event p in
      let '(outs, p) := feed events p in (out ++ outs, p)
  end.
End publisher.

End MarketDataPublisher.
