(* ===== verification/FeedMirror.v ===== *)
(** * The feed mirrors the matching book

    The public events of a command, applied to a book of the feed that has the orders
    of the matching book, are all accepted and leave it with the orders the matching
    book has after the command. Orders are compared as a multiset: a reduced order
    keeps its place in the matching book and moves to the back in the feed's. *)

From S2P Require Import Prelude Types SideIndex PriceIndex MatchingBook BookSpec BookQueue.
From S2P Require Import MatchingEngine Fills EngineMatching EngineInvariant EngineTotal OrderBook SnapshotProps.

Module FeedMirror.
Import PriceIndex BookQueue MatchingEngine Fills EngineMatching EngineInvariant EngineTotal.
Import ABook (entry, entry_price, queue, with_queue, with_free, free, bids, asks, next_slot,
  take_slot, insert_back, remove_slot).
Import SnapshotProps (known_in, without_unknown).
Import OrderBook (order, mkOrder, od_id, od_side, od_price, od_quantity, op, Add, Cancel, Modify, spec_op).

(** ** Operations that are all accepted *)

Fixpoint agreed (ops : list op) (os : list order) : option (list order) :=
  match ops with
  | [] => Some os
  | o :: ops =>
      match spec_op o os with
      | (None, os) => agreed ops os
      | (Some _, _) => None
      end
  end.

Lemma agreed_app ops ops' os : agreed (ops ++ ops') os = (agreed ops os ≫= agreed ops').
Proof.
  revert os. induction ops as [|o ops IH]; intros os; [done|]. cbn [app agreed].
  destruct (spec_op o os) as [[]?]; [done|apply IH].
Qed.

(** Ids are unique and below a bound. *)
Definition ids_below (k : Z) (os : list order) : Prop :=
  NoDup (od_id <$> os) ∧ Forall (λ o, 0 ≤ od_id o < k) os.

Lemma ids_below_mono j k os : j ≤ k → ids_below j os → ids_below k os.
Proof. intros Hjk [Hn Hf]. split; [done|]. apply (Forall_impl _ _ _ Hf). intros; lia. Qed.

#[export] Instance ids_below_proper k : Proper ((≡ₚ) ==> iff) (ids_below k).
Proof. intros os os' H. unfold ids_below. by rewrite H. Qed.

Lemma known_of o l os : os ≡ₚ o :: l → OrderBook.known (od_id o) os = true.
Proof. intros H. rewrite known_in, H. by left. Qed.

Lemma without_of o l os : os ≡ₚ o :: l → NoDup (od_id <$> os) → OrderBook.without (od_id o) os ≡ₚ l.
Proof.
  intros H Hn. unfold OrderBook.without. rewrite H, filter_cons_False by naive_solver.
  rewrite OrderBook.filter_keep; [done|]. intros x Hx E. rewrite H in Hn.
  apply NoDup_cons in Hn as [Hno _]. apply Hno. rewrite <-E. by apply list_elem_of_fmap_2.
Qed.

Lemma found_of o l os : os ≡ₚ o :: l → NoDup (od_id <$> os) →
  filter (λ x, od_id x = od_id o) os = [o].
Proof.
  intros H Hn. apply Permutation_singleton_r. rewrite H, filter_cons_True by done.
  rewrite OrderBook.filter_drop; [done|]. intros x Hx E. rewrite H in Hn.
  apply NoDup_cons in Hn as [Hno _]. apply Hno. rewrite <-E. by apply list_elem_of_fmap_2.
Qed.

Lemma cancel_agreed o l os : os ≡ₚ o :: l → NoDup (od_id <$> os) →
  ∃ os', agreed [Cancel (od_id o)] os = Some os' ∧ os' ≡ₚ l.
Proof.
  intros H Hn. exists (OrderBook.without (od_id o) os). split; [|by apply without_of].
  cbn [agreed spec_op]. by rewrite (known_of _ _ _ H).
Qed.

Lemma modify_agreed o l os q : os ≡ₚ o :: l → NoDup (od_id <$> os) → 0 < od_price o → q ≠ 0 →
  ∃ os', agreed [Modify (od_id o) (od_price o) q] os = Some os' ∧
    os' ≡ₚ mkOrder (od_id o) (od_side o) (od_price o) q :: l.
Proof.
  intros H Hn Hp Hq. eexists. cbn [agreed spec_op].
  rewrite (proj2 (Z.leb_gt _ _)), (proj2 (Z.eqb_neq _ _)), (found_of _ _ _ H Hn) by done.
  split; [done|]. rewrite (without_of _ _ _ H Hn). symmetry. apply Permutation_cons_append.
Qed.

Lemma add_agreed id sd p q os : 0 < p → q ≠ 0 → id ∉ od_id <$> os →
  agreed [Add id p q sd] os = Some (os ++ [mkOrder id sd p q]).
Proof.
  intros Hp Hq Hid. cbn [agreed spec_op].
  rewrite (proj2 (Z.leb_gt _ _)), (proj2 (Z.eqb_neq _ _)) by done.
  rewrite <-known_in in Hid. apply not_true_is_false in Hid. by rewrite Hid.
Qed.

(** Unique ids stay so. *)
Definition adds_below (k : Z) (o : op) : Prop := match o with Add id _ _ _ => 0 ≤ id < k | _ => True end.

Lemma ids_below_without k id os : ids_below k os → ids_below k (OrderBook.without id os).
Proof.
  intros [Hn Hf]. split.
  - eapply sublist_NoDup; [exact Hn|]. apply fmap_sublist, sublist_filter.
  - apply Forall_forall. intros o [_ Ho]%list_elem_of_filter. by eapply Forall_forall in Hf.
Qed.

Lemma ids_below_snoc k o os : ids_below k os → 0 ≤ od_id o < k → od_id o ∉ od_id <$> os →
  ids_below k (os ++ [o]).
Proof.
  intros [Hn Hf] Ho Hno. rewrite <-Permutation_cons_append. split; [by constructor|by constructor].
Qed.

Lemma spec_op_ids k o os : ids_below k os → adds_below k o → ids_below k (spec_op o os).2.
Proof.
  intros Hi Ho. destruct o as [id p q sd|id|id p q|]; cbn [spec_op].
  - case_bool; [done|]. case_bool; [done|]. destruct (OrderBook.known id os) eqn:Hk; [done|].
    apply ids_below_snoc; [done..|]. cbn [od_id]. by rewrite <-known_in, Hk.
  - destruct (OrderBook.known id os); [by apply ids_below_without|done].
  - case_bool; [done|]. case_bool; [done|]. destruct (filter _ os) as [|x l] eqn:Ef; [done|].
    assert (x ∈ filter (λ o, od_id o = id) os) as [Hx Hin]%list_elem_of_filter by (rewrite Ef; by left).
    apply ids_below_snoc; [by apply ids_below_without| |cbn [od_id]; by rewrite <-known_in, without_unknown].
    destruct Hi as [_ Hf]. cbn [od_id]. rewrite <-Hx. by eapply Forall_forall in Hf.
  - split; constructor.
Qed.

Lemma agreed_ids k ops : ∀ os os', ids_below k os → Forall (adds_below k) ops →
  agreed ops os = Some os' → ids_below k os'.
Proof.
  induction ops as [|o ops IH]; intros os os' Hi Ho Ha; [by injection Ha as <-|].
  apply Forall_cons in Ho as [Ho Hops]. pose proof (spec_op_ids k o os Hi Ho) as Hi'. cbn [agreed] in Ha.
  destruct (spec_op o os) as [[] os1]; [done|]. by eapply IH.
Qed.

(** ** The orders of a matching book *)

Definition shown (o : BookOrder) : order :=
  mkOrder (bo_exchange_order_id o) (bo_side o) (bo_price o) (bo_remaining_quantity o).

Definition shown_entry (x : entry) : order := shown x.2.

Definition display (b : book) : list order := shown_entry <$> (bids b ++ asks b).

Lemma display_side sd b :
  display b ≡ₚ (shown_entry <$> queue sd b) ++ (shown_entry <$> queue (contra sd) b).
Proof. unfold display. rewrite fmap_app. destruct sd; simpl; [done|apply Permutation_app_comm]. Qed.

Lemma display_change sd b b' l : queue (contra sd) b' = queue (contra sd) b →
  (shown_entry <$> queue sd b') ++ (shown_entry <$> queue (contra sd) b) ≡ₚ l → display b' ≡ₚ l.
Proof. intros E H. by rewrite (display_side sd), E. Qed.

Definition positive_prices (q : list entry) : Prop := ∀ x, x ∈ q → 0 < bo_price x.2.

(** ** Fills *)

Definition fill_op (x : fill) : op :=
  let o := fl_order x in
  if fl_after x =? 0 then Cancel (bo_exchange_order_id o)
  else Modify (bo_exchange_order_id o) (bo_price o) (fl_after x).

Lemma agreed_step o ops os os1 : agreed [o] os = Some os1 → agreed (o :: ops) os = agreed ops os1.
Proof. cbn [agreed]. destruct (spec_op o os) as [[] ?]; [done|]. by intros [= ->]. Qed.

Lemma fills_agreed side price q : ∀ rem os l, live_quantities q → positive_prices q →
  os ≡ₚ (shown_entry <$> q) ++ l → NoDup (od_id <$> os) →
  ∃ os', agreed (fill_op <$> oc_fills (fill_queue side price rem q)) os = Some os' ∧
    os' ≡ₚ (shown_entry <$> oc_queue (fill_queue side price rem q)) ++ l.
Proof.
  induction q as [|[s o] q IH]; intros rem os l Hq Hp Hos Hn; [by exists os|].
  cbn [fill_queue]. destruct (_ || _); [by exists os|].
  apply live_cons in Hq as [Ho Hq]. rewrite fmap_cons in Hos. cbn [app] in Hos.
  assert (0 < bo_price o) as Hpo by (apply (Hp (s, o)); by left).
  set (x := mkFill (s, o) _). destruct (Z.eqb_spec (fl_after x) 0) as [Ea|Ea]; cbn [oc_fills oc_queue].
  - destruct (cancel_agreed (shown o) _ os Hos Hn) as (os1 & E1 & Hos1).
    assert (NoDup (od_id <$> os1)) as Hn1.
    { rewrite Hos1. rewrite Hos in Hn. by apply NoDup_cons in Hn as [_ Hn]. }
    destruct (IH (rem - Z.min rem (bo_remaining_quantity o)) os1 l Hq) as (os2 & E2 & Hos2); [|done..|].
    { intros y Hy. apply Hp. by right. }
    exists os2. split; [|done]. rewrite fmap_cons.
    assert (fill_op x = Cancel (od_id (shown o))) as ->.
    { unfold fill_op. rewrite (proj2 (Z.eqb_eq _ _) Ea). done. }
    by rewrite (agreed_step _ _ _ _ E1).
  - destruct (modify_agreed (shown o) _ os (fl_after x) Hos Hn Hpo Ea) as (os1 & E1 & Hos1).
    exists os1. split; [|by rewrite Hos1]. rewrite fmap_cons.
    assert (fill_op x = Modify (od_id (shown o)) (od_price (shown o)) (fl_after x)) as ->; [|exact E1].
    unfold fill_op. by rewrite (proj2 (Z.eqb_neq _ _) Ea).
Qed.

(** ** An order submitted *)

Definition rest_ops (o : ExchangeRestingOrder) : list op :=
  if rests o then [Add (ero_exchange_order_id o) (ero_price o) (ero_remaining_quantity o) (ero_side o)] else [].

Definition submit_ops (o : ExchangeRestingOrder) (b : book) : list op :=
  (fill_op <$> oc_fills (outcome_of o b)) ++ rest_ops (matched o b).

(** The book once the order is matched and rested. *)
Definition submit_book (o : ExchangeRestingOrder) (b : book) : book :=
  if rests (matched o b) then rest_book (matched o b) (book_matched o b) else book_matched o b.

Lemma book_prices n b sd : book_ok n b → positive_prices (queue sd b).
Proof. intros Hb x Hx. destruct (bk_entry _ _ Hb sd x Hx) as (_ & [Hp _] & _). done. Qed.

Lemma rest_display o b : display (rest_book o b) ≡ₚ display b ++ [shown (book_order o)].
Proof.
  apply (display_change (ero_side o) b).
  { unfold rest_book, take_slot. destruct (free b); by destruct (ero_side o). }
  unfold rest_book. rewrite queue_with_queue, insert_back_perm, fmap_cons, (display_side (ero_side o) b).
  unfold shown_entry at 1. cbn [snd]. rewrite <-Permutation_cons_append. done.
Qed.

Lemma submit_agreed n o b os : book_ok n b → price_safe (ero_price o) →
  display b ≡ₚ os → ids_below (ero_exchange_order_id o) os →
  ∃ os', agreed (submit_ops o b) os = Some os' ∧ display (submit_book o b) ≡ₚ os'.
Proof.
  intros Hb Hp Hos Hi. set (sd := contra (ero_side o)).
  destruct (fills_agreed (ero_side o) (ero_price o) (queue sd b) (ero_remaining_quantity o) os
    (shown_entry <$> queue (contra sd) b)) as (os1 & E1 & Hos1).
  { by apply (book_live n). } { by apply (book_prices n). }
  { by rewrite <-Hos, (display_side sd). } { apply Hi. }
  assert (display (book_matched o b) ≡ₚ os1) as Hd.
  { apply (display_change sd b); [apply queue_book_after_contra|]. unfold book_matched.
    rewrite queue_book_after. by rewrite Hos1. }
  unfold submit_ops, submit_book, rest_ops. rewrite agreed_app.
  change (oc_fills (outcome_of o b)) with
    (oc_fills (fill_queue (ero_side o) (ero_price o) (ero_remaining_quantity o) (queue sd b))).
  rewrite E1. cbn [mbind option_bind].
  destruct (rests (matched o b)) eqn:Hr; [|by exists os1].
  exists (os1 ++ [shown (book_order (matched o b))]). split; [|by rewrite rest_display, Hd].
  apply andb_true_iff in Hr as [_ Hr%negb_true_iff%Z.eqb_neq].
  apply add_agreed; [apply Hp|done|].
  assert (ids_below (ero_exchange_order_id o) os1) as [_ Hf].
  { apply (agreed_ids _ _ os os1 Hi) in E1; [done|]. apply Forall_fmap, Forall_true. intros x. unfold fill_op.
    simpl. by case_bool. }
  intros (x & Ex & Hx)%list_elem_of_fmap. apply (Forall_forall _ os1) with (x := x) in Hf; [|done].
  cbn [matched ero_exchange_order_id ero_with_remaining] in Ex. lia.
Qed.

(** ** An order removed or reduced *)

Lemma split_at n b h o : book_ok n b → ABook.at_ h b = Some o →
  ∃ q1 q2, queue (bo_side o) b = q1 ++ (h, o) :: q2 ∧ NoDup (q1 ++ (h, o) :: q2).*1.
Proof.
  intros Hb Ho. destruct (at_queue _ _ _ Ho) as [sd Hin].
  destruct (queue_at_side _ _ _ _ _ Hb Hin) as [_ <-].
  destruct (list_elem_of_split _ _ Hin) as (q1 & q2 & E). exists q1, q2. rewrite <-E.
  split; [done|]. by apply (book_queue_nodup n).
Qed.

Lemma removed_agreed n b h o os : book_ok n b → ABook.at_ h b = Some o → display b ≡ₚ os →
  NoDup (od_id <$> os) →
  ∃ os', agreed [Cancel (bo_exchange_order_id o)] os = Some os' ∧ display (removed_book h o b) ≡ₚ os'.
Proof.
  intros Hb Ho Hos Hn. destruct (split_at n b h o Hb Ho) as (q1 & q2 & E & Hnd).
  destruct (cancel_agreed (shown o) ((shown_entry <$> q1 ++ q2) ++
    (shown_entry <$> queue (contra (bo_side o)) b)) os) as (os' & Ea & Hos'); [|done|].
  { rewrite <-Hos, (display_side (bo_side o)), E, !fmap_app, fmap_cons. unfold shown_entry at 2. simpl.
    solve_Permutation. }
  exists os'. split; [done|]. apply (display_change (bo_side o) b).
  { unfold removed_book. by destruct (bo_side o). }
  replace (queue (bo_side o) (removed_book h o b)) with (remove_slot h (queue (bo_side o) b))
    by (unfold removed_book; by destruct (bo_side o)).
  rewrite E. change h with (h, o).1 at 1. by rewrite remove_slot_split, Hos'.
Qed.

Lemma update_slot_split h o f q1 q2 : NoDup (q1 ++ (h, o) :: q2).*1 →
  ABook.update_slot h f (q1 ++ (h, o) :: q2) = q1 ++ (h, f o) :: q2.
Proof.
  intros Hn. assert (∀ q, h ∉ q.*1 → ABook.update_slot h f q = q) as Hsame.
  { intros q Hq. unfold ABook.update_slot. rewrite <-(list_fmap_id q) at 2. apply list_fmap_ext.
    intros i x Hx%list_elem_of_lookup_2. simpl. destruct (Z.eqb_spec x.1 h) as [E|]; [|done].
    destruct Hq. rewrite <-E. by apply list_elem_of_fmap_2. }
  rewrite fmap_app, fmap_cons, <-Permutation_middle, <-fmap_app in Hn.
  apply NoDup_cons in Hn as [Hno _]. rewrite fmap_app, elem_of_app in Hno. simpl in Hno.
  unfold ABook.update_slot at 1. rewrite fmap_app, fmap_cons. simpl. rewrite Z.eqb_refl.
  fold (ABook.update_slot h f q1) (ABook.update_slot h f q2). by rewrite !Hsame by tauto.
Qed.

(** An edit in place that only the quantity shows. *)
Lemma edited_agreed n b h o f q os : book_ok n b → ABook.at_ h b = Some o → display b ≡ₚ os →
  NoDup (od_id <$> os) → q ≠ 0 →
  shown (f o) = mkOrder (bo_exchange_order_id o) (bo_side o) (bo_price o) q →
  ∃ os', agreed [Modify (bo_exchange_order_id o) (bo_price o) q] os = Some os' ∧
    display (edited_book h f (bo_side o) b) ≡ₚ os'.
Proof.
  intros Hb Ho Hos Hn Hq Hf. destruct (split_at n b h o Hb Ho) as (q1 & q2 & E & Hnd).
  assert (0 < bo_price o) as Hp.
  { apply (book_prices n b (bo_side o) Hb (h, o)). rewrite E. set_solver. }
  destruct (modify_agreed (shown o) ((shown_entry <$> q1 ++ q2) ++
    (shown_entry <$> queue (contra (bo_side o)) b)) os q) as (os' & Ea & Hos'); [|done..|].
  { rewrite <-Hos, (display_side (bo_side o)), E, !fmap_app, fmap_cons. unfold shown_entry at 2. simpl.
    solve_Permutation. }
  exists os'. split; [done|]. apply (display_change (bo_side o) b).
  { unfold edited_book. by destruct (bo_side o). }
  unfold edited_book. rewrite queue_with_queue, E, update_slot_split, Hos' by done.
  rewrite !fmap_app, fmap_cons. unfold shown_entry at 2. cbn [snd]. rewrite Hf. solve_Permutation.
Qed.

End FeedMirror.
