(* ===== verification/FeedEngine.v ===== *)
(** * The feed mirrors the engine

    [tracked]: the books of the feed have the orders of the engine's books, and the ids
    of the orders are unique and below the engine's counter. Every command keeps it,
    and no event of a command is refused by a book of the feed. *)

From S2P Require Import Prelude Types Effects SideIndex PriceIndex MatchingBook BookSpec BookQueue.
From S2P Require Import MatchingEngine Fills EngineMatching EngineInvariant EngineTotal EngineStart.
From S2P Require Import OrderBook MarketDataCodec BookManager SnapshotProps FeedMirror.

Module FeedEngine.
Import PriceIndex BookQueue MatchingEngine Fills EngineMatching EngineInvariant EngineTotal EngineStart.
Import ABook (entry, queue, with_queue, with_free, free, bids, asks).
Import OrderBook (op, order, Add, Cancel, Modify).
Import FeedMirror.
Import BookManager (arrivals_of).
Import SnapshotProps (arrivals_of_insert).
Abbreviation arrivals := BookManager.arrivals (only parsing).

(** ** Events as operations *)

Definition feed_op (ev : ExchangeEvent) : option (InstrumentId * op) :=
  match ev with
  | EvAdded e => Some (ba_instrument_id e, Add (ba_exchange_order_id e) (ba_price e) (ba_quantity e) (ba_side e))
  | EvReduced e => Some (br_instrument_id e, Modify (br_exchange_order_id e) (br_price e) (br_new_remaining_quantity e))
  | EvRemoved e => Some (bx_instrument_id e, Cancel (bx_exchange_order_id e))
  | _ => None
  end.

(** The events, applied; [None] if a book refuses one. *)
Fixpoint mirror (evs : list ExchangeEvent) (a : arrivals) : option arrivals :=
  match evs with
  | [] => Some a
  | ev :: evs =>
      match feed_op ev with
      | None => mirror evs a
      | Some (id, o) =>
          match OrderBook.spec_op o (arrivals_of id a) with
          | (None, os) => mirror evs (<[id := os]> a)
          | (Some _, _) => None
          end
      end
  end.

Lemma mirror_app evs evs' a : mirror (evs ++ evs') a = (mirror evs a ≫= mirror evs').
Proof.
  revert a. induction evs as [|ev evs IH]; intros a; [done|]. cbn [app mirror].
  destruct (feed_op ev) as [[id o]|]; [|apply IH].
  destruct (OrderBook.spec_op o _) as [[]?]; [done|apply IH].
Qed.

Lemma mirror_book id evs : ∀ ops a os', omap feed_op evs = (λ o, (id, o)) <$> ops →
  agreed ops (arrivals_of id a) = Some os' →
  ∃ a', mirror evs a = Some a' ∧
    ∀ id', arrivals_of id' a' = if decide (id = id') then os' else arrivals_of id' a.
Proof.
  induction evs as [|ev evs IH]; intros ops a os' Ho Ha.
  { destruct ops; [|done]. injection Ha as <-. exists a. split; [done|]. intros id'. by case_decide; subst. }
  cbn [omap list_omap mirror] in *. destruct (feed_op ev) as [[id1 o]|]; [|by apply (IH ops)].
  destruct ops as [|o' ops]; [done|]. rewrite fmap_cons in Ho. injection Ho as -> -> Ho.
  cbn [agreed] in Ha. destruct (OrderBook.spec_op o' (arrivals_of id a)) as [[]os]; [done|].
  destruct (IH ops (<[id := os]> a) os' Ho) as (a' & E & Ha').
  { by rewrite arrivals_of_insert, decide_True. }
  exists a'. split; [done|]. intros id'. rewrite Ha', arrivals_of_insert. by case_decide.
Qed.

Lemma fill_events_ops o cs fs : ∀ n rem,
  omap feed_op (fill_events o cs n rem fs) = (λ x, (ero_instrument_id o, x)) <$> (fill_op <$> fs).
Proof.
  induction fs as [|x fs IH]; intros n rem; [done|]. cbn [fill_events]. rewrite !fmap_cons.
  cbn [omap list_omap]. unfold trade_event at 1. cbn [feed_op]. unfold resting_event, fill_op at 1.
  destruct (fl_after x =? 0); cbn [feed_op br_instrument_id bx_instrument_id]; f_equal; apply IH.
Qed.

Lemma submit_events_ops o cs b n :
  omap feed_op (submit_events o cs b n) = (λ x, (ero_instrument_id o, x)) <$> submit_ops o b.
Proof.
  unfold submit_events, submit_ops. rewrite omap_app, fmap_app, fill_events_ops. f_equal.
  unfold rest_events, rest_ops. by destruct (rests _).
Qed.

Lemma submit_ops_below k o b : 0 ≤ ero_exchange_order_id o < k → Forall (adds_below k) (submit_ops o b).
Proof.
  intros Hk. apply Forall_app. split.
  - apply Forall_fmap, Forall_true. intros x. unfold fill_op. simpl. by case_bool.
  - unfold rest_ops. destruct (rests _); repeat constructor; done || apply Hk.
Qed.

(** ** States that differ in one book *)

Definition book_changed (id : InstrumentId) (b : book) (e e' : eng) : Prop :=
  slot_of_id_ e' = slot_of_id_ e ∧ books_ e' = books_ (with_book id b e).

Lemma book_changed_for id b b0 e e' : book_for id e = Some b0 → book_changed id b e e' →
  book_for id e' = Some b.
Proof.
  intros Hb [Es Eb]. pose proof (book_for_with id b b0 e Hb) as H. unfold book_for in *.
  rewrite Es, Eb. exact H.
Qed.

Lemma book_changed_knows id b e e' id' : book_changed id b e e' →
  knows_instrument id' e' = knows_instrument id' e.
Proof. intros [Es _]. unfold knows_instrument. by rewrite Es. Qed.

Lemma book_changed_other n id b e e' id' : inv n e → book_changed id b e e' → id' ≠ id →
  knows_instrument id e = true → knows_instrument id' e = true → book_for id' e' = book_for id' e.
Proof.
  intros HI [Es Eb] Hne Hk Hk'. rewrite <-(book_for_other n e id id' b HI Hk Hk' Hne).
  unfold book_for. by rewrite Es, Eb.
Qed.

Lemma book_changed_trans id b1 b2 e e1 e2 : book_changed id b1 e e1 → book_changed id b2 e1 e2 →
  book_changed id b2 e e2.
Proof.
  intros [Es Eb] [Es' Eb']. split; [by rewrite Es', Es|]. rewrite Eb'.
  rewrite <-(with_book_twice id b2 b1 e). unfold with_book. cbn [books_ with_books slot_of_id_].
  rewrite Es, Eb. unfold with_book. cbn [books_ with_books]. done.
Qed.

Lemma submit_changed id o b e : ero_instrument_id o = id →
  book_changed id (submit_book o b) e (submit_state o b e).
Proof.
  intros <-. assert (book_changed (ero_instrument_id o) (book_matched o b) e
    (engine_after (ero_instrument_id o) (contra (ero_side o)) b e (outcome_of o b))) as H1 by done.
  unfold submit_state, submit_book, rest_state. destruct (rests (matched o b)); [|done].
  eapply book_changed_trans; [exact H1|]. done.
Qed.

(** ** What is tracked *)

Record tracked (n : Z) (e : eng) (a : arrivals) : Prop := {
  tk_next : 0 < next_exchange_order_id_ e ≤ n + 1;
  tk_small : ∀ id, knows_instrument id e = true → in_u32 id;
  tk_book : ∀ id b, knows_instrument id e = true → book_for id e = Some b →
    display b ≡ₚ arrivals_of id a ∧ ids_below (next_exchange_order_id_ e) (arrivals_of id a);
}.

Lemma tracked_same n m e e' a : tracked n e a → n ≤ m →
  slot_of_id_ e' = slot_of_id_ e → books_ e' = books_ e →
  next_exchange_order_id_ e' = next_exchange_order_id_ e → tracked m e' a.
Proof.
  intros [H1 H2 H3] Hn Es Eb En. split; [rewrite En; lia|..].
  - intros id. unfold knows_instrument. rewrite Es. apply H2.
  - intros id b. unfold knows_instrument, book_for. rewrite Es, Eb, En. apply H3.
Qed.

Section change.
Context (n m : Z) (e e' : eng) (a : arrivals) (id : InstrumentId) (b b' : book).
Context (HI : inv n e) (HT : tracked n e a) (Hk : knows_instrument id e = true).
Context (Hb : book_for id e = Some b) (Hc : book_changed id b' e e').
Context (Hnext : next_exchange_order_id_ e ≤ next_exchange_order_id_ e' ≤ m + 1).

Lemma tracked_change evs ops os' : omap feed_op evs = (λ o, (id, o)) <$> ops →
  Forall (adds_below (next_exchange_order_id_ e')) ops →
  agreed ops (arrivals_of id a) = Some os' → display b' ≡ₚ os' →
  ∃ a', mirror evs a = Some a' ∧ tracked m e' a'.
Proof.
  intros Ho Hadd Ha Hd. destruct (mirror_book id evs ops a os' Ho Ha) as (a' & E & Ha').
  exists a'. split; [done|]. destruct (tk_book _ _ _ HT id b Hk Hb) as [_ Hi].
  pose proof (tk_next _ _ _ HT). split; [lia| |].
  { intros id'. rewrite (book_changed_knows _ _ _ _ id' Hc). apply HT. }
  intros id' c. rewrite (book_changed_knows _ _ _ _ id' Hc). intros Hk'. rewrite Ha'. destruct (decide (id = id')) as [<-|Hne].
  - rewrite (book_changed_for _ _ _ _ _ Hb Hc). intros [= <-]. split; [done|].
    eapply agreed_ids; [|done..]. eapply ids_below_mono; [|done]. lia.
  - rewrite (book_changed_other n id b' e e' id') by done. intros Hc'.
    destruct (tk_book _ _ _ HT id' c Hk' Hc') as [Hd' Hi']. split; [done|].
    eapply ids_below_mono; [|done]. lia.
Qed.
End change.

(** ** Every command *)

Lemma tracked_ids n e a id b : tracked n e a → knows_instrument id e = true → book_for id e = Some b →
  display b ≡ₚ arrivals_of id a ∧ ids_below (next_exchange_order_id_ e) (arrivals_of id a) ∧
  NoDup (OrderBook.od_id <$> arrivals_of id a).
Proof. intros HT Hk Hb. destruct (tk_book _ _ _ HT id b Hk Hb) as [? Hi]. by destruct Hi as [? ?]. Qed.

Lemma next_id n e a : tracked n e a → n < MatchingBook.kNil →
  u64 (next_exchange_order_id_ e + 1) = next_exchange_order_id_ e + 1.
Proof.
  intros HT Hn. pose proof (tk_next _ _ _ HT).
  unfold MatchingBook.kNil, SideIndex.kNil in Hn. apply u64_small. hnf. lia.
Qed.

Lemma new_order_tracked n e a cmd b : inv n e → tracked n e a → n < MatchingBook.kNil →
  knows_instrument (no_instrument_id cmd) e = true → book_for (no_instrument_id cmd) e = Some b →
  price_safe (no_price cmd) →
  ∃ a', mirror (accepted_event cmd e ::
      submit_events (new_order cmd e) (no_command_sequence cmd) b (next_seq (next_event_sequence_ e))) a = Some a' ∧
    tracked (n + 1) (submit_state (new_order cmd e) b (announced e)) a'.
Proof.
  intros HI HT Hn Hk Hb Hp. destruct (tracked_ids _ _ _ _ _ HT Hk Hb) as (Hd & Hi & _).
  destruct (known_book _ _ _ HI Hk) as (b0 & Hb0 & Hok). rewrite Hb in Hb0. injection Hb0 as <-.
  destruct (submit_agreed n (new_order cmd e) b (arrivals_of (no_instrument_id cmd) a) Hok Hp Hd Hi)
    as (os' & Ea & Hd').
  pose proof (tk_next _ _ _ HT) as Ht. pose proof (next_id _ _ _ HT Hn) as Hx.
  assert (next_exchange_order_id_ (submit_state (new_order cmd e) b (announced e)) =
    next_exchange_order_id_ e + 1) as Ex.
  { rewrite <-Hx. unfold submit_state, rest_state. by destruct (rests _). }
  apply (tracked_change n (n + 1) e _ a (no_instrument_id cmd) b (submit_book (new_order cmd e) b) HI HT Hk Hb)
    with (ops := submit_ops (new_order cmd e) b) (os' := os'); rewrite ?Ex; try done.
  - apply (submit_changed (no_instrument_id cmd) (new_order cmd e) b (announced e) eq_refl).
  - lia.
  - cbn [omap list_omap accepted_event feed_op]. apply submit_events_ops.
  - apply submit_ops_below. cbn. lia.
Qed.

Lemma cancel_tracked n e a cmd ref b o evs : inv n e → tracked n e a →
  knows_instrument (co_instrument_id cmd) e = true → book_for (co_instrument_id cmd) e = Some b →
  ABook.at_ (or_handle ref) b = Some o →
  omap feed_op evs = [(co_instrument_id cmd, Cancel (bo_exchange_order_id o))] →
  ∃ a', mirror evs a = Some a' ∧ tracked (n + 1) (cancelled_state cmd ref o b e) a'.
Proof.
  intros HI HT Hk Hb Ho Hev. destruct (tracked_ids _ _ _ _ _ HT Hk Hb) as (Hd & Hi & Hn).
  destruct (known_book _ _ _ HI Hk) as (b0 & Hb0 & Hok). rewrite Hb in Hb0. injection Hb0 as <-.
  destruct (removed_agreed n b _ o _ Hok Ho Hd Hn) as (os' & Ea & Hd'). pose proof (tk_next _ _ _ HT).
  apply (tracked_change n (n + 1) e _ a (co_instrument_id cmd) b (removed_book (or_handle ref) o b) HI HT Hk Hb)
    with (ops := [Cancel (bo_exchange_order_id o)]) (os' := os'); try done; cbn; [lia|].
  by repeat constructor.
Qed.

Lemma in_place_tracked n e a cmd ref b o evs : inv n e → tracked n e a →
  knows_instrument (ro_instrument_id cmd) e = true → book_for (ro_instrument_id cmd) e = Some b →
  ABook.at_ (or_handle ref) b = Some o → 0 < ro_new_quantity cmd →
  omap feed_op evs = [(ro_instrument_id cmd, Modify (bo_exchange_order_id o) (bo_price o) (ro_new_quantity cmd))] →
  ∃ a', mirror evs a = Some a' ∧ tracked (n + 1) (replaced_in_place cmd ref o b e) a'.
Proof.
  intros HI HT Hk Hb Ho Hq Hev. destruct (tracked_ids _ _ _ _ _ HT Hk Hb) as (Hd & Hi & Hn).
  destruct (known_book _ _ _ HI Hk) as (b0 & Hb0 & Hok). rewrite Hb in Hb0. injection Hb0 as <-.
  destruct (edited_agreed n b (or_handle ref) o (replace_fields cmd) (ro_new_quantity cmd) _ Hok Ho Hd Hn)
    as (os' & Ea & Hd'); [lia|done|]. pose proof (tk_next _ _ _ HT).
  apply (tracked_change n (n + 1) e _ a (ro_instrument_id cmd) b
    (edited_book (or_handle ref) (replace_fields cmd) (bo_side o) b) HI HT Hk Hb)
    with (ops := [Modify (bo_exchange_order_id o) (bo_price o) (ro_new_quantity cmd)]) (os' := os');
    try done; cbn; [lia|]. by repeat constructor.
Qed.

Lemma as_new_tracked n e a cmd ref b o : inv n e → tracked n e a → n < MatchingBook.kNil →
  knows_instrument (ro_instrument_id cmd) e = true → book_for (ro_instrument_id cmd) e = Some b →
  ABook.at_ (or_handle ref) b = Some o → price_safe (ro_new_price cmd) →
  let b1 := removed_book (or_handle ref) o b in
  ∃ a', mirror (replaced_events cmd (next_exchange_order_id_ e) (next_event_sequence_ e)
      (λ n, EvRemoved (mkBookOrderRemoved n (ro_instrument_id cmd) (bo_exchange_order_id o)
         (bo_side o) (bo_price o))) ++
      submit_events (replacement cmd o e) (ro_command_sequence cmd) b1
        (next_seq (next_seq (next_event_sequence_ e)))) a = Some a' ∧
    tracked (n + 1) (submit_state (replacement cmd o e) b1 (replaced_out cmd ref o b e)) a'.
Proof.
  intros HI HT Hn Hk Hb Ho Hp b1. destruct (tracked_ids _ _ _ _ _ HT Hk Hb) as (Hd & Hi & Hno).
  destruct (known_book _ _ _ HI Hk) as (b0 & Hb0 & Hok). rewrite Hb in Hb0. injection Hb0 as <-.
  destruct (removed_agreed n b _ o _ Hok Ho Hd Hno) as (os1 & Ea & Hd1).
  destruct (remove_book_ok n b _ o b1 Hok (remove_at_run _ _ _ Ho)) as (Hok1 & _ & _).
  assert (ids_below (next_exchange_order_id_ e) os1) as Hi1 by (eapply agreed_ids; [done| |done]; by repeat constructor).
  destruct (submit_agreed n (replacement cmd o e) b1 os1 Hok1 Hp Hd1 Hi1) as (os' & Ea' & Hd').
  pose proof (tk_next _ _ _ HT) as Ht. pose proof (next_id _ _ _ HT Hn) as Hx.
  set (e' := submit_state _ _ _).
  assert (next_exchange_order_id_ e' = next_exchange_order_id_ e + 1) as Ex.
  { rewrite <-Hx. unfold e', submit_state, rest_state. by destruct (rests _). }
  apply (tracked_change n (n + 1) e _ a (ro_instrument_id cmd) b (submit_book (replacement cmd o e) b1) HI HT Hk Hb)
    with (ops := Cancel (bo_exchange_order_id o) :: submit_ops (replacement cmd o e) b1) (os' := os');
    rewrite ?Ex; try done.
  - apply (book_changed_trans _ b1 _ _ (replaced_out cmd ref o b e)); [done|].
    apply (submit_changed (ro_instrument_id cmd) (replacement cmd o e) b1 _ eq_refl).
  - lia.
  - rewrite omap_app, submit_events_ops. done.
  - constructor; [done|]. apply submit_ops_below. cbn. lia.
  - by rewrite (agreed_step _ _ _ _ Ea).
Qed.

(** ** The fields of public events fit their types *)

Definition public_ok (ev : ExchangeEvent) : Prop :=
  match ev with
  | EvAdded e => in_u64 (ba_exchange_order_id e) ∧ in_u32 (ba_instrument_id e) ∧ in_i64 (ba_price e) ∧
      in_u64 (ba_quantity e)
  | EvReduced e => in_u64 (br_exchange_order_id e) ∧ in_u32 (br_instrument_id e) ∧ in_i64 (br_price e) ∧
      in_u64 (br_new_remaining_quantity e)
  | EvRemoved e => in_u64 (bx_exchange_order_id e) ∧ in_u32 (bx_instrument_id e)
  | EvTrade e => in_u32 (te_instrument_id e) ∧ in_i64 (te_price e) ∧ in_u64 (te_quantity e)
  | _ => True
  end.

Definition order_public (o : BookOrder) : Prop :=
  in_u64 (bo_exchange_order_id o) ∧ in_i64 (bo_price o) ∧ 0 < bo_remaining_quantity o < 2 ^ 64.

Lemma safe_in_i64 p : price_safe p → in_i64 p.
Proof. unfold price_safe, in_i64. lia. Qed.

Lemma queue_public n b sd x : book_ok n b → (∃ k, k ≤ 2 ^ 64 ∧ ids_below k (display b)) →
  x ∈ queue sd b → order_public x.2.
Proof.
  intros Hok (k & Hk & [_ Hf]) Hx. destruct (bk_entry _ _ Hok sd x Hx) as (_ & Hp & Hq & _).
  rewrite (display_side sd), Forall_app, Forall_fmap in Hf. destruct Hf as [Hf _].
  rewrite Forall_forall in Hf. specialize (Hf x Hx). simpl in Hf.
  split; [unfold in_u64; lia|]. split; [by apply safe_in_i64|done].
Qed.

Lemma fill_events_public o cs fs : ∀ n rem, in_u32 (ero_instrument_id o) →
  Forall (λ x, order_public (fl_order x) ∧ 0 < fl_quantity x < 2 ^ 64 ∧ 0 ≤ fl_after x) fs →
  Forall public_ok (fill_events o cs n rem fs).
Proof.
  induction fs as [|x fs IH]; intros n rem Hi Hfs; [constructor|].
  apply Forall_cons in Hfs as [((Hid & Hp & Hq) & Hf & Ha) Hfs]. cbn [fill_events]. constructor.
  { cbn. split; [done|]. split; [done|]. unfold in_u64. lia. }
  constructor; [|by apply IH]. unfold resting_event. unfold fl_after in *.
  case_bool; [by split|]. split; [done|]. split; [done|]. split; [done|]. unfold in_u64. cbn. lia.
Qed.

Lemma submit_public n o cs b k : book_ok n b → (∃ k, k ≤ 2 ^ 64 ∧ ids_below k (display b)) →
  in_u32 (ero_instrument_id o) → in_u64 (ero_exchange_order_id o) → price_safe (ero_price o) →
  0 < ero_remaining_quantity o < 2 ^ 64 → Forall public_ok (submit_events o cs b k).
Proof.
  intros Hok Hids Hi Ho Hp Hq. pose proof (book_live n b (contra (ero_side o)) Hok) as Hl.
  apply Forall_app. split.
  - apply fill_events_public; [done|]. apply Forall_forall. intros x Hx.
    destruct (fill_sound (ero_side o) (ero_price o) _ _ x (Z.lt_le_incl _ _ (proj1 Hq)) Hl Hx) as (Hin & Hfq & Ha & _).
    split; [by eapply (queue_public n b _ (fl_entry x))|]. lia.
  - unfold rest_events. destruct (rests _); [|constructor]. constructor; [|constructor].
    pose proof (fill_remaining_range (ero_side o) (ero_price o) _ _ (Z.lt_le_incl _ _ (proj1 Hq)) Hl) as Hr.
    split; [exact Ho|]. split; [exact Hi|]. split; [by apply safe_in_i64|].
    unfold in_u64 in *. cbn in Hr |- *. unfold outcome_of. lia.
Qed.

Lemma display_ids n e a id b : tracked n e a → n < MatchingBook.kNil → knows_instrument id e = true →
  book_for id e = Some b → ∃ k, k ≤ 2 ^ 64 ∧ ids_below k (display b).
Proof.
  intros HT Hn Hk Hb. destruct (tk_book _ _ _ HT id b Hk Hb) as [Hd Hi]. pose proof (tk_next _ _ _ HT).
  exists (next_exchange_order_id_ e). unfold MatchingBook.kNil, SideIndex.kNil in Hn. split; [lia|].
  by rewrite Hd.
Qed.

Lemma order_ids n e a id b h o : inv n e → tracked n e a → n < MatchingBook.kNil →
  knows_instrument id e = true → book_for id e = Some b → ABook.at_ h b = Some o → order_public o.
Proof.
  intros HI HT Hn Hk Hb Ho. destruct (known_book _ _ _ HI Hk) as (b0 & Hb0 & Hok).
  rewrite Hb in Hb0. injection Hb0 as <-. destruct (at_queue _ _ _ Ho) as [sd Hin].
  by apply (queue_public n b sd (h, o) Hok (display_ids _ _ _ _ _ HT Hn Hk Hb)).
Qed.

Lemma next_public n e a : tracked n e a → n < MatchingBook.kNil → in_u64 (next_exchange_order_id_ e).
Proof.
  intros HT Hn. pose proof (tk_next _ _ _ HT). unfold MatchingBook.kNil, SideIndex.kNil in Hn. hnf. lia.
Qed.

Lemma removed_ids n e a id b h o : inv n e → tracked n e a → n < MatchingBook.kNil →
  knows_instrument id e = true → book_for id e = Some b → ABook.at_ h b = Some o →
  book_ok n (removed_book h o b) ∧ ∃ k, k ≤ 2 ^ 64 ∧ ids_below k (display (removed_book h o b)).
Proof.
  intros HI HT Hn Hk Hb Ho. destruct (tracked_ids _ _ _ _ _ HT Hk Hb) as (Hd & Hi & Hno).
  destruct (known_book _ _ _ HI Hk) as (b0 & Hb0 & Hok). rewrite Hb in Hb0. injection Hb0 as <-.
  split; [by destruct (remove_book_ok n b _ o _ Hok (remove_at_run _ _ _ Ho)) as (Hok1 & _ & _)|].
  destruct (removed_agreed n b h o _ Hok Ho Hd Hno) as (os1 & Ea & Hd1).
  exists (next_exchange_order_id_ e). split; [destruct (next_public _ _ _ HT Hn); lia|]. rewrite Hd1.
  eapply agreed_ids; [done| |done]. by repeat constructor.
Qed.

(** ** One command, and a run *)

Lemma rejection_tracked n e a r : tracked n e a →
  (∃ a', mirror [EvRejected r] a = Some a' ∧ tracked (n + 1) (after_rejection e) a') ∧
  Forall public_ok [EvRejected r].
Proof.
  intros HT. split; [|by repeat constructor]. exists a. split; [done|].
  apply (tracked_same n (n + 1) e); done || lia.
Qed.

Definition step_tracked (n : Z) (e : eng) (a : arrivals) (evs : list ExchangeEvent) : Prop :=
  inv n e ∧ (∃ a', mirror evs a = Some a' ∧ tracked n e a') ∧ Forall public_ok evs.

Lemma new_order_step n e a cmd : inv n e → tracked n e a → n < MatchingBook.kNil → command_ok (CmdNew cmd) →
  wp (process_new_order cmd) e (λ _ e' evs, step_tracked (n + 1) e' a evs).
Proof.
  intros HI HT Hn Hc. simpl in Hc. destruct (new_order_reason cmd e) as [reason|] eqn:Hr.
  { eapply wp_intro; [apply (process_new_order_rejected _ _ _ Hr)|].
    - intros Hk. destruct (known_book _ _ _ HI Hk) as (b & ? & _). eauto.
    - split; [by apply rejection_inv|by apply rejection_tracked]. }
  pose proof Hr as Hr'. unfold new_order_reason in Hr'.
  destruct (knows_instrument _ e) eqn:Hk; cbn [negb] in Hr'; [|done].
  destruct (Z.leb_spec (no_price cmd) 0); [done|].
  destruct (Z.eqb_spec (no_quantity cmd) 0); [done|]. clear Hr'.
  destruct (known_book _ _ _ HI Hk) as (b & Hb & Hok).
  assert (price_safe (no_price cmd)) as Hp by (unfold price_safe; lia).
  destruct (process_new_order_accepted cmd n e b HI Hr Hb Hp) as [Hrun HI']; [lia..|].
  eapply wp_intro; [exact Hrun|]. split; [exact HI'|].
  split; [by apply new_order_tracked|]. constructor; [done|].
  apply (submit_public n); try done; [by eapply display_ids|by apply HT|by eapply next_public|].
  cbn. lia.
Qed.

Lemma cancel_step n e a cmd : inv n e → tracked n e a → n < MatchingBook.kNil →
  wp (process_cancel cmd) e (λ _ e' evs, step_tracked (n + 1) e' a evs).
Proof.
  intros HI HT Hn. destruct (cancel_reason cmd e) as [reason|] eqn:Hr.
  { eapply wp_intro; [apply (process_cancel_rejected _ _ _ Hr)|]. 
    split; [by apply rejection_inv|by apply rejection_tracked]. }
  destruct (process_cancel_accepted cmd n e HI Hr) as (ref & b & o & _ & Hb & Ho & _ & Hrun & HI').
  eapply wp_intro; [exact Hrun|]. split; [eapply inv_mono; [done|lia]|].
  unfold cancel_reason in Hr. destruct (knows_instrument _ e) eqn:Hk; [|done].
  split; [by apply (cancel_tracked n)|]. destruct (order_ids n e a _ b _ o HI HT Hn Hk Hb Ho) as (Hid & _).
  repeat constructor; cbn; try apply Hid; by apply HT.
Qed.

Lemma replace_step n e a cmd : inv n e → tracked n e a → n < MatchingBook.kNil → command_ok (CmdReplace cmd) →
  wp (process_replace cmd) e (λ _ e' evs, step_tracked (n + 1) e' a evs).
Proof.
  intros HI HT Hn Hc. simpl in Hc. destruct (replace_reason cmd e) as [reason|] eqn:Hr.
  { eapply wp_intro; [apply (process_replace_rejected _ _ _ Hr)|]. 
    split; [by apply rejection_inv|by apply rejection_tracked]. }
  pose proof Hr as Hr'. unfold replace_reason in Hr'.
  destruct (knows_instrument _ e) eqn:Hk; cbn [negb] in Hr'; [|done].
  destruct (Z.leb_spec (ro_new_price cmd) 0); [done|]. clear Hr'.
  assert (price_safe (ro_new_price cmd)) as Hp by (unfold price_safe; lia).
  destruct (process_replace_accepted cmd n e HI Hr Hp Hn ltac:(lia))
    as (ref & b & o & Hl & Hid & Hb & Hok & Ho & _ & Hpos & Hrun).
  destruct (order_ids n e a _ b _ o HI HT Hn Hk Hb Ho) as (Hoid & Hop & Hoq).
  pose proof (tk_small _ _ _ HT _ Hk) as Hi.
  unfold wp. rewrite Hrun. destruct (preserves_priority cmd o).
  - rewrite (replace_in_place_run cmd ref b o e n) by (done || lia). split.
    { eapply inv_mono; [apply (replaced_in_place_inv n); try done; lia|lia]. }
    split; [by apply (in_place_tracked n)|]. constructor; [done|]. constructor; [|constructor].
    split; [exact Hoid|]. split; [exact Hi|]. split; [exact Hop|]. unfold in_u64. cbn. lia.
  - destruct (replace_as_new_run cmd ref b o e n) as [-> ?]; try done; [lia|].
    split; [done|]. split; [by apply (as_new_tracked n)|].
    apply Forall_app. split.
    { constructor; [done|]. constructor; [by split|constructor]. }
    destruct (removed_ids n e a _ b _ o HI HT Hn Hk Hb Ho) as [Hok1 Hids].
    apply (submit_public n); try done; [by eapply next_public|]. cbn. lia.
Qed.

Lemma process_tracked n e a c : inv n e → tracked n e a → n < MatchingBook.kNil → command_ok c →
  wp (process c) e (λ _ e' evs, step_tracked (n + 1) e' a evs).
Proof.
  intros HI HT Hn Hc. destruct c; [by apply new_order_step|by apply cancel_step|by apply replace_step].
Qed.

Lemma run_tracked cs : ∀ n e a, inv n e → tracked n e a → n + Z.of_nat (length cs) ≤ MatchingBook.kNil →
  Forall command_ok cs → wp (run cs) e (λ _ e' evs, step_tracked (n + Z.of_nat (length cs)) e' a evs).
Proof.
  induction cs as [|c cs IH]; intros n e a HI HT Hn Hok; simpl.
  { apply wp_ret. rewrite Z.add_0_r. split; [done|]. split; [by exists a|constructor]. }
  apply Forall_cons in Hok as [Hc Hcs]. simpl in Hn. apply wp_bind.
  eapply wp_mono; [|by apply (process_tracked n e a c); try done; lia].
  intros ? e' evs (HI' & (a' & E & HT') & Hp).
  eapply wp_mono; [|by apply (IH (n + 1) e' a'); try done; lia].
  intros ? e'' evs' (HI'' & (a'' & E' & HT'') & Hp').
  replace (n + Z.of_nat (S (length cs))) with (n + 1 + Z.of_nat (length cs)) by lia.
  split; [done|]. split; [|by apply Forall_app]. exists a''. split; [|done]. by rewrite mirror_app, E.
Qed.

(** ** The start *)

Definition pristine (e : eng) : Prop :=
  next_exchange_order_id_ e = 1 ∧ Forall (λ b, b = ABook.make) (books_ e).

Lemma register_pristine id e r e' : pristine e → register_instrument id e = Some (r, e') → pristine e'.
Proof.
  intros [Hn Hb]. unfold register_instrument. case_bool; [by intros [= <- <-]|].
  case_match; [|done]. intros [= <- <-]. split; [done|]. simpl. apply Forall_app. split; [done|].
  by constructor.
Qed.

Lemma make_pristine universe n (e : eng) : make universe n = Some e → pristine e.
Proof.
  unfold make. set (e0 := match universe with [] => _ | _ => _ end).
  assert (pristine e0) as H0 by (unfold e0; destruct universe; by split).
  revert H0. generalize e0. induction universe as [|id us IH]; intros e1 H1; [by intros [= <-]|].
  unfold register_all. simpl. destruct (register_instrument id e1) as [[r e2]|] eqn:E; [|].
  - intros Hr. apply (IH e2); [by eapply register_pristine|exact Hr].
  - clear. simpl. by induction us.
Qed.

Lemma tracked_start universe n (e : eng) : Forall in_u32 universe →
  (∀ id, knows_instrument id e = true → id ∈ universe) → make universe n = Some e → tracked 0 e ∅.
Proof.
  intros Hu Hk [Hn Hb]%make_pristine. split; [by rewrite Hn|..].
  - intros id Hid%Hk. by eapply Forall_forall in Hu.
  - intros id b _ Hbk. unfold book_for in Hbk. apply bind_Some in Hbk as (s & _ & [_ Hv]%vget_Some).
    apply list_elem_of_lookup_2 in Hv. rewrite Forall_forall in Hb. rewrite (Hb b Hv).
    split; [done|]. split; constructor.
Qed.

End FeedEngine.
