(* ===== verification/FeedProps.v ===== *)
(** * From the engine to the consumer's books

    The matching engine, the publisher, the wire format, the replay and the feed's
    books, composed: a consumer of the feed has the orders the engine has. *)

From stdpp Require Import sorting.
From S2P Require Import Prelude Types Effects SideIndex PriceIndex MatchingBook BookSpec BookQueue BookRefinement.
From S2P Require Import MatchingEngine EngineRefinement Fills EngineMatching EngineInvariant EngineTotal EngineStart EngineProps.
From S2P Require Import MarketDataCodec EventFile OrderBook BookViews BookManager SnapshotProps Replay Recovery.
From S2P Require Import Publisher FeedMirror FeedEngine.

Module FeedProps.
Import BookRefinement MatchingEngine EngineRefinement EngineMatching EngineInvariant EngineTotal EngineStart EngineProps.
Import ABook (queue, bids, asks).
Import MarketDataCodec (Event, event_typed).
Import BookManager (op_of, spec_event, spec_events, arrivals_of, book_for).
Import Replay (sequence_of, follows, run_replay, default_options, books, stats, stopped_early).
Import Recovery (consecutive, unrefused).
Import FeedMirror FeedEngine.

Abbreviation arrivals := BookManager.arrivals (only parsing).

(** ** What is published *)

Section feed.
Context (clock : Sequence → Timestamp).

Abbreviation publish := (MarketDataPublisher.publish clock).
Abbreviation feed := (MarketDataPublisher.feed clock).

(** A private event leaves no trace; a public one becomes one message, with the next
    number, that asks of the feed's books what the event says. *)
Lemma publish_cases ev p :
  (publish ev p = ([], p) ∧ feed_op ev = None) ∨
  ∃ m, publish ev p = ([m], MarketDataPublisher.mk (u64 (MarketDataPublisher.next_sequence_ p + 1))) ∧
    op_of m = feed_op ev ∧ sequence_of m = MarketDataPublisher.next_sequence_ p.
Proof. destruct ev; [by left..| | | |]; right; by eexists. Qed.

Lemma feed_consecutive evs : ∀ v p, follows v (MarketDataPublisher.next_sequence_ p) = true →
  consecutive v (feed evs p).1 = true.
Proof.
  induction evs as [|ev evs IH]; intros v p Hv; [done|]. cbn [MarketDataPublisher.feed].
  destruct (publish_cases ev p) as [[-> _]|(m & -> & _ & Hs)].
  - specialize (IH v p Hv). by destruct (feed evs p).
  - specialize (IH (Some (sequence_of m)) (MarketDataPublisher.mk (u64 (MarketDataPublisher.next_sequence_ p + 1)))).
    destruct (feed evs _) as [outs p']. cbn [fst app consecutive] in *. rewrite Hs in *. rewrite Hv.
    apply IH. unfold follows. cbn. apply Z.eqb_refl.
Qed.

Lemma feed_mirrors evs : ∀ p a a', mirror evs a = Some a' →
  spec_events (feed evs p).1 a = a' ∧ unrefused (feed evs p).1 a.
Proof.
  induction evs as [|ev evs IH]; intros p a a' Hm; [by injection Hm as ->|].
  cbn [mirror MarketDataPublisher.feed] in *. destruct (publish_cases ev p) as [[-> Hop]|(m & -> & Hop & _)].
  - rewrite Hop in Hm. specialize (IH p a a' Hm). by destruct (feed evs p).
  - rewrite <-Hop in Hm. set (p1 := MarketDataPublisher.mk _).
    specialize (IH p1 (spec_event m a).2 a'). destruct (feed evs p1) as [outs p'].
    cbn [fst app unrefused spec_events] in *. unfold spec_event in *.
    destruct (op_of m) as [[id o]|]; [|by destruct (IH Hm)].
    destruct (OrderBook.spec_op o _) as [[]os]; [done|]. cbn [fst snd] in *. by destruct (IH Hm).
Qed.

Lemma feed_typed evs : (∀ n, in_u64 (clock n)) → Forall public_ok evs → ∀ p,
  in_u64 (MarketDataPublisher.next_sequence_ p) → Forall event_typed (feed evs p).1.
Proof.
  intros Hc. induction 1 as [|ev evs Hev _ IH]; intros p Hp; [constructor|]. cbn [MarketDataPublisher.feed].
  assert (∀ p', in_u64 (MarketDataPublisher.next_sequence_ p') → Forall event_typed (publish ev p').1 ∧
    in_u64 (MarketDataPublisher.next_sequence_ (publish ev p').2)) as H.
  { intros p' Hp'. pose proof (Hc (MarketDataPublisher.next_sequence_ p')) as Ht.
    pose proof (u64_range (MarketDataPublisher.next_sequence_ p' + 1)).
    destruct ev; cbn in Hev |- *; (split; [|done]); first [by constructor | apply Forall_singleton; cbn; tauto]. }
  destruct (H p Hp) as [H1 H2]. destruct (publish ev p) as [out p1]. specialize (IH p1 H2).
  destruct (feed evs p1). by apply Forall_app.
Qed.
End feed.

(** ** What the consumer sees *)

Definition view_order (o : BookOrder) : OrderBook.OrderView :=
  OrderBook.mkOrderView (bo_exchange_order_id o) (bo_price o) (bo_remaining_quantity o).

Lemma listed_side_filter sd b :
  filter (λ o, OrderBook.od_side o = sd) (BookViews.listed b) = BookViews.listed_side sd b.
Proof.
  assert (∀ sd' o, o ∈ BookViews.listed_side sd' b → OrderBook.od_side o = sd') as Hs
    by by intros sd' o (v & -> & _)%list_elem_of_fmap.
  unfold BookViews.listed. rewrite filter_app.
  destruct sd; rewrite (OrderBook.filter_keep _ _ (Hs _)), OrderBook.filter_drop;
    [apply app_nil_r| |done|]; by intros o ->%Hs.
Qed.

Lemma display_filter n b sd : book_ok n b →
  filter (λ o, OrderBook.od_side o = sd) (display b) ≡ₚ shown_entry <$> queue sd b.
Proof.
  intros Hok. rewrite (display_side sd), filter_app.
  assert (∀ sd' o, o ∈ shown_entry <$> queue sd' b → OrderBook.od_side o = sd') as Hs.
  { intros sd' o (x & -> & Hx)%list_elem_of_fmap. by destruct (bk_entry _ _ Hok sd' x Hx) as [? _]. }
  rewrite OrderBook.filter_keep by apply Hs. rewrite OrderBook.filter_drop; [by rewrite app_nil_r|].
  intros o ->%Hs. by destruct sd.
Qed.

(** The orders of one side, from those of both. *)
Lemma side_orders n bk b os sd : book_ok n bk → OrderBook.shows b os → display bk ≡ₚ os →
  OrderBook.all_orders sd b ≡ₚ view_order <$> (queue sd bk).*2.
Proof.
  intros Hok Hb Hos. pose proof (BookViews.same_queues_perm _ _ (BookViews.listed_queues b os Hb)) as Hl.
  assert (BookViews.listed_side sd b ≡ₚ shown_entry <$> queue sd bk) as Hside.
  { by rewrite <-listed_side_filter, Hl, <-Hos, (display_filter n). }
  set (g := λ o, OrderBook.mkOrderView (OrderBook.od_id o) (OrderBook.od_price o) (OrderBook.od_quantity o)).
  assert (g <$> BookViews.listed_side sd b = OrderBook.all_orders sd b) as <-.
  { unfold BookViews.listed_side. rewrite <-list_fmap_compose.
    rewrite <-(list_fmap_id (OrderBook.all_orders sd b)) at 2. apply list_fmap_ext. by intros ? [] _. }
  rewrite Hside, <-!list_fmap_compose. done.
Qed.

(** The best price, from the orders in price order. *)
Lemma best_order n bk b os sd : book_ok n bk → OrderBook.shows b os → display bk ≡ₚ os →
  OrderBook.lv_price <$> OrderBook.best sd b = bo_price <$> head (queue sd bk).*2.
Proof.
  intros Hok [_ Hs] Hos. destruct (Hs sd) as (ps & Ss & Hps & -> & _).
  assert (∀ p, p ∈ ps ↔ ∃ x, x ∈ queue sd bk ∧ bo_price x.2 = p) as Hp.
  { intros p. rewrite Hps. setoid_rewrite <-Hos. split.
    - intros (o & Ho & Hr1 & Hr2). assert (o ∈ filter (λ o, OrderBook.od_side o = sd) (display bk)) as Hin
        by by apply list_elem_of_filter.
      rewrite (display_filter n bk sd Hok) in Hin. apply list_elem_of_fmap in Hin as (x & -> & Hx). by exists x.
    - intros (x & Hx & <-). exists (shown_entry x).
      assert (shown_entry x ∈ filter (λ o, OrderBook.od_side o = sd) (display bk)) as [? ?]%list_elem_of_filter; [|done].
      rewrite (display_filter n bk sd Hok). by apply list_elem_of_fmap_2. }
  pose proof (bk_sorted _ _ Hok sd) as Hsort. destruct (queue sd bk) as [|x q] eqn:Eq.
  { destruct ps as [|p ps]; [done|]. destruct (proj1 (Hp p)) as (x & Hx%not_elem_of_nil & _); [by left|done]. }
  destruct ps as [|p ps].
  { destruct (not_elem_of_nil (bo_price x.2)). apply Hp. exists x. split; [by left|done]. }
  cbn. f_equal. apply StronglySorted_inv in Ss as [_ Hf]. rewrite Forall_forall in Hf.
  apply BookQueue.sorted_cons_inv in Hsort as [_ Hq].
  assert (bo_price x.2 ∈ p :: ps) as Hx by (apply Hp; exists x; split; [by left|done]).
  destruct (proj1 (Hp p)) as (y & Hy & Hyp); [by left|].
  apply elem_of_cons in Hx as [<-|Hx]; [done|]. specialize (Hf _ Hx).
  apply elem_of_cons in Hy as [->|Hy]; [done|]. specialize (Hq _ Hy).
  unfold OrderBook.ahead, SideIndex.sdir, ABook.entry_price in *. destruct sd; lia.
Qed.

(** ** End to end *)

Lemma session_tracked universe n cs : session_ok universe cs →
  ∃ (e0 e : real) (f : eng) evs a,
    make universe n = Some e0 ∧ run cs e0 = Some (tt, e, evs) ∧ represents (vsize cs) e f ∧
    mirror evs ∅ = Some a ∧ tracked (vsize cs) f a ∧ Forall public_ok evs.
Proof.
  intros (Hu & Hsz & Hok & Hn). destruct (make_total universe n Hu Hsz) as (f0 & Hf0 & _ & HI & Hk).
  destruct (er_make BookRefinement.Rep universe n f0 Hu Hsz Hf0) as (e0 & He0 & HE).
  assert (tracked 0 f0 ∅) as HT.
  { apply (tracked_start universe n); [done| |done]. by intros id [? _]%Hk. }
  destruct (wp_elim _ _ _ (run_tracked cs 0 f0 ∅ HI HT Hn Hok)) as ([] & f & evs & Hf & HI' & (a & Ha & HT') & Hp).
  destruct (sim_run BookRefinement.Rep cs e0 f0 HE _ _ _ Hf) as (e & He & HE').
  exists e0, e, f, evs, a. split_and!; done.
Qed.

Lemma replay_of_feed clock evs a : (∀ k, in_u64 (clock k)) → Forall public_ok evs → mirror evs ∅ = Some a →
  ∃ o, run_replay (Some (EventFile.written (MarketDataPublisher.feed clock evs MarketDataPublisher.make).1))
      default_options = Some o ∧
    BookManager.Rep (books o) a ∧ stopped_early o = false ∧ BookManager.book_errors (stats o) = 0.
Proof.
  intros Hc Hp Ha. set (feed := (MarketDataPublisher.feed _ _ _).1).
  assert (Forall event_typed feed) as Ht by by apply feed_typed.
  destruct (feed_mirrors clock evs MarketDataPublisher.make ∅ a Ha) as [Hs Hu].
  pose proof (feed_consecutive clock evs None MarketDataPublisher.make eq_refl) as Hcons.
  rewrite Replay.run_replay_frames, <-(app_nil_r (EventFile.written feed)).
  rewrite (EventFile.frames_events feed [] Ht).
  destruct (Recovery.replay_in_order default_options feed (EventFile.frames []) None Replay.no_outcome ∅
    BookManager.books_rep_empty Hcons) as (o & -> & HR & _ & Hst & _ & He).
  exists o. rewrite <-Hs. split_and!; [done|done|by rewrite Hst|]. by rewrite (He Hu).
Qed.

(** C19: a consumer of the feed has the engine's books. Whatever the commands of a
    session, the messages the publisher makes of the engine's events, written to a
    file and replayed by default, are all applied: the replay does not stop and no
    book refuses one. Then for every instrument and side the consumer's book lists
    exactly the orders resting in the engine, with their exchange ids, prices and
    remaining quantities, and shows the engine's best price. *)
Theorem feed_rebuilds_books clock universe n cs : session_ok universe cs → (∀ k, in_u64 (clock k)) →
  ∃ (e0 e : real) evs o,
    make universe n = Some e0 ∧ run cs e0 = Some (tt, e, evs) ∧
    run_replay (Some (EventFile.written (MarketDataPublisher.feed clock evs MarketDataPublisher.make).1))
      default_options = Some o ∧
    stopped_early o = false ∧ BookManager.book_errors (stats o) = 0 ∧
    ∀ id sd, knows_instrument id e = true → ∃ B orders,
      MatchingEngine.book_for id e = Some B ∧ MatchingBook.all_of sd B = Some orders ∧
      OrderBook.all_orders sd (book_for id (books o)) ≡ₚ view_order <$> orders ∧
      OrderBook.lv_price <$> OrderBook.best sd (book_for id (books o)) = bo_price <$> head orders.
Proof.
  intros Hok Hc. destruct (session_tracked universe n cs Hok) as (e0 & e & f & evs & a & He0 & He & HR & Ha & HT & Hp).
  destruct (replay_of_feed clock evs a Hc Hp Ha) as (o & Ho & HRo & Hst & Her).
  exists e0, e, evs, o. do 5 (split; [done|]). intros id sd Hk.
  assert (knows_instrument id f = true) as Hkf.
  { destruct HR as [HE _]. by rewrite <-(er_knows _ _ _ _ HE). }
  destruct (real_book _ e f id HR Hkf) as (B & b & HB & Hb & HRep & Hbok & Hall).
  exists B, (queue sd b).*2. split; [done|]. split; [done|].
  destruct (tk_book _ _ _ HT id b Hkf Hb) as [Hd _].
  pose proof (SnapshotProps.stands_for_shows _ _ (BookManager.rep_book (books o) a id HRo)) as Hs.
  split; [by eapply side_orders|by eapply best_order].
Qed.

(** A clock that stands still. *)
Definition still : Sequence → Timestamp := λ _, 1000.

Lemma feed_rebuilds_books_witness :
  session_ok [7; 9] sample_session ∧ (∀ k, in_u64 (still k)) ∧
  ∃ (e0 e : real) evs o,
    make [7; 9] 0 = Some e0 ∧ run sample_session e0 = Some (tt, e, evs) ∧
    run_replay (Some (EventFile.written (MarketDataPublisher.feed still evs MarketDataPublisher.make).1))
      default_options = Some o ∧
    stopped_early o = false ∧ BookManager.book_errors (stats o) = 0 ∧
    ∀ id sd, knows_instrument id e = true → ∃ B orders,
      MatchingEngine.book_for id e = Some B ∧ MatchingBook.all_of sd B = Some orders ∧
      OrderBook.all_orders sd (book_for id (books o)) ≡ₚ view_order <$> orders ∧
      OrderBook.lv_price <$> OrderBook.best sd (book_for id (books o)) = bo_price <$> head orders.
Proof.
  assert (∀ k, in_u64 (still k)) as Hc by (intros k; by split).
  split; [exact sample_session_ok|]. split; [exact Hc|].
  exact (feed_rebuilds_books still [7; 9] 0 sample_session sample_session_ok Hc).
Defined.

End FeedProps.
