(* ===== verification/UdpListener.v ===== *)
(** * The UDP listener ([net/udp_listener.cpp], [common/dropping_queue.hpp])

    [run_udp_listen]: a producer thread unpacks datagrams and pushes their frames, a
    consumer thread pops them and applies them to the books. A [step] is one access of
    one of them to what they share, the queue and the stop flag. What [receive_batch]
    returns and whether the idle timeout has run out are inputs; sleeping, the duration
    and a port that does not bind are not modelled. *)

From S2P Require Import Prelude Types SpscQueue MarketDataCodec Packet Sequence BookManager Replay SnapshotProps.

(** [push] of a queue that is full drops the value and counts it. The queue is the
    bounded FIFO that [SpscQueue] proves it to be, of the capacity it rounded to. *)
Module DroppingQueue.
Section queue.
Context {T : Type}.

Record t := mk {
  capacity_ : nat;
  queue_ : list T;
  dropped_count_ : Z;
}.

(** With the capacity that the ring has. *)
Definition make (capacity : nat) : t := mk capacity [] 0.

(** The constructor: the ring rounds the capacity it is asked for. *)
Definition construct (capacity : Z) : option t := c ← SpscQueue.next_power_of_two capacity; Some (make (Z.to_nat c)).

Definition push (value : T) (q : t) : bool * t :=
  if (length (queue_ q) <? capacity_ q)%nat
  then (true, mk (capacity_ q) (queue_ q ++ [value]) (dropped_count_ q))
  else (false, mk (capacity_ q) (queue_ q) (u64 (dropped_count_ q + 1))).

Definition try_pop (q : t) : option T * t :=
  match queue_ q with
  | [] => (None, q)
  | value :: rest => (Some value, mk (capacity_ q) rest (dropped_count_ q))
  end.
End queue.

#[global] Arguments t : clear implicits.
End DroppingQueue.

Module UdpListener.
Import MarketDataCodec Packet SequenceValidator Replay.

Abbreviation FrameResult := (Event + DecodeError)%type.

(** Where the producer is: at the head of its loop, before [receive_batch], among the
    datagrams of a batch, among the frames of a packet, or done. *)
Inductive ProducerState :=
  | Looping
  | Receiving
  | Datagrams (batch : list (list Z))
  | Frames (frames : list FrameResult) (batch : list (list Z))
  | ProducerDone.

(** Where the consumer is: before [try_pop], before the stop check, with a frame in
    hand, or done. *)
Inductive ConsumerState :=
  | Popping
  | StopCheck
  | Applying (frame : FrameResult)
  | ConsumerDone.

(** [received_] and [pushed_] are no variables of the program's: the datagrams counted,
    and the frames the queue took, in order. *)
Record t := mk {
  queue : DroppingQueue.t FrameResult;
  stop_requested : bool;
  producer_ : ProducerState;
  have_received_any : bool;
  packets_received : Z;
  packet_errors : Z;
  packet_tracker : SequenceValidator.t * PacketSequenceStats;
  consumer_ : ConsumerState;
  validator : SequenceValidator.t;
  outcome : ReplayOutcome;
  received_ : list (list Z);
  pushed_ : list FrameResult;
}.

Definition start (queue_capacity : nat) : t :=
  mk (DroppingQueue.make queue_capacity) false Looping false 0 0 (None, no_packets) Popping None no_outcome [] [].

(** With the [queue_capacity] of the options. *)
Definition listen (queue_capacity : Z) : option t :=
  q ← DroppingQueue.construct (T := FrameResult) queue_capacity; Some (start (DroppingQueue.capacity_ q)).

(** What the producer changes, and what the consumer does. *)
Definition with_producer (p : ProducerState) (l : t) : t :=
  mk (queue l) (stop_requested l) p (have_received_any l) (packets_received l) (packet_errors l)
    (packet_tracker l) (consumer_ l) (validator l) (outcome l) (received_ l) (pushed_ l).

Definition with_consumer (c : ConsumerState) (l : t) : t :=
  mk (queue l) (stop_requested l) (producer_ l) (have_received_any l) (packets_received l) (packet_errors l)
    (packet_tracker l) c (validator l) (outcome l) (received_ l) (pushed_ l).

Definition request_stop (l : t) : t :=
  mk (queue l) true (producer_ l) (have_received_any l) (packets_received l) (packet_errors l)
    (packet_tracker l) (consumer_ l) (validator l) (outcome l) (received_ l) (pushed_ l).

Definition received_batch (batch : list (list Z)) (l : t) : t :=
  mk (queue l) (stop_requested l) (Datagrams batch) true (packets_received l) (packet_errors l)
    (packet_tracker l) (consumer_ l) (validator l) (outcome l) (received_ l) (pushed_ l).

(** A datagram of the batch. *)
Definition take_datagram (dgram : list Z) (batch : list (list Z)) (l : t) : t :=
  let received := u64 (packets_received l + 1) in
  let seen := received_ l ++ [dgram] in
  match unpack_frames dgram with
  | inr _ =>
      mk (queue l) (stop_requested l) (Datagrams batch) (have_received_any l) received
        (u64 (packet_errors l + 1)) (packet_tracker l) (consumer_ l) (validator l) (outcome l) seen (pushed_ l)
  | inl packet =>
      let '(_, v, stats) := observe (ph_packet_sequence (up_header packet)) (packet_tracker l).1
        (packet_tracker l).2 in
      mk (queue l) (stop_requested l) (Frames (up_frames packet) batch) (have_received_any l) received
        (packet_errors l) (v, stats) (consumer_ l) (validator l) (outcome l) seen (pushed_ l)
  end.

Definition push_frame (frame : FrameResult) (frames : list FrameResult) (batch : list (list Z)) (l : t) : t :=
  let '(taken, q) := DroppingQueue.push frame (queue l) in
  mk q (stop_requested l) (Frames frames batch) (have_received_any l) (packets_received l) (packet_errors l)
    (packet_tracker l) (consumer_ l) (validator l) (outcome l) (received_ l)
    (if taken then pushed_ l ++ [frame] else pushed_ l).

(** The producer's next access; [batch] is what [receive_batch] returns and [idle] says
    whether [idle_timeout] has run out. *)
Definition produce (batch : list (list Z)) (idle : bool) (l : t) : t :=
  match producer_ l with
  | Looping => with_producer (if stop_requested l then ProducerDone else Receiving) l
  | Receiving =>
      match batch with
      | [] => if have_received_any l && idle then with_producer ProducerDone (request_stop l)
              else with_producer Looping l
      | _ => received_batch batch l
      end
  | Datagrams [] => with_producer Looping l
  | Datagrams (dgram :: batch) =>
      if stop_requested l then with_producer Looping l else take_datagram dgram batch l
  | Frames [] batch => with_producer (Datagrams batch) l
  | Frames (frame :: frames) batch => push_frame frame frames batch l
  | ProducerDone => l
  end.

Definition popped (l : t) : t :=
  let '(item, q) := DroppingQueue.try_pop (queue l) in
  mk q (stop_requested l) (producer_ l) (have_received_any l) (packets_received l) (packet_errors l)
    (packet_tracker l) (match item with Some frame => Applying frame | None => StopCheck end) (validator l)
    (outcome l) (received_ l) (pushed_ l).

Definition applied (stopped : bool) (v : SequenceValidator.t) (o : ReplayOutcome) (l : t) : t :=
  mk (queue l) (stop_requested l || stopped) (producer_ l) (have_received_any l) (packets_received l)
    (packet_errors l) (packet_tracker l) (if stopped then ConsumerDone else Popping) v o (received_ l) (pushed_ l).

(** The consumer's next access. *)
Definition consume (options : ReplayOptions) (l : t) : option t :=
  match consumer_ l with
  | Popping => Some (popped l)
  | StopCheck => Some (with_consumer (if stop_requested l then ConsumerDone else Popping) l)
  | Applying frame =>
      '(stopped, v, o) ← apply_frame_result frame (validator l) options (outcome l);
      Some (applied stopped v o l)
  | ConsumerDone => Some l
  end.

Inductive action := Produce (batch : list (list Z)) (idle : bool) | Consume.

Definition step (options : ReplayOptions) (a : action) (l : t) : option t :=
  match a with Produce batch idle => Some (produce batch idle l) | Consume => consume options l end.

Fixpoint exec (options : ReplayOptions) (schedule : list action) (l : t) : option t :=
  match schedule with [] => Some l | a :: schedule => l ← step options a l; exec options schedule l end.

(** ** What the listener has done *)

(** The frames of the good packets. *)
Definition frames_of (dgram : list Z) : list FrameResult :=
  match unpack_frames dgram with inl packet => up_frames packet | inr _ => [] end.

Definition carried (datagrams : list (list Z)) : list FrameResult := datagrams ≫= frames_of.

Definition to_push (p : ProducerState) : list FrameResult :=
  match p with Frames frames _ => frames | _ => [] end.

Definition in_hand (c : ConsumerState) : list FrameResult :=
  match c with Applying frame => [frame] | _ => [] end.

Notation waiting l := (DroppingQueue.queue_ (queue l)).
Notation dropped l := (DroppingQueue.dropped_count_ (queue l)).

(** It starts, with room for what was asked for. *)
Lemma listen_starts queue_capacity : queue_capacity ≤ 2 ^ 63 →
  ∃ capacity, listen queue_capacity = Some (start capacity) ∧ queue_capacity ≤ Z.of_nat capacity.
Proof.
  intros Hc. destruct (SpscQueue.next_power_of_two_spec queue_capacity Hc) as (m & E & Hm & Hle & _).
  exists (Z.to_nat (2 ^ m)). unfold listen, DroppingQueue.construct. rewrite E. split; [done|].
  pose proof (Z.pow_nonneg 2 m ltac:(lia)). lia.
Qed.

Section listener.
Context (options : ReplayOptions) (capacity : nat).

(** What was handled is a replay of it: a replay of more would go on from there, unless
    it stopped. *)
Definition replays (handled : list FrameResult) (stopped : bool) (l : t) : Prop :=
  ∀ fs, replay_frames options (handled ++ fs) None no_outcome =
    if stopped then Some (outcome l) else replay_frames options fs (validator l) (outcome l).

Definition consumer_ok (l : t) : Prop := ∃ handled stopped,
  pushed_ l = handled ++ in_hand (consumer_ l) ++ waiting l ∧ replays handled stopped l ∧
  (stopped = true → consumer_ l = ConsumerDone).

Record inv (l : t) : Prop := {
  li_consumer : consumer_ok l;
  li_books : ∃ a, BookManager.Rep (books (outcome l)) a;
  li_sub : pushed_ l ++ to_push (producer_ l) `sublist_of` carried (received_ l);
  li_dropped : dropped l =
    u64 (vsize (carried (received_ l)) - vsize (to_push (producer_ l)) - vsize (pushed_ l));
  li_capacity : DroppingQueue.capacity_ (queue l) = capacity ∧ (length (waiting l) ≤ capacity)%nat;
  li_received : packets_received l = u64 (vsize (received_ l));
  li_done : consumer_ l = ConsumerDone → stop_requested l = true;
}.

Lemma sublist_same_length {X} (xs ys : list X) : xs `sublist_of` ys → (length ys ≤ length xs)%nat → xs = ys.
Proof.
  induction 1 as [|x xs ys _ IH|x xs ys Hs IH]; intros Hl; simpl in Hl; [done|by rewrite IH by lia|].
  apply sublist_length in Hs. lia.
Qed.

Lemma carried_snoc ds d : carried (ds ++ [d]) = carried ds ++ frames_of d.
Proof. unfold carried. rewrite bind_app. cbn. by rewrite app_nil_r. Qed.

Lemma inv_start : inv (start capacity).
Proof.
  split; simpl; try done.
  - exists [], false. split; [done|]. split; [|done]. by intros fs.
  - exists ∅. apply BookManager.books_rep_empty.
  - split; [done|lia].
Qed.

(** The producer elsewhere, with nothing in hand before and after. *)
Lemma inv_producer l p stop any : inv l → to_push (producer_ l) = [] → to_push p = [] →
  (stop_requested l = true → stop = true) →
  inv (mk (queue l) stop p any (packets_received l) (packet_errors l) (packet_tracker l) (consumer_ l)
    (validator l) (outcome l) (received_ l) (pushed_ l)).
Proof.
  intros [Hc Hb Hs Hd Hcap Hr Hdone] H0 H1 Hstop. split; try done; cbn [producer_ received_ pushed_ queue];
    rewrite ?H1; rewrite ?H0 in *; try done. intros E. by apply Hstop, Hdone.
Qed.

Lemma inv_datagram l d ds : inv l → producer_ l = Datagrams (d :: ds) → inv (take_datagram d ds l).
Proof.
  intros [Hc Hb Hs Hd Hcap Hr Hdone] Hp. rewrite Hp in *. cbn [to_push] in *.
  rewrite app_nil_r in Hs. change (vsize []) with 0 in Hd.
  unfold take_datagram. destruct (unpack_frames d) as [packet|e] eqn:Eu.
  - destruct (observe _ _ _) as [[c v] st]. split; try done; cbn [producer_ received_ pushed_ queue packets_received to_push].
    + rewrite carried_snoc. unfold frames_of at 1. rewrite Eu. by apply sublist_app.
    + rewrite carried_snoc. unfold frames_of at 1. rewrite Eu, Hd. unfold vsize. rewrite length_app. f_equal. lia.
    + rewrite Hr. unfold vsize. rewrite length_app. simpl. unfold u64. rewrite Zplus_mod_idemp_l. f_equal. lia.
  - split; try done; cbn [producer_ received_ pushed_ queue packets_received to_push].
    + rewrite carried_snoc. unfold frames_of at 1. by rewrite Eu, !app_nil_r.
    + rewrite carried_snoc. unfold frames_of at 1. by rewrite Eu, app_nil_r.
    + rewrite Hr. unfold vsize. rewrite length_app. simpl. unfold u64. rewrite Zplus_mod_idemp_l. f_equal. lia.
Qed.

Lemma inv_push l f fs ds : inv l → producer_ l = Frames (f :: fs) ds → inv (push_frame f fs ds l).
Proof.
  intros [Hc Hb Hs Hd [Hcap Hlen] Hr Hdone] Hp. rewrite Hp in *. cbn [to_push] in *.
  unfold push_frame, DroppingQueue.push. rewrite Hcap.
  destruct (Nat.ltb_spec (length (waiting l)) capacity) as [Hlt|Hge]; split; try done;
    cbn [producer_ received_ pushed_ queue to_push DroppingQueue.dropped_count_ DroppingQueue.capacity_
      DroppingQueue.queue_].
  - destruct Hc as (handled & stopped & E & Hrep & Hst). exists handled, stopped. split; [|done].
    cbn [pushed_ consumer_ queue DroppingQueue.queue_]. by rewrite E, !app_assoc.
  - by rewrite <-app_assoc.
  - rewrite Hd. unfold vsize. rewrite length_app. simpl. f_equal. lia.
  - split; [done|]. rewrite length_app. simpl. lia.
  - etrans; [|exact Hs]. apply sublist_app; [done|by apply sublist_cons].
  - rewrite Hd. unfold vsize, u64. simpl. rewrite Zplus_mod_idemp_l. f_equal. lia.
Qed.

Lemma produce_inv batch idle l : inv l → inv (produce batch idle l).
Proof.
  intros HI. unfold produce. destruct (producer_ l) as [| |[|d ds]|[|f fs] ds|] eqn:Ep; [..|done].
  - apply inv_producer; [done|by rewrite Ep|by case_bool|done].
  - destruct batch as [|b bs]; [case_bool|]; apply (inv_producer l); rewrite ?Ep; done.
  - apply inv_producer; rewrite ?Ep; done.
  - destruct (stop_requested l); [apply (inv_producer l); rewrite ?Ep; done|].
    by apply inv_datagram.
  - apply inv_producer; rewrite ?Ep; done.
  - by apply inv_push.
Qed.

Lemma inv_popped l : inv l → consumer_ l = Popping → inv (popped l).
Proof.
  intros [(handled & stopped & E & Hrep & Hst) Hb Hs Hd [Hcap Hlen] Hr Hdone] Hc. rewrite Hc in *.
  unfold popped, DroppingQueue.try_pop. destruct (waiting l) as [|f q] eqn:Eq; split; try done.
  - exists handled, stopped. cbn. rewrite Eq. split; [done|]. split; [done|]. intros H. by apply Hst in H.
  - cbn. rewrite Eq. split; [done|simpl; lia].
  - exists handled, stopped. cbn. split; [done|]. split; [done|]. intros H. by apply Hst in H.
  - cbn in *. split; [done|lia].
Qed.

Lemma inv_stop_check l : inv l → consumer_ l = StopCheck →
  inv (with_consumer (if stop_requested l then ConsumerDone else Popping) l).
Proof.
  intros [(handled & stopped & E & Hrep & Hst) Hb Hs Hd Hcap Hr Hdone] Hc. rewrite Hc in *. split; try done.
  - exists handled, stopped. cbn. split; [|split; [done|intros H; by apply Hst in H]].
    rewrite E. by destruct (stop_requested l).
  - cbn. by destruct (stop_requested l).
Qed.

Lemma consume_inv l : inv l → ∃ l', consume options l = Some l' ∧ inv l'.
Proof.
  intros HI. unfold consume. destruct (consumer_ l) as [| |f|] eqn:Ec.
  - eexists. split; [done|]. by apply inv_popped.
  - eexists. split; [done|]. by apply inv_stop_check.
  - pose proof HI as [(handled & stopped & E & Hrep & Hst) [a Ha] Hs Hd Hcap Hr Hdone]. rewrite Ec in *.
    destruct (apply_frame_safe f (validator l) options (outcome l) a Ha) as (st & v' & o' & a' & Hf & Ha').
    rewrite Hf. cbn [mbind option_bind]. eexists. split; [done|].
    assert (stopped = false) as -> by (destruct stopped; [by specialize (Hst eq_refl)|done]).
    split; try done.
    + exists (handled ++ [f]), st. cbn. rewrite E. cbn. split; [by destruct st; rewrite <-!app_assoc|].
      split; [|by intros ->]. intros fs. rewrite <-app_assoc, Hrep. cbn. rewrite Hf. cbn. by destruct st.
    + by exists a'.
    + cbn. destruct st; [intros _; apply orb_true_r|done].
  - by exists l.
Qed.

Lemma listener_runs schedule : ∀ l, inv l → ∃ l', exec options schedule l = Some l' ∧ inv l'.
Proof.
  induction schedule as [|a schedule IH]; intros l HI; [by exists l|]. destruct a as [batch idle|]; cbn [exec step].
  - apply (IH (produce batch idle l)). by apply produce_inv.
  - destruct (consume_inv l HI) as (l1 & -> & HI1). by apply IH.
Qed.
End listener.

(** C20: listening live is replaying what got through. Whatever the datagrams and however
    the two threads interleave, nothing fails, and what the consumer has done is the
    replay of a prefix of the frames the queue took, under the same options; the rest is
    in its hand or still queued. The queue took, in order, some of the frames of the
    good packets received, and as many as are missing are counted as dropped: with none
    dropped, it took them all. *)
Theorem live_feed_is_replay capacity options schedule :
  ∃ l, exec options schedule (start capacity) = Some l ∧
    (∃ handled, pushed_ l = handled ++ in_hand (consumer_ l) ++ waiting l ∧
       replay_frames options handled None no_outcome = Some (outcome l)) ∧
    pushed_ l `sublist_of` carried (received_ l) ∧
    dropped l = u64 (vsize (carried (received_ l)) - vsize (to_push (producer_ l)) - vsize (pushed_ l)) ∧
    (vsize (carried (received_ l)) < 2 ^ 64 → dropped l = 0 →
       pushed_ l ++ to_push (producer_ l) = carried (received_ l)) ∧
    (length (waiting l) ≤ capacity)%nat ∧ packets_received l = u64 (vsize (received_ l)).
Proof.
  destruct (listener_runs options capacity schedule _ (inv_start options capacity)) as (l & Hx & HI).
  exists l. split; [done|]. destruct HI as [(handled & stopped & E & Hrep & _) _ Hs Hd [_ Hlen] Hr _].
  split; [|split; [|split; [done|split; [|done]]]].
  - exists handled. split; [done|]. specialize (Hrep []). rewrite app_nil_r in Hrep. rewrite Hrep. by destruct stopped.
  - etrans; [|exact Hs]. by apply sublist_inserts_r.
  - intros Hsmall H0. rewrite H0 in Hd. pose proof (sublist_length _ _ Hs) as Hle.
    apply sublist_same_length; [done|].
    rewrite length_app in *. unfold vsize in *. unfold u64 in Hd. rewrite Z.mod_small in Hd by lia. lia.
Qed.

(** Four packets through a queue that holds two frames: the third frame is dropped, and
    the default policy stops at the gap. *)
Definition sample_packet (k : Z) : list Z := pack_frames k [MClear (mkClearBook k 10 7)].

Definition sample_schedule : list action :=
  [Produce [] false; Produce [sample_packet 1; sample_packet 2; sample_packet 3] false] ++
  replicate 9 (Produce [] false) ++ replicate 6 Consume ++
  [Produce [] false; Produce [] false; Produce [sample_packet 4] false] ++ replicate 4 (Produce [] false) ++
  replicate 3 Consume.

Definition sample_end : option (StopReason * Z * list Z) :=
  (λ l, (stop_reason (outcome l), dropped l,
     omap (λ f, match f with inl event => Some (sequence_of event) | inr _ => None end) (pushed_ l))) <$>
  exec default_options sample_schedule (start 2).

Lemma live_feed_is_replay_witness :
  sample_end = Some (SequenceReason (mkCheck Missing 4 3), 1, [1; 2; 4]) ∧
  ∃ l, exec default_options sample_schedule (start 2) = Some l ∧
    pushed_ l `sublist_of` carried (received_ l).
Proof.
  split; [vm_compute; reflexivity|].
  destruct (live_feed_is_replay 2 default_options sample_schedule) as (l & Hx & _ & Hs & _).
  exists l. exact (conj Hx Hs).
Defined.

(** A frame that is pushed, with the stop asked for after it, between the consumer's
    empty pop and its check of the stop flag, stays in the queue. *)
Definition abandoned_schedule : list action :=
  [Produce [] false; Consume; Produce [sample_packet 1] false] ++ replicate 5 (Produce [] false) ++
  [Produce [] true; Consume].

Lemma listener_abandons_frames :
  (λ l, (stopped_early (outcome l), waiting l, consumer_ l, producer_ l)) <$>
    exec default_options abandoned_schedule (start 8) =
  Some (false, [inl (MClear (mkClearBook 1 10 7))], ConsumerDone, ProducerDone).
Proof. vm_compute. reflexivity. Qed.

End UdpListener.
