(* ===== verification/Strategies.v ===== *)
(** * The trading strategies (Module Strategies), and what they do to a book (Module
    StrategyProps) *)

From S2P Require Import Prelude Types SideIndex MatchingBook BookSpec MatchingEngine EngineProps.
From S2P Require Import MarketDataCodec OrderEntryCodec Ledger Risk RiskGated Reports ReportProps Oms.
From S2P Require Import Positions TradingSession SessionViews SessionProps OrderBook BookManager Replay.

(** * The trader's strategies ([trader/strategies])

    [StrategyRuntime], which hands book updates to the strategies that want them,
    [MarketMakerStrategy] and [CrossVenueArbStrategy]. A strategy changes the trader it
    trades through ([TraderRiskGatedOms]); [sends] is what the trader's sender answers to
    the request a call makes. Prices are signed 64-bit integers. *)

Module StrategyRuntime.
Import MarketDataCodec.

Section runtime.
(** What the sinks change. *)
Context {W : Type}.

Abbreviation BookUpdateSink := (InstrumentId → OrderBook.t → W → W).

(** [std::unordered_multimap]; the order in which [equal_range] gives the sinks of an
    instrument is the container's. *)
Context (container_order : list BookUpdateSink → list BookUpdateSink).

Record t := mk { sinks_ : list (InstrumentId * BookUpdateSink) }.

Definition make : t := mk [].

Definition subscribe (instrument_id : InstrumentId) (sink : BookUpdateSink) (r : t) : t :=
  mk (sinks_ r ++ [(instrument_id, sink)]).

Definition equal_range (instrument_id : InstrumentId) (r : t) : list BookUpdateSink :=
  container_order (snd <$> filter (λ entry, entry.1 = instrument_id) (sinks_ r)).

Definition instrument_of (event : Event) : InstrumentId :=
  match event with
  | MAdd m => ao_instrument_id m
  | MCancel m => xo_instrument_id m
  | MModify m => mo_instrument_id m
  | MTrade m => tr_instrument_id m
  | MClear m => cb_instrument_id m
  end.

(** [book_for] creates the book of an instrument it has not seen. *)
Definition on_event (event : Event) (books : BookManager.t) (r : t) (w : W) : BookManager.t * W :=
  let id := instrument_of event in
  let order_book := BookManager.book_for id books in
  (BookManager.set_book id order_book books,
   foldl (λ w sink, sink id order_book w) w (equal_range id r)).
End runtime.
End StrategyRuntime.

Module MarketMakerStrategy.
Import OrderManagementSystem TraderRiskGatedOms.

Record MarketMakerConfig := mkConfig {
  instrument_id : InstrumentId;
  quote_size : Quantity;
  half_spread : Price;
  max_position : Quantity;
  requote_threshold : Price;
}.

Definition default_config (id : InstrumentId) : MarketMakerConfig := mkConfig id 10 1 100 1.

Record t := mk {
  config_ : MarketMakerConfig;
  bid_order_id_ : option ClientOrderId;
  ask_order_id_ : option ClientOrderId;
}.

Definition make (config : MarketMakerConfig) : t := mk config None None.

Definition is_terminal (state : ClientOrderState) : bool :=
  match state with
  | ClientOrderState.Filled | ClientOrderState.Rejected | ClientOrderState.Cancelled
  | ClientOrderState.Replaced => true
  | _ => false
  end.

Definition abs_diff (a b : Price) : Price := if b <? a then i64 (a - b) else i64 (b - a).

Definition intent (config : MarketMakerConfig) (side : Side) (price : Price) : Intent :=
  mkIntent (instrument_id config) side price (quote_size config) Limit GTC.

(** The end of [update_side]: a fresh quote. *)
Definition fresh_quote (sends : Side → bool) (config : MarketMakerConfig) (side : Side)
    (desired_price : option Price) (g : TraderRiskGatedOms.t) : option ClientOrderId * TraderRiskGatedOms.t :=
  match desired_price with
  | None => (None, g)
  | Some price =>
      let '(outcome, g, _) := submit_new_order (sends side) (intent config side price) g in
      (match outcome with inl id => Some id | inr _ => None end, g)
  end.

(** [update_side]: the id of the side's quote, and the trader, after it. *)
Definition update_side (sends : Side → bool) (config : MarketMakerConfig) (side : Side)
    (order_id : option ClientOrderId) (desired_price : option Price) (g : TraderRiskGatedOms.t) :
    option ClientOrderId * TraderRiskGatedOms.t :=
  match order_id ≫= λ id, order id (oms_ g) with
  | None => fresh_quote sends config side desired_price g
  | Some o =>
      if is_terminal (cl_state o) then fresh_quote sends config side desired_price g
      else if bool_decide (cl_state o = ClientOrderState.PendingNew)
              || negb (bool_decide (cl_pending_action o = PendingAction.None)) then (order_id, g)
      else
        match order_id, desired_price with
        | Some id, None => (order_id, (cancel_order (sends side) id g).2)
        | Some id, Some price =>
            if abs_diff (cl_price o) price <? requote_threshold config then (order_id, g)
            else match replace_order (sends side) id price (quote_size config) g with
                 | (Some new_id, g) => (Some new_id, g)
                 | (None, g) => (order_id, g)
                 end
        | None, _ => (order_id, g)
        end
  end.

(** A quote on the other side that is not done, and its price. *)
Definition standing (order_id : option ClientOrderId) (g : TraderRiskGatedOms.t) : option Price :=
  id ← order_id; o ← order id (oms_ g); if is_terminal (cl_state o) then None else Some (cl_price o).

Definition update_bid (sends : Side → bool) (desired : option Price) (m : t * TraderRiskGatedOms.t) :
    t * TraderRiskGatedOms.t :=
  let '(id, g) := update_side sends (config_ m.1) Buy (bid_order_id_ m.1) desired m.2 in
  (mk (config_ m.1) id (ask_order_id_ m.1), g).

Definition update_ask (sends : Side → bool) (desired : option Price) (m : t * TraderRiskGatedOms.t) :
    t * TraderRiskGatedOms.t :=
  let '(id, g) := update_side sends (config_ m.1) Sell (ask_order_id_ m.1) desired m.2 in
  (mk (config_ m.1) (bid_order_id_ m.1) id, g).

Definition on_book_update (sends : Side → bool) (id : InstrumentId) (b : OrderBook.t)
    (m : t * TraderRiskGatedOms.t) : t * TraderRiskGatedOms.t :=
  let config := config_ m.1 in
  if negb (id =? instrument_id config) then m
  else
    match OrderBook.best_bid b, OrderBook.best_ask b with
    | Some bid, Some ask =>
        let mid := Z.quot (i64 (OrderBook.lv_price bid + OrderBook.lv_price ask)) 2 in
        let desired_bid := if max_position config <=? position (instrument_id config) m.2 then None
                           else Some (i64 (mid - half_spread config)) in
        let desired_ask := i64 (mid + half_spread config) in
        let bid_would_cross := match desired_bid, standing (ask_order_id_ m.1) m.2 with
                               | Some price, Some current => current <=? price
                               | _, _ => false
                               end in
        let ask_would_cross := match standing (bid_order_id_ m.1) m.2 with
                               | Some current => desired_ask <=? current
                               | None => false
                               end in
        if bid_would_cross && negb ask_would_cross
        then update_bid sends desired_bid (update_ask sends (Some desired_ask) m)
        else update_ask sends (Some desired_ask) (update_bid sends desired_bid m)
    | _, _ => m
    end.

End MarketMakerStrategy.

Module CrossVenueArbStrategy.
Import TraderRiskGatedOms.

Record CrossVenueArbConfig := mkConfig {
  instrument_id : InstrumentId;
  trade_size : Quantity;
  min_edge : Price;
}.

Record t := mk {
  config_ : CrossVenueArbConfig;
  venue_a_best_bid_ : option OrderBook.PriceLevelView;
  venue_a_best_ask_ : option OrderBook.PriceLevelView;
  venue_b_best_bid_ : option OrderBook.PriceLevelView;
  venue_b_best_ask_ : option OrderBook.PriceLevelView;
}.

Definition make (config : CrossVenueArbConfig) : t := mk config None None None None.

(** An immediate order at one venue. *)
Definition take (ok : bool) (c : CrossVenueArbConfig) (side : Side) (price : Price) (g : TraderRiskGatedOms.t) :
    TraderRiskGatedOms.t :=
  (submit_new_order ok (mkIntent (instrument_id c) side price (trade_size c) Limit IOC) g).1.2.

Definition edge (c : CrossVenueArbConfig) (ask bid : option OrderBook.PriceLevelView) : option (Price * Price) :=
  match ask, bid with
  | Some ask, Some bid =>
      if min_edge c <=? i64 (OrderBook.lv_price bid - OrderBook.lv_price ask)
      then Some (OrderBook.lv_price ask, OrderBook.lv_price bid) else None
  | _, _ => None
  end.

(** [send_a] and [send_b]: what each venue's sender answers. *)
Definition evaluate (send_a send_b : bool) (s : t) (venues : TraderRiskGatedOms.t * TraderRiskGatedOms.t) :
    TraderRiskGatedOms.t * TraderRiskGatedOms.t :=
  let c := config_ s in
  match edge c (venue_a_best_ask_ s) (venue_b_best_bid_ s) with
  | Some (buy, sell) => (take send_a c Buy buy venues.1, take send_b c Sell sell venues.2)
  | None =>
      match edge c (venue_b_best_ask_ s) (venue_a_best_bid_ s) with
      | Some (buy, sell) => (take send_a c Sell sell venues.1, take send_b c Buy buy venues.2)
      | None => venues
      end
  end.

Definition on_venue_a_update (send_a send_b : bool) (id : InstrumentId) (b : OrderBook.t)
    (m : t * (TraderRiskGatedOms.t * TraderRiskGatedOms.t)) : t * (TraderRiskGatedOms.t * TraderRiskGatedOms.t) :=
  if negb (id =? instrument_id (config_ m.1)) then m
  else
    let s := mk (config_ m.1) (OrderBook.best_bid b) (OrderBook.best_ask b) (venue_b_best_bid_ m.1)
      (venue_b_best_ask_ m.1) in
    (s, evaluate send_a send_b s m.2).

Definition on_venue_b_update (send_a send_b : bool) (id : InstrumentId) (b : OrderBook.t)
    (m : t * (TraderRiskGatedOms.t * TraderRiskGatedOms.t)) : t * (TraderRiskGatedOms.t * TraderRiskGatedOms.t) :=
  if negb (id =? instrument_id (config_ m.1)) then m
  else
    let s := mk (config_ m.1) (venue_a_best_bid_ m.1) (venue_a_best_ask_ m.1) (OrderBook.best_bid b)
      (OrderBook.best_ask b) in
    (s, evaluate send_a send_b s m.2).

End CrossVenueArbStrategy.

(** * A quote that is never replaced

    What a strategy cannot recover from: an order of its order management that waits for
    an answer nothing will send. *)

Module StrategyProps.
Import EngineProps OrderEntryCodec OrderManagementSystem TraderRiskGatedOms Reports TradingSession SessionViews SessionProps.
Import MarketMakerStrategy.

Abbreviation gated_start e l limits A tl p :=
  (start (RiskGatedEngine.start e l limits) (TraderRiskGatedOms.mk A tl p (OrderManagementSystem.make A))).

(** Nothing is on its way, either way. *)
Definition quiet (w : TradingSession.t) : Prop := outbox w = [] ∧ up w = [] ∧ down w = [].

Lemma inv_with_dead A k w f v id c : inv A [] k w f v → quiet w → ord (trader w) id = Some c →
  cl_state c = ClientOrderState.PendingNew → inv A [id] k w f v.
Proof.
  intros HI (Ho & Hu & Hd) Hc Hs.
  assert (v !! (A, id) = None) as Hv.
  { rewrite <-(in_shown _ _ _ _ _ _ HI id). unfold seen. rewrite Hd, after_nil, Hc. simpl. unfold shown. by rewrite Hs. }
  destruct HI. split; try done. intros j ->%list_elem_of_singleton. unfold is_dead, pending. rewrite Hd, Ho, Hu.
  split; [done|]. split; [apply not_elem_of_nil|]. split; [by intros m ?%not_elem_of_nil|]. by exists c.
Qed.

(** A side whose quote waits for its answer is left as it is. *)
Lemma update_side_waits sends config side id desired g c : order id (oms_ g) = Some c →
  cl_state c = ClientOrderState.PendingNew → update_side sends config side (Some id) desired g = (Some id, g).
Proof. intros Hc Hs. unfold update_side. simpl. rewrite Hc, Hs. done. Qed.

(** An unanswered order stalls its side for good. Once nothing is on its way and an
    order is still pending (the replacement of a refused replace is, and so is a request
    that was lost), it stays pending whatever the account, the exchange and the others
    do from then on, and a market maker that has it for a quote never again cancels,
    replaces or renews that side. *)
Theorem pending_quote_stalls universe n limits l A tl p actions e w id c :
  Forall in_u32 universe → vsize universe < MatchingEngine.kNoSlot → same_totals A l p →
  Forall (action_ok A) actions → MatchingEngine.make universe n = Some e →
  exec actions (gated_start e l limits A tl p) = Some w → quiet w →
  order id (oms_ (trader w)) = Some c → cl_state c = ClientOrderState.PendingNew →
  ∀ later, Forall (action_ok A) later → vsize actions + vsize later ≤ MatchingBook.kNil →
  ∃ w' c', exec later w = Some w' ∧ order id (oms_ (trader w')) = Some c' ∧
    cl_state c' = ClientOrderState.PendingNew ∧
    ∀ sends config side desired,
      update_side sends config side (Some id) desired (trader w') = (Some id, trader w').
Proof.
  intros Hu Hsz HT Hok He Hx Hq Hc Hs later Hlater Hn. pose proof (vsize_nonneg later).
  destruct (ReportProps.exchange_start (mine A) universe n l limits Hu Hsz) as (e' & f & He' & HX).
  rewrite He in He'. injection He' as <-.
  destruct (session_exec A [] actions 0 _ f ∅ (session_start A e f l limits tl p HX HT) Hok) as (w1 & f1 & v1 & Hx1 & HI);
    [lia|].
  rewrite Hx in Hx1. injection Hx1 as <-.
  destruct (session_exec A [id] later _ w f1 v1 (inv_with_dead _ _ _ _ _ _ _ HI Hq Hc Hs) Hlater)
    as (w' & f' & v' & Hx' & HI'); [lia|].
  destruct (in_dead _ _ _ _ _ _ HI' id) as (_ & _ & _ & c' & Hc' & Hs'); [by left|].
  exists w', c'. split; [done|]. split; [exact Hc'|]. split; [done|]. intros. by eapply update_side_waits.
Qed.

(** After the refused replace of [SessionProps]. *)
Definition stalled_engine : real := default (MatchingEngine.mk [] [] 0 0 [] ∅ 0 0 0) (MatchingEngine.make [7] 16).

Definition stalled_world : TradingSession.t :=
  default (start (RiskGatedEngine.start stalled_engine Ledger.empty RiskEngine.default_limits) sample_trader)
    (exec refused_replace_actions
      (gated_start stalled_engine sample_funds RiskEngine.default_limits 1 TraderRiskEngine.default_limits sample_positions)).

Definition stalled_order : ClientOrder :=
  default (new_client_order 0 0 0 Buy 0 0 Limit GTC) (order 2 (oms_ (trader stalled_world))).

Definition later_actions : list action :=
  [CancelOrder 1; Transmit 0 true; Match; Handle; CancelOrder 2; CheckRisk (mkIntent 7 Buy 90 1 Limit GTC); Register 0;
   Transmit 0 true; Match; Handle].

Lemma pending_quote_stalls_witness :
  quiet stalled_world ∧ cl_state stalled_order = ClientOrderState.PendingNew ∧
  ∃ w' c', exec later_actions stalled_world = Some w' ∧ order 2 (oms_ (trader w')) = Some c' ∧
    cl_state c' = ClientOrderState.PendingNew ∧
    ∀ sends config side desired,
      update_side sends config side (Some 2) desired (trader w') = (Some 2, trader w').
Proof.
  assert (quiet stalled_world) as Hq by (split; [|split]; vm_compute; reflexivity).
  assert (cl_state stalled_order = ClientOrderState.PendingNew) as Hs by (vm_compute; reflexivity).
  split; [exact Hq|]. split; [exact Hs|].
  apply (pending_quote_stalls [7] 16 RiskEngine.default_limits sample_funds 1 TraderRiskEngine.default_limits
    sample_positions refused_replace_actions stalled_engine stalled_world 2 stalled_order).
  - by repeat constructor.
  - done.
  - split; [reflexivity|intros i; reflexivity].
  - repeat constructor; simpl; done.
  - vm_compute. reflexivity.
  - vm_compute. reflexivity.
  - exact Hq.
  - vm_compute. reflexivity.
  - exact Hs.
  - repeat constructor; simpl; done.
  - done.
Defined.

(** ** Crossing its own quote *)

Definition sample_book (bid ask : Price) : OrderBook.t :=
  (OrderBook.add_order 2 ask 5 Sell (OrderBook.add_order 1 bid 5 Buy OrderBook.empty).2).2.

Definition sample_maker : MarketMakerStrategy.t * TraderRiskGatedOms.t :=
  (MarketMakerStrategy.make (default_config 7),
   deposit_position 7 50 (deposit_cash 10000 (TraderRiskGatedOms.make 1 TraderRiskEngine.default_limits))).

Definition tick (bid ask : Price) (m : MarketMakerStrategy.t * TraderRiskGatedOms.t) :
    MarketMakerStrategy.t * TraderRiskGatedOms.t :=
  on_book_update (λ _, true) 7 (sample_book bid ask) m.

Definition standing_quotes (m : MarketMakerStrategy.t * TraderRiskGatedOms.t) : option Price * option Price :=
  (standing (bid_order_id_ m.1) m.2, standing (ask_order_id_ m.1) m.2).

Definition bid_accepted (m : MarketMakerStrategy.t * TraderRiskGatedOms.t) : MarketMakerStrategy.t * TraderRiskGatedOms.t :=
  (m.1, hear m.2 (MsgAccepted (mkAccepted 1 1 51 7 Buy 99 10 Limit GTC))).

(** The bid is accepted, the ask not yet; the market jumps. The ask, which would have to
    move out of the way first, is left alone until it is answered; the bid moves past
    it. *)
Lemma bid_crosses_own_ask :
  standing_quotes (bid_accepted (tick 95 105 sample_maker)) = (Some 99, Some 101) ∧
  standing_quotes (tick 110 112 (bid_accepted (tick 95 105 sample_maker))) = (Some 110, Some 101).
Proof. split; vm_compute; reflexivity. Qed.

End StrategyProps.
