(* ===== verification/Ring.v ===== *)
(** * Ring buffers of a power of two of slots

    What the queues that mask their indices share: the slot of an index, and a list laid
    out from an index on. *)

From S2P Require Import Prelude.

Module Ring.
Section ring.
Context {T : Type} (Capacity : Z).

Definition slot (i : Z) : Z := i mod Capacity.

(** [xs] from index [h] on. *)
Definition holds (buffer : list T) (h : Z) (xs : list T) : Prop :=
  ∀ i x, xs !! i = Some x → vget buffer (slot (h + Z.of_nat i)) = Some x.

Lemma holds_nil buffer h : holds buffer h [].
Proof. by intros i x. Qed.

Lemma holds_head buffer h x xs : holds buffer h (x :: xs) → vget buffer (slot h) = Some x ∧ holds buffer (h + 1) xs.
Proof.
  intros H. split.
  - rewrite <-(H 0%nat x eq_refl). do 2 f_equal. lia.
  - intros i y Hy. rewrite <-(H (S i) y Hy). do 2 f_equal. lia.
Qed.

Lemma holds_init buffer h x xs : holds buffer h (xs ++ [x]) → holds buffer h xs ∧ vget buffer (slot (h + vsize xs)) = Some x.
Proof.
  intros H. split.
  - intros i y Hy. apply H. apply lookup_app_Some. by left.
  - apply (H (length xs)). by rewrite lookup_app_r, Nat.sub_diag.
Qed.

Lemma holds_snoc buffer h x xs : holds buffer h xs → vget buffer (slot (h + vsize xs)) = Some x →
  holds buffer h (xs ++ [x]).
Proof.
  intros H Hx i y [Hy|[Hle Hy]]%lookup_app_Some; [by apply H|].
  destruct (i - length xs)%nat eqn:En; [|done]. injection Hy as <-. by replace i with (length xs) by lia.
Qed.

Context (k : Z) (Hk : 0 ≤ k ≤ 63) (HC : Capacity = 2 ^ k).

Lemma capacity_pos : 0 < Capacity ≤ 2 ^ 63.
Proof. rewrite HC. split; [apply Z.pow_pos_nonneg; lia|apply Z.pow_le_mono_r; lia]. Qed.

Lemma slot_range z : 0 ≤ slot z < Capacity.
Proof. apply Z.mod_pos_bound. apply capacity_pos. Qed.

Lemma land_slot z : Z.land z (Capacity - 1) = slot z.
Proof.
  unfold slot. rewrite HC. replace (2 ^ k - 1) with (Z.ones k) by (rewrite Z.ones_equiv; lia).
  by rewrite Z.land_ones by lia.
Qed.

Lemma slot_u64 z : slot (u64 z) = slot z.
Proof.
  unfold slot, u64. rewrite HC, <-Znumtheory.Zmod_div_mod; [done|apply Z.pow_pos_nonneg; lia|lia|].
  exists (2 ^ (64 - k)). rewrite <-Z.pow_add_r by lia. f_equal. lia.
Qed.

Lemma slot_ne z i j : 0 ≤ i < j → j - i < Capacity → slot (z + i) ≠ slot (z + j).
Proof.
  intros Hi Hj E. unfold slot in E. pose proof capacity_pos.
  assert ((j - i) mod Capacity = 0) as H0.
  { replace (j - i) with ((z + j) - (z + i)) by lia. rewrite Zminus_mod, E, Z.sub_diag. apply Z.mod_0_l. lia. }
  rewrite Z.mod_small in H0; lia.
Qed.

(** A write behind the list, where there is room, extends it or leaves it alone. *)
Lemma holds_write buffer h x xs : vsize buffer = Capacity → vsize xs < Capacity → holds buffer h xs →
  vget (vput buffer (slot (h + vsize xs)) x) (slot (h + vsize xs)) = Some x ∧
  holds (vput buffer (slot (h + vsize xs)) x) h xs.
Proof.
  intros Hs Hlt H. pose proof (slot_range (h + vsize xs)) as Hr. split; [apply vget_vput_eq; lia|].
  intros i y Hy. rewrite vget_vput_ne; [by apply H|apply Hr|].
  apply lookup_lt_Some in Hy. unfold vsize in *. apply not_eq_sym, slot_ne; lia.
Qed.
End ring.
End Ring.
