(* ===== verification/LobBook.v ===== *)
(** * The book of the stand-alone engine (Module LobBook), and its properties (Module LobProps) *)

From stdpp Require Import sorting.
From S2P Require Import Prelude.

(** * The stand-alone limit order book ([LimitOrderBook/include], [LimitOrderBook/src])

    A second program of the repository, unrelated to [mdh]: levels that are lists with
    an index from order id to list iterator, a book of two [std::map]s from price to
    level with an index of its own, and matching. A [std::map] is the list of its
    elements in its order; a list iterator is the identity of the node it points to; a
    dereference of what points nowhere, and of the front of an empty list, is [None]. *)

Module Lob.

Abbreviation Price := Z (only parsing).
Abbreviation Timestamp := Z (only parsing).
Abbreviation Quantity := Z (only parsing).
Abbreviation OrderId := Z (only parsing).

Inductive Side := Buy | Sell.

#[export] Instance Side_eq_dec : EqDecision Side.
Proof. solve_decision. Defined.

Inductive CommandType := Add | Cancel.

#[export] Instance CommandType_eq_dec : EqDecision CommandType.
Proof. solve_decision. Defined.

Record Order := mkOrder {
  price : Price;
  timestamp : Timestamp;
  quantity : Quantity;
  id : OrderId;
  side : Side;
}.

Record Command := mkCommand { type : CommandType; order : Order }.

Definition with_quantity (qty : Quantity) (o : Order) : Order :=
  mkOrder (price o) (timestamp o) qty (id o) (side o).
End Lob.

Module LobLevel.
Import Lob.

(** [std::list<Order>::iterator] *)
Abbreviation Iterator := Z (only parsing).

(** [next_node] is the allocator's: the identity of the next node of the list. *)
Record t := mk {
  orderMap : gmap OrderId Iterator;
  orders : list (Iterator * Order);
  next_node : Iterator;
}.

Definition empty : t := mk ∅ [] 0.

Definition add (o : Order) (l : t) : t :=
  mk (<[id o := next_node l]> (orderMap l)) (orders l ++ [(next_node l, o)]) (next_node l + 1).

Definition cancel (i : OrderId) (l : t) : option (bool * t) :=
  match orderMap l !! i with
  | None => Some (false, l)
  | Some it =>
      if bool_decide (it ∈ (orders l).*1)
      then Some (true, mk (delete i (orderMap l)) (filter (λ x, x.1 ≠ it) (orders l)) (next_node l))
      else None
  end.

Definition modifyFrontQuantity (qty : Quantity) (l : t) : option t :=
  match orders l with
  | [] => None
  | (it, o) :: rest => Some (mk (orderMap l) ((it, with_quantity (u32 (quantity o - qty)) o) :: rest) (next_node l))
  end.

Definition pop (l : t) : option (Order * t) :=
  match orders l with
  | [] => None
  | (_, o) :: rest => Some (o, mk (delete (id o) (orderMap l)) rest (next_node l))
  end.

Definition peek (l : t) : option Order :=
  match orders l with [] => None | (_, o) :: _ => Some o end.

Definition isEmpty (l : t) : bool := match orders l with [] => true | _ => false end.

Definition size (l : t) : Z := vsize (orders l).
End LobLevel.

Module LobBook.
Import Lob.

(** [std::map<Price, PriceLevel>], from [begin()] on. *)
Abbreviation Levels := (list (Price * LobLevel.t)).

Record t := mk {
  asks : Levels;
  bids : Levels;
  orderIndex : gmap OrderId (Side * Price);
}.

Definition empty : t := mk [] [] ∅.

(** The order of the keys of a side's map: [std::less] for asks, [std::greater] for
    bids. *)
Definition better (sd : Side) (p q : Price) : bool :=
  match sd with Sell => p <? q | Buy => q <? p end.

Definition levels_of (sd : Side) (b : t) : Levels :=
  match sd with Buy => bids b | Sell => asks b end.

Definition with_levels (sd : Side) (m : Levels) (b : t) : t :=
  match sd with Buy => mk (asks b) m (orderIndex b) | Sell => mk m (bids b) (orderIndex b) end.

Definition with_index (m : gmap OrderId (Side * Price)) (b : t) : t := mk (asks b) (bids b) m.

(** [find], [erase] and a change of the element found. *)
Fixpoint find (p : Price) (m : Levels) : option LobLevel.t :=
  match m with
  | [] => None
  | (q, l) :: m => if q =? p then Some l else find p m
  end.

Definition erase (p : Price) (m : Levels) : Levels := filter (λ x, x.1 ≠ p) m.

Fixpoint assign (p : Price) (l : LobLevel.t) (m : Levels) : Levels :=
  match m with
  | [] => []
  | (q, l0) :: m => if q =? p then (q, l) :: m else (q, l0) :: assign p l m
  end.

(** [m[p].add(o)]: the element is created in its place when there is none. *)
Fixpoint add_at (sd : Side) (p : Price) (o : Order) (m : Levels) : Levels :=
  match m with
  | [] => [(p, LobLevel.add o LobLevel.empty)]
  | (q, l) :: rest =>
      if better sd p q then (p, LobLevel.add o LobLevel.empty) :: m
      else if better sd q p then (q, l) :: add_at sd p o rest
      else (q, LobLevel.add o l) :: rest
  end.

(** Whether an order can trade at the price of a level. *)
Definition crosses (o : Order) (p : Price) : bool :=
  match side o with Buy => p <=? price o | Sell => price o <=? p end.

(** What matching changes: the levels from [it] on, which stays [begin()], and the
    index. *)
Fixpoint match_loop (fuel : nat) (o : Order) (orderQuantity filled : Quantity) (m : Levels)
    (index : gmap OrderId (Side * Price)) : option (Quantity * Levels * gmap OrderId (Side * Price)) :=
  match fuel with
  | O => None
  | S fuel =>
      match m with
      | [] => Some (filled, m, index)
      | (p, level) :: rest =>
          if crosses o p then
            front ← LobLevel.peek level;
            if orderQuantity <? quantity front then
              level ← LobLevel.modifyFrontQuantity orderQuantity level;
              Some (u32 (filled + orderQuantity), (p, level) :: rest, index)
            else
              '(frontOrder, level) ← LobLevel.pop level;
              let m := if LobLevel.isEmpty level then rest else (p, level) :: rest in
              let index := delete (id frontOrder) index in
              if orderQuantity =? quantity front
              then Some (u32 (filled + orderQuantity), m, index)
              else match_loop fuel o (u32 (orderQuantity - quantity frontOrder))
                     (u32 (filled + quantity frontOrder)) m index
          else Some (filled, m, index)
      end
  end.

Definition contra (sd : Side) : Side := match sd with Buy => Sell | Sell => Buy end.

(** A turn for every order that can be popped, and one more. *)
Definition resting_count (m : Levels) : nat := sum_list_with (λ x, length (LobLevel.orders x.2)) m.

Definition match_ (o : Order) (b : t) : option (Quantity * t) :=
  let m := levels_of (contra (side o)) b in
  '(filled, m, index) ← match_loop (S (resting_count m)) o (quantity o) 0 m (orderIndex b);
  Some (filled, with_levels (contra (side o)) m (with_index index b)).

(** The order that rests is the order that came, with all its quantity. *)
Definition add (o : Order) (b : t) : option (OrderId * t) :=
  '(filled, b) ← match_ o b;
  let remainder := u32 (quantity o - filled) in
  Some (id o,
    if 0 <? remainder
    then with_index (<[id o := (side o, price o)]> (orderIndex b))
           (with_levels (side o) (add_at (side o) (price o) o (levels_of (side o) b)) b)
    else b).

Definition cancel (i : OrderId) (b : t) : option t :=
  match orderIndex b !! i with
  | None => Some b
  | Some (sd, p) =>
      level ← find p (levels_of sd b);
      '(_, level) ← LobLevel.cancel i level;
      let m := if LobLevel.isEmpty level then erase p (levels_of sd b) else assign p level (levels_of sd b) in
      Some (with_index (delete i (orderIndex b)) (with_levels sd m b))
  end.

Definition getBestAsk (b : t) : option Price := fst <$> head (asks b).
Definition getBestBid (b : t) : option Price := fst <$> head (bids b).

(** The switch of [MatchingEngine::run]. *)
Definition process (c : Command) (b : t) : option t :=
  match type c with
  | Add => '(_, b) ← add (order c) b; Some b
  | Cancel => cancel (id (order c)) b
  end.

Fixpoint process_all (cs : list Command) (b : t) : option t :=
  match cs with [] => Some b | c :: cs => b ← process c b; process_all cs b end.

End LobBook.

(** * The stand-alone order book: what it computes

    [LobBook] implements two price-time queues ([book]): every operation succeeds, finds
    what it looks for, and does to the queues what [book_process] says. That is what the
    code does, the order that rests whole after it was filled in part included. What the
    README asks of the book is [spec_process]: [add] "rests any unfilled remainder". The
    two agree until an order is filled in part and rests ([book_is_spec]). *)

Module LobProps.
Import Lob LobBook.

(** ** The queues *)

(** The orders of each side in the order in which they trade. *)
Record book := mkBook { sells : list Order; buys : list Order }.

Definition queue (sd : Side) (a : book) : list Order :=
  match sd with Buy => buys a | Sell => sells a end.

Definition with_queue (sd : Side) (q : list Order) (a : book) : book :=
  match sd with Buy => mkBook (sells a) q | Sell => mkBook q (buys a) end.

Definition everyone (a : book) : list Order := sells a ++ buys a.

(** What an order of [rem] takes from a queue, and what it leaves. *)
Fixpoint fill (o : Order) (rem : Quantity) (q : list Order) : Quantity * list Order :=
  match q with
  | [] => (0, [])
  | x :: q' =>
      if (rem <=? 0) || negb (crosses o (price x)) then (0, q)
      else
        let n := Z.min rem (quantity x) in
        if n <? quantity x then (n, with_quantity (quantity x - n) x :: q')
        else let '(f, r) := fill o (rem - n) q' in (n + f, r)
  end.

(** An order behind those at its price or a better one. *)
Fixpoint rest_in (o : Order) (q : list Order) : list Order :=
  match q with
  | [] => [o]
  | x :: q' => if better (side o) (price o) (price x) then o :: q else x :: rest_in o q'
  end.

(** What the code's [add] does to them. *)
Definition book_add (o : Order) (a : book) : book :=
  let '(f, r) := fill o (quantity o) (queue (contra (side o)) a) in
  let a := with_queue (contra (side o)) r a in
  if f <? quantity o then with_queue (side o) (rest_in o (queue (side o) a)) a else a.

Definition not_id (i : OrderId) (q : list Order) : list Order := filter (λ o, id o ≠ i) q.

Definition book_process (c : Command) (a : book) : book :=
  match type c with
  | Add => book_add (order c) a
  | Cancel => mkBook (not_id (id (order c)) (sells a)) (not_id (id (order c)) (buys a))
  end.

Definition book_all (cs : list Command) (a : book) : book := foldl (λ a c, book_process c a) a cs.

(** *** The specification

    Of the README: match first, then rest the unfilled remainder. *)

Definition spec_add (o : Order) (a : book) : book :=
  let '(f, r) := fill o (quantity o) (queue (contra (side o)) a) in
  let a := with_queue (contra (side o)) r a in
  if f <? quantity o
  then with_queue (side o) (rest_in (with_quantity (quantity o - f) o) (queue (side o) a)) a else a.

Definition spec_process (c : Command) (a : book) : book :=
  match type c with
  | Add => spec_add (order c) a
  | Cancel => mkBook (not_id (id (order c)) (sells a)) (not_id (id (order c)) (buys a))
  end.

Definition spec_all (cs : list Command) (a : book) : book := foldl (λ a c, spec_process c a) a cs.

(** What a command fills of the order it brings. *)
Definition fills_of (c : Command) (a : book) : Quantity :=
  match type c with
  | Add => (fill (order c) (quantity (order c)) (queue (contra (side (order c))) a)).1
  | Cancel => 0
  end.

(** No order of a session is filled in part when it comes and has to rest: each is filled
    whole or not at all. *)
Fixpoint none_in_part (cs : list Command) (a : book) : bool :=
  match cs with
  | [] => true
  | c :: cs =>
      ((fills_of c a =? 0) || (fills_of c a =? quantity (order c))) && none_in_part cs (spec_process c a)
  end.

Definition total (q : list Order) : Z := foldr (λ o n, quantity o + n) 0 q.

(** ** What the book stands for *)

Definition orders_of (l : LobLevel.t) : list Order := (LobLevel.orders l).*2.

Definition queue_of (m : Levels) : list Order := m ≫= λ x, orders_of x.2.

Definition order_ok (o : Order) : Prop := 0 < quantity o < 2 ^ 32.

(** A level holds orders of its side and price, and finds each by its id. *)
Record level_inv (sd : Side) (p : Price) (l : LobLevel.t) : Prop := {
  lo_orders : Forall (λ o, price o = p ∧ side o = sd ∧ order_ok o) (orders_of l);
  lo_ids : NoDup (id <$> orders_of l);
  lo_nodes : NoDup (LobLevel.orders l).*1;
  lo_fresh : Forall (λ it, it < LobLevel.next_node l) (LobLevel.orders l).*1;
  lo_map : ∀ i it, LobLevel.orderMap l !! i = Some it ↔ ∃ o, (it, o) ∈ LobLevel.orders l ∧ id o = i;
}.

Definition level_ok (sd : Side) (p : Price) (l : LobLevel.t) : Prop :=
  LobLevel.orders l ≠ [] ∧ level_inv sd p l.

Definition ahead (sd : Side) (x y : Price * LobLevel.t) : Prop := better sd x.1 y.1 = true.

Record levels_ok (sd : Side) (m : Levels) : Prop := {
  lv_sorted : StronglySorted (ahead sd) m;
  lv_levels : Forall (λ x, level_ok sd x.1 x.2) m;
}.

Definition key (o : Order) : OrderId * (Side * Price) := (id o, (side o, price o)).

Record Rep (b : t) (a : book) : Prop := {
  rp_side : ∀ sd, levels_ok sd (levels_of sd b) ∧ queue_of (levels_of sd b) = queue sd a;
  rp_ids : NoDup (id <$> everyone a);
  rp_index : ∀ i sp, orderIndex b !! i = Some sp ↔ (i, sp) ∈ key <$> everyone a;
}.

(** ** Prices *)

Lemma price_irrefl sd p : better sd p p = false.
Proof. destruct sd; simpl; lia. Qed.

Lemma better_trans sd p q r : better sd p q = true → better sd q r = true → better sd p r = true.
Proof. destruct sd; simpl; lia. Qed.

Lemma better_tie sd p q : better sd p q = false → better sd q p = false → p = q.
Proof. destruct sd; simpl; lia. Qed.

Lemma better_crosses o p q : crosses o p = false → better (contra (side o)) p q = true → crosses o q = false.
Proof. unfold crosses. destruct (side o); simpl; lia. Qed.

(** ** Levels *)

Lemma sub_Forall {A} (P : A → Prop) (l k : list A) : l `sublist_of` k → Forall P k → Forall P l.
Proof. induction 1; [done|..]; intros [? ?]%Forall_cons; [constructor|]; auto. Qed.

Lemma nodup_key {A K} (f : A → K) (l : list A) x y : NoDup (f <$> l) → x ∈ l → y ∈ l → f x = f y → x = y.
Proof.
  intros Hn [i Hi]%list_elem_of_lookup [j Hj]%list_elem_of_lookup E.
  assert (i = j) as ->; [|congruence].
  eapply NoDup_lookup; [exact Hn|by rewrite list_lookup_fmap, Hi|by rewrite list_lookup_fmap, Hj, E].
Qed.

Section level.
Context (sd : Side) (p : Price).

Lemma level_inv_empty : level_inv sd p LobLevel.empty.
Proof.
  split; [constructor..|]. intros i it. simpl. rewrite lookup_empty. split; [done|].
  intros (o & Ho & _). by apply not_elem_of_nil in Ho.
Qed.

Lemma elem_of_orders l it o : (it, o) ∈ LobLevel.orders l → o ∈ orders_of l.
Proof. intros H. by apply (list_elem_of_fmap_2 snd) in H. Qed.

Lemma elem_of_nodes l it o : (it, o) ∈ LobLevel.orders l → it ∈ (LobLevel.orders l).*1.
Proof. intros H. by apply (list_elem_of_fmap_2 fst) in H. Qed.

Lemma level_add_ok l o : level_inv sd p l → price o = p → side o = sd → order_ok o → id o ∉ id <$> orders_of l →
  level_ok sd p (LobLevel.add o l) ∧ orders_of (LobLevel.add o l) = orders_of l ++ [o].
Proof.
  intros [Ho Hi Hn Hf Hm] Hp Hs Hk Hid. assert (orders_of (LobLevel.add o l) = orders_of l ++ [o]) as E.
  { unfold orders_of. cbn. by rewrite fmap_app. }
  split; [|done]. split; [cbn; by destruct (LobLevel.orders l)|]. split; rewrite ?E; cbn.
  - apply Forall_app. split; [done|]. by constructor.
  - rewrite fmap_app. apply NoDup_app. split; [done|]. split; [|apply NoDup_singleton].
    by intros i Hi' ->%list_elem_of_singleton.
  - rewrite fmap_app. apply NoDup_app. split; [done|]. split; [|apply NoDup_singleton].
    intros it Hit ->%list_elem_of_singleton. rewrite Forall_forall in Hf. apply Hf in Hit. simpl in Hit. lia.
  - rewrite fmap_app. apply Forall_app. split; [|repeat constructor; simpl; lia].
    eapply Forall_impl; [exact Hf|]. simpl. lia.
  - intros i it. rewrite lookup_insert_Some, Hm. split.
    + intros [[<- <-]|[Hne (x & Hx & <-)]]; [exists o|exists x]; set_solver.
    + intros (x & [Hx|[= -> ->]%list_elem_of_singleton]%elem_of_app & <-); [right|by left].
      split; [|by exists x]. intros E'. apply Hid. rewrite E'. apply list_elem_of_fmap_2. by eapply elem_of_orders.
Qed.

Lemma level_front l it o rest : level_inv sd p l → LobLevel.orders l = (it, o) :: rest →
  level_inv sd p (LobLevel.mk (delete (id o) (LobLevel.orderMap l)) rest (LobLevel.next_node l)) ∧
  ∀ n, 0 < n < 2 ^ 32 →
    level_inv sd p (LobLevel.mk (LobLevel.orderMap l) ((it, with_quantity n o) :: rest) (LobLevel.next_node l)).
Proof.
  intros [Ho Hi Hn Hf Hm] E. unfold orders_of in *. rewrite E in *. rewrite !fmap_cons in *. cbn [fst snd] in *.
  apply Forall_cons in Ho as [(Hp & Hs & Hk) Ho]. apply NoDup_cons in Hi as [Hi1 Hi2].
  pose proof Hn as [Hn1 Hn2]%NoDup_cons. pose proof Hf as [Hf1 Hf2]%Forall_cons. split; [|intros n Hr]; split;
    cbn [LobLevel.orders LobLevel.orderMap LobLevel.next_node orders_of]; unfold orders_of; cbn; try done.
  - intros i it'. rewrite lookup_delete_Some, Hm. split.
    + intros [Hne (x & [[= -> ->]|Hx]%elem_of_cons & <-)]; [done|]. by exists x.
    + intros (x & Hx & <-). split; [|exists x; split; [by right|done]]. intros E'. apply Hi1. rewrite E'.
      apply list_elem_of_fmap_2. by apply (list_elem_of_fmap_2 snd) in Hx.
  - by constructor.
  - by constructor.
  - intros i it'. rewrite Hm. split; intros (x & [[= -> ->]|Hx]%elem_of_cons & <-).
    + exists (with_quantity n o). split; [by left|done].
    + exists x. split; [by right|done].
    + exists o. split; [by left|done].
    + exists x. split; [by right|done].
Qed.

Lemma level_cancel_ok l i : level_inv sd p l → i ∈ id <$> orders_of l →
  ∃ l', LobLevel.cancel i l = Some (true, l') ∧ level_inv sd p l' ∧ orders_of l' = not_id i (orders_of l).
Proof.
  intros [Ho Hi Hn Hf Hm] Hin. apply list_elem_of_fmap in Hin as (o & -> & Hin).
  apply list_elem_of_fmap in Hin as ([it o'] & -> & Hin). cbn [snd] in *.
  assert (LobLevel.orderMap l !! id o' = Some it) as Hl by (apply Hm; by exists o').
  unfold LobLevel.cancel. rewrite Hl, bool_decide_true by by eapply elem_of_nodes. eexists. split; [done|].
  set (k := filter _ _).
  assert (∀ y, y ∈ LobLevel.orders l → y.1 ≠ it ↔ id y.2 ≠ id o') as Hkey.
  { intros [it' y] Hy. cbn. assert (it' = it ↔ id y = id o'); [|tauto]. split; [intros ->|intros E].
    - assert ((it, y) = (it, o')) as [= ->]; [|done]. by eapply (nodup_key fst).
    - assert (LobLevel.orderMap l !! id y = Some it') as Hl' by (apply Hm; by exists y). congruence. }
  assert (k.*2 = not_id (id o') (orders_of l)) as Ek.
  { subst k. unfold not_id, orders_of. clear -Hkey. induction (LobLevel.orders l) as [|y q IH]; [done|].
    rewrite fmap_cons, !filter_cons. specialize (IH ltac:(intros; apply Hkey; by right)).
    specialize (Hkey y ltac:(by left)). do 2 case_decide; try tauto. rewrite fmap_cons. by f_equal. }
  split; [|exact Ek].
  assert (∀ y, y ∈ k → y ∈ LobLevel.orders l ∧ y.1 ≠ it) as Hk by (intros y [? ?]%list_elem_of_filter; done).
  split; unfold orders_of; cbn.
  - rewrite Ek. eapply sub_Forall; [|exact Ho]. apply sublist_filter.
  - rewrite Ek; eapply sublist_NoDup; [exact Hi|apply fmap_sublist, sublist_filter].
  - eapply sublist_NoDup; [exact Hn|apply fmap_sublist, sublist_filter].
  - eapply sub_Forall; [|exact Hf]. apply fmap_sublist, sublist_filter.
  - intros j jt. rewrite lookup_delete_Some, Hm. subst k. setoid_rewrite list_elem_of_filter. cbn. split.
    + intros [Hne (x & Hx & <-)]. exists x. split; [|done]. split; [|done]. by apply (Hkey (jt, x) Hx).
    + intros (x & [Hne Hx] & <-). split; [|by exists x]. by apply not_eq_sym, (Hkey (jt, x) Hx).
Qed.
End level.

(** ** The levels of a side *)

Lemma levels_cons sd p l m : levels_ok sd ((p, l) :: m) ↔
  level_ok sd p l ∧ Forall (λ x, better sd p x.1 = true) m ∧ levels_ok sd m.
Proof.
  split.
  - intros [[Hs Ha]%StronglySorted_inv [Hl Hm]%Forall_cons]. by split_and!.
  - intros (Hl & Ha & [Hs Hm]). split; [by constructor|by constructor].
Qed.

Lemma queue_cons p l m : queue_of ((p, l) :: m) = orders_of l ++ queue_of m.
Proof. done. Qed.

Lemma levels_orders sd m : levels_ok sd m →
  Forall (λ o, side o = sd ∧ order_ok o ∧ ∃ l, (price o, l) ∈ m ∧ o ∈ orders_of l) (queue_of m).
Proof.
  intros [_ Hm]. apply Forall_forall. intros o ([p l] & Ho & Hx)%list_elem_of_bind. cbn [snd] in Ho.
  rewrite Forall_forall in Hm. destruct (Hm _ Hx) as [_ Hl]. cbn [fst snd] in Hl. pose proof (lo_orders _ _ _ Hl) as Hlo.
  rewrite Forall_forall in Hlo. destruct (Hlo o Ho) as (<- & ? & ?). split; [done|]. split; [done|]. by exists l.
Qed.

Lemma level_price sd p l o : level_ok sd p l → o ∈ orders_of l → price o = p.
Proof. intros [_ Hl] Ho. pose proof (lo_orders _ _ _ Hl) as H. rewrite Forall_forall in H. by destruct (H o Ho). Qed.

Lemma level_head sd p l : level_ok sd p l → ∃ o q, orders_of l = o :: q ∧ price o = p.
Proof.
  intros Hl. pose proof (level_price sd p l) as Hp. pose proof Hl as [Hne _]. unfold orders_of in *.
  destruct (LobLevel.orders l) as [|[it o] q]; [done|]. exists o, q.*2. split; [done|]. apply Hp; [done|by left].
Qed.

Lemma behind sd p m o : Forall (λ x, better sd p x.1 = true) m → levels_ok sd m → o ∈ queue_of m →
  better sd p (price o) = true.
Proof.
  intros Ha Hm Ho. apply levels_orders in Hm. rewrite Forall_forall in Hm.
  destruct (Hm o Ho) as (_ & _ & l & Hl & _). rewrite Forall_forall in Ha. exact (Ha _ Hl).
Qed.

(** [queue_of] is sorted, so its head has the best price. *)
Lemma queue_sorted sd m : levels_ok sd m → StronglySorted (λ x y, better sd (price y) (price x) = false) (queue_of m).
Proof.
  induction m as [|[p l] m IH]; [constructor|]. intros (Hl & Ha & Hm)%levels_cons. rewrite queue_cons.
  apply StronglySorted_app. split; [|split; [|by apply IH]].
  - intros x y Hx Hy. rewrite (level_price _ _ _ _ Hl Hx). pose proof (behind _ _ _ _ Ha Hm Hy) as Hb.
    destruct (better sd (price y) p) eqn:E; [|done]. by rewrite <-(better_trans _ _ _ _ Hb E), price_irrefl.
  - assert (Forall (λ o, price o = p) (orders_of l)) as Hp
      by (apply Forall_forall; intros; by eapply level_price).
    clear -Hp. induction Hp as [|x q Hx Hq IH]; constructor; [done|].
    eapply Forall_impl; [exact Hq|]. simpl. intros y ->. rewrite Hx. apply price_irrefl.
Qed.

Lemma head_price sd m : levels_ok sd m → fst <$> head m = price <$> head (queue_of m).
Proof.
  destruct m as [|[p l] m]; [done|]. intros (Hl & _)%levels_cons. rewrite queue_cons.
  destruct (level_head _ _ _ Hl) as (o & q & -> & <-). done.
Qed.

(** *** A new order *)

Lemma rest_in_past o xs q : Forall (λ x, better (side o) (price o) (price x) = false) xs →
  rest_in o (xs ++ q) = xs ++ rest_in o q.
Proof. induction 1 as [|x xs Hx Hxs IH]; [done|]. cbn. by rewrite Hx, IH. Qed.

Lemma rest_in_front o q : (∀ x, head q = Some x → better (side o) (price o) (price x) = true) →
  rest_in o q = o :: q.
Proof. destruct q as [|x q]; [done|]. intros H. cbn. by rewrite (H x). Qed.

Lemma fresh_level o : order_ok o → level_ok (side o) (price o) (LobLevel.add o LobLevel.empty) ∧
  orders_of (LobLevel.add o LobLevel.empty) = [o].
Proof. intros Ho. apply level_add_ok; try done; [apply level_inv_empty|apply not_elem_of_nil]. Qed.

Lemma add_at_keys sd p o m q : Forall (λ x, better sd q x.1 = true) m → better sd q p = true →
  Forall (λ x, better sd q x.1 = true) (add_at sd p o m).
Proof.
  intros Hm Hq. induction Hm as [|[p' l] m Hx Hm IH]; cbn; [by repeat constructor|].
  repeat case_bool; by repeat constructor.
Qed.

Lemma add_at_ok o m : order_ok o → levels_ok (side o) m → id o ∉ id <$> queue_of m →
  levels_ok (side o) (add_at (side o) (price o) o m) ∧
  queue_of (add_at (side o) (price o) o m) = rest_in o (queue_of m).
Proof.
  intros Ho. destruct (fresh_level o Ho) as [Hf Ef]. induction m as [|[p l] m IH]; intros Hm Hid.
  - cbn [add_at]. split; [apply levels_cons; by split_and!|]. rewrite queue_cons, Ef. done.
  - pose proof Hm as (Hl & Ha & Hm')%levels_cons. rewrite queue_cons in Hid |- *. cbn [add_at].
    rewrite fmap_app, not_elem_of_app in Hid. destruct Hid as [Hid1 Hid2].
    destruct (better (side o) (price o) p) eqn:E1; [|destruct (better (side o) p (price o)) eqn:E2].
    + split; [apply levels_cons; split_and!; try done; constructor; [done|]; eapply Forall_impl; [exact Ha|];
        intros x; by apply better_trans|].
      rewrite queue_cons, Ef. symmetry. apply rest_in_front. intros x Hx.
      destruct (level_head _ _ _ Hl) as (y & q & E & <-). rewrite E in Hx. by injection Hx as <-.
    + destruct (IH Hm' Hid2) as [H1 H2]. split; [apply levels_cons; split_and!; [done|by apply add_at_keys|done]|].
      rewrite queue_cons, H2. symmetry. apply rest_in_past, Forall_forall. intros x Hx.
      by rewrite (level_price _ _ _ _ Hl Hx).
    + assert (p = price o) as -> by by eapply better_tie.
      destruct (level_add_ok (side o) (price o) l o) as [H1 H2]; try done; [by destruct Hl|].
      split; [by apply levels_cons|]. rewrite queue_cons, H2, <-app_assoc, rest_in_past.
      * f_equal. symmetry. apply rest_in_front. intros x Hx. eapply behind; [done..|].
        destruct (queue_of m); [done|]. injection Hx as ->. by left.
      * apply Forall_forall. intros x Hx. rewrite (level_price _ _ _ _ Hl Hx). done.
Qed.

(** *** An order that leaves *)

Lemma not_id_none i q : i ∉ id <$> q → not_id i q = q.
Proof. intros Hi. apply filter_all. intros x Hx <-. by apply Hi, list_elem_of_fmap_2. Qed.

Lemma not_id_app i q r : not_id i (q ++ r) = not_id i q ++ not_id i r.
Proof. apply filter_app. Qed.

Lemma find_key sd p m o : levels_ok sd m → o ∈ queue_of m → price o = p →
  ∃ l, find p m = Some l ∧ level_ok sd p l ∧ o ∈ orders_of l.
Proof.
  intros Hm Ho <-. induction m as [|[q l] m IH]; [by apply not_elem_of_nil in Ho|].
  apply levels_cons in Hm as (Hl & Ha & Hm). cbn [find]. rewrite queue_cons in Ho.
  apply elem_of_app in Ho as [Ho|Ho].
  - exists l. rewrite (level_price _ _ _ _ Hl Ho), Z.eqb_refl. done.
  - pose proof (behind _ _ _ _ Ha Hm Ho) as Hb. destruct (Z.eqb_spec q (price o)) as [->|_]; [|by apply IH].
    by rewrite price_irrefl in Hb.
Qed.

(** What [cancel] makes of a side, with the level it leaves. *)
Definition put_level (p : Price) (l : LobLevel.t) (m : Levels) : Levels :=
  if LobLevel.isEmpty l then erase p m else assign p l m.

Lemma erase_none sd p m : Forall (λ x, better sd p x.1 = true) m → erase p m = m.
Proof.
  intros Ha. apply filter_all. intros x Hx E. rewrite Forall_forall in Ha. specialize (Ha x Hx).
  by rewrite E, price_irrefl in Ha.
Qed.

Lemma put_level_keys sd p q l m : Forall (λ x, better sd q x.1 = true) m →
  Forall (λ x, better sd q x.1 = true) (put_level p l m).
Proof.
  intros Hm. unfold put_level. case_bool; [eapply sub_Forall; [apply sublist_filter|done]|].
  clear E. induction Hm as [|[r k] m Hx Hm IH]; cbn; [done|]. case_bool; by constructor.
Qed.

Lemma put_level_cons p l q k m : put_level p l ((q, k) :: m) =
  if q =? p then if LobLevel.isEmpty l then erase p m else (q, l) :: m else (q, k) :: put_level p l m.
Proof.
  unfold put_level, erase. cbn [assign]. rewrite filter_cons. cbn [fst].
  destruct (Z.eqb_spec q p) as [->|]; [rewrite decide_False by naive_solver|rewrite decide_True by done];
    by destruct (LobLevel.isEmpty l).
Qed.

Lemma cancel_level sd i m o : levels_ok sd m → NoDup (id <$> queue_of m) → o ∈ queue_of m → id o = i →
  ∃ l l', find (price o) m = Some l ∧ LobLevel.cancel i l = Some (true, l') ∧
    levels_ok sd (put_level (price o) l' m) ∧ queue_of (put_level (price o) l' m) = not_id i (queue_of m).
Proof.
  intros Hm Hn Ho <-. destruct (find_key sd (price o) m o Hm Ho eq_refl) as (l & Hf & [_ Hl] & Hol).
  destruct (level_cancel_ok sd (price o) l (id o) Hl) as (l' & Hc & Hl' & E); [by apply list_elem_of_fmap_2|].
  exists l, l'. split; [done|]. split; [done|]. clear Hc Ho.
  induction m as [|[p k] m IH]; [done|]. apply levels_cons in Hm as (Hk & Ha & Hm). cbn [find] in Hf.
  rewrite put_level_cons. rewrite queue_cons, not_id_app in *. rewrite fmap_app in Hn.
  apply NoDup_app in Hn as (Hn1 & Hn2 & Hn3). destruct (Z.eqb_spec p (price o)) as [->|Hp].
  - injection Hf as ->. rewrite (not_id_none _ (queue_of m)), <-E by (apply Hn2; by apply list_elem_of_fmap_2).
    destruct (LobLevel.isEmpty l') eqn:Ee; unfold LobLevel.isEmpty in Ee.
    + rewrite (erase_none sd) by done. split; [done|]. unfold orders_of. by destruct (LobLevel.orders l').
    + split; [|by rewrite queue_cons]. apply levels_cons. split; [|done]. split; [|done].
      intros E0. by rewrite E0 in Ee.
  - destruct (IH Hm Hn3 Hf) as [H1 H2]. split; [apply levels_cons; split_and!; [done|by apply put_level_keys|done]|].
    rewrite queue_cons, H2. f_equal. symmetry. apply not_id_none. intros Hi. apply (Hn2 _ Hi).
    assert (o ∈ queue_of m) as Hom; [|by apply list_elem_of_fmap_2].
    clear -Hf Hol. induction m as [|[r u] m IH]; [done|]. cbn [find] in Hf. rewrite queue_cons. apply elem_of_app.
    case_bool; [injection Hf as ->; by left|right; by apply IH].
Qed.

(** *** Matching *)

Lemma pop_front sd p l m it x tl : levels_ok sd ((p, l) :: m) → LobLevel.orders l = (it, x) :: tl →
  let l1 := LobLevel.mk (delete (id x) (LobLevel.orderMap l)) tl (LobLevel.next_node l) in
  let m1 := if LobLevel.isEmpty l1 then m else (p, l1) :: m in
  levels_ok sd m1 ∧ queue_of ((p, l) :: m) = x :: queue_of m1 ∧ resting_count ((p, l) :: m) = S (resting_count m1).
Proof.
  intros (Hl & Ha & Hm)%levels_cons E. cbn zeta. destruct Hl as [_ Hl].
  destruct (level_front sd p l it x tl Hl E) as [H1 _]. rewrite queue_cons. unfold orders_of, resting_count.
  cbn [sum_list_with fst snd]. rewrite E. destruct tl as [|y tl]; cbn; [done|]. split; [|done].
  apply levels_cons. split; [|done]. by split.
Qed.

Lemma fill_none o q : fill o 0 q = (0, q).
Proof. by destruct q. Qed.

(** What the index keeps: the ids of the queue that are not left are gone. *)
Definition keeps (q r : list Order) (i i' : gmap OrderId (Side * Price)) : Prop :=
  ∀ j, i' !! j = if bool_decide (j ∈ id <$> q ∧ j ∉ id <$> r) then None else i !! j.

Lemma keeps_same q r i : id <$> q = id <$> r → keeps q r i i.
Proof. intros E j. rewrite E. rewrite bool_decide_false; [done|]. tauto. Qed.

Lemma keeps_pop x q r i i' : NoDup (id <$> x :: q) → (∀ y, y ∈ id <$> r → y ∈ id <$> q) →
  keeps q r (delete (id x) i) i' → keeps (x :: q) r i i'.
Proof.
  rewrite fmap_cons. intros [Hx Hn]%NoDup_cons Hr H j. rewrite H. destruct (decide (j = id x)) as [->|Hj].
  - rewrite lookup_delete_eq, (bool_decide_true (id x ∈ id <$> x :: q ∧ id x ∉ id <$> r));
      [by case_bool|]. split; [by left|]. auto.
  - rewrite lookup_delete_ne by done. erewrite bool_decide_ext; [done|]. set_solver.
Qed.

Lemma fill_ids o q : ∀ rem y, y ∈ id <$> (fill o rem q).2 → y ∈ id <$> q.
Proof.
  induction q as [|x q IH]; intros rem y; [done|]. cbn [fill]. case_bool; [done|]. case_bool; [done|].
  specialize (IH (rem - Z.min rem (quantity x)) y). destruct (fill o _ q) as [f r]. cbn in *. set_solver.
Qed.

Lemma match_ok o fuel : ∀ m rem filled i, levels_ok (contra (side o)) m → NoDup (id <$> queue_of m) →
  (resting_count m < fuel)%nat → 0 < rem → 0 ≤ filled → filled + rem < 2 ^ 32 →
  let '(f, r) := fill o rem (queue_of m) in
  ∃ m' i', match_loop fuel o rem filled m i = Some (filled + f, m', i') ∧ 0 ≤ f ≤ rem ∧
    levels_ok (contra (side o)) m' ∧ queue_of m' = r ∧ keeps (queue_of m) r i i'.
Proof.
  induction fuel as [|fuel IH]; intros m rem filled i Hm Hn Hfuel Hrem Hfilled Hsmall; [lia|].
  destruct m as [|[p l] m].
  { cbn. exists [], i. rewrite Z.add_0_r. split; [done|]. split; [lia|]. split; [done|]. split; [done|]. by apply keeps_same. }
  pose proof Hm as (Hl & Ha & Hm')%levels_cons. pose proof Hl as [Hne Hli].
  destruct (LobLevel.orders l) as [|[it x] tl] eqn:E; [done|]. clear Hne.
  assert (price x = p ∧ order_ok x) as [Hp Hx].
  { pose proof (lo_orders _ _ _ Hli) as H. unfold orders_of in H. rewrite E in H. apply Forall_cons in H. tauto. }
  destruct (pop_front _ _ _ _ _ _ _ Hm E) as (H1 & H2 & H3). cbn [match_loop].
  unfold LobLevel.peek, LobLevel.modifyFrontQuantity, LobLevel.pop. rewrite E. cbn [mbind option_bind].
  revert H1 H2 H3. set (l1 := LobLevel.mk (delete _ _) tl _). set (m1 := if LobLevel.isEmpty l1 then m else _).
  intros H1 H2 H3. rewrite H2 in *. cbn [fill]. rewrite Hp. destruct (Z.leb_spec rem 0); [lia|]. cbn [orb].
  destruct (crosses o p) eqn:Ec; cbn [negb].
  2:{ exists ((p, l) :: m), i. rewrite Z.add_0_r, H2. split; [done|]. split; [lia|]. split; [done|]. split; [done|].
      by apply keeps_same. }
  unfold order_ok in Hx. destruct (Z.ltb_spec rem (quantity x)) as [Hlt|Hge].
  - rewrite Z.min_l, (proj2 (Z.ltb_lt _ _)) by lia. rewrite !u32_small by (unfold in_u32; lia).
    eexists _, i. split; [done|]. split; [lia|]. destruct (level_front _ p l it x tl Hli E) as [_ Hmod].
    split; [apply levels_cons; split; [|done]; split; [done|apply Hmod; lia]|].
    rewrite queue_cons in *. unfold orders_of in *. rewrite E in H2. cbn in H2 |- *. injection H2 as H2.
    split; [by rewrite H2|]. by apply keeps_same.
  - rewrite Z.min_r, Z.ltb_irrefl by lia.
    assert (NoDup (id <$> queue_of m1)) as Hn1 by (by apply NoDup_cons in Hn as [_ ?]).
    destruct (Z.eqb_spec rem (quantity x)) as [->|Hneq].
    + rewrite Z.sub_diag, fill_none, Z.add_0_r, u32_small by (unfold in_u32; lia).
      exists m1, (delete (id x) i). split; [done|]. split; [lia|]. split; [done|]. split; [done|].
      apply keeps_pop; [done|done|by apply keeps_same].
    + rewrite !u32_small by (unfold in_u32; lia).
      specialize (IH m1 (rem - quantity x) (filled + quantity x) (delete (id x) i) H1 Hn1 ltac:(lia) ltac:(lia)
        ltac:(lia) ltac:(lia)).
      pose proof (fill_ids o (queue_of m1) (rem - quantity x)) as Hids.
      destruct (fill o (rem - quantity x) (queue_of m1)) as [f r].
      destruct IH as (m' & i' & -> & Hf & Hm2 & Hr & Hk). exists m', i'. rewrite <-Z.add_assoc.
      split; [done|]. split; [lia|]. split; [done|]. split; [done|]. by apply keeps_pop.
Qed.

(** ** The book *)

Lemma everyone_sides sd a : everyone a ≡ₚ queue sd a ++ queue (contra sd) a.
Proof. destruct sd; unfold everyone; simpl; [apply Permutation_app_comm|done]. Qed.

Lemma queue_with sd sd' q a : queue sd' (with_queue sd q a) = if decide (sd' = sd) then q else queue sd' a.
Proof. by destruct sd, sd'. Qed.

Lemma levels_of_with sd sd' m b : levels_of sd' (with_levels sd m b) = if decide (sd' = sd) then m else levels_of sd' b.
Proof. by destruct sd, sd'. Qed.

Lemma contra_ne sd : contra sd ≠ sd.
Proof. by destruct sd. Qed.

Lemma lob_contra_twice sd : contra (contra sd) = sd.
Proof. by destruct sd. Qed.

Lemma everyone_with sd q a : everyone (with_queue sd q a) ≡ₚ q ++ queue (contra sd) a.
Proof.
  rewrite (everyone_sides sd), !queue_with, decide_True by done.
  by rewrite decide_False by apply contra_ne.
Qed.

Lemma key_id j sp (q : list Order) : (j, sp) ∈ key <$> q → j ∈ id <$> q.
Proof. intros (x & [= -> ->] & Hx)%list_elem_of_fmap. by apply list_elem_of_fmap_2. Qed.

Lemma id_key j (q : list Order) : j ∈ id <$> q → ∃ sp, (j, sp) ∈ key <$> q.
Proof.
  intros (x & -> & Hx)%list_elem_of_fmap. exists (side x, price x). change (id x, _) with (key x).
  by apply list_elem_of_fmap_2.
Qed.

Lemma key_decides j sp sp' (q : list Order) : NoDup (id <$> q) → (j, sp) ∈ key <$> q → (j, sp') ∈ key <$> q → sp = sp'.
Proof.
  intros Hn (x & [= -> ->] & Hx)%list_elem_of_fmap (y & [= E ->] & Hy)%list_elem_of_fmap.
  by rewrite (nodup_key id q x y).
Qed.

Lemma fill_keys o q : ∀ rem, key <$> (fill o rem q).2 `sublist_of` key <$> q.
Proof.
  induction q as [|x q IH]; intros rem; [done|]. cbn [fill]. case_bool; [done|]. case_bool; [done|].
  specialize (IH (rem - Z.min rem (quantity x))). destruct (fill o _ q) as [f r]. cbn in *. by apply sublist_cons.
Qed.

Lemma ids_of_keys (q r : list Order) : key <$> r `sublist_of` key <$> q → id <$> r `sublist_of` id <$> q.
Proof.
  intros H. apply (fmap_sublist fst) in H. rewrite <-!list_fmap_compose in H. exact H.
Qed.

(** One side loses orders, and the index with it. *)
Lemma rep_shrink b a sd m r i' : Rep b a → levels_ok sd m → queue_of m = r →
  key <$> r `sublist_of` key <$> queue sd a → keeps (queue sd a) r (orderIndex b) i' →
  Rep (with_levels sd m (with_index i' b)) (with_queue sd r a).
Proof.
  intros [Hs Hn Hi] Hm Hr Hsub Hk. pose proof (ids_of_keys _ _ Hsub) as Hids.
  rewrite (everyone_sides sd), fmap_app in Hn. split.
  - intros sd'. rewrite levels_of_with, queue_with. case_decide; [by subst|]. destruct (Hs sd') as [H1 H2].
    by destruct sd'.
  - rewrite everyone_with, fmap_app. eapply sublist_NoDup; [exact Hn|]. by apply sublist_app.
  - intros j sp. rewrite everyone_with, fmap_app, elem_of_app.
    replace (orderIndex (with_levels sd m (with_index i' b))) with i' by (by destruct sd).
    rewrite Hk. specialize (Hi j sp). rewrite (everyone_sides sd), fmap_app, elem_of_app in Hi.
    apply NoDup_app in Hn as (Hn1 & Hn2 & _). case_bool_decide as Hb.
    + destruct Hb as [Hb1 Hb2]. split; [done|]. intros [H|H]; [by apply key_id in H|]. apply key_id in H. by destruct (Hn2 j).
    + rewrite Hi. split; intros [H|H]; [|by right| |by right].
      * left. assert (j ∈ id <$> r) as (sp' & H')%id_key
          by (destruct (decide (j ∈ id <$> r)); [done|]; destruct Hb; split; [by eapply key_id|done]).
        rewrite (key_decides j sp sp' (queue sd a)); [done|done|done|]. by eapply elem_of_sublist.
      * left. by eapply elem_of_sublist.
Qed.

Lemma rest_in_perm o q : rest_in o q ≡ₚ o :: q.
Proof. induction q as [|x q IH]; cbn; [done|]. case_bool; [done|]. rewrite IH. apply Permutation_swap. Qed.

Lemma rep_rest b a o : Rep b a → order_ok o → id o ∉ id <$> everyone a →
  Rep (with_index (<[id o := (side o, price o)]> (orderIndex b))
         (with_levels (side o) (add_at (side o) (price o) o (levels_of (side o) b)) b))
    (with_queue (side o) (rest_in o (queue (side o) a)) a).
Proof.
  intros [Hs Hn Hi] Ho Hid. destruct (Hs (side o)) as [Hm Hq].
  destruct (add_at_ok o (levels_of (side o) b) Ho Hm) as [H1 H2].
  { rewrite Hq. intros H. apply Hid. rewrite (everyone_sides (side o)), fmap_app. apply elem_of_app. by left. }
  assert (everyone (with_queue (side o) (rest_in o (queue (side o) a)) a) ≡ₚ o :: everyone a) as Hp.
  { by rewrite everyone_with, rest_in_perm, (everyone_sides (side o) a). }
  split.
  - intros sd. replace (levels_of sd (with_index _ _)) with
      (levels_of sd (with_levels (side o) (add_at (side o) (price o) o (levels_of (side o) b)) b)) by by destruct sd.
    rewrite levels_of_with, queue_with. case_decide; [subst sd; by rewrite <-Hq|apply Hs].
  - rewrite Hp, fmap_cons. by constructor.
  - intros j sp. rewrite Hp, fmap_cons, elem_of_cons. cbn [orderIndex with_index].
    rewrite lookup_insert_Some, Hi. unfold key at 2. split.
    + intros [[<- <-]|[_ H]]; [by left|by right].
    + intros [[= -> ->]|H]; [by left|]. right. split; [|done]. intros <-. apply Hid. by eapply key_id.
Qed.

Lemma match_rep b a o : Rep b a → order_ok o →
  let '(f, r) := fill o (quantity o) (queue (contra (side o)) a) in
  ∃ b1, match_ o b = Some (f, b1) ∧ 0 ≤ f ≤ quantity o ∧ Rep b1 (with_queue (contra (side o)) r a).
Proof.
  intros HR Ho. pose proof HR as [Hs Hn Hi]. destruct (Hs (contra (side o))) as [Hm Hq].
  assert (NoDup (id <$> queue (contra (side o)) a)) as Hnq.
  { rewrite (everyone_sides (contra (side o))), fmap_app in Hn. by apply NoDup_app in Hn as [? _]. }
  pose proof (match_ok o (S (resting_count (levels_of (contra (side o)) b))) (levels_of (contra (side o)) b)
    (quantity o) 0 (orderIndex b) Hm) as Hx.
  rewrite Hq in Hx. specialize (Hx Hnq ltac:(lia)). unfold order_ok in Ho.
  specialize (Hx ltac:(lia) ltac:(lia) ltac:(lia)). unfold match_.
  pose proof (fill_keys o (queue (contra (side o)) a) (quantity o)) as Hkeys.
  destruct (fill o _ _) as [f r]. destruct Hx as (m' & i' & -> & Hf & Hm' & Hr & Hk). cbn [mbind option_bind].
  eexists. split; [done|]. split; [done|]. by eapply rep_shrink.
Qed.

Lemma add_rep b a o : Rep b a → order_ok o → id o ∉ id <$> everyone a →
  ∃ b', add o b = Some (id o, b') ∧ Rep b' (book_add o a).
Proof.
  intros HR Ho Hid. pose proof (match_rep b a o HR Ho) as Hx. unfold order_ok in Ho. unfold add, book_add.
  pose proof (fill_keys o (queue (contra (side o)) a) (quantity o)) as Hkeys.
  destruct (fill o _ _) as [f r]. destruct Hx as (b1 & -> & Hf & HR1). cbn [mbind option_bind].
  rewrite u32_small by (unfold in_u32; lia). eexists. split; [done|].
  replace (0 <? quantity o - f) with (f <? quantity o) by lia. case_bool; [|done].
  replace (queue (side o) a) with (queue (side o) (with_queue (contra (side o)) r a)) by by destruct (side o).
  apply rep_rest; [done|done|]. rewrite everyone_with, lob_contra_twice. intros H. apply Hid.
  rewrite (everyone_sides (contra (side o))), lob_contra_twice, fmap_app. rewrite fmap_app in H.
  apply elem_of_app in H as [H|H]; apply elem_of_app; [left|by right].
  eapply elem_of_sublist; [exact H|]. by apply ids_of_keys.
Qed.

Lemma not_id_keys i q : key <$> not_id i q `sublist_of` key <$> q.
Proof. apply fmap_sublist, sublist_filter. Qed.

Lemma keeps_delete j q i : j ∈ id <$> q → keeps q (not_id j q) i (delete j i).
Proof.
  intros Hj k. destruct (decide (k = j)) as [->|Hne].
  - rewrite lookup_delete_eq, bool_decide_true; [done|]. split; [done|].
    intros (x & -> & [? _]%list_elem_of_filter)%list_elem_of_fmap. done.
  - rewrite lookup_delete_ne by done. rewrite bool_decide_false; [done|]. intros [(x & -> & Hx)%list_elem_of_fmap H].
    apply H, list_elem_of_fmap_2. by apply list_elem_of_filter.
Qed.

Lemma cancel_rep b a i : Rep b a →
  ∃ b', cancel i b = Some b' ∧ Rep b' (mkBook (not_id i (sells a)) (not_id i (buys a))).
Proof.
  intros HR. pose proof HR as [Hs Hn Hi]. unfold cancel. destruct (orderIndex b !! i) as [[sd p]|] eqn:E.
  - apply Hi in E as (o & [= -> -> ->] & Ho)%list_elem_of_fmap. destruct (Hs (side o)) as [Hm Hq].
    rewrite (everyone_sides (side o)), fmap_app in Hn. apply NoDup_app in Hn as (Hn1 & Hn2 & _).
    assert (o ∈ queue (side o) a) as Hoq.
    { destruct (Hs (contra (side o))) as [Hm' Hq']. rewrite (everyone_sides (side o)) in Ho.
      apply elem_of_app in Ho as [Ho|Ho]; [done|]. rewrite <-Hq' in Ho. apply levels_orders in Hm'.
      rewrite Forall_forall in Hm'. destruct (Hm' o Ho) as [Hc _]. by destruct (side o). }
    rewrite <-Hq in Hn1, Hoq. destruct (cancel_level _ (id o) _ o Hm Hn1 Hoq eq_refl) as (l & l' & Hf & Hc & Hm' & Hr).
    rewrite Hf. cbn [mbind option_bind]. rewrite Hc. cbn [mbind option_bind]. eexists. split; [done|].
    assert (mkBook (not_id (id o) (sells a)) (not_id (id o) (buys a)) =
      with_queue (side o) (not_id (id o) (queue (side o) a)) a) as ->.
    { rewrite <-Hq in Hn2. pose proof (not_id_none (id o) (queue (contra (side o)) a)) as Hnone.
      rewrite Hq in Hn2, Hoq. specialize (Hnone (Hn2 (id o) (list_elem_of_fmap_2 _ _ _ Hoq))).
      destruct (side o); cbn [contra queue with_queue] in Hnone |- *; by rewrite Hnone. }
    assert (∀ sd m idx c, with_index idx (with_levels sd m c) = with_levels sd m (with_index idx c)) as Hcomm
      by by intros []. rewrite Hcomm. rewrite Hq in *.
    eapply rep_shrink; [exact HR|exact Hm'|exact Hr|apply not_id_keys|]. apply keeps_delete.
    by apply list_elem_of_fmap_2.
  - exists b. split; [done|]. assert (i ∉ id <$> everyone a) as Hni.
    { intros (sp & H)%id_key. apply Hi in H. congruence. }
    unfold everyone in Hni. rewrite fmap_app, not_elem_of_app in Hni.
    rewrite !not_id_none by tauto. by destruct a.
Qed.

(** ** Sessions *)

(** No two orders that could trade both rest. *)
Definition uncrossed (a : book) : Prop := ∀ x y, x ∈ sells a → y ∈ buys a → price y < price x.

Definition adds (cs : list Command) : list Order := order <$> filter (λ c, type c = Add) cs.

(** Orders are valid, and have ids of their own. *)
Definition session_ok (cs : list Command) : Prop := Forall order_ok (adds cs) ∧ NoDup (id <$> adds cs).

(** An order that is not filled whole leaves nothing it could have traded with. *)
Lemma fill_stops o q : ∀ rem, StronglySorted (λ x y, better (contra (side o)) (price y) (price x) = false) q →
  Forall order_ok q → (fill o rem q).1 < rem → Forall (λ x, crosses o (price x) = false) (fill o rem q).2.
Proof.
  induction q as [|x q IH]; intros rem; [by constructor|].
  intros [Hs Ha]%StronglySorted_inv [Hx Hq]%Forall_cons. cbn [fill].
  unfold order_ok in Hx. destruct (crosses o (price x)) eqn:Ec; cbn [negb].
  - rewrite orb_false_r. destruct (Z.leb_spec rem 0); [simpl; lia|]. case_bool; [simpl; lia|].
    specialize (IH (rem - Z.min rem (quantity x)) Hs Hq). destruct (fill o _ q) as [f r]. cbn in *.
    intros Hlt. apply IH. lia.
  - rewrite orb_true_r. intros _. cbn. constructor; [done|]. eapply Forall_impl; [exact Ha|]. intros y Hb. simpl in Hb.
    clear -Ec Hb. unfold crosses in *. destruct (side o); simpl in *; lia.
Qed.

Lemma fill_price o q rem x : x ∈ (fill o rem q).2 → ∃ y, y ∈ q ∧ price y = price x.
Proof.
  intros H. pose proof (fill_keys o q rem) as Hk. apply (list_elem_of_fmap_2 key) in H.
  eapply elem_of_sublist in H; [|exact Hk]. apply list_elem_of_fmap in H as (y & E & Hy). exists y.
  split; [done|]. by injection E.
Qed.

Lemma uncrossed_either a : uncrossed a ↔
  ∀ sd x y, x ∈ queue sd a → y ∈ queue (contra sd) a → better sd (price y) (price x) = true.
Proof.
  split.
  - intros H [] x y Hx Hy; cbn in *; [specialize (H y x Hy Hx)|specialize (H x y Hx Hy)]; lia.
  - intros H x y Hx Hy. specialize (H Sell x y Hx Hy). cbn in H. lia.
Qed.

Lemma better_not_crosses o x : better (side o) (price x) (price o) = negb (crosses o (price x)).
Proof. unfold crosses. destruct (side o); simpl; lia. Qed.

Lemma add_uncrossed b a o : Rep b a → uncrossed a → uncrossed (book_add o a).
Proof.
  intros [Hs _ _] HU. rewrite !uncrossed_either in *. destruct (Hs (contra (side o))) as [Hm Hq].
  pose proof (queue_sorted _ _ Hm) as Hsort. rewrite Hq in Hsort. apply levels_orders in Hm. rewrite Hq in Hm.
  pose proof (fill_stops o _ (quantity o) Hsort) as Hstop. pose proof (fill_price o (queue (contra (side o)) a) (quantity o)) as Hpr.
  specialize (Hstop ltac:(eapply Forall_impl; [exact Hm|]; simpl; tauto)). unfold book_add.
  destruct (fill o _ _) as [f r]. cbn [fst snd] in *.
  assert (∀ sd x y, x ∈ queue sd (with_queue (contra (side o)) r a) → y ∈ queue (contra sd) (with_queue (contra (side o)) r a) →
    better sd (price y) (price x) = true) as HU1.
  { intros sd x y. rewrite !queue_with. case_decide as H1; case_decide as H2; intros Hx Hy;
      try (apply Hpr in Hx as (x' & Hx & <-)); try (apply Hpr in Hy as (y' & Hy & <-)); subst; try by apply HU.
    - by apply HU with (sd := contra (side o)); [|rewrite H2].
    - apply HU; [done|]. by rewrite H2. }
  destruct (Z.ltb_spec f (quantity o)) as [Hlt|]; [|done]. specialize (Hstop Hlt). rewrite Forall_forall in Hstop.
  set (a1 := with_queue (contra (side o)) r a) in *.
  assert (queue (contra (side o)) a1 = r) as Er by (unfold a1; by rewrite queue_with, decide_True).
  assert (∀ y, y ∈ queue (contra (side o)) a1 → better (side o) (price y) (price o) = true) as Ho.
  { intros y Hy. rewrite Er in Hy. by rewrite better_not_crosses, Hstop. }
  replace (queue (side o) a) with (queue (side o) a1) by (unfold a1; by destruct (side o)).
  intros sd x y. rewrite !queue_with. case_decide as H1; case_decide as H2; intros Hx Hy.
  - subst sd. by destruct (contra_ne (side o)).
  - subst sd. rewrite rest_in_perm in Hx. apply elem_of_cons in Hx as [->|Hx]; [by apply Ho|by apply HU1].
  - assert (sd = contra (side o)) as -> by by rewrite <-H2, lob_contra_twice.
    rewrite rest_in_perm in Hy. apply elem_of_cons in Hy as [->|Hy].
    + specialize (Ho x Hx). by destruct (side o).
    + apply HU1; [done|]. by rewrite lob_contra_twice.
  - by apply HU1.
Qed.

Lemma adds_cons c cs : adds (c :: cs) = match type c with Add => order c :: adds cs | Cancel => adds cs end.
Proof. unfold adds. rewrite filter_cons. destruct c as [[] o]; done. Qed.

Definition comes (c : Command) : list Order := match type c with Add => [order c] | Cancel => [] end.

Lemma process_step c b a : Rep b a → uncrossed a →
  (type c = Add → order_ok (order c) ∧ id (order c) ∉ id <$> everyone a) →
  ∃ b', process c b = Some b' ∧ Rep b' (book_process c a) ∧ uncrossed (book_process c a) ∧
    ∀ x, x ∈ key <$> everyone (book_process c a) → x ∈ key <$> everyone a ++ comes c.
Proof.
  intros HR HU Hc. unfold process, book_process, comes. destruct (type c).
  - destruct (Hc eq_refl) as [Ho Hid]. destruct (add_rep b a (order c) HR Ho Hid) as (b' & -> & HR').
    exists b'. split; [done|]. split; [done|]. split; [by eapply add_uncrossed|]. clear -Hid. intros x.
    unfold book_add. pose proof (fill_keys (order c) (queue (contra (side (order c))) a) (quantity (order c))) as Hk.
    destruct (fill _ _ _) as [f r]. set (a1 := with_queue (contra (side (order c))) r a).
    assert (x ∈ key <$> everyone a1 → x ∈ key <$> everyone a) as H1.
    { unfold a1. rewrite everyone_with, (everyone_sides (contra (side (order c))) a), !fmap_app, !elem_of_app.
      intros [H|H]; [left|by right]. by eapply elem_of_sublist. }
    rewrite fmap_app, elem_of_app. case_bool; [|by left; apply H1].
    replace (queue (side (order c)) a) with (queue (side (order c)) a1) by (unfold a1; by destruct (side (order c))).
    rewrite everyone_with, rest_in_perm, <-app_comm_cons, <-everyone_sides, fmap_cons, elem_of_cons.
    intros [->|H]; [right; by left|left; by apply H1].
  - destruct (cancel_rep b a (id (order c)) HR) as (b' & -> & HR'). exists b'. split; [done|]. split; [done|]. split.
    + intros x y [_ Hx]%list_elem_of_filter [_ Hy]%list_elem_of_filter. by apply HU.
    + intros x Hx. rewrite app_nil_r. unfold everyone in *. cbn in Hx. rewrite fmap_app in *.
      eapply elem_of_sublist; [exact Hx|]. apply sublist_app; apply fmap_sublist, sublist_filter.
Qed.

Lemma ids_within (q r : list Order) i : (∀ x, x ∈ key <$> q → x ∈ key <$> r) → i ∈ id <$> q → i ∈ id <$> r.
Proof. intros H (sp & Hi)%id_key. apply H in Hi. by eapply key_id. Qed.

(** A session from a book whose ids are not used again. *)
Lemma session_rep cs : ∀ b a, Rep b a → uncrossed a → session_ok cs →
  (∀ i, i ∈ id <$> everyone a → i ∉ id <$> adds cs) →
  ∃ b', process_all cs b = Some b' ∧ Rep b' (book_all cs a) ∧ uncrossed (book_all cs a) ∧
    ∀ x, x ∈ key <$> everyone (book_all cs a) → x ∈ key <$> everyone a ++ adds cs.
Proof.
  induction cs as [|c cs IH]; intros b a HR HU [Ho Hn] Hfresh.
  { exists b. split; [done|]. split; [done|]. split; [done|]. by rewrite app_nil_r. }
  assert (adds (c :: cs) = comes c ++ adds cs) as E by (rewrite adds_cons; unfold comes; by destruct (type c)).
  rewrite E in *. rewrite fmap_app in Hn. destruct (process_step c b a HR HU) as (b1 & Hb & HR1 & HU1 & Hkeys).
  { intros Hc. unfold comes in *. rewrite Hc in *. apply Forall_app in Ho as [[Ho _]%Forall_cons _]. split; [done|].
    intros Hi. apply (Hfresh _ Hi). rewrite fmap_app. apply elem_of_app. left. by left. }
  apply Forall_app in Ho as [_ Ho]. apply NoDup_app in Hn as (Hn1 & Hn2 & Hn3).
  destruct (IH b1 (book_process c a) HR1 HU1 (conj Ho Hn3)) as (b' & Hb' & HR' & HU' & Hkeys').
  - intros i Hi Hi'. apply (ids_within _ _ _ Hkeys) in Hi. rewrite fmap_app in Hi.
    apply elem_of_app in Hi as [Hi|Hi]; [|by apply (Hn2 i)]. apply (Hfresh i Hi). rewrite fmap_app.
    apply elem_of_app. by right.
  - exists b'. cbn [process_all]. rewrite Hb. split; [done|]. split; [done|]. split; [done|]. intros x Hx.
    apply Hkeys' in Hx. specialize (Hkeys x). rewrite !fmap_app, !elem_of_app in *. tauto.
Qed.

Definition nobody : book := mkBook [] [].

Lemma rep_nobody : Rep empty nobody.
Proof.
  split; [intros []; split; try done; split; constructor|constructor|].
  intros i sp. cbn. rewrite lookup_empty. split; [done|]. by intros ?%not_elem_of_nil.
Qed.

Lemma from_empty cs : session_ok cs → ∃ b, process_all cs empty = Some b ∧ Rep b (book_all cs nobody) ∧
  uncrossed (book_all cs nobody) ∧ ∀ x, x ∈ key <$> everyone (book_all cs nobody) → x ∈ key <$> adds cs.
Proof.
  intros Hok. destruct (session_rep cs empty nobody rep_nobody) as (b & ?); [|done| |by exists b].
  - intros x y H. by apply not_elem_of_nil in H.
  - intros i H. by apply not_elem_of_nil in H.
Qed.

Lemma best_of_rep b a : Rep b a →
  getBestAsk b = price <$> head (sells a) ∧ getBestBid b = price <$> head (buys a).
Proof.
  intros [Hs _ _]. destruct (Hs Sell) as [H1 E1], (Hs Buy) as [H2 E2].
  apply head_price in H1, H2. rewrite E1 in H1. rewrite E2 in H2. done.
Qed.

Lemma key_spec (q : list Order) i sp :
  (i, sp) ∈ key <$> q ↔ ∃ o, o ∈ q ∧ id o = i ∧ sp = (side o, price o).
Proof.
  split.
  - intros (o & [= -> ->] & Ho)%list_elem_of_fmap. by exists o.
  - intros (o & Ho & <- & ->). change (id o, _) with (key o). by apply list_elem_of_fmap_2.
Qed.

(** *** The specification and the code *)

Lemma with_quantity_same o : with_quantity (quantity o) o = o.
Proof. by destruct o. Qed.

Lemma process_is_spec c a : (fills_of c a =? 0) || (fills_of c a =? quantity (order c)) = true →
  spec_process c a = book_process c a.
Proof.
  unfold fills_of, spec_process, book_process, spec_add, book_add. destruct (type c); [|done].
  destruct (fill _ _ _) as [f r]. cbn [fst]. intros Hf. case_bool; [|done]. f_equal. f_equal.
  replace f with 0 by lia. by rewrite Z.sub_0_r, with_quantity_same.
Qed.

(** As long as no order is filled in part and rests, the book is the specification's. *)
Lemma book_is_spec cs : ∀ a, none_in_part cs a = true → spec_all cs a = book_all cs a.
Proof.
  unfold spec_all, book_all. induction cs as [|c cs IH]; intros a; [done|]. cbn [none_in_part foldl].
  intros [Hc Hcs]%andb_true_iff. rewrite IH by done. by rewrite (process_is_spec c a Hc).
Qed.

(** *** A partial fill *)

Lemma total_order x q : total (x :: q) = quantity x + total q.
Proof. done. Qed.

Lemma total_rest o q : total (rest_in o q) = quantity o + total q.
Proof. induction q as [|x q IH]; [done|]. cbn [rest_in]. case_bool; rewrite !total_order, ?IH; ring. Qed.

Lemma fill_total o q : ∀ rem, (fill o rem q).1 + total (fill o rem q).2 = total q.
Proof.
  induction q as [|x q IH]; intros rem; [done|]. cbn [fill]. case_bool; [done|].
  case_bool; cbn [fst snd]; rewrite !total_order; [cbn [with_quantity quantity]; ring|].
  specialize (IH (rem - Z.min rem (quantity x))). destruct (fill o _ q) as [f r]. cbn [fst snd] in *. lia.
Qed.

(** An order that is filled in part rests whole. After any session, when a new order
    trades some of its quantity but not all, the other side loses what was traded, and
    the order's own side gains all the order came with: the quantity traded rests a
    second time. *)
Theorem partial_fill_rests_whole cs o b filled b1 : session_ok (cs ++ [mkCommand Add o]) →
  process_all cs empty = Some b → match_ o b = Some (filled, b1) → 0 < filled < quantity o →
  ∃ b2, add o b = Some (id o, b2) ∧
    total (queue_of (levels_of (contra (side o)) b2)) = total (queue_of (levels_of (contra (side o)) b)) - filled ∧
    total (queue_of (levels_of (side o) b2)) = total (queue_of (levels_of (side o) b)) + quantity o.
Proof.
  intros [Ho Hn] Hb Hm Hf. unfold adds in Ho, Hn. rewrite filter_app, fmap_app in Ho, Hn. fold (adds cs) in Ho, Hn.
  cbn in Ho, Hn. rewrite fmap_app in Hn. apply Forall_app in Ho as [Hcs Ho]. apply NoDup_app in Hn as (Hn & Hdis & _).
  destruct (from_empty cs (conj Hcs Hn)) as (b' & Hb' & HR & _ & Hids). rewrite Hb in Hb'. injection Hb' as <-.
  set (a := book_all cs nobody) in *. apply Forall_cons in Ho as [Ho _].
  assert (id o ∉ id <$> everyone a) as Hid by (intros H; apply (Hdis _ (ids_within _ _ _ Hids H)); by left).
  destruct (add_rep b a o HR Ho Hid) as (b2 & Hb2 & [Hs2 _ _]). exists b2. split; [done|].
  pose proof (match_rep b a o HR Ho) as Hmatch.
  destruct (Hs2 (contra (side o))) as [_ ->], (Hs2 (side o)) as [_ ->]. destruct HR as [Hs _ _].
  destruct (Hs (contra (side o))) as [_ ->], (Hs (side o)) as [_ ->]. unfold book_add.
  pose proof (fill_total o (queue (contra (side o)) a) (quantity o)) as Ht.
  destruct (fill _ _ _) as [f r]. destruct Hmatch as (b1' & Hm' & _). rewrite Hm in Hm'. injection Hm' as -> _.
  cbn [fst snd] in Ht. rewrite (proj2 (Z.ltb_lt _ _)) by lia. clear -Ht. revert Ht.
  destruct (side o); cbn [contra queue with_queue sells buys]; rewrite total_rest; lia.
Qed.

Definition sell (i : OrderId) (p : Price) (q : Quantity) : Command := mkCommand Add (mkOrder p 0 q i Sell).

(** The session of the witness: 10 are bought from a sell of 4, and 10 rest. *)
Definition partial_order : Order := mkOrder 100 0 10 1 Buy.

Definition before_partial : t := default empty (process_all [sell 0 100 4] empty).

Lemma partial_fill_rests_whole_witness :
  queue_of (bids (default (0, empty) (add partial_order before_partial)).2) = [partial_order] ∧
  ∃ b2, add partial_order before_partial = Some (1, b2) ∧
    total (queue_of (asks b2)) = 4 - 4 ∧ total (queue_of (bids b2)) = 0 + 10.
Proof.
  split; [vm_compute; reflexivity|].
  apply (partial_fill_rests_whole [sell 0 100 4] partial_order before_partial 4
    (default (0, empty) (match_ partial_order before_partial)).2).
  - split; [repeat constructor; simpl; lia|]. apply (bool_decide_unpack _). vm_compute. exact I.
  - vm_compute. reflexivity.
  - vm_compute. reflexivity.
  - simpl. lia.
Defined.

End LobProps.
