(* ===== verification/LobQueue.v ===== *)
(** * The ring of the stand-alone engine, access by access (Module LobQueue)

    Threads, their views of memory, the accesses of [push] and [pop], the data races
    between them, and what one producer and the consumer can rely on. *)

From S2P Require Import Prelude Ring.

(** * The command queue ([LimitOrderBook/include/spsc_queue.hpp])

    [push] and [pop] are their accesses to what threads share, one step each, so several
    threads can be inside [push] at a time. An atomic object is the history of its
    stores, oldest first, each with the view that its release publishes: a load reads a
    store that is not older than one its thread has seen, and, with [acquire], takes over
    the view. A slot of the buffer is no atomic object: it keeps who wrote it last and
    when, and when it was last read, and an access that is not ordered after the last
    conflicting one is a data race, which is undefined. A store goes to the end of the
    history. *)

Module LobQueue.
Import Ring.

Abbreviation Thread := nat (only parsing).

(** The thread that pops. *)
Definition kConsumer : Thread := 0%nat.

(** How much of each thread's past a thread knows of, in releases. *)
Abbreviation Clock := (gmap Thread nat).

Definition now (c : Clock) (t : Thread) : nat := default 0%nat (c !! t).

Definition join (c d : Clock) : Clock := union_with (λ m n, Some (m `max` n)%nat) c d.

Definition tick (t : Thread) (c : Clock) : Clock := <[t := S (now c t)]> c.
#[global] Arguments tick : simpl never.

(** The stores of the two indices that a thread has seen are those up to a place in their
    histories. *)
Record View := mkView { clock : Clock; head_seen : nat; tail_seen : nat }.

Definition join_view (v w : View) : View :=
  mkView (join (clock v) (clock w)) (head_seen v `max` head_seen w)%nat (tail_seen v `max` tail_seen w)%nat.

Definition tick_view (t : Thread) (v : View) : View := mkView (tick t (clock v)) (head_seen v) (tail_seen v).

(** A thread that knows of what came before the threads only. *)
Definition fresh_view (t : Thread) : View := mkView {[t := 1%nat]} 0 0.

Inductive memory_order := relaxed | acquire.

#[export] Instance memory_order_eq_dec : EqDecision memory_order.
Proof. solve_decision. Defined.

(** [std::atomic<size_t>] *)
Abbreviation Atomic := (list (Z * View)).

Definition initial_index : Atomic := [(0, mkView ∅ 0 0)].

(** Which store a load reads: the one [age] stores ago, if its thread has not seen a later
    one. *)
Definition place (seen age : nat) (a : Atomic) : nat := (seen `max` (length a - 1 - age))%nat.

Definition acquired (o : memory_order) (v w : View) : View :=
  match o with acquire => join_view v w | relaxed => v end.

(** An access: what it makes, a data race, or one to what is not there. *)
Inductive access (A : Type) := Done (x : A) | DataRace | Invalid.
#[global] Arguments Done {A} x.
#[global] Arguments DataRace {A}.
#[global] Arguments Invalid {A}.

Definition then_access {A B} (m : access A) (f : A → access B) : access B :=
  match m with Done x => f x | DataRace => DataRace | Invalid => Invalid end.

Definition checked {A} (m : option A) : access A :=
  match m with Some x => Done x | None => Invalid end.

Section queue.
Context {T : Type} (Capacity : Z).

(** An element of the buffer, with its last write and its last read, which is the
    consumer's. *)
Record Slot := mkSlot { item : T; writer : Thread; written : nat; last_read : nat }.

Record t := mk { buffer : list Slot; head : Atomic; tail : Atomic }.

(** [buffer{}], by whoever makes the queue. *)
Definition make (value : T) : t :=
  mk (replicate (Z.to_nat Capacity) (mkSlot value kConsumer 0 0)) initial_index initial_index.

Definition load_head (o : memory_order) (age : nat) (v : View) (q : t) : access (Z * View) :=
  let i := place (head_seen v) age (head q) in
  then_access (checked (head q !! i)) (λ '(x, w),
    let v := acquired o v w in Done (x, mkView (clock v) (head_seen v `max` i)%nat (tail_seen v))).

Definition load_tail (o : memory_order) (age : nat) (v : View) (q : t) : access (Z * View) :=
  let i := place (tail_seen v) age (tail q) in
  then_access (checked (tail q !! i)) (λ '(x, w),
    let v := acquired o v w in Done (x, mkView (clock v) (head_seen v) (tail_seen v `max` i)%nat)).

(** [store(x, release)] *)
Definition store_head (me : Thread) (x : Z) (v : View) (q : t) : t * View :=
  let v := mkView (clock v) (length (head q)) (tail_seen v) in
  (mk (buffer q) (head q ++ [(x, v)]) (tail q), tick_view me v).

Definition store_tail (me : Thread) (x : Z) (v : View) (q : t) : t * View :=
  let v := mkView (clock v) (head_seen v) (length (tail q)) in
  (mk (buffer q) (head q) (tail q ++ [(x, v)]), tick_view me v).

(** [buffer[i & (Capacity - 1)] = x] *)
Definition write_slot (me : Thread) (i : Z) (x : T) (v : View) (q : t) : access t :=
  let j := Z.land i (Capacity - 1) in
  then_access (checked (vget (buffer q) j)) (λ s,
    if bool_decide (written s ≤ now (clock v) (writer s))%nat && bool_decide (last_read s ≤ now (clock v) kConsumer)%nat
    then Done (mk (vput (buffer q) j (mkSlot x me (now (clock v) me) (last_read s))) (head q) (tail q))
    else DataRace).

(** [std::move(buffer[i & (Capacity - 1)])], by the consumer. *)
Definition read_slot (i : Z) (v : View) (q : t) : access (T * t) :=
  let j := Z.land i (Capacity - 1) in
  then_access (checked (vget (buffer q) j)) (λ s,
    if bool_decide (written s ≤ now (clock v) (writer s))%nat
    then Done (item s, mk (vput (buffer q) j (mkSlot (item s) (writer s) (written s) (now (clock v) kConsumer)))
                         (head q) (tail q))
    else DataRace).

(** ** [push], access by access *)

(** Before which access of [push] a thread is, with what it has read. *)
Inductive Pushing :=
  | AtTail (x : T)
  | AtHead (x : T) (tl : Z)
  | AtSlot (x : T) (tl : Z)
  | AtStore (x : T) (tl : Z).

(** The next access: where it leads, or what [push] returns. *)
Definition push (me : Thread) (age : nat) (p : Pushing) (v : View) (q : t) : access ((Pushing + bool) * View * t) :=
  match p with
  | AtTail x => then_access (load_tail relaxed age v q) (λ '(tl, v), Done (inl (AtHead x tl), v, q))
  | AtHead x tl =>
      then_access (load_head acquire age v q) (λ '(hd, v),
        Done (if u64 (tl - hd) =? Capacity then inr false else inl (AtSlot x tl), v, q))
  | AtSlot x tl => then_access (write_slot me tl x v q) (λ q, Done (inl (AtStore x tl), v, q))
  | AtStore x tl => let '(q, v) := store_tail me (u64 (tl + 1)) v q in Done (inr true, v, q)
  end.

(** ** [pop], access by access *)

Inductive Popping :=
  | LoadHead
  | LoadTail (hd : Z)
  | ReadSlot (hd : Z)
  | StoreHead (hd : Z) (x : T).

(** [tail_order] is the order of the load of [tail]. *)
Definition pop (tail_order : memory_order) (age : nat) (p : Popping) (v : View) (q : t) :
    access ((Popping + option T) * View * t) :=
  match p with
  | LoadHead => then_access (load_head acquire age v q) (λ '(hd, v), Done (inl (LoadTail hd), v, q))
  | LoadTail hd =>
      then_access (load_tail tail_order age v q) (λ '(tl, v),
        Done (if hd =? tl then inr None else inl (ReadSlot hd), v, q))
  | ReadSlot hd => then_access (read_slot hd v q) (λ '(x, q), Done (inl (StoreHead hd x), v, q))
  | StoreHead hd x => let '(q, v) := store_head kConsumer (u64 (hd + 1)) v q in Done (inr (Some x), v, q)
  end.

(** ** One producer and the consumer

    [xs] is what has been pushed, from the first on; [h] of them have been popped, and
    [r] have been read. *)

Context (k : Z) (Hk : 0 ≤ k ≤ 63) (HC : Capacity = 2 ^ k) (p : Thread) (Hp : p ≠ kConsumer) (tail_order : memory_order).

Definition place_of (n : nat) : Z := slot Capacity (Z.of_nat n).

(** Whoever has clock [c] knows that the slots were read last, but for those of the
    elements from [i] on. *)
Definition passed (q : t) (c : Clock) (i r : nat) : Prop :=
  ∀ j s, vget (buffer q) j = Some s →
    (last_read s ≤ now c kConsumer)%nat ∨ ∃ n, (i ≤ n < r)%nat ∧ j = place_of n.

Record Ring (q : t) (pv wv : View) (xs : list T) (h r : nat) : Prop := {
  rg_size : vsize (buffer q) = Capacity;
  rg_heads : length (head q) = S h;
  rg_tails : length (tail q) = S (length xs);
  rg_head : ∀ i x m, head q !! i = Some (x, m) → x = u64 (Z.of_nat i) ∧
    (now (clock m) p ≤ now (clock wv) p ∧ head_seen m ≤ h ∧ tail_seen m ≤ length xs)%nat ∧ passed q (clock m) i r;
  rg_tail : ∀ i x m, tail q !! i = Some (x, m) → x = u64 (Z.of_nat i) ∧
    (head_seen m ≤ h ∧ tail_seen m ≤ length xs)%nat ∧
    ∀ n s, (h ≤ n < i)%nat → vget (buffer q) (place_of n) = Some s → (written s ≤ now (clock m) p)%nat;
  rg_seen : (head_seen wv = h ∧ h ≤ tail_seen wv ≤ length xs ∧ head_seen pv ≤ h ∧ tail_seen pv = length xs)%nat;
  rg_fits : (h ≤ r ≤ S h ∧ r ≤ length xs)%nat ∧ vsize xs ≤ Z.of_nat (head_seen pv) + Capacity;
  rg_items : ∀ n x, (h ≤ n)%nat → xs !! n = Some x →
    ∃ s, vget (buffer q) (place_of n) = Some s ∧ item s = x ∧ writer s = p;
  rg_slots : ∀ j s, vget (buffer q) j = Some s →
    (written s = 0%nat ∨ writer s = p ∧ (written s ≤ now (clock pv) p)%nat) ∧
    (last_read s ≤ now (clock wv) kConsumer)%nat;
}.

(** *** Clocks *)

Lemma now_empty x : now ∅ x = 0%nat.
Proof. unfold now. by rewrite lookup_empty. Qed.

Lemma now_join c d x : now (join c d) x = (now c x `max` now d x)%nat.
Proof.
  unfold now, join. rewrite lookup_union_with.
  destruct (c !! x), (d !! x); simpl; [done|by rewrite Nat.max_0_r|done|done].
Qed.

Lemma now_tick x c y : now (tick x c) y = if decide (x = y) then S (now c x) else now c y.
Proof. unfold now, tick. rewrite lookup_insert. by case_decide. Qed.

Lemma passed_weaken q c c' i i' r r' : passed q c i r → (now c kConsumer ≤ now c' kConsumer)%nat →
  (i' ≤ i)%nat → (r ≤ r')%nat → passed q c' i' r'.
Proof.
  intros Hq Hc Hi Hr j s Hs. destruct (Hq j s Hs) as [Hle|(n & Hn & ->)]; [left; lia|right; exists n; split; [lia|done]].
Qed.

Lemma place_ne n m : (n < m)%nat → Z.of_nat m < Z.of_nat n + Capacity → place_of n ≠ place_of m.
Proof.
  intros Hlt Hc. pose proof (slot_ne Capacity k Hk HC 0 (Z.of_nat n) (Z.of_nat m)) as H.
  rewrite !Z.add_0_l in H. apply H; lia.
Qed.

Lemma place_range n : 0 ≤ place_of n < Capacity.
Proof. apply (slot_range Capacity k Hk HC). Qed.

Lemma masked n : Z.land (u64 (Z.of_nat n)) (Capacity - 1) = place_of n.
Proof. by rewrite (land_slot Capacity k Hk HC), (slot_u64 Capacity k Hk HC). Qed.

(** Indices that are not a capacity apart are told apart by their 64 bits. *)
Lemma used_u64 m n : (n ≤ m)%nat → Z.of_nat m ≤ Z.of_nat n + Capacity →
  u64 (u64 (Z.of_nat m) - u64 (Z.of_nat n)) = Z.of_nat m - Z.of_nat n.
Proof.
  intros Hn Hm. pose proof (capacity_pos Capacity k Hk HC).
  unfold u64. rewrite <-Zminus_mod. apply Z.mod_small. lia.
Qed.

(** *** Views *)

Lemma ring_views q pv wv pv' wv' xs h r : Ring q pv wv xs h r →
  (now (clock pv) p ≤ now (clock pv') p)%nat → (head_seen pv ≤ head_seen pv' ≤ h)%nat → tail_seen pv' = length xs →
  (now (clock wv) p ≤ now (clock wv') p)%nat → (now (clock wv) kConsumer ≤ now (clock wv') kConsumer)%nat →
  head_seen wv' = h → (h ≤ tail_seen wv' ≤ length xs)%nat → Ring q pv' wv' xs h r.
Proof.
  intros [] Hpv Hph Hpt Hwp Hww Hwh Hwt. split; try done; try lia.
  - intros i x m Hi. destruct (rg_head0 i x m Hi) as (-> & (? & ? & ?) & ?). split_and!; try done; lia.
  - intros j s Hs. destruct (rg_slots0 j s Hs) as ([?|[? ?]] & ?); (split; [|lia]); [by left|right; split; [done|lia]].
Qed.

Lemma ring_make value : Ring (make value) (fresh_view p) (fresh_view kConsumer) [] 0 0.
Proof.
  pose proof (capacity_pos Capacity k Hk HC).
  assert (∀ j s, vget (replicate (Z.to_nat Capacity) (mkSlot value kConsumer 0 0)) j = Some s →
    s = mkSlot value kConsumer 0 0) as Hslot.
  { intros j s [_ Hj]%vget_Some. by apply lookup_replicate in Hj as [-> _]. }
  split; cbn [make buffer head tail]; try done.
  - unfold vsize. rewrite length_replicate. lia.
  - intros i x m Hi. apply list_lookup_singleton_Some in Hi as [-> [= <- <-]]. split; [done|].
    split; [cbn [clock head_seen tail_seen]; rewrite now_empty; cbn; lia|].
    intros j s ->%Hslot. left. cbn. lia.
  - intros i x m Hi. apply list_lookup_singleton_Some in Hi as [-> [= <- <-]]. split; [done|]. split; [cbn; lia|].
    intros n s Hn. lia.
  - split; [cbn; lia|]. change (0 ≤ Z.of_nat 0 + Capacity). lia.
  - intros j s ->%Hslot. split; [by left|cbn; lia].
Qed.

(** *** Loads *)

Lemma load_tail_pushing q pv wv xs h r age : Ring q pv wv xs h r →
  load_tail relaxed age pv q = Done (u64 (vsize xs), pv).
Proof.
  intros HR. destruct HR as [_ _ Ht _ Htail (_ & _ & _ & Hseen) _ _ _]. unfold load_tail, place.
  rewrite Ht, Hseen. replace (length xs `max` (S (length xs) - 1 - age))%nat with (length xs) by lia.
  destruct (lookup_lt_is_Some_2 (tail q) (length xs)) as [[x m] Hx]; [lia|]. rewrite Hx. cbn.
  destruct (Htail _ _ _ Hx) as (-> & _). destruct pv as [c hs ts]. cbn in *. subst ts. by rewrite Nat.max_id.
Qed.

(** Whatever store the load of [head] reads, the producer knows of what was read before. *)
Lemma load_head_pushing q pv wv xs h r age : Ring q pv wv xs h r →
  ∃ i v, load_head acquire age pv q = Done (u64 (Z.of_nat i), v) ∧ (head_seen pv ≤ i ≤ head_seen v)%nat ∧ passed q (clock v) i r ∧
    Ring q v wv xs h r ∧ (now (clock pv) p ≤ now (clock v) p)%nat.
Proof.
  intros HR. pose proof HR as [_ Hh _ Hhead _ (H1 & H2 & H3 & H4) _ _ _]. unfold load_head, place. rewrite Hh.
  assert (head_seen pv ≤ head_seen pv `max` (S h - 1 - age) ≤ h)%nat as Hi by lia.
  set (i := (head_seen pv `max` (S h - 1 - age))%nat) in *.
  destruct (lookup_lt_is_Some_2 (head q) i) as [[x m] Hx]; [lia|]. rewrite Hx. cbn.
  destruct (Hhead _ _ _ Hx) as (-> & (Hm1 & Hm2 & Hm3) & Hpass). exists i. eexists. split; [done|]. cbn.
  split; [lia|]. split; [|split]; [| |rewrite now_join; lia].
  - eapply passed_weaken; [exact Hpass| |lia|lia]. rewrite now_join. lia.
  - eapply ring_views; [exact HR|..]; cbn; rewrite ?now_join; lia.
Qed.


Lemma load_head_popping q pv wv xs h r age : Ring q pv wv xs h r →
  ∃ v, load_head acquire age wv q = Done (u64 (Z.of_nat h), v) ∧ Ring q pv v xs h r ∧
    now (clock v) p = now (clock wv) p.
Proof.
  intros HR. pose proof HR as [_ Hh _ Hhead _ (H1 & H2 & H3 & H4) _ _ _]. unfold load_head, place. rewrite Hh, H1.
  replace (h `max` (S h - 1 - age))%nat with h by lia.
  destruct (lookup_lt_is_Some_2 (head q) h) as [[x m] Hx]; [lia|]. rewrite Hx. cbn.
  destruct (Hhead _ _ _ Hx) as (-> & (Hm1 & Hm2 & Hm3) & _). eexists. split; [done|]. cbn. rewrite now_join. split; [|lia].
  eapply ring_views; [exact HR|..]; cbn; rewrite ?now_join; lia.
Qed.

(** The load of [tail] finds what has been pushed up to some element; with [acquire], the
    consumer then knows of those writes. *)
Lemma load_tail_popping q pv wv xs h r age : Ring q pv wv xs h r →
  ∃ i v, load_tail tail_order age wv q = Done (u64 (Z.of_nat i), v) ∧ (h ≤ i ≤ length xs)%nat ∧ Ring q pv v xs h r ∧
    (i ≤ tail_seen v)%nat ∧
    match tail_order with
    | relaxed => now (clock v) p = now (clock wv) p
    | acquire => ∃ x m, tail q !! i = Some (x, m) ∧ (now (clock m) p ≤ now (clock v) p)%nat
    end.
Proof.
  intros HR. pose proof HR as [_ _ Ht _ Htail (H1 & H2 & H3 & H4) _ _ _]. unfold load_tail, place. rewrite Ht.
  assert (h ≤ tail_seen wv `max` (S (length xs) - 1 - age) ≤ length xs)%nat as Hi by lia.
  set (i := (tail_seen wv `max` (S (length xs) - 1 - age))%nat) in *.
  destruct (lookup_lt_is_Some_2 (tail q) i) as [[x m] Hx]; [lia|]. rewrite Hx. cbn.
  destruct (Htail _ _ _ Hx) as (-> & (Hm1 & Hm2) & _). exists i. eexists. split; [done|]. split; [done|].
  destruct tail_order; cbn; rewrite ?now_join.
  - split; [|split; [lia|done]]. eapply ring_views; [exact HR|..]; cbn; lia.
  - split; [|split; [lia|eexists _, m; split; [done|lia]]].
    eapply ring_views; [exact HR|..]; cbn; rewrite ?now_join; lia.
Qed.

(** *** The buffer *)

Lemma slot_there q pv wv xs h r n : Ring q pv wv xs h r → ∃ s, vget (buffer q) (place_of n) = Some s.
Proof. intros HR. apply vget_is_Some. rewrite (rg_size _ _ _ _ _ _ HR). apply place_range. Qed.

(** Where there is room, the producer's write is ordered after the last read of the slot. *)
Lemma write_ok q pv wv xs h r i x : Ring q pv wv xs h r → (i ≤ head_seen pv)%nat → vsize xs < Z.of_nat i + Capacity →
  passed q (clock pv) i r →
  ∃ q' s, write_slot p (u64 (vsize xs)) x pv q = Done q' ∧ Ring q' pv wv xs h r ∧ tail q' = tail q ∧
    vget (buffer q') (place_of (length xs)) = Some s ∧ item s = x ∧ writer s = p ∧ written s = now (clock pv) p ∧
    ∀ n, (h ≤ n < length xs)%nat → vget (buffer q') (place_of n) = vget (buffer q) (place_of n).
Proof.
  intros HR Hi Hroom Hpass. unfold write_slot, vsize in *. rewrite masked. set (j := place_of (length xs)).
  destruct (slot_there _ _ _ _ _ _ (length xs) HR) as [s Hs]. fold j in Hs. rewrite Hs. cbn.
  pose proof HR as [Hsize Hh Ht Hhead Htail Hseen [Hfits _] Hitems Hslots]. destruct (Hslots j s Hs) as [Hw Hr].
  assert (0 ≤ j < vsize (buffer q)) as Hj by (rewrite Hsize; apply place_range).
  assert (∀ n, (i ≤ n < length xs)%nat → place_of n ≠ j) as Hne by (intros n Hn; apply place_ne; lia).
  rewrite (bool_decide_true (written s ≤ _)%nat) by (destruct Hw as [->|[-> ?]]; lia).
  rewrite (bool_decide_true (last_read s ≤ _)%nat).
  2:{ destruct (Hpass j s Hs) as [Hle|(n & Hn & E)]; [done|]. destruct (Hne n); [lia|done]. }
  cbn. set (s' := mkSlot x p _ _). set (q' := mk _ _ _).
  assert (∀ j' s0, vget (buffer q') j' = Some s0 → (∃ s1, vget (buffer q) j' = Some s1 ∧ last_read s0 = last_read s1)) as Hold.
  { intros j' s0. unfold q'. cbn [buffer]. rewrite vget_vput by done. case_decide as E; [|by exists s0].
    intros [= <-]. exists s. by rewrite E. }
  assert (∀ c i', passed q c i' r → passed q' c i' r) as Hpassed.
  { intros c i' H j' s0 (s1 & H1 & ->)%Hold. by apply H. }
  assert (∀ n, (h ≤ n < length xs)%nat → vget (buffer q') (place_of n) = vget (buffer q) (place_of n)) as Hkept.
  { intros n Hn. apply vget_vput_ne; [lia|]. apply not_eq_sym, Hne. lia. }
  exists q', s'. split; [done|]. split; [|split_and!; try done; by apply vget_vput_eq].
  split; try done.
  - by unfold q'; cbn; rewrite vsize_vput.
  - intros i' y m Hm. destruct (Hhead i' y m Hm) as (? & ? & ?). split_and!; try tauto. by apply Hpassed.
  - intros i' y m Hm. destruct (Htail i' y m Hm) as (? & ? & Hall). split; [done|]. split; [done|]. intros n s0 Hn.
    apply lookup_lt_Some in Hm. cbn [q' tail] in Hm. rewrite Hkept by lia. by apply Hall.
  - split; [lia|]. unfold vsize. lia.
  - intros n y Hn Hy. rewrite Hkept; [by apply Hitems|]. apply lookup_lt_Some in Hy. lia.
  - intros j' s0 Hs0. pose proof Hs0 as (s1 & Hs1 & E)%Hold. destruct (Hslots _ _ Hs1) as [? ?]. rewrite E. split; [|done].
    revert Hs0. unfold q'. cbn [buffer]. rewrite vget_vput by done. case_decide; [intros [= <-]; by right|].
    intros Hs0. rewrite Hs1 in Hs0. by injection Hs0 as <-.
Qed.

(** The store of [tail] publishes the element written. *)
Lemma store_tail_ok q pv wv xs h r s : Ring q pv wv xs h r → vsize xs < Z.of_nat (head_seen pv) + Capacity →
  vget (buffer q) (place_of (length xs)) = Some s → writer s = p → (written s ≤ now (clock pv) p)%nat →
  let '(q', v) := store_tail p (u64 (u64 (vsize xs) + 1)) pv q in
  Ring q' v wv (xs ++ [item s]) h r ∧ buffer q' = buffer q ∧ (∃ m, tail q' = tail q ++ [m]) ∧
  (now (clock pv) p ≤ now (clock v) p)%nat.
Proof.
  intros HR Hroom Hs Hw Hle. cbn. rewrite now_tick, decide_True by done. unfold vsize in *.
  split; [|split_and!; [done|by eexists|lia]].
  destruct HR as [Hsize Hh Ht Hhead Htail (H1 & H2 & H3 & H4) [Hfits1 Hfits2] Hitems Hslots].
  assert (length (xs ++ [item s]) = S (length xs)) as Hlen by (rewrite length_app; cbn; lia).
  split; cbn [buffer head tail clock tail_seen head_seen tick_view]; unfold vsize; rewrite ?Hlen; try done.
  - rewrite length_app. cbn. lia.
  - intros i x m Hm. destruct (Hhead i x m Hm) as (? & ? & ?). split_and!; try done; lia.
  - intros i x m [Hm|[Hi Hm]]%lookup_app_Some.
    + destruct (Htail i x m Hm) as (? & ? & ?). split_and!; try done; lia.
    + destruct (i - length (tail q))%nat eqn:E; [|done]. injection Hm as <- <-. assert (i = S (length xs)) as -> by lia.
      cbn. rewrite u64_add_idemp_l. split; [f_equal; lia|]. split; [lia|]. intros n s' Hn Hs'.
      destruct (Hslots _ _ Hs') as [[->|[_ ?]] _]; lia.
  - lia.
  - lia.
  - intros n x Hn [Hx|[Hx Hy]]%lookup_app_Some; [by apply Hitems|].
    destruct (n - length xs)%nat eqn:E; [|done]. injection Hy as <-. replace n with (length xs) by lia. by exists s.
  - intros j s' Hs'. destruct (Hslots _ _ Hs') as [[->|[? ?]] ?]; (split; [|done]); [by left|right].
    split; [done|]. rewrite now_tick, decide_True by done. lia.
Qed.

(** The read of a slot is ordered after its write, or races with it. *)
Lemma read_ok q pv wv xs h x : Ring q pv wv xs h h → xs !! h = Some x →
  ∃ s, vget (buffer q) (place_of h) = Some s ∧ writer s = p ∧
    if decide (written s ≤ now (clock wv) p)%nat
    then ∃ q', read_slot (u64 (Z.of_nat h)) wv q = Done (x, q') ∧ Ring q' pv wv xs h (S h) ∧ tail q' = tail q ∧
      (∀ j s', vget (buffer q') j = Some s' → ∃ s, vget (buffer q) j = Some s ∧ item s' = item s ∧
        writer s' = writer s ∧ written s' = written s) ∧
      (∀ c i, passed q c i h → (i ≤ h)%nat → passed q' c i (S h))
    else read_slot (u64 (Z.of_nat h)) wv q = DataRace.
Proof.
  intros HR Hx. pose proof HR as [Hsize Hh Ht Hhead Htail Hseen [Hfits1 Hfits2] Hitems Hslots].
  destruct (Hitems h x (le_n h) Hx) as (s & Hs & <- & Hw). exists s. split; [done|]. split; [done|].
  unfold read_slot. rewrite masked, Hs. cbn. rewrite Hw. destruct (decide _) as [Hle|Hle]; [|by rewrite bool_decide_false].
  rewrite bool_decide_true by done. eexists. split; [done|]. set (q' := mk _ _ _). apply lookup_lt_Some in Hx.
  assert (0 ≤ place_of h < vsize (buffer q)) as Hj by (rewrite Hsize; apply place_range).
  assert (∀ j s0, vget (buffer q') j = Some s0 → ∃ s1, vget (buffer q) j = Some s1 ∧ item s0 = item s1 ∧
    writer s0 = writer s1 ∧ written s0 = written s1 ∧
    last_read s0 = if decide (j = place_of h) then now (clock wv) kConsumer else last_read s1) as Hold.
  { intros j s0. unfold q'. cbn [buffer]. rewrite vget_vput by done. case_decide as E; [|by exists s0].
    intros [= <-]. exists s. by rewrite E. }
  assert (∀ c i, passed q c i h → (i ≤ h)%nat → passed q' c i (S h)) as Hpassed.
  { intros c i H Hi j s0 (s1 & H1 & _ & _ & _ & ->)%Hold. case_decide as E; [right; exists h; split; [lia|done]|].
    destruct (H j s1 H1) as [?|(n & Hn & ->)]; [by left|right; exists n; split; [lia|done]]. }
  split; [|split_and!; [done| |done]].
  2:{ intros j s0 (s1 & H1 & ? & ? & ? & _)%Hold. by exists s1. }
  split; try done.
  - by unfold q'; cbn; rewrite vsize_vput.
  - intros i y m Hm. destruct (Hhead i y m Hm) as (? & ? & ?). split_and!; try tauto. apply Hpassed; [done|].
    apply lookup_lt_Some in Hm. change (head q') with (head q) in Hm. lia.
  - intros i y m Hm. destruct (Htail i y m Hm) as (? & ? & Hall). split; [done|]. split; [done|].
    intros n s0 Hn (s1 & H1 & _ & _ & -> & _)%Hold. by apply (Hall n).
  - split; [lia|done].
  - intros n y Hn Hy. destruct (Hitems n y Hn Hy) as (s1 & H1 & <- & Hw1).
    destruct (vget_is_Some (buffer q') (place_of n)) as [s0 Hs0].
    { unfold q'. cbn. rewrite vsize_vput, Hsize. apply place_range. }
    exists s0. split; [done|]. apply Hold in Hs0 as (s2 & H2 & -> & -> & _). rewrite H1 in H2. by injection H2 as <-.
  - intros j s0 (s1 & H1 & _ & -> & -> & ->)%Hold. destruct (Hslots _ _ H1) as [? ?]. split; [done|]. by case_decide.
Qed.

(** The store of [head] publishes the read. *)
Lemma store_head_ok q pv wv xs h : Ring q pv wv xs h (S h) → (h < tail_seen wv)%nat →
  let '(q', v) := store_head kConsumer (u64 (u64 (Z.of_nat h) + 1)) wv q in
  Ring q' pv v xs (S h) (S h) ∧ buffer q' = buffer q ∧ tail q' = tail q ∧ now (clock v) p = now (clock wv) p.
Proof.
  intros [Hsize Hh Ht Hhead Htail (H1 & H2 & H3 & H4) [Hfits1 Hfits2] Hitems Hslots] Hseen. cbn.
  rewrite now_tick, decide_False by by apply not_eq_sym. split; [|done].
  split; cbn [buffer head tail clock tail_seen head_seen tick_view]; try done.
  - rewrite length_app. cbn. lia.
  - intros i x m [Hm|[Hi Hm]]%lookup_app_Some.
    + destruct (Hhead i x m Hm) as (? & ? & ?). rewrite now_tick, decide_False by by apply not_eq_sym.
      split_and!; try done; lia.
    + destruct (i - length (head q))%nat eqn:E; [|done]. injection Hm as <- <-. assert (i = S h) as -> by lia.
      cbn. rewrite u64_add_idemp_l. split; [f_equal; lia|]. rewrite now_tick, decide_False by by apply not_eq_sym.
      split; [lia|]. intros j s Hs. left. by destruct (Hslots _ _ Hs).
  - intros i x m Hm. destruct (Htail i x m Hm) as (? & ? & Hall). split_and!; try done; try lia.
    intros n s Hn. apply Hall. lia.
  - lia.
  - split; [lia|]. lia.
  - intros n x Hn. apply Hitems. lia.
  - intros j s Hs. destruct (Hslots _ _ Hs) as [? ?]. split; [done|]. rewrite now_tick, decide_True by done. lia.
Qed.

(** *** Threads inside [push] and [pop] *)

Definition value_of (pp : Pushing) : T :=
  match pp with AtTail x | AtHead x _ | AtSlot x _ | AtStore x _ => x end.

(** Since the consumer was started, by the producer at time [base] when [a0] elements had
    been pushed: what a consumer that never acquires the producer's stores knows. *)
Record Since (q : t) (pv wv : View) (xs : list T) (h r base a0 : nat) : Prop := {
  sn_clock : now (clock wv) p = base;
  sn_later : (base < now (clock pv) p)%nat;
  sn_known : (r ≤ a0 ≤ length xs)%nat;
  sn_slots : ∀ n s, (h ≤ n < length xs)%nat → vget (buffer q) (place_of n) = Some s →
    (n < a0)%nat ↔ (written s ≤ base)%nat;
}.

Definition phase_ok (phase : option (nat * nat)) (cp : option Popping) (q : t) (pv wv : View) (xs : list T) (h r : nat) : Prop :=
  match phase with
  | None => cp = None ∧ wv = fresh_view kConsumer ∧ h = 0%nat ∧ r = 0%nat
  | Some (base, a0) => tail_order = relaxed → Since q pv wv xs h r base a0
  end.

Definition after_start (phase : option (nat * nat)) (n : nat) : Prop :=
  match phase with None => True | Some (base, _) => tail_order = relaxed → (base < n)%nat end.

Definition pushing_ok (phase : option (nat * nat)) (pp : option Pushing) (q : t) (pv : View) (xs : list T) (h r : nat) : Prop :=
  match pp with
  | None | Some (AtTail _) => True
  | Some (AtHead _ tl) => tl = u64 (vsize xs)
  | Some (AtSlot _ tl) => tl = u64 (vsize xs) ∧
      ∃ i, (i ≤ head_seen pv)%nat ∧ vsize xs < Z.of_nat i + Capacity ∧ passed q (clock pv) i r
  | Some (AtStore x tl) => tl = u64 (vsize xs) ∧ vsize xs < Z.of_nat (head_seen pv) + Capacity ∧
      ∃ s, vget (buffer q) (place_of (length xs)) = Some s ∧ item s = x ∧ writer s = p ∧
        (written s ≤ now (clock pv) p)%nat ∧ after_start phase (written s)
  end.

Definition popping_ok (cp : option Popping) (q : t) (wv : View) (xs : list T) (h r : nat) : Prop :=
  match cp with
  | None | Some LoadHead => r = h
  | Some (LoadTail hd) => r = h ∧ hd = u64 (Z.of_nat h)
  | Some (ReadSlot hd) => r = h ∧ hd = u64 (Z.of_nat h) ∧ (h < tail_seen wv)%nat ∧
      (tail_order = acquire → ∃ i x m, (h < i)%nat ∧ tail q !! i = Some (x, m) ∧ (now (clock m) p ≤ now (clock wv) p)%nat)
  | Some (StoreHead hd x) => r = S h ∧ hd = u64 (Z.of_nat h) ∧ (h < tail_seen wv)%nat ∧ xs !! h = Some x
  end.

Record Sys (phase : option (nat * nat)) (q : t) (pp : option Pushing) (pv : View) (cp : option Popping) (wv : View)
    (xs : list T) (h r : nat) : Prop := {
  sy_ring : Ring q pv wv xs h r;
  sy_phase : phase_ok phase cp q pv wv xs h r;
  sy_push : pushing_ok phase pp q pv xs h r;
  sy_pop : popping_ok cp q wv xs h r;
}.

Lemma sys_make value : Sys None (make value) None (fresh_view p) None (fresh_view kConsumer) [] 0 0.
Proof. split; [apply ring_make|done..]. Qed.

Lemma sys_begin_push phase q pv cp wv xs h r x : Sys phase q None pv cp wv xs h r →
  Sys phase q (Some (AtTail x)) pv cp wv xs h r.
Proof. by intros []; split. Qed.

Lemma sys_begin_pop base a0 q pp pv wv xs h r : Sys (Some (base, a0)) q pp pv None wv xs h r →
  Sys (Some (base, a0)) q pp pv (Some LoadHead) wv xs h r.
Proof. by intros []; split. Qed.

(** The consumer's thread is started by the producer's. *)
Lemma sys_start q pv wv xs h r : Sys None q None pv None wv xs h r →
  Sys (Some (now (clock pv) p, length xs)) q None (tick_view p pv) None (join_view wv pv) xs h r.
Proof.
  intros [HR (_ & -> & -> & ->) _ _]. pose proof HR as [_ _ _ _ _ (H1 & H2 & H3 & H4) _ _ Hslots].
  assert (now (clock (fresh_view kConsumer)) p = 0)%nat as H0.
  { unfold now, fresh_view. cbn [clock]. by rewrite lookup_singleton_ne by by apply not_eq_sym. }
  split; [|intros _|done|done].
  - eapply ring_views; [exact HR|..]; cbn [tick_view join_view clock head_seen tail_seen fresh_view];
      rewrite ?now_join, ?now_tick, ?decide_True by done; cbn; lia.
  - split; cbn [tick_view join_view clock].
    + rewrite now_join, H0. lia.
    + rewrite now_tick, decide_True by done. lia.
    + lia.
    + intros n s Hn Hs. destruct (Hslots _ _ Hs) as [[->|[_ ?]] _]; lia.
Qed.

(** *** The producer's steps *)

Lemma after_start_now phase cp q pv wv xs h r : phase_ok phase cp q pv wv xs h r → after_start phase (now (clock pv) p).
Proof. destruct phase as [[base a0]|]; [|done]. intros H Ho. apply (H Ho). Qed.

Lemma popping_more cp q wv xs h r q' ms ys : popping_ok cp q wv xs h r → tail q' = tail q ++ ms →
  popping_ok cp q' wv (xs ++ ys) h r.
Proof.
  intros H Ht. destruct cp as [[|hd|hd|hd x]|]; try done; cbn in *.
  - destruct H as (? & ? & ? & Hi). split_and!; try done. intros (i & x & m & ? & Hm & ?)%Hi. exists i, x, m.
    split; [done|]. split; [|done]. rewrite Ht. by apply lookup_app_l_Some.
  - destruct H as (? & ? & ? & ?). split_and!; try done. by apply lookup_app_l_Some.
Qed.

Lemma phase_views phase cp q pv pv' wv xs h r q' : phase_ok phase cp q pv wv xs h r →
  (now (clock pv) p ≤ now (clock pv') p)%nat →
  (∀ n, (h ≤ n < length xs)%nat → vget (buffer q') (place_of n) = vget (buffer q) (place_of n)) →
  phase_ok phase cp q' pv' wv xs h r.
Proof.
  destruct phase as [[base a0]|]; [|done]. intros H Hle Hq Ho. destruct (H Ho) as [H1 H2 H3 H4].
  split; [done|lia|done|]. intros n s Hn. rewrite Hq by done. by apply H4.
Qed.

Lemma push_step phase q pp pv cp wv xs h r age : Sys phase q (Some pp) pv cp wv xs h r →
  ∃ res v q', push p age pp pv q = Done (res, v, q') ∧
    match res with
    | inl pp' => value_of pp' = value_of pp ∧ Sys phase q' (Some pp') v cp wv xs h r
    | inr ok => Sys phase q' None v cp wv (if ok then xs ++ [value_of pp] else xs) h r
    end.
Proof.
  intros [HR Hph Hpu Hpo]. destruct pp as [x|x tl|x tl|x tl]; cbn [push].
  - rewrite (load_tail_pushing _ _ _ _ _ _ age HR). eexists _, _, _. split; [done|]. by split.
  - destruct (load_head_pushing _ _ _ _ _ _ age HR) as (i & v & -> & Hi & Hpass & HR' & Hv). cbn [then_access].
    cbn in Hpu. subst tl.
    destruct (rg_fits _ _ _ _ _ _ HR) as [[Hr1 Hr2] Hfits]. pose proof (rg_seen _ _ _ _ _ _ HR') as Hseen.
    unfold vsize in *. rewrite used_u64 by lia.
    assert (phase_ok phase cp q v wv xs h r) as Hph' by by eapply phase_views.
    case_bool; (eexists _, _, _; split; [done|]); [by split|]. split; [done|]. split; try done.
    split; [done|]. exists i. split; [lia|]. split; [|done].
    unfold vsize. lia.
  - destruct Hpu as (-> & i & Hi & Hroom & Hpass).
    destruct (write_ok _ _ _ _ _ _ i x HR Hi Hroom Hpass) as (q' & s & -> & HR' & Ht & Hs & Hx & Hw & Hn & Hkept).
    cbn [then_access]. eexists _, _, _. split; [done|]. split; [done|]. split; [done|by eapply phase_views| |].
    + split; [done|]. split; [lia|]. exists s. split_and!; try done; [lia|]. rewrite Hn. by eapply after_start_now.
    + rewrite <-(app_nil_r xs). eapply (popping_more _ q _ _ _ _ _ []); [done|]. by rewrite app_nil_r.
  - destruct Hpu as (-> & Hroom & s & Hs & <- & Hw & Hle & Hafter).
    pose proof (store_tail_ok _ _ _ _ _ _ s HR Hroom Hs Hw Hle) as H.
    destruct (store_tail _ _ _ _) as [q' v]. destruct H as (HR' & Hb & [m Ht] & Hv).
    eexists _, _, _. split; [done|]. cbn [value_of]. split; [done| |done|by eapply popping_more].
    destruct phase as [[base a0]|]; [|done]. intros Ho. destruct (Hph Ho) as [H1 H2 H3 H4].
    specialize (Hafter Ho). split; [done|lia|rewrite length_app; cbn; lia|].
    intros n s'. rewrite length_app, Hb. cbn. intros Hn Hs'.
    destruct (decide (n = length xs)) as [->|Hne]; [|apply H4; [lia|done]].
    rewrite Hs in Hs'. injection Hs' as <-. lia.
Qed.

(** *** The consumer's steps *)

Lemma pushing_reads phase pp q q' pv xs h r h' r' : pushing_ok phase pp q pv xs h r →
  (∀ j s, vget (buffer q) j = Some s → ∃ s', vget (buffer q') j = Some s' ∧ item s' = item s ∧
    writer s' = writer s ∧ written s' = written s) →
  (∀ c i, (i ≤ head_seen pv)%nat → passed q c i r → passed q' c i r') → pushing_ok phase pp q' pv xs h' r'.
Proof.
  intros H Hq Hpass. destruct pp as [[x|x tl|x tl|x tl]|]; try done; cbn in *.
  - destruct H as (? & i & ? & ? & ?). split; [done|]. exists i. split_and!; try done. by apply Hpass.
  - destruct H as (? & ? & s & Hs & <- & <- & ? & ?). destruct (Hq _ _ Hs) as (s' & ? & ? & ? & E).
    split; [done|]. split; [done|]. exists s'. by rewrite E.
Qed.

Lemma phase_reads phase cp cp' q q' pv wv wv' xs h r h' r' : phase_ok phase cp q pv wv xs h r → cp ≠ None →
  (tail_order = relaxed → now (clock wv') p = now (clock wv) p) → (h ≤ h')%nat →
  (∀ base a0, tail_order = relaxed → Since q pv wv xs h r base a0 → (r' ≤ a0)%nat) →
  (∀ j s', vget (buffer q') j = Some s' → ∃ s, vget (buffer q) j = Some s ∧ written s' = written s) →
  phase_ok phase cp' q' pv wv' xs h' r'.
Proof.
  intros H Hcp Hwv Hh Hr Hq. destruct phase as [[base a0]|]; [|by destruct H as [-> _]].
  intros Ho. pose proof (H Ho) as HS. specialize (Hr base a0 Ho HS). destruct HS as [H1 H2 H3 H4].
  split; [by rewrite Hwv|done|lia|]. intros n s' Hn Hs'. destruct (Hq _ _ Hs') as (s & Hs & ->). apply H4; [lia|done].
Qed.

Lemma pop_step phase q pp pv cp wv xs h r age : Sys phase q pp pv (Some cp) wv xs h r →
  match pop tail_order age cp wv q with
  | Done (inl cp', v, q') => ∃ r', Sys phase q' pp pv (Some cp') v xs h r'
  | Done (inr None, v, q') => Sys phase q' pp pv None v xs h r
  | Done (inr (Some x), v, q') => xs !! h = Some x ∧ Sys phase q' pp pv None v xs (S h) (S h)
  | DataRace => tail_order = relaxed ∧ (h < length xs)%nat ∧ ∃ base, phase = Some (base, h)
  | Invalid => False
  end.
Proof.
  intros [HR Hph Hpu Hpo]. destruct cp as [|hd|hd|hd x]; cbn [pop].
  - destruct (load_head_popping _ _ _ _ _ _ age HR) as (v & -> & HR' & Hv). cbn [then_access].
    exists r. split; [done| |done|by split].
    eapply phase_reads; [exact Hph|done..| |]; [by intros base a0 _ [_ _ [] _]|by intros j s; exists s].
  - destruct Hpo as [-> ->]. destruct (load_tail_popping _ _ _ _ _ _ age HR) as (i & v & -> & Hi & HR' & Hseen & Hv).
    cbn [then_access].
    assert (∀ cp', phase_ok phase cp' q pv v xs h h) as Hph'.
    { intros cp'. eapply phase_reads; [exact Hph|done| |done| |]; [by intros ->|by intros base a0 _ [_ _ [] _]|].
      by intros j s; exists s. }
    destruct (Z.eqb_spec (u64 (Z.of_nat h)) (u64 (Z.of_nat i))) as [E|E]; [by split|]. exists h. split; try done.
    assert (h ≠ i) by by intros ->. split_and!; try done; [lia|]. intros Ho. rewrite Ho in Hv.
    destruct Hv as (x & m & ? & ?). exists i, x, m. split; [lia|done].
  - destruct Hpo as (-> & -> & Hseen & Hi). pose proof (rg_seen _ _ _ _ _ _ HR) as Hs4.
    destruct (lookup_lt_is_Some_2 xs h) as [x Hx]; [lia|].
    destruct (read_ok _ _ _ _ _ _ HR Hx) as (s & Hs & Hw & H).
    destruct (decide _) as [Hle|Hle].
    + destruct H as (q' & -> & HR' & Ht & Hold & Hpass). cbn [then_access]. exists (S h). split; [done| | |by split].
      * eapply phase_reads; [exact Hph|done|done|done| |].
        -- intros base a0 _ [H1 _ H3 H4]. rewrite H1 in Hle. apply (H4 h s) in Hle; [lia|lia|done].
        -- intros j s' Hs'. destruct (Hold j s' Hs') as (s1 & ? & _ & _ & ?). by exists s1.
      * eapply pushing_reads; [exact Hpu| |intros c i Hle' Hp'; apply Hpass; [done|lia]].
        intros j s1 Hs1. destruct (vget_is_Some (buffer q') j) as [s2 Hs2].
        { rewrite (rg_size _ _ _ _ _ _ HR'), <-(rg_size _ _ _ _ _ _ HR). by apply vget_lt in Hs1. }
        exists s2. split; [done|]. destruct (Hold _ _ Hs2) as (s3 & Hs3 & ?). rewrite Hs1 in Hs3. by injection Hs3 as <-.
    + rewrite H. cbn [then_access]. destruct tail_order eqn:Ho.
      * split; [done|]. split; [lia|]. destruct phase as [[base a0]|]; [|by destruct Hph]. exists base.
        destruct (Hph Ho) as [H1 _ H3 H4]. specialize (H4 h s ltac:(lia) Hs). rewrite H1 in Hle.
        do 2 f_equal. lia.
      * destruct (Hi eq_refl) as (i & y & m & Hlt & Hm & Hnow). destruct Hle.
        destruct (rg_tail _ _ _ _ _ _ HR _ _ _ Hm) as (_ & _ & Hall). specialize (Hall h s ltac:(lia) Hs). lia.
  - destruct Hpo as (-> & -> & Hseen & Hx). pose proof (store_head_ok _ _ _ _ _ HR Hseen) as H.
    destruct (store_head _ _ _ _) as [q' v]. destruct H as (HR' & Hb & Ht & Hv). split; [done|]. split; [done| | |done].
    + eapply phase_reads; [exact Hph|done|done|lia| |]; [by intros base a0 _ [_ _ [] _]|].
      rewrite Hb. by intros j s; exists s.
    + eapply pushing_reads; [exact Hpu| |]; unfold passed; rewrite Hb; [|done]. intros j s Hs. by exists s.
Qed.
End queue.
#[global] Arguments t : clear implicits.
#[global] Arguments Pushing : clear implicits.
#[global] Arguments Popping : clear implicits.
End LobQueue.
