(* ===== verification/LobEngine.v ===== *)
(** * The stand-alone engine: its clients and its worker (Module LobEngine), and what it serves
    (Module LobEngineProps) *)

From stdpp Require Import sorting.
From S2P Require Import Prelude Ring LobBook LobQueue.

(** * The stand-alone engine ([LimitOrderBook/src/matching_engine.cpp])

    Any number of clients that submit and cancel, and a worker that pops, matches and
    publishes the best prices. A step is one access of one thread to what they share,
    with what the thread does by itself until the next; which store a load of the ring's
    indices reads is the schedule's. A data race ends a run. [running], the published
    prices and the counter of ids are single atomic objects that no other access depends
    on: their last store is their value. *)

Module LobEngine.
Import Lob.

Definition kQueueCapacity : Z := 4096.

(** The order of the load of [tail] in [pop]. *)
Definition kTailOrder : LobQueue.memory_order := LobQueue.relaxed.

(** Where the worker is: no thread yet, before [running = true], before the [while]
    condition, inside [pop], before each of the two stores of the prices it has read from
    the book, or done. *)
Inductive Worker :=
  | NotStarted
  | Started
  | Looping
  | Popping (pp : LobQueue.Popping Command)
  | PublishAsk (bestAsk bestBid : option Price)
  | PublishBid (bestBid : option Price)
  | Exited.

(** A thread that calls [submit] and [cancel]: inside [push], if it is, and its view. *)
Record Client := mkClient { pushing : option (LobQueue.Pushing Command); view : LobQueue.View }.

(** [issued_], [accepted_], [handled_] and [before_start_] are no variables of the
    program's: the commands that reached [push], those the queue took, those the book was
    changed by, and those the queue had taken when the worker was started. *)
Record t := mk {
  running : bool;
  publishedBestAsk : Price;
  publishedBestBid : Price;
  queue : LobQueue.t Command;
  orderBook : LobBook.t;
  nextId : OrderId;
  clients : gmap nat Client;
  worker : Worker;
  worker_view : LobQueue.View;
  issued_ : list Command;
  accepted_ : list Command;
  handled_ : list Command;
  before_start_ : list Command;
}.

(** [Command{}] *)
Definition no_command : Command := mkCommand Add (mkOrder 0 0 0 0 Buy).

Definition start : t :=
  mk false 0 0 (LobQueue.make kQueueCapacity no_command) LobBook.empty 0 ∅ NotStarted
    (LobQueue.fresh_view LobQueue.kConsumer) [] [] [] [].

(** The threads of clients come after the worker's. *)
Definition thread_of (i : nat) : LobQueue.Thread := S i.

Definition client (i : nat) (e : t) : Client :=
  default (mkClient None (LobQueue.fresh_view (thread_of i))) (clients e !! i).

Definition with_client (i : nat) (c : Client) (e : t) : t :=
  mk (running e) (publishedBestAsk e) (publishedBestBid e) (queue e) (orderBook e) (nextId e) (<[i := c]> (clients e))
    (worker e) (worker_view e) (issued_ e) (accepted_ e) (handled_ e) (before_start_ e).

Definition with_queue (q : LobQueue.t Command) (e : t) : t :=
  mk (running e) (publishedBestAsk e) (publishedBestBid e) q (orderBook e) (nextId e) (clients e)
    (worker e) (worker_view e) (issued_ e) (accepted_ e) (handled_ e) (before_start_ e).

Definition with_commands (issued accepted : list Command) (e : t) : t :=
  mk (running e) (publishedBestAsk e) (publishedBestBid e) (queue e) (orderBook e) (nextId e) (clients e)
    (worker e) (worker_view e) issued accepted (handled_ e) (before_start_ e).

Definition with_running (b : bool) (e : t) : t :=
  mk b (publishedBestAsk e) (publishedBestBid e) (queue e) (orderBook e) (nextId e) (clients e)
    (worker e) (worker_view e) (issued_ e) (accepted_ e) (handled_ e) (before_start_ e).

Definition with_published (ask bid : Price) (e : t) : t :=
  mk (running e) ask bid (queue e) (orderBook e) (nextId e) (clients e)
    (worker e) (worker_view e) (issued_ e) (accepted_ e) (handled_ e) (before_start_ e).

Definition at_worker (w : Worker) (e : t) : t :=
  mk (running e) (publishedBestAsk e) (publishedBestBid e) (queue e) (orderBook e) (nextId e) (clients e)
    w (worker_view e) (issued_ e) (accepted_ e) (handled_ e) (before_start_ e).

Definition with_worker_view (v : LobQueue.View) (e : t) : t :=
  mk (running e) (publishedBestAsk e) (publishedBestBid e) (queue e) (orderBook e) (nextId e) (clients e)
    (worker e) v (issued_ e) (accepted_ e) (handled_ e) (before_start_ e).

(** ** Clients *)

Definition isValid (o : Order) : bool := (0 <? price o) && (0 <? quantity o).

(** [generateId]: [fetch_add] of a 32-bit counter. *)
Definition generateId (e : t) : OrderId * t :=
  (nextId e, mk (running e) (publishedBestAsk e) (publishedBestBid e) (queue e) (orderBook e) (u32 (nextId e + 1))
     (clients e) (worker e) (worker_view e) (issued_ e) (accepted_ e) (handled_ e) (before_start_ e)).

(** The call of [queue.push]. *)
Definition push_command (i : nat) (c : Command) (e : t) : t :=
  with_commands (issued_ e ++ [c]) (accepted_ e)
    (with_client i (mkClient (Some (LobQueue.AtTail c)) (view (client i e))) e).

(** [now] is what [getTimestamp] reads. *)
Definition submit (i : nat) (now : Timestamp) (p : Price) (q : Quantity) (sd : Side) (e : t) : t :=
  let '(new_id, e) := generateId e in
  let o := mkOrder p now q new_id sd in
  if isValid o then push_command i (mkCommand Add o) e else e.

Definition cancel (i : nat) (order_id : OrderId) (e : t) : t :=
  push_command i (mkCommand Cancel (mkOrder 0 0 0 order_id Buy)) e.

(** The next access of a client's [push]; no caller looks at the answer. *)
Definition push_step (i : nat) (age : nat) (e : t) : LobQueue.access t :=
  match pushing (client i e) with
  | None => LobQueue.Done e
  | Some pp =>
      LobQueue.then_access (LobQueue.push kQueueCapacity (thread_of i) age pp (view (client i e)) (queue e))
        (λ '(res, v, q), LobQueue.Done
          match res with
          | inl pp => with_client i (mkClient (Some pp) v) (with_queue q e)
          | inr taken =>
              with_commands (issued_ e) (if (taken : bool) then accepted_ e ++ [LobQueue.value_of pp] else accepted_ e)
                (with_client i (mkClient None v) (with_queue q e))
          end)
  end.

Definition stop (e : t) : t := with_running false e.

(** A client makes the thread that calls [run]. *)
Definition start_worker (i : nat) (e : t) : t :=
  match worker e with
  | NotStarted =>
      let v := view (client i e) in
      let e := with_client i (mkClient None (LobQueue.tick_view (thread_of i) v)) e in
      mk (running e) (publishedBestAsk e) (publishedBestBid e) (queue e) (orderBook e) (nextId e) (clients e)
        Started (LobQueue.join_view (worker_view e) v) (issued_ e) (accepted_ e) (handled_ e) (accepted_ e)
  | _ => e
  end.

(** ** The worker *)

(** What a turn of the loop does with the command it has popped. *)
Definition handle (c : Command) (e : t) : option t :=
  b ← LobBook.process c (orderBook e);
  Some (mk (running e) (publishedBestAsk e) (publishedBestBid e) (queue e) b (nextId e) (clients e)
          (PublishAsk (LobBook.getBestAsk b) (LobBook.getBestBid b)) (worker_view e) (issued_ e) (accepted_ e)
          (handled_ e ++ [c]) (before_start_ e)).

Section run.
Context (tail_order : LobQueue.memory_order).

Definition pop_step (age : nat) (pp : LobQueue.Popping Command) (e : t) : LobQueue.access t :=
  LobQueue.then_access (LobQueue.pop kQueueCapacity tail_order age pp (worker_view e) (queue e))
    (λ '(res, v, q),
      let e := with_worker_view v (with_queue q e) in
      match res with
      | inl pp => LobQueue.Done (at_worker (Popping pp) e)
      | inr None => LobQueue.Done (at_worker Looping e)
      | inr (Some c) => LobQueue.checked (handle c e)
      end).

(** The next access of the thread that calls [run]. *)
Definition run (age : nat) (e : t) : LobQueue.access t :=
  match worker e with
  | NotStarted | Exited => LobQueue.Done e
  | Started => LobQueue.Done (at_worker Looping (with_running true e))
  | Looping => LobQueue.Done (at_worker (if running e then Popping LobQueue.LoadHead else Exited) e)
  | Popping pp => pop_step age pp e
  | PublishAsk bestAsk bestBid =>
      LobQueue.Done (at_worker (PublishBid bestBid) (with_published (default 0 bestAsk) (publishedBestBid e) e))
  | PublishBid bestBid =>
      LobQueue.Done (at_worker Looping (with_published (publishedBestAsk e) (default 0 bestBid) e))
  end.

(** ** Runs *)

Inductive action :=
  | Submit (i : nat) (now : Timestamp) (p : Price) (q : Quantity) (sd : Side)
  | CancelId (i : nat) (order_id : OrderId)
  | Push (i : nat) (age : nat)
  | Start (i : nat)
  | Stop
  | Run (age : nat).

(** A client that is inside [push] makes no other call. *)
Definition idle (i : nat) (f : t → t) (e : t) : LobQueue.access t :=
  LobQueue.Done match pushing (client i e) with None => f e | Some _ => e end.

Definition step (a : action) (e : t) : LobQueue.access t :=
  match a with
  | Submit i now p q sd => idle i (submit i now p q sd) e
  | CancelId i order_id => idle i (cancel i order_id) e
  | Push i age => push_step i age e
  | Start i => idle i (start_worker i) e
  | Stop => LobQueue.Done (stop e)
  | Run age => run age e
  end.

Definition actor (a : action) : LobQueue.Thread :=
  match a with
  | Submit i _ _ _ _ | CancelId i _ | Push i _ | Start i => thread_of i
  | Stop | Run _ => LobQueue.kConsumer
  end.

(** With the thread whose access raced, where one did: what follows is undefined. [None]
    is a dereference of what is not there. *)
Fixpoint exec (schedule : list action) (e : t) : option (t * option LobQueue.Thread) :=
  match schedule with
  | [] => Some (e, None)
  | a :: schedule =>
      match step a e with
      | LobQueue.Done e => exec schedule e
      | LobQueue.DataRace => Some (e, Some (actor a))
      | LobQueue.Invalid => None
      end
  end.
End run.

(** The sentinel of an empty side. *)
Definition getBestAsk (e : t) : option Price := if publishedBestAsk e =? 0 then None else Some (publishedBestAsk e).
Definition getBestBid (e : t) : option Price := if publishedBestBid e =? 0 then None else Some (publishedBestBid e).

End LobEngine.

(** * The stand-alone engine: what its threads compute

    One client and the worker, whatever they interleave and whichever stores their loads
    read: a run goes on until the worker takes a command that it cannot know to have been
    written, and until then the book is what the commands taken make of it, and the
    published prices are the book's. *)

Module LobEngineProps.
Import Lob LobProps LobEngine.

(** ** Sessions in parts *)

Lemma adds_app cs ds : adds (cs ++ ds) = adds cs ++ adds ds.
Proof. unfold adds. by rewrite filter_app, fmap_app. Qed.

Lemma adds_sublist cs ds : cs `sublist_of` ds → adds cs `sublist_of` adds ds.
Proof.
  induction 1 as [|c cs ds _ IH|c cs ds _ IH]; [done|..]; rewrite !adds_cons.
  - destruct (type c); [by apply sublist_skip|done].
  - destruct (type c); [by apply sublist_cons|done].
Qed.

Lemma session_ok_sublist cs ds : cs `sublist_of` ds → session_ok ds → session_ok cs.
Proof.
  intros Hs%adds_sublist [Ho Hn]. split; [by eapply sub_Forall|].
  eapply sublist_NoDup; [exact Hn|]. by apply fmap_sublist.
Qed.

Lemma processed_snoc cs c b : LobBook.process_all (cs ++ [c]) b = b ← LobBook.process_all cs b; LobBook.process c b.
Proof.
  revert b. induction cs as [|d cs IH]; intros b; cbn.
  - by destruct (LobBook.process c b).
  - destruct (LobBook.process d b); cbn; [by rewrite IH|done].
Qed.

(** ** The invariant *)

Definition submits (schedule : list action) : Z :=
  vsize (filter (λ a, match a with Submit _ _ _ _ _ => true | _ => false end = true) schedule).

Definition shown (p : option Price) : Price := default 0 p.

(** Where the worker has stored the prices of the book. *)
Definition published (e : t) : Prop :=
  match worker e with
  | PublishAsk ask bid => ask = LobBook.getBestAsk (orderBook e) ∧ bid = LobBook.getBestBid (orderBook e)
  | PublishBid bid => publishedBestAsk e = shown (LobBook.getBestAsk (orderBook e)) ∧
                      bid = LobBook.getBestBid (orderBook e)
  | _ => publishedBestAsk e = shown (LobBook.getBestAsk (orderBook e)) ∧
         publishedBestBid e = shown (LobBook.getBestBid (orderBook e))
  end.

Definition popping (w : Worker) : option (LobQueue.Popping Command) :=
  match w with Popping pp => Some pp | _ => None end.

(** The command a client is inside [push] with. *)
Definition in_hand (c : Client) : list Command :=
  match pushing c with Some pp => [LobQueue.value_of pp] | None => [] end.

(** Between the stores of one turn the prices are those of different books. *)
Definition settled (e : t) : Prop :=
  match worker e with PublishAsk _ _ | PublishBid _ => False | _ => True end.

Lemma capacity_power : kQueueCapacity = 2 ^ 12.
Proof. done. Qed.

Lemma capacity_bits : 0 ≤ 12 ≤ 63.
Proof. lia. Qed.

Section one_client.
Context (order_ : LobQueue.memory_order) (i : nat).

Lemma client_not_worker : thread_of i ≠ LobQueue.kConsumer.
Proof. done. Qed.

Abbreviation Sys := (LobQueue.Sys kQueueCapacity (thread_of i) order_).

(** What one client does, and whatever stops the worker. *)
Definition action_ok (a : action) : Prop :=
  match a with
  | Submit j _ _ q _ => j = i ∧ 0 ≤ q < 2 ^ 32
  | CancelId j _ | Push j _ | Start j => j = i
  | Stop | Run _ => True
  end.

(** How the worker stands to the ring. *)
Record Queued (phase : option (nat * nat)) (e : t) (h : nat) : Prop := {
  qd_ring : ∃ r, Sys phase (queue e) (pushing (client i e)) (view (client i e)) (popping (worker e)) (worker_view e)
    (accepted_ e) h r;
  qd_handled : handled_ e = take h (accepted_ e) ∧ (h ≤ length (accepted_ e))%nat;
  qd_phase : match phase with
    | None => worker e = NotStarted
    | Some (_, a0) => worker e ≠ NotStarted ∧ before_start_ e = take a0 (accepted_ e) ∧ (a0 ≤ length (accepted_ e))%nat
    end;
}.

(** After [n] submissions. *)
Record Inv (n : Z) (phase : option (nat * nat)) (e : t) (h : nat) : Prop := {
  iv_queued : Queued phase e h;
  iv_issued : accepted_ e ++ in_hand (client i e) `sublist_of` issued_ e;
  iv_ids : nextId e = u32 n ∧ NoDup (id <$> adds (issued_ e)) ∧ Forall (λ o, 0 ≤ id o < n) (adds (issued_ e));
  iv_orders : Forall (λ o, order_ok o ∧ 0 < price o) (adds (issued_ e));
  iv_book : LobBook.process_all (handled_ e) LobBook.empty = Some (orderBook e);
  iv_published : published e;
}.

Lemma inv_session n ph e h : Inv n ph e h → session_ok (issued_ e).
Proof. intros [_ _ (_ & Hn & _) Ho _ _]. split; [|done]. eapply Forall_impl; [exact Ho|]. simpl. tauto. Qed.

Lemma inv_accepted n ph e h : Inv n ph e h → accepted_ e `sublist_of` issued_ e.
Proof. intros HI. etrans; [|exact (iv_issued _ _ _ _ HI)]. by apply sublist_inserts_r. Qed.

Lemma inv_handled n ph e h : Inv n ph e h → handled_ e `sublist_of` issued_ e.
Proof.
  intros HI. etrans; [|by eapply inv_accepted]. destruct (qd_handled _ _ _ (iv_queued _ _ _ _ HI)) as [-> _].
  apply sublist_take.
Qed.

(** The book of an engine is what the commands handled make of the queues. *)
Lemma inv_rep n ph e h : Inv n ph e h → Rep (orderBook e) (book_all (handled_ e) nobody) ∧
  uncrossed (book_all (handled_ e) nobody) ∧
  Forall (λ o, 0 < price o) (everyone (book_all (handled_ e) nobody)).
Proof.
  intros HI. pose proof (inv_handled _ _ _ _ HI) as Hs. pose proof (inv_session _ _ _ _ HI) as Hok.
  destruct (from_empty (handled_ e)) as (b & Hb & HR & HU & Hkeys); [by eapply session_ok_sublist|].
  destruct HI as [_ _ _ Ho Hbook _]. rewrite Hb in Hbook. injection Hbook as <-. split; [done|]. split; [done|].
  apply Forall_forall. intros x Hx. apply (list_elem_of_fmap_2 key) in Hx. apply Hkeys in Hx.
  apply list_elem_of_fmap in Hx as (y & [= _ _ Ep] & Hy). rewrite Ep.
  eapply elem_of_sublist in Hy; [|by apply adds_sublist]. rewrite Forall_forall in Ho. by apply Ho.
Qed.

Lemma client_now c m e : clients e = <[i := c]> m → client i e = c.
Proof. intros E. unfold client. by rewrite E, lookup_insert_eq. Qed.

Lemma client_pushing c e : client i (push_command i c e) = mkClient (Some (LobQueue.AtTail c)) (view (client i e)).
Proof. by eapply client_now. Qed.

(** ** The client's steps *)

(** What a command that reaches [push] must be. *)
Definition fresh_command (n : Z) (e : t) (c : Command) : Prop :=
  type c = Add → order_ok (order c) ∧ 0 < price (order c) ∧ 0 ≤ id (order c) < n ∧
    id (order c) ∉ id <$> adds (issued_ e).

Lemma issue_ok n e c : fresh_command n e c →
  NoDup (id <$> adds (issued_ e)) → Forall (λ o, 0 ≤ id o < n) (adds (issued_ e)) →
  Forall (λ o, order_ok o ∧ 0 < price o) (adds (issued_ e)) →
  NoDup (id <$> adds (issued_ e ++ [c])) ∧ Forall (λ o, 0 ≤ id o < n) (adds (issued_ e ++ [c])) ∧
  Forall (λ o, order_ok o ∧ 0 < price o) (adds (issued_ e ++ [c])).
Proof.
  intros Hc Hn Hlt Ho. rewrite adds_app, adds_cons, fmap_app, !Forall_app. change (adds []) with (@nil Order).
  destruct (type c) eqn:Et; [|rewrite app_nil_r; by split_and!].
  destruct (Hc Et) as (H1 & H2 & H3 & H4). split_and!; try done; [|by apply Forall_singleton..].
  apply NoDup_app. split; [done|]. split; [|apply NoDup_singleton]. by intros j Hj ->%list_elem_of_singleton.
Qed.

Lemma push_command_inv n ph e h c : Inv n ph e h → pushing (client i e) = None → fresh_command n e c →
  Inv n ph (push_command i c e) h.
Proof.
  intros [[[r HS] Hh Hph] Hi (Hid & Hn & Hlt) Ho Hb Hp] Hidle Hc. destruct (issue_ok n e c Hc Hn Hlt Ho) as (H1 & H2 & H3).
  unfold in_hand in Hi. rewrite Hidle in HS, Hi. rewrite app_nil_r in Hi.
  split; try done.
  - split; [|done|done]. exists r. rewrite client_pushing. by apply LobQueue.sys_begin_push.
  - rewrite client_pushing. by apply sublist_app.
Qed.

Lemma push_step_inv n ph e h age : Inv n ph e h → ∃ e', push_step i age e = LobQueue.Done e' ∧ Inv n ph e' h.
Proof.
  intros HI. pose proof HI as [[[r HS] [Hh Hle] Hph] Hi Hid Ho Hb Hp]. unfold push_step.
  destruct (pushing (client i e)) as [pp|] eqn:Epp; [|by exists e].
  destruct (LobQueue.push_step _ 12 capacity_bits capacity_power _ client_not_worker _ _ _ _ _ _ _ _ _ _ age HS)
    as (res & v & q & -> & H). cbn [LobQueue.then_access]. eexists. split; [done|].
  unfold in_hand in Hi. rewrite Epp in Hi. destruct res as [pp'|taken].
  - destruct H as [Hv HS']. split; cbn; try done.
    + split; try done. exists r. by rewrite (client_now (mkClient (Some pp') v) (clients e)).
    + unfold in_hand. rewrite (client_now (mkClient (Some pp') v) (clients e)) by done. cbn. by rewrite Hv.
  - set (ys := if taken then [LobQueue.value_of pp] else []).
    assert ((if taken then accepted_ e ++ [LobQueue.value_of pp] else accepted_ e) = accepted_ e ++ ys) as E
      by (unfold ys; destruct taken; by rewrite ?app_nil_r).
    rewrite E in *. split; cbn; try done.
    + split; cbn; [exists r; by rewrite (client_now (mkClient None v) (clients e))| |].
      * rewrite take_app_le, length_app by lia. split; [done|lia].
      * destruct ph as [[base a0]|]; [|done]. destruct Hph as (? & ? & ?). rewrite take_app_le, length_app by lia.
        split_and!; try done. lia.
    + unfold in_hand. rewrite (client_now (mkClient None v) (clients e)) by done. cbn. rewrite app_nil_r. etrans; [|exact Hi].
      apply sublist_app; [done|]. unfold ys. destruct taken; [done|apply sublist_nil_l].
Qed.

Lemma submission_inv n ph e h now p q sd : Inv n ph e h → pushing (client i e) = None → 0 ≤ q < 2 ^ 32 → 0 ≤ n < 2 ^ 32 →
  Inv (n + 1) ph (submit i now p q sd e) h.
Proof.
  intros HI Hidle Hq Hn. unfold submit, generateId. destruct HI as [HQ Hi (Hid & Hnd & Hlt) Ho Hb Hp].
  set (e1 := mk (running e) _ _ _ _ (u32 (nextId e + 1)) _ _ _ _ _ _ _). cbn [fst snd].
  assert (nextId e = n) as Hn' by (rewrite Hid; apply u32_small; exact Hn).
  assert (Inv (n + 1) ph e1 h) as HI1.
  { split; cbn; try done; [by destruct HQ; split|]. split; [by rewrite Hn'|]. split; [done|].
    eapply Forall_impl; [exact Hlt|]. simpl. lia. }
  destruct (isValid _) eqn:Ev; [|done]. apply push_command_inv; [done|done|]. intros _. unfold isValid in Ev. cbn in *.
  unfold order_ok. cbn. rewrite Hn'. split; [lia|]. split; [lia|]. split; [lia|].
  intros (x & E & Hx)%list_elem_of_fmap. rewrite Forall_forall in Hlt. specialize (Hlt x Hx). simpl in Hlt. lia.
Qed.

Lemma start_inv n ph e h : Inv n ph e h → pushing (client i e) = None → ∃ ph', Inv n ph' (start_worker i e) h.
Proof.
  intros HI Hidle. pose proof HI as [[[r HS] [Hh Hle] Hph] Hi Hid Ho Hb Hp]. unfold start_worker.
  destruct (worker e) eqn:Ew; try (by exists ph). destruct ph as [[base a0]|]; [by destruct Hph as [? _]|].
  rewrite Hidle in HS. apply (LobQueue.sys_start _ 12 capacity_bits _ client_not_worker) in HS. eexists (Some (_, length (accepted_ e))).
  split; cbn; try done.
  - split; cbn.
    + exists r. by rewrite (client_now (mkClient None (LobQueue.tick_view (thread_of i) (view (client i e)))) (clients e)).
    + done.
    + by rewrite take_ge by lia.
  - unfold in_hand in *. rewrite (client_now (mkClient None (LobQueue.tick_view (thread_of i) (view (client i e)))) (clients e)) by done. by rewrite Hidle in Hi.
  - unfold published in *. by rewrite Ew in Hp.
Qed.

(** ** The worker's steps *)

(** Where the worker may go without an access of the ring. *)
Lemma inv_worker n ph e h r wk ask bid : Inv n ph e h → popping (worker e) = None → worker e ≠ NotStarted →
  wk ≠ NotStarted → popping wk = None → published (at_worker wk (with_published ask bid e)) →
  Inv n ph (at_worker wk (with_published ask bid (with_running r e))) h.
Proof.
  intros [[[r' HS] Hh Hph] Hi Hid Ho Hb Hp] Hw Hns Hwk Hpop Hpub. rewrite Hw in HS. split; try done.
  split; [exists r'; cbn; by rewrite Hpop|done|]. destruct ph as [[base a0]|]; [|by destruct Hns].
  destruct Hph as (_ & ? & ?). by split_and!.
Qed.

Lemma inv_running n ph e h r : Inv n ph e h → Inv n ph (with_running r e) h.
Proof. intros [[]]; by split. Qed.

Lemma begin_pop_inv n ph e h : Inv n ph e h → worker e = Looping →
  Inv n ph (at_worker (Popping LobQueue.LoadHead) e) h.
Proof.
  intros [[[r HS] Hh Hph] Hi Hid Ho Hb Hp] Hw. rewrite Hw in *. unfold published in Hp. rewrite Hw in Hp. split; try done.
  destruct ph as [[base a0]|]; [|done]. split; [|done|by destruct Hph]. exists r. by apply LobQueue.sys_begin_pop.
Qed.

(** The command popped is processed. *)
Lemma handle_inv n base a0 e h c q v : Inv n (Some (base, a0)) e h → accepted_ e !! h = Some c →
  Sys (Some (base, a0)) q (pushing (client i e)) (view (client i e)) None v (accepted_ e) (S h) (S h) →
  ∃ e', handle c (with_worker_view v (with_queue q e)) = Some e' ∧ Inv n (Some (base, a0)) e' (S h).
Proof.
  intros HI Hc HS. pose proof (inv_session _ _ _ _ HI) as Hok. pose proof (inv_accepted _ _ _ _ HI) as Hacc.
  destruct HI as [[_ [Hh Hle] (_ & Hbs & Ha0)] Hi Hid Ho Hb Hp]. unfold handle. cbn [orderBook with_worker_view with_queue].
  assert (handled_ e ++ [c] = take (S h) (accepted_ e)) as Etake by (by rewrite Hh, (take_S_r _ _ c)).
  destruct (from_empty (handled_ e ++ [c])) as (b & Hb' & _).
  { eapply session_ok_sublist; [|exact Hok]. etrans; [|exact Hacc]. rewrite Etake. apply sublist_take. }
  pose proof Hb' as Hb2. rewrite processed_snoc, Hb in Hb2. cbn [mbind option_bind] in Hb2. rewrite Hb2.
  cbn [mbind option_bind]. eexists. split; [done|]. split; try done.
  apply lookup_lt_Some in Hc. split; [by exists (S h)|split; [done|cbn; lia]|by split_and!].
Qed.

Lemma pop_step_inv n ph e h age pp : Inv n ph e h → worker e = Popping pp →
  match pop_step order_ age pp e with
  | LobQueue.Done e' => ∃ h', Inv n ph e' h'
  | LobQueue.DataRace => order_ = LobQueue.relaxed ∧ (h < length (accepted_ e))%nat ∧ ∃ base, ph = Some (base, h)
  | LobQueue.Invalid => False
  end.
Proof.
  intros HI Hw. pose proof HI as [[[r HS] [Hh Hle] Hph] Hi Hid Ho Hb Hp]. unfold pop_step. rewrite Hw in HS, Hph.
  destruct ph as [[base a0]|]; [|done]. destruct Hph as (_ & Hbs & Ha0). unfold published in Hp. rewrite Hw in Hp.
  pose proof (LobQueue.pop_step _ 12 capacity_bits capacity_power _ client_not_worker _ _ _ _ _ _ _ _ _ _ age HS) as H.
  destruct (LobQueue.pop _ _ _ _ _ _) as [[[[pp'|[c|]] v] q]| |]; cbn [LobQueue.then_access]; [| | |done|done].
  - destruct H as [r' HS']. exists h. split; try done. split; [by exists r'|done|done].
  - destruct H as [Hc HS']. destruct (handle_inv n base a0 e h c q v HI Hc HS') as (e' & -> & HI'). by exists (S h).
  - exists h. split; try done. split; [by exists r|done|done].
Qed.

Lemma run_inv n ph e h age : Inv n ph e h →
  match run order_ age e with
  | LobQueue.Done e' => ∃ h', Inv n ph e' h'
  | LobQueue.DataRace => order_ = LobQueue.relaxed ∧ (h < length (accepted_ e))%nat ∧ ∃ base, ph = Some (base, h)
  | LobQueue.Invalid => False
  end.
Proof.
  intros HI. pose proof (iv_published _ _ _ _ HI) as Hp. unfold run, published in *.
  destruct (worker e) as [| | |pp|ask bid|bid|] eqn:Ew.
  - by exists h.
  - exists h. apply (inv_worker n ph e h true Looping (publishedBestAsk e) (publishedBestBid e)); rewrite ?Ew; done.
  - exists h. destruct (running e); [by apply begin_pop_inv|].
    apply (inv_worker n ph e h (running e) Exited (publishedBestAsk e) (publishedBestBid e)); rewrite ?Ew; done.
  - by apply (pop_step_inv n ph e h age pp).
  - exists h. destruct Hp as [-> ->]. apply (inv_worker n ph e h (running e)); rewrite ?Ew; done.
  - exists h. destruct Hp as [Hp ->]. apply (inv_worker n ph e h (running e)); rewrite ?Ew; done.
  - by exists h.
Qed.

(** ** Runs *)

Lemma engine_step_inv a n ph e h : Inv n ph e h → action_ok a → 0 ≤ n → n + submits [a] ≤ 2 ^ 32 →
  match step order_ a e with
  | LobQueue.Done e' => ∃ n' ph' h', Inv n' ph' e' h' ∧ n ≤ n' ≤ n + submits [a]
  | LobQueue.DataRace => actor a = LobQueue.kConsumer ∧ order_ = LobQueue.relaxed ∧
      (h < length (accepted_ e))%nat ∧ ∃ base, ph = Some (base, h)
  | LobQueue.Invalid => False
  end.
Proof.
  intros HI Ha Hn Hle. pose proof (inv_running n ph e h false HI) as Hstop. pose proof (vsize_nonneg
    (filter (λ a, match a with Submit _ _ _ _ _ => true | _ => false end = true) [a])) as Hpos. fold (submits [a]) in Hpos.
  destruct a as [j now p q sd|j o|j age|j| |age]; cbn [action_ok] in Ha; cbn [step actor]; unfold idle.
  - destruct Ha as [-> Hq]. change (submits _) with 1 in *. destruct (pushing (client i e)) eqn:Ep.
    + exists n, ph, h. split; [done|lia].
    + exists (n + 1), ph, h. split; [|lia]. apply submission_inv; [done|done|done|lia].
  - subst j. exists n, ph, h. split; [|lia]. destruct (pushing (client i e)) eqn:Ep; [done|]. by apply push_command_inv.
  - subst j. destruct (push_step_inv n ph e h age HI) as (e' & -> & HI'). exists n, ph, h. split; [done|lia].
  - subst j. destruct (pushing (client i e)) eqn:Ep; [exists n, ph, h; split; [done|lia]|].
    destruct (start_inv n ph e h HI Ep) as (ph' & ?). exists n, ph', h. split; [done|lia].
  - exists n, ph, h. split; [done|lia].
  - pose proof (run_inv n ph e h age HI) as H. destruct (run order_ age e); [|done|done]. destruct H as [h' H].
    exists n, ph, h'. split; [done|lia].
Qed.

Lemma submits_cons a schedule : submits (a :: schedule) = submits [a] + submits schedule.
Proof. unfold submits, vsize. rewrite !filter_cons, filter_nil. case_decide; cbn [length]; lia. Qed.

Lemma engine_exec_inv schedule : ∀ n ph e h, Inv n ph e h → Forall action_ok schedule → 0 ≤ n → n + submits schedule ≤ 2 ^ 32 →
  ∃ e' race n' ph' h', exec order_ schedule e = Some (e', race) ∧ Inv n' ph' e' h' ∧
    match race with
    | None => True
    | Some thread => order_ = LobQueue.relaxed ∧ thread = LobQueue.kConsumer ∧
        (h' < length (accepted_ e'))%nat ∧ ∃ base, ph' = Some (base, h')
    end.
Proof.
  induction schedule as [|a schedule IH]; intros n ph e h HI Hok Hn Hle; [by exists e, None, n, ph, h|].
  apply Forall_cons in Hok as [Ha Hok]. rewrite submits_cons in Hle. pose proof (vsize_nonneg
    (filter (λ a, match a with Submit _ _ _ _ _ => true | _ => false end = true) schedule)) as Hpos. fold (submits schedule) in Hpos.
  pose proof (engine_step_inv a n ph e h HI Ha Hn ltac:(lia)) as H. cbn [exec]. destruct (step order_ a e) as [e1| |]; [| |done].
  - destruct H as (n' & ph' & h' & HI' & Hn'). apply (IH n' ph' e1 h'); [done|done|lia|lia].
  - destruct H as (Ha' & Ho & Hlt & base & ->). exists e, (Some (actor a)), n, (Some (base, h)), h.
    split; [done|]. split; [done|]. split_and!; try done. by exists base.
Qed.

Lemma engine_start_inv : Inv 0 None start 0.
Proof.
  assert (client i start = mkClient None (LobQueue.fresh_view (thread_of i))) as Hc
    by (unfold client; cbn [clients start]; by rewrite lookup_empty).
  split; try done; [|by repeat constructor..].
  split; try done. exists 0%nat. rewrite Hc. apply (LobQueue.sys_make _ 12 capacity_bits capacity_power _ client_not_worker).
Qed.

(** ** What a state shows *)

(** The queue holds the rest of what it took, at most its capacity. *)
Lemma inv_waiting n ph e h : Inv n ph e h →
  ∃ waiting, accepted_ e = handled_ e ++ waiting ∧ vsize waiting ≤ kQueueCapacity ∧
    ((h < length (accepted_ e))%nat → waiting ≠ []).
Proof.
  intros [[[r HS] [Hh Hle] _] _ _ _ _ _]. exists (drop h (accepted_ e)).
  split; [by rewrite Hh, take_drop|]. pose proof (LobQueue.sy_ring _ _ _ _ _ _ _ _ _ _ _ _ HS) as HR.
  destruct (LobQueue.rg_fits _ _ _ _ _ _ _ _ HR) as [_ Hf].
  pose proof (LobQueue.rg_seen _ _ _ _ _ _ _ _ HR) as Hseen.
  split; [unfold vsize in *; rewrite length_drop; lia|]. intros Hlt E. apply (f_equal length) in E.
  rewrite length_drop in E. cbn in E. lia.
Qed.

(** A worker that does not acquire what the client stores has handled commands that were
    accepted before it was started only. *)
Lemma inv_known n ph e h : Inv n ph e h → order_ = LobQueue.relaxed → handled_ e `prefix_of` before_start_ e.
Proof.
  intros [[[r HS] [Hh Hle] Hph] _ _ _ _ _] Ho. pose proof (LobQueue.sy_phase _ _ _ _ _ _ _ _ _ _ _ _ HS) as Hk.
  pose proof (LobQueue.rg_fits _ _ _ _ _ _ _ _ (LobQueue.sy_ring _ _ _ _ _ _ _ _ _ _ _ _ HS)) as [Hf _].
  rewrite Hh. destruct ph as [[base a0]|].
  - destruct Hph as (_ & -> & _). destruct (Hk Ho) as [_ _ Hk' _].
    replace h with (h `min` a0)%nat by lia. rewrite <-take_take. exists (drop h (take a0 (accepted_ e))).
    by rewrite take_drop.
  - destruct Hk as (_ & _ & -> & _). apply prefix_nil.
Qed.

Lemma shown_price (q : list Order) : Forall (λ o, 0 < price o) q →
  (if shown (price <$> head q) =? 0 then None else Some (shown (price <$> head q))) = price <$> head q.
Proof. destruct q as [|o q]; [done|]. intros [Ho _]%Forall_cons. cbn. by destruct (Z.eqb_spec (price o) 0); [lia|]. Qed.

(** The book by itself, and the prices published of it. *)
Record serves (e : t) : Prop := {
  sv_sorted : ∀ sd, StronglySorted (λ x y, LobBook.better sd (price y) (price x) = false)
    (queue_of (LobBook.levels_of sd (orderBook e)));
  sv_uncrossed : ∀ x y, x ∈ queue_of (LobBook.asks (orderBook e)) → y ∈ queue_of (LobBook.bids (orderBook e)) →
    price y < price x;
  sv_index : ∀ k sp, LobBook.orderIndex (orderBook e) !! k = Some sp ↔
    ∃ o, o ∈ queue_of (LobBook.asks (orderBook e)) ++ queue_of (LobBook.bids (orderBook e)) ∧ id o = k ∧
      sp = (side o, price o);
  sv_prices : settled e →
    getBestAsk e = price <$> head (queue_of (LobBook.asks (orderBook e))) ∧
    getBestBid e = price <$> head (queue_of (LobBook.bids (orderBook e)));
}.

Lemma inv_serves n ph e h : Inv n ph e h → serves e.
Proof.
  intros HI. destruct (inv_rep _ _ _ _ HI) as (HR & HU & Hprices). destruct (best_of_rep _ _ HR) as [Eask Ebid].
  pose proof (iv_published _ _ _ _ HI) as Hp. pose proof HR as [Hs _ Hidx].
  destruct (Hs Sell) as [Hlv1 E1], (Hs Buy) as [Hlv2 E2]. cbn [LobBook.levels_of queue] in *. split.
  - intros []; [by apply queue_sorted|by apply queue_sorted].
  - rewrite E1, E2. exact HU.
  - intros k sp. rewrite Hidx, E1, E2. apply key_spec.
  - intros Hset. rewrite E1, E2. unfold everyone in Hprices. apply Forall_app in Hprices as [Hpa Hpb].
    unfold getBestAsk, getBestBid, published, settled in *.
    destruct (worker e); try done; destruct Hp as [-> ->]; rewrite Eask, Ebid, !shown_price by done; done.
Qed.

(** The README's book, where no order was filled in part. *)
Lemma inv_spec n ph e h : Inv n ph e h → none_in_part (handled_ e) nobody = true →
  queue_of (LobBook.asks (orderBook e)) = sells (spec_all (handled_ e) nobody) ∧
  queue_of (LobBook.bids (orderBook e)) = buys (spec_all (handled_ e) nobody).
Proof.
  intros HI Hwhole. rewrite (book_is_spec _ _ Hwhole). destruct (inv_rep _ _ _ _ HI) as ([Hs _ _] & _).
  split; [by destruct (Hs Sell)|by destruct (Hs Buy)].
Qed.

(** A command that finds the queue full is gone: the engine goes on as if it had not been
    issued. *)
Lemma full_queue_loses n ph e h age c tl : Inv n ph e h → pushing (client i e) = Some (LobQueue.AtHead c tl) →
  vsize (accepted_ e) = Z.of_nat h + kQueueCapacity →
  ∃ e', push_step i age e = LobQueue.Done e' ∧ pushing (client i e') = None ∧ accepted_ e' = accepted_ e ∧
    queue e' = queue e.
Proof.
  intros [[[r HS] _ _] _ _ _ _ _] Hc Hfull. rewrite Hc in HS. pose proof (LobQueue.sy_push _ _ _ _ _ _ _ _ _ _ _ _ HS) as Htl.
  pose proof (LobQueue.sy_ring _ _ _ _ _ _ _ _ _ _ _ _ HS) as HR. cbn in Htl. subst tl.
  destruct (LobQueue.load_head_pushing _ 12 capacity_bits _ client_not_worker _ _ _ _ _ _ age HR) as (j & v & Hload & Hj & _ & HR' & _).
  pose proof (LobQueue.rg_fits _ _ _ _ _ _ _ _ HR) as [_ Hfits]. pose proof (LobQueue.rg_seen _ _ _ _ _ _ _ _ HR') as Hseen.
  unfold push_step. rewrite Hc. cbn [LobQueue.push]. rewrite Hload. cbn [LobQueue.then_access].
  unfold vsize in *. rewrite (LobQueue.used_u64 _ 12 capacity_bits capacity_power _ client_not_worker) by lia.
  rewrite (proj2 (Z.eqb_eq _ _)) by lia. eexists. split; [done|].
  by rewrite (client_now (mkClient None v) (clients e)).
Qed.
End one_client.

(** C33: the stand-alone engine serves a price-time book. One client submits, cancels and
    starts the worker, anybody stops it, access by access of the ring, in any interleaving,
    whichever stores its loads read, with at most 2^32 submissions. With the relaxed
    load of [tail] that the code has ([kTailOrder]) the worker races with the client at
    the first command that the queue took after the worker was started, having handled all
    those before; with an acquire load there is no race. The worker has handled a prefix
    of what the queue took, the queue holds the rest, at most its capacity, and it took,
    in order, some of the commands issued. The sides of the book are in price
    order and do not cross, the index has the orders that rest and no others, and
    between turns the published prices are those of the first orders. As long as
    each order handled was filled whole or not at all when it came, the book is the
    README's: match first, then rest the remainder. (One filled in part rests whole.) *)
Theorem stand_alone_engine tail_order i schedule : Forall (action_ok i) schedule → submits schedule ≤ 2 ^ 32 →
  ∃ e race, exec tail_order schedule start = Some (e, race) ∧
    (∃ waiting, accepted_ e = handled_ e ++ waiting ∧ vsize waiting ≤ kQueueCapacity ∧
      match race with
      | None => tail_order = LobQueue.relaxed → handled_ e `prefix_of` before_start_ e
      | Some thread => tail_order = LobQueue.relaxed ∧ thread = LobQueue.kConsumer ∧
          handled_ e = before_start_ e ∧ waiting ≠ []
      end) ∧
    accepted_ e `sublist_of` issued_ e ∧ serves e ∧
    (none_in_part (handled_ e) nobody = true →
      queue_of (LobBook.asks (orderBook e)) = sells (spec_all (handled_ e) nobody) ∧
      queue_of (LobBook.bids (orderBook e)) = buys (spec_all (handled_ e) nobody)).
Proof.
  intros Hok Hle. destruct (engine_exec_inv tail_order i schedule 0 None start 0 (engine_start_inv tail_order i) Hok)
    as (e & race & n & ph & h & Hx & HI & Hrace); [lia|lia|].
  exists e, race. split; [done|]. split; [|split; [by eapply inv_accepted|split; [by eapply inv_serves|by eapply inv_spec]]].
  destruct (inv_waiting _ _ _ _ _ _ HI) as (waiting & Hw & Hsize & Hne). exists waiting. split; [done|]. split; [done|].
  destruct race as [thread|]; [|by eapply inv_known]. destruct Hrace as (? & ? & Hlt & base & ->).
  split; [done|]. split; [done|]. split; [|by apply Hne].
  destruct HI as [[_ [Hh _] (_ & Hb & _)] _ _ _ _ _]. by rewrite Hh, Hb.
Qed.

(** The accesses of a push, and a turn of the worker that finds a command. *)
Definition pushes (i : nat) : list action := replicate 4 (Push i 0).
Definition turn : list action := replicate 7 (Run 0).

(** Two sells, a buy that takes the first and part of the second, an order that is not
    valid, a cancel of the rest of the second, and a bid; once the worker reads a store of
    [tail] that is not the last. *)
Definition sample_schedule : list action :=
  [Submit 0 0 100 5 Sell] ++ pushes 0 ++ [Start 0; Run 0; Submit 0 0 101 7 Sell; Push 0 0; Run 0; Push 0 0; Run 0] ++
  replicate 2 (Push 0 0) ++ [Run 1; Run 0; Run 0; Run 0; Run 0] ++ turn ++ [Submit 0 0 101 6 Buy] ++ pushes 0 ++
  [Submit 0 0 0 1 Buy; CancelId 0 1] ++ pushes 0 ++ turn ++ [Submit 0 0 99 2 Buy] ++ pushes 0 ++ turn ++ turn.

(** Whether it races, what was handled, the prices, and the README's queues. *)
Definition outcome_of (tail_order : LobQueue.memory_order) (schedule : list action) :
    option (option LobQueue.Thread * list OrderId * (option Price * option Price) * bool * book) :=
  '(e, race) ← exec tail_order schedule start;
  Some (race, (λ c, id (order c)) <$> handled_ e, (getBestAsk e, getBestBid e), none_in_part (handled_ e) nobody,
    spec_all (handled_ e) nobody).

Lemma stand_alone_engine_witness :
  outcome_of LobQueue.acquire sample_schedule =
    Some (None, [0; 1; 2; 1; 4], (None, Some 99), true, mkBook [] [mkOrder 99 0 2 4 Buy]) ∧
  ∃ e race, exec LobQueue.acquire sample_schedule start = Some (e, race) ∧ accepted_ e `sublist_of` issued_ e.
Proof.
  split; [vm_compute; reflexivity|].
  destruct (stand_alone_engine LobQueue.acquire 0 sample_schedule) as (e & race & Hx & _ & Hs & _).
  - repeat constructor; simpl; lia.
  - vm_compute. discriminate.
  - exists e, race. exact (conj Hx Hs).
Defined.

(** The same with the load the code has: the first command pushed after the start. *)
Lemma relaxed_load_races :
  outcome_of kTailOrder sample_schedule =
    Some (Some LobQueue.kConsumer, [0], (Some 100, None), true, mkBook [mkOrder 100 0 5 0 Sell] []).
Proof. vm_compute. reflexivity. Qed.

(** Two clients that have both read [tail] write the same slot. *)
Definition two_clients : list action :=
  [Submit 0 0 100 5 Sell; Submit 1 0 101 5 Sell; Push 0 0; Push 1 0; Push 0 0; Push 1 0; Push 0 0; Push 1 0].

Lemma two_clients_race tail_order :
  (λ x, (x.2, accepted_ x.1)) <$> exec tail_order two_clients start = Some (Some (thread_of 1), []).
Proof. destruct tail_order; vm_compute; reflexivity. Qed.

(** A stop that is requested before the worker gets to run is overwritten. *)
Lemma stop_before_run_is_lost :
  (λ x, (running x.1, worker x.1)) <$> exec kTailOrder [Start 0; Stop; Run 0; Run 0] start =
    Some (true, Popping LobQueue.LoadHead).
Proof. vm_compute. reflexivity. Qed.

End LobEngineProps.
