(* ===== verification/StealQueue.v ===== *)
(** * The queues of the work-stealing pool (Module StealQueue), and that no item is lost or
    handed out twice (Module StealProps) *)

From S2P Require Import Prelude Ring.

(** * The queues of the work-stealing pool ([ChaseLevThreadPool/WorkerDeque.hpp],
    [ChaseLevThreadPool/GlobalSPMCQueue.hpp])

    The Chase-Lev deque, which one owner pushes to and pops from and any number of thieves
    steal from, and the queue of one producer and any number of consumers. A step is one
    access of a thread to what others write: the thread's place in its operation, with
    its local variables, is a value ([Owner], [Thief], [Producer], [Consumer]). Memory is
    sequentially consistent; indices are signed 64-bit integers. *)

Module StealQueue.
Section queue.
Context {T : Type} (Capacity : Z).

(** Both classes: [top_], [bottom_], [buffer_]. *)
Record t := mk { top_ : Z; bottom_ : Z; buffer_ : list T }.

(** [value]: what [std::atomic<T>] is initialised to. *)
Definition make (value : T) : t := mk 0 0 (replicate (Z.to_nat Capacity) value).

Definition getMask (val : Z) : Z := Z.land val (Capacity - 1).

Definition with_bottom (b : Z) (d : t) : t := mk (top_ d) b (buffer_ d).

(** The slot of an index read, and written. *)
Definition load_slot (i : Z) (d : t) : option T := vget (buffer_ d) (getMask i).

Definition store_slot (i : Z) (item : T) (d : t) : option t :=
  buffer ← vset (buffer_ d) (getMask i) item; Some (mk (top_ d) (bottom_ d) buffer).

(** [top_.compare_exchange]: whether it took place. *)
Definition cas_top (expected : Z) (d : t) : bool * t :=
  if top_ d =? expected then (true, mk (i64 (expected + 1)) (bottom_ d) (buffer_ d)) else (false, d).

(** ** The deque's owner *)

(** In [push]: before the load of [top_], before the slot is written, before [bottom_] is.
    In [pop]: before [bottom_] is decremented, before the load of [top_], then for each
    of the three cases before its next access. *)
Inductive Owner :=
  | PushLoad (item : T)
  | PushStore (item : T) (b : Z)
  | PushPublish (item : T) (b : Z)
  | PopStart
  | PopTop (b : Z)
  | PopRestore (tp : Z)
  | PopRead (b : Z)
  | PopCas (b tp : Z)
  | PopWon (b tp : Z)
  | PopLost (tp : Z).

(** What [push] was given and answers, and what [pop] answers. *)
Inductive OwnerAnswer := Pushed (item : T) (ok : bool) | Popped (item : option T).

Definition owner_step (o : Owner) (d : t) : option ((Owner + OwnerAnswer) * t) :=
  match o with
  | PushLoad item =>
      let b := bottom_ d in
      Some (if Capacity <=? i64 (b - top_ d) then inr (Pushed item false) else inl (PushStore item b), d)
  | PushStore item b => d ← store_slot b item d; Some (inl (PushPublish item b), d)
  | PushPublish item b => Some (inr (Pushed item true), with_bottom (i64 (b + 1)) d)
  | PopStart => let b := i64 (bottom_ d - 1) in Some (inl (PopTop b), with_bottom b d)
  | PopTop b =>
      let tp := top_ d in
      let sz := i64 (b - tp) in
      Some (inl (if sz <? 0 then PopRestore tp else if 0 <? sz then PopRead b else PopCas b tp), d)
  | PopRestore tp => Some (inr (Popped None), with_bottom tp d)
  | PopRead b => item ← load_slot b d; Some (inr (Popped (Some item)), d)
  | PopCas b tp => let '(won, d) := cas_top tp d in Some (inl (if won then PopWon b tp else PopLost tp), d)
  | PopWon b tp => Some (inl (PopRead b), with_bottom (i64 (tp + 1)) d)
  | PopLost tp => Some (inr (Popped None), with_bottom (i64 (tp + 1)) d)
  end.

(** ** A thief *)

Inductive Thief :=
  | StealTop
  | StealBottom (tp : Z)
  | StealRead (tp : Z)
  | StealCas (tp : Z) (task : T).

(** [inr]: what [steal] answers. *)
Definition thief_step (s : Thief) (d : t) : option ((Thief + option T) * t) :=
  match s with
  | StealTop => Some (inl (StealBottom (top_ d)), d)
  | StealBottom tp => Some (if i64 (bottom_ d - tp) <=? 0 then inr None else inl (StealRead tp), d)
  | StealRead tp => task ← load_slot tp d; Some (inl (StealCas tp task), d)
  | StealCas tp task => let '(won, d) := cas_top tp d in Some (inr (if won then Some task else None), d)
  end.

(** ** The global queue *)

Inductive Producer :=
  | GLoad (item : T)
  | GStore (item : T) (b : Z)
  | GPublish (item : T) (b : Z).

Definition producer_step (p : Producer) (d : t) : option ((Producer + bool) * t) :=
  match p with
  | GLoad item =>
      let b := bottom_ d in
      Some (if Capacity <=? i64 (b - top_ d) then inr false else inl (GStore item b), d)
  | GStore item b => d ← store_slot b item d; Some (inl (GPublish item b), d)
  | GPublish item b => Some (inr true, with_bottom (i64 (b + 1)) d)
  end.

Inductive Consumer :=
  | GTop
  | GBottom (pos : Z)
  | GRead (pos : Z)
  | GCas (pos : Z) (item : T).

(** [spurious]: a weak compare-exchange may fail on its own. *)
Definition consumer_step (spurious : bool) (s : Consumer) (d : t) : option ((Consumer + option T) * t) :=
  match s with
  | GTop => Some (inl (GBottom (top_ d)), d)
  | GBottom pos => Some (if bottom_ d <=? pos then inr None else inl (GRead pos), d)
  | GRead pos => item ← load_slot pos d; Some (inl (GCas pos item), d)
  | GCas pos item =>
      if spurious then Some (inl (GBottom (top_ d)), d)
      else let '(won, d') := cas_top pos d in
           Some (if won then inr (Some item) else inl (GBottom (top_ d)), d')
  end.
End queue.

#[global] Arguments t : clear implicits.
#[global] Arguments Owner : clear implicits.
#[global] Arguments OwnerAnswer : clear implicits.
#[global] Arguments Thief : clear implicits.
#[global] Arguments Producer : clear implicits.
#[global] Arguments Consumer : clear implicits.
End StealQueue.

(** * The queues of the work-stealing pool: nothing is lost, nothing is taken twice

    The items a queue has, from [top_] on, and what each thread in the middle of an
    operation knows about them. Every step of the owner, of a thief, of the producer and
    of a consumer keeps what all the others know, and moves an item, at most, between the
    queue and the thread. *)

Module StealProps.
Import Ring StealQueue.

Section queue.
Context {T : Type} (Capacity : Z).
Implicit Types (d : t T) (c : list T) (n : Z).

Notation load_slot := (load_slot Capacity).
Notation owner_step := (owner_step Capacity).
Notation thief_step := (thief_step Capacity).

(** [c] is what can be taken; the indices are at most [n]. *)
Record Rep n d c : Prop := {
  rp_size : vsize (buffer_ d) = Capacity;
  rp_top : 0 ≤ top_ d;
  rp_bound : top_ d + vsize c ≤ n;
  rp_fits : vsize c ≤ Capacity;
  rp_holds : holds Capacity (buffer_ d) (top_ d) c;
}.

Definition readable (b : Z) d : Prop := is_Some (load_slot b d).

Definition owner_ok d c (o : option (Owner T)) : Prop :=
  match o with
  | None | Some (PushLoad _) | Some PopStart => bottom_ d = top_ d + vsize c
  | Some (PushStore _ b) => b = bottom_ d ∧ bottom_ d = top_ d + vsize c ∧ vsize c < Capacity
  | Some (PushPublish item b) =>
      b = bottom_ d ∧ bottom_ d = top_ d + vsize c ∧ vsize c < Capacity ∧ load_slot b d = Some item
  | Some (PopTop b) => bottom_ d = b ∧ b + 1 = top_ d + vsize c
  | Some (PopRestore tp) => bottom_ d = tp - 1 ∧ tp = top_ d ∧ c = []
  | Some (PopRead b) => bottom_ d = top_ d + vsize c ∧ readable b d
  | Some (PopCas b tp) => b = tp ∧ bottom_ d = tp ∧ readable b d ∧
      ((top_ d = tp ∧ vsize c = 1) ∨ (top_ d = tp + 1 ∧ c = []))
  | Some (PopWon b tp) => b = tp ∧ bottom_ d = tp ∧ readable b d ∧ top_ d = tp + 1 ∧ c = []
  | Some (PopLost tp) => bottom_ d = tp ∧ top_ d = tp + 1 ∧ c = []
  end.

(** The item the owner has that the queue has not: one it is about to push, or one that
    is its already and that it has yet to read. *)
Definition owner_hand d (o : option (Owner T)) : list T :=
  match o with
  | Some (PushLoad item) | Some (PushStore item _) | Some (PushPublish item _) => [item]
  | Some (PopRead b) | Some (PopWon b _) => option_list (load_slot b d)
  | _ => []
  end.

Definition answer_hand (a : OwnerAnswer T) : list T :=
  match a with Pushed item ok => if ok then [] else [item] | Popped item => option_list item end.

Definition thief_ok d c (s : Thief T) : Prop :=
  match s with
  | StealTop => True
  | StealBottom tp => 0 ≤ tp ≤ top_ d
  | StealRead tp => tp ≤ top_ d ∧ (tp = top_ d → c ≠ [])
  | StealCas tp task => tp ≤ top_ d ∧ (tp = top_ d → head c = Some task)
  end.

Definition producer_ok d c (p : option (Producer T)) : Prop :=
  bottom_ d = top_ d + vsize c ∧
  match p with
  | Some (GStore _ b) => b = bottom_ d ∧ vsize c < Capacity
  | Some (GPublish item b) => b = bottom_ d ∧ vsize c < Capacity ∧ load_slot b d = Some item
  | _ => True
  end.

Definition consumer_ok d c (s : Consumer T) : Prop :=
  match s with
  | GTop => True
  | GBottom pos => 0 ≤ pos ≤ top_ d
  | GRead pos => pos ≤ top_ d ∧ (pos = top_ d → c ≠ [])
  | GCas pos item => pos ≤ top_ d ∧ (pos = top_ d → head c = Some item)
  end.

(** What a step of another thread may do: while [top_] stays, so does the item there. *)
Definition moved d c d' c' : Prop :=
  top_ d ≤ top_ d' ∧ (top_ d' = top_ d → c ≠ [] → head c' = head c).

Lemma moved_refl d c : moved d c d c.
Proof. by split. Qed.

Lemma head_some c (x : T) : head c = Some x → c ≠ [].
Proof. by destruct c. Qed.

Lemma thief_moved d c d' c' s : thief_ok d c s → moved d c d' c' → thief_ok d' c' s.
Proof.
  intros Hs [Hle Hh]. destruct s as [|tp|tp|tp x]; cbn in *; [done|lia|..]; destruct Hs as [Ht Hc];
    (split; [lia|]); intros ->; assert (top_ d' = top_ d) as E by lia; specialize (Hc E).
  - intros ->. specialize (Hh E Hc). by destruct c.
  - rewrite Hh; [done|done|]. by eapply head_some.
Qed.

Lemma consumer_moved d c d' c' s : consumer_ok d c s → moved d c d' c' → consumer_ok d' c' s.
Proof.
  intros Hs Hm. destruct s as [|tp|tp|tp x]; [done|..].
  - exact (thief_moved _ _ _ _ (StealBottom tp) Hs Hm).
  - exact (thief_moved _ _ _ _ (StealRead tp) Hs Hm).
  - exact (thief_moved _ _ _ _ (StealCas tp x) Hs Hm).
Qed.

Lemma owner_bottom d c o : owner_ok d c o → top_ d - 1 ≤ bottom_ d ≤ top_ d + vsize c.
Proof.
  pose proof (vsize_nonneg c). destruct o as [[]|]; cbn; intuition (subst; try lia).
Qed.

(** ** Claims *)

(** Nothing, or the front item with it gone. *)
Definition claimed d c (item : option T) d' c' : Prop :=
  match item with
  | None => d' = d ∧ c' = c
  | Some x => c = x :: c' ∧ d' = mk (top_ d + 1) (bottom_ d) (buffer_ d)
  end.

Lemma claimed_moved d c item d' c' : claimed d c item d' c' → moved d c d' c'.
Proof. destruct item; intros [-> ->]; [split; cbn; lia|apply moved_refl]. Qed.

Lemma claimed_rep n d c item d' c' : Rep n d c → claimed d c item d' c' → Rep n d' c'.
Proof.
  intros [Hs Ht Hb Hf Hh]. destruct item as [x|]; intros [-> ->]; [|by split].
  unfold vsize in Hb, Hf. cbn [length] in Hb, Hf. split; cbn; unfold vsize; try done; try lia.
  by destruct (holds_head _ _ _ _ _ Hh).
Qed.

Lemma claimed_items d c item d' c' : claimed d c item d' c' → c = option_list item ++ c'.
Proof. destruct item; by intros [-> ->]. Qed.

Lemma claimed_owner d c item d' c' o : claimed d c item d' c' → owner_ok d c o → owner_ok d' c' o.
Proof.
  destruct item as [x|]; intros [-> ->]; [|done]. pose proof (vsize_nonneg c'). unfold readable, StealQueue.load_slot.
  assert (vsize (x :: c') = vsize c' + 1) as E by (unfold vsize; cbn [length]; lia).
  destruct o as [[]|]; cbn; rewrite ?E; intuition (try lia; try done).
  right. split; [lia|]. destruct c'; [done|]. unfold vsize in *. cbn [length] in *. lia.
Qed.

Lemma claimed_owner_hand d c item d' c' o : claimed d c item d' c' → owner_hand d' o = owner_hand d o.
Proof. destruct item as [x|]; [intros [_ ->]; by destruct o as [[]|]|by intros [-> _]]. Qed.

Lemma claimed_producer d c item d' c' p : claimed d c item d' c' → producer_ok d c p → producer_ok d' c' p.
Proof.
  destruct item as [x|]; intros [-> ->]; [|done]. unfold producer_ok, StealQueue.load_slot.
  assert (vsize (x :: c') = vsize c' + 1) as E by (unfold vsize; cbn [length]; lia). rewrite E. cbn.
  intros [Hb Hp]. split; [lia|]. destruct p as [[]|]; intuition lia.
Qed.

(** ** The pieces of the operations *)

Context (k : Z) (Hk : 0 ≤ k ≤ 62) (HC : Capacity = 2 ^ k).

Lemma capacity_small : 0 < Capacity ≤ 2 ^ 62.
Proof. rewrite HC. split; [apply Z.pow_pos_nonneg; lia|apply Z.pow_le_mono_r; lia]. Qed.

Lemma mask_slot i : getMask Capacity i = slot Capacity i.
Proof. apply (land_slot Capacity k); [lia|done]. Qed.

Lemma readable_any n d c b : Rep n d c → readable b d.
Proof.
  intros HR. unfold readable, StealQueue.load_slot. rewrite mask_slot. apply vget_is_Some. rewrite (rp_size _ _ _ HR).
  apply (slot_range Capacity k); [lia|done].
Qed.

Lemma load_front n d x c : Rep n d (x :: c) → load_slot (top_ d) d = Some x.
Proof. intros HR. unfold StealQueue.load_slot. rewrite mask_slot. by destruct (holds_head _ _ _ _ _ (rp_holds _ _ _ HR)). Qed.

Lemma load_back n d x c : Rep n d (c ++ [x]) → load_slot (top_ d + vsize c) d = Some x.
Proof. intros HR. unfold StealQueue.load_slot. rewrite mask_slot. by destruct (holds_init _ _ _ _ _ (rp_holds _ _ _ HR)). Qed.

Lemma rep_bottom n m d c b : Rep n d c → n ≤ m → Rep m (with_bottom b d) c.
Proof. intros [] ?. split; try done. cbn. lia. Qed.

Lemma rep_store n d c item : Rep n d c → vsize c < Capacity →
  ∃ d', store_slot Capacity (top_ d + vsize c) item d = Some d' ∧ Rep n d' c ∧ top_ d' = top_ d ∧ bottom_ d' = bottom_ d ∧
    load_slot (top_ d + vsize c) d' = Some item.
Proof.
  intros [Hs Ht Hb Hf Hh] Hlt. unfold store_slot, StealQueue.load_slot. rewrite mask_slot.
  pose proof (slot_range Capacity k ltac:(lia) HC (top_ d + vsize c)) as Hr.
  rewrite vset_Some by lia. cbn [mbind option_bind]. eexists. split; [done|].
  destruct (holds_write Capacity k ltac:(lia) HC (buffer_ d) (top_ d) item c Hs Hlt Hh) as [H1 H2].
  split; [|done]. split; cbn; try done. by rewrite vsize_vput.
Qed.

Lemma rep_publish n d c item : Rep n d c → vsize c < Capacity → bottom_ d = top_ d + vsize c → n + 1 < 2 ^ 63 →
  load_slot (bottom_ d) d = Some item → let d' := with_bottom (i64 (bottom_ d + 1)) d in
  Rep (n + 1) d' (c ++ [item]) ∧ bottom_ d' = top_ d' + vsize (c ++ [item]) ∧ moved d c d' (c ++ [item]).
Proof.
  intros [Hs Ht Hb Hf Hh] Hlt Hbot Hn Hl. pose proof (vsize_nonneg c). cbn zeta. split; [|split].
  - split; cbn; try done; rewrite ?vsize_snoc; [lia|lia|]. apply holds_snoc; [done|].
    unfold StealQueue.load_slot in Hl. by rewrite mask_slot, Hbot in Hl.
  - rewrite vsize_snoc. cbn. rewrite i64_small by (unfold in_i64; lia). lia.
  - split; [done|]. intros _ Hne. by destruct c.
Qed.

(** A compare-exchange that takes place takes the front item. *)
Lemma rep_claim n d x c : Rep n d (x :: c) → n < 2 ^ 63 →
  let d' := mk (i64 (top_ d + 1)) (bottom_ d) (buffer_ d) in
  Rep n d' c ∧ top_ d' = top_ d + 1 ∧ moved d (x :: c) d' c.
Proof.
  intros [Hs Ht Hb Hf Hh] Hn. unfold vsize in Hb, Hf. cbn [length] in Hb, Hf. cbn zeta.
  assert (i64 (top_ d + 1) = top_ d + 1) as E by (apply i64_small; unfold in_i64; lia). split; [|split].
  - split; cbn; rewrite ?E; try done; try (unfold vsize; lia). by apply (holds_head Capacity) in Hh as [_ ?].
  - exact E.
  - split; cbn; lia.
Qed.

(** ** The owner's steps *)

Definition owner_next (r : Owner T + OwnerAnswer T) : option (Owner T) :=
  match r with inl o => Some o | inr _ => None end.

Definition owner_after d (r : Owner T + OwnerAnswer T) : list T :=
  match r with inl o => owner_hand d (Some o) | inr a => answer_hand a end.

(** What a step of the owner must give. *)
Definition owner_steps n d c (o : Owner T) : Prop := ∃ r d' c',
  owner_step o d = Some (r, d') ∧ Rep (n + 1) d' c' ∧ owner_ok d' c' (owner_next r) ∧ moved d c d' c' ∧
  owner_hand d (Some o) ++ c ≡ₚ owner_after d' r ++ c' ∧ (r = inr (Popped None) → c' = []).

Lemma rep_later n d c : Rep n d c → Rep (n + 1) d c.
Proof. intros []. split; try done. lia. Qed.

(** A step that changes nothing the others see. *)
Lemma owner_stays n d c o r b : Rep n d c → owner_step o d = Some (r, with_bottom b d) →
  owner_ok (with_bottom b d) c (owner_next r) → owner_hand d (Some o) = owner_after (with_bottom b d) r →
  (r = inr (Popped None) → c = []) → owner_steps n d c o.
Proof.
  intros HR E Hok Hh Hn. exists r, (with_bottom b d), c. split; [done|]. split; [apply (rep_bottom n); [done|lia]|].
  split; [done|]. split; [by split|]. split; [by rewrite Hh|done].
Qed.

Lemma with_same_bottom d : with_bottom (bottom_ d) d = d.
Proof. by destruct d. Qed.

Lemma push_steps n d c o : Rep n d c → n + 1 < 2 ^ 63 → owner_ok d c (Some o) →
  match o with PushLoad _ | PushStore _ _ | PushPublish _ _ => owner_steps n d c o | _ => True end.
Proof.
  intros HR Hn Hok. pose proof HR as [Hs Ht Hb Hf Hh]. pose proof capacity_small. pose proof (vsize_nonneg c).
  destruct o as [item|item b|item b| | | | | | |]; try done; cbn [owner_ok] in Hok.
  - apply (owner_stays _ _ _ _ (if Capacity <=? vsize c then inr (Pushed item false) else inl (PushStore item (bottom_ d)))
      (bottom_ d) HR); rewrite ?with_same_bottom.
    + cbn. rewrite Hok, i64_small by (unfold in_i64; lia). by replace (top_ d + vsize c - top_ d) with (vsize c) by lia.
    + destruct (Z.leb_spec Capacity (vsize c)); cbn; [done|]. split_and!; [done|done|lia].
    + by case_bool.
    + by case_bool.
  - destruct Hok as (-> & Hbot & Hlt). destruct (rep_store n d c item HR Hlt) as (d' & Hd & HR' & Et & Eb & Hl).
    rewrite <-Hbot in Hd, Hl. exists (inl (PushPublish item (bottom_ d))), d', c. cbn. rewrite Hd. split; [done|].
    split; [by apply rep_later|]. rewrite Eb, Et. split; [done|]. split; [|done]. unfold moved. rewrite Et. by split.
  - destruct Hok as (-> & Hbot & Hlt & Hl). destruct (rep_publish n d c item HR Hlt Hbot Hn Hl) as (HR' & Hbot' & Hm).
    exists (inr (Pushed item true)), (with_bottom (i64 (bottom_ d + 1)) d), (c ++ [item]). split; [done|].
    split; [done|]. split; [done|]. split; [done|]. split; [|done]. cbn. by rewrite Permutation_app_comm.
Qed.

(** The load of [top_] decides: with two or more items the last one is the owner's. *)
Lemma pop_top_steps n d c b : Rep n d c → n + 1 < 2 ^ 63 → owner_ok d c (Some (PopTop b)) → owner_steps n d c (PopTop b).
Proof.
  intros HR Hn [Hbot Hb]. pose proof HR as [Hs Ht Hbd Hf Hh]. pose proof capacity_small. pose proof (vsize_nonneg c).
  assert (i64 (b - top_ d) = vsize c - 1) as Esz by (rewrite i64_small; [lia|unfold in_i64; lia]).
  destruct (Z.ltb_spec (vsize c) 2) as [Hsmall|Hlarge].
  - apply (owner_stays _ _ _ _ (inl (if vsize c - 1 <? 0 then PopRestore (top_ d) else PopCas b (top_ d))) (bottom_ d) HR);
      rewrite ?with_same_bottom.
    + cbn. rewrite Esz. case_bool; [done|]. by replace (0 <? vsize c - 1) with false by lia.
    + destruct (Z.ltb_spec (vsize c - 1) 0); cbn.
      * split_and!; [lia|done|]. destruct c; [done|]. unfold vsize in *. cbn [length] in *. lia.
      * split_and!; [lia|lia|by eapply readable_any|left; lia].
    + by case_bool.
    + by case_bool.
  - destruct (exists_last (l := c)) as (c0 & x & ->); [by intros ->|]. rewrite vsize_snoc in *.
    exists (inl (PopRead b)), d, c0. cbn. rewrite Esz. replace (vsize c0 + 1 - 1 <? 0) with false by lia.
    replace (0 <? vsize c0 + 1 - 1) with true by lia. split; [done|]. split; [|split; [|split; [|split; [|done]]]].
    + split; try done; [lia|lia|]. by destruct (holds_init _ _ _ _ _ Hh).
    + split; [lia|by eapply readable_any].
    + split; [done|]. intros _ _. destruct c0; [change (vsize []) with 0 in *; lia|done].
    + replace b with (top_ d + vsize c0) by lia. rewrite (load_back n d x c0 HR). cbn. by rewrite Permutation_app_comm.
Qed.

Lemma pop_cas_steps n d c b tp : Rep n d c → n + 1 < 2 ^ 63 → owner_ok d c (Some (PopCas b tp)) →
  owner_steps n d c (PopCas b tp).
Proof.
  intros HR Hn (-> & Hbot & Hread & Hcase). pose proof HR as [Hs Ht Hbd Hf Hh]. destruct Hcase as [[Htop Hsize]|[Htop ->]].
  - destruct c as [|x [|y c]]; [done| |unfold vsize in Hsize; cbn [length] in Hsize; lia].
    destruct (rep_claim n d x [] HR) as (HR' & Et & Hm); [lia|]. rewrite Htop in *.
    exists (inl (PopWon tp tp)), (mk (i64 (tp + 1)) (bottom_ d) (buffer_ d)), []. cbn. unfold cas_top.
    rewrite Htop, Z.eqb_refl. split; [done|].
    split; [by apply rep_later|]. split; [split_and!; try done; by eapply readable_any|]. split; [done|].
    split; [|done]. pose proof (load_front n d x [] HR) as Hl. rewrite Htop in Hl.
    unfold StealQueue.load_slot in Hl |- *. cbn. by rewrite Hl.
  - apply (owner_stays _ _ _ _ (inl (PopLost tp)) (bottom_ d) HR); rewrite ?with_same_bottom; try done.
    cbn. unfold cas_top. by rewrite Htop, (proj2 (Z.eqb_neq _ _)) by lia.
Qed.

Lemma owner_step_ok n d c o : Rep n d c → n + 1 < 2 ^ 63 → owner_ok d c (Some o) → owner_steps n d c o.
Proof.
  intros HR Hn Hok. pose proof (push_steps n d c o HR Hn Hok) as Hpush. pose proof HR as [Hs Ht Hbd Hf Hh].
  pose proof (vsize_nonneg c). destruct o as [item|item b|item b| |b|tp|b|b tp|b tp|tp]; try exact Hpush.
  - cbn in Hok. apply (owner_stays _ _ _ _ (inl (PopTop (bottom_ d - 1))) (bottom_ d - 1) HR); try done.
    + cbn. by rewrite i64_small by (unfold in_i64; lia).
    + cbn. lia.
  - by apply pop_top_steps.
  - destruct Hok as (Hbot & -> & ->). apply (owner_stays _ _ _ _ (inr (Popped None)) (top_ d) HR); try done.
    cbn. change (vsize []) with 0. lia.
  - destruct Hok as [Hbot [x Hx]]. apply (owner_stays _ _ _ _ (inr (Popped (Some x))) (bottom_ d) HR);
      rewrite ?with_same_bottom; try done; cbn; by rewrite Hx.
  - by apply pop_cas_steps.
  - destruct Hok as (-> & Hbot & Hread & Htop & ->).
    apply (owner_stays _ _ _ _ (inl (PopRead tp)) (tp + 1) HR); try done.
    + cbn. by rewrite i64_small by (unfold in_i64; lia).
    + split; [cbn; change (vsize []) with 0; lia|done].
  - destruct Hok as (Hbot & Htop & ->). apply (owner_stays _ _ _ _ (inr (Popped None)) (tp + 1) HR); try done.
    + cbn. by rewrite i64_small by (unfold in_i64; lia).
    + cbn. change (vsize []) with 0. lia.
Qed.

(** ** Readers *)

Lemma cas_claims n d c tp x : Rep n d c → n < 2 ^ 63 → tp ≤ top_ d → (tp = top_ d → head c = Some x) →
  ∃ d' c', cas_top tp d = (bool_decide (top_ d = tp), d') ∧
    claimed d c (if bool_decide (top_ d = tp) then Some x else None) d' c'.
Proof.
  intros HR Hn Hle Hx. unfold cas_top. case_bool_decide as E.
  - rewrite (proj2 (Z.eqb_eq _ _) E). specialize (Hx (eq_sym E)). destruct c as [|y c]; [done|]. injection Hx as ->.
    eexists _, c. split; [done|]. split; [done|]. destruct HR as [_ Ht Hb _ _]. unfold vsize in Hb. cbn [length] in Hb.
    f_equal. rewrite i64_small; [lia|unfold in_i64; lia].
  - rewrite (proj2 (Z.eqb_neq _ _) E). by exists d, c.
Qed.

Definition answer {X} (r : X + option T) : option T := match r with inl _ => None | inr a => a end.

(** The front of a queue is what a reader of that slot sees. *)
Lemma read_front n d c tp : Rep n d c → (tp = top_ d → c ≠ []) →
  ∃ x, load_slot tp d = Some x ∧ (tp = top_ d → head c = Some x).
Proof.
  intros HR Hne. destruct (readable_any n d c tp HR) as [x Hx]. exists x. split; [done|]. intros ->.
  destruct c as [|y c]; [by destruct Hne|]. rewrite (load_front n d y c HR) in Hx. by injection Hx as ->.
Qed.

Lemma thief_step_ok n d c s : Rep n d c → n < 2 ^ 63 → -1 ≤ bottom_ d ≤ top_ d + vsize c → thief_ok d c s →
  ∃ r d' c', thief_step s d = Some (r, d') ∧ claimed d c (answer r) d' c' ∧
    match r with inl s' => thief_ok d' c' s' | inr _ => True end.
Proof.
  intros HR Hn Hb Hs. pose proof HR as [_ Ht Hbd Hf _]. pose proof (vsize_nonneg c).
  destruct s as [|tp|tp|tp x]; cbn in Hs.
  - exists (inl (StealBottom (top_ d))), d, c. split; [done|]. split; [done|]. cbn. lia.
  - eexists _, d, c. split; [done|]. rewrite i64_small by (unfold in_i64; lia). case_bool; [done|]. split; [done|].
    cbn. split; [lia|]. intros -> ->. change (vsize []) with 0 in *. lia.
  - destruct Hs as [Hle Hne]. destruct (read_front n d c tp HR Hne) as (x & Hx & Hh).
    exists (inl (StealCas tp x)), d, c. cbn. rewrite Hx. done.
  - destruct Hs as [Hle Hx]. destruct (cas_claims n d c tp x HR Hn Hle Hx) as (d' & c' & Hcas & Hcl).
    eexists (inr _), d', c'. cbn. rewrite Hcas. split; [done|]. split; [|done]. exact Hcl.
Qed.

Lemma consumer_step_ok n d c w s : Rep n d c → n < 2 ^ 63 → bottom_ d = top_ d + vsize c → consumer_ok d c s →
  ∃ r d' c', consumer_step Capacity w s d = Some (r, d') ∧ claimed d c (answer r) d' c' ∧
    match r with inl s' => consumer_ok d' c' s' | inr None => c' = [] | inr (Some _) => True end.
Proof.
  intros HR Hn Hb Hs. pose proof HR as [_ Ht Hbd Hf _]. pose proof (vsize_nonneg c).
  destruct s as [|pos|pos|pos x]; cbn in Hs.
  - exists (inl (GBottom (top_ d))), d, c. split; [done|]. split; [done|]. cbn. lia.
  - eexists _, d, c. split; [done|]. destruct (Z.leb_spec (bottom_ d) pos); (split; [done|]).
    + destruct c; [done|]. unfold vsize in *. cbn [length] in *. lia.
    + cbn. split; [lia|]. intros -> ->. change (vsize []) with 0 in *. lia.
  - destruct Hs as [Hle Hne]. destruct (read_front n d c pos HR Hne) as (x & Hx & Hh).
    exists (inl (GCas pos x)), d, c. cbn. rewrite Hx. done.
  - destruct Hs as [Hle Hx]. cbn. destruct w; [exists (inl (GBottom (top_ d))), d, c; split_and!; [done..|cbn; lia]|].
    destruct (cas_claims n d c pos x HR Hn Hle Hx) as (d' & c' & Hcas & Hcl). rewrite Hcas.
    case_bool_decide as E.
    + by exists (inr (Some x)), d', c'.
    + destruct Hcl as [-> ->]. exists (inl (GBottom (top_ d))), d, c. split_and!; [done..|cbn; lia].
Qed.

(** ** The producer's steps *)

Definition producer_hand (p : option (Producer T)) : list T :=
  match p with Some (GLoad item) | Some (GStore item _) | Some (GPublish item _) => [item] | None => [] end.

Definition item_of (p : Producer T) : T := match p with GLoad item | GStore item _ | GPublish item _ => item end.

Lemma producer_step_ok n d c p : Rep n d c → n + 1 < 2 ^ 63 → producer_ok d c (Some p) →
  ∃ r d' c', producer_step Capacity p d = Some (r, d') ∧ Rep (n + 1) d' c' ∧ moved d c d' c' ∧
    match r with
    | inl p' => producer_ok d' c' (Some p') ∧ c' = c ∧ item_of p' = item_of p
    | inr true => producer_ok d' c' None ∧ c' = c ++ [item_of p]
    | inr false => producer_ok d' c' None ∧ c' = c
    end.
Proof.
  intros HR Hn [Hbot Hp]. pose proof HR as [Hs Ht Hb Hf Hh]. pose proof capacity_small. pose proof (vsize_nonneg c).
  destruct p as [item|item b|item b]; cbn in Hp |- *.
  - exists (if Capacity <=? vsize c then inr false else inl (GStore item (bottom_ d))), d, c.
    split; [rewrite Hbot, i64_small by (unfold in_i64; lia); by replace (top_ d + vsize c - top_ d) with (vsize c) by lia|].
    split; [by apply rep_later|]. split; [apply moved_refl|].
    destruct (Z.leb_spec Capacity (vsize c)); by split_and!.
  - destruct Hp as [-> Hlt]. destruct (rep_store n d c item HR Hlt) as (d' & Hd & HR' & Et & Eb & Hl).
    rewrite <-Hbot in Hd, Hl. exists (inl (GPublish item (bottom_ d))), d', c. rewrite Hd. split; [done|].
    split; [by apply rep_later|]. split; [unfold moved; rewrite Et; by split|]. split; [|done].
    unfold producer_ok. rewrite Eb, Et. done.
  - destruct Hp as (-> & Hlt & Hl). destruct (rep_publish n d c item HR Hlt Hbot Hn Hl) as (HR' & Hbot' & Hm).
    exists (inr true), (with_bottom (i64 (bottom_ d + 1)) d), (c ++ [item]). done.
Qed.

Lemma rep_make value : Rep 0 (make Capacity value) [].
Proof.
  pose proof capacity_small. split; cbn -[vsize]; [|done|done| |apply holds_nil].
  - unfold vsize. rewrite length_replicate. lia.
  - change (0 ≤ Capacity). lia.
Qed.

End queue.
End StealProps.
