(* ===== verification/WorkerPool.v ===== *)
(** * The work-stealing pool (Module WorkerPool), and that every task runs once (Module
    WorkerPoolProps) *)

From S2P Require Import Prelude Ring StealQueue.

(** * The work-stealing pool ([ChaseLevThreadPool/WorkerPool.hpp])

    Workers, each with a deque of its own, the global queue, and the thread that submits
    and in the end destroys the pool. A task is the [BaseTask*] that is queued; executing
    it ([executeTask]) adds it to [executed]. A step is one access of one thread to what
    the threads share; spurious failures of a compare-exchange are inputs. Futures,
    exceptions of tasks (a [packaged_task] keeps them) and thread creation are not
    modelled. *)

Module WorkerPool.
Import StealQueue.

Section pool.
Context {T : Type} (LocalCapacity GlobalCapacity : Z) (NumThreads : nat).

(** Where a worker is in [workerLoop]: at the [while] condition, in an operation on its
    own deque ([first]: the [pop] at the head of the loop), in the [pop] of the global
    queue, in a [steal] from the [i]-th neighbour, about to execute a task, or out of the
    loop. *)
Inductive Worker :=
  | AtLoop
  | Own (first : bool) (o : Owner T)
  | FromGlobal (s : Consumer T)
  | Stealing (i : nat) (s : Thief T)
  | Execute (task : T)
  | WorkerDone.

(** Where the submitting thread is: outside the pool, in the [push] of [submit], in its
    spin after a [push] that failed, and in the destructor: joining worker [id], draining
    the global queue, draining the deque of worker [id], done. *)
Inductive Main :=
  | Outside
  | Submitting (p : Producer T)
  | Spinning (task : T)
  | Joining (id : nat)
  | DrainGlobal (s : Consumer T)
  | DrainLocal (id : nat) (o : Owner T)
  | Destroyed.

(** An entry of [tasksDeque_] with its worker's place. *)
Record Cell := mkCell { worker : Worker; deque : StealQueue.t T }.

(** [accepted] and [executed] are no variables of the program's: the tasks whose [push]
    to the global queue succeeded, and those that were executed. *)
Record t := mk {
  globalQueue_ : StealQueue.t T;
  running_ : bool;
  cells : list Cell;
  main : Main;
  accepted : list T;
  executed : list T;
}.

Definition start (value : T) : t :=
  mk (StealQueue.make GlobalCapacity value) true
    (replicate NumThreads (mkCell AtLoop (StealQueue.make LocalCapacity value))) Outside [] [].

Definition with_cell (id : nat) (c : Cell) (s : t) : t :=
  mk (globalQueue_ s) (running_ s) (<[id := c]> (cells s)) (main s) (accepted s) (executed s).

Definition with_global (q : StealQueue.t T) (s : t) : t :=
  mk q (running_ s) (cells s) (main s) (accepted s) (executed s).

Definition with_main (m : Main) (s : t) : t :=
  mk (globalQueue_ s) (running_ s) (cells s) m (accepted s) (executed s).

Definition executeTask (task : T) (s : t) : t :=
  mk (globalQueue_ s) (running_ s) (cells s) (main s) (accepted s) (executed s ++ [task]).

Definition accept (task : T) (s : t) : t :=
  mk (globalQueue_ s) (running_ s) (cells s) (main s) (accepted s ++ [task]) (executed s).

(** The next neighbour to steal from, if there is one. *)
Definition steal_from (i : nat) : Worker := if (i <? NumThreads)%nat then Stealing i StealTop else AtLoop.

(** What follows an operation on the worker's own deque. *)
Definition after_own (first : bool) (a : OwnerAnswer T) : Worker :=
  match a with
  | Popped (Some task) => Execute task
  | Popped None => if first then FromGlobal GTop else AtLoop
  | Pushed _ true => Own false PopStart
  | Pushed task false => Execute task
  end.

(** The next access of worker [id]. *)
Definition worker_step (spurious : bool) (id : nat) (s : t) : option t :=
  cell ← cells s !! id;
  let d := deque cell in
  match worker cell with
  | AtLoop => Some (with_cell id (mkCell (if running_ s then Own true PopStart else WorkerDone) d) s)
  | Own first o =>
      '(r, d) ← owner_step LocalCapacity o d;
      Some (with_cell id (mkCell (match r with inl o => Own first o | inr a => after_own first a end) d) s)
  | FromGlobal c =>
      '(r, q) ← consumer_step GlobalCapacity spurious c (globalQueue_ s);
      let w := match r with
               | inl c => FromGlobal c
               | inr (Some task) => Own false (PushLoad task)
               | inr None => steal_from 1
               end in
      Some (with_cell id (mkCell w d) (with_global q s))
  | Stealing i c =>
      let threadId := ((id + i) mod NumThreads)%nat in
      victim ← cells s !! threadId;
      '(r, q) ← thief_step LocalCapacity c (deque victim);
      let w := match r with
               | inl c => Stealing i c
               | inr (Some task) => Execute task
               | inr None => steal_from (S i)
               end in
      let s := with_cell threadId (mkCell (worker victim) q) s in
      cell ← cells s !! id;
      Some (with_cell id (mkCell w (deque cell)) s)
  | Execute task => Some (with_cell id (mkCell AtLoop d) (executeTask task s))
  | WorkerDone => Some s
  end.

(** The deque to drain next. *)
Definition drain_from (id : nat) : Main := if (id <? NumThreads)%nat then DrainLocal id PopStart else Destroyed.

(** The next access of the submitting thread, inside [submit] or the destructor. *)
Definition main_step (spurious : bool) (s : t) : option t :=
  match main s with
  | Outside | Destroyed => Some s
  | Submitting p =>
      '(r, q) ← producer_step GlobalCapacity p (globalQueue_ s);
      let s := with_global q s in
      let task := match p with GLoad task | GStore task _ | GPublish task _ => task end in
      Some (match r with
            | inl p => with_main (Submitting p) s
            | inr true => with_main Outside (accept task s)
            | inr false => with_main (Spinning task) s
            end)
  | Spinning task => Some (with_main (if running_ s then Submitting (GLoad task) else Outside) s)
  | Joining id =>
      if (id <? NumThreads)%nat then
        cell ← cells s !! id;
        Some (match worker cell with WorkerDone => with_main (Joining (S id)) s | _ => s end)
      else Some (with_main (DrainGlobal GTop) s)
  | DrainGlobal c =>
      '(r, q) ← consumer_step GlobalCapacity spurious c (globalQueue_ s);
      let s := with_global q s in
      Some (match r with
            | inl c => with_main (DrainGlobal c) s
            | inr (Some task) => with_main (DrainGlobal GTop) (executeTask task s)
            | inr None => with_main (drain_from 0) s
            end)
  | DrainLocal id o =>
      cell ← cells s !! id;
      '(r, d) ← owner_step LocalCapacity o (deque cell);
      let s := with_cell id (mkCell (worker cell) d) s in
      match r with
      | inl o => Some (with_main (DrainLocal id o) s)
      | inr (Popped (Some task)) => Some (with_main (DrainLocal id PopStart) (executeTask task s))
      | inr (Popped None) => Some (with_main (drain_from (S id)) s)
      | inr (Pushed _ _) => None
      end
  end.

Inductive action :=
  | Submit (task : T)
  | Destroy
  | MainStep (spurious : bool)
  | WorkerStep (spurious : bool) (id : nat).

(** [submit] and the destructor are called by one thread, one at a time. *)
Definition step (a : action) (s : t) : option t :=
  match a, main s with
  | Submit task, Outside => Some (with_main (Submitting (GLoad task)) s)
  | Destroy, Outside =>
      Some (mk (globalQueue_ s) false (cells s) (Joining 0) (accepted s) (executed s))
  | MainStep spurious, _ => main_step spurious s
  | WorkerStep spurious id, _ => if (id <? NumThreads)%nat then worker_step spurious id s else Some s
  | _, _ => Some s
  end.

Fixpoint exec (schedule : list action) (s : t) : option t :=
  match schedule with [] => Some s | a :: schedule => s ← step a s; exec schedule s end.
End pool.

#[global] Arguments t : clear implicits.
#[global] Arguments Worker : clear implicits.
#[global] Arguments Main : clear implicits.
#[global] Arguments Cell : clear implicits.
#[global] Arguments action : clear implicits.
End WorkerPool.

(** * The work-stealing pool: every task exactly once

    The tasks that were accepted are those that were executed, those some thread has in
    hand, and those in the queues. When the destructor has returned, only the first are
    left. *)

Module WorkerPoolProps.
Import StealQueue StealProps WorkerPool.

Section pool.
Context {T : Type} (LocalCapacity GlobalCapacity kl kg : Z) (NumThreads : nat).
Context (Hkl : 0 ≤ kl ≤ 62) (Hkg : 0 ≤ kg ≤ 62).
Context (HL : LocalCapacity = 2 ^ kl) (HG : GlobalCapacity = 2 ^ kg).
Implicit Types (s : WorkerPool.t T) (cs : list (list T)) (cg c : list T) (n : Z).

Notation LRep := (StealProps.Rep LocalCapacity).
Notation GRep := (StealProps.Rep GlobalCapacity).

(** ** The invariant *)

(** Who is in the middle of an owner's operation on the deque of a cell. *)
Definition owner_at (id : nat) (w : Worker T) (m : Main T) : option (Owner T) :=
  match w with
  | Own _ o => Some o
  | _ => match m with DrainLocal j o => if decide (j = id) then Some o else None | _ => None end
  end.

Definition producing (m : Main T) : option (Producer T) :=
  match m with Submitting p => Some p | _ => None end.

Definition is_pop (o : Owner T) : bool :=
  match o with PushLoad _ | PushStore _ _ | PushPublish _ _ => false | _ => true end.

(** What a worker knows of the queues it reads from. *)
Definition worker_ok s cs cg (id : nat) (w : Worker T) : Prop :=
  match w with
  | FromGlobal r => consumer_ok (globalQueue_ s) cg r
  | Stealing i r => ∀ cell c, cells s !! ((id + i) mod NumThreads)%nat = Some cell →
      cs !! ((id + i) mod NumThreads)%nat = Some c → thief_ok (deque cell) c r
  | _ => True
  end.

Definition done_below (k : nat) s : Prop :=
  ∀ id cell, (id < k)%nat → cells s !! id = Some cell → worker cell = WorkerDone.

Definition drained_below (k : nat) cs : Prop := ∀ id c, (id < k)%nat → cs !! id = Some c → c = [].

Definition main_ok s cs cg : Prop :=
  match main s with
  | Joining id => done_below id s
  | DrainGlobal r => done_below NumThreads s ∧ consumer_ok (globalQueue_ s) cg r
  | DrainLocal id o => done_below NumThreads s ∧ cg = [] ∧ drained_below id cs ∧ (id < NumThreads)%nat ∧ is_pop o = true
  | Destroyed => done_below NumThreads s ∧ cg = [] ∧ drained_below NumThreads cs
  | _ => True
  end.

Record Inv n s cs cg : Prop := {
  iv_cells : length (cells s) = NumThreads ∧ length cs = NumThreads;
  iv_global : GRep n (globalQueue_ s) cg ∧ producer_ok GlobalCapacity (globalQueue_ s) cg (producing (main s));
  iv_deques : ∀ id cell c, cells s !! id = Some cell → cs !! id = Some c →
    LRep n (deque cell) c ∧ owner_ok LocalCapacity (deque cell) c (owner_at id (worker cell) (main s));
  iv_workers : ∀ id cell, cells s !! id = Some cell → worker_ok s cs cg id (worker cell);
  iv_main : main_ok s cs cg;
}.

(** ** The tasks *)

Definition worker_hand (cell : Cell T) : list T :=
  match worker cell with
  | Own _ o => owner_hand LocalCapacity (deque cell) (Some o)
  | Execute task => [task]
  | _ => []
  end.

Definition main_hand s : list T :=
  match main s with
  | DrainLocal id o =>
      match cells s !! id with Some cell => owner_hand LocalCapacity (deque cell) (Some o) | None => [] end
  | _ => []
  end.

Definition in_flight s cs cg : list T :=
  main_hand s ++ cg ++ concat cs ++ concat (worker_hand <$> cells s).

(** [limbo]: taken from a queue in the middle of a step. *)
Definition accounted_but (limbo : list T) s cs cg : Prop :=
  accepted s ≡ₚ executed s ++ limbo ++ in_flight s cs cg.

Notation accounted := (accounted_but []).

Lemma concat_split {A} (l : list (list A)) i x : l !! i = Some x →
  ∃ rest, ∀ y, concat (<[i := y]> l) ≡ₚ y ++ rest.
Proof.
  intros Hi. pose proof (lookup_lt_Some _ _ _ Hi). exists (concat (take i l) ++ concat (drop (S i) l)). intros y.
  rewrite insert_take_drop by done. rewrite concat_app. cbn. by rewrite Permutation_app_swap_app.
Qed.

Lemma concat_at {A} (l : list (list A)) i x rest : l !! i = Some x →
  (∀ y, concat (<[i := y]> l) ≡ₚ y ++ rest) → concat l ≡ₚ x ++ rest.
Proof. intros Hi H. by rewrite <-(H x), list_insert_id. Qed.

(** ** Steps keep what the others know *)

Lemma rep_le Cap n m (d : StealQueue.t T) c : StealProps.Rep Cap n d c → n ≤ m → StealProps.Rep Cap m d c.
Proof. intros []. by split; [..|lia| |]. Qed.

Definition active (w : Worker T) : Prop := w ≠ WorkerDone.

(** While some worker is active, the destructor is not past its joins. *)
Lemma active_main s cs cg id cell : main_ok s cs cg → length (cells s) = NumThreads → cells s !! id = Some cell →
  active (worker cell) → main_hand s = [] ∧
  match main s with Outside | Submitting _ | Spinning _ => True | Joining j => done_below j s ∧ (j ≤ id)%nat | _ => False end.
Proof.
  intros Hm Hlen Hc Ha. pose proof (lookup_lt_Some _ _ _ Hc) as Hlt. unfold main_ok, main_hand in *.
  destruct (main s) as [| | |j| |j o|]; try done.
  - split; [done|]. split; [done|]. destruct (decide (j ≤ id)%nat); [done|]. destruct Ha. by apply (Hm id cell); [lia|].
  - destruct Hm as [Hd _], Ha. by apply (Hd id); [lia|].
  - destruct Hm as [Hd _], Ha. by apply (Hd id); [lia|].
  - destruct Hm as [Hd _], Ha. by apply (Hd id); [lia|].
Qed.

Lemma main_ok_active s s' cs cg cs' cg' a cella id cell w d : main_ok s cs cg → length (cells s) = NumThreads →
  cells s !! a = Some cella → active (worker cella) → cells s !! id = Some cell →
  (w = worker cell ∨ id = a) → main s' = main s → cells s' = <[id := mkCell w d]> (cells s) →
  main_ok s' cs' cg'.
Proof.
  intros Hm Hlen Ha Hact Hc Hw Em Ec. destruct (active_main _ _ _ _ _ Hm Hlen Ha Hact) as [_ H].
  unfold main_ok. rewrite Em. destruct (main s) as [| | |j| |j o|]; try done. destruct H as [Hd Hle].
  intros i x Hi Hx. rewrite Ec, list_lookup_insert_Some in Hx. destruct Hx as [(-> & <- & _)|[_ Hx]]; [|by apply (Hd i)].
  destruct Hw as [->| ->]; [|lia]. cbn. by eapply Hd.
Qed.

Lemma worker_ok_moved s s' cs cg id cell c d' c' w' j w : worker_ok s cs cg j w →
  cells s !! id = Some cell → cs !! id = Some c → moved (deque cell) c d' c' →
  globalQueue_ s' = globalQueue_ s → cells s' = <[id := mkCell w' d']> (cells s) →
  worker_ok s' (<[id := c']> cs) cg j w.
Proof.
  intros Hw Hc Hcs Hm Eg Ec. destruct w as [| |r|i r| |]; cbn in *; [done|done|by rewrite Eg| |done|done].
  rewrite Ec. intros x y Hx Hy. apply list_lookup_insert_Some in Hx, Hy.
  destruct Hx as [(E1 & <- & _)|[Hne Hx]], Hy as [(E2 & <- & _)|[Hne' Hy]]; try done; [|by apply Hw].
  rewrite <-E1 in Hw. eapply thief_moved; [by apply Hw|done].
Qed.

(** A step on the deque of a cell, by its owner or a thief, and a change of its worker's
    place. *)
Lemma set_cell n m s cs cg id cell c w d' c' : Inv n s cs cg → n ≤ m →
  cells s !! id = Some cell → cs !! id = Some c →
  LRep m d' c' → owner_ok LocalCapacity d' c' (owner_at id w (main s)) → moved (deque cell) c d' c' →
  let s' := with_cell id (mkCell w d') s in
  worker_ok s' (<[id := c']> cs) cg id w → main_ok s' (<[id := c']> cs) cg → Inv m s' (<[id := c']> cs) cg.
Proof.
  intros [[Hl1 Hl2] [Hg Hp] Hd Hw Hm] Hle Hc Hcs HR Ho Hmv s' Hw' Hm'. split; [| | | |done].
  - cbn. by rewrite !length_insert.
  - split; [by eapply rep_le|done].
  - intros j x y Hx Hy. cbn in Hx. apply list_lookup_insert_Some in Hx, Hy.
    destruct Hx as [(E1 & <- & _)|[Hne Hx]], Hy as [(E2 & <- & _)|[Hne' Hy]]; try done; [by subst j|].
    destruct (Hd j x y Hx Hy). split; [by eapply rep_le|done].
  - intros j x Hx. cbn in Hx. rewrite list_lookup_insert_Some in Hx. destruct Hx as [(<- & <- & _)|[Hne Hx]]; [done|].
    eapply worker_ok_moved; [by apply Hw|done..].
Qed.

(** A step on the global queue, and of the submitting thread. *)
Lemma set_global n m s s' cs cg cg' : Inv n s cs cg → n ≤ m → cells s' = cells s →
  GRep m (globalQueue_ s') cg' → moved (globalQueue_ s) cg (globalQueue_ s') cg' →
  producer_ok GlobalCapacity (globalQueue_ s') cg' (producing (main s')) →
  (∀ id cell c, cells s !! id = Some cell → cs !! id = Some c →
     owner_ok LocalCapacity (deque cell) c (owner_at id (worker cell) (main s)) →
     owner_ok LocalCapacity (deque cell) c (owner_at id (worker cell) (main s'))) →
  main_ok s' cs cg' → Inv m s' cs cg'.
Proof.
  intros [Hl [Hg Hp] Hd Hw Hm] Hle Ec HR Hmv Hp' Ho Hm'. split; rewrite ?Ec; [done|done| | |done].
  - intros j x y Hx Hy. destruct (Hd j x y Hx Hy). split; [by eapply rep_le|by apply Ho].
  - intros j x Hx. specialize (Hw j x Hx). destruct (worker x); cbn in *; try done; [by eapply consumer_moved|].
    by rewrite Ec.
Qed.

(** ** Steps keep the account *)

(** A cell's part of what is in flight. *)
Lemma flight_cell s cs id cell c : cells s !! id = Some cell → cs !! id = Some c → ∃ rest,
  concat cs ++ concat (worker_hand <$> cells s) ≡ₚ (c ++ worker_hand cell) ++ rest ∧
  ∀ cell' c', concat (<[id := c']> cs) ++ concat (worker_hand <$> <[id := cell']> (cells s)) ≡ₚ
    (c' ++ worker_hand cell') ++ rest.
Proof.
  intros Hc Hcs. destruct (concat_split cs id c Hcs) as (r1 & H1).
  destruct (concat_split (worker_hand <$> cells s) id (worker_hand cell)) as (r2 & H2);
    [by rewrite list_lookup_fmap, Hc|].
  exists (r1 ++ r2). split.
  - rewrite (concat_at cs id c r1 Hcs H1), (concat_at _ id (worker_hand cell) r2); [|by rewrite list_lookup_fmap, Hc|done].
    solve_Permutation.
  - intros cell' c'. rewrite H1, list_fmap_insert, H2. solve_Permutation.
Qed.

Definition own_of (w : Worker T) : option (Owner T) := match w with Own _ o => Some o | _ => None end.

Lemma inv_same n s s' cs cg : globalQueue_ s' = globalQueue_ s → cells s' = cells s → main s' = main s →
  Inv n s cs cg → Inv n s' cs cg.
Proof. destruct s, s'. cbn. intros -> -> -> [H1 H2 H3 H4 H5]. by split. Qed.

Lemma active_owner s cs cg id cell j w : main_ok s cs cg → length (cells s) = NumThreads → cells s !! id = Some cell →
  active (worker cell) → owner_at j w (main s) = own_of w.
Proof.
  intros Hm Hlen Hc Ha. destruct (active_main _ _ _ _ _ Hm Hlen Hc Ha) as [_ H].
  by destruct w, (main s).
Qed.

Lemma main_hand_active s cs cg id cell : main_ok s cs cg → length (cells s) = NumThreads → cells s !! id = Some cell →
  active (worker cell) → ∀ s', main s' = main s → main_hand s' = [].
Proof.
  intros Hm Hlen Hc Ha s' E. destruct (active_main _ _ _ _ _ Hm Hlen Hc Ha) as [_ H].
  unfold main_hand. rewrite E. by destruct (main s).
Qed.

(** A step of an active worker [a] on the deque of cell [id], which changes the place of
    its worker if it is [a]'s; [out] is executed. *)
Lemma cell_step n s s' cs cg a cella id cell c w d' c' out l l' : Inv n s cs cg → accounted_but l s cs cg →
  cells s !! a = Some cella → active (worker cella) → cells s !! id = Some cell → cs !! id = Some c →
  (w = worker cell ∨ id = a) →
  globalQueue_ s' = globalQueue_ s → cells s' = <[id := mkCell w d']> (cells s) → main s' = main s →
  accepted s' = accepted s → executed s' = executed s ++ out →
  LRep (n + 1) d' c' → owner_ok LocalCapacity d' c' (own_of w) → moved (deque cell) c d' c' →
  worker_ok s' (<[id := c']> cs) cg id w →
  Inv (n + 1) s' (<[id := c']> cs) cg ∧
  (l ++ c ++ worker_hand cell ≡ₚ out ++ l' ++ c' ++ worker_hand (mkCell w d') → accounted_but l' s' (<[id := c']> cs) cg).
Proof.
  intros HI Hacc Ha Hact Hc Hcs Hw Eg Ec Em Eacc Eex HR Ho Hmv Hwok. pose proof HI as [[Hl1 Hl2] _ _ _ Hm]. split.
  - apply (inv_same _ (with_cell id (mkCell w d') s)); [done..|]. eapply set_cell; try done.
    + lia.
    + by rewrite (active_owner s cs cg a cella).
    + destruct w; cbn in *; try done; [by rewrite <-Eg|by rewrite <-Ec].
    + by apply (main_ok_active s _ cs cg _ _ a cella id cell w d').
  - intros Hh. unfold accounted_but, in_flight in *. rewrite Eacc, Eex, Hacc, Ec.
    rewrite (main_hand_active s cs cg a cella Hm Hl1 Ha Hact s) by done.
    rewrite (main_hand_active s cs cg a cella Hm Hl1 Ha Hact s') by done.
    destruct (flight_cell s cs id cell c Hc Hcs) as (rest & H1 & H2). cbn [app]. rewrite H1, H2.
    transitivity (executed s ++ (l ++ c ++ worker_hand cell) ++ cg ++ rest); [solve_Permutation|]. rewrite Hh. solve_Permutation.
Qed.

Lemma inv_le n m s cs cg : Inv n s cs cg → n ≤ m → Inv m s cs cg.
Proof.
  intros [H1 [Hg Hp] Hd Hw Hm] Hle. split; try done; [split; [by eapply rep_le|done]|].
  intros id cell c Hc Hcs. destruct (Hd id cell c Hc Hcs). split; [by eapply rep_le|done].
Qed.

Definition kept n (r : option (WorkerPool.t T)) : Prop :=
  ∃ s' cs' cg', r = Some s' ∧ Inv (n + 2) s' cs' cg' ∧ accounted s' cs' cg'.

(** The worker moves on, its deque as it was. *)
Lemma place_step n s s' cs cg id cell w out l : Inv n s cs cg → accounted_but l s cs cg →
  cells s !! id = Some cell → active (worker cell) →
  globalQueue_ s' = globalQueue_ s → cells s' = <[id := mkCell w (deque cell)]> (cells s) → main s' = main s →
  accepted s' = accepted s → executed s' = executed s ++ out →
  (∀ d c, owner_ok LocalCapacity d c (own_of (worker cell)) → owner_ok LocalCapacity d c (own_of w)) →
  worker_ok s' cs cg id w → l ++ worker_hand cell ≡ₚ out ++ worker_hand (mkCell w (deque cell)) →
  Inv (n + 1) s' cs cg ∧ accounted s' cs cg.
Proof.
  intros HI Hacc Hc Hact Eg Ec Em Eacc Eex Ho Hw Hh. pose proof HI as [[Hl1 Hl2] _ Hd _ Hm].
  destruct (lookup_lt_is_Some_2 cs id) as [c Hcs]; [rewrite Hl2, <-Hl1; by eapply lookup_lt_Some|].
  destruct (Hd id cell c Hc Hcs) as [HR Hown]. rewrite (active_owner s cs cg id cell) in Hown by done.
  assert (<[id := c]> cs = cs) as Ecs by by apply list_insert_id.
  destruct (cell_step n s s' cs cg id cell id cell c w (deque cell) c out l []) as [H1 H2]; rewrite ?Ecs in *;
    try done; [by right|eapply rep_le; [done|lia]|by apply Ho|].
  split; [done|]. apply H2. transitivity ((l ++ worker_hand cell) ++ c); [solve_Permutation|]. rewrite Hh. solve_Permutation.
Qed.

Notation worker_step := (worker_step LocalCapacity GlobalCapacity NumThreads).
Notation main_step := (main_step LocalCapacity GlobalCapacity NumThreads).

Lemma cell_lookup n s cs cg id cell : Inv n s cs cg → cells s !! id = Some cell → ∃ c, cs !! id = Some c.
Proof.
  intros [[Hl1 Hl2] _ _ _ _] Hc. apply lookup_lt_is_Some_2. rewrite Hl2, <-Hl1. by eapply lookup_lt_Some.
Qed.

Lemma after_own_ok first a (d : StealQueue.t T) c : owner_ok LocalCapacity d c None →
  owner_ok LocalCapacity d c (own_of (after_own first a)) ∧
  worker_hand (mkCell (after_own first a) d) = answer_hand a ∧ ∀ s cs cg id, worker_ok s cs cg id (after_own first a).
Proof. intros H. destruct a as [task []|[task|]]; [done..|]. by destruct first. Qed.

Lemma own_step n w s cs cg id cell first o : n + 1 < 2 ^ 63 → Inv n s cs cg → accounted s cs cg →
  cells s !! id = Some cell → worker cell = Own first o → kept n (worker_step w id s).
Proof.
  intros Hn HI Hacc Hc Hw. destruct (cell_lookup _ _ _ _ _ _ HI Hc) as [c Hcs].
  assert (active (worker cell)) as Hact by by rewrite Hw. pose proof HI as [[Hl1 Hl2] _ Hd _ Hm].
  destruct (Hd id cell c Hc Hcs) as [HR Hown]. rewrite (active_owner s cs cg id cell) in Hown by done.
  rewrite Hw in Hown. cbn in Hown.
  destruct (owner_step_ok LocalCapacity kl Hkl HL n (deque cell) c o HR Hn Hown)
    as (r & d' & c' & Hstep & HR' & Ho' & Hmv & Hh & _).
  unfold worker_step. rewrite Hc. cbn [mbind option_bind]. rewrite Hw, Hstep. cbn [mbind option_bind].
  set (w' := match r with inl o => _ | inr a => _ end).
  assert (owner_ok LocalCapacity d' c' (own_of w') ∧ worker_hand (mkCell w' d') = owner_after LocalCapacity d' r ∧
    ∀ s cs cg id, worker_ok s cs cg id w') as (H1 & H2 & H3).
  { subst w'. destruct r as [o'|a]; [done|]. by apply after_own_ok. }
  destruct (cell_step n s (with_cell id (mkCell w' d') s) cs cg id cell id cell c w' d' c' [] [] []) as [HI' Hacc'];
    try done; [by right|by rewrite app_nil_r|].
  eexists _, _, _. split; [done|]. split; [eapply inv_le; [done|lia]|]. apply Hacc'. rewrite H2. unfold worker_hand. rewrite Hw.
  cbn [app]. by rewrite Permutation_app_comm, Hh, Permutation_app_comm.
Qed.

Lemma victim_hand (v : Cell T) c item d' c' : claimed (deque v) c item d' c' →
  worker_hand (mkCell (worker v) d') = worker_hand v.
Proof. intros H. unfold worker_hand. cbn [worker deque]. destruct (worker v); try done. by eapply claimed_owner_hand. Qed.

(** A thief's step is two: on the victim's deque, and of its own place. *)
Lemma steal_step n w s cs cg id cell i r : n + 2 < 2 ^ 63 → Inv n s cs cg → accounted s cs cg → (id < NumThreads)%nat →
  cells s !! id = Some cell → worker cell = Stealing i r → kept n (worker_step w id s).
Proof.
  intros Hn HI Hacc Hid Hc Hw. assert (active (worker cell)) as Hact by by rewrite Hw.
  pose proof HI as [[Hl1 Hl2] _ Hd Hwk Hm]. set (tid := ((id + i) mod NumThreads)%nat).
  assert (tid < NumThreads)%nat as Ht by (apply Nat.mod_upper_bound; lia).
  destruct (lookup_lt_is_Some_2 (cells s) tid) as [v Hv]; [lia|]. destruct (cell_lookup _ _ _ _ _ _ HI Hv) as [c Hcs].
  destruct (Hd tid v c Hv Hcs) as [HR Hown]. rewrite (active_owner s cs cg id cell) in Hown by done.
  pose proof (Hwk id cell Hc) as Hr. rewrite Hw in Hr. specialize (Hr v c Hv Hcs).
  pose proof (owner_bottom _ _ _ _ Hown) as Hbot. pose proof (rp_top _ _ _ _ HR) as Htop.
  destruct (thief_step_ok LocalCapacity kl Hkl HL n (deque v) c r HR) as (res & d' & c' & Hstep & Hcl & Hres); [lia|lia|done|].
  unfold worker_step. rewrite Hc. cbn [mbind option_bind]. rewrite Hw. fold tid. rewrite Hv. cbn [mbind option_bind].
  rewrite Hstep. cbn [mbind option_bind]. set (s1 := with_cell tid (mkCell (worker v) d') s).
  pose proof (claimed_moved _ _ _ _ _ Hcl) as Hmv.
  destruct (cell_step n s s1 cs cg id cell tid v c (worker v) d' c' [] [] (option_list (answer res))) as [HI1 Hacc1];
    try done; [by left|by rewrite app_nil_r|eapply rep_le; [by eapply claimed_rep|lia]|by eapply claimed_owner| |].
  { eapply worker_ok_moved; [by apply Hwk|exact Hv|exact Hcs|exact Hmv|done|done]. }
  assert (∃ cell1, cells s1 !! id = Some cell1 ∧ worker cell1 = Stealing i r) as (cell1 & Hc1 & Hw1).
  { cbn. destruct (decide (tid = id)) as [E|Hne].
    - rewrite E, list_lookup_insert_eq by lia. eexists. split; [done|]. cbn. rewrite E in Hv. congruence.
    - rewrite list_lookup_insert_ne by done. by exists cell. }
  rewrite Hc1. cbn [mbind option_bind]. set (w' := match res with inl c => _ | inr _ => _ end).
  assert (own_of w' = None ∧ worker_hand (mkCell w' (deque cell1)) = option_list (answer res)) as [Ho' Hh'].
  { subst w'. destruct res as [r'|[task|]]; [done..|]. unfold steal_from. by case_match. }
  destruct (place_step (n + 1) s1 (with_cell id (mkCell w' (deque cell1)) s1) (<[tid := c']> cs) cg id cell1 w' []
    (option_list (answer res))) as [HI2 Hacc2]; try done.
  - apply Hacc1. rewrite (claimed_items _ _ _ _ _ Hcl). cbn [app].
    by rewrite (victim_hand v _ _ _ _ Hcl), <-app_assoc.
  - by rewrite Hw1.
  - by rewrite app_nil_r.
  - intros d0 c0 H. rewrite Ho'. by rewrite Hw1 in H.
  - subst w'. destruct res as [r'|[task|]]; [|done|unfold steal_from; by case_match].
    intros x y Hx Hy. fold tid in Hx, Hy. cbn in Hx. rewrite list_lookup_insert_eq in Hy by lia. injection Hy as <-.
    assert (deque x = d') as ->; [|done]. apply list_lookup_insert_Some in Hx as [(E & <- & _)|[Hne Hx]].
    + cbn in Hc1. rewrite E, list_lookup_insert_eq in Hc1 by lia. by injection Hc1 as <-.
    + rewrite list_lookup_insert_eq in Hx by lia. by injection Hx as <-.
  - rewrite Hh'. unfold worker_hand. by rewrite Hw1, app_nil_r.
  - exists (with_cell id (mkCell w' (deque cell1)) s1), (<[tid := c']> cs), cg. split; [done|]. split; [|done].
    by replace (n + 2) with (n + 1 + 1) by lia.
Qed.

Lemma global_step n w s cs cg id cell r : n + 2 < 2 ^ 63 → Inv n s cs cg → accounted s cs cg →
  cells s !! id = Some cell → worker cell = FromGlobal r → kept n (worker_step w id s).
Proof.
  intros Hn HI Hacc Hc Hw. assert (active (worker cell)) as Hact by by rewrite Hw.
  pose proof HI as [[Hl1 Hl2] [Hg Hp] Hd Hwk Hm]. pose proof (Hwk id cell Hc) as Hr. rewrite Hw in Hr.
  destruct (consumer_step_ok GlobalCapacity kg Hkg HG n (globalQueue_ s) cg w r Hg) as (res & q & cg' & Hstep & Hcl & Hres);
    [lia|by destruct Hp|done|].
  unfold worker_step. rewrite Hc. cbn [mbind option_bind]. rewrite Hw, Hstep. cbn [mbind option_bind].
  set (w' := match res with inl c => _ | inr _ => _ end). set (s1 := with_global q s).
  assert (own_of (worker cell) = None) as Hown by by rewrite Hw.
  assert (worker_hand cell = []) as Hh by (unfold worker_hand; by rewrite Hw).
  assert (worker_hand (mkCell w' (deque cell)) = option_list (answer res) ∧ worker_ok (with_cell id (mkCell w' (deque cell)) s1) cs cg' id w' ∧
    ∀ d c, owner_ok LocalCapacity d c None → owner_ok LocalCapacity d c (own_of w')) as (Hh' & Hok' & Ho').
  { subst w'. destruct res as [r'|[task|]]; [done..|]. unfold steal_from. by case_match. }
  assert (Inv n s1 cs cg') as HI1.
  { eapply (set_global n n s s1 cs cg cg' HI); try done; [by eapply claimed_rep|by eapply claimed_moved|by eapply claimed_producer|].
    apply (main_ok_active s _ cs cg _ _ id cell id cell (worker cell) (deque cell)); try done; [by left|].
    symmetry. apply list_insert_id. by destruct cell. }
  destruct (place_step n s1 (with_cell id (mkCell w' (deque cell)) s1) cs cg' id cell w' [] (option_list (answer res)))
    as [HI2 Hacc2]; try done.
  - unfold accounted_but, in_flight in *. rewrite (claimed_items _ _ _ _ _ Hcl) in Hacc. cbn [accepted executed cells s1 with_global].
    change (main_hand s1) with (main_hand s). rewrite Hacc. solve_Permutation.
  - by rewrite app_nil_r.
  - intros d c. rewrite Hown. apply Ho'.
  - by rewrite Hh, Hh', app_nil_r.
  - eexists _, cs, cg'. split; [done|]. split; [|done]. eapply inv_le; [done|lia].
Qed.

Lemma worker_step_ok n w s cs cg id : n + 2 < 2 ^ 63 → Inv n s cs cg → accounted s cs cg → (id < NumThreads)%nat →
  kept n (worker_step w id s).
Proof.
  intros Hn HI Hacc Hid. pose proof HI as [[Hl1 Hl2] _ _ _ _].
  destruct (lookup_lt_is_Some_2 (cells s) id) as [cell Hc]; [lia|].
  destruct (worker cell) as [|first o|r|i r|task|] eqn:Hw.
  - unfold worker_step. rewrite Hc. cbn [mbind option_bind]. rewrite Hw.
    set (w' := if running_ s then _ else _). set (s' := with_cell _ _ s).
    destruct (place_step n s s' cs cg id cell w' [] []) as [HI' Hacc']; try done.
    + by rewrite Hw.
    + by rewrite app_nil_r.
    + intros d c. rewrite Hw. subst w'. by destruct (running_ s).
    + subst w'. by destruct (running_ s).
    + unfold worker_hand. rewrite Hw. subst w'. by destruct (running_ s).
    + exists s', cs, cg. split; [done|]. split; [|done]. eapply inv_le; [done|lia].
  - eapply own_step; [|done..]. lia.
  - by eapply global_step.
  - by eapply steal_step.
  - unfold worker_step. rewrite Hc. cbn [mbind option_bind]. rewrite Hw. set (s' := with_cell _ _ _).
    destruct (place_step n s s' cs cg id cell AtLoop [task] []) as [HI' Hacc']; try done.
    + by rewrite Hw.
    + intros d c. by rewrite Hw.
    + unfold worker_hand. by rewrite Hw.
    + exists s', cs, cg. split; [done|]. split; [|done]. eapply inv_le; [done|lia].
  - unfold worker_step. rewrite Hc. cbn [mbind option_bind]. rewrite Hw.
    exists s, cs, cg. split; [done|]. split; [|done]. eapply inv_le; [done|lia].
Qed.

(** ** The submitting thread *)

Definition draining (m : Main T) : bool := match m with DrainLocal _ _ => true | _ => false end.

Lemma owner_plain id w m m' : draining m = false → draining m' = false → owner_at id w m = owner_at id w m'.
Proof. by destruct w, m, m'. Qed.

Lemma main_hand_plain s : draining (main s) = false → main_hand s = [].
Proof. unfold main_hand. by destruct (main s). Qed.

(** A step of the submitting thread that leaves the deques alone. *)
Lemma plain_step n s s' cs cg cg' : Inv n s cs cg → accounted s cs cg →
  draining (main s) = false → draining (main s') = false → cells s' = cells s →
  GRep (n + 1) (globalQueue_ s') cg' → moved (globalQueue_ s) cg (globalQueue_ s') cg' →
  producer_ok GlobalCapacity (globalQueue_ s') cg' (producing (main s')) → main_ok s' cs cg' →
  (∀ l, accepted s ≡ₚ executed s ++ cg ++ l → accepted s' ≡ₚ executed s' ++ cg' ++ l) → kept n (Some s').
Proof.
  intros HI Hacc Hd Hd' Ec HR Hmv Hp Hm Hl. exists s', cs, cg'. split; [done|]. split.
  - apply (inv_le (n + 1)); [|lia]. eapply set_global; try done; [lia|].
    intros id cell c _ _. by rewrite (owner_plain id (worker cell) (main s) (main s')).
  - unfold accounted_but, in_flight in *. rewrite (main_hand_plain s) in Hacc by done. rewrite (main_hand_plain s') by done.
    rewrite Ec. by apply Hl.
Qed.

Lemma submitting_step n w s cs cg p : n + 2 < 2 ^ 63 → Inv n s cs cg → accounted s cs cg →
  main s = Submitting p → kept n (main_step w s).
Proof.
  intros Hn HI Hacc Em. pose proof HI as [_ [Hg Hp] _ _ Hm]. rewrite Em in Hp. cbn in Hp.
  destruct (producer_step_ok GlobalCapacity kg Hkg HG n (globalQueue_ s) cg p Hg) as (r & q & cg' & Hstep & HR & Hmv & Hr);
    [lia|done|].
  unfold main_step. rewrite Em, Hstep. cbn [mbind option_bind]. destruct r as [p'|[]].
  - destruct Hr as (Hp' & -> & _). by eapply plain_step; rewrite ?Em.
  - destruct Hr as (Hp' & ->). eapply plain_step; rewrite ?Em; try done. intros l Hl. cbn.
    rewrite Hl. change (match p with GLoad task | GStore task _ | GPublish task _ => task end) with (item_of p).
    solve_Permutation.
  - destruct Hr as (Hp' & ->). by eapply plain_step; rewrite ?Em.
Qed.

Lemma joining_step n w s cs cg id : n + 2 < 2 ^ 63 → Inv n s cs cg → accounted s cs cg →
  main s = Joining id → kept n (main_step w s).
Proof.
  intros Hn HI Hacc Em. pose proof HI as [[Hl1 Hl2] [Hg Hp] _ _ Hm]. unfold main_ok in Hm. rewrite Em in Hp, Hm.
  assert (GRep (n + 1) (globalQueue_ s) cg) as HR by (eapply rep_le; [done|lia]).
  unfold main_step. rewrite Em. destruct (Nat.ltb_spec id NumThreads) as [Hlt|Hge].
  - destruct (lookup_lt_is_Some_2 (cells s) id) as [cell Hc]; [lia|]. rewrite Hc. cbn [mbind option_bind].
    destruct (worker cell) eqn:Ew.
    6:{ eapply plain_step; rewrite ?Em; try done. intros j x Hj Hx.
        destruct (decide (j = id)) as [->|Hne]; [by cbn in Hx; simplify_eq|]. apply (Hm j x); [lia|done]. }
    all: eapply plain_step; rewrite ?Em; try done; unfold main_ok; by rewrite Em.
  - eapply plain_step; rewrite ?Em; try done. split; [|done]. intros j x Hj Hx. apply (Hm j x); [lia|done].
Qed.

(** Once every worker is out of its loop. *)
Lemma done_cells s cs : length (cells s) = NumThreads → done_below NumThreads s →
  concat (worker_hand <$> cells s) = [].
Proof.
  intros Hl Hd. apply concat_nil_Forall, Forall_forall. intros x (cell & -> & Hc)%list_elem_of_fmap.
  apply list_elem_of_lookup in Hc as [id Hc]. pose proof (lookup_lt_Some _ _ _ Hc).
  unfold worker_hand. by rewrite (Hd id cell) by (done || lia).
Qed.

Lemma drain_from_ok id s cs : done_below NumThreads s → drained_below id cs → main s = drain_from NumThreads id →
  main_ok s cs [] ∧ producing (main s) = None.
Proof.
  intros Hd Hdr E. unfold main_ok. rewrite E. unfold drain_from. destruct (Nat.ltb_spec id NumThreads) as [Hlt|Hge]; [by split_and!|].
  split; [|done]. split; [done|]. split; [done|]. intros j c Hj. apply Hdr. lia.
Qed.

Lemma drain_global_step n w s cs cg r : n + 2 < 2 ^ 63 → Inv n s cs cg → accounted s cs cg →
  main s = DrainGlobal r → kept n (main_step w s).
Proof.
  intros Hn HI Hacc Em. pose proof HI as [[Hl1 Hl2] [Hg Hp] Hd _ Hm]. unfold main_ok in Hm. rewrite Em in Hp, Hm.
  destruct Hm as [Hdone Hr].
  destruct (consumer_step_ok GlobalCapacity kg Hkg HG n (globalQueue_ s) cg w r Hg) as (res & q & cg' & Hstep & Hcl & Hres);
    [lia|by destruct Hp|done|].
  assert (GRep (n + 1) q cg') as HR by (eapply rep_le; [by eapply claimed_rep|lia]).
  pose proof (claimed_moved _ _ _ _ _ Hcl) as Hmv. pose proof (claimed_producer _ _ _ _ _ _ _ Hcl Hp) as Hp'.
  pose proof (claimed_items _ _ _ _ _ Hcl) as Ecg.
  unfold main_step. rewrite Em, Hstep. cbn [mbind option_bind]. destruct res as [r'|[task|]]; cbn in Ecg.
  - subst cg'. by eapply plain_step; rewrite ?Em.
  - eapply plain_step; rewrite ?Em; try done. intros l Hl. cbn. rewrite Hl, Ecg. solve_Permutation.
  - subst cg cg'. set (s' := with_main _ _).
    destruct (drain_from_ok 0 s' cs) as [Hm' Hp2]; [done|by intros j c Hj; lia|done|].
    exists s', cs, []. split; [done|]. split.
    + apply (inv_le (n + 1)); [|lia]. eapply set_global; try done; [lia|by rewrite Hp2|].
      intros id cell c Hc Hcs. rewrite Em. unfold s'. cbn [main with_main]. rewrite (Hdone id cell) by
        (done || (rewrite <-Hl1; by eapply lookup_lt_Some)). unfold drain_from. case_match; [|done]. cbn. by case_decide.
    + unfold accounted_but, in_flight in *. rewrite (main_hand_plain s) in Hacc by by rewrite Em.
      assert (main_hand s' = []) as ->; [|done]. unfold main_hand, s'. cbn [main with_main]. unfold drain_from.
      destruct (0 <? NumThreads)%nat; [|done]. by destruct (cells _ !! 0%nat).
Qed.

Lemma pop_answers o d r d' : is_pop o = true → owner_step LocalCapacity o d = Some (r, d') →
  match r with inl o' => is_pop o' = true | inr (Popped _) => True | inr (Pushed _ _) => False end.
Proof.
  destruct o as [| | | |b|tp|b|b tp|b tp|tp]; try done; cbn; intros _.
  all: try (intros [= <- <-]; done).
  - intros [= <- <-]. by repeat case_bool.
  - destruct (load_slot LocalCapacity b d); [|done]. by intros [= <- <-].
  - destruct (cas_top tp d) as [[] ?]; by intros [= <- <-].
Qed.

(** The destructor's steps on the deque of a worker. *)
Lemma drained_step n s s' cs id o d' c' cell c out : Inv n s cs [] → accounted s cs [] →
  main s = DrainLocal id o → cells s !! id = Some cell → cs !! id = Some c →
  globalQueue_ s' = globalQueue_ s → cells s' = <[id := mkCell WorkerDone d']> (cells s) →
  accepted s' = accepted s → executed s' = executed s ++ out →
  producing (main s') = None → (∀ j, owner_at j WorkerDone (main s') = None ∨ owner_at j WorkerDone (main s') = Some PopStart ∨ j = id) →
  LRep (n + 1) d' c' → owner_ok LocalCapacity d' c' (owner_at id WorkerDone (main s')) →
  main_ok s' (<[id := c']> cs) [] → c ++ main_hand s ≡ₚ out ++ c' ++ main_hand s' → kept n (Some s').
Proof.
  intros HI Hacc Em Hc Hcs Eg Ec Eacc Eex Epr Hother HR Hown Hm' Hitems.
  pose proof HI as [[Hl1 Hl2] [Hg Hp] Hd _ Hm]. unfold main_ok in Hm. rewrite Em in Hp, Hm.
  destruct Hm as (Hdone & _ & _ & Hid & _).
  assert (length (cells s') = NumThreads) as Hl1' by by rewrite Ec, length_insert.
  assert (done_below NumThreads s') as Hdone'.
  { intros j x Hj Hx. rewrite Ec in Hx. apply list_lookup_insert_Some in Hx as [(_ & <- & _)|[_ Hx]]; [done|by eapply Hdone]. }
  assert (∀ j x, cells s' !! j = Some x → worker x = WorkerDone) as Hw.
  { intros j x Hx. eapply Hdone'; [|done]. rewrite <-Hl1'. by eapply lookup_lt_Some. }
  exists s', (<[id := c']> cs), []. split; [done|]. split.
  - apply (inv_le (n + 1)); [|lia]. split; [by rewrite length_insert| | | |done].
    + rewrite Eg, Epr. split; [eapply rep_le; [done|lia]|done].
    + intros j x y Hx Hy. rewrite (Hw j x Hx). rewrite Ec in Hx. apply list_lookup_insert_Some in Hx, Hy.
      destruct Hx as [(E1 & <- & _)|[Hne Hx]], Hy as [(E2 & <- & _)|[Hne' Hy]]; try done; [by subst j|].
      destruct (Hd j x y Hx Hy) as [HR' Ho]. split; [eapply rep_le; [done|lia]|].
      rewrite (Hdone j x) in Ho by (done || (rewrite <-Hl1; by eapply lookup_lt_Some)).
      rewrite Em in Ho. cbn in Ho. rewrite decide_False in Ho by done.
      by destruct (Hother j) as [E|[E|E]]; [rewrite E|rewrite E|destruct Hne].
    + intros j x Hx. by rewrite (Hw j x Hx).
  - unfold accounted_but, in_flight in *. rewrite (done_cells s cs Hl1 Hdone) in Hacc.
    rewrite (done_cells s' cs Hl1' Hdone'), Eacc, Eex, Hacc. destruct (concat_split cs id c Hcs) as (rest & H).
    rewrite H, (concat_at cs id c rest Hcs H). cbn [app]. rewrite !app_nil_r.
    transitivity (executed s ++ (c ++ main_hand s) ++ rest); [solve_Permutation|]. rewrite Hitems. solve_Permutation.
Qed.

Lemma drained_insert id k cs c : drained_below id cs → (∀ j, (j < k)%nat → j = id → c = []) → (k ≤ S id)%nat →
  drained_below k (<[id := c]> cs).
Proof.
  intros Hd Hc Hk j y Hj Hy. apply list_lookup_insert_Some in Hy as [(<- & <- & _)|[Hne Hy]]; [by apply (Hc id)|].
  apply (Hd j); [lia|done].
Qed.

Lemma done_insert s s' id d : done_below NumThreads s → cells s' = <[id := mkCell WorkerDone d]> (cells s) →
  done_below NumThreads s'.
Proof.
  intros Hd E j x Hj Hx. rewrite E in Hx. apply list_lookup_insert_Some in Hx as [(_ & <- & _)|[_ Hx]]; [done|by eapply Hd].
Qed.

Lemma drain_local_step n w s cs cg id o : n + 2 < 2 ^ 63 → Inv n s cs cg → accounted s cs cg →
  main s = DrainLocal id o → kept n (main_step w s).
Proof.
  intros Hn HI Hacc Em. pose proof HI as [[Hl1 Hl2] _ Hd _ Hm]. unfold main_ok in Hm. rewrite Em in Hm.
  destruct Hm as (Hdone & -> & Hdr & Hid & Hpop).
  destruct (lookup_lt_is_Some_2 (cells s) id) as [cell Hc]; [lia|]. destruct (cell_lookup _ _ _ _ _ _ HI Hc) as [c Hcs].
  assert (worker cell = WorkerDone) as Hw by by eapply Hdone.
  destruct (Hd id cell c Hc Hcs) as [HR Hown]. rewrite Hw, Em in Hown. cbn in Hown. rewrite decide_True in Hown by done.
  destruct (owner_step_ok LocalCapacity kl Hkl HL n (deque cell) c o HR ltac:(lia) Hown)
    as (r & d' & c' & Hstep & HR' & Ho' & Hmv & Hh & Hnone).
  pose proof (pop_answers _ _ _ _ Hpop Hstep) as Hans.
  assert (main_hand s = owner_hand LocalCapacity (deque cell) (Some o)) as Ehand
    by (unfold main_hand; by rewrite Em, Hc).
  rewrite <-Ehand in Hh. rewrite Permutation_app_comm in Hh.
  unfold main_step. rewrite Em, Hc. cbn [mbind option_bind]. rewrite Hstep, Hw. cbn [mbind option_bind].
  destruct r as [o'|[task ok|[task|]]]; [|done|..].
  - eapply (drained_step n s _ cs id o d' c' cell c []); try done.
    + by rewrite app_nil_r.
    + intros j. cbn. case_decide; [by right; right|by left].
    + cbn. by rewrite decide_True.
    + split; [by eapply done_insert|]. split; [done|]. split; [|done]. apply drained_insert; [done| |lia]. intros; lia.
    + rewrite Hh. unfold main_hand. cbn. rewrite list_lookup_insert_eq by lia. apply Permutation_app_comm.
  - eapply (drained_step n s _ cs id o d' c' cell c [task]); try done.
    + intros j. cbn. case_decide; [by right; right|by left].
    + cbn. by rewrite decide_True.
    + split; [by eapply done_insert|]. split; [done|]. split; [|done]. apply drained_insert; [done| |lia]. intros; lia.
    + rewrite Hh. unfold main_hand. cbn. rewrite list_lookup_insert_eq by lia. by rewrite app_nil_r.
  - specialize (Hnone eq_refl). subst c'. set (s' := with_main _ _).
    destruct (drain_from_ok (S id) s' (<[id := []]> cs)) as [Hm' Hp2].
    { by eapply done_insert. }
    { by apply drained_insert. }
    { done. }
    eapply (drained_step n s s' cs id o d' [] cell c []); try done.
    + by rewrite app_nil_r.
    + intros j. unfold s'. cbn [main with_main]. unfold drain_from.
      destruct (S id <? NumThreads)%nat; [|by left]. cbn. case_decide; [by right; left|by left].
    + unfold s'. cbn [main with_main]. unfold drain_from.
      destruct (S id <? NumThreads)%nat; [|done]. cbn. case_decide; [lia|done].
    + rewrite Hh. unfold main_hand, s'. cbn [main with_main]. unfold drain_from.
      destruct (S id <? NumThreads)%nat; [|done]. by destruct (cells _ !! S id).
Qed.

Lemma main_step_ok n w s cs cg : n + 2 < 2 ^ 63 → Inv n s cs cg → accounted s cs cg → kept n (main_step w s).
Proof.
  intros Hn HI Hacc. destruct (main s) as [|p|task|id|r|id o|] eqn:Em.
  - unfold main_step. rewrite Em. exists s, cs, cg. split; [done|]. split; [|done]. eapply inv_le; [done|lia].
  - by eapply submitting_step.
  - pose proof HI as [_ [Hg Hp] _ _ Hm]. rewrite Em in Hp. unfold main_step. rewrite Em.
    destruct (running_ s); eapply plain_step; rewrite ?Em; try done; (eapply rep_le; [done|lia]).
  - by eapply joining_step.
  - by eapply drain_global_step.
  - by eapply drain_local_step.
  - unfold main_step. rewrite Em. exists s, cs, cg. split; [done|]. split; [|done]. eapply inv_le; [done|lia].
Qed.

(** ** Any schedule *)

Notation exec := (exec LocalCapacity GlobalCapacity NumThreads).
Notation start := (start LocalCapacity GlobalCapacity NumThreads).

Lemma step_ok n s cs cg a : n + 2 < 2 ^ 63 → Inv n s cs cg → accounted s cs cg →
  kept n (step LocalCapacity GlobalCapacity NumThreads a s).
Proof.
  intros Hn HI Hacc. assert (kept n (Some s)) as Hstay.
  { exists s, cs, cg. split; [done|]. split; [|done]. eapply inv_le; [done|lia]. }
  destruct a as [task| |w|w id]; cbn [step].
  - destruct (main s) eqn:Em; try exact Hstay. pose proof HI as [_ [Hg Hp] _ _ Hm]. rewrite Em in Hp.
    eapply plain_step; rewrite ?Em; try done. eapply rep_le; [done|lia].
  - destruct (main s) eqn:Em; try exact Hstay. pose proof HI as [_ [Hg Hp] _ _ Hm]. rewrite Em in Hp.
    eapply plain_step; rewrite ?Em; try done; [eapply rep_le; [done|lia]|]. intros j x Hj. lia.
  - by eapply main_step_ok.
  - case_bool; [|exact Hstay]. apply (worker_step_ok n w s cs cg id); try done. by apply Nat.ltb_lt.
Qed.

Lemma schedule_ok schedule : ∀ n s cs cg, 0 ≤ n → n + 2 * vsize schedule + 2 < 2 ^ 63 → Inv n s cs cg → accounted s cs cg →
  ∃ s' m cs' cg', exec schedule s = Some s' ∧ Inv m s' cs' cg' ∧ accounted s' cs' cg'.
Proof.
  induction schedule as [|a schedule IH]; intros n s cs cg H0 Hn HI Hacc; [by exists s, n, cs, cg|].
  unfold vsize in Hn. cbn [length] in Hn.
  destruct (step_ok n s cs cg a) as (s1 & cs1 & cg1 & Hs & HI1 & Hacc1); [lia|done..|].
  cbn [exec]. rewrite Hs. cbn [mbind option_bind]. apply (IH (n + 2) s1 cs1 cg1); [lia|unfold vsize; lia|done..].
Qed.

Lemma pool_start_inv value : Inv 0 (start value) (replicate NumThreads []) [] ∧ accounted (start value) (replicate NumThreads []) [].
Proof.
  split.
  - split; try done.
    + cbn. by rewrite !length_replicate.
    + split; [by apply (StealProps.rep_make GlobalCapacity kg Hkg HG)|done].
    + intros id cell c [-> _]%lookup_replicate [-> _]%lookup_replicate.
      split; [by apply (StealProps.rep_make LocalCapacity kl Hkl HL)|done].
    + by intros id cell [-> _]%lookup_replicate.
  - unfold accounted_but, in_flight. cbn. rewrite fmap_replicate. change (worker_hand _) with (@nil T).
    assert (∀ k, concat (replicate k (@nil T)) = []) as -> by (by intros k; induction k). done.
Qed.

(** C34: a task that the pool accepts is executed exactly once. For any number of workers and any
    capacities that are powers of two, and however the accesses of the submitting thread,
    the owners, the thieves and the consumers interleave, with weak exchanges failing as
    they like: nothing is read out of range, no task is executed twice or was never
    accepted, and when the destructor has returned every accepted task has been
    executed. *)
Theorem every_task_once value schedule : vsize schedule < 2 ^ 61 →
  ∃ s, exec schedule (start value) = Some s ∧
    (∃ pending, accepted s ≡ₚ executed s ++ pending) ∧ (main s = Destroyed → accepted s ≡ₚ executed s).
Proof.
  intros Hn. destruct (pool_start_inv value) as [HI Hacc].
  destruct (schedule_ok schedule 0 _ _ _ ltac:(lia) ltac:(lia) HI Hacc) as (s & m & cs & cg & Hx & HI' & Hacc').
  exists s. split; [done|]. unfold accounted_but in Hacc'. cbn [app] in Hacc'. split; [by eexists|].
  intros Em. destruct HI' as [[Hl1 Hl2] _ _ _ Hm]. unfold main_ok in Hm. rewrite Em in Hm.
  destruct Hm as (Hdone & -> & Hdr). rewrite Hacc'. unfold in_flight. rewrite (done_cells s cs Hl1 Hdone).
  rewrite main_hand_plain by by rewrite Em. cbn [app]. rewrite app_nil_r.
  assert (concat cs = []) as ->; [|by rewrite app_nil_r]. apply concat_nil_Forall, Forall_forall.
  intros c Hc. apply list_elem_of_lookup in Hc as [id Hc]. pose proof (lookup_lt_Some _ _ _ Hc).
  apply (Hdr id); [lia|done].
Qed.
End pool.

(** Two workers, deques of two slots, a global queue of four. The first worker publishes
    task 10 and is about to pop it again; the second runs 20 and 30 and then takes 10 from
    under it; 40 comes when both are about to leave, and the destructor runs it. *)
Definition turns (k : nat) (id : nat) : list (action Z) := replicate k (WorkerStep false id).

Definition submit (task : Z) : list (action Z) := Submit task :: replicate 3 (MainStep false).

Definition sample_schedule : list (action Z) :=
  submit 10 ++ submit 20 ++ submit 30 ++ turns 11 0 ++ turns 43 1 ++ turns 2 0 ++ turns 2 1 ++ turns 2 0 ++
  submit 40 ++ [Destroy] ++ turns 1 0 ++ turns 1 1 ++ replicate 20 (MainStep false).

Definition sample_end : option (Main Z * list Z * list Z) :=
  (λ s, (main s, accepted s, executed s)) <$> exec 2 4 2 sample_schedule (start 2 4 2 0).

Lemma every_task_once_witness :
  sample_end = Some (Destroyed, [10; 20; 30; 40], [20; 30; 10; 40]) ∧
  ∃ s, exec 2 4 2 sample_schedule (start 2 4 2 0) = Some s ∧ (main s = Destroyed → accepted s ≡ₚ executed s).
Proof.
  split; [vm_compute; reflexivity|].
  destruct (every_task_once 2 4 1 2 2 ltac:(lia) ltac:(lia) eq_refl eq_refl 0 sample_schedule) as (s & Hx & _ & Hd).
  - vm_compute. reflexivity.
  - exists s. exact (conj Hx Hd).
Defined.
End WorkerPoolProps.
