(* ===== verification/SmartPointers.v ===== *)
(** * Smart pointers: shared ownership (Module SharedPtr) and sole ownership (Module UniquePtr) *)

From S2P Require Import Prelude.

(** * Shared ownership ([shared_pointer.cpp])

    The heap a [SharedPtr] works on: the live objects, the live counts, and the objects
    destroyed so far, in order. Using or freeing what is not live, or reading through a
    null pointer, is undefined behaviour, and [None]. The addresses [operator new] answers
    are a parameter: it never answers the address of something live. Destructors of the
    objects only free them: objects that own [SharedPtr]s themselves, so that a delete
    runs code of this file again, are not modelled. *)

Module SharedPtr.
Section shared.
Context {T : Type} (alloc : gset nat → nat).

(** The two fields of a [SharedPtr]. *)
Record Ptr := mkPtr { m_ptr : option nat; m_count : option nat }.

Definition null : Ptr := mkPtr None None.

(** [destroyed] is no variable of the program's. *)
Record heap := mkHeap { objects : gmap nat T; counts : gmap nat Z; destroyed : list T }.

Definition with_counts (m : gmap nat Z) (s : heap) : heap := mkHeap (objects s) m (destroyed s).

Definition delete_object (p : option nat) (s : heap) : option heap :=
  match p with
  | None => Some s
  | Some p => v ← objects s !! p; Some (mkHeap (delete p (objects s)) (counts s) (destroyed s ++ [v]))
  end.

Definition reduce_ownership (h : Ptr) (s : heap) : option heap :=
  match m_count h with
  | None => Some s
  | Some c =>
      n ← counts s !! c;
      let n := u64 (n - 1) in
      if n =? 0 then delete_object (m_ptr h) (with_counts (delete c (counts s)) s)
      else Some (with_counts (<[c := n]> (counts s)) s)
  end.

(** What a copy of [ptr] holds: the body the copy constructor and the copy assignment share. *)
Definition share (ptr : Ptr) (s : heap) : option (Ptr * heap) :=
  match m_ptr ptr with
  | Some p =>
      c ← m_count ptr;
      n ← counts s !! c;
      Some (mkPtr (Some p) (Some c), with_counts (<[c := u64 (n + 1)]> (counts s)) s)
  | None => Some (null, s)
  end.

(** [SharedPtr(T* ptr)], which makes a count even for a null pointer. *)
Definition adopt (p : option nat) (s : heap) : Ptr * heap :=
  let c := alloc (dom (counts s)) in (mkPtr p (Some c), with_counts (<[c := 1]> (counts s)) s).

(** [new T(v)], in the client. *)
Definition new_object (v : T) (s : heap) : nat * heap :=
  let p := alloc (dom (objects s)) in (p, mkHeap (<[p := v]> (objects s)) (counts s) (destroyed s)).

(** The variables of the client, by name, and the heap. *)
Record t := mk { vars : gmap nat Ptr; mem : heap }.

Definition start : t := mk ∅ (mkHeap ∅ ∅ []).

Definition set (x : nat) (h : Ptr) (s : t) : t := mk (<[x := h]> (vars s)) (mem s).

Definition default_construct (x : nat) (s : t) : option t := Some (set x null s).

(** [SharedPtr<T> x{new T(v)}]. *)
Definition construct (x : nat) (v : T) (s : t) : option t :=
  let '(p, m) := new_object v (mem s) in
  let '(h, m) := adopt (Some p) m in Some (mk (<[x := h]> (vars s)) m).

(** [SharedPtr<T> x{nullptr}]. *)
Definition construct_null (x : nat) (s : t) : option t :=
  let '(h, m) := adopt None (mem s) in Some (mk (<[x := h]> (vars s)) m).

(** [SharedPtr<T> x{y}]. *)
Definition copy_construct (x y : nat) (s : t) : option t :=
  ptr ← vars s !! y;
  '(h, m) ← share ptr (mem s);
  Some (mk (<[x := h]> (vars s)) m).

(** [x = y]. *)
Definition copy_assign (x y : nat) (s : t) : option t :=
  if decide (x = y) then Some s else
  h ← vars s !! x;
  m ← reduce_ownership h (mem s);
  ptr ← vars s !! y;
  '(h, m) ← share ptr m;
  Some (mk (<[x := h]> (vars s)) m).

(** [SharedPtr<T> x{std::move(y)}]. *)
Definition move_construct (x y : nat) (s : t) : option t :=
  ptr ← vars s !! y;
  Some (set x ptr (set y null s)).

(** [x = std::move(y)]. *)
Definition move_assign (x y : nat) (s : t) : option t :=
  if decide (x = y) then Some s else
  h ← vars s !! x;
  m ← reduce_ownership h (mem s);
  ptr ← vars s !! y;
  Some (set x ptr (set y null (mk (vars s) m))).

(** [x.reset(new T(v))] and [x.reset(nullptr)]: the argument is made first. *)
Definition reset (x : nat) (v : option T) (s : t) : option t :=
  h ← vars s !! x;
  let '(ptr, m) := match v with
                   | Some v => let '(p, m) := new_object v (mem s) in (Some p, m)
                   | None => (None, mem s)
                   end in
  m ← reduce_ownership h m;
  let '(h, m) := match ptr with Some p => adopt (Some p) m | None => (null, m) end in
  Some (mk (<[x := h]> (vars s)) m).

(** The end of [x]'s lifetime. *)
Definition destroy (x : nat) (s : t) : option t :=
  h ← vars s !! x;
  m ← reduce_ownership h (mem s);
  Some (mk (delete x (vars s)) m).

(** [*x] and [x->], [x.use_count()] and [bool(x)]. *)
Definition deref (x : nat) (s : t) : option T :=
  h ← vars s !! x; p ← m_ptr h; objects (mem s) !! p.

Definition use_count (x : nat) (s : t) : option Z :=
  h ← vars s !! x; c ← m_count h; counts (mem s) !! c.

Definition operator_bool (x : nat) (s : t) : option bool :=
  h ← vars s !! x; Some (bool_decide (m_ptr h ≠ None)).

(** A statement of the client. *)
Inductive Op :=
  | Default (x : nat)
  | Construct (x : nat) (v : T)
  | ConstructNull (x : nat)
  | CopyConstruct (x y : nat)
  | CopyAssign (x y : nat)
  | MoveConstruct (x y : nat)
  | MoveAssign (x y : nat)
  | Reset (x : nat) (v : option T)
  | Destroy (x : nat).

Definition step (o : Op) : t → option t :=
  match o with
  | Default x => default_construct x
  | Construct x v => construct x v
  | ConstructNull x => construct_null x
  | CopyConstruct x y => copy_construct x y
  | CopyAssign x y => copy_assign x y
  | MoveConstruct x y => move_construct x y
  | MoveAssign x y => move_assign x y
  | Reset x v => reset x v
  | Destroy x => destroy x
  end.

Fixpoint run (os : list Op) (s : t) : option t :=
  match os with [] => Some s | o :: os => step o s ≫= run os end.

(** The variables in scope after a statement, if it uses those in scope and declares one
    that is not: what the compiler checks. *)
Definition scope (o : Op) (live : gset nat) : option (gset nat) :=
  match o with
  | Default x | Construct x _ | ConstructNull x => guard (x ∉ live);; Some ({[x]} ∪ live)
  | CopyConstruct x y | MoveConstruct x y => guard (x ∉ live);; guard (y ∈ live);; Some ({[x]} ∪ live)
  | CopyAssign x y | MoveAssign x y => guard (x ∈ live);; guard (y ∈ live);; Some live
  | Reset x _ => guard (x ∈ live);; Some live
  | Destroy x => guard (x ∈ live);; Some (live ∖ {[x]})
  end.

Fixpoint scopes (os : list Op) (live : gset nat) : option (gset nat) :=
  match os with [] => Some live | o :: os => scope o live ≫= scopes os end.

(** The objects a statement makes. *)
Definition made (o : Op) : list T :=
  match o with Construct _ v | Reset _ (Some v) => [v] | _ => [] end.

(** How many of the client's variables are as [P] says: that hold count [c], and that
    point at object [p]. *)
Definition tally (P : Ptr → Prop) `{∀ h, Decision (P h)} (m : gmap nat Ptr) : Z :=
  msum (λ _ h, if decide (P h) then 1 else 0) m.

Definition owners (c : nat) (m : gmap nat Ptr) : Z := tally (λ h, m_count h = Some c) m.
Definition sharers (p : nat) (m : gmap nat Ptr) : Z := tally (λ h, m_ptr h = Some p) m.

Section tally.
Context (P : Ptr → Prop) `{∀ h, Decision (P h)}.

Lemma tally_insert m x h : m !! x = None → tally P (<[x := h]> m) = (if decide (P h) then 1 else 0) + tally P m.
Proof. intros Hx. unfold tally. rewrite msum_insert, Hx. simpl. lia. Qed.

Lemma tally_delete m x h : m !! x = Some h → tally P m = (if decide (P h) then 1 else 0) + tally P (delete x m).
Proof. intros Hx. unfold tally. rewrite msum_delete, Hx. simpl. lia. Qed.

Lemma tally_bounds m : 0 ≤ tally P m ≤ Z.of_nat (size m).
Proof.
  induction m as [|x h m Hx IH] using map_ind; [done|].
  rewrite tally_insert, map_size_insert_None by done. case_decide; lia.
Qed.

Lemma tally_pos m : tally P m ≠ 0 ↔ ∃ x h, m !! x = Some h ∧ P h.
Proof.
  split.
  - induction m as [|x h m Hx IH] using map_ind; [done|]. rewrite tally_insert by done. case_decide as HP.
    + intros _. exists x, h. by rewrite lookup_insert_eq.
    + intros (y & k & Hy & Hk)%IH. exists y, k. rewrite lookup_insert_ne by congruence. done.
  - intros (x & h & Hx & HP). rewrite (tally_delete _ _ _ Hx), decide_True by done.
    pose proof (tally_bounds (delete x m)). lia.
Qed.
End tally.

(** Two variables that share a count share the object, and the other way round. *)
Definition compatible (h h' : Ptr) : Prop :=
  (m_count h = None → m_ptr h = None) ∧
  (∀ c, m_count h = Some c → m_count h' = Some c → m_ptr h = m_ptr h') ∧
  (∀ p, m_ptr h = Some p → m_ptr h' = Some p → m_count h = m_count h').

Definition paired (m : gmap nat Ptr) : Prop :=
  ∀ x h y h', m !! x = Some h → m !! y = Some h' → compatible h h'.

(** The heap is what variables [m] need, and object [e] if the client has a raw pointer
    to it, and no more: the counts count, and the objects are those pointed at. *)
Record good (m : gmap nat Ptr) (e : option nat) (s : heap) : Prop := {
  g_paired : paired m;
  g_counts : ∀ c, counts s !! c = if decide (owners c m = 0) then None else Some (owners c m);
  g_objects : ∀ p, is_Some (objects s !! p) ↔ e = Some p ∨ ∃ x h, m !! x = Some h ∧ m_ptr h = Some p;
  g_raw : ∀ x h, m !! x = Some h → m_ptr h = None ∨ m_ptr h ≠ e;
}.

(** The objects there have been, dead or alive. *)
Definition population (s : heap) : list T := destroyed s ++ (map_to_list (objects s)).*2.

Lemma paired_sub m m' :
  (∀ x h, m' !! x = Some h → h = null ∨ ∃ y, m !! y = Some h) → paired m → paired m'.
Proof.
  intros Hm Hp x h y h' [->|[x' Hx]]%Hm [->|[y' Hy]]%Hm.
  - done.
  - repeat split; done.
  - destruct (Hp _ _ _ _ Hx Hx) as [? _]. repeat split; done.
  - by apply (Hp x' _ y').
Qed.

Lemma paired_delete m x : paired m → paired (delete x m).
Proof. apply paired_sub. intros y h [_ Hy]%lookup_delete_Some. eauto. Qed.

Lemma good_same m m' e s :
  (∀ x h, m' !! x = Some h → h = null ∨ ∃ y, m !! y = Some h) →
  (∀ x h, m !! x = Some h → h = null ∨ ∃ y, m' !! y = Some h) →
  (∀ c, owners c m' = owners c m) → good m e s → good m' e s.
Proof.
  intros Hm Hm' Ho [Hp Hc Hob Hr]. split.
  - by apply (paired_sub m).
  - intros c. by rewrite Ho.
  - intros p. rewrite Hob. split; (intros [?|(x & h & Hx & Hh)]; [by left|right]).
    + destruct (Hm' x h Hx) as [->|[y Hy]]; [done|eauto].
    + destruct (Hm x h Hx) as [->|[y Hy]]; [done|eauto].
  - intros x h Hx. destruct (Hm x h Hx) as [->|[y Hy]]; [by left|eauto].
Qed.

Lemma good_null m e s x : m !! x = None → good m e s → good (<[x := null]> m) e s.
Proof.
  intros Hx. apply good_same.
  - intros y h [[<- <-]|[_ Hy]]%lookup_insert_Some; eauto.
  - intros y h Hy. right. exists y. rewrite lookup_insert_ne by congruence. done.
  - intros c. unfold owners. rewrite tally_insert by done. by rewrite decide_False by done.
Qed.

Lemma good_move m e s x y ptr : m !! y = Some ptr → m !! x = None → good m e s →
  good (<[x := ptr]> (<[y := null]> m)) e s.
Proof.
  intros Hy Hx. assert (x ≠ y) by congruence. apply good_same.
  - intros z h [[<- <-]|[_ [[<- <-]|[_ Hz]]%lookup_insert_Some]]%lookup_insert_Some; eauto.
  - intros z h Hz. right. destruct (decide (z = y)) as [->|].
    + exists x. rewrite lookup_insert_eq. congruence.
    + exists z. rewrite !lookup_insert_ne by congruence. done.
  - intros c. unfold owners. rewrite tally_insert by (by rewrite lookup_insert_ne).
    rewrite <-(insert_delete_eq m), tally_insert by apply lookup_delete_eq.
    rewrite (tally_delete _ m y ptr) by done. rewrite (decide_False (P := m_count null = Some c)) by done. lia.
Qed.

Lemma new_object_good m s v p s' : new_object v s = (p, s') → good m None s →
  (∀ X, alloc X ∉ X) → good m (Some p) s' ∧ population s' ≡ₚ population s ++ [v].
Proof.
  unfold new_object. intros [= <- <-] [Hp Hc Hob Hr] Ha. set (p := alloc _).
  assert (Hn : objects s !! p = None) by (apply not_elem_of_dom, Ha). split; [split; simpl|].
  - done.
  - done.
  - intros q. rewrite lookup_insert_is_Some, Hob. destruct (decide (p = q)) as [->|]; [intuition|].
    split; [intros [?|[_ [?|?]]]; naive_solver|intros [[= ?]|?]; [done|auto]].
  - intros x h Hx. right. intros Hh. assert (is_Some (objects s !! p)) as [? ?]; [|congruence].
    apply Hob. eauto.
  - unfold population. simpl. rewrite map_to_list_insert by done. simpl. solve_Permutation.
Qed.


Lemma owners_delete m x h c : m !! x = Some h →
  owners c m = (if decide (m_count h = Some c) then 1 else 0) + owners c (delete x m).
Proof. apply tally_delete. Qed.

Lemma owners_range c m : 0 ≤ owners c m ≤ Z.of_nat (size m).
Proof. apply tally_bounds. Qed.

Lemma owners_none c m : owners c m = 0 → ∀ x h, m !! x = Some h → m_count h ≠ Some c.
Proof. intros Ho x h Hx Hc. apply (proj2 (tally_pos (λ h, m_count h = Some c) m)); eauto. Qed.

Lemma owners_some c m : owners c m ≠ 0 → ∃ x h, m !! x = Some h ∧ m_count h = Some c.
Proof. apply tally_pos. Qed.

(** A variable with no count lets go of nothing. *)
Lemma good_forget m e s x h : m !! x = Some h → m_count h = None → good m e s → good (delete x m) e s.
Proof.
  intros Hx Hh HG. apply (good_same m); [..|done].
  - intros y k [_ Hy]%lookup_delete_Some. eauto.
  - intros y k Hy. destruct (decide (x = y)) as [->|].
    + left. assert (k = h) as -> by congruence. destruct h as [q c]. simpl in *. subst c.
      by destruct (g_paired _ _ _ HG _ _ _ _ Hx Hx) as [Hn _]; simpl in Hn; rewrite Hn.
    + right. exists y. by rewrite lookup_delete_ne.
  - intros c. rewrite (owners_delete m x h c Hx). rewrite decide_False by congruence. lia.
Qed.

(** One owner fewer: the count is still owned. *)
Lemma good_fewer m e s x h c : m !! x = Some h → m_count h = Some c → owners c (delete x m) ≠ 0 →
  good m e s → good (delete x m) e (with_counts (<[c := owners c (delete x m)]> (counts s)) s).
Proof.
  intros Hx Hh Hz [Hp Hc Hob Hr]. split; simpl.
  - by apply paired_delete.
  - intros d. destruct (decide (c = d)) as [->|].
    + by rewrite lookup_insert_eq, decide_False.
    + rewrite lookup_insert_ne, Hc by done. rewrite (owners_delete m x h d Hx).
      rewrite (decide_False (P := m_count h = Some d)) by congruence. done.
  - intros p. rewrite Hob. split; intros [?|(y & k & Hy & Hk)]; auto; right.
    + destruct (decide (x = y)) as [->|]; [|exists y, k; by rewrite lookup_delete_ne].
      assert (k = h) as -> by congruence. destruct (owners_some _ _ Hz) as (z & l & Hl & Hlc).
      exists z, l. split; [done|]. apply lookup_delete_Some in Hl as [_ Hl].
      rewrite <-Hk. symmetry. by apply (proj1 (proj2 (Hp _ _ _ _ Hy Hl)) c).
    + apply lookup_delete_Some in Hy as [_ Hy]. eauto.
  - intros y k [_ Hy]%lookup_delete_Some. eauto.
Qed.

(** The last owner: its object has nobody else. *)
Lemma good_last m e s x h c s' : m !! x = Some h → m_count h = Some c → owners c (delete x m) = 0 →
  good m e s → delete_object (m_ptr h) (with_counts (delete c (counts s)) s) = Some s' →
  good (delete x m) e s'.
Proof.
  intros Hx Hh Hz [Hp Hc Hob Hr] Hd.
  assert (Hcs : ∀ d, delete c (counts s) !! d = if decide (owners d (delete x m) = 0) then None else Some (owners d (delete x m))).
  { intros d. destruct (decide (c = d)) as [->|]; [by rewrite lookup_delete_eq, decide_True|].
    rewrite lookup_delete_ne, Hc by done. rewrite (owners_delete m x h d Hx).
    by rewrite (decide_False (P := m_count h = Some d)) by congruence. }
  assert (Hn : ∀ p y k, m_ptr h = Some p → delete x m !! y = Some k → m_ptr k ≠ Some p).
  { intros p y k Hq Hy Hk. apply (owners_none _ _ Hz _ _ Hy).
    apply lookup_delete_Some in Hy as [_ Hy]. rewrite <-Hh. symmetry. by apply (Hp _ _ _ _ Hx Hy) with p. }
  split; [by apply paired_delete|..]; [..|by intros y k [_ Hy]%lookup_delete_Some; eauto].
  - unfold delete_object in Hd. destruct (m_ptr h); [bind_some|]; by simplify_eq.
  - intros p. unfold delete_object in Hd. destruct (m_ptr h) as [q|] eqn:Eq; bind_some; simplify_eq; simpl.
    + rewrite lookup_delete_is_Some, Hob. split.
      * intros [Hne [?|(y & k & Hy & Hk)]]; [by left|right]. exists y, k.
        split; [|done]. rewrite lookup_delete_ne; [done|]. intros ->. congruence.
      * intros [->|(y & k & Hy & Hk)].
        -- split; [|by left]. intros ->. destruct (Hr _ _ Hx); congruence.
        -- split; [intros ->; by apply (Hn p y k)|right].
           apply lookup_delete_Some in Hy as [_ Hy]. eauto.
    + rewrite Hob. split; intros [?|(y & k & Hy & Hk)]; auto; right.
      * exists y, k. split; [|done]. rewrite lookup_delete_ne; [done|]. intros ->. congruence.
      * apply lookup_delete_Some in Hy as [_ Hy]. eauto.
Qed.

Lemma delete_object_population p s s' : delete_object p s = Some s' → population s' ≡ₚ population s.
Proof.
  unfold delete_object, population. destruct p as [p|]; [|by intros [= <-]]. intros Hd. bind_some. simplify_eq. simpl.
  rewrite <-(map_to_list_delete (objects s) p) by done. simpl. solve_Permutation.
Qed.

Lemma reduce_ownership_good m e s x h : good m e s → m !! x = Some h → Z.of_nat (size m) < 2 ^ 64 →
  ∃ s', reduce_ownership h s = Some s' ∧ good (delete x m) e s' ∧ population s' ≡ₚ population s.
Proof.
  intros HG Hx Hs. unfold reduce_ownership. destruct (m_count h) as [c|] eqn:Eh.
  2: { exists s. split_and!; [done|by eapply good_forget|done]. }
  pose proof (owners_range c (delete x m)) as Hd. pose proof (owners_range c m) as Hm.
  pose proof (owners_delete m x h c Hx) as Ho. rewrite decide_True in Ho by done.
  rewrite (g_counts _ _ _ HG c), decide_False by lia. simpl.
  rewrite u64_small by (unfold in_u64; lia). replace (owners c m - 1) with (owners c (delete x m)) by lia.
  case_bool; [|exists (with_counts (<[c := owners c (delete x m)]> (counts s)) s);
    split_and!; [done|apply (good_fewer m e s x h c); auto; lia|done]].
  destruct (delete_object (m_ptr h) (with_counts (delete c (counts s)) s)) as [s'|] eqn:Es.
  - exists s'. split_and!; [done|apply (good_last m e s x h c); auto; lia|].
    apply delete_object_population in Es. done.
  - unfold delete_object in Es. destruct (m_ptr h) as [p|] eqn:Ep; [|done]. exfalso.
    destruct (proj2 (g_objects _ _ _ HG p)) as [v Hv]; [eauto|]. simpl in Es. by rewrite Hv in Es.
Qed.


Lemma owners_insert m x h c : m !! x = None →
  owners c (<[x := h]> m) = (if decide (m_count h = Some c) then 1 else 0) + owners c m.
Proof. apply tally_insert. Qed.

Lemma share_good m s x y ptr : good m None s → m !! y = Some ptr → m !! x = None → Z.of_nat (size m) + 1 < 2 ^ 64 →
  ∃ h s', share ptr s = Some (h, s') ∧ good (<[x := h]> m) None s' ∧ population s' = population s.
Proof.
  intros HG Hy Hx Hs. unfold share. destruct (m_ptr ptr) as [p|] eqn:Ep.
  2: { exists null, s. split_and!; [done|by apply good_null|done]. }
  destruct (m_count ptr) as [c|] eqn:Ec; simpl.
  2: { destruct (g_paired _ _ _ HG _ _ _ _ Hy Hy) as [Hn _]. rewrite Hn in Ep; done. }
  assert (Ho : owners c m ≠ 0) by (intros Hz; by apply (owners_none _ _ Hz _ _ Hy)).
  rewrite (g_counts _ _ _ HG c), decide_False by done. simpl.
  pose proof (owners_range c m). rewrite u64_small by (unfold in_u64; lia).
  eexists _, _. split_and!; [done| |done]. destruct ptr as [? ?]. simpl in *. subst.
  destruct HG as [Hp Hc Hob Hr]. split; simpl.
  - revert Hp. apply paired_sub. intros z h [[_ <-]|[_ Hz]]%lookup_insert_Some; eauto.
  - intros d. rewrite owners_insert by done. simpl. destruct (decide (c = d)) as [->|].
    + rewrite lookup_insert_eq, (decide_True (P := Some d = Some d)), decide_False by (done || lia). f_equal. lia.
    + rewrite lookup_insert_ne, Hc, (decide_False (P := Some c = Some d)) by congruence. done.
  - intros q. rewrite Hob. split; intros [?|(z & h & Hz & Hh)]; auto; right.
    + exists z, h. by rewrite lookup_insert_ne by congruence.
    + apply lookup_insert_Some in Hz as [[_ <-]|[_ Hz]]; eauto.
  - intros z h _. destruct (m_ptr h); auto.
Qed.

Lemma adopt_good m e s x h s' : good m e s → m !! x = None → adopt e s = (h, s') → (∀ X, alloc X ∉ X) →
  good (<[x := h]> m) None s' ∧ population s' = population s.
Proof.
  unfold adopt. intros [Hp Hc Hob Hr] Hx [= <- <-] Ha. set (c := alloc _).
  assert (Hn : counts s !! c = None) by (apply not_elem_of_dom, Ha).
  assert (Ho : owners c m = 0) by (rewrite Hc in Hn; by case_decide).
  split; [split; simpl|done].
  - assert (Hfresh : ∀ z k, m !! z = Some k → m_count k ≠ Some c ∧ (m_ptr k = None ∨ m_ptr k ≠ e)).
    { intros z k Hz. split; [by apply (owners_none _ _ Ho z)|by eapply Hr]. }
    intros z h z' h' [[_ <-]|[_ Hz]]%lookup_insert_Some [[_ <-]|[_ Hz']]%lookup_insert_Some.
    + repeat split; done.
    + destruct (Hfresh _ _ Hz') as [? [|]]; repeat split; simpl; congruence.
    + destruct (Hfresh _ _ Hz) as [? [|]]; (split; [apply (Hp _ _ _ _ Hz Hz)|split; simpl; congruence]).
    + by apply (Hp z _ z').
  - intros d. rewrite owners_insert by done. simpl. destruct (decide (c = d)) as [<-|].
    + rewrite lookup_insert_eq, Ho, (decide_True (P := Some c = Some c)) by done. done.
    + rewrite lookup_insert_ne, Hc, (decide_False (P := Some c = Some d)) by congruence. done.
  - intros q. rewrite Hob. split.
    + intros [->|(z & h & Hz & Hh)]; right; [exists x; eexists; by rewrite lookup_insert_eq|].
      exists z, h. by rewrite lookup_insert_ne by congruence.
    + intros [?|(z & h & [[_ <-]|[_ Hz]]%lookup_insert_Some & Hh)]; [done|by left|eauto].
  - intros z h _. destruct (m_ptr h); auto.
Qed.

(** ** Programs *)

Definition sound (s : t) : Prop := good (vars s) None (mem s).

Section steps.
Context (Ha : ∀ X, alloc X ∉ X).

(** The statements that let go of what [x] holds, with what they do next. *)
Lemma release_good (s : t) e m x h : good (vars s) e m → vars s !! x = Some h → Z.of_nat (size (vars s)) < 2 ^ 64 →
  ∃ m', reduce_ownership h m = Some m' ∧ good (delete x (vars s)) e m' ∧ population m' ≡ₚ population m ∧
    delete x (vars s) !! x = None ∧ Z.of_nat (size (delete x (vars s))) + 1 < 2 ^ 64.
Proof.
  intros HG Hx Hs. destruct (reduce_ownership_good _ _ _ x h HG) as (m' & Hm & HG' & Hp); [done..|].
  exists m'. split_and!; [done..|apply lookup_delete_eq|].
  rewrite map_size_delete, Hx. pose proof (map_size_ne_0_lookup_2 (vars s) x (mk_is_Some _ _ Hx)). lia.
Qed.

Definition advances (o : Op) (live : gset nat) (s s' : t) : Prop :=
  dom (vars s') = live ∧ sound s' ∧ population (mem s') ≡ₚ population (mem s) ++ made o ∧
  (size (vars s') ≤ S (size (vars s)))%nat.

(** A variable that exists gets what [h] says. *)
Lemma advances_assign o s x h m : is_Some (vars s !! x) → good (<[x := h]> (delete x (vars s))) None m →
  population m ≡ₚ population (mem s) ++ made o → advances o (dom (vars s)) s (mk (<[x := h]> (vars s)) m).
Proof.
  rewrite insert_delete_eq. intros Hx HG Hp. unfold advances, sound. simpl. split_and!; [|done..|].
  - rewrite dom_insert_L. apply elem_of_dom in Hx. set_solver.
  - rewrite map_size_insert_Some by done. lia.
Qed.

(** A variable is declared. *)
Lemma advances_declare o s x h m : vars s !! x = None → good (<[x := h]> (vars s)) None m →
  population m ≡ₚ population (mem s) ++ made o → advances o ({[x]} ∪ dom (vars s)) s (mk (<[x := h]> (vars s)) m).
Proof.
  intros Hx HG Hp. unfold advances, sound. simpl. split_and!; [|done..|].
  - apply dom_insert_L.
  - rewrite map_size_insert_None by done. lia.
Qed.

Lemma advances_same o s : sound s → made o = [] → advances o (dom (vars s)) s s.
Proof. intros HG Hm. unfold advances. rewrite Hm, app_nil_r. split_and!; [done..|lia]. Qed.

Lemma move_over (m : gmap nat Ptr) x y ptr : x ≠ y →
  <[x := ptr]> (<[y := null]> m) = <[x := ptr]> (<[y := null]> (delete x m)).
Proof.
  intros Hne. rewrite <-(insert_delete_eq (<[y := null]> m)), delete_insert_ne by congruence. done.
Qed.

Lemma copy_assign_good s x y : sound s → x ∈ dom (vars s) → y ∈ dom (vars s) → Z.of_nat (size (vars s)) < 2 ^ 64 →
  ∃ s', copy_assign x y s = Some s' ∧ advances (CopyAssign x y) (dom (vars s)) s s'.
Proof.
  intros HG [h Hx]%elem_of_dom [ptr Hy]%elem_of_dom Hs. unfold copy_assign.
  case_decide as Hxy; [exists s; split; [done|by apply advances_same]|].
  rewrite Hx. simpl. destruct (release_good s None _ x h HG Hx Hs) as (m & -> & HG' & Hp & Hd & Hs').
  simpl. rewrite Hy. simpl.
  destruct (share_good _ m x y ptr HG') as (k & m' & -> & HG'' & Hp'); [by rewrite lookup_delete_ne|done..|].
  simpl. eexists. split; [done|]. apply advances_assign; [done|done|]. simpl. by rewrite Hp', app_nil_r.
Qed.

Lemma move_assign_good s x y : sound s → x ∈ dom (vars s) → y ∈ dom (vars s) → Z.of_nat (size (vars s)) < 2 ^ 64 →
  ∃ s', move_assign x y s = Some s' ∧ advances (MoveAssign x y) (dom (vars s)) s s'.
Proof.
  intros HG Hdx [ptr Hy]%elem_of_dom Hs. pose proof Hdx as [h Hx]%elem_of_dom. unfold move_assign.
  case_decide as Hxy; [exists s; split; [done|by apply advances_same]|].
  rewrite Hx. simpl. destruct (release_good s None _ x h HG Hx Hs) as (m & -> & HG' & Hp & Hd & Hs').
  simpl. rewrite Hy. simpl. eexists. split; [done|]. unfold set, advances, sound. simpl.
  split_and!.
  - rewrite !dom_insert_L. apply elem_of_dom_2 in Hy. set_solver.
  - rewrite move_over by done. apply good_move; [by rewrite lookup_delete_ne|done..].
  - by rewrite app_nil_r.
  - rewrite map_size_insert_Some by (rewrite lookup_insert_ne by done; eauto).
    rewrite map_size_insert_Some by eauto. lia.
Qed.

Lemma reset_good s x v : sound s → x ∈ dom (vars s) → Z.of_nat (size (vars s)) < 2 ^ 64 →
  ∃ s', reset x v s = Some s' ∧ advances (Reset x v) (dom (vars s)) s s'.
Proof.
  intros HG [h Hx]%elem_of_dom Hs. unfold reset. rewrite Hx. cbn [mbind option_bind]. destruct v as [v|].
  - destruct (new_object v (mem s)) as [p m] eqn:En. destruct (new_object_good _ _ _ _ _ En HG Ha) as [HG1 Hp1].
    destruct (release_good s _ _ x h HG1 Hx Hs) as (m' & Hm & HG' & Hp & Hd & _). rewrite Hm. cbn [mbind option_bind].
    destruct (adopt (Some p) m') as [k m''] eqn:Ea. destruct (adopt_good _ _ _ x _ _ HG' Hd Ea Ha) as [HG'' Hp''].
    eexists. split; [done|]. apply advances_assign; [done|done|]. simpl. by rewrite Hp'', Hp.
  - destruct (release_good s _ _ x h HG Hx Hs) as (m' & Hm & HG' & Hp & Hd & _). rewrite Hm. cbn [mbind option_bind].
    eexists. split; [done|]. apply advances_assign; [done|by apply good_null|]. simpl. by rewrite app_nil_r.
Qed.

Lemma declare_good s x o : sound s → x ∉ dom (vars s) →
  match o with Default z | Construct z _ | ConstructNull z => z = x | _ => False end →
  ∃ s', step o s = Some s' ∧ advances o ({[x]} ∪ dom (vars s)) s s'.
Proof.
  intros HG Hx%not_elem_of_dom Ho. destruct o as [z|z v|z| | | | | |]; try done; subst z; simpl.
  - eexists. split; [done|]. apply advances_declare; [done|by apply good_null|]. simpl. by rewrite app_nil_r.
  - unfold construct. destruct (new_object v (mem s)) as [p m] eqn:En.
    destruct (new_object_good _ _ _ _ _ En HG Ha) as [HG1 Hp1]. destruct (adopt (Some p) m) as [k m'] eqn:Ea.
    destruct (adopt_good _ _ _ x _ _ HG1 Hx Ea Ha) as [HG2 Hp2].
    eexists. split; [done|]. apply advances_declare; [done..|]. by rewrite Hp2.
  - unfold construct_null. destruct (adopt None (mem s)) as [k m'] eqn:Ea.
    destruct (adopt_good _ _ _ x _ _ HG Hx Ea Ha) as [HG2 Hp2].
    eexists. split; [done|]. apply advances_declare; [done..|]. by rewrite Hp2, app_nil_r.
Qed.

Lemma copy_construct_good s x y : sound s → x ∉ dom (vars s) → y ∈ dom (vars s) → Z.of_nat (size (vars s)) + 1 < 2 ^ 64 →
  ∃ s', copy_construct x y s = Some s' ∧ advances (CopyConstruct x y) ({[x]} ∪ dom (vars s)) s s'.
Proof.
  intros HG Hx%not_elem_of_dom [ptr Hy]%elem_of_dom Hs. unfold copy_construct. rewrite Hy. simpl.
  destruct (share_good _ _ x y ptr HG Hy Hx Hs) as (h & m & -> & HG' & Hp). simpl.
  eexists. split; [done|]. apply advances_declare; [done..|]. by rewrite Hp, app_nil_r.
Qed.

Lemma move_construct_good s x y : sound s → x ∉ dom (vars s) → y ∈ dom (vars s) →
  ∃ s', move_construct x y s = Some s' ∧ advances (MoveConstruct x y) ({[x]} ∪ dom (vars s)) s s'.
Proof.
  intros HG Hx%not_elem_of_dom [ptr Hy]%elem_of_dom. unfold move_construct. rewrite Hy. simpl.
  eexists. split; [done|]. unfold set, advances, sound. simpl. split_and!.
  - rewrite !dom_insert_L. apply elem_of_dom_2 in Hy. set_solver.
  - by apply good_move.
  - by rewrite app_nil_r.
  - rewrite map_size_insert_None by (rewrite lookup_insert_ne by congruence; done).
    rewrite map_size_insert_Some by eauto. lia.
Qed.

Lemma destroy_good s x : sound s → x ∈ dom (vars s) → Z.of_nat (size (vars s)) < 2 ^ 64 →
  ∃ s', destroy x s = Some s' ∧ advances (Destroy x) (dom (vars s) ∖ {[x]}) s s'.
Proof.
  intros HG [h Hx]%elem_of_dom Hs. unfold destroy. rewrite Hx. simpl.
  destruct (release_good s None _ x h HG Hx Hs) as (m & -> & HG' & Hp & _). simpl.
  eexists. split; [done|]. unfold advances, sound. simpl. split_and!.
  - apply dom_delete_L.
  - done.
  - by rewrite app_nil_r.
  - rewrite map_size_delete, Hx. lia.
Qed.

Lemma step_good o s live : scope o (dom (vars s)) = Some live → sound s → Z.of_nat (size (vars s)) + 1 < 2 ^ 64 →
  ∃ s', step o s = Some s' ∧ advances o live s s'.
Proof.
  intros Hsc HG Hs. assert (Z.of_nat (size (vars s)) < 2 ^ 64) by lia.
  destruct o; simpl in Hsc; simplify_option_eq.
  1: by apply (declare_good s x (Default x)).
  1: by apply (declare_good s x (Construct x v)).
  1: by apply (declare_good s x (ConstructNull x)).
  all: simpl; auto using copy_construct_good, copy_assign_good, move_construct_good, move_assign_good,
    reset_good, destroy_good.
Qed.

Lemma run_good os s live : scopes os (dom (vars s)) = Some live → sound s →
  Z.of_nat (size (vars s)) + Z.of_nat (length os) < 2 ^ 64 →
  ∃ s', run os s = Some s' ∧ dom (vars s') = live ∧ sound s' ∧
    population (mem s') ≡ₚ population (mem s) ++ (os ≫= made).
Proof.
  revert s. induction os as [|o os IH]; intros s Hsc HG Hs; simpl in *.
  { simplify_eq. exists s. rewrite app_nil_r. done. }
  apply bind_Some in Hsc as (mid & Hm & Hsc).
  destruct (step_good o s mid) as (s1 & -> & Hd & HG1 & Hp & Hsz); [done..|lia|]. subst mid. simpl.
  destruct (IH s1 Hsc HG1) as (s2 & Hr & Hd & HG2 & Hp2); [lia|]. exists s2. split_and!; [done..|].
  by rewrite Hp2, Hp, <-(assoc_L (++)).
Qed.
End steps.

Lemma start_sound : sound start.
Proof. split; [by intros x h y h'|done|..|by intros x h]. intros p. split; [by intros [? ?]|]. intros [?|(x & h & ? & _)]; done. Qed.

(** Variables that share the object are those that share its count. *)
Lemma sharers_owners m x h p c : paired m → m !! x = Some h → m_ptr h = Some p → m_count h = Some c →
  sharers p m = owners c m.
Proof.
  intros Hp Hx Hh Hc. apply msum_ext. intros y k Hy. destruct (Hp _ _ _ _ Hx Hy) as (_ & H1 & H2).
  repeat case_decide; [done| | |done].
  - specialize (H2 _ Hh H). congruence.
  - specialize (H1 _ Hc H0). congruence.
Qed.

(** C39: every object lives exactly as long as somebody points at it. Whatever a client
    does with its variables (within their scopes, and fewer than [2^64] statements),
    nothing is undefined: no object or count is used or freed after it was freed. The
    objects alive are those a variable points at, whose [use_count] is the number of
    variables that share it; the counts alive are those a variable holds; every object
    made is alive or was destroyed, once; and when no variable is left nothing is alive. *)
Theorem shared_ownership os live : (∀ X, alloc X ∉ X) → scopes os ∅ = Some live → Z.of_nat (length os) < 2 ^ 64 →
  ∃ s, run os start = Some s ∧ dom (vars s) = live ∧
    (∀ x h p, vars s !! x = Some h → m_ptr h = Some p →
      is_Some (deref x s) ∧ use_count x s = Some (sharers p (vars s))) ∧
    (∀ p, is_Some (objects (mem s) !! p) ↔ ∃ x h, vars s !! x = Some h ∧ m_ptr h = Some p) ∧
    (∀ c, is_Some (counts (mem s) !! c) ↔ ∃ x h, vars s !! x = Some h ∧ m_count h = Some c) ∧
    destroyed (mem s) ++ (map_to_list (objects (mem s))).*2 ≡ₚ (os ≫= made) ∧
    (live = ∅ → counts (mem s) = ∅ ∧ destroyed (mem s) ≡ₚ (os ≫= made)).
Proof.
  intros Ha Hsc Hl. destruct (run_good Ha os start live) as (s & Hr & Hd & HG & Hp); [done|apply start_sound|done|].
  assert (Hc : ∀ c, is_Some (counts (mem s) !! c) ↔ ∃ x h, vars s !! x = Some h ∧ m_count h = Some c).
  { intros c. rewrite (g_counts _ _ _ HG). case_decide as Ho; split; [by intros [? ?]| |intros _; by apply owners_some|eauto].
    intros (x & h & Hx & Hh). by destruct (owners_none _ _ Ho x h). }
  assert (Ho : ∀ p, is_Some (objects (mem s) !! p) ↔ ∃ x h, vars s !! x = Some h ∧ m_ptr h = Some p).
  { intros p. rewrite (g_objects _ _ _ HG). naive_solver. }
  exists s. split_and!; [done..| |done|done|done|].
  - intros x h p Hx Hh. unfold deref, use_count. rewrite Hx. simpl. rewrite Hh. simpl. split; [apply Ho; eauto|].
    destruct (m_count h) as [c|] eqn:Ec.
    + simpl. rewrite (sharers_owners _ x h p c); [|apply (g_paired _ _ _ HG)|done..].
      rewrite (g_counts _ _ _ HG), decide_False; [done|]. intros Hz. by apply (owners_none _ _ Hz x h).
    + destruct (g_paired _ _ _ HG _ _ _ _ Hx Hx) as [Hn _]. rewrite Hn in Hh; done.
  - intros ->. apply dom_empty_inv_L in Hd. split.
    + apply map_empty. intros c. apply eq_None_not_Some. rewrite Hc, Hd. by intros (x & h & ? & _).
    + rewrite <-Hp. unfold population. replace (objects (mem s)) with (∅ : gmap nat T); [by rewrite app_nil_r|].
      symmetry. apply map_empty. intros q. apply eq_None_not_Some. rewrite Ho, Hd. by intros (x & h & ? & _).
Qed.

(** A variable that owns nothing has no count to read: its [use_count] is undefined. *)
Theorem use_count_of_null x s : vars s !! x = Some null → use_count x s = None.
Proof. intros Hx. unfold use_count. by rewrite Hx. Qed.
End shared.

(** Statements of the file's [main], its scopes included: [s1] to [s6] are variables 1 to
    6. The object of [s5]'s first reset is gone after the second. *)
Definition client : list (Op (T := Z)) :=
  [Construct 1 5; CopyConstruct 2 1; Default 3; CopyAssign 3 2; Construct 4 100; Default 5;
   Construct 7 200; MoveAssign 5 7; Destroy 7; Reset 5 (Some 300); Reset 5 None;
   CopyConstruct 6 1; Destroy 6; CopyAssign 1 1; MoveAssign 4 4].

Lemma shared_ownership_witness :
  ∃ s, run (fresh (A := nat) (C := gset nat)) client start = Some s ∧ dom (vars s) = {[1; 2; 3; 4; 5]}%nat ∧
    use_count 1 s = Some 3 ∧ deref 3 s = Some 5 ∧ destroyed (mem s) = [200; 300].
Proof.
  destruct (shared_ownership (fresh (A := nat) (C := gset nat)) client {[1; 2; 3; 4; 5]}%nat) as (s & Hr & Hd & _).
  - intros X. apply is_fresh.
  - vm_compute. reflexivity.
  - vm_compute. reflexivity.
  - exists s. split; [done|]. split; [done|]. vm_compute in Hr. injection Hr as <-.
    split; [vm_compute; reflexivity|]. split; [vm_compute; reflexivity|]. vm_compute. reflexivity.
Defined.
End SharedPtr.

(** * Sole ownership ([unique_pointer.cpp])

    The heap, allocation and undefined behaviour are as in [SharedPtr]. The client's
    variables are its [UniquePtr]s and the raw pointers that [release] gives it, which it
    gives back with [reset] or deletes itself. *)

Module UniquePtr.
Section unique.
Context {T : Type} (alloc : gset nat → nat).

(** [destroyed] is no variable of the program's. *)
Record heap := mkHeap { objects : gmap nat T; destroyed : list T }.

(** [delete p]. *)
Definition delete_object (p : option nat) (s : heap) : option heap :=
  match p with
  | None => Some s
  | Some p => v ← objects s !! p; Some (mkHeap (delete p (objects s)) (destroyed s ++ [v]))
  end.

(** A variable of the client is the [m_ptr] of its [UniquePtr], or its raw pointer. *)
Record t := mk { vars : gmap nat (option nat); mem : heap }.

Definition start : t := mk ∅ (mkHeap ∅ []).

Definition set (x : nat) (p : option nat) (s : t) : t := mk (<[x := p]> (vars s)) (mem s).

(** [new T(v)], in the client. *)
Definition new_object (v : T) (s : t) : nat * t :=
  let p := alloc (dom (objects (mem s))) in
  (p, mk (vars s) (mkHeap (<[p := v]> (objects (mem s))) (destroyed (mem s)))).

Definition default_construct (x : nat) (s : t) : option t := Some (set x None s).

(** [UniquePtr<T> x{new T(v)}]. *)
Definition construct (x : nat) (v : T) (s : t) : option t :=
  let '(p, s) := new_object v s in Some (set x (Some p) s).

(** [UniquePtr<T> x{std::move(y)}]. *)
Definition move_construct (x y : nat) (s : t) : option t :=
  p ← vars s !! y; Some (set y None (set x p s)).

(** [x = std::move(y)]. *)
Definition move_assign (x y : nat) (s : t) : option t :=
  if decide (y = x) then Some s else
  p ← vars s !! x;
  m ← delete_object p (mem s);
  q ← vars s !! y;
  Some (set y None (set x q (mk (vars s) m))).

(** [T* r = x.release()]. *)
Definition release (x r : nat) (s : t) : option t :=
  temp ← vars s !! x; Some (set r temp (set x None s)).

(** [x.reset(ptr)]. *)
Definition reset (x : nat) (ptr : option nat) (s : t) : option t :=
  p ← vars s !! x;
  m ← delete_object p (mem s);
  Some (set x ptr (mk (vars s) m)).

(** [x.swap(y)]. *)
Definition swap (x y : nat) (s : t) : option t :=
  temp ← vars s !! y;
  p ← vars s !! x;
  Some (set x temp (set y p s)).

(** The end of [x]'s lifetime, and [delete x] of a raw pointer. *)
Definition destroy (x : nat) (s : t) : option t :=
  p ← vars s !! x;
  m ← delete_object p (mem s);
  Some (mk (delete x (vars s)) m).

(** [*x] and [x->]. *)
Definition deref (x : nat) (s : t) : option T := h ← vars s !! x; p ← h; objects (mem s) !! p.

(** A statement of the client. [ResetRaw x r] gives the raw pointer [r] to [x]. *)
Inductive Op :=
  | Default (x : nat)
  | Construct (x : nat) (v : T)
  | MoveConstruct (x y : nat)
  | MoveAssign (x y : nat)
  | Release (x r : nat)
  | ResetNew (x : nat) (v : T)
  | ResetNull (x : nat)
  | ResetRaw (x r : nat)
  | Swap (x y : nat)
  | Destroy (x : nat).

Definition step (o : Op) (s : t) : option t :=
  match o with
  | Default x => default_construct x s
  | Construct x v => construct x v s
  | MoveConstruct x y => move_construct x y s
  | MoveAssign x y => move_assign x y s
  | Release x r => release x r s
  | ResetNew x v => let '(p, s) := new_object v s in reset x (Some p) s
  | ResetNull x => reset x None s
  | ResetRaw x r => p ← vars s !! r; reset x p (mk (delete r (vars s)) (mem s))
  | Swap x y => swap x y s
  | Destroy x => destroy x s
  end.

Fixpoint run (os : list Op) (s : t) : option t :=
  match os with [] => Some s | o :: os => step o s ≫= run os end.

(** The variables in scope after a statement, if it uses those in scope and declares one
    that is not. *)
Definition scope (o : Op) (live : gset nat) : option (gset nat) :=
  match o with
  | Default x | Construct x _ => guard (x ∉ live);; Some ({[x]} ∪ live)
  | MoveConstruct x y => guard (x ∉ live);; guard (y ∈ live);; Some ({[x]} ∪ live)
  | Release x r => guard (x ∈ live);; guard (r ∉ live);; Some ({[r]} ∪ live)
  | MoveAssign x y | Swap x y => guard (x ∈ live);; guard (y ∈ live);; Some live
  | ResetNew x _ | ResetNull x => guard (x ∈ live);; Some live
  | ResetRaw x r => guard (x ∈ live);; guard (r ∈ live);; guard (x ≠ r);; Some (live ∖ {[r]})
  | Destroy x => guard (x ∈ live);; Some (live ∖ {[x]})
  end.

Fixpoint scopes (os : list Op) (live : gset nat) : option (gset nat) :=
  match os with [] => Some live | o :: os => scope o live ≫= scopes os end.

(** The objects a statement makes. *)
Definition made (o : Op) : list T := match o with Construct _ v | ResetNew _ v => [v] | _ => [] end.

(** Nobody shares, and the objects alive are those owned. *)
Record good (m : gmap nat (option nat)) (s : heap) : Prop := {
  g_sole : ∀ x y p, m !! x = Some (Some p) → m !! y = Some (Some p) → x = y;
  g_objects : ∀ p, is_Some (objects s !! p) ↔ ∃ x, m !! x = Some (Some p);
}.

Definition sound (s : t) : Prop := good (vars s) (mem s).

(** The objects there have been, dead or alive. *)
Definition population (s : heap) : list T := destroyed s ++ (map_to_list (objects s)).*2.

(** Owners may be renamed. *)
Lemma good_rename (f : nat → nat) m m' s : (∀ x y, f x = f y → x = y) →
  (∀ x p, m' !! x = Some (Some p) → m !! f x = Some (Some p)) →
  (∀ x p, m !! x = Some (Some p) → ∃ y, m' !! y = Some (Some p)) → good m s → good m' s.
Proof.
  intros Hf H1 H2 [Hs Ho]. split.
  - intros x y p Hx%H1 Hy%H1. by apply Hf, (Hs _ _ p).
  - intros p. rewrite Ho. split; [intros [x Hx]; eauto|intros [x Hx]; eauto].
Qed.

Lemma sole_good_null m s x : good m s → m !! x = None → good (<[x := None]> m) s.
Proof.
  intros HG Hx. revert HG. apply (good_rename id); [done|..]; simpl.
  - by intros y p [[_ ?]|[_ Hy]]%lookup_insert_Some.
  - intros y p Hy. exists y. rewrite lookup_insert_ne; [done|congruence].
Qed.

Lemma good_drop m s x : good m s → m !! x = Some None → good (delete x m) s.
Proof.
  intros HG Hx. revert HG. apply (good_rename id); [done|..]; simpl.
  - by intros y p [_ Hy]%lookup_delete_Some.
  - intros y p Hy. exists y. rewrite lookup_delete_ne; [done|congruence].
Qed.

(** The exchange of [x] and [y]. *)
Definition flip (x y z : nat) : nat := if decide (z = x) then y else if decide (z = y) then x else z.

Lemma flip_flip x y z : flip x y (flip x y z) = z.
Proof. unfold flip. repeat case_decide; congruence. Qed.

Lemma good_swap m s x y p q : good m s → m !! x = Some p → m !! y = Some q → good (<[x := q]> (<[y := p]> m)) s.
Proof.
  intros HG Hx Hy. revert HG. apply (good_rename (flip x y)).
  - intros a b E. rewrite <-(flip_flip x y a), E. apply flip_flip.
  - intros z v Hz. unfold flip. repeat case_decide; subst.
    + by rewrite lookup_insert_eq in Hz; congruence.
    + rewrite lookup_insert_ne, lookup_insert_eq in Hz by done. congruence.
    + by rewrite !lookup_insert_ne in Hz by done.
  - intros z v Hz. exists (flip x y z). unfold flip. repeat case_decide; subst.
    + destruct (decide (x = y)) as [->|]; [rewrite lookup_insert_eq; congruence|].
      rewrite lookup_insert_ne, lookup_insert_eq by done. congruence.
    + rewrite lookup_insert_eq. congruence.
    + by rewrite !lookup_insert_ne by done.
Qed.

(** [x], which owned nothing, takes what [y] owned. *)
Lemma sole_good_move m s x y q : good m s → m !! x = None ∨ m !! x = Some None → m !! y = Some q → x ≠ y →
  good (<[x := q]> (<[y := None]> m)) s.
Proof.
  intros HG [Hx|Hx] Hy Hne; [|by apply good_swap].
  assert (HG' : good (<[x := q]> (<[y := None]> (<[x := None]> m))) s).
  { apply good_swap; [by apply sole_good_null|apply lookup_insert_eq|by rewrite lookup_insert_ne]. }
  by rewrite (insert_insert_ne _ y x), insert_insert_eq in HG' by done.
Qed.

(** [x] deletes what it owns. *)
Lemma delete_object_good m s x e : good m s → m !! x = Some e →
  ∃ s', delete_object e s = Some s' ∧ good (<[x := None]> m) s' ∧ population s' ≡ₚ population s.
Proof.
  intros [Hs Ho] Hx. destruct e as [p|]; simpl; [|by exists s; rewrite insert_id].
  destruct (proj2 (Ho p)) as [v Hv]; [eauto|]. rewrite Hv. simpl. eexists. split_and!; [done|split|].
  - intros y z q [[_ ?]|[_ Hy]]%lookup_insert_Some [[_ ?]|[_ Hz]]%lookup_insert_Some; by eauto.
  - intros q. simpl. rewrite lookup_delete_is_Some, Ho. split.
    + intros [Hne [y Hy]]. exists y. rewrite lookup_insert_ne; [done|congruence].
    + intros (y & [[_ ?]|[Hne Hy]]%lookup_insert_Some); [done|]. split; [|eauto].
      intros ->. by destruct (Hs x y q).
  - unfold population. simpl. rewrite <-(map_to_list_delete (objects s) p) by done. simpl. solve_Permutation.
Qed.

Section steps.
Context (Ha : ∀ X, alloc X ∉ X).

Lemma sole_new_object_good s v x p s' : sound s → vars s !! x = None → new_object v s = (p, s') →
  vars s' = vars s ∧ good (<[x := Some p]> (vars s')) (mem s') ∧ population (mem s') ≡ₚ population (mem s) ++ [v].
Proof.
  unfold new_object. intros [Hs Ho] Hx [= <- <-]. simpl. set (p := alloc _).
  assert (Hn : objects (mem s) !! p = None) by (apply not_elem_of_dom, Ha).
  assert (Hp : ∀ y, vars s !! y ≠ Some (Some p)).
  { intros y Hy. destruct (proj2 (Ho p)) as [? ?]; [eauto|congruence]. }
  split_and!; [done|split|].
  - intros y z q [[? ?]|[? Hy]]%lookup_insert_Some [[? ?]|[? Hz]]%lookup_insert_Some; simplify_eq; try done.
    + by destruct (Hp z).
    + by destruct (Hp y).
    + by eapply Hs.
  - intros q. simpl. rewrite lookup_insert_is_Some, Ho. split.
    + intros [<-|[_ [y Hy]]]; [exists x; by rewrite lookup_insert_eq|]. exists y. rewrite lookup_insert_ne; [done|congruence].
    + intros (y & [[_ ?]|[_ Hy]]%lookup_insert_Some); [left; congruence|]. right. split; [|eauto].
      intros <-. by destruct (Hp y).
  - unfold population. simpl. rewrite map_to_list_insert by done. simpl. solve_Permutation.
Qed.

(** [x] is reset to what [r] held, and [r] holds it no longer. *)
Lemma sole_reset_good m m' s x r e q : good m s → m !! x = Some e → m !! r = Some q → x ≠ r → m' = delete r m →
  ∃ s', delete_object e s = Some s' ∧ good (<[x := q]> m') s' ∧ population s' ≡ₚ population s.
Proof.
  intros HG Hx Hr Hne ->. destruct (delete_object_good _ _ _ _ HG Hx) as (s' & Hd & HG' & Hp).
  exists s'. split_and!; [done| |done].
  assert (HG2 : good (delete r (<[x := q]> (<[r := None]> (<[x := None]> m)))) s').
  { apply good_drop; [|by rewrite lookup_insert_ne, lookup_insert_eq].
    apply good_swap; [done|apply lookup_insert_eq|by rewrite lookup_insert_ne]. }
  rewrite (insert_insert_ne _ r x), insert_insert_eq, delete_insert_ne, delete_insert_eq in HG2 by done. done.
Qed.

Definition advances (o : Op) (live : gset nat) (s s' : t) : Prop :=
  dom (vars s') = live ∧ sound s' ∧ population (mem s') ≡ₚ population (mem s) ++ made o.

(** [x] is left with [e'], in a heap that only changed as [good] says. *)
Lemma advances_set o s x e m : x ∈ dom (vars s) → good (<[x := e]> (vars s)) m →
  population m ≡ₚ population (mem s) ++ made o → advances o (dom (vars s)) s (mk (<[x := e]> (vars s)) m).
Proof. intros Hx HG Hp. split_and!; simpl; [rewrite dom_insert_L; set_solver|done..]. Qed.

Lemma reset_new_good s x v : sound s → x ∈ dom (vars s) →
  ∃ s', step (ResetNew x v) s = Some s' ∧ advances (ResetNew x v) (dom (vars s)) s s'.
Proof.
  intros HG Hdx. pose proof Hdx as [e Hx]%elem_of_dom. unfold step.
  set (r := fresh (dom (vars s))). assert (Hr : r ∉ dom (vars s)) by apply is_fresh.
  assert (r ≠ x) by congruence. apply not_elem_of_dom in Hr.
  destruct (new_object v s) as [p s1] eqn:En. destruct (sole_new_object_good _ _ r _ _ HG Hr En) as (Ev & HG1 & Hp1).
  destruct (sole_reset_good (<[r := Some p]> (vars s1)) (vars s) (mem s1) x r e (Some p)) as (m & Hd & HG2 & Hp2).
  - done.
  - by rewrite Ev, lookup_insert_ne.
  - apply lookup_insert_eq.
  - done.
  - by rewrite Ev, delete_insert_id.
  - unfold reset. rewrite Ev, Hx. simpl. rewrite Hd. simpl. eexists. split; [done|].
    unfold set. simpl. apply advances_set; [done..|]. by rewrite Hp2.
Qed.

Lemma reset_raw_good s x r : sound s → x ∈ dom (vars s) → r ∈ dom (vars s) → x ≠ r →
  ∃ s', step (ResetRaw x r) s = Some s' ∧ advances (ResetRaw x r) (dom (vars s) ∖ {[r]}) s s'.
Proof.
  intros HG [e Hx]%elem_of_dom [q Hr]%elem_of_dom Hne. simpl. rewrite Hr. simpl. unfold reset. simpl.
  rewrite lookup_delete_ne, Hx by done. simpl.
  destruct (sole_reset_good (vars s) (delete r (vars s)) (mem s) x r e q) as (m & -> & HG' & Hp); [done..|].
  simpl. eexists. split; [done|]. split_and!; simpl; [|done|by rewrite app_nil_r].
  rewrite dom_insert_L, dom_delete_L. apply elem_of_dom_2 in Hx. set_solver.
Qed.

Lemma sole_move_assign_good s x y : sound s → x ∈ dom (vars s) → y ∈ dom (vars s) →
  ∃ s', step (MoveAssign x y) s = Some s' ∧ advances (MoveAssign x y) (dom (vars s)) s s'.
Proof.
  intros HG [p Hx]%elem_of_dom [q Hy]%elem_of_dom. simpl. unfold move_assign. case_decide.
  { exists s. split; [done|]. split_and!; [done..|]. by rewrite app_nil_r. }
  rewrite Hx. simpl. destruct (delete_object_good _ _ _ _ HG Hx) as (m & -> & HG' & Hp). simpl.
  rewrite Hy. simpl. eexists. split; [done|]. unfold set. split_and!; simpl; [|red; simpl|by rewrite app_nil_r].
  - rewrite !dom_insert_L. apply elem_of_dom_2 in Hx, Hy. set_solver.
  - replace (<[y := None]> (<[x := q]> (vars s))) with (<[x := q]> (<[y := None]> (<[x := None]> (vars s)))).
    + apply sole_good_move; [done|right; apply lookup_insert_eq|by rewrite lookup_insert_ne|done].
    + by rewrite (insert_insert_ne _ y x None None), insert_insert_eq, insert_insert_ne by done.
Qed.

Lemma default_good s x : sound s → x ∉ dom (vars s) →
  ∃ s', step (Default x) s = Some s' ∧ advances (Default x) ({[x]} ∪ dom (vars s)) s s'.
Proof.
  intros HG Hx%not_elem_of_dom. eexists. split; [done|].
  split_and!; simpl; [apply dom_insert_L|by apply sole_good_null|by rewrite app_nil_r].
Qed.

Lemma construct_good s x v : sound s → x ∉ dom (vars s) →
  ∃ s', step (Construct x v) s = Some s' ∧ advances (Construct x v) ({[x]} ∪ dom (vars s)) s s'.
Proof.
  intros HG Hx%not_elem_of_dom. unfold step, construct. destruct (new_object v s) as [p s1] eqn:En.
  destruct (sole_new_object_good _ _ x _ _ HG Hx En) as (Ev & HG1 & Hp1).
  eexists. split; [done|]. split_and!; simpl; [by rewrite Ev, dom_insert_L|done..].
Qed.

Lemma sole_move_construct_good s x y : sound s → x ∉ dom (vars s) → y ∈ dom (vars s) →
  ∃ s', step (MoveConstruct x y) s = Some s' ∧ advances (MoveConstruct x y) ({[x]} ∪ dom (vars s)) s s'.
Proof.
  intros HG Hx%not_elem_of_dom [q Hy]%elem_of_dom. simpl. unfold move_construct. rewrite Hy. simpl.
  eexists. split; [done|]. unfold set. split_and!; simpl; [|red; simpl|by rewrite app_nil_r].
  - rewrite !dom_insert_L. apply elem_of_dom_2 in Hy. set_solver.
  - rewrite insert_insert_ne by congruence. apply sole_good_move; auto; congruence.
Qed.

Lemma sole_release_good s x r : sound s → x ∈ dom (vars s) → r ∉ dom (vars s) →
  ∃ s', step (Release x r) s = Some s' ∧ advances (Release x r) ({[r]} ∪ dom (vars s)) s s'.
Proof.
  intros HG [q Hx]%elem_of_dom Hr%not_elem_of_dom. simpl. unfold release. rewrite Hx. simpl.
  eexists. split; [done|]. unfold set. split_and!; simpl; [|red; simpl|by rewrite app_nil_r].
  - rewrite !dom_insert_L. apply elem_of_dom_2 in Hx. set_solver.
  - apply sole_good_move; auto; congruence.
Qed.

Lemma reset_null_good s x : sound s → x ∈ dom (vars s) →
  ∃ s', step (ResetNull x) s = Some s' ∧ advances (ResetNull x) (dom (vars s)) s s'.
Proof.
  intros HG Hdx. pose proof Hdx as [e Hx]%elem_of_dom. simpl. unfold reset. rewrite Hx. simpl.
  destruct (delete_object_good _ _ _ _ HG Hx) as (m & -> & HG' & Hp). simpl.
  eexists. split; [done|]. apply (advances_set _ s); [done..|]. by rewrite app_nil_r.
Qed.

Lemma swap_good s x y : sound s → x ∈ dom (vars s) → y ∈ dom (vars s) →
  ∃ s', step (Swap x y) s = Some s' ∧ advances (Swap x y) (dom (vars s)) s s'.
Proof.
  intros HG [p Hx]%elem_of_dom [q Hy]%elem_of_dom. simpl. unfold swap. rewrite Hy. simpl. rewrite Hx. simpl.
  eexists. split; [done|]. unfold set. split_and!; simpl; [|by apply good_swap|by rewrite app_nil_r].
  rewrite !dom_insert_L. apply elem_of_dom_2 in Hx, Hy. set_solver.
Qed.

Lemma sole_destroy_good s x : sound s → x ∈ dom (vars s) →
  ∃ s', step (Destroy x) s = Some s' ∧ advances (Destroy x) (dom (vars s) ∖ {[x]}) s s'.
Proof.
  intros HG [e Hx]%elem_of_dom. simpl. unfold destroy. rewrite Hx. simpl.
  destruct (delete_object_good _ _ _ _ HG Hx) as (m & -> & HG' & Hp). simpl.
  eexists. split; [done|]. split_and!; simpl; [apply dom_delete_L|red; simpl|by rewrite app_nil_r].
  rewrite <-(delete_insert_eq _ _ None). apply good_drop; [done|apply lookup_insert_eq].
Qed.

Lemma sole_step_good o s live : scope o (dom (vars s)) = Some live → sound s →
  ∃ s', step o s = Some s' ∧ advances o live s s'.
Proof.
  intros Hsc HG. destruct o; cbn [scope] in Hsc;
    repeat (apply bind_Some in Hsc as (? & _ & Hsc)); injection Hsc as <-;
    auto using default_good, construct_good, sole_move_construct_good, sole_move_assign_good, sole_release_good, reset_new_good,
      reset_null_good, reset_raw_good, swap_good, sole_destroy_good.
Qed.

Lemma sole_run_good os s live : scopes os (dom (vars s)) = Some live → sound s →
  ∃ s', run os s = Some s' ∧ dom (vars s') = live ∧ sound s' ∧
    population (mem s') ≡ₚ population (mem s) ++ (os ≫= made).
Proof.
  revert s. induction os as [|o os IH]; intros s Hsc HG; simpl in *.
  { simplify_eq. exists s. rewrite app_nil_r. done. }
  apply bind_Some in Hsc as (mid & Hm & Hsc).
  destruct (sole_step_good o s mid) as (s1 & -> & Hd & HG1 & Hp); [done..|]. subst mid. simpl.
  destruct (IH s1 Hsc HG1) as (s2 & Hr & Hd & HG2 & Hp2). exists s2. split_and!; [done..|].
  by rewrite Hp2, Hp, <-(assoc_L (++)).
Qed.
End steps.

(** Every object has exactly one owner as long as it lives: whatever a client does,
    nothing is used or freed after it was freed, no two variables own the same object,
    the objects alive are those owned, and every object made is alive or was destroyed,
    once. *)
Theorem sole_ownership os live : (∀ X, alloc X ∉ X) → scopes os ∅ = Some live →
  ∃ s, run os start = Some s ∧ dom (vars s) = live ∧
    (∀ x y p, vars s !! x = Some (Some p) → vars s !! y = Some (Some p) → x = y) ∧
    (∀ p, is_Some (objects (mem s) !! p) ↔ ∃ x, vars s !! x = Some (Some p)) ∧
    destroyed (mem s) ++ (map_to_list (objects (mem s))).*2 ≡ₚ (os ≫= made).
Proof.
  intros Ha Hsc. destruct (sole_run_good Ha os start live) as (s & Hr & Hd & [Hs Ho] & Hp); [done| |eauto 10].
  split; [done|]. intros p. split; [by intros [? ?]|by intros [? ?]].
Qed.
End unique.

(** The fourth and tenth tests of the file's [main]: a released object is destroyed when
    its new owner is. *)
Example released_and_adopted :
  run (fresh (A := nat) (C := gset nat)) [Construct 1 123; Release 1 2; Default 3; ResetRaw 3 2; Destroy 3; Destroy 1] start =
    Some (mk ∅ (mkHeap ∅ [123])).
Proof. vm_compute. reflexivity. Qed.
End UniquePtr.
