(* ===== verification/Vector.v ===== *)
(** * The growing array (Module Vector), and that it is a list (Module VectorProps) *)

From S2P Require Import Prelude.

(** * A growing array ([vector.cpp])

    Storage from [operator new[]] is a block of slots, each raw or holding an object. What
    may fail, an allocation and the construction of an element, consults [faults]: [true]
    throws. Reading or destroying what is not an object, and any access outside a block,
    is undefined behaviour. The addresses [operator new[]] answers are a parameter, as are
    [sizeof(T)] and what a move leaves behind. Iterators are the positions that [begin]
    and [end] delimit; the texts of exceptions are not modelled. *)

Module Vector.

Inductive exn := BadAlloc | ElementError | OutOfRange.

(** The three members of a [Vector]. *)
Record Vec := mkVec { m_size : Z; m_capacity : Z; m_data : option nat }.

Definition empty_vec : Vec := mkVec 0 0 None.

Section vector.
Context {A : Type} (alloc : gset nat → nat) (sizeof : Z) (moved : A → A).

(** The client's vectors by name, and the heap. [lost] is no variable of the program's: the
    objects whose storage was reused or freed while they were alive. *)
Record t := mk {
  blocks : gmap nat (list (option A));
  vars : gmap nat Vec;
  faults : list bool;
  lost : list A;
}.

Inductive result (X : Type) := Done (x : X) (s : t) | Thrown (e : exn) (s : t) | Undefined.
Arguments Done {X}.
Arguments Thrown {X}.
Arguments Undefined {X}.

(** A computation on the heap that may throw. *)
Definition M (X : Type) : Type := t → result X.

#[export] Instance M_ret : MRet M := λ X x s, Done x s.

#[export] Instance M_bind : MBind M := λ X Y k m s,
  match m s with Done x s => k x s | Thrown e s => Thrown e s | Undefined => Undefined end.

Definition throw {X} (e : exn) : M X := λ s, Thrown e s.

Definition undefined {X} : M X := λ _, Undefined.

(** [try m catch (...) h]. *)
Definition catch {X} (m : M X) (h : exn → M X) : M X := λ s,
  match m s with Thrown e s => h e s | r => r end.

Definition set_blocks (b : gmap nat (list (option A))) (s : t) : t := mk b (vars s) (faults s) (lost s).
Definition set_faults (f : list bool) (s : t) : t := mk (blocks s) (vars s) f (lost s).
Definition set_lost (l : list A) (s : t) : t := mk (blocks s) (vars s) (faults s) l.

(** A variable of the client: [*this], or an argument. *)
Definition get (x : nat) : M Vec := λ s, match vars s !! x with Some v => Done v s | None => Undefined end.
Definition put (x : nat) (v : Vec) : M unit := λ s, Done () (mk (blocks s) (<[x := v]> (vars s)) (faults s) (lost s)).
Definition drop (x : nat) : M unit := λ s, Done () (mk (blocks s) (delete x (vars s)) (faults s) (lost s)).

(** What may throw. *)
Definition fallible (e : exn) : M unit := λ s,
  match faults s with
  | [] => Done () s
  | b :: f => if b then Thrown e (set_faults f s) else Done () (set_faults f s)
  end.

(** [operator new[](sizeof(T) * n)]: the product is a [size_t]. *)
Definition take_block (n : Z) : M nat := λ s,
  let p := alloc (dom (blocks s)) in
  Done p (set_blocks (<[p := replicate (Z.to_nat (u64 (sizeof * n) / sizeof)) None]> (blocks s)) s).

Definition new_array (n : Z) : M nat := fallible BadAlloc;; take_block n.

(** The objects of a block. *)
Definition objects (b : list (option A)) : list A := omap id b.

(** [operator delete[](p)]. *)
Definition delete_array (p : option nat) : M unit := λ s,
  match p with
  | None => Done () s
  | Some p =>
      match blocks s !! p with
      | Some b => Done () (set_lost (lost s ++ objects b) (set_blocks (delete p (blocks s)) s))
      | None => Undefined
      end
  end.

(** The slot at [p + i]. *)
Definition slot (p : option nat) (i : Z) (s : t) : option (option A) :=
  p ← p; b ← blocks s !! p; vget b i.

Definition set_slot (p : option nat) (i : Z) (o : option A) (s : t) : t :=
  match p with
  | Some p => set_blocks (alter (λ b, vput b i o) p (blocks s)) s
  | None => s
  end.

(** [*(p + i)], as a value, and [std::move] of it. *)
Definition read (p : option nat) (i : Z) : M A := λ s,
  match slot p i s with Some (Some a) => Done a s | _ => Undefined end.

Definition read_move (p : option nat) (i : Z) : M A := λ s,
  match slot p i s with Some (Some a) => Done a (set_slot p i (Some (moved a)) s) | _ => Undefined end.

(** An object begins to live at [p + i]. *)
Definition place (p : option nat) (i : Z) (a : A) : M unit := λ s,
  match slot p i s with
  | Some o => Done () (set_lost (lost s ++ objects [o]) (set_slot p i (Some a) s))
  | None => Undefined
  end.

(** [std::construct_at(p + i, src)], where the constructor reads [src]. *)
Definition construct_at (p : option nat) (i : Z) (src : M A) : M unit :=
  fallible ElementError;; a ← src; place p i a.

(** [std::destroy_at(p + i)]. *)
Definition destroy_at (p : option nat) (i : Z) : M unit := λ s,
  match slot p i s with Some (Some _) => Done () (set_slot p i None s) | _ => Undefined end.

(** [while (i > 0) { --i; std::destroy_at(p + i); }]. *)
Fixpoint destroy_down (p : option nat) (i : nat) : M unit :=
  match i with O => mret () | S i => destroy_at p (Z.of_nat i);; destroy_down p i end.

(** The loop of the constructors, with the handler of the [try] around it: [srcs] are
    constructed from slot [i] on. *)
Fixpoint construct_all (p : option nat) (i : nat) (srcs : list (M A)) : M unit :=
  match srcs with
  | [] => mret ()
  | src :: srcs =>
      catch (construct_at p (Z.of_nat i) src)
        (λ e, destroy_down p i;; delete_array p;; throw e);;
      construct_all p (S i) srcs
  end.

(** The loop of [reserve] and [shrink_to_fit]: elements [i] to [i + n - 1] move to [q]. *)
Fixpoint move_all (p q : option nat) (i n : nat) : M unit :=
  match n with
  | O => mret ()
  | S n => construct_at q (Z.of_nat i) (read_move p (Z.of_nat i));; move_all p q (S i) n
  end.

(** A reference to an element's type: to an object of the client's, or to a slot. *)
Inductive Ref := Ext (a : A) | Elem (p : option nat) (i : Z).

Definition load (r : Ref) : M A := match r with Ext a => mret a | Elem p i => read p i end.
Definition load_move (r : Ref) : M A := match r with Ext a => mret a | Elem p i => read_move p i end.

(** [Vector(size, val)]. *)
Definition construct_fill (size : Z) (val : Ref) : M Vec :=
  p ← new_array size;
  construct_all (Some p) 0 (replicate (Z.to_nat size) (load val));;
  mret (mkVec size size (Some p)).

(** [Vector(std::initializer_list<T>)]. *)
Definition construct_list (l : list A) : M Vec :=
  p ← new_array (vsize l);
  construct_all (Some p) 0 (mret <$> l);;
  mret (mkVec (vsize l) (vsize l) (Some p)).

(** [Vector(const Vector& v)]. *)
Definition copy_of (v : Vec) : M Vec :=
  p ← new_array (m_capacity v);
  construct_all (Some p) 0 ((λ i, read (m_data v) (Z.of_nat i)) <$> seq 0 (Z.to_nat (m_size v)));;
  mret (mkVec (m_size v) (m_capacity v) (Some p)).

(** [~Vector()]. *)
Definition destruct_vec (v : Vec) : M unit :=
  destroy_down (m_data v) (Z.to_nat (m_size v));; delete_array (m_data v).

(** [x = y]. *)
Definition copy_assign (x y : nat) : M unit :=
  if decide (x = y) then mret () else
  v ← get y;
  tmp ← copy_of v;
  this ← get x;
  put x tmp;;
  destruct_vec this.

(** [Vector(Vector&& v)]. *)
Definition move_construct (x y : nat) : M unit :=
  v ← get y;
  put y empty_vec;;
  put x v.

(** [x = std::move(y)]. *)
Definition move_assign (x y : nat) : M unit :=
  if decide (x = y) then mret () else
  this ← get x;
  destruct_vec this;;
  v ← get y;
  put y empty_vec;;
  put x v.

(** [x[i]], [x.at(i)]. *)
Definition at_ (x : nat) (i : Z) : M A :=
  v ← get x;
  if m_size v <=? i then throw OutOfRange else read (m_data v) i.

Definition front (x : nat) : M A :=
  v ← get x;
  if m_size v =? 0 then throw OutOfRange else read (m_data v) 0.

Definition back (x : nat) : M A :=
  v ← get x;
  if m_size v =? 0 then throw OutOfRange else read (m_data v) (u64 (m_size v - 1)).

Definition reallocate (x : nat) (size : Z) : M unit :=
  v ← get x;
  p ← new_array size;
  move_all (m_data v) (Some p) 0 (Z.to_nat (m_size v));;
  destroy_down (m_data v) (Z.to_nat (m_size v));;
  delete_array (m_data v);;
  put x (mkVec (m_size v) size (Some p)).

Definition reserve (x : nat) (size : Z) : M unit :=
  v ← get x;
  if size <=? m_capacity v then mret () else reallocate x size.

Definition shrink_to_fit (x : nat) : M unit := v ← get x; reallocate x (m_size v).

(** The growth that [push_back] and [emplace_back] begin with. *)
Definition grow (x : nat) : M unit :=
  v ← get x;
  if m_size v =? m_capacity v then reserve x (Z.max (u64 (2 * m_capacity v)) 1) else mret ().

Definition append (x : nat) (src : M A) : M unit :=
  v ← get x;
  construct_at (m_data v) (m_size v) src;;
  put x (mkVec (u64 (m_size v + 1)) (m_capacity v) (m_data v)).

Definition push_back (x : nat) (value : Ref) : M unit := grow x;; append x (load value).
Definition push_back_move (x : nat) (value : Ref) : M unit := grow x;; append x (load_move value).
Definition emplace_back (x : nat) (arg : Ref) : M unit := grow x;; append x (load arg).

(** [--m_size; std::destroy_at(m_data + m_size);]. *)
Definition drop_last (x : nat) : M unit :=
  v ← get x;
  put x (mkVec (u64 (m_size v - 1)) (m_capacity v) (m_data v));;
  destroy_at (m_data v) (u64 (m_size v - 1)).

Definition pop_back (x : nat) : M unit := v ← get x; if m_size v =? 0 then mret () else drop_last x.

(** The two loops of [resize]: new elements from slot [i] on, and the last [n] elements go. *)
Fixpoint extend (p : option nat) (i n : nat) (val : M A) : M unit :=
  match n with O => mret () | S n => construct_at p (Z.of_nat i) val;; extend p (S i) n val end.

Fixpoint shorten (x n : nat) : M unit :=
  match n with O => mret () | S n => drop_last x;; shorten x n end.

Definition resize (x : nat) (size : Z) (val : Ref) : M unit :=
  v ← get x;
  (if m_size v <? size
   then reserve x size;; w ← get x;
        extend (m_data w) (Z.to_nat (m_size w)) (Z.to_nat (size - m_size w)) (load val)
   else shorten x (Z.to_nat (m_size v - size)));;
  w ← get x;
  put x (mkVec size (m_capacity w) (m_data w)).

Definition clear (x : nat) : M unit :=
  v ← get x;
  destroy_down (m_data v) (Z.to_nat (m_size v));;
  put x (mkVec 0 (m_capacity v) (m_data v)).

Definition swap (x y : nat) : M unit := v ← get x; w ← get y; put x w;; put y v.

Definition size (x : nat) : M Z := v ← get x; mret (m_size v).
Definition capacity (x : nat) : M Z := v ← get x; mret (m_capacity v).
Definition is_empty (x : nat) : M bool := v ← get x; mret (m_size v =? 0).

(** The end of [x]'s lifetime. *)
Definition destroy (x : nat) : M unit := v ← get x; drop x;; destruct_vec v.
End vector.

Arguments Done {A X} _ _.
Arguments Thrown {A X} _ _.
Arguments Undefined {A X}.
End Vector.

(** * The growing array is a list

    What each operation of [Vector] makes of the heap when nothing throws, and the theorem
    that programs on vectors are programs on lists. *)

Module VectorProps.
Import Vector.

(** ** Programs and what they mean *)

Section programs.
Context {A : Type}.

(** A statement of the client. *)
Inductive Op :=
  | MakeEmpty (x : nat)
  | MakeFill (x : nat) (size : Z) (a : A)
  | MakeList (x : nat) (l : list A)
  | MakeCopy (x y : nat)
  | MakeMove (x y : nat)
  | CopyAssign (x y : nat)
  | MoveAssign (x y : nat)
  | PushBack (x : nat) (a : A)
  | EmplaceBack (x : nat) (a : A)
  | PopBack (x : nat)
  | Resize (x : nat) (size : Z) (a : A)
  | Reserve (x : nat) (size : Z)
  | ShrinkToFit (x : nat)
  | Clear (x : nat)
  | Swap (x y : nat)
  | Destroy (x : nat).

(** The statement on vectors. *)
Definition step (alloc : gset nat → nat) (sizeof : Z) (moved : A → A) (o : Op) : M unit :=
  match o with
  | MakeEmpty x => put x empty_vec
  | MakeFill x n a => v ← construct_fill alloc sizeof n (Ext a); put x v
  | MakeList x l => v ← construct_list alloc sizeof l; put x v
  | MakeCopy x y => w ← get y; v ← copy_of alloc sizeof w; put x v
  | MakeMove x y => move_construct x y
  | CopyAssign x y => copy_assign alloc sizeof x y
  | MoveAssign x y => move_assign x y
  | PushBack x a => push_back alloc sizeof moved x (Ext a)
  | EmplaceBack x a => emplace_back alloc sizeof moved x (Ext a)
  | PopBack x => pop_back x
  | Resize x n a => resize alloc sizeof moved x n (Ext a)
  | Reserve x n => reserve alloc sizeof moved x n
  | ShrinkToFit x => shrink_to_fit alloc sizeof moved x
  | Clear x => clear x
  | Swap x y => swap x y
  | Destroy x => destroy x
  end.

Fixpoint run (alloc : gset nat → nat) (sizeof : Z) (moved : A → A) (os : list Op) : M unit :=
  match os with [] => mret () | o :: os => step alloc sizeof moved o;; run alloc sizeof moved os end.

(** The statement on lists. It is not one if a variable is not in scope, or declared
    twice, or a vector would be longer than [K]. *)
Definition spec (K : Z) (o : Op) (m : gmap nat (list A)) : option (gmap nat (list A)) :=
  match o with
  | MakeEmpty x => guard (m !! x = None);; Some (<[x := []]> m)
  | MakeFill x n a => guard (m !! x = None);; guard (0 ≤ n ≤ K);; Some (<[x := replicate (Z.to_nat n) a]> m)
  | MakeList x l => guard (m !! x = None);; guard (vsize l ≤ K);; Some (<[x := l]> m)
  | MakeCopy x y => guard (m !! x = None);; l ← m !! y; Some (<[x := l]> m)
  | MakeMove x y => guard (m !! x = None);; l ← m !! y; Some (<[x := l]> (<[y := []]> m))
  | CopyAssign x y => _ ← m !! x; l ← m !! y; Some (<[x := l]> m)
  | MoveAssign x y => _ ← m !! x; l ← m !! y; Some (<[x := l]> (if decide (x = y) then m else <[y := []]> m))
  | PushBack x a | EmplaceBack x a => l ← m !! x; guard (vsize l < K);; Some (<[x := l ++ [a]]> m)
  | PopBack x => l ← m !! x; Some (<[x := take (length l - 1) l]> m)
  | Resize x n a =>
      l ← m !! x; guard (0 ≤ n ≤ K);;
      Some (<[x := take (Z.to_nat n) l ++ replicate (Z.to_nat n - length l) a]> m)
  | Reserve x n => _ ← m !! x; guard (0 ≤ n ≤ 2 * K);; Some m
  | ShrinkToFit x => _ ← m !! x; Some m
  | Clear x => _ ← m !! x; Some (<[x := []]> m)
  | Swap x y => l ← m !! x; k ← m !! y; Some (<[y := l]> (<[x := k]> m))
  | Destroy x => _ ← m !! x; Some (delete x m)
  end.

Fixpoint spec_run (K : Z) (os : list Op) (m : gmap nat (list A)) : option (gmap nat (list A)) :=
  match os with [] => Some m | o :: os => spec K o m ≫= spec_run K os end.
End programs.

(** ** Slots *)

Section cells.
Context {A : Type}.
Implicit Types (l : list A) (a : A) (k : nat).

(** A block whose objects are [l], with [k] raw slots after them. *)
Definition cells l k : list (option A) := (Some <$> l) ++ replicate k None.

Lemma vget_cells l k i a : l !! i = Some a → vget (cells l k) (Z.of_nat i) = Some (Some a).
Proof.
  intros Hi. apply vget_Some. split; [lia|]. rewrite Nat2Z.id. unfold cells.
  rewrite lookup_app_l; [by rewrite list_lookup_fmap, Hi|]. rewrite length_fmap. by eapply lookup_lt_Some.
Qed.

Lemma vget_raw l k : vget (cells l (S k)) (Z.of_nat (length l)) = Some None.
Proof.
  apply vget_Some. split; [lia|]. rewrite Nat2Z.id. unfold cells.
  rewrite lookup_app_r; rewrite length_fmap; [|done]. by rewrite Nat.sub_diag.
Qed.

Lemma vput_cells l k a : vput (cells l (S k)) (Z.of_nat (length l)) (Some a) = cells (l ++ [a]) k.
Proof.
  unfold vput, cells. rewrite Nat2Z.id, fmap_app, <-(assoc_L (++)). rewrite insert_app_r_alt by (by rewrite length_fmap).
  by rewrite length_fmap, Nat.sub_diag.
Qed.

Lemma vput_last l k a : vput (cells (l ++ [a]) k) (Z.of_nat (length l)) None = cells l (S k).
Proof.
  unfold vput, cells. rewrite Nat2Z.id, fmap_app, <-(assoc_L (++)). rewrite insert_app_r_alt by (by rewrite length_fmap).
  by rewrite length_fmap, Nat.sub_diag.
Qed.

Lemma vput_moved l1 l2 k a b : vput (cells (l1 ++ a :: l2) k) (Z.of_nat (length l1)) (Some b) = cells (l1 ++ b :: l2) k.
Proof.
  unfold vput, cells. rewrite Nat2Z.id, !fmap_app, <-!(assoc_L (++)). rewrite insert_app_r_alt by (by rewrite length_fmap).
  by rewrite length_fmap, Nat.sub_diag.
Qed.

Lemma cells_nil k : cells [] k = replicate k None.
Proof. done. Qed.

Lemma objects_raw k : objects (replicate k (None : option A)) = [].
Proof. unfold objects. by induction k. Qed.
End cells.

Section props.
Context {A : Type} (alloc : gset nat → nat) (sizeof : Z) (moved : A → A).
Implicit Types (b : gmap nat (list (option A))) (V : gmap nat Vec) (m : gmap nat (list A)) (l : list A) (a : A) (s : t (A := A)).

(** A state, by its parts; and one in which nothing throws and nothing was lost. *)
Definition Sf (f : list bool) (g : list A) b V : t := mk b V f g.
Local Abbreviation St := (Sf [] []).

Lemma bind_done {X Y} (m : M X) (k : X → M Y) s x s' : m s = Done x s' → (m ≫= k) s = k x s'.
Proof. intros Hm. unfold mbind, M_bind. by rewrite Hm. Qed.

Lemma bind_thrown {X Y} (m : M X) (k : X → M Y) s e s' : m s = Thrown e s' → (m ≫= k) s = Thrown e s'.
Proof. intros Hm. unfold mbind, M_bind. by rewrite Hm. Qed.

Lemma read_eq f g p b V c i a : b !! p = Some c → vget c i = Some (Some a) → read (Some p) i (Sf f g b V) = Done a (Sf f g b V).
Proof. intros Hb Hc. unfold read, slot. simpl. rewrite Hb. simpl. by rewrite Hc. Qed.

Lemma place_eq f g p b V c i a : vget c i = Some None →
  place (Some p) i a (Sf f g (<[p := c]> b) V) = Done () (Sf f g (<[p := vput c i (Some a)]> b) V).
Proof.
  intros Hc. unfold place, slot, set_slot. simpl. rewrite lookup_insert_eq. simpl. rewrite Hc. simpl.
  unfold set_lost, set_blocks. simpl. by rewrite alter_insert_eq, app_nil_r.
Qed.

Lemma destroy_at_eq f g p b V c i a : vget c i = Some (Some a) →
  destroy_at (Some p) i (Sf f g (<[p := c]> b) V) = Done () (Sf f g (<[p := vput c i None]> b) V).
Proof.
  intros Hc. unfold destroy_at, slot, set_slot. simpl. rewrite lookup_insert_eq. simpl. rewrite Hc. simpl.
  unfold set_blocks. simpl. by rewrite alter_insert_eq.
Qed.

(** The source of a construction is read without a change while block [p] is built. *)
Definition reads (p : nat) b V (src : M A) (a : A) : Prop :=
  ∀ f g c, src (Sf f g (<[p := c]> b) V) = Done a (Sf f g (<[p := c]> b) V).

Lemma construct_at_eq f g p b V src l k a : reads p b V src a →
  construct_at (Some p) (Z.of_nat (length l)) src (Sf f g (<[p := cells l (S k)]> b) V) =
    match f with
    | [] => Done () (Sf f g (<[p := cells (l ++ [a]) k]> b) V)
    | true :: f => Thrown ElementError (Sf f g (<[p := cells l (S k)]> b) V)
    | false :: f => Done () (Sf f g (<[p := cells (l ++ [a]) k]> b) V)
    end.
Proof.
  intros Hr. unfold construct_at. destruct f as [|[] f]; [|done|].
  - rewrite (bind_done _ _ _ () (Sf [] g (<[p := cells l (S k)]> b) V)), (bind_done _ _ _ _ _ (Hr _ _ _)) by done.
    by rewrite place_eq, vput_cells by apply vget_raw.
  - rewrite (bind_done _ _ _ () (Sf f g (<[p := cells l (S k)]> b) V)), (bind_done _ _ _ _ _ (Hr _ _ _)) by done.
    by rewrite place_eq, vput_cells by apply vget_raw.
Qed.

Lemma construct_all_eq p b V srcs vals l k : Forall2 (reads p b V) srcs vals →
  construct_all (Some p) (length l) srcs (St (<[p := cells l (length vals + k)]> b) V) =
    Done () (St (<[p := cells (l ++ vals) k]> b) V).
Proof.
  intros HF. revert l. induction HF as [|src a srcs vals Hr HF IH]; intros l; simpl; [by rewrite app_nil_r|].
  unfold catch, mbind at 1, M_bind at 1. rewrite (construct_at_eq _ _ _ _ _ _ _ _ a) by done.
  specialize (IH (l ++ [a])). rewrite length_app, <-(assoc_L (++)) in IH. simpl in IH.
  by rewrite Nat.add_1_r in IH.
Qed.

Lemma destroy_down_eq f g p b V l k :
  destroy_down (Some p) (length l) (Sf f g (<[p := cells l k]> b) V) =
    Done () (Sf f g (<[p := replicate (length l + k) None]> b) V).
Proof.
  revert k. induction l as [|a l IH] using rev_ind; intros k; [done|]. rewrite length_app, Nat.add_1_r. simpl.
  unfold mbind, M_bind. rewrite (destroy_at_eq _ _ _ _ _ _ _ a).
  - rewrite vput_last, IH. by rewrite Nat.add_succ_r.
  - apply vget_cells. by rewrite lookup_app_r, Nat.sub_diag.
Qed.

Lemma delete_array_eq f g p b V k : b !! p = None →
  delete_array (Some p) (Sf f g (<[p := replicate k None]> b) V) = Done () (Sf f g b V).
Proof.
  intros Hp. unfold delete_array. simpl. rewrite lookup_insert_eq. rewrite objects_raw.
  unfold set_lost, set_blocks. simpl. by rewrite delete_insert_id, app_nil_r.
Qed.

(** A construction in block [p] ends with contents [c], or with no block and no element. *)
Definition clean_end (p : nat) c g b V (r : result unit) : Prop :=
  (∃ f, r = Done () (Sf f g (<[p := c]> b) V)) ∨ (∃ f, r = Thrown ElementError (Sf f g b V)).

(** So it does, whatever throws. *)
Lemma construct_all_safe f g p b V srcs vals l k : Forall2 (reads p b V) srcs vals → b !! p = None →
  clean_end p (cells (l ++ vals) k) g b V
    (construct_all (Some p) (length l) srcs (Sf f g (<[p := cells l (length vals + k)]> b) V)).
Proof.
  intros HF Hp. revert l f. induction HF as [|src a srcs vals Hr HF IH]; intros l f; simpl.
  { left. rewrite app_nil_r. eauto. }
  pose proof (construct_at_eq f g p b V src l (length vals + k) a Hr) as Hc. specialize (IH (l ++ [a])).
  rewrite length_app, <-(assoc_L (++)), Nat.add_1_r in IH. simpl in IH. destruct f as [|[] f].
  2: { right. exists f. apply bind_thrown. unfold catch. rewrite Hc.
       erewrite bind_done by apply destroy_down_eq. by erewrite bind_done by (by apply delete_array_eq). }
  all: erewrite bind_done by (unfold catch; rewrite Hc; reflexivity); apply IH.
Qed.

Lemma get_eq x v b V : V !! x = Some v → get x (St b V) = Done v (St b V).
Proof. intros Hx. unfold get. simpl. by rewrite Hx. Qed.

Lemma put_eq x v b V : put x v (St b V) = Done () (St b (<[x := v]> V)).
Proof. done. Qed.

Lemma read_move_eq p q b V c d i a : p ≠ q → vget c i = Some (Some a) →
  read_move moved (Some p) i (St (<[q := d]> (<[p := c]> b)) V) =
    Done a (St (<[q := d]> (<[p := vput c i (Some (moved a))]> b)) V).
Proof.
  intros Hne Hc. unfold read_move, slot, set_slot. simpl. rewrite lookup_insert_ne, lookup_insert_eq by done. simpl.
  rewrite Hc. unfold set_blocks. simpl. by rewrite alter_insert_ne, alter_insert_eq by done.
Qed.

Lemma move_all_eq p q b V l gone rest k r : p ≠ q → length gone = length l →
  move_all moved (Some p) (Some q) (length l) (length rest)
      (St (<[q := cells l (length rest + k)]> (<[p := cells (gone ++ rest) r]> b)) V) =
    Done () (St (<[q := cells (l ++ rest) k]> (<[p := cells (gone ++ (moved <$> rest)) r]> b)) V).
Proof.
  intros Hne. revert l gone. induction rest as [|a rest IH]; intros l gone Hl; [by rewrite !app_nil_r|]. simpl.
  specialize (IH (l ++ [a]) (gone ++ [moved a])). rewrite !length_app, Hl, <-!(assoc_L (++)) in IH. simpl in IH.
  rewrite Nat.add_1_r in IH. erewrite bind_done; [apply (IH eq_refl)|].
  unfold construct_at. erewrite bind_done by done. erewrite bind_done.
  - rewrite place_eq by apply vget_raw. by rewrite vput_cells.
  - rewrite (read_move_eq _ _ _ _ _ _ _ a) by (done || (apply vget_cells; rewrite <-Hl; by apply list_lookup_middle)).
    by rewrite <-Hl, vput_moved.
Qed.

Lemma extend_eq p b V l n k a :
  extend (Some p) (length l) n (load (Ext a)) (St (<[p := cells l (n + k)]> b) V) =
    Done () (St (<[p := cells (l ++ replicate n a) k]> b) V).
Proof.
  revert l. induction n as [|n IH]; intros l; simpl; [by rewrite app_nil_r|].
  erewrite bind_done by (by apply (construct_at_eq [] [] _ _ _ _ _ _ a)).
  specialize (IH (l ++ [a])). rewrite length_app, <-(assoc_L (++)) in IH. simpl in IH. by rewrite Nat.add_1_r in IH.
Qed.

(** ** Vectors and their blocks *)

Section bounds.
Context (Ha : ∀ X, alloc X ∉ X) (K : Z) (Hsz : 0 < sizeof) (HK : 1 ≤ K) (Hfit : sizeof * (2 * K) < 2 ^ 64).

Definition vec_ok (v : Vec) l : Prop :=
  m_size v = vsize l ∧ vsize l ≤ m_capacity v ≤ 2 * K ∧ (m_data v = None → m_capacity v = 0).

Definition with_block (v : Vec) l b : gmap nat (list (option A)) :=
  match m_data v with
  | Some p => <[p := cells l (Z.to_nat (m_capacity v - m_size v))]> b
  | None => b
  end.

Definition fits (v : Vec) b : Prop := match m_data v with Some p => b !! p = None | None => True end.

Lemma empty_vec_ok : vec_ok empty_vec [].
Proof. split_and!; done || (unfold vsize; simpl; lia). Qed.

Lemma new_array_eq n b V : 0 ≤ n ≤ 2 * K → ∃ p, b !! p = None ∧
  new_array alloc sizeof n (St b V) = Done p (St (<[p := replicate (Z.to_nat n) None]> b) V).
Proof.
  intros Hn. exists (alloc (dom b)). split; [apply not_elem_of_dom, Ha|].
  unfold new_array. erewrite bind_done by done. unfold take_block. simpl. unfold set_blocks. simpl.
  rewrite u64_small by (unfold in_u64; nia). rewrite Z.mul_comm, Z.div_mul by lia. done.
Qed.

(** A constructor: its elements in a block of its own. *)
Lemma construct_eq n b V srcs l : vsize l ≤ n ≤ 2 * K →
  (∀ p, b !! p = None → Forall2 (reads p b V) srcs l) →
  ∃ p, b !! p = None ∧ vec_ok (mkVec (vsize l) n (Some p)) l ∧
    (p' ← new_array alloc sizeof n; construct_all (Some p') 0 srcs;; mret (mkVec (vsize l) n (Some p'))) (St b V) =
      Done (mkVec (vsize l) n (Some p)) (St (with_block (mkVec (vsize l) n (Some p)) l b) V).
Proof.
  intros Hn Hr. pose proof (vsize_nonneg l). destruct (new_array_eq n b V) as (p & Hp & Hnew); [lia|].
  exists p. split; [done|]. split; [done|]. erewrite bind_done by done. simpl.
  pose proof (construct_all_eq p b V srcs l [] (Z.to_nat (n - vsize l)) (Hr p Hp)) as Hc. simpl in Hc.
  rewrite cells_nil in Hc. replace (length l + Z.to_nat (n - vsize l))%nat with (Z.to_nat n) in Hc by (unfold vsize in *; lia).
  by erewrite bind_done by done.
Qed.

Lemma destruct_vec_eq v l b V : vec_ok v l → fits v b → destruct_vec v (St (with_block v l b) V) = Done () (St b V).
Proof.
  intros (Hs & Hc & Hd) Hf. unfold destruct_vec, with_block, fits in *. rewrite Hs.
  replace (Z.to_nat (vsize l)) with (length l) by (unfold vsize; lia). destruct (m_data v) as [p|].
  - erewrite bind_done by apply destroy_down_eq. by apply delete_array_eq.
  - specialize (Hd eq_refl). destruct l; [done|]. unfold vsize in *. simpl in *. lia.
Qed.

Lemma reallocate_eq x n v l b V : V !! x = Some v → vec_ok v l → fits v b → vsize l ≤ n ≤ 2 * K →
  ∃ p, b !! p = None ∧ vec_ok (mkVec (m_size v) n (Some p)) l ∧
    reallocate alloc sizeof moved x n (St (with_block v l b) V) =
      Done () (St (with_block (mkVec (m_size v) n (Some p)) l b) (<[x := mkVec (m_size v) n (Some p)]> V)).
Proof.
  intros Hx (Hs & Hc & Hd) Hf Hn. pose proof (vsize_nonneg l).
  destruct (new_array_eq n (with_block v l b) V) as (p & Hp & Hnew); [lia|].
  exists p. unfold reallocate. erewrite bind_done by (by apply get_eq). erewrite bind_done by apply Hnew.
  unfold with_block, fits in *. simpl. rewrite !Hs. replace (Z.to_nat (vsize l)) with (length l) by (unfold vsize; lia).
  destruct (m_data v) as [q|].
  - apply lookup_insert_None in Hp as [Hp Hqp]. split; [done|]. split; [done|].
    pose proof (move_all_eq q p b V [] [] l (Z.to_nat (n - vsize l)) (Z.to_nat (m_capacity v - vsize l)) Hqp eq_refl) as Hm.
    simpl in Hm. rewrite cells_nil in Hm.
    replace (length l + Z.to_nat (n - vsize l))%nat with (Z.to_nat n) in Hm by (unfold vsize in *; lia).
    erewrite bind_done by apply Hm. rewrite insert_insert_ne by done.
    rewrite <-(length_fmap moved l) at 1. erewrite bind_done by apply destroy_down_eq.
    erewrite bind_done by (apply delete_array_eq; by rewrite lookup_insert_ne). done.
  - specialize (Hd eq_refl). destruct l; [|unfold vsize in *; simpl in *; lia]. split; [done|]. split; [done|].
    simpl. erewrite bind_done by done. erewrite bind_done by done. unfold put. simpl. rewrite Z.sub_0_r. done.
Qed.

Lemma reserve_eq x n v l b V : V !! x = Some v → vec_ok v l → fits v b → n ≤ 2 * K →
  ∃ v', vec_ok v' l ∧ fits v' b ∧ n ≤ m_capacity v' ∧
    reserve alloc sizeof moved x n (St (with_block v l b) V) = Done () (St (with_block v' l b) (<[x := v']> V)).
Proof.
  intros Hx Hv Hf Hn. unfold reserve. erewrite bind_done by (by apply get_eq). case_bool.
  - exists v. split_and!; [done..|lia|]. by rewrite insert_id.
  - pose proof Hv as (? & ? & ?). destruct (reallocate_eq x n v l b V) as (p & Hp & Hok & ->); [done..|lia|].
    exists (mkVec (m_size v) n (Some p)). split_and!; done.
Qed.

Lemma grow_eq x v l b V : V !! x = Some v → vec_ok v l → fits v b → vsize l < K →
  ∃ v', vec_ok v' l ∧ fits v' b ∧ m_size v' < m_capacity v' ∧
    grow alloc sizeof moved x (St (with_block v l b) V) = Done () (St (with_block v' l b) (<[x := v']> V)).
Proof.
  intros Hx Hv Hf Hn. pose proof Hv as (Hs & Hc & Hd). pose proof (vsize_nonneg l).
  unfold grow. erewrite bind_done by (by apply get_eq). case_bool.
  - rewrite u64_small by (unfold in_u64; nia).
    destruct (reserve_eq x (Z.max (2 * m_capacity v) 1) v l b V) as (v' & Hv' & Hf' & Hc' & ->); [done..|lia|].
    exists v'. split_and!; [done..| |done]. destruct Hv'. lia.
  - exists v. split_and!; [done..|lia|]. by rewrite insert_id.
Qed.

Lemma append_eq x v l b V a : V !! x = Some v → vec_ok v l → fits v b → m_size v < m_capacity v →
  ∃ v', vec_ok v' (l ++ [a]) ∧ fits v' b ∧
    append x (load (Ext a)) (St (with_block v l b) V) = Done () (St (with_block v' (l ++ [a]) b) (<[x := v']> V)).
Proof.
  intros Hx (Hs & Hc & Hd) Hf Hlt. pose proof (vsize_nonneg l).
  exists (mkVec (m_size v + 1) (m_capacity v) (m_data v)). split; [|split; [done|]].
  - split_and!; simpl; rewrite ?vsize_snoc; lia || done.
  - unfold append. erewrite bind_done by (by apply get_eq). rewrite u64_small by (unfold in_u64; nia).
    unfold with_block, fits in *. simpl. destruct (m_data v) as [p|]; [|specialize (Hd eq_refl); lia].
    replace (Z.to_nat (m_capacity v - m_size v)) with (S (Z.to_nat (m_capacity v - (m_size v + 1)))) by lia.
    rewrite Hs. erewrite bind_done by (by apply (construct_at_eq [] [] _ _ _ _ _ _ a)). done.
Qed.

Lemma drop_last_eq x v l a b V : V !! x = Some v → vec_ok v (l ++ [a]) → fits v b →
  ∃ v', vec_ok v' l ∧ fits v' b ∧ m_capacity v' = m_capacity v ∧
    drop_last x (St (with_block v (l ++ [a]) b) V) = Done () (St (with_block v' l b) (<[x := v']> V)).
Proof.
  intros Hx (Hs & Hc & Hd) Hf. rewrite vsize_snoc in Hs, Hc. pose proof (vsize_nonneg l).
  exists (mkVec (m_size v - 1) (m_capacity v) (m_data v)). split; [|split; [done|split; [done|]]].
  - split_and!; simpl; lia || done.
  - unfold drop_last. erewrite bind_done by (by apply get_eq). rewrite u64_small by (unfold in_u64; nia).
    erewrite bind_done by apply put_eq. unfold with_block, fits in *. simpl.
    destruct (m_data v) as [p|]; [|specialize (Hd eq_refl); lia]. rewrite (destroy_at_eq [] [] _ _ _ _ _ a).
    + replace (m_size v - 1) with (Z.of_nat (length l)) by (unfold vsize in *; lia). rewrite vput_last.
      replace (Z.to_nat (m_capacity v - Z.of_nat (length l))) with (S (Z.to_nat (m_capacity v - m_size v))) by (unfold vsize in *; lia).
      done.
    + replace (m_size v - 1) with (Z.of_nat (length l)) by (unfold vsize in *; lia).
      apply vget_cells. by rewrite lookup_app_r, Nat.sub_diag.
Qed.

Lemma shorten_eq x k v l l2 b V : V !! x = Some v → vec_ok v (l ++ l2) → fits v b → length l2 = k →
  ∃ v', vec_ok v' l ∧ fits v' b ∧ m_capacity v' = m_capacity v ∧
    shorten x k (St (with_block v (l ++ l2) b) V) = Done () (St (with_block v' l b) (<[x := v']> V)).
Proof.
  revert v l2 V. induction k as [|k IH]; intros v l2 V Hx Hv Hf Hl.
  - destruct l2; [|done]. rewrite app_nil_r in *. exists v. split_and!; [done..|]. by rewrite insert_id.
  - destruct l2 as [|a l2 _] using rev_ind; [done|]. rewrite length_app in Hl. simpl in Hl. rewrite (assoc_L (++)) in *.
    destruct (drop_last_eq x v (l ++ l2) a b V) as (v1 & Hv1 & Hf1 & Hc1 & Hd); [done..|].
    destruct (IH v1 l2 (<[x := v1]> V)) as (v2 & Hv2 & Hf2 & Hc2 & Hr); [apply lookup_insert_eq|done..|lia|].
    exists v2. split_and!; [done..|congruence|]. simpl. erewrite bind_done by done. by rewrite Hr, insert_insert_eq.
Qed.

(** ** All the client's vectors *)

(** The heap holds a block for each vector that has one, and nothing else. *)
Inductive wf : gmap nat Vec → gmap nat (list A) → gmap nat (list (option A)) → Prop :=
  | wf_none : wf ∅ ∅ ∅
  | wf_put V m b x v l : wf V m b → V !! x = None → m !! x = None → vec_ok v l → fits v b →
      wf (<[x := v]> V) (<[x := l]> m) (with_block v l b).

Lemma wf_dom V m b x : wf V m b → V !! x = None ↔ m !! x = None.
Proof.
  induction 1 as [|V m b y v l _ IH _ _ _ _]; [done|]. destruct (decide (x = y)) as [->|].
  - by rewrite !lookup_insert_eq.
  - by rewrite !lookup_insert_ne.
Qed.

Lemma with_block_comm v l v' l' b : fits v b → fits v' (with_block v l b) →
  with_block v' l' (with_block v l b) = with_block v l (with_block v' l' b) ∧ fits v' b ∧ fits v (with_block v' l' b).
Proof.
  unfold with_block, fits. destruct (m_data v) as [p|], (m_data v') as [q|]; try done.
  intros Hp [Hq Hne]%lookup_insert_None. split_and!; [by rewrite insert_insert_ne|done|by rewrite lookup_insert_ne].
Qed.

Lemma wf_take V m b x l : wf V m b → m !! x = Some l →
  ∃ v b', V !! x = Some v ∧ vec_ok v l ∧ fits v b' ∧ b = with_block v l b' ∧ wf (delete x V) (delete x m) b'.
Proof.
  induction 1 as [|V m b y v' l' HW IH HV Hm Hv' Hf']; [done|]. intros Hx. destruct (decide (y = x)) as [->|Hne].
  - rewrite lookup_insert_eq in Hx. simplify_eq. exists v', b. rewrite lookup_insert_eq, !delete_insert_id by done. done.
  - rewrite lookup_insert_ne in Hx by done. destruct (IH Hx) as (v & b' & HV' & Hv & Hf & -> & HW').
    destruct (with_block_comm v l v' l' b') as (E & H1 & H2); [done..|].
    exists v, (with_block v' l' b'). rewrite lookup_insert_ne by done. split_and!; [done..|].
    rewrite !delete_insert_ne by done. apply wf_put; [done|by rewrite lookup_delete_ne..|done|done].
Qed.

Lemma wf_set V m b x v l : wf (delete x V) (delete x m) b → vec_ok v l → fits v b →
  wf (<[x := v]> V) (<[x := l]> m) (with_block v l b).
Proof.
  intros HW Hv Hf. rewrite <-(insert_delete_eq V), <-(insert_delete_eq m).
  apply wf_put; [done|apply lookup_delete_eq..|done|done].
Qed.

Definition does (c : M unit) V m b m' : Prop := ∃ V' b', c (St b V) = Done () (St b' V') ∧ wf V' m' b'.

(** A constructor makes a new variable. *)
Lemma make_does V m b x n l srcs :
  wf V m b → m !! x = None → vsize l ≤ n ≤ 2 * K → (∀ p, b !! p = None → Forall2 (reads p b V) srcs l) →
  does (v ← (p' ← new_array alloc sizeof n; construct_all (Some p') 0 srcs;; mret (mkVec (vsize l) n (Some p')));
        put x v) V m b (<[x := l]> m).
Proof.
  intros HW Hx Hn Hr. destruct (construct_eq n b V srcs l Hn Hr) as (p & Hp & Hv & Hc).
  eexists _, _. split; [by erewrite bind_done by done|].
  apply wf_put; [done|by eapply wf_dom|done..].
Qed.

Lemma reads_load p b V a : reads p b V (load (Ext a)) a.
Proof. by intros f g c. Qed.

Lemma reads_fill p b V n a : Forall2 (reads p b V) (replicate n (load (Ext a))) (replicate n a).
Proof. induction n; constructor; [apply reads_load|done]. Qed.

Lemma reads_list p b V l : Forall2 (reads p b V) (mret <$> l) l.
Proof. induction l; constructor; [by intros f g c|done]. Qed.

Lemma reads_copy V m b y l v p : wf V m b → m !! y = Some l → V !! y = Some v → b !! p = None →
  Forall2 (reads p b V) ((λ i, read (m_data v) (Z.of_nat i)) <$> seq 0 (length l)) l.
Proof.
  intros HW Hy Hv Hp. destruct (wf_take _ _ _ y l HW Hy) as (v' & b' & Hv' & (Hs & Hc & Hd) & Hf & -> & _).
  assert (v' = v) as -> by congruence. apply Forall2_same_length_lookup_2; [by rewrite length_fmap, length_seq|].
  intros i src a Hsrc Hi. rewrite list_lookup_fmap in Hsrc. pose proof (lookup_lt_Some _ _ _ Hi) as Hlt.
  rewrite lookup_seq_lt in Hsrc by done. simpl in Hsrc. injection Hsrc as <-. unfold with_block, fits in *.
  destruct (m_data v) as [q|].
  - apply lookup_insert_None in Hp as [_ Hne]. intros f g c. eapply read_eq; [by rewrite lookup_insert_ne, lookup_insert_eq|].
    by apply vget_cells.
  - specialize (Hd eq_refl). unfold vsize in *. lia.
Qed.

Lemma make_fill_does V m b x n a : wf V m b → m !! x = None → 0 ≤ n ≤ K →
  does (step alloc sizeof moved (MakeFill x n a)) V m b (<[x := replicate (Z.to_nat n) a]> m).
Proof.
  intros HW Hx Hn. simpl. unfold construct_fill.
  assert (Hl : vsize (replicate (Z.to_nat n) a) = n) by (unfold vsize; rewrite length_replicate; lia).
  pose proof (make_does V m b x n (replicate (Z.to_nat n) a) (replicate (Z.to_nat n) (load (Ext a))) HW Hx) as Hm.
  rewrite Hl in Hm. apply Hm; [lia|]. intros p Hp. apply reads_fill.
Qed.

Lemma make_list_does V m b x l : wf V m b → m !! x = None → vsize l ≤ K →
  does (step alloc sizeof moved (MakeList x l)) V m b (<[x := l]> m).
Proof. intros HW Hx Hn. apply make_does; [done..|lia|]. intros p Hp. apply reads_list. Qed.

Lemma wf_get V m b x l : wf V m b → m !! x = Some l → ∃ v, V !! x = Some v ∧ vec_ok v l.
Proof. intros HW Hx. destruct (wf_take _ _ _ _ _ HW Hx) as (v & _ & Hv & Hok & _). eauto. Qed.

(** The copy of a vector, made for whatever follows. *)
Lemma copy_of_eq V m b y l v : wf V m b → m !! y = Some l → V !! y = Some v →
  ∃ tmp, vec_ok tmp l ∧ fits tmp b ∧ copy_of alloc sizeof v (St b V) = Done tmp (St (with_block tmp l b) V).
Proof.
  intros HW Hy Hv. destruct (wf_get _ _ _ _ _ HW Hy) as (v' & Hv' & Hs & Hc & Hd).
  assert (v' = v) as -> by congruence.
  destruct (construct_eq (m_capacity v) b V ((λ i, read (m_data v) (Z.of_nat i)) <$> seq 0 (length l)) l) as (p & Hp & Hok & Heq);
    [done|intros p Hp; by eapply reads_copy|].
  eexists. split; [done|]. split; [done|]. unfold copy_of. rewrite Hs.
  replace (Z.to_nat (vsize l)) with (length l) by (unfold vsize; lia). done.
Qed.

Lemma make_copy_does V m b x y l : wf V m b → m !! x = None → m !! y = Some l →
  does (step alloc sizeof moved (MakeCopy x y)) V m b (<[x := l]> m).
Proof.
  intros HW Hx Hy. destruct (wf_get _ _ _ _ _ HW Hy) as (v & Hv & _). simpl.
  destruct (copy_of_eq _ _ _ _ _ _ HW Hy Hv) as (tmp & Hok & Hf & Hc). eexists _, _. split.
  - erewrite bind_done by (by apply get_eq). by erewrite bind_done by done.
  - apply wf_put; [done|by eapply wf_dom|done..].
Qed.

Lemma copy_assign_does V m b x y k l : wf V m b → m !! x = Some k → m !! y = Some l →
  does (copy_assign alloc sizeof x y) V m b (<[x := l]> m).
Proof.
  intros HW Hx Hy. unfold copy_assign. case_decide as Hxy; [subst; rewrite insert_id by done; by exists V, b|].
  destruct (wf_get _ _ _ _ _ HW Hy) as (v & Hv & _). destruct (copy_of_eq _ _ _ _ _ _ HW Hy Hv) as (tmp & Hok & Hf & Hc).
  destruct (wf_take _ _ _ _ _ HW Hx) as (this & b' & Hthis & Hok' & Hf' & -> & HW').
  destruct (with_block_comm this k tmp l b' Hf' Hf) as (E & H1 & H2).
  exists (<[x := tmp]> V), (with_block tmp l b'). split; [|by apply wf_set].
  erewrite bind_done by (by apply get_eq). erewrite bind_done by apply Hc.
  erewrite bind_done by (by apply get_eq). erewrite bind_done by apply put_eq. rewrite E. by apply destruct_vec_eq.
Qed.

Lemma move_construct_does V m b x y l : wf V m b → m !! x = None → m !! y = Some l →
  does (move_construct x y) V m b (<[x := l]> (<[y := []]> m)).
Proof.
  intros HW Hx Hy. destruct (wf_take _ _ _ _ _ HW Hy) as (v & b' & Hv & Hok & Hf & -> & HW').
  exists (<[x := v]> (<[y := empty_vec]> V)), (with_block v l b'). split.
  - unfold move_construct. erewrite bind_done by (by apply get_eq). by erewrite bind_done by done.
  - assert (x ≠ y) by congruence. apply (wf_dom _ _ _ x HW) in Hx as Hx'.
    apply wf_put; [|by rewrite lookup_insert_ne..|done|done].
    by apply (wf_set V m b' y empty_vec []); [|apply empty_vec_ok|].
Qed.

Lemma move_assign_does V m b x y k l : wf V m b → m !! x = Some k → m !! y = Some l →
  does (move_assign x y) V m b (<[x := l]> (if decide (x = y) then m else <[y := []]> m)).
Proof.
  intros HW Hx Hy. unfold move_assign. case_decide as Hxy; [subst; rewrite insert_id by done; by exists V, b|].
  destruct (wf_take _ _ _ _ _ HW Hx) as (this & b' & Hthis & Hok' & Hf' & -> & HW').
  destruct (wf_take (delete x V) (delete x m) b' y l) as (v & b'' & Hv & Hok & Hf & -> & HW''); [done|by rewrite lookup_delete_ne|].
  rewrite lookup_delete_ne in Hv by done. exists (<[x := v]> (<[y := empty_vec]> V)), (with_block v l b''). split.
  - erewrite bind_done by (by apply get_eq). erewrite bind_done by (by apply destruct_vec_eq).
    erewrite bind_done by (by apply get_eq). by erewrite bind_done by done.
  - apply wf_set; [|done..]. rewrite !delete_insert_ne by done.
    by apply (wf_set (delete x V) (delete x m) b'' y empty_vec []); [|apply empty_vec_ok|].
Qed.

Lemma swap_does V m b x y k l : wf V m b → m !! x = Some l → m !! y = Some k →
  does (swap x y) V m b (<[y := l]> (<[x := k]> m)).
Proof.
  intros HW Hx Hy. unfold swap. destruct (decide (x = y)) as [->|Hxy].
  { simplify_eq. rewrite !insert_id by (rewrite ?insert_id; done). destruct (wf_get _ _ _ _ _ HW Hx) as (v & Hv & _).
    exists V, b. split; [|done]. erewrite bind_done by (by apply get_eq). erewrite bind_done by (by apply get_eq).
    erewrite bind_done by apply put_eq. rewrite put_eq. by rewrite !insert_id by (rewrite ?insert_id; done). }
  destruct (wf_take _ _ _ _ _ HW Hx) as (v & b' & Hv & Hok & Hf & -> & HW').
  destruct (wf_take (delete x V) (delete x m) b' y k) as (w & b'' & Hw & Hok' & Hf' & -> & HW''); [done|by rewrite lookup_delete_ne|].
  rewrite lookup_delete_ne in Hw by done. destruct (with_block_comm w k v l b'' Hf' Hf) as (E & H1 & H2).
  exists (<[y := v]> (<[x := w]> V)), (with_block v l (with_block w k b'')). split.
  - erewrite bind_done by (by apply get_eq). erewrite bind_done by (by apply get_eq). by erewrite bind_done by done.
  - apply wf_set; [|done..]. rewrite !delete_insert_ne by done. apply wf_set; [|done..].
    by rewrite (delete_delete V), (delete_delete m).
Qed.

(** An operation that leaves [x] with the elements [l'] and everything else as it was. *)
Lemma update_does (c : M unit) V m b x l l' : wf V m b → m !! x = Some l →
  (∀ v b', V !! x = Some v → vec_ok v l → fits v b' →
     ∃ v', vec_ok v' l' ∧ fits v' b' ∧ c (St (with_block v l b') V) = Done () (St (with_block v' l' b') (<[x := v']> V))) →
  does c V m b (<[x := l']> m).
Proof.
  intros HW Hx Hc. destruct (wf_take _ _ _ _ _ HW Hx) as (v & b' & Hv & Hok & Hf & -> & HW').
  destruct (Hc v b' Hv Hok Hf) as (v' & Hok' & Hf' & He). eexists _, _. split; [done|]. by apply wf_set.
Qed.

Lemma push_does V m b x l a : wf V m b → m !! x = Some l → vsize l < K →
  does (grow alloc sizeof moved x;; append x (load (Ext a))) V m b (<[x := l ++ [a]]> m).
Proof.
  intros HW Hx Hl. apply (update_does _ _ _ _ _ l); [done..|]. intros v b' Hv Hok Hf.
  destruct (grow_eq x v l b' V) as (v1 & Hok1 & Hf1 & Hlt & Hg); [done..|].
  destruct (append_eq x v1 l b' (<[x := v1]> V) a) as (v2 & Hok2 & Hf2 & Hp); [apply lookup_insert_eq|done..|].
  exists v2. split_and!; [done..|]. erewrite bind_done by apply Hg. by rewrite Hp, insert_insert_eq.
Qed.

Lemma pop_back_does V m b x l : wf V m b → m !! x = Some l → does (pop_back x) V m b (<[x := take (length l - 1) l]> m).
Proof.
  intros HW Hx. apply (update_does _ _ _ _ _ l); [done..|]. intros v b' Hv Hok Hf. unfold pop_back.
  erewrite bind_done by (by apply get_eq). pose proof Hok as (Hs & _). destruct l as [|a l _] using rev_ind.
  - simpl. rewrite Hs. simpl. exists v. split_and!; [done..|]. by rewrite insert_id.
  - rewrite vsize_snoc in Hs. pose proof (vsize_nonneg l). case_bool; [lia|]. rewrite length_app, Nat.add_sub, take_app_length.
    destruct (drop_last_eq x v l a b' V) as (v' & ? & ? & _ & ?); [done..|]. by exists v'.
Qed.

Lemma reserve_does V m b x l n : wf V m b → m !! x = Some l → n ≤ 2 * K → does (reserve alloc sizeof moved x n) V m b m.
Proof.
  intros HW Hx Hn. rewrite <-(insert_id m x l Hx) at 2. apply (update_does _ _ _ _ _ l); [done..|]. intros v b' Hv Hok Hf.
  destruct (reserve_eq x n v l b' V) as (v' & ? & ? & _ & ?); [done..|]. by exists v'.
Qed.

Lemma shrink_does V m b x l : wf V m b → m !! x = Some l → does (shrink_to_fit alloc sizeof moved x) V m b m.
Proof.
  intros HW Hx. rewrite <-(insert_id m x l Hx) at 2. apply (update_does _ _ _ _ _ l); [done..|]. intros v b' Hv Hok Hf.
  unfold shrink_to_fit. erewrite bind_done by (by apply get_eq). pose proof Hok as (Hs & Hc & _).
  destruct (reallocate_eq x (m_size v) v l b' V) as (p & Hp & Hok' & He); [done..|lia|].
  by exists (mkVec (m_size v) (m_size v) (Some p)).
Qed.

Lemma clear_does V m b x l : wf V m b → m !! x = Some l → does (clear x) V m b (<[x := []]> m).
Proof.
  intros HW Hx. apply (update_does _ _ _ _ _ l); [done..|]. intros v b' Hv (Hs & Hc & Hd) Hf. pose proof (vsize_nonneg l).
  exists (mkVec 0 (m_capacity v) (m_data v)). split.
  { split_and!; simpl; unfold vsize; simpl; lia || done. }
  split; [done|]. unfold clear. erewrite bind_done by (by apply get_eq). rewrite Hs. unfold with_block, fits in *. simpl.
  replace (Z.to_nat (vsize l)) with (length l) by (unfold vsize; lia). destruct (m_data v) as [p|].
  - erewrite bind_done by apply destroy_down_eq. rewrite put_eq, cells_nil. do 3 f_equal.
    replace (Z.to_nat (m_capacity v - 0)) with (length l + Z.to_nat (m_capacity v - m_size v))%nat by (unfold vsize in *; lia). done.
  - specialize (Hd eq_refl). destruct l; [done|unfold vsize in *; simpl in *; lia].
Qed.

Lemma resize_does V m b x l n a : wf V m b → m !! x = Some l → 0 ≤ n ≤ K →
  does (resize alloc sizeof moved x n (Ext a)) V m b
    (<[x := take (Z.to_nat n) l ++ replicate (Z.to_nat n - length l) a]> m).
Proof.
  intros HW Hx Hn. apply (update_does _ _ _ _ _ l); [done..|]. intros v b' Hv Hok Hf.
  pose proof Hok as (Hs & Hc & Hd). unfold resize. erewrite bind_done by (by apply get_eq). rewrite Hs.
  unfold vsize in *. case_bool.
  - rewrite take_ge by lia. destruct (reserve_eq x n v l b' V) as (v1 & (Hs1 & Hc1 & Hd1) & Hf1 & Hn1 & Hr); [done..|lia|].
    exists (mkVec n (m_capacity v1) (m_data v1)). unfold vsize in *. split.
    { split_and!; simpl; unfold vsize; rewrite ?length_app, ?length_replicate; lia || done. }
    split; [done|]. unfold mbind at 1, M_bind at 1. erewrite bind_done by apply Hr.
    erewrite bind_done by (apply get_eq, lookup_insert_eq). rewrite Hs1. unfold with_block, fits in *. simpl.
    destruct (m_data v1) as [p|] eqn:Ep; [|specialize (Hd1 eq_refl); lia].
    replace (Z.to_nat (n - Z.of_nat (length l))) with (Z.to_nat n - length l)%nat by lia.
    replace (Z.to_nat (m_capacity v1 - m_size v1)) with ((Z.to_nat n - length l) + Z.to_nat (m_capacity v1 - n))%nat by lia.
    rewrite Nat2Z.id. pose proof (extend_eq p b' (<[x := v1]> V) l (Z.to_nat n - length l) (Z.to_nat (m_capacity v1 - n)) a) as He.
    simpl in He. rewrite He. erewrite bind_done by (apply get_eq, lookup_insert_eq).
    by rewrite put_eq, insert_insert_eq, Ep.
  - replace (Z.to_nat n - length l)%nat with O by lia. simpl. rewrite app_nil_r.
    rewrite <-(take_drop (Z.to_nat n) l) in Hok.
    destruct (shorten_eq x (length (list.drop (Z.to_nat n) l)) v (take (Z.to_nat n) l) (list.drop (Z.to_nat n) l) b' V) as (v1 & (Hs1 & Hc1 & Hd1) & Hf1 & Hk & Hr); [done..|].
    rewrite take_drop in Hr. exists (mkVec n (m_capacity v1) (m_data v1)). unfold vsize in *. rewrite length_take in *.
    split; [split_and!; simpl; unfold vsize; rewrite ?length_take; lia || done|]. split; [done|].
    unfold mbind at 1, M_bind at 1. replace (Z.to_nat (Z.of_nat (length l) - n)) with (length (list.drop (Z.to_nat n) l)) by (rewrite length_drop; lia).
    rewrite Hr. erewrite bind_done by (apply get_eq, lookup_insert_eq). rewrite put_eq, insert_insert_eq.
    unfold with_block. simpl. replace (m_size v1) with n by lia. done.
Qed.

Lemma destroy_does V m b x l : wf V m b → m !! x = Some l → does (destroy x) V m b (delete x m).
Proof.
  intros HW Hx. destruct (wf_take _ _ _ _ _ HW Hx) as (v & b' & Hv & Hok & Hf & -> & HW').
  exists (delete x V), b'. split; [|done]. unfold destroy. erewrite bind_done by (by apply get_eq).
  erewrite bind_done by done. by apply (destruct_vec_eq v l b' (delete x V)).
Qed.

Lemma step_does o V m b m' : wf V m b → spec K o m = Some m' → does (step alloc sizeof moved o) V m b m'.
Proof.
  intros HW Ho. destruct o; cbn [spec] in Ho;
    repeat (apply bind_Some in Ho as (? & ? & Ho)); injection Ho as <-.
  - eexists _, _. split; [done|]. by apply (wf_put V m b x empty_vec []); [..|apply empty_vec_ok|]; [|eapply wf_dom|..].
  - by apply make_fill_does.
  - by apply make_list_does.
  - by apply make_copy_does.
  - by apply move_construct_does.
  - by eapply copy_assign_does.
  - by eapply move_assign_does.
  - by apply push_does.
  - by apply push_does.
  - by apply pop_back_does.
  - by apply resize_does.
  - eapply reserve_does; [done..|lia].
  - by eapply shrink_does.
  - by eapply clear_does.
  - by apply swap_does.
  - by eapply destroy_does.
Qed.

Lemma run_does os V m b m' : wf V m b → spec_run K os m = Some m' → does (run alloc sizeof moved os) V m b m'.
Proof.
  revert V m b. induction os as [|o os IH]; simpl; intros V m b HW Hr; [simplify_eq; by exists V, b|].
  apply bind_Some in Hr as (m1 & Ho & Hr). destruct (step_does o V m b m1 HW Ho) as (V1 & b1 & Hs & HW1).
  destruct (IH V1 m1 b1 HW1 Hr) as (V2 & b2 & Hs2 & HW2). exists V2, b2. split; [|done]. by erewrite bind_done by done.
Qed.

(** ** What throws *)

(** A constructor that makes [l], or throws and changes nothing. *)
Definition all_or_nothing (c : M Vec) b V l : Prop :=
  ∀ f g, (∃ v f', vec_ok v l ∧ fits v b ∧ c (Sf f g b V) = Done v (Sf f' g (with_block v l b) V)) ∨
    (∃ e f', c (Sf f g b V) = Thrown e (Sf f' g b V)).

Lemma new_array_safe f g n b V : 0 ≤ n ≤ 2 * K →
  (∃ p f', b !! p = None ∧
    new_array alloc sizeof n (Sf f g b V) = Done p (Sf f' g (<[p := replicate (Z.to_nat n) None]> b) V)) ∨
  (∃ f', new_array alloc sizeof n (Sf f g b V) = Thrown BadAlloc (Sf f' g b V)).
Proof.
  intros Hn. assert (Ht : ∀ f', take_block alloc sizeof n (Sf f' g b V) =
    Done (alloc (dom b)) (Sf f' g (<[alloc (dom b) := replicate (Z.to_nat n) None]> b) V)).
  { intros f'. unfold take_block. simpl. rewrite u64_small by (unfold in_u64; nia).
    rewrite Z.mul_comm, Z.div_mul by lia. done. }
  assert (Hp : b !! alloc (dom b) = None) by apply not_elem_of_dom, Ha.
  destruct f as [|[] f]; [left; exists (alloc (dom b)), []|right; by exists f|left; exists (alloc (dom b)), f].
  all: split; [done|]; unfold new_array; rewrite <-Ht; reflexivity.
Qed.

Lemma construct_all_or_nothing n b V srcs l : vsize l ≤ n ≤ 2 * K →
  (∀ p, b !! p = None → Forall2 (reads p b V) srcs l) →
  all_or_nothing (p' ← new_array alloc sizeof n; construct_all (Some p') 0 srcs;; mret (mkVec (vsize l) n (Some p'))) b V l.
Proof.
  intros Hn Hr f g. pose proof (vsize_nonneg l).
  destruct (new_array_safe f g n b V) as [(p & f1 & Hp & Hnew)|[f1 Hnew]]; [lia| |right; eexists _, _; by apply bind_thrown].
  pose proof (construct_all_safe f1 g p b V srcs l [] (Z.to_nat (n - vsize l)) (Hr p Hp) Hp) as Hc. simpl in Hc.
  rewrite cells_nil in Hc. replace (length l + Z.to_nat (n - vsize l))%nat with (Z.to_nat n) in Hc by (unfold vsize in *; lia).
  destruct Hc as [[f2 Hc]|[f2 Hc]].
  - left. exists (mkVec (vsize l) n (Some p)), f2. split; [done|]. split; [done|].
    erewrite bind_done by done. by erewrite bind_done by done.
  - right. eexists _, f2. erewrite bind_done by done. by apply bind_thrown.
Qed.

(** The constructors that copy elements, and what they make. *)
Inductive copies (V : gmap nat Vec) (m : gmap nat (list A)) : M Vec → list A → Prop :=
  | copies_fill n a : 0 ≤ n ≤ 2 * K → copies V m (construct_fill alloc sizeof n (Ext a)) (replicate (Z.to_nat n) a)
  | copies_list l : vsize l ≤ 2 * K → copies V m (construct_list alloc sizeof l) l
  | copies_vec y v l : m !! y = Some l → V !! y = Some v → copies V m (copy_of alloc sizeof v) l.

Lemma copies_all_or_nothing V m b c l : wf V m b → copies V m c l → all_or_nothing c b V l.
Proof.
  intros HW [n a Hn|k Hk|y v k Hy Hv].
  - assert (Hl : vsize (replicate (Z.to_nat n) a) = n) by (unfold vsize; rewrite length_replicate; lia).
    pose proof (construct_all_or_nothing n b V (replicate (Z.to_nat n) (load (Ext a))) (replicate (Z.to_nat n) a)) as Hm.
    rewrite Hl in Hm. apply Hm; [lia|]. intros p Hp. apply reads_fill.
  - apply construct_all_or_nothing; [lia|]. intros p Hp. apply reads_list.
  - destruct (wf_get _ _ _ _ _ HW Hy) as (v' & Hv' & Hs & Hc & Hd). assert (v' = v) as -> by congruence.
    unfold copy_of. rewrite Hs. replace (Z.to_nat (vsize k)) with (length k) by (unfold vsize; lia).
    apply construct_all_or_nothing; [done|]. intros p Hp. by eapply reads_copy.
Qed.
End bounds.

(** What a client sees of a vector [x] that is [l]. *)
Definition looks_like s x l : Prop :=
  size x s = Done (vsize l) s ∧
  is_empty x s = Done (bool_decide (l = [])) s ∧
  (∃ c, capacity x s = Done c s ∧ vsize l ≤ c) ∧
  (∀ i, 0 ≤ i → at_ x i s = match vget l i with Some a => Done a s | None => Thrown OutOfRange s end) ∧
  front x s = match head l with Some a => Done a s | None => Thrown OutOfRange s end ∧
  back x s = match last l with Some a => Done a s | None => Thrown OutOfRange s end.

Lemma read_contents K f g v l b V i a : vec_ok K v l → l !! i = Some a →
  read (m_data v) (Z.of_nat i) (Sf f g (with_block v l b) V) = Done a (Sf f g (with_block v l b) V).
Proof.
  intros (Hs & Hc & Hd) Hi. pose proof (lookup_lt_Some _ _ _ Hi). unfold with_block, vsize in *.
  destruct (m_data v) as [p|]; [|specialize (Hd eq_refl); lia].
  eapply read_eq; [apply lookup_insert_eq|by apply vget_cells].
Qed.

Lemma wf_looks_like K V m b x l : 2 * K < 2 ^ 64 → wf K V m b → m !! x = Some l → looks_like (St b V) x l.
Proof.
  intros HK HW Hx. destruct (wf_take _ _ _ _ _ _ HW Hx) as (v & b' & Hv & Hok & Hf & -> & _).
  pose proof Hok as (Hs & Hc & Hd). pose proof (vsize_nonneg l) as Hl.
  unfold looks_like, size, is_empty, capacity, at_, front, back. split_and!.
  - erewrite bind_done by (by apply get_eq). by rewrite Hs.
  - erewrite bind_done by (by apply get_eq). rewrite Hs. by destruct l.
  - exists (m_capacity v). split; [by erewrite bind_done by (by apply get_eq)|lia].
  - intros i Hi. erewrite bind_done by (by apply get_eq). rewrite Hs. destruct (vget l i) as [a|] eqn:Ea.
    + pose proof (proj1 (vget_Some _ _ _) Ea) as [_ Ea']. apply vget_lt in Ea. rewrite (proj2 (Z.leb_gt _ _)) by lia.
      rewrite <-(Z2Nat.id i) at 1 by done. by eapply read_contents.
    + destruct (decide (i < vsize l)) as [Hlt|Hge]; [|by rewrite (proj2 (Z.leb_le _ _)) by lia].
      destruct (vget_is_Some l i) as [a Ea']; [lia|congruence].
  - erewrite bind_done by (by apply get_eq). rewrite Hs. destruct l as [|a l]; [done|].
    rewrite (proj2 (Z.eqb_neq _ _)) by (unfold vsize; simpl; lia). by apply (read_contents K [] [] v (a :: l) b' V 0 a).
  - erewrite bind_done by (by apply get_eq). rewrite Hs. destruct l as [|a l _] using rev_ind; [done|].
    rewrite last_snoc. rewrite vsize_snoc in *. pose proof (vsize_nonneg l).
    rewrite (proj2 (Z.eqb_neq _ _)), u64_small by (unfold in_u64; lia). replace (vsize l + 1 - 1) with (Z.of_nat (length l)) by (unfold vsize; lia).
    apply (read_contents K); [done|]. by rewrite lookup_app_r, Nat.sub_diag.
Qed.

(** C36: a [Vector] is a list. Whatever a program does with its vectors (in their scopes,
    with arguments that are not elements of them, none longer than [K], with storage of
    [2 * K] elements addressable), if no allocation
    and no element throws then nothing is undefined, no element is leaked or overwritten,
    and every vector shows exactly the list that the same program on lists computes: its
    size, its elements, and [out_of_range] at any other index. Moves leave the moved-from
    vector empty; and when no vector is left, no storage is. *)
Theorem vectors_are_lists K os m :
  (∀ X, alloc X ∉ X) → 0 < sizeof → 1 ≤ K → sizeof * (2 * K) < 2 ^ 64 → spec_run K os ∅ = Some m →
  ∃ s, run alloc sizeof moved os (St ∅ ∅) = Done () s ∧ lost s = [] ∧
    (∀ x, vars s !! x = None ↔ m !! x = None) ∧ (∀ x l, m !! x = Some l → looks_like s x l) ∧
    (m = ∅ → blocks s = ∅).
Proof.
  intros Ha Hsz HK Hfit Hr. destruct (run_does Ha K Hsz HK Hfit os ∅ ∅ ∅ m (wf_none K) Hr) as (V & b & Hs & HW).
  exists (St b V). split_and!; [done..| | |].
  - intros x. by eapply wf_dom.
  - intros x l Hx. eapply (wf_looks_like K); [nia|done..].
  - intros ->. inversion HW as [|V' m' b' x v l _ _ _ _ _ E1 E2]; [done|]. by apply insert_non_empty in E2.
Qed.

(** C35: a constructor makes its vector or leaves no trace. After any such program, and
    whatever then throws, an allocation or the copy of any element: filling, listing or
    copying a vector either returns one with the elements asked for, all other vectors
    as they were, or throws, and the heap is exactly what it was: the elements made so far
    are destroyed and their storage is freed. *)
Theorem constructors_all_or_nothing K os m faults :
  (∀ X, alloc X ∉ X) → 0 < sizeof → 1 ≤ K → sizeof * (2 * K) < 2 ^ 64 → spec_run K os ∅ = Some m →
  ∃ s, run alloc sizeof moved os (St ∅ ∅) = Done () s ∧
    ∀ c l, copies K (vars s) m c l →
      (∃ v s', c (set_faults faults s) = Done v s' ∧ m_size v = vsize l ∧ vars s' = vars s ∧ lost s' = lost s ∧
         (∀ i a, l !! i = Some a → read (m_data v) (Z.of_nat i) s' = Done a s') ∧
         (∀ x v0 l0, vars s !! x = Some v0 → m !! x = Some l0 → ∀ i a, l0 !! i = Some a →
            read (m_data v0) (Z.of_nat i) s' = Done a s')) ∨
      (∃ e f, c (set_faults faults s) = Thrown e (set_faults f s)).
Proof.
  intros Ha Hsz HK Hfit Hr. destruct (run_does Ha K Hsz HK Hfit os ∅ ∅ ∅ m (wf_none K) Hr) as (V & b & Hs & HW).
  exists (St b V). split; [done|]. intros c l Hc.
  destruct (copies_all_or_nothing Ha K Hsz Hfit V m b c l HW Hc faults []) as [(v & f & Hok & Hf & He)|(e & f & He)];
    [left; exists v, (Sf f [] (with_block v l b) V)|right; by exists e, f].
  split_and!; [done|apply Hok|done..| |].
  - intros i a Hi. by apply (read_contents K).
  - intros x v0 l0 Hx Hm i a Hi. destruct (wf_take _ _ _ _ _ _ HW Hm) as (v1 & b' & Hv1 & Hok1 & Hf1 & -> & _).
    assert (v1 = v0) as -> by (simpl in Hx; congruence).
    destruct (with_block_comm v0 l0 v l b' Hf1 Hf) as (-> & _). by apply (read_contents K).
Qed.

(** The size in bytes is computed in a [size_t] and not checked: a size for which it wraps
    to nothing gets a block of no slots, and the first element is built outside it. *)
Theorem fill_overflows n a b V : 0 < sizeof → sizeof * n = 2 ^ 64 →
  construct_fill alloc sizeof n (Ext a) (St b V) = Undefined.
Proof.
  intros Hsz Hn. unfold construct_fill, new_array. erewrite bind_done by (erewrite bind_done by done; done).
  rewrite Hn. change (u64 (2 ^ 64)) with 0. rewrite Z.div_0_l by lia.
  destruct (Z.to_nat n) as [|k] eqn:En; [nia|]. simpl. unfold mbind, M_bind, catch. simpl.
  unfold construct_at, mbind, M_bind. simpl. unfold place, slot. simpl. by rewrite lookup_insert_eq.
Qed.
End props.

(** Statements of the file's [main], and some more. *)
Definition client : list (Op (A := Z)) :=
  [MakeEmpty 1; Resize 1 5 0; Reserve 1 10; ShrinkToFit 1; PushBack 1 7; MakeCopy 2 1; PopBack 2; EmplaceBack 2 8;
   MakeMove 3 1; Swap 2 3; CopyAssign 1 3; Resize 3 2 0; MoveAssign 2 1; MakeList 4 [1; 2; 3]; Clear 4; MakeFill 5 2 9; Destroy 5].

Definition client_lists : gmap nat (list Z) := {[1%nat := []; 2%nat := [0; 0; 0; 0; 0; 8]; 3%nat := [0; 0]; 4%nat := []]}.

Lemma vectors_are_lists_witness :
  ∃ s, run (fresh (A := nat) (C := gset nat)) 4 (λ _, -1) client (Sf [] [] ∅ ∅) = Done () s ∧
    at_ 2 5 s = Done 8 s ∧ at_ 3 2 s = Thrown OutOfRange s.
Proof.
  destruct (vectors_are_lists (fresh (A := nat) (C := gset nat)) 4 (λ _, -1) 20 client client_lists) as (s & Hr & _ & _ & Hl & _).
  - intros X. apply is_fresh.
  - lia.
  - lia.
  - lia.
  - vm_compute. reflexivity.
  - exists s. split; [exact Hr|]. split.
    + destruct (Hl 2%nat [0; 0; 0; 0; 0; 8]) as (_ & _ & _ & Hat & _); [vm_compute; reflexivity|]. apply (Hat 5). lia.
    + destruct (Hl 3%nat [0; 0]) as (_ & _ & _ & Hat & _); [vm_compute; reflexivity|]. apply (Hat 2). lia.
Defined.

Lemma constructors_all_or_nothing_witness :
  ∃ s, run (fresh (A := nat) (C := gset nat)) 4 (λ _, -1) client (Sf [] [] ∅ ∅) = Done () s ∧
    construct_list (fresh (A := nat) (C := gset nat)) 4 [1; 2; 3] (set_faults [false; false; false; true] s) =
      Thrown ElementError (set_faults [] s).
Proof.
  destruct (constructors_all_or_nothing (fresh (A := nat) (C := gset nat)) 4 (λ _, -1) 20 client client_lists
    [false; false; false; true]) as (s & Hr & H).
  - intros X. apply is_fresh.
  - lia.
  - lia.
  - lia.
  - vm_compute. reflexivity.
  - exists s. split; [exact Hr|]. vm_compute in Hr. injection Hr as <-.
    destruct (H _ _ (copies_list _ _ 20 _ client_lists [1; 2; 3] ltac:(vm_compute; discriminate))) as [(v & s' & Hc & _)|(e & f & Hc)].
    + vm_compute in Hc. discriminate Hc.
    + vm_compute. reflexivity.
Defined.

(** Pushing an element of the vector itself: when the vector is full, its storage is freed
    before the element is read; with room to spare the element is copied. *)
Example push_own_element :
  let full := construct_list (fresh (A := nat) (C := gset nat)) 4 [1; 2] ≫= put 1 in
  let push := get 1 ≫= λ v, push_back (fresh (A := nat) (C := gset nat)) 4 (λ _, -1) 1 (Elem (m_data v) 0) in
  (full;; push) (Sf [] [] ∅ ∅) = Undefined ∧
  ∃ s, (full;; reserve (fresh (A := nat) (C := gset nat)) 4 (λ _, -1) 1 3;; push) (Sf [] [] ∅ ∅) = Done () s ∧ at_ 1 2 s = Done 1 s.
Proof. split; [vm_compute; reflexivity|]. eexists. split; vm_compute; reflexivity. Qed.

(** [reserve] has no [try]: if an element throws while it moves, the new block stays
    allocated and nothing points at it. *)
Example reserve_leaks :
  ∃ s, (construct_list (fresh (A := nat) (C := gset nat)) 4 [1; 2] ≫= put 1) (Sf [] [] ∅ ∅) = Done () s ∧
    ∃ s', reserve (fresh (A := nat) (C := gset nat)) 4 (λ _, -1) 1 3 (set_faults [false; false; true] s) = Thrown ElementError s' ∧
      vars s' = vars s ∧ base.size (blocks s) = 1%nat ∧ base.size (blocks s') = 2%nat.
Proof. eexists. split; [vm_compute; reflexivity|]. eexists. split; [vm_compute; reflexivity|]. repeat split. Qed.
End VectorProps.
