(* ===== verification/ThreadPool.v ===== *)
(** * The priority thread pool (Module ThreadPool), and that it finishes (Module
    ThreadPoolProps) *)

From S2P Require Import Prelude.

(** * The priority thread pool ([ThreadPool/ThreadPool.hpp], [ThreadPool.cpp])

    The queue by priority, the workers, callers of [submit], [wait] and [wait_for], and
    the thread that stops the pool. What a thread does while it holds [mtx] is one step; so
    are a notification, the run of a task, and a join. A thread that waits on a condition
    variable is asleep, and is woken by a notification, or for no reason. Which of the
    first tasks [top] gives, and whom [notify_one] wakes, are inputs of the step. A task is
    what [submit] pushes: futures, arguments and exceptions of the callable (a
    [packaged_task] keeps them) and thread creation are not modelled. *)

Module ThreadPool.

Inductive Priority := Low | Medium | High.

Definition rank (p : Priority) : Z := match p with Low => 0 | Medium => 1 | High => 2 end.

Section pool.
Context {T : Type} `{EqDecision T}.

Definition Task : Type := Priority * T.

Definition comparator (a b : Task) : bool := rank a.1 <? rank b.1.

(** Element [i] may be the [top] of the priority queue: none is after it. *)
Definition is_top (tasks : list Task) (i : nat) : bool :=
  match tasks !! i with
  | Some a => forallb (λ b, negb (comparator a b)) tasks
  | None => false
  end.

(** A worker: about to lock and look for a task, asleep on [cv], running a task, about to
    lock to report, or returned from [workerLoop]. *)
Inductive Worker := AtLock | Asleep | Running (task : T) | Reporting | Exited.

(** A call of [wait], or of [wait_for] if [timed]: about to lock and look, asleep on
    [allTasksDoneCv], or returned. *)
Inductive Waiter := Looking (timed : bool) | WaitAsleep (timed : bool) | Returned (answer : bool).

(** The thread that calls [stop]. *)
Inductive Stopper := Idle | Notifying | Joining (id : nat) | Stopped.

(** [notifies] counts the calls of [submit] between their push and their notification,
    and [cancelled] holds the tasks whose flag a client set. [accepted], [executed] and
    [skipped] are no variables of the program's: the tasks pushed, those whose callable ran,
    and those that found their flag set. *)
Record t := mk {
  tasks : list Task;
  activeTasks : Z;
  stopRequested : bool;
  workers : list Worker;
  waiters : list Waiter;
  stopper : Stopper;
  notifies : nat;
  cancelled : list T;
  accepted : list T;
  executed : list T;
  skipped : list T;
}.

Definition make (n : nat) : t := mk [] 0 false (replicate n AtLock) [] Idle 0 [] [] [] [].

Definition with_worker (w : nat) (k : Worker) (s : t) : t :=
  mk (tasks s) (activeTasks s) (stopRequested s) (<[w := k]> (workers s)) (waiters s) (stopper s) (notifies s)
    (cancelled s) (accepted s) (executed s) (skipped s).

Definition with_waiters (l : list Waiter) (s : t) : t :=
  mk (tasks s) (activeTasks s) (stopRequested s) (workers s) l (stopper s) (notifies s)
    (cancelled s) (accepted s) (executed s) (skipped s).

Definition with_queue (q : list Task) (active : Z) (s : t) : t :=
  mk q active (stopRequested s) (workers s) (waiters s) (stopper s) (notifies s)
    (cancelled s) (accepted s) (executed s) (skipped s).

Definition with_notifies (n : nat) (s : t) : t :=
  mk (tasks s) (activeTasks s) (stopRequested s) (workers s) (waiters s) (stopper s) n
    (cancelled s) (accepted s) (executed s) (skipped s).

Definition with_stop (b : bool) (ws : list Worker) (p : Stopper) (s : t) : t :=
  mk (tasks s) (activeTasks s) b ws (waiters s) p (notifies s)
    (cancelled s) (accepted s) (executed s) (skipped s).

(** [submit], up to its notification; [None]: it throws. *)
Definition submit (p : Priority) (task : T) (s : t) : option t :=
  if stopRequested s then None else
  Some (mk (tasks s ++ [(p, task)]) (activeTasks s) (stopRequested s) (workers s) (waiters s) (stopper s)
    (S (notifies s)) (cancelled s) (accepted s ++ [task]) (executed s) (skipped s)).

Definition wake (k : Worker) : Worker := match k with Asleep => AtLock | _ => k end.
Definition wake_waiter (k : Waiter) : Waiter := match k with WaitAsleep timed => Looking timed | _ => k end.

Definition is_asleep (k : Worker) : bool := match k with Asleep => true | _ => false end.

(** [cv.notify_one()], which wakes [w] if anybody sleeps. *)
Definition notify_one (w : nat) (s : t) : option t :=
  match notifies s with
  | O => None
  | S n =>
      let s := with_notifies n s in
      match workers s !! w with
      | Some Asleep => Some (with_worker w AtLock s)
      | _ => if existsb is_asleep (workers s) then None else Some s
      end
  end.

(** The flag of a task's [cancelled] is set by whoever holds it. *)
Definition cancel (task : T) (s : t) : t :=
  mk (tasks s) (activeTasks s) (stopRequested s) (workers s) (waiters s) (stopper s) (notifies s)
    (task :: cancelled s) (accepted s) (executed s) (skipped s).

(** The first critical section of [workerLoop], with the wait in it; [i] is the [top]. *)
Definition look (w i : nat) (s : t) : option t :=
  match workers s !! w with
  | Some AtLock =>
      if stopRequested s || negb (bool_decide (tasks s = [])) then
        if stopRequested s && bool_decide (tasks s = []) then Some (with_worker w Exited s)
        else
          guard (is_top (tasks s) i);;
          task ← tasks s !! i;
          Some (with_worker w (Running task.2) (with_queue (delete i (tasks s)) (activeTasks s + 1) s))
      else Some (with_worker w Asleep s)
  | _ => None
  end.

(** [task()]: the lambda that [submit] pushed. *)
Definition run_task (w : nat) (s : t) : option t :=
  match workers s !! w with
  | Some (Running task) =>
      let s := with_worker w Reporting s in
      Some (if decide (task ∈ cancelled s)
            then mk (tasks s) (activeTasks s) (stopRequested s) (workers s) (waiters s) (stopper s) (notifies s)
                   (cancelled s) (accepted s) (executed s) (skipped s ++ [task])
            else mk (tasks s) (activeTasks s) (stopRequested s) (workers s) (waiters s) (stopper s) (notifies s)
                   (cancelled s) (accepted s) (executed s ++ [task]) (skipped s))
  | _ => None
  end.

(** The second critical section of [workerLoop]. *)
Definition report (w : nat) (s : t) : option t :=
  match workers s !! w with
  | Some Reporting =>
      let s := with_worker w AtLock (with_queue (tasks s) (activeTasks s - 1) s) in
      Some (if (activeTasks s =? 0) && bool_decide (tasks s = []) then with_waiters (wake_waiter <$> waiters s) s
            else s)
  | _ => None
  end.

(** The predicate of [wait] and [wait_for]. *)
Definition all_done (s : t) : bool := bool_decide (tasks s = []) && (activeTasks s =? 0).

(** A waiter locks and looks. *)
Definition wait_look (k : nat) (s : t) : option t :=
  match waiters s !! k with
  | Some (Looking timed) =>
      Some (with_waiters (<[k := if all_done s then Returned true else WaitAsleep timed]> (waiters s)) s)
  | _ => None
  end.

(** [wait_for] reaches its timeout, and answers the predicate. *)
Definition wait_timeout (k : nat) (s : t) : option t :=
  match waiters s !! k with
  | Some (WaitAsleep true) => Some (with_waiters (<[k := Returned (all_done s)]> (waiters s)) s)
  | _ => None
  end.

(** [stop]: the critical section, the notification, and the join of a worker. *)
Definition stop_request (s : t) : option t :=
  match stopper s with Idle | Stopped => Some (with_stop true (workers s) Notifying s) | _ => None end.

Definition stop_notify (s : t) : option t :=
  match stopper s with Notifying => Some (with_stop (stopRequested s) (wake <$> workers s) (Joining 0) s) | _ => None end.

Definition stop_join (s : t) : option t :=
  match stopper s with
  | Joining id =>
      match workers s !! id with
      | Some Exited => Some (with_stop (stopRequested s) (workers s) (Joining (S id)) s)
      | Some _ => None
      | None => Some (with_stop (stopRequested s) [] Stopped s)
      end
  | _ => None
  end.

(** Calls begin: a new waiter. *)
Definition wait (timed : bool) (s : t) : t := with_waiters (waiters s ++ [Looking timed]) s.

(** Sleepers that wake for no reason. *)
Definition spurious (w : nat) (s : t) : option t :=
  match workers s !! w with Some Asleep => Some (with_worker w AtLock s) | _ => None end.

Definition spurious_wait (k : nat) (s : t) : option t :=
  match waiters s !! k with
  | Some (WaitAsleep timed) => Some (with_waiters (<[k := Looking timed]> (waiters s)) s)
  | _ => None
  end.

(** What may happen next. *)
Inductive Action :=
  | Submit (p : Priority) (task : T)
  | NotifyOne (w : nat)
  | Cancel (task : T)
  | Look (w i : nat)
  | RunTask (w : nat)
  | Report (w : nat)
  | Wait (timed : bool)
  | WaitLook (k : nat)
  | WaitTimeout (k : nat)
  | Spurious (w : nat)
  | SpuriousWait (k : nat)
  | StopRequest
  | StopNotify
  | StopJoin.

(** [None]: not now. A [submit] that throws changes nothing. *)
Definition step (a : Action) (s : t) : option t :=
  match a with
  | Submit p task => Some (default s (submit p task s))
  | NotifyOne w => notify_one w s
  | Cancel task => Some (cancel task s)
  | Look w i => look w i s
  | RunTask w => run_task w s
  | Report w => report w s
  | Wait timed => Some (wait timed s)
  | WaitLook k => wait_look k s
  | WaitTimeout k => wait_timeout k s
  | Spurious w => spurious w s
  | SpuriousWait k => spurious_wait k s
  | StopRequest => stop_request s
  | StopNotify => stop_notify s
  | StopJoin => stop_join s
  end.

Fixpoint run (l : list Action) (s : t) : option t :=
  match l with [] => Some s | a :: l => step a s ≫= run l end.

(** What the pool's threads, and the calls that have begun, do by themselves. *)
Definition internal (a : Action) : bool :=
  match a with
  | NotifyOne _ | Look _ _ | RunTask _ | Report _ | WaitLook _ | StopNotify | StopJoin => true
  | _ => false
  end.

(** The tasks that are being run. *)
Definition task_of (k : Worker) : list T := match k with Running task => [task] | _ => [] end.

(** Nothing is left to do: no task, no caller of [wait] or [stop]. *)
Definition finished (s : t) : Prop :=
  tasks s = [] ∧ activeTasks s = 0 ∧ notifies s = O ∧
  (∀ k x, waiters s !! k = Some x → ∃ b, x = Returned b) ∧ (stopper s = Idle ∨ stopper s = Stopped).
End pool.
End ThreadPool.

(** * What the priority pool guarantees

    The invariant of the pool's states, a measure of the work left that every step of the
    pool's own decreases, and that while there is work left a step is possible. *)

Module ThreadPoolProps.
Import ThreadPool.

(** ** Lists of threads *)

Lemma sum_insert {A} (f : A → nat) l i x y : l !! i = Some y →
  (sum_list_with f (<[i := x]> l) + f y = sum_list_with f l + f x)%nat.
Proof.
  revert i. induction l as [|z l IH]; intros [|i] Hi; simplify_eq/=; [lia|]. specialize (IH i Hi). lia.
Qed.

Lemma bind_insert {A B} (f : A → list B) l i x y : l !! i = Some y →
  (<[i := x]> l ≫= f) ++ f y ≡ₚ (l ≫= f) ++ f x.
Proof.
  revert i. induction l as [|z l IH]; intros [|i] Hi; simplify_eq/=; [solve_Permutation|].
  rewrite <-!(assoc_L (++)), (IH i Hi). done.
Qed.

Lemma sum_fmap_le {A} (f : A → nat) (g : A → A) l : (∀ x, f (g x) ≤ S (f x))%nat →
  (sum_list_with f (g <$> l) ≤ sum_list_with f l + length l)%nat.
Proof. intros Hg. induction l as [|x l IH]; [done|]. rewrite fmap_cons. simpl. specialize (Hg x). lia. Qed.

(** A queue that is not empty has a top. *)
Lemma has_top {T} (q : list (Task (T := T))) : q ≠ [] → ∃ i, is_top q i = true.
Proof.
  intros Hq. assert (∃ i a, q !! i = Some a ∧ ∀ b, b ∈ q → rank b.1 ≤ rank a.1) as (i & a & Hi & Ha).
  { induction q as [|x q IH]; [done|]. destruct (decide (q = [])) as [->|Hne].
    - exists 0%nat, x. split; [done|]. intros b ->%list_elem_of_singleton. lia.
    - destruct (IH Hne) as (i & a & Hi & Ha). destruct (decide (rank a.1 ≤ rank x.1)).
      + exists 0%nat, x. split; [done|]. intros b [->|Hb]%elem_of_cons; [lia|]. specialize (Ha b Hb). lia.
      + exists (S i), a. split; [done|]. intros b [->|Hb]%elem_of_cons; [lia|auto]. }
  exists i. unfold is_top, Task in *. rewrite Hi. apply forallb_forall. intros b Hb%list_elem_of_In.
  specialize (Ha b Hb). unfold comparator. apply negb_true_iff. lia.
Qed.

Section props.
Context {T : Type} `{EqDecision T}.
Implicit Types (s : t (T := T)).

Definition busy (k : Worker (T := T)) : nat := match k with Running _ | Reporting => 1 | _ => 0 end.

(** ** The invariant *)

Record inv (s : t) : Prop := {
  i_active : activeTasks s = Z.of_nat (sum_list_with busy (workers s));
  i_count : accepted s ≡ₚ (tasks s).*2 ++ (workers s ≫= task_of) ++ executed s ++ skipped s;
  i_skipped : ∀ x, x ∈ skipped s → x ∈ cancelled s;
  i_stop : stopRequested s = true ↔ stopper s ≠ Idle;
  i_exit : Exited ∈ workers s ∨ workers s = [] → stopRequested s = true ∧ tasks s = [];
  i_awake : tasks s ≠ [] → notifies s ≠ O ∨ ∃ k, k ∈ workers s ∧ k ≠ Asleep;
  i_stop_awake : stopRequested s = true → stopper s = Notifying ∨ Asleep ∉ workers s;
  i_joined : ∀ id, stopper s = Joining id → ∀ j k, (j < id)%nat → workers s !! j = Some k → k = Exited;
  i_waiters : ∀ b, WaitAsleep b ∈ waiters s → tasks s ≠ [] ∨ activeTasks s ≠ 0;
}.

Lemma make_inv n : (0 < n)%nat → inv (make n).
Proof.
  intros Hn. split; simpl; try done.
  - induction n as [|n IH]; [lia|]. destruct n; [done|]. simpl in *. apply IH. lia.
  - replace (replicate n AtLock ≫= task_of) with ([] : list T); [done|]. clear Hn. by induction n.
  - intros [Hx|Hx]; [by apply elem_of_replicate in Hx as [? _]|]. destruct n; [lia|done].
  - by intros b Hb%elem_of_nil.
Qed.

Lemma worker_elem (ws : list (Worker (T := T))) (w : nat) k' x : x ∈ <[w := k']> ws → x = k' ∨ x ∈ ws.
Proof.
  intros Hx. apply list_elem_of_lookup in Hx as [i Hi]. apply list_lookup_insert_Some in Hi as [(_ & ? & _)|[_ Hi]];
    [by left|right; by eapply list_elem_of_lookup_2].
Qed.

Lemma worker_in (ws : list (Worker (T := T))) (w : nat) k k' : ws !! w = Some k → k' ∈ <[w := k']> ws.
Proof. intros Hw%lookup_lt_Some. eapply list_elem_of_lookup_2. by apply list_lookup_insert_eq. Qed.

Lemma busy_insert (ws : list (Worker (T := T))) w k k' : ws !! w = Some k →
  Z.of_nat (sum_list_with busy (<[w := k']> ws)) = Z.of_nat (sum_list_with busy ws) + Z.of_nat (busy k') - Z.of_nat (busy k).
Proof. intros Hw. pose proof (sum_insert busy ws w k' k Hw). lia. Qed.

(** What a move of worker [w] from [k] to [k'] keeps of the clauses about joins and exits. *)
Lemma moved_joined s w k k' : inv s → workers s !! w = Some k → k ≠ Exited →
  ∀ id, stopper s = Joining id → ∀ j x, (j < id)%nat → <[w := k']> (workers s) !! j = Some x → x = Exited.
Proof.
  intros HI Hw Hk id Hs j x Hj [(<- & _ & _)|[_ Hx]]%list_lookup_insert_Some.
  - by rewrite (i_joined s HI id Hs w k Hj Hw) in Hk.
  - by apply (i_joined s HI id Hs j).
Qed.

Lemma moved_exit s w k k' : inv s → workers s !! w = Some k → k' ≠ Exited →
  Exited ∈ <[w := k']> (workers s) ∨ <[w := k']> (workers s) = [] → stopRequested s = true ∧ tasks s = [].
Proof.
  intros HI Hw Hk [Hx|Hx].
  - apply worker_elem in Hx as [?|Hx]; [congruence|]. apply (i_exit s HI). by left.
  - apply (f_equal length) in Hx. rewrite length_insert in Hx. apply lookup_lt_Some in Hw. simpl in Hx. lia.
Qed.

Lemma moved_awake s w k' : inv s → stopRequested s = true → k' ≠ Asleep →
  stopper s = Notifying ∨ Asleep ∉ <[w := k']> (workers s).
Proof.
  intros HI Hs Hk. destruct (i_stop_awake s HI Hs) as [?|Ha]; [by left|right].
  intros [?|?]%worker_elem; [congruence|done].
Qed.

(** A worker falls asleep or wakes. *)
Lemma inv_nap s w k k' n : inv s → workers s !! w = Some k → k = AtLock ∨ k = Asleep → k' = AtLock ∨ k' = Asleep →
  (k' = Asleep → tasks s = [] ∧ stopRequested s = false) → inv (with_worker w k' (with_notifies n s)).
Proof.
  intros HI Hw Hk Hk' Ha. assert (busy k = O ∧ busy k' = O ∧ task_of k = [] ∧ task_of k' = []) as (Hb & Hb' & Ht & Ht').
  { destruct Hk as [->| ->], Hk' as [->| ->]; done. }
  pose proof HI as [Hac Hco Hsk Hst Hex Haw Hsa Hjo Hwa]. split; simpl; auto.
  - rewrite (busy_insert _ _ k), Hb, Hb' by done. lia.
  - pose proof (bind_insert task_of _ w k' k Hw) as Hp. rewrite Ht, Ht', !app_nil_r in Hp. by rewrite Hp.
  - apply (moved_exit s w k k'); [done..|]. destruct Hk' as [->| ->]; done.
  - intros Hq. right. exists k'. split; [by eapply worker_in|]. intros ->. by destruct Ha.
  - intros Hs. apply moved_awake; [done..|]. intros ->. destruct Ha; congruence.
  - apply (moved_joined s w k k'); [done..|]. destruct Hk as [->| ->]; done.
Qed.

Lemma inv_nap_only s w k k' : inv s → workers s !! w = Some k → k = AtLock ∨ k = Asleep → k' = AtLock ∨ k' = Asleep →
  (k' = Asleep → tasks s = [] ∧ stopRequested s = false) → inv (with_worker w k' s).
Proof.
  intros HI Hw Hk Hk' Ha. pose proof (inv_nap s w k k' (notifies s) HI Hw Hk Hk' Ha) as HI'. by destruct s.
Qed.

(** A worker leaves. *)
Lemma inv_exit s w : inv s → workers s !! w = Some AtLock → stopRequested s = true → tasks s = [] →
  inv (with_worker w Exited s).
Proof.
  intros HI Hw Hs Hq. pose proof HI as [Hac Hco Hsk Hst Hex Haw Hsa Hjo Hwa]. split; simpl; auto.
  - rewrite (busy_insert _ _ AtLock) by done. simpl. lia.
  - pose proof (bind_insert task_of _ w Exited AtLock Hw) as Hp. simpl in Hp. rewrite !app_nil_r in Hp. by rewrite Hp.
  - intros _. by apply moved_awake.
  - by apply (moved_joined s w AtLock).
Qed.

(** A worker takes the task at [i]. *)
Lemma inv_take s w i a : inv s → workers s !! w = Some AtLock → tasks s !! i = Some a →
  inv (with_worker w (Running a.2) (with_queue (delete i (tasks s)) (activeTasks s + 1) s)).
Proof.
  intros HI Hw Hi. pose proof HI as [Hac Hco Hsk Hst Hex Haw Hsa Hjo Hwa].
  assert (Hne : tasks s ≠ []) by (intros E; by rewrite E in Hi). split; simpl; auto.
  - rewrite (busy_insert _ _ AtLock) by done. simpl. lia.
  - pose proof (bind_insert task_of _ w (Running a.2) AtLock Hw) as Hp. simpl in Hp. rewrite app_nil_r in Hp.
    assert (Hd : (tasks s).*2 ≡ₚ a.2 :: (delete i (tasks s)).*2).
    { by rewrite <-(fmap_cons snd), <-delete_Permutation. }
    rewrite Hco, Hp, Hd. solve_Permutation.
  - intros Hx. exfalso. apply Hne. by destruct (moved_exit s w AtLock (Running a.2) HI Hw ltac:(done) Hx).
  - intros _. right. exists (Running a.2). split; [by eapply worker_in|done].
  - intros ?. by apply moved_awake.
  - by apply (moved_joined s w AtLock).
  - intros b Hb. right. lia.
Qed.

(** A worker has run a task: [k] says in which list it goes. *)
Lemma inv_ran s w task : inv s → workers s !! w = Some (Running task) → ∀ s', run_task w s = Some s' → inv s'.
Proof.
  intros HI Hw s'. unfold run_task. rewrite Hw. intros [= <-].
  pose proof HI as [Hac Hco Hsk Hst Hex Haw Hsa Hjo Hwa].
  pose proof (bind_insert task_of _ w Reporting _ Hw) as Hp. simpl in Hp. rewrite app_nil_r in Hp.
  pose proof (busy_insert _ _ _ Reporting Hw) as Hb. simpl in Hb.
  pose proof (moved_exit s w _ Reporting HI Hw ltac:(done)) as He.
  pose proof (moved_joined s w _ Reporting HI Hw ltac:(done)) as Hj.
  assert (Ha : tasks s ≠ [] → notifies s ≠ O ∨ ∃ k, k ∈ <[w := Reporting]> (workers s) ∧ k ≠ Asleep).
  { intros _. right. exists Reporting. split; [by eapply worker_in|done]. }
  case_decide as Hc; split; simpl; auto using moved_awake; try lia.
  - rewrite Hco, <-Hp. solve_Permutation.
  - intros x [?| ->%list_elem_of_singleton]%elem_of_app; auto.
  - rewrite Hco, <-Hp. solve_Permutation.
Qed.

(** A worker has reported, and the waiters are then [l]. *)
Lemma inv_reported s w l : inv s → workers s !! w = Some Reporting →
  (∀ b, WaitAsleep b ∈ l → tasks s ≠ [] ∨ activeTasks s - 1 ≠ 0) →
  inv (with_waiters l (with_worker w AtLock (with_queue (tasks s) (activeTasks s - 1) s))).
Proof.
  intros HI Hw Hl. pose proof HI as [Hac Hco Hsk Hst Hex Haw Hsa Hjo Hwa].
  pose proof (bind_insert task_of _ w AtLock _ Hw) as Hp. simpl in Hp. rewrite !app_nil_r in Hp.
  pose proof (busy_insert _ _ _ AtLock Hw) as Hb. simpl in Hb. split; simpl; auto using moved_awake; [lia|by rewrite Hp|..].
  - by apply (moved_exit s w Reporting).
  - intros _. right. exists AtLock. split; [by eapply worker_in|done].
  - by apply (moved_joined s w Reporting).
Qed.

Lemma inv_report s w s' : inv s → report w s = Some s' → inv s'.
Proof.
  intros HI. unfold report. destruct (workers s !! w) as [[]|] eqn:Hw; try done. intros [= <-]. cbn [activeTasks tasks with_worker with_queue].
  destruct ((activeTasks s - 1 =? 0) && bool_decide (tasks s = [])) eqn:Ed.
  - apply inv_reported; [done..|]. intros b Hb. apply list_elem_of_fmap in Hb as (k & Hk & _). by destruct k.
  - apply (inv_reported s w (waiters s)); [done..|]. intros b _. apply andb_false_iff in Ed as [Ed|Ed]; [right; lia|left].
    by apply bool_decide_eq_false in Ed.
Qed.

(** Changes to the waiters alone. *)
Lemma inv_waiters s l : inv s → (∀ b, WaitAsleep b ∈ l → tasks s ≠ [] ∨ activeTasks s ≠ 0) → inv (with_waiters l s).
Proof. intros [Hac Hco Hsk Hst Hex Haw Hsa Hjo Hwa] Hl. split; simpl; auto. Qed.

Lemma inv_set_waiter s k x : inv s → (∀ b, x = WaitAsleep b → tasks s ≠ [] ∨ activeTasks s ≠ 0) →
  inv (with_waiters (<[k := x]> (waiters s)) s).
Proof.
  intros HI Hx. apply inv_waiters; [done|]. intros b Hb. apply list_elem_of_lookup in Hb as [j Hj].
  apply list_lookup_insert_Some in Hj as [(_ & ? & _)|[_ Hj]]; [by apply (Hx b)|].
  apply (i_waiters s HI b). by eapply list_elem_of_lookup_2.
Qed.

Lemma inv_pool_submit s p task : inv s → inv (default s (submit p task s)).
Proof.
  intros HI. unfold submit. destruct (stopRequested s) eqn:Es; [done|]. simpl.
  destruct HI as [Hac Hco Hsk Hst Hex Haw Hsa Hjo Hwa]. rewrite Es in *. split; simpl; auto.
  - rewrite Hco, fmap_app. simpl. solve_Permutation.
  - by intros [? _]%Hex.
  - intros b _. left. by destruct (tasks s).
Qed.

Lemma inv_stop_request s s' : inv s → stop_request s = Some s' → inv s'.
Proof.
  intros [Hac Hco Hsk Hst Hex Haw Hsa Hjo Hwa]. unfold stop_request.
  destruct (stopper s) eqn:Es; try done; intros [= <-]; split; simpl; auto; try done.
  - intros Hx. by destruct (Hex Hx).
  - intros Hx. by destruct (Hex Hx).
Qed.

Lemma busy_wake (ws : list (Worker (T := T))) : sum_list_with busy (wake <$> ws) = sum_list_with busy ws.
Proof. induction ws as [|k ws IH]; [done|]. rewrite fmap_cons. simpl. rewrite IH. by destruct k. Qed.

Lemma task_wake (ws : list (Worker (T := T))) : (wake <$> ws) ≫= task_of = ws ≫= task_of.
Proof. induction ws as [|k ws IH]; [done|]. rewrite fmap_cons, !bind_cons, IH. by destruct k. Qed.

Lemma inv_stop_notify s s' : inv s → stop_notify s = Some s' → inv s'.
Proof.
  intros [Hac Hco Hsk Hst Hex Haw Hsa Hjo Hwa]. unfold stop_notify.
  destruct (stopper s) eqn:Es; try done. intros [= <-]. split; simpl; auto.
  - by rewrite busy_wake.
  - by rewrite task_wake.
  - rewrite Hst. done.
  - intros [Hx|Hx]; apply Hex; [left|right; by apply fmap_nil_inv in Hx].
    apply list_elem_of_fmap in Hx as (k & Hk & Hin). by destruct k.
  - intros [?|(k & Hk & Hne)]%Haw; [by left|right]. exists (wake k). split; [by apply list_elem_of_fmap_2|by destruct k].
  - intros _. right. intros Hx. apply list_elem_of_fmap in Hx as (k & Hk & _). by destruct k.
  - intros id [= <-]. lia.
Qed.

Lemma inv_stop_join s s' : inv s → stop_join s = Some s' → inv s'.
Proof.
  intros HI. pose proof HI as [Hac Hco Hsk Hst Hex Haw Hsa Hjo Hwa]. unfold stop_join.
  destruct (stopper s) as [| |id|] eqn:Es; try done.
  destruct (workers s !! id) as [[]|] eqn:Hw; try done; intros [= <-].
  - split; simpl; auto; [by rewrite Hst|intros Hs; right; by destruct (Hsa Hs)|].
    intros id' [= <-] j k Hj Hk. destruct (decide (j = id)) as [->|]; [congruence|]. apply (Hjo id eq_refl j k); [lia|done].
  - assert (Hall : ∀ k, k ∈ workers s → k = Exited).
    { intros k [j Hj]%list_elem_of_lookup. apply (Hjo id eq_refl j); [|done].
      apply lookup_lt_Some in Hj. apply lookup_ge_None in Hw. lia. }
    assert (sum_list_with busy (workers s) = O ∧ workers s ≫= task_of = []) as [Hz1 Hz2].
    { clear -Hall. induction (workers s) as [|k ws IH]; [done|]. simpl. rewrite (Hall k) by (by left).
      apply IH. intros k' Hk'. apply Hall. by right. }
    assert (Hq : stopRequested s = true ∧ tasks s = []).
    { apply Hex. destruct (workers s) as [|k ws]; [by right|left]. rewrite (Hall k) by (by left). by left. }
    destruct Hq as [Hs Hq]. split; simpl; auto; try done.
    + rewrite Hac, Hz1. done.
    + by rewrite Hco, Hz2.
    + intros _. right. apply not_elem_of_nil.
Qed.

Lemma inv_notify_one s w s' : inv s → notify_one w s = Some s' → inv s'.
Proof.
  intros HI. unfold notify_one. destruct (notifies s) as [|n] eqn:En; [done|]. simpl.
  destruct (workers s !! w) as [[]|] eqn:Hw; try (destruct (existsb _ _) eqn:Ex; [done|]); intros [= <-].
  2: { by apply (inv_nap s w Asleep); auto. }
  all: destruct HI as [Hac Hco Hsk Hst Hex Haw Hsa Hjo Hwa]; split; simpl; auto.
  all: intros Hq; right; destruct (workers s) as [|k ws] eqn:Ews; [by destruct (Hex (or_intror eq_refl))|].
  all: exists k; split; [by left|intros ->; done].
Qed.

Lemma inv_look s w i s' : inv s → look w i s = Some s' → inv s'.
Proof.
  intros HI. unfold look. destruct (workers s !! w) as [[]|] eqn:Hw; try done.
  destruct (stopRequested s) eqn:Es, (bool_decide (tasks s = [])) eqn:Eq; simpl; intros Hl; simplify_eq;
    try (apply bind_Some in Hl as (_ & _ & Hl); apply bind_Some in Hl as (a & Ha & [= <-]); by apply inv_take).
  - apply inv_exit; [done..|]. by apply bool_decide_eq_true in Eq.
  - apply bool_decide_eq_true in Eq. by apply (inv_nap_only _ w AtLock Asleep); auto.
Qed.

Lemma pool_step_inv a s s' : inv s → step a s = Some s' → inv s'.
Proof.
  intros HI. destruct a; simpl.
  - intros [= <-]. by apply inv_pool_submit.
  - by apply inv_notify_one.
  - intros [= <-]. destruct HI as [Hac Hco Hsk Hst Hex Haw Hsa Hjo Hwa]. split; simpl; auto.
    intros x Hx. right. by apply Hsk.
  - by apply inv_look.
  - intros Hr. pose proof Hr as Hr'. unfold run_task in Hr'. destruct (workers s !! w) as [[]|] eqn:Hw; try done.
    by eapply inv_ran.
  - by apply inv_report.
  - intros [= <-]. apply inv_waiters; [done|]. intros b [Hb|Hb%list_elem_of_singleton]%elem_of_app; [|done].
    by apply (i_waiters s HI b).
  - unfold wait_look. destruct (waiters s !! k) as [[]|]; try done. intros [= <-]. apply inv_set_waiter; [done|].
    intros b. unfold all_done. destruct (bool_decide (tasks s = [])) eqn:E1, (activeTasks s =? 0) eqn:E2; simpl; try done; intros _.
    + right. lia.
    + left. by apply bool_decide_eq_false in E1.
    + right. lia.
  - unfold wait_timeout. destruct (waiters s !! k) as [[|[]|]|]; try done. intros [= <-]. by apply inv_set_waiter.
  - unfold spurious. destruct (workers s !! w) as [[]|] eqn:Hw; try done. intros [= <-].
    by apply (inv_nap_only _ w Asleep AtLock); auto.
  - unfold spurious_wait. destruct (waiters s !! k) as [[]|]; try done. intros [= <-]. by apply inv_set_waiter.
  - by apply inv_stop_request.
  - by apply inv_stop_notify.
  - by apply inv_stop_join.
Qed.

Lemma pool_run_inv l s s' : inv s → run l s = Some s' → inv s'.
Proof.
  revert s. induction l as [|a l IH]; simpl; intros s HI Hr; [by simplify_eq|].
  apply bind_Some in Hr as (s1 & Hs & Hr). eauto using pool_step_inv.
Qed.

(** ** The work left *)

Definition worker_work (W : nat) (k : Worker (T := T)) : nat :=
  match k with AtLock => 1 | Running _ => W + 3 | Reporting => W + 2 | _ => 0 end.

Definition waiter_work (k : Waiter) : nat := match k with Looking _ => 1 | _ => 0 end.

Definition stopper_work (L : nat) (p : Stopper) : nat :=
  match p with Notifying => 2 * L + 2 | Joining id => S (L - id) | _ => 0 end.

(** A bound on the steps the pool has left. *)
Definition work s : nat :=
  (length (waiters s) + 3) * length (tasks s) + sum_list_with (worker_work (length (waiters s))) (workers s) +
  sum_list_with waiter_work (waiters s) + 2 * notifies s + stopper_work (length (workers s)) (stopper s).

Lemma work_worker s w k k' : workers s !! w = Some k →
  (work (with_worker w k' s) + worker_work (length (waiters s)) k = work s + worker_work (length (waiters s)) k')%nat.
Proof.
  intros Hw. unfold work. simpl. rewrite length_insert.
  pose proof (sum_insert (worker_work (length (waiters s))) _ _ k' _ Hw). lia.
Qed.

Lemma work_waiters s l : length l = length (waiters s) →
  (work (with_waiters l s) + sum_list_with waiter_work (waiters s) = work s + sum_list_with waiter_work l)%nat.
Proof. intros Hl. unfold work. simpl. rewrite Hl. lia. Qed.

Lemma look_decreases w i s s' : look w i s = Some s' → (work s' < work s)%nat.
Proof.
  unfold look. destruct (workers s !! w) as [[]|] eqn:Hw; try done. case_bool; [case_bool|].
  - intros [= <-]. pose proof (work_worker s w _ Exited Hw) as Hk. simpl in Hk. lia.
  - intros Hl. apply bind_Some in Hl as (_ & _ & Hl). apply bind_Some in Hl as (x & Hx & [= <-]).
    pose proof (work_worker (with_queue (delete i (tasks s)) (activeTasks s + 1) s) w _ (Running x.2) Hw) as Hk. simpl in Hk.
    assert (Hq : (work (with_queue (delete i (tasks s)) (activeTasks s + 1) s) + (length (waiters s) + 3) = work s)%nat).
    { pose proof (lookup_lt_Some (tasks s) i x Hx) as Hlt. pose proof (length_delete (tasks s) i (mk_is_Some _ _ Hx)) as Hd.
      unfold work. simpl. rewrite Hd. destruct (length (tasks s)) as [|m] eqn:Em; [lia|].
      replace (S m - 1)%nat with m by lia. lia. }
    lia.
  - intros [= <-]. pose proof (work_worker s w _ Asleep Hw) as Hk. simpl in Hk. lia.
Qed.

Lemma report_decreases w s s' : report w s = Some s' → (work s' < work s)%nat.
Proof.
  unfold report. destruct (workers s !! w) as [[]|] eqn:Hw; try done. intros [= <-].
  set (s1 := with_worker w AtLock (with_queue (tasks s) (activeTasks s - 1) s)).
  assert (Hk : (work s1 + (length (waiters s) + 2) = work s + 1)%nat).
  { apply (work_worker (with_queue (tasks s) (activeTasks s - 1) s) w _ AtLock Hw). }
  case_bool; [|lia]. pose proof (work_waiters s1 (wake_waiter <$> waiters s1) (length_fmap _ _)) as Hl.
  pose proof (sum_fmap_le waiter_work wake_waiter (waiters s1)) as Hs. simpl in Hl, Hs.
  assert (∀ x, waiter_work (wake_waiter x) ≤ S (waiter_work x))%nat as Hw' by (intros []; simpl; lia).
  specialize (Hs Hw'). fold s1 in Hl. lia.
Qed.

Lemma internal_decreases a s s' : inv s → internal a = true → step a s = Some s' → (work s' < work s)%nat.
Proof.
  intros HI Ha. destruct a; try done; simpl.
  - unfold notify_one. destruct (notifies s) as [|n] eqn:En; [done|]. simpl.
    assert (Hn : (work (with_notifies n s) + 2 = work s)%nat) by (unfold work; simpl; lia).
    destruct (workers s !! w) as [[]|] eqn:Hw; try (destruct (existsb _ _); [done|]); intros [= <-]; try lia.
    pose proof (work_worker (with_notifies n s) w _ AtLock Hw) as Hk. simpl in Hk. lia.
  - apply look_decreases.
  - unfold run_task. destruct (workers s !! w) as [[]|] eqn:Hw; try done. intros [= <-].
    pose proof (work_worker s w _ Reporting Hw) as Hk. simpl in Hk. unfold work in *. case_decide; simpl in *; lia.
  - apply report_decreases.
  - unfold wait_look. destruct (waiters s !! k) as [[]|] eqn:Hk; try done. intros [= <-].
    match goal with |- context [<[k := ?x]> _] => pose proof (work_waiters s (<[k := x]> (waiters s)) (length_insert _ _ _)) as Hl;
      pose proof (sum_insert waiter_work _ _ x _ Hk) as Hs; assert (waiter_work x = O) by (by case_bool) end.
    simpl in Hs. lia.
  - unfold stop_notify. destruct (stopper s) eqn:Es; try done. intros [= <-]. unfold work. simpl. rewrite Es, length_fmap.
    pose proof (sum_fmap_le (worker_work (length (waiters s))) wake (workers s)) as Hs.
    assert (∀ x, worker_work (length (waiters s)) (wake x) ≤ S (worker_work (length (waiters s)) x))%nat as Hw' by (intros []; simpl; lia).
    specialize (Hs Hw'). simpl. lia.
  - unfold stop_join. destruct (stopper s) as [| |id|] eqn:Es; try done.
    destruct (workers s !! id) as [[]|] eqn:Hw; try done; intros [= <-]; unfold work; simpl; rewrite Es.
    + apply lookup_lt_Some in Hw. simpl. lia.
    + simpl. lia.
Qed.

(** ** Progress *)

Definition moves s : Prop := ∃ a s', internal a = true ∧ step a s = Some s'.

Lemma awake_moves s w k : workers s !! w = Some k → k ≠ Asleep → k ≠ Exited → moves s.
Proof.
  intros Hw Ha He. destruct k as [| |task| |]; try done.
  - destruct (stopRequested s || negb (bool_decide (tasks s = []))) eqn:E1;
      [destruct (stopRequested s && bool_decide (tasks s = [])) eqn:E2|].
    + exists (Look w 0). eexists. split; [done|]. simpl. unfold look. rewrite Hw, E1, E2. done.
    + assert (tasks s ≠ []) as Hq.
      { intros E. rewrite E in E1, E2. destruct (stopRequested s); done. }
      destruct (has_top _ Hq) as [i Hi]. exists (Look w i). simpl. unfold look. rewrite Hw, E1, E2.
      pose proof Hi as Hi'. unfold is_top in Hi'. destruct (tasks s !! i) as [a|] eqn:Ea; [|done].
      eexists. split; [done|]. rewrite option_guard_True by (by rewrite Hi). simpl. done.
    + exists (Look w 0). eexists. split; [done|]. simpl. unfold look. rewrite Hw, E1. done.
  - exists (RunTask w). eexists. split; [done|]. simpl. unfold run_task. rewrite Hw. done.
  - exists (Report w). eexists. split; [done|]. simpl. unfold report. rewrite Hw. done.
Qed.

Lemma notify_moves s : notifies s ≠ O → moves s.
Proof.
  intros Hn. destruct (notifies s) as [|n] eqn:En; [done|].
  destruct (existsb is_asleep (workers s)) eqn:Ex.
  - apply existsb_exists in Ex as (k & Hk & Ha). destruct k; try done.
    apply list_elem_of_In, list_elem_of_lookup in Hk as [w Hw].
    exists (NotifyOne w). eexists. split; [done|]. simpl. unfold notify_one. rewrite En. simpl. by rewrite Hw.
  - exists (NotifyOne (length (workers s))). eexists. split; [done|]. simpl. unfold notify_one. rewrite En. simpl.
    rewrite Ex, lookup_ge_None_2 by done. done.
Qed.

(** While something is left to do, somebody can do it. *)
Lemma progress s : inv s → ¬ moves s → finished s.
Proof.
  intros HI Hm. pose proof HI as [Hac Hco Hsk Hst Hex Haw Hsa Hjo Hwa].
  assert (Hn : notifies s = O) by (destruct (decide (notifies s = O)); [done|by destruct (Hm (notify_moves s n))]).
  assert (Hw : ∀ k, k ∈ workers s → k = Asleep ∨ k = Exited).
  { intros k [w Hw]%list_elem_of_lookup. destruct k; auto; exfalso; apply Hm; by eapply awake_moves. }
  assert (Hq : tasks s = []).
  { destruct (decide (tasks s = [])) as [|Hne]; [done|]. destruct (Haw Hne) as [?|(k & Hk & Ha)]; [done|].
    destruct (Hw k Hk) as [?| ->]; [done|]. by destruct (Hex (or_introl Hk)). }
  assert (Ha : activeTasks s = 0).
  { rewrite Hac. clear -Hw. induction (workers s) as [|k ws IH]; [done|]. simpl.
    destruct (Hw k) as [-> | ->]; [by left|apply IH; intros; apply Hw; by right..]. }
  split_and!; [done..| |].
  - intros k x Hx. destruct x as [b|b|b]; [|exfalso|eauto].
    + exfalso. apply Hm. exists (WaitLook k). eexists. split; [done|]. simpl. unfold wait_look. by rewrite Hx.
    + apply list_elem_of_lookup_2, Hwa in Hx as [?|?]; done.
  - destruct (stopper s) as [| |id|] eqn:Es; auto; exfalso; apply Hm.
    + exists StopNotify. eexists. split; [done|]. simpl. unfold stop_notify. by rewrite Es.
    + exists StopJoin. simpl. unfold stop_join. rewrite Es.
      destruct (workers s !! id) as [k|] eqn:Ek; [|eauto]. destruct (Hw k) as [-> | ->]; [by eapply list_elem_of_lookup_2| |eauto].
      exfalso. destruct Hsa as [?|Hsa]; [by apply Hst|done|]. apply Hsa. by eapply list_elem_of_lookup_2.
Qed.

Lemma internal_run_bound l s s' : inv s → Forall (λ a, internal a = true) l → run l s = Some s' →
  (length l + work s' ≤ work s)%nat.
Proof.
  revert s. induction l as [|a l IH]; simpl; intros s HI Hl Hr; [by simplify_eq|].
  apply bind_Some in Hr as (s1 & Hs & Hr). inversion Hl as [|? ? Ha Hl']; subst.
  pose proof (internal_decreases a s s1 HI Ha Hs). specialize (IH s1 (pool_step_inv _ _ _ HI Hs) Hl' Hr). lia.
Qed.

(** What a worker takes is of the highest priority there is. *)
Theorem takes_highest w i s s' task : look w i s = Some s' → workers s' !! w = Some (Running task) →
  ∃ p, (p, task) ∈ tasks s ∧ ∀ q other, (q, other) ∈ tasks s → rank q ≤ rank p.
Proof.
  unfold look. destruct (workers s !! w) as [[]|] eqn:Hw; try done. pose proof (lookup_lt_Some _ _ _ Hw) as Hlt.
  case_bool; [case_bool|]; [by intros [= <-]; simpl; rewrite list_lookup_insert_eq| |by intros [= <-]; simpl; rewrite list_lookup_insert_eq].
  intros Hl. apply bind_Some in Hl as (Ht & _ & Hl). apply bind_Some in Hl as ([p x] & Hx & [= <-]).
  simpl. rewrite list_lookup_insert_eq by done. intros [= <-]. exists p. split; [by eapply list_elem_of_lookup_2|].
  intros q other Hin. unfold is_top, Task in *. rewrite Hx in Ht. apply Is_true_true in Ht.
  rewrite forallb_forall in Ht. specialize (Ht (q, other) (proj1 (list_elem_of_In _ _) Hin)).
  unfold comparator in Ht. simpl in Ht. apply negb_true_iff in Ht. lia.
Qed.

(** C40: the pool finishes what it accepts. However its clients, its workers and the thread
    that stops it have run, every task accepted is queued, is being run, was executed or,
    if its flag was set, was skipped, and none is twice. And if the clients start nothing
    more, the pool's own steps come to an end, after at most [work] of them, whatever their
    order; when none is left no task is either, each was executed or skipped, every call
    of [wait] has returned, and so has [stop]. No wake-up is lost. *)
Theorem pool_finishes n l s : (0 < n)%nat → run l (make n) = Some s →
  accepted s ≡ₚ (tasks s).*2 ++ (workers s ≫= task_of) ++ executed s ++ skipped s ∧
  (∀ x, x ∈ skipped s → x ∈ cancelled s) ∧
  ∀ l' s', Forall (λ a, internal a = true) l' → run l' s = Some s' →
    (length l' ≤ work s)%nat ∧
    ((∀ a, internal a = true → step a s' = None) →
      finished s' ∧ accepted s' ≡ₚ executed s' ++ skipped s').
Proof.
  intros Hn Hr. pose proof (pool_run_inv _ _ _ (make_inv n Hn) Hr) as HI. split; [apply i_count, HI|]. split; [apply i_skipped, HI|].
  intros l' s' Hl Hr'. pose proof (internal_run_bound _ _ _ HI Hl Hr'). split; [lia|]. intros Hstuck.
  pose proof (pool_run_inv _ _ _ HI Hr') as HI'. assert (HF : finished s').
  { apply progress; [done|]. intros (a & s'' & Ha & Hs). by rewrite Hstuck in Hs. }
  split; [done|]. destruct HF as (Hq & Ha & _). rewrite (i_count _ HI'), Hq. simpl.
  assert (Ht : workers s' ≫= task_of = []); [|by rewrite Ht].
  pose proof (i_active _ HI') as Hb. rewrite Ha in Hb. clear -Hb. induction (workers s') as [|k ws IH]; [done|].
  simpl in *. destruct k; simpl in *; (lia || apply IH; lia).
Qed.
End props.

(** Two workers; a task of low priority, then one of high priority, which is taken first,
    and a third, whose client gives it up; somebody waits, and the pool is stopped. *)
Definition session : list (Action (T := Z)) :=
  [Look 0 0; Look 1 0; Submit Low 1; Submit High 2; Submit Medium 3; Wait false; WaitLook 0;
   NotifyOne 1; Look 1 1; Cancel 3; StopRequest].

Definition closing : list (Action (T := Z)) :=
  [NotifyOne 0; NotifyOne 1; Look 0 1; StopNotify; RunTask 1; RunTask 0; Report 1; Report 0; Look 1 0; Look 0 0;
   RunTask 1; Report 1; Look 1 0; WaitLook 0; StopJoin; StopJoin; StopJoin].

Lemma pool_finishes_witness :
  ∃ s s', run session (make 2) = Some s ∧ workers s = [Asleep; Running 2] ∧
    run closing s = Some s' ∧ executed s' = [2; 1] ∧ skipped s' = [3] ∧ waiters s' = [Returned true] ∧
    stopper s' = Stopped ∧ (length closing ≤ work s)%nat.
Proof.
  destruct (run session (make 2)) as [s|] eqn:Er; [|vm_compute in Er; discriminate Er].
  destruct (pool_finishes 2 session s ltac:(lia) Er) as (_ & _ & H).
  destruct (run closing s) as [s'|] eqn:Er'; [|vm_compute in Er; injection Er as <-; vm_compute in Er'; discriminate Er'].
  destruct (H closing s') as [Hl _]; [repeat constructor|done|].
  exists s, s'. vm_compute in Er. injection Er as <-. vm_compute in Er'. injection Er' as <-. repeat split. apply Hl.
Defined.
End ThreadPoolProps.
