(* ===== verification/FeedGenerator.v ===== *)
(** * The feed generator, and what it writes

    The program (Module FeedGenerator), and that its file is a valid feed (Module
    FeedGeneratorProps). *)

From stdpp Require Import strings.
From S2P Require Import Prelude Types Effects FileFrames MarketDataCodec OrderBook Sequence BookViews.
From S2P Require Import EventFile BookManager SnapshotProps Replay Recovery FeedMirror.

(** * The feed generator ([apps/feed_generator/main.cpp])

    A program that writes a file of events. What the standard library draws and parses is
    a parameter: [dist T lo hi] is a [std::uniform_int_distribution<T>], [stoull] and
    [stoul] answer [None] where they throw. The state is the local variables of [main]; the
    output of a computation is what it hands to the [EventFileWriter]. *)

(** [v[i] = v.back(); v.pop_back();] *)
Definition swap_remove {A} (l : list A) (i : Z) : option (list A) :=
  x ← last l; l ← vset l i x; Some (removelast l).

Lemma swap_remove_perm {A} (l : list A) i x : vget l i = Some x →
  ∃ l', swap_remove l i = Some l' ∧ l ≡ₚ x :: l'.
Proof.
  destruct l as [|y l _] using rev_ind; [by intros [_ ?]%vget_Some|]. intros Hi.
  unfold swap_remove. rewrite last_snoc. cbn [mbind option_bind]. rewrite (vset_get _ _ _ _ Hi).
  cbn [mbind option_bind]. eexists. split; [done|]. pose proof (vget_lt _ _ _ Hi) as Hl.
  rewrite vsize_snoc in Hl. unfold vput. destruct (Z.eq_dec i (vsize l)) as [->|Hne].
  - rewrite vget_snoc in Hi. injection Hi as ->. unfold vsize. rewrite Nat2Z.id, insert_app_r_alt, Nat.sub_diag by lia.
    cbn. rewrite removelast_last. symmetry. apply Permutation_cons_append.
  - rewrite insert_app_l, removelast_last by (unfold vsize in *; lia). rewrite vget_app_l in Hi by lia.
    apply vget_Some in Hi as [_ Hi]. rewrite insert_take_drop by by eapply lookup_lt_Some.
    rewrite <-(take_drop_middle _ _ _ Hi) at 1. solve_Permutation.
Qed.

Module FeedGenerator.
Import MarketDataCodec.

Record Args := mkArgs {
  output : string;
  orders : Z;
  seed : Z;
  instruments : Z;
}.

Definition default_args : Args := mkArgs "" 0 42 10.

Record OpenOrder := mkOpenOrder { oo_instrument_id : InstrumentId; oo_order_id : OrderId }.

Inductive EventKind := Add | Cancel | Modify | TradeKind | Clear.

(** The argument of a [std::uniform_int_distribution]. *)
Inductive IntType := Int | Int64 | UInt32 | UInt64.

Section generator.
Context {Rng : Type} (seeded : Z → Rng) (dist : IntType → Z → Z → Rng → Z * Rng).
Context (stoull stoul : string → option Z) (opens : string → bool).

(** ** [parse_args] *)

(** The loop over the flags; [have_output] and [have_orders] last. The outer [None] is an
    exception, the inner one [std::nullopt]. *)
Fixpoint parse_flags (argv : list string) (args : Args) (have_output have_orders : bool) :
    option (option (Args * bool * bool)) :=
  match argv with
  | [] => Some (Some (args, have_output, have_orders))
  | flag :: argv =>
      if bool_decide (flag = "--output"%string) then
        match argv with
        | [] => Some None
        | v :: argv => parse_flags argv (mkArgs v (orders args) (seed args) (instruments args)) true have_orders
        end
      else if bool_decide (flag = "--orders"%string) then
        match argv with
        | [] => Some None
        | v :: argv =>
            n ← stoull v;
            parse_flags argv (mkArgs (output args) n (seed args) (instruments args)) have_output true
        end
      else if bool_decide (flag = "--seed"%string) then
        match argv with
        | [] => Some None
        | v :: argv =>
            n ← stoull v;
            parse_flags argv (mkArgs (output args) (orders args) n (instruments args)) have_output have_orders
        end
      else if bool_decide (flag = "--instruments"%string) then
        match argv with
        | [] => Some None
        | v :: argv =>
            n ← stoul v;
            parse_flags argv (mkArgs (output args) (orders args) (seed args) (u32 n)) have_output have_orders
        end
      else Some None
  end.

(** [argv] from its second element. *)
Definition parse_args (argv : list string) : option (option Args) :=
  r ← parse_flags argv default_args false false;
  Some ('(args, have_output, have_orders) ← r;
        if negb have_output || negb have_orders || (orders args =? 0) || (instruments args =? 0)
        then None else Some args).

(** ** The state of [main] *)

Record State := mkState {
  rng : Rng;
  mid_price : list Price;
  open_orders : list OpenOrder;
  next_seq : Sequence;
  next_order_id : OrderId;
  timestamp : Timestamp;
  adds_emitted : Z;
}.

Definition with_rng (r : Rng) (s : State) : State :=
  mkState r (mid_price s) (open_orders s) (next_seq s) (next_order_id s) (timestamp s) (adds_emitted s).
Definition with_mid_price (m : list Price) (s : State) : State :=
  mkState (rng s) m (open_orders s) (next_seq s) (next_order_id s) (timestamp s) (adds_emitted s).
Definition with_open_orders (os : list OpenOrder) (s : State) : State :=
  mkState (rng s) (mid_price s) os (next_seq s) (next_order_id s) (timestamp s) (adds_emitted s).
Definition with_next_seq (n : Sequence) (s : State) : State :=
  mkState (rng s) (mid_price s) (open_orders s) n (next_order_id s) (timestamp s) (adds_emitted s).
Definition with_next_order_id (n : OrderId) (s : State) : State :=
  mkState (rng s) (mid_price s) (open_orders s) (next_seq s) n (timestamp s) (adds_emitted s).
Definition with_timestamp (t : Timestamp) (s : State) : State :=
  mkState (rng s) (mid_price s) (open_orders s) (next_seq s) (next_order_id s) t (adds_emitted s).
Definition with_adds_emitted (n : Z) (s : State) : State :=
  mkState (rng s) (mid_price s) (open_orders s) (next_seq s) (next_order_id s) (timestamp s) n.

Abbreviation gen := (eff State Event).

Local Open Scope eff_scope.

(** A distribution with its bounds the wrong way round is undefined behaviour. *)
Definition draw (T : IntType) (lo hi : Z) : gen Z := eupdate (λ s,
  if lo <=? hi then let '(x, r) := dist T lo hi (rng s) in Some (x, with_rng r s) else None).

Definition write (event : Event) : gen unit := eemit (λ s, (event, s)).

(** [mid_price[i]] and [mid_price[i] = p]. *)
Definition price_of (i : InstrumentId) : gen Price := eread (λ s, vget (mid_price s) i).

Definition set_price (i : InstrumentId) (p : Price) : gen unit := eupdate (λ s,
  match vset (mid_price s) i p with Some m => Some (tt, with_mid_price m s) | None => None end).

Definition instrument_dist (a : Args) : gen InstrumentId := draw UInt32 1 (instruments a).
Definition quantity_dist : gen Quantity := draw UInt64 1 100.
Definition price_jitter_dist : gen Price := draw Int64 (-50) 50.

(** [side_dist(rng) == 0 ? Side::Buy : Side::Sell] *)
Definition draw_side : gen Side := x ← draw Int 0 1; eret (if x =? 0 then Buy else Sell).

(** [idx_dist(0, open_orders.size() - 1)] *)
Definition draw_index : gen Z := s ← eget; draw UInt64 0 (u64 (vsize (open_orders s) - 1)).

Definition pick_kind : gen EventKind :=
  s ← eget;
  match open_orders s with
  | [] => eret Add
  | _ =>
      roll ← draw Int 0 99;
      eret (if roll <? 70 then Add else if roll <? 85 then Cancel else if roll <? 95 then Modify
            else if roll <? 99 then TradeKind else Clear)
  end.

(** ** The cases of the switch *)

(** The price of an instrument moves, not below 100. *)
Definition jitter_price (instrument : InstrumentId) : gen unit :=
  jitter ← price_jitter_dist;
  p ← price_of instrument;
  set_price instrument (i64 (p + jitter)) ;;
  p ← price_of instrument;
  if p <? 100 then set_price instrument 100 else eret tt.

Definition emit_add (a : Args) (seq : Sequence) : gen unit :=
  instrument ← instrument_dist a;
  side ← draw_side;
  jitter_price instrument ;;
  s ← eget;
  let order_id := next_order_id s in
  emodify (with_next_order_id (u64 (order_id + 1))) ;;
  p ← price_of instrument;
  quantity ← quantity_dist;
  write (MAdd (mkAddOrder seq (timestamp s) order_id instrument p quantity side)) ;;
  emodify (λ s, with_open_orders (open_orders s ++ [mkOpenOrder instrument order_id]) s) ;;
  emodify (λ s, with_adds_emitted (u64 (adds_emitted s + 1)) s).

Definition emit_cancel (seq : Sequence) : gen unit :=
  idx ← draw_index;
  chosen ← eread (λ s, vget (open_orders s) idx);
  eupdate (λ s, match swap_remove (open_orders s) idx with
                | Some os => Some (tt, with_open_orders os s)
                | None => None
                end) ;;
  s ← eget;
  write (MCancel (mkCancelOrder seq (timestamp s) (oo_order_id chosen) (oo_instrument_id chosen))).

Definition emit_modify (seq : Sequence) : gen unit :=
  idx ← draw_index;
  chosen ← eread (λ s, vget (open_orders s) idx);
  jitter ← price_jitter_dist;
  mid ← price_of (oo_instrument_id chosen);
  let new_price := i64 (mid + jitter) in
  let new_price := if new_price <? 100 then 100 else new_price in
  quantity ← quantity_dist;
  s ← eget;
  write (MModify (mkModifyOrder seq (timestamp s) (oo_order_id chosen) (oo_instrument_id chosen)
                    new_price quantity)).

Definition emit_trade (a : Args) (seq : Sequence) : gen unit :=
  instrument ← instrument_dist a;
  aggressor ← draw_side;
  p ← price_of instrument;
  quantity ← quantity_dist;
  s ← eget;
  write (MTrade (mkTrade seq (timestamp s) instrument p quantity aggressor)).

Definition emit_clear (a : Args) (seq : Sequence) : gen unit :=
  instrument ← instrument_dist a;
  s ← eget;
  write (MClear (mkClearBook seq (timestamp s) instrument)) ;;
  emodify (λ s, with_open_orders (filter (λ o, oo_instrument_id o ≠ instrument) (open_orders s)) s).

(** The body of the loop. *)
Definition emit_event (a : Args) : gen unit :=
  step ← draw UInt64 1 1000;
  emodify (λ s, with_timestamp (u64 (timestamp s + step)) s) ;;
  s ← eget;
  let seq := next_seq s in
  emodify (with_next_seq (u64 (seq + 1))) ;;
  kind ← pick_kind;
  match kind with
  | Add => emit_add a seq
  | Cancel => emit_cancel seq
  | Modify => emit_modify seq
  | TradeKind => emit_trade a seq
  | Clear => emit_clear a seq
  end.

(** [while (adds_emitted < args->orders)], for a number of turns: whether it ended. *)
Fixpoint generate (turns : nat) (a : Args) : gen bool :=
  s ← eget;
  if adds_emitted s <? orders a then
    match turns with
    | O => eret false
    | S turns => emit_event a ;; generate turns a
    end
  else eret true.

(** ** [main] *)

(** The first prices: [for (InstrumentId i = 1; i <= args->instruments; ++i)]. *)
Fixpoint fill_prices (fuel : nat) (a : Args) (i : InstrumentId) (m : list Price) : option (list Price) :=
  match fuel with
  | O => None
  | S fuel =>
      if i <=? instruments a then
        match vset m i (100000 + i * 1000) with
        | Some m => fill_prices fuel a (u32 (i + 1)) m
        | None => None
        end
      else Some m
  end.

Definition first_prices (a : Args) : option (list Price) :=
  fill_prices (S (Z.to_nat (instruments a))) a 1 (replicate (Z.to_nat (u32 (instruments a + 1))) 0).

Definition initial (a : Args) (m : list Price) : State :=
  mkState (seeded (seed a)) m [] 1 1 1000000000 0.

(** How it ends: an exception nobody catches, a failure reported, a number of turns used
    up, or the file with the number of events and of orders it says it wrote. *)
Inductive Exit :=
  | Uncaught
  | Usage
  | CannotOpen
  | StillRunning (file : list Z)
  | Wrote (file : list Z) (events adds : Z).

Definition main (turns : nat) (argv : list string) : option Exit :=
  match parse_args argv with
  | None => Some Uncaught
  | Some None => Some Usage
  | Some (Some a) =>
      if negb (opens (output a)) then Some CannotOpen
      else
        match first_prices a with
        | None => None
        | Some m =>
            match generate turns a (initial a m) with
            | None => None
            | Some (false, _, events) => Some (StillRunning (EventFile.written events))
            | Some (true, s, events) =>
                Some (Wrote (EventFile.written events) (u64 (next_seq s - 1)) (adds_emitted s))
            end
        end
  end.
End generator.

End FeedGenerator.

(** * What the feed generator writes

    Every message is valid: it is in sequence, its fields fit their types, and the books
    of a consumer accept it. *)

Module FeedGeneratorProps.
Import MarketDataCodec FeedGenerator.
Import BookManager (spec_event, spec_events, arrivals_of, op_of).
Import Replay (sequence_of, follows, run_replay, default_options, books, stats, stopped_early).
Import Recovery (consecutive, unrefused, number_after).
Import SnapshotProps (known_in).
Import OrderBook (od_id).
Import FeedMirror (agreed, add_agreed, cancel_agreed, known_of, found_of, without_of).

Abbreviation arrivals := BookManager.arrivals (only parsing).

(** ** Open orders and the books *)

Definition ids_at (id : InstrumentId) (os : list OpenOrder) : list OrderId :=
  oo_order_id <$> filter (λ o, oo_instrument_id o = id) os.

(** The books hold the open orders. *)
Definition mirrors (os : list OpenOrder) (arr : arrivals) : Prop :=
  ∀ id, od_id <$> arrivals_of id arr ≡ₚ ids_at id os.

#[export] Instance ids_at_proper id : Proper ((≡ₚ) ==> (≡ₚ)) (ids_at id).
Proof. intros os os' H. unfold ids_at. by rewrite H. Qed.

#[export] Instance mirrors_proper : Proper ((≡ₚ) ==> eq ==> iff) mirrors.
Proof. intros os os' H arr ? <-. unfold mirrors. by setoid_rewrite H. Qed.

Lemma ids_at_cons id o os :
  ids_at id (o :: os) = (if decide (oo_instrument_id o = id) then [oo_order_id o] else []) ++ ids_at id os.
Proof. unfold ids_at. rewrite filter_cons. by case_decide. Qed.

Lemma elem_of_ids_at i id os : i ∈ ids_at id os ↔ mkOpenOrder id i ∈ os.
Proof.
  unfold ids_at. rewrite list_elem_of_fmap. split.
  - intros (o & -> & [<- ?]%list_elem_of_filter). by destruct o.
  - intros H. exists (mkOpenOrder id i). split; [done|]. by apply list_elem_of_filter.
Qed.

Lemma mirrors_empty : mirrors [] ∅.
Proof. intros id. unfold arrivals_of. by rewrite lookup_empty. Qed.

(** Replacing what one book holds. *)
Lemma mirrors_set os os' arr id l : mirrors os arr → od_id <$> l ≡ₚ ids_at id os' →
  (∀ i, i ≠ id → ids_at i os' ≡ₚ ids_at i os) → mirrors os' (<[id := l]> arr).
Proof.
  intros Hm Hl Ho i. unfold arrivals_of. rewrite lookup_insert. case_decide; [by subst|].
  cbn [default]. rewrite Ho by congruence. apply Hm.
Qed.

Lemma mirrors_known o os arr : mirrors os arr → OrderBook.known (oo_order_id o) (arrivals_of (oo_instrument_id o) arr) = true ↔ o ∈ os.
Proof. intros Hm. rewrite known_in, (Hm _), elem_of_ids_at. by destruct o. Qed.

Lemma mirrors_nodup os arr id : mirrors os arr → NoDup (oo_order_id <$> os) → NoDup (od_id <$> arrivals_of id arr).
Proof.
  intros Hm Hn. rewrite (Hm id). eapply sublist_NoDup; [exact Hn|]. apply fmap_sublist, sublist_filter.
Qed.

(** The book's order of an open order. *)
Lemma mirrors_at o os arr : mirrors os arr → o ∈ os → ∃ x l, arrivals_of (oo_instrument_id o) arr ≡ₚ x :: l ∧
  od_id x = oo_order_id o.
Proof.
  intros Hm Hin. apply (mirrors_known _ _ _ Hm), known_in, list_elem_of_fmap in Hin as (x & Ex & Hx).
  apply elem_of_Permutation in Hx as [l Hl]. by exists x, l.
Qed.

(** ** Each kind of message *)

(** What a message does to the books of a consumer. *)
Definition accepted (ev : Event) (os os' : list OpenOrder) : Prop :=
  ∀ arr, mirrors os arr → (spec_event ev arr).1 = None ∧ mirrors os' (spec_event ev arr).2.

(** One operation that a book agrees to. *)
Lemma accepted_op ev id o os os' : op_of ev = Some (id, o) → (∀ i, i ≠ id → ids_at i os' ≡ₚ ids_at i os) →
  (∀ arr, mirrors os arr → ∃ l, agreed [o] (arrivals_of id arr) = Some l ∧ od_id <$> l ≡ₚ ids_at id os') →
  accepted ev os os'.
Proof.
  intros Eo Hother Hl arr Hm. destruct (Hl arr Hm) as (l & El & Hperm). unfold spec_event. rewrite Eo.
  cbn [agreed] in El. destruct (OrderBook.spec_op o (arrivals_of id arr)) as [[] l0]; [done|]. injection El as ->.
  split; [done|]. cbn [snd]. by eapply mirrors_set.
Qed.

Lemma add_accepted seq t o p q sd os : 0 < p → q ≠ 0 → oo_order_id o ∉ oo_order_id <$> os →
  accepted (MAdd (mkAddOrder seq t (oo_order_id o) (oo_instrument_id o) p q sd)) os (os ++ [o]).
Proof.
  intros Hp Hq Hno. eapply accepted_op; [done| |].
  { intros i Hi. cbn in Hi. rewrite <-Permutation_cons_append, ids_at_cons. by rewrite decide_False by congruence. }
  intros arr Hm. eexists. split.
  - apply add_agreed; [done..|]. rewrite (Hm _), elem_of_ids_at. contradict Hno.
    apply list_elem_of_fmap. by exists (mkOpenOrder (oo_instrument_id o) (oo_order_id o)).
  - rewrite fmap_app, (Hm _), <-(Permutation_cons_append os o), ids_at_cons, decide_True by done.
    symmetry. apply Permutation_cons_append.
Qed.

Lemma cancel_accepted seq t o os os' : os ≡ₚ o :: os' → NoDup (oo_order_id <$> os) →
  accepted (MCancel (mkCancelOrder seq t (oo_order_id o) (oo_instrument_id o))) os os'.
Proof.
  intros Hos Hn. eapply accepted_op; [done| |].
  { intros i Hi. cbn in Hi. rewrite Hos, ids_at_cons. by rewrite decide_False by congruence. }
  intros arr Hm. destruct (mirrors_at o os arr Hm) as (x & l & Hl & Ex); [rewrite Hos; by left|].
  cbn [xo_order_id]. rewrite <-Ex.
  destruct (cancel_agreed x l _ Hl) as (l' & El & Hl'); [by eapply mirrors_nodup|].
  exists l'. split; [done|]. rewrite Hl'. pose proof (Hm (oo_instrument_id o)) as Hi.
  rewrite Hl, Hos, ids_at_cons, decide_True in Hi by done. rewrite fmap_cons, Ex in Hi.
  by apply Permutation_cons_inv in Hi.
Qed.

Lemma modify_accepted seq t o os p q : o ∈ os → NoDup (oo_order_id <$> os) → 0 < p → q ≠ 0 →
  accepted (MModify (mkModifyOrder seq t (oo_order_id o) (oo_instrument_id o) p q)) os os.
Proof.
  intros Ho Hn Hp Hq. eapply accepted_op; [done|done|].
  intros arr Hm. destruct (mirrors_at o os arr Hm Ho) as (x & l & Hl & Ex).
  assert (NoDup (od_id <$> arrivals_of (oo_instrument_id o) arr)) as Hn' by by eapply mirrors_nodup.
  eexists. cbn [mo_order_id mo_instrument_id mo_new_price mo_new_quantity agreed OrderBook.spec_op].
  rewrite (proj2 (Z.leb_gt _ _)), (proj2 (Z.eqb_neq _ _)) by done.
  rewrite <-Ex, (found_of _ _ _ Hl Hn'). split; [done|]. rewrite fmap_app.
  rewrite (without_of _ _ _ Hl Hn'), <-(Hm _), Hl. symmetry. apply Permutation_cons_append.
Qed.

Lemma trade_accepted seq t i p q sd os : accepted (MTrade (mkTrade seq t i p q sd)) os os.
Proof. intros arr Hm. by split. Qed.

Lemma clear_accepted seq t id os :
  accepted (MClear (mkClearBook seq t id)) os (filter (λ o, oo_instrument_id o ≠ id) os).
Proof.
  assert (∀ i, ids_at i (filter (λ o, oo_instrument_id o ≠ id) os) = if decide (i = id) then [] else ids_at i os) as E.
  { intros i. unfold ids_at. induction os as [|o os IH]; [by case_decide|].
    rewrite !filter_cons. repeat case_decide; simplify_eq; rewrite ?filter_cons, ?decide_True, ?decide_False by done;
      rewrite ?fmap_cons; congruence || (by rewrite IH) || done. }
  eapply accepted_op; [done| |].
  { intros i Hi. by rewrite E, decide_False. }
  intros arr Hm. eexists. split; [done|]. cbn [cb_instrument_id]. by rewrite E, decide_True.
Qed.

(** ** The generator's state *)

Definition args_ok (a : Args) : Prop := 1 ≤ instruments a < 2 ^ 32 - 1 ∧ 0 ≤ orders a < 2 ^ 56.

(** No price is above it after [n] orders. *)
Definition price_bound (n : Z) : Z := 100000 + 2 ^ 32 * 1000 + 50 * n.

Definition is_add (ev : Event) : bool := match ev with MAdd _ => true | _ => false end.

Section generator.
Context {Rng : Type} (seeded : Z → Rng) (dist : IntType → Z → Z → Rng → Z * Rng).
Context (dist_range : ∀ T lo hi r, lo ≤ hi → lo ≤ (dist T lo hi r).1 ≤ hi).
Context (a : Args) (Ha : args_ok a).

Abbreviation State := (@State Rng).
Implicit Types (s : State) (seq : Z).

Record ok s : Prop := mkOk {
  ok_size : vsize (mid_price s) = instruments a + 1;
  ok_prices : ∀ i p, 1 ≤ i → vget (mid_price s) i = Some p → 100 ≤ p ≤ price_bound (adds_emitted s);
  ok_instruments : Forall (λ o, 1 ≤ oo_instrument_id o ≤ instruments a) (open_orders s);
  ok_unique : NoDup (oo_order_id <$> open_orders s);
  ok_fresh : Forall (λ o, 1 ≤ oo_order_id o < next_order_id s) (open_orders s);
  ok_next : next_order_id s = adds_emitted s + 1;
  ok_adds : 0 ≤ adds_emitted s ≤ orders a;
  ok_open : vsize (open_orders s) ≤ adds_emitted s;
  ok_seq : in_u64 (next_seq s);
  ok_time : in_u64 (timestamp s);
}.

Lemma ok_with_rng r s : ok s → ok (with_rng r s).
Proof. by intros []. Qed.

(** Fewer orders open. *)
Lemma ok_fewer os s : ok s → (∃ os', open_orders s ≡ₚ os ++ os') → ok (with_open_orders os s).
Proof.
  intros [] (os' & E). constructor; cbn; try done.
  - rewrite E in ok_instruments0. by apply Forall_app in ok_instruments0 as [? _].
  - rewrite E, fmap_app in ok_unique0. by apply NoDup_app in ok_unique0 as [? _].
  - rewrite E in ok_fresh0. by apply Forall_app in ok_fresh0 as [? _].
  - assert (vsize (open_orders s) = vsize os + vsize os'); [|unfold vsize in *; lia].
    unfold vsize. rewrite E, length_app. lia.
Qed.

(** ** Weakest preconditions of its parts *)

Lemma wp_drawn T lo hi s (Q : Z → State → list Event → Prop) : lo ≤ hi →
  (∀ x r, dist T lo hi (rng s) = (x, r) → lo ≤ x ≤ hi → Q x (with_rng r s) []) → wp (draw dist T lo hi) s Q.
Proof.
  intros Hle HQ. pose proof (dist_range T lo hi (rng s) Hle) as Hr.
  destruct (dist T lo hi (rng s)) as [x r] eqn:E.
  apply (wp_update _ _ x (with_rng r s)); [|by apply HQ].
  rewrite (proj2 (Z.leb_le _ _) Hle), E. done.
Qed.

Lemma wp_draw T lo hi s (Q : Z → State → list Event → Prop) : lo ≤ hi →
  (∀ x r, lo ≤ x ≤ hi → Q x (with_rng r s) []) → wp (draw dist T lo hi) s Q.
Proof. intros Hle HQ. apply wp_drawn; [done|]. intros x r _. apply HQ. Qed.

Lemma wp_side s (Q : Side → State → list Event → Prop) :
  (∀ sd r, Q sd (with_rng r s) []) → wp (draw_side dist) s Q.
Proof. intros HQ. apply wp_bind, wp_draw; [done|]. intros x r _. apply wp_ret, HQ. Qed.

Lemma wp_instrument s (Q : Z → State → list Event → Prop) :
  (∀ i r, 1 ≤ i ≤ instruments a → Q i (with_rng r s) []) → wp (instrument_dist dist a) s Q.
Proof. intros HQ. apply wp_draw; [destruct Ha; lia|done]. Qed.

Lemma wp_price s i (Q : Z → State → list Event → Prop) : ok s → 1 ≤ i ≤ instruments a →
  (∀ p, vget (mid_price s) i = Some p → 100 ≤ p ≤ price_bound (adds_emitted s) → Q p s []) → wp (price_of i) s Q.
Proof.
  intros Hs Hi HQ. destruct (vget_is_Some (mid_price s) i) as [p Hp]; [rewrite (ok_size s Hs); lia|].
  apply (wp_read _ _ p); [done|]. apply HQ; [done|]. apply (ok_prices s Hs i); [lia|done].
Qed.

Lemma price_fits s n : ok s → n ≤ price_bound (adds_emitted s) + 100 → -1000 ≤ n → in_i64 n.
Proof. intros [] Hn Hn'. destruct Ha. unfold in_i64, price_bound in *. lia. Qed.

Lemma wp_index s (Q : Z → State → list Event → Prop) : ok s → open_orders s ≠ [] →
  (∀ i o r, vget (open_orders s) i = Some o → Q i (with_rng r s) []) → wp (draw_index dist) s Q.
Proof.
  intros Hs Hne HQ. apply wp_bind, wp_get. destruct (open_orders s) as [|o0 os] eqn:Eo; [done|].
  assert (0 < vsize (open_orders s) < 2 ^ 56) as Hl.
  { pose proof (ok_open s Hs). pose proof (ok_adds s Hs). destruct Ha. rewrite Eo in *. unfold vsize in *. cbn [length] in *. lia. }
  rewrite <-Eo in *. rewrite u64_small by (unfold in_u64; lia).
  apply wp_draw; [lia|]. intros i r Hi. destruct (vget_is_Some (open_orders s) i) as [o Ho]; [lia|].
  by apply (HQ i o).
Qed.

(** ** A fair generator of random numbers *)

(** [luck] bounds the rolls left before one that makes an order: a roll that makes none
    decreases it, another draw does not increase it. *)
Record fair (luck : Rng → nat) : Prop := mkFair {
  fair_roll : ∀ r, 70 ≤ (dist Int 0 99 r).1 → (luck (dist Int 0 99 r).2 < luck r)%nat;
  fair_draw : ∀ T lo hi r, (T, lo, hi) ≠ (Int, 0, 99) → (luck (dist T lo hi r).2 ≤ luck r)%nat;
}.

Section fairness.
Context (luck : Rng → nat) (Hfair : fair luck).

(** It costs no luck. *)
Definition calm {A} (m : eff State Event A) : Prop := ∀ s x s' o,
  m s = Some (x, s', o) → (luck (rng s') ≤ luck (rng s))%nat.

Lemma calm_bind {A B} (m : eff State Event A) (f : A → eff State Event B) :
  calm m → (∀ x, calm (f x)) → calm (ebind m f).
Proof.
  intros Hm Hf s y s2 o. unfold ebind. destruct (m s) as [[[x s1] o1]|] eqn:E1; [|done].
  destruct (f x s1) as [[[y' s2'] o2]|] eqn:E2; [|done]. intros [= <- <- <-].
  specialize (Hm _ _ _ _ E1). specialize (Hf x _ _ _ _ E2). lia.
Qed.

Lemma calm_ret {A} (x : A) : calm (eret x).
Proof. by intros ???? [= <- <- <-]. Qed.

Lemma calm_get : calm eget.
Proof. by intros ???? [= <- <- <-]. Qed.

Lemma calm_read {A} (f : State → option A) : calm (eread f).
Proof. intros s ???. unfold eread. destruct (f s); [|done]. by intros [= <- <- <-]. Qed.

Lemma calm_modify f : (∀ s, rng (f s) = rng s) → calm (emodify f).
Proof. intros Hf ???? [= <- <- <-]. by rewrite Hf. Qed.

Lemma calm_update {A} (f : State → option (A * State)) :
  (∀ s x s', f s = Some (x, s') → (luck (rng s') ≤ luck (rng s))%nat) → calm (eupdate f).
Proof.
  intros Hf s ???. unfold eupdate. destruct (f s) as [[y s1]|] eqn:E; [|done]. intros [= <- <- <-]. by eapply Hf.
Qed.

Lemma calm_draw T lo hi : (T, lo, hi) ≠ (Int, 0, 99) → calm (draw dist T lo hi).
Proof.
  intros Hne. apply calm_update. intros s x s'. case_bool; [|done].
  pose proof (fair_draw luck Hfair T lo hi (rng s) Hne). destruct (dist T lo hi (rng s)) as [y r].
  by intros [= <- <-].
Qed.

Lemma calm_emit ev : calm (write ev).
Proof. by intros ???? [= <- <- <-]. Qed.

Lemma calm_set_price i p : calm (set_price i p).
Proof. apply calm_update. intros s x s'. destruct (vset _ _ _); [|done]. by intros [= <- <-]. Qed.

Lemma calm_index : calm (draw_index dist).
Proof. apply calm_bind; [apply calm_get|]. intros s. by apply calm_draw. Qed.

Ltac calm := repeat first
  [ apply calm_ret | apply calm_get | apply calm_read | apply calm_emit | apply calm_set_price | apply calm_index
  | by apply calm_draw | by apply calm_modify | apply calm_bind; [|intros] ].

Lemma calm_cancel seq : calm (emit_cancel dist seq).
Proof.
  unfold emit_cancel. calm. apply calm_update. intros s y s'. destruct (swap_remove _ _); [|done].
  by intros [= <- <-].
Qed.

Lemma calm_modify_order seq : calm (emit_modify dist seq).
Proof. unfold emit_modify, price_jitter_dist, quantity_dist, price_of. calm. Qed.

Lemma calm_trade seq : calm (emit_trade dist a seq).
Proof. unfold emit_trade, instrument_dist, draw_side, quantity_dist, price_of. calm. Qed.

Lemma calm_clear seq : calm (emit_clear dist a seq).
Proof. unfold emit_clear, instrument_dist. calm. Qed.

End fairness.

(** Whatever is fair. *)
Definition calm_always {A} (m : eff State Event A) : Prop := ∀ luck, fair luck → calm luck m.

Lemma wp_calm {A} (m : eff State Event A) s (Q : A → State → list Event → Prop) : calm_always m → wp m s Q →
  wp m s (λ x s' o, Q x s' o ∧ ∀ luck, fair luck → (luck (rng s') ≤ luck (rng s))%nat).
Proof.
  intros Hm (x & s' & o & E & HQ)%wp_elim. apply (wp_intro _ _ _ _ _ _ E). split; [done|].
  intros luck Hl. by apply (Hm luck Hl s x s' o).
Qed.

(** ** A turn of the loop *)

(** One message, in sequence, that a consumer accepts. *)
Definition emits (add : bool) seq s s' (out : list Event) : Prop := ∃ ev, out = [ev] ∧ ok s' ∧ event_typed ev ∧
  sequence_of ev = seq ∧ next_seq s' = next_seq s ∧ accepted ev (open_orders s) (open_orders s') ∧
  is_add ev = add ∧ adds_emitted s' = adds_emitted s + (if add then 1 else 0).

Lemma wp_set_price s i p (Q : unit → State → list Event → Prop) : ok s → 1 ≤ i ≤ instruments a →
  Q tt (with_mid_price (vput (mid_price s) i p) s) [] → wp (set_price i p) s Q.
Proof.
  intros Hs Hi HQ. apply (wp_update _ _ tt (with_mid_price (vput (mid_price s) i p) s)); [|done].
  rewrite vset_Some; [done|]. rewrite (ok_size s Hs). lia.
Qed.

(** The price that moved is positive and within the bound of one order more. *)
Lemma wp_jitter s i (Q : unit → State → list Event → Prop) : ok s → 1 ≤ i ≤ instruments a →
  (∀ p r, 100 ≤ p ≤ price_bound (adds_emitted s + 1) →
    Q tt (with_mid_price (vput (mid_price s) i p) (with_rng r s)) []) →
  wp (jitter_price dist i) s Q.
Proof.
  intros Hs Hi HQ. apply wp_bind, wp_draw; [done|]. intros j r Hj. set (s1 := with_rng r s).
  assert (ok s1) as Hs1 by by apply ok_with_rng.
  apply wp_bind, (wp_price s1); [done..|]. intros p Hp Hb. change (adds_emitted s1) with (adds_emitted s) in Hb.
  apply wp_bind, wp_set_price; [done..|].
  rewrite i64_small by (apply (price_fits s); [done|unfold price_bound in *; lia|lia]).
  set (s2 := with_mid_price _ s1). assert (0 ≤ i < vsize (mid_price s)) as Hr by (rewrite (ok_size s Hs); lia).
  apply wp_bind, (wp_read _ _ (p + j)); [by apply vget_vput_eq|]. destruct (Z.ltb_spec (p + j) 100).
  - apply (wp_update _ _ tt (with_mid_price (vput (mid_price s) i 100) s1)).
    + cbn [mid_price s2 s1 with_mid_price with_rng]. rewrite vset_Some by by rewrite vsize_vput.
      unfold vput. by rewrite list_insert_insert_eq.
    + apply HQ. destruct Hs. unfold price_bound. lia.
  - apply wp_ret, HQ. unfold price_bound in *. lia.
Qed.

Lemma wp_add seq s : ok s → in_u64 seq → adds_emitted s < orders a →
  wp (emit_add dist a seq) s (λ _, emits true seq s).
Proof.
  intros Hs Hseq Hmore. apply wp_bind, wp_instrument. intros i r1 Hi. apply wp_bind, wp_side. intros sd r2.
  apply wp_bind, wp_jitter; [by repeat apply ok_with_rng|done|]. intros p r3 Hp.
  apply wp_bind, wp_get. apply wp_bind, wp_modify. apply wp_bind, (wp_read _ _ p).
  { apply vget_vput_eq. cbn. rewrite (ok_size s Hs). lia. }
  apply wp_bind, wp_draw; [done|]. intros q r4 Hq. apply wp_bind, wp_emit, wp_bind, wp_modify, wp_modify.
  destruct Hs, Ha. eexists. split; [done|]. cbn in Hp |- *. rewrite !u64_small by (unfold in_u64; lia).
  split; [|split; [|split_and!; try done]].
  - constructor; cbn; rewrite ?u64_small by (unfold in_u64; lia).
    + by rewrite vsize_vput.
    + intros j p' Hj. rewrite vget_vput by lia. case_decide; [by intros [= <-]|].
      intros Hp'. specialize (ok_prices0 j p' Hj Hp'). unfold price_bound in *. lia.
    + apply Forall_app. split; [done|]. by constructor.
    + rewrite <-Permutation_cons_append. constructor; [|done].
      intros (o & E & Ho)%list_elem_of_fmap. rewrite Forall_forall in ok_fresh0. specialize (ok_fresh0 o Ho). cbn in E. lia.
    + apply Forall_app. split; [|constructor; [cbn; lia|done]]. apply (Forall_impl _ _ _ ok_fresh0). intros o Ho. cbn in Ho. lia.
    + lia.
    + lia.
    + rewrite vsize_snoc. lia.
    + done.
    + done.
  - unfold in_u64, in_u32, in_i64, price_bound in *. lia.
  - apply (add_accepted seq _ (mkOpenOrder i (next_order_id s))); [lia|lia|].
    intros (o & E & Ho)%list_elem_of_fmap. rewrite Forall_forall in ok_fresh0. specialize (ok_fresh0 o Ho). cbn in E. lia.
Qed.

(** What an open order is known to be. *)
Lemma open_order s o : ok s → o ∈ open_orders s →
  1 ≤ oo_instrument_id o ≤ instruments a ∧ in_u32 (oo_instrument_id o) ∧ in_u64 (oo_order_id o).
Proof.
  intros [] Ho. destruct Ha. rewrite Forall_forall in ok_instruments0, ok_fresh0.
  specialize (ok_instruments0 o Ho). specialize (ok_fresh0 o Ho). unfold in_u32, in_u64. lia.
Qed.

Lemma wp_cancel seq s : ok s → in_u64 seq → open_orders s ≠ [] →
  wp (emit_cancel dist seq) s (λ _, emits false seq s).
Proof.
  intros Hs Hseq Hne. apply wp_bind, wp_index; [done..|]. intros i o r Hi.
  apply wp_bind, (wp_read _ _ o); [done|]. destruct (swap_remove_perm _ _ _ Hi) as (os & Eos & Hos).
  apply wp_bind, (wp_update _ _ tt (with_open_orders os (with_rng r s))).
  { cbn [open_orders with_rng]. by rewrite Eos. }
  apply wp_bind, wp_get, wp_emit. eexists. split; [done|].
  split; [|split; [|split_and!; try done; [|cbn; lia]]].
  - apply ok_fewer; [by apply ok_with_rng|]. exists [o]. cbn. by rewrite Hos, <-Permutation_cons_append.
  - destruct (open_order s o) as (_ & ? & ?); [done|rewrite Hos; by left|]. by destruct Hs.
  - apply cancel_accepted; [done|apply Hs].
Qed.

Lemma wp_modify_order seq s : ok s → in_u64 seq → open_orders s ≠ [] →
  wp (emit_modify dist seq) s (λ _, emits false seq s).
Proof.
  intros Hs Hseq Hne. apply wp_bind, wp_index; [done..|]. intros i o r Hi.
  apply wp_bind, (wp_read _ _ o); [done|]. apply wp_bind, wp_draw; [done|]. intros j r2 Hj.
  assert (o ∈ open_orders s) as Ho.
  { apply vget_Some in Hi as [_ Hi]. by eapply list_elem_of_lookup_2. }
  destruct (open_order s o Hs Ho) as (Hinstr & H32 & H64).
  apply wp_bind, wp_price; [by repeat apply ok_with_rng|done|]. intros p Hp Hb. cbn in Hb.
  cbv beta zeta. rewrite i64_small by (apply (price_fits s); [done|lia|lia]). set (np := if p + j <? 100 then _ else _).
  assert (100 ≤ np ≤ price_bound (adds_emitted s) + 50) as Hnp.
  { subst np. destruct (Z.ltb_spec (p + j) 100); lia. }
  apply wp_bind, wp_draw; [done|]. intros q r3 Hq. apply wp_bind, wp_get, wp_emit. eexists. split; [done|].
  split; [|split; [|split_and!; try done; [|cbn; lia]]].
  - by repeat apply ok_with_rng.
  - assert (in_i64 np) by (apply (price_fits s); [done|lia|lia]).
    assert (in_u64 q) by (unfold in_u64; lia). by destruct Hs.
  - apply modify_accepted; [done|apply Hs|lia|lia].
Qed.

Lemma wp_trade seq s : ok s → in_u64 seq → wp (emit_trade dist a seq) s (λ _, emits false seq s).
Proof.
  intros Hs Hseq. apply wp_bind, wp_instrument. intros i r1 Hi. apply wp_bind, wp_side. intros sd r2.
  apply wp_bind, wp_price; [by repeat apply ok_with_rng|done|]. intros p Hp Hb. cbn in Hb.
  apply wp_bind, wp_draw; [done|]. intros q r3 Hq. apply wp_bind, wp_get, wp_emit. eexists. split; [done|].
  split; [|split; [|do 2 (split; [done|]); split; [apply trade_accepted|split; [done|cbn; lia]]]].
  - by repeat apply ok_with_rng.
  - assert (in_i64 p) by (apply (price_fits s); [done|lia|lia]). destruct Ha.
    assert (in_u64 q ∧ in_u32 i) as [] by (unfold in_u64, in_u32; lia). by destruct Hs.
Qed.

Lemma wp_clear seq s : ok s → in_u64 seq → wp (emit_clear dist a seq) s (λ _, emits false seq s).
Proof.
  intros Hs Hseq. apply wp_bind, wp_instrument. intros i r1 Hi. apply wp_bind, wp_get, wp_bind, wp_emit, wp_modify.
  eexists. split; [done|]. split; [|split; [|split_and!; try done; [|cbn; lia]]].
  - apply ok_fewer; [by apply ok_with_rng|]. eexists. symmetry. cbn. rewrite Permutation_app_comm.
    apply (filter_app_complement (λ o, oo_instrument_id o = i)).
  - destruct Ha. assert (in_u32 i) by (unfold in_u32; lia). by destruct Hs.
  - apply clear_accepted.
Qed.

(** What a turn does; one that makes no order costs luck. *)
Definition turns s s' (out : list Event) : Prop := ∃ ev, out = [ev] ∧ ok s' ∧ event_typed ev ∧
  sequence_of ev = next_seq s ∧ next_seq s' = u64 (next_seq s + 1) ∧ accepted ev (open_orders s) (open_orders s') ∧
  adds_emitted s' = adds_emitted s + (if is_add ev then 1 else 0) ∧
  (is_add ev = true ∨ ∀ luck, fair luck → (luck (rng s') < luck (rng s))%nat).

(** Before the switch. *)
Definition numbered s s1 : Prop := ok s1 ∧ open_orders s1 = open_orders s ∧
  adds_emitted s1 = adds_emitted s ∧ next_seq s1 = u64 (next_seq s + 1).

Lemma numbered_rng s s1 r : numbered s s1 → numbered s (with_rng r s1).
Proof. intros (H & H'). split; [by apply ok_with_rng|exact H']. Qed.

Lemma turn_adds s s1 (m : eff State Event unit) : numbered s s1 →
  wp m s1 (λ _, emits true (next_seq s) s1) → wp m s1 (λ _, turns s).
Proof.
  intros (H1 & H2 & H3 & H4). apply wp_mono. intros _ s' o (ev & -> & Hok & Ht & Hs & Hn & Hacc & Hadd & Hcount).
  exists ev. rewrite Hadd, <-H2, <-H3, <-H4. split_and!; try done. by left.
Qed.

Lemma turn_other s s1 (m : eff State Event unit) : numbered s s1 →
  (∀ luck, fair luck → (luck (rng s1) < luck (rng s))%nat) → calm_always m →
  wp m s1 (λ _, emits false (next_seq s) s1) → wp m s1 (λ _, turns s).
Proof.
  intros (H1 & H2 & H3 & H4) Hl Hm Hwp. apply (wp_calm m s1 _ Hm) in Hwp. revert Hwp. apply wp_mono.
  intros _ s' o [(ev & -> & Hok & Ht & Hs & Hn & Hacc & Hadd & Hcount) Hl'].
  exists ev. rewrite Hadd, <-H2, <-H3, <-H4. split_and!; try done. right. intros luck Hf.
  specialize (Hl luck Hf). specialize (Hl' luck Hf). lia.
Qed.

Lemma wp_event s : ok s → adds_emitted s < orders a → wp (emit_event dist a) s (λ _, turns s).
Proof.
  intros Hs Hmore. apply wp_bind, wp_drawn; [done|]. intros step r Er Hstep.
  apply wp_bind, wp_modify, wp_bind, wp_get, wp_bind, wp_modify. set (s1 := with_next_seq _ _).
  assert (numbered s s1) as H1.
  { split; [|done]. destruct Hs. constructor; try done; apply u64_range. }
  assert (in_u64 (next_seq s)) as Hseq by apply Hs.
  apply wp_bind. unfold pick_kind. apply wp_bind, wp_get. change (open_orders s1) with (open_orders s).
  destruct (open_orders s) as [|o0 os] eqn:Eo.
  - apply wp_ret, (turn_adds s); [done|]. apply wp_add; [apply H1|done|done].
  - apply wp_bind, wp_drawn; [done|]. intros roll kr Ek _. set (s2 := with_rng kr s1).
    assert (numbered s s2) as H2 by by apply numbered_rng.
    assert (ok s2) as Hs2 by apply H2. assert (open_orders s2 ≠ []) as Hne by (cbn; by rewrite Eo).
    apply wp_ret. destruct (Z.ltb_spec roll 70) as [|Hroll]; [by apply turn_adds; [|apply wp_add]|].
    assert (∀ luck, fair luck → (luck (rng s2) < luck (rng s))%nat) as Hl.
    { intros luck Hf. pose proof (fair_roll luck Hf (rng s1)) as Hr. rewrite Ek in Hr. specialize (Hr Hroll).
      pose proof (fair_draw luck Hf UInt64 1 1000 (rng s)) as Hd. rewrite Er in Hd. cbn in *. specialize (Hd ltac:(done)). lia. }
    destruct (roll <? 85); [apply turn_other; [done..|by intros ??; apply calm_cancel|by apply wp_cancel]|].
    destruct (roll <? 95); [apply turn_other; [done..|by intros ??; apply calm_modify_order|by apply wp_modify_order]|].
    destruct (roll <? 99); apply turn_other; try done.
    + by intros ??; apply calm_trade.
    + by apply wp_trade.
    + by intros ??; apply calm_clear.
    + by apply wp_clear.
Qed.

(** ** The loop *)

Definition adds_in (evs : list Event) : Z := vsize (filter (λ ev, is_add ev = true) evs).

Lemma adds_in_cons ev evs : adds_in (ev :: evs) = (if is_add ev then 1 else 0) + adds_in evs.
Proof. unfold adds_in, vsize. rewrite filter_cons. destruct (is_add ev); case_decide; done || (cbn [length]; lia). Qed.

(** The messages of some turns, from where a consumer is. *)
Record follow_up s s' (out : list Event) : Prop := mkFollowUp {
  fu_ok : ok s';
  fu_typed : Forall event_typed out;
  fu_sequence : ∀ v, follows v (next_seq s) = true → consecutive v out = true;
  fu_next : next_seq s' = u64 (next_seq s + vsize out);
  fu_adds : adds_emitted s' = adds_emitted s + adds_in out;
  fu_books : ∀ arr, mirrors (open_orders s) arr →
    unrefused out arr ∧ mirrors (open_orders s') (spec_events out arr);
}.

Lemma follow_up_nil s : ok s → follow_up s s [].
Proof.
  intros Hs. constructor; try done; [|unfold adds_in, vsize; simpl; lia].
  unfold vsize. rewrite Z.add_0_r, u64_small; [done|apply Hs].
Qed.

Lemma follow_up_cons s s1 s2 ev out : event_typed ev → sequence_of ev = next_seq s →
  next_seq s1 = u64 (next_seq s + 1) → accepted ev (open_orders s) (open_orders s1) →
  adds_emitted s1 = adds_emitted s + (if is_add ev then 1 else 0) →
  follow_up s1 s2 out → follow_up s s2 (ev :: out).
Proof.
  intros Ht Hseq Hn Hacc Hadds []. constructor; [done|by constructor| | | |].
  - intros v Hv. cbn [consecutive]. rewrite Hseq, Hv. apply fu_sequence0. rewrite Hn. unfold follows. apply Z.eqb_refl.
  - rewrite fu_next0, Hn. unfold vsize. cbn [length]. autorewrite with wrap. f_equal. lia.
  - rewrite fu_adds0, Hadds, adds_in_cons. lia.
  - intros arr Hm. destruct (Hacc arr Hm) as [He Hm1]. destruct (fu_books0 _ Hm1) as [Hu Hm2]. by split.
Qed.

Lemma generate_follows turns : ∀ s, ok s → ∃ ended s' out,
  generate dist turns a s = Some (ended, s', out) ∧ follow_up s s' out ∧
  (if ended : bool then adds_emitted s' = orders a else length out = turns).
Proof.
  induction turns as [|turns IH]; intros s Hs; cbn [generate]; unfold ebind at 1, eget at 1;
    destruct (Z.ltb_spec (adds_emitted s) (orders a)) as [Hm|Hm].
  - eexists _, _, _. split; [done|]. split; [by apply follow_up_nil|done].
  - eexists _, _, _. split; [done|]. split; [by apply follow_up_nil|]. pose proof (ok_adds s Hs). lia.
  - destruct (wp_elim _ _ _ (wp_event s Hs Hm)) as
      ([] & s1 & o1 & E1 & ev & -> & Hs1 & Ht & Hq & Hn & Hacc & Hadds & _).
    destruct (IH s1 Hs1) as (ended & s2 & out & E2 & Hf & Hend).
    exists ended, s2, (ev :: out). rewrite (ebind_run _ _ _ _ _ _ _ _ _ E1 E2). split; [done|].
    split; [by eapply follow_up_cons|]. destruct ended; [done|]. cbn [length]. lia.
  - eexists _, _, _. split; [done|]. split; [by apply follow_up_nil|]. pose proof (ok_adds s Hs). lia.
Qed.

(** It ends. *)
Lemma generate_ends luck : fair luck → ∀ s, ok s → ∃ turns s' out, generate dist turns a s = Some (true, s', out).
Proof.
  intros Hf s Hs. remember (Z.to_nat (orders a - adds_emitted s)) as n eqn:Hn. revert s Hs Hn.
  induction n as [n IHn] using lt_wf_ind. intros s Hs Hn.
  remember (luck (rng s)) as k eqn:Hk. revert s Hs Hn Hk. induction k as [k IHk] using lt_wf_ind. intros s Hs Hn Hk.
  destruct (Z.ltb_spec (adds_emitted s) (orders a)) as [Hm|Hm].
  2: { exists O, s, []. cbn [generate]. unfold ebind, eget. by rewrite (proj2 (Z.ltb_ge _ _) Hm). }
  destruct (wp_elim _ _ _ (wp_event s Hs Hm)) as
    ([] & s1 & o1 & E1 & ev & -> & Hs1 & Ht & Hq & Hnext & Hacc & Hadds & Hl).
  assert (∃ turns s' out, generate dist turns a s1 = Some (true, s', out)) as (turns & s' & out & E).
  { destruct (is_add ev).
    - apply (IHn (Z.to_nat (orders a - adds_emitted s1))); [lia|done|done].
    - destruct Hl as [|Hl]; [done|]. specialize (Hl luck Hf).
      apply (IHk (luck (rng s1))); [lia|done|rewrite Hadds, Z.add_0_r; done|done]. }
  exists (S turns), s', ([ev] ++ out). cbn [generate]. unfold ebind at 1, eget at 1.
  rewrite (proj2 (Z.ltb_lt _ _) Hm), (ebind_run _ _ _ _ _ _ _ _ _ E1 E). done.
Qed.

(** ** The start *)

Lemma fill_prices_ok fuel : ∀ i m, 1 ≤ i ≤ instruments a + 1 → vsize m = instruments a + 1 →
  (Z.to_nat (instruments a + 1 - i) < fuel)%nat →
  (∀ j p, 1 ≤ j < i → vget m j = Some p → 100 ≤ p ≤ price_bound 0) →
  ∃ m', fill_prices fuel a i m = Some m' ∧ vsize m' = instruments a + 1 ∧
    ∀ j p, 1 ≤ j → vget m' j = Some p → 100 ≤ p ≤ price_bound 0.
Proof.
  destruct Ha as [Hi Ho]. induction fuel as [|fuel IH]; intros i m Hir Hm Hf Hp; [lia|]. cbn [fill_prices].
  destruct (Z.leb_spec i (instruments a)) as [Hle|Hle].
  - rewrite vset_Some by lia. rewrite u32_small by (unfold in_u32; lia). apply IH; [lia|by rewrite vsize_vput|lia|].
    intros j p Hj. rewrite vget_vput by lia. case_decide; [|apply Hp; lia].
    intros [= <-]. unfold price_bound. lia.
  - exists m. split; [done|]. split; [done|]. intros j p Hj E. apply (Hp j p); [|done]. apply vget_lt in E. lia.
Qed.

Lemma start_ok : ∃ m, first_prices a = Some m ∧ ok (initial seeded a m).
Proof.
  pose proof Ha as [Hi Ho]. unfold first_prices. rewrite u32_small by (unfold in_u32; lia).
  destruct (fill_prices_ok (S (Z.to_nat (instruments a))) 1 (replicate (Z.to_nat (instruments a + 1)) 0)) as (m & E & Hm & Hp).
  - lia.
  - unfold vsize. rewrite length_replicate. lia.
  - lia.
  - intros; lia.
  - exists m. split; [done|]. constructor; cbn; try done; [constructor|lia].
Qed.

(** ** The file, replayed *)

Lemma prefix_all evs : ∀ v, consecutive v evs = true → Replay.in_order_prefix v (map inl evs) = evs.
Proof.
  induction evs as [|ev evs IH]; intros v; [done|]. cbn [consecutive map Replay.in_order_prefix].
  intros [-> Hc]%andb_true_iff. by rewrite IH.
Qed.

Lemma applied_counts evs : ∀ m arr st m' st', BookManager.Rep m arr → unrefused evs arr →
  in_u64 (BookManager.adds st) → BookManager.apply_events evs m st = Some (m', st') →
  BookManager.adds st' = u64 (BookManager.adds st + adds_in evs) ∧
  BookManager.book_errors st' = BookManager.book_errors st ∧ BookManager.Rep m' (spec_events evs arr).
Proof.
  induction evs as [|ev evs IH]; intros m arr st m' st' HR Hu Hst E.
  { injection E as <- <-. unfold adds_in, vsize. cbn. by rewrite Z.add_0_r, u64_small. }
  destruct Hu as [H1 Hu]. cbn [BookManager.apply_events spec_events] in *.
  destruct (BookManager.apply_event_refines ev m arr HR) as (m1 & E1 & HR1).
  rewrite E1, H1 in E. cbn [mbind option_bind] in E.
  assert (in_u64 (BookManager.adds (BookManager.count_event ev None st))) as Hst1.
  { destruct ev; first [apply u64_range|done]. }
  destruct (IH _ _ _ _ _ HR1 Hu Hst1 E) as (Ha1 & He & HR').
  split; [|split; [by rewrite He|done]]. rewrite Ha1, adds_in_cons. destruct ev; cbn; try done.
  autorewrite with wrap. f_equal. lia.
Qed.

Lemma replay_accepted evs : Forall event_typed evs → consecutive None evs = true → unrefused evs ∅ →
  ∃ o, run_replay (Some (EventFile.written evs)) default_options = Some o ∧ stopped_early o = false ∧
    BookManager.book_errors (stats o) = 0 ∧ BookManager.messages_processed (stats o) = u64 (vsize evs) ∧
    BookManager.adds (stats o) = u64 (adds_in evs) ∧ BookManager.Rep (books o) (spec_events evs ∅).
Proof.
  intros Ht Hc Hu. destruct (Replay.default_replay_prefix (EventFile.written evs)) as (o & st & E & Ea & Eco & Em & _ & Est).
  assert (EventFile.frames (EventFile.written evs) = map inl evs) as Ef.
  { rewrite <-(app_nil_r (EventFile.written evs)), (EventFile.frames_events evs [] Ht).
    rewrite (FileFrames.frames_end _ [] []), app_nil_r; done. }
  rewrite Ef, (prefix_all evs None Hc) in *. exists o.
  assert (in_u64 (BookManager.adds BookManager.no_stats)) as H0 by done.
  destruct (applied_counts evs _ ∅ _ _ _ BookManager.books_rep_empty Hu H0 Ea) as (Ha1 & He & HR).
  injection Eco as E1 E2 E3 E4 E5 E6. split; [done|]. split.
  { rewrite Est. apply bool_decide_false. rewrite length_map. lia. }
  split; [by rewrite E6, He|]. split; [done|]. split; [by rewrite E1, Ha1|done].
Qed.

Lemma books_listed m arr os id : BookManager.Rep m arr → mirrors os arr →
  od_id <$> BookViews.listed (BookManager.book_for id m) ≡ₚ ids_at id os.
Proof.
  intros HR Hm. rewrite <-(Hm id). apply fmap_Permutation, BookViews.same_queues_perm, BookViews.listed_queues.
  by apply SnapshotProps.stands_for_shows, BookManager.rep_book.
Qed.

End generator.

(** C31: what the feed generator writes is valid. Whatever it draws, for any number of
    turns of its loop, it never misuses its vectors or its distributions, and the file
    it has written so far, replayed by default, is taken whole: the replay does not stop,
    no book refuses a message, every order made is added, and the consumer's books hold
    exactly the orders that the generator has open. If its rolls are fair it ends, with
    the orders asked for. *)
Theorem generated_feed_is_valid {Rng : Type} (seeded : Z → Rng) dist stoull stoul opens argv a :
  (∀ T lo hi r, lo ≤ hi → lo ≤ (dist T lo hi r).1 ≤ hi) →
  args_ok a → parse_args stoull stoul argv = Some (Some a) → opens (output a) = true →
  (∀ n, ∃ ended m (s : @State Rng) evs o,
    first_prices a = Some m ∧ generate dist n a (initial seeded a m) = Some (ended, s, evs) ∧
    main seeded dist stoull stoul opens n argv = Some (if ended : bool
      then Wrote (EventFile.written evs) (u64 (vsize evs)) (orders a) else StillRunning (EventFile.written evs)) ∧
    run_replay (Some (EventFile.written evs)) default_options = Some o ∧ stopped_early o = false ∧
    BookManager.messages_processed (stats o) = u64 (vsize evs) ∧ BookManager.book_errors (stats o) = 0 ∧
    BookManager.adds (stats o) = adds_emitted s ∧
    ∀ id, od_id <$> BookViews.listed (BookManager.book_for id (books o)) ≡ₚ ids_at id (open_orders s)) ∧
  ∀ luck, fair dist luck → ∃ n file events,
    main seeded dist stoull stoul opens n argv = Some (Wrote file events (orders a)).
Proof.
  intros Hd Ha Hp Ho. destruct (start_ok seeded a Ha) as (m & Em & Hok).
  assert (∀ n ended s evs, generate dist n a (initial seeded a m) = Some (ended, s, evs) →
    follow_up a (initial seeded a m) s evs → (ended = true → adds_emitted s = orders a) →
    main seeded dist stoull stoul opens n argv = Some (if ended : bool
      then Wrote (EventFile.written evs) (u64 (vsize evs)) (orders a) else StillRunning (EventFile.written evs))) as Hmain.
  { intros n ended s evs Eg Hf Hend. unfold main. rewrite Hp, Ho. cbn [negb]. rewrite Em, Eg. destruct ended; [|done].
    rewrite Hend, (fu_next _ _ _ _ Hf) by done. cbn [initial next_seq]. do 2 f_equal. autorewrite with wrap. f_equal. lia. }
  split.
  - intros n. destruct (generate_follows dist Hd a Ha n _ Hok) as (ended & s & evs & Eg & Hf & Hend).
    destruct (fu_books _ _ _ _ Hf ∅) as [Hu Hm]; [apply mirrors_empty|].
    destruct (replay_accepted evs (fu_typed _ _ _ _ Hf) (fu_sequence _ _ _ _ Hf None eq_refl) Hu)
      as (o & Er & Hst & He & Hmp & Hadds & HR).
    exists ended, m, s, evs, o. do 2 (split; [done|]).
    split; [apply (Hmain n ended s evs Eg Hf); by intros ->|]. do 4 (split; [done|]). split; [|intros id; by eapply books_listed].
    rewrite Hadds. pose proof (fu_adds _ _ _ _ Hf) as Hc. cbn [initial adds_emitted] in Hc.
    rewrite Z.add_0_l in Hc. rewrite <-Hc. apply u64_small.
    pose proof (ok_adds _ _ (fu_ok _ _ _ _ Hf)). destruct Ha. unfold in_u64. lia.
  - intros luck Hl. destruct (generate_ends dist Hd a Ha luck Hl _ Hok) as (n & s & evs & Eg).
    destruct (generate_follows dist Hd a Ha n _ Hok) as (ended & s' & evs' & Eg' & Hf & Hend).
    rewrite Eg in Eg'. injection Eg' as <- <- <-. exists n. do 2 eexists. by apply (Hmain n true s evs).
Qed.

(** A generator that rolls an order, then none four times, then an order again. *)
Inductive toy := T0 | T1 | T2 | T3 | T4.

Definition toy_dist (T : IntType) (lo hi : Z) (r : toy) : Z * toy :=
  match T, lo =? 0, hi =? 99 with
  | Int, true, true =>
      match r with T0 => (10, T1) | T1 => (75, T2) | T2 => (90, T3) | T3 => (97, T4) | T4 => (99, T0) end
  | _, _, _ => (lo, r)
  end.

Definition toy_luck (r : toy) : nat := match r with T0 => 0 | T1 => 4 | T2 => 3 | T3 => 2 | T4 => 1 end.

Lemma toy_range T lo hi r : lo ≤ hi → lo ≤ (toy_dist T lo hi r).1 ≤ hi.
Proof.
  unfold toy_dist. intros. destruct T, (Z.eqb_spec lo 0), (Z.eqb_spec hi 99); try destruct r; cbn; lia.
Qed.

Lemma toy_fair : fair toy_dist toy_luck.
Proof.
  constructor; [intros []; cbn; lia|]. intros T lo hi r Hne. unfold toy_dist.
  destruct T, (Z.eqb_spec lo 0), (Z.eqb_spec hi 99); subst; done.
Qed.

Definition toy_argv : list string := ["--output"; "events.bin"; "--orders"; "3"; "--instruments"; "2"]%string.

Definition toy_args : Args := mkArgs "events.bin" 3 42 2.

(** The numbers of [toy_argv]. *)
Definition toy_parse (v : string) : option Z :=
  if bool_decide (v = "3"%string) then Some 3 else if bool_decide (v = "2"%string) then Some 2 else None.

Lemma generated_feed_is_valid_witness :
  (∀ T lo hi r, lo ≤ hi → lo ≤ (toy_dist T lo hi r).1 ≤ hi) ∧ args_ok toy_args ∧
  parse_args toy_parse toy_parse toy_argv = Some (Some toy_args) ∧ fair toy_dist toy_luck ∧
  ∃ n file events, main (λ _, T0) toy_dist toy_parse toy_parse (λ _, true) n toy_argv =
    Some (Wrote file events 3).
Proof.
  assert (args_ok toy_args) as Ha by (split; simpl; lia).
  split; [exact toy_range|]. split; [exact Ha|]. split; [vm_compute; reflexivity|]. split; [exact toy_fair|].
  exact (proj2 (generated_feed_is_valid (λ _, T0) toy_dist toy_parse toy_parse (λ _, true) toy_argv toy_args
    toy_range Ha eq_refl eq_refl) toy_luck toy_fair).
Defined.

(** Here every kind of message is written. *)
Lemma toy_run : ∃ file, main (λ _, T0) toy_dist toy_parse toy_parse (λ _, true) 8 toy_argv = Some (Wrote file 7 3).
Proof. eexists. vm_compute. reflexivity. Qed.

(** [--instruments 4294967295], and [-1], which [std::stoul] takes: the vector of prices
    has no element, and the first price is written outside of it. *)
Lemma too_many_instruments {Rng : Type} (seeded : Z → Rng) dist stoull stoul opens argv a n :
  parse_args stoull stoul argv = Some (Some a) → opens (output a) = true → instruments a = 2 ^ 32 - 1 →
  main seeded dist stoull stoul opens n argv = None.
Proof.
  intros Hp Ho Hi. unfold main. rewrite Hp, Ho. cbn [negb]. unfold first_prices.
  assert (u32 (instruments a + 1) = 0) as -> by by rewrite Hi. cbn [fill_prices].
  destruct (Z.leb_spec 1 (instruments a)); [done|lia].
Qed.

End FeedGeneratorProps.
