(* ===== verification/Workload.v ===== *)
(** * The workload of the benchmarks and the stress tests

    Its random numbers (Module SplitMix64, with the proof that a bounded draw ends and is
    unbiased), its index of the live orders and the depth it tracks (Modules LiveIndex and
    DepthTracker), and the generator (Modules Scenarios and Workload). *)

From S2P Require Import Prelude Types MatchingBook BookSpec Effects MatchingEngine FeedGenerator.

(** * The workload's random numbers ([exchange/testing/matching_workload.hpp])

    [SplitMix64] is a counter that steps by an odd constant, and a mixing function of its
    value. The mixing is a bijection on words and the counter visits every word, so within
    2^64 turns every word is drawn once: [below] ends, and favours no value. *)

(** ** Loops with a number of turns in binary *)

Section turns.
Context {S R : Type} (body : S → S + R).

(** At most [p] turns; [inl] where they were not enough. *)
Fixpoint repeat_until (p : positive) (s : S) : S + R :=
  match p with
  | xH => body s
  | xO p => match repeat_until p s with inl s => repeat_until p s | inr r => inr r end
  | xI p =>
      match body s with
      | inl s => match repeat_until p s with inl s => repeat_until p s | inr r => inr r end
      | inr r => inr r
      end
  end.

Fixpoint repeat_nat (n : nat) (s : S) : S + R :=
  match n with
  | O => inl s
  | Datatypes.S n => match body s with inl s => repeat_nat n s | inr r => inr r end
  end.

Lemma repeat_nat_add m n : ∀ s, repeat_nat (m + n) s =
  match repeat_nat m s with inl s => repeat_nat n s | inr r => inr r end.
Proof. induction m as [|m IH]; intros s; [done|]. simpl. destruct (body s); [apply IH|done]. Qed.

Lemma repeat_until_nat p : ∀ s, repeat_until p s = repeat_nat (Pos.to_nat p) s.
Proof.
  induction p as [p IH|p IH|]; intros s; cbn [repeat_until].
  - rewrite Pos2Nat.inj_xI. replace (2 * Pos.to_nat p)%nat with (Pos.to_nat p + Pos.to_nat p)%nat by lia.
    cbn [repeat_nat]. destruct (body s) as [s'|r]; [|done].
    rewrite repeat_nat_add, IH. destruct (repeat_nat _ _); [apply IH|done].
  - rewrite Pos2Nat.inj_xO. replace (2 * Pos.to_nat p)%nat with (Pos.to_nat p + Pos.to_nat p)%nat by lia.
    rewrite repeat_nat_add, IH. destruct (repeat_nat _ _); [apply IH|done].
  - simpl. by destruct (body s).
Qed.
End turns.

Module SplitMix64.

(** [state_] *)
Abbreviation t := Z (only parsing).

Definition gamma : Z := 0x9E3779B97F4A7C15.

(** [z ^ (z >> k)] *)
Definition xorshift (k z : Z) : Z := Z.lxor z (Z.shiftr z k).

Definition mix (z : Z) : Z :=
  let z := u64 (xorshift 30 z * 0xBF58476D1CE4E5B9) in
  let z := u64 (xorshift 27 z * 0x94D049BB133111EB) in
  xorshift 31 z.

Definition next (state : t) : Z * t := let state := u64 (state + gamma) in (mix state, state).

Definition reject_below (bound : Z) : Z := u64 (2 ^ 64 - 1 - bound + 1) mod bound.

(** One draw of [below], and whether it is good. *)
Definition draw_once (bound : Z) (state : t) : t + Z * t :=
  let '(draw, state) := next state in
  if draw <? reject_below bound then inl state else inr (draw mod bound, state).

(** [None] would be a loop that has not ended after 2^64 turns. *)
Definition below (bound : Z) (state : t) : option (Z * t) :=
  if bound <=? 1 then Some (0, state)
  else match repeat_until (draw_once bound) (2 ^ 64) state with inr r => Some r | inl _ => None end.

Definition between (low high : Z) (state : t) : option (Z * t) :=
  if high <=? low then Some (low, state)
  else '(x, state) ← below (u64 (high - low + 1)) state; Some (u64 (low + x), state).

(** ** The mixing is a bijection *)

Lemma lxor_u64 x y : in_u64 x → in_u64 y → in_u64 (Z.lxor x y).
Proof.
  unfold in_u64. intros Hx Hy. assert (0 ≤ Z.lxor x y) by (apply Z.lxor_nonneg; lia). split; [done|].
  destruct (Z.eq_dec (Z.lxor x y) 0) as [->|Hne]; [lia|]. apply Z.log2_lt_pow2; [lia|].
  eapply Z.le_lt_trans; [apply Z.log2_lxor; lia|].
  assert (∀ z, 0 ≤ z < 2 ^ 64 → Z.log2 z < 64) as Hlog.
  { intros z Hz. destruct (Z.eq_dec z 0) as [->|]; [done|]. apply Z.log2_lt_pow2; lia. }
  apply Z.max_lub_lt; by apply Hlog.
Qed.

Lemma shiftr_u64 x k : 0 ≤ k → in_u64 x → in_u64 (Z.shiftr x k).
Proof.
  unfold in_u64. intros Hk Hx. rewrite Z.shiftr_div_pow2 by done. pose proof (Z.pow_pos_nonneg 2 k ltac:(lia) Hk).
  split; [apply Z.div_pos; lia|]. apply Z.div_lt_upper_bound; [done|]. nia.
Qed.

Lemma xorshift_u64 k z : 0 ≤ k → in_u64 z → in_u64 (xorshift k z).
Proof. intros. by apply lxor_u64; [|apply shiftr_u64]. Qed.

(** What undoes it, for a shift of at least 22. *)
Definition unxorshift (k z : Z) : Z := Z.lxor (Z.lxor z (Z.shiftr z k)) (Z.shiftr z (2 * k)).

Lemma shiftr_zero z k : in_u64 z → 64 ≤ k → Z.shiftr z k = 0.
Proof.
  intros [Hz Hz'] Hk. rewrite Z.shiftr_div_pow2 by lia. apply Z.div_small.
  pose proof (Z.pow_le_mono_r 2 64 k). lia.
Qed.

(** Equal bit by bit. *)
Ltac xor_bits :=
  apply Z.bits_inj'; intros ? _; rewrite ?Z.lxor_spec, ?Z.bits_0;
  repeat match goal with |- context [Z.testbit ?x ?n] => destruct (Z.testbit x n) end; done.

Lemma unxorshift_xorshift k z : 22 ≤ k → in_u64 z → unxorshift k (xorshift k z) = z.
Proof.
  intros Hk Hz. unfold unxorshift, xorshift. rewrite !Z.shiftr_lxor, !Z.shiftr_shiftr by lia.
  replace (k + k) with (2 * k) by lia. rewrite (shiftr_zero z (k + 2 * k)) by (done || lia). xor_bits.
Qed.

Lemma xorshift_unxorshift k z : 22 ≤ k → in_u64 z → xorshift k (unxorshift k z) = z.
Proof.
  intros Hk Hz. unfold unxorshift, xorshift. rewrite !Z.shiftr_lxor, !Z.shiftr_shiftr by lia.
  replace (k + k) with (2 * k) by lia. rewrite (shiftr_zero z (2 * k + k)) by (done || lia). xor_bits.
Qed.

Lemma unxorshift_u64 k z : 0 ≤ k → in_u64 z → in_u64 (unxorshift k z).
Proof. intros. repeat apply lxor_u64; try apply shiftr_u64; done || lia. Qed.

(** Multiplication by an odd constant, undone. *)
Lemma multiply_back c c' z : u64 (c * c') = 1 → in_u64 z → u64 (u64 (z * c) * c') = z.
Proof.
  unfold u64. intros Hc Hz. rewrite Z.mul_mod_idemp_l, <-Z.mul_assoc, <-Z.mul_mod_idemp_r, Hc by done.
  rewrite Z.mul_1_r. by apply Z.mod_small.
Qed.

Definition unmix (z : Z) : Z :=
  let z := u64 (unxorshift 31 z * 3573116690164977347) in
  let z := u64 (unxorshift 27 z * 10871156337175269513) in
  unxorshift 30 z.

Lemma mix_unmix z : in_u64 z → mix (unmix z) = z.
Proof.
  intros Hz. unfold mix, unmix. cbv zeta. rewrite (xorshift_unxorshift 30), multiply_back,
    (xorshift_unxorshift 27), multiply_back, (xorshift_unxorshift 31); try done; try lia;
    repeat first [apply unxorshift_u64; [lia|]|apply u64_range|done].
Qed.

Lemma unmix_mix z : in_u64 z → unmix (mix z) = z.
Proof.
  intros Hz. unfold mix, unmix. cbv zeta. rewrite (unxorshift_xorshift 31), multiply_back,
    (unxorshift_xorshift 27), multiply_back, (unxorshift_xorshift 30); try done; try lia;
    repeat first [apply xorshift_u64; [lia|]|apply u64_range|done].
Qed.

Lemma mix_u64 z : in_u64 (mix z).
Proof. apply xorshift_u64; [done|apply u64_range]. Qed.

Lemma unmix_u64 z : in_u64 z → in_u64 (unmix z).
Proof. intros. apply unxorshift_u64; [done|apply u64_range]. Qed.

(** The state before, and the one that draws a word. *)
Definition drawing (w : Z) : Z := u64 (unmix w - gamma).

Lemma next_drawing w : in_u64 w → next (drawing w) = (w, unmix w).
Proof.
  intros Hw. unfold next, drawing. rewrite u64_add_idemp_l, Z.sub_add, u64_small by by apply unmix_u64.
  by rewrite mix_unmix.
Qed.

Lemma drawing_next s : in_u64 s → drawing (next s).1 = s.
Proof.
  intros Hs. unfold next, drawing. cbn [fst]. rewrite unmix_mix by apply u64_range.
  rewrite u64_sub_idemp_l. replace (s + gamma - gamma) with s by lia. by apply u64_small.
Qed.

Lemma next_u64 s : in_u64 (next s).1 ∧ in_u64 (next s).2.
Proof. split; [apply mix_u64|apply u64_range]. Qed.

(** ** Every word is drawn *)

(** The state after [n] draws. *)
Definition after (n s : Z) : t := u64 (s + n * gamma).

Lemma after_reaches s s' : in_u64 s' → ∃ n, in_u64 n ∧ after n s = s'.
Proof.
  intros Hs'. exists (u64 ((s' - s) * 17428512612931826493)). split; [apply u64_range|]. unfold after, u64.
  rewrite <-Zplus_mod_idemp_r, Z.mul_mod_idemp_l, <-Z.mul_assoc, <-Z.mul_mod_idemp_r by done.
  replace ((17428512612931826493 * gamma) mod 2 ^ 64) with 1 by done.
  rewrite Z.mul_1_r, Zplus_mod_idemp_r. replace (s + (s' - s)) with s' by lia. by apply Z.mod_small.
Qed.

Lemma draw_once_cases bound s : 0 < bound →
  (∃ s', draw_once bound s = inl s' ∧ s' = (next s).2) ∨
  ∃ r, draw_once bound s = inr (r, (next s).2) ∧ 0 ≤ r < bound.
Proof.
  intros Hb. unfold draw_once. destruct (next s) as [d s']. cbn [snd]. case_bool; [left; eauto|right].
  eexists. split; [done|]. by apply Z.mod_pos_bound.
Qed.

(** Some draw ends the loop. *)
Lemma draws_end bound n : 0 < bound → ∀ s,
  (∃ k, 0 ≤ k < Z.of_nat n ∧ reject_below bound ≤ (next (after k s)).1) → in_u64 s →
  ∃ r s', repeat_nat (draw_once bound) n s = inr (r, s') ∧ 0 ≤ r < bound ∧ in_u64 s'.
Proof.
  intros Hb. induction n as [|n IH]; intros s (k & Hk & Hd) Hs; [lia|]. cbn [repeat_nat].
  destruct (draw_once_cases bound s Hb) as [(s' & E & Hs')|(r & E & Hr)]; rewrite E.
  2: { exists r, (next s).2. split; [done|]. split; [done|apply next_u64]. }
  assert (after 0 s = s) as E0 by (unfold after; rewrite Z.mul_0_l, Z.add_0_r; by apply u64_small).
  assert (after 1 s = (next s).2) as E1 by (unfold after, next; by rewrite Z.mul_1_l).
  apply IH; [|rewrite Hs'; apply next_u64]. exists (k - 1). destruct (Z.eq_dec k 0) as [->|Hk0].
  - rewrite E0 in Hd. unfold draw_once in E. destruct (next s) as [d s1]. cbn [fst] in Hd.
    rewrite (proj2 (Z.ltb_ge _ _)) in E by done. done.
  - split; [lia|]. rewrite Hs', <-E1. replace (after (k - 1) (after 1 s)) with (after k s); [done|].
    unfold after. rewrite u64_add_idemp_l. f_equal. lia.
Qed.

Lemma reject_below_eq bound : 0 < bound < 2 ^ 64 → reject_below bound = 2 ^ 64 mod bound.
Proof.
  intros Hb. unfold reject_below. replace (2 ^ 64 - 1 - bound + 1) with (2 ^ 64 - bound) by lia.
  rewrite u64_small by (unfold in_u64; lia). rewrite <-(Z_mod_plus_full (2 ^ 64 - bound) 1 bound). f_equal. lia.
Qed.

Lemma below_total bound s : 0 ≤ bound < 2 ^ 64 → in_u64 s →
  ∃ r s', below bound s = Some (r, s') ∧ 0 ≤ r ∧ (r < bound ∨ r = 0) ∧ in_u64 s'.
Proof.
  intros Hb Hs. unfold below. destruct (Z.leb_spec bound 1); [exists 0, s; split_and!; lia || auto|].
  rewrite repeat_until_nat. destruct (after_reaches s (drawing (2 ^ 64 - 1))) as (k & Hk & Ek); [apply u64_range|].
  destruct (draws_end bound (Pos.to_nat (2 ^ 64)) ltac:(lia) s) as (r & s' & -> & Hr & Hs'); [|done|].
  - exists k. split; [rewrite positive_nat_Z; exact Hk|]. rewrite Ek, next_drawing by (unfold in_u64; lia). cbn [fst].
    rewrite reject_below_eq by lia. pose proof (Z.mod_pos_bound (2 ^ 64) bound). lia.
  - exists r, s'. split_and!; lia || auto.
Qed.

Lemma between_total low high s : in_u64 low → in_u64 high → low ≤ high → in_u64 s →
  ∃ x s', between low high s = Some (x, s') ∧ low ≤ x ≤ high ∧ in_u64 s'.
Proof.
  unfold in_u64 at 1 2. intros Hl Hh Hle Hs. unfold between. destruct (Z.leb_spec high low).
  { exists low, s. split_and!; lia || done. }
  destruct (below_total (u64 (high - low + 1)) s) as (r & s' & -> & Hr & Hr' & Hs'); [apply u64_range|done|].
  cbn [mbind option_bind]. exists (u64 (low + r)), s'. split; [done|]. split; [|done].
  assert (0 ≤ r ≤ high - low) as Hrr.
  { destruct Hr' as [Hr'| ->]; [|lia]. unfold u64 in Hr'. destruct (Z.eq_dec (high - low + 1) (2 ^ 64)) as [E|E].
    - rewrite E, Z.mod_same in Hr' by done. lia.
    - rewrite Z.mod_small in Hr' by lia. lia. }
  rewrite u64_small by (unfold in_u64; lia). lia.
Qed.

(** ** No value is favoured *)

(** The states whose next draw is good, and comes out as [r]. *)
Definition gives (bound r s : Z) : bool :=
  match draw_once bound s with inr (x, _) => x =? r | inl _ => false end.

Lemma elem_of_words w n : w ∈ seqZ 0 n ↔ 0 ≤ w < n.
Proof. rewrite elem_of_seqZ. lia. Qed.

(** As words, the draws of all states are all words. *)
Lemma draws_permute n : n = 2 ^ 64 → (λ s, (next s).1) <$> seqZ 0 n ≡ₚ seqZ 0 n.
Proof.
  intros Hn. apply NoDup_Permutation; [|apply NoDup_seqZ|].
  - apply NoDup_fmap_2_strong; [|apply NoDup_seqZ]. intros x y Hx%elem_of_words Hy%elem_of_words E.
    rewrite <-(drawing_next x), <-(drawing_next y), E by (unfold in_u64; lia). done.
  - intros w. rewrite elem_of_words, list_elem_of_fmap. setoid_rewrite elem_of_words. split.
    + intros (s & -> & _). rewrite Hn. apply next_u64.
    + intros Hw. exists (drawing w). rewrite next_drawing by (unfold in_u64; lia).
      split; [done|]. rewrite Hn. apply u64_range.
Qed.

Lemma one_residue b r m : 0 ≤ r < b → length (filter (λ d, d mod b = r) (seqZ m b)) = 1%nat.
Proof.
  intros Hr. assert (filter (λ d, d mod b = r) (seqZ m b) ≡ₚ [m + (r - m) mod b]) as ->; [|done].
  assert (0 ≤ (r - m) mod b < b) as Hb by (apply Z.mod_pos_bound; lia).
  assert ((m + (r - m) mod b) mod b = r) as E.
  { rewrite Zplus_mod_idemp_r. replace (m + (r - m)) with r by lia. by apply Z.mod_small. }
  apply NoDup_Permutation; [apply NoDup_filter, NoDup_seqZ|apply NoDup_singleton|].
  intros d. rewrite list_elem_of_filter, elem_of_seqZ, list_elem_of_singleton. split; [|by intros ->; split; [done|lia]].
  intros [Ed Hd]. assert (m ≤ m + (r - m) mod b < m + b) as Hd' by lia. set (d' := m + (r - m) mod b) in *.
  assert ((d - d') mod b = 0) as Hz by (rewrite Zminus_mod, Ed, E, Z.sub_diag; done).
  apply Z.mod_divide in Hz as [q Hq]; [|lia]. assert (q = 0) by nia. lia.
Qed.

Lemma residues b r n : 0 ≤ r < b → ∀ m, length (filter (λ d, d mod b = r) (seqZ m (Z.of_nat n * b))) = n.
Proof.
  intros Hr. induction n as [|n IH]; intros m; [done|].
  replace (Z.of_nat (S n) * b) with (b + Z.of_nat n * b) by lia.
  assert (0 ≤ Z.of_nat n * b) by (apply Z.mul_nonneg_nonneg; lia).
  rewrite seqZ_app by lia. by rewrite filter_app, length_app, (one_residue b r m Hr), IH.
Qed.

Lemma gives_spec bound r s : gives bound r s = true ↔
  reject_below bound ≤ (next s).1 ∧ (next s).1 mod bound = r.
Proof.
  unfold gives, draw_once. destruct (next s) as [d s']. cbn [fst].
  destruct (Z.ltb_spec d (reject_below bound)); [split; [done|lia]|]. rewrite Z.eqb_eq. tauto.
Qed.

Lemma draws_counted bound r n : 1 < bound < 2 ^ 64 → 0 ≤ r < bound → n = 2 ^ 64 →
  length (filter (λ s, gives bound r s = true) (seqZ 0 n)) = Z.to_nat (2 ^ 64 / bound).
Proof.
  intros Hb Hr Hn. pose proof (reject_below_eq bound ltac:(lia)) as Erej.
  pose proof (Z.mod_pos_bound (2 ^ 64) bound ltac:(lia)) as Hrej. rewrite <-Erej in Hrej.
  pose proof (Z.div_mod (2 ^ 64) bound ltac:(lia)) as Hdiv. rewrite <-Erej in Hdiv.
  pose proof (Z.div_pos (2 ^ 64) bound ltac:(lia) ltac:(lia)) as Hq.
  set (rej := reject_below bound) in *. set (P := λ d, rej ≤ d ∧ d mod bound = r).
  transitivity (length (filter P ((λ s, (next s).1) <$> seqZ 0 n))).
  { induction (seqZ 0 n) as [|s l IH]; [done|]. rewrite fmap_cons, !filter_cons.
    pose proof (gives_spec bound r s) as Hs. fold rej in Hs.
    unfold P in *. repeat case_decide; cbn [length]; [by rewrite IH|tauto|tauto|done]. }
  rewrite (draws_permute n Hn). replace n with (rej + (n - rej)) by lia.
  rewrite seqZ_app, filter_app, length_app by lia.
  assert (filter P (seqZ 0 rej) = []) as ->.
  { apply filter_none. intros d Hd%elem_of_words [Hd' _]. lia. }
  unfold P. rewrite <-list_filter_filter.
  assert (n - rej = Z.of_nat (Z.to_nat (2 ^ 64 / bound)) * bound) as -> by lia.
  rewrite filter_all; [by rewrite residues|]. intros d [_ Hd%elem_of_seqZ]%list_elem_of_filter. lia.
Qed.

(** C32: the bounded draw ends, and is unbiased. From every state [below] returns a value
    below its bound within 2^64 draws, because the generator draws every word within so
    many; and of all 2^64 states as many give one value as give any other, the rest being
    those whose draw is rejected. *)
Theorem below_is_unbiased bound : 1 < bound < 2 ^ 64 →
  (∀ s, in_u64 s → ∃ r s', below bound s = Some (r, s') ∧ 0 ≤ r < bound ∧ in_u64 s') ∧
  (∀ r, 0 ≤ r < bound →
    length (filter (λ s, gives bound r s = true) (seqZ 0 (2 ^ 64))) = Z.to_nat (2 ^ 64 / bound)) ∧
  ∀ w, in_u64 w → ∃ s, in_u64 s ∧ (next s).1 = w ∧ ∀ s', in_u64 s' → (next s').1 = w → s' = s.
Proof.
  intros Hb. split; [|split].
  - intros s Hs. destruct (below_total bound s ltac:(lia) Hs) as (r & s' & E & H0 & Hr & Hs').
    exists r, s'. split; [done|]. split; [lia|done].
  - intros r Hr. by apply draws_counted.
  - intros w Hw. exists (drawing w). split; [apply u64_range|]. split; [by rewrite next_drawing|].
    intros s' Hs' <-. by rewrite drawing_next.
Qed.

Lemma below_is_unbiased_witness : 1 < 100 < 2 ^ 64 ∧
  ∃ r s', below 100 42 = Some (r, s') ∧ 0 ≤ r < 100 ∧ in_u64 s'.
Proof. split; [done|]. apply (below_is_unbiased 100); done. Defined.

(** [between(0, 2^64 - 1)]: the number of values wraps to none, and it is always 0. *)
Lemma between_all_words s : between 0 (2 ^ 64 - 1) s = Some (0, s).
Proof. done. Qed.

End SplitMix64.

(** * What the workload generator knows of the book ([exchange/testing/matching_workload.hpp])

    [LiveOrderIndex]: a vector of the orders that rest, and the position of each by its
    exchange id; erasing moves the last one into the gap. [DepthTracker]: how many orders
    there are at each price, a map per instrument and side. *)

Module LiveIndex.

Record LiveOrderRecord := mkRecord {
  lr_exchange_order_id : ExchangeOrderId;
  lr_client_order_id : ClientOrderId;
  lr_account_id : AccountId;
  lr_instrument_id : InstrumentId;
  lr_side : Side;
  lr_price : Price;
  lr_remaining_quantity : Quantity;
}.

Definition with_remaining (q : Quantity) (r : LiveOrderRecord) : LiveOrderRecord :=
  mkRecord (lr_exchange_order_id r) (lr_client_order_id r) (lr_account_id r) (lr_instrument_id r)
    (lr_side r) (lr_price r) q.

Definition with_client (c : ClientOrderId) (r : LiveOrderRecord) : LiveOrderRecord :=
  mkRecord (lr_exchange_order_id r) c (lr_account_id r) (lr_instrument_id r)
    (lr_side r) (lr_price r) (lr_remaining_quantity r).

(** ** [LiveOrderIndex] *)

Record t := mk {
  records_ : list LiveOrderRecord;
  position_ : gmap ExchangeOrderId Z;
}.

Definition empty : t := mk [] ∅.

Definition insert (record : LiveOrderRecord) (x : t) : t :=
  mk (records_ x ++ [record]) (<[lr_exchange_order_id record := vsize (records_ x)]> (position_ x)).

(** [None] is an access outside the vector. *)
Definition erase (id : ExchangeOrderId) (x : t) : option t :=
  match position_ x !! id with
  | None => Some x
  | Some slot =>
      let last := u64 (vsize (records_ x) - 1) in
      '(rs, pos) ←
        (if negb (slot =? last) then
           r ← vget (records_ x) last;
           rs ← vset (records_ x) slot r;
           Some (rs, <[lr_exchange_order_id r := slot]> (position_ x))
         else Some (records_ x, position_ x));
      Some (mk (removelast rs) (delete id pos))
  end.

(** [find], and an assignment through the pointer it answers. *)
Definition update (id : ExchangeOrderId) (f : LiveOrderRecord → LiveOrderRecord) (x : t) : option t :=
  match position_ x !! id with
  | None => Some x
  | Some slot => r ← vget (records_ x) slot; rs ← vset (records_ x) slot (f r); Some (mk rs (position_ x))
  end.

Definition set_remaining_quantity (id : ExchangeOrderId) (remaining : Quantity) : t → option t :=
  update id (with_remaining remaining).

Definition set_client_order_id (id : ExchangeOrderId) (c : ClientOrderId) : t → option t :=
  update id (with_client c).

(** The inner option is the null pointer. *)
Definition find (id : ExchangeOrderId) (x : t) : option (option LiveOrderRecord) :=
  match position_ x !! id with
  | None => Some None
  | Some slot => Some <$> vget (records_ x) slot
  end.

Definition at_ (slot : Z) (x : t) : option LiveOrderRecord := vget (records_ x) slot.
Definition size (x : t) : Z := vsize (records_ x).
Definition is_empty (x : t) : bool := size x =? 0.

(** ** The map finds every record *)

Abbreviation ids_of := (fmap lr_exchange_order_id).

Definition ok (x : t) : Prop := vsize (records_ x) < 2 ^ 64 ∧ ∀ id slot, position_ x !! id = Some slot ↔
  ∃ r, vget (records_ x) slot = Some r ∧ lr_exchange_order_id r = id.

Lemma ok_empty : ok empty.
Proof.
  split; [done|]. intros id slot. cbn. rewrite lookup_empty. split; [done|].
  by intros (r & [_ ?]%vget_Some & _).
Qed.

Lemma ok_unique x i j r s : ok x → vget (records_ x) i = Some r → vget (records_ x) j = Some s →
  lr_exchange_order_id r = lr_exchange_order_id s → i = j.
Proof.
  intros [_ Hx] Hr Hs E. assert (position_ x !! lr_exchange_order_id r = Some i) as Hi by (apply Hx; eauto).
  assert (position_ x !! lr_exchange_order_id r = Some j) as Hj by (apply Hx; eauto). congruence.
Qed.

Lemma elem_vget {A} (r : A) (l : list A) : r ∈ l ↔ ∃ i, vget l i = Some r.
Proof.
  split.
  - intros [i Hi]%list_elem_of_lookup. exists (Z.of_nat i). apply vget_Some. rewrite Nat2Z.id. split; [lia|done].
  - intros (i & [_ Hi]%vget_Some). by eapply list_elem_of_lookup_2.
Qed.

Lemma ok_nodup x : ok x → NoDup (ids_of (records_ x)).
Proof.
  intros Hx. apply NoDup_alt. intros i j id Hi Hj.
  apply list_lookup_fmap_Some in Hi as (r & -> & Hi). apply list_lookup_fmap_Some in Hj as (s & E & Hj).
  assert (Z.of_nat i = Z.of_nat j); [|lia]. apply (ok_unique x _ _ r s Hx); [..|done];
    apply vget_Some; rewrite Nat2Z.id; (split; [lia|done]).
Qed.

Lemma not_found x id : ok x → id ∉ ids_of (records_ x) → position_ x !! id = None.
Proof.
  intros [_ Hx] Hno. apply eq_None_not_Some. intros [slot (r & Hr & <-)%Hx]. apply Hno, list_elem_of_fmap.
  exists r. split; [done|]. apply elem_vget. eauto.
Qed.

Lemma found x r : ok x → r ∈ records_ x → ∃ slot, position_ x !! lr_exchange_order_id r = Some slot ∧
  vget (records_ x) slot = Some r.
Proof. intros [_ Hx] [slot Hs]%elem_vget. exists slot. split; [apply Hx; eauto|done]. Qed.

Lemma find_spec x r : ok x → r ∈ records_ x → find (lr_exchange_order_id r) x = Some (Some r).
Proof. intros Hx Hr. destruct (found x r Hx Hr) as (slot & E & Hs). unfold find. by rewrite E, Hs. Qed.

(** ** What each operation does to the records *)

Lemma insert_spec x r : ok x → vsize (records_ x) + 1 < 2 ^ 64 → lr_exchange_order_id r ∉ ids_of (records_ x) →
  ok (insert r x) ∧ records_ (insert r x) ≡ₚ r :: records_ x.
Proof.
  intros Hx Hsz Hno. split; [|symmetry; apply Permutation_cons_append].
  split; [cbn; rewrite vsize_snoc; lia|]. intros id slot. cbn. rewrite lookup_insert. case_decide as E.
  - subst id. split.
    + intros [= <-]. exists r. split; [apply vget_snoc|done].
    + intros (s & Hs & Es). destruct (decide (slot = vsize (records_ x))) as [->|Hne]; [done|].
      pose proof (vget_lt _ _ _ Hs) as Hlt. rewrite vsize_snoc in Hlt. rewrite vget_app_l in Hs by lia.
      destruct Hno. apply list_elem_of_fmap. exists s. split; [done|]. apply elem_vget. eauto.
  - destruct Hx as [_ Hx]. rewrite Hx. split; intros (s & Hs & Es); exists s; (split; [|done]).
    + apply vget_lt in Hs as Hlt. by rewrite vget_app_l by lia.
    + pose proof (vget_lt _ _ _ Hs) as Hlt. rewrite vsize_snoc in Hlt.
      destruct (decide (slot = vsize (records_ x))) as [->|Hne]; [|by rewrite vget_app_l in Hs by lia].
      rewrite vget_snoc in Hs. congruence.
Qed.

Lemma update_spec x r f : ok x → r ∈ records_ x → lr_exchange_order_id (f r) = lr_exchange_order_id r →
  ∃ x' l, update (lr_exchange_order_id r) f x = Some x' ∧ ok x' ∧ records_ x ≡ₚ r :: l ∧ records_ x' ≡ₚ f r :: l.
Proof.
  intros Hx Hr Hf. destruct (found x r Hx Hr) as (slot & E & Hs). unfold update. rewrite E, Hs.
  cbn [mbind option_bind]. rewrite (vset_get _ _ _ _ Hs). cbn [mbind option_bind].
  apply vget_Some in Hs as Hs'. destruct Hs' as [Hpos Hi]. apply vget_lt in Hs as Hlt.
  eexists _, (take (Z.to_nat slot) (records_ x) ++ drop (S (Z.to_nat slot)) (records_ x)). split; [done|].
  split; [|split].
  - destruct Hx as [Hsz Hx]. split; [cbn; by rewrite vsize_vput|]. intros id j. cbn. rewrite Hx.
    setoid_rewrite (vget_vput (records_ x) slot j (f r) Hlt). case_decide as Ej; [subst j|done].
    rewrite Hs. split; intros (s & [= <-] & Es); eexists; (split; [done|]); congruence.
  - rewrite <-(take_drop_middle _ _ _ Hi) at 1. solve_Permutation.
  - cbn. unfold vput. rewrite insert_take_drop by by eapply lookup_lt_Some. solve_Permutation.
Qed.

Lemma update_absent x id f : ok x → id ∉ ids_of (records_ x) → update id f x = Some x.
Proof. intros Hx Hno. unfold update. by rewrite (not_found x id Hx Hno). Qed.

(** The last record moves into the gap, unless it is the one erased. *)
Lemma erase_spec x r : ok x → r ∈ records_ x → ∃ x', erase (lr_exchange_order_id r) x = Some x' ∧ ok x' ∧
  records_ x ≡ₚ r :: records_ x'.
Proof.
  intros Hx Hr. destruct (found x r Hx Hr) as (slot & E & Hs). apply vget_lt in Hs as Hlt.
  destruct x as [rs pos]. cbn [records_ position_] in *.
  destruct rs as [|z rs _] using rev_ind; [by apply vget_Some in Hs as [_ ?]|]. rewrite vsize_snoc in Hlt.
  pose proof Hx as [Hsz Hpos]. cbn [records_ position_] in Hsz, Hpos. rewrite vsize_snoc in Hsz.
  pose proof (vsize_nonneg rs). unfold erase. cbn [records_ position_].
  rewrite E, vsize_snoc, u64_small by (unfold in_u64; lia). replace (vsize rs + 1 - 1) with (vsize rs) by lia.
  assert (∀ j s, vget rs j = Some s → vget (rs ++ [z]) j = Some s) as Hinit.
  { intros j s Hj. apply vget_lt in Hj as Hl. by rewrite vget_app_l by lia. }
  destruct (Z.eqb_spec slot (vsize rs)) as [->|Hne]; cbn [negb mbind option_bind].
  - rewrite vget_snoc in Hs. injection Hs as ->. eexists. split; [done|]. cbn [records_]. rewrite removelast_last.
    split; [|symmetry; apply Permutation_cons_append]. split; [cbn; lia|]. intros id j. cbn.
    rewrite lookup_delete_Some, Hpos. split.
    + intros [Hid (s & Hj & Es)]. exists s. split; [|done]. apply vget_lt in Hj as Hl. rewrite vsize_snoc in Hl.
      destruct (decide (j = vsize rs)) as [->|]; [|by rewrite vget_app_l in Hj by lia].
      rewrite vget_snoc in Hj. congruence.
    + intros (s & Hj & Es). split; [|exists s; split; [by apply Hinit|done]]. intros Eid.
      assert (j = vsize rs); [|by apply vget_lt in Hj; lia].
      apply (ok_unique _ _ _ s r Hx); cbn; [by apply Hinit|apply vget_snoc|congruence].
  - rewrite vget_snoc. cbn [mbind option_bind]. rewrite vset_Some by (rewrite vsize_snoc; lia).
    cbn [mbind option_bind]. assert (vput (rs ++ [z]) slot z = vput rs slot z ++ [z]) as ->.
    { unfold vput. rewrite insert_app_l; [done|]. unfold vsize in *. lia. }
    rewrite removelast_last. rewrite vget_app_l in Hs by lia.
    eexists. split; [done|]. cbn [records_]. split.
    2: { apply vget_Some in Hs as [_ Hs]. unfold vput. rewrite insert_take_drop by by eapply lookup_lt_Some.
         rewrite <-(take_drop_middle _ _ _ Hs) at 1. solve_Permutation. }
    split; [cbn; rewrite vsize_vput; lia|]. intros id j. cbn. rewrite lookup_delete_Some, lookup_insert_Some, Hpos.
    assert (∀ i s, vget (rs ++ [z]) i = Some s → lr_exchange_order_id s = lr_exchange_order_id r → i = slot) as Hr1.
    { intros i s Hi Es. apply (ok_unique _ _ _ s r Hx Hi); [by apply Hinit|done]. }
    assert (∀ i s, vget (rs ++ [z]) i = Some s → lr_exchange_order_id s = lr_exchange_order_id z → i = vsize rs) as Hz1.
    { intros i s Hi Es. apply (ok_unique _ _ _ s z Hx Hi); [apply vget_snoc|done]. }
    rewrite (vget_vput rs slot j z) by lia. split.
    + intros [Hid [[Ez <-]|[Hz (s & Hj & Es)]]]; [by rewrite decide_True by done; eauto|].
      assert (j ≠ vsize rs) as Hjl by (intros ->; rewrite vget_snoc in Hj; congruence).
      pose proof (vget_lt _ _ _ Hj) as Hl. rewrite vsize_snoc in Hl. exists s. split; [|done].
      rewrite vget_app_l in Hj by lia. case_decide; [subst j; congruence|done].
    + intros (s & Hj & Es). case_decide as Ej.
      * injection Hj as ->. subst j id. split; [|by left]. intros E'.
        assert (vsize rs = slot); [|lia]. apply (Hr1 _ s); [apply vget_snoc|done].
      * apply Hinit in Hj as Hj'. subst id. split; [intros E'; apply Ej; by apply (Hr1 j s)|].
        right. split; [|by exists s]. intros E'. apply vget_lt in Hj. assert (j = vsize rs); [|lia].
        by apply (Hz1 j s).
Qed.

End LiveIndex.

Module DepthTracker.
Import LiveIndex.

(** [levels_]: a [std::map] per instrument and side. *)
Abbreviation t := (list (gmap Price Z)).

Definition make (instrument_count : Z) : t := replicate (Z.to_nat (u64 (instrument_count * 2))) ∅.

Definition slot (instrument_id : InstrumentId) (side : Side) : Z :=
  u64 (u32 (instrument_id - 1) * 2 + (match side with Buy => 0 | Sell => 1 end)).

Definition on_added (instrument_id : InstrumentId) (side : Side) (price : Price) (d : t) : option t :=
  m ← vget d (slot instrument_id side);
  vset d (slot instrument_id side) (<[price := u64 (default 0 (m !! price) + 1)]> m).

Definition on_removed (instrument_id : InstrumentId) (side : Side) (price : Price) (d : t) : option t :=
  m ← vget d (slot instrument_id side);
  match m !! price with
  | None => Some d
  | Some n =>
      let n := u64 (n - 1) in
      vset d (slot instrument_id side) (if n =? 0 then delete price m else <[price := n]> m)
  end.

(** The first and the last key of a map are the least and the greatest. *)
Definition extreme (f : Z → Z → Z) (l : list Z) : option Z :=
  match l with [] => None | x :: l => Some (foldr f x l) end.

Definition best (instrument_id : InstrumentId) (side : Side) (d : t) : option (option Price) :=
  m ← vget d (slot instrument_id side);
  Some (extreme (match side with Buy => Z.max | Sell => Z.min end) (map_to_list m).*1).

Definition level_count (instrument_id : InstrumentId) (side : Side) (d : t) : option Z :=
  m ← vget d (slot instrument_id side); Some (Z.of_nat (base.size m)).

(** ** It counts the records *)

Definition rests_at (id : InstrumentId) (sd : Side) (p : Price) (r : LiveOrderRecord) : Prop :=
  lr_instrument_id r = id ∧ lr_side r = sd ∧ lr_price r = p.

Definition count (id : InstrumentId) (sd : Side) (p : Price) (rs : list LiveOrderRecord) : Z :=
  vsize (filter (rests_at id sd p) rs).

Definition counted (n : Z) : option Z := if n =? 0 then None else Some n.

Definition counts (n : Z) (d : t) (rs : list LiveOrderRecord) : Prop :=
  n < 2 ^ 32 ∧ vsize d = n * 2 ∧ vsize rs < 2 ^ 64 ∧
  ∀ id sd, 1 ≤ id ≤ n → ∃ m, vget d (slot id sd) = Some m ∧ ∀ p, m !! p = counted (count id sd p rs).

#[global] Instance count_proper id sd p : Proper ((≡ₚ) ==> eq) (count id sd p).
Proof. intros rs rs' H. unfold count, vsize. by rewrite H. Qed.

#[global] Instance counts_proper n d : Proper ((≡ₚ) ==> iff) (counts n d).
Proof.
  intros rs rs' H. unfold counts. assert (vsize rs = vsize rs') as -> by (unfold vsize; by rewrite H).
  by setoid_rewrite H.
Qed.

Lemma count_record id sd p r rs :
  count id sd p (r :: rs) = (if decide (rests_at id sd p r) then 1 else 0) + count id sd p rs.
Proof. unfold count, vsize. rewrite filter_cons. case_decide; cbn [length]; lia. Qed.

Lemma count_nonneg id sd p rs : 0 ≤ count id sd p rs ≤ vsize rs.
Proof. unfold count, vsize. pose proof (length_filter (rests_at id sd p) rs). lia. Qed.

Lemma depth_slot n id sd : n < 2 ^ 32 → 1 ≤ id ≤ n →
  slot id sd = (id - 1) * 2 + (match sd with Buy => 0 | Sell => 1 end) ∧ 0 ≤ slot id sd < n * 2.
Proof.
  intros Hn Hi. unfold slot. rewrite u32_small by (unfold in_u32; lia).
  rewrite u64_small by (unfold in_u64; destruct sd; lia). destruct sd; lia.
Qed.

Lemma slot_inj n id sd id' sd' : n < 2 ^ 32 → 1 ≤ id ≤ n → 1 ≤ id' ≤ n → slot id sd = slot id' sd' →
  id = id' ∧ sd = sd'.
Proof.
  intros Hn Hi Hi'. rewrite (proj1 (depth_slot n id sd Hn Hi)), (proj1 (depth_slot n id' sd' Hn Hi')).
  intros E. destruct sd, sd'; split; done || lia.
Qed.

Lemma counts_make n : 0 ≤ n < 2 ^ 32 → counts n (make n) [].
Proof.
  intros Hn. unfold make. rewrite u64_small by (unfold in_u64; lia).
  split; [lia|]. split; [unfold vsize; rewrite length_replicate; lia|]. split; [done|].
  intros id sd Hi. exists ∅. split; [|intros p; apply lookup_empty].
  destruct (depth_slot n id sd ltac:(lia) Hi) as [_ Hs]. apply vget_Some. split; [lia|].
  apply lookup_replicate. split; [done|lia].
Qed.

(** One map changes, at one price. *)
Lemma counts_change n d rs rs' r m' : counts n d rs → 1 ≤ lr_instrument_id r ≤ n → vsize rs' < 2 ^ 64 →
  (∀ p, m' !! p = counted (count (lr_instrument_id r) (lr_side r) p rs')) →
  (∀ id sd p, ¬ rests_at id sd p r → count id sd p rs' = count id sd p rs) →
  ∃ d', vset d (slot (lr_instrument_id r) (lr_side r)) m' = Some d' ∧ counts n d' rs'.
Proof.
  intros (Hn & Hd & _ & Hc) Hr Hsz Hm Hother.
  destruct (depth_slot n _ (lr_side r) Hn Hr) as [_ Hs].
  rewrite vset_Some by lia. eexists. split; [done|]. split; [done|]. split; [by rewrite vsize_vput|]. split; [done|].
  intros id sd Hi. rewrite vget_vput by lia. case_decide as E.
  - apply (slot_inj n) in E as [-> ->]; [|done..]. by exists m'.
  - destruct (Hc id sd Hi) as (m & Em & Hp). exists m. split; [done|]. intros p. rewrite Hother; [done|].
    intros (<- & <- & _). done.
Qed.

Lemma on_added_counts n d rs r : counts n d rs → 1 ≤ lr_instrument_id r ≤ n → vsize rs + 1 < 2 ^ 64 →
  ∃ d', on_added (lr_instrument_id r) (lr_side r) (lr_price r) d = Some d' ∧ counts n d' (r :: rs).
Proof.
  intros Hc Hr Hsz. pose proof Hc as (Hn & Hd & _ & Hm). destruct (Hm _ (lr_side r) Hr) as (m & Em & Hp).
  unfold on_added. rewrite Em. cbn [mbind option_bind].
  apply (counts_change n d rs (r :: rs) r); [done|done|unfold vsize in *; cbn [length]; lia| |].
  - intros p. rewrite count_record. unfold rests_at. pose proof (count_nonneg (lr_instrument_id r) (lr_side r) p rs).
    rewrite lookup_insert. case_decide as E.
    + subst p. rewrite decide_True, Hp by done. unfold counted.
      rewrite (proj2 (Z.eqb_neq (1 + _) _)) by lia. destruct (Z.eqb_spec (count (lr_instrument_id r) (lr_side r) (lr_price r) rs) 0);
        cbn; rewrite u64_small by (unfold in_u64; lia); f_equal; lia.
    + rewrite decide_False by naive_solver. rewrite Hp. done.
  - intros id sd p Hno. rewrite count_record, decide_False by done. done.
Qed.

Lemma on_removed_counts n d rs r : counts n d (r :: rs) → 1 ≤ lr_instrument_id r ≤ n →
  ∃ d', on_removed (lr_instrument_id r) (lr_side r) (lr_price r) d = Some d' ∧ counts n d' rs.
Proof.
  intros Hc Hr. pose proof Hc as (Hn & Hd & Hsz & Hm). destruct (Hm _ (lr_side r) Hr) as (m & Em & Hp).
  unfold on_removed. rewrite Em. cbn [mbind option_bind]. rewrite Hp, count_record, decide_True by done.
  pose proof (count_nonneg (lr_instrument_id r) (lr_side r) (lr_price r) rs) as Hcn.
  assert (vsize (r :: rs) = vsize rs + 1) as Hcons by (unfold vsize; cbn [length]; lia).
  unfold counted at 1. rewrite (proj2 (Z.eqb_neq _ _)) by lia.
  rewrite u64_small by (unfold in_u64; lia). replace (1 + _ - 1) with (count (lr_instrument_id r) (lr_side r) (lr_price r) rs) by lia.
  apply (counts_change n d (r :: rs) rs r); [done|done|lia| |].
  - intros p. destruct (decide (lr_price r = p)) as [<-|E].
    + unfold counted. case_bool; [apply lookup_delete_eq|apply lookup_insert_eq].
    + assert (m !! p = counted (count (lr_instrument_id r) (lr_side r) p rs)) as Hpp.
      { rewrite Hp, count_record, decide_False; [done|]. unfold rests_at. naive_solver. }
      case_bool; [by rewrite lookup_delete_ne|by rewrite lookup_insert_ne].
  - intros id sd p Hno. rewrite count_record, decide_False by done. done.
Qed.

(** ** The best price is the best of the records *)

Lemma extreme_spec f (R : relation Z) l : PreOrder R → (∀ x y, f x y = x ∨ f x y = y) →
  (∀ x y, R (f x y) x ∧ R (f x y) y) →
  match extreme f l with None => l = [] | Some x => x ∈ l ∧ ∀ y, y ∈ l → R x y end.
Proof.
  intros HR Hin Hle. destruct l as [|x l]; [done|]. cbn [extreme].
  induction l as [|y l [IHin IH]]; cbn [foldr].
  - split; [by left|]. by intros y ->%list_elem_of_singleton.
  - split; [destruct (Hin y (foldr f x l)) as [->| ->]; set_solver|].
    destruct (Hle y (foldr f x l)) as [H1 H2]. intros z [->|[->|Hz]%elem_of_cons]%elem_of_cons; [|done|].
    + etrans; [exact H2|]. apply IH. by left.
    + etrans; [exact H2|]. apply IH. by right.
Qed.

(** At least as good. *)
Definition as_good (sd : Side) (p q : Price) : Prop := match sd with Buy => q ≤ p | Sell => p ≤ q end.

Lemma count_pos id sd p rs : count id sd p rs ≠ 0 ↔ ∃ r, r ∈ rs ∧ rests_at id sd p r.
Proof.
  unfold count, vsize. split.
  - intros Hne. destruct (filter (rests_at id sd p) rs) as [|r l] eqn:E; [done|]. exists r.
    assert (r ∈ filter (rests_at id sd p) rs) as [? ?]%list_elem_of_filter; [rewrite E; by left|done].
  - intros (r & Hr & Hp). assert (r ∈ filter (rests_at id sd p) rs) as Hin by by apply list_elem_of_filter.
    destruct (filter _ rs); [by apply not_elem_of_nil in Hin|done].
Qed.

Lemma best_spec n d rs id sd : counts n d rs → 1 ≤ id ≤ n → ∃ o, best id sd d = Some o ∧
  match o with
  | None => ∀ r, r ∈ rs → lr_instrument_id r = id → lr_side r ≠ sd
  | Some p => (∃ r, r ∈ rs ∧ rests_at id sd p r) ∧
      ∀ r, r ∈ rs → lr_instrument_id r = id → lr_side r = sd → as_good sd p (lr_price r)
  end.
Proof.
  intros (_ & _ & _ & Hc) Hi. destruct (Hc id sd Hi) as (m & Em & Hp). unfold best. rewrite Em.
  eexists. split; [done|]. set (l := (map_to_list m).*1).
  assert (∀ p, p ∈ l ↔ ∃ r, r ∈ rs ∧ rests_at id sd p r) as Hl.
  { intros p. rewrite <-count_pos. unfold l. rewrite list_elem_of_fmap. specialize (Hp p). unfold counted in Hp. split.
    - intros ([p' c] & -> & Hin%elem_of_map_to_list). cbn in *. rewrite Hin in Hp. by destruct (Z.eqb_spec (count id sd p' rs) 0).
    - intros Hne%Z.eqb_neq. rewrite Hne in Hp. eexists (p, _). split; [done|]. by apply elem_of_map_to_list. }
  assert (match extreme (match sd with Buy => Z.max | Sell => Z.min end) l with
    None => l = [] | Some x => x ∈ l ∧ ∀ y, y ∈ l → as_good sd x y end) as He.
  { destruct sd; apply extreme_spec; try (intros; lia).
    - split; [intros x; cbn; lia|intros x y z; cbn; lia].
    - intros; cbn; lia.
    - split; [intros x; cbn; lia|intros x y z; cbn; lia].
    - intros; cbn; lia. }
  destruct (extreme _ l) as [p|].
  - destruct He as [Hin He]. split; [by apply Hl|]. intros r Hr <- <-. apply He, Hl. by exists r.
  - intros r Hr <- <-. assert (lr_price r ∈ l) as Hin by (apply Hl; by exists r).
    rewrite He in Hin. by apply not_elem_of_nil in Hin.
Qed.

End DepthTracker.

(** * The workload generator ([exchange/testing/matching_workload.hpp],
      [exchange/testing/matching_scenarios.hpp])

    A stream of commands for benchmarks and stress tests. The generator plays each command
    into an engine of its own and keeps, from the engine's events, the orders that rest.
    Its output are the commands; what it may misuse, a vector or a division by zero, is
    [None]. [account_first] is the order in which the compiler evaluates two arguments of
    one call that both draw: the language leaves it open. *)

(** ** [matching_scenarios.hpp] *)

Module Scenarios.
Import MatchingEngine.

Definition instrument_universe (count first : Z) : list InstrumentId :=
  (λ i, u32 (first + u32 i)) <$> seqZ 0 count.

Record SequentialIds := mkIds { next_command_sequence : CommandSequence; next_client_order_id : ClientOrderId }.

Definition first_ids : SequentialIds := mkIds 1 1.

Definition take_command_sequence (ids : SequentialIds) : CommandSequence * SequentialIds :=
  (next_command_sequence ids, mkIds (u64 (next_command_sequence ids + 1)) (next_client_order_id ids)).

Definition take_client_order_id (ids : SequentialIds) : ClientOrderId * SequentialIds :=
  (next_client_order_id ids, mkIds (next_command_sequence ids) (u64 (next_client_order_id ids + 1))).

Definition new_order (command_sequence : CommandSequence) (account_id : AccountId) (client_order_id : ClientOrderId)
    (instrument_id : InstrumentId) (side : Side) (price : Price) (quantity : Quantity) (tif : TimeInForce) :
    NewOrderCommand :=
  mkNewOrder command_sequence account_id client_order_id instrument_id side price quantity Limit tif.

Definition cancel_order (command_sequence : CommandSequence) (account_id : AccountId)
    (client_order_id : ClientOrderId) (instrument_id : InstrumentId) : CancelOrderCommand :=
  mkCancelOrder command_sequence account_id client_order_id instrument_id.

Definition replace_order (command_sequence : CommandSequence) (account_id : AccountId)
    (original_client_order_id new_client_order_id : ClientOrderId) (instrument_id : InstrumentId)
    (new_price : Price) (new_quantity : Quantity) : ReplaceOrderCommand :=
  mkReplaceOrder command_sequence account_id original_client_order_id new_client_order_id instrument_id
    new_price new_quantity.

(** [seed_resting_orders]: the ids it used up, the engine, and the client order ids; the
    events go to a sink that discards them. *)
Section seed.
Context {B : Type} `{BookOps B}.

Fixpoint seed_level (n : nat) (account_id : AccountId) (instrument_id : InstrumentId) (side : Side)
    (price : Price) (quantity : Quantity) (ids : SequentialIds) (e : t B) :
    option (SequentialIds * t B * list ClientOrderId) :=
  match n with
  | O => Some (ids, e, [])
  | S n =>
      let '(client_order_id, ids) := take_client_order_id ids in
      let '(command_sequence, ids) := take_command_sequence ids in
      '(_, e, _) ← process (CmdNew (new_order command_sequence account_id client_order_id instrument_id side
                                      price quantity GTC)) e;
      '(ids, e, out) ← seed_level n account_id instrument_id side price quantity ids e;
      Some (ids, e, client_order_id :: out)
  end.

Fixpoint seed_resting_orders (levels : nat) (level : Z) (orders_per_level : nat) (account_id : AccountId)
    (instrument_id : InstrumentId) (side : Side) (first_price price_step : Price) (quantity : Quantity)
    (ids : SequentialIds) (e : t B) : option (SequentialIds * t B * list ClientOrderId) :=
  match levels with
  | O => Some (ids, e, [])
  | S levels =>
      let price := i64 (first_price + i64 (price_step * level)) in
      '(ids, e, out) ← seed_level orders_per_level account_id instrument_id side price quantity ids e;
      '(ids, e, rest) ← seed_resting_orders levels (level + 1) orders_per_level account_id instrument_id side
                          first_price price_step quantity ids e;
      Some (ids, e, out ++ rest)
  end.
End seed.
End Scenarios.

(** ** [matching_workload.hpp] *)

Module Workload.
Import MatchingEngine Scenarios LiveIndex.

Record WorkloadMix := mkMix {
  new_resting_pct : Z;
  crossing_pct : Z;
  cancel_pct : Z;
  replace_pct : Z;
  ioc_fok_pct : Z;
}.

Definition realistic : WorkloadMix := mkMix 40 25 20 10 5.
Definition all_resting : WorkloadMix := mkMix 100 0 0 0 0.
Definition all_crossing : WorkloadMix := mkMix 0 100 0 0 0.

Record WorkloadConfig := mkConfig {
  cfg_seed : Z;
  operation_count : Z;
  instrument_count : Z;
  initial_orders_per_side : Z;
  account_count : Z;
  base_price : Price;
  instrument_price_offset : Price;
  price_band_ticks : Price;
  aggressive_reach_ticks : Price;
  min_quantity : Quantity;
  max_quantity : Quantity;
  aggressive_max_quantity : Quantity;
  fok_max_quantity : Quantity;
  stale_reference_pct : Z;
  mix : WorkloadMix;
}.

Definition default_config : WorkloadConfig :=
  mkConfig 0xC0FFEE12345678 100000 1 1000 8 100000 10000 64 8 1 100 67 300 0 realistic.

Definition instruments (c : WorkloadConfig) : list InstrumentId := instrument_universe (instrument_count c) 1.

Inductive OpKind := Resting | Crossing | Cancel | ReplacePriorityPreserving | ReplacePriorityLosing | Ioc | Fok.

#[export] Instance OpKind_eq_dec : EqDecision OpKind.
Proof. solve_decision. Defined.

Record WorkloadCounts := mkCounts {
  new_resting : Z;
  crossing : Z;
  cancel : Z;
  replace_priority_preserving : Z;
  replace_priority_losing : Z;
  ioc : Z;
  fok : Z;
  downgraded_to_resting : Z;
  stale_references : Z;
}.

Definition no_counts : WorkloadCounts := mkCounts 0 0 0 0 0 0 0 0 0.

Definition bump (b : bool) (n : Z) : Z := if b then u64 (n + 1) else n.

(** The counter of an operation's kind, or that of the operations downgraded. *)
Definition count_kind (k : OpKind) (downgraded : bool) (c : WorkloadCounts) : WorkloadCounts :=
  let on k' := negb downgraded && bool_decide (k = k') in
  mkCounts (bump (on Resting) (new_resting c)) (bump (on Crossing) (crossing c)) (bump (on Cancel) (cancel c))
    (bump (on ReplacePriorityPreserving) (replace_priority_preserving c))
    (bump (on ReplacePriorityLosing) (replace_priority_losing c)) (bump (on Ioc) (ioc c)) (bump (on Fok) (fok c))
    (bump downgraded (downgraded_to_resting c)) (stale_references c).

Definition count_stale (c : WorkloadCounts) : WorkloadCounts :=
  mkCounts (new_resting c) (crossing c) (cancel c) (replace_priority_preserving c) (replace_priority_losing c)
    (ioc c) (fok c) (downgraded_to_resting c) (u64 (stale_references c + 1)).

(** A reference to an order that has been retired. *)
Record RetiredRef := mkRetired {
  rr_account_id : AccountId;
  rr_client_order_id : ClientOrderId;
  rr_instrument_id : InstrumentId;
}.

Definition ref_of (r : LiveOrderRecord) : RetiredRef :=
  mkRetired (lr_account_id r) (lr_client_order_id r) (lr_instrument_id r).

(** What the events are folded into. *)
Record Tracker := mkTracker {
  live : LiveIndex.t;
  depth : DepthTracker.t;
  retired : list RetiredRef;
  retired_cursor : Z;
}.

Definition with_live (x : LiveIndex.t) (m : Tracker) : Tracker := mkTracker x (depth m) (retired m) (retired_cursor m).
Definition with_depth (d : DepthTracker.t) (m : Tracker) : Tracker := mkTracker (live m) d (retired m) (retired_cursor m).

(** A ring of at most 1024 references. *)
Definition remember_retired (ref : RetiredRef) (m : Tracker) : option Tracker :=
  if vsize (retired m) <? 1024 then
    Some (mkTracker (live m) (depth m) (retired m ++ [ref]) (retired_cursor m))
  else
    rs ← vset (retired m) (retired_cursor m) ref;
    Some (mkTracker (live m) (depth m) rs ((retired_cursor m + 1) mod vsize rs)).

(** The account and the client order id that an order a command adds will have. *)
Definition owner_of (c : ExchangeCommand) : AccountId * ClientOrderId :=
  match c with
  | CmdNew c => (no_account_id c, no_client_order_id c)
  | CmdCancel c => (co_account_id c, 0)
  | CmdReplace c => (ro_account_id c, ro_new_client_order_id c)
  end.

(** One event, folded. *)
Definition fold_event (owner : AccountId * ClientOrderId) (ev : ExchangeEvent) (m : Tracker) : option Tracker :=
  match ev with
  | EvReplaced ev =>
      x ← set_client_order_id (orp_exchange_order_id ev) (orp_new_client_order_id ev) (live m);
      Some (with_live x m)
  | EvAdded ev =>
      d ← DepthTracker.on_added (ba_instrument_id ev) (ba_side ev) (ba_price ev) (depth m);
      let r := mkRecord (ba_exchange_order_id ev) owner.2 owner.1 (ba_instrument_id ev) (ba_side ev)
                 (ba_price ev) (ba_quantity ev) in
      Some (with_live (insert r (live m)) (with_depth d m))
  | EvReduced ev =>
      x ← set_remaining_quantity (br_exchange_order_id ev) (br_new_remaining_quantity ev) (live m);
      Some (with_live x m)
  | EvRemoved ev =>
      d ← DepthTracker.on_removed (bx_instrument_id ev) (bx_side ev) (bx_price ev) (depth m);
      record ← find (bx_exchange_order_id ev) (live m);
      m ← match record with Some r => remember_retired (ref_of r) (with_depth d m) | None => Some (with_depth d m) end;
      x ← erase (bx_exchange_order_id ev) (live m);
      Some (with_live x m)
  | EvAccepted _ | EvRejected _ | EvCancelled _ | EvTrade _ => Some m
  end.

Fixpoint fold_events (owner : AccountId * ClientOrderId) (evs : list ExchangeEvent) (m : Tracker) : option Tracker :=
  match evs with [] => Some m | ev :: evs => m ← fold_event owner ev m; fold_events owner evs m end.

Fixpoint total_levels (side : Side) (ids : list InstrumentId) (d : DepthTracker.t) : option Z :=
  match ids with
  | [] => Some 0
  | id :: ids =>
      n ← DepthTracker.level_count id side d; rest ← total_levels side ids d; Some (u64 (n + rest))
  end.

Section generator.
Context {B : Type} `{BookOps B} (account_first : bool) (cfg : WorkloadConfig).

Record State := mkState {
  engine : MatchingEngine.t B;
  rng : SplitMix64.t;
  ids : SequentialIds;
  tracker : Tracker;
  kinds : list OpKind;
  counts : WorkloadCounts;
}.

Definition with_engine (e : MatchingEngine.t B) (m : Tracker) (s : State) : State :=
  mkState e (rng s) (ids s) m (kinds s) (counts s).
Definition with_rng (r : SplitMix64.t) (s : State) : State :=
  mkState (engine s) r (ids s) (tracker s) (kinds s) (counts s).
Definition with_ids (i : SequentialIds) (s : State) : State :=
  mkState (engine s) (rng s) i (tracker s) (kinds s) (counts s).
Definition with_kinds (ks : list OpKind) (c : WorkloadCounts) (s : State) : State :=
  mkState (engine s) (rng s) (ids s) (tracker s) ks c.

Abbreviation gen := (eff State ExchangeCommand).

Local Open Scope eff_scope.

(** The draws. *)
Definition next : gen Z := eupdate (λ s, let '(x, r) := SplitMix64.next (rng s) in Some (x, with_rng r s)).

Definition draw (f : SplitMix64.t → option (Z * SplitMix64.t)) : gen Z := eupdate (λ s,
  match f (rng s) with Some (x, r) => Some (x, with_rng r s) | None => None end).

Definition below (bound : Z) : gen Z := draw (SplitMix64.below bound).
Definition between (low high : Z) : gen Z := draw (SplitMix64.between low high).

Definition take_id {A} (f : SequentialIds → A * SequentialIds) : gen A := eupdate (λ s,
  let '(x, i) := f (ids s) in Some (x, with_ids i s)).

(** [apply(command)]: the command is played, its events folded. *)
Definition apply (c : ExchangeCommand) : gen unit := eupdate (λ s,
  match process c (engine s) with
  | Some (_, e, evs) =>
      match fold_events (owner_of c) evs (tracker s) with
      | Some m => Some (tt, with_engine e m s)
      | None => None
      end
  | None => None
  end).

(** [out.push_back(command); apply(command)] *)
Definition emit (c : ExchangeCommand) : gen unit := eemit (λ s, (c, s)) ;; apply c.

(** [draw % n]; a division by zero is undefined behaviour. *)
Definition modulo (x n : Z) : gen Z := eread (λ _, if n =? 0 then None else Some (x mod n)).

Definition instrument_of (x : Z) : gen InstrumentId := i ← modulo x (instrument_count cfg); eret (u32 (1 + i)).
Definition account_of (x : Z) : gen AccountId := i ← modulo x (account_count cfg); eret (u64 (1 + i)).

Definition mid_of (instrument_id : InstrumentId) : Price :=
  i64 (base_price cfg + i64 (u32 (instrument_id - 1) * instrument_price_offset cfg)).

Definition best (instrument_id : InstrumentId) (side : Side) : gen (option Price) :=
  eread (λ s, DepthTracker.best instrument_id side (depth (tracker s))).

Definition passive_price (instrument_id : InstrumentId) (side : Side) : gen Price :=
  let mid := mid_of instrument_id in
  contra_best ← best instrument_id (contra side);
  offset ← below (u64 (price_band_ticks cfg));
  let offset := i64 offset in
  match side with
  | Buy =>
      let ceiling := match contra_best with Some c => Z.min mid (i64 (c - 1)) | None => mid end in
      let price := i64 (ceiling - offset) in
      eret (if 0 <? price then price else 1)
  | Sell =>
      let floor_price := match contra_best with Some c => Z.max mid (i64 (c + 1)) | None => mid end in
      eret (i64 (floor_price + offset))
  end.

Definition crossing_price (instrument_id : InstrumentId) (side : Side) : gen (option Price) :=
  contra_best ← best instrument_id (contra side);
  match contra_best with
  | None => eret None
  | Some c =>
      reach ← below (u64 (aggressive_reach_ticks cfg));
      let reach := i64 reach in
      eret (Some (match side with
                  | Buy => i64 (c + reach)
                  | Sell => let price := i64 (c - reach) in if 0 <? price then price else 1
                  end))
  end.

Definition draw_account : gen AccountId := x ← next; account_of x.

(** The two arguments that draw. *)
Definition account_and_price (instrument_id : InstrumentId) (side : Side) : gen (AccountId * Price) :=
  if account_first then
    account ← draw_account; price ← passive_price instrument_id side; eret (account, price)
  else
    price ← passive_price instrument_id side; account ← draw_account; eret (account, price).

Definition emit_resting (instrument_id : InstrumentId) (side : Side) : gen unit :=
  quantity ← between (min_quantity cfg) (max_quantity cfg);
  sequence ← take_id take_command_sequence;
  client ← take_id take_client_order_id;
  x ← account_and_price instrument_id side;
  emit (CmdNew (new_order sequence x.1 client instrument_id side x.2 quantity GTC)).

(** [kinds.push_back(k)] and the counter. *)
Definition record_kind (k : OpKind) (downgraded : bool) : gen unit :=
  emodify (λ s, with_kinds (kinds s ++ [k]) (count_kind k downgraded (counts s)) s).

Definition emit_downgraded (instrument_id : InstrumentId) (side : Side) : gen unit :=
  emit_resting instrument_id side ;; record_kind Resting true.

(** An order at a crossing price. *)
Definition emit_aggressive (instrument_id : InstrumentId) (side : Side) (price : Price) (ceiling : Quantity)
    (tif : TimeInForce) (k : OpKind) : gen unit :=
  quantity ← between (min_quantity cfg) ceiling;
  sequence ← take_id take_command_sequence;
  x ← next;
  account ← account_of x;
  client ← take_id take_client_order_id;
  emit (CmdNew (new_order sequence account client instrument_id side price quantity tif)) ;;
  record_kind k false.

Definition emit_crossing (instrument_id : InstrumentId) (side : Side) : gen unit :=
  price ← crossing_price instrument_id side;
  match price with
  | None => emit_downgraded instrument_id side
  | Some price => emit_aggressive instrument_id side price (aggressive_max_quantity cfg) GTC Crossing
  end.

(** [retired[rng.below(retired.size())]] *)
Definition draw_retired : gen RetiredRef :=
  s ← eget;
  i ← below (vsize (retired (tracker s)));
  ref ← eread (λ s, vget (retired (tracker s)) i);
  emodify (λ s, with_kinds (kinds s) (count_stale (counts s)) s) ;;
  eret ref.

(** [live.at(rng.below(live.size()))] *)
Definition draw_live : gen LiveOrderRecord :=
  s ← eget;
  i ← below (LiveIndex.size (live (tracker s)));
  eread (λ s, at_ i (live (tracker s))).

Definition draw_stale : gen bool :=
  s ← eget;
  if (0 <? stale_reference_pct cfg) && negb (vsize (retired (tracker s)) =? 0) then
    x ← below 100; eret (x <? stale_reference_pct cfg)
  else eret false.

Definition emit_cancel (use_stale : bool) (instrument_id : InstrumentId) (side : Side) : gen unit :=
  s ← eget;
  if LiveIndex.is_empty (live (tracker s)) && negb use_stale then emit_downgraded instrument_id side
  else
    target ← (if use_stale then draw_retired else r ← draw_live; eret (ref_of r));
    sequence ← take_id take_command_sequence;
    emit (CmdCancel (cancel_order sequence (rr_account_id target) (rr_client_order_id target)
                       (rr_instrument_id target))) ;;
    record_kind Cancel false.

(** The new price and quantity, and whether the order keeps its place. *)
Definition draw_replacement (record : LiveOrderRecord) : gen (Price * Quantity * bool) :=
  variant_roll ← below 100;
  if variant_roll <? 50 then eret (lr_price record, Z.max 1 (lr_remaining_quantity record / 2), true)
  else if variant_roll <? 75 then
    more ← between 1 (max_quantity cfg);
    eret (lr_price record, u64 (lr_remaining_quantity record + more), false)
  else
    new_price ← passive_price (lr_instrument_id record) (lr_side record);
    eret (new_price, lr_remaining_quantity record,
          (new_price =? lr_price record) && (lr_remaining_quantity record <=? lr_remaining_quantity record)).

Definition emit_replace (use_stale : bool) (instrument_id : InstrumentId) (side : Side) : gen unit :=
  s ← eget;
  if LiveIndex.is_empty (live (tracker s)) then emit_downgraded instrument_id side
  else
    record ← draw_live;
    x ← draw_replacement record;
    target ← (if use_stale then draw_retired else eret (ref_of record));
    sequence ← take_id take_command_sequence;
    client ← take_id take_client_order_id;
    emit (CmdReplace (replace_order sequence (rr_account_id target) (rr_client_order_id target) client
                        (rr_instrument_id target) x.1.1 x.1.2)) ;;
    record_kind (if x.2 : bool then ReplacePriorityPreserving else ReplacePriorityLosing) false.

Definition emit_immediate (instrument_id : InstrumentId) (side : Side) : gen unit :=
  x ← next;
  let fill_or_kill := negb (Z.land x 1 =? 0) in
  price ← crossing_price instrument_id side;
  match price with
  | None => emit_downgraded instrument_id side
  | Some price =>
      emit_aggressive instrument_id side price
        (if fill_or_kill then fok_max_quantity cfg else aggressive_max_quantity cfg)
        (if fill_or_kill then FOK else IOC) (if fill_or_kill then Fok else Ioc)
  end.

(** One turn of the operation phase. *)
Definition operation : gen unit :=
  let resting_edge := new_resting_pct (mix cfg) in
  let crossing_edge := u32 (resting_edge + crossing_pct (mix cfg)) in
  let cancel_edge := u32 (crossing_edge + cancel_pct (mix cfg)) in
  let replace_edge := u32 (cancel_edge + replace_pct (mix cfg)) in
  roll ← below 100;
  x ← next;
  instrument_id ← instrument_of x;
  x ← next;
  let side := if negb (Z.land x 1 =? 0) then Buy else Sell in
  if roll <? resting_edge then emit_resting instrument_id side ;; record_kind Resting false
  else if roll <? crossing_edge then emit_crossing instrument_id side
  else
    use_stale ← draw_stale;
    if roll <? cancel_edge then emit_cancel use_stale instrument_id side
    else if roll <? replace_edge then emit_replace use_stale instrument_id side
    else emit_immediate instrument_id side.

Fixpoint times (n : nat) (m : gen unit) : gen unit :=
  match n with O => eret tt | S n => m ;; times n m end.

Fixpoint for_each {A} (l : list A) (f : A → gen unit) : gen unit :=
  match l with [] => eret tt | x :: l => f x ;; for_each l f end.

(** The starting book; the instruments are [1] to [instrument_count]. *)
Definition seed_phase : gen unit :=
  for_each (seqZ 1 (instrument_count cfg)) (λ id,
    times (Z.to_nat (initial_orders_per_side cfg)) (emit_resting id Buy ;; emit_resting id Sell)).

Definition operation_phase : gen unit := times (Z.to_nat (operation_count cfg)) operation.

Record Result := mkWorkload {
  w_seed : list ExchangeCommand;
  w_operations : list ExchangeCommand;
  w_kinds : list OpKind;
  w_counts : WorkloadCounts;
  resting_orders_after_seed : Z;
  resting_orders_at_end : Z;
  bid_levels_at_end : Z;
  ask_levels_at_end : Z;
}.

Definition initial (e : MatchingEngine.t B) : State :=
  mkState e (cfg_seed cfg) first_ids (mkTracker LiveIndex.empty (DepthTracker.make (instrument_count cfg)) [] 0)
    [] no_counts.

Definition generate_workload : option Result :=
  match make (instruments cfg) kDefaultExpectedRestingOrders with
  | None => None
  | Some e =>
      match seed_phase (initial e) with
      | None => None
      | Some (_, s1, seed) =>
          match operation_phase s1 with
          | None => None
          | Some (_, s2, operations) =>
              let d := depth (tracker s2) in
              match total_levels Buy (seqZ 1 (instrument_count cfg)) d, total_levels Sell (seqZ 1 (instrument_count cfg)) d with
              | Some bids, Some asks =>
                  Some (mkWorkload seed operations (kinds s2) (counts s2) (LiveIndex.size (live (tracker s1)))
                          (LiveIndex.size (live (tracker s2))) bids asks)
              | _, _ => None
              end
          end
      end
  end.
End generator.

(** [replay] is [MatchingEngine.run]. *)

End Workload.
