(* ===== verification/WorkloadProps.v ===== *)
(** * The workload generator against the engine

    That the index and the depth follow the engine's book (Module LiveOrders), what the
    engine refuses and why (Module WorkloadState), and the theorem about the streams
    (Module WorkloadProps). *)

From S2P Require Import Prelude Types SideIndex PriceIndex MatchingBook BookSpec BookQueue BookRefinement.
From S2P Require Import Effects MatchingEngine EngineRefinement Fills EngineMatching EngineInvariant.
From S2P Require Import EngineTotal EngineStart EngineProps Reports OpenOrders ReportProps FeedEngine.
From S2P Require Import FeedGenerator Workload.

(** * The generator's records are the engine's resting orders

    [lists]: the records are the good-till-cancelled orders of the accounts' view, which
    [OpenOrders] ties to the books and the directory. The events of every command keep it. *)

Module LiveOrders.
Import PriceIndex BookQueue MatchingEngine Fills EngineMatching EngineInvariant EngineTotal Reports OpenOrders.
Import ABook (entry, queue).
Import LiveIndex Workload.

Abbreviation mirrors := (OpenOrders.mirrors everyone).
Abbreviation rids := (fmap lr_exchange_order_id).

Definition record_of (k : LiveKey) (w : open_order) : LiveOrderRecord :=
  mkRecord (op_exchange_order_id w) k.2 k.1 (op_instrument_id w) (op_side w) (op_price w) (op_remaining w).

(** But for one key, the orders of the view. *)
Definition lists (but : option LiveKey) (rs : list LiveOrderRecord) (v : view) : Prop :=
  ∀ r, r ∈ rs ↔ ∃ k w, Some k ≠ but ∧ v !! k = Some w ∧ op_time_in_force w = GTC ∧ r = record_of k w.

#[export] Instance lists_proper but : Proper ((≡ₚ) ==> eq ==> iff) (lists but).
Proof. intros rs rs' H v ? <-. unfold lists. by setoid_rewrite H. Qed.

Lemma record_of_key k w k' w' : record_of k w = record_of k' w' → k = k'.
Proof. destruct k, k'. by intros [= _ -> ->]. Qed.

Lemma lists_key but rs v k w : lists but rs v → Some k ≠ but → v !! k = Some w → op_time_in_force w = GTC →
  record_of k w ∈ rs.
Proof. intros Hl Hk Hw Ht. apply Hl. by exists k, w. Qed.

(** The views agree but for the two keys. *)
Definition agree (but : option LiveKey) (k0 : LiveKey) (v v' : view) : Prop :=
  ∀ k, Some k ≠ but → k ≠ k0 → v' !! k = v !! k.

(** The record of one order is gone. *)
Lemma lists_gone but rs l v v' k0 w : lists but rs v → Some k0 ≠ but → v !! k0 = Some w →
  rs ≡ₚ record_of k0 w :: l → NoDup (rids rs) → agree but k0 v v' → v' !! k0 = None → lists but l v'.
Proof.
  intros Hl Hk Hw Hrs Hn Ha Hv r. rewrite Hrs in Hn. apply NoDup_cons in Hn as [Hno _].
  assert (∀ r, r ∈ l → r ≠ record_of k0 w) as Hne.
  { intros x Hx ->. apply Hno. by apply list_elem_of_fmap_2. }
  split.
  - intros Hr. destruct (proj1 (Hl r)) as (k & w' & Hkb & Hw' & Ht & ->); [rewrite Hrs; by right|].
    destruct (decide (k = k0)) as [->|Hkk].
    { rewrite Hw in Hw'. injection Hw' as <-. by destruct (Hne _ Hr). }
    exists k, w'. by rewrite Ha.
  - intros (k & w' & Hkb & Hw' & Ht & ->). assert (k ≠ k0) as Hkk by (intros ->; congruence).
    rewrite Ha in Hw' by done. pose proof (lists_key _ _ _ _ _ Hl Hkb Hw' Ht) as Hin.
    rewrite Hrs in Hin. apply elem_of_cons in Hin as [E|]; [|done]. by apply record_of_key in E.
Qed.

(** An order not listed before. *)
Lemma lists_new but rs v v' k0 w : lists but rs v → Some k0 ≠ but → agree but k0 v v' → vacant k0 v →
  v' !! k0 = Some w → op_time_in_force w = GTC → lists but (record_of k0 w :: rs) v'.
Proof.
  intros Hl Hk Ha Hno Hw Ht r. rewrite elem_of_cons. split.
  - intros [->|Hr]; [by exists k0, w|]. apply Hl in Hr as (k & w' & Hkb & Hw' & Ht' & ->).
    exists k, w'. split; [done|]. split; [|done]. rewrite Ha; [done..|]. intros ->. by destruct (Hno w').
  - intros (k & w' & Hkb & Hw' & Ht' & ->). destruct (decide (k = k0)) as [->|Hkk].
    + left. congruence.
    + right. rewrite Ha in Hw' by done. by eapply lists_key.
Qed.

(** The record of one order is replaced, perhaps under another key. *)
Lemma lists_set but rs l v v' k0 w w' : lists but rs v → Some k0 ≠ but → v !! k0 = Some w →
  rs ≡ₚ record_of k0 w :: l → NoDup (rids rs) → agree but k0 v v' → v' !! k0 = Some w' → op_time_in_force w' = GTC →
  lists but (record_of k0 w' :: l) v'.
Proof.
  intros Hl Hk Hw Hrs Hn Ha Hv Ht. apply (lists_new but l (delete k0 v)); [|done| | |done|done].
  - apply (lists_gone but rs l v _ k0 w); try done; [|apply lookup_delete_eq].
    intros k _ Hkk. by rewrite lookup_delete_ne.
  - intros k Hkb Hkk. by rewrite Ha, lookup_delete_ne.
  - intros ? Hd. by rewrite lookup_delete_eq in Hd.
Qed.

(** The key that was left out is none of them. *)
Lemma lists_unbut kin rs v : lists (Some kin) rs v → vacant kin v → lists None rs v.
Proof.
  intros Hl Hv r. rewrite (Hl r). split; intros (k & w & Hk & Hw & Ht & ->); exists k, w; (split; [|done]); [done|].
  intros [= ->]. by apply (Hv w).
Qed.

Lemma lists_but kin rs v v' : lists None rs v → vacant kin v → (∀ k, k ≠ kin → v' !! k = v !! k) →
  lists (Some kin) rs v'.
Proof.
  intros Hl Hv Ha r. rewrite (Hl r). split; intros (k & w & Hk & Hw & Ht & ->); exists k, w.
  - assert (k ≠ kin) by (intros ->; by apply (Hv w)). by rewrite Ha by done; split_and!; [congruence|..].
  - assert (k ≠ kin) by (intros ->; done). rewrite Ha in Hw by done. by split_and!.
Qed.

(** Nor is it needed once its order is added. *)
Lemma lists_filled kin rs v w : lists (Some kin) rs v → v !! kin = Some w → op_time_in_force w = GTC →
  lists None (record_of kin w :: rs) v.
Proof.
  intros Hl Hw Ht. apply (lists_new None rs (delete kin v)); [|done| |by intros ? Hd; rewrite lookup_delete_eq in Hd|done|done].
  - intros r. rewrite (Hl r). split; intros (k & w' & Hk & Hw' & Ht' & ->); exists k, w'.
    + split; [done|]. rewrite lookup_delete_ne; [done|congruence].
    + apply lookup_delete_Some in Hw' as [Hne Hw']. split; [congruence|done].
  - intros k _ Hk. by rewrite lookup_delete_ne.
Qed.

(** ** The retired references name no live order *)

Definition ref_key (ref : RetiredRef) : LiveKey := (rr_account_id ref, rr_client_order_id ref).

Definition dead (m : Tracker) (v : view) : Prop := ∀ ref, ref ∈ retired m → vacant (ref_key ref) v.

Lemma dead_same m m' v v' : dead m v → retired m' = retired m →
  (∀ ref, ref ∈ retired m → vacant (ref_key ref) v → vacant (ref_key ref) v') → dead m' v'.
Proof. intros Hd E Hv ref Hr. rewrite E in Hr. by apply Hv, Hd. Qed.

Lemma dead_gone m m' v v' r k0 : dead m v → (∀ x, x ∈ retired m' → x ∈ retired m ∨ x = ref_of r) →
  ref_key (ref_of r) = k0 → v' !! k0 = None →
  (∀ ref, ref ∈ retired m → vacant (ref_key ref) v → vacant (ref_key ref) v') → dead m' v'.
Proof.
  intros Hd Hr <- Hno Hv x Hx. destruct (Hr x Hx) as [Hin| ->]; [by apply Hv, Hd|].
  intros w Hw. by rewrite Hno in Hw.
Qed.

Lemma vacant_touch q (k : LiveKey) v v' : v' !! k = touch q (v !! k) → vacant k v → vacant k v'.
Proof.
  intros E Hv w. rewrite E. unfold touch. destruct (_ =? 0); [done|]. destruct (v !! k) as [w'|] eqn:Ew; [|done].
  intros [= <-]. exact (Hv _ Ew).
Qed.

Lemma vacant_same (k : LiveKey) v v' : v' !! k = v !! k → vacant k v → vacant k v'.
Proof. intros E Hv w. rewrite E. apply Hv. Qed.

Lemma vacant_delete (k k0 : LiveKey) v : vacant k v → vacant k (delete k0 v).
Proof. intros Hv w [_ Hw]%lookup_delete_Some. by apply Hv. Qed.

(** ** What is true of the records on their own *)

Section tracker.
Context (N cb : Z) (owner : AccountId * ClientOrderId).

(** In range, with prices up to [pb], quantities up to [qb] and client ids below [cb]. *)
Definition bounded (pb qb : Z) (r : LiveOrderRecord) : Prop :=
  1 ≤ lr_instrument_id r ≤ N ∧ 1 ≤ lr_price r ≤ pb ∧ 1 ≤ lr_remaining_quantity r ≤ qb ∧
  lr_client_order_id r < cb.

Definition ref_ok (ref : RetiredRef) : Prop := 1 ≤ rr_instrument_id ref ≤ N ∧ rr_client_order_id ref < cb.

Definition ring_ok (m : Tracker) : Prop :=
  vsize (retired m) ≤ 1024 ∧ 0 ≤ retired_cursor m < 1024 ∧ Forall ref_ok (retired m).

(** Everything but the orders themselves; ids are below [next]. *)
Record base (pb qb next : Z) (m : Tracker) : Prop := mkBase {
  bs_index : ok (live m);
  bs_depth : DepthTracker.counts N (depth m) (records_ (live m));
  bs_bounded : Forall (bounded pb qb) (records_ (live m));
  bs_below : Forall (λ r, 0 ≤ lr_exchange_order_id r < next) (records_ (live m));
  bs_ring : ring_ok m;
}.

Lemma base_mono pb qb next pb' qb' next' m : base pb qb next m → pb ≤ pb' → qb ≤ qb' → next ≤ next' →
  base pb' qb' next' m.
Proof.
  intros [] Hp Hq Hn. constructor; try done.
  - eapply Forall_impl; [exact bs_bounded0|]. unfold bounded. intros r Hr. lia.
  - eapply Forall_impl; [exact bs_below0|]. intros r Hr. cbn in *. lia.
Qed.

Lemma base_nodup pb qb next m : base pb qb next m → NoDup (rids (records_ (live m))).
Proof. intros []. by apply ok_nodup. Qed.

(** Distinct ids below a number are no more than it. *)
Lemma base_size pb qb next m : 0 ≤ next → base pb qb next m → vsize (records_ (live m)) ≤ next.
Proof.
  intros Hn Hb. pose proof (base_nodup _ _ _ _ Hb) as Hd.
  assert (rids (records_ (live m)) ⊆+ seqZ 0 next) as Hs.
  { apply NoDup_submseteq; [done|]. intros i (r & -> & Hr)%list_elem_of_fmap. apply elem_of_seqZ.
    pose proof (bs_below _ _ _ _ Hb) as Hf. rewrite Forall_forall in Hf. specialize (Hf r Hr). lia. }
  apply submseteq_length in Hs. rewrite length_fmap, length_seqZ in Hs. unfold vsize. lia.
Qed.

Lemma remember_ok ref m : ring_ok m → ref_ok ref → ∃ m', remember_retired ref m = Some m' ∧ ring_ok m' ∧
  live m' = live m ∧ depth m' = depth m ∧ ∀ x, x ∈ retired m' → x ∈ retired m ∨ x = ref.
Proof.
  intros (Hs & Hc & Hf) Hr. unfold remember_retired. destruct (Z.ltb_spec (vsize (retired m)) 1024).
  - eexists. split; [done|]. split; [|split_and!; [done..|]].
    + split; cbn; [rewrite vsize_snoc; lia|]. split; [done|]. apply Forall_app. split; [done|by constructor].
    + intros x [|?%list_elem_of_singleton]%elem_of_app; auto.
  - rewrite vset_Some by lia. cbn [mbind option_bind]. eexists. split; [done|]. split; [|split_and!; [done..|]].
    + split; cbn; rewrite vsize_vput; [done|]. split; [|by apply Forall_insert].
      assert (vsize (retired m) = 1024) as -> by lia. apply Z.mod_pos_bound. lia.
    + intros x (i & Hi)%list_elem_of_lookup. cbn in Hi. unfold vput in Hi.
      apply list_lookup_insert_Some in Hi as [(_ & -> & _)|[_ Hi]]; [by right|left].
      by eapply list_elem_of_lookup_2.
Qed.

Lemma removed_fold pb qb next m r k : base pb qb next m → r ∈ records_ (live m) → ∃ m',
  fold_event owner (EvRemoved (mkBookOrderRemoved k (lr_instrument_id r) (lr_exchange_order_id r)
    (lr_side r) (lr_price r))) m = Some m' ∧
  base pb qb next m' ∧ records_ (live m) ≡ₚ r :: records_ (live m') ∧
  ∀ x, x ∈ retired m' → x ∈ retired m ∨ x = ref_of r.
Proof.
  intros [Hx Hd Hb Hi Hr] Hin. destruct (erase_spec (live m) r Hx Hin) as (x' & Ex & Hx' & Hperm).
  assert (1 ≤ lr_instrument_id r ≤ N ∧ ref_ok (ref_of r)) as [Hr1 Hr2].
  { rewrite Forall_forall in Hb. by destruct (Hb r Hin) as (? & _ & _ & ?). }
  rewrite Hperm in Hd, Hb, Hi. apply Forall_cons in Hb as [_ Hb], Hi as [_ Hi].
  destruct (DepthTracker.on_removed_counts N (depth m) _ r Hd Hr1) as (d' & Ed & Hd').
  destruct (remember_ok (ref_of r) (with_depth d' m) Hr Hr2) as (m1 & Em & Hr' & El & Edp & Href).
  exists (with_live x' m1). cbn [fold_event bx_instrument_id bx_side bx_price bx_exchange_order_id].
  rewrite Ed. cbn [mbind option_bind]. rewrite (find_spec _ _ Hx Hin). cbn [mbind option_bind].
  rewrite Em. cbn [mbind option_bind]. rewrite El. cbn [live with_depth]. rewrite Ex.
  split; [done|]. split; [|split; [exact Hperm|exact Href]]. constructor; cbn; try done. by rewrite Edp.
Qed.

Lemma counts_same n d r r' l : lr_instrument_id r' = lr_instrument_id r → lr_side r' = lr_side r →
  lr_price r' = lr_price r → DepthTracker.counts n d (r :: l) → DepthTracker.counts n d (r' :: l).
Proof.
  intros E1 E2 E3 (Hn & Hd & Hs & Hc). split; [done|]. split; [done|]. split; [done|].
  intros id sd Hi. destruct (Hc id sd Hi) as (x & Ex & Hp). exists x. split; [done|]. intros p.
  rewrite Hp, !DepthTracker.count_record. unfold DepthTracker.rests_at. by rewrite E1, E2, E3.
Qed.

(** An order changes in place. *)
Lemma updated_fold pb qb next m r f : base pb qb next m → r ∈ records_ (live m) → bounded pb qb (f r) →
  lr_exchange_order_id (f r) = lr_exchange_order_id r → lr_instrument_id (f r) = lr_instrument_id r →
  lr_side (f r) = lr_side r → lr_price (f r) = lr_price r →
  ∃ x' l, update (lr_exchange_order_id r) f (live m) = Some x' ∧ base pb qb next (with_live x' m) ∧
    records_ (live m) ≡ₚ r :: l ∧ records_ x' ≡ₚ f r :: l.
Proof.
  intros [Hx Hd Hb Hi Hr] Hin Hf E0 E1 E2 E3.
  destruct (update_spec (live m) r f Hx Hin E0) as (x' & l & Eu & Hx' & Hp & Hp').
  exists x', l. split; [done|]. split; [|done]. rewrite Hp in Hd, Hb, Hi.
  apply Forall_cons in Hb as [_ Hb], Hi as [Hir Hi]. constructor; cbn; try done.
  - rewrite Hp'. by apply (counts_same N (depth m) r).
  - rewrite Hp'. by constructor.
  - rewrite Hp'. constructor; [by rewrite E0|done].
Qed.

Lemma added_fold pb qb next m r k : base pb qb next m → bounded pb qb r → lr_exchange_order_id r = next →
  lr_account_id r = owner.1 → lr_client_order_id r = owner.2 → 0 ≤ next < 2 ^ 63 → ∃ m',
  fold_event owner (EvAdded (mkBookOrderAdded k (lr_instrument_id r) (lr_exchange_order_id r) (lr_side r)
    (lr_price r) (lr_remaining_quantity r))) m = Some m' ∧
  base pb qb (next + 1) m' ∧ records_ (live m') ≡ₚ r :: records_ (live m) ∧ retired m' = retired m.
Proof.
  intros Hbase Hb Hid Ho1 Ho2 Hn. pose proof (base_size _ _ _ _ (proj1 Hn) Hbase) as Hsz.
  pose proof Hbase as [Hx Hd Hbs Hi Hr].
  destruct (insert_spec (live m) r Hx) as [Hx' Hp]; [lia| |].
  { intros (r' & E & Hr')%list_elem_of_fmap. rewrite Forall_forall in Hi. specialize (Hi r' Hr'). cbn in Hi. lia. }
  destruct (DepthTracker.on_added_counts N (depth m) _ r Hd (proj1 Hb)) as (d' & Ed & Hd'); [lia|].
  exists (with_live (insert r (live m)) (with_depth d' m)). cbn [fold_event ba_instrument_id ba_side ba_price].
  rewrite Ed. cbn [mbind option_bind]. split; [do 3 f_equal; rewrite <-Ho1, <-Ho2; by destruct r|]. split; [|done].
  constructor; cbn; try done.
  - by rewrite Hp.
  - rewrite Hp. by constructor.
  - rewrite Hp. constructor; [lia|]. eapply Forall_impl; [exact Hi|]. intros x Hx1. cbn in *. lia.
Qed.

(** ** The fills of an order *)

Lemma base_in pb qb next m r : base pb qb next m → r ∈ records_ (live m) → bounded pb qb r.
Proof. intros [] Hr. rewrite Forall_forall in bs_bounded0. by apply bs_bounded0. Qed.

Definition fill_listed (kin : LiveKey) (id : InstrumentId) (v : view) (x : fill) : Prop :=
  fill_key x ≠ kin ∧ v !! fill_key x = Some (resting_view id (fl_order x)) ∧
  bo_time_in_force (fl_order x) = GTC ∧ 0 ≤ fl_after x ≤ bo_remaining_quantity (fl_order x).

Section fills.
Context (o : ExchangeRestingOrder) (cs : CommandSequence) (pb qb next : Z).

Abbreviation kin := (incoming_key o).
Abbreviation id := (ero_instrument_id o).

(** One trade, and what becomes of the resting order. *)
Lemma fill_fold x n k rem m v : base pb qb next m → lists (Some kin) (records_ (live m)) v →
  dead m v → fill_listed kin id v x → let v' := track (trade_event o cs n rem x) v in
  (∀ k, k ≠ kin → k ≠ fill_key x → v' !! k = v !! k) ∧
  ∃ m', fold_event owner (resting_event id k x) m = Some m' ∧ base pb qb next m' ∧
    lists (Some kin) (records_ (live m')) v' ∧ dead m' v'.
Proof.
  intros Hb Hl Hdead (Hne & Hv & Ht & Ha) v'.
  assert (∀ k, v' !! k = if decide (kin = k) then touch rem (v !! k)
    else if decide (fill_key x = k) then touch (fl_after x) (v !! k) else v !! k) as Hv'.
  { intros k'. apply (trade_lookup everyone). congruence. }
  assert (agree (Some kin) (fill_key x) v v') as Hag.
  { intros k' H1 H2. by rewrite Hv', !decide_False by congruence. }
  split; [intros; apply Hag; congruence|]. set (w := resting_view id (fl_order x)).
  assert (Some (fill_key x) ≠ Some kin) as Hne' by congruence.
  assert (∀ k', vacant k' v → vacant k' v') as Hfade.
  { intros k' Hk'. specialize (Hv' k'). repeat case_decide; first [by eapply vacant_touch|by eapply vacant_same]. }
  pose proof (lists_key _ _ _ _ _ Hl Hne' Hv Ht) as Hin.
  pose proof (base_in _ _ _ _ _ Hb Hin) as (Hi & Hp & Hq & Hcb).
  pose proof (base_nodup _ _ _ _ Hb) as Hnd. set (r := record_of (fill_key x) w) in *.
  unfold resting_event. destruct (Z.eqb_spec (fl_after x) 0) as [Ez|Ez].
  - destruct (removed_fold pb qb next m r k Hb Hin) as (m' & E & Hb' & Hperm & Href).
    assert (v' !! fill_key x = None) as Hno by (by rewrite Hv', decide_False, decide_True, Ez by congruence).
    exists m'. split; [exact E|]. split; [done|]. split.
    + by apply (lists_gone _ _ _ v _ (fill_key x) w Hl Hne' Hv Hperm Hnd Hag).
    + by apply (dead_gone m m' v v' r (fill_key x) Hdead Href); [by destruct (fill_key x)|..|auto].
  - destruct (updated_fold pb qb next m r (with_remaining (fl_after x)) Hb Hin) as (x' & l & E & Hb' & Hp1 & Hp2);
      [|done..|].
    { split; [done|]. split; [done|]. split; [cbn in Hq |- *; lia|exact Hcb]. }
    exists (with_live x' m). cbn [fold_event]. unfold set_remaining_quantity.
    cbn [br_exchange_order_id br_new_remaining_quantity].
    change (bo_exchange_order_id (fl_order x)) with (lr_exchange_order_id r). rewrite E.
    split; [done|]. split; [done|]. split; [|by apply (dead_same m _ v); auto]. cbn [live with_live]. rewrite Hp2.
    change (with_remaining (fl_after x) r) with (record_of (fill_key x) (with_left (fl_after x) w)).
    apply (lists_set _ _ _ v _ (fill_key x) w _ Hl Hne' Hv Hp1 Hnd Hag); [|done].
    rewrite Hv', decide_False, decide_True by congruence. unfold touch. rewrite (proj2 (Z.eqb_neq _ _) Ez).
    by rewrite Hv.
Qed.

Lemma fills_fold fs : ∀ n rem m v, base pb qb next m → lists (Some kin) (records_ (live m)) v →
  dead m v → NoDup (fill_key <$> fs) → (∀ x, x ∈ fs → fill_listed kin id v x) →
  ∃ m', fold_events owner (fill_events o cs n rem fs) m = Some m' ∧ base pb qb next m' ∧
    lists (Some kin) (records_ (live m')) (track_all (fill_events o cs n rem fs) v) ∧
    dead m' (track_all (fill_events o cs n rem fs) v).
Proof.
  induction fs as [|x fs IH]; intros n rem m v Hb Hl Hdead Hnd Hfs; [by exists m|].
  rewrite fmap_cons in Hnd. apply NoDup_cons in Hnd as [Hno Hnd].
  destruct (fill_fold x n (next_seq n) (rem - fl_quantity x) m v Hb Hl Hdead) as [Hother (m1 & E1 & Hb1 & Hl1 & Hd1)];
    [apply Hfs; by left|].
  cbn [fill_events fold_events track_all]. change (fold_event owner (trade_event _ _ _ _ _) m) with (Some m).
  cbn [mbind option_bind]. rewrite E1. cbn [mbind option_bind].
  set (v1 := track (trade_event o cs n (rem - fl_quantity x) x) v) in *.
  assert (track (resting_event id (next_seq n) x) v1 = v1) as ->.
  { unfold resting_event. by destruct (fl_after x =? 0). }
  apply IH; [done..|]. intros y Hy. destruct (Hfs y) as (H1 & H2 & H3); [by right|].
  split; [done|]. split; [|done]. rewrite Hother; [done..|]. intros E. apply Hno. rewrite <-E.
  by apply list_elem_of_fmap_2.
Qed.
End fills.

(** ** An order submitted *)

Section submit.
Context (n : Z) (o : ExchangeRestingOrder) (cs : CommandSequence) (b : book) (e : eng) (v : view).
Context (pb qb : Z) (m : Tracker).

Abbreviation kin := (incoming_key o).
Abbreviation id := (ero_instrument_id o).

Context (HI : inv n e) (Hk : knows_instrument id e = true) (Hb : book_for id e = Some b).
Context (Hq : 0 < ero_remaining_quantity o < 2 ^ 64).
Context (HM : mirrors e (delete kin v)) (Hin : v !! kin = Some (incoming_view o)).
Context (Hbase : base pb qb (ero_exchange_order_id o) m).
Context (Hnext : 0 ≤ ero_exchange_order_id o < 2 ^ 63) (Howner : owner = kin).
Context (Hid : 1 ≤ id ≤ N) (Hprice : 1 ≤ ero_price o ≤ pb) (Hqty : ero_remaining_quantity o ≤ qb).
Context (Hl : lists (Some kin) (records_ (live m)) v) (Hdead : dead m v) (Hcb : kin.2 < cb).

Lemma submit_watched : agreed_incoming everyone o (ero_remaining_quantity o) v.
Proof. intros _. rewrite Hin, (proj2 (Z.eqb_neq _ _)) by lia. by destruct o. Qed.

Lemma fills_listed x : x ∈ oc_fills (outcome_of o b) → fill_listed kin id v x.
Proof.
  intros Hx. pose proof (EngineTotal.submit_book n o b e HI Hk Hb) as Hok.
  destruct (fill_sound (ero_side o) (ero_price o) _ _ x (Z.lt_le_incl _ _ (proj1 Hq))
    (book_live _ _ _ Hok) Hx) as (Hxq & Hfq & Ha & _).
  destruct (queued_view everyone o b e v Hk Hb HM _ _ Hxq I) as (Hne & Hv & _).
  destruct (bk_entry _ _ Hok _ _ Hxq) as (_ & _ & _ & Ht). split; [done|]. split; [done|]. split; [done|].
  split; [done|]. unfold fl_after. lia.
Qed.

Lemma fills_apart : NoDup (fill_key <$> oc_fills (outcome_of o b)).
Proof.
  destruct (fill_prefix (ero_side o) (ero_price o) (queue (contra (ero_side o)) b) (ero_remaining_quantity o))
    as (gone & rest & E & [tl Htl] & _).
  pose proof (EngineTotal.submit_book n o b e HI Hk Hb) as Hok.
  assert (NoDup ((λ x, order_key x.2) <$> queue (contra (ero_side o)) b)) as Hn.
  { apply NoDup_fmap_2_strong; [|eapply NoDup_fmap_1; by apply (book_queue_nodup n b)].
    intros x y Hx Hy Ek. by apply (queue_apart everyone n o b e v HI Hk Hb HM (contra (ero_side o)) x y). }
  rewrite Htl, <-E, fmap_app in Hn. apply NoDup_app in Hn as [Hn _]. by rewrite <-list_fmap_compose in Hn.
Qed.

Lemma submit_fold k : ∃ m', fold_events owner (submit_events o cs b k) m = Some m' ∧
  base pb qb (ero_exchange_order_id o + 1) m' ∧
  lists None (records_ (live m')) (track_all (submit_events o cs b k) v) ∧
  dead m' (track_all (submit_events o cs b k) v).
Proof.
  destruct (fills_fold o cs pb qb _ (oc_fills (outcome_of o b)) k (ero_remaining_quantity o) m v Hbase Hl
    Hdead fills_apart fills_listed) as (m1 & E1 & Hb1 & Hl1 & Hd1).
  destruct (matched_view everyone n o cs b e v HI Hk Hb Hq HM submit_watched k) as (_ & Hleft & _).
  unfold fill_view in Hleft. specialize (Hleft I). set (v1 := track_all _ v) in *.
  assert (∀ evs m2 v2, fold_events owner evs m1 = Some m2 → track_all evs v1 = v2 →
    fold_events owner (fill_events o cs k (ero_remaining_quantity o) (oc_fills (outcome_of o b)) ++ evs) m = Some m2 ∧
    track_all (fill_events o cs k (ero_remaining_quantity o) (oc_fills (outcome_of o b)) ++ evs) v = v2) as Happ.
  { intros evs m2 v2 E2 E3. rewrite track_all_app. split; [|done]. revert E1 E2. generalize m m1.
    generalize (fill_events o cs k (ero_remaining_quantity o) (oc_fills (outcome_of o b))) as l.
    induction l as [|ev l IH]; intros m3 m4; [by intros [= ->]|]. cbn [app fold_events].
    destruct (fold_event owner ev m3) as [m5|]; [|done]. cbn [mbind option_bind]. apply IH. }
  pose proof (EngineTotal.submit_book n o b e HI Hk Hb) as Hok.
  pose proof (fill_remaining_range (ero_side o) (ero_price o) _ _ (Z.lt_le_incl _ _ (proj1 Hq))
    (book_live _ _ (contra (ero_side o)) Hok)) as Hrem.
  change (fill_queue _ _ _ _) with (outcome_of o b) in Hrem.
  unfold submit_events, rest_events. destruct (rests (matched o b)) eqn:Hr.
  - apply andb_true_iff in Hr as [Ht%bool_decide_eq_true Hz%negb_true_iff%Z.eqb_neq].
    cbn [matched ero_with_remaining ero_time_in_force ero_remaining_quantity] in Ht, Hz.
    rewrite (proj2 (Z.eqb_neq _ _) Hz) in Hleft. set (w := with_left (oc_remaining (outcome_of o b)) (incoming_view o)) in *.
    destruct (added_fold pb qb (ero_exchange_order_id o) m1 (record_of kin w)
      (seq_after k (oc_fills (outcome_of o b))) Hb1) as (m2 & E2 & Hb2 & Hp2 & Href); try done.
    { split; [done|]. split; [done|]. split; [cbn; lia|exact Hcb]. }
    { by rewrite Howner. } { by rewrite Howner. }
    set (ev := EvAdded _) in *. destruct (Happ [ev] m2 v1) as [-> ->]; [|done|].
    { enough (fold_event owner ev m1 = Some m2) as E by (cbn [fold_events]; by rewrite E). exact E2. }
    exists m2. split; [done|]. split; [done|]. split; [rewrite Hp2; by apply lists_filled|].
    by apply (dead_same m1 _ v1).
  - destruct (Happ [] m1 v1) as [E2 E3]; [done..|]. exists m1. split; [exact E2|]. split.
    { by apply (base_mono pb qb (ero_exchange_order_id o)); [|lia..]. }
    rewrite E3. split; [|done]. apply (lists_unbut kin); [done|]. intros w Hw Ht. rewrite Hleft in Hw. unfold rests in Hr.
    cbn [matched ero_with_remaining ero_time_in_force ero_remaining_quantity] in Hr.
    destruct (oc_remaining (outcome_of o b) =? 0); [done|]. injection Hw as <-. cbn in Ht.
    by rewrite bool_decide_true in Hr.
Qed.
End submit.
End tracker.

(** ** Every command *)

Section commands.
Context (N cb n : Z) (e : eng) (v : view) (pb qb : Z) (m : Tracker).
Context (HI : inv n e) (HM : mirrors e v) (Hn : n < MatchingBook.kNil).
Context (Hnext : 0 < next_exchange_order_id_ e ≤ n + 1).
Context (Hknown : ∀ id, knows_instrument id e = true → 1 ≤ id ≤ N).
Context (Hbase : base N cb pb qb (next_exchange_order_id_ e) m) (Hl : lists None (records_ (live m)) v).
Context (Hdead : dead m v).

(** The events of [c] are folded into what the engine is left with. *)
Definition folded (c : ExchangeCommand) (e' : eng) (evs : list ExchangeEvent) : Prop :=
  ∃ m', fold_events (owner_of c) evs m = Some m' ∧ base N cb pb qb (next_exchange_order_id_ e') m' ∧
    lists None (records_ (live m')) (track_all evs v) ∧ dead m' (track_all evs v).

(** The key a command gives an order is below the bound, and not that of a retired one. *)
Record unused (k : LiveKey) : Prop := mkUnused {
  un_below : k.2 < cb;
  un_free : orders_ e !! k = None;
  un_retired : ∀ ref, ref ∈ retired m → ref_key ref ≠ k;
}.

Lemma next_fits : u64 (next_exchange_order_id_ e + 1) = next_exchange_order_id_ e + 1 ∧
  0 ≤ next_exchange_order_id_ e < 2 ^ 63.
Proof. unfold MatchingBook.kNil, SideIndex.kNil in Hn. split; [apply u64_small; unfold in_u64; lia|lia]. Qed.

Lemma rejected_folded c r : folded c (after_rejection e) [EvRejected r].
Proof. exists m. by split. Qed.

Lemma submit_next o b e1 : next_exchange_order_id_ e1 = u64 (next_exchange_order_id_ e + 1) →
  next_exchange_order_id_ (submit_state o b e1) = next_exchange_order_id_ e + 1.
Proof. rewrite (proj1 next_fits). unfold submit_state, rest_state. by destruct (rests _). Qed.

Lemma new_order_folded cmd : command_ok (CmdNew cmd) → no_price cmd ≤ pb → no_quantity cmd ≤ qb →
  unused (owner_of (CmdNew cmd)) → wp (process_new_order cmd) e (λ _ e' evs, folded (CmdNew cmd) e' evs).
Proof.
  intros Hc Hpb Hqb [Hcb _ Hnew]. simpl in Hc. destruct (new_order_reason cmd e) as [reason|] eqn:Hr.
  { eapply wp_intro; [apply (process_new_order_rejected _ _ _ Hr)|apply rejected_folded].
    intros Hk. destruct (known_book _ _ _ HI Hk) as (b & ? & _). eauto. }
  pose proof Hr as Hr'. unfold new_order_reason in Hr'.
  destruct (knows_instrument _ e) eqn:Hk; cbn [negb] in Hr'; [|done].
  destruct (Z.leb_spec (no_price cmd) 0); [done|]. destruct (Z.eqb_spec (no_quantity cmd) 0); [done|].
  case_bool_decide as Hlive; [done|]. clear Hr'. apply eq_None_not_Some in Hlive.
  destruct (known_book _ _ _ HI Hk) as (b & Hb & Hok).
  assert (price_safe (no_price cmd)) as Hp by (unfold price_safe; lia).
  destruct (process_new_order_accepted cmd n e b HI Hr Hb Hp) as [Hrun _]; [lia..|].
  eapply wp_intro; [exact Hrun|]. set (k := incoming_key (new_order cmd e)).
  set (v1 := track (accepted_event cmd e) v). destruct next_fits as [Hx Hx'].
  destruct (submit_fold N cb (owner_of (CmdNew cmd)) n (new_order cmd e) (no_command_sequence cmd) b (announced e) v1
    pb qb m) with (k := next_seq (next_event_sequence_ e)) as (m' & E & Hb' & Hl'); try done.
  - by apply (inv_counters n n).
  - simpl. lia.
  - fold k. apply mirrors_counters, (mirrors_ext _ _ (delete k v)); [|by apply mirrors_delete].
    intros k' _. unfold v1. simpl. fold k. rewrite !lookup_delete. case_decide; [done|].
    by rewrite lookup_insert_ne.
  - unfold v1. simpl. by rewrite lookup_insert_eq.
  - by apply Hknown.
  - simpl. lia.
  - apply (lists_but _ _ v); [done|by apply (mirrors_vacant everyone e)|].
    intros k' Hk'. unfold v1. simpl. by rewrite lookup_insert_ne.
  - apply (dead_same m _ v); [done..|]. intros ref Hin. apply vacant_same. unfold v1. simpl.
    apply lookup_insert_ne. symmetry. by apply Hnew.
  - exists m'. rewrite submit_next by done. split; [exact E|]. by split.
Qed.

(** The record of an order the directory locates. *)
Lemma located_record k ref b o : orders_ e !! k = Some ref → book_for (or_instrument_id ref) e = Some b →
  ABook.at_ (or_handle ref) b = Some o → order_key o = k →
  v !! k = Some (resting_view (or_instrument_id ref) o) ∧ bo_time_in_force o = GTC ∧
  record_of k (resting_view (or_instrument_id ref) o) ∈ records_ (live m).
Proof.
  intros Hr Hb Ho Hk. destruct (located_view everyone n e v k ref b o HI HM Hr Hb Ho Hk I) as [Hv Ht].
  split; [done|]. split; [done|]. by eapply lists_key.
Qed.

Lemma cancel_folded cmd : wp (process_cancel cmd) e (λ _ e' evs, folded (CmdCancel cmd) e' evs).
Proof.
  destruct (cancel_reason cmd e) as [reason|] eqn:Hr.
  { eapply wp_intro; [apply (process_cancel_rejected _ _ _ Hr)|apply rejected_folded]. }
  destruct (process_cancel_accepted cmd n e HI Hr) as (ref & b & o & Ho & Hb & Hat & Hkey & Hrun & _).
  eapply wp_intro; [exact Hrun|]. unfold cancel_reason in Hr. destruct (knows_instrument _ e) eqn:Hk; [|done].
  cbn [negb] in Hr. rewrite Ho in Hr.
  destruct (Z.eqb_spec (or_instrument_id ref) (co_instrument_id cmd)) as [Hid|]; [|done].
  rewrite <-Hid in *. destruct (located_record _ ref b o Ho Hb Hat Hkey) as (Hv & Ht & Hin).
  set (r := record_of _ _) in Hin.
  destruct (removed_fold N cb (owner_of (CmdCancel cmd)) pb qb _ m r (next_seq (next_event_sequence_ e)) Hbase Hin)
    as (m' & E & Hb' & Hp & Href).
  exists m'. cbn [fold_events]. change (fold_event _ (EvCancelled _) m) with (Some m). cbn [mbind option_bind].
  change (EvRemoved _) with (EvRemoved (mkBookOrderRemoved (next_seq (next_event_sequence_ e)) (lr_instrument_id r)
    (lr_exchange_order_id r) (lr_side r) (lr_price r))). rewrite E.
  split; [done|]. split; [exact Hb'|]. cbn [track_all track oc_account_id oc_client_order_id].
  split; [|apply (dead_gone m m' v _ r (co_account_id cmd, co_client_order_id cmd) Hdead Href); [done|by rewrite lookup_delete_eq|];
    intros; by apply vacant_delete].
  apply (lists_gone None (records_ (live m)) _ v _ (co_account_id cmd, co_client_order_id cmd)
    (resting_view (or_instrument_id ref) o)); try done; [by eapply base_nodup| |by rewrite lookup_delete_eq].
  intros k _ Hne. by rewrite lookup_delete_ne.
Qed.

(** ** Replacements *)

Section replace.
Context (cmd : ReplaceOrderCommand) (ref : OrderRef) (b : book) (o : BookOrder).
Context (Hr : orders_ e !! old_key cmd = Some ref) (Hid : or_instrument_id ref = ro_instrument_id cmd).
Context (Hb : book_for (or_instrument_id ref) e = Some b) (Ho : ABook.at_ (or_handle ref) b = Some o).
Context (Hkey : order_key o = old_key cmd) (Hun : unused (new_key cmd)).
Context (Hq : 0 < ro_new_quantity cmd < 2 ^ 64) (Hp : price_safe (ro_new_price cmd)).
Context (Hpb : ro_new_price cmd ≤ pb) (Hqb : ro_new_quantity cmd ≤ qb).

Abbreviation w := (resting_view (or_instrument_id ref) o).
Abbreviation r := (record_of (old_key cmd) w).

Lemma replace_record : v !! old_key cmd = Some w ∧ bo_time_in_force o = GTC ∧ r ∈ records_ (live m).
Proof. by apply (located_record _ ref b). Qed.

Lemma new_key_free : replacement_free everyone (CmdReplace cmd) e ∧ new_key cmd ≠ old_key cmd.
Proof. pose proof (un_free _ Hun) as Hf. split; [by right|]. intros E. by rewrite E, Hr in Hf. Qed.

(** The renamed order takes the place of the old one. *)
Lemma renamed_vacant : vacant (new_key cmd) (delete (old_key cmd) v).
Proof.
  intros w' [Hne Hw']%lookup_delete_Some.
  apply (mirrors_vacant everyone e v (new_key cmd) HM I (un_free _ Hun) w' Hw').
Qed.

Lemma rename_lookup oid k (k' : LiveKey) : track (EvReplaced (rename cmd oid k)) v !! k' =
  <[new_key cmd := renamed cmd o oid]> (delete (old_key cmd) v) !! k'.
Proof. by apply (rename_track everyone n e v cmd ref b o HI HM Hr Hb Ho Hkey). Qed.

(** Only the old id may have been retired. *)
Lemma renamed_dead oid k m' : (∀ x, x ∈ retired m' → x ∈ retired m ∨ x = ref_of r) →
  dead m' (track (EvReplaced (rename cmd oid k)) v).
Proof.
  intros Hm. destruct new_key_free as [_ Hne]. apply (dead_gone m m' v _ r (old_key cmd) Hdead Hm); [done| |].
  - by rewrite rename_lookup, lookup_insert_ne, lookup_delete_eq.
  - intros x Hx Hv. eapply vacant_same; [|by apply (vacant_delete _ (old_key cmd))].
    rewrite rename_lookup. apply lookup_insert_ne. symmetry. by apply (un_retired _ Hun).
Qed.

Lemma in_place_folded k : preserves_priority cmd o = true →
  folded (CmdReplace cmd) (replaced_in_place cmd ref o b e)
    (replaced_events cmd (bo_exchange_order_id o) k
      (λ n, EvReduced (mkBookOrderReduced n (ro_instrument_id cmd) (bo_exchange_order_id o)
        (bo_side o) (bo_price o) (ro_new_quantity cmd)))).
Proof.
  intros [Ep%Z.eqb_eq _]%andb_true_iff. destruct replace_record as (Hv & Ht & Hin).
  pose proof (base_in _ _ _ _ _ _ _ Hbase Hin) as (Hi1 & Hp1 & Hq1 & Hc1). pose proof (base_nodup _ _ _ _ _ _ Hbase) as Hnd.
  pose proof (un_below _ Hun) as Hcb.
  destruct (updated_fold N cb pb qb _ m r (with_client (ro_new_client_order_id cmd)) Hbase Hin)
    as (x1 & l & E1 & Hb1 & Hl1 & Hl1'); [exact (conj Hi1 (conj Hp1 (conj Hq1 Hcb)))|done..|].
  set (r1 := with_client _ r) in *. assert (r1 ∈ records_ x1) as Hin1 by (rewrite Hl1'; by left).
  destruct (updated_fold N cb pb qb _ _ r1 (with_remaining (ro_new_quantity cmd)) Hb1 Hin1)
    as (x2 & l2 & E2 & Hb2 & Hl2 & Hl2'); [|done..|].
  { split; [done|]. split; [done|]. split; [cbn; lia|exact Hcb]. }
  cbn [live with_live] in *. exists (with_live x2 (with_live x1 m)). cbn [replaced_events fold_events fold_event].
  unfold set_client_order_id, set_remaining_quantity.
  cbn [orp_exchange_order_id orp_new_client_order_id br_exchange_order_id br_new_remaining_quantity].
  rewrite (E1 : update (bo_exchange_order_id o) _ _ = _). cbn [mbind option_bind live with_live].
  rewrite (E2 : update (bo_exchange_order_id o) _ _ = _). cbn [mbind option_bind].
  split; [done|]. split; [exact Hb2|]. split; [|apply renamed_dead; auto]. cbn [live with_live].
  assert (l ≡ₚ l2) as Hll by (rewrite Hl1' in Hl2; by apply Permutation_cons_inv in Hl2).
  rewrite Hl2', <-Hll.
  change (track_all _ v) with (track (EvReplaced (rename cmd (bo_exchange_order_id o) k)) v).
  assert (with_remaining (ro_new_quantity cmd) r1 = record_of (new_key cmd) (renamed cmd o (bo_exchange_order_id o))) as ->.
  { unfold r1, record_of, renamed, with_remaining, with_client, resting_view. cbn. by rewrite Ep, Hid. }
  assert (lists None l (delete (old_key cmd) v)) as Hdel.
  { apply (lists_gone None (records_ (live m)) l v _ (old_key cmd) w); try done; [|apply lookup_delete_eq].
    intros k' _ Hne. by rewrite lookup_delete_ne. }
  apply (lists_new None l (delete (old_key cmd) v)); try done; [|apply renamed_vacant|].
  - intros k' _ Hne. by rewrite rename_lookup, lookup_insert_ne.
  - rewrite rename_lookup. apply lookup_insert_eq.
Qed.

Lemma as_new_folded k : let b1 := removed_book (or_handle ref) o b in
  folded (CmdReplace cmd) (submit_state (replacement cmd o e) b1 (replaced_out cmd ref o b e))
    (replaced_events cmd (next_exchange_order_id_ e) k
       (λ n, EvRemoved (mkBookOrderRemoved n (ro_instrument_id cmd) (bo_exchange_order_id o)
          (bo_side o) (bo_price o))) ++
     submit_events (replacement cmd o e) (ro_command_sequence cmd) b1 (next_seq (next_seq k))).
Proof.
  intros b1. destruct replace_record as (Hv & Ht & Hin). destruct next_fits as [Hx Hx'].
  destruct (removed_fold N cb (owner_of (CmdReplace cmd)) pb qb _ m r (next_seq k) Hbase Hin) as (m1 & E1 & Hb1 & Hp1 & Href).
  set (ev := rename cmd (next_exchange_order_id_ e) k). set (v1 := track (EvReplaced ev) v).
  assert (∀ k', v1 !! k' = <[new_key cmd := renamed cmd o (next_exchange_order_id_ e)]> (delete (old_key cmd) v) !! k') as Hv1.
  { intros k'. apply rename_lookup. }
  assert (lists None (records_ (live m1)) (delete (old_key cmd) v)) as Hdel.
  { apply (lists_gone None (records_ (live m)) _ v _ (old_key cmd) w); try done;
      [by eapply base_nodup| |apply lookup_delete_eq].
    intros k' _ Hne. by rewrite lookup_delete_ne. }
  destruct new_key_free as [Hfree _].
  destruct (submit_fold N cb (owner_of (CmdReplace cmd)) n (replacement cmd o e) (ro_command_sequence cmd) b1
    (replaced_out cmd ref o b e) v1 pb qb m1) with (k := next_seq (next_seq k)) as (m' & E & Hb' & Hl'); try done.
  - apply (inv_counters n n); [|lia]. rewrite <-Hid. by apply removed_inv.
  - change (knows_instrument (ro_instrument_id cmd) e = true). rewrite <-Hid. by apply (located _ _ _ _ HI Hr).
  - pose proof Hb as Hb2. rewrite Hid in Hb2. apply (book_for_with _ b1 b e Hb2).
  - by apply (replaced_out_mirrors everyone n e v cmd ref b o HI HM Hr Hid Hb Ho Hkey Hfree).
  - rewrite Hv1. change (incoming_key _) with (new_key cmd). by rewrite lookup_insert_eq.
  - apply Hknown. change (knows_instrument (ro_instrument_id cmd) e = true). rewrite <-Hid. by apply (located _ _ _ _ HI Hr).
  - cbn. unfold price_safe in Hp. lia.
  - apply (lists_but _ _ (delete (old_key cmd) v)); [done|apply renamed_vacant|].
    intros k' Hne. rewrite Hv1. by rewrite lookup_insert_ne.
  - by apply renamed_dead.
  - apply (un_below _ Hun).
  - exists m'. rewrite submit_next by done. split; [|split; [exact Hb'|]].
    + assert (fold_event (owner_of (CmdReplace cmd)) (EvReplaced ev) m = Some m) as E0.
      { cbn [fold_event]. unfold set_client_order_id. rewrite update_absent; [by destruct m|apply Hbase|].
        intros (x & Ex & Hxin)%list_elem_of_fmap. pose proof (bs_below _ _ _ _ _ _ Hbase) as Hf.
        rewrite Forall_forall in Hf. specialize (Hf x Hxin). cbn in Hf, Ex. lia. }
      cbn [replaced_events app fold_events]. change (EvReplaced _) with (EvReplaced ev). rewrite E0.
      cbn [mbind option_bind]. rewrite <-Hid.
      change (EvRemoved _) with (EvRemoved (mkBookOrderRemoved (next_seq k) (lr_instrument_id r)
        (lr_exchange_order_id r) (lr_side r) (lr_price r))). rewrite E1. exact E.
    + rewrite track_all_app. exact Hl'.
Qed.
End replace.

Lemma replace_folded cmd : command_ok (CmdReplace cmd) → ro_new_price cmd ≤ pb → ro_new_quantity cmd ≤ qb →
  unused (owner_of (CmdReplace cmd)) →
  wp (process_replace cmd) e (λ _ e' evs, folded (CmdReplace cmd) e' evs).
Proof.
  intros Hc Hpb Hqb Hun. simpl in Hc. destruct (replace_reason cmd e) as [reason|] eqn:Hr.
  { eapply wp_intro; [apply (process_replace_rejected _ _ _ Hr)|apply rejected_folded]. }
  pose proof Hr as Hr'. unfold replace_reason in Hr'.
  destruct (knows_instrument _ e) eqn:Hk; cbn [negb] in Hr'; [|done].
  destruct (Z.leb_spec (ro_new_price cmd) 0); [done|]. clear Hr'.
  assert (price_safe (ro_new_price cmd)) as Hp by (unfold price_safe; lia).
  destruct (process_replace_accepted cmd n e HI Hr Hp Hn ltac:(lia))
    as (ref & b & o & Ho & Hid & Hb & Hok & Hat & Hkey & Hpos & Hrun).
  assert (book_for (or_instrument_id ref) e = Some b) as Hb' by by rewrite Hid.
  assert (0 < ro_new_quantity cmd < 2 ^ 64) as Hq by lia.
  unfold wp. rewrite Hrun. destruct (preserves_priority cmd o) eqn:Epp.
  - rewrite (replace_in_place_run cmd ref b o e n) by (done || lia).
    by apply (in_place_folded cmd ref b o Ho Hid Hb' Hat Hkey Hun).
  - destruct (replace_as_new_run cmd ref b o e n) as [-> _]; try done; try lia.
    by apply (as_new_folded cmd ref b o Ho Hid Hb' Hat Hkey Hun Hq Hp Hpb Hqb).
Qed.

(** Prices and quantities of a command within bounds, and its id new. *)
Definition within (c : ExchangeCommand) : Prop :=
  match c with
  | CmdNew c => no_price c ≤ pb ∧ no_quantity c ≤ qb ∧ unused (owner_of (CmdNew c))
  | CmdCancel _ => True
  | CmdReplace c => ro_new_price c ≤ pb ∧ ro_new_quantity c ≤ qb ∧ unused (owner_of (CmdReplace c))
  end.

Lemma process_folded c : command_ok c → within c → wp (process c) e (λ _ e' evs, folded c e' evs).
Proof.
  intros Hc Hw. destruct c as [c|c|c]; cbn [within] in Hw.
  - destruct Hw as (? & ? & ?). by apply new_order_folded.
  - apply cancel_folded.
  - destruct Hw as (? & ? & ?). by apply replace_folded.
Qed.
End commands.

End LiveOrders.

(** * What the workload generator knows of its engine

    The generator plays into a real engine; [good] ties that engine, through its
    specification and the view of its events, to the records the generator keeps.
    [good_step]: a command that the records justify is played, and its answer is known. *)

Module WorkloadState.
Import PriceIndex BookQueue MatchingEngine EngineRefinement BookRefinement Fills EngineMatching EngineInvariant EngineTotal EngineStart.
Import EngineProps Reports OpenOrders.
Import FeedEngine (tracked).
Import LiveIndex Workload LiveOrders.

(** ** Rejections *)

Definition rejections (evs : list ExchangeEvent) : list RejectReason :=
  omap (λ ev, match ev with EvRejected r => Some (orj_reason r) | _ => None end) evs.

Lemma rejections_app evs evs' : rejections (evs ++ evs') = rejections evs ++ rejections evs'.
Proof. apply omap_app. Qed.

(** The check a command fails. *)
Definition reason_of (c : ExchangeCommand) (e : eng) : option RejectReason :=
  match c with
  | CmdNew c => new_order_reason c e
  | CmdCancel c => cancel_reason c e
  | CmdReplace c => replace_reason c e
  end.

Lemma fill_events_quiet o cs fs : ∀ n rem, rejections (fill_events o cs n rem fs) = [].
Proof.
  induction fs as [|x fs IH]; intros n rem; [done|]. simpl. unfold resting_event. destruct (_ =? _); simpl; apply IH.
Qed.

Lemma submit_events_quiet o cs b n : rejections (submit_events o cs b n) = [].
Proof.
  unfold submit_events. rewrite rejections_app, fill_events_quiet. unfold rest_events. by destruct (rests _).
Qed.

Lemma process_rejections n e c : inv n e → n < MatchingBook.kNil → command_ok c →
  wp (process c) e (λ _ _ evs, rejections evs = option_list (reason_of c e)).
Proof.
  intros HI Hn Hc. destruct c as [c|c|c]; cbn [process reason_of command_ok] in *.
  - destruct (new_order_reason c e) as [r|] eqn:Hr.
    { eapply wp_intro; [apply (process_new_order_rejected _ _ _ Hr)|done].
      intros Hk. destruct (known_book _ _ _ HI Hk) as (b & ? & _). eauto. }
    pose proof Hr as Hr'. unfold new_order_reason in Hr'.
    destruct (knows_instrument _ e) eqn:Hk; cbn [negb] in Hr'; [|done].
    destruct (Z.leb_spec (no_price c) 0); [done|]. destruct (known_book _ _ _ HI Hk) as (b & Hb & _).
    destruct (process_new_order_accepted c n e b HI Hr Hb) as [Hrun _]; [unfold price_safe; lia|lia..|].
    eapply wp_intro; [exact Hrun|]. apply submit_events_quiet.
  - destruct (cancel_reason c e) as [r|] eqn:Hr.
    { by eapply wp_intro; [apply (process_cancel_rejected _ _ _ Hr)|]. }
    destruct (process_cancel_accepted c n e HI Hr) as (ref & b & o & _ & _ & _ & _ & Hrun & _).
    by eapply wp_intro; [exact Hrun|].
  - destruct (replace_reason c e) as [r|] eqn:Hr.
    { by eapply wp_intro; [apply (process_replace_rejected _ _ _ Hr)|]. }
    pose proof Hr as Hr'. unfold replace_reason in Hr'.
    destruct (knows_instrument _ e); cbn [negb] in Hr'; [|done].
    destruct (Z.leb_spec (ro_new_price c) 0); [done|]. clear Hr'.
    assert (price_safe (ro_new_price c)) as Hp by (unfold price_safe; lia).
    destruct (process_replace_accepted c n e HI Hr Hp Hn) as (ref & b & o & Ho & Hid & Hb & Hok & Hat & _ & Hq & Hrun);
      [lia|].
    assert (0 < ro_new_quantity c < 2 ^ 64) as Hq' by lia.
    unfold wp. rewrite Hrun. destruct (preserves_priority c o) eqn:Epp.
    + by rewrite (replace_in_place_run c ref b o e n) by (done || lia).
    + destruct (replace_as_new_run c ref b o e n) as [-> _]; try done; try lia.
      rewrite rejections_app, submit_events_quiet. done.
Qed.

(** ** The keys of the view *)

Definition keys_below (cb : Z) (v : view) : Prop := ∀ k w, v !! k = Some w → k.2 < cb.

Lemma keys_below_insert cb v k w : keys_below cb v → k.2 < cb → keys_below cb (<[k := w]> v).
Proof. intros Hv Hk k' w' [[<- _]|[_ Hw]]%lookup_insert_Some; [done|by eapply Hv]. Qed.

Lemma keys_below_delete cb v k : keys_below cb v → keys_below cb (delete k v).
Proof. intros Hv k' w' [_ Hw]%lookup_delete_Some. by eapply Hv. Qed.

Lemma keys_below_take cb v leg : keys_below cb v → keys_below cb (take leg v).
Proof.
  intros Hv k w. rewrite take_lookup. case_decide as E; [|apply Hv]. unfold touch. destruct (_ =? 0); [done|].
  destruct (v !! k) as [w'|] eqn:Ew; [|done]. intros _. exact (Hv _ _ Ew).
Qed.

Lemma track_below c cb ev v : answers c ev → (owner_of c).2 < cb → keys_below cb v → keys_below cb (track ev v).
Proof.
  intros Ha Hc Hv. destruct ev as [ev|ev|ev|ev|ev|ev|ev|ev]; try done; cbn [track].
  - apply keys_below_insert; [done|]. destruct c; try done. destruct Ha as [-> _]. exact Hc.
  - by apply keys_below_delete.
  - destruct (v !! _); [|done]. apply keys_below_insert; [by apply keys_below_delete|].
    destruct c; try done. destruct Ha as (_ & -> & _). exact Hc.
  - by apply keys_below_take, keys_below_take.
Qed.

Lemma track_all_below c cb evs : ∀ v, Forall (answers c) evs → (owner_of c).2 < cb → keys_below cb v →
  keys_below cb (track_all evs v).
Proof.
  induction evs as [|ev evs IH]; intros v Ha Hc Hv; [done|]. apply Forall_cons in Ha as [Ha Has].
  apply IH; [done..|]. by eapply track_below.
Qed.

(** ** The state *)

Lemma base_widen N cb cb' pb pb' qb qb' next m : base N cb pb qb next m → cb ≤ cb' → pb ≤ pb' → qb ≤ qb' →
  base N cb' pb' qb' next m.
Proof.
  intros [Hx Hd Hb Hi (Hs & Hc & Hr)] Hcb Hp Hq. constructor; try done.
  - eapply Forall_impl; [exact Hb|]. unfold bounded. intros r Hr'. lia.
  - split; [done|]. split; [done|]. eapply Forall_impl; [exact Hr|]. unfold ref_ok. intros r Hr'. lia.
Qed.

Section state.
Context (N : Z).

(** [n] commands have been played; the client ids are below [cb], the prices and the
    quantities that rest up to [pb] and [qb]. *)
Record good (n cb pb qb : Z) (v : view) (f : eng) (e : real) (m : Tracker) : Prop := {
  gd_refines : ER Rep e f;
  gd_inv : inv n f;
  gd_tracked : ∃ a, tracked n f a;
  gd_mirrors : mirrors f v;
  gd_knows : ∀ id, knows_instrument id f = true ↔ 1 ≤ id ≤ N;
  gd_base : base N cb pb qb (next_exchange_order_id_ f) m;
  gd_lists : lists None (records_ (live m)) v;
  gd_dead : dead m v;
  gd_keys : keys_below cb v;
}.

Section known.
Context {n cb pb qb : Z} {v : view} {f : eng} {e : real} {m : Tracker}.
Context (HG : good n cb pb qb v f e m).

(** What the directory has is open in the view. *)
Lemma directory_open k ref : orders_ f !! k = Some ref →
  ∃ w, v !! k = Some w ∧ op_time_in_force w = GTC ∧ op_instrument_id w = or_instrument_id ref.
Proof.
  intros Hr. destruct (located _ _ _ _ (gd_inv _ _ _ _ _ _ _ _ HG) Hr) as (_ & b & o & Hb & _ & Ho & Hk).
  destruct (located_view everyone n f v k ref b o (gd_inv _ _ _ _ _ _ _ _ HG) (gd_mirrors _ _ _ _ _ _ _ _ HG)
    Hr Hb Ho Hk I) as [Hv Ht]. by exists (resting_view (or_instrument_id ref) o).
Qed.

(** A record locates an order. *)
Lemma record_located r : r ∈ records_ (live m) → 1 ≤ lr_instrument_id r ≤ N ∧
  ∃ ref, orders_ f !! ref_key (ref_of r) = Some ref ∧ or_instrument_id ref = lr_instrument_id r.
Proof.
  intros Hr. split.
  { pose proof (gd_base _ _ _ _ _ _ _ _ HG) as Hb. by destruct (base_in _ _ _ _ _ _ _ Hb Hr). }
  apply (gd_lists _ _ _ _ _ _ _ _ HG) in Hr as (k & w & _ & Hw & Ht & ->).
  destruct (mr_dir _ _ _ (gd_mirrors _ _ _ _ _ _ _ _ HG) k w I Hw Ht) as [ref Href].
  destruct (directory_open _ _ Href) as (w' & Hw' & _ & Hi). rewrite Hw in Hw'. injection Hw' as <-.
  exists ref. split; [|done]. by destruct k.
Qed.

(** A retired reference locates none. *)
Lemma retired_gone ref : ref ∈ retired m → 1 ≤ rr_instrument_id ref ≤ N ∧ orders_ f !! ref_key ref = None.
Proof.
  intros Hr. split.
  { destruct (bs_ring _ _ _ _ _ _ (gd_base _ _ _ _ _ _ _ _ HG)) as (_ & _ & Hf).
    rewrite Forall_forall in Hf. by destruct (Hf _ Hr). }
  apply eq_None_not_Some. intros [r Hd]. destruct (directory_open _ _ Hd) as (w & Hw & Ht & _).
  by apply (gd_dead _ _ _ _ _ _ _ _ HG ref Hr w).
Qed.

(** A new client id is free. *)
Lemma new_id_unused k cb' : cb ≤ k.2 < cb' → unused cb' f m k.
Proof.
  intros Hk. split; [lia|..].
  - apply eq_None_not_Some. intros [r Hd]. destruct (directory_open _ _ Hd) as (w & Hw & _ & _).
    apply (gd_keys _ _ _ _ _ _ _ _ HG) in Hw. lia.
  - intros ref Hr <-. destruct (bs_ring _ _ _ _ _ _ (gd_base _ _ _ _ _ _ _ _ HG)) as (_ & _ & Hf).
    rewrite Forall_forall in Hf. destruct (Hf _ Hr) as [_ Hlt]. cbn in Hk. lia.
Qed.

(** ** A command *)

(** The id a command gives an order is a new one. *)
Definition new_id (cb' : Z) (c : ExchangeCommand) : Prop :=
  match c with CmdCancel _ => True | _ => cb ≤ (owner_of c).2 < cb' end.

Definition in_bounds (pb qb : Z) (c : ExchangeCommand) : Prop :=
  match c with
  | CmdNew c => no_price c ≤ pb ∧ no_quantity c ≤ qb
  | CmdCancel _ => True
  | CmdReplace c => ro_new_price c ≤ pb ∧ ro_new_quantity c ≤ qb
  end.

Lemma good_step c cb' pb' qb' : n < MatchingBook.kNil → command_ok c → new_id cb' c → in_bounds pb' qb' c →
  0 < cb → cb ≤ cb' → pb ≤ pb' → qb ≤ qb' →
  ∃ e' f' evs m', process c e = Some (tt, e', evs) ∧ fold_events (owner_of c) evs m = Some m' ∧
    good (n + 1) cb' pb' qb' (track_all evs v) f' e' m' ∧ rejections evs = option_list (reason_of c f).
Proof.
  intros Hn Hc Hid Hin H0 Hcb Hp Hq. pose proof HG as [HE HI [a HT] HM HK HB HL HD HV].
  assert (replacement_free everyone c f) as Hfree.
  { destruct c as [c|c|c]; [done|done|]. right. intros _. apply (un_free _ _ _ _ (new_id_unused (new_key c) cb' Hid)). }
  destruct (wp_elim _ _ _ (process_reported everyone n f v c HI HM Hn Hc Hfree)) as ([] & f' & evs & Hf & HI' & _ & HM').
  destruct (wp_elim _ _ _ (FeedEngine.process_tracked n f a c HI HT Hn Hc)) as (? & ? & ? & Hf2 & _ & (a' & _ & HT') & _).
  rewrite Hf in Hf2. injection Hf2 as <- <- <-.
  assert (wp (process c) f (λ _ f' evs, folded N cb' v pb' qb' m c f' evs)) as Hfold.
  { eapply (process_folded N cb' n f v pb' qb' m HI HM Hn (FeedEngine.tk_next _ _ _ HT)); try done.
    - intros id. apply HK.
    - by eapply base_widen.
    - destruct c as [c|c|c]; [|done|]; destruct Hin; (split; [done|]); (split; [done|]);
        by apply new_id_unused. }
  destruct (wp_elim _ _ _ Hfold) as (? & ? & ? & Hf3 & (m' & Em & HB' & HL' & HD')).
  rewrite Hf in Hf3. injection Hf3 as <- <- <-.
  destruct (wp_elim _ _ _ (process_rejections n f c HI Hn Hc)) as (? & ? & ? & Hf4 & Hrej).
  rewrite Hf in Hf4. injection Hf4 as <- <- <-.
  destruct (represents_step (n + 1) e f c f' evs HE HI' Hf) as (e' & He & HE' & _).
  exists e', f', evs, m'. split; [done|]. split; [done|]. split; [|done].
  assert ((owner_of c).2 < cb') as Hown by (destruct c; cbn [owner_of snd] in *; lia || (cbn in Hid |- *; lia)).
  constructor; try done; [by exists a'| |].
  - intros id. destruct (process_keeps c f tt f' evs Hf) as [Es _]. unfold knows_instrument. rewrite Es. apply HK.
  - apply (track_all_below c); [by apply (ReportProps.process_answers c f tt f' evs)|done|].
    intros k w Hw. apply HV in Hw. lia.
Qed.

(** ** What it is answered *)

(** A new order may fail only for want of liquidity, and only if it must fill or be killed. *)
Lemma new_order_answer c : 1 ≤ no_instrument_id c ≤ N → 0 < no_price c → 0 < no_quantity c → cb ≤ no_client_order_id c →
  reason_of (CmdNew c) f = None ∨
  (no_time_in_force c = FOK ∧ reason_of (CmdNew c) f = Some RejectReason.InsufficientLiquidity).
Proof.
  intros Hi Hp Hq Hc. simpl. unfold new_order_reason.
  rewrite (proj2 (gd_knows _ _ _ _ _ _ _ _ HG _) Hi). cbn [negb].
  rewrite (proj2 (Z.leb_gt _ _)), (proj2 (Z.eqb_neq _ _)) by lia.
  rewrite bool_decide_false.
  2: { rewrite (un_free _ _ _ _ (new_id_unused (_, no_client_order_id c) (no_client_order_id c + 1) ltac:(cbn; lia))).
       by intros []. }
  destruct (book_for _ _); [|by left]. destruct (_ && _) eqn:E; [right|by left].
  by apply andb_true_iff in E as [?%bool_decide_eq_true _].
Qed.

Definition names (c : ExchangeCommand) (ref : RetiredRef) : Prop :=
  match c with
  | CmdNew _ => False
  | CmdCancel c => c = mkCancelOrder (co_command_sequence c) (rr_account_id ref) (rr_client_order_id ref)
      (rr_instrument_id ref)
  | CmdReplace c => (ro_account_id c, ro_original_client_order_id c) = ref_key ref ∧
      ro_instrument_id c = rr_instrument_id ref ∧ 0 < ro_new_price c ∧ 0 < ro_new_quantity c
  end.

(** A cancel or a replacement of a live order is accepted. *)
Lemma live_answer c r : names c (ref_of r) → r ∈ records_ (live m) → reason_of c f = None.
Proof.
  intros Hn Hr. destruct (record_located r Hr) as (Hi & ref & Href & Hri).
  pose proof (proj2 (gd_knows _ _ _ _ _ _ _ _ HG _) Hi) as Hk.
  destruct c as [c|c|c]; [done| |]; cbn [names] in Hn.
  - rewrite Hn. simpl. unfold cancel_reason. cbn [co_instrument_id co_account_id co_client_order_id].
    change (rr_instrument_id (ref_of r)) with (lr_instrument_id r). rewrite Hk. cbn [negb].
    change (lr_account_id r, lr_client_order_id r) with (ref_key (ref_of r)). by rewrite Href, Hri, Z.eqb_refl.
  - destruct Hn as (Ek & Ei & Hp & Hq). simpl. unfold replace_reason.
    rewrite Ek, Ei. change (rr_instrument_id (ref_of r)) with (lr_instrument_id r). rewrite Hk. cbn [negb].
    rewrite (proj2 (Z.leb_gt _ _)), (proj2 (Z.eqb_neq _ _)) by lia. cbn [orb]. by rewrite Href, Hri, Z.eqb_refl.
Qed.

(** One of a retired order is not. *)
Lemma stale_answer c ref : names c ref → ref ∈ retired m → reason_of c f = Some RejectReason.UnknownOrderId.
Proof.
  intros Hn Hr. destruct (retired_gone ref Hr) as [Hi Hno].
  pose proof (proj2 (gd_knows _ _ _ _ _ _ _ _ HG _) Hi) as Hk.
  destruct c as [c|c|c]; [done| |]; cbn [names] in Hn.
  - rewrite Hn. simpl. unfold cancel_reason. cbn [co_instrument_id co_account_id co_client_order_id].
    rewrite Hk. cbn [negb]. change (rr_account_id ref, rr_client_order_id ref) with (ref_key ref). by rewrite Hno.
  - destruct Hn as (Ek & Ei & Hp & Hq). simpl. unfold replace_reason. rewrite Ek, Ei, Hk. cbn [negb].
    rewrite (proj2 (Z.leb_gt _ _)), (proj2 (Z.eqb_neq _ _)) by lia. cbn [orb]. by rewrite Hno.
Qed.
End known.
End state.

End WorkloadState.

(** * The workload generator's streams

    Every draw of the generator stays in range and every command it emits is one its own
    engine accepts, but for what it means to be refused. *)

Module WorkloadProps.
Import MatchingEngine EngineRefinement BookRefinement EngineMatching EngineInvariant EngineTotal EngineStart.
Import EngineProps Reports OpenOrders.
Import Scenarios LiveIndex Workload LiveOrders WorkloadState.

(** The configurations the theorems are about: prices, quantities and counts that no
    stream of this length takes out of their types. *)
Record config_ok (cfg : WorkloadConfig) : Prop := {
  ok_seed : in_u64 (cfg_seed cfg);
  ok_instruments : 1 ≤ instrument_count cfg ≤ kMaxInstrumentId;
  ok_accounts : 1 ≤ account_count cfg < 2 ^ 32;
  ok_base : 1 ≤ base_price cfg ≤ 2 ^ 58;
  ok_offset : 0 ≤ instrument_price_offset cfg ≤ 2 ^ 36;
  ok_band : 0 ≤ price_band_ticks cfg ≤ 2 ^ 20;
  ok_reach : 0 ≤ aggressive_reach_ticks cfg ≤ 2 ^ 20;
  ok_min : 1 ≤ min_quantity cfg;
  ok_max : min_quantity cfg ≤ max_quantity cfg ≤ 2 ^ 31;
  ok_aggressive : min_quantity cfg ≤ aggressive_max_quantity cfg ≤ 2 ^ 31;
  ok_fok : min_quantity cfg ≤ fok_max_quantity cfg ≤ 2 ^ 31;
  ok_sizes : 0 ≤ initial_orders_per_side cfg ∧ 0 ≤ operation_count cfg;
  ok_total : 2 * initial_orders_per_side cfg * instrument_count cfg + operation_count cfg ≤ MatchingBook.kNil;
}.

#[local] Strategy opaque [SplitMix64.below SplitMix64.between].

(** ** What a stream may be answered *)

(** A stale reference, or a fill-or-kill order that cannot fill. *)
Definition expected (r : RejectReason) : Prop :=
  r = RejectReason.UnknownOrderId ∨ r = RejectReason.InsufficientLiquidity.

Definition occurs (r : RejectReason) (rs : list RejectReason) : Z := vsize (filter (r =.) rs).

Lemma occurs_app r rs rs' : occurs r (rs ++ rs') = occurs r rs + occurs r rs'.
Proof. unfold occurs, vsize. rewrite filter_app, length_app. lia. Qed.

(** Such answers, and none of them, is no answer at all. *)
Lemma expected_none rs : Forall expected rs → occurs RejectReason.UnknownOrderId rs = 0 →
  occurs RejectReason.InsufficientLiquidity rs ≤ 0 → rs = [].
Proof.
  intros Hf Hu Hi. destruct rs as [|r rs]; [done|]. apply Forall_cons in Hf as [[->| ->] _];
    unfold occurs, vsize in *; rewrite filter_cons_True in * by done; cbn in *; lia.
Qed.

Section generator.
Context (account_first : bool) (cfg : WorkloadConfig) (Hcfg : config_ok cfg).

Abbreviation State := (Workload.State (B := MatchingBook.t)).
Abbreviation gen := (eff State ExchangeCommand).
Abbreviation N := (instrument_count cfg).

(** What rests after [n] commands has no higher price, no larger quantity. *)
Definition price_bound (n : Z) : Price := 2 ^ 59 + n * 2 ^ 21.
Definition quantity_bound (n : Z) : Quantity := 2 ^ 31 * (n + 1).

(** ** Draws *)

(** Nothing but the generator of random numbers moved. *)
Definition quiet (s s' : State) : Prop := ∃ r, in_u64 r ∧ s' = with_rng r s.

Definition draws {A} (m : gen A) (s : State) (P : A → Prop) : Prop :=
  wp m s (λ a s' out, out = [] ∧ quiet s s' ∧ P a).

(** The records the draws look at are in bounds. *)
Definition stocked (n : Z) (s : State) : Prop :=
  in_u64 (rng s) ∧ 0 ≤ n < MatchingBook.kNil ∧
  ∃ cb next, base N cb (price_bound n) (quantity_bound n) next (tracker s).

Lemma stocked_quiet n s s' : stocked n s → quiet s s' → stocked n s'.
Proof. intros (_ & Hn & Hb) (r & Hr & ->). by split. Qed.

Lemma draws_bind {A C} (m : gen A) (k : A → gen C) s P Q : draws m s P →
  (∀ a s', quiet s s' → P a → wp (k a) s' Q) → wp (ebind m k) s Q.
Proof.
  intros Hm Hk. apply wp_bind. eapply wp_mono; [|exact Hm]. intros a s' out (-> & Hq & Ha). by apply Hk.
Qed.

Lemma draws_seq {A C} n (m : gen A) (k : A → gen C) s P P' : stocked n s → draws m s P →
  (∀ a s', stocked n s' → tracker s' = tracker s → P a → draws (k a) s' P') → draws (ebind m k) s P'.
Proof.
  intros Hs Hm Hk. eapply draws_bind; [exact Hm|]. intros a s' Hq Ha.
  eapply wp_mono; [|apply (Hk a s'); [by eapply stocked_quiet|by destruct Hq as (r & _ & ->)|done]].
  intros c s'' out (-> & (r' & Hr' & ->) & Hc). destruct Hq as (r & _ & ->). split; [done|]. split; [|done].
  by exists r'.
Qed.

Lemma draws_ret {A} (a : A) s (P : A → Prop) n : stocked n s → P a → draws (eret a) s P.
Proof. intros [Hs _] Ha. split; [done|]. split; [|done]. exists (rng s). split; [done|]. by destruct s. Qed.

Lemma draws_read {A} (f : State → option A) s a (P : A → Prop) n : stocked n s → f s = Some a → P a →
  draws (eread f) s P.
Proof. intros [Hs _] Hf Ha. eapply wp_read; [exact Hf|]. split; [done|]. split; [|done]. exists (rng s). split; [done|]. by destruct s. Qed.

Lemma draws_mono {A} (m : gen A) s (P P' : A → Prop) : draws m s P → (∀ a, P a → P' a) → draws m s P'.
Proof. intros Hm HP. eapply wp_mono; [|exact Hm]. intros a s' out (? & ? & ?). split_and!; auto. Qed.

Lemma next_draws n s : stocked n s → draws Workload.next s in_u64.
Proof.
  intros _. pose proof (SplitMix64.next_u64 (rng s)) as [H1 H2]. unfold draws, wp, Workload.next, eupdate.
  destruct (SplitMix64.next (rng s)) as [x r]. split; [done|]. split; [by exists r|done].
Qed.

Lemma below_draws n b s : stocked n s → 0 ≤ b < 2 ^ 64 →
  draws (Workload.below b) s (λ x, 0 ≤ x ∧ (x < b ∨ x = 0)).
Proof.
  intros [Hs _] Hb. destruct (SplitMix64.below_total b (rng s) Hb Hs) as (x & r & E & H1 & H2 & Hr).
  unfold Workload.below, draw. eapply wp_update; [by rewrite E|]. split; [done|]. split; [by exists r|done].
Qed.

Lemma between_draws n low high s : stocked n s → 1 ≤ low ≤ high → high ≤ 2 ^ 31 →
  draws (Workload.between low high) s (λ x, low ≤ x ≤ high).
Proof.
  intros [Hs _] Hl Hh.
  destruct (SplitMix64.between_total low high (rng s)) as (x & r & E & H1 & Hr); [unfold in_u64; lia..|lia|done|].
  unfold Workload.between, draw. eapply wp_update; [by rewrite E|]. split; [done|]. split; [by exists r|done].
Qed.

Lemma instrument_draws n x s : stocked n s → in_u64 x → draws (instrument_of cfg x) s (λ id, 1 ≤ id ≤ N).
Proof.
  intros Hs Hx. pose proof (ok_instruments _ Hcfg) as HN. pose proof (Z.mod_pos_bound x N ltac:(lia)).
  eapply (draws_seq n _ _ _ (λ i, i = x mod N)); [done| |].
  - eapply draws_read; [done|by rewrite (proj2 (Z.eqb_neq _ _)) by lia|done].
  - intros i s' Hs' _ ->. eapply draws_ret; [done|]. rewrite u32_small; [lia|]. unfold in_u32, kMaxInstrumentId in *. lia.
Qed.

Lemma account_draws n x s : stocked n s → in_u64 x → draws (account_of cfg x) s (λ _, True).
Proof.
  intros Hs Hx. pose proof (ok_accounts _ Hcfg) as HN.
  eapply (draws_seq n _ _ _ (λ i, True)); [done| |].
  - eapply draws_read; [done|by rewrite (proj2 (Z.eqb_neq _ _)) by lia|done].
  - intros i s' Hs' _ _. by eapply draws_ret.
Qed.

Lemma draw_account_draws n s : stocked n s → draws (draw_account cfg) s (λ _, True).
Proof.
  intros Hs. eapply (draws_seq n _ _ _ in_u64); [done|by eapply next_draws|]. intros x s' Hs' _ Hx. by eapply account_draws.
Qed.

(** *** Prices *)

Lemma mid_range id : 1 ≤ id ≤ N → 1 ≤ mid_of cfg id ≤ 2 ^ 59.
Proof.
  intros Hi. pose proof (ok_instruments _ Hcfg). pose proof (ok_base _ Hcfg). pose proof (ok_offset _ Hcfg).
  unfold mid_of, kMaxInstrumentId in *. rewrite u32_small by (unfold in_u32; lia).
  assert (0 ≤ (id - 1) * instrument_price_offset cfg ≤ 2 ^ 58) as Ho by nia.
  rewrite (i64_small (_ * _)) by (unfold in_i64; lia). rewrite i64_small by (unfold in_i64; lia). lia.
Qed.

(** The best price is that of a record. *)
Lemma best_draws n id sd s : stocked n s → 1 ≤ id ≤ N →
  draws (best id sd) s (λ p, match p with Some c => 1 ≤ c ≤ price_bound n | None => True end).
Proof.
  intros Hs Hi. pose proof Hs as (_ & _ & cb & next & HB).
  destruct (DepthTracker.best_spec N _ _ id sd (bs_depth _ _ _ _ _ _ HB) Hi) as (p & Ep & Hp).
  eapply draws_read; [done|exact Ep|]. destruct p as [c|]; [|done].
  destruct Hp as [(r & Hr & _ & _ & <-) _]. by destruct (base_in _ _ _ _ _ _ _ HB Hr) as (_ & ? & _).
Qed.

Lemma price_bound_fits n : 0 ≤ n ≤ MatchingBook.kNil → 2 ^ 59 ≤ price_bound n ≤ 2 ^ 60.
Proof. unfold price_bound, MatchingBook.kNil, SideIndex.kNil. lia. Qed.

Lemma passive_draws n id sd s : stocked n s → 1 ≤ id ≤ N →
  draws (passive_price cfg id sd) s (λ p, 1 ≤ p ≤ price_bound (n + 1)).
Proof.
  intros Hs Hi. pose proof (mid_range id Hi) as Hmid. pose proof Hs as (_ & Hn & _).
  pose proof (price_bound_fits n ltac:(lia)) as Hpb. pose proof (ok_band _ Hcfg) as Hband.
  assert (price_bound (n + 1) = price_bound n + 2 ^ 21) as Hnext by (unfold price_bound; lia).
  unfold passive_price. eapply (draws_seq n); [done|by apply best_draws|]. intros c s1 Hs1 _ Hc.
  rewrite u64_small by (unfold in_u64; lia).
  eapply (draws_seq n); [done|eapply (below_draws n); [done|lia]|]. intros x s2 Hs2 _ Hx. cbn beta in Hx.
  rewrite (i64_small x) by (unfold in_i64; lia). destruct sd; (eapply draws_ret; [done|]); cbn beta.
  - set (ceiling := match c with Some c => _ | None => _ end).
    assert (0 ≤ ceiling ≤ mid_of cfg id) as Hce.
    { unfold ceiling. destruct c; [|lia]. rewrite i64_small by (unfold in_i64; lia). lia. }
    rewrite i64_small by (unfold in_i64; lia). case_bool; lia.
  - set (base := match c with Some c => _ | None => _ end).
    assert (1 ≤ base ≤ price_bound n + 1) as Hce.
    { unfold base. destruct c; [|lia]. rewrite i64_small by (unfold in_i64; lia). lia. }
    rewrite i64_small by (unfold in_i64; lia). lia.
Qed.

Lemma crossing_draws n id sd s : stocked n s → 1 ≤ id ≤ N →
  draws (crossing_price cfg id sd) s (λ p, match p with Some p => 1 ≤ p ≤ price_bound (n + 1) | None => True end).
Proof.
  intros Hs Hi. pose proof Hs as (_ & Hn & _).
  pose proof (price_bound_fits n ltac:(lia)) as Hpb. pose proof (ok_reach _ Hcfg) as Hreach.
  assert (price_bound (n + 1) = price_bound n + 2 ^ 21) as Hnext by (unfold price_bound; lia).
  unfold crossing_price. eapply (draws_seq n); [done|by apply best_draws|]. intros c s1 Hs1 _ Hc.
  destruct c as [c|]; [|by eapply draws_ret]. rewrite u64_small by (unfold in_u64; lia).
  eapply (draws_seq n); [done|eapply (below_draws n); [done|lia]|]. intros x s2 Hs2 _ Hx. cbn beta in Hx.
  rewrite (i64_small x) by (unfold in_i64; lia). eapply draws_ret; [done|].
  destruct sd; rewrite i64_small by (unfold in_i64; lia); [lia|]. case_bool; lia.
Qed.

Lemma account_and_price_draws n id sd s : stocked n s → 1 ≤ id ≤ N →
  draws (account_and_price account_first cfg id sd) s (λ x, 1 ≤ x.2 ≤ price_bound (n + 1)).
Proof.
  intros Hs Hi. unfold account_and_price. destruct account_first.
  - eapply (draws_seq n); [done|by eapply draw_account_draws|]. intros a s1 Hs1 _ _.
    eapply (draws_seq n); [done|by apply passive_draws|]. intros p s2 Hs2 _ Hp. by eapply draws_ret.
  - eapply (draws_seq n); [done|by apply passive_draws|]. intros p s1 Hs1 _ Hp.
    eapply (draws_seq n); [done|by eapply draw_account_draws|]. intros a s2 Hs2 _ _. by eapply draws_ret.
Qed.

(** *** Orders *)

Lemma index_draws n {A} (l : list A) s : stocked n s → l ≠ [] → vsize l < 2 ^ 64 →
  draws (Workload.below (vsize l)) s (λ i, ∃ x, vget l i = Some x ∧ x ∈ l).
Proof.
  intros Hs Hl Hz. pose proof (vsize_nonneg l).
  assert (vsize l ≠ 0) as Hne by (unfold vsize; destruct l; [done|simpl; lia]).
  eapply draws_mono; [by apply (below_draws n); [|lia]|]. intros i Hi. cbn beta in Hi.
  destruct (vget_is_Some l i) as [x Hx]; [lia|]. exists x. split; [done|]. apply elem_vget. by exists i.
Qed.

Lemma wp_look {A} (k : State → gen A) s Q : wp (k s) s Q → wp (ebind eget k) s Q.
Proof. intros Hk. by apply wp_bind, wp_get. Qed.

Lemma live_draws n s : stocked n s → LiveIndex.is_empty (live (tracker s)) = false →
  draws (draw_live (B := MatchingBook.t)) s (λ r, r ∈ records_ (live (tracker s))).
Proof.
  intros Hs He%Z.eqb_neq. pose proof Hs as (_ & _ & cb & next & HB).
  destruct (bs_index _ _ _ _ _ _ HB) as [Hz _]. unfold LiveIndex.size in He.
  apply wp_look. eapply (draws_seq n); [done|apply (index_draws n (records_ (live (tracker s)))); [done| |done]|].
  { intros E. by rewrite E in He. }
  intros i s1 Hs1 Ht (r & Hv & Hr). eapply draws_read; [done| |exact Hr]. cbn beta. by rewrite Ht.
Qed.

Lemma stale_draws n s : stocked n s → draws (draw_stale cfg) s (λ b : bool, b = true → retired (tracker s) ≠ []).
Proof.
  intros Hs. apply wp_look. destruct (_ && _) eqn:E; [|by eapply draws_ret].
  apply andb_true_iff in E as [_ E%negb_true_iff%Z.eqb_neq].
  eapply (draws_seq n); [done|by apply (below_draws n); [|lia]|]. intros x s1 Hs1 _ _.
  eapply draws_ret; [done|]. intros _ Hnil. by rewrite Hnil in E.
Qed.

Lemma replacement_draws n r s : stocked n s → r ∈ records_ (live (tracker s)) →
  draws (draw_replacement cfg r) s (λ x, 1 ≤ x.1.1 ≤ price_bound (n + 1) ∧ 1 ≤ x.1.2 ≤ quantity_bound (n + 1)).
Proof.
  intros Hs Hr. pose proof Hs as (_ & Hn & cb & next & HB).
  destruct (base_in _ _ _ _ _ _ _ HB Hr) as (Hi & Hp & Hq & _). pose proof (ok_min _ Hcfg). pose proof (ok_max _ Hcfg).
  assert (price_bound (n + 1) = price_bound n + 2 ^ 21) as Hnp by (unfold price_bound; lia).
  assert (quantity_bound (n + 1) = quantity_bound n + 2 ^ 31) as Hnq by (unfold quantity_bound; lia).
  assert (quantity_bound n ≤ 2 ^ 63) as Hq' by (unfold quantity_bound, MatchingBook.kNil, SideIndex.kNil in *; lia).
  unfold draw_replacement. eapply (draws_seq n); [done|by apply (below_draws n); [|lia]|]. intros roll s1 Hs1 Ht1 _.
  case_bool.
  { assert (lr_remaining_quantity r / 2 ≤ lr_remaining_quantity r) by (apply Z.div_le_upper_bound; lia).
    eapply draws_ret; [done|]. cbn [fst snd]. lia. }
  case_bool.
  - eapply (draws_seq n); [done|apply (between_draws n); [done|lia..]|]. intros more s2 Hs2 _ Hm.
    eapply draws_ret; [done|]. cbn [fst snd]. cbn beta in Hm. rewrite u64_small by (unfold in_u64; lia). lia.
  - eapply (draws_seq n); [done|by apply passive_draws|]. intros p s2 Hs2 _ Hpp.
    eapply draws_ret; [done|]. cbn [fst snd]. cbn beta in Hpp. lia.
Qed.

(** ** Commands *)

(** After [n] commands, in a good state. *)
Definition ready (n : Z) (v : view) (f : eng) (s : State) : Prop :=
  good N n (next_client_order_id (ids s)) (price_bound n) (quantity_bound n) v f (engine s) (tracker s) ∧
  in_u64 (rng s) ∧ 1 ≤ next_client_order_id (ids s) ≤ n + 1.

Lemma ready_stocked n v f s : ready n v f s → 0 ≤ n < MatchingBook.kNil → stocked n s.
Proof.
  intros (HG & Hr & _) Hn. split; [done|]. split; [done|]. eexists _, _. by apply (gd_base _ _ _ _ _ _ _ _ _ HG).
Qed.

Lemma ready_quiet n v f s s' : ready n v f s → quiet s s' → ready n v f s'.
Proof. intros (HG & _ & Hc) (r & Hr & ->). by split. Qed.

(** The command [c] is played: its answer, and the state after it but for the counts. *)
Definition emitted (n : Z) (v : view) (f : eng) (c : ExchangeCommand) (s s' : State) (out : list ExchangeCommand) : Prop :=
  out = [c] ∧ (∃ v' f', ready (n + 1) v' f' s') ∧
  ∃ evs, process c (engine s) = Some (tt, engine s', evs) ∧ rejections evs = option_list (reason_of c f).

(** Playable, with an id taken from the state if it introduces one. *)
Definition playable (n : Z) (c : ExchangeCommand) (s : State) : Prop :=
  match c with
  | CmdNew c => 1 ≤ no_price c ≤ price_bound (n + 1) ∧ 1 ≤ no_quantity c ≤ quantity_bound (n + 1) ∧
      no_client_order_id c = next_client_order_id (ids s)
  | CmdCancel _ => True
  | CmdReplace c => 1 ≤ ro_new_price c ≤ price_bound (n + 1) ∧ 1 ≤ ro_new_quantity c ≤ quantity_bound (n + 1) ∧
      ro_new_client_order_id c = next_client_order_id (ids s)
  end.

Definition takes_id (c : ExchangeCommand) : bool := match c with CmdCancel _ => false | _ => true end.

(** The ids of the state once the command has taken its own. *)
Definition ids_after (c : ExchangeCommand) (i : SequentialIds) : Z :=
  if takes_id c then next_client_order_id i + 1 else next_client_order_id i.

Lemma playable_ok n c s : 0 ≤ n < MatchingBook.kNil → playable n c s →
  command_ok c ∧ in_bounds (price_bound (n + 1)) (quantity_bound (n + 1)) c ∧
  new_id (cb := next_client_order_id (ids s)) (ids_after c (ids s)) c.
Proof.
  intros Hn Hp. pose proof (price_bound_fits (n + 1) ltac:(lia)).
  assert (quantity_bound (n + 1) < 2 ^ 64) by (unfold quantity_bound, MatchingBook.kNil, SideIndex.kNil in *; lia).
  destruct c as [c|c|c]; cbn [playable] in Hp; [|done|]; destruct Hp as (Hp & Hq & Hc);
    (split; [cbn [command_ok]; lia|]); (split; [cbn [in_bounds]; lia|]); cbn; lia.
Qed.

(** [emit] in a state [s1] that has taken the ids of the command. *)
Lemma emit_wp n v f c s s1 : ready n v f s → 0 ≤ n < MatchingBook.kNil → playable n c s →
  engine s1 = engine s → tracker s1 = tracker s → in_u64 (rng s1) →
  next_client_order_id (ids s1) = ids_after c (ids s) →
  wp (emit c) s1 (λ _ s2 out, emitted n v f c s s2 out ∧ kinds s2 = kinds s1 ∧ counts s2 = counts s1).
Proof.
  intros (HG & Hr & Hid) Hn Hp Ee Et Hr1 Ei. destruct (playable_ok n c s Hn Hp) as (Hc & Hb & Hnew).
  assert (next_client_order_id (ids s) ≤ ids_after c (ids s) ≤ next_client_order_id (ids s) + 1) as Hle
    by (unfold ids_after; destruct (takes_id c); lia).
  destruct (good_step N HG c (ids_after c (ids s)) (price_bound (n + 1)) (quantity_bound (n + 1)))
    as (e' & f' & evs & m' & He & Hm & HG' & Hrej); [lia|done|done|done|lia|lia|unfold price_bound; lia|
      unfold quantity_bound; lia|].
  unfold wp, emit, ebind, eemit, apply, eupdate. rewrite Ee, Et, He, Hm. split; [|done].
  split; [done|]. split; [|by exists evs]. exists (track_all evs v), f'. split; [|cbn; split; [done|lia]].
  cbn [ids with_engine engine tracker]. by rewrite Ei.
Qed.

Lemma wp_take {A C} (g : SequentialIds → A * SequentialIds) (k : A → gen C) s Q :
  wp (k (g (ids s)).1) (with_ids (g (ids s)).2 s) Q → wp (ebind (take_id g) k) s Q.
Proof.
  intros Hk. apply wp_bind. apply (wp_update _ s (g (ids s)).1 (with_ids (g (ids s)).2 s)); [by destruct (g (ids s))|exact Hk].
Qed.

Lemma next_id_small n v f s : ready n v f s → 0 ≤ n < MatchingBook.kNil →
  u64 (next_client_order_id (ids s) + 1) = next_client_order_id (ids s) + 1.
Proof.
  intros (_ & _ & Hid) Hn. apply u64_small. unfold in_u64, MatchingBook.kNil, SideIndex.kNil in *. lia.
Qed.

(** ** Turns *)

(** One command, and the answer it got. *)
Definition answered (n : Z) (s s' : State) (out : list ExchangeCommand) (r : option RejectReason) : Prop :=
  (∃ v' f', ready (n + 1) v' f' s') ∧
  ∃ c evs, out = [c] ∧ process c (engine s) = Some (tt, engine s', evs) ∧ rejections evs = option_list r.

Abbreviation stale s := (stale_references (counts s)).
Abbreviation foks s := (fok (counts s)).
Abbreviation unknown := (Some RejectReason.UnknownOrderId).
Abbreviation illiquid := (Some RejectReason.InsufficientLiquidity).

Definition one (r r' : option RejectReason) : Z := if decide (r = r') then 1 else 0.

Definition counted (n : Z) (s : State) : Prop := 0 ≤ stale s ≤ n ∧ 0 ≤ foks s ≤ n.

(** Before the kind of the operation is recorded. *)
Definition unrecorded (k : OpKind) (d : bool) (n : Z) (s s' : State) (out : list ExchangeCommand) : Prop :=
  ∃ r, answered n s s' out r ∧ kinds s' = kinds s ∧
    (r = None ∨ r = unknown ∨ r = illiquid ∧ k = Fok ∧ d = false) ∧
    stale s' = stale s + one r unknown ∧ foks s' = foks s.

Definition turn (n : Z) (s s' : State) (out : list ExchangeCommand) : Prop :=
  ∃ r, answered n s s' out r ∧ length (kinds s') = S (length (kinds s)) ∧ counted (n + 1) s' ∧
    (r = None ∨ r = unknown ∨ r = illiquid) ∧
    stale s' = stale s + one r unknown ∧ foks s + one r illiquid ≤ foks s'.

Lemma recorded (m : gen unit) k d n s s0 : counted n s → 0 ≤ n < MatchingBook.kNil →
  wp m s0 (λ _ s' out, unrecorded k d n s s' out) → wp (m ;; record_kind k d)%eff s0 (λ _ s' out, turn n s s' out).
Proof.
  intros Hc Hn Hm. apply wp_bind. eapply wp_mono; [|exact Hm].
  intros _ s1 out (r & (Hr & c & evs & -> & Hp & Hrej) & Hk & Hcase & Hs & Hf).
  apply wp_modify. rewrite app_nil_r. set (s2 := with_kinds _ _ s1).
  assert (stale s2 = stale s1) as Hs2 by done.
  assert (foks s2 = foks s1 + if bool_decide (k = Fok) && negb d then 1 else 0) as Hf2.
  { subst s2. cbn [with_kinds counts count_kind fok].
    unfold bump, counted in *. rewrite andb_comm. destruct (_ && _); [|lia]. apply u64_small.
    unfold in_u64, MatchingBook.kNil, SideIndex.kNil in *. lia. }
  exists r. split; [split; [exact Hr|by exists c, evs]|]. split.
  { change (kinds s2) with (kinds s1 ++ [k]). by rewrite Hk, length_app, Nat.add_comm. }
  assert (0 ≤ one r unknown ≤ 1) by (unfold one; destruct (decide _); lia).
  unfold counted in *. rewrite Hs2, Hf2, Hs, Hf. split; [destruct (_ && _); lia|].
  split; [naive_solver|]. split; [lia|].
  destruct Hcase as [->|[->|(-> & -> & ->)]]; unfold one; repeat case_decide; simplify_eq; destruct (_ && _) eqn:?; lia || done.
Qed.

(** *** New orders *)

Lemma emit_resting_wp n v f id sd s : ready n v f s → 0 ≤ n < MatchingBook.kNil → 1 ≤ id ≤ N →
  wp (emit_resting account_first cfg id sd) s (λ _ s' out, answered n s s' out None ∧
    kinds s' = kinds s ∧ counts s' = counts s).
Proof.
  intros HR Hn Hi. unfold emit_resting. pose proof (ready_stocked _ _ _ _ HR Hn) as Hs.
  pose proof (ok_min _ Hcfg). pose proof (ok_max _ Hcfg).
  eapply draws_bind; [apply (between_draws n); [done|lia..]|]. intros q s1 Hq1 Hq. cbn beta in Hq.
  pose proof (ready_quiet _ _ _ _ _ HR Hq1) as HR1. apply wp_take, wp_take.
  set (s2 := with_ids _ (with_ids _ s1)). assert (stocked n s2) as Hs2 by exact (ready_stocked _ _ _ _ HR1 Hn).
  eapply draws_bind; [by apply (account_and_price_draws n)|]. intros [a p] s3 (r & Hr & ->) Hp. cbn [fst snd] in Hp |- *.
  destruct Hq1 as (r1 & Hr1 & ->). set (c := new_order _ _ _ _ _ _ _ _).
  eapply wp_mono; [|apply (emit_wp n v f (CmdNew c) _ _ HR1 Hn); [|done..|]].
  - intros _ s' out ((-> & HR' & evs & He & Hrej) & Hk & Hc). split; [|done]. split; [exact HR'|].
    exists (CmdNew c), evs. split; [done|]. split; [exact He|]. rewrite Hrej. f_equal.
    destruct HR1 as (HG & _). destruct (new_order_answer N HG c Hi) as [E|[E _]]; cbn; [lia..|exact E|done].
  - cbn. unfold quantity_bound. split; [done|]. split; [lia|done].
  - cbn. by apply (next_id_small n v f).
Qed.

(** A turn does not depend on where the draws stood. *)
Lemma turn_quiet (m : gen unit) n s s1 : quiet s s1 → wp m s1 (λ _ s' out, turn n s1 s' out) →
  wp m s1 (λ _ s' out, turn n s s' out).
Proof. by intros (r & _ & ->). Qed.

Lemma downgraded_wp n v f id sd s d : ready n v f s → counted n s → 0 ≤ n < MatchingBook.kNil → 1 ≤ id ≤ N →
  wp (emit_resting account_first cfg id sd ;; record_kind Resting d)%eff s (λ _ s' out, turn n s s' out).
Proof.
  intros HR Hc Hn Hi. apply recorded; [done..|]. eapply wp_mono; [|by apply (emit_resting_wp n v f)].
  intros _ s' out (Ha & Hk & Hcs). exists None. rewrite Hcs. split; [done|]. split; [done|]. split; [by left|].
  unfold one. rewrite decide_False by done. lia.
Qed.

Lemma emit_aggressive_wp n v f id sd p ceiling tif k s : ready n v f s → counted n s → 0 ≤ n < MatchingBook.kNil →
  1 ≤ id ≤ N → 1 ≤ p ≤ price_bound (n + 1) → min_quantity cfg ≤ ceiling ≤ 2 ^ 31 → (tif = FOK → k = Fok) →
  wp (emit_aggressive cfg id sd p ceiling tif k) s (λ _ s' out, turn n s s' out).
Proof.
  intros HR Hcs Hn Hi Hp Hce Ht. unfold emit_aggressive. pose proof (ok_min _ Hcfg).
  eapply draws_bind; [apply (between_draws n); [by eapply ready_stocked|lia..]|]. intros q s1 Hq1 Hq. cbn beta in Hq.
  pose proof (ready_quiet _ _ _ _ _ HR Hq1) as HR1. apply wp_take. set (s2 := with_ids _ s1).
  assert (stocked n s2) as Hs2 by exact (ready_stocked _ _ _ _ HR1 Hn).
  eapply draws_bind; [by apply (next_draws n)|]. intros x s3 Hq3 Hx.
  eapply draws_bind; [apply (account_draws n); [by eapply stocked_quiet|done]|]. intros a s4 Hq4 _. apply wp_take.
  destruct Hq1 as (r1 & Hr1 & ->), Hq3 as (r3 & Hr3 & ->), Hq4 as (r4 & Hr4 & ->).
  set (s5 := with_ids _ (with_rng r4 _)). set (c := new_order _ _ _ _ _ _ _ _).
  apply (recorded (emit (CmdNew c)) k false n s5 s5 Hcs Hn).
  eapply wp_mono; [|apply (emit_wp n v f (CmdNew c) _ s5 HR1 Hn); [|done..|]].
  - intros _ s' out ((-> & HR' & evs & He & Hrej) & Hk & Hc). exists (reason_of (CmdNew c) f).
    split; [split; [exact HR'|by exists (CmdNew c), evs]|]. split; [done|]. rewrite Hc.
    destruct HR1 as (HG & _). unfold one.
    destruct (new_order_answer N HG c Hi) as [->|[Et ->]]; cbn; [lia..| |]; rewrite decide_False by done.
    + split; [by left|lia].
    + split; [|lia]. right. right. split; [done|]. split; [by apply Ht|done].
  - cbn. unfold quantity_bound. split; [done|]. split; [lia|done].
  - cbn. by apply (next_id_small n v f).
Qed.

Lemma emit_crossing_wp n v f id sd s : ready n v f s → counted n s → 0 ≤ n < MatchingBook.kNil → 1 ≤ id ≤ N →
  wp (emit_crossing account_first cfg id sd) s (λ _ s' out, turn n s s' out).
Proof.
  intros HR Hcs Hn Hi. unfold emit_crossing. pose proof (ok_aggressive _ Hcfg).
  eapply draws_bind; [apply (crossing_draws n); [by eapply ready_stocked|done]|]. intros p s1 Hq Hp.
  pose proof (ready_quiet _ _ _ _ _ HR Hq) as HR1. apply (turn_quiet _ _ _ _ Hq). destruct Hq as (r & Hr & ->).
  destruct p; [by apply (emit_aggressive_wp n v f)|by apply (downgraded_wp n v f)].
Qed.

Lemma emit_immediate_wp n v f id sd s : ready n v f s → counted n s → 0 ≤ n < MatchingBook.kNil → 1 ≤ id ≤ N →
  wp (emit_immediate account_first cfg id sd) s (λ _ s' out, turn n s s' out).
Proof.
  intros HR Hcs Hn Hi. unfold emit_immediate. pose proof (ok_aggressive _ Hcfg). pose proof (ok_fok _ Hcfg).
  pose proof (ready_stocked _ _ _ _ HR Hn) as Hs.
  eapply draws_bind; [by apply (next_draws n)|]. intros x s1 Hq _. pose proof (stocked_quiet _ _ _ Hs Hq) as Hs1.
  eapply draws_bind; [by apply (crossing_draws n)|]. intros p s2 Hq2 Hp.
  pose proof (ready_quiet _ _ _ _ _ (ready_quiet _ _ _ _ _ HR Hq) Hq2) as HR2.
  apply (turn_quiet _ _ s s1 Hq). apply (turn_quiet _ _ s1 s2 Hq2).
  destruct Hq as (r & Hr & ->), Hq2 as (r2 & Hr2 & ->).
  destruct p; [|by apply (downgraded_wp n v f)].
  apply (emit_aggressive_wp n v f); try done; destruct (negb _); done.
Qed.

(** *** Cancels and replacements *)

(** The reference aimed at: a retired one, which is counted, or that of a live order. *)
Definition aimed (use_stale : bool) (s : State) (ref : RetiredRef) (s' : State) : Prop :=
  ∃ r, in_u64 r ∧
    s' = with_kinds (kinds s) (if use_stale then count_stale (counts s) else counts s) (with_rng r s) ∧
    if use_stale then ref ∈ retired (tracker s) else ∃ x, x ∈ records_ (live (tracker s)) ∧ ref = ref_of x.

Lemma draw_retired_wp n s : stocked n s → retired (tracker s) ≠ [] →
  wp (draw_retired (B := MatchingBook.t)) s (λ ref s' out, out = [] ∧ aimed true s ref s').
Proof.
  intros Hs Hne. pose proof Hs as (_ & _ & cb & next & HB). destruct (bs_ring _ _ _ _ _ _ HB) as (Hz & _).
  apply wp_look. eapply draws_bind; [apply (index_draws n (retired (tracker s))); [done|done|lia]|].
  intros i s1 (r & Hr & ->) (ref & Hi & Hin).
  apply wp_bind. eapply wp_read; [exact Hi|]. apply wp_bind, wp_modify, wp_ret. split; [done|].
  exists r. by split_and!.
Qed.

Lemma aimed_answer n v f b s ref c : ready n v f s → (if b : bool then ref ∈ retired (tracker s)
    else ∃ x, x ∈ records_ (live (tracker s)) ∧ ref = ref_of x) → names c ref →
  reason_of c f = if b then unknown else None.
Proof.
  intros (HG & _) Ha Hn. destruct b.
  - by apply (stale_answer N HG c ref).
  - destruct Ha as (x & Hx & ->). by apply (live_answer N HG c x).
Qed.

Lemma count_stale_counts n (b : bool) cs : 0 ≤ n < MatchingBook.kNil → 0 ≤ stale_references cs ≤ n →
  let cs' := if b then count_stale cs else cs in
  fok cs' = fok cs ∧ stale_references cs' = stale_references cs + one (if b then unknown else None) unknown.
Proof.
  intros Hn Hc. unfold one. destruct b; cbn; [rewrite decide_True by done|rewrite decide_False by done; lia].
  rewrite u64_small by (unfold in_u64, MatchingBook.kNil, SideIndex.kNil in *; lia). done.
Qed.

(** The command is emitted at the reference aimed at. *)
Lemma aimed_wp n v f b s ref s1 s2 c k : ready n v f s → counted n s → 0 ≤ n < MatchingBook.kNil →
  aimed b s ref s1 → names c ref → playable n c s →
  engine s2 = engine s → tracker s2 = tracker s → rng s2 = rng s1 → kinds s2 = kinds s1 → counts s2 = counts s1 →
  next_client_order_id (ids s2) = ids_after c (ids s) →
  wp (emit c ;; record_kind k false)%eff s2 (λ _ s' out, turn n s s' out).
Proof.
  intros HR Hcs Hn (r & Hr & -> & Ha) Hnm Hp Ee Et Er Ek Ec Ei.
  destruct (count_stale_counts n b (counts s) Hn (proj1 Hcs)) as [Hf Hst].
  apply recorded; [done..|]. eapply wp_mono; [|apply (emit_wp n v f c s s2 HR Hn Hp Ee Et); [by rewrite Er|done]].
  intros _ s3 out ((-> & HR' & evs & He & Hrej) & Hk & Hc3). cbn [with_kinds kinds counts] in Ek, Ec.
  rewrite (aimed_answer n v f b s ref c HR Ha Hnm) in Hrej.
  exists (if b then unknown else None). split; [split; [done|by exists c, evs]|]. split; [by rewrite Hk|].
  rewrite Hc3, Ec. split; [destruct b; auto|]. by split.
Qed.

Lemma emit_cancel_wp n v f (b : bool) id sd s : ready n v f s → counted n s → 0 ≤ n < MatchingBook.kNil → 1 ≤ id ≤ N →
  (b = true → retired (tracker s) ≠ []) → wp (emit_cancel account_first cfg b id sd) s (λ _ s' out, turn n s s' out).
Proof.
  intros HR Hcs Hn Hi Hb. pose proof (ready_stocked _ _ _ _ HR Hn) as Hs. apply wp_look.
  destruct (_ && _) eqn:E; [by apply (downgraded_wp n v f)|]. apply wp_bind.
  assert (wp (if b then draw_retired else (r ← draw_live; eret (ref_of r))%eff) s
    (λ ref s' out, out = [] ∧ aimed b s ref s')) as Ht.
  { destruct b; [by apply (draw_retired_wp n); auto|]. cbn [negb] in E. rewrite andb_true_r in E.
    eapply draws_bind; [by apply (live_draws n)|]. intros x s1 (r & Hr & ->) Hx. apply wp_ret.
    split; [done|]. exists r. split; [done|]. split; [done|]. by exists x. }
  eapply wp_mono; [|exact Ht]. intros ref s1 out (-> & Ha). apply wp_take.
  pose proof Ha as (r & Hr & -> & _). by apply (aimed_wp n v f b s ref _ _ _ _ HR Hcs Hn Ha).
Qed.

Lemma emit_replace_wp n v f (b : bool) id sd s : ready n v f s → counted n s → 0 ≤ n < MatchingBook.kNil → 1 ≤ id ≤ N →
  (b = true → retired (tracker s) ≠ []) → wp (emit_replace account_first cfg b id sd) s (λ _ s' out, turn n s s' out).
Proof.
  intros HR Hcs Hn Hi Hb. pose proof (ready_stocked _ _ _ _ HR Hn) as Hs. apply wp_look.
  destruct (LiveIndex.is_empty _) eqn:E; [by apply (downgraded_wp n v f)|].
  eapply draws_bind; [by apply (live_draws n)|]. intros x s1 Hq Hx. pose proof (stocked_quiet _ _ _ Hs Hq) as Hs1.
  assert (x ∈ records_ (live (tracker s1))) as Hx1 by by destruct Hq as (r & _ & ->).
  eapply draws_bind; [by apply (replacement_draws n)|]. intros [[p q] keep] s2 Hq2 [Hp Hqq]. cbn [fst snd] in *.
  pose proof (ready_quiet _ _ _ _ _ (ready_quiet _ _ _ _ _ HR Hq) Hq2) as HR2.
  apply (turn_quiet _ _ s s1 Hq), (turn_quiet _ _ s1 s2 Hq2).
  assert (tracker s2 = tracker s) as Et by (destruct Hq as (r & _ & ->), Hq2 as (r2 & _ & ->); done).
  assert (counted n s2) as Hcs2 by (destruct Hq as (r & _ & ->), Hq2 as (r2 & _ & ->); done).
  clear Hq Hq2. pose proof (ready_stocked _ _ _ _ HR2 Hn) as Hs2. apply wp_bind.
  assert (wp (if b then draw_retired else eret (ref_of x)) s2 (λ ref s' out, out = [] ∧ aimed b s2 ref s')) as Ht.
  { destruct b; [apply (draw_retired_wp n); [done|rewrite Et; auto]|]. apply wp_ret. split; [done|].
    exists (rng s2). split; [apply Hs2|]. split; [by destruct s2|]. rewrite Et. by exists x. }
  eapply wp_mono; [|exact Ht]. intros ref s3 out (-> & Ha). apply wp_take, wp_take.
  pose proof Ha as (r & Hr & -> & _). apply (aimed_wp n v f b s2 ref _ _ _ _ HR2 Hcs2 Hn Ha); try done.
  - split; [done|]. split; [done|]. cbn. lia.
  - cbn. by apply (next_id_small n v f).
Qed.

(** *** The operation *)

Lemma operation_wp n v f s : ready n v f s → counted n s → 0 ≤ n < MatchingBook.kNil →
  wp (operation account_first cfg) s (λ _ s' out, turn n s s' out).
Proof.
  intros HR Hcs Hn. unfold operation. pose proof (ready_stocked _ _ _ _ HR Hn) as Hs.
  eapply draws_bind; [by apply (below_draws n); [|lia]|]. intros roll s1 Hq1 _. pose proof (stocked_quiet _ _ _ Hs Hq1) as Hs1.
  eapply draws_bind; [by apply (next_draws n)|]. intros x s2 Hq2 Hx. pose proof (stocked_quiet _ _ _ Hs1 Hq2) as Hs2.
  eapply draws_bind; [by apply (instrument_draws n)|]. intros id s3 Hq3 Hi. pose proof (stocked_quiet _ _ _ Hs2 Hq3) as Hs3.
  eapply draws_bind; [by apply (next_draws n)|]. intros y s4 Hq4 Hy. pose proof (stocked_quiet _ _ _ Hs3 Hq4) as Hs4.
  cbn beta in Hi.
  assert (ready n v f s4 ∧ quiet s s4) as [HR4 Hq].
  { destruct Hq1 as (r1 & _ & ->), Hq2 as (r2 & _ & ->), Hq3 as (r3 & _ & ->), Hq4 as (r4 & Hr4 & ->).
    split; [by apply (ready_quiet n v f s); [|exists r4]|by exists r4]. }
  apply (turn_quiet _ _ _ _ Hq). assert (counted n s4) as Hcs4 by by destruct Hq as (r & _ & ->).
  clear Hq1 Hq2 Hq3 Hq4 Hq Hs Hs1 Hs2 Hs3. set (sd := if negb _ then Buy else Sell). case_bool; [by apply (downgraded_wp n v f)|].
  case_bool; [by apply (emit_crossing_wp n v f)|].
  eapply draws_bind; [by apply (stale_draws n)|]. intros b s5 Hq Hb. apply (turn_quiet _ _ _ _ Hq).
  pose proof (ready_quiet _ _ _ _ _ HR4 Hq) as HR5. destruct Hq as (r & Hr & ->).
  case_bool; [by apply (emit_cancel_wp n v f)|]. case_bool; [by apply (emit_replace_wp n v f)|].
  by apply (emit_immediate_wp n v f).
Qed.

(** ** Phases *)

(** After [n] commands. *)
Definition at_ (n : Z) (s : State) : Prop := (∃ v f, ready n v f s) ∧ counted n s.

(** [c] commands were played; while seeding no kinds are recorded and nothing is refused. *)
Definition progress (seeding : bool) (c : Z) (s s' : State) (out : list ExchangeCommand) : Prop :=
  vsize out = c ∧
  (if seeding then kinds s' = kinds s ∧ counts s' = counts s else vsize (kinds s') = vsize (kinds s) + c) ∧
  ∃ evs, run out (engine s) = Some (tt, engine s', evs) ∧ Forall expected (rejections evs) ∧
    stale s' = stale s + occurs RejectReason.UnknownOrderId (rejections evs) ∧
    foks s + occurs RejectReason.InsufficientLiquidity (rejections evs) ≤ foks s'.

Definition advances (seeding : bool) (c : Z) (m : gen unit) : Prop :=
  ∀ n s, at_ n s → 0 ≤ n → n + c ≤ MatchingBook.kNil →
    wp m s (λ _ s' out, at_ (n + c) s' ∧ progress seeding c s s' out).

Lemma advances_none b : advances b 0 (eret tt).
Proof.
  intros n s Ha Hn Hl. apply wp_ret. rewrite Z.add_0_r. split; [done|]. split; [done|].
  split; [destruct b; [done|lia]|]. exists []. split; [done|]. split; [by apply Forall_nil|]. cbn [rejections omap list_omap].
  change (occurs _ []) with 0. lia.
Qed.

Lemma run_app (cs cs' : list ExchangeCommand) (e : MatchingEngine.t MatchingBook.t) e1 e2 o1 o2 :
  run cs e = Some (tt, e1, o1) → run cs' e1 = Some (tt, e2, o2) → run (cs ++ cs') e = Some (tt, e2, o1 ++ o2).
Proof.
  revert e o1. induction cs as [|c cs IH]; intros e o1; cbn [app run].
  - by intros [= <- <-].
  - unfold ebind. destruct (process c e) as [[[[] e3] o3]|]; [|done].
    destruct (run cs e3) as [[[[] e4] o4]|] eqn:E; [|done]. intros [= <- <-] Hr.
    by rewrite (IH e3 o4 E Hr), app_assoc.
Qed.

Lemma advances_seq b c c' m m' : 0 ≤ c → 0 ≤ c' → advances b c m → advances b c' m' → advances b (c + c') (m ;; m')%eff.
Proof.
  intros Hc Hc' Hm Hm' n s Ha Hn Hl. apply wp_bind.
  eapply wp_mono; [|apply (Hm n s Ha Hn); lia]. intros [] s1 o1 (Ha1 & Hz1 & Hk1 & evs1 & Hr1 & Hf1 & Hs1 & Hi1).
  eapply wp_mono; [|apply (Hm' (n + c) s1 Ha1); lia]. intros [] s2 o2 (Ha2 & Hz2 & Hk2 & evs2 & Hr2 & Hf2 & Hs2 & Hi2).
  rewrite Z.add_assoc. split; [done|]. split; [unfold vsize in *; rewrite length_app; lia|]. split.
  { destruct b; [|lia]. destruct Hk1, Hk2. split; congruence. }
  exists (evs1 ++ evs2). rewrite rejections_app, !occurs_app. split; [by eapply run_app|].
  split; [by apply Forall_app|]. lia.
Qed.

Lemma advances_times b c m k : 0 ≤ c → advances b c m → advances b (c * Z.of_nat k) (times k m).
Proof.
  intros Hc Hm. induction k as [|k IH]; [rewrite Z.mul_0_r; apply advances_none|].
  replace (c * Z.of_nat (S k)) with (c + c * Z.of_nat k) by lia. apply advances_seq; [lia..|done|done].
Qed.

Lemma advances_each b c (g : Z → gen unit) l : 0 ≤ c → (∀ x, x ∈ l → advances b c (g x)) →
  advances b (c * vsize l) (for_each l g).
Proof.
  intros Hc. unfold vsize. induction l as [|x l IH]; intros Hg; [rewrite Z.mul_0_r; apply advances_none|].
  cbn [for_each length]. replace (c * Z.of_nat (S (length l))) with (c + c * Z.of_nat (length l)) by lia.
  apply advances_seq; [lia..|apply Hg; by left|]. apply IH. intros y Hy. apply Hg. by right.
Qed.

Lemma occurs_one r r' : occurs r' (option_list r) = one r (Some r').
Proof.
  unfold one, occurs, vsize. destruct r as [r|]; [|by rewrite decide_False].
  change (option_list (Some r)) with [r]. destruct (decide (r = r')) as [->|Hne].
  - by rewrite filter_cons_True, decide_True.
  - by rewrite filter_cons_False, decide_False by congruence.
Qed.

(** A command is progress. *)
Lemma answered_progress b n s s' out r : answered n s s' out r → (r = None ∨ r = unknown ∨ r = illiquid) →
  (if b : bool then kinds s' = kinds s ∧ counts s' = counts s else vsize (kinds s') = vsize (kinds s) + 1) →
  stale s' = stale s + one r unknown → foks s + one r illiquid ≤ foks s' → progress b 1 s s' out.
Proof.
  intros (_ & c & evs & -> & Hp & Hrej) Hr Hk Hs Hf. split; [done|]. split; [done|]. exists evs. split.
  { cbn [run]. unfold ebind. rewrite Hp. cbn. by rewrite app_nil_r. }
  rewrite Hrej, !occurs_one. split; [|done]. destruct Hr as [->|[->| ->]]; cbn [option_list];
    [by apply Forall_nil|apply Forall_singleton; by left|apply Forall_singleton; by right].
Qed.

Lemma operation_advances : advances false 1 (operation account_first cfg).
Proof.
  intros n s [(v & f & HR) Hc] Hn Hl. eapply wp_mono; [|apply (operation_wp n v f s HR Hc); lia].
  intros [] s' out (r & Ha & Hk & Hc' & Hr & Hs & Hf). split; [split; [by destruct Ha|done]|].
  eapply answered_progress; [done..|unfold vsize; lia|done|done].
Qed.

Lemma seeding_advances id sd : 1 ≤ id ≤ N → advances true 1 (emit_resting account_first cfg id sd).
Proof.
  intros Hi n s [(v & f & HR) Hc] Hn Hl. eapply wp_mono; [|apply (emit_resting_wp n v f id sd s HR); [lia|done]].
  intros [] s' out (Ha & Hk & Hcs). split.
  { split; [by destruct Ha|]. unfold counted in *. rewrite Hcs. lia. }
  eapply answered_progress; [done|by left|done|rewrite Hcs..].
  - change (one None unknown) with 0. lia.
  - change (one None illiquid) with 0. lia.
Qed.

Lemma seed_phase_advances : advances true (2 * initial_orders_per_side cfg * N) (seed_phase account_first cfg).
Proof.
  pose proof (ok_instruments _ Hcfg). destruct (ok_sizes _ Hcfg) as [Hi _].
  replace (2 * initial_orders_per_side cfg * N) with
    ((1 + 1) * Z.of_nat (Z.to_nat (initial_orders_per_side cfg)) * vsize (seqZ 1 N)).
  2: { unfold vsize. rewrite length_seqZ. lia. }
  unfold seed_phase. apply advances_each; [lia|]. intros id Hid%elem_of_seqZ.
  apply advances_times; [lia|]. apply advances_seq; [lia..| |]; apply seeding_advances; lia.
Qed.

Lemma operation_phase_advances : advances false (operation_count cfg) (operation_phase account_first cfg).
Proof.
  destruct (ok_sizes _ Hcfg) as [_ Hi]. unfold operation_phase.
  replace (operation_count cfg) with (1 * Z.of_nat (Z.to_nat (operation_count cfg))) at 1 by lia.
  apply advances_times; [lia|]. apply operation_advances.
Qed.

(** ** Start and end *)

Lemma universe_ids id : id ∈ instruments cfg ↔ 1 ≤ id ≤ N.
Proof.
  pose proof (ok_instruments _ Hcfg). unfold kMaxInstrumentId in *. unfold instruments, instrument_universe.
  rewrite list_elem_of_fmap. split.
  - intros (i & -> & Hi%elem_of_seqZ). rewrite (u32_small i), u32_small by (unfold in_u32; lia). lia.
  - intros Hi. exists (id - 1). rewrite elem_of_seqZ. split; [|lia].
    rewrite (u32_small (id - 1)), u32_small by (unfold in_u32; lia). lia.
Qed.

Lemma start_at : ∃ e, make (instruments cfg) kDefaultExpectedRestingOrders = Some e ∧ at_ 0 (initial cfg e).
Proof.
  pose proof (ok_instruments _ Hcfg) as HN. unfold kMaxInstrumentId in HN.
  assert (Forall in_u32 (instruments cfg)) as Hu.
  { apply Forall_forall. intros id Hi%universe_ids. unfold in_u32. lia. }
  assert (vsize (instruments cfg) < kNoSlot) as Hz.
  { unfold vsize, instruments, instrument_universe, kNoSlot. rewrite length_fmap, length_seqZ. lia. }
  destruct (make_total _ kDefaultExpectedRestingOrders Hu Hz) as (f & Hf & _ & HI & Hk).
  destruct (er_make Rep _ kDefaultExpectedRestingOrders f Hu Hz Hf) as (e & He & HE).
  exists e. split; [done|]. split; [|split; cbn; lia]. exists ∅, f. split; [|split; [apply Hcfg|cbn; lia]].
  assert (next_exchange_order_id_ f = 1) as En by by apply FeedEngine.make_pristine in Hf as [? _].
  constructor; cbn [initial engine tracker]; try done.
  - exists ∅. eapply (FeedEngine.tracked_start (instruments cfg)); [done| |done]. intros id. rewrite Hk. by intros [].
  - by apply ReportProps.mirrors_start.
  - intros id. rewrite Hk, universe_ids. unfold kMaxInstrumentId. lia.
  - split; [apply ok_empty|apply DepthTracker.counts_make; lia|by apply Forall_nil..|].
    split; [done|]. split; [cbn; lia|by apply Forall_nil].
  - intros r. cbn. split; [by intros ?%not_elem_of_nil|]. by intros (k & w & _ & Hw%lookup_empty_Some & _).
Qed.

(** The records are as many as the orders of the directory. *)
Lemma records_counted n s : at_ n s → LiveIndex.size (live (tracker s)) = Z.of_nat (base.size (orders_ (engine s))).
Proof.
  intros [(v & f & HG & _) _]. rewrite (er_orders _ _ _ (gd_refines _ _ _ _ _ _ _ _ _ HG)).
  set (rs := records_ (live (tracker s))). set (key := λ r, ref_key (ref_of r)).
  assert (NoDup (key <$> rs)) as Hnd.
  { pose proof (base_nodup _ _ _ _ _ _ (gd_base _ _ _ _ _ _ _ _ _ HG)) as Hn.
    apply NoDup_fmap_2_strong; [|by apply NoDup_fmap_1 in Hn].
    intros r r' (k & w & _ & Hw & _ & ->)%(gd_lists _ _ _ _ _ _ _ _ _ HG)
      (k' & w' & _ & Hw' & _ & ->)%(gd_lists _ _ _ _ _ _ _ _ _ HG) E. destruct k, k'.
    injection E as -> ->. congruence. }
  assert (dom (orders_ f) = list_to_set (key <$> rs)) as Hdom.
  { apply set_eq. intros k. rewrite elem_of_dom, elem_of_list_to_set, list_elem_of_fmap. split.
    - intros [ref Hr]. destruct (directory_open N HG k ref Hr) as (w & Hw & Ht & _).
      exists (record_of k w). split; [by destruct k|]. apply (gd_lists _ _ _ _ _ _ _ _ _ HG). by exists k, w.
    - intros (r & -> & Hr). destruct (record_located N HG r Hr) as (_ & ref & Href & _). by exists ref. }
  rewrite <-size_dom, Hdom, size_list_to_set by done. by rewrite length_fmap.
Qed.

Lemma levels_total n s sd : at_ n s → ∃ k, total_levels sd (seqZ 1 N) (depth (tracker s)) = Some k.
Proof.
  intros [(v & f & HG & _) _]. destruct (bs_depth _ _ _ _ _ _ (gd_base _ _ _ _ _ _ _ _ _ HG)) as (_ & _ & _ & Hc).
  assert (∀ l, (∀ id, id ∈ l → 1 ≤ id ≤ N) → ∃ k, total_levels sd l (depth (tracker s)) = Some k) as Hl.
  { induction l as [|id l IH]; intros Hin; [by exists 0|]. destruct IH as [k Hk]; [intros; apply Hin; by right|].
    destruct (Hc id sd) as (x & Ex & _); [apply Hin; by left|]. cbn [total_levels]. unfold DepthTracker.level_count.
    rewrite Ex, Hk. by eexists. }
  apply Hl. intros id Hi%elem_of_seqZ. lia.
Qed.
End generator.

(** C30: the streams that the benchmarks and the stress tests run are the ones they mean
    to. For every configuration in range, and whichever of two arguments the compiler
    evaluates first, the generator returns: no index leaves a vector, no modulus is zero,
    no price or quantity wraps. Replayed into a fresh engine, the seed is accepted whole.
    Of the operations the engine refuses as unknown exactly as many as the generator
    counted as stale references, for want of liquidity at most the fill-or-kill orders,
    and nothing else: every other cancel and replacement names a live order. The numbers
    of resting orders it reports are those of the engine. *)
Theorem workload_is_valid account_first cfg : config_ok cfg →
  ∃ w (e0 e1 e2 : real) evs1 evs2,
    generate_workload (B := MatchingBook.t) account_first cfg = Some w ∧
    vsize (w_seed w) = 2 * initial_orders_per_side cfg * instrument_count cfg ∧
    vsize (w_operations w) = operation_count cfg ∧ vsize (w_kinds w) = operation_count cfg ∧
    make (instruments cfg) kDefaultExpectedRestingOrders = Some e0 ∧
    run (w_seed w) e0 = Some (tt, e1, evs1) ∧ run (w_operations w) e1 = Some (tt, e2, evs2) ∧
    rejections evs1 = [] ∧ Forall expected (rejections evs2) ∧
    occurs RejectReason.UnknownOrderId (rejections evs2) = stale_references (w_counts w) ∧
    occurs RejectReason.InsufficientLiquidity (rejections evs2) ≤ fok (w_counts w) ∧
    resting_orders_after_seed w = Z.of_nat (base.size (orders_ e1)) ∧
    resting_orders_at_end w = Z.of_nat (base.size (orders_ e2)).
Proof.
  intros Hcfg. destruct (start_at cfg Hcfg) as (e & He & Hat). destruct (ok_sizes _ Hcfg) as [Hi Ho].
  pose proof (ok_instruments _ Hcfg). pose proof (ok_total _ Hcfg).
  destruct (wp_elim _ _ _ (seed_phase_advances account_first cfg Hcfg 0 _ Hat ltac:(lia) ltac:(lia)))
    as ([] & s1 & seed & E1 & Hat1 & Hz1 & [Hk1 Hc1] & evs1 & Hr1 & Hf1 & Hs1 & Hi1).
  destruct (wp_elim _ _ _ (operation_phase_advances account_first cfg Hcfg _ s1 Hat1 ltac:(lia) ltac:(lia)))
    as ([] & s2 & ops & E2 & Hat2 & Hz2 & Hk2 & evs2 & Hr2 & Hf2 & Hs2 & Hi2).
  destruct (levels_total cfg _ s2 Buy Hat2) as [bids Hb], (levels_total cfg _ s2 Sell Hat2) as [asks Ha].
  rewrite Hc1 in Hs1, Hi1, Hs2, Hi2. rewrite Hk1 in Hk2.
  cbn [initial counts kinds no_counts stale_references fok] in Hs1, Hi1, Hs2, Hi2, Hk2.
  eexists _, e, (engine s1), (engine s2), evs1, evs2. split.
  { unfold generate_workload. rewrite He, E1, E2, Hb, Ha. reflexivity. }
  cbn [w_seed w_operations w_kinds w_counts resting_orders_after_seed resting_orders_at_end].
  split; [done|]. split; [done|]. split; [exact Hk2|]. split; [done|]. split; [done|]. split; [done|].
  split; [apply expected_none; [done|lia..]|]. split; [done|]. split; [lia|]. split; [lia|].
  split; by eapply records_counted.
Qed.

(** A small mix over two instruments, with stale references. *)
Definition sample_config : WorkloadConfig := mkConfig 42 30 2 3 4 1000 500 64 8 1 100 67 300 30 realistic.

Lemma sample_config_ok : config_ok sample_config.
Proof. constructor; by vm_compute. Qed.

Lemma workload_is_valid_witness : config_ok sample_config ∧
  ∃ w (e0 e1 e2 : real) evs1 evs2,
    generate_workload (B := MatchingBook.t) true sample_config = Some w ∧
    vsize (w_seed w) = 2 * 3 * 2 ∧
    vsize (w_operations w) = 30 ∧ vsize (w_kinds w) = 30 ∧
    make (instruments sample_config) kDefaultExpectedRestingOrders = Some e0 ∧
    run (w_seed w) e0 = Some (tt, e1, evs1) ∧ run (w_operations w) e1 = Some (tt, e2, evs2) ∧
    rejections evs1 = [] ∧ Forall expected (rejections evs2) ∧
    occurs RejectReason.UnknownOrderId (rejections evs2) = stale_references (w_counts w) ∧
    occurs RejectReason.InsufficientLiquidity (rejections evs2) ≤ fok (w_counts w) ∧
    resting_orders_after_seed w = Z.of_nat (base.size (orders_ e1)) ∧
    resting_orders_at_end w = Z.of_nat (base.size (orders_ e2)).
Proof. split; [exact sample_config_ok|]. exact (workload_is_valid true sample_config sample_config_ok). Defined.

(** It is more than a formality: the stream has stale references, and they are refused. *)
Example sample_stream : match generate_workload (B := MatchingBook.t) true sample_config with
  | Some w => (stale_references (w_counts w), resting_orders_after_seed w, resting_orders_at_end w)
  | None => (0, 0, 0)
  end = (3, 12, 20).
Proof. by vm_compute. Qed.

(** One order per side of one instrument. *)
Definition tiny_config : WorkloadConfig := mkConfig 42 0 1 1 4 1000 500 64 8 1 100 67 300 0 realistic.

(** The same seed gives another stream where the compiler evaluates the price first: the
    stream is not the same on every compiler. *)
Lemma argument_order_matters : config_ok tiny_config ∧
  w_seed <$> generate_workload (B := MatchingBook.t) true tiny_config ≠
  w_seed <$> generate_workload (B := MatchingBook.t) false tiny_config.
Proof. split; [constructor; by vm_compute|]. intros E. vm_compute in E. discriminate E. Qed.

End WorkloadProps.
