(* ===== verification/UiGateway.v ===== *)
(** * The UI gateway: the hub of its streams, and the gateway

    Module SseHub is the hub, with the proof that a stream catches up; Module UiGateway
    the sessions, the books and the handlers. *)

From stdpp Require Import strings pretty sorting.
From S2P Require Import Prelude Types MarketDataCodec Packet OrderEntryCodec Oms Positions OrderBook Sequence.
From S2P Require Import BookManager Replay.

(** * Server-sent events ([SseHub] of [ui_gateway/ui_gateway.cpp])

    A topic keeps its latest payload and the revision it got; a connection keeps, for every
    topic, the revision it has delivered. [wait_next] is modelled at the instant at which
    its predicate decides it: under the lock, with a topic pending or at the time limit.
    The order in which it goes over the topics, an [unordered_map], is a parameter of every
    call. *)

Module SseHub.

Record Entry := mkEntry { payload : string; revision : Z }.

Record t := mk { global_revision_ : Z; topics_ : gmap string Entry }.

Definition empty : t := mk 0 ∅.

Definition publish (topic new_payload : string) (h : t) : t :=
  let r := u64 (global_revision_ h + 1) in mk r (<[topic := mkEntry new_payload r]> (topics_ h)).

Abbreviation Cursors := (gmap string Z).

(** [cursors[topic]]: an absent cursor is added as zero. *)
Definition visit (topic : string) (c : Cursors) : Cursors :=
  match c !! topic with Some _ => c | None => <[topic := 0]> c end.

Definition cursor (topic : string) (c : Cursors) : Z := default 0 (c !! topic).

(** [has_pending]: the first topic with a newer revision, [ready_topic]. *)
Fixpoint has_pending (order : list (string * Entry)) (c : Cursors) : option string * Cursors :=
  match order with
  | [] => (None, c)
  | (topic, entry) :: order =>
      let c := visit topic c in
      if cursor topic c <? revision entry then (Some topic, c) else has_pending order c
  end.

(** The outer [None]: [at] throws. *)
Definition wait_next (order : list (string * Entry)) (h : t) (c : Cursors) : option (option string * Cursors) :=
  match has_pending order c with
  | (None, c) => Some (None, c)
  | (Some ready_topic, c) =>
      entry ← topics_ h !! ready_topic;
      Some (Some (payload entry), <[ready_topic := revision entry]> c)
  end.

(** ** A connection *)

(** What was published, and what the connection was sent, both with their topics. *)
Record connection := mkConnection {
  hub : t;
  cursors : Cursors;
  published : list (string * string);
  received : list (string * string);
}.

Definition publish_to (topic new_payload : string) (s : connection) : connection :=
  mkConnection (publish topic new_payload (hub s)) (cursors s) (published s ++ [(topic, new_payload)]) (received s).

Definition poll (order : list (string * Entry)) (s : connection) : option connection :=
  '(next, c) ← wait_next order (hub s) (cursors s);
  Some (mkConnection (hub s) c (published s)
    (received s ++ match next, (has_pending order (cursors s)).1 with
                   | Some new_payload, Some topic => [(topic, new_payload)]
                   | _, _ => []
                   end)).

Definition start : connection := mkConnection empty ∅ [] [].

(** The topics in some order. *)
Definition enumerates (order : list (string * Entry)) (s : connection) : Prop :=
  order ≡ₚ map_to_list (topics_ (hub s)).

(** Publications and polls in any order. *)
Inductive reaches : connection → Prop :=
  | reaches_start : reaches start
  | reaches_publish s topic new_payload : reaches s → reaches (publish_to topic new_payload s)
  | reaches_poll s s' order : reaches s → enumerates order s → poll order s = Some s' → reaches s'.

Fixpoint polls (orders : list (list (string * Entry))) (s : connection) : option connection :=
  match orders with [] => Some s | order :: orders => s ← poll order s; polls orders s end.

(** The payloads of one topic. *)
Definition payloads_of (topic : string) (l : list (string * string)) : list string :=
  (filter (λ x, x.1 = topic) l).*2.

(** What a client shows of a topic: the last payload it was sent. *)
Definition shown (topic : string) (l : list (string * string)) : option string := last (payloads_of topic l).

(** The topics of which the connection has not been sent the latest. *)
Definition pending (s : connection) : list (string * Entry) :=
  filter (λ x, cursor x.1 (cursors s) < revision x.2) (map_to_list (topics_ (hub s))).

(** ** Cursors *)

Lemma cursor_visit topic topic' c : cursor topic (visit topic' c) = cursor topic c.
Proof.
  unfold visit, cursor. destruct (c !! topic') eqn:E; [done|]. rewrite lookup_insert.
  case_decide; [by subst; rewrite E|done].
Qed.

Lemma cursor_insert topic topic' r c :
  cursor topic (<[topic' := r]> c) = if decide (topic' = topic) then r else cursor topic c.
Proof. unfold cursor. rewrite lookup_insert. by case_decide. Qed.

Lemma has_pending_cursors topic order : ∀ c, cursor topic (has_pending order c).2 = cursor topic c.
Proof.
  induction order as [|[topic' entry] order IH]; intros c; [done|]. cbn [has_pending].
  destruct (_ <? _); [apply cursor_visit|]. by rewrite IH, cursor_visit.
Qed.

(** It finds a pending topic of the list, if there is one. *)
Lemma has_pending_spec order : ∀ c, match (has_pending order c).1 with
  | Some topic => ∃ entry, (topic, entry) ∈ order ∧ cursor topic c < revision entry
  | None => ∀ x, x ∈ order → ¬ cursor x.1 c < revision x.2
  end.
Proof.
  induction order as [|[topic entry] order IH]; intros c; [by intros x ?%not_elem_of_nil|].
  cbn [has_pending]. rewrite cursor_visit. destruct (Z.ltb_spec (cursor topic c) (revision entry)) as [Hlt|Hge].
  { exists entry. split; [by left|done]. }
  specialize (IH (visit topic c)). destruct (has_pending order (visit topic c)).1 as [topic'|].
  - destruct IH as (entry' & Hin & Hlt). rewrite cursor_visit in Hlt. exists entry'. split; [by right|done].
  - intros x [->|Hx]%elem_of_cons; [cbn; lia|]. specialize (IH x Hx). by rewrite cursor_visit in IH.
Qed.

(** ** The invariant *)

(** One topic: what was published, what was sent, and how far the cursor is. *)
Definition topic_ok (global : Z) (entry : option Entry) (cur : Z) (sent all : list string) : Prop :=
  match entry with
  | None => cur = 0 ∧ sent = [] ∧ all = []
  | Some e => 0 ≤ cur ≤ revision e ∧ 0 < revision e ≤ global ∧ ∃ older, all = older ++ [payload e] ∧
      if decide (cur < revision e) then sent `sublist_of` older
      else sent `sublist_of` all ∧ last sent = Some (payload e)
  end.

Definition inv (s : connection) : Prop :=
  global_revision_ (hub s) = Z.of_nat (length (published s)) ∧
  ∀ topic, topic_ok (global_revision_ (hub s)) (topics_ (hub s) !! topic) (cursor topic (cursors s))
    (payloads_of topic (received s)) (payloads_of topic (published s)).

Lemma payloads_of_app topic l l' : payloads_of topic (l ++ l') = payloads_of topic l ++ payloads_of topic l'.
Proof. unfold payloads_of. by rewrite filter_app, fmap_app. Qed.

Lemma payloads_of_one topic topic' p : payloads_of topic [(topic', p)] = if decide (topic' = topic) then [p] else [].
Proof. unfold payloads_of. rewrite filter_cons. cbn [fst]. by case_decide. Qed.

Lemma topic_sublist g e cur sent all : topic_ok g e cur sent all → sent `sublist_of` all.
Proof.
  destruct e as [e|]; cbn [topic_ok]; [|by intros (_ & -> & ->)].
  intros (_ & _ & older & -> & H). case_decide; [by apply sublist_inserts_r|by destruct H].
Qed.

Lemma publish_inv topic p s : inv s → Z.of_nat (length (published s)) < 2 ^ 64 - 1 → inv (publish_to topic p s).
Proof.
  intros [Hg Ht] Hl. set (g := global_revision_ (hub s)) in *.
  assert (u64 (g + 1) = g + 1) as Hu by (apply u64_small; unfold in_u64; lia).
  unfold inv, publish_to, publish. cbn [hub global_revision_ topics_ published received cursors]. split.
  { fold g. rewrite Hu, length_app. cbn. lia. }
  intros topic'. fold g. rewrite Hu, payloads_of_app, payloads_of_one.
  specialize (Ht topic'). rewrite lookup_insert. destruct (decide (topic = topic')) as [->|Hne].
  - pose proof (topic_sublist _ _ _ _ _ Ht) as Hs. cbn [topic_ok payload revision].
    assert (0 ≤ cursor topic' (cursors s) ≤ g) as Hc.
    { destruct (topics_ (hub s) !! topic') as [e|]; cbn [topic_ok] in Ht; lia. }
    split; [lia|]. split; [lia|]. exists (payloads_of topic' (published s)). split; [done|].
    by rewrite decide_True by lia.
  - rewrite app_nil_r. destruct (topics_ (hub s) !! topic') as [e|]; cbn [topic_ok] in *; [|done].
    destruct Ht as (Hc & Hr & Ht). split; [done|]. split; [lia|done].
Qed.

(** A poll finds a topic that is pending, and says so. *)
Lemma poll_cases order s : enumerates order s →
  (∃ topic e s', poll order s = Some s' ∧ topics_ (hub s) !! topic = Some e ∧ cursor topic (cursors s) < revision e ∧
     hub s' = hub s ∧ published s' = published s ∧ received s' = received s ++ [(topic, payload e)] ∧
     ∀ t', cursor t' (cursors s') = if decide (topic = t') then revision e else cursor t' (cursors s)) ∨
  (∃ s', poll order s = Some s' ∧ pending s = [] ∧ hub s' = hub s ∧ published s' = published s ∧
     received s' = received s ∧ ∀ t', cursor t' (cursors s') = cursor t' (cursors s)).
Proof.
  intros Ho. pose proof (has_pending_spec order (cursors s)) as Hp. unfold poll, wait_next.
  destruct (has_pending order (cursors s)) as [ready c] eqn:E.
  assert (∀ t', cursor t' c = cursor t' (cursors s)) as Hc.
  { intros t'. by rewrite <-(has_pending_cursors t' order (cursors s)), E. }
  cbn [fst] in Hp |- *. destruct ready as [topic|].
  - destruct Hp as (e & Hin & Hlt). rewrite Ho, elem_of_map_to_list in Hin. left. exists topic, e.
    rewrite Hin. cbn [mbind option_bind]. eexists. split; [done|]. split_and!; try done.
    intros t'. cbn [cursors]. by rewrite cursor_insert, Hc.
  - right. cbn [mbind option_bind]. eexists. split; [done|]. split; [|by rewrite app_nil_r].
    apply elem_of_nil_inv. intros x [Hx Hin]%list_elem_of_filter. rewrite <-Ho in Hin. by apply (Hp x Hin).
Qed.

Lemma poll_inv order s s' : inv s → enumerates order s → poll order s = Some s' → inv s'.
Proof.
  intros [Hg Ht] Ho Hp. destruct (poll_cases order s Ho) as [(topic & e & s2 & E & He & Hlt & Hh & Hpub & Hr & Hc)|
    (s2 & E & _ & Hh & Hpub & Hr & Hc)]; rewrite Hp in E; injection E as <-; unfold inv; rewrite Hh, Hpub, Hr.
  - split; [done|]. intros t'. rewrite Hc, payloads_of_app, payloads_of_one. specialize (Ht t').
    destruct (decide (topic = t')) as [<-|]; [|by rewrite app_nil_r].
    rewrite He in *. cbn [topic_ok] in *. destruct Ht as (Hcr & Hrv & older & Ha & Hs).
    rewrite decide_True in Hs by done. split; [lia|]. split; [done|]. exists older. split; [done|].
    rewrite decide_False by lia. split; [|apply last_snoc]. rewrite Ha. by apply sublist_app.
  - split; [done|]. intros t'. rewrite Hc. apply Ht.
Qed.

Lemma reaches_inv s : reaches s → Z.of_nat (length (published s)) < 2 ^ 64 → inv s.
Proof.
  intros Hr. induction Hr as [|s topic p Hr IH|s s' order Hr IH Ho Hp]; intros Hl.
  - split; [done|]. intros topic. cbn. unfold cursor. by rewrite !lookup_empty.
  - cbn [publish_to published] in Hl. rewrite length_app in Hl. cbn in Hl. apply publish_inv; [apply IH|]; lia.
  - apply (poll_inv order s); [|done|done]. apply IH.
    destruct (poll_cases order s Ho) as [(? & ? & s2 & E & _ & _ & _ & Hpub & _)|(s2 & E & _ & _ & Hpub & _)];
      rewrite Hp in E; injection E as <-; by rewrite <-Hpub.
Qed.

(** ** Convergence *)

(** A poll with topics pending delivers one of them. *)
Lemma poll_pending order s : enumerates order s → ∃ s', poll order s = Some s' ∧ hub s' = hub s ∧
  published s' = published s ∧
  ((pending s = [] ∧ pending s' = [] ∧ received s' = received s) ∨
   (length (pending s) = S (length (pending s')) ∧ length (received s') = S (length (received s)))).
Proof.
  intros Ho. destruct (poll_cases order s Ho) as [(topic & e & s' & E & He & Hlt & Hh & Hpub & Hr & Hc)|
    (s' & E & Hn & Hh & Hpub & Hr & Hc)]; exists s'; (split; [done|]); (split; [done|]); (split; [done|]).
  - right. split; [|by rewrite Hr, length_app, Nat.add_comm].
    apply elem_of_map_to_list in He as Hin. apply elem_of_Permutation in Hin as [l Hl].
    pose proof (NoDup_fst_map_to_list (topics_ (hub s))) as Hnd. rewrite Hl in Hnd. apply NoDup_cons in Hnd as [Hno _].
    unfold pending. rewrite Hh, Hl, !filter_cons. cbn [fst snd]. rewrite decide_True by done.
    rewrite decide_False by (rewrite Hc, decide_True by done; lia). cbn [length]. f_equal.
    assert (∀ l', topic ∉ l'.*1 → filter (λ x, cursor x.1 (cursors s) < revision x.2) l' =
      filter (λ x, cursor x.1 (cursors s') < revision x.2) l') as Hf; [|by rewrite Hf].
    induction l' as [|x l' IH]; [done|]. intros [Hx Hl']%not_elem_of_cons. rewrite !filter_cons, IH by done.
    rewrite Hc, (decide_False (P := topic = x.1)) by done. done.
  - left. split; [done|]. split; [|done]. unfold pending. rewrite Hh.
    apply elem_of_nil_inv. intros x [Hx Hin]%list_elem_of_filter. rewrite Hc in Hx.
    assert (x ∈ pending s) as Hp by by apply list_elem_of_filter. rewrite Hn in Hp. by apply not_elem_of_nil in Hp.
Qed.

Lemma enumerates_same order s s' : hub s' = hub s → enumerates order s → enumerates order s'.
Proof. unfold enumerates. by intros ->. Qed.

Lemma polls_pending orders : ∀ s, Forall (λ o, enumerates o s) orders → (length (pending s) ≤ length orders)%nat →
  inv s → ∃ s', polls orders s = Some s' ∧ hub s' = hub s ∧ published s' = published s ∧ pending s' = [] ∧
    length (received s') = (length (received s) + length (pending s))%nat ∧ inv s'.
Proof.
  induction orders as [|order orders IH]; intros s Ho Hl HI; cbn [polls].
  { exists s. assert (pending s = []) as E by (apply nil_length_inv; cbn in Hl; lia). rewrite E. by split_and!. }
  apply Forall_cons in Ho as [Ho Hos]. destruct (poll_pending order s Ho) as (s1 & E & Hh & Hpub & Hcase).
  rewrite E. cbn [mbind option_bind]. destruct (IH s1) as (s' & E' & Hh' & Hpub' & Hp' & Hr' & HI').
  - eapply Forall_impl; [exact Hos|]. intros o. by apply enumerates_same.
  - cbn in Hl. destruct Hcase as [(_ & -> & _)|[Hc _]]; cbn; lia.
  - by eapply poll_inv.
  - exists s'. split; [done|]. split; [congruence|]. split; [congruence|]. split; [done|]. split; [|done].
    rewrite Hr'. destruct Hcase as [(-> & -> & ->)|[-> ->]]; cbn; lia.
Qed.

(** With nothing pending, every topic is shown as it is. *)
Lemma settled s topic : inv s → pending s = [] → shown topic (received s) = payload <$> topics_ (hub s) !! topic.
Proof.
  intros [_ Ht] Hp. specialize (Ht topic). unfold shown. destruct (topics_ (hub s) !! topic) as [e|] eqn:He; cbn [topic_ok] in Ht.
  - destruct Ht as (_ & _ & older & _ & Hs). case_decide as Hlt; [|by destruct Hs].
    assert ((topic, e) ∈ pending s) as Hin by (apply list_elem_of_filter; split; [done|by apply elem_of_map_to_list]).
    rewrite Hp in Hin. by apply not_elem_of_nil in Hin.
  - by destruct Ht as (_ & -> & _).
Qed.

(** A connection is never sent a payload that was not published, nor two of a topic in
    another order than theirs; and once the publishers pause, it catches up: whatever was
    published and polled before, and in whatever order each call goes over the topics, as
    many calls as there are topics pending return, each with a payload, and what the client
    then shows of every topic is its latest payload. *)
Theorem stream_converges s orders : reaches s → Z.of_nat (length (published s)) < 2 ^ 64 →
  Forall (λ order, enumerates order s) orders → length orders = length (pending s) →
  ∃ s', polls orders s = Some s' ∧
    length (received s') = (length (received s) + length orders)%nat ∧
    ∀ topic, payloads_of topic (received s') `sublist_of` payloads_of topic (published s) ∧
      shown topic (received s') = payload <$> topics_ (hub s) !! topic.
Proof.
  intros Hr Hl Ho Hlen. pose proof (reaches_inv s Hr Hl) as HI.
  destruct (polls_pending orders s Ho) as (s' & E & Hh & Hpub & Hp & Hrec & HI'); [lia|done|].
  exists s'. split; [done|]. split; [lia|]. intros topic. split.
  - rewrite <-Hpub. destruct HI' as [_ Ht]. by eapply topic_sublist.
  - rewrite <-Hh. by apply settled.
Qed.

(** Two topics published, one of them twice. *)
Definition sample : connection := publish_to "book:1" "c" (publish_to "order:7" "b" (publish_to "book:1" "a" start)).

Definition sample_order : list (string * Entry) := map_to_list (topics_ (hub sample)).

Lemma stream_converges_witness : reaches sample ∧ length [sample_order; sample_order] = length (pending sample) ∧
  ∃ s', polls [sample_order; sample_order] sample = Some s' ∧
    length (received s') = (length (received sample) + 2)%nat ∧
    ∀ topic, payloads_of topic (received s') `sublist_of` payloads_of topic (published sample) ∧
      shown topic (received s') = payload <$> topics_ (hub sample) !! topic.
Proof.
  assert (reaches sample) as Hr by by apply reaches_publish, reaches_publish, reaches_publish, reaches_start.
  assert (enumerates sample_order sample) as Ho by exact (Permutation_refl _). split; [done|]. split; [by vm_compute|].
  apply (stream_converges sample [sample_order; sample_order] Hr); [by vm_compute| |by vm_compute].
  apply Forall_cons_2; [exact Ho|]. apply Forall_cons_2; [exact Ho|apply Forall_nil_2].
Defined.

(** ** Starvation *)

(** One poll after every publication of the topic that the map goes over first. *)
Fixpoint busy (n : nat) (first second : string) (s : connection) : option connection :=
  match n with
  | O => Some s
  | S n =>
      let s := publish_to first "busy" s in
      entry ← topics_ (hub s) !! first;
      other ← topics_ (hub s) !! second;
      s ← poll [(first, entry); (second, other)] s;
      busy n first second s
  end.

Lemma busy_starves n first second e : first ≠ second → ∀ s, topics_ (hub s) !! second = Some e →
  cursor first (cursors s) ≤ global_revision_ (hub s) → 0 ≤ global_revision_ (hub s) →
  global_revision_ (hub s) + Z.of_nat n < 2 ^ 64 →
  ∃ s', busy n first second s = Some s' ∧ received s' = received s ++ replicate n (first, "busy"%string).
Proof.
  intros Hne. induction n as [|n IH]; intros s He Hc H0 Hg; [exists s; split; [done|by rewrite app_nil_r]|].
  assert (u64 (global_revision_ (hub s) + 1) = global_revision_ (hub s) + 1) as Hu
    by (apply u64_small; unfold in_u64; lia).
  cbn [busy]. set (s1 := publish_to first "busy" s).
  assert (topics_ (hub s1) = <[first := mkEntry "busy" (global_revision_ (hub s) + 1)]> (topics_ (hub s))) as E1
    by (unfold s1, publish_to, publish; cbn; by rewrite Hu).
  assert (cursors s1 = cursors s ∧ received s1 = received s ∧
    global_revision_ (hub s1) = global_revision_ (hub s) + 1) as (E2 & E3 & E4) by done.
  rewrite !E1, lookup_insert_eq, lookup_insert_ne, He by done. cbn [mbind option_bind].
  unfold poll, wait_next. cbn [has_pending revision]. rewrite E2, cursor_visit, (proj2 (Z.ltb_lt _ _)) by lia.
  cbn [fst]. rewrite E1, lookup_insert_eq. cbn [mbind option_bind payload revision]. rewrite E3.
  destruct (IH (mkConnection (hub s1) (<[first:=global_revision_ (hub s) + 1]> (visit first (cursors s)))
    (published s1) (received s ++ [(first, "busy"%string)]))) as (s' & E & Hr);
    cbn [hub cursors]; rewrite ?E1, ?E4.
  - by rewrite lookup_insert_ne.
  - rewrite cursor_insert, decide_True by done. lia.
  - lia.
  - lia.
  - exists s'. split; [exact E|]. rewrite Hr. cbn [received]. by rewrite <-app_assoc.
Qed.

(** The other topic is not delivered, however long it waits: nothing bounds how long a
    topic with unseen data is passed over. *)
Lemma topic_starves n : Z.of_nat n < 2 ^ 64 - 2 →
  ∃ s, busy n "book:1" "order:7" (publish_to "order:7" "filled" start) = Some s ∧
    length (received s) = n ∧ shown "order:7" (received s) = None.
Proof.
  intros Hn. destruct (busy_starves n "book:1" "order:7" (mkEntry "filled" 1)
    (ltac:(done)) (publish_to "order:7" "filled" start)) as (s & E & Hr); [by vm_compute..| |].
  { change (global_revision_ _) with 1. lia. }
  exists s. split; [exact E|]. rewrite Hr. cbn [received publish_to start app]. split; [apply length_replicate|].
  unfold shown. replace (payloads_of _ _) with (@nil string); [done|]. symmetry. unfold payloads_of.
  clear. induction n as [|n IH]; [done|]. cbn [replicate]. rewrite filter_cons_False by done. exact IH.
Qed.

End SseHub.

(** * The UI gateway ([ui_gateway/ui_gateway.hpp], [ui_gateway/ui_gateway.cpp])

    The accounts' sessions, the books rebuilt from the feed, and the hub that pushes both
    to browsers. A handler is a function from the request to the response, on its own; an
    exception is the [None] of its monad, which keeps what was done before it. The HTTP
    server, the sockets and the threads are not modelled; the JSON library, what
    [std::stoull] and [std::stoul] read (no number is an exception), the order in which
    [orders] lists, whether a connection is made and whether a message is sent are
    parameters. *)

(** What a response or an event is built of. *)
Inductive json :=
  | JNull | JBool (b : bool) | JNumber (n : Z) | JString (s : string)
  | JArray (l : list json) | JObject (fields : list (string * json)).

(** The JSON library: parsing and access throw ([None]), [dump] prints. *)
Class JsonLibrary := {
  document : Type;
  parse : string → option document;
  at_ : string → document → option document;
  contains : string → document → bool;
  get_string : document → option string;
  get_u64 : document → option Z;
  get_u32 : document → option Z;
  get_i64 : document → option Z;
  items : document → list document;
  dump : json → string;
}.

Module UiGateway.
Import MarketDataCodec (Event).
Import MarketDataCodec.

(** ** Names ([exchange/core/types.hpp], [trader/oms/client_order.hpp]) *)

Definition side_to_string (side : Side) : string := match side with Buy => "Buy" | Sell => "Sell" end.

Definition parse_side (text : string) : option Side :=
  if bool_decide (text = "Buy"%string) then Some Buy
  else if bool_decide (text = "Sell"%string) then Some Sell else None.

Definition parse_time_in_force (text : string) : option TimeInForce :=
  if bool_decide (text = "GTC"%string) then Some GTC
  else if bool_decide (text = "IOC"%string) then Some IOC
  else if bool_decide (text = "FOK"%string) then Some FOK else None.

Definition order_type_to_string (t : OrderType) : string := match t with Limit => "Limit" end.

Definition time_in_force_to_string (t : TimeInForce) : string :=
  match t with GTC => "GTC" | IOC => "IOC" | FOK => "FOK" end.

Definition reject_reason_to_string (r : RejectReason) : string :=
  match r with
  | RejectReason.None => "None"
  | RejectReason.InvalidPrice => "InvalidPrice"
  | RejectReason.InvalidQuantity => "InvalidQuantity"
  | RejectReason.DuplicateOrderId => "DuplicateOrderId"
  | RejectReason.UnknownOrderId => "UnknownOrderId"
  | RejectReason.InvalidInstrument => "InvalidInstrument"
  | RejectReason.InsufficientLiquidity => "InsufficientLiquidity"
  | RejectReason.InvalidReplacement => "InvalidReplacement"
  | RejectReason.InternalError => "InternalError"
  | RejectReason.InsufficientFunds => "InsufficientFunds"
  | RejectReason.InsufficientPosition => "InsufficientPosition"
  | RejectReason.OrderTooLarge => "OrderTooLarge"
  | RejectReason.AccountMismatch => "AccountMismatch"
  end.

Definition state_to_string (s : ClientOrderState) : string :=
  match s with
  | ClientOrderState.PendingNew => "PendingNew"
  | ClientOrderState.Live => "Live"
  | ClientOrderState.PartiallyFilled => "PartiallyFilled"
  | ClientOrderState.Filled => "Filled"
  | ClientOrderState.Rejected => "Rejected"
  | ClientOrderState.Cancelled => "Cancelled"
  | ClientOrderState.Replaced => "Replaced"
  end.

Definition pending_action_to_string (a : PendingAction) : string :=
  match a with
  | PendingAction.None => "None"
  | PendingAction.Cancel => "Cancel"
  | PendingAction.Replace => "Replace"
  end.

Import OrderManagementSystem (ClientOrder, Update, Notify).
Import OrderEntryCodec (Message).

Definition order_to_json (order : ClientOrder) : json :=
  JObject [
    ("account_id", JNumber (OrderManagementSystem.cl_account_id order));
    ("client_order_id", JNumber (OrderManagementSystem.cl_client_order_id order));
    ("exchange_order_id", match OrderManagementSystem.cl_exchange_order_id order with
                          | Some id => JNumber id | None => JNull end);
    ("instrument_id", JNumber (OrderManagementSystem.cl_instrument_id order));
    ("side", JString (side_to_string (OrderManagementSystem.cl_side order)));
    ("price", JNumber (OrderManagementSystem.cl_price order));
    ("quantity", JNumber (OrderManagementSystem.cl_quantity order));
    ("remaining_quantity", JNumber (OrderManagementSystem.cl_remaining_quantity order));
    ("order_type", JString (order_type_to_string (OrderManagementSystem.cl_order_type order)));
    ("time_in_force", JString (time_in_force_to_string (OrderManagementSystem.cl_time_in_force order)));
    ("state", JString (state_to_string (OrderManagementSystem.cl_state order)));
    ("pending_action", JString (pending_action_to_string (OrderManagementSystem.cl_pending_action order)));
    ("last_reject_reason", JString (reject_reason_to_string (OrderManagementSystem.cl_last_reject_reason order)))]%string.

Definition level_to_json (level : OrderBook.PriceLevelView) : json :=
  JObject [("price", JNumber (OrderBook.lv_price level)); ("quantity", JNumber (OrderBook.lv_aggregate level));
           ("order_count", JNumber (OrderBook.lv_count level))]%string.

Definition instrument_id_of (event : Event) : InstrumentId :=
  match event with
  | MAdd m => ao_instrument_id m
  | MCancel m => xo_instrument_id m
  | MModify m => mo_instrument_id m
  | MTrade m => tr_instrument_id m
  | MClear m => cb_instrument_id m
  end.

(** ** State *)

Record UiGatewayOptions := mkUiOptions {
  demo_account_ids : list AccountId;
  demo_instrument_ids : list InstrumentId;
  demo_starting_cash : Z;
  demo_starting_position : Quantity;
  per_account_risk_limits : TraderRiskEngine.TraderRiskLimits;
  book_depth : Z;
}.

Definition default_ui_options : UiGatewayOptions :=
  mkUiOptions [1001; 1002; 1003] [1; 2] 10000000000 1000 TraderRiskEngine.default_limits 10.

Record Session := mkSession { gated_ : TraderRiskGatedOms.t; connected_ : bool }.

Definition with_gated (g : TraderRiskGatedOms.t) (s : Session) : Session := mkSession g (connected_ s).

Record t := mk {
  sessions_ : gmap AccountId Session;
  market_data_outcome_ : Replay.ReplayOutcome;
  sse_hub_ : SseHub.t;
}.

Definition initial : t := mk ∅ Replay.no_outcome SseHub.empty.

Definition with_sessions (m : gmap AccountId Session) (s : t) : t := mk m (market_data_outcome_ s) (sse_hub_ s).
Definition with_outcome (o : Replay.ReplayOutcome) (s : t) : t := mk (sessions_ s) o (sse_hub_ s).
Definition with_hub (h : SseHub.t) (s : t) : t := mk (sessions_ s) (market_data_outcome_ s) h.

Record Response := mkResponse { status : Z; content : json }.

Definition ok_with (j : json) : Response := mkResponse 200 j.
Definition json_error (status : Z) (error : string) : Response :=
  mkResponse status (JObject [("error"%string, JString error)]).

(** ** Handlers that may throw *)

Definition M (A : Type) : Type := t → option A * t.

Definition mret {A} (a : A) : M A := λ s, (Some a, s).
Definition mbind {A C} (m : M A) (k : A → M C) : M C := λ s,
  match m s with (Some a, s) => k a s | (None, s) => (None, s) end.
Definition attempt {A} (o : option A) : M A := λ s, (o, s).
Definition mget : M t := λ s, (Some s, s).
Definition mput (s : t) : M unit := λ _, (Some tt, s).

(** [try { ... } catch (const std::exception&)] *)
Definition catching (m : M Response) : t → Response * t := λ s,
  match m s with (Some r, s) => (r, s) | (None, s) => (json_error 400 "bad_request", s) end.

Declare Scope handler_scope.
Delimit Scope handler_scope with handler.
Notation "x ← m ; k" := (mbind m (λ x, k)) (at level 20, m at level 100, k at level 200) : handler_scope.
Notation "m ;; k" := (mbind m (λ _, k)) (at level 100, k at level 200, right associativity) : handler_scope.

Section gateway.
Context `{JsonLibrary} (stoull stoul : string → option Z).
Context (orders_in : gmap ClientOrderId ClientOrder → list ClientOrder) (options : UiGatewayOptions).

Local Open Scope handler_scope.

(** ** Pushing *)

(** [std::to_string] of an unsigned number. *)
Definition to_string (n : Z) : string := pretty n.

Definition order_topic (account_id : AccountId) : string := "order:" +:+ to_string account_id.
Definition book_topic (instrument_id : InstrumentId) : string := "book:" +:+ to_string instrument_id.

Definition order_event (account_id : AccountId) (order : ClientOrder) : json :=
  JObject [("type", JString "order"); ("account_id", JNumber account_id); ("order", order_to_json order)]%string.

Definition broadcast_order (account_id : AccountId) (order : ClientOrder) (s : t) : t :=
  with_hub (SseHub.publish (order_topic account_id) (dump (order_event account_id order)) (sse_hub_ s)) s.

(** The sink of a session, called with each update. *)
Definition on_update (account_id : AccountId) (updates : list Update) (s : t) : t :=
  foldl (λ s u, match u with Notify order => broadcast_order account_id order s | _ => s end) s updates.

(** The top levels of both sides. *)
Definition levels_json (depth : Z) (book : option OrderBook.t) : json * json :=
  match book with
  | Some b => (JArray (level_to_json <$> OrderBook.top_bids (Z.to_nat depth) b),
               JArray (level_to_json <$> OrderBook.top_asks (Z.to_nat depth) b))
  | None => (JArray [], JArray [])
  end.

Definition book_event (instrument_id : InstrumentId) (book : option OrderBook.t) : json :=
  let '(bids, asks) := levels_json (book_depth options) book in
  JObject [("type", JString "book"); ("instrument_id", JNumber instrument_id); ("bids", bids); ("asks", asks)]%string.

Definition find_book (instrument_id : InstrumentId) (s : t) : option OrderBook.t :=
  BookManager.find_book instrument_id (Replay.books (market_data_outcome_ s)).

Definition broadcast_book (instrument_id : InstrumentId) (s : t) : t :=
  with_hub (SseHub.publish (book_topic instrument_id) (dump (book_event instrument_id (find_book instrument_id s)))
    (sse_hub_ s)) s.

(** ** The market-data thread *)

(** The frames of one packet: the instruments touched, the validator, the outcome. What
    [apply_frame_result] answers is ignored; its [None] is undefined behaviour. *)
Fixpoint apply_frames (frames : list (Event + DecodeError)) (touched : list InstrumentId) (validator : option Z)
    (o : Replay.ReplayOutcome) : option (list InstrumentId * option Z * Replay.ReplayOutcome) :=
  match frames with
  | [] => Some (touched, validator, o)
  | frame :: frames =>
      let touched := match frame with inl event => touched ++ [instrument_id_of event] | inr _ => touched end in
      match Replay.apply_frame_result frame validator Replay.default_options o with
      | Some (_, validator, o) => apply_frames frames touched validator o
      | None => None
      end
  end.

Fixpoint apply_batch (batch : list (list Z)) (touched : list InstrumentId) (validator : option Z)
    (o : Replay.ReplayOutcome) : option (list InstrumentId * option Z * Replay.ReplayOutcome) :=
  match batch with
  | [] => Some (touched, validator, o)
  | datagram :: batch =>
      match Packet.unpack_frames datagram with
      | inr _ => apply_batch batch touched validator o
      | inl packet =>
          match apply_frames (Packet.up_frames packet) touched validator o with
          | Some (touched, validator, o) => apply_batch batch touched validator o
          | None => None
          end
      end
  end.

(** [std::unique] of adjacent equal elements. *)
Fixpoint unique (l : list InstrumentId) : list InstrumentId :=
  match l with
  | x :: (y :: _) as l => if x =? y then unique l else x :: unique l
  | _ => l
  end.

Definition sorted (l : list InstrumentId) : list InstrumentId := unique (merge_sort Z.le l).

(** One turn of [market_data_loop]. *)
Definition market_data_turn (batch : list (list Z)) (validator : option Z) (s : t) : option (option Z * t) :=
  match apply_batch batch [] validator (market_data_outcome_ s) with
  | None => None
  | Some (touched, validator, o) => Some (validator, foldl (λ s id, broadcast_book id s) (with_outcome o s) (sorted touched))
  end.


(** ** Sessions *)

(** The session's own mirror of the starting balances. *)
Definition new_session (account_id : AccountId) (connects : bool) : Session :=
  let g := TraderRiskGatedOms.make account_id (per_account_risk_limits options) in
  let g := TraderRiskGatedOms.deposit_cash (demo_starting_cash options) g in
  mkSession (foldl (λ g id, TraderRiskGatedOms.deposit_position id (demo_starting_position options) g) g
    (demo_instrument_ids options)) connects.

(** [nullptr] is [None]. *)
Definition find_or_create_session (connects : bool) (account_id : AccountId) : M (option Session) :=
  s ← mget;
  match sessions_ s !! account_id with
  | Some session => mret (Some session)
  | None =>
      if negb (bool_decide (account_id ∈ demo_account_ids options)) then mret None
      else
        let session := new_session account_id connects in
        mput (with_sessions (<[account_id := session]> (sessions_ s)) s) ;;
        mret (Some session)
  end.

(** What a call on [session->gated_] leaves, and the updates it hands to the sink. *)
Definition set_gated (account_id : AccountId) (session : Session) (g : TraderRiskGatedOms.t) (updates : list Update) :
    M unit :=
  s ← mget;
  mput (on_update account_id updates (with_sessions (<[account_id := with_gated g session]> (sessions_ s)) s)).

(** A message of the exchange, on the reader thread of a session's client. *)
Definition handle_message (account_id : AccountId) (message : Message) : M unit :=
  s ← mget;
  session ← attempt (sessions_ s !! account_id);
  let '(g, updates) := TraderRiskGatedOms.handle_message message (gated_ session) in
  let g := foldl (λ g fill, TraderRiskGatedOms.settle fill g) g (TraderRiskGatedOms.fills updates) in
  set_gated account_id session g updates.

(** ** REST handlers

    [connects]: whether the client of a new session connects; [sent]: whether what the
    handler sends is sent. *)

Definition handle_health : M Response := mret (ok_with (JObject [("status", JString "ok")]%string)).

Definition handle_list_accounts : M Response :=
  mret (ok_with (JObject [("account_ids"%string, JArray (JNumber <$> demo_account_ids options))])).

Definition unknown_account : Response := json_error 404 "unknown_account".

Definition handle_get_account (account_text : string) (connects : bool) : M Response :=
  account_id ← attempt (stoull account_text);
  session ← find_or_create_session connects account_id;
  match session with
  | None => mret unknown_account
  | Some session =>
      let positions := (λ id, JObject [("instrument_id", JNumber id);
        ("quantity", JNumber (TraderRiskGatedOms.position id (gated_ session)))]%string) <$> demo_instrument_ids options in
      let orders := order_to_json <$>
        orders_in (OrderManagementSystem.orders_ (TraderRiskGatedOms.oms_ (gated_ session))) in
      mret (ok_with (JObject [("account_id", JNumber account_id);
        ("cash", JNumber (TraderRiskGatedOms.cash (gated_ session)));
        ("positions", JArray positions); ("orders", JArray orders)]%string))
  end.

(** [static_cast<InstrumentId>]; an absent parameter is the empty string. *)
Definition handle_get_book (instrument_text depth_text : string) : M Response :=
  instrument ← attempt (stoul instrument_text);
  let instrument_id := u32 instrument in
  depth ← (if bool_decide (depth_text = ""%string) then mret (book_depth options) else attempt (stoull depth_text));
  s ← mget;
  let '(bids, asks) := levels_json depth (find_book instrument_id s) in
  mret (ok_with (JObject [("instrument_id", JNumber instrument_id); ("bids", bids); ("asks", asks)]%string)).

Definition handle_submit_order (request_body : string) (connects sent : bool) : M Response :=
  body ← attempt (parse request_body);
  field ← attempt (at_ "account_id" body);
  account_id ← attempt (get_u64 field);
  session ← find_or_create_session connects account_id;
  match session with
  | None => mret unknown_account
  | Some session =>
      field ← attempt (at_ "side" body);
      text ← attempt (get_string field);
      match parse_side text with
      | None => mret (json_error 400 "invalid_side")
      | Some side =>
          parsed ← (if contains "time_in_force" body then
                      field ← attempt (at_ "time_in_force" body);
                      text ← attempt (get_string field);
                      mret (parse_time_in_force text)
                    else mret (Some GTC));
          match parsed with
          | None => mret (json_error 400 "invalid_time_in_force")
          | Some time_in_force =>
              field ← attempt (at_ "instrument_id" body);
              instrument_id ← attempt (get_u32 field);
              field ← attempt (at_ "price" body);
              price ← attempt (get_i64 field);
              field ← attempt (at_ "quantity" body);
              quantity ← attempt (get_u64 field);
              let '(outcome, g, updates) := TraderRiskGatedOms.submit_new_order sent
                (TraderRiskGatedOms.mkIntent instrument_id side price quantity Limit time_in_force) (gated_ session) in
              set_gated account_id session g updates ;;
              mret (ok_with (JObject (match outcome with
                | inl client_order_id => [("accepted", JBool true); ("client_order_id", JNumber client_order_id)]
                | inr reason => [("accepted", JBool false); ("reject_reason", JString (reject_reason_to_string reason))]
                end)%string))
          end
      end
  end.

Definition handle_cancel_order (account_text order_text : string) (connects sent : bool) : M Response :=
  account_id ← attempt (stoull account_text);
  client_order_id ← attempt (stoull order_text);
  session ← find_or_create_session connects account_id;
  match session with
  | None => mret unknown_account
  | Some session =>
      let '(ok, g) := TraderRiskGatedOms.cancel_order sent client_order_id (gated_ session) in
      set_gated account_id session g [] ;;
      mret (ok_with (JObject [("ok"%string, JBool ok)]))
  end.

Definition handle_replace_order (account_text order_text request_body : string) (connects sent : bool) : M Response :=
  account_id ← attempt (stoull account_text);
  client_order_id ← attempt (stoull order_text);
  session ← find_or_create_session connects account_id;
  match session with
  | None => mret unknown_account
  | Some session =>
      body ← attempt (parse request_body);
      field ← attempt (at_ "new_price" body);
      new_price ← attempt (get_i64 field);
      field ← attempt (at_ "new_quantity" body);
      new_quantity ← attempt (get_u64 field);
      let '(new_id, g) := TraderRiskGatedOms.replace_order sent client_order_id new_price new_quantity (gated_ session) in
      set_gated account_id session g [] ;;
      mret (ok_with (JObject (match new_id with
        | Some id => [("ok", JBool true); ("new_client_order_id", JNumber id)]
        | None => [("ok", JBool false)]
        end)%string))
  end.

(** ** Requests *)

Inductive Request :=
  | Health
  | ListAccounts
  | GetAccount (account_text : string)
  | GetBook (instrument_text depth_text : string)
  | SubmitOrder (request_body : string)
  | CancelOrder (account_text order_text : string)
  | ReplaceOrder (account_text order_text request_body : string).

(** The routes; the handlers of the first two do not throw. *)
Definition serve (r : Request) (connects sent : bool) : t → Response * t :=
  catching match r with
  | Health => handle_health
  | ListAccounts => handle_list_accounts
  | GetAccount account_text => handle_get_account account_text connects
  | GetBook instrument_text depth_text => handle_get_book instrument_text depth_text
  | SubmitOrder request_body => handle_submit_order request_body connects sent
  | CancelOrder account_text order_text => handle_cancel_order account_text order_text connects sent
  | ReplaceOrder account_text order_text request_body =>
      handle_replace_order account_text order_text request_body connects sent
  end.

(** A frame of [/api/stream]; nothing within the time limit is a comment. *)
Definition stream_frame (next : option string) : string :=
  let newline := String (Ascii.ascii_of_nat 10) EmptyString in
  match next with
  | None => ": keep-alive" +:+ newline +:+ newline
  | Some payload => "data: " +:+ payload +:+ newline +:+ newline
  end.

(** ** What happens *)

Inductive action :=
  | Serve (r : Request) (connects sent : bool)
  | Receive (account_id : AccountId) (message : Message)
  | Feed (batch : list (list Z)).

(** The validator of the market-data thread, and the gateway. *)
Definition step (a : action) (x : option Z * t) : option (option Z * t) :=
  match a with
  | Serve r connects sent => Some (x.1, (serve r connects sent x.2).2)
  | Receive account_id message => Some (x.1, (handle_message account_id message x.2).2)
  | Feed batch => market_data_turn batch x.1 x.2
  end.

Fixpoint exec (actions : list action) (x : option Z * t) : option (option Z * t) :=
  match actions with [] => Some x | a :: actions => match step a x with Some x => exec actions x | None => None end end.

End gateway.
End UiGateway.
