(* ===== verification/UiGatewayProps.v ===== *)
(** * What the UI gateway shows and does

    The books it pushes are those of the feed it hears; what a request changes is the
    session of the account it names; and what it holds and pushes is an account's own. *)

From stdpp Require Import strings pretty sorting.
From S2P Require Import Prelude Types MarketDataCodec Packet OrderEntryCodec Oms Positions OrderBook Sequence.
From S2P Require Import BookManager SnapshotProps Replay Recovery UdpListener UiGateway.

Module UiGatewayProps.
Import UiGateway.
Import MarketDataCodec (Event, DecodeError).
Import Replay (apply_frame_result, apply_to, default_options, sequence_of, books, no_outcome, ReplayOutcome).
Import BookManager (Rep, spec_event, spec_events).
Import (hints) SequenceValidator.
Import SequenceValidator (check, sc_outcome, InOrder, SequenceOutcome_eq_dec).

Abbreviation arrivals := BookManager.arrivals (only parsing).

(** ** The feed the gateway hears *)

(** The events whose number follows the last one seen. The validator moves on past a
    gap, but the event after it is not applied. *)
Fixpoint heard (last_seen : option Z) (frames : list (Event + DecodeError)) : list Event :=
  match frames with
  | [] => []
  | inr _ :: frames => heard last_seen frames
  | inl event :: frames =>
      let '(c, last_seen) := check (sequence_of event) last_seen in
      if bool_decide (sc_outcome c = InOrder) then event :: heard last_seen frames else heard last_seen frames
  end.

Fixpoint seen (last_seen : option Z) (frames : list (Event + DecodeError)) : option Z :=
  match frames with
  | [] => last_seen
  | inr _ :: frames => seen last_seen frames
  | inl event :: frames => seen (check (sequence_of event) last_seen).2 frames
  end.

Lemma heard_app frames frames' : ∀ v, heard v (frames ++ frames') = heard v frames ++ heard (seen v frames) frames'.
Proof.
  induction frames as [|[event|] frames IH]; intros v; cbn [app heard seen]; [done| |apply IH].
  destruct (check _ _) as [c v']. cbn [snd]. rewrite IH. by case_bool_decide.
Qed.

Lemma seen_app frames frames' : ∀ v, seen v (frames ++ frames') = seen (seen v frames) frames'.
Proof. induction frames as [|[event|] frames IH]; intros v; cbn [app seen]; [done| |]; apply IH. Qed.

(** Nothing of a feed without a gap is missed. *)
Lemma heard_consecutive evs : ∀ v, Recovery.consecutive v evs = true → heard v (inl <$> evs) = evs.
Proof.
  induction evs as [|ev evs IH]; intros v; [done|]. cbn [Recovery.consecutive fmap list_fmap heard].
  intros [Hf Hc]%andb_true_iff. pose proof (Replay.check_follows (sequence_of ev) v) as Hcheck.
  rewrite Hf in Hcheck. rewrite Hcheck. cbn [sc_outcome]. rewrite bool_decide_eq_true_2 by done. by rewrite IH.
Qed.

(** After a gap, the event that comes first is not applied. *)
Lemma heard_after_gap ev n : SequenceValidator.check (sequence_of ev) (Some n) =
    (SequenceValidator.mkCheck SequenceValidator.Missing (sequence_of ev) (u64 (n + 1)), Some (sequence_of ev)) →
  heard (Some n) [inl ev] = [] ∧ seen (Some n) [inl ev] = Some (sequence_of ev).
Proof. intros E. cbn [heard seen]. by rewrite E. Qed.

(** ** One frame *)

(** Only the book of the event's instrument changes. *)
Lemma apply_event_other event m s m' s' id : BookManager.apply_event event m s = Some (m', s') →
  instrument_id_of event ≠ id → BookManager.find_book id m' = BookManager.find_book id m.
Proof.
  assert (∀ i f err m1, BookManager.on_book i f m = Some (err, m1) → i ≠ id →
    BookManager.find_book id m1 = BookManager.find_book id m) as Hon.
  { intros i f err m1 Hon Hne. unfold BookManager.on_book in Hon. destruct (f _) as [[err' b]|]; [|done].
    injection Hon as _ <-. by apply lookup_insert_ne. }
  unfold BookManager.apply_event. intros E Hne.
  destruct event; cbn [instrument_id_of] in Hne;
    (match type of E with context [BookManager.on_book ?i ?f ?b] =>
       destruct (BookManager.on_book i f b) as [[err m1]|] eqn:Eo; [|done]; injection E as <- _; by eapply Hon
     | _ => by injection E as <- _ end).
Qed.

Lemma apply_frame_spec frame v o a : Rep (books o) a → ∃ stopped o',
  apply_frame_result frame v default_options o = Some (stopped, seen v [frame], o') ∧
  Rep (books o') (spec_events (heard v [frame]) a) ∧
  ∀ id, (∀ event, frame = inl event → instrument_id_of event ≠ id) →
    BookManager.find_book id (books o') = BookManager.find_book id (books o).
Proof.
  intros HR. unfold apply_frame_result. destruct frame as [event|e]; cbn [seen heard].
  2: { eexists _, _. split; [done|]. by split. }
  destruct (check (sequence_of event) v) as [c v1]. cbn [snd]. case_bool_decide as Hc.
  - destruct (Replay.apply_to_refines event v1 o a HR) as (m & E & HR'). eexists _, _. split; [exact E|].
    split; [exact HR'|]. intros id Hid. unfold apply_to in E.
    destruct (BookManager.apply_event _ _ _) as [[m1 s1]|] eqn:Ea; [|done]. injection E as _ <-.
    eapply apply_event_other; [exact Ea|by apply Hid].
  - cbn [Replay.recovery_snapshot Replay.stop_on_sequence_error default_options].
    destruct (sc_outcome c); (eexists _, _; split; [done|]; by split).
Qed.

(** ** A batch *)

Definition touched_by (frames : list (Event + DecodeError)) : list InstrumentId :=
  omap (λ f, match f with inl event => Some (instrument_id_of event) | inr _ => None end) frames.

Lemma touched_app frames frames' : touched_by (frames ++ frames') = touched_by frames ++ touched_by frames'.
Proof. apply omap_app. Qed.

(** The frames are applied; the books that are not touched stay. *)
Record applied (frames : list (Event + DecodeError)) (a : arrivals) (v : option Z) (o o' : ReplayOutcome) : Prop := {
  ap_books : Rep (books o') (spec_events (heard v frames) a);
  ap_other : ∀ id, id ∉ touched_by frames → BookManager.find_book id (books o') = BookManager.find_book id (books o);
}.

Lemma apply_frames_spec frames : ∀ touched v o a, Rep (books o) a → ∃ o',
  apply_frames frames touched v o = Some (touched ++ touched_by frames, seen v frames, o') ∧ applied frames a v o o'.
Proof.
  induction frames as [|frame frames IH]; intros touched v o a HR; cbn [apply_frames].
  { exists o. by rewrite app_nil_r. }
  destruct (apply_frame_spec frame v o a HR) as (stopped & o1 & -> & HR1 & Ho1).
  set (touched1 := match frame with inl event => _ | inr _ => touched end).
  destruct (IH touched1 (seen v [frame]) o1 _ HR1) as (o' & E & [HR' Ho']). exists o'.
  replace (touched ++ touched_by (frame :: frames)) with (touched1 ++ touched_by frames).
  2: { unfold touched1, touched_by. destruct frame; cbn [omap list_omap]; [by rewrite <-app_assoc|done]. }
  rewrite E. split; [by rewrite <-seen_app|]. split.
  - change (frame :: frames) with ([frame] ++ frames). by rewrite heard_app, SnapshotProps.spec_events_app.
  - intros id Hid. change (frame :: frames) with ([frame] ++ frames) in Hid.
    rewrite touched_app, not_elem_of_app in Hid. destruct Hid as [Hid1 Hid2].
    rewrite Ho', Ho1; [done| |done]. intros event -> E'. apply Hid1. cbn. rewrite E'. by left.
Qed.

Lemma apply_batch_spec batch : ∀ touched v o a, Rep (books o) a → ∃ o',
  apply_batch batch touched v o = Some (touched ++ touched_by (UdpListener.carried batch), seen v (UdpListener.carried batch), o') ∧
  applied (UdpListener.carried batch) a v o o'.
Proof.
  induction batch as [|datagram batch IH]; intros touched v o a HR; cbn [apply_batch].
  { exists o. by rewrite app_nil_r. }
  change (UdpListener.carried (datagram :: batch)) with (UdpListener.frames_of datagram ++ UdpListener.carried batch).
  unfold UdpListener.frames_of. destruct (Packet.unpack_frames datagram) as [packet|e]; [|apply (IH touched v o a HR)].
  destruct (apply_frames_spec (Packet.up_frames packet) touched v o a HR) as (o1 & -> & [HR1 Ho1]).
  destruct (IH (touched ++ touched_by (Packet.up_frames packet)) (seen v (Packet.up_frames packet)) o1 _ HR1) as (o' & E & [HR' Ho']).
  exists o'. rewrite touched_app, app_assoc, E, seen_app. split; [done|]. split.
  - by rewrite heard_app, SnapshotProps.spec_events_app.
  - intros id Hid. rewrite touched_app, not_elem_of_app in Hid. destruct Hid.
    by rewrite Ho', Ho1.
Qed.

(** ** Sorting out duplicates *)

Lemma elem_of_unique x l : x ∈ unique l ↔ x ∈ l.
Proof.
  induction l as [|y l IH]; [done|]. destruct l as [|z l]; [done|].
  change (unique (y :: z :: l)) with (if y =? z then unique (z :: l) else y :: unique (z :: l)).
  destruct (Z.eqb_spec y z) as [->|]; [rewrite IH; set_solver|]. rewrite !elem_of_cons, IH, elem_of_cons. done.
Qed.

Lemma elem_of_sorted x l : x ∈ sorted l ↔ x ∈ l.
Proof. unfold sorted. by rewrite elem_of_unique, merge_sort_Permutation. Qed.

Section gateway.
Context `{JsonLibrary} (stoull stoul : string → option Z).
Context (orders_in : gmap ClientOrderId OrderManagementSystem.ClientOrder → list OrderManagementSystem.ClientOrder).
Context (options : UiGatewayOptions).

Abbreviation payload_at topic s := (SseHub.payload <$> SseHub.topics_ (sse_hub_ s) !! topic).

(** ** Topics *)

Lemma book_topic_inj id id' : book_topic id = book_topic id' → id = id'.
Proof. intros E. apply (inj (String.append "book:")) in E. by apply (inj pretty) in E. Qed.

Lemma order_topic_inj a a' : order_topic a = order_topic a' → a = a'.
Proof. intros E. apply (inj (String.append "order:")) in E. by apply (inj pretty) in E. Qed.

Lemma topics_apart id a : book_topic id ≠ order_topic a.
Proof. done. Qed.

Lemma payload_publish topic p s topic' : payload_at topic' (with_hub (SseHub.publish topic p (sse_hub_ s)) s) =
  if decide (topic = topic') then Some p else payload_at topic' s.
Proof.
  unfold with_hub, SseHub.publish. cbn [sse_hub_ SseHub.topics_]. rewrite lookup_insert. by case_decide.
Qed.

(** ** The books shown *)

Definition book_payload (id : InstrumentId) (s : t) : string := dump (book_event options id (find_book id s)).

(** Every book is pushed as it is. *)
Definition shows_books (s : t) : Prop :=
  ∀ id b, find_book id s = Some b → payload_at (book_topic id) s = Some (dump (book_event options id (Some b))).

Lemma broadcast_books ids : ∀ s, let s' := foldl (λ s id, broadcast_book options id s) s ids in
  sessions_ s' = sessions_ s ∧ market_data_outcome_ s' = market_data_outcome_ s ∧
  (∀ id, payload_at (book_topic id) s' = if decide (id ∈ ids) then Some (book_payload id s) else payload_at (book_topic id) s) ∧
  ∀ topic, (∀ id, topic ≠ book_topic id) → payload_at topic s' = payload_at topic s.
Proof.
  induction ids as [|i ids IH]; intros s; cbn [foldl].
  { by split_and!. }
  destruct (IH (broadcast_book options i s)) as (Hs & Ho & Hb & Hn).
  assert (∀ id, book_payload id (broadcast_book options i s) = book_payload id s) as Hp by done.
  split; [done|]. split; [done|]. split.
  - intros id. rewrite Hb, Hp. unfold broadcast_book. rewrite payload_publish.
    destruct (decide (id ∈ ids)) as [Hin|Hno]; [by rewrite decide_True by by right|].
    destruct (decide (book_topic i = book_topic id)) as [->%book_topic_inj|Hne].
    + by rewrite decide_True by by left.
    + rewrite decide_False; [done|]. intros [->|]%elem_of_cons; done.
  - intros topic Ht. rewrite Hn by done. unfold broadcast_book. rewrite payload_publish.
    rewrite decide_False; [done|]. intros E. by apply (Ht i).
Qed.

(** What the sinks of the sessions push. *)
Lemma on_update_books account_id updates : ∀ s, let s' := on_update account_id updates s in
  sessions_ s' = sessions_ s ∧ market_data_outcome_ s' = market_data_outcome_ s ∧
  ∀ topic, topic ≠ order_topic account_id → payload_at topic s' = payload_at topic s.
Proof.
  unfold on_update. induction updates as [|[order|fill] updates IH]; intros s; cbn [foldl]; [done| |apply IH].
  destruct (IH (broadcast_order account_id order s)) as (Hs & Ho & Hn). split; [done|]. split; [done|].
  intros topic Ht. rewrite Hn by done. unfold broadcast_order. rewrite payload_publish. by rewrite decide_False.
Qed.

(** ** The market-data thread *)

Lemma market_data_turn_spec batch v s a : Rep (books (market_data_outcome_ s)) a → shows_books s → ∃ s',
  market_data_turn options batch v s = Some (seen v (UdpListener.carried batch), s') ∧
  Rep (books (market_data_outcome_ s')) (spec_events (heard v (UdpListener.carried batch)) a) ∧
  shows_books s' ∧ sessions_ s' = sessions_ s ∧
  ∀ topic, (∀ id, topic ≠ book_topic id) → payload_at topic s' = payload_at topic s.
Proof.
  intros HR HB. destruct (apply_batch_spec batch [] v _ a HR) as (o' & E & [HR' Ho]).
  unfold market_data_turn. rewrite E. cbn [app]. set (ids := sorted _).
  destruct (broadcast_books ids (with_outcome o' s)) as (Hs & Hout & Hb & Hn).
  eexists. split; [reflexivity|]. split; [by rewrite Hout|]. split; [|split; [done|]].
  - intros id b Hid. rewrite Hb. unfold find_book in Hid. rewrite Hout in Hid. cbn [market_data_outcome_ with_outcome] in Hid.
    case_decide as Hin; [unfold book_payload, find_book; by rewrite <-Hid|].
    unfold ids in Hin. rewrite elem_of_sorted in Hin. rewrite Ho in Hid by done. exact (HB id b Hid).
  - intros topic Ht. by rewrite Hn.
Qed.
End gateway.

(** ** Types: whose orders they are *)

Section typed.
Context (a : AccountId).

Import OrderEntryCodec OrderManagementSystem.

Definition own (c : ClientOrder) (id : ClientOrderId) : Prop := cl_account_id c = a ∧ cl_client_order_id c = id.

(** Every order of the account's order management is its own, under its own id. *)
Definition oms_typed (o : OrderManagementSystem.t) : Prop :=
  account_id_ o = a ∧ ∀ id c, orders_ o !! id = Some c → own c id.

Definition updates_typed (updates : list Update) : Prop := ∀ c, Notify c ∈ updates → cl_account_id c = a.

Lemma alter_typed f id o : (∀ c, own c id → own (f c) id) → oms_typed o → oms_typed (with_orders (alter f id (orders_ o)) o).
Proof.
  intros Hf [Ha Ho]. split; [done|]. intros id' c. cbn [with_orders orders_]. rewrite lookup_alter.
  case_decide as E; [subst|apply Ho]. intros (c' & Hc & ->)%fmap_Some. by apply Hf, Ho.
Qed.

Lemma emplace_typed n id c o : own c id → oms_typed o → oms_typed (mk (account_id_ o) n (emplace id c (orders_ o))).
Proof.
  intros Hc [Ha Ho]. split; [done|]. intros id' c'. cbn [orders_]. unfold emplace.
  destruct (orders_ o !! id) eqn:E; [apply Ho|]. by intros [[<- <-]|[_ Hl]]%lookup_insert_Some; [|apply Ho].
Qed.

Lemma insert_typed id c o : own c id → oms_typed o → oms_typed (with_orders (<[id := c]> (orders_ o)) o).
Proof.
  intros Hc [Ha Ho]. split; [done|]. intros id' c'. cbn [with_orders orders_].
  by intros [[<- <-]|[_ Hl]]%lookup_insert_Some; [|apply Ho].
Qed.

Lemma delete_typed id o : oms_typed o → oms_typed (with_orders (delete id (orders_ o)) o).
Proof. intros [Ha Ho]. split; [done|]. intros id' c. cbn [with_orders orders_]. by intros [_ Hl%Ho]%lookup_delete_Some. Qed.

Lemma notify_typed id o : oms_typed o → updates_typed (notify (orders_ o !! id)).
Proof.
  intros [_ Ho] c. destruct (orders_ o !! id) as [c'|] eqn:E; cbn [notify]; [|by intros ?%not_elem_of_nil].
  intros [= ->]%list_elem_of_singleton. by destruct (Ho _ _ E).
Qed.

Lemma on_order_typed f id o : (∀ c, own c id → own (f c) id) → oms_typed o →
  oms_typed (on_order f id o).1 ∧ updates_typed (on_order f id o).2.
Proof.
  intros Hf Ho. pose proof (alter_typed f id o Hf Ho) as Ho'. split; [done|].
  exact (notify_typed id _ Ho').
Qed.

Lemma updates_typed_app u u' : updates_typed u → updates_typed u' → updates_typed (u ++ u').
Proof. intros Hu Hu' c [?|?]%elem_of_app; auto. Qed.

Lemma handle_message_typed message o : oms_typed o →
  oms_typed (handle_message message o).1 ∧ updates_typed (handle_message message o).2.
Proof.
  intros Ho. assert (updates_typed []) as Hn by by intros c ?%not_elem_of_nil.
  destruct message as [e|e|e|e|e|e|e|e]; cbn [handle_message]; try (by split); try by apply on_order_typed.
  - apply on_order_typed; [|done]. intros c Hc. unfold rejected. by case_bool_decide.
  - unfold on_replaced. destruct (on_order_typed superseded (rd_original_client_order_id e) o) as [H1 H2]; [done..|].
    destruct (on_order _ _ o) as [o1 u1]. cbn [fst snd] in *.
    destruct (on_order_typed (replacement e) (rd_new_client_order_id e) o1) as [H3 H4]; [done..|].
    destruct (on_order _ _ o1) as [o2 u2]. split; [done|]. by apply updates_typed_app.
  - unfold on_trade_report. destruct (on_order_typed (traded e) (tp_client_order_id e) o) as [H1 H2]; [done..|].
    destruct (on_order _ _ o) as [o1 u1]. split; [done|]. apply updates_typed_app; [done|].
    intros c. destruct (_ !! _); [by intros [= ?]%list_elem_of_singleton|by intros ?%not_elem_of_nil].
Qed.

Lemma submit_typed sent i sd p q ot tif o : oms_typed o →
  oms_typed (submit_new_order sent i sd p q ot tif o).1.2 ∧ updates_typed (submit_new_order sent i sd p q ot tif o).2.
Proof.
  intros Ho. unfold submit_new_order, begin_submit.
  pose proof (emplace_typed (u64 (next_client_order_id_ o + 1)) (next_client_order_id_ o)
    (new_client_order (account_id_ o) (next_client_order_id_ o) i sd p q ot tif) o (conj (proj1 Ho) eq_refl) Ho) as He.
  destruct sent; cbn [fst snd]; [split; [done|by intros c ?%not_elem_of_nil]|].
  set (o1 := mk _ _ _) in *. pose proof (alter_typed failed (next_client_order_id_ o) o1 (λ c Hc, Hc) He) as Hf.
  split; [exact Hf|]. by apply (notify_typed _ _ Hf).
Qed.

Lemma cancel_typed sent id o : oms_typed o → oms_typed (cancel_order sent id o).2.
Proof.
  intros Ho. unfold cancel_order, begin_cancel. destruct (orders_ o !! id) as [c|] eqn:Ec; [|done]. cbn [base.mbind option_bind].
  destruct (negb _ || _)%bool; [done|]. assert (oms_typed (with_orders (<[id := set_pending_action PendingAction.Cancel c]> (orders_ o)) o)) as H1.
  { apply insert_typed; [|done]. by apply (proj2 Ho) in Ec. }
  destruct sent; [done|]. by apply alter_typed.
Qed.

Lemma replace_typed sent id p q o : oms_typed o → oms_typed (replace_order sent id p q o).2.
Proof.
  intros Ho. unfold replace_order, begin_replace. destruct (orders_ o !! id) as [c|] eqn:Ec; [|done]. cbn [base.mbind option_bind].
  destruct (negb _ || _)%bool; [done|]. pose proof (proj2 Ho id c Ec) as Hc.
  assert (oms_typed (with_orders (<[id := set_pending_action PendingAction.Replace c]> (orders_ o)) o)) as H1.
  { by apply insert_typed. }
  pose proof (emplace_typed (u64 (next_client_order_id_ o + 1)) (next_client_order_id_ o)
    (new_client_order (account_id_ o) (next_client_order_id_ o) (cl_instrument_id c) (cl_side c) p q
      (cl_order_type c) (cl_time_in_force c)) _ (conj (proj1 Ho) eq_refl) H1) as H2.
  destruct sent; [exact H2|]. cbn [snd]. unfold forget_replacement, clear_pending_action. apply alter_typed; [done|].
  exact (delete_typed (next_client_order_id_ o) _ H2).
Qed.

(** ** A session's *)

Definition gated_typed (g : TraderRiskGatedOms.t) : Prop :=
  TraderRiskGatedOms.account_id_ g = a ∧ oms_typed (TraderRiskGatedOms.oms_ g).

Lemma new_session_typed options connects : gated_typed (gated_ (new_session options a connects)).
Proof.
  unfold new_session. cbn [gated_]. assert (∀ ids g, gated_typed g → gated_typed (foldl (λ g id,
    TraderRiskGatedOms.deposit_position id (demo_starting_position options) g) g ids)) as Hf.
  { intros ids. induction ids as [|id ids IH]; intros g Hg; [done|]. by apply IH. }
  apply Hf. split; [done|]. split; [done|]. intros id c. cbn. by rewrite lookup_empty.
Qed.

Lemma gated_message_typed message g : gated_typed g →
  gated_typed (TraderRiskGatedOms.handle_message message g).1 ∧
  updates_typed (TraderRiskGatedOms.handle_message message g).2.
Proof.
  intros [Hg Ho]. unfold TraderRiskGatedOms.handle_message.
  destruct (handle_message_typed message _ Ho) as [H1 H2]. by destruct (handle_message _ _) as [o u].
Qed.

Lemma settle_typed fills : ∀ g, gated_typed g → gated_typed (foldl (λ g fill, TraderRiskGatedOms.settle fill g) g fills).
Proof. induction fills as [|fill fills IH]; intros g Hg; [done|]. by apply IH. Qed.

Lemma gated_submit_typed sent intent g : gated_typed g →
  gated_typed (TraderRiskGatedOms.submit_new_order sent intent g).1.2 ∧
  updates_typed (TraderRiskGatedOms.submit_new_order sent intent g).2.
Proof.
  intros [Hg Ho]. unfold TraderRiskGatedOms.submit_new_order.
  destruct (negb _); [split; [done|by intros c ?%not_elem_of_nil]|].
  match goal with |- context [submit_new_order sent ?i ?sd ?p ?q ?ot ?tif _] =>
    destruct (submit_typed sent i sd p q ot tif _ Ho) as [H1 H2] end.
  by destruct (submit_new_order _ _ _ _ _ _ _ _) as [[id o] u].
Qed.

Lemma gated_cancel_typed sent id g : gated_typed g → gated_typed (TraderRiskGatedOms.cancel_order sent id g).2.
Proof.
  intros [Hg Ho]. unfold TraderRiskGatedOms.cancel_order.
  pose proof (cancel_typed sent id _ Ho) as H1. by destruct (cancel_order _ _ _) as [ok o].
Qed.

Lemma gated_replace_typed sent id p q g : gated_typed g → gated_typed (TraderRiskGatedOms.replace_order sent id p q g).2.
Proof.
  intros [Hg Ho]. unfold TraderRiskGatedOms.replace_order.
  pose proof (replace_typed sent id p q _ Ho) as H1. by destruct (replace_order _ _ _ _ _) as [ok o].
Qed.
End typed.

(** ** Handlers, by their pre- and postconditions *)

(** [E] is what holds when the handler throws. *)
Definition triple {A} (P : t → Prop) (m : M A) (Q : A → t → Prop) (E : t → Prop) : Prop :=
  ∀ s, P s → match m s with (Some x, s') => Q x s' | (None, s') => E s' end.

Lemma triple_ret {A} P (x : A) (Q : A → t → Prop) E : (∀ s, P s → Q x s) → triple P (mret x) Q E.
Proof. intros HQ s. apply HQ. Qed.

Lemma triple_bind {A C} P (m : M A) R (k : A → M C) Q E :
  triple P m R E → (∀ x, triple (R x) (k x) Q E) → triple P (mbind m k) Q E.
Proof.
  intros Hm Hk s Hs. specialize (Hm s Hs). unfold mbind. destruct (m s) as [[x|] s']; [|done]. by apply Hk.
Qed.

Lemma triple_attempt {A} P (o : option A) E : (∀ s, P s → E s) → triple P (attempt o) (λ _, P) E.
Proof. intros HE s Hs. unfold attempt. destruct o; [done|by apply HE]. Qed.

Lemma triple_read {C} P (k : t → M C) Q E :
  (∀ s0, P s0 → triple (λ s, s = s0) (k s0) Q E) → triple P (mbind mget k) Q E.
Proof. intros Hk s Hs. by apply (Hk s Hs). Qed.
Section server.
Context `{JsonLibrary} (stoull stoul : string → option Z).
Context (orders_in : gmap ClientOrderId OrderManagementSystem.ClientOrder → list OrderManagementSystem.ClientOrder).
Context (options : UiGatewayOptions).

Abbreviation payload_at topic s := (SseHub.payload <$> SseHub.topics_ (sse_hub_ s) !! topic).

(** ** The gateway's types *)

(** What stands at a topic: a book's event, or one of an order of the account. *)
Definition pushed (topic p : string) : Prop :=
  (∃ id book, topic = book_topic id ∧ p = dump (book_event options id book)) ∨
  (∃ a c, a ∈ demo_account_ids options ∧ OrderManagementSystem.cl_account_id c = a ∧
    topic = order_topic a ∧ p = dump (order_event a c)).

Record well_typed (s : t) : Prop := {
  wt_session a session : sessions_ s !! a = Some session →
    a ∈ demo_account_ids options ∧ gated_typed a (gated_ session);
  wt_topic topic p : payload_at topic s = Some p → pushed topic p;
}.

Lemma initial_typed : well_typed initial.
Proof. split; intros ??; unfold initial; cbn; by rewrite lookup_empty. Qed.

(** ** What a request for an account changes *)

(** The account's session and what is pushed at its topic. *)
Record contained (a : AccountId) (s s' : t) : Prop := {
  ct_outcome : market_data_outcome_ s' = market_data_outcome_ s;
  ct_session a' : a' ≠ a → sessions_ s' !! a' = sessions_ s !! a';
  ct_topic topic : topic ≠ order_topic a → payload_at topic s' = payload_at topic s;
}.

#[global] Instance contained_preorder a : PreOrder (contained a).
Proof.
  split; [by split|]. intros s1 s2 s3 [Ho1 Hs1 Ht1] [Ho2 Hs2 Ht2].
  split; [by rewrite Ho2|intros; by rewrite Hs2, Hs1|intros; by rewrite Ht2, Ht1].
Qed.

(** At most a session of a demo account came to be. *)
Definition unserved (a : AccountId) (s s' : t) : Prop :=
  s' = s ∨ (a ∈ demo_account_ids options ∧ sessions_ s !! a = None ∧
    ∃ connects, s' = with_sessions (<[a := new_session options a connects]> (sessions_ s)) s).

Lemma unserved_contained a s s' : unserved a s s' → contained a s s'.
Proof.
  intros [->|(_ & _ & connects & ->)]; [done|]. split; [done| |done].
  intros a' Ha. cbn [sessions_ with_sessions]. by rewrite lookup_insert_ne.
Qed.

Lemma unserved_typed a s s' : well_typed s → unserved a s s' → well_typed s'.
Proof.
  intros [Hs Ht] [->|(Ha & _ & connects & ->)]; [done|]. split; [|exact Ht]. intros a' session'.
  cbn [sessions_ with_sessions]. intros [[<- <-]|[_ Hl]]%lookup_insert_Some; [|by apply Hs].
  split; [done|apply new_session_typed].
Qed.

(** A response: only one that succeeds may have touched the session. *)
Definition answered (a : AccountId) (s : t) (r : Response) (s' : t) : Prop :=
  if status r =? 200 then a ∈ demo_account_ids options ∧ contained a s s' ∧ well_typed s'
  else status r ∈ [400; 404] ∧ unserved a s s'.

(** Where a handler holds the session. *)
Definition holding (a : AccountId) (s : t) (session : Session) (s' : t) : Prop :=
  unserved a s s' ∧ well_typed s' ∧ sessions_ s' !! a = Some session.

Lemma holding_answered a s session r s' : status r = 200 → holding a s session s' → answered a s r s'.
Proof.
  intros Hr (Hu & Ht & Hs). unfold answered. rewrite Hr. cbn [Z.eqb Pos.eqb]. split; [|split; [|done]].
  - by destruct (wt_session _ Ht _ _ Hs).
  - by apply unserved_contained.
Qed.

Lemma holding_typed a s session s' : holding a s session s' → gated_typed a (gated_ session).
Proof. intros (Hu & Ht & Hs). by destruct (wt_session _ Ht _ _ Hs). Qed.

Lemma find_session_triple connects a s : well_typed s →
  triple (λ s', s' = s) (find_or_create_session options connects a)
    (λ session s', match session with
     | Some session => holding a s session s'
     | None => a ∉ demo_account_ids options ∧ s' = s end) (unserved a s).
Proof.
  intros Hw s' ->. unfold find_or_create_session, mbind, mget.
  destruct (sessions_ s !! a) as [session|] eqn:Es; cbn [mret]; [split; [by left|done]|].
  case_bool_decide as Ha; cbn [negb mret mput]; [|done].
  assert (unserved a s (with_sessions (<[a := new_session options a connects]> (sessions_ s)) s)) as Hu.
  { right. split; [done|]. split; [done|]. by exists connects. }
  split; [done|]. split; [by apply (unserved_typed a s)|]. cbn. by rewrite lookup_insert_eq.
Qed.

(** What the sink pushes is an order of the account. *)
Lemma on_update_typed a updates : ∀ s, a ∈ demo_account_ids options → updates_typed a updates →
  well_typed s → well_typed (on_update a updates s).
Proof.
  unfold on_update. induction updates as [|u updates IH]; intros s Ha Hu Hw; [done|]. cbn [foldl].
  assert (updates_typed a updates) as Hu' by by intros c Hc; apply Hu; right.
  apply IH; [done..|]. destruct u as [order|fill]; [|done]. destruct Hw as [Hs Ht]. split; [exact Hs|].
  intros topic p. unfold broadcast_order. rewrite payload_publish. case_decide as E; [|by apply Ht].
  intros [= <-]. right. exists a, order. split; [done|]. split; [apply Hu; by left|]. by split.
Qed.

Definition kept (a : AccountId) (s s' : t) : Prop :=
  a ∈ demo_account_ids options ∧ contained a s s' ∧ well_typed s'.

Lemma set_gated_triple a s session g updates E :
  (∀ s', holding a s session s' → gated_typed a g ∧ updates_typed a updates) →
  triple (holding a s session) (set_gated a session g updates) (λ _, kept a s) E.
Proof.
  intros Hok s' Hh. destruct (Hok s' Hh) as [Hg Hup]. destruct Hh as (Hu & Hw & Hs).
  unfold set_gated, mbind, mget. cbn [mput].
  destruct (wt_session _ Hw _ _ Hs) as [Ha _]. set (s1 := with_sessions _ s'). split; [done|]. split.
  - destruct (on_update_books a updates s1) as (E1 & E2 & E3). transitivity s'; [by apply unserved_contained|].
    split; [by rewrite E2| |intros topic Ht; by rewrite E3].
    intros a' Ha'. rewrite E1. cbn [sessions_ with_sessions s1]. by rewrite lookup_insert_ne.
  - apply on_update_typed; [done..|]. destruct Hw as [Hs' Ht]. split; [|exact Ht]. intros a' session'.
    cbn [sessions_ with_sessions s1]. intros [[<- <-]|[_ Hl]]%lookup_insert_Some; [done|by apply Hs'].
Qed.

Lemma kept_answered a s r s' : status r = 200 → kept a s s' → answered a s r s'.
Proof. intros Hr Hk. unfold answered. by rewrite Hr. Qed.

(** ** The handlers *)

(** A handler that has found the session of [a]. *)
Lemma session_triple connects a s (k : Session → M Response) : well_typed s →
  (∀ session, triple (holding a s session) (k session) (answered a s) (unserved a s)) →
  triple (λ s', s' = s) (mbind (find_or_create_session options connects a)
    (λ found, match found with None => mret unknown_account | Some session => k session end))
    (answered a s) (unserved a s).
Proof.
  intros Hw Hk. eapply triple_bind; [by apply find_session_triple|]. intros [session|]; [apply Hk|].
  apply triple_ret. intros s' [_ ->]. split; [|by left]. set_solver.
Qed.

(** Reading a field does nothing; a refusal leaves the session as it was. *)
Lemma field_triple {A} a s session (o : option A) (k : A → M Response) :
  (∀ x, o = Some x → triple (holding a s session) (k x) (answered a s) (unserved a s)) →
  triple (holding a s session) (mbind (attempt o) k) (answered a s) (unserved a s).
Proof.
  intros Hk s' Hs. unfold mbind, attempt. destruct o as [x|]; [by apply (Hk x)|]. by destruct Hs as (? & _).
Qed.

Lemma refused_triple a s session error :
  triple (holding a s session) (mret (json_error 400 error)) (answered a s) (unserved a s).
Proof.
  apply triple_ret. intros s' (Hu & _). split; [|done]. set_solver.
Qed.

Lemma changed_triple a s session g updates j :
  (∀ s', holding a s session s' → gated_typed a g ∧ updates_typed a updates) →
  triple (holding a s session) (mbind (set_gated a session g updates) (λ _, mret (ok_with j))) (answered a s) (unserved a s).
Proof.
  intros Hok. eapply triple_bind; [by apply set_gated_triple|]. intros ?. apply triple_ret. intros s'. by apply kept_answered.
Qed.

Lemma no_updates_typed a : updates_typed a [].
Proof. by intros c ?%not_elem_of_nil. Qed.

Lemma get_account_triple text connects a s : stoull text = Some a → well_typed s →
  triple (λ s', s' = s) (handle_get_account stoull orders_in options text connects) (answered a s) (unserved a s).
Proof.
  intros E Hw. unfold handle_get_account. rewrite E. apply (session_triple connects a s); [done|]. intros session.
  apply triple_ret. intros s'. by apply holding_answered.
Qed.

Lemma cancel_order_triple text order_text connects sent a s : stoull text = Some a → well_typed s →
  triple (λ s', s' = s) (handle_cancel_order stoull options text order_text connects sent) (answered a s) (unserved a s).
Proof.
  intros E Hw. unfold handle_cancel_order. rewrite E.
  destruct (stoull order_text) as [id|]; [|intros s' ->; by left].
  apply (session_triple connects a s); [done|]. intros session.
  pose proof (gated_cancel_typed a sent id (gated_ session)) as Hg.
  destruct (TraderRiskGatedOms.cancel_order _ _ _) as [ok g]. apply changed_triple.
  intros s' Hs. split; [by eapply Hg, holding_typed|apply no_updates_typed].
Qed.

Lemma replace_order_triple text order_text body connects sent a s : stoull text = Some a → well_typed s →
  triple (λ s', s' = s) (handle_replace_order stoull options text order_text body connects sent)
    (answered a s) (unserved a s).
Proof.
  intros E Hw. unfold handle_replace_order. rewrite E.
  destruct (stoull order_text) as [id|]; [|intros s' ->; by left].
  apply (session_triple connects a s); [done|]. intros session.
  do 5 (apply field_triple; intros ? _).
  match goal with |- context [TraderRiskGatedOms.replace_order sent id ?p ?q ?g] =>
    pose proof (gated_replace_typed a sent id p q g) as Hg end.
  destruct (TraderRiskGatedOms.replace_order _ _ _ _ _) as [new_id g]. apply changed_triple.
  intros s' Hs. split; [by eapply Hg, holding_typed|apply no_updates_typed].
Qed.

Lemma submit_order_triple request_body body field connects sent a s :
  parse request_body = Some body → at_ "account_id" body = Some field → get_u64 field = Some a → well_typed s →
  triple (λ s', s' = s) (handle_submit_order options request_body connects sent) (answered a s) (unserved a s).
Proof.
  intros Eb Ef Ea Hw. unfold handle_submit_order. rewrite Eb.
  change (mbind (attempt (Some ?x)) ?k) with (k x). cbn beta. rewrite Ef.
  change (mbind (attempt (Some ?x)) ?k) with (k x). cbn beta. rewrite Ea.
  apply (session_triple connects a s); [done|]. intros session.
  do 2 (apply field_triple; intros ? _). destruct (parse_side _) as [side|]; [|apply refused_triple].
  eapply (triple_bind _ _ (λ _, holding a s session)).
  { destruct (contains _ _); [|by apply triple_ret].
    do 2 (eapply triple_bind; [apply triple_attempt; by intros s' (? & _)|intros ?]). by apply triple_ret. }
  intros [time_in_force|]; [|apply refused_triple].
  do 6 (apply field_triple; intros ? _).
  match goal with |- context [TraderRiskGatedOms.submit_new_order sent ?i ?g] =>
    pose proof (gated_submit_typed a sent i g) as Hg end.
  destruct (TraderRiskGatedOms.submit_new_order _ _ _) as [[outcome g] updates]. apply changed_triple.
  intros s' Hs. by eapply Hg, holding_typed.
Qed.

(** ** Requests *)

(** The account a request names, if it can be read. *)
Definition addressed (r : Request) : option AccountId :=
  match r with
  | Health | ListAccounts | GetBook _ _ => None
  | GetAccount account_text | CancelOrder account_text _ | ReplaceOrder account_text _ _ => stoull account_text
  | SubmitOrder request_body => body ← parse request_body; field ← at_ "account_id" body; get_u64 field
  end.

Abbreviation serve r connects sent s := (serve stoull stoul orders_in options r connects sent s).

Lemma catching_answered a s m : triple (λ s', s' = s) m (answered a s) (unserved a s) →
  answered a s (catching m s).1 (catching m s).2.
Proof.
  intros Hm. specialize (Hm s eq_refl). unfold catching. destruct (m s) as [[r|] s']; [done|].
  split; [set_solver|done].
Qed.

Lemma serve_addressed r connects sent a s : addressed r = Some a → well_typed s →
  answered a s (serve r connects sent s).1 (serve r connects sent s).2.
Proof.
  intros Ha Hw. destruct r as [| |text| |body|text order_text|text order_text body]; cbn [addressed] in Ha; try done;
    unfold UiGateway.serve; apply catching_answered.
  - by apply get_account_triple.
  - destruct (parse body) as [b|] eqn:Eb; [|done]. cbn [base.mbind option_bind] in Ha.
    destruct (at_ _ b) as [field|] eqn:Ef; [|done]. by eapply submit_order_triple.
  - by apply cancel_order_triple.
  - by apply replace_order_triple.
Qed.

Lemma serve_unaddressed r connects sent s : addressed r = None →
  (serve r connects sent s).2 = s ∧ status (serve r connects sent s).1 ∈ [200; 400].
Proof.
  intros Ha. assert (∀ a b : Z, a ∈ [a; b] ∧ b ∈ [a; b]) as Hin by set_solver.
  destruct (Hin 200 400) as [H200 H400].
  destruct r as [| |text|instrument_text depth_text|body|text order_text|text order_text body]; cbn [addressed] in Ha;
    unfold UiGateway.serve, catching; try by split.
  - unfold handle_get_account. by rewrite Ha.
  - unfold handle_get_book. destruct (stoul _) as [i|]; [|done]. unfold mbind, attempt, mget.
    case_bool_decide; [|destruct (stoull _); [|done]]; unfold mret; by destruct (levels_json _ _).
  - unfold handle_submit_order. destruct (parse body) as [b|]; [|done]. cbn [base.mbind option_bind] in Ha.
    destruct (at_ _ b) as [field|] eqn:Ef; unfold mbind, attempt; rewrite Ef; [|done].
    cbn [base.mbind option_bind] in Ha. by rewrite Ha.
  - unfold handle_cancel_order. by rewrite Ha.
  - unfold handle_replace_order. by rewrite Ha.
Qed.

Lemma answered_kept a s r s' : well_typed s → answered a s r s' → contained a s s' ∧ well_typed s'.
Proof.
  intros Hw. unfold answered. case_match; [by intros (_ & ? & ?)|]. intros [_ Hu].
  split; [by apply unserved_contained|by apply (unserved_typed a s)].
Qed.

(** A message changes the session of its account, like a request. *)
Lemma message_kept a message s : well_typed s →
  contained a s (handle_message a message s).2 ∧ well_typed (handle_message a message s).2.
Proof.
  intros Hw. unfold handle_message, mbind, mget, attempt.
  destruct (sessions_ s !! a) as [session|] eqn:Es; [|done].
  destruct (wt_session _ Hw _ _ Es) as [Ha Hg]. destruct (gated_message_typed a message _ Hg) as [H1 H2].
  destruct (TraderRiskGatedOms.handle_message _ _) as [g updates]. cbn [fst snd] in *.
  set (g' := foldl _ g _).
  assert (gated_typed a g') as H3 by by apply settle_typed.
  assert (holding a s session s) as Hh by (split; [by left|done]).
  pose proof (set_gated_triple a s session g' updates (λ _, False) (λ _ _, conj H3 H2) s Hh) as Hset.
  destruct (set_gated _ _ _ _ _) as [[[]|] s']; [|done]. by destruct Hset as (_ & ? & ?).
Qed.

Lemma turn_typed batch v s x : well_typed s → market_data_turn options batch v s = Some x → well_typed x.2.
Proof.
  intros [Hs Ht]. unfold market_data_turn. destruct (apply_batch _ _ _ _) as [[[touched v'] o']|]; [|done].
  intros [= <-]. cbn [snd]. set (s1 := with_outcome o' s).
  assert (well_typed s1) as Hw1 by by split. clearbody s1. revert s1 Hw1.
  induction (sorted touched) as [|id ids IH]; intros s1 [Hs1 Ht1]; [done|]. apply IH. split; [exact Hs1|].
  intros topic p. unfold broadcast_book. rewrite payload_publish. case_decide as E; [|by apply Ht1].
  intros [= <-]. left. by eexists _, _.
Qed.

(** ** Runs *)

Abbreviation step a x := (UiGateway.step stoull stoul orders_in options a x).
Abbreviation exec actions x := (UiGateway.exec stoull stoul orders_in options actions x).

(** The datagrams the market-data thread hands on. *)
Definition fed (actions : list action) : list (list Z) :=
  mjoin (omap (λ a, match a with Feed batch => Some batch | _ => None end) actions).

Lemma carried_app batch batch' :
  UdpListener.carried (batch ++ batch') = UdpListener.carried batch ++ UdpListener.carried batch'.
Proof. apply bind_app. Qed.

(** What the gateway holds after hearing [frames]. *)
Record serving (frames : list (Event + DecodeError)) (x : option Z * t) : Prop := {
  sv_seen : x.1 = seen None frames;
  sv_books : Rep (books (market_data_outcome_ x.2)) (spec_events (heard None frames) ∅);
  sv_shows : shows_books options x.2;
  sv_typed : well_typed x.2;
}.

Lemma initial_serving : serving [] (None, initial).
Proof.
  split; [done| | |apply initial_typed].
  - intros id. unfold initial, no_outcome. cbn. rewrite lookup_empty. constructor.
  - intros id b. unfold find_book, initial, no_outcome. cbn. by rewrite lookup_empty.
Qed.

Lemma contained_serving frames a v s s' : contained a s s' → well_typed s' → serving frames (v, s) → serving frames (v, s').
Proof.
  intros [Ho Hs Ht] Hw [H1 H2 H3 H4]. cbn [fst snd] in *. split; cbn [fst snd]; [done|by rewrite Ho| |done].
  intros id b. unfold find_book. rewrite Ho, Ht by apply topics_apart. apply H3.
Qed.

Lemma step_serving a x frames : serving frames x → ∃ x', step a x = Some x' ∧
  serving (frames ++ UdpListener.carried (fed [a])) x'.
Proof.
  destruct x as [v s]. intros Hx. pose proof (sv_typed _ _ Hx) as Hw. cbn [snd] in Hw.
  destruct a as [r connects sent|a message|batch]; cbn [UiGateway.step fst snd]; unfold fed; cbn [omap list_omap mjoin list_join].
  - rewrite app_nil_r. eexists. split; [reflexivity|]. destruct (addressed r) as [a|] eqn:Ea.
    + destruct (answered_kept a s (serve r connects sent s).1 (serve r connects sent s).2 Hw) as [Hc Hw'];
        [by apply serve_addressed|by eapply contained_serving].
    + destruct (serve_unaddressed r connects sent s Ea) as [-> _]. done.
  - rewrite app_nil_r. eexists. split; [reflexivity|]. destruct (message_kept a message s Hw) as [Hc Hw'].
    by eapply contained_serving.
  - rewrite app_nil_r. destruct Hx as [Hv HR HB _]. cbn [fst snd] in *. subst v.
    destruct (market_data_turn_spec options batch (seen None frames) s _ HR HB) as (s' & E & HR' & HB' & _).
    eexists. split; [exact E|]. split; cbn [fst snd]; [by rewrite seen_app|by rewrite heard_app, SnapshotProps.spec_events_app|done|].
    exact (turn_typed batch _ s _ Hw E).
Qed.

Lemma exec_serving actions : ∀ x frames, serving frames x → ∃ x', exec actions x = Some x' ∧
  serving (frames ++ UdpListener.carried (fed actions)) x'.
Proof.
  induction actions as [|a actions IH]; intros x frames Hx; cbn [UiGateway.exec].
  { exists x. unfold fed. cbn. by rewrite app_nil_r. }
  destruct (step_serving a x frames Hx) as (x1 & -> & Hx1). destruct (IH _ _ Hx1) as (x' & E & Hx').
  exists x'. split; [exact E|]. replace (fed (a :: actions)) with (fed [a] ++ fed actions).
  - by rewrite carried_app, app_assoc.
  - unfold fed. cbn. destruct a; cbn; [done..|]. by rewrite app_nil_r.
Qed.

(** C26: the books pushed are the books of the feed. Whatever is requested and received
    between the datagrams, and whatever they hold, the gateway goes on; it holds a book for
    each instrument that an event it heard is about, the book of the events whose number
    follows the last one seen, and what stands at the topic of that book is its top levels
    as they are. *)
Theorem dashboard_shows_the_feed actions :
  let frames := UdpListener.carried (fed actions) in
  ∃ s, exec actions (None, initial) = Some (seen None frames, s) ∧
    ∀ id, match spec_events (heard None frames) ∅ !! id with
    | Some os => ∃ b, find_book id s = Some b ∧ OrderBook.shows b os ∧
        payload_at (book_topic id) s = Some (dump (book_event options id (Some b)))
    | None => find_book id s = None
    end.
Proof.
  cbn zeta. destruct (exec_serving actions _ _ initial_serving) as ([v s] & E & [Hv HR HB _]).
  cbn [app fst snd] in *. subst v. exists s. split; [exact E|]. intros id. specialize (HR id).
  change (BookManager.books_ (books (market_data_outcome_ s)) !! id) with (find_book id s) in HR.
  inversion HR as [b os (ns & Hb & <-) Hid Hos|Hid Hos]; [|done].
  exists b. split; [done|]. split; [by apply OrderBook.rep_shows|]. by apply HB.
Qed.

(** C27: the gateway holds and pushes what belongs to the account. From any state of that
    kind, through any requests, messages and datagrams: each session is of a demo account,
    and each order it holds, which is what the account is shown, has that account and the
    id it is filed under; what stands at a topic of orders is an order of the account the
    topic is named after, and at any other topic is a book of the instrument. *)
Theorem sessions_are_typed actions x x' : well_typed x.2 → exec actions x = Some x' → well_typed x'.2.
Proof.
  revert x. induction actions as [|a actions IH]; intros [v s] Hw; cbn [UiGateway.exec]; [by intros [= <-]|].
  cbn [snd] in Hw. destruct (step a (v, s)) as [x1|] eqn:E; [|done]. apply IH.
  destruct a as [r connects sent|a message|batch]; cbn [UiGateway.step fst snd] in E; [..|by apply (turn_typed batch v s)].
  - injection E as <-. cbn [snd]. destruct (addressed r) as [a|] eqn:Ea.
    + pose proof (serve_addressed r connects sent a s Ea Hw) as Hr. by apply (answered_kept a s) in Hr as [_ Hw'].
    + by destruct (serve_unaddressed r connects sent s Ea) as [-> _].
  - injection E as <-. by apply message_kept.
Qed.

(** C28: a request changes only the account it names. The books stay; every other
    account's session and every other topic stay; the answer is 200, 400 or 404. A request
    that names no account, or none of the demo accounts, changes nothing, and one that
    names a stranger is refused. A request that is not answered 200, an exception included,
    leaves at most a fresh session of the account, with nothing pushed. *)
Theorem requests_are_contained r connects sent s : well_typed s →
  let '(response, s') := serve r connects sent s in
  market_data_outcome_ s' = market_data_outcome_ s ∧ status response ∈ [200; 400; 404] ∧
  match addressed r with
  | None => s' = s
  | Some a =>
      (∀ a', a' ≠ a → sessions_ s' !! a' = sessions_ s !! a') ∧
      (∀ topic, topic ≠ order_topic a → payload_at topic s' = payload_at topic s) ∧
      (a ∉ demo_account_ids options → s' = s ∧ status response ≠ 200) ∧
      (status response ≠ 200 → unserved a s s')
  end.
Proof.
  intros Hw. destruct (serve r connects sent s) as [response s'] eqn:E.
  destruct (addressed r) as [a|] eqn:Ea.
  - pose proof (serve_addressed r connects sent a s Ea Hw) as Hr. rewrite E in Hr. cbn [fst snd] in Hr.
    destruct (answered_kept a s response s' Hw Hr) as [[Ho Hs Ht] _]. split; [done|].
    unfold answered in Hr. destruct (Z.eqb_spec (status response) 200) as [Er|Er].
    + rewrite Er. split; [set_solver|]. split_and!; [done..| |done]. by destruct Hr.
    + destruct Hr as [Hr Hu]. split; [set_solver|]. split_and!; [done..| |done].
      intros Ha. split; [|done]. by destruct Hu as [?|[? _]].
  - destruct (serve_unaddressed r connects sent s Ea) as [H1 H2]. rewrite E in H1, H2. cbn [fst snd] in *. subst s'.
    split; [done|]. split; [set_solver|done].
Qed.

End server.

(** ** On concrete requests *)

Definition field (name : string) (d : json) : option json :=
  match d with JObject fields => snd <$> head (filter (λ f, f.1 = name) fields) | _ => None end.

Definition order_body (account_id : Z) (side : string) : json :=
  JObject [("account_id", JNumber account_id); ("instrument_id", JNumber 1); ("side", JString side);
           ("price", JNumber 100); ("quantity", JNumber 5)]%string.

Definition print : json → string :=
  fix print j := match j with
  | JNull => "null"
  | JBool b => if b then "true" else "false"
  | JNumber n => pretty n
  | JString s => s
  | JArray l => "[" +:+ foldr (λ j rest, print j +:+ "," +:+ rest) "]" l
  | JObject fields => "{" +:+ foldr (λ f rest, f.1 +:+ ":" +:+ print f.2 +:+ "," +:+ rest) "}" fields
  end%string.

(** A library that knows three documents. *)
#[local] Instance sample_library : JsonLibrary := {|
  document := json;
  parse text :=
    if bool_decide (text = "buy") then Some (order_body 1001 "Buy")
    else if bool_decide (text = "stranger") then Some (order_body 7 "Buy")
    else if bool_decide (text = "sideless") then Some (order_body 1002 "Up") else None;
  at_ := field;
  contains name d := match field name d with Some _ => true | None => false end;
  get_string d := match d with JString s => Some s | _ => None end;
  get_u64 d := match d with JNumber n => Some (u64 n) | _ => None end;
  get_u32 d := match d with JNumber n => Some (u32 n) | _ => None end;
  get_i64 d := match d with JNumber n => Some (i64 n) | _ => None end;
  items d := match d with JArray l => l | _ => [] end;
  dump := print;
|}%string.

Definition sample_number (text : string) : option Z :=
  if bool_decide (text = "1001"%string) then Some 1001 else if bool_decide (text = "1"%string) then Some 1 else None.

Definition sample_orders (m : gmap ClientOrderId OrderManagementSystem.ClientOrder) : list OrderManagementSystem.ClientOrder :=
  (map_to_list m).*2.

Definition sample_run : option (option Z * t) :=
  exec sample_number sample_number sample_orders default_ui_options
    [Serve (SubmitOrder "buy") true true; Serve (SubmitOrder "stranger") true true; Serve (SubmitOrder "sideless") true true;
     Serve (SubmitOrder "neither") true true; Serve (CancelOrder "1001" "1") true false] (None, initial).

Definition sample_state : option Z * t := default (None, initial) sample_run.

Lemma sessions_are_typed_witness :
  sample_run = Some sample_state ∧ base.size (sessions_ sample_state.2) = 2%nat ∧
  well_typed default_ui_options sample_state.2.
Proof.
  assert (sample_run = Some sample_state) as E by by vm_compute.
  split; [exact E|]. split; [by vm_compute|].
  refine (sessions_are_typed sample_number sample_number sample_orders default_ui_options _ (None, initial) _ _ E).
  apply initial_typed.
Defined.

Lemma requests_are_contained_witness :
  let '(response, s') := serve sample_number sample_number sample_orders default_ui_options
    (SubmitOrder "stranger") true true initial in
  status response = 404 ∧ s' = initial.
Proof.
  pose proof (requests_are_contained sample_number sample_number sample_orders default_ui_options
    (SubmitOrder "stranger") true true initial (initial_typed default_ui_options)) as H.
  destruct (serve _ _ _ _ _ _ _ _) as [response s'] eqn:E.
  split; [vm_compute in E; by injection E as <- <-|]. destruct H as (_ & _ & _ & _ & H & _).
  destruct H as [-> _]; [by apply (bool_decide_unpack (7 ∉ demo_account_ids default_ui_options)); vm_compute|done].
Defined.
End UiGatewayProps.
