(* ===== verification/Applications.v ===== *)
(** * The programs ([apps])

    [trading_server], which is the exchange and the UI gateway in one process,
    [udp_sender], [market_data_replay] and [live_strategy_demo]. What they print, their
    sockets and signals are not modelled, except what a program reports at its end.
    [std::stoul] and its like are parameters; no number is an exception, [None]. *)

From stdpp Require Import strings.
From S2P Require Import Prelude Types MarketDataCodec Packet OrderBook EventFile BookManager Snapshot Replay Publisher.
From S2P Require Import Ledger Oms Positions Strategies UiGateway.

(** ** The command line *)

Module CommandLine.

(** The loop over [argv], from its second element. [flags] is what a flag does with its
    value: [None] where it is not a flag. The outer [None] is an exception, the inner one
    [std::nullopt]. *)
Fixpoint parse_flags {Args : Type} (flags : string → option (string → Args → option Args)) (argv : list string)
    (args : Args) : option (option Args) :=
  match argv with
  | [] => Some (Some args)
  | flag :: argv =>
      match flags flag, argv with
      | None, _ | _, [] => Some None
      | Some set, v :: argv => args ← set v args; parse_flags flags argv args
      end
  end.

End CommandLine.
Import CommandLine.

(** ** [apps/trading_server/main.cpp] *)

Module TradingServer.
Import MarketDataCodec UiGateway.

Record Args := mkArgs { tcp_port : Z; market_data_port : Z; http_port : Z; static_dir : string }.

Definition default_args : Args := mkArgs 7000 7001 8080 "".

Section arguments.
Context (stoul : string → option Z).

Definition flags (flag : string) : option (string → Args → option Args) :=
  if bool_decide (flag = "--tcp-port"%string) then Some (λ v args,
    n ← stoul v; Some (mkArgs (u16 n) (market_data_port args) (http_port args) (static_dir args)))
  else if bool_decide (flag = "--market-data-port"%string) then Some (λ v args,
    n ← stoul v; Some (mkArgs (tcp_port args) (u16 n) (http_port args) (static_dir args)))
  else if bool_decide (flag = "--http-port"%string) then Some (λ v args,
    n ← stoul v; Some (mkArgs (tcp_port args) (market_data_port args) (u16 n) (static_dir args)))
  else if bool_decide (flag = "--static-dir"%string) then Some (λ v args,
    Some (mkArgs (tcp_port args) (market_data_port args) (http_port args) v))
  else None.

Definition parse_args (argv : list string) : option (option Args) := parse_flags flags argv default_args.
End arguments.

(** The balances of one account: [gateway.deposit_cash], and a position of each
    instrument. *)
Definition seed_account (options : UiGatewayOptions) (account_id : AccountId) (l : Ledger.t) : Ledger.t :=
  foldl (λ l instrument_id, Ledger.deposit_position account_id instrument_id (demo_starting_position options) l)
    (Ledger.deposit_cash account_id (demo_starting_cash options) l) (demo_instrument_ids options).

Definition kLiveStrategyDemoAccountId : AccountId := 9001.

Definition seeded (options : UiGatewayOptions) : Ledger.t :=
  seed_account options kLiveStrategyDemoAccountId
    (foldl (λ l account_id, seed_account options account_id l) Ledger.empty (demo_account_ids options)).

(** What the event sink keeps: [publisher] and [next_packet_sequence]. *)
Record Wire := mkWire { publisher : MarketDataPublisher.t; next_packet_sequence : Z }.

Definition start_wire : Wire := mkWire MarketDataPublisher.make 1.

Section sink.
Context (clock : Sequence → Timestamp).

(** The sink of the publisher: one datagram for each message. *)
Definition send_event (wire_event : Event) (w : Wire) : list Z * Wire :=
  (Packet.pack_frames (next_packet_sequence w) [wire_event],
   mkWire (publisher w) (u64 (next_packet_sequence w + 1))).

Fixpoint send_all (wire_events : list Event) (w : Wire) : list (list Z) * Wire :=
  match wire_events with
  | [] => ([], w)
  | wire_event :: wire_events =>
      let '(datagram, w) := send_event wire_event w in
      let '(datagrams, w) := send_all wire_events w in (datagram :: datagrams, w)
  end.

(** [gateway_options.extra_event_sink], and what it sends for a list of events. *)
Definition extra_event_sink (event : ExchangeEvent) (w : Wire) : list (list Z) * Wire :=
  let '(wire_events, p) := MarketDataPublisher.publish clock event (publisher w) in
  send_all wire_events (mkWire p (next_packet_sequence w)).

Fixpoint sent_for (events : list ExchangeEvent) (w : Wire) : list (list Z) * Wire :=
  match events with
  | [] => ([], w)
  | event :: events =>
      let '(datagrams, w) := extra_event_sink event w in
      let '(datagrams', w) := sent_for events w in (datagrams ++ datagrams', w)
  end.
End sink.
End TradingServer.

(** ** [apps/udp_sender/main.cpp] *)

Module UdpSender.
Import MarketDataCodec.

Record Args := mkArgs { input : string; host : string; port : Z; batch_size : Z }.

Definition default_args : Args := mkArgs "" "" 0 20.

(** With [have_input], [have_host] and [have_port]. *)
Abbreviation Parsed := (Args * (bool * bool * bool))%type.

(** What a run leaves. [sent] and [attempts] are no variables of the program's: the
    datagrams that went out, and how often [send_to] was called. *)
Record t := mk {
  batch : list Event;
  packet_sequence : Z;
  events_sent : Z;
  packets_sent : Z;
  decode_failures_skipped : Z;
  sent : list (list Z);
  attempts : nat;
}.

Definition start : t := mk [] 1 0 0 0 [] 0.

Section sender.
Context (stoull stoul : string → option Z).

Definition flags (flag : string) : option (string → Parsed → option Parsed) :=
  if bool_decide (flag = "--input"%string) then Some (λ v '(a, (_, have_host, have_port)),
    Some (mkArgs v (host a) (port a) (batch_size a), (true, have_host, have_port)))
  else if bool_decide (flag = "--host"%string) then Some (λ v '(a, (have_input, _, have_port)),
    Some (mkArgs (input a) v (port a) (batch_size a), (have_input, true, have_port)))
  else if bool_decide (flag = "--port"%string) then Some (λ v '(a, (have_input, have_host, _)),
    n ← stoul v; Some (mkArgs (input a) (host a) (u16 n) (batch_size a), (have_input, have_host, true)))
  else if bool_decide (flag = "--batch-size"%string) then Some (λ v '(a, have),
    n ← stoull v; Some (mkArgs (input a) (host a) (port a) n, have))
  else None.

Definition parse_args (argv : list string) : option (option Args) :=
  r ← parse_flags flags argv (default_args, (false, false, false));
  Some ('(a, (have_input, have_host, have_port)) ← r;
        if negb have_input || negb have_host || negb have_port || (batch_size a =? 0) then None else Some a).

(** What [send_to] answers to each call. *)
Context (send_to : nat → list Z → bool).

Definition flush_batch (s : t) : t :=
  if bool_decide (batch s = []) then s
  else
    let datagram := Packet.pack_frames (packet_sequence s) (batch s) in
    if send_to (attempts s) datagram
    then mk [] (u64 (packet_sequence s + 1)) (u64 (events_sent s + vsize (batch s))) (u64 (packets_sent s + 1))
           (decode_failures_skipped s) (sent s ++ [datagram]) (S (attempts s))
    else mk [] (packet_sequence s) (events_sent s) (packets_sent s) (decode_failures_skipped s) (sent s) (S (attempts s)).

(** One turn of the loop, with a frame. *)
Definition on_frame (size : Z) (frame : Event + DecodeError) (s : t) : t :=
  match frame with
  | inr _ => mk (batch s) (packet_sequence s) (events_sent s) (packets_sent s)
               (u64 (decode_failures_skipped s + 1)) (sent s) (attempts s)
  | inl event =>
      let s := mk (batch s ++ [event]) (packet_sequence s) (events_sent s) (packets_sent s)
                 (decode_failures_skipped s) (sent s) (attempts s) in
      if size <=? vsize (batch s) then flush_batch s else s
  end.

Definition stream (size : Z) (file : list Z) : t :=
  flush_batch (foldl (λ s frame, on_frame size frame s) start (EventFile.frames file)).

Inductive Exit := Uncaught | Usage | CannotOpen | NoSocket | Sent (s : t).

(** [open_file]: the file at a path, if it opens. [reserve] throws for more elements than
    [max_size]. *)
Definition main (open_file : string → option (list Z)) (socket_opens : bool) (max_size : Z) (argv : list string) : Exit :=
  match parse_args argv with
  | None => Uncaught
  | Some None => Usage
  | Some (Some a) =>
      match open_file (input a) with
      | None => CannotOpen
      | Some file =>
          if negb socket_opens then NoSocket
          else if max_size <? batch_size a then Uncaught
          else Sent (stream (batch_size a) file)
      end
  end.
End sender.
End UdpSender.

(** ** [apps/market_data_replay/main.cpp] *)

Module MarketDataReplay.
Import MarketDataCodec Replay.

Record Args := mkArgs {
  input : option string;
  listen_port : option Z;
  top_levels : Z;
  idle_timeout_ms : Z;
  queue_capacity : Z;
  consumer_delay_us : Z;
  snapshot_out : option string;
  snapshot_in : option string;
}.

Definition default_args : Args := mkArgs None None 5 1000 1024 0 None None.

(** What is printed of an instrument, and of a run. *)
Record InstrumentReport := mkReport {
  reported : InstrumentId;
  bid_levels : list OrderBook.PriceLevelView;
  ask_levels : list OrderBook.PriceLevelView;
  trades_of : option BookManager.InstrumentStats;
}.

(** [snapshot]: the path and the bytes written to it, where it opened. *)
Inductive Exit :=
  | Uncaught
  | Usage
  | Finished (success : bool) (outcome : ReplayOutcome) (snapshot : option (string * option (list Z)))
      (report : list InstrumentReport).

Section replay.
Context (stoull stoul : string → option Z).

Definition flags (flag : string) : option (string → Args → option Args) :=
  if bool_decide (flag = "--input"%string) then Some (λ v a,
    Some (mkArgs (Some v) (listen_port a) (top_levels a) (idle_timeout_ms a) (queue_capacity a) (consumer_delay_us a)
      (snapshot_out a) (snapshot_in a)))
  else if bool_decide (flag = "--listen"%string) then Some (λ v a,
    n ← stoul v;
    Some (mkArgs (input a) (Some (u16 n)) (top_levels a) (idle_timeout_ms a) (queue_capacity a) (consumer_delay_us a)
      (snapshot_out a) (snapshot_in a)))
  else if bool_decide (flag = "--top-levels"%string) then Some (λ v a,
    n ← stoull v;
    Some (mkArgs (input a) (listen_port a) n (idle_timeout_ms a) (queue_capacity a) (consumer_delay_us a)
      (snapshot_out a) (snapshot_in a)))
  else if bool_decide (flag = "--idle-timeout-ms"%string) then Some (λ v a,
    n ← stoull v;
    Some (mkArgs (input a) (listen_port a) (top_levels a) n (queue_capacity a) (consumer_delay_us a)
      (snapshot_out a) (snapshot_in a)))
  else if bool_decide (flag = "--queue-capacity"%string) then Some (λ v a,
    n ← stoull v;
    Some (mkArgs (input a) (listen_port a) (top_levels a) (idle_timeout_ms a) n (consumer_delay_us a)
      (snapshot_out a) (snapshot_in a)))
  else if bool_decide (flag = "--consumer-delay-us"%string) then Some (λ v a,
    n ← stoull v;
    Some (mkArgs (input a) (listen_port a) (top_levels a) (idle_timeout_ms a) (queue_capacity a) n
      (snapshot_out a) (snapshot_in a)))
  else if bool_decide (flag = "--snapshot-out"%string) then Some (λ v a,
    Some (mkArgs (input a) (listen_port a) (top_levels a) (idle_timeout_ms a) (queue_capacity a) (consumer_delay_us a)
      (Some v) (snapshot_in a)))
  else if bool_decide (flag = "--snapshot-in"%string) then Some (λ v a,
    Some (mkArgs (input a) (listen_port a) (top_levels a) (idle_timeout_ms a) (queue_capacity a) (consumer_delay_us a)
      (snapshot_out a) (Some v)))
  else None.

(** Exactly one of [--input] and [--listen]. *)
Definition parse_args (argv : list string) : option (option Args) :=
  r ← parse_flags flags argv default_args;
  Some (a ← r;
        if bool_decide (is_Some (input a)) && bool_decide (is_Some (listen_port a)) ||
           negb (bool_decide (is_Some (input a))) && negb (bool_decide (is_Some (listen_port a)))
        then None else Some a).

(** The loop that prints the instruments. *)
Definition report_of (levels : Z) (b : BookManager.t) : list InstrumentReport :=
  (λ id, let book := BookManager.find_book id b in
         mkReport id (default [] (OrderBook.top_bids (Z.to_nat levels) <$> book))
           (default [] (OrderBook.top_asks (Z.to_nat levels) <$> book)) (BookManager.trade_stats id b))
  <$> BookManager.instruments b.

(** [open_file]: the file at a path, if it opens; [opens]: whether a file can be written
    there; [listen]: what [run_udp_listen] ends with. [None] is undefined behaviour. *)
Definition main (open_file : string → option (list Z)) (opens : string → bool)
    (listen : Z → ReplayOptions → Z → option ReplayOutcome) (argv : list string) : option Exit :=
  match parse_args argv with
  | None => Some Uncaught
  | Some None => Some Usage
  | Some (Some a) =>
      let options := mkOptions true true (open_file <$> snapshot_in a) in
      outcome ← match input a, listen_port a with
                | Some path, _ => run_replay (open_file path) options
                | None, Some port => listen port options (queue_capacity a)
                | None, None => None
                end;
      let snapshot := (λ path, (path,
        if opens path
        then Some (Snapshot.write_snapshot (default 0 (last_sequence_number outcome)) (books outcome)) else None))
        <$> snapshot_out a in
      Some (Finished (negb (stopped_early outcome)) outcome snapshot (report_of (top_levels a) (books outcome)))
  end.
End replay.
End MarketDataReplay.

(** ** [apps/live_strategy_demo/main.cpp] *)

Module LiveStrategyDemo.
Import MarketDataCodec UiGateway MarketMakerStrategy.

Record Args := mkArgs {
  host : string;
  tcp_port : Z;
  http_port : Z;
  account_id : AccountId;
  instrument_id : InstrumentId;
  quote_size : Quantity;
  half_spread : Price;
  max_position : Quantity;
  requote_threshold : Price;
  poll_interval_ms : Z;
  seed_cash : Z;
  seed_position : Quantity;
}.

Definition default_args : Args := mkArgs "127.0.0.1" 7000 8080 9001 1 10 2 2000 2 200 10000000000 1000.

Section arguments.
Context (stoull stoul stoll stoi : string → option Z).

Definition flags (flag : string) : option (string → Args → option Args) :=
  if bool_decide (flag = "--host"%string) then Some (λ v a,
    Some (mkArgs v (tcp_port a) (http_port a) (account_id a) (instrument_id a) (quote_size a) (half_spread a)
      (max_position a) (requote_threshold a) (poll_interval_ms a) (seed_cash a) (seed_position a)))
  else if bool_decide (flag = "--tcp-port"%string) then Some (λ v a,
    n ← stoul v;
    Some (mkArgs (host a) (u16 n) (http_port a) (account_id a) (instrument_id a) (quote_size a) (half_spread a)
      (max_position a) (requote_threshold a) (poll_interval_ms a) (seed_cash a) (seed_position a)))
  else if bool_decide (flag = "--http-port"%string) then Some (λ v a,
    n ← stoul v;
    Some (mkArgs (host a) (tcp_port a) (u16 n) (account_id a) (instrument_id a) (quote_size a) (half_spread a)
      (max_position a) (requote_threshold a) (poll_interval_ms a) (seed_cash a) (seed_position a)))
  else if bool_decide (flag = "--account"%string) then Some (λ v a,
    n ← stoull v;
    Some (mkArgs (host a) (tcp_port a) (http_port a) n (instrument_id a) (quote_size a) (half_spread a)
      (max_position a) (requote_threshold a) (poll_interval_ms a) (seed_cash a) (seed_position a)))
  else if bool_decide (flag = "--instrument"%string) then Some (λ v a,
    n ← stoul v;
    Some (mkArgs (host a) (tcp_port a) (http_port a) (account_id a) (u32 n) (quote_size a) (half_spread a)
      (max_position a) (requote_threshold a) (poll_interval_ms a) (seed_cash a) (seed_position a)))
  else if bool_decide (flag = "--quote-size"%string) then Some (λ v a,
    n ← stoull v;
    Some (mkArgs (host a) (tcp_port a) (http_port a) (account_id a) (instrument_id a) n (half_spread a)
      (max_position a) (requote_threshold a) (poll_interval_ms a) (seed_cash a) (seed_position a)))
  else if bool_decide (flag = "--half-spread"%string) then Some (λ v a,
    n ← stoll v;
    Some (mkArgs (host a) (tcp_port a) (http_port a) (account_id a) (instrument_id a) (quote_size a) n
      (max_position a) (requote_threshold a) (poll_interval_ms a) (seed_cash a) (seed_position a)))
  else if bool_decide (flag = "--max-position"%string) then Some (λ v a,
    n ← stoull v;
    Some (mkArgs (host a) (tcp_port a) (http_port a) (account_id a) (instrument_id a) (quote_size a) (half_spread
      a) n (requote_threshold a) (poll_interval_ms a) (seed_cash a) (seed_position a)))
  else if bool_decide (flag = "--requote-threshold"%string) then Some (λ v a,
    n ← stoll v;
    Some (mkArgs (host a) (tcp_port a) (http_port a) (account_id a) (instrument_id a) (quote_size a) (half_spread
      a) (max_position a) n (poll_interval_ms a) (seed_cash a) (seed_position a)))
  else if bool_decide (flag = "--poll-interval-ms"%string) then Some (λ v a,
    n ← stoi v;
    Some (mkArgs (host a) (tcp_port a) (http_port a) (account_id a) (instrument_id a) (quote_size a) (half_spread
      a) (max_position a) (requote_threshold a) n (seed_cash a) (seed_position a)))
  else if bool_decide (flag = "--seed-cash"%string) then Some (λ v a,
    n ← stoll v;
    Some (mkArgs (host a) (tcp_port a) (http_port a) (account_id a) (instrument_id a) (quote_size a) (half_spread
      a) (max_position a) (requote_threshold a) (poll_interval_ms a) n (seed_position a)))
  else if bool_decide (flag = "--seed-position"%string) then Some (λ v a,
    n ← stoull v;
    Some (mkArgs (host a) (tcp_port a) (http_port a) (account_id a) (instrument_id a) (quote_size a) (half_spread
      a) (max_position a) (requote_threshold a) (poll_interval_ms a) (seed_cash a) n))
  else None.

(** An exception is caught, and is [std::nullopt] too. *)
Definition parse_args (argv : list string) : option Args :=
  match parse_flags flags argv default_args with Some (Some a) => Some a | _ => None end.
End arguments.

(** The trader as [main] sets it up, and its strategy. *)
Definition set_up (a : Args) : MarketMakerStrategy.t * TraderRiskGatedOms.t :=
  let g := TraderRiskGatedOms.make (account_id a) TraderRiskEngine.default_limits in
  let g := TraderRiskGatedOms.deposit_cash (seed_cash a) g in
  let g := TraderRiskGatedOms.deposit_position (instrument_id a) (seed_position a) g in
  (MarketMakerStrategy.make (mkConfig (instrument_id a) (quote_size a) (half_spread a) (max_position a)
     (requote_threshold a)), g).

Section demo.
Context `{JsonLibrary}.

(** The orders of one side, one for each level; [next_id] goes on. *)
Fixpoint add_levels (side : Side) (levels : list document) (next_id : OrderId) (mirror : OrderBook.t) :
    option (OrderId * OrderBook.t) :=
  match levels with
  | [] => Some (next_id, mirror)
  | level :: levels =>
      price ← at_ "price" level ≫= get_i64;
      quantity ← at_ "quantity" level ≫= get_u64;
      add_levels side levels (u64 (next_id + 1)) (OrderBook.add_order next_id price quantity side mirror).2
  end.

(** The status and the body of a response. The outer [None] is an exception that nothing
    catches, the inner one [std::nullopt]. *)
Definition fetch_book (res : option (Z * string)) : option (option OrderBook.t) :=
  match res with
  | Some (200, body) =>
      match parse body with
      | None => Some None
      | Some parsed =>
          bids ← at_ "bids" parsed;
          '(next_id, mirror) ← add_levels Buy (items bids) 1 OrderBook.empty;
          asks ← at_ "asks" parsed;
          '(next_id, mirror) ← add_levels Sell (items asks) next_id mirror;
          Some (Some mirror)
      end
  | _ => Some None
  end.

(** One turn of the loop of [main]. *)
Definition poll_book (a : Args) (sends : Side → bool) (res : option (Z * string))
    (m : MarketMakerStrategy.t * TraderRiskGatedOms.t) : option (MarketMakerStrategy.t * TraderRiskGatedOms.t) :=
  mirror ← fetch_book res;
  Some match mirror with Some b => on_book_update sends (instrument_id a) b m | None => m end.
End demo.
End LiveStrategyDemo.
