(* ===== verification/ApplicationProps.v ===== *)
(** * What the programs do together

    The sender carries the events of a file, the browser sees the exchange, and the
    strategy of the demonstration trades on what the dashboard shows. *)

From stdpp Require Import strings pretty sorting.
From S2P Require Import Prelude Types Effects SideIndex PriceIndex MatchingBook BookSpec BookQueue BookRefinement.
From S2P Require Import MatchingEngine EngineRefinement Fills EngineMatching EngineInvariant EngineTotal EngineStart EngineProps.
From S2P Require Import MarketDataCodec FileFrames Packet OrderBook EventFile BookViews BookManager SnapshotProps Replay Recovery.
From S2P Require Import Publisher FeedMirror FeedEngine FeedProps UdpListener Ledger Risk RiskGated Oms Positions Strategies.
From S2P Require Import Sequence UiGateway UiGatewayProps Applications.

Module SenderProps.
Import MarketDataCodec UdpSender.
Import Replay (run_replay, replay_frames, no_outcome).

(** ** The events of a file *)

Definition events_of (frames : list (Event + DecodeError)) : list Event :=
  omap (λ f, match f with inl event => Some event | inr _ => None end) frames.

Definition frame_typed (f : Event + DecodeError) : Prop :=
  match f with inl event => event_typed event | inr _ => True end.

Lemma next_typed file : Forall in_u8 file → match EventFile.next file with
  | (Some f, file') => frame_typed f ∧ Forall in_u8 file'
  | (None, _) => True
  end.
Proof.
  intros Hb. unfold EventFile.next, FileFrames.read.
  assert (∀ n, Forall in_u8 (list.drop n file)) as Hd by by intros; apply Forall_drop.
  assert (∀ n m, Forall in_u8 (list.drop m (list.drop n file))) as Hdd by by intros; apply Forall_drop.
  destruct (_ =? 0); [done|]. destruct (_ <? _); [done|]. destruct (decode_header _) as [h|]; [|done].
  destruct (_ <? _); [done|]. split; [|done].
  destruct (decode_event _) as [ev|e] eqn:E; [|done]. cbn [frame_typed].
  apply event_decode_encode in E as [Hev _]; [done|]. apply Forall_app. split; by apply Forall_take.
Qed.

Lemma frames_typed file : Forall in_u8 file → Forall frame_typed (EventFile.frames file).
Proof.
  unfold FileFrames.frames. generalize (length file) as n. intros n. revert file.
  induction n as [|n IH]; intros file Hb; cbn [FileFrames.frames_of]; [constructor|].
  pose proof (next_typed file Hb) as Hn. destruct (EventFile.next file) as [[f|] file']; [|constructor].
  destruct Hn as [Hf Hb']. constructor; [done|by apply IH].
Qed.

(** ** Packets *)

(** The packets of some batches, numbered from 1. *)
Definition packets (batches : list (list Event)) : list (list Z) :=
  imap (λ i b, Packet.pack_frames (u64 (1 + Z.of_nat i)) b) batches.

Definition fits (size : Z) (b : list Event) : Prop := b ≠ [] ∧ vsize b ≤ size ∧ Forall event_typed b.

Lemma packets_snoc batches b :
  packets (batches ++ [b]) = packets batches ++ [Packet.pack_frames (u64 (1 + vsize batches)) b].
Proof. unfold packets. rewrite imap_app. cbn. by rewrite Nat.add_0_r. Qed.

(** A datagram carries its batch. *)
Lemma packet_carries size n b : size < 2 ^ 16 → in_u64 n → fits size b →
  UdpListener.frames_of (Packet.pack_frames n b) = inl <$> b.
Proof.
  intros Hs Hn (Hne & Hl & Ht). unfold UdpListener.frames_of. pose proof (vsize_nonneg b).
  assert (vsize b ≠ 0) as H0 by by (intros E; apply Hne, nil_length_inv; unfold vsize in E; lia).
  rewrite Packet.packet_roundtrip; [|done|done|lia].
  rewrite (u16_small (vsize b)) by (unfold in_u16; lia).
  rewrite (proj2 (Z.eqb_neq _ _)) by done. by rewrite (proj2 (Z.ltb_lt _ _)) by lia.
Qed.

Lemma packets_carry size batches : size < 2 ^ 16 → Forall (fits size) batches →
  UdpListener.carried (packets batches) = inl <$> mjoin batches.
Proof.
  intros Hs. induction batches as [|b batches IH] using rev_ind; [done|]. intros [Hb Hf]%Forall_app.
  rewrite packets_snoc, join_app, fmap_app. unfold UdpListener.carried. rewrite bind_app. f_equal; [by apply IH|].
  cbn. rewrite !app_nil_r. apply (packet_carries size); [done|apply u64_range|by inversion Hf].
Qed.

(** ** The loop *)

Section sender.
Context (send_to : nat → list Z → bool) (size : Z) (Hsize : 0 < size < 2 ^ 16).

(** What was sent of the frames handled, and what waits in the batch. *)
Record sending (handled : list (Event + DecodeError)) (batches : list (list Event)) (s : t) : Prop := {
  sd_sent : sent s = packets batches;
  sd_next : packet_sequence s = u64 (1 + vsize batches);
  sd_packets : packets_sent s = u64 (vsize batches);
  sd_events : events_sent s = u64 (vsize (mjoin batches));
  sd_skipped : decode_failures_skipped s = u64 (vsize handled - vsize (events_of handled));
  sd_fit : Forall (fits size) batches;
  sd_typed : Forall event_typed (batch s);
  sd_some : mjoin batches ++ batch s `sublist_of` events_of handled;
  sd_all : (∀ i d, send_to i d = true) → mjoin batches ++ batch s = events_of handled;
}.

Lemma start_sending : sending [] [] start.
Proof. by split. Qed.

Lemma flush_sending handled batches s : sending handled batches s → vsize (batch s) ≤ size →
  ∃ batches', sending handled batches' (flush_batch send_to s) ∧ batch (flush_batch send_to s) = [].
Proof.
  intros HS Hl. unfold flush_batch. case_bool_decide as Hb; [by exists batches|].
  destruct HS as [H1 H2 H3 H4 H5 H6 H7 H8 H9]. destruct (send_to _ _) eqn:E.
  - exists (batches ++ [batch s]). split; [|done].
    assert (mjoin (batches ++ [batch s]) = mjoin batches ++ batch s) as Ej.
    { rewrite join_app. cbn. by rewrite app_nil_r. }
    split; cbn [sent packet_sequence packets_sent events_sent decode_failures_skipped batch]; rewrite ?Ej, ?app_nil_r.
    + by rewrite packets_snoc, H1, H2.
    + rewrite H2, vsize_snoc. word.
    + rewrite H3, vsize_snoc. word.
    + rewrite H4. unfold vsize. rewrite length_app. word.
    + done.
    + apply Forall_app. split; [done|]. by apply Forall_singleton.
    + done.
    + done.
    + done.
  - exists batches. split; [|done].
    split; cbn [sent packet_sequence packets_sent events_sent decode_failures_skipped batch]; rewrite ?app_nil_r; try done.
    + etransitivity; [|exact H8]. by apply sublist_inserts_r.
    + intros Hall. by rewrite Hall in E.
Qed.

Lemma events_of_snoc handled f : events_of (handled ++ [f]) =
  events_of handled ++ match f with inl event => [event] | inr _ => [] end.
Proof. unfold events_of. rewrite omap_app. by destruct f. Qed.

Lemma frame_sending handled batches s f : sending handled batches s → vsize (batch s) < size → frame_typed f →
  ∃ batches', sending (handled ++ [f]) batches' (on_frame send_to size f s) ∧
    vsize (batch (on_frame send_to size f s)) < size.
Proof.
  intros HS Hl Hf. pose proof HS as [H1 H2 H3 H4 H5 H6 H7 H8 H9]. destruct f as [event|e]; cbn [on_frame].
  - set (s1 := mk _ _ _ _ _ _ _). assert (sending (handled ++ [inl event]) batches s1) as HS1.
    { split; cbn [sent packet_sequence packets_sent events_sent decode_failures_skipped batch s1]; rewrite ?events_of_snoc; try done.
      - rewrite H5, !vsize_snoc. f_equal. lia.
      - apply Forall_app. split; [done|]. by apply Forall_singleton.
      - rewrite app_assoc. by apply sublist_app.
      - intros Hall. rewrite app_assoc. by rewrite H9. }
    destruct (Z.leb_spec size (vsize (batch s1))) as [Hle|Hgt]; [|by exists batches].
    assert (vsize (batch s1) ≤ size) as Hs1 by (cbn [batch s1]; rewrite vsize_snoc; lia).
    destruct (flush_sending _ _ _ HS1 Hs1) as (batches' & HS' & Hb). exists batches'. split; [done|].
    rewrite Hb. unfold vsize. cbn [length]. lia.
  - exists batches. split; [|done].
    split; cbn [sent packet_sequence packets_sent events_sent decode_failures_skipped batch];
      rewrite ?events_of_snoc, ?app_nil_r; try done.
    rewrite H5, vsize_snoc. word.
Qed.

Lemma frames_sending fs : ∀ handled batches s, sending handled batches s → vsize (batch s) < size →
  Forall frame_typed fs → ∃ batches', sending (handled ++ fs) batches' (foldl (λ s f, on_frame send_to size f s) s fs) ∧
    vsize (batch (foldl (λ s f, on_frame send_to size f s) s fs)) < size.
Proof.
  induction fs as [|f fs IH]; intros handled batches s HS Hl Hf; [exists batches; by rewrite app_nil_r|].
  apply Forall_cons in Hf as [Hf Hfs]. destruct (frame_sending _ _ _ f HS Hl Hf) as (b1 & HS1 & Hl1).
  destruct (IH _ _ _ HS1 Hl1 Hfs) as (b' & HS' & Hl'). exists b'. by rewrite <-app_assoc in HS'.
Qed.
End sender.

(** C29: the sender carries the file. Whatever bytes the file holds, and whichever sends
    fail, the datagrams that went out are numbered from 1 without a gap, each is accepted
    by a receiver and holds at most a batch, and together they carry a part, in order, of
    the events that decode; the counters say how many. If no send fails they carry all of
    them; and if besides the file has no bad frame, a replay of what they carry is a
    replay of the file, whatever its options. *)
Theorem sender_carries_file send_to size file : Forall in_u8 file → 0 < size < 2 ^ 16 →
  let s := stream send_to size file in
  ∃ batches, sent s = packets batches ∧ Forall (fits size) batches ∧
    UdpListener.carried (sent s) = inl <$> mjoin batches ∧
    mjoin batches `sublist_of` events_of (EventFile.frames file) ∧
    packets_sent s = u64 (vsize batches) ∧ events_sent s = u64 (vsize (mjoin batches)) ∧
    decode_failures_skipped s = u64 (vsize (EventFile.frames file) - vsize (events_of (EventFile.frames file))) ∧
    ((∀ i d, send_to i d = true) → mjoin batches = events_of (EventFile.frames file) ∧
      ∀ evs, EventFile.frames file = inl <$> evs → ∀ options,
        run_replay (Some file) options = replay_frames options (UdpListener.carried (sent s)) None no_outcome).
Proof.
  intros Hb Hsize. cbn zeta. unfold stream.
  destruct (frames_sending send_to size Hsize (EventFile.frames file) [] [] start) as (b1 & HS1 & Hl1);
    [apply start_sending|unfold vsize; cbn [length batch start]; lia|by apply frames_typed|].
  destruct (flush_sending send_to size _ _ _ HS1) as (batches & [H1 H2 H3 H4 H5 H6 H7 H8 H9] & Hnil); [lia|].
  exists batches. cbn [app] in *. rewrite Hnil, app_nil_r in *.
  assert (UdpListener.carried (sent (flush_batch send_to (foldl (λ s f, on_frame send_to size f s) start
    (EventFile.frames file)))) = inl <$> mjoin batches) as Hc by (rewrite H1; apply (packets_carry size); [lia|done]).
  do 7 (split; [done|]). intros Hall. specialize (H9 Hall). split; [done|]. intros evs Hevs options.
  rewrite Hc, H9, Hevs, Replay.run_replay_frames, Hevs. f_equal. unfold events_of.
  clear. induction evs as [|ev evs IH]; [done|]. cbn. by rewrite <-IH.
Qed.

(** Two events, and half a header. *)
Definition sample_file : list Z := EventFile.written Packet.sample_batch ++ [77; 1].

Lemma sender_carries_file_witness : Forall in_u8 sample_file ∧ 0 < 2 < 2 ^ 16 ∧
  let s := stream (λ _ _, true) 2 sample_file in
  UdpListener.carried (sent s) = inl <$> events_of (EventFile.frames sample_file) ∧ packets_sent s = 1 ∧
  decode_failures_skipped s = 1.
Proof.
  assert (Forall in_u8 sample_file) as Hb by (apply (bool_decide_unpack _); by vm_compute).
  assert (0 < 2 < 2 ^ 16) as Hs by (split; reflexivity).
  split; [exact Hb|]. split; [exact Hs|].
  destruct (sender_carries_file (λ _ _, true) 2 sample_file Hb Hs)
    as (batches & _ & _ & Hc & _ & _ & _ & _ & Hall).
  destruct (Hall (λ _ _, eq_refl)) as [E _]. cbn zeta. rewrite Hc, E. split; [reflexivity|].
  split; vm_compute; reflexivity.
Defined.
End SenderProps.


(** ** The hub is only published to *)

Module HubProps.
Import UiGateway.

Definition publishes (log : list (string * string)) (h : SseHub.t) : SseHub.t :=
  foldl (λ h x, SseHub.publish x.1 x.2 h) h log.

Definition adds (s s' : t) : Prop := ∃ log, sse_hub_ s' = publishes log (sse_hub_ s).

#[global] Instance adds_preorder : PreOrder adds.
Proof.
  split; [by exists []|]. intros s1 s2 s3 [l1 H1] [l2 H2]. exists (l1 ++ l2).
  unfold publishes in *. by rewrite foldl_app, <-H1.
Qed.

Lemma adds_same s s' : sse_hub_ s' = sse_hub_ s → adds s s'.
Proof. by exists []. Qed.

Lemma adds_publish topic p s : adds s (with_hub (SseHub.publish topic p (sse_hub_ s)) s).
Proof. by exists [(topic, p)]. Qed.

(** A computation that only publishes. *)
Definition keeps {A} (m : M A) : Prop := ∀ s, adds s (m s).2.

Create HintDb hub.

Lemma only_ret {A} (x : A) : keeps (mret x).
Proof. by intros s. Qed.

Lemma only_attempt {A} (o : option A) : keeps (attempt o).
Proof. by intros s. Qed.

Lemma only_get : keeps mget.
Proof. by intros s. Qed.

Lemma only_bind {A C} (m : M A) (k : A → M C) : keeps m → (∀ x, keeps (k x)) → keeps (mbind m k).
Proof.
  intros Hm Hk s. unfold mbind. specialize (Hm s). destruct (m s) as [[x|] s']; [|done].
  etransitivity; [exact Hm|]. apply Hk.
Qed.

#[export] Hint Resolve only_ret only_attempt only_get : hub.

(** One step of a handler after the other. *)
Ltac keeps_tac := repeat first
  [ progress auto with hub | apply only_bind; [auto with hub|intros ?]
  | match goal with |- keeps match ?x with _ => _ end => destruct x end | progress cbv zeta ].

Section server.
Context `{JsonLibrary} (stoull stoul : string → option Z).
Context (orders_in : gmap ClientOrderId OrderManagementSystem.ClientOrder → list OrderManagementSystem.ClientOrder).
Context (options : UiGatewayOptions).

Lemma on_update_adds a updates : ∀ s, adds s (on_update a updates s).
Proof.
  unfold on_update. induction updates as [|[order|fill] updates IH]; intros s; cbn [foldl]; [done| |apply IH].
  etransitivity; [|apply IH]. apply adds_publish.
Qed.

Lemma keeps_set_gated a session g updates : keeps (set_gated a session g updates).
Proof. intros s. unfold set_gated, mbind, mget, mput. cbn [snd]. apply (on_update_adds a updates (with_sessions _ s)). Qed.

Lemma keeps_find_session connects a : keeps (find_or_create_session options connects a).
Proof.
  intros s. unfold find_or_create_session, mbind, mget. destruct (_ !! _); [done|]. destruct (negb _); [done|by apply adds_same].
Qed.

#[local] Hint Resolve keeps_set_gated keeps_find_session : hub.

Lemma keeps_submit body connects sent : keeps (handle_submit_order options body connects sent).
Proof. unfold handle_submit_order. keeps_tac. Qed.

Lemma serve_adds r connects sent s : adds s (serve stoull stoul orders_in options r connects sent s).2.
Proof.
  assert (∀ m : M Response, keeps m → adds s (catching m s).2) as Hc.
  { intros m Hm. unfold catching. specialize (Hm s). by destruct (m s) as [[?|] ?]. }
  unfold serve. apply Hc. destruct r; [apply only_ret..| | | | |].
  - unfold handle_get_account. keeps_tac.
  - unfold handle_get_book. apply only_bind; [auto with hub|intros ?]. apply only_bind; [case_bool_decide; auto with hub|].
    intros ?. keeps_tac.
  - apply keeps_submit.
  - unfold handle_cancel_order. keeps_tac.
  - unfold handle_replace_order. keeps_tac.
Qed.

Lemma message_adds a message s : adds s (handle_message a message s).2.
Proof.
  assert (keeps (handle_message a message)) as Hk; [|apply Hk]. unfold handle_message. keeps_tac.
Qed.

Lemma turn_publishes batch v s x : market_data_turn options batch v s = Some x → adds s x.2.
Proof.
  unfold market_data_turn. destruct (apply_batch _ _ _ _) as [[[touched v'] o']|]; [|done]. intros [= <-]. cbn [snd].
  transitivity (with_outcome o' s); [by apply adds_same|]. generalize (with_outcome o' s).
  induction (sorted touched) as [|id ids IH]; intros s1; [done|]. cbn [foldl]. etransitivity; [|apply IH]. apply adds_publish.
Qed.

Lemma exec_adds actions : ∀ x x', exec stoull stoul orders_in options actions x = Some x' → adds x.2 x'.2.
Proof.
  induction actions as [|a actions IH]; intros [v s] x'; cbn [exec]; [by intros [= <-]|].
  destruct (step _ _ _ _ a (v, s)) as [x1|] eqn:E; [|done]. intros Hx. transitivity x1.2; [|by apply IH].
  destruct a as [r connects sent|a message|batch]; cbn [step fst snd] in E.
  - injection E as <-. apply serve_adds.
  - injection E as <-. apply message_adds.
  - by apply (turn_publishes batch v).
Qed.
End server.

(** A browser that connected before anything was published, and has not polled yet. *)
Definition watching (log : list (string * string)) : SseHub.connection :=
  foldl (λ c x, SseHub.publish_to x.1 x.2 c) SseHub.start log.

Lemma watching_spec log : SseHub.reaches (watching log) ∧ SseHub.hub (watching log) = publishes log SseHub.empty ∧
  SseHub.published (watching log) = log ∧ SseHub.received (watching log) = [].
Proof.
  induction log as [|x log IH] using rev_ind; [by split; [constructor|]|].
  unfold watching, publishes in *. rewrite !foldl_app. cbn [foldl].
  set (c := foldl _ SseHub.start log) in *. destruct IH as (Hr & Hh & Hp & Hn). split; [by constructor|].
  unfold SseHub.publish_to. cbn [SseHub.hub SseHub.published SseHub.received]. rewrite Hh, Hp, Hn. by destruct x.
Qed.
End HubProps.

(** ** The exchange in a browser *)

Module ServerProps.
Import BookRefinement MatchingEngine EngineRefinement EngineMatching EngineInvariant EngineTotal EngineStart EngineProps.
Import ABook (queue).
Import MarketDataCodec (Event, event_typed).
Import FeedMirror FeedEngine FeedProps TradingServer.

(** *** What leaves the exchange *)

Section sink.
Context (clock : Sequence → Timestamp).

Abbreviation feed events p := (MarketDataPublisher.feed clock events p).1.

Lemma send_all_carries wire_events : ∀ w, Forall event_typed wire_events → in_u64 (next_packet_sequence w) →
  UdpListener.carried (send_all wire_events w).1 = inl <$> wire_events ∧
  publisher (send_all wire_events w).2 = publisher w ∧ in_u64 (next_packet_sequence (send_all wire_events w).2).
Proof.
  induction wire_events as [|ev evs IH]; intros w Ht Hn; [done|]. apply Forall_cons in Ht as [Hev Ht].
  cbn [send_all send_event]. set (w1 := mkWire _ _).
  destruct (IH w1 Ht) as (E & Hp & Hq); [apply u64_range|]. destruct (send_all evs w1) as [ds w2].
  cbn [fst snd] in *. split; [|done]. unfold UdpListener.carried in *. cbn [mbind list_bind]. rewrite E.
  rewrite (SenderProps.packet_carries 1); [done|done|done|]. split; [done|]. split; [done|]. by apply Forall_singleton.
Qed.

Lemma sent_carries events : ∀ w, Forall event_typed (feed events (publisher w)) → in_u64 (next_packet_sequence w) →
  UdpListener.carried (sent_for clock events w).1 = inl <$> feed events (publisher w).
Proof.
  induction events as [|ev evs IH]; intros w Ht Hn; [done|].
  cbn [sent_for MarketDataPublisher.feed] in *. unfold extra_event_sink.
  destruct (MarketDataPublisher.publish clock ev (publisher w)) as [out p].
  specialize (IH (send_all out (mkWire p (next_packet_sequence w))).2).
  destruct (MarketDataPublisher.feed clock evs p) as [outs p'] eqn:Ef. cbn [fst] in *.
  apply Forall_app in Ht as [Hout Houts].
  destruct (send_all_carries out (mkWire p (next_packet_sequence w)) Hout Hn) as (E & Hp & Hq).
  cbn [publisher] in Hp. destruct (send_all out _) as [ds w1]. cbn [fst snd] in *. subst p. rewrite Ef in IH.
  destruct (sent_for clock evs w1) as [ds' w2]. cbn [fst] in *. unfold UdpListener.carried in *.
  by rewrite bind_app, fmap_app, E, IH.
Qed.
End sink.

(** *** The exchange behind its checks *)

Lemma tracked_count m f a : tracked m f a → tracked (m + 1) (RiskGatedEngine.count_event f) a.
Proof. intros HT. by apply (tracked_same m (m + 1) f); [|lia|..]. Qed.

Lemma refusal_public c n reason : public_ok (RiskGatedEngine.refusal_event c n reason) ∧
  feed_op (RiskGatedEngine.refusal_event c n reason) = None.
Proof. by destruct c. Qed.

(** A refused command leaves no trace in the feed; the feed of any other is the engine's. *)
Lemma gated_tracked cs : ∀ m g f a, represents m (RiskGatedEngine.engine_ g) f → tracked m f a →
  m + vsize cs ≤ MatchingBook.kNil → Forall command_ok cs →
  ∃ g' f' evs a', RiskGatedEngine.run cs g = Some (g', evs) ∧
    represents (m + vsize cs) (RiskGatedEngine.engine_ g') f' ∧ mirror evs a = Some a' ∧
    tracked (m + vsize cs) f' a' ∧ Forall public_ok evs ∧
    ∀ id, knows_instrument id f' = knows_instrument id (RiskGatedEngine.engine_ g').
Proof.
  induction cs as [|c cs IH]; intros m g f a HR HT Hm Hok.
  { exists g, f, [], a. unfold vsize. cbn [length]. rewrite Z.add_0_r. split_and!; try done.
    intros id. destruct HR as [HE _]. symmetry. apply (er_knows _ _ _ _ HE). }
  apply Forall_cons in Hok as [Hc Hcs]. unfold vsize in Hm. cbn [length] in Hm.
  assert (∃ g1 f1 evs a1, RiskGatedEngine.process c g = Some (g1, evs) ∧
    represents (m + 1) (RiskGatedEngine.engine_ g1) f1 ∧ mirror evs a = Some a1 ∧ tracked (m + 1) f1 a1 ∧
    Forall public_ok evs) as (g1 & f1 & evs & a1 & E & HR1 & Ha1 & HT1 & Hp1).
  - rewrite RiskGatedEngine.process_cases. destruct (RiskGatedEngine.refusal c g) as [reason|].
    + eexists _, (RiskGatedEngine.count_event f), _, a. split; [reflexivity|].
      destruct (RiskGatedEngine.represents_count _ _ _ HR) as [HE HI]. split.
      { split; [done|]. eapply inv_mono; [done|lia]. }
      destruct (refusal_public c (next_event_sequence_ (RiskGatedEngine.engine_ g)) reason) as [Hpub Hop].
      split; [cbn [mirror]; by rewrite Hop|]. split; [by apply tracked_count|by apply Forall_singleton].
    + destruct HR as [HE HI].
      destruct (wp_elim _ _ _ (process_tracked m f a c HI HT ltac:(lia) Hc)) as ([] & f1 & evs & Hf & HI1 & (a1 & Ha1 & HT1) & Hp).
      destruct (represents_step (m + 1) _ _ _ _ _ HE HI1 Hf) as (e1 & He & HR1).
      unfold RiskGatedEngine.forward. rewrite He. cbn [mbind option_bind].
      eexists _, f1, evs, a1. split; [reflexivity|]. by split_and!.
  - destruct (IH (m + 1) g1 f1 a1 HR1 HT1) as (g' & f' & evs' & a' & E' & HR' & Ha' & HT' & Hp' & Hk); [unfold vsize; lia|done|].
    exists g', f', (evs ++ evs'), a'. cbn [RiskGatedEngine.run]. rewrite E. cbn [mbind option_bind]. rewrite E'.
    replace (m + vsize (c :: cs)) with (m + 1 + vsize cs) by (unfold vsize; cbn [length]; lia).
    split_and!; try done; [by rewrite mirror_app, Ha1|by apply Forall_app].
Qed.

(** A gated session from the start. *)
Lemma gated_session_tracked universe n l limits cs : session_ok universe cs →
  ∃ (e0 : real) g f evs a, make universe n = Some e0 ∧
    RiskGatedEngine.run cs (RiskGatedEngine.start e0 l limits) = Some (g, evs) ∧
    represents (vsize cs) (RiskGatedEngine.engine_ g) f ∧ mirror evs ∅ = Some a ∧
    tracked (vsize cs) f a ∧ Forall public_ok evs ∧
    ∀ id, knows_instrument id f = knows_instrument id (RiskGatedEngine.engine_ g).
Proof.
  intros (Hu & Hsz & Hok & Hn). destruct (make_total universe n Hu Hsz) as (f0 & Hf0 & _ & HI & Hk).
  destruct (er_make BookRefinement.Rep universe n f0 Hu Hsz Hf0) as (e0 & He0 & HE).
  assert (tracked 0 f0 ∅) as HT.
  { apply (tracked_start universe n); [done| |done]. by intros id [? _]%Hk. }
  destruct (gated_tracked cs 0 (RiskGatedEngine.start e0 l limits) f0 ∅ (conj HE HI) HT Hn Hok)
    as (g & f & evs & a & Hr & HR & Ha & HT' & Hp & Hkn).
  exists e0, g, f, evs, a. split_and!; done.
Qed.

Section browser.
Import UiGateway UiGatewayProps HubProps.
Context `{JsonLibrary} (stoull stoul : string → option Z).
Context (orders_in : gmap ClientOrderId OrderManagementSystem.ClientOrder → list OrderManagementSystem.ClientOrder).
Context (options : UiGatewayOptions) (clock : Sequence → Timestamp) (limits : RiskEngine.RiskLimits).

(** The gateway's book of an instrument has the engine's orders and its best prices. *)
Definition agrees (e : real) (s : t) (id : InstrumentId) (sd : Side) : Prop :=
  ∃ B orders, book_for id e = Some B ∧ MatchingBook.all_of sd B = Some orders ∧
    let b := BookManager.book_for id (Replay.books (market_data_outcome_ s)) in
    OrderBook.all_orders sd b ≡ₚ view_order <$> orders ∧
    OrderBook.lv_price <$> OrderBook.best sd b = bo_price <$> head orders.

(** What the browser that has [received] this shows of a book. *)
Definition shows_book (s : t) (received : list (string * string)) : Prop :=
  ∀ id b, find_book id s = Some b →
    SseHub.shown (book_topic id) received = Some (dump (book_event options id (Some b))).

Lemma caught_up s log orders : sse_hub_ s = publishes log SseHub.empty → shows_books options s → vsize log < 2 ^ 64 →
  Forall (λ order, SseHub.enumerates order (watching log)) orders →
  length orders = length (SseHub.pending (watching log)) →
  ∃ c, SseHub.polls orders (watching log) = Some c ∧ shows_book s (SseHub.received c).
Proof.
  intros Hlog HB Hl Ho Hlen. destruct (watching_spec log) as (Hr & Hh & Hp & _).
  destruct (SseHub.polls_pending orders (watching log) Ho) as (c & E & Hhub & _ & Hpend & _ & HI).
  { by rewrite Hlen. }
  { apply SseHub.reaches_inv; [done|]. by rewrite Hp. }
  exists c. split; [done|]. intros id b Hid. rewrite SseHub.settled by done.
  by rewrite Hhub, Hh, <-Hlog, (HB id b Hid).
Qed.

(** C24: the browser sees the exchange. In the trading server, whatever commands come,
    past the checks or not, and whatever the clock reads: if the datagrams of the event
    sink all arrive, in order, in whatever batches and between whatever requests and
    messages, then the gateway's book of every instrument has exactly the orders that rest
    in the engine, and its best prices; and a browser that calls for its stream as often
    as topics are pending shows of each book the top levels as they are. *)
Theorem browser_sees_exchange n cs : session_ok (demo_instrument_ids options) cs → (∀ k, in_u64 (clock k)) →
  ∃ (e0 : real) g evs, make (demo_instrument_ids options) n = Some e0 ∧
    RiskGatedEngine.run cs (RiskGatedEngine.start e0 (seeded options) limits) = Some (g, evs) ∧
    ∀ actions, fed actions = (sent_for clock evs start_wire).1 →
      ∃ v s log, exec stoull stoul orders_in options actions (None, initial) = Some (v, s) ∧
        sse_hub_ s = publishes log SseHub.empty ∧
        (∀ id sd, knows_instrument id (RiskGatedEngine.engine_ g) = true → agrees (RiskGatedEngine.engine_ g) s id sd) ∧
        (vsize log < 2 ^ 64 → ∀ orders, Forall (λ order, SseHub.enumerates order (watching log)) orders →
          length orders = length (SseHub.pending (watching log)) →
          ∃ c, SseHub.polls orders (watching log) = Some c ∧ shows_book s (SseHub.received c)).
Proof.
  intros Hok Hc. destruct (gated_session_tracked (demo_instrument_ids options) n (seeded options) limits cs Hok)
    as (e0 & g & f & evs & a & He0 & Hr & HR & Ha & HT & Hp & Hkn).
  exists e0, g, evs. split; [done|]. split; [done|]. intros actions Hfed.
  assert (Forall event_typed (MarketDataPublisher.feed clock evs MarketDataPublisher.make).1) as Ht by by apply feed_typed.
  destruct (feed_mirrors clock evs MarketDataPublisher.make ∅ a Ha) as [Hs _].
  pose proof (feed_consecutive clock evs None MarketDataPublisher.make eq_refl) as Hcons.
  pose proof (sent_carries clock evs start_wire Ht ltac:(done)) as Hcar. rewrite <-Hfed in Hcar.
  destruct (exec_serving stoull stoul orders_in options actions _ _ (initial_serving options)) as ([v s] & E & HS).
  cbn [app] in HS. rewrite Hcar in HS. destruct HS as [_ HRb HB _]. cbn [snd publisher start_wire] in *.
  rewrite heard_consecutive, Hs in HRb by done.
  destruct (exec_adds stoull stoul orders_in options actions _ _ E) as [log Hlog]. cbn [snd] in Hlog.
  exists v, s, log. split; [done|]. split; [done|]. split; [|intros; by apply caught_up].
  intros id sd Hk. rewrite <-Hkn in Hk. destruct (real_book _ _ f id HR Hk) as (B & b & HBk & Hb & HRep & Hbok & Hall).
  exists B, (queue sd b).*2. split; [done|]. split; [done|]. destruct (tk_book _ _ _ HT id b Hk Hb) as [Hd _].
  pose proof (SnapshotProps.stands_for_shows _ _ (BookManager.rep_book _ a id HRb)) as Hsh.
  split; [by eapply side_orders|by eapply best_order].
Qed.
End browser.

(** The session of [EngineProps], for accounts that have what it takes. *)
Definition sample_options : UiGateway.UiGatewayOptions :=
  UiGateway.mkUiOptions [1; 2] [7; 9] 10000000000 1000 TraderRiskEngine.default_limits 10.

Lemma browser_sees_exchange_witness :
  session_ok (UiGateway.demo_instrument_ids sample_options) sample_session ∧ (∀ k, in_u64 (still k)) ∧
  ∃ (e0 : real) g evs s, make [7; 9] 16 = Some e0 ∧
    RiskGatedEngine.run sample_session (RiskGatedEngine.start e0 (seeded sample_options) RiskEngine.default_limits) = Some (g, evs) ∧
    ∀ id sd, knows_instrument id (RiskGatedEngine.engine_ g) = true → agrees (RiskGatedEngine.engine_ g) s id sd.
Proof.
  assert (∀ k, in_u64 (still k)) as Hc by (intros k; by split).
  split; [exact sample_session_ok|]. split; [exact Hc|].
  destruct (browser_sees_exchange (H := UiGatewayProps.sample_library) UiGatewayProps.sample_number UiGatewayProps.sample_number
    UiGatewayProps.sample_orders sample_options still RiskEngine.default_limits 16 sample_session sample_session_ok Hc)
    as (e0 & g & evs & He & Hr & Hall).
  destruct (Hall [UiGateway.Feed (sent_for still evs start_wire).1]) as (v & s & log & _ & _ & Ha & _).
  { unfold UiGatewayProps.fed. cbn. apply app_nil_r. }
  by exists e0, g, evs, s.
Defined.
End ServerProps.

(** ** The strategy and the dashboard *)

Module DemoProps.
Import UiGateway LiveStrategyDemo.
Import OrderBook (PriceLevelView, lv_price, lv_aggregate, ahead, shows, best, top).

(** What is relied on of the JSON library: a document that was printed is parsed again,
    and its fields, its items and its numbers are found in it. *)
Class JsonLaws `{JsonLibrary} := {
  doc : json → document;
  parse_dump j : parse (dump j) = Some (doc j);
  at_doc k j fields : NoDup fields.*1 → (k, j) ∈ fields → at_ k (doc (JObject fields)) = Some (doc j);
  items_doc l : items (doc (JArray l)) = doc <$> l;
  get_i64_doc n : in_i64 n → get_i64 (doc (JNumber n)) = Some n;
  get_u64_doc n : in_u64 n → get_u64 (doc (JNumber n)) = Some n;
}.

(** *** The mirror *)

(** The orders made of some levels. *)
Fixpoint orders_for (side : Side) (next_id : OrderId) (levels : list PriceLevelView) : list OrderBook.order :=
  match levels with
  | [] => []
  | v :: levels => OrderBook.mkOrder next_id side (lv_price v) (lv_aggregate v) :: orders_for side (next_id + 1) levels
  end.

Definition level_ok (v : PriceLevelView) : Prop :=
  in_i64 (lv_price v) ∧ 0 < lv_price v ∧ in_u64 (lv_aggregate v) ∧ lv_aggregate v ≠ 0.

Definition ids_below (n : OrderId) (os : list OrderBook.order) : Prop := Forall (λ o, OrderBook.od_id o < n) os.

Lemma ids_below_unknown n os : ids_below n os → OrderBook.known n os = false.
Proof.
  intros Hf. apply not_true_is_false. unfold OrderBook.known. rewrite existsb_exists.
  intros (o & Ho%list_elem_of_In & E%Z.eqb_eq). unfold ids_below in Hf. rewrite Forall_forall in Hf.
  specialize (Hf o Ho). lia.
Qed.

Lemma orders_for_elem side p levels : ∀ n, (∃ o, o ∈ orders_for side n levels ∧ OrderBook.rests_at side p o) ↔
  p ∈ lv_price <$> levels.
Proof.
  induction levels as [|v levels IH]; intros n; cbn [orders_for].
  { split; [intros (o & Ho%not_elem_of_nil & _); done|intros Hp; by apply not_elem_of_nil in Hp]. }
  rewrite fmap_cons, elem_of_cons, <-(IH (n + 1)). setoid_rewrite elem_of_cons. split.
  - intros (o & [->|Ho] & Hr); [left; by destruct Hr|right; by exists o].
  - intros [->|(o & Ho & Hr)]; [|exists o; split; [by right|done]].
    exists (OrderBook.mkOrder n side (lv_price v) (lv_aggregate v)). split; [by left|by split].
Qed.

Lemma orders_for_side side levels : ∀ n o, o ∈ orders_for side n levels → OrderBook.od_side o = side.
Proof.
  induction levels as [|v levels IH]; intros n o; cbn [orders_for]; [by intros ?%not_elem_of_nil|].
  intros [->|Ho]%elem_of_cons; [done|by eapply IH].
Qed.

Section demo.
Context `{JL : JsonLaws}.

Lemma level_fields v : level_ok v →
  (at_ "price" (doc (level_to_json v)) ≫= get_i64) = Some (lv_price v) ∧
  (at_ "quantity" (doc (level_to_json v)) ≫= get_u64) = Some (lv_aggregate v).
Proof.
  intros (Hp & _ & Hq & _). unfold level_to_json. split.
  - rewrite (at_doc _ (JNumber (lv_price v))) by (repeat constructor; set_solver).
    by apply get_i64_doc.
  - rewrite (at_doc _ (JNumber (lv_aggregate v))) by (repeat constructor; set_solver).
    by apply get_u64_doc.
Qed.

Lemma add_levels_spec side levels : ∀ n b ns, OrderBook.Rep b ns → ids_below n ns.*2 → 0 ≤ n →
  n + vsize levels < 2 ^ 64 → Forall level_ok levels →
  ∃ b' ns', add_levels side (doc <$> (level_to_json <$> levels)) n b = Some (n + vsize levels, b') ∧
    OrderBook.Rep b' ns' ∧ ns'.*2 = ns.*2 ++ orders_for side n levels ∧ ids_below (n + vsize levels) ns'.*2.
Proof.
  induction levels as [|v levels IH]; intros n b ns HR Hi Hn Hl Hok.
  { exists b, ns. unfold vsize. cbn. by rewrite Z.add_0_r, app_nil_r. }
  apply Forall_cons in Hok as [Hv Hok]. rewrite !fmap_cons. cbn [add_levels orders_for].
  destruct (level_fields v Hv) as [-> ->]. cbn [base.mbind option_bind].
  destruct (OrderBook.op_refines (OrderBook.Add n (lv_price v) (lv_aggregate v) side) b ns HR) as (b1 & ns1 & E & HR1 & Hns1).
  destruct Hv as (_ & Hp & _ & Hq). cbn [OrderBook.spec_op OrderBook.apply_op] in E, Hns1.
  rewrite (proj2 (Z.leb_gt _ _)), (proj2 (Z.eqb_neq _ _)), ids_below_unknown in E, Hns1 by done.
  injection E as E. rewrite E. cbn [snd] in Hns1 |- *. unfold vsize in *. cbn [length] in *.
  rewrite (u64_small (n + 1)) by (unfold in_u64; lia).
  destruct (IH (n + 1) b1 ns1 HR1) as (b' & ns' & E' & HR' & Hns' & Hi'); [|lia|lia|done|].
  { rewrite Hns1. apply Forall_app. split; [|by apply Forall_singleton; cbn; lia].
    eapply Forall_impl; [exact Hi|]. cbn. lia. }
  exists b', ns'. replace (n + Z.of_nat (S (length levels))) with (n + 1 + Z.of_nat (length levels)) by lia.
  split; [done|]. split; [done|]. split; [|done]. by rewrite Hns', Hns1, <-(assoc_L (++)).
Qed.

Lemma mirror_of_levels bids asks : Forall level_ok bids → Forall level_ok asks → vsize bids + vsize asks + 1 < 2 ^ 64 →
  ∃ next_id b1 next_id' mirror,
    add_levels Buy (doc <$> (level_to_json <$> bids)) 1 OrderBook.empty = Some (next_id, b1) ∧
    add_levels Sell (doc <$> (level_to_json <$> asks)) next_id b1 = Some (next_id', mirror) ∧
    shows mirror (orders_for Buy 1 bids ++ orders_for Sell (1 + vsize bids) asks).
Proof.
  intros Hb Ha Hl. pose proof (vsize_nonneg bids). pose proof (vsize_nonneg asks).
  destruct (add_levels_spec Buy bids 1 OrderBook.empty [] OrderBook.rep_empty) as (b1 & ns1 & E1 & HR1 & Hns1 & Hi1);
    [constructor|lia|lia|done|].
  destruct (add_levels_spec Sell asks (1 + vsize bids) b1 ns1 HR1 Hi1) as (b2 & ns2 & E & HR2 & Hns2 & _); [lia|lia|done|].
  exists (1 + vsize bids), b1, (1 + vsize bids + vsize asks), b2. split; [done|]. split; [done|].
  cbn in Hns1. rewrite <-Hns1, <-Hns2. by apply OrderBook.rep_shows.
Qed.

(** *** Levels and the orders made of them *)

Lemma orders_for_total side levels v : ∀ n, NoDup (lv_price <$> levels) → v ∈ levels →
  OrderBook.total (filter (OrderBook.rests_at side (lv_price v)) (orders_for side n levels)) = lv_aggregate v.
Proof.
  induction levels as [|w levels IH]; intros n Hnd Hv; [by apply not_elem_of_nil in Hv|].
  rewrite fmap_cons in Hnd. apply NoDup_cons in Hnd as [Hw Hnd]. cbn [orders_for]. rewrite filter_cons.
  apply elem_of_cons in Hv as [->|Hv].
  - rewrite decide_True by by split. cbn. replace (filter _ _) with (@nil OrderBook.order); [cbn; lia|].
    symmetry. apply filter_none. intros o Ho Hr. apply Hw. apply (orders_for_elem side (lv_price w) levels (n + 1)).
    by exists o.
  - rewrite decide_False; [by apply IH|]. intros [_ E]. cbn in E. apply Hw. rewrite E. by apply list_elem_of_fmap_2.
Qed.

Lemma sorted_take {X} (R : X → X → Prop) n l : StronglySorted R l → StronglySorted R (list.take n l).
Proof.
  revert n. induction l as [|x l IH]; intros [|n] Hs; [constructor..|]. apply StronglySorted_inv in Hs as [Hs Hf].
  cbn. constructor; [by apply IH|by apply Forall_take].
Qed.

(** What a level shows but for the number of its orders. *)
Definition price_and_quantity (v : PriceLevelView) : Price * Quantity := (lv_price v, lv_aggregate v).

(** A mirror of the first [n] levels of a side has those levels and no others. *)
Lemma mirror_levels side n b os mirror os' : shows b os → shows mirror os' →
  (∀ p, (∃ o, o ∈ os' ∧ OrderBook.rests_at side p o) ↔ p ∈ lv_price <$> top side n b) →
  (∀ v, v ∈ top side n b → u64 (OrderBook.total (filter (OrderBook.rests_at side (lv_price v)) os')) = lv_aggregate v) →
  ∀ k, price_and_quantity <$> top side k mirror = price_and_quantity <$> top side (k `min` n) b.
Proof.
  intros [_ Hb] [_ Hm] Hp Hq k. destruct (Hb side) as (ps & Hs & _ & _ & Ht & _).
  destruct (Hm side) as (ps' & Hs' & Hps' & _ & Ht' & _). rewrite Ht', Ht.
  assert (∀ l : list Price, lv_price <$> (OrderBook.level_view side os <$> l) = l) as Hid.
  { intros l. rewrite <-list_fmap_compose. by rewrite (list_fmap_ext _ id), list_fmap_id by done. }
  assert (ps' = list.take n ps) as ->.
  { pose proof BookViews.ahead_antisymm. apply (StronglySorted_unique (ahead side)); [done|by apply sorted_take|].
    apply NoDup_Permutation; [by eapply BookViews.ahead_nodup|by eapply BookViews.ahead_nodup, sorted_take|].
    intros p. rewrite Hps', Hp, Ht, <-fmap_take. by rewrite Hid. }
  rewrite <-!fmap_take, take_take. rewrite <-!list_fmap_compose. apply list_fmap_ext. intros i p Hi. cbn.
  unfold price_and_quantity. cbn. f_equal.
  assert (OrderBook.level_view side os p ∈ top side n b) as Hin; [|by apply Hq in Hin].
  rewrite Ht, <-fmap_take. apply list_elem_of_fmap_2. apply list_elem_of_lookup_2 in Hi.
  rewrite <-take_take in Hi. by apply (elem_of_sublist _ _ _ Hi (sublist_take _ _)).
Qed.

Lemma best_of_top side b : best side b = head (top side 1 b).
Proof. unfold best, top. by destruct (OrderBook.in_order side b). Qed.

Lemma head_shown (l : list PriceLevelView) : head (price_and_quantity <$> l) = price_and_quantity <$> head l.
Proof. by destruct l. Qed.

Lemma best_price side b : lv_price <$> best side b = fst <$> (price_and_quantity <$> best side b).
Proof. by destruct (best side b). Qed.

(** The strategy looks at the best prices only. *)
Lemma decides_by_best sends id b b' m : lv_price <$> best Buy b = lv_price <$> best Buy b' →
  lv_price <$> best Sell b = lv_price <$> best Sell b' →
  MarketMakerStrategy.on_book_update sends id b m = MarketMakerStrategy.on_book_update sends id b' m.
Proof.
  intros Hb Ha. unfold MarketMakerStrategy.on_book_update, OrderBook.best_bid, OrderBook.best_ask.
  destruct (negb _); [done|].
  destruct (best Buy b) as [x|], (best Buy b') as [x'|]; try done; destruct (best Sell b) as [y|], (best Sell b') as [y'|]; try done.
  injection Hb as ->. by injection Ha as ->.
Qed.

(** *** The gateway's books *)

Lemma unpacked_typed n : ∀ rest frames r, Forall in_u8 rest → Forall SenderProps.frame_typed frames →
  Packet.unpack_loop n rest frames = inl r → Forall SenderProps.frame_typed r.1.
Proof.
  induction n as [|n IH]; intros rest frames r Hb Hf; cbn [Packet.unpack_loop]; [by intros [= <-]|].
  destruct (MarketDataCodec.decode_header rest) as [h|]; [|done]. destruct (_ <? _); [done|].
  apply IH; [by apply Forall_drop|]. apply Forall_app. split; [done|]. apply Forall_singleton.
  destruct (MarketDataCodec.decode_event _) as [ev|e] eqn:E; [|done]. cbn.
  apply MarketDataCodec.event_decode_encode in E as [Hev _]; [done|]. by apply Forall_take.
Qed.

Lemma datagram_typed datagram : Forall in_u8 datagram → Forall SenderProps.frame_typed (UdpListener.frames_of datagram).
Proof.
  intros Hb. unfold UdpListener.frames_of. destruct (Packet.unpack_frames datagram) as [packet|e] eqn:E; [|constructor].
  unfold Packet.unpack_frames in E. repeat case_match; try done. simplify_eq. cbn.
  match goal with H : Packet.unpack_loop _ _ _ = inl ?r |- _ =>
    apply unpacked_typed in H; [done|by repeat apply Forall_drop|constructor] end.
Qed.

Lemma carried_typed datagrams : Forall (Forall in_u8) datagrams → Forall SenderProps.frame_typed (UdpListener.carried datagrams).
Proof.
  induction 1 as [|d ds Hd _ IH]; [constructor|]. apply Forall_app. split; [by apply datagram_typed|done].
Qed.

Lemma heard_typed frames : ∀ v, Forall SenderProps.frame_typed frames →
  Forall MarketDataCodec.event_typed (UiGatewayProps.heard v frames).
Proof.
  induction frames as [|[ev|e] frames IH]; intros v Hf; cbn [UiGatewayProps.heard]; [constructor| |];
    apply Forall_cons in Hf as [Hev Hf]; [|by apply IH].
  destruct (SequenceValidator.check _ _) as [c v']. case_bool_decide; [constructor; [done|]|]; by apply IH.
Qed.

Lemma shown_levels_ok side n b os : shows b os → SnapshotProps.orders_ok os →
  (∀ level, level ∈ top side n b → lv_aggregate level ≠ 0) → Forall level_ok (top side n b).
Proof.
  intros [_ Hb] [Hos _] Hne. apply Forall_forall. intros v Hv. specialize (Hne v Hv).
  destruct (Hb side) as (ps & _ & Hps & _ & Ht & _). rewrite Ht in Hv.
  apply (subseteq_take _ _ : _ ⊆ _) in Hv. apply list_elem_of_fmap in Hv as (p & -> & Hp).
  apply Hps in Hp as (o & Ho & _ & <-). rewrite Forall_forall in Hos. destruct (Hos o Ho) as (_ & Hi & Hpos & _).
  split; [done|]. split; [done|]. split; [apply u64_range|done].
Qed.

Lemma top_empty side n : top side n OrderBook.empty = [].
Proof. destruct side, n; vm_compute; reflexivity. Qed.

Lemma top_short side n b : vsize (top side n b) ≤ Z.of_nat n.
Proof. unfold top, vsize. rewrite length_fmap, length_take. lia. Qed.

Context (stoull stoul : string → option Z).
Context (orders_in : gmap ClientOrderId OrderManagementSystem.ClientOrder → list OrderManagementSystem.ClientOrder).
Context (options : UiGatewayOptions).

Lemma reached_book actions v s id : exec stoull stoul orders_in options actions (None, initial) = Some (v, s) →
  Forall (Forall in_u8) (UiGatewayProps.fed actions) →
  ∃ os, shows (BookManager.book_for id (Replay.books (market_data_outcome_ s))) os ∧ SnapshotProps.orders_ok os.
Proof.
  intros E Hb. destruct (UiGatewayProps.exec_serving stoull stoul orders_in options actions _ _
    (UiGatewayProps.initial_serving options)) as ([v' s'] & E' & [_ HR _ _]).
  rewrite E in E'. injection E' as <- <-. cbn [app snd] in HR.
  eexists. split; [exact (SnapshotProps.stands_for_shows _ _ (BookManager.rep_book _ _ id HR))|].
  apply SnapshotProps.arrivals_of_ok, SnapshotProps.spec_events_ok; [by apply heard_typed, carried_typed|].
  intros id' os. by rewrite lookup_empty.
Qed.

(** The orders made of one side are not at the other. *)
Lemma orders_for_other side sd p n levels : sd ≠ side → filter (OrderBook.rests_at side p) (orders_for sd n levels) = [].
Proof. intros Hne. apply filter_none. intros o Ho [E _]. by rewrite (orders_for_side _ _ _ _ Ho) in E. Qed.

(** What the mirror was made of, at one side. *)
Lemma mirrored_side side n b bid_levels ask_levels : bid_levels = top Buy n b → ask_levels = top Sell n b →
  ∃ k, ∀ p, filter (OrderBook.rests_at side p) (orders_for Buy 1 bid_levels ++ orders_for Sell (1 + vsize bid_levels) ask_levels) =
    filter (OrderBook.rests_at side p) (orders_for side k (top side n b)).
Proof.
  intros -> ->. destruct side; eexists; intros p; rewrite filter_app.
  - by rewrite (orders_for_other Buy Sell), app_nil_r.
  - by rewrite (orders_for_other Sell Buy), app_nil_l.
Qed.

Lemma top_distinct side n b os : shows b os → NoDup (lv_price <$> top side n b).
Proof.
  intros [_ Hb]. destruct (Hb side) as (ps & Hs & _ & _ & Ht & _). rewrite Ht, <-fmap_take, <-list_fmap_compose.
  rewrite (list_fmap_ext _ id), list_fmap_id by done. by eapply BookViews.ahead_nodup, sorted_take.
Qed.

(** The document of a book read back: its levels. *)
Lemma fetched id b os n : shows b os → SnapshotProps.orders_ok os → 0 < Z.of_nat n < 2 ^ 62 →
  (∀ side level, level ∈ top side n b → lv_aggregate level ≠ 0) →
  ∃ mirror, fetch_book (Some (200, dump (JObject [("instrument_id", JNumber id);
      ("bids", JArray (level_to_json <$> top Buy n b)); ("asks", JArray (level_to_json <$> top Sell n b))]%string))) =
      Some (Some mirror) ∧
    ∀ side k, price_and_quantity <$> top side k mirror = price_and_quantity <$> top side (k `min` n) b.
Proof.
  intros Hb Hos Hn Hne.
  pose proof (shown_levels_ok Buy n b os Hb Hos (Hne Buy)) as Hbids.
  pose proof (shown_levels_ok Sell n b os Hb Hos (Hne Sell)) as Hasks.
  pose proof (top_short Buy n b). pose proof (top_short Sell n b).
  destruct (mirror_of_levels (top Buy n b) (top Sell n b) Hbids Hasks) as (next_id & b1 & next_id' & mirror & E1 & E2 & Hm); [lia|].
  exists mirror. split.
  - unfold fetch_book. rewrite parse_dump. cbn beta iota.
    rewrite (at_doc "bids" (JArray (level_to_json <$> top Buy n b))); [|by apply (bool_decide_unpack _)|set_solver].
    rewrite (at_doc "asks" (JArray (level_to_json <$> top Sell n b))); [|by apply (bool_decide_unpack _)|set_solver].
    cbn [base.mbind option_bind]. rewrite !items_doc, E1. cbn [base.mbind option_bind]. by rewrite E2.
  - intros side. destruct (mirrored_side side n b _ _ eq_refl eq_refl) as (j & Hj).
    apply (mirror_levels side n b os mirror _ Hb Hm).
    + intros p. rewrite <-(orders_for_elem side p (top side n b) j). specialize (Hj p). split; intros (o & Ho & Hr); exists o.
      * split; [|done]. assert (o ∈ filter (OrderBook.rests_at side p) (orders_for side j (top side n b))) as H3
          by (rewrite <-Hj; by apply list_elem_of_filter). by apply list_elem_of_filter in H3 as [_ H3].
      * split; [|done]. assert (o ∈ filter (OrderBook.rests_at side p) (orders_for side j (top side n b))) as H3
          by (by apply list_elem_of_filter). rewrite <-Hj in H3. by apply list_elem_of_filter in H3 as [_ H3].
    + intros v Hv. rewrite Hj, orders_for_total by (try done; by eapply top_distinct).
      pose proof (shown_levels_ok side n b os Hb Hos (Hne side)) as Hok. rewrite Forall_forall in Hok.
      destruct (Hok v Hv) as (_ & _ & Hq & _). by apply u64_small.
Qed.

(** C25: the strategy trades on what the exchange's feed says. After any run of the
    gateway on bytes, the book that the demonstration fetches from it has, at each side,
    the levels of the gateway's book that the document shows and no others, each with its
    price and its quantity; so it has the gateway's best bid and ask, with their
    quantities. Fetching changes nothing, and the strategy does with the book fetched what
    it would do with the gateway's own. The only levels the document could lose are those
    whose quantities add up to a multiple of 2^64. *)
Theorem strategy_sees_dashboard actions v s text a connects sent sends m :
  exec stoull stoul orders_in options actions (None, initial) = Some (v, s) →
  Forall (Forall in_u8) (UiGatewayProps.fed actions) →
  stoul text = Some (instrument_id a) → in_u32 (instrument_id a) → 0 < book_depth options < 2 ^ 62 →
  let b := BookManager.book_for (instrument_id a) (Replay.books (market_data_outcome_ s)) in
  (∀ side level, level ∈ top side (Z.to_nat (book_depth options)) b → lv_aggregate level ≠ 0) →
  let '(response, s') := serve stoull stoul orders_in options (GetBook text "") connects sent s in
  let answer := Some (status response, dump (content response)) in
  (∃ mirror, fetch_book answer = Some (Some mirror) ∧
    (∀ side, price_and_quantity <$> best side mirror = price_and_quantity <$> best side b) ∧
    ∀ side k, price_and_quantity <$> top side k mirror =
      price_and_quantity <$> top side (k `min` Z.to_nat (book_depth options)) b) ∧
  s' = s ∧ poll_book a sends answer m = Some (MarketMakerStrategy.on_book_update sends (instrument_id a) b m).
Proof.
  intros E Hbytes Ht Hid Hd b Hne. destruct (reached_book actions v s (instrument_id a) E Hbytes) as (os & Hb & Hos).
  fold b in Hb. set (n := Z.to_nat (book_depth options)) in *.
  destruct (fetched (instrument_id a) b os n Hb Hos) as (mirror & Ef & Hlevels); [lia|done|].
  assert (∀ side, price_and_quantity <$> best side mirror = price_and_quantity <$> best side b) as Hbest.
  { intros side. specialize (Hlevels side 1%nat). rewrite Nat.min_l in Hlevels by lia.
    by rewrite !best_of_top, <-!head_shown, Hlevels. }
  assert (serve stoull stoul orders_in options (GetBook text "") connects sent s =
    (ok_with (JObject [("instrument_id", JNumber (instrument_id a));
      ("bids", JArray (level_to_json <$> top Buy n b)); ("asks", JArray (level_to_json <$> top Sell n b))]%string), s)) as ->.
  { unfold serve, catching, handle_get_book, mbind, attempt, mget, mret. rewrite Ht, (u32_small _ Hid).
    cbn [bool_decide]. rewrite bool_decide_eq_true_2 by done. unfold levels_json, find_book, b, BookManager.book_for, BookManager.find_book.
    destruct (BookManager.books_ _ !! _); [done|]. by rewrite !top_empty. }
  cbn zeta. cbn [status content ok_with]. split; [by exists mirror|]. split; [done|]. unfold poll_book. rewrite Ef.
  cbn [base.mbind option_bind]. f_equal. apply decides_by_best; by rewrite !best_price, Hbest.
Qed.
End demo.

(** *** A library that obeys the laws

    A document is printed as the bits of its code. *)

Fixpoint to_bits (p : positive) : string :=
  match p with xH => "" | xO p => String Ascii.zero (to_bits p) | xI p => String Ascii.one (to_bits p) end.

Fixpoint of_bits (s : string) : option positive :=
  match s with
  | EmptyString => Some xH
  | String c s => p ← of_bits s; if Ascii.eqb c Ascii.zero then Some (xO p) else Some (xI p)
  end.

Abbreviation Leaf := (bool + Z + string)%type.

Fixpoint tree_of (j : json) : gen_tree Leaf :=
  match j with
  | JNull => GenNode 0 []
  | JBool b => GenLeaf (inl (inl b))
  | JNumber n => GenLeaf (inl (inr n))
  | JString s => GenLeaf (inr s)
  | JArray l => GenNode 1 (map tree_of l)
  | JObject fields => GenNode 2 (map (λ f, match f with (k, j) => GenNode 3 [GenLeaf (inr k); tree_of j] end) fields)
  end.

Fixpoint of_tree (x : gen_tree Leaf) : json :=
  match x with
  | GenLeaf (inl (inl b)) => JBool b
  | GenLeaf (inl (inr n)) => JNumber n
  | GenLeaf (inr s) => JString s
  | GenNode 1 l => JArray (map of_tree l)
  | GenNode 2 l => JObject (map (λ x, match x with
      | GenNode 3 [GenLeaf (inr k); y] => (k, of_tree y)
      | _ => (""%string, JNull) end) l)
  | GenNode _ _ => JNull
  end.

Lemma of_to_bits p : of_bits (to_bits p) = Some p.
Proof. induction p as [p IH|p IH|]; cbn; by rewrite ?IH. Qed.

Lemma of_tree_of : ∀ j, of_tree (tree_of j) = j.
Proof.
  fix IH 1. intros [|b|n|s|l|fields]; cbn; try done; f_equal.
  - induction l as [|j l IHl]; cbn; [done|]. by rewrite IH, IHl.
  - induction fields as [|[k j] fields IHf]; cbn; [done|]. by rewrite IH, IHf.
Qed.

#[local] Instance lawful_library : JsonLibrary := {|
  document := json;
  parse text := of_tree <$> (of_bits text ≫= decode);
  at_ := UiGatewayProps.field;
  contains name d := match UiGatewayProps.field name d with Some _ => true | None => false end;
  get_string d := match d with JString s => Some s | _ => None end;
  get_u64 d := match d with JNumber n => Some (u64 n) | _ => None end;
  get_u32 d := match d with JNumber n => Some (u32 n) | _ => None end;
  get_i64 d := match d with JNumber n => Some (i64 n) | _ => None end;
  items d := match d with JArray l => l | _ => [] end;
  dump j := to_bits (encode (tree_of j));
|}.

#[local] Instance lawful : JsonLaws.
Proof.
  refine {| doc := (λ j, j) : json → document |}.
  - intros j. cbn. rewrite of_to_bits. cbn. rewrite decode_encode. cbn. by rewrite of_tree_of.
  - intros k j fields Hnd Hin. cbn. induction fields as [|[k' j'] fields IH]; [by apply not_elem_of_nil in Hin|].
    apply NoDup_cons in Hnd as [Hk Hnd]. rewrite filter_cons. cbn [fst]. case_decide as E.
    + subst k'. apply elem_of_cons in Hin as [[= ->]|Hin]; [done|]. destruct Hk. by apply (list_elem_of_fmap_2 fst) in Hin.
    + apply IH; [done|]. by apply elem_of_cons in Hin as [[= -> ->]|Hin].
  - intros l. cbn. by rewrite list_fmap_id.
  - intros n Hn. cbn. by rewrite i64_small.
  - intros n Hn. cbn. by rewrite u64_small.
Defined.

(** A bid and an offer arrive; the strategy then quotes around them. *)
Definition sample_actions : list action :=
  [Feed [Packet.pack_frames 1 [MarketDataCodec.MAdd (MarketDataCodec.mkAddOrder 1 10 100 1 250 5 Buy);
     MarketDataCodec.MAdd (MarketDataCodec.mkAddOrder 2 11 101 1 260 4 Sell)]]].

Definition sample_state : option Z * t :=
  default (None, initial) (exec UiGatewayProps.sample_number UiGatewayProps.sample_number UiGatewayProps.sample_orders
    ServerProps.sample_options sample_actions (None, initial)).

Lemma strategy_sees_dashboard_witness :
  exec UiGatewayProps.sample_number UiGatewayProps.sample_number UiGatewayProps.sample_orders
    ServerProps.sample_options sample_actions (None, initial) = Some sample_state ∧
  let b := BookManager.book_for 1 (Replay.books (market_data_outcome_ sample_state.2)) in
  OrderBook.best_bid b ≠ None ∧
  let '(response, s') := serve UiGatewayProps.sample_number UiGatewayProps.sample_number UiGatewayProps.sample_orders
    ServerProps.sample_options (GetBook "1" "") true true sample_state.2 in
  let answer := Some (status response, dump (content response)) in
  (∃ mirror, fetch_book answer = Some (Some mirror) ∧
    (∀ side, price_and_quantity <$> best side mirror = price_and_quantity <$> best side b) ∧
    ∀ side k, price_and_quantity <$> top side k mirror =
      price_and_quantity <$> top side (k `min` Z.to_nat (book_depth ServerProps.sample_options)) b) ∧
  s' = sample_state.2 ∧ poll_book default_args (λ _, true) answer (set_up default_args) =
    Some (MarketMakerStrategy.on_book_update (λ _, true) 1 b (set_up default_args)).
Proof.
  assert (exec UiGatewayProps.sample_number UiGatewayProps.sample_number UiGatewayProps.sample_orders
    ServerProps.sample_options sample_actions (None, initial) = Some (sample_state.1, sample_state.2)) as E by by vm_compute.
  assert (Forall (Forall in_u8) (UiGatewayProps.fed sample_actions)) as Hb.
  { apply (bool_decide_unpack _). by vm_compute. }
  split; [vm_compute; reflexivity|]. split; [by vm_compute|].
  refine (strategy_sees_dashboard _ _ _ _ sample_actions _ _ "1" default_args true true
    (λ _, true) (set_up default_args) E Hb _ _ _ _).
  - reflexivity.
  - by split.
  - by split.
  - intros side level Hl.
    assert (Forall (λ level, lv_aggregate level ≠ 0) (top side 10 (BookManager.book_for 1
      (Replay.books (market_data_outcome_ sample_state.2))))) as Hf.
    { apply (bool_decide_unpack _). destruct side; vm_compute; reflexivity. }
    rewrite Forall_forall in Hf. exact (Hf level Hl).
Defined.
End DemoProps.
