(* ===== verification/Text.v ===== *)
(** * A string of characters ([string.cpp], Module Text), and that it is a text (Module TextProps)

    Storage from [new char[n]] is a block of characters, each indeterminate until it is
    written; it is on the heap of [Vector], with the three members of a [String] in the
    client's variables, and an allocation throws where [faults] says so. A [const char*] is
    the characters before its terminator. What [begin] and [end] delimit is read by the
    loops that use them; a stream is the characters it still has. *)

From Stdlib Require Import Ascii String.
From S2P Require Import Prelude Vector.

Module Text.
Import Vector.

(** The value of an [int] made from a wider integer. *)
Definition i32 (z : Z) : Z := (z + 2 ^ 31) mod 2 ^ 32 - 2 ^ 31.

Section text.
Context (alloc : gset nat → nat).

Abbreviation Mem X := (M (A := ascii) X).

(** [new char[n]], [delete[] p] and [p[i] = c]. *)
Definition new_chars (n : Z) : Mem nat := new_array alloc 1 n.

Definition release (p : option nat) : Mem unit := λ s,
  match p with
  | None => Done () s
  | Some p => match blocks s !! p with Some _ => Done () (set_blocks (delete p (blocks s)) s) | None => Undefined end
  end.

Definition write (p : option nat) (i : Z) (c : ascii) : Mem unit := λ s,
  match slot p i s with Some _ => Done () (set_slot p i (Some c) s) | None => Undefined end.

(** A loop that writes what it reads, from index [i] on. *)
Fixpoint fill (p : option nat) (i : nat) (srcs : list (Mem ascii)) : Mem unit :=
  match srcs with
  | [] => mret ()
  | src :: srcs => c ← src; write p (Z.of_nat i) c;; fill p (S i) srcs
  end.

(** The characters of a string, and a literal. *)
Definition chars_of (v : Vec) : list (Mem ascii) := (λ i, read (m_data v) (Z.of_nat i)) <$> seq 0 (Z.to_nat (m_size v)).

Definition literal (cs : list ascii) : list (Mem ascii) := mret <$> cs.

(** An index of type [int] that counts to [n]. *)
Definition int_loop (n : Z) : Mem unit := if n <? 2 ^ 31 then mret () else undefined.

Definition get_capacity (v : Vec) : Z := Z.max (u64 (2 * m_capacity v)) 1.

Definition initialize_string (x : nat) (srcs : list (Mem ascii)) (n : Z) : Mem unit :=
  v ← get x;
  release (m_data v);;
  p ← new_chars n;
  put x (mkVec (m_size v) (m_capacity v) (Some p));;
  fill (Some p) 0 srcs;;
  put x (mkVec n n (Some p)).

(** A constructor that throws makes no object: its destructor is not run. *)
Definition constructor (x : nat) (body : Mem unit) : Mem unit :=
  put x empty_vec;; catch body (λ e, drop x;; throw e).

Definition from_text (x : nat) (str : list ascii) : Mem unit :=
  constructor x (initialize_string x (literal str) (vsize str)).

Definition from_char (x : nat) (ch : ascii) : Mem unit :=
  constructor x (p ← new_chars 1; write (Some p) 0 ch;; put x (mkVec 1 1 (Some p))).

Definition copy_construct (x y : nat) : Mem unit :=
  constructor x (str ← get y; initialize_string x (chars_of str) (m_size str)).

Definition copy_assign (x y : nat) : Mem unit :=
  if decide (x = y) then mret () else
  str ← get y;
  initialize_string x (chars_of str) (m_size str).

Definition assign_text (x : nat) (str : list ascii) : Mem unit := initialize_string x (literal str) (vsize str).

Definition move_construct (x y : nat) : Mem unit :=
  str ← get y;
  put y empty_vec;;
  put x str.

Definition move_assign (x y : nat) : Mem unit :=
  if decide (x = y) then mret () else
  v ← get x;
  release (m_data v);;
  str ← get y;
  put y empty_vec;;
  put x str.

(** [~String()]. *)
Definition destroy (x : nat) : Mem unit := v ← get x; drop x;; release (m_data v).

(** The loop of the comparisons. *)
Fixpoint same_chars (ls rs : list (Mem ascii)) : Mem bool :=
  match ls, rs with
  | l :: ls, r :: rs => a ← l; b ← r; if bool_decide (a = b) then same_chars ls rs else mret false
  | _, _ => mret true
  end.

Definition equal (x y : nat) : Mem bool :=
  v ← get x;
  str ← get y;
  if negb (m_size v =? m_size str) then mret false
  else int_loop (m_size str);; same_chars (chars_of v) (chars_of str).

Definition equal_text (x : nat) (str : list ascii) : Mem bool :=
  v ← get x;
  if negb (m_size v =? vsize str) then mret false
  else int_loop (vsize str);; same_chars (chars_of v) (literal str).

Definition size (x : nat) : Mem Z := v ← get x; mret (m_size v).
Definition capacity (x : nat) : Mem Z := v ← get x; mret (m_capacity v).

Definition reserve (x : nat) (n : Z) : Mem unit :=
  v ← get x;
  if n <=? m_size v then mret ()
  else
    p ← new_chars n;
    int_loop (m_size v);;
    fill (Some p) 0 (chars_of v);;
    release (m_data v);;
    put x (mkVec (m_size v) n (Some p)).

Definition resize (x : nat) (n : Z) (ch : ascii) : Mem unit :=
  v ← get x;
  (if m_size v <? n
   then reserve x n;; w ← get x;
        fill (m_data w) (Z.to_nat (m_size w)) (replicate (Z.to_nat (n - m_size w)) (mret ch))
   else mret ());;
  w ← get x;
  put x (mkVec n (m_capacity w) (m_data w)).

Definition push_back (x : nat) (ch : ascii) : Mem unit :=
  v ← get x;
  (if m_size v =? m_capacity v then reserve x (get_capacity v) else mret ());;
  w ← get x;
  write (m_data w) (m_size w) ch;;
  put x (mkVec (u64 (m_size w + 1)) (m_capacity w) (m_data w)).

Definition pop_back (x : nat) : Mem unit :=
  v ← get x;
  if m_size v =? 0 then mret () else put x (mkVec (u64 (m_size v - 1)) (m_capacity v) (m_data v)).

(** [x[i]] as a value, and [x[i] = c]. *)
Definition at_ (x : nat) (i : Z) : Mem ascii := v ← get x; read (m_data v) i.
Definition set_at (x : nat) (i : Z) (c : ascii) : Mem unit := v ← get x; write (m_data v) i c.

(** [access], whose index is an [int]. *)
Definition access (x : nat) (index : Z) : Mem ascii :=
  v ← get x;
  if (index <? 0) || (m_size v <=? u64 index) then throw OutOfRange else at_ x (u64 index).

Definition front (x : nat) : Mem ascii := access x 0.
Definition back (x : nat) : Mem ascii := v ← get x; access x (i32 (u64 (m_size v - 1))).

(** The characters from [begin] to [end], and what [<<] prints. *)
Fixpoint gather (srcs : list (Mem ascii)) : Mem (list ascii) :=
  match srcs with [] => mret [] | src :: srcs => c ← src; cs ← gather srcs; mret (c :: cs) end.

Definition print (x : nat) : Mem (list ascii) := v ← get x; gather (chars_of v).

Fixpoint push_all (x : nat) (srcs : list (Mem ascii)) : Mem unit :=
  match srcs with [] => mret () | src :: srcs => c ← src; push_back x c;; push_all x srcs end.

(** [operator+]: [x] is its [result], which is destroyed when it is left by an exception. *)
Definition plus (x y : nat) (srcs : list (Mem ascii)) : Mem unit :=
  copy_construct x y;; catch (push_all x srcs) (λ e, destroy x;; throw e).

Definition plus_string (x y z : nat) : Mem unit := str ← get z; plus x y (chars_of str).
Definition plus_text (x y : nat) (str : list ascii) : Mem unit := plus x y (literal str).
Definition plus_char (x y : nat) (ch : ascii) : Mem unit := plus x y (literal [ch]).

(** The name of a temporary. *)
Definition temporary : Mem nat := λ s, Done (fresh (dom (vars s))) s.

(** [operator+=]: [*this = *this + str]. *)
Definition plus_assign (x : nat) (sum : nat → Mem unit) : Mem unit :=
  t ← temporary;
  sum t;;
  move_assign x t;;
  destroy t.

Definition plus_assign_string (x y : nat) : Mem unit := plus_assign x (λ t, plus_string t x y).
Definition plus_assign_text (x : nat) (str : list ascii) : Mem unit := plus_assign x (λ t, plus_text t x str).
Definition plus_assign_char (x : nat) (ch : ascii) : Mem unit := plus_assign x (λ t, plus_char t x ch).

(** [std::isspace] of a [char], which is signed: no negative value is allowed. *)
Definition isspace (ch : ascii) : Mem bool :=
  let code := Z.of_N (N_of_ascii ch) in
  if 127 <? code then undefined else mret ((9 <=? code) && (code <=? 13) || (code =? 32)).

(** [while (in.get(ch) && std::isspace(ch)) {}]: the character that ended it, if [in] did not. *)
Fixpoint skip_spaces (input : list ascii) : Mem (option ascii * list ascii) :=
  match input with
  | [] => mret (None, [])
  | ch :: input => sp ← isspace ch; if sp : bool then skip_spaces input else mret (Some ch, input)
  end.

(** The [do] loop: what is left of the stream, and whether it is still good. *)
Fixpoint take_word (x : nat) (ch : ascii) (input : list ascii) : Mem (list ascii * bool) :=
  push_back x ch;;
  match input with
  | [] => mret ([], false)
  | ch :: input => sp ← isspace ch; if sp : bool then mret (input, true) else take_word x ch input
  end.

(** [in >> x]. *)
Definition extract (x : nat) (input : list ascii) : Mem (list ascii * bool) :=
  assign_text x [];;
  '(ch, input) ← skip_spaces input;
  match ch with None => mret ([], false) | Some ch => take_word x ch input end.
End text.
End Text.

(** * A [String] is a text *)

Module TextProps.
Import Vector Text.

(** ** Computations that may throw *)

Section wp.
Context {A : Type}.
Implicit Types (s : t (A := A)) (E : exn → t (A := A) → Prop).

Definition wp {X} (m : M X) (Q : X → t → Prop) E s : Prop :=
  match m s with Done x s' => Q x s' | Thrown e s' => E e s' | Undefined => False end.

Lemma heap_wp_done {X} (m : M X) (Q : X → t → Prop) E s x s' : m s = Done x s' → Q x s' → wp m Q E s.
Proof. unfold wp. by intros ->. Qed.

Lemma heap_wp_ret {X} (x : X) (Q : X → t → Prop) E s : Q x s → wp (mret x) Q E s.
Proof. done. Qed.

Lemma heap_wp_bind {X Y} (m : M X) (k : X → M Y) (Q : Y → t → Prop) E s :
  wp m (λ x, wp (k x) Q E) E s → wp (m ≫= k) Q E s.
Proof. unfold wp. unfold mbind at 1, M_bind at 1. by destruct (m s). Qed.

Lemma heap_wp_catch {X} (m : M X) (h : exn → M X) (Q : X → t → Prop) E s :
  wp m Q (λ e, wp (h e) Q E) s → wp (catch m h) Q E s.
Proof. unfold wp, catch. by destruct (m s). Qed.

Lemma heap_wp_mono {X} (m : M X) (Q Q' : X → t → Prop) E E' s :
  wp m Q E s → (∀ x s', Q x s' → Q' x s') → (∀ e s', E e s' → E' e s') → wp m Q' E' s.
Proof. unfold wp. destruct (m s); auto. Qed.

Lemma heap_wp_get x v (Q : Vec → t → Prop) E s : vars s !! x = Some v → Q v s → wp (get x) Q E s.
Proof. intros Hx. apply heap_wp_done. unfold get. by rewrite Hx. Qed.

Definition set_vars (V : gmap nat Vec) s : t := mk (blocks s) V (faults s) (lost s).

Lemma heap_wp_put x v (Q : unit → t → Prop) E s : Q () (set_vars (<[x := v]> (vars s)) s) → wp (put x v) Q E s.
Proof. done. Qed.

Lemma heap_wp_drop x (Q : unit → t → Prop) E s : Q () (set_vars (delete x (vars s)) s) → wp (drop x) Q E s.
Proof. done. Qed.
End wp.

Section texts.
Context (alloc : gset nat → nat) (Ha : ∀ X, alloc X ∉ X).
Implicit Types (s : t (A := ascii)) (l cs : list ascii) (v w : Vec) (m : gmap nat (list ascii)) (x y p : nat).
Implicit Types (E : exn → t (A := ascii) → Prop).

(** ** Blocks of characters *)

(** Sources that are read without a change. *)
Definition reading s (srcs : list (M ascii)) l : Prop := Forall2 (λ src c, src s = Done c s) srcs l.

Lemma reading_literal s cs : reading s (literal cs) cs.
Proof. unfold reading, literal. induction cs; by constructor. Qed.

Lemma reading_repeat s n c : reading s (replicate n (mret c)) (replicate n c).
Proof. unfold reading. induction n; by constructor. Qed.

(** A string with the characters [l]. *)
Definition rep (b : gmap nat (list (option ascii))) v l : Prop :=
  m_size v = vsize l ∧ vsize l ≤ m_capacity v ∧
  match m_data v with
  | None => m_capacity v = 0
  | Some p => ∃ rest, b !! p = Some ((Some <$> l) ++ rest) ∧ vsize l + vsize rest = m_capacity v
  end.

Lemma rep_no_text b : rep b empty_vec [].
Proof. done. Qed.

Lemma rep_same b b' v l : rep b v l → (∀ p, m_data v = Some p → b' !! p = b !! p) → rep b' v l.
Proof. intros (H1 & H2 & H3) Hb. split; [done|]. split; [done|]. destruct (m_data v) as [p|]; [|done]. by rewrite Hb. Qed.

Lemma reading_chars s v l : rep (blocks s) v l → reading s (chars_of v) l.
Proof.
  intros (Hs & Hc & Hd). unfold chars_of, reading. rewrite Hs. unfold vsize. rewrite Nat2Z.id.
  apply Forall2_same_length_lookup_2; [by rewrite length_fmap, length_seq|].
  intros i src c Hsrc Hi. rewrite list_lookup_fmap in Hsrc. pose proof (lookup_lt_Some _ _ _ Hi) as Hlt.
  rewrite lookup_seq_lt in Hsrc by done. injection Hsrc as <-. unfold vsize in *. destruct (m_data v) as [p|]; [|lia].
  destruct Hd as (rest & Hp & _). unfold read, slot. cbn [mbind option_bind]. rewrite Hp. cbn [mbind option_bind].
  assert (vget ((Some <$> l) ++ rest) (Z.of_nat i) = Some (Some c)) as ->; [|done].
  apply vget_Some. split; [lia|]. rewrite Nat2Z.id, lookup_app_l by (by rewrite length_fmap). by rewrite list_lookup_fmap, Hi.
Qed.

Lemma write_eq s p l o rest c : blocks s !! p = Some ((Some <$> l) ++ o :: rest) →
  write (Some p) (Z.of_nat (length l)) c s = Done () (set_blocks (<[p := (Some <$> l ++ [c]) ++ rest]> (blocks s)) s).
Proof.
  intros Hp. unfold write, slot, set_slot. cbn [mbind option_bind]. rewrite Hp. cbn [mbind option_bind].
  assert (vget ((Some <$> l) ++ o :: rest) (Z.of_nat (length l)) = Some o) as ->.
  { apply vget_Some. split; [lia|]. rewrite Nat2Z.id, lookup_app_r by (by rewrite length_fmap).
    by rewrite length_fmap, Nat.sub_diag. }
  do 2 f_equal. apply map_eq. intros q. destruct (decide (q = p)) as [->|Hq].
  - rewrite lookup_alter_eq, lookup_insert_eq, Hp. cbn. f_equal. unfold vput. rewrite Nat2Z.id, fmap_app, <-(assoc_L (++)).
    rewrite insert_app_r_alt by (by rewrite length_fmap). by rewrite length_fmap, Nat.sub_diag.
  - by rewrite lookup_alter_ne, lookup_insert_ne.
Qed.

Lemma fill_eq p srcs cs : ∀ s l rest, blocks s !! p = Some ((Some <$> l) ++ rest) → (length cs ≤ length rest)%nat →
  (∀ blk, reading (set_blocks (<[p := blk]> (blocks s)) s) srcs cs) →
  fill (Some p) (length l) srcs s =
    Done () (set_blocks (<[p := (Some <$> l ++ cs) ++ list.drop (length cs) rest]> (blocks s)) s).
Proof.
  revert srcs. induction cs as [|c cs IH]; intros srcs s l rest Hp Hl Hr.
  { pose proof (Hr []) as Hn. inversion Hn. cbn. rewrite app_nil_r, insert_id by done. by destruct s. }
  destruct srcs as [|src srcs]; [pose proof (Hr []) as Hn; by inversion Hn|]. destruct rest as [|o rest]; [by cbn in Hl; lia|].
  cbn [fill]. assert (src s = Done c s) as Hsrc.
  { specialize (Hr ((Some <$> l) ++ o :: rest)). rewrite insert_id in Hr by done. destruct s. by inversion Hr. }
  unfold mbind at 1, M_bind at 1. rewrite Hsrc. unfold mbind at 1, M_bind at 1. rewrite (write_eq s p l o rest c) by done.
  set (s1 := set_blocks _ s). pose proof (IH srcs s1 (l ++ [c]) rest) as IH'. rewrite length_app, Nat.add_1_r in IH'.
  rewrite IH'.
  - unfold s1, set_blocks. cbn [blocks vars faults lost length list.drop]. by rewrite insert_insert_eq, <-(assoc_L (++)).
  - apply lookup_insert_eq.
  - cbn in Hl. lia.
  - intros blk. specialize (Hr blk). inversion Hr. unfold s1, set_blocks in *. cbn [blocks vars faults lost] in *.
    by rewrite insert_insert_eq.
Qed.

Lemma heap_wp_new n (Q : nat → t → Prop) E s : 0 ≤ n < 2 ^ 64 →
  (∀ p f, blocks s !! p = None → (faults s = [] → f = []) →
     Q p (set_faults f (set_blocks (<[p := replicate (Z.to_nat n) None]> (blocks s)) s))) →
  (∀ f, faults s ≠ [] → E BadAlloc (set_faults f s)) →
  wp (new_chars alloc n) Q E s.
Proof.
  intros Hn HQ HE. unfold new_chars, new_array, wp, mbind, M_bind, fallible, take_block.
  assert (u64 (1 * n) / 1 = n) as Hu by (rewrite Z.div_1_r, Z.mul_1_l; by apply u64_small).
  assert (blocks s !! alloc (dom (blocks s)) = None) as Hp by apply not_elem_of_dom, Ha.
  destruct (faults s) as [|[] f] eqn:Ef; rewrite ?Hu.
  - pose proof (HQ _ [] Hp (λ _, eq_refl)) as H. unfold set_faults, set_blocks in *. cbn in *. by rewrite Ef.
  - by apply HE.
  - by apply (HQ _ f Hp).
Qed.

Lemma wp_release p blk (Q : unit → t → Prop) E s : blocks s !! p = Some blk →
  Q () (set_blocks (delete p (blocks s)) s) → wp (release (Some p)) Q E s.
Proof. intros Hp. apply heap_wp_done. unfold release. by rewrite Hp. Qed.

(** ** The strings of a client *)

(** The block of a variable. *)
Definition own s x : option nat := vars s !! x ≫= m_data.

(** Each variable has its text in a block of its own, and there are no other blocks. *)
Record ok m s : Prop := {
  ok_dom : ∀ x, vars s !! x = None ↔ m !! x = None;
  ok_rep : ∀ x v l, vars s !! x = Some v → m !! x = Some l → rep (blocks s) v l;
  ok_apart : ∀ x y p, own s x = Some p → own s y = Some p → x = y;
  ok_owned : ∀ p, is_Some (blocks s !! p) → ∃ x, own s x = Some p;
}.

Lemma ok_get m s x l : ok m s → m !! x = Some l → ∃ v, vars s !! x = Some v ∧ rep (blocks s) v l.
Proof.
  intros HO Hx. destruct (vars s !! x) as [v|] eqn:Hv; [|apply HO in Hv; congruence].
  exists v. split; [done|]. by eapply ok_rep.
Qed.

Lemma ok_own m s x p : ok m s → own s x = Some p → is_Some (blocks s !! p).
Proof.
  intros HO Hp. unfold own in Hp. destruct (vars s !! x) as [v|] eqn:Hv; [|done].
  destruct (m !! x) as [l|] eqn:Hl; [|apply HO in Hl; congruence].
  destruct (ok_rep _ _ HO x v l Hv Hl) as (_ & _ & Hd). cbn in Hp. rewrite Hp in Hd. destruct Hd as (rest & -> & _). by eexists.
Qed.

(** Every variable but [x] is as it was, with its block. *)
Definition frame x s s' : Prop := ∀ y v, y ≠ x → vars s !! y = Some v →
  vars s' !! y = Some v ∧ ∀ p, m_data v = Some p → blocks s' !! p = blocks s !! p.

#[global] Instance frame_preorder x : PreOrder (frame x).
Proof.
  split; [done|]. intros s1 s2 s3 H12 H23 y v Hy Hv. destruct (H12 y v Hy Hv) as [Hv2 Hb2].
  destruct (H23 y v Hy Hv2) as [Hv3 Hb3]. split; [done|]. intros p Hp. by rewrite Hb3, Hb2.
Qed.

(** What else a state has is as it was, but for what throws. *)
Lemma ok_faults m s f : ok m s → ok m (set_faults f s).
Proof. intros [H1 H2 H3 H4]. by split. Qed.

Lemma own_set s b f g x v y : own (mk b (<[x := v]> (vars s)) f g) y = if decide (x = y) then m_data v else own s y.
Proof. unfold own. cbn. case_decide; [subst; by rewrite lookup_insert_eq|by rewrite lookup_insert_ne]. Qed.

(** No other variable has the block of [x], nor one that is new. *)
Lemma others_apart m s x y v w p : ok m s → y ≠ x → vars s !! y = Some w → m_data w = Some p →
  (∀ p, m_data v = Some p → own s x = Some p ∨ blocks s !! p = None) → own s x ≠ Some p ∧ m_data v ≠ Some p.
Proof.
  intros HO Hy Hw Hp Hnew. assert (own s y = Some p) as Ho by (unfold own; by rewrite Hw).
  assert (own s x ≠ Some p) as Hx by (intros Hx; by apply Hy; eapply ok_apart). split; [done|]. intros Hv.
  destruct (Hnew p Hv) as [|Hn]; [done|]. destruct (ok_own m s y p HO Ho) as [? ?]. congruence.
Qed.

(** One variable has a new text, in its old block or in a new one. *)
Lemma ok_set m s x v l b f g : ok m s → rep b v l →
  (∀ p, own s x ≠ Some p → m_data v ≠ Some p → b !! p = blocks s !! p) →
  (∀ p, m_data v = Some p → own s x = Some p ∨ blocks s !! p = None) →
  (∀ p, own s x = Some p → m_data v ≠ Some p → b !! p = None) →
  ok (<[x := l]> m) (mk b (<[x := v]> (vars s)) f g) ∧ frame x s (mk b (<[x := v]> (vars s)) f g).
Proof.
  intros HO Hr Hsame Hnew Hgone.
  pose proof (λ y w p Hy Hw Hp, others_apart m s x y v w p HO Hy Hw Hp Hnew) as Hne. split; [split|].
  - intros y. cbn. destruct (decide (x = y)) as [->|Hxy]; [by rewrite !lookup_insert_eq|].
    rewrite !lookup_insert_ne by done. apply HO.
  - intros y w k Hw Hk. cbn in *. destruct (decide (x = y)) as [->|Hxy].
    { rewrite lookup_insert_eq in Hw; rewrite lookup_insert_eq in Hk. by simplify_eq. }
    rewrite lookup_insert_ne in Hw by done; rewrite lookup_insert_ne in Hk by done. eapply rep_same; [by eapply ok_rep|].
    intros p Hp. destruct (Hne y w p) as [H1 H2]; [done..|]. by apply Hsame.
  - assert (∀ y p, x ≠ y → own s y = Some p → m_data v ≠ Some p) as Hv.
    { intros y p Hy Ho. unfold own in Ho. apply bind_Some in Ho as (w & Hw & Hp). by eapply Hne. }
    intros y z p. rewrite !own_set. do 2 case_decide; subst; [done|..]; intros H1 H2; [by destruct (Hv z p)|by destruct (Hv y p)|].
    by eapply ok_apart.
  - intros p Hp. cbn in Hp. destruct (decide (m_data v = Some p)) as [Hv|Hv].
    { exists x. rewrite own_set. by rewrite decide_True. }
    destruct (decide (own s x = Some p)) as [Hx|Hx]; [rewrite Hgone in Hp by done; by destruct Hp|].
    rewrite Hsame in Hp by done. destruct (ok_owned _ _ HO p Hp) as [y Hy]. exists y. rewrite own_set.
    rewrite decide_False; [done|]. by intros ->.
  - intros y w Hy Hw. cbn. split; [by rewrite lookup_insert_ne|]. intros p Hp. destruct (Hne y w p) as [H1 H2]; [done..|]. by apply Hsame.
Qed.

(** The same, when it keeps its block. *)
Lemma ok_in_place m s x v v' l b f g : ok m s → vars s !! x = Some v → m_data v' = m_data v → rep b v' l →
  (∀ p, m_data v ≠ Some p → b !! p = blocks s !! p) →
  ok (<[x := l]> m) (mk b (<[x := v']> (vars s)) f g) ∧ frame x s (mk b (<[x := v']> (vars s)) f g).
Proof.
  intros HO Hv Hd Hr Hb. assert (own s x = m_data v) as Ho by (unfold own; by rewrite Hv).
  apply ok_set; [done..| | |]; rewrite ?Ho, ?Hd; [auto|by left|done].
Qed.

(** A variable is gone, with its block. *)
Lemma ok_gone m s x b f g : ok m s → (∀ p, own s x ≠ Some p → b !! p = blocks s !! p) →
  (∀ p, own s x = Some p → b !! p = None) → ok (delete x m) (mk b (delete x (vars s)) f g).
Proof.
  intros HO Hsame Hgone.
  assert (∀ y, own (mk b (delete x (vars s)) f g) y = if decide (x = y) then None else own s y) as Ho.
  { intros y. unfold own. cbn. case_decide; [subst; by rewrite lookup_delete_eq|by rewrite lookup_delete_ne]. }
  split.
  - intros y. cbn. destruct (decide (x = y)) as [->|Hxy]; [by rewrite !lookup_delete_eq|].
    rewrite !lookup_delete_ne by done. apply HO.
  - intros y w k Hw Hk. cbn in *. apply lookup_delete_Some in Hw as [Hxy Hw], Hk as [_ Hk].
    eapply rep_same; [by eapply ok_rep|]. intros p Hp. apply Hsame. intros Hx. apply Hxy.
    eapply (ok_apart m s); [done..|]. unfold own. by rewrite Hw.
  - intros y z p. rewrite !Ho. do 2 case_decide; try done. by eapply ok_apart.
  - intros p Hp. cbn in Hp. destruct (decide (own s x = Some p)) as [Hx|Hx]; [rewrite Hgone in Hp by done; by destruct Hp|].
    rewrite Hsame in Hp by done. destruct (ok_owned _ _ HO p Hp) as [y Hy]. exists y. rewrite Ho.
    rewrite decide_False; [done|]. by intros ->.
Qed.

(** A text moves to a variable that has no block. *)
Lemma ok_move m s x y v l f g : ok m s → x ≠ y → own s x = None → vars s !! y = Some v → m !! y = Some l →
  ok (<[x := l]> (<[y := []]> m)) (mk (blocks s) (<[x := v]> (<[y := empty_vec]> (vars s))) f g).
Proof.
  intros HO Hxy Hx Hy Hl.
  assert (∀ z, own (mk (blocks s) (<[x := v]> (<[y := empty_vec]> (vars s))) f g) z =
    if decide (x = z) then own s y else if decide (y = z) then None else own s z) as Ho.
  { intros z. unfold own. cbn. destruct (decide (x = z)) as [->|Hxz]; [by rewrite lookup_insert_eq, Hy|].
    rewrite lookup_insert_ne by done. case_decide; [subst; by rewrite lookup_insert_eq|by rewrite lookup_insert_ne]. }
  split.
  - intros z. cbn. destruct (decide (x = z)) as [->|Hxz]; [by rewrite !lookup_insert_eq|].
    rewrite !(lookup_insert_ne _ x) by done. destruct (decide (y = z)) as [->|Hyz]; [by rewrite !lookup_insert_eq|].
    rewrite !lookup_insert_ne by done. apply HO.
  - intros z w k Hw Hk. cbn in *. destruct (decide (x = z)) as [->|Hxz].
    { rewrite lookup_insert_eq in Hw; rewrite lookup_insert_eq in Hk. simplify_eq. by eapply ok_rep. }
    rewrite (lookup_insert_ne _ x) in Hw by done; rewrite (lookup_insert_ne _ x) in Hk by done. destruct (decide (y = z)) as [->|Hyz].
    { rewrite lookup_insert_eq in Hw; rewrite lookup_insert_eq in Hk. by simplify_eq. }
    rewrite lookup_insert_ne in Hw by done; rewrite lookup_insert_ne in Hk by done. by eapply ok_rep.
  - intros z z' p. rewrite !Ho. intros E1 E2.
    repeat case_decide; simplify_eq; try done.
    all: try (by eapply ok_apart). all: exfalso; match goal with H : ?y ≠ ?z, _ : own _ ?y = Some _, _ : own _ ?z = Some _ |- _ => apply H end; by eapply ok_apart.
  - intros p Hp. destruct (ok_owned _ _ HO p Hp) as [z Hz]. destruct (decide (y = z)) as [->|Hyz].
    + exists x. rewrite Ho. by rewrite decide_True.
    + exists z. rewrite Ho. rewrite !decide_False; [done..|]. by intros ->; congruence.
Qed.

(** The block of a variable is freed. *)
Lemma free_spec m s x v : ok m s → vars s !! x = Some v → ∃ b,
  (∀ p, own s x ≠ Some p → b !! p = blocks s !! p) ∧ (∀ p, own s x = Some p → b !! p = None) ∧
  (own s x = None → b = blocks s) ∧ ∀ s', blocks s' = blocks s → release (m_data v) s' = Done () (set_blocks b s').
Proof.
  intros HO Hv. assert (own s x = m_data v) as Ho by (unfold own; by rewrite Hv). rewrite Ho.
  destruct (m_data v) as [q|].
  2: { exists (blocks s). split_and!; [done..|]. intros s' <-. by destruct s'. }
  destruct (ok_own m s x q HO Ho) as [blk Hq].
  exists (delete q (blocks s)). split_and!; [|by intros p [= ->]; apply lookup_delete_eq|done|].
  - intros p Hp. rewrite lookup_delete_ne; [done|]. by intros ->.
  - intros s' Hb. unfold release. by rewrite Hb, Hq.
Qed.

(** ** What the operations do *)

(** From [s] on, the texts are [m], and only [x] was changed. *)
Definition becomes x m s s' : Prop := ok m s' ∧ frame x s s' ∧ (faults s = [] → faults s' = []).

Lemma becomes_intro x m s s' : ok m s' ∧ frame x s s' → (faults s = [] → faults s' = []) → becomes x m s s'.
Proof. by intros [? ?]. Qed.

(** A computation makes the texts [m'] of the texts [m]. If it throws, which it only does
    when an allocation fails, it leaves texts that [R] holds of. *)
Definition tri x (c : M unit) m m' (R : gmap nat (list ascii) → Prop) : Prop := ∀ s, ok m s →
  wp c (λ _ s', becomes x m' s s') (λ e s', e = BadAlloc ∧ faults s ≠ [] ∧ ∃ m'', R m'' ∧ ok m'' s') s.

Lemma tri_ret x m R : tri x (mret ()) m m R.
Proof. by intros s HO. Qed.

Lemma tri_seq x c1 c2 m m1 m2 R : tri x c1 m m1 R → tri x c2 m1 m2 R → tri x (c1;; c2) m m2 R.
Proof.
  intros H1 H2 s HO. apply heap_wp_bind. eapply heap_wp_mono; [by apply H1| |done]. cbn. intros _ s1 (HO1 & Hf & Hq).
  eapply heap_wp_mono; [by apply H2|..]; [|naive_solver]. intros _ s2 (HO2 & Hf2 & Hq2).
  split; [done|]. split; [by etransitivity|]. auto.
Qed.

Lemma tri_weaken x c m m' (R R' : gmap nat (list ascii) → Prop) : tri x c m m' R → (∀ m, R m → R' m) → tri x c m m' R'.
Proof. intros Hc HR s HO. eapply heap_wp_mono; [by apply Hc|done|naive_solver]. Qed.

(** A handler that undoes what was done and throws on. *)
Lemma tri_undo x c h m m' m0 R : tri x c m m' R → (∀ m'', R m'' → tri x h m'' m0 (λ _, False)) →
  tri x (catch c (λ e, h;; throw e)) m m' (eq m0).
Proof.
  intros Hc Hh s HO. apply heap_wp_catch. eapply heap_wp_mono; [by apply Hc|done|]. cbn. intros e s' (-> & Hf & m'' & HR & HO').
  apply heap_wp_bind. eapply heap_wp_mono; [apply (Hh m'' HR s' HO')|..]; cbn; [|naive_solver]. intros _ s'' [HO'' _]. unfold wp, throw. naive_solver.
Qed.

(** What the sources read is [cs], whatever happens to [x]. *)
Definition sources s x (srcs : list (M ascii)) cs : Prop := ∀ s', frame x s s' → reading s' srcs cs.

Lemma sources_literal s x cs : sources s x (literal cs) cs.
Proof. intros s' _. apply reading_literal. Qed.

Lemma sources_chars m s x y v l : ok m s → x ≠ y → vars s !! y = Some v → m !! y = Some l → sources s x (chars_of v) l.
Proof.
  intros HO Hxy Hv Hl s' Hb. destruct (Hb y v) as [_ Hb']; [done..|]. apply reading_chars.
  eapply rep_same; [by eapply ok_rep|done].
Qed.

Lemma sources_frame s s' x srcs cs : sources s x srcs cs → frame x s s' → sources s' x srcs cs.
Proof. intros Hs Hf s'' Hf'. apply Hs. by etransitivity. Qed.

(** [initialize_string]: when it throws, the old block is gone and the variable still
    points at it. *)
Lemma wp_init m s x l srcs cs : ok m s → m !! x = Some l → vsize cs < 2 ^ 64 → sources s x srcs cs →
  wp (initialize_string alloc x srcs (vsize cs)) (λ _ s', becomes x (<[x := cs]> m) s s')
    (λ e s', e = BadAlloc ∧ faults s ≠ [] ∧ vars s' = vars s ∧ (own s x = None → blocks s' = blocks s)) s.
Proof.
  intros HO Hx Hl Hr. pose proof (vsize_nonneg cs). destruct (ok_get m s x l HO Hx) as (v & Hv & _).
  destruct (free_spec m s x v HO Hv) as (b & Hb1 & Hb2 & Hb3 & Hrel). unfold initialize_string.
  apply heap_wp_bind. apply (heap_wp_get x v); [done|]. apply heap_wp_bind. eapply heap_wp_done; [by apply Hrel|].
  apply heap_wp_bind. apply heap_wp_new; [lia| |intros f Hf; cbn in *; by split_and!].
  intros p f Hp Hq. cbn in Hp, Hq. apply heap_wp_bind, heap_wp_put, heap_wp_bind.
  unfold set_vars, set_faults, set_blocks. cbn [blocks vars faults lost].
  assert (∀ p', m_data (mkVec (vsize cs) (vsize cs) (Some p)) = Some p' → own s x = Some p' ∨ blocks s !! p' = None) as Hnew.
  { intros p' [= <-]. destruct (decide (own s x = Some p)) as [E|E]; [by left|]. right. by rewrite <-Hb1. }
  eapply heap_wp_done; [apply (fill_eq p srcs cs _ [] (replicate (Z.to_nat (vsize cs)) None))|].
  - apply lookup_insert_eq.
  - rewrite length_replicate. unfold vsize. lia.
  - intros blk. apply Hr. intros y w Hy Hw. cbn. split; [by rewrite lookup_insert_ne|]. intros p' Hp'.
    destruct (others_apart m s x y (mkVec (vsize cs) (vsize cs) (Some p)) w p') as [H1 H2]; [done..|]. cbn in H2.
    rewrite !lookup_insert_ne by congruence. by apply Hb1.
  - cbn [app]. rewrite drop_ge, app_nil_r by (rewrite length_replicate; unfold vsize; lia). apply heap_wp_put.
    unfold set_vars, set_blocks. cbn [blocks vars faults lost]. rewrite !insert_insert_eq.
    apply becomes_intro; [|done]. apply ok_set; [done|..|done|].
    + split; [done|]. split; [cbn; lia|]. exists []. cbn. rewrite lookup_insert_eq, app_nil_r. split; [done|]. unfold vsize. cbn. lia.
    + intros p' H1 H2. cbn in H2. rewrite lookup_insert_ne by congruence. by apply Hb1.
    + intros p' H1 H2. cbn in H2. rewrite lookup_insert_ne by congruence. by apply Hb2.
Qed.

(** A variable is declared; if its constructor throws, it never was. *)
Lemma tri_constructor m x cs body : m !! x = None →
  (∀ s, ok (<[x := []]> m) s → own s x = None →
    wp body (λ _ s', becomes x (<[x := cs]> m) s s')
      (λ e s', e = BadAlloc ∧ faults s ≠ [] ∧ vars s' = vars s ∧ blocks s' = blocks s) s) →
  tri x (constructor x body) m (<[x := cs]> m) (eq m).
Proof.
  intros Hx Hb s HO. unfold constructor. assert (vars s !! x = None) as Hv by by apply HO.
  apply heap_wp_bind, heap_wp_put. set (s1 := set_vars _ s).
  assert (own s x = None) as Ho by (unfold own; by rewrite Hv).
  assert (ok (<[x := []]> m) s1) as HO1 by (apply ok_set; [done|apply rep_no_text|done|done|intros p; by rewrite Ho]).
  assert (frame x s s1) as Hf1 by by (intros y w Hy Hw; cbn; rewrite lookup_insert_ne).
  assert (own s1 x = None) as Ho1 by (unfold own, s1; cbn; by rewrite lookup_insert_eq).
  apply heap_wp_catch. eapply heap_wp_mono; [by apply Hb| |].
  { intros _ s' (? & ? & ?). split; [done|]. split; [by etransitivity|done]. }
  cbn. intros e s' (-> & Hf & Hv' & Hb'). apply heap_wp_bind, heap_wp_drop.
  unfold wp, throw, set_vars. split; [done|]. split; [done|]. exists m. split; [done|].
  rewrite Hv', Hb'. cbn. rewrite delete_insert_id by done. destruct HO. by split.
Qed.

Lemma from_text_tri m x cs : m !! x = None → vsize cs < 2 ^ 64 → tri x (from_text alloc x cs) m (<[x := cs]> m) (eq m).
Proof.
  intros Hx Hl. apply tri_constructor; [done|]. intros s HO Ho.
  pose proof (wp_init _ s x [] _ cs HO (lookup_insert_eq _ _ _) Hl (sources_literal s x cs)) as Hw.
  rewrite insert_insert_eq in Hw. eapply heap_wp_mono; [exact Hw|done|]. cbn. naive_solver.
Qed.

Lemma copy_tri m x y l : m !! x = None → m !! y = Some l → vsize l < 2 ^ 64 → tri x (copy_construct alloc x y) m (<[x := l]> m) (eq m).
Proof.
  intros Hx Hy Hl. assert (x ≠ y) as Hxy by congruence. apply tri_constructor; [done|]. intros s HO Ho.
  assert (<[x := []]> m !! y = Some l) as Hy' by by rewrite lookup_insert_ne.
  destruct (ok_get _ _ _ _ HO Hy') as (v & Hv & Hs & _). apply heap_wp_bind. apply (heap_wp_get y v); [done|]. rewrite Hs.
  pose proof (wp_init _ s x [] _ l HO (lookup_insert_eq _ _ _) Hl (sources_chars _ _ _ _ _ _ HO Hxy Hv Hy')) as Hw.
  rewrite insert_insert_eq in Hw. eapply heap_wp_mono; [exact Hw|done|]. cbn. naive_solver.
Qed.

Lemma from_char_tri m x c : m !! x = None → tri x (from_char alloc x c) m (<[x := [c]]> m) (eq m).
Proof.
  intros Hx. apply tri_constructor; [done|]. intros s HO Ho. apply heap_wp_bind, heap_wp_new; [done| |intros f Hf; by split_and!].
  intros p f Hp Hq. apply heap_wp_bind. eapply heap_wp_done; [apply (write_eq _ p [] None [] c); apply lookup_insert_eq|].
  apply heap_wp_put. unfold set_vars, set_faults, set_blocks. cbn [blocks vars faults lost]. rewrite insert_insert_eq.
  apply becomes_intro; [|done]. rewrite <-(insert_insert_eq m x [c] []). apply ok_set; [done|..].
  - split; [done|]. split; [done|]. exists []. cbn. by rewrite lookup_insert_eq.
  - intros p' _ Hp'. cbn in Hp'. by rewrite lookup_insert_ne by congruence.
  - intros p' [= <-]. by right.
  - intros p' Hp'. by rewrite Ho in Hp'.
Qed.

Lemma destroy_tri m x l : m !! x = Some l → tri x (destroy x) m (delete x m) (λ _, False).
Proof.
  intros Hx s HO. destruct (ok_get m s x l HO Hx) as (v & Hv & _).
  destruct (free_spec m s x v HO Hv) as (b & Hb1 & Hb2 & _ & Hrel). unfold destroy.
  apply heap_wp_bind. apply (heap_wp_get x v); [done|]. apply heap_wp_bind, heap_wp_drop. eapply heap_wp_done; [by apply Hrel|].
  apply becomes_intro; [|done]. split; [by apply ok_gone|]. intros y w Hy Hw. cbn. split; [by rewrite lookup_delete_ne|].
  intros p Hp. apply Hb1. intros E. apply Hy. eapply ok_apart; [done|unfold own; by rewrite Hw|done].
Qed.

(** *** Growth *)

(** [reserve] changes no text. What room it makes is exact. *)
Definition room x m n s s' : Prop := becomes x m s s' ∧ ∃ v, vars s' !! x = Some v ∧ n ≤ m_capacity v.

Lemma wp_reserve m s x l n : ok m s → m !! x = Some l → vsize l < 2 ^ 31 → n < 2 ^ 64 →
  wp (reserve alloc x n) (λ _ s', room x m n s s') (λ e s', e = BadAlloc ∧ faults s ≠ [] ∧ ok m s') s.
Proof.
  intros HO Hx Hl Hn. destruct (ok_get m s x l HO Hx) as (v & Hv & Hrep). pose proof Hrep as (Hs & Hc & Hd).
  pose proof (vsize_nonneg l). unfold reserve. apply heap_wp_bind. apply (heap_wp_get x v); [done|]. rewrite Hs. case_bool.
  { apply heap_wp_ret. split; [by split|]. exists v. split; [done|]. lia. }
  apply heap_wp_bind. apply heap_wp_new; [lia| |intros f Hf; split_and!; [done..|by apply ok_faults]].
  intros p f Hp Hq. unfold int_loop. rewrite (proj2 (Z.ltb_lt _ _)) by done. apply heap_wp_bind, heap_wp_ret, heap_wp_bind.
  destruct (free_spec m s x v HO Hv) as (b & Hb1 & Hb2 & Hb3 & Hrel).
  assert (own s x = m_data v) as Ho by (unfold own; by rewrite Hv).
  assert (own s x ≠ Some p) as Hne by (intros Eo; destruct (ok_own m s x p HO Eo) as [? ?]; congruence).
  assert (∀ blk f g, reading (mk (<[p := blk]> (blocks s)) (vars s) f g) (chars_of v) l) as Hr.
  { intros blk f' g. apply reading_chars. eapply rep_same; [done|]. intros p' Hp'. cbn.
    rewrite lookup_insert_ne; [done|]. intros ->. congruence. }
  unfold set_faults, set_blocks. cbn [blocks vars faults lost].
  eapply heap_wp_done; [apply (fill_eq p (chars_of v) l _ [] (replicate (Z.to_nat n) None))|].
  - apply lookup_insert_eq.
  - rewrite length_replicate. unfold vsize in *. lia.
  - intros blk. unfold set_blocks. cbn [blocks vars faults lost]. rewrite insert_insert_eq. apply Hr.
  - cbn [app]. unfold set_blocks. cbn [blocks vars faults lost]. rewrite insert_insert_eq. apply heap_wp_bind.
    set (rest := list.drop _ _). set (v' := mkVec (vsize l) n (Some p)).
    assert (∀ s', blocks s' = <[p := (Some <$> l) ++ rest]> (blocks s) →
      release (m_data v) s' = Done () (set_blocks (<[p := (Some <$> l) ++ rest]> b) s')) as Hrel'.
    { intros s' Es. rewrite Ho in Hne. destruct (m_data v) as [q|]; [|rewrite Hb3 by done; rewrite <-Es; by destruct s'].
      assert (q ≠ p) as Hqp by congruence. unfold release in *. specialize (Hrel s eq_refl).
      destruct (blocks s !! q) as [blk|] eqn:Eq; [|done]. injection Hrel as Hb. rewrite Es, lookup_insert_ne by done.
      rewrite Eq. by rewrite <-Hb, delete_insert_ne. }
    eapply heap_wp_done; [by apply Hrel'|]. apply heap_wp_put. unfold set_vars, set_blocks. cbn [blocks vars faults lost]. split.
    2: { exists v'. split; [apply lookup_insert_eq|done]. }
    apply becomes_intro; [|done]. rewrite <-(insert_id m x l Hx). apply ok_set; [done|..].
    + split; [done|]. split; [cbn; lia|]. exists rest. cbn. rewrite lookup_insert_eq. split; [done|].
      unfold rest, vsize in *. rewrite length_drop, length_replicate. lia.
    + intros p' H1 H2. cbn in H2. rewrite lookup_insert_ne by congruence. by apply Hb1.
    + intros p' [= <-]. by right.
    + intros p' H1 H2. cbn in H2. rewrite lookup_insert_ne by congruence. by apply Hb2.
Qed.

(** A character is put where there is room. *)
Lemma wp_append m s x l v c : ok m s → m !! x = Some l → vars s !! x = Some v → vsize l < m_capacity v →
  vsize l < 2 ^ 31 →
  wp (write (m_data v) (m_size v) c;; put x (mkVec (u64 (m_size v + 1)) (m_capacity v) (m_data v)))
    (λ _ s', becomes x (<[x := l ++ [c]]> m) s s') (λ _ _, False) s.
Proof.
  intros HO Hx Hv Hlt Hl. pose proof (ok_rep m s HO x v l Hv Hx) as (Hs & Hc & Hd). pose proof (vsize_nonneg l).
  destruct (m_data v) as [p|] eqn:Ed; [|lia]. destruct Hd as (rest & Hp & Hr).
  destruct rest as [|o rest]; [unfold vsize in *; cbn in Hr; lia|]. rewrite Hs. apply heap_wp_bind.
  eapply heap_wp_done; [by apply (write_eq s p l o rest c)|]. apply heap_wp_put. unfold set_vars, set_blocks. cbn [blocks vars faults lost].
  rewrite u64_small by (unfold in_u64; lia). rewrite <-vsize_snoc with (x := c).
  apply becomes_intro; [|done]. apply (ok_in_place m s x v); [done..| |].
  - split; [done|]. cbn. split; [rewrite vsize_snoc; lia|].
    exists rest. rewrite lookup_insert_eq. split; [done|]. rewrite vsize_snoc. unfold vsize in *. cbn in Hr. lia.
  - intros p' Hp'. rewrite lookup_insert_ne; [done|]. intros ->. by rewrite Ed in Hp'.
Qed.

Lemma push_tri m x l c : m !! x = Some l → vsize l < 2 ^ 31 - 1 → tri x (push_back alloc x c) m (<[x := l ++ [c]]> m) (eq m).
Proof.
  intros Hx Hl s HO. destruct (ok_get m s x l HO Hx) as (v & Hv & Hs & Hc & Hd). pose proof (vsize_nonneg l).
  unfold push_back. apply heap_wp_bind. apply (heap_wp_get x v); [done|]. apply heap_wp_bind.
  apply (heap_wp_mono _ (λ _ s', room x m (vsize l + 1) s s') _ (λ e s', e = BadAlloc ∧ faults s ≠ [] ∧ ok m s')); [| |naive_solver].
  - rewrite Hs. case_bool; [|apply heap_wp_ret; split; [by split|]; exists v; split; [done|]; lia].
    assert (vsize l + 1 ≤ get_capacity v < 2 ^ 64) as [Hg1 Hg2].
    { unfold get_capacity. rewrite u64_small by (unfold in_u64; lia). lia. }
    eapply heap_wp_mono; [apply (wp_reserve m s x l (get_capacity v)); [done..|lia|done]| |done].
    intros _ s' (Hb & w & Hw & Hcap). split; [done|]. exists w. split; [done|]. lia.
  - intros _ s' ((HO' & Hf & Hq) & w & Hw & Hcap). apply heap_wp_bind. apply (heap_wp_get x w); [done|].
    destruct (ok_rep m s' HO' x w l Hw Hx) as (Hs' & _).
    eapply heap_wp_mono; [apply (wp_append m s' x l w c); [done..|lia|lia]| |done]. intros _ s2 (HO2 & Hf2 & Hq2).
    split; [done|]. split; [by etransitivity|auto].
Qed.

(** *** Shorter, and in place *)

Lemma rep_take b v l k : rep b v l → 0 ≤ k ≤ vsize l → rep b (mkVec k (m_capacity v) (m_data v)) (list.take (Z.to_nat k) l).
Proof.
  intros (Hs & Hc & Hd) Hk. unfold vsize in *. split; [cbn; unfold vsize; rewrite length_take; lia|].
  split; [cbn; unfold vsize; rewrite length_take; lia|]. cbn. destruct (m_data v) as [p|]; [|done].
  destruct Hd as (rest & Hp & Hr). exists ((Some <$> list.drop (Z.to_nat k) l) ++ rest).
  rewrite (assoc_L (++)), <-fmap_app, take_drop. split; [done|].
  unfold vsize in *. rewrite length_app, length_fmap, length_take, length_drop. lia.
Qed.

Lemma put_shorter m s x v l k : ok m s → vars s !! x = Some v → m !! x = Some l → 0 ≤ k ≤ vsize l →
  becomes x (<[x := list.take (Z.to_nat k) l]> m) s (set_vars (<[x := mkVec k (m_capacity v) (m_data v)]> (vars s)) s).
Proof.
  intros HO Hv Hx Hk. apply becomes_intro; [|done]. apply (ok_in_place m s x v); [done..| |done].
  apply rep_take; [by eapply ok_rep|done].
Qed.

Lemma pop_back_tri m x l : m !! x = Some l → vsize l < 2 ^ 64 → tri x (pop_back x) m (<[x := list.take (length l - 1) l]> m) (eq m).
Proof.
  intros Hx Hl s HO. destruct (ok_get m s x l HO Hx) as (v & Hv & Hs & _). pose proof (vsize_nonneg l).
  unfold pop_back. apply heap_wp_bind. apply (heap_wp_get x v); [done|]. rewrite Hs. case_bool.
  - assert (l = []) as -> by (apply nil_length_inv; unfold vsize in *; lia). apply heap_wp_ret. cbn.
    by rewrite insert_id.
  - apply heap_wp_put. rewrite u64_small by (unfold in_u64; lia). pose proof (put_shorter m s x v l (vsize l - 1)) as Hp.
    replace (Z.to_nat (vsize l - 1)) with (length l - 1)%nat in Hp by (unfold vsize; lia). apply Hp; [done..|lia].
Qed.

Lemma resize_tri m x l n c : m !! x = Some l → 0 ≤ n < 2 ^ 31 → vsize l < 2 ^ 31 → tri x (resize alloc x n c) m
  (<[x := list.take (Z.to_nat n) l ++ replicate (Z.to_nat n - length l) c]> m) (eq m).
Proof.
  intros Hx Hn Hl s HO. destruct (ok_get m s x l HO Hx) as (v & Hv & Hs & Hc & Hd). pose proof (vsize_nonneg l).
  unfold resize. apply heap_wp_bind. apply (heap_wp_get x v); [done|]. apply heap_wp_bind. rewrite Hs. case_bool.
  - rewrite take_ge by (unfold vsize in *; lia). apply heap_wp_bind.
    eapply heap_wp_mono; [apply (wp_reserve m s x l n); [done..|lia]| |naive_solver].
    intros _ s1 ((HO1 & Hf1 & Hq1) & w & Hw & Hcap). apply heap_wp_bind. apply (heap_wp_get x w); [done|].
    pose proof (ok_rep m s1 HO1 x w l Hw Hx) as (Hs1 & Hc1 & Hd1). rewrite Hs1.
    destruct (m_data w) as [p|] eqn:Ed; [|lia]. destruct Hd1 as (rest & Hp & Hr).
    replace (Z.to_nat (vsize l)) with (length l) by (unfold vsize; lia).
    replace (Z.to_nat (n - vsize l)) with (Z.to_nat n - length l)%nat by (unfold vsize; lia).
    eapply heap_wp_done; [apply (fill_eq p _ (replicate (Z.to_nat n - length l) c) s1 l rest Hp)|].
    + rewrite length_replicate. unfold vsize in *. lia.
    + intros blk. apply reading_repeat.
    + apply heap_wp_bind. apply (heap_wp_get x w); [done|]. apply heap_wp_put. unfold set_vars, set_blocks. cbn [blocks vars faults lost].
      apply becomes_intro; [|done].
      assert (vsize (l ++ replicate (Z.to_nat n - length l) c) = n) as Hn'.
      { unfold vsize in *. rewrite length_app, length_replicate. lia. }
      destruct (ok_in_place m s1 x w (mkVec n (m_capacity w) (m_data w)) (l ++ replicate (Z.to_nat n - length l) c)
        (<[p := (Some <$> l ++ replicate (Z.to_nat n - length l) c) ++ list.drop (length (replicate (Z.to_nat n - length l) c)) rest]> (blocks s1))
        (faults s1) (lost s1)) as [HO2 Hf2]; [done..| | |].
      * split; [done|]. split; [by rewrite Hn'|]. cbn. rewrite Ed. eexists. rewrite lookup_insert_eq. split; [done|].
        unfold vsize in *. rewrite length_drop, length_replicate, length_app, length_replicate. lia.
      * intros p' Hp'. rewrite lookup_insert_ne; [done|]. intros ->. by rewrite Ed in Hp'.
      * split; [done|]. by etransitivity.
  - apply heap_wp_ret, heap_wp_bind. apply (heap_wp_get x v); [done|]. apply heap_wp_put.
    replace (Z.to_nat n - length l)%nat with O by (unfold vsize in *; lia). cbn. rewrite app_nil_r. apply put_shorter; [done..|lia].
Qed.

Lemma set_at_tri m x l i c : m !! x = Some l → 0 ≤ i < vsize l → tri x (set_at x i c) m (<[x := vput l i c]> m) (eq m).
Proof.
  intros Hx Hi s HO. destruct (ok_get m s x l HO Hx) as (v & Hv & Hs & Hc & Hd). unfold set_at.
  apply heap_wp_bind. apply (heap_wp_get x v); [done|]. destruct (m_data v) as [p|] eqn:Ed; [|lia]. destruct Hd as (rest & Hp & Hr).
  destruct (lookup_lt_is_Some_2 l (Z.to_nat i)) as [o Ho]; [unfold vsize in *; lia|].
  pose proof (take_drop_middle _ _ _ Ho) as El. set (l1 := list.take (Z.to_nat i) l) in *. set (l2 := list.drop (S (Z.to_nat i)) l) in *.
  assert (length l1 = Z.to_nat i) as Hl1 by (unfold l1; rewrite length_take; unfold vsize in *; lia).
  eapply heap_wp_done.
  { replace i with (Z.of_nat (length l1)) by lia. apply (write_eq s p l1 (Some o) ((Some <$> l2) ++ rest) c).
    rewrite Hp, <-El, fmap_app. by rewrite <-(assoc_L (++)). }
  assert (vput l i c = l1 ++ c :: l2) as E.
  { unfold vput. rewrite <-El, <-Hl1. rewrite insert_app_r_alt by lia. by rewrite Nat.sub_diag. }
  apply becomes_intro; [|done]. unfold set_blocks. rewrite <-(insert_id (vars s) x v Hv).
  apply (ok_in_place m s x v); [done..| |].
  - split; [by rewrite vsize_vput|]. rewrite vsize_vput. split; [done|]. rewrite Ed. exists rest. rewrite lookup_insert_eq. split; [|done].
    f_equal. rewrite E, !fmap_app. cbn. by rewrite <-!(assoc_L (++)).
  - intros p' Hp'. rewrite lookup_insert_ne; [done|]. intros ->. by rewrite Ed in Hp'.
Qed.

(** *** Statements

    A statement, of which nothing is said of the variables it may change. *)
Definition does (c : M unit) m m' (R : gmap nat (list ascii) → Prop) : Prop := ∀ s, ok m s →
  wp c (λ _ s', ok m' s' ∧ (faults s = [] → faults s' = []))
    (λ e s', e = BadAlloc ∧ faults s ≠ [] ∧ ∃ m'', R m'' ∧ ok m'' s') s.

Lemma tri_does x c m m' R : tri x c m m' R → does c m m' R.
Proof. intros Hc s HO. eapply heap_wp_mono; [by apply Hc| |done]. by intros _ s' (? & _ & ?). Qed.

Lemma text_seq c1 c2 m m1 m2 R : does c1 m m1 R → does c2 m1 m2 R → does (c1;; c2) m m2 R.
Proof.
  intros H1 H2 s HO. apply heap_wp_bind. eapply heap_wp_mono; [by apply H1| |done]. cbn. intros _ s1 [HO1 Hq].
  eapply heap_wp_mono; [by apply H2|naive_solver..].
Qed.

Lemma move_construct_text m x y l R : m !! x = None → m !! y = Some l → does (move_construct x y) m (<[x := l]> (<[y := []]> m)) R.
Proof.
  intros Hx Hy s HO. destruct (ok_get m s y l HO Hy) as (v & Hv & _). unfold move_construct.
  apply heap_wp_bind. apply (heap_wp_get y v); [done|]. apply heap_wp_bind, heap_wp_put, heap_wp_put. split; [|done].
  unfold set_vars. cbn. apply ok_move; [done|congruence| |done..]. unfold own. assert (vars s !! x = None) as -> by by apply HO. done.
Qed.

Lemma move_assign_text m x y k l R : m !! x = Some k → m !! y = Some l → x ≠ y →
  does (move_assign x y) m (<[x := l]> (<[y := []]> m)) R.
Proof.
  intros Hx Hy Hxy s HO. destruct (ok_get m s x k HO Hx) as (v & Hv & _). destruct (ok_get m s y l HO Hy) as (w & Hw & _).
  destruct (free_spec m s x v HO Hv) as (b & Hb1 & Hb2 & _ & Hrel). unfold move_assign. rewrite decide_False by done.
  apply heap_wp_bind. apply (heap_wp_get x v); [done|]. apply heap_wp_bind. eapply heap_wp_done; [by apply Hrel|].
  apply heap_wp_bind. apply (heap_wp_get y w); [done|]. apply heap_wp_bind, heap_wp_put, heap_wp_put. split; [|done].
  destruct (ok_set m s x empty_vec [] b (faults s) (lost s)) as [HO' _]; [done|apply rep_no_text|auto|done|auto|].
  apply (ok_move _ _ x y w l (faults s) (lost s)) in HO'; [|done| |cbn; by rewrite lookup_insert_ne..].
  - unfold set_vars. cbn in *. rewrite (insert_insert_ne (vars s)), insert_insert_eq in HO' by done.
    by rewrite (insert_insert_ne m), insert_insert_eq in HO' by done.
  - unfold own. cbn. by rewrite lookup_insert_eq.
Qed.

(** *** Sums *)

(** What is left when a character could not be pushed: some text. *)
Definition some_text x m m' : Prop := ∃ l, m' = <[x := l]> m.

Lemma push_all_tri m x srcs cs : ∀ l s, m !! x = Some l → ok m s → sources s x srcs cs → vsize l + vsize cs < 2 ^ 31 →
  wp (push_all alloc x srcs) (λ _ s', becomes x (<[x := l ++ cs]> m) s s')
    (λ e s', e = BadAlloc ∧ faults s ≠ [] ∧ ∃ m'', some_text x m m'' ∧ ok m'' s') s.
Proof.
  revert m cs. induction srcs as [|src srcs IH]; intros m cs l s Hx HO Hr Hl.
  { pose proof (Hr s ltac:(reflexivity)) as Hn. inversion Hn. apply heap_wp_ret. rewrite app_nil_r, insert_id by done. by split. }
  pose proof (Hr s ltac:(reflexivity)) as Hn. inversion Hn as [|? c ? cs' Hc Hcs]. subst cs. clear Hn.
  assert (vsize (c :: cs') = vsize cs' + 1) as El by (unfold vsize; cbn [length]; lia). rewrite El in Hl. pose proof (vsize_nonneg cs'). pose proof (vsize_nonneg l).
  cbn [push_all]. apply heap_wp_bind. eapply heap_wp_done; [exact Hc|]. apply heap_wp_bind.
  eapply heap_wp_mono; [apply (push_tri m x l c Hx); [lia|done]|..].
  - intros _ s1 (HO1 & Hf1 & Hq1). eapply heap_wp_mono; [apply (IH (<[x := l ++ [c]]> m) cs' (l ++ [c]) s1)|..].
    + apply lookup_insert_eq.
    + done.
    + intros s2 Hf2. pose proof (Hr s2 ltac:(by etransitivity)) as Hn. by inversion Hn.
    + rewrite vsize_snoc. lia.
    + intros _ s2 (HO2 & Hf2 & Hq2). rewrite insert_insert_eq, <-(assoc_L (++)) in HO2. split; [done|].
      split; [by etransitivity|auto].
    + intros e s2 (-> & Hf & m'' & [l' ->] & HO2). split; [done|]. split; [auto|]. exists (<[x := l']> m).
      rewrite insert_insert_eq in HO2. by split; [exists l'|].
  - intros e s1 (-> & Hf & m'' & <- & HO1). split; [done|]. split; [done|]. exists m. split; [|done].
    exists l. by rewrite insert_id.
Qed.

(** [operator+]: a new string, or none. *)
Lemma plus_tri m s x y k srcs cs : m !! x = None → m !! y = Some k → ok m s → sources s x srcs cs → vsize k + vsize cs < 2 ^ 31 →
  wp (plus alloc x y srcs) (λ _ s', becomes x (<[x := k ++ cs]> m) s s') (λ e s', e = BadAlloc ∧ faults s ≠ [] ∧ ok m s') s.
Proof.
  intros Hx Hy HO Hr Hl. pose proof (vsize_nonneg cs). pose proof (vsize_nonneg k). unfold plus. apply heap_wp_bind.
  eapply heap_wp_mono; [apply (copy_tri m x y k Hx Hy); [lia|done]| |naive_solver]. intros _ s1 (HO1 & Hf1 & Hq1).
  apply heap_wp_catch. eapply heap_wp_mono.
  { apply (push_all_tri _ x srcs cs k s1 (lookup_insert_eq _ _ _) HO1); [|done]. by eapply sources_frame. }
  - intros _ s2 (HO2 & Hf2 & Hq2). rewrite insert_insert_eq in HO2. split; [done|]. split; [by etransitivity|auto].
  - cbn. intros e s2 (-> & Hf & m'' & [l' ->] & HO2). apply heap_wp_bind.
    eapply heap_wp_mono; [apply (destroy_tri _ x l' (lookup_insert_eq _ _ _) s2 HO2)|..].
    + intros _ s3 (HO3 & _). unfold wp, throw. split; [done|]. split; [auto|].
      by rewrite insert_insert_eq, delete_insert_id in HO3.
    + naive_solver.
Qed.

Lemma plus_text_does m x y k cs : m !! x = None → m !! y = Some k → vsize k + vsize cs < 2 ^ 31 →
  does (plus_text alloc x y cs) m (<[x := k ++ cs]> m) (eq m).
Proof.
  intros Hx Hy Hl s HO. eapply heap_wp_mono; [by apply (plus_tri m s x y k _ cs Hx Hy HO (sources_literal s x cs))| |naive_solver].
  by intros _ s' (? & _ & ?).
Qed.

Lemma plus_string_does m x y z k l : m !! x = None → m !! y = Some k → m !! z = Some l → vsize k + vsize l < 2 ^ 31 →
  does (plus_string alloc x y z) m (<[x := k ++ l]> m) (eq m).
Proof.
  intros Hx Hy Hz Hl s HO. destruct (ok_get m s z l HO Hz) as (v & Hv & _). unfold plus_string.
  apply heap_wp_bind. apply (heap_wp_get z v); [done|]. assert (x ≠ z) as Hxz by congruence.
  eapply heap_wp_mono; [by apply (plus_tri m s x y k _ l Hx Hy HO (sources_chars m s x z v l HO Hxz Hv Hz))| |naive_solver].
  by intros _ s' (? & _ & ?).
Qed.

(** [operator+=], by a temporary that takes the place of the string. *)
Lemma plus_assign_does m x k l sum : m !! x = Some k →
  (∀ t, m !! t = None → does (sum t) m (<[t := l]> m) (eq m)) → does (plus_assign x sum) m (<[x := l]> m) (eq m).
Proof.
  intros Hx Hs s HO. unfold plus_assign. apply heap_wp_bind. set (t := fresh (dom (vars s))).
  assert (m !! t = None) as Ht by (apply HO, not_elem_of_dom, is_fresh).
  assert (x ≠ t) as Hxt by congruence.
  assert (does (sum t;; move_assign x t;; destroy t) m (<[x := l]> m) (eq m)) as Hd; [|by apply Hd].
  eapply text_seq; [by apply Hs|]. eapply text_seq.
  - apply (move_assign_text _ x t k l); [by rewrite lookup_insert_ne|apply lookup_insert_eq|done].
  - rewrite insert_insert_eq. intros s1 HO1.
    eapply heap_wp_mono; [apply (destroy_tri _ t [] ltac:(rewrite lookup_insert_ne by done; apply lookup_insert_eq) s1 HO1)| |naive_solver].
    intros _ s2 (HO2 & _ & Hq). split; [|done]. rewrite delete_insert_ne, delete_insert_id in HO2 by done. done.
Qed.

(** *** Assignment, when allocations succeed *)

Definition calm (c : M unit) m m' : Prop := ∀ s, ok m s → faults s = [] →
  wp c (λ _ s', ok m' s' ∧ faults s' = []) (λ _ _, False) s.

Lemma does_calm c m m' R : does c m m' R → calm c m m'.
Proof. intros Hc s HO Hf. eapply heap_wp_mono; [by apply Hc|naive_solver..]. Qed.

Lemma assign_text_calm m x l cs : m !! x = Some l → vsize cs < 2 ^ 64 → calm (assign_text alloc x cs) m (<[x := cs]> m).
Proof.
  intros Hx Hl s HO Hf. eapply heap_wp_mono; [by apply (wp_init m s x l _ cs HO Hx Hl), sources_literal| |naive_solver].
  intros _ s' (HO' & _ & Hq). auto.
Qed.

Lemma copy_assign_calm m x y k l : m !! x = Some k → m !! y = Some l → vsize l < 2 ^ 64 →
  calm (copy_assign alloc x y) m (<[x := l]> m).
Proof.
  intros Hx Hy Hl s HO Hf. unfold copy_assign. case_decide as Hxy; [subst; rewrite insert_id by done; by apply heap_wp_ret|].
  destruct (ok_get m s y l HO Hy) as (v & Hv & Hs & _). apply heap_wp_bind. apply (heap_wp_get y v); [done|]. rewrite Hs.
  eapply heap_wp_mono; [by apply (wp_init m s x k _ l HO Hx Hl); eapply sources_chars| |naive_solver].
  intros _ s' (HO' & _ & Hq). auto.
Qed.

(** *** Words of a stream *)

Definition code (c : ascii) : Z := Z.of_N (N_of_ascii c).
Definition space (c : ascii) : bool := (9 <=? code c) && (code c <=? 13) || (code c =? 32).
Definition plain (c : ascii) : Prop := code c ≤ 127.

Fixpoint skipped (input : list ascii) : list ascii :=
  match input with c :: rest => if space c then skipped rest else input | [] => [] end.

(** The characters before a space, those after it, and whether there was one. *)
Fixpoint split_word (input : list ascii) : list ascii * (list ascii * bool) :=
  match input with
  | [] => ([], ([], false))
  | c :: rest => if space c then ([], (rest, true)) else let '(w, r) := split_word rest in (c :: w, r)
  end.

Definition extracted (input : list ascii) : list ascii * (list ascii * bool) := split_word (skipped input).

Lemma isspace_plain c s : plain c → isspace c s = Done (space c) s.
Proof. unfold plain, isspace, space, code. intros. by rewrite (proj2 (Z.ltb_ge _ _)). Qed.

Lemma skip_spaces_eq input s : Forall plain input → skip_spaces input s =
  Done (match skipped input with [] => (None, []) | c :: rest => (Some c, rest) end) s.
Proof.
  induction 1 as [|c rest Hc _ IH]; [done|]. cbn [skip_spaces skipped]. unfold mbind, M_bind. rewrite isspace_plain by done.
  by destruct (space c).
Qed.

Lemma skipped_word input c rest : skipped input = c :: rest → space c = false.
Proof. induction input as [|c' input IH]; [done|]. cbn. destruct (space c') eqn:Ec; [done|]. by intros [= -> _]. Qed.

Lemma take_word_calm input : ∀ m x l c s, m !! x = Some l → ok m s → faults s = [] → Forall plain input →
  vsize l + vsize (split_word input).1 + 1 < 2 ^ 31 →
  wp (take_word alloc x c input) (λ r s', r = (split_word input).2 ∧ ok (<[x := l ++ c :: (split_word input).1]> m) s' ∧ faults s' = [])
    (λ _ _, False) s.
Proof.
  induction input as [|c' input IH]; intros m x l c s Hx HO Hf Hp Hl; cbn [take_word]; apply heap_wp_bind;
    pose proof (vsize_nonneg l); cbn [split_word] in Hl |- *.
  - unfold vsize in *. cbn in Hl.
    eapply heap_wp_mono; [apply (does_calm _ _ _ _ (tri_does _ _ _ _ _ (push_tri m x l c Hx ltac:(unfold vsize; lia))) s HO Hf)| |done].
    intros _ s' [HO' Hq]. by apply heap_wp_ret.
  - apply Forall_cons in Hp as [Hc' Hp].
    destruct (split_word input) as [w r] eqn:Ew. pose proof (vsize_nonneg w).
    assert (vsize (if space c' then [] else c' :: w) + vsize l + 1 < 2 ^ 31) as Hl'.
    { destruct (space c'); cbn [fst] in Hl; lia. }
    pose proof (vsize_nonneg (if space c' then [] else c' :: w)).
    eapply heap_wp_mono; [apply (does_calm _ _ _ _ (tri_does _ _ _ _ _ (push_tri m x l c Hx ltac:(lia))) s HO Hf)| |done].
    intros _ s1 [HO1 Hf1]. apply heap_wp_bind. eapply heap_wp_done; [by apply isspace_plain|].
    destruct (space c') eqn:Es; [by apply heap_wp_ret|].
    eapply heap_wp_mono; [apply (IH _ x (l ++ [c]) c' s1 (lookup_insert_eq _ _ _) HO1 Hf1 Hp)| |done].
    + cbn [fst]. rewrite vsize_snoc. unfold vsize in *. cbn [length] in Hl'. lia.
    + cbn [fst snd]. intros r' s2 (-> & HO2 & Hf2). split; [done|]. by rewrite insert_insert_eq, <-(assoc_L (++)) in HO2.
Qed.

(** [>>] reads the next word, and the space after it. *)
Lemma extract_calm m x l input s : m !! x = Some l → ok m s → faults s = [] → Forall plain input →
  vsize (extracted input).1 < 2 ^ 31 →
  wp (extract alloc x input) (λ r s', r = (extracted input).2 ∧ ok (<[x := (extracted input).1]> m) s' ∧ faults s' = [])
    (λ _ _, False) s.
Proof.
  intros Hx HO Hf Hp Hl. unfold extract, extracted in *. apply heap_wp_bind.
  eapply heap_wp_mono; [by apply (assign_text_calm m x l [] Hx ltac:(done) s HO Hf)| |done]. intros _ s1 [HO1 Hf1].
  apply heap_wp_bind. eapply heap_wp_done; [by apply skip_spaces_eq|].
  assert (Forall plain (skipped input)) as Hp'.
  { clear -Hp. induction Hp as [|c rest Hc Hp IH]; [done|]. cbn. destruct (space c); [done|by constructor]. }
  destruct (skipped input) as [|c rest] eqn:Es; cbn beta iota; [by apply heap_wp_ret|]. pose proof (skipped_word _ _ _ Es) as Hc.
  cbn [split_word] in *. rewrite Hc in *. destruct (split_word rest) as [w r] eqn:Ew. apply Forall_cons in Hp' as [_ Hp'].
  eapply heap_wp_mono; [apply (take_word_calm rest _ x [] c s1 (lookup_insert_eq _ _ _) HO1 Hf1 Hp')| |done].
  - rewrite Ew. unfold vsize in *. cbn in *. lia.
  - rewrite Ew. cbn. intros r' s2 (-> & HO2 & Hf2). by rewrite insert_insert_eq in HO2.
Qed.

(** *** What a client sees *)

Definition looks s x l : Prop :=
  size x s = Done (vsize l) s ∧ print x s = Done l s ∧
  (∀ i c, vget l i = Some c → at_ x i s = Done c s) ∧
  front x s = match head l with Some c => Done c s | None => Thrown OutOfRange s end ∧
  back x s = match last l with Some c => Done c s | None => Thrown OutOfRange s end ∧
  ∀ cs, equal_text x cs s = Done (bool_decide (l = cs)) s.

Lemma gather_eq s srcs l : reading s srcs l → gather srcs s = Done l s.
Proof.
  induction 1 as [|src c srcs l Hc _ IH]; [done|]. cbn [gather]. unfold mbind, M_bind. by rewrite Hc, IH.
Qed.

Lemma same_chars_eq s ls rs l r : reading s ls l → reading s rs r → length l = length r →
  same_chars ls rs s = Done (bool_decide (l = r)) s.
Proof.
  intros Hl. revert rs r. induction Hl as [|src c ls l Hc _ IH]; intros rs r Hr Hlen; destruct Hr as [|src' c' rs r Hc' Hr]; try done.
  cbn [same_chars]. unfold mbind, M_bind. rewrite Hc, Hc'. case_bool_decide as E.
  - subst. rewrite (IH rs r) by (done || (cbn in Hlen; lia)). f_equal. apply bool_decide_ext. split; congruence.
  - unfold mret, M_ret. f_equal. symmetry. apply bool_decide_eq_false_2. congruence.
Qed.

Lemma access_eq m s x l i : ok m s → m !! x = Some l → vsize l < 2 ^ 31 → -1 ≤ i < 2 ^ 31 →
  access x i s = match vget l i with Some c => Done c s | None => Thrown OutOfRange s end.
Proof.
  intros HO Hx Hl Hi. destruct (ok_get m s x l HO Hx) as (v & Hv & Hr). pose proof Hr as (Hs & _). unfold access.
  assert (get x s = Done v s) as Hg by (unfold get; by rewrite Hv). unfold mbind at 1, M_bind at 1. rewrite Hg, Hs.
  destruct (vget l i) as [c|] eqn:Ec.
  - pose proof (proj1 (vget_Some _ _ _) Ec) as [H0 Hc]. apply vget_lt in Ec.
    rewrite u64_small by (unfold in_u64; lia). rewrite (proj2 (Z.ltb_ge _ _)), (proj2 (Z.leb_gt _ _)) by lia. cbn [orb].
    unfold at_, mbind, M_bind. rewrite Hg. pose proof (reading_chars s v l Hr) as Hall. unfold chars_of in Hall.
    rewrite Hs in Hall. unfold vsize in *. rewrite Nat2Z.id in Hall. apply Forall2_fmap_l in Hall.
    eapply Forall2_lookup_r in Hall as (k & Hk & Hrd); [|exact Hc]. apply lookup_seq in Hk as [-> _]. cbn in Hrd.
    by rewrite Z2Nat.id in Hrd by done.
  - destruct (decide (i < 0)); [by rewrite (proj2 (Z.ltb_lt _ _))|].
    destruct (decide (i < vsize l)); [destruct (vget_is_Some l i) as [c Hc]; [lia|congruence]|].
    rewrite u64_small by (unfold in_u64; lia). rewrite (proj2 (Z.leb_le _ _)) by lia. by rewrite orb_true_r.
Qed.

Lemma ok_looks m s x l : ok m s → m !! x = Some l → vsize l < 2 ^ 31 → looks s x l.
Proof.
  intros HO Hx Hl. destruct (ok_get m s x l HO Hx) as (v & Hv & Hr). pose proof Hr as (Hs & _). pose proof (vsize_nonneg l).
  assert (get x s = Done v s) as Hg by (unfold get; by rewrite Hv). pose proof (reading_chars s v l Hr) as Hch.
  unfold looks. split_and!.
  - unfold size, mbind, M_bind. rewrite Hg. by rewrite Hs.
  - unfold print, mbind at 1, M_bind at 1. rewrite Hg. by apply gather_eq.
  - intros i c Hc. pose proof (access_eq m s x l i HO Hx Hl) as Ha'. rewrite Hc in Ha'. apply vget_lt in Hc.
    unfold access, mbind at 1, M_bind at 1 in Ha'. rewrite Hg, Hs, u64_small in Ha' by (unfold in_u64; lia).
    rewrite (proj2 (Z.ltb_ge _ _)), (proj2 (Z.leb_gt _ _)) in Ha' by lia. apply Ha'. lia.
  - unfold front. rewrite (access_eq m s x l 0) by (done || lia). by destruct l.
  - unfold back, mbind at 1, M_bind at 1. rewrite Hg, Hs. destruct l as [|c l _] using rev_ind.
    + change (i32 (u64 (vsize (A := ascii) [] - 1))) with (-1). by rewrite (access_eq m s x [] (-1)) by (done || lia).
    + rewrite last_snoc. rewrite vsize_snoc in *. pose proof (vsize_nonneg l).
      replace (vsize l + 1 - 1) with (vsize l) by lia. rewrite u64_small by (unfold in_u64; lia).
      assert (i32 (vsize l) = vsize l) as -> by (unfold i32; rewrite Z.mod_small; lia).
      rewrite (access_eq m s x (l ++ [c])) by (done || rewrite ?vsize_snoc; lia). by rewrite vget_snoc.
  - intros cs. unfold equal_text, mbind at 1, M_bind at 1. rewrite Hg, Hs. destruct (Z.eqb_spec (vsize l) (vsize cs)) as [El|El]; cbn [negb].
    + unfold int_loop. rewrite (proj2 (Z.ltb_lt _ _)) by lia. unfold mbind, M_bind. cbn.
      apply same_chars_eq; [done|apply reading_literal|unfold vsize in *; lia].
    + unfold mret, M_ret. f_equal. symmetry. apply bool_decide_eq_false_2. congruence.
Qed.

(** ** Programs *)

(** A statement of the client. *)
Inductive Op :=
  | MakeEmpty (x : nat)
  | MakeText (x : nat) (cs : list ascii)
  | MakeChar (x : nat) (c : ascii)
  | MakeCopy (x y : nat)
  | MakeMove (x y : nat)
  | MakePlus (x y z : nat)
  | MakePlusText (x y : nat) (cs : list ascii)
  | MakePlusChar (x y : nat) (c : ascii)
  | Assign (x y : nat)
  | AssignText (x : nat) (cs : list ascii)
  | MoveAssign (x y : nat)
  | SetAt (x : nat) (i : Z) (c : ascii)
  | Resize (x : nat) (n : Z) (c : ascii)
  | Reserve (x : nat) (n : Z)
  | PushBack (x : nat) (c : ascii)
  | PopBack (x : nat)
  | PlusAssign (x y : nat)
  | PlusAssignText (x : nat) (cs : list ascii)
  | PlusAssignChar (x : nat) (c : ascii)
  | Extract (x : nat) (input : list ascii)
  | Destroy (x : nat).

Definition step (o : Op) : M (A := ascii) unit :=
  match o with
  | MakeEmpty x => put x empty_vec
  | MakeText x cs => from_text alloc x cs
  | MakeChar x c => from_char alloc x c
  | MakeCopy x y => copy_construct alloc x y
  | MakeMove x y => move_construct x y
  | MakePlus x y z => plus_string alloc x y z
  | MakePlusText x y cs => plus_text alloc x y cs
  | MakePlusChar x y c => plus_char alloc x y c
  | Assign x y => copy_assign alloc x y
  | AssignText x cs => assign_text alloc x cs
  | MoveAssign x y => move_assign x y
  | SetAt x i c => set_at x i c
  | Resize x n c => resize alloc x n c
  | Reserve x n => reserve alloc x n
  | PushBack x c => push_back alloc x c
  | PopBack x => pop_back x
  | PlusAssign x y => plus_assign_string alloc x y
  | PlusAssignText x cs => plus_assign_text alloc x cs
  | PlusAssignChar x c => plus_assign_char alloc x c
  | Extract x input => extract alloc x input;; mret ()
  | Destroy x => destroy x
  end.

(** The statement on texts. It is not one if a variable is not in scope, or declared
    twice, or a text would not be counted by an [int]. *)
Definition make x l m : option (gmap nat (list ascii)) := guard (vsize l < 2 ^ 31);; Some (<[x := l]> m).
Definition declare x l m : option (gmap nat (list ascii)) := guard (m !! x = None);; make x l m.

Definition spec (o : Op) m : option (gmap nat (list ascii)) :=
  match o with
  | MakeEmpty x => declare x [] m
  | MakeText x cs => declare x cs m
  | MakeChar x c => declare x [c] m
  | MakeCopy x y => l ← m !! y; declare x l m
  | MakeMove x y => l ← m !! y; guard (m !! x = None);; make x l (<[y := []]> m)
  | MakePlus x y z => k ← m !! y; l ← m !! z; declare x (k ++ l) m
  | MakePlusText x y cs => k ← m !! y; declare x (k ++ cs) m
  | MakePlusChar x y c => k ← m !! y; declare x (k ++ [c]) m
  | Assign x y => _ ← m !! x; l ← m !! y; make x l m
  | AssignText x cs => _ ← m !! x; make x cs m
  | MoveAssign x y => _ ← m !! x; l ← m !! y; make x l (if decide (x = y) then m else <[y := []]> m)
  | SetAt x i c => l ← m !! x; guard (0 ≤ i < vsize l);; make x (vput l i c) m
  | Resize x n c => l ← m !! x; guard (0 ≤ n < 2 ^ 31);;
      make x (list.take (Z.to_nat n) l ++ replicate (Z.to_nat n - length l) c) m
  | Reserve x n => l ← m !! x; guard (0 ≤ n < 2 ^ 64);; make x l m
  | PushBack x c => l ← m !! x; make x (l ++ [c]) m
  | PopBack x => l ← m !! x; make x (list.take (length l - 1) l) m
  | PlusAssign x y => k ← m !! x; l ← m !! y; make x (k ++ l) m
  | PlusAssignText x cs => k ← m !! x; make x (k ++ cs) m
  | PlusAssignChar x c => k ← m !! x; make x (k ++ [c]) m
  | Extract x input => _ ← m !! x; guard (Forall plain input);; make x (extracted input).1 m
  | Destroy x => _ ← m !! x; Some (delete x m)
  end.

(** Those that are not to throw. *)
Definition fragile (o : Op) : bool := match o with Assign _ _ | AssignText _ _ | Extract _ _ => true | _ => false end.

Definition short m : Prop := map_Forall (λ _ l, vsize l < 2 ^ 31) m.

Lemma make_Some x l m m' : make x l m = Some m' → vsize l < 2 ^ 31 ∧ m' = <[x := l]> m.
Proof. unfold make. intros H. case_guard; [|done]. by simplify_eq/=. Qed.

Lemma declare_Some x l m m' : declare x l m = Some m' → m !! x = None ∧ vsize l < 2 ^ 31 ∧ m' = <[x := l]> m.
Proof. unfold declare. intros H. case_guard; [|done]. by apply make_Some in H. Qed.

(** A statement that throws changes no text. *)
Definition good (c : M unit) m m' s : Prop :=
  wp c (λ _ s', ok m' s') (λ e s', e = BadAlloc ∧ faults s ≠ [] ∧ ok m s') s.

Lemma does_good c m m' s : does c m m' (eq m) → ok m s → good c m m' s.
Proof. intros Hc HO. eapply heap_wp_mono; [by apply Hc|naive_solver..]. Qed.

Lemma tri_good x c m m' s : tri x c m m' (eq m) → ok m s → good c m m' s.
Proof. intros Hc HO. eapply does_good, HO. by eapply tri_does. Qed.

Lemma calm_good c m m' s : calm c m m' → faults s = [] → ok m s → good c m m' s.
Proof. intros Hc Hf HO. eapply heap_wp_mono; [by apply Hc|naive_solver..]. Qed.

Lemma reserve_good m x l n s : m !! x = Some l → vsize l < 2 ^ 31 → n < 2 ^ 64 → ok m s → good (reserve alloc x n) m m s.
Proof. intros Hx Hl Hn HO. eapply heap_wp_mono; [by apply (wp_reserve m s x l)| |done]. by intros _ s' ((? & _) & _). Qed.

Lemma size_app (k l : list ascii) : vsize (k ++ l) = vsize k + vsize l.
Proof. unfold vsize. rewrite length_app. lia. Qed.

Lemma statement_good o m m' s : ok m s → short m → spec o m = Some m' → (fragile o = true → faults s = []) → good (step o) m m' s.
Proof.
  intros HO Hsh Ho Hfr.
  assert (∀ x l, m !! x = Some l → vsize l < 2 ^ 31 - 1 + 1) as Hsz by (intros x l Hx; specialize (Hsh x l Hx); cbn in Hsh; lia).
  destruct o; cbn [spec step fragile] in *;
    repeat match goal with
    | H : (_ ≫= _) = Some _ |- _ => apply bind_Some in H as (? & ? & H)
    | H : declare _ _ _ = Some _ |- _ => apply declare_Some in H as (? & ? & ->)
    | H : make _ _ _ = Some _ |- _ => apply make_Some in H as (? & ->)
    end; rewrite ?size_app in *.
  - eapply heap_wp_put, ok_set; [done|apply rep_no_text|done|done|]. intros p. unfold own.
    assert (vars s !! x = None) as -> by by apply HO. done.
  - eapply tri_good, HO. apply from_text_tri; [done|lia].
  - eapply tri_good, HO. by apply from_char_tri.
  - eapply tri_good, HO. apply copy_tri; [done..|lia].
  - eapply does_good, HO. by apply move_construct_text.
  - eapply does_good, HO. by apply plus_string_does.
  - eapply does_good, HO. by apply plus_text_does.
  - eapply does_good, HO. by apply plus_text_does.
  - apply calm_good; [eapply copy_assign_calm; [done..|lia]|auto|done].
  - apply calm_good; [eapply assign_text_calm; [done|lia]|auto|done].
  - case_decide as Hxy; [|eapply does_good, HO; by eapply move_assign_text].
    subst. unfold move_assign. rewrite decide_True by done. apply heap_wp_ret. simplify_eq. by rewrite insert_id.
  - eapply tri_good, HO. apply set_at_tri; [done|lia].
  - eapply tri_good, HO. apply resize_tri; [done|lia|]. by eapply Hsh.
  - rewrite insert_id by done. eapply reserve_good; [done..|lia|done].
  - eapply tri_good, HO. apply push_tri; [done|]. change (vsize [c]) with 1 in *. lia.
  - eapply tri_good, HO. apply pop_back_tri; [done|]. match goal with H : m !! x = Some ?l |- _ => specialize (Hsz x l H); lia end.
  - eapply does_good, HO. eapply plus_assign_does; [done|]. intros t Ht. by apply plus_string_does.
  - eapply does_good, HO. eapply plus_assign_does; [done|]. intros t Ht. by apply plus_text_does.
  - eapply does_good, HO. eapply plus_assign_does; [done|]. intros t Ht. by apply plus_text_does.
  - apply heap_wp_bind. eapply heap_wp_mono; [eapply extract_calm; [done..|by auto| |done]|..]; [done| |done].
    intros r s' (_ & HO' & _). by apply heap_wp_ret.
  - simplify_eq/=. eapply does_good, HO. eapply tri_does, tri_weaken; [by eapply destroy_tri|done].
Qed.

(** The texts and the state that a client can come to: it makes statements, allocations
    fail as [f] says, and it catches what is thrown. *)
Inductive reaches : gmap nat (list ascii) → t (A := ascii) → Prop :=
  | reaches_start : reaches ∅ (mk ∅ ∅ [] [])
  | reaches_done o m m' s f s' : reaches m s → spec o m = Some m' → (fragile o = true → f = []) →
      step o (set_faults f s) = Done () s' → reaches m' s'
  | reaches_thrown o m m' s f e s' : reaches m s → spec o m = Some m' → (fragile o = true → f = []) →
      step o (set_faults f s) = Thrown e s' → reaches m s'.

Lemma spec_short o m m' : short m → spec o m = Some m' → short m'.
Proof.
  assert (∀ x l m, short m → vsize l < 2 ^ 31 → short (<[x := l]> m)) as Hi by (intros; by apply map_Forall_insert_2).
  intros Hm. destruct o; cbn [spec]; intros Ho;
    repeat match goal with
    | H : (_ ≫= _) = Some _ |- _ => apply bind_Some in H as (? & ? & H)
    | H : declare _ _ _ = Some _ |- _ => apply declare_Some in H as (? & ? & ->)
    | H : make _ _ _ = Some _ |- _ => apply make_Some in H as (? & ->)
    end; simplify_eq/=; repeat apply Hi; try done; [by case_decide; [|apply Hi]|]. by apply map_Forall_delete.
Qed.

Lemma texts_reached m s : reaches m s → ok m s ∧ short m.
Proof.
  induction 1 as [|o m m' s f s' _ [HO Hsh] Ho Hfr E|o m m' s f e s' _ [HO Hsh] Ho Hfr E].
  - split; [|by apply map_Forall_empty]. split; cbn; try done. by intros p [? ?].
  - split; [|by eapply spec_short]. pose proof (statement_good o m m' (set_faults f s) (ok_faults m s f HO) Hsh Ho Hfr) as Hg.
    unfold good, wp in Hg. by rewrite E in Hg.
  - split; [|done]. pose proof (statement_good o m m' (set_faults f s) (ok_faults m s f HO) Hsh Ho Hfr) as Hg.
    unfold good, wp in Hg. rewrite E in Hg. by destruct Hg as (_ & _ & ?).
Qed.

Lemma equal_eq m s x y k l : ok m s → m !! x = Some k → m !! y = Some l → vsize l < 2 ^ 31 →
  equal x y s = Done (bool_decide (k = l)) s.
Proof.
  intros HO Hx Hy Hl. destruct (ok_get m s x k HO Hx) as (v & Hv & Hrv). destruct (ok_get m s y l HO Hy) as (w & Hw & Hrw).
  unfold equal, mbind at 1, M_bind at 1. unfold get at 1. rewrite Hv. unfold mbind at 1, M_bind at 1. unfold get at 1. rewrite Hw.
  pose proof Hrv as (Hs1 & _). pose proof Hrw as (Hs2 & _). rewrite Hs1, Hs2.
  destruct (Z.eqb_spec (vsize k) (vsize l)) as [El|El]; cbn [negb].
  - unfold int_loop. rewrite (proj2 (Z.ltb_lt _ _)) by done. unfold mbind, M_bind. cbn.
    apply same_chars_eq; [by apply reading_chars..|unfold vsize in *; lia].
  - unfold mret, M_ret. f_equal. symmetry. apply bool_decide_eq_false_2. congruence.
Qed.

(** C37: a [String] is a text, allocations failing or not. Whatever a client has done with
    its strings, catching what was thrown: each shows exactly its text (its size, its
    characters, what is printed of it, its ends or an exception, its comparisons), and
    when no string is left no storage is. Whatever it does next is defined, and either
    does to the strings what it does to texts, or throws for want of storage and changes
    none of them. That an assignment or a read from a stream is made with storage at hand
    is the client's to see to. *)
Theorem strings_are_texts m s : reaches m s →
  (∀ x, vars s !! x = None ↔ m !! x = None) ∧ (∀ x l, m !! x = Some l → looks s x l) ∧
  (∀ x y k l, m !! x = Some k → m !! y = Some l → equal x y s = Done (bool_decide (k = l)) s) ∧
  (m = ∅ → blocks s = ∅) ∧
  ∀ o m' f, spec o m = Some m' → (fragile o = true → f = []) →
    (∃ s', step o (set_faults f s) = Done () s' ∧ reaches m' s') ∨
    (f ≠ [] ∧ ∃ s', step o (set_faults f s) = Thrown BadAlloc s' ∧ reaches m s').
Proof.
  intros HR. destruct (texts_reached m s HR) as [HO Hsh]. split; [apply HO|]. split; [|split; [|split]].
  - intros x l Hx. apply (ok_looks m); [done..|by eapply Hsh].
  - intros x y k l Hx Hy. apply (equal_eq m); [done..|by eapply Hsh].
  - intros ->. apply map_empty. intros p. apply eq_None_not_Some. intros Hp. destruct (ok_owned _ _ HO p Hp) as [x Hx].
    unfold own in Hx. destruct (vars s !! x) eqn:E; [|done]. assert (vars s !! x = None) by by apply HO. congruence.
  - intros o m' f Ho Hfr. pose proof (statement_good o m m' (set_faults f s) (ok_faults m s f HO) Hsh Ho Hfr) as Hg.
    unfold good, wp in Hg. destruct (step o (set_faults f s)) as [[] s'|e s'|] eqn:E; [| |done].
    + left. exists s'. split; [done|]. by eapply reaches_done.
    + destruct Hg as (-> & Hf & _). right. split; [done|]. exists s'. split; [done|]. by eapply reaches_thrown.
Qed.
End texts.

Abbreviation heap := (fresh (A := nat) (C := gset nat)).

Definition chars (str : string) : list ascii := String.list_ascii_of_string str.

(** A string is made, and the storage for a longer one cannot be had. *)
Lemma strings_are_texts_witness : ∃ s, reaches heap {[0%nat := chars "hello"]} s ∧ print 0 s = Done (chars "hello") s ∧
  ∃ s', step heap (PlusAssignText 0 (chars " world")) (set_faults [false; true] s) = Thrown BadAlloc s' ∧
    print 0 s' = Done (chars "hello") s'.
Proof.
  assert (∀ X, heap X ∉ X) as Ha by (intros X; apply is_fresh).
  set (m := {[0%nat := chars "hello"]} : gmap nat (list ascii)).
  assert (reaches heap ∅ (mk ∅ ∅ [] [])) as HR0 by constructor.
  destruct (strings_are_texts heap Ha ∅ (mk ∅ ∅ [] []) HR0) as (_ & _ & _ & _ & Hnext).
  destruct (Hnext (MakeText 0 (chars "hello")) m []) as [(s & E & HR)|[Hf _]]; [reflexivity|done| |done].
  exists s. split; [exact HR|]. destruct (strings_are_texts heap Ha m s HR) as (_ & Hl & _ & _ & Hnext').
  destruct (Hl 0%nat (chars "hello")) as (_ & Hp & _); [reflexivity|]. split; [exact Hp|].
  vm_compute in E. injection E as <-.
  destruct (Hnext' (PlusAssignText 0 (chars " world")) {[0%nat := chars "hello world"]} [false; true]) as [(s' & E & _)|(_ & s' & E & HR')];
    [reflexivity|done|vm_compute in E; discriminate E|].
  exists s'. split; [exact E|]. destruct (strings_are_texts heap Ha m s' HR') as (_ & Hl' & _).
  destruct (Hl' 0%nat (chars "hello")) as (_ & Hp' & _); [reflexivity|exact Hp'].
Defined.

(** An assignment frees the old characters before it has storage for the new ones. When
    that throws, the string points at what was freed, and its destructor frees it again. *)
Example failed_assignment_dangles :
  ∃ s, from_text heap 0 (chars "hello") (mk ∅ ∅ [] []) = Done () s ∧
    ∃ s', assign_text heap 0 (chars "world") (set_faults [true] s) = Thrown BadAlloc s' ∧
      destroy 0 s' = Undefined ∧ print 0 s' = Undefined.
Proof. eexists. split; [vm_compute; reflexivity|]. eexists. split; [vm_compute; reflexivity|]. by split; vm_compute. Qed.

(** Asked for less than there is room for, but more than is used, [reserve] makes the room
    smaller. *)
Example reserve_shrinks :
  ∃ s, (from_text heap 0 (chars "hello");; reserve heap 0 50;; reserve heap 0 20) (mk ∅ ∅ [] []) = Done () s ∧
    capacity 0 s = Done 20 s.
Proof. eexists. split; vm_compute; reflexivity. Qed.

(** The last word of a stream is read, and the stream has failed: a loop on [in >> s]
    loses it. *)
Example last_word_fails :
  ∃ s, extract heap 0 (chars " last") (mk ∅ {[0%nat := empty_vec]} [] []) = Done ([], false) s ∧
    print 0 s = Done (chars "last") s.
Proof. eexists. split; vm_compute; reflexivity. Qed.
End TextProps.
