(* ===== verification/Optional.v ===== *)
(** * An optional value ([optional.cpp], Module Optional), and that it is one (Module OptionalProps)

    An object of the client's is a flag and raw storage for one element. Every operation of
    the element's type that may throw consults [faults]: [true] throws, before it has done
    anything. What begins or ends the life of an element, or assigns to one, is told to
    [trace], as the [Tracker] of the file's tests does. Reading or destroying storage that
    holds no element is undefined behaviour. *)

From S2P Require Import Prelude.

Module Optional.

(** What elements are told: made of other values, copied or moved from another; assigned
    to; destroyed. *)
Inductive event := Made | Copied | Moved | CopyAssigned | MoveAssigned | Destroyed.

#[export] Instance event_dec : EqDecision event.
Proof. solve_decision. Defined.

Inductive exn := ElementError | BadOptionalAccess.

Section optional.
Context {A : Type} `{EqDecision A} (moved : A → A).

Record Opt := mkOpt { valid : bool; storage : option A }.

Record t := mk { vars : gmap nat Opt; faults : list bool; trace : list event }.

Inductive result (X : Type) := Done (x : X) (s : t) | Thrown (e : exn) (s : t) | Undefined.
Arguments Done {X}.
Arguments Thrown {X}.
Arguments Undefined {X}.

Definition M (X : Type) : Type := t → result X.

#[export] Instance M_ret : MRet M := λ X x s, Done x s.

#[export] Instance M_bind : MBind M := λ X Y k m s,
  match m s with Done x s => k x s | Thrown e s => Thrown e s | Undefined => Undefined end.

Definition throw {X} (e : exn) : M X := λ s, Thrown e s.

(** What is done when a scope is left by an exception. *)
Definition on_throw {X} (m : M X) (h : M unit) : M X := λ s,
  match m s with
  | Thrown e s => match h s with Done _ s => Thrown e s | Thrown _ _ | Undefined => Undefined end
  | r => r
  end.

Definition get (x : nat) : M Opt := λ s, match vars s !! x with Some o => Done o s | None => Undefined end.
Definition put (x : nat) (o : Opt) : M unit := λ s, Done () (mk (<[x := o]> (vars s)) (faults s) (trace s)).
Definition drop (x : nat) : M unit := λ s, Done () (mk (delete x (vars s)) (faults s) (trace s)).

Definition set_valid (x : nat) (b : bool) : M unit := o ← get x; put x (mkOpt b (storage o)).

(** An operation of the element's type: it throws, or is told. *)
Definition element (ev : event) : M unit := λ s,
  match faults s with
  | true :: f => Thrown ElementError (mk (vars s) f (trace s))
  | false :: f => Done () (mk (vars s) f (trace s ++ [ev]))
  | [] => Done () (mk (vars s) [] (trace s ++ [ev]))
  end.

(** The destructor of an element does not throw. *)
Definition ended : M unit := λ s, Done () (mk (vars s) (faults s) (trace s ++ [Destroyed])).

(** [storage.data], and [std::move] of it by what takes its value. *)
Definition data (x : nat) : M A := λ s,
  match vars s !! x with Some (mkOpt _ (Some a)) => Done a s | _ => Undefined end.

Definition data_moved (x : nat) : M A :=
  a ← data x; o ← get x; put x (mkOpt (valid o) (Some (moved a)));; mret a.

(** [std::construct_at(&storage.data, src)], [std::destroy_at], and an assignment. *)
Definition construct_at (x : nat) (ev : event) (src : M A) : M unit :=
  element ev;; a ← src; o ← get x; put x (mkOpt (valid o) (Some a)).

Definition destroy_at (x : nat) : M unit := data x;; o ← get x; put x (mkOpt (valid o) None);; ended.

Definition assign (x : nat) (ev : event) (src : M A) : M unit :=
  element ev;; a ← src; data x;; o ← get x; put x (mkOpt (valid o) (Some a)).

(** [Optional()] and [Optional(nullopt)]. *)
Definition make_empty (x : nat) : M unit := put x (mkOpt false None).

(** A constructor that throws makes no object: no destructor is run. *)
Definition constructor (x : nat) (b : bool) (body : M unit) : M unit :=
  on_throw (put x (mkOpt b None);; body) (drop x).

(** [Optional(U&& v)] and [Optional(std::in_place, args...)]. *)
Definition make_from (x : nat) (ev : event) (src : M A) : M unit := constructor x true (construct_at x ev src).

Definition copy_construct (x y : nat) : M unit :=
  optional ← get y;
  constructor x (valid optional) (if valid optional then construct_at x Copied (data y) else mret ()).

Definition move_construct (x y : nat) : M unit :=
  optional ← get y;
  constructor x (valid optional) (if valid optional then construct_at x Moved (data_moved y) else mret ()).

(** Both assignments: [construct] and [assigned] are what tells them apart. *)
Definition assign_from (x y : nat) (construct assigned : event) (src : M A) : M unit :=
  if decide (x = y) then mret () else
  this ← get x;
  optional ← get y;
  match valid this, valid optional with
  | true, true => assign x assigned src
  | true, false => destroy_at x;; set_valid x false
  | false, true => construct_at x construct src;; set_valid x true
  | false, false => mret ()
  end.

Definition copy_assign (x y : nat) : M unit := assign_from x y Copied CopyAssigned (data y).
Definition move_assign (x y : nat) : M unit := assign_from x y Moved MoveAssigned (data_moved y).

Definition has_value (x : nat) : M bool := o ← get x; mret (valid o).

(** [value()] and [*]. *)
Definition value (x : nat) : M A := o ← get x; if valid o then data x else throw BadOptionalAccess.
Definition deref (x : nat) : M A := data x.

Definition emplace (x : nat) (ev : event) (src : M A) : M unit :=
  o ← get x;
  (if valid o then destroy_at x else mret ());;
  set_valid x false;;
  construct_at x ev src;;
  set_valid x true.

(** The value that [value_or] makes, of the element or of the fallback. *)
Definition value_or (x : nat) (fallback : A) : M A :=
  o ← get x;
  if valid o then element Copied;; data x else element Made;; mret fallback.

Definition value_or_moved (x : nat) (fallback : A) : M A :=
  o ← get x;
  if valid o then element Moved;; data_moved x else element Made;; mret fallback.

Definition reset (x : nat) : M unit :=
  o ← get x;
  if valid o then destroy_at x;; set_valid x false else mret ().

(** [x = nullopt]. *)
Definition assign_nullopt (x : nat) : M unit := reset x.

(** [std::swap] of two elements. *)
Definition swap_elements (x y : nat) : M unit :=
  element Moved;; tmp ← data_moved x;
  on_throw (assign x MoveAssigned (data_moved y);; assign y MoveAssigned (mret tmp)) ended;;
  ended.

(** The case in which only [x] has a value. *)
Definition hand_over (x y : nat) : M unit :=
  construct_at y Moved (data_moved x);;
  destroy_at x;;
  set_valid y true;;
  set_valid x false.

Definition swap (x y : nat) : M unit :=
  this ← get x;
  other ← get y;
  match valid this, valid other with
  | true, true => swap_elements x y
  | true, false => hand_over x y
  | false, true => hand_over y x
  | false, false => mret ()
  end.

Definition equal (x y : nat) : M bool :=
  a ← get x;
  b ← get y;
  if negb (bool_decide (valid a = valid b)) then mret false
  else if negb (valid a) then mret true
  else v ← data x; w ← data y; mret (bool_decide (v = w)).

Definition equal_nullopt (x : nat) : M bool := a ← get x; mret (negb (valid a)).

(** [~Optional()]. *)
Definition destroy (x : nat) : M unit :=
  o ← get x;
  (if valid o then destroy_at x else mret ());;
  drop x.

(** A temporary element of the client's, that is moved from and destroyed. *)
Definition from_temporary (x : nat) (a : A) : M unit :=
  element Made;; on_throw (make_from x Moved (mret a)) ended;; ended.

(** [x = value]: an [Optional] is made of it, and moved. *)
Definition assign_value (x : nat) (a : A) : M unit := λ s,
  let t := fresh (dom (vars s)) in
  (make_from t Made (mret a);; on_throw (move_assign x t) (destroy t);; destroy t) s.
End optional.

Arguments Done {A X} _ _.
Arguments Thrown {A X} _ _.
Arguments Undefined {A X}.

(** The counters of a [Tracker]. *)
Definition count (f : event → bool) (tr : list event) : Z := vsize (base.filter f tr).

Definition constructions : list event → Z := count (λ ev, bool_decide (ev = Made)).
Definition copies : list event → Z := count (λ ev, bool_decide (ev = Copied) || bool_decide (ev = CopyAssigned)).
Definition moves : list event → Z := count (λ ev, bool_decide (ev = Moved) || bool_decide (ev = MoveAssigned)).
Definition destructions : list event → Z := count (λ ev, bool_decide (ev = Destroyed)).
End Optional.

(** * An [Optional] is an optional value *)

Module OptionalProps.
Import Optional.

(** ** Accounts of elements *)

Definition weight (ev : event) : Z := match ev with Made | Copied | Moved => 1 | CopyAssigned | MoveAssigned => 0 | Destroyed => -1 end.

(** The elements that live, by what they were told. *)
Definition balance (tr : list event) : Z := foldr (λ ev z, weight ev + z) 0 tr.

Lemma balance_snoc tr ev : balance (tr ++ [ev]) = balance tr + weight ev.
Proof. unfold balance. induction tr as [|ev' tr IH]; cbn in *; [lia|]. rewrite IH. lia. Qed.

Section props.
Context {A : Type} `{EqDecision A} (moved : A → A).
Implicit Types (m : gmap nat (option A)) (o : option A) (a : A) (x y : nat) (s : t (A := A)) (ev : event).

(** The values there are. *)
Definition engaged m : Z := Z.of_nat (base.size (omap id m : gmap nat A)).

Definition has o : Z := match o with Some _ => 1 | None => 0 end.

Lemma engaged_new m x o : m !! x = None → engaged (<[x := o]> m) = engaged m + has o.
Proof.
  intros Hx. unfold engaged. assert (omap id m !! x = None) as Ho by by rewrite lookup_omap, Hx. destruct o as [a|]; cbn [has].
  - rewrite (omap_insert_Some _ _ _ _ a) by done. rewrite map_size_insert_None by done. lia.
  - rewrite omap_insert_None by done. rewrite delete_id by done. lia.
Qed.

Lemma engaged_delete m x o : m !! x = Some o → engaged (delete x m) = engaged m - has o.
Proof. intros Hx. rewrite <-(insert_delete_id m x o Hx) at 2. rewrite engaged_new by apply lookup_delete_eq. lia. Qed.

Lemma engaged_set m x o o' : m !! x = Some o → engaged (<[x := o']> m) = engaged m - has o + has o'.
Proof.
  intros Hx. rewrite <-insert_delete_eq, engaged_new by apply lookup_delete_eq. by rewrite (engaged_delete m x o Hx).
Qed.

(** ** Computations that may throw *)

Implicit Types (E : exn → t (A := A) → Prop).

Definition wp {X} (c : M X) (Q : X → t → Prop) E s : Prop :=
  match c s with Done x s' => Q x s' | Thrown e s' => E e s' | Undefined => False end.

Lemma opt_wp_ret {X} (r : X) (Q : X → t → Prop) E s : Q r s → wp (mret r) Q E s.
Proof. done. Qed.

Lemma opt_wp_bind {X Y} (c : M X) (k : X → M Y) (Q : Y → t → Prop) E s :
  wp c (λ r, wp (k r) Q E) E s → wp (c ≫= k) Q E s.
Proof. unfold wp. unfold mbind at 1, M_bind at 1. by destruct (c s). Qed.

Lemma opt_wp_mono {X} (c : M X) (Q Q' : X → t → Prop) E E' s :
  wp c Q E s → (∀ r s', Q r s' → Q' r s') → (∀ e s', E e s' → E' e s') → wp c Q' E' s.
Proof. unfold wp. destruct (c s); auto. Qed.

Lemma opt_wp_on_throw {X} (c : M X) (h : M unit) (Q : X → t → Prop) E s :
  wp c Q (λ e, wp h (λ _, E e) (λ _ _, False)) s → wp (on_throw c h) Q E s.
Proof. unfold wp, on_throw. destruct (c s) as [|e s'|]; [done| |done]. by destruct (h s'). Qed.

Lemma opt_wp_get x w (Q : Opt → t → Prop) E s : vars s !! x = Some w → Q w s → wp (get x) Q E s.
Proof. intros Hx. unfold wp, get. by rewrite Hx. Qed.

Lemma opt_wp_put x w (Q : unit → t → Prop) E s : Q () (mk (<[x := w]> (vars s)) (faults s) (trace s)) → wp (put x w) Q E s.
Proof. done. Qed.

Lemma opt_wp_drop x (Q : unit → t → Prop) E s : Q () (mk (delete x (vars s)) (faults s) (trace s)) → wp (drop x) Q E s.
Proof. done. Qed.

Lemma opt_wp_ended (Q : unit → t → Prop) E s : Q () (mk (vars s) (faults s) (trace s ++ [Destroyed])) → wp ended Q E s.
Proof. done. Qed.

Lemma opt_wp_element ev (Q : unit → t → Prop) E s :
  (∀ f, (faults s = [] → f = []) → Q () (mk (vars s) f (trace s ++ [ev]))) →
  (∀ f, faults s ≠ [] → E ElementError (mk (vars s) f (trace s))) → wp (element ev) Q E s.
Proof. intros HQ HE. unfold wp, element. destruct (faults s) as [|[] f]; [by apply HQ|by apply HE|by apply HQ]. Qed.

Lemma opt_wp_data x b a (Q : A → t → Prop) E s : vars s !! x = Some (mkOpt b (Some a)) → Q a s → wp (data x) Q E s.
Proof. intros Hx. unfold wp, data. by rewrite Hx. Qed.

(** ** The flag tells the truth *)

Definition opt_of o : Opt := mkOpt (match o with Some _ => true | None => false end) o.

(** The variables are [m], and what was told accounts for the values there are, and for
    [k] more. *)
Definition ok (k : Z) m s : Prop := vars s = opt_of <$> m ∧ balance (trace s) = engaged m + k.

Lemma lookup_vars k m s x o : ok k m s → m !! x = Some o → vars s !! x = Some (opt_of o).
Proof. intros [-> _] Hx. by rewrite lookup_fmap, Hx. Qed.

Lemma vars_none k m s x : ok k m s → vars s !! x = None ↔ m !! x = None.
Proof. intros [-> _]. rewrite lookup_fmap. by destruct (m !! x). Qed.

(** What a statement does: what it leaves when it is done, and when it throws. *)
Definition does (c : M unit) k m k' m' (R : gmap nat (option A) → Prop) : Prop := ∀ s, ok k m s →
  wp c (λ _ s', ok k' m' s' ∧ (faults s = [] → faults s' = []))
    (λ e s', e = ElementError ∧ faults s ≠ [] ∧ ∃ m'', R m'' ∧ ok k m'' s') s.

(** One computation after the other. *)
Ltac find_var := cbn [vars valid]; repeat first [rewrite lookup_insert_eq | rewrite lookup_insert_ne by congruence]; (reflexivity || eassumption).

Ltac step := lazymatch goal with
  | |- wp (_ ≫= _) _ _ _ => apply opt_wp_bind
  | |- wp (mret _) _ _ _ => apply opt_wp_ret
  | |- wp (get _) _ _ _ => eapply opt_wp_get; [find_var|]
  | |- wp (put _ _) _ _ _ => apply opt_wp_put
  | |- wp (drop _) _ _ _ => apply opt_wp_drop
  | |- wp ended _ _ _ => apply opt_wp_ended
  | |- wp (element _) _ _ _ => apply opt_wp_element; intros ? ?
  | |- wp (data _) _ _ _ => eapply opt_wp_data; [find_var|]
  | |- wp (on_throw _ _) _ _ _ => apply opt_wp_on_throw
  end; cbn [vars faults trace valid storage] in *.

Ltac steps := repeat step.

(** The variables are what they should be, and so is the balance. *)
Ltac same_vars := apply map_eq; intros ?z; rewrite ?lookup_fmap, ?lookup_insert, ?lookup_delete, ?lookup_insert, ?lookup_fmap;
  repeat case_decide; subst; simplify_map_eq; done.

Lemma ok_intro k m s : vars s = opt_of <$> m → balance (trace s) = engaged m + k → ok k m s.
Proof. done. Qed.

Section statements.
Context (k : Z).

Lemma make_empty_does m x R : m !! x = None → does (make_empty x) k m k (<[x := None]> m) R.
Proof.
  intros Hx s [Hv Hb]. unfold make_empty. steps. split; [|done]. apply ok_intro; cbn [vars trace].
  - by rewrite Hv, fmap_insert.
  - rewrite engaged_new by done. cbn [has]. lia.
Qed.

(** What is given to a constructor. *)
Lemma make_from_does m x ev a : m !! x = None → weight ev = 1 → does (make_from x ev (mret a)) k m k (<[x := Some a]> m) (eq m).
Proof.
  intros Hx He s [Hv Hb]. assert (vars s !! x = None) as Hn by by rewrite Hv, lookup_fmap, Hx.
  unfold make_from, constructor, construct_at. steps.
  - split; [|done]. apply ok_intro; cbn [vars trace]; [rewrite Hv; by rewrite insert_insert_eq, fmap_insert|].
    rewrite balance_snoc, engaged_new by done. cbn [has]. lia.
  - split; [done|]. split; [done|]. exists m. split; [done|]. apply ok_intro; cbn [vars trace]; [by rewrite delete_insert_id|done].
Qed.

(** The end of a statement: its variables, and the account of its elements. *)
Ltac account Hb := repeat rewrite balance_snoc; rewrite Hb; cbn [weight has];
  repeat first [erewrite engaged_set by find_var | erewrite engaged_new by find_var | erewrite engaged_delete by find_var]; cbn [has fmap option_fmap option_map]; lia.

Ltac settle Hv Hb := first
  [ split; [apply ok_intro; cbn [vars trace]; [rewrite ?Hv; same_vars|account Hb]|by auto]
  | split; [done|]; split; [by auto|]; eexists; split; [reflexivity|]; apply ok_intro; cbn [vars trace]; [rewrite ?Hv; same_vars|account Hb] ].

Lemma var_of m s x o : vars s = opt_of <$> m → m !! x = Some o →
  vars s !! x = Some match o with Some a => mkOpt true (Some a) | None => mkOpt false None end.
Proof. intros -> Hx. rewrite lookup_fmap, Hx. by destruct o. Qed.

Lemma var_none m s x : vars s = opt_of <$> m → m !! x = None → vars s !! x = None.
Proof. intros -> Hx. by rewrite lookup_fmap, Hx. Qed.

Lemma copy_construct_does m x y o : m !! x = None → m !! y = Some o → does (copy_construct x y) k m k (<[x := o]> m) (eq m).
Proof.
  intros Hx Hy s [Hv Hb]. pose proof (var_none m s x Hv Hx) as Hn. pose proof (var_of m s y o Hv Hy) as Hw.
  assert (x ≠ y) as Hxy by congruence. unfold copy_construct, constructor, construct_at. destruct o as [a|]; steps; settle Hv Hb.
Qed.

Lemma move_construct_opt m x y o : m !! x = None → m !! y = Some o →
  does (move_construct moved x y) k m k (<[x := o]> (<[y := moved <$> o]> m)) (eq m).
Proof.
  intros Hx Hy s [Hv Hb]. pose proof (var_none m s x Hv Hx) as Hn. pose proof (var_of m s y o Hv Hy) as Hw.
  assert (x ≠ y) as Hxy by congruence. unfold move_construct, constructor, construct_at, data_moved.
  destruct o as [a|]; steps; settle Hv Hb.
Qed.

Lemma copy_assign_opt m x y o o' : m !! x = Some o → m !! y = Some o' → x ≠ y →
  does (copy_assign x y) k m k (<[x := o']> m) (eq m).
Proof.
  intros Hx Hy Hxy s [Hv Hb]. pose proof (var_of m s x o Hv Hx) as Hw. pose proof (var_of m s y o' Hv Hy) as Hw'.
  unfold copy_assign, assign_from, assign, construct_at, destroy_at, set_valid. rewrite decide_False by done.
  destruct o as [a|], o' as [a'|]; steps; settle Hv Hb.
Qed.

Lemma move_assign_opt m x y o o' : m !! x = Some o → m !! y = Some o' → x ≠ y →
  does (move_assign moved x y) k m k (<[x := o']> (<[y := moved <$> o']> m)) (eq m).
Proof.
  intros Hx Hy Hxy s [Hv Hb]. pose proof (var_of m s x o Hv Hx) as Hw. pose proof (var_of m s y o' Hv Hy) as Hw'.
  unfold move_assign, assign_from, assign, construct_at, destroy_at, set_valid, data_moved. rewrite decide_False by done.
  destruct o as [a|], o' as [a'|]; steps; settle Hv Hb.
Qed.

Lemma emplace_does m x o ev a : m !! x = Some o → weight ev = 1 →
  does (emplace x ev (mret a)) k m k (<[x := Some a]> m) (eq (<[x := None]> m)).
Proof.
  intros Hx He s [Hv Hb]. pose proof (var_of m s x o Hv Hx) as Hw. unfold emplace, construct_at, destroy_at, set_valid.
  destruct o as [b|]; steps; settle Hv Hb.
Qed.

Lemma reset_does m x o : m !! x = Some o → does (reset x) k m k (<[x := None]> m) (eq m).
Proof.
  intros Hx s [Hv Hb]. pose proof (var_of m s x o Hv Hx) as Hw. unfold reset, destroy_at, set_valid.
  destruct o as [a|]; steps; settle Hv Hb.
Qed.

Lemma destroy_opt m x o R : m !! x = Some o → does (destroy x) k m k (delete x m) R.
Proof.
  intros Hx s [Hv Hb]. pose proof (var_of m s x o Hv Hx) as Hw. unfold destroy, destroy_at.
  destruct o as [a|]; steps; settle Hv Hb.
Qed.
(** What an exception leaves of two values that were to change places. *)
Inductive swap_stopped x y m : gmap nat (option A) → Prop :=
  | stopped_before : swap_stopped x y m m
  | stopped_taken a : m !! x = Some (Some a) → swap_stopped x y m (<[x := Some (moved a)]> m)
  | stopped_given b : m !! y = Some (Some b) → swap_stopped x y m (<[y := Some (moved b)]> (<[x := Some b]> m)).

Tactic Notation "stopped" ident(Hv) ident(Hb) uconstr(c) := split; [done|]; split; [by auto|]; eexists; split; [by apply c|];
  apply ok_intro; cbn [vars trace]; [rewrite ?Hv; same_vars|account Hb].

Lemma swap_self_does m x o : m !! x = Some o → does (swap moved x x) k m k m (swap_stopped x x m).
Proof.
  intros Hx s [Hv Hb]. pose proof (var_of m s x o Hv Hx) as Hw. unfold swap, swap_elements, assign, data_moved.
  destruct o as [a|]; steps.
  - settle Hv Hb.
  - stopped Hv Hb (stopped_given x x m a).
  - stopped Hv Hb (stopped_taken x x m a).
  - stopped Hv Hb (stopped_before x x m).
  - settle Hv Hb.
Qed.

Lemma swap_opt m x y o o' : m !! x = Some o → m !! y = Some o' → x ≠ y →
  does (swap moved x y) k m k (<[y := o]> (<[x := o']> m)) (swap_stopped x y m).
Proof.
  intros Hx Hy Hxy s [Hv Hb]. pose proof (var_of m s x o Hv Hx) as Hw. pose proof (var_of m s y o' Hv Hy) as Hw'.
  unfold swap, swap_elements, hand_over, construct_at, destroy_at, set_valid, assign, data_moved.
  destruct o as [a|], o' as [b|]; steps; try settle Hv Hb; try stopped Hv Hb (stopped_before x y m).
  - stopped Hv Hb (stopped_given x y m b).
  - stopped Hv Hb (stopped_taken x y m a).
Qed.

(** The value that [value_or] makes lives until the client has done with it. *)
Definition keeps_one (c : M A) m m' (r : A) : Prop := ∀ s, ok k m s →
  wp c (λ a s', a = r ∧ ok (k + 1) m' s' ∧ (faults s = [] → faults s' = []))
    (λ e s', e = ElementError ∧ faults s ≠ [] ∧ ok k m s') s.

Ltac settle_one Hv Hb := first
  [ split; [done|]; split; [apply ok_intro; cbn [vars trace]; [rewrite ?Hv; same_vars|account Hb]|by auto]
  | split; [done|]; split; [by auto|]; apply ok_intro; cbn [vars trace]; [rewrite ?Hv; same_vars|account Hb] ].

Lemma value_or_keeps m x o a : m !! x = Some o → keeps_one (value_or x a) m m (default a o).
Proof.
  intros Hx s [Hv Hb]. pose proof (var_of m s x o Hv Hx) as Hw. unfold value_or. destruct o as [b|]; steps; settle_one Hv Hb.
Qed.

Lemma value_or_moved_keeps m x o a : m !! x = Some o →
  keeps_one (value_or_moved moved x a) m (<[x := moved <$> o]> m) (default a o).
Proof.
  intros Hx s [Hv Hb]. pose proof (var_of m s x o Hv Hx) as Hw. unfold value_or_moved, data_moved.
  destruct o as [b|]; steps; settle_one Hv Hb.
Qed.
End statements.
(** *** Temporaries *)

Lemma from_temporary_does k m x a : m !! x = None → does (from_temporary x a) k m k (<[x := Some a]> m) (eq m).
Proof.
  intros Hx s [Hv Hb]. unfold from_temporary. step; step.
  - assert (ok (k + 1) m (mk (vars s) f (trace s ++ [Made]))) as HO.
    { apply ok_intro; [done|]. cbn [trace]. rewrite balance_snoc. cbn [weight]. lia. }
    apply opt_wp_bind, opt_wp_on_throw. eapply opt_wp_mono; [apply (make_from_does (k + 1) m x Moved a Hx eq_refl _ HO)|..]; cbn beta.
    + intros _ s1 [[Hv1 Hb1] Hq]. apply opt_wp_ended. split; [|cbn in *; auto]. apply ok_intro; [done|]. cbn [trace].
      rewrite balance_snoc. cbn [weight]. lia.
    + intros e s1 (-> & Hf & m'' & <- & Hv1 & Hb1). apply opt_wp_ended. cbn [faults] in *. split; [done|]. split; [auto|].
      exists m. split; [done|]. apply ok_intro; [done|]. cbn [trace]. rewrite balance_snoc. cbn [weight]. lia.
  - split; [done|]. split; [done|]. exists m. by split.
Qed.

Lemma assign_value_does k m x o a : m !! x = Some o → does (assign_value moved x a) k m k (<[x := Some a]> m) (eq m).
Proof.
  intros Hx s HO. set (t := fresh (dom (vars s))).
  assert (m !! t = None) as Ht.
  { destruct HO as [Hv _]. assert (vars s !! t = None) as Hn by (apply not_elem_of_dom, is_fresh).
    rewrite Hv, lookup_fmap in Hn. by destruct (m !! t). }
  assert (x ≠ t) as Hxt by congruence.
  change (wp (make_from t Made (mret a);; on_throw (move_assign moved x t) (destroy t);; destroy t)
    (λ _ s', ok k (<[x := Some a]> m) s' ∧ (faults s = [] → faults s' = []))
    (λ e s', e = ElementError ∧ faults s ≠ [] ∧ ∃ m'', m = m'' ∧ ok k m'' s') s).
  apply opt_wp_bind. eapply opt_wp_mono; [apply (make_from_does k m t Made a Ht eq_refl s HO)| |done]. cbn beta. intros _ s1 [HO1 Hq1].
  apply opt_wp_bind, opt_wp_on_throw.
  eapply opt_wp_mono; [apply (move_assign_opt k (<[t := Some a]> m) x t o (Some a) ltac:(by rewrite lookup_insert_ne) (lookup_insert_eq _ _ _) Hxt s1 HO1)|..].
  - intros _ s2 [HO2 Hq2]. rewrite insert_insert_eq in HO2.
    eapply opt_wp_mono; [apply (destroy_opt k _ t (moved <$> Some a) (eq m) ltac:(rewrite lookup_insert_ne by done; apply lookup_insert_eq) s2 HO2)| |].
    + intros _ s3 [HO3 Hq3]. split; [|auto]. by rewrite delete_insert_ne, delete_insert_id in HO3 by done.
    + intros e s3 (-> & Hf & m'' & <- & HO3). split; [done|]. split; [auto|]. by exists m.
  - intros e s2 (-> & Hf & m'' & <- & HO2).
    eapply opt_wp_mono; [apply (destroy_opt k _ t (Some a) (λ _, False) (lookup_insert_eq _ _ _) s2 HO2)| |naive_solver].
    intros _ s3 [HO3 Hq3]. split; [done|]. split; [auto|]. exists m. split; [done|]. by rewrite delete_insert_id in HO3.
Qed.

(** ** Programs *)

(** A statement of the client. *)
Inductive Op :=
  | MakeEmpty (x : nat)
  | MakeFrom (x : nat) (a : A)
  | MakeFromTemporary (x : nat) (a : A)
  | MakeCopy (x y : nat)
  | MakeMove (x y : nat)
  | Assign (x y : nat)
  | MoveAssign (x y : nat)
  | AssignNullopt (x : nat)
  | AssignValue (x : nat) (a : A)
  | Emplace (x : nat) (a : A)
  | Reset (x : nat)
  | Swap (x y : nat)
  | ValueOr (x : nat) (a : A)
  | ValueOrMoved (x : nat) (a : A)
  | Destroy (x : nat).

Definition run (op : Op) : M unit :=
  match op with
  | MakeEmpty x => make_empty x
  | MakeFrom x a => make_from x Made (mret a)
  | MakeFromTemporary x a => from_temporary x a
  | MakeCopy x y => copy_construct x y
  | MakeMove x y => move_construct moved x y
  | Assign x y => copy_assign x y
  | MoveAssign x y => move_assign moved x y
  | AssignNullopt x => assign_nullopt x
  | AssignValue x a => assign_value moved x a
  | Emplace x a => emplace x Made (mret a)
  | Reset x => reset x
  | Swap x y => swap moved x y
  | ValueOr x a => value_or x a;; ended
  | ValueOrMoved x a => value_or_moved moved x a;; ended
  | Destroy x => destroy x
  end.

(** The statement on optional values, when its variables are in scope; and what it may
    leave when it throws. *)
Definition declare x o m : option (gmap nat (option A)) := guard (m !! x = None);; Some (<[x := o]> m).

Definition spec (op : Op) m : option (gmap nat (option A)) :=
  match op with
  | MakeEmpty x => declare x None m
  | MakeFrom x a | MakeFromTemporary x a => declare x (Some a) m
  | MakeCopy x y => o ← m !! y; declare x o m
  | MakeMove x y => o ← m !! y; guard (m !! x = None);; Some (<[x := o]> (<[y := moved <$> o]> m))
  | Assign x y => _ ← m !! x; o ← m !! y; Some (<[x := o]> m)
  | MoveAssign x y => _ ← m !! x; o ← m !! y; Some (<[x := o]> (if decide (x = y) then m else <[y := moved <$> o]> m))
  | AssignNullopt x | Reset x => _ ← m !! x; Some (<[x := None]> m)
  | AssignValue x a | Emplace x a => _ ← m !! x; Some (<[x := Some a]> m)
  | Swap x y => o ← m !! x; o' ← m !! y; Some (<[y := o]> (<[x := o']> m))
  | ValueOr x _ => _ ← m !! x; Some m
  | ValueOrMoved x _ => o ← m !! x; Some (<[x := moved <$> o]> m)
  | Destroy x => _ ← m !! x; Some (delete x m)
  end.

Definition left_by (op : Op) m : gmap nat (option A) → Prop :=
  match op with Emplace x _ => eq (<[x := None]> m) | Swap x y => swap_stopped x y m | _ => eq m end.

Lemma keeps_ended c m m' r : keeps_one 0 c m m' r → does (c;; ended) 0 m 0 m' (eq m).
Proof.
  intros Hc s HO. apply opt_wp_bind. eapply opt_wp_mono; [by apply Hc|..]; cbn beta; [|naive_solver].
  intros a s1 (_ & [Hv Hb] & Hq). apply opt_wp_ended. split; [|done]. apply ok_intro; [done|]. cbn [trace].
  rewrite balance_snoc. cbn [weight]. lia.
Qed.

Lemma run_opt op m m' : spec op m = Some m' → does (run op) 0 m 0 m' (left_by op m).
Proof.
  intros Ho. destruct op; cbn [spec run left_by] in *; unfold declare in *;
    repeat (apply bind_Some in Ho as (? & ? & Ho)); simplify_eq.
  - by apply make_empty_does.
  - by apply make_from_does.
  - by apply from_temporary_does.
  - by apply copy_construct_does.
  - by apply move_construct_opt.
  - destruct (decide (x = y)) as [->|Hxy]; [|by eapply copy_assign_opt]. simplify_eq. rewrite insert_id by done.
    unfold copy_assign, assign_from. rewrite decide_True by done. by intros s HO.
  - case_decide as Hxy; [|by eapply move_assign_opt]. subst. simplify_eq. rewrite insert_id by done.
    unfold move_assign, assign_from. rewrite decide_True by done. by intros s HO.
  - by eapply reset_does.
  - by eapply assign_value_does.
  - by eapply emplace_does.
  - by eapply reset_does.
  - destruct (decide (x = y)) as [->|Hxy]; [|by apply swap_opt]. simplify_eq. rewrite !insert_id by (by rewrite ?insert_id).
    by eapply swap_self_does.
  - eapply keeps_ended. by apply value_or_keeps.
  - eapply keeps_ended. by apply value_or_moved_keeps.
  - by eapply destroy_opt.
Qed.

(** The values of a state. *)
Definition vals s : gmap nat (option A) := storage <$> vars s.

Lemma ok_vals k m s : ok k m s → vals s = m.
Proof.
  intros [Hv _]. unfold vals. rewrite Hv, <-map_fmap_compose. rewrite <-(map_fmap_id m) at 2. by apply map_fmap_ext.
Qed.

Definition with_faults (f : list bool) s : t := mk (vars s) f (trace s).

(** What a client can come to, whatever throws: it makes statements whose variables are in
    scope, and catches what they throw. *)
Inductive reaches : t (A := A) → Prop :=
  | reaches_start : reaches (mk ∅ [] [])
  | reaches_done op m' s f s' : reaches s → spec op (vals s) = Some m' → run op (with_faults f s) = Done () s' → reaches s'
  | reaches_thrown op m' s f e s' : reaches s → spec op (vals s) = Some m' → run op (with_faults f s) = Thrown e s' → reaches s'.

(** One more statement. *)
Lemma run_next op m' s f : ok 0 (vals s) s → spec op (vals s) = Some m' →
  (∃ s', run op (with_faults f s) = Done () s' ∧ vals s' = m' ∧ ok 0 (vals s') s') ∨
  (f ≠ [] ∧ ∃ s', run op (with_faults f s) = Thrown ElementError s' ∧ left_by op (vals s) (vals s') ∧ ok 0 (vals s') s').
Proof.
  intros HO Ho. pose proof (run_opt op (vals s) m' Ho (with_faults f s) HO) as Hd. unfold wp in Hd.
  destruct (run op (with_faults f s)) as [[] s'|e s'|]; [| |done].
  - left. exists s'. destruct Hd as [HO' _]. pose proof (ok_vals _ _ _ HO') as E. by rewrite E.
  - right. destruct Hd as (-> & Hf & m'' & Hl & HO'). pose proof (ok_vals _ _ _ HO') as E. split; [done|]. exists s'. by rewrite E.
Qed.

Lemma opts_reached s : reaches s → ok 0 (vals s) s.
Proof.
  induction 1 as [|op m' s f s' _ IH Ho E|op m' s f e s' _ IH Ho E]; [by split|..];
    destruct (run_next op m' s f IH Ho) as [(s1 & E1 & _ & HO)|(_ & s1 & E1 & _ & HO)]; congruence.
Qed.

(** What a client sees of a variable with the value [o]. *)
Definition shows s x o : Prop :=
  has_value x s = Done (bool_decide (is_Some o)) s ∧
  value x s = match o with Some a => Done a s | None => Thrown BadOptionalAccess s end ∧
  (∀ a, o = Some a → deref x s = Done a s) ∧
  equal_nullopt x s = Done (bool_decide (o = None)) s ∧
  ∀ a f, match value_or x a (with_faults f s) with
         | Done r _ => r = default a o | Thrown _ _ => f ≠ [] | Undefined => False end.

Lemma ok_shows m s x o : ok 0 m s → m !! x = Some o → shows s x o.
Proof.
  intros HO Hx. pose proof HO as [Hv _]. pose proof (var_of m s x o Hv Hx) as Hw.
  unfold shows, has_value, value, deref, data, equal_nullopt, mbind, M_bind, get. rewrite Hw. split_and!.
  - by destruct o.
  - destruct o; cbn; by rewrite ?Hw.
  - intros a ->. by rewrite ?Hw.
  - by destruct o.
  - intros a f. pose proof (value_or_keeps 0 m x o a Hx (with_faults f s) HO) as Hk. unfold wp in Hk.
    destruct (value_or x a (with_faults f s)); [by destruct Hk|by destruct Hk as (_ & ? & _)|done].
Qed.

Lemma ok_equal m s x y o o' : ok 0 m s → m !! x = Some o → m !! y = Some o' → equal x y s = Done (bool_decide (o = o')) s.
Proof.
  intros [Hv _] Hx Hy. pose proof (var_of m s x o Hv Hx) as Hw. pose proof (var_of m s y o' Hv Hy) as Hw'.
  unfold equal, data, mbind, M_bind, get. rewrite Hw, Hw'. destruct o as [a|], o' as [b|]; [|done..].
  rewrite (bool_decide_eq_true_2 (valid (mkOpt true (Some a)) = _)) by done. cbn. rewrite Hw, Hw'.
  unfold mret, M_ret. f_equal. apply bool_decide_ext. split; congruence.
Qed.

(** C38: an [Optional] is an optional value, whatever throws. Whatever a client has done,
    catching what its elements threw: every flag tells whether there is an element, which
    is the one shown; and exactly the elements shown are alive, each made once and
    destroyed once, so that none is left when no variable is. Whatever it does next is
    defined: it does what it does to optional values, or an element throws, and then the
    values are what they were, except that an [emplace] leaves none and a swap may leave
    its elements moved from. *)
Theorem optionals_are_options s : reaches s →
  (∀ x o, vals s !! x = Some o → shows s x o) ∧
  (∀ x y o o', vals s !! x = Some o → vals s !! y = Some o' → equal x y s = Done (bool_decide (o = o')) s) ∧
  balance (trace s) = engaged (vals s) ∧ (vars s = ∅ → balance (trace s) = 0) ∧
  ∀ op m' f, spec op (vals s) = Some m' →
    (∃ s', run op (with_faults f s) = Done () s' ∧ vals s' = m' ∧ reaches s') ∨
    (f ≠ [] ∧ ∃ s', run op (with_faults f s) = Thrown ElementError s' ∧ left_by op (vals s) (vals s') ∧ reaches s').
Proof.
  intros HR. pose proof (opts_reached s HR) as HO. pose proof HO as [_ Hb]. rewrite Z.add_0_r in Hb. split; [|split; [|split; [|split]]].
  - intros x o Hx. by apply (ok_shows (vals s)).
  - intros x y o o' Hx Hy. by apply (ok_equal (vals s)).
  - done.
  - intros Hn. rewrite Hb. unfold vals. rewrite Hn. done.
  - intros op m' f Ho. destruct (run_next op m' s f HO Ho) as [(s' & E & Hv & _)|(Hf & s' & E & Hl & _)].
    + left. exists s'. split; [done|]. split; [done|]. by eapply reaches_done.
    + right. split; [done|]. exists s'. split; [done|]. split; [done|]. by eapply reaches_thrown.
Qed.
End props.

(** The statements of the file's tests, with what its [Tracker] counts. *)
Fixpoint program (ops : list (Op (A := Z))) : M unit :=
  match ops with [] => mret () | op :: ops => run id op;; program ops end.

Definition start : t (A := Z) := mk ∅ [] [].

Definition told (ops : list (Op (A := Z))) : list event := match program ops start with Done _ s => trace s | _ => [] end.

Example test_copy_move : let tr := told [MakeFromTemporary 0 5; MakeCopy 1 0; MakeMove 2 0] in
  constructions tr = 1 ∧ copies tr = 1 ∧ moves tr = 2.
Proof. vm_compute. done. Qed.

Example test_assignment : let tr := told [MakeFromTemporary 0 1; MakeEmpty 1; Assign 1 0; MakeEmpty 2; MoveAssign 2 0] in
  copies tr = 1 ∧ moves tr = 2.
Proof. vm_compute. done. Qed.

Example test_emplace : let tr := told [MakeEmpty 0; Emplace 0 100; Emplace 0 200] in
  constructions tr = 2 ∧ destructions tr = 1.
Proof. vm_compute. done. Qed.

Example test_lifetime_destruction : destructions (told [MakeFromTemporary 0 5; Destroy 0]) = 2.
Proof. vm_compute. done. Qed.

(** A value is made, and another one cannot be. *)
Lemma optionals_are_options_witness : ∃ s, reaches id s ∧ value 0 s = Done 5 s ∧
  ∃ s', run id (Emplace 0 7) (with_faults [true] s) = Thrown ElementError s' ∧ balance (trace s') = 0.
Proof.
  assert (reaches id start) as HR0 by constructor.
  destruct (optionals_are_options id start HR0) as (_ & _ & _ & _ & Hnext).
  destruct (Hnext (MakeFrom 0 5) {[0%nat := Some 5]} []) as [(s & E & Hv & HR)|[Hf _]]; [reflexivity| |done].
  exists s. split; [exact HR|]. destruct (optionals_are_options id s HR) as (Hs & _ & _ & _ & Hnext').
  destruct (Hs 0%nat (Some 5)) as (_ & Hval & _); [by rewrite Hv|]. split; [exact Hval|].
  destruct (Hnext' (Emplace 0 7) {[0%nat := Some 7]} [true]) as [(s' & E' & _)|(_ & s' & E' & Hl & HR')]; [by rewrite Hv| |].
  - vm_compute in E. injection E as <-. vm_compute in E'. discriminate E'.
  - exists s'. split; [exact E'|]. destruct (optionals_are_options id s' HR') as (_ & _ & Hb & _). rewrite Hb.
    cbn [left_by] in Hl. rewrite <-Hl, Hv. vm_compute. reflexivity.
Defined.
End OptionalProps.
